(* ===== verification/_CoqProject ===== *)
-Q . S2P
Prelude.v
Numerals.v
Errors.v
Buffer.v
Grammar.v
Message.v
Lines.v
RequestParser.v
RequestFraming.v
RequestParserInv.v
Incremental.v
ParserRefinement.v
ResponseParser.v
ResponseParserInv.v
Serializer.v
RoundTrip.v
ChunkRoundTrip.v
Timers.v
EventLoop.v
EventLoopInv.v
EventLoopLedger.v
EventLoopArmed.v
EventLoopBatch.v
Pollers.v
LoopCreate.v
Wakeup.v
Iocp.v
IocpRun.v
IocpCalls.v
IocpInv.v
IocpLedger.v
IocpVerdict.v
IocpSafety.v
IocpProgress.v
Streams.v
Writer.v
Connection.v
ServeRequest.v
Client.v
ClientInv.v
LoopIo.v
Endpoint.v
Datagram.v
Sockets.v
Resolver.v
ResolverInv.v
ResolverLive.v
Alpn.v
TlsEngine.v
TlsContext.v
TlsCreate.v
TlsStream.v
Tasks.v
TaskScope.v
Sums.v
Http2.v
Http2Inv.v
Http2Headers.v
Http2Connection.v
DatagramConnection.v
DatagramPump.v
Quic.v
QuicLaws.v
QuicInv.v
QuicStreams.v
QuicConnection.v
Http3.v
Http3Laws.v
Http3Inv.v
Http3Flow.v
Http3Connection.v
