(* ===== verification/Prelude.v ===== *)
(** * Mira: a verification of the networking library under src/modules

    ** The program

    Mira is a C++ coroutine networking library.  [core] has byte buffers, errors,
    stream concepts, tasks and task scopes, and an event loop for POSIX and one for
    Windows (timers, readiness or completions, posted work, cancellation, system
    calls); [transport] has addresses, TCP and UDP sockets and a
    name resolver on a thread pool; [tls] configurations, a TLS engine and the stream over it;
    [http] an HTTP/1 parser, serialiser, server and client;
    [http2] a session over nghttp2 and the connection that drives it; [quic] an
    engine over ngtcp2 and its connection on a datagram socket; [http3] an engine
    over nghttp3 and the QUIC engine, with its own connection.  A protocol is written
    against a stream ([BoundedStream] here), which a socket implements on top of the
    event loop and TLS on top of another stream, or against a datagram transport
    ([DatagramTransport]); the development has the same seams, as classes of
    operations with classes of laws.

    ** Reading the models

    A method that changes its object and may fail is a function from the state to
    an [Outcome]: a value and a state, an error and a state, or [OutOfFuel].  A
    loop is [iter] with a fuel.  [wp] says that the fuel is enough and what holds at
    the end; [wlp] says what holds at the end, for the loops of which nothing in the
    source or its documentation says that they end.  Data keep the
    source's names; a [std::size_t] is a [Z] or a [nat] with [wrap64] where the
    source can wrap; member [x_] of a class is the field of that name, with a
    prefix where two classes have the same member.

    ** Files, parts and theorems

    - [Prelude]: bytes, machine integers, outcomes, loops, tactics, hints.
    - [Numerals], [Errors]: std::from_chars and printing; core/error.hpp and
      core/src/error.cpp.
    - [Buffer] (core/buffer.hpp): storage, cursors and reclaiming; it refines a
      queue of bytes.
    - [Grammar], [Message], [Lines] (http/src/grammar.hpp, message, the line
      reader and integers of http/src/parser.cpp).
    - [RequestParser], with [RequestFraming], [RequestParserInv], [Incremental],
      [ParserRefinement] (http/src/parser.cpp): the state machine; which framings
      are accepted, its invariant and limits, independence of how the input is cut
      (and where that fails), the refinement to a queue of bytes.
    - [ResponseParser], [ResponseParserInv] (http/src/response_parser.cpp).
    - [Serializer], [RoundTrip], [ChunkRoundTrip] (http/src/serializer.cpp): what is
      written is what the parser reads.
    - [Timers] (core/src/loop_common.hpp), [EventLoop] with [EventLoopInv],
      [EventLoopLedger], [EventLoopArmed], [EventLoopBatch]
      (core/src/event_loop_posix.cpp, poller_epoll.cpp): waits, timers,
      cancellation and iterations as a step relation; every operation is resolved
      exactly once, by the rule of precedence, and waits stay armed.
    - [Pollers] (poller_epoll.cpp, poller_kqueue.cpp): the two backends of readiness;
      epoll implements the poller of [EventLoop], failing calls included, and what
      kqueue does.
    - [LoopCreate] (event_loop_posix.cpp): creating and destroying a loop leaks nothing.
    - [Wakeup] (event_loop_posix.cpp): the wake-up pipe as interleavings of threads with
      the sections of run_once; when the calls of wake already begun wake a blocked
      loop, and a run in which it does not wake.
    - [Iocp], [IocpRun], [IocpCalls], [IocpInv], [IocpLedger], [IocpVerdict],
      [IocpSafety], [IocpProgress] (core/src/event_loop_iocp.cpp): the Windows loop.
      [Iocp] has its state and operations, [IocpRun] its runs as interleavings of the
      loop's thread, other threads and the kernel.  The kernel never touches freed
      memory, suspensions are resolved exactly once and with an answer that fits,
      accepted sockets are owned, shutdown ends, no wake-up is lost.
    - [LoopIo] (event_loop_posix.cpp, transport/src/tcp.cpp): read, write, writev,
      accept and connect over a parameter for the kernel; a socket keeps the
      contract of a stream.
    - [Endpoint] (transport/src/endpoint.cpp): socket addresses as bytes and as text;
      parsing, printing and the bytes the kernel sees correspond.
    - [Datagram] (event_loop_posix.cpp, transport/src/udp.cpp): the table of datagram
      operations and receive_from / send_to; whole packets, no use after detach.
    - [Sockets] (transport/src/socket_compat.hpp, tcp.cpp, udp.cpp): creation,
      options, listening, accepting, connecting, closing; exactly the configuration
      asked for, and no descriptor leaks.
    - [Resolver], [ResolverInv], [ResolverLive] (transport/src/resolver.cpp): threads,
      calls, stop callbacks and the destructor as a transition system at the
      granularity of critical sections; its invariant, the answers calls get, and
      that every schedule brings every call to its end.
    - [Streams] (core/stream.hpp): the contract, write_all and writev_all.
    - [Writer], [Connection], [ServeRequest] (http/connection.hpp): the writer does what
      a reference without streams and flags says, which is one response per request;
      the request the handler gets is the one that was sent.
    - [Client], [ClientInv] (http/client.hpp).
    - [Tasks] (core/task.hpp, core/src/event_loop_common.cpp): coroutine frames, awaiters
      and run_until_complete as a machine with a heap; it computes what the direct-style
      evaluation of a program of tasks does, and nothing dangles.
    - [TaskScope] (core/task_scope.hpp): children, join and the life of the runner
      frames, as a step relation in which a destroyed frame can be touched.
    - [Alpn], [TlsContext] (tls/src/context.cpp): protocol lists and the choice among
      them without reading out of bounds; the settings of every context, and no leaks.
    - [TlsCreate] (Engine::create), [TlsEngine] (tls/src/engine.cpp), [TlsStream] (tls/stream.hpp): operations over
      any stream and any library; ciphertext goes out complete and in order, down
      to the kernel when the stream is a socket.
    - [Http2], [Http2Inv], [Http2Headers], [Http2Connection] (http2/src/session.cpp,
      http2/connection.hpp): callbacks and operations over a parameter for nghttp2;
      the limits, flow-control credit, which header lists are sent, and the driver.
    - [Sums]: totals over finite maps, for the budgets of the engines.
    - [Quic], [QuicLaws], [QuicInv], [QuicStreams] (quic/src/engine.cpp): the engine's
      callbacks and operations, what ngtcp2 promises, the budgets, and the bytes and
      credit of each stream, in order and exactly once.
    - [DatagramConnection], [DatagramPump] (the code quic/connection.hpp and
      http3/connection.hpp share): flush, pump and the event queue over any engine
      and transport: the engine sees what the application asks and what comes in for
      it, in order, and what it produces goes out ([tracked]).
    - [QuicConnection] (quic/connection.hpp): the connection's operations as a run of
      the engine, reads in order, the handshake, and runs in which the driver misses a deadline or loses
      a chunk.
    - [Http3], [Http3Laws], [Http3Inv], [Http3Flow] (http3/src/engine.cpp): the engine
      over nghttp3 and over [Quic]; the limits, and that the two engines agree on
      the flow-control credit of every stream.
    - [Http3Connection] (http3/connection.hpp): heads and bodies, in order.

    ** Parameters

    The kernel ([Kernel], [DescriptorLaws], [ConnectionLaws]; [DatagramKernel],
    [DatagramLaws]; [SocketKernel], [SocketLaws]), the address functions of the C
    library ([Inet], [InetLaws]), epoll, kqueue and pipes ([Epoll], [EpollLaws];
    [Kqueue], [KqueueLaws]; [PipeKernel], [PipeLaws]), the TLS library ([Ssl],
    [SslLaws] for a running session; [SslCtx], [SslCtxLaws] and [SslNew], [SslNewLaws]
    for making contexts and sessions), nghttp2
    ([Nghttp2], [Nghttp2Laws]), ngtcp2 ([Ngtcp2], [Ngtcp2Writes], [Ngtcp2Laws],
    [Ngtcp2Window]), nghttp3 ([Nghttp3], [Nghttp3Laws]) and the datagram transport
    ([DatagramTransport], [TransportLaws]) are classes whose laws state what their
    documentation promises; each has an instance that runs ([ToyQuic], [ToyH3],
    [Net] for the last three), and the witnesses of the theorems run on it.  On
    Windows the kernel's answers are moves of a run.  The resolver's backend is a
    relation between queries and answers; getaddrinfo is an argument of the system's
    backend.  A library that calls back is a tree of callbacks and answers ([Calls],
    [Run], [HRun]).

    ** Fuel

    Every loop's fuel is computed from its state and proved to be enough: two more
    than the unread input for a parser, one more than the bytes for a write, the
    length for [receive]; and for loops that end because of their surroundings a
    measure of those: the bytes pending in a BIO, the session's backlog, and how many
    datagrams and timeouts will still come ([dg_patience]).  The loops around a system
    call ([retry]) and around the TLS library ([drive]) go on for as long as the kernel
    or the library puts them off, and nothing bounds that: [k_rounds] and [ssl_rounds]
    are only how many rounds a run is followed, any number, and the theorems say what
    a run that is still going has done in each of them.  Only where an end is claimed
    ([write_all] over TLS over a socket) do the classes [Patient] and [SslPatient]
    assume that it is put off finitely often.  The rounds of a flush (64) and of an HTTP/3
    poll (16) are the source's own.  The
    resolver has no fuel: [remaining] is a measure that every step decreases, and
    [closing_left] is the one for the shutdown of the Windows loop.  A program of tasks
    is a finite tree; the steps of its machine are shown to be finitely many.  The
    server's read loop is shown to end after finitely many rounds on a stream that
    delivers finitely many bytes.

    ** Not modelled

    The start-up of Winsock and the creation of the completion port, executors (a
    concept for the host's scheduler), the methods of the loop object that forward to
    its implementation, run() and moves of loop, socket and connection objects, the
    configuration calls of nghttp2, ngtcp2 and nghttp3 (what they configure is a law of
    the library), random numbers, and the example programs.  Allocation failure is not
    an outcome of the models. *)

From stdpp Require Export base tactics option list numbers sets relations.
From Stdlib Require Export Strings.Byte ZArith Lia.
From Stdlib Require Strings.String.
Export String.StringSyntax.

(** ** Bytes and byte strings *)

Abbreviation bytes := (list byte).

(** The numeric value of an [unsigned char]. *)
Definition code (b : byte) : Z := Z.of_N (Byte.to_N b).

(** [static_cast<unsigned char>] of an integer. *)
Definition byte_of (z : Z) : byte := default x00 (Byte.of_N (Z.to_N (z mod 256))).

(** Literal text of the source, as the bytes it denotes. *)
Definition lit (s : String.string) : bytes := String.list_byte_of_string s.
Arguments lit s%_string_scope.

Definition CR : byte := x0d.
Definition LF : byte := x0a.
Definition SP : byte := x20.
Definition HTAB : byte := x09.
Definition COLON : byte := x3a.
Definition COMMA : byte := x2c.
Definition SEMICOLON : byte := x3b.
Definition CRLF : bytes := [CR; LF].

(** [std::string_view::size] of a view, as the [size_t] it returns. *)
Definition len (l : bytes) : Z := Z.of_nat (length l).

(** [std::string_view::find(c)]: the first position of [c], [None] for [npos]. *)
Fixpoint find (c : byte) (l : bytes) : option nat :=
  match l with
  | [] => None
  | b :: l' => if Byte.eqb b c then Some 0%nat else S <$> find c l'
  end.

(** [std::string_view::find(c, pos)]. *)
Definition find_from (c : byte) (pos : nat) (l : bytes) : option nat :=
  (fun i => (pos + i)%nat) <$> find c (drop pos l).

(** [text.substr(0, n)] where [n] may be [npos]. *)
Definition prefix_to (n : option nat) (l : bytes) : bytes :=
  match n with Some i => take i l | None => l end.

(** Byte-string equality, [operator==] on [std::string_view]. *)
Fixpoint bytes_eqb (a b : bytes) : bool :=
  match a, b with
  | [], [] => true
  | x :: a', y :: b' => Byte.eqb x y && bytes_eqb a' b'
  | _, _ => false
  end.

(** ** Machine integers *)

(** Reduction of an arithmetic result to [std::uint64_t] / [std::size_t] (LP64). *)
Definition wrap64 (z : Z) : Z := z mod 2 ^ 64.

Definition UINT64_MAX : Z := 2 ^ 64 - 1.

(** [static_cast<int>] of a 64-bit count: two's complement truncation to 32 bits. *)
Definition to_int32 (z : Z) : Z := (z + 2 ^ 31) mod 2 ^ 32 - 2 ^ 31.

(** ** Outcomes of effectful code

    A coroutine or a method that mutates [S] and returns [std::expected<A, E>]
    is a function [S -> Outcome E S A].  The state is part of both the success
    and the failure, because the source keeps its mutations when it returns an
    error.  [OutOfFuel] is not a behaviour of the program: it marks a fuelled
    loop that was given too little fuel, and every loop of the development has
    a theorem that its own fuel is enough. *)
Inductive Outcome (E S A : Type) : Type :=
| Returns (a : A) (s : S)
| Fails (e : E) (s : S)
| OutOfFuel.
Arguments Returns {E S A} a s.
Arguments Fails {E S A} e s.
Arguments OutOfFuel {E S A}.

Definition out_bind {E S A B} (m : S -> Outcome E S A) (k : A -> S -> Outcome E S B)
    (s : S) : Outcome E S B :=
  match m s with
  | Returns a s' => k a s'
  | Fails e s' => Fails e s'
  | OutOfFuel => OutOfFuel
  end.

Definition out_ret {E S A} (a : A) (s : S) : Outcome E S A := Returns a s.
Definition out_fail {E S A} (e : E) (s : S) : Outcome E S A := Fails e s.
Definition out_get {E S} (s : S) : Outcome E S S := Returns s s.
Definition out_modify {E S} (f : S -> S) (s : S) : Outcome E S unit := Returns tt (f s).

(** [if (!cond) return fail(e);] *)
Definition require {E S} (cond : bool) (e : E) (s : S) : Outcome E S unit :=
  if cond then Returns tt s else Fails e s.

Declare Scope mira_scope.
Delimit Scope mira_scope with mira.
Notation "'let!' x ':=' m 'in' k" := (out_bind m (fun x => k))
  (at level 10, x pattern, m at level 100, k at level 200) : mira_scope.
Notation "m ';;;' k" := (out_bind m (fun _ => k))
  (at level 110, right associativity) : mira_scope.

(** [for (;;) { ... }]: one run of [body] returns [None] to go round again and
    [Some a] to leave the loop with [a]. *)
Fixpoint iter {E S A} (fuel : nat) (body : S -> Outcome E S (option A)) (s : S)
    : Outcome E S A :=
  match fuel with
  | O => OutOfFuel
  | Datatypes.S n =>
      match body s with
      | Returns (Some a) s' => Returns a s'
      | Returns None s' => iter n body s'
      | Fails e s' => Fails e s'
      | OutOfFuel => OutOfFuel
      end
  end.

(** Total-correctness triples: [m] started in [s] ends, with [Q] when it
    returns and [R] when it fails. *)
Definition wp {E S A} (m : S -> Outcome E S A) (s : S)
    (Q : A -> S -> Prop) (R : E -> S -> Prop) : Prop :=
  match m s with
  | Returns a s' => Q a s'
  | Fails e s' => R e s'
  | OutOfFuel => False
  end.

(** The same of every computation that ends, and nothing of one that does not. *)
Definition wlp {E S A} (m : S -> Outcome E S A) (s : S)
    (Q : A -> S -> Prop) (R : E -> S -> Prop) : Prop :=
  match m s with
  | Returns a s' => Q a s'
  | Fails e s' => R e s'
  | OutOfFuel => True
  end.

(** ** Hint databases and tactics *)

Create HintDb mira.

(** Case analysis on the scrutinee of the first [match] or [if] of the goal. *)
Ltac split_match :=
  match goal with
  | |- context [match ?x with _ => _ end] => destruct x eqn:?
  end.

(** Case analysis on a scrutinee that is not itself a [match]. *)
Tactic Notation "split_inner" "as" ident(E) :=
  match goal with
  | |- context [match ?x with _ => _ end] =>
      lazymatch x with
      | context [match _ with _ => _ end] => fail
      | _ => destruct x eqn:E
      end
  end.
Tactic Notation "split_inner" := let E := fresh in split_inner as E.

(** The same on a hypothesis. *)
Ltac split_match_in H :=
  match type of H with
  | context [match ?x with _ => _ end] => destruct x eqn:?
  end.

(** Turn boolean tests of the source into propositions for [lia]. *)
Ltac bool_facts :=
  repeat match goal with
  | H : (_ && _) = true |- _ => apply andb_true_iff in H; destruct H
  | H : (_ || _) = false |- _ => apply orb_false_iff in H; destruct H
  | H : negb _ = true |- _ => apply negb_true_iff in H
  | H : negb _ = false |- _ => apply negb_false_iff in H
  | H : (_ <? _)%Z = true |- _ => apply Z.ltb_lt in H
  | H : (_ <? _)%Z = false |- _ => apply Z.ltb_ge in H
  | H : (_ <=? _)%Z = true |- _ => apply Z.leb_le in H
  | H : (_ <=? _)%Z = false |- _ => apply Z.leb_gt in H
  | H : (_ =? _)%Z = true |- _ => apply Z.eqb_eq in H
  | H : (_ =? _)%Z = false |- _ => apply Z.eqb_neq in H
  | H : (_ =? _)%nat = true |- _ => apply Nat.eqb_eq in H
  | H : (_ =? _)%nat = false |- _ => apply Nat.eqb_neq in H
  | H : (_ <? _)%nat = true |- _ => apply Nat.ltb_lt in H
  | H : (_ <? _)%nat = false |- _ => apply Nat.ltb_ge in H
  end.

(** ** Generic lemmas: bytes *)

#[export] Instance byte_eq_dec : EqDecision byte := Byte.byte_eq_dec.

Lemma byte_eqb_eq a b : Byte.eqb a b = true <-> a = b.
Proof. split; [apply Byte.byte_dec_bl | apply Byte.byte_dec_lb]. Qed.

Lemma byte_eqb_neq a b : Byte.eqb a b = false <-> a <> b.
Proof. rewrite <- byte_eqb_eq. by destruct (Byte.eqb a b). Qed.

Lemma byte_eqb_refl a : Byte.eqb a a = true.
Proof. by apply byte_eqb_eq. Qed.

Lemma code_range b : (0 <= code b < 256)%Z.
Proof. unfold code. pose proof (Byte.to_N_bounded b). lia. Qed.

Lemma code_byte_of z : code (byte_of z) = (z mod 256)%Z.
Proof.
  unfold byte_of, code. pose proof (Z.mod_pos_bound z 256 ltac:(lia)) as Hr.
  destruct (Byte.of_N (Z.to_N (z mod 256))) as [b|] eqn:E; simpl.
  - apply Byte.to_of_N in E. rewrite E. lia.
  - apply Byte.of_N_None_iff in E. lia.
Qed.

Lemma byte_of_code b : byte_of (code b) = b.
Proof. destruct b; reflexivity. Qed.

Lemma bytes_eqb_eq a b : bytes_eqb a b = true <-> a = b.
Proof.
  revert b; induction a as [|x a IH]; intros [|y b]; simpl; try done.
  rewrite andb_true_iff, byte_eqb_eq, IH. split; [by intros [-> ->]|by intros [= -> ->]].
Qed.

Lemma bytes_eqb_refl a : bytes_eqb a a = true.
Proof. by apply bytes_eqb_eq. Qed.

Lemma bytes_eqb_neq a b : bytes_eqb a b = false <-> a <> b.
Proof. rewrite <- bytes_eqb_eq. by destruct (bytes_eqb a b). Qed.

Lemma len_app a b : len (a ++ b) = (len a + len b)%Z.
Proof. unfold len. rewrite length_app. lia. Qed.

Lemma len_nonneg a : (0 <= len a)%Z.
Proof. unfold len. lia. Qed.

Lemma ltb_false (a b : Z) : (b <= a)%Z -> (a <? b)%Z = false.
Proof. intros. by apply Z.ltb_ge. Qed.

(** ** Generic lemmas: [find] *)

Lemma find_Some c l i :
  find c l = Some i <-> l !! i = Some c /\ (c ∉ take i l).
Proof.
  revert i; induction l as [|b l IH]; intros i; simpl.
  { split; [done|]. intros [H _]. by rewrite lookup_nil in H. }
  destruct (Byte.eqb b c) eqn:E.
  - apply byte_eqb_eq in E as ->. split.
    + intros [= <-]. simpl. split; [done | apply not_elem_of_nil].
    + intros [H Hn]. destruct i as [|i]; [done|]. simpl in Hn. set_solver.
  - apply byte_eqb_neq in E. rewrite fmap_Some. split.
    + intros (j & F%IH & ->). destruct F. simpl. set_solver.
    + intros [H Hn]. destruct i as [|i]; simpl in *; [congruence|].
      exists i. rewrite IH. set_solver.
Qed.

Lemma find_None c l : find c l = None <-> c ∉ l.
Proof.
  induction l as [|b l IH]; simpl; [set_solver|].
  destruct (Byte.eqb b c) eqn:E.
  - apply byte_eqb_eq in E as ->. set_solver.
  - apply byte_eqb_neq in E. rewrite fmap_None, IH. set_solver.
Qed.

Lemma find_app c l1 l2 :
  find c (l1 ++ l2) =
  match find c l1 with
  | Some i => Some i
  | None => (fun i => (length l1 + i)%nat) <$> find c l2
  end.
Proof.
  induction l1 as [|b l1 IH]; simpl.
  - by destruct (find c l2).
  - destruct (Byte.eqb b c); [done|]. rewrite IH.
    destruct (find c l1); simpl; [done|]. by destruct (find c l2).
Qed.

Lemma find_app_l c l1 l2 i : find c l1 = Some i -> find c (l1 ++ l2) = Some i.
Proof. intros H. by rewrite find_app, H. Qed.

(** The first occurrence right after a prefix that does not hold the byte. *)
Lemma find_here c l1 l2 : c ∉ l1 -> find c (l1 ++ c :: l2) = Some (length l1).
Proof.
  intros H%find_None. rewrite find_app, H. simpl. rewrite byte_eqb_refl. simpl.
  f_equal. lia.
Qed.

Lemma find_split c l i :
  find c l = Some i -> l = take i l ++ c :: drop (S i) l.
Proof. intros [H _]%find_Some. by rewrite take_drop_middle. Qed.

Lemma find_lt c l i : find c l = Some i -> (i < length l)%nat.
Proof. intros [H _]%find_Some. by eapply lookup_lt_Some. Qed.

Lemma find_in_take c l i j : (j <= i)%nat -> find c l = Some i -> find c (take j l) = None.
Proof.
  intros Hle [_ H]%find_Some. apply find_None. intros Hin. apply H.
  rewrite <- (take_drop j (take i l)), take_take, Nat.min_l by done. set_solver.
Qed.

(** ** Generic lemmas: outcomes *)

Lemma wp_bind {E S A B} (m : S -> Outcome E S A) (k : A -> S -> Outcome E S B) s Q R :
  wp m s (fun a s' => wp (k a) s' Q R) R -> wp (out_bind m k) s Q R.
Proof. unfold wp, out_bind. by destruct (m s). Qed.

Lemma wp_mono {E S A} (m : S -> Outcome E S A) s (Q Q' : A -> S -> Prop) (R R' : E -> S -> Prop) :
  wp m s Q R -> (forall a s', Q a s' -> Q' a s') -> (forall e s', R e s' -> R' e s') ->
  wp m s Q' R'.
Proof. unfold wp. destruct (m s); naive_solver. Qed.

Lemma wp_ret {E S A} (a : A) (s : S) (Q : A -> S -> Prop) (R : E -> S -> Prop) :
  Q a s -> wp (out_ret a) s Q R.
Proof. done. Qed.

Lemma wp_require {E S} cond (e : E) (s : S) (Q : unit -> S -> Prop) (R : E -> S -> Prop) :
  (cond = true -> Q tt s) -> (cond = false -> R e s) -> wp (require cond e) s Q R.
Proof. unfold wp, require. destruct cond; auto. Qed.

Lemma wp_wlp {E S A} (m : S -> Outcome E S A) s Q R : wp m s Q R -> wlp m s Q R.
Proof. unfold wp, wlp. by destruct (m s). Qed.

Lemma wlp_wp {E S A} (m : S -> Outcome E S A) s Q R :
  wlp m s Q R -> m s <> OutOfFuel -> wp m s Q R.
Proof. unfold wp, wlp. by destruct (m s). Qed.

Lemma wlp_bind {E S A B} (m : S -> Outcome E S A) (k : A -> S -> Outcome E S B) s Q R :
  wlp m s (fun a s' => wlp (k a) s' Q R) R -> wlp (out_bind m k) s Q R.
Proof. unfold wlp, out_bind. by destruct (m s). Qed.

Lemma wlp_mono {E S A} (m : S -> Outcome E S A) s (Q Q' : A -> S -> Prop) (R R' : E -> S -> Prop) :
  wlp m s Q R -> (forall a s', Q a s' -> Q' a s') -> (forall e s', R e s' -> R' e s') ->
  wlp m s Q' R'.
Proof. unfold wlp. destruct (m s); naive_solver. Qed.

Lemma wlp_ret {E S A} (a : A) (s : S) (Q : A -> S -> Prop) (R : E -> S -> Prop) :
  Q a s -> wlp (out_ret a) s Q R.
Proof. done. Qed.

Lemma wlp_both {E S A} (m : S -> Outcome E S A) s Q Q' (R R' : E -> S -> Prop) :
  wlp m s Q R -> wlp m s Q' R' ->
  wlp m s (fun a s' => Q a s' /\ Q' a s') (fun e s' => R e s' /\ R' e s').
Proof. unfold wlp. by destruct (m s). Qed.

Lemma wlp_require {E S} cond (e : E) (s : S) (Q : unit -> S -> Prop) (R : E -> S -> Prop) :
  (cond = true -> Q tt s) -> (cond = false -> R e s) -> wlp (require cond e) s Q R.
Proof. unfold wlp, require. destruct cond; auto. Qed.

(** A computation that returned passed its checks. *)
Lemma require_returns {E S A} c (e : E) (k : unit -> S -> Outcome E S A) s a s' :
  out_bind (require c e) k s = Returns a s' -> c = true /\ k tt s = Returns a s'.
Proof. unfold out_bind, require. by destruct c. Qed.

(** ** Generic lemmas: loops *)

Section Iter.
Context {E S A : Type} (body : S -> Outcome E S (option A)).

Lemma iter_more n m s :
  iter n body s <> OutOfFuel -> (n <= m)%nat -> iter m body s = iter n body s.
Proof.
  revert m s; induction n as [|n IH]; intros m s H Hle; [done|].
  destruct m as [|m]; [lia|]. simpl in *.
  destruct (body s) as [[a|] s'|e s'|]; try done. apply IH; [done|lia].
Qed.

Lemma iter_agree n m s :
  iter n body s <> OutOfFuel -> iter m body s <> OutOfFuel -> iter n body s = iter m body s.
Proof.
  intros Hn Hm. destruct (Nat.le_ge_cases n m).
  - symmetry. by apply iter_more.
  - by apply iter_more.
Qed.

(** Loop rule: an invariant kept by every round that goes on, a measure it
    decreases, and the postconditions of the rounds that leave. *)
Lemma iter_wp (I : S -> Prop) (mu : S -> nat) (Q : A -> S -> Prop) (R : E -> S -> Prop) n s :
  (forall s, I s ->
     wp body s (fun o s' => match o with
                            | Some a => Q a s'
                            | None => I s' /\ (mu s' < mu s)%nat
                            end) R) ->
  I s -> (mu s < n)%nat -> wp (iter n body) s Q R.
Proof.
  intros Hbody. revert s; induction n as [|n IH]; intros s Hs Hlt; [lia|].
  specialize (Hbody s Hs). unfold wp in *. simpl.
  destruct (body s) as [[a|] s'|e s'|]; try done.
  destruct Hbody as [Hs' Hmu]. apply IH; [done|lia].
Qed.

(** Loop rule without a measure: what holds of the rounds that leave, should one
    of the first [n] do so. *)
Lemma iter_wlp (I : S -> Prop) (Q : A -> S -> Prop) (R : E -> S -> Prop) n s :
  (forall s, I s ->
     wlp body s (fun o s' => match o with Some a => Q a s' | None => I s' end) R) ->
  I s -> wlp (iter n body) s Q R.
Proof.
  intros Hbody. revert s; induction n as [|n IH]; intros s Hs; [done|].
  specialize (Hbody s Hs). unfold wlp in *. simpl. destruct (body s) as [[a|] s'|e s'|]; try done.
  by apply IH.
Qed.

(** A loop that is not over after [n] rounds went on in each of them. *)
Lemma iter_goes_on n s :
  (forall s, body s <> OutOfFuel) -> iter n body s = OutOfFuel ->
  exists s', nsteps (fun s s' => body s = Returns None s') n s s'.
Proof.
  intros Hbody. revert s; induction n as [|n IH]; intros s Hs; [by exists s; constructor|].
  simpl in Hs. specialize (Hbody s). destruct (body s) as [[a|] s1|e s1|] eqn:Eb; try done.
  destruct (IH s1 Hs) as [s' Hs']. exists s'. by econstructor.
Qed.

(** A loop ends when going on uses something up. *)
Lemma iter_ends (mu : S -> nat) n s :
  (forall s, match body s with
             | Returns None s' => (mu s' < mu s)%nat
             | OutOfFuel => False
             | _ => True
             end) ->
  (mu s < n)%nat -> iter n body s <> OutOfFuel.
Proof.
  intros Hbody. revert s; induction n as [|n IH]; intros s Hlt; [lia|].
  specialize (Hbody s). simpl. destruct (body s) as [[a|] s'|e s'|]; try done. apply IH. lia.
Qed.

(** Resumption: [ext] extends the state (more input arrived).  A round that
    goes on either does the same on the extended state, or leaves the extended
    state with nothing but its own next round to do; a round that needs input
    can be redone from where it stopped.  Then a whole loop stopped for lack of
    input can be restarted where it stopped. *)
Context (ext : S -> S) (needs : A -> bool) (gave_up : E -> Prop) (I : S -> Prop).

Definition round_resumes : Prop := forall s, I s ->
  match body s with
  | Returns None s' =>
      I s' /\ (body (ext s) = Returns None (ext s') \/ body (ext s) = body (ext s'))
  | Returns (Some a) s' =>
      if needs a then body (ext s) = body (ext s')
      else body (ext s) = Returns (Some a) (ext s')
  | Fails e s' => gave_up e \/ body (ext s) = Fails e (ext s')
  | OutOfFuel => True
  end.

Lemma iter_resumes n m s :
  round_resumes -> I s ->
  iter m body (ext s) <> OutOfFuel ->
  match iter n body s with
  | Returns a s' =>
      if needs a
      then forall k, iter k body (ext s') <> OutOfFuel -> iter m body (ext s) = iter k body (ext s')
      else iter m body (ext s) = Returns a (ext s')
  | Fails e s' => gave_up e \/ iter m body (ext s) = Fails e (ext s')
  | OutOfFuel => True
  end.
Proof.
  intros Hround. revert m s; induction n as [|n IH]; intros m s HI Hm; [done|]. simpl.
  pose proof (Hround s HI) as Hs. destruct m as [|m]; [done|].
  destruct (body s) as [[a|] s'|e s'|] eqn:Hb; simpl in Hm |- *; try done.
  - destruct (needs a); [|by rewrite Hs].
    rewrite Hs in Hm |- *. intros k Hk. by apply (iter_agree (Datatypes.S m)).
  - destruct Hs as [HI' [Hs|Hs]]; rewrite Hs in Hm |- *; [by apply IH|].
    by apply (IH (Datatypes.S m)).
  - destruct Hs as [Hs|Hs]; [by left|right]. by rewrite Hs.
Qed.
End Iter.

(** ** Generic lemmas: which errors a computation can fail with *)

Definition fails_with {E S A} (P : E -> Prop) (m : S -> Outcome E S A) : Prop :=
  forall s, match m s with Fails e _ => P e | _ => True end.

Section FailsWith.
Context {E S A B : Type} (P : E -> Prop).

Lemma fails_with_bind (m : S -> Outcome E S A) (k : A -> S -> Outcome E S B) :
  fails_with P m -> (forall a, fails_with P (k a)) -> fails_with P (out_bind m k).
Proof.
  intros Hm Hk s. specialize (Hm s). unfold out_bind. destruct (m s) as [a s'|e s'|]; try done.
  apply Hk.
Qed.

Lemma fails_with_ret (a : A) : fails_with P (out_ret (S := S) a).
Proof. done. Qed.

Lemma fails_with_get : fails_with P (out_get (S := S)).
Proof. done. Qed.

Lemma fails_with_modify (f : S -> S) : fails_with P (out_modify f).
Proof. done. Qed.

Lemma fails_with_fail (e : E) : P e -> fails_with P (out_fail (S := S) (A := A) e).
Proof. intros He s. exact He. Qed.

Lemma fails_with_require (c : bool) (e : E) : P e -> fails_with P (require (S := S) c e).
Proof. intros He s. unfold require. by destruct c. Qed.

Lemma fails_with_iter n (body : S -> Outcome E S (option A)) :
  fails_with P body -> fails_with P (iter n body).
Proof.
  intros Hb. induction n as [|n IH]; intros s; [done|]. simpl. specialize (Hb s).
  destruct (body s) as [[a|] s'|e s'|]; try done. apply IH.
Qed.

Lemma fails_with_fuel (n : S -> nat) (body : S -> Outcome E S (option A)) :
  fails_with P body -> fails_with P (fun s => iter (n s) body s).
Proof. intros Hb s. by apply fails_with_iter. Qed.
End FailsWith.

#[export] Hint Resolve fails_with_bind fails_with_ret fails_with_get fails_with_modify
  fails_with_fail fails_with_require fails_with_iter fails_with_fuel : mira.

(** ** Generic lemmas: how a computation moves the state, however it ends *)

Definition moves {E S A} (R : S -> S -> Prop) (m : S -> Outcome E S A) : Prop :=
  forall s, match m s with Returns _ s' | Fails _ s' => R s s' | OutOfFuel => True end.

Section Moves.
Context {E S A B : Type} (R : S -> S -> Prop) `{!PreOrder R}.

Lemma moves_bind (m : S -> Outcome E S A) (k : A -> S -> Outcome E S B) :
  moves R m -> (forall a, moves R (k a)) -> moves R (out_bind m k).
Proof.
  intros Hm Hk s. specialize (Hm s). unfold out_bind. destruct (m s) as [a s'|e s'|]; try done.
  specialize (Hk a s'). destruct (k a s') as [b s2|e s2|]; [| |done]; by etrans.
Qed.

Lemma moves_ret (a : A) : moves (E := E) R (out_ret a).
Proof. intros s. simpl. reflexivity. Qed.

Lemma moves_get : moves (E := E) R out_get.
Proof. intros s. simpl. reflexivity. Qed.

Lemma moves_modify (f : S -> S) : (forall s, R s (f s)) -> moves (E := E) R (out_modify f).
Proof. intros Hf s. apply Hf. Qed.

Lemma moves_fail (e : E) : moves R (out_fail (A := A) e).
Proof. intros s. simpl. reflexivity. Qed.

Lemma moves_require (c : bool) (e : E) : moves R (require c e).
Proof. intros s. unfold require. destruct c; reflexivity. Qed.

Lemma moves_iter n (body : S -> Outcome E S (option A)) : moves R body -> moves R (iter n body).
Proof.
  intros Hb. induction n as [|n IH]; intros s; [done|]. simpl. specialize (Hb s).
  destruct (body s) as [[a|] s'|e s'|]; try done. specialize (IH s').
  destruct (iter n body s') as [a s2|e s2|]; [| |done]; by etrans.
Qed.

Lemma moves_fuel (n : S -> nat) (body : S -> Outcome E S (option A)) :
  moves R body -> moves R (fun s => iter (n s) body s).
Proof. intros Hb s. by apply moves_iter. Qed.
End Moves.

(** ** Generic lemmas: an invariant kept by computations that always end *)

Definition maintains {E S A} (I : S -> Prop) (m : S -> Outcome E S A) : Prop :=
  forall s, I s -> wp m s (fun _ => I) (fun _ => I).

Lemma maintains_bind {E S A B} (I : S -> Prop) (m : S -> Outcome E S A) (k : A -> S -> Outcome E S B) :
  maintains I m -> (forall a, maintains I (k a)) -> maintains I (out_bind m k).
Proof. intros Hm Hk s Hs. apply wp_bind. eapply wp_mono; [by apply Hm| |done]. intros a s'. apply Hk. Qed.

Lemma maintains_ret {E S A} (I : S -> Prop) (a : A) : maintains (E := E) I (out_ret a).
Proof. by intros s Hs. Qed.

(** A computation that always ends, in a state related to the one it started from. *)
Definition advances {E S A} (R : S -> S -> Prop) (m : S -> Outcome E S A) : Prop :=
  forall s, wp m s (fun _ => R s) (fun _ => R s).

Section Advances.
Context {E S A B : Type} (R : S -> S -> Prop) `{!PreOrder R}.

Lemma advances_bind (m : S -> Outcome E S A) (k : A -> S -> Outcome E S B) :
  advances R m -> (forall a, advances R (k a)) -> advances R (out_bind m k).
Proof.
  intros Hm Hk s. apply wp_bind. eapply wp_mono; [apply Hm| |done]. intros a s1 H1.
  eapply wp_mono; [apply Hk| |]; cbv beta; intros; by transitivity s1.
Qed.

Lemma advances_ret (a : A) : advances (E := E) R (out_ret a).
Proof. intros s. unfold wp. simpl. reflexivity. Qed.
End Advances.

(** The state an ended computation leaves. *)
Definition after {E S A} (s : S) (o : Outcome E S A) : S :=
  match o with Returns _ s' | Fails _ s' => s' | OutOfFuel => s end.

Lemma maintains_after {E S A} (I : S -> Prop) (m : S -> Outcome E S A) s :
  maintains I m -> I s -> I (after s (m s)).
Proof. intros Hm Hs. specialize (Hm s Hs). unfold wp in Hm. by destruct (m s). Qed.

(** Walk through a method by its constructs. *)
Ltac moves_steps :=
  repeat first
    [ progress intros
    | progress cbv zeta
    | assumption
    | apply moves_bind; [typeclasses eauto| |]
    | apply moves_require; typeclasses eauto
    | apply moves_ret; typeclasses eauto
    | apply moves_get; typeclasses eauto
    | apply moves_fail; typeclasses eauto
    | apply moves_fuel; [typeclasses eauto|]
    | apply moves_modify
    | match goal with |- moves _ (match ?x with _ => _ end) => destruct x end ].
