(* ===== verification/Numerals.v ===== *)
(** * Numerals: the standard library's number/text conversions the sources use

    [std::from_chars] (used by http/src/parser.cpp and response_parser.cpp),
    [std::to_string] (used by the serialiser and the error categories), and the
    hexadecimal printer of http/src/serializer.cpp, with their round trips. *)

From S2P Require Import Prelude.

Local Open Scope Z_scope.

(** The value of a digit character, as [std::from_chars] reads it: letters of
    either case stand for ten and up. *)
Definition digit_value (b : byte) : option Z :=
  let c := code b in
  if (48 <=? c) && (c <=? 57) then Some (c - 48)
  else if (97 <=? c) && (c <=? 122) then Some (c - 97 + 10)
  else if (65 <=? c) && (c <=? 90) then Some (c - 65 + 10)
  else None.

(** The digit of [base] a character stands for, if it is one. *)
Definition digit_of (base : Z) (b : byte) : option Z :=
  match digit_value b with
  | Some d => if d <? base then Some d else None
  | None => None
  end.

(** The value of a digit sequence, without a width: the number the text
    denotes, and the unread rest. *)
Fixpoint scan_digits (base acc : Z) (l : bytes) : Z * bytes :=
  match l with
  | [] => (acc, [])
  | b :: l' =>
      match digit_of base b with
      | Some d => scan_digits base (acc * base + d) l'
      | None => (acc, l)
      end
  end.

(** [std::from_chars(first, last, std::uint64_t&, base)]. *)
Inductive FromChars :=
| fc_value (v : Z) (rest : bytes)
| fc_invalid_argument
| fc_out_of_range.

Definition from_chars (l : bytes) (base : Z) : FromChars :=
  match l with
  | [] => fc_invalid_argument
  | b :: _ =>
      match digit_of base b with
      | None => fc_invalid_argument
      | Some _ =>
          let '(v, rest) := scan_digits base 0 l in
          if v <=? UINT64_MAX then fc_value v rest else fc_out_of_range
      end
  end.

(** The character of a digit below sixteen: ["0123456789abcdef"[d]]. *)
Definition digit_char (d : Z) : byte :=
  nth (Z.to_nat d) (lit "0123456789abcdef") x30.

(** The digits of a positive value, most significant first, prepended to
    [acc]: the loop [while (value > 0) { scratch[--index] = digits[value % b];
    value /= b; }].  Sixty-four rounds exhaust any 64-bit value. *)
Fixpoint digits_loop (fuel : nat) (base value : Z) (acc : bytes) : bytes :=
  match fuel with
  | O => acc
  | S n =>
      if 0 <? value
      then digits_loop n base (value / base) (digit_char (value mod base) :: acc)
      else acc
  end.

(** [std::to_string] of an unsigned value. *)
Definition to_decimal (value : Z) : bytes :=
  if value =? 0 then lit "0" else digits_loop 64 10 value [].

(** Serialiser's [to_hex]: the digits end at the back of a 20-byte scratch
    array; the view it returns is exactly the digits. *)
Definition to_hex (value : Z) : bytes :=
  let start := if value =? 0 then [x30] else [] in
  digits_loop 64 16 value start.

(** ** Facts *)

Lemma digit_char_code (d base : Z) :
  0 <= d < base -> base <= 16 -> digit_of base (digit_char d) = Some d.
Proof.
  intros Hd Hb. unfold digit_of.
  assert (digit_value (digit_char d) = Some d) as ->.
  { assert (d = 0 \/ d = 1 \/ d = 2 \/ d = 3 \/ d = 4 \/ d = 5 \/ d = 6 \/ d = 7 \/
            d = 8 \/ d = 9 \/ d = 10 \/ d = 11 \/ d = 12 \/ d = 13 \/ d = 14 \/ d = 15)
      as Hcases by lia.
    destruct_or! Hcases; by subst. }
  case_match; [done|]. bool_facts. lia.
Qed.

Lemma scan_digits_mono base acc l :
  1 <= base -> 0 <= acc -> acc <= (scan_digits base acc l).1.
Proof.
  intros Hb. revert acc; induction l as [|b l IH]; intros acc Ha; simpl; [lia|].
  destruct (digit_of base b) as [d|] eqn:E; simpl; [|lia].
  assert (0 <= d).
  { unfold digit_of, digit_value in E. pose proof (code_range b).
    repeat (case_match; simplify_eq/=); bool_facts; lia. }
  specialize (IH (acc * base + d)). nia.
Qed.

Lemma digits_loop_length base fuel v acc :
  (length acc <= length (digits_loop fuel base v acc))%nat.
Proof.
  revert v acc; induction fuel as [|n IH]; intros v acc; simpl; [lia|].
  destruct (0 <? v); [|lia]. etransitivity; [|apply IH]. simpl. lia.
Qed.

Lemma div_fuel base n v :
  2 <= base -> 0 <= v < 2 ^ Z.of_nat (S n) -> 0 <= v / base < 2 ^ Z.of_nat n.
Proof.
  intros Hb Hv. rewrite Nat2Z.inj_succ, Z.pow_succ_r in Hv by lia.
  split; [apply Z.div_pos; lia|]. apply Z.div_lt_upper_bound; nia.
Qed.

(** Printing then scanning: the digits printed in front of [acc] scan as one
    more positional block. *)
Lemma scan_digits_loop base fuel v acc a0 :
  2 <= base <= 16 -> 0 <= v < 2 ^ Z.of_nat fuel ->
  scan_digits base a0 (digits_loop fuel base v acc) =
  scan_digits base
    (a0 * base ^ (Z.of_nat (length (digits_loop fuel base v acc) - length acc)) + v) acc.
Proof.
  intros Hb. revert v acc a0; induction fuel as [|n IH]; intros v acc a0 Hv.
  { simpl in *. assert (v = 0) as -> by lia. rewrite Nat.sub_diag. f_equal. lia. }
  simpl. destruct (0 <? v) eqn:Hpos; bool_facts.
  2:{ assert (v = 0) as -> by lia. rewrite Nat.sub_diag. f_equal. lia. }
  rewrite IH by (apply div_fuel; [lia|done]).
  simpl. rewrite digit_char_code by (pose proof (Z.mod_pos_bound v base); lia).
  f_equal.
  pose proof (digits_loop_length base n (v / base) (digit_char (v mod base) :: acc)) as HL.
  simpl in HL. set (L := digits_loop _ _ _ _) in *.
  replace (Z.of_nat (length L - length acc))
    with (Z.succ (Z.of_nat (length L - S (length acc)))) by lia.
  rewrite Z.pow_succ_r by lia.
  set (P := base ^ Z.of_nat (length L - S (length acc))).
  transitivity (a0 * (base * P) + (base * (v / base) + v mod base)); [ring|].
  f_equal. symmetry. apply Z.div_mod. lia.
Qed.

Lemma digits_loop_pos fuel base v acc :
  2 <= base <= 16 -> 0 < v < 2 ^ Z.of_nat fuel ->
  exists d ds, digits_loop fuel base v acc = digit_char d :: ds /\ 0 <= d < base.
Proof.
  intros Hb. revert v acc; induction fuel as [|n IH]; intros v acc Hv; [simpl in Hv; lia|].
  simpl. destruct (0 <? v) eqn:Hpos; bool_facts; [|lia].
  destruct (decide (v / base = 0)) as [E|E].
  - rewrite E. exists (v mod base), acc. split.
    + destruct n; simpl; done.
    + apply Z.mod_pos_bound. lia.
  - apply IH. pose proof (div_fuel base n v). lia.
Qed.

Lemma from_chars_loop base fuel v :
  2 <= base <= 16 -> 0 < v < 2 ^ Z.of_nat fuel -> v <= UINT64_MAX ->
  from_chars (digits_loop fuel base v []) base = fc_value v [].
Proof.
  intros Hb Hv Hmax.
  destruct (digits_loop_pos fuel base v [] Hb Hv) as (d & ds & Hd & Hr).
  pose proof (scan_digits_loop base fuel v [] 0 Hb ltac:(lia)) as Hscan.
  rewrite Hd in Hscan |- *. unfold from_chars. rewrite digit_char_code by lia.
  rewrite Hscan. simpl. case_match; [done|]. bool_facts. lia.
Qed.

Lemma from_chars_digits base v :
  2 <= base <= 16 -> 0 <= v <= UINT64_MAX ->
  from_chars (if v =? 0 then [x30] else digits_loop 64 base v []) base = fc_value v [].
Proof.
  intros Hb Hv. destruct (v =? 0) eqn:E; bool_facts.
  - subst. unfold from_chars, digit_of. cbn -[Z.ltb]. change (48 - 48) with 0.
    destruct (0 <? base) eqn:?; [done|]. bool_facts. lia.
  - apply from_chars_loop; unfold UINT64_MAX in *; lia.
Qed.

Lemma from_chars_decimal v :
  0 <= v <= UINT64_MAX -> from_chars (to_decimal v) 10 = fc_value v [].
Proof. intros. unfold to_decimal. apply from_chars_digits; lia. Qed.

Lemma from_chars_hex v :
  0 <= v <= UINT64_MAX -> from_chars (to_hex v) 16 = fc_value v [].
Proof.
  intros Hv. unfold to_hex. pose proof (from_chars_digits 16 v) as H.
  destruct (v =? 0) eqn:E; bool_facts; [subst; simpl in *|]; apply H; lia.
Qed.

(** Every character a numeral prints is a digit of its base. *)
Lemma digits_loop_Forall (P : byte -> Prop) base fuel v acc :
  0 < base -> (forall d, 0 <= d < base -> P (digit_char d)) ->
  Forall P acc -> Forall P (digits_loop fuel base v acc).
Proof.
  intros Hb HP. revert v acc; induction fuel as [|n IH]; intros v acc Hacc; simpl; [done|].
  case_match; [|done]. apply IH. constructor; [|done].
  apply HP, Z.mod_pos_bound. lia.
Qed.

Lemma digit_char_decimal d : 0 <= d < 10 -> (48 <= code (digit_char d) <= 57).
Proof.
  intros Hd. assert (d = 0 \/ d = 1 \/ d = 2 \/ d = 3 \/ d = 4 \/ d = 5 \/ d = 6 \/ d = 7 \/
            d = 8 \/ d = 9) as H by lia.
  destruct_or! H; subst; vm_compute; split; discriminate.
Qed.

Lemma to_decimal_digits v : Forall (fun b => 48 <= code b <= 57) (to_decimal v).
Proof.
  unfold to_decimal. case_match.
  - repeat constructor; vm_compute; discriminate.
  - apply digits_loop_Forall; [lia | apply digit_char_decimal | done].
Qed.

Lemma to_decimal_nonempty v : 0 <= v <= UINT64_MAX -> to_decimal v <> [].
Proof.
  intros Hv Hn. pose proof (from_chars_decimal v Hv) as H. by rewrite Hn in H.
Qed.

(** No value overruns the scratch array of [to_hex]: a 64-bit value prints at
    most sixteen of the twenty characters. *)
Lemma digits_loop_length_le base fuel k v acc :
  2 <= base -> 0 <= v < base ^ Z.of_nat k ->
  (length (digits_loop fuel base v acc) <= k + length acc)%nat.
Proof.
  intros Hb. revert fuel v acc; induction k as [|k IH]; intros fuel v acc Hv.
  - simpl in Hv. assert (v = 0) as -> by lia. destruct fuel; simpl; lia.
  - destruct fuel as [|n]; simpl; [lia|]. case_match; [|lia].
    etransitivity; [apply IH|simpl; lia].
    rewrite Nat2Z.inj_succ, Z.pow_succ_r in Hv by lia.
    split; [apply Z.div_pos; lia|]. apply Z.div_lt_upper_bound; lia.
Qed.

Lemma to_hex_length v : 0 <= v <= UINT64_MAX -> (1 <= length (to_hex v) <= 16)%nat.
Proof.
  intros Hv. unfold to_hex. destruct (v =? 0) eqn:E; bool_facts.
  - subst. simpl. lia.
  - split.
    + destruct (digits_loop_pos 64 16 v []) as (d & ds & -> & _); simpl; [lia| |lia].
      unfold UINT64_MAX in Hv. lia.
    + etransitivity; [apply (digits_loop_length_le 16 64 16)|simpl; lia]; [lia|].
      unfold UINT64_MAX in Hv. change (16 ^ Z.of_nat 16) with (2 ^ 64). lia.
Qed.
