(* ===== verification/Errors.v ===== *)
(** * Errors: [Mira::Errc], error codes and results (core/error.hpp, core/src/error.cpp)

    [std::error_code] is a value with the category that gives it meaning; two
    codes are equal when both agree.  The enumerations of the HTTP module live
    in categories of their own, so an [Errc] never equals a [ParseError] of the
    same name: that distinction is kept here because the connection loop
    branches on it. *)

From S2P Require Import Prelude Numerals.

(** The error categories the modelled sources define or use. *)
Inductive category :=
| mira_category
| parse_category
| serialize_category
| tls_category
| http2_category
| resolver_category
| quic_category
| http3_category
| system_category
| generic_category.

#[export] Instance category_eq_dec : EqDecision category.
Proof. solve_decision. Defined.

(** [std::error_code] *)
Record Error := mk_error { ec_value : Z; ec_category : category }.

#[export] Instance error_eq_dec : EqDecision Error.
Proof. solve_decision. Defined.

(** [operator==] of two error codes. *)
Definition error_eqb (a b : Error) : bool := bool_decide (a = b).

(** [explicit operator bool]: the code reports a failure. *)
Definition error_set (e : Error) : bool := negb (ec_value e =? 0)%Z.

(** A default-constructed [std::error_code]. *)
Definition no_error : Error := {| ec_value := 0; ec_category := system_category |}.

(** [std::make_error_code(std::errc::io_error)] *)
Definition io_error : Error := {| ec_value := 5; ec_category := generic_category |}.

Module Errc.
Inductive t :=
| ok
| would_block
| eof
| cancelled
| timed_out
| limit_exceeded
| invalid_argument
| not_supported
| internal.

#[export] Instance eq_dec : EqDecision t.
Proof. solve_decision. Defined.

(** The enumerators count up from [ok = 0]. *)
Definition value (e : t) : Z :=
  match e with
  | ok => 0
  | would_block => 1
  | eof => 2
  | cancelled => 3
  | timed_out => 4
  | limit_exceeded => 5
  | invalid_argument => 6
  | not_supported => 7
  | internal => 8
  end.

(** [static_cast<Errc>(value)], where it names an enumerator. *)
Definition of_value (z : Z) : option t :=
  match z with
  | 0 => Some ok
  | 1 => Some would_block
  | 2 => Some eof
  | 3 => Some cancelled
  | 4 => Some timed_out
  | 5 => Some limit_exceeded
  | 6 => Some invalid_argument
  | 7 => Some not_supported
  | 8 => Some internal
  | _ => None
  end%Z.
End Errc.

(** [make_error_code(Errc)] *)
Definition make_error_code (e : Errc.t) : Error :=
  {| ec_value := Errc.value e; ec_category := mira_category |}.

(** [MiraCategory::message] *)
Definition mira_message (value : Z) : bytes :=
  match Errc.of_value value with
  | Some Errc.ok => lit "success"
  | Some Errc.would_block => lit "operation would block"
  | Some Errc.eof => lit "stream closed by peer"
  | Some Errc.cancelled => lit "operation cancelled"
  | Some Errc.timed_out => lit "operation timed out"
  | Some Errc.limit_exceeded => lit "configured limit exceeded"
  | Some Errc.invalid_argument => lit "invalid argument"
  | Some Errc.not_supported => lit "not supported on this platform"
  | Some Errc.internal => lit "internal error (exception crossed a library boundary)"
  | None =>
      lit "unknown Mira error (" ++
      (if (value <? 0)%Z then lit "-" ++ to_decimal (- value) else to_decimal value) ++ lit ")"
  end.

(** The portable [std::errc] conditions the category maps onto. *)
Inductive std_errc :=
| operation_would_block
| operation_canceled
| std_timed_out
| std_invalid_argument
| std_not_supported
| value_too_large.

(** [std::error_condition]: a portable condition, or the category's own. *)
Inductive error_condition :=
| generic_condition (c : std_errc)
| own_condition (value : Z) (c : category).

(** [MiraCategory::default_error_condition] *)
Definition default_error_condition (value : Z) : error_condition :=
  match Errc.of_value value with
  | Some Errc.would_block => generic_condition operation_would_block
  | Some Errc.cancelled => generic_condition operation_canceled
  | Some Errc.timed_out => generic_condition std_timed_out
  | Some Errc.invalid_argument => generic_condition std_invalid_argument
  | Some Errc.not_supported => generic_condition std_not_supported
  | Some Errc.limit_exceeded => generic_condition value_too_large
  | Some Errc.ok | Some Errc.eof | Some Errc.internal | None =>
      own_condition value mira_category
  end.

(** [Result<T> = std::expected<T, Error>] *)
Inductive Result (A : Type) : Type :=
| Ok (a : A)
| Fail (e : Error).
Arguments Ok {A} a.
Arguments Fail {A} e.

(** [fail(Errc)] *)
Definition fail {A} (e : Errc.t) : Result A := Fail (make_error_code e).

(** Code that mutates an [S] and returns a [Result<A>]. *)
Definition M (S A : Type) : Type := S -> Outcome Error S A.

(** A pure [Result] used inside such code: [if (!r) return fail(r.error());] *)
Definition lift {S A} (r : Result A) : M S A :=
  fun s => match r with Ok a => Returns a s | Fail e => Fails e s end.

(** ** Facts *)

Lemma error_eqb_eq a b : error_eqb a b = true <-> a = b.
Proof. unfold error_eqb. by rewrite bool_decide_eq_true. Qed.

Lemma error_eqb_refl a : error_eqb a a = true.
Proof. by apply error_eqb_eq. Qed.

Lemma make_error_code_inj a b : make_error_code a = make_error_code b -> a = b.
Proof. by destruct a, b. Qed.

Lemma of_value_value e : Errc.of_value (Errc.value e) = Some e.
Proof. by destruct e. Qed.

Lemma wp_lift {S A} (r : Result A) (s : S) Q R :
  match r with Ok a => Q a s | Fail e => R e s end -> wp (lift r) s Q R.
Proof. unfold wp, lift. by destruct r. Qed.
