(* ===== verification/Buffer.v ===== *)
(** * Buffer: the byte buffer protocol parsers read from (core/buffer.hpp)

    A [std::vector] with a read cursor: the record keeps the vector's elements,
    its capacity, the cursor and the size of an uncommitted [prepare].  How much
    a vector over-allocates is the standard library's choice, so it is a
    parameter [grow] with the one guarantee the standard gives. *)

From S2P Require Import Prelude.

(** ** What a parser needs of its input

    The parsers only look at the readable region and drop a prefix of it.  They
    are written against this interface; [Buffer] implements it, and so does a
    plain byte string, which is the abstract queue of bytes a buffer stands
    for. *)
Class ReadBuffer (B : Type) := {
  readable : B -> bytes;
  consume : nat -> B -> B;
}.

Class ReadBufferLaws (B : Type) `{ReadBuffer B} : Prop :=
  readable_consume : forall n b, readable (consume n b) = drop n (readable b).

#[export] Instance bytes_read_buffer : ReadBuffer bytes :=
  {| readable b := b; consume n b := drop n b |}.

#[export] Instance bytes_read_buffer_laws : ReadBufferLaws bytes.
Proof. done. Qed.

(** ** The concrete buffer *)

Record Buffer := mk_buffer {
  storage : bytes;
  buf_capacity : nat;
  read_pos : nat;
  buf_pending : nat;
}.

Definition empty_buffer : Buffer :=
  {| storage := []; buf_capacity := 0; read_pos := 0; buf_pending := 0 |}.

(** [size()] *)
Definition buf_size (b : Buffer) : nat := length (storage b) - read_pos b.

(** [empty()] *)
Definition buf_empty (b : Buffer) : bool := (buf_size b =? 0)%nat.

(** [readable()]: the span of [size()] bytes at the cursor. *)
Definition buf_readable (b : Buffer) : bytes := take (buf_size b) (drop (read_pos b) (storage b)).

(** [consume(n)] *)
Definition buf_consume (n : nat) (b : Buffer) : Buffer :=
  let pos := (read_pos b + (if (n <? buf_size b)%nat then n else buf_size b))%nat in
  if (pos =? length (storage b))%nat
  then {| storage := []; buf_capacity := buf_capacity b; read_pos := 0;
          buf_pending := buf_pending b |}
  else {| storage := storage b; buf_capacity := buf_capacity b; read_pos := pos;
          buf_pending := buf_pending b |}.

(** [clear()] *)
Definition buf_clear (b : Buffer) : Buffer :=
  {| storage := []; buf_capacity := buf_capacity b; read_pos := 0; buf_pending := 0 |}.

#[export] Instance buffer_read_buffer : ReadBuffer Buffer :=
  {| readable := buf_readable; consume := buf_consume |}.

Section Growth.
(** [grow c n]: the capacity a vector of capacity [c] has after it grew to hold
    [n] elements. *)
Context (grow : nat -> nat -> nat).

(** Capacity after a vector is given [n] elements: never shrinks. *)
Definition vec_capacity (c n : nat) : nat := if (n <=? c)%nat then c else grow c n.

(** [Buffer(capacity)] *)
Definition buf_make (capacity : nat) : Buffer :=
  {| storage := []; buf_capacity := vec_capacity 0 capacity; read_pos := 0; buf_pending := 0 |}.

(** [reserve(n)] *)
Definition buf_reserve (n : nat) (b : Buffer) : Buffer :=
  {| storage := storage b; buf_capacity := vec_capacity (buf_capacity b) n;
     read_pos := read_pos b; buf_pending := buf_pending b |}.

(** [reclaim_if_worthwhile(incoming)] *)
Definition reclaim_if_worthwhile (incoming : nat) (b : Buffer) : Buffer :=
  if (read_pos b =? 0)%nat then b
  else if negb (buf_capacity b <? length (storage b) + incoming)%nat then b
  else
    let unread := buf_size b in
    let moved :=
      if (0 <? unread)%nat
      then drop (read_pos b) (storage b) ++ drop unread (storage b)
      else storage b in
    {| storage := take unread moved; buf_capacity := buf_capacity b; read_pos := 0;
       buf_pending := buf_pending b |}.

(** [prepare(n)]: the vector grows by [n] value-initialised bytes; the span
    returned is the part from the old end on. *)
Definition buf_prepare (n : nat) (b : Buffer) : Buffer :=
  let b1 := reclaim_if_worthwhile n b in
  let write_pos := length (storage b1) in
  {| storage := storage b1 ++ replicate n x00;
     buf_capacity := vec_capacity (buf_capacity b1) (write_pos + n);
     read_pos := read_pos b1; buf_pending := n |}.

(** What a reader wrote into the prepared span: its first bytes replaced. *)
Definition buf_fill (data : bytes) (b : Buffer) : Buffer :=
  let write_pos := (length (storage b) - buf_pending b)%nat in
  {| storage := take write_pos (storage b) ++ data ++ drop (write_pos + length data) (storage b);
     buf_capacity := buf_capacity b; read_pos := read_pos b; buf_pending := buf_pending b |}.

(** [commit(n)] *)
Definition buf_commit (n : nat) (b : Buffer) : Buffer :=
  let unused := if (n <? buf_pending b)%nat then (buf_pending b - n)%nat else 0%nat in
  {| storage := take (length (storage b) - unused) (storage b);
     buf_capacity := buf_capacity b; read_pos := read_pos b; buf_pending := 0 |}.

(** [append(bytes)] *)
Definition buf_append (data : bytes) (b : Buffer) : Buffer :=
  {| storage := storage b ++ data;
     buf_capacity := vec_capacity (buf_capacity b) (length (storage b) + length data);
     read_pos := read_pos b; buf_pending := buf_pending b |}.
End Growth.

(** One use of a buffer by its client: a read from a stream is [prepare], the
    transport writing into the span, and [commit]. *)
Inductive BufferOp :=
| op_append (data : bytes)
| op_read (n : nat) (data : bytes)
| op_read_failed (n : nat)
| op_consume (n : nat)
| op_reserve (n : nat)
| op_clear.

Definition buf_apply (grow : nat -> nat -> nat) (op : BufferOp) (b : Buffer) : Buffer :=
  match op with
  | op_append data => buf_append grow data b
  | op_read n data =>
      buf_commit (length (take n data)) (buf_fill (take n data) (buf_prepare grow n b))
  | op_read_failed n => buf_commit 0 (buf_prepare grow n b)
  | op_consume n => buf_consume n b
  | op_reserve n => buf_reserve grow n b
  | op_clear => buf_clear b
  end.

(** The same on the abstract queue of unread bytes. *)
Definition queue_apply (op : BufferOp) (q : bytes) : bytes :=
  match op with
  | op_append data => q ++ data
  | op_read n data => q ++ take n data
  | op_read_failed _ => q
  | op_consume n => drop n q
  | op_reserve _ => q
  | op_clear => []
  end.

(** ** Well-formedness and refinement *)

(** The cursor and the uncommitted tail lie inside the vector, and the vector
    inside its allocation. *)
Record buf_wf (b : Buffer) : Prop := {
  wf_pos : (read_pos b + buf_pending b <= length (storage b))%nat;
  wf_cap : (length (storage b) <= buf_capacity b)%nat;
}.

Lemma buf_readable_eq b : buf_readable b = drop (read_pos b) (storage b).
Proof. unfold buf_readable, buf_size. apply take_ge. rewrite length_drop. lia. Qed.

Lemma buf_readable_length b : length (buf_readable b) = buf_size b.
Proof. unfold buf_size. by rewrite buf_readable_eq, length_drop. Qed.

#[export] Instance buffer_read_buffer_laws : ReadBufferLaws Buffer.
Proof.
  intros n b. cbn. rewrite (buf_readable_eq b), drop_drop.
  unfold buf_consume. rewrite buf_readable_eq.
  destruct (n <? buf_size b)%nat eqn:Hn; bool_facts; unfold buf_size in *.
  - case_match; bool_facts; simpl; [lia|]. done.
  - rewrite (drop_ge (storage b) (read_pos b + n)) by lia.
    case_match; bool_facts; simpl; [done|]. rewrite drop_ge by lia. done.
Qed.

Lemma buf_consume_wf n b : buf_wf b -> buf_pending b = 0%nat -> buf_wf (buf_consume n b).
Proof.
  intros [] Hp. unfold buf_consume, buf_size.
  repeat case_match; bool_facts; split; simpl in *; lia.
Qed.

Section Refinement.
Context (grow : nat -> nat -> nat) (grow_enough : forall c n, (n <= grow c n)%nat).

Lemma vec_capacity_ge c n : (n <= vec_capacity grow c n /\ (c <= n \/ c = vec_capacity grow c n))%nat.
Proof.
  unfold vec_capacity. pose proof (grow_enough c n).
  destruct (Nat.leb_spec n c); lia.
Qed.

Lemma buf_append_readable data b :
  buf_wf b -> buf_readable (buf_append grow data b) = buf_readable b ++ data.
Proof.
  intros []. rewrite !buf_readable_eq. simpl. rewrite drop_app_le by lia. done.
Qed.

Lemma buf_append_wf data b :
  buf_wf b -> buf_pending b = 0%nat -> buf_wf (buf_append grow data b).
Proof.
  intros [] Hp. split; simpl; rewrite length_app; [lia|]. apply vec_capacity_ge.
Qed.

Lemma reclaim_readable n b :
  buf_wf b -> buf_readable (reclaim_if_worthwhile n b) = buf_readable b.
Proof.
  intros []. rewrite !buf_readable_eq. unfold reclaim_if_worthwhile, buf_size.
  repeat case_match; bool_facts; simpl; try done.
  - rewrite drop_0, take_app_le by (rewrite length_drop; lia).
    apply take_ge. rewrite length_drop. lia.
  - rewrite drop_0. rewrite drop_ge by lia.
    by replace (length (storage b) - read_pos b)%nat with 0%nat by lia.
Qed.

Lemma reclaim_length n b :
  buf_wf b ->
  length (storage (reclaim_if_worthwhile n b)) =
  (read_pos (reclaim_if_worthwhile n b) + buf_size b)%nat.
Proof.
  intros []. unfold reclaim_if_worthwhile, buf_size.
  repeat case_match; bool_facts; simpl; try lia;
    rewrite length_take, ?length_app, ?length_drop; lia.
Qed.

Lemma reclaim_capacity n b : buf_capacity (reclaim_if_worthwhile n b) = buf_capacity b.
Proof. unfold reclaim_if_worthwhile. by repeat case_match. Qed.

Lemma buf_prepare_wf n b : buf_wf b -> buf_wf (buf_prepare grow n b).
Proof.
  intros Hwf. pose proof (reclaim_length n b Hwf).
  split; simpl; rewrite length_app, length_replicate; [lia|]. apply vec_capacity_ge.
Qed.

Lemma fill_commit_readable n data b :
  buf_wf b -> (length data <= n)%nat ->
  buf_readable (buf_commit (length data) (buf_fill data (buf_prepare grow n b)))
  = buf_readable b ++ data.
Proof.
  intros Hwf Hlen. rewrite <- (reclaim_readable n b Hwf).
  pose proof (reclaim_length n b Hwf) as Hl. rewrite !buf_readable_eq.
  unfold buf_commit, buf_fill, buf_prepare. cbn [storage buf_pending read_pos].
  set (r := reclaim_if_worthwhile n b) in *.
  rewrite !length_app, length_replicate.
  replace (length (storage r) + n - n)%nat with (length (storage r)) by lia.
  rewrite take_app_length, drop_app_ge by lia.
  replace (length (storage r) + length data - length (storage r))%nat with (length data) by lia.
  rewrite length_drop, length_replicate, (app_assoc (storage r)).
  rewrite take_app_length' by (rewrite length_app; case_match; bool_facts; lia).
  rewrite drop_app_le by lia. done.
Qed.

Lemma fill_commit_wf n data b :
  buf_wf b -> (length data <= n)%nat ->
  buf_wf (buf_commit (length data) (buf_fill data (buf_prepare grow n b))).
Proof.
  intros Hwf Hlen. pose proof (reclaim_length n b Hwf) as Hl.
  destruct (buf_prepare_wf n b Hwf) as [_ Hcap]. simpl in Hcap.
  unfold buf_commit, buf_fill, buf_prepare. cbn [storage buf_pending read_pos buf_capacity].
  set (r := reclaim_if_worthwhile n b) in *. rewrite length_app, length_replicate in Hcap.
  split; simpl; rewrite ?length_take, ?length_app, ?length_take, ?length_drop, ?length_app,
    ?length_replicate; case_match; bool_facts; lia.
Qed.

Lemma buf_apply_ok op b :
  buf_wf b -> buf_pending b = 0%nat ->
  buf_wf (buf_apply grow op b) /\ buf_pending (buf_apply grow op b) = 0%nat /\
  buf_readable (buf_apply grow op b) = queue_apply op (buf_readable b).
Proof.
  intros Hwf Hp. destruct op as [data|n data|n|n|n|]; cbn [buf_apply queue_apply].
  - by rewrite buf_append_readable; auto using buf_append_wf.
  - assert (length (take n data) <= n)%nat by (rewrite length_take; lia).
    by rewrite fill_commit_readable; auto using fill_commit_wf.
  - pose proof (fill_commit_readable n [] b Hwf ltac:(simpl; lia)) as Hr.
    pose proof (fill_commit_wf n [] b Hwf ltac:(simpl; lia)) as Hw.
    assert (buf_fill [] (buf_prepare grow n b) = buf_prepare grow n b) as E.
    { unfold buf_fill. simpl. rewrite Nat.add_0_r, take_drop. done. }
    rewrite E, app_nil_r in Hr. rewrite E in Hw. done.
  - split; [by apply buf_consume_wf|]. split.
    + unfold buf_consume. by case_match.
    + exact (readable_consume n b).
  - destruct Hwf. split; [|done]. split; simpl; [done|].
    pose proof (vec_capacity_ge (buf_capacity b) n). lia.
  - split; [|done]. destruct Hwf. split; simpl; lia.
Qed.

(** C39: whatever sequence of reads, appends, consumes, reservations and
    clears its client performs, the buffer stays well formed (cursor and
    allocation in bounds, nothing left uncommitted) and its readable region is
    exactly the byte queue those operations describe: bytes come out in the
    order they went in, none lost and none duplicated, however the vector
    reallocates and whenever the consumed prefix is reclaimed. *)
Theorem buffer_refines_queue (ops : list BufferOp) :
  let b := foldl (fun b op => buf_apply grow op b) empty_buffer ops in
  buf_wf b /\ buf_pending b = 0%nat /\
  buf_readable b = foldl (fun q op => queue_apply op q) [] ops.
Proof.
  induction ops as [|op ops IH] using rev_ind; [done|].
  rewrite !foldl_snoc. destruct IH as (Hwf & Hp & Hr).
  destruct (buf_apply_ok op _ Hwf Hp) as (Hwf' & Hp' & Hr').
  split; [done|]. split; [done|]. simpl in *. by rewrite Hr', Hr.
Qed.
End Refinement.

Lemma buffer_refines_queue_witness :
  let ops := [op_read 4 [x61; x62]; op_consume 1; op_append [x63]] in
  buf_readable (foldl (fun b op => buf_apply (fun c n => Nat.max n (2 * c)) op b)
                  empty_buffer ops) = [x62; x63].
Proof.
  intros ops.
  rewrite (proj2 (proj2 (buffer_refines_queue (fun c n => Nat.max n (2 * c))
                           ltac:(intros; simpl; lia) ops))).
  reflexivity.
Defined.

(** A read that fits does not reallocate.  When the unread bytes
    and the requested region fit in the allocation the buffer already has,
    [prepare] keeps that allocation: it reclaims the consumed prefix instead of
    growing, which is what makes a steady read/consume loop reuse one
    allocation and keeps a client's reserved input budget from being exceeded. *)
Theorem buf_prepare_reuses_allocation (grow : nat -> nat -> nat) (n : nat) (b : Buffer) :
  buf_wf b -> (buf_size b + n <= buf_capacity b)%nat ->
  buf_capacity (buf_prepare grow n b) = buf_capacity b.
Proof.
  intros [Hpos Hcap] Hfit. simpl. unfold vec_capacity. rewrite reclaim_capacity.
  assert (length (storage (reclaim_if_worthwhile n b)) + n <= buf_capacity b)%nat as Hle.
  { unfold reclaim_if_worthwhile, buf_size in *.
    repeat case_match; bool_facts; simpl; try lia;
      rewrite length_take, ?length_app, ?length_drop; lia. }
  apply Nat.leb_le in Hle. by rewrite Hle.
Qed.

Lemma buf_prepare_reuses_allocation_witness :
  let b := {| storage := [x61; x62; x63]; buf_capacity := 4; read_pos := 2; buf_pending := 0 |} in
  buf_capacity (buf_prepare (fun _ n => n) 3 b) = 4%nat.
Proof.
  intros b. apply (buf_prepare_reuses_allocation (fun _ n => n) 3 b).
  - split; simpl; lia.
  - vm_compute. lia.
Defined.
