(* ===== verification/Grammar.v ===== *)
(** * Grammar: character classes and list splitting (http/src/grammar.hpp) *)

From S2P Require Import Prelude.

Local Open Scope Z_scope.

(** [grammar::is_tchar] *)
Definition is_tchar (b : byte) : bool :=
  let c := code b in
  if ((97 <=? c) && (c <=? 122)) || ((65 <=? c) && (c <=? 90)) || ((48 <=? c) && (c <=? 57))
  then true
  else existsb (Byte.eqb b) (lit "!#$%&'*+-.^_`|~").

(** [grammar::is_field_vchar] *)
Definition is_field_vchar (b : byte) : bool :=
  Byte.eqb b HTAB || ((32 <=? code b) && negb (code b =? 127)).

(** [grammar::is_ows] *)
Definition is_ows (b : byte) : bool := Byte.eqb b SP || Byte.eqb b HTAB.

(** [while (!text.empty() && is_ows(text.front())) text.remove_prefix(1);] *)
Fixpoint trim_front (l : bytes) : bytes :=
  match l with
  | [] => []
  | b :: l' => if is_ows b then trim_front l' else l
  end.

(** [while (!text.empty() && is_ows(text.back())) text.remove_suffix(1);] *)
Definition trim_back (l : bytes) : bytes := reverse (trim_front (reverse l)).

(** [grammar::trim_ows] *)
Definition trim_ows (text : bytes) : bytes := trim_back (trim_front text).

(** [grammar::split_list]: each round of the loop removes at least one byte, so
    the text's own length bounds the rounds. *)
Fixpoint split_list_loop (fuel : nat) (text : bytes) (items : list bytes) : list bytes :=
  match fuel with
  | O => items
  | S n =>
      match text with
      | [] => items
      | _ =>
          let comma := find COMMA text in
          let item := trim_ows (prefix_to comma text) in
          let items := if (length item =? 0)%nat then items else items ++ [item] in
          match comma with
          | None => items
          | Some i => split_list_loop n (drop (i + 1) text) items
          end
      end
  end.

Definition split_list (text : bytes) : list bytes := split_list_loop (S (length text)) text [].

(** ** Facts: character classes *)

Lemma tchar_vchar b : is_tchar b = true -> is_field_vchar b = true.
Proof. by destruct b. Qed.

Lemma tchar_not_ows b : is_tchar b = true -> is_ows b = false.
Proof. by destruct b. Qed.

Lemma tchar_not_colon : is_tchar COLON = false.
Proof. done. Qed.

Lemma vchar_not_CR : is_field_vchar CR = false.
Proof. done. Qed.

Lemma vchar_not_LF : is_field_vchar LF = false.
Proof. done. Qed.

Lemma ows_vchar b : is_ows b = true -> is_field_vchar b = true.
Proof. by destruct b. Qed.

(** A text all of whose bytes pass a test holds no byte that fails it. *)
Lemma forallb_not_elem (P : byte -> bool) l b :
  forallb P l = true -> P b = false -> b ∉ l.
Proof.
  intros Hall Hb Hin. rewrite forallb_forall in Hall.
  apply list_elem_of_In, Hall in Hin. congruence.
Qed.

(** ** Facts: trimming *)

Lemma trim_front_id l : (forall b l', l = b :: l' -> is_ows b = false) -> trim_front l = l.
Proof. destruct l as [|b l]; [done|]. intros H. simpl. by rewrite (H b l). Qed.

Lemma trim_front_idem l : trim_front (trim_front l) = trim_front l.
Proof. induction l as [|b l IH]; simpl; [done|]. destruct (is_ows b) eqn:E; [done|]. simpl. by rewrite E. Qed.

Lemma trim_front_suffix l : exists w, l = w ++ trim_front l /\ forallb is_ows w = true.
Proof.
  induction l as [|b l (w & Hw & Ho)]; [by exists []|]. simpl.
  destruct (is_ows b) eqn:E; [|by exists []].
  exists (b :: w). simpl. rewrite E, Ho. split; [by f_equal|done].
Qed.

Lemma trim_back_prefix l : exists w, l = trim_back l ++ w /\ forallb is_ows w = true.
Proof.
  destruct (trim_front_suffix (reverse l)) as (w & Hw & Ho). exists (reverse w). split.
  - unfold trim_back. rewrite <- reverse_app, <- Hw, reverse_involutive. done.
  - rewrite forallb_forall in *. intros x Hx. apply Ho.
    apply list_elem_of_In. apply list_elem_of_In in Hx. by rewrite elem_of_reverse in Hx.
Qed.

(** Trimming keeps a contiguous middle: the text is optional whitespace, the
    trimmed text, optional whitespace. *)
Lemma trim_ows_middle l :
  exists w1 w2, l = w1 ++ trim_ows l ++ w2 /\
    forallb is_ows w1 = true /\ forallb is_ows w2 = true.
Proof.
  destruct (trim_front_suffix l) as (w1 & H1 & O1).
  destruct (trim_back_prefix (trim_front l)) as (w2 & H2 & O2).
  exists w1, w2. unfold trim_ows. by rewrite <- H2, <- H1.
Qed.

Lemma trim_ows_forallb P l : forallb P l = true -> forallb P (trim_ows l) = true.
Proof.
  intros H. destruct (trim_ows_middle l) as (w1 & w2 & E & _).
  rewrite E, !forallb_app in H. by bool_facts.
Qed.

(** A text with no whitespace at either end. *)
Definition no_outer_ows (l : bytes) : bool :=
  match l with [] => true | b :: _ => negb (is_ows b) end &&
  match last l with None => true | Some b => negb (is_ows b) end.

Lemma trim_ows_id l : no_outer_ows l = true -> trim_ows l = l.
Proof.
  unfold no_outer_ows, trim_ows. intros H. bool_facts.
  rewrite (trim_front_id l). 2:{ intros b l' ->. by bool_facts. }
  unfold trim_back. rewrite trim_front_id; [apply reverse_involutive|].
  intros b l' E. assert (l = reverse l' ++ [b]) as ->.
  { by rewrite <- (reverse_involutive l), E, reverse_cons. }
  rewrite last_snoc in *. by bool_facts.
Qed.

Lemma trim_front_app_ows w l : forallb is_ows w = true -> trim_front (w ++ l) = trim_front l.
Proof.
  induction w as [|b w IH]; simpl; [done|]. intros H. bool_facts. rewrite H. auto.
Qed.

Lemma trim_ows_no_outer l : no_outer_ows (trim_ows l) = true.
Proof.
  unfold no_outer_ows, trim_ows, trim_back. set (t := trim_front l).
  apply andb_true_iff. split.
  - destruct (trim_back_prefix t) as (w & E & _). unfold trim_back in E.
    destruct (reverse (trim_front (reverse t))) as [|b r]; [done|].
    assert (trim_front t = t) as Ht by apply trim_front_idem.
    rewrite E in Ht. simpl in Ht. destruct (is_ows b) eqn:Eb; [|done].
    apply (f_equal length) in Ht.
    destruct (trim_front_suffix (r ++ w)) as (v & Ev & _).
    apply (f_equal length) in Ev. rewrite !length_app in *. simpl in *.
    rewrite length_app in Ht. lia.
  - pose proof (trim_front_idem (reverse t)) as Hi.
    destruct (trim_front (reverse t)) as [|b r] eqn:E; [done|].
    rewrite reverse_cons, last_snoc. simpl in Hi.
    destruct (is_ows b) eqn:Eb; [|done].
    destruct (trim_front_suffix r) as (v & Ev & _).
    apply (f_equal length) in Ev. apply (f_equal length) in Hi.
    rewrite length_app in Ev. simpl in *. lia.
Qed.

(** ** Facts: list splitting *)

(** Reference definition: the pieces between commas. *)
Fixpoint split_commas (l : bytes) : list bytes :=
  match l with
  | [] => [[]]
  | b :: l' =>
      if Byte.eqb b COMMA then [] :: split_commas l'
      else match split_commas l' with
           | x :: xs => (b :: x) :: xs
           | [] => [[b]]
           end
  end.

Definition nonempty (l : bytes) : bool := negb (length l =? 0)%nat.

(** The items of a list value: pieces between commas, trimmed, empty ones
    dropped. *)
Definition list_items (l : bytes) : list bytes :=
  List.filter nonempty (map trim_ows (split_commas l)).

Lemma split_commas_none l : find COMMA l = None -> split_commas l = [l].
Proof.
  induction l as [|b l IH]; simpl; [done|].
  destruct (Byte.eqb b COMMA); [done|]. intros H%fmap_None. by rewrite IH.
Qed.

Lemma split_commas_some l i :
  find COMMA l = Some i -> split_commas l = take i l :: split_commas (drop (i + 1) l).
Proof.
  revert i; induction l as [|b l IH]; intros i; simpl; [done|].
  destruct (Byte.eqb b COMMA); [by intros [= <-]|].
  intros (j & Hj & ->)%fmap_Some. by rewrite (IH j Hj).
Qed.

Lemma split_list_loop_items fuel text items :
  (length text < fuel)%nat -> split_list_loop fuel text items = items ++ list_items text.
Proof.
  revert text items; induction fuel as [|n IH]; intros text items Hlen; [lia|].
  destruct text as [|b t]; [by rewrite app_nil_r|].
  cbn [split_list_loop]. set (text := b :: t) in *. unfold list_items.
  destruct (find COMMA text) as [i|] eqn:E.
  - rewrite (split_commas_some _ _ E). simpl map. simpl List.filter.
    rewrite IH by (apply find_lt in E; rewrite length_drop; lia).
    unfold nonempty at 1. simpl prefix_to.
    destruct (length (trim_ows (take i text)) =? 0)%nat; simpl; [done|].
    by rewrite <- app_assoc.
  - rewrite (split_commas_none _ E). simpl. unfold nonempty.
    destruct (length (trim_ows text) =? 0)%nat; simpl; [by rewrite app_nil_r|done].
Qed.

Lemma split_list_items text : split_list text = list_items text.
Proof. unfold split_list. rewrite split_list_loop_items; [done|lia]. Qed.
