(* ===== verification/Message.v ===== *)
(** * Message: HTTP message types and parser bounds
    (http/message.hpp, http/src/message.cpp, http/limits.hpp) *)

From S2P Require Import Prelude.

Local Open Scope Z_scope.

Module Method.
Inductive t :=
| get
| head
| post
| put
| delete_
| connect
| options
| trace
| patch
| other.

#[export] Instance eq_dec : EqDecision t.
Proof. solve_decision. Defined.

Definition eqb (a b : t) : bool := bool_decide (a = b).
End Method.

Module Version.
Inductive t :=
| http_1_0
| http_1_1.

#[export] Instance eq_dec : EqDecision t.
Proof. solve_decision. Defined.

Definition eqb (a b : t) : bool := bool_decide (a = b).
End Version.

(** [kMethods] *)
Definition kMethods : list (bytes * Method.t) :=
  [(lit "GET", Method.get);
   (lit "HEAD", Method.head);
   (lit "POST", Method.post);
   (lit "PUT", Method.put);
   (lit "DELETE", Method.delete_);
   (lit "CONNECT", Method.connect);
   (lit "OPTIONS", Method.options);
   (lit "TRACE", Method.trace);
   (lit "PATCH", Method.patch)].

(** [kReasons] *)
Definition kReasons : list (Z * bytes) :=
  [(100, lit "Continue");
   (101, lit "Switching Protocols");
   (200, lit "OK");
   (201, lit "Created");
   (202, lit "Accepted");
   (204, lit "No Content");
   (206, lit "Partial Content");
   (301, lit "Moved Permanently");
   (302, lit "Found");
   (303, lit "See Other");
   (304, lit "Not Modified");
   (307, lit "Temporary Redirect");
   (308, lit "Permanent Redirect");
   (400, lit "Bad Request");
   (401, lit "Unauthorized");
   (403, lit "Forbidden");
   (404, lit "Not Found");
   (405, lit "Method Not Allowed");
   (408, lit "Request Timeout");
   (409, lit "Conflict");
   (411, lit "Length Required");
   (413, lit "Content Too Large");
   (414, lit "URI Too Long");
   (415, lit "Unsupported Media Type");
   (429, lit "Too Many Requests");
   (431, lit "Request Header Fields Too Large");
   (500, lit "Internal Server Error");
   (501, lit "Not Implemented");
   (503, lit "Service Unavailable");
   (505, lit "HTTP Version Not Supported")].

(** [to_string(Method)]: the token of the first entry with that method. *)
Fixpoint method_token (table : list (bytes * Method.t)) (m : Method.t) : bytes :=
  match table with
  | [] => []
  | (token, m') :: rest => if Method.eqb m' m then token else method_token rest m
  end.

Definition method_to_string (m : Method.t) : bytes := method_token kMethods m.

(** [method_from_token]: case-sensitive lookup, [other] when absent. *)
Fixpoint token_method (table : list (bytes * Method.t)) (token : bytes) : Method.t :=
  match table with
  | [] => Method.other
  | (token', m) :: rest => if bytes_eqb token' token then m else token_method rest token
  end.

Definition method_from_token (token : bytes) : Method.t := token_method kMethods token.

(** [to_string(Version)] *)
Definition version_to_string (v : Version.t) : bytes :=
  match v with
  | Version.http_1_0 => lit "HTTP/1.0"
  | Version.http_1_1 => lit "HTTP/1.1"
  end.

(** [default_reason] *)
Fixpoint reason_lookup (table : list (Z * bytes)) (status : Z) : bytes :=
  match table with
  | [] => []
  | (s, reason) :: rest => if s =? status then reason else reason_lookup rest status
  end.

Definition default_reason (status : Z) : bytes := reason_lookup kReasons status.

(** [ascii_lower] *)
Definition ascii_lower (b : byte) : byte :=
  let c := code b in
  if (65 <=? c) && (c <=? 90)
  then match Byte.of_N (Z.to_N (c - 65 + 97)) with Some b' => b' | None => b end
  else b.

(** [HeaderMap::names_equal] *)
Fixpoint lower_eqb (a b : bytes) : bool :=
  match a, b with
  | x :: a', y :: b' => if Byte.eqb (ascii_lower x) (ascii_lower y) then lower_eqb a' b' else false
  | _, _ => true
  end.

Definition names_equal (a b : bytes) : bool :=
  if negb (length a =? length b)%nat then false else lower_eqb a b.

Module HeaderMap.
Definition entry : Type := bytes * bytes.
Definition t : Type := list entry.

Definition append (name value : bytes) (h : t) : t := h ++ [(name, value)].

Fixpoint get (name : bytes) (h : t) : option bytes :=
  match h with
  | [] => None
  | (n, v) :: h' => if names_equal n name then Some v else get name h'
  end.

Fixpoint get_all (name : bytes) (h : t) : list bytes :=
  match h with
  | [] => []
  | (n, v) :: h' => if names_equal n name then v :: get_all name h' else get_all name h'
  end.

Fixpoint count (name : bytes) (h : t) : nat :=
  match h with
  | [] => 0
  | (n, _) :: h' => if names_equal n name then S (count name h') else count name h'
  end.

Definition contains (name : bytes) (h : t) : bool := (0 <? count name h)%nat.

Definition size (h : t) : Z := Z.of_nat (length h).

Definition empty (h : t) : bool := (length h =? 0)%nat.
End HeaderMap.

Module BodyKind.
Inductive t :=
| none
| length
| chunked
| close_delimited.

#[export] Instance eq_dec : EqDecision t.
Proof. solve_decision. Defined.

Definition eqb (a b : t) : bool := bool_decide (a = b).
End BodyKind.

Record Request := mk_request {
  req_method : Method.t;
  req_target : bytes;
  req_version : Version.t;
  req_headers : HeaderMap.t;
  req_body_kind : BodyKind.t;
  req_content_length : Z;
}.

(** A default-constructed or [clear()]ed request. *)
Definition clear_request : Request :=
  {| req_method := Method.get; req_target := []; req_version := Version.http_1_1;
     req_headers := []; req_body_kind := BodyKind.none; req_content_length := 0 |}.

Record Response := mk_response {
  res_version : Version.t;
  res_status : Z;
  res_reason : bytes;
  res_headers : HeaderMap.t;
  res_body_kind : BodyKind.t;
  res_content_length : Z;
}.

(** A default-constructed or [clear()]ed response. *)
Definition clear_response : Response :=
  {| res_version := Version.http_1_1; res_status := 200; res_reason := [];
     res_headers := []; res_body_kind := BodyKind.none; res_content_length := 0 |}.

(** Parser bounds, in bytes. *)
Record Limits := mk_limits {
  max_start_line : Z;
  max_header_line : Z;
  max_header_count : Z;
  max_headers_total : Z;
  max_body_size : Z;
  max_chunk_size : Z;
  max_chunk_extension : Z;
  allow_bare_lf : bool;
  allow_obsolete_line_folding : bool;
}.

Definition default_limits : Limits :=
  {| max_start_line := 8 * 1024;
     max_header_line := 8 * 1024;
     max_header_count := 100;
     max_headers_total := 64 * 1024;
     max_body_size := 1024 * 1024;
     max_chunk_size := 1024 * 1024;
     max_chunk_extension := 256;
     allow_bare_lf := false;
     allow_obsolete_line_folding := false |}.

(** Every bound fits its C++ field. *)
Definition limits_in_range (l : Limits) : Prop :=
  Forall (fun z => 0 <= z <= UINT64_MAX)
    [max_start_line l; max_header_line l; max_header_count l; max_headers_total l;
     max_body_size l; max_chunk_size l; max_chunk_extension l].

(** ** Facts *)

Lemma method_token_roundtrip m :
  m <> Method.other -> method_from_token (method_to_string m) = m.
Proof. by destruct m. Qed.

Lemma lower_eqb_refl a : lower_eqb a a = true.
Proof. induction a as [|b a IH]; simpl; [done|]. by rewrite byte_eqb_refl. Qed.

Lemma lower_eqb_map a b :
  length a = length b -> lower_eqb a b = bool_decide (map ascii_lower a = map ascii_lower b).
Proof.
  revert b; induction a as [|x a IH]; intros [|y b] H; simpl in *; try done.
  rewrite IH by lia.
  destruct (Byte.eqb (ascii_lower x) (ascii_lower y)) eqn:E.
  - apply byte_eqb_eq in E as ->. apply bool_decide_ext. split; [by intros ->|by intros [= ->]].
  - apply byte_eqb_neq in E. symmetry. apply bool_decide_eq_false. by intros [= ? _].
Qed.

(** Field names compare as their lower-case forms. *)
Lemma names_equal_map a b :
  names_equal a b = bool_decide (map ascii_lower a = map ascii_lower b).
Proof.
  unfold names_equal. destruct (length a =? length b)%nat eqn:E; simpl; bool_facts.
  - by apply lower_eqb_map.
  - symmetry. apply bool_decide_eq_false. intros H%(f_equal length).
    by rewrite !length_map in H.
Qed.

Lemma names_equal_refl a : names_equal a a = true.
Proof. rewrite names_equal_map. by apply bool_decide_eq_true. Qed.

Lemma get_all_length name h : length (HeaderMap.get_all name h) = HeaderMap.count name h.
Proof. induction h as [|[n v] h IH]; simpl; [done|]. destruct (names_equal n name); simpl; auto. Qed.

Lemma count_app name h1 h2 :
  HeaderMap.count name (h1 ++ h2) = (HeaderMap.count name h1 + HeaderMap.count name h2)%nat.
Proof. induction h1 as [|[n v] h1 IH]; simpl; [done|]. destruct (names_equal n name); simpl; lia. Qed.

Lemma get_all_app name h1 h2 :
  HeaderMap.get_all name (h1 ++ h2) = HeaderMap.get_all name h1 ++ HeaderMap.get_all name h2.
Proof.
  induction h1 as [|[n v] h1 IH]; simpl; [done|].
  destruct (names_equal n name); simpl; by rewrite IH.
Qed.

Lemma contains_false name h :
  HeaderMap.contains name h = false <-> HeaderMap.get_all name h = [].
Proof.
  unfold HeaderMap.contains. rewrite <- get_all_length, Nat.ltb_ge.
  destruct (HeaderMap.get_all name h); simpl; split; try done; lia.
Qed.
