(* ===== verification/Lines.v ===== *)
(** * Lines: what the HTTP/1 parsers are built from (http/src/parser.cpp)

    Protocol errors, line location under the CRLF policy, and strict integer
    parsing. *)

From S2P Require Import Prelude Numerals Errors Grammar Message.

Local Open Scope Z_scope.

Module ParseError.
Inductive t :=
| malformed_start_line
| unsupported_version
| malformed_header
| whitespace_before_colon
| obsolete_line_folding
| framing_conflict
| inconsistent_content_length
| malformed_content_length
| invalid_transfer_encoding
| malformed_chunk
| bad_line_ending
| limit_exceeded.

#[export] Instance eq_dec : EqDecision t.
Proof. solve_decision. Defined.

(** The enumerators count up from [malformed_start_line = 1]. *)
Definition value (e : t) : Z :=
  match e with
  | malformed_start_line => 1
  | unsupported_version => 2
  | malformed_header => 3
  | whitespace_before_colon => 4
  | obsolete_line_folding => 5
  | framing_conflict => 6
  | inconsistent_content_length => 7
  | malformed_content_length => 8
  | invalid_transfer_encoding => 9
  | malformed_chunk => 10
  | bad_line_ending => 11
  | limit_exceeded => 12
  end.

Definition of_value (z : Z) : option t :=
  match z with
  | 1 => Some malformed_start_line
  | 2 => Some unsupported_version
  | 3 => Some malformed_header
  | 4 => Some whitespace_before_colon
  | 5 => Some obsolete_line_folding
  | 6 => Some framing_conflict
  | 7 => Some inconsistent_content_length
  | 8 => Some malformed_content_length
  | 9 => Some invalid_transfer_encoding
  | 10 => Some malformed_chunk
  | 11 => Some bad_line_ending
  | 12 => Some limit_exceeded
  | _ => None
  end.
End ParseError.

(** [make_error_code(ParseError)] *)
Definition parse_error (e : ParseError.t) : Error :=
  {| ec_value := ParseError.value e; ec_category := parse_category |}.

(** [ParseCategory::message] *)
Definition parse_message (value : Z) : bytes :=
  match ParseError.of_value value with
  | Some ParseError.malformed_start_line => lit "malformed start line"
  | Some ParseError.unsupported_version => lit "unsupported HTTP version"
  | Some ParseError.malformed_header => lit "malformed header field"
  | Some ParseError.whitespace_before_colon => lit "whitespace between field name and colon"
  | Some ParseError.obsolete_line_folding => lit "obsolete line folding is not accepted"
  | Some ParseError.framing_conflict => lit "Content-Length conflicts with Transfer-Encoding"
  | Some ParseError.inconsistent_content_length => lit "repeated Content-Length values disagree"
  | Some ParseError.malformed_content_length => lit "malformed Content-Length"
  | Some ParseError.invalid_transfer_encoding => lit "invalid Transfer-Encoding"
  | Some ParseError.malformed_chunk => lit "malformed chunked encoding"
  | Some ParseError.bad_line_ending => lit "malformed line ending"
  | Some ParseError.limit_exceeded => lit "configured limit exceeded"
  | None =>
      lit "unknown http parse error (" ++
      (if value <? 0 then lit "-" ++ to_decimal (- value) else to_decimal value) ++ lit ")"
  end.

(** A line located inside the buffer: its text without the terminator, and how
    many bytes to consume for it. *)
Record Line := mk_line { line_text : bytes; line_consumed : nat }.

(** [next_line(window, allow_bare_lf)] *)
Definition next_line (window : bytes) (allow_bare_lf : bool) : Result (option Line) :=
  match find LF window with
  | None => Ok None
  | Some lf =>
      if (lf =? 0)%nat then
        if negb allow_bare_lf then Fail (parse_error ParseError.bad_line_ending)
        else Ok (Some (mk_line (take 0 window) 1))
      else
        let has_cr := bool_decide (window !! (lf - 1)%nat = Some CR) in
        if negb has_cr && negb allow_bare_lf then Fail (parse_error ParseError.bad_line_ending)
        else
          let content := if has_cr then (lf - 1)%nat else lf in
          match find CR (take content window) with
          | Some _ => Fail (parse_error ParseError.bad_line_ending)
          | None => Ok (Some (mk_line (take content window) (lf + 1)))
          end
  end.

(** [parse_integer(text, base)] *)
Definition parse_integer (text : bytes) (base : Z) : option Z :=
  if (length text =? 0)%nat then None
  else match from_chars text base with
       | fc_value v [] => Some v
       | _ => None
       end.

Definition parse_decimal (text : bytes) : option Z := parse_integer text 10.

Definition parse_hex (text : bytes) : option Z := parse_integer text 16.

(** ** Facts: lines *)

(** The terminators a policy accepts. *)
Definition line_end (allow_bare_lf : bool) (e : bytes) : Prop :=
  e = CRLF \/ (allow_bare_lf = true /\ e = [LF]).

(** A located line is the text up to the first terminator: no line break inside
    it, a terminator the policy allows behind it, and the count covers both. *)
Lemma next_line_sound w bare l :
  next_line w bare = Ok (Some l) ->
  exists e rest, w = line_text l ++ e ++ rest /\ line_end bare e /\
    (CR ∉ line_text l) /\ (LF ∉ line_text l) /\
    line_consumed l = (length (line_text l) + length e)%nat.
Proof.
  unfold next_line. destruct (find LF w) as [lf|] eqn:Hlf; [|done].
  pose proof (find_split _ _ _ Hlf) as Hw.
  apply find_Some in Hlf as [Hat Hno].
  pose proof (lookup_lt_Some _ _ _ Hat) as Hlt.
  destruct (lf =? 0)%nat eqn:E0; bool_facts.
  { subst lf. destruct bare; simpl; [|done]. intros [= <-]. simpl in *.
    exists [LF], (drop 1 w). split_and!; [done|by right|set_solver|set_solver|done]. }
  set (has_cr := bool_decide _). destruct (negb has_cr && negb bare) eqn:Eb; [done|].
  destruct (find CR _) eqn:Hcr; [done|]. intros [= <-]. simpl.
  apply find_None in Hcr. destruct has_cr eqn:Ecr; subst has_cr.
  - apply bool_decide_eq_true in Ecr. exists CRLF, (drop (S lf) w).
    rewrite length_take, Nat.min_l by lia. split_and!; [|by left|done| |simpl; lia].
    + rewrite <- (take_drop_middle _ _ _ Hat) at 1.
      replace lf with (S (lf - 1)) at 1 by lia.
      rewrite (take_S_r _ _ _ Ecr), <- app_assoc. done.
    + intros Hin. apply Hno. replace lf with (S (lf - 1)) by lia.
      rewrite (take_S_r _ _ _ Ecr). set_solver.
  - exists [LF], (drop (S lf) w). rewrite length_take, Nat.min_l by lia.
    destruct bare; [|done].
    split_and!; [done|by right|done|done|simpl; lia].
Qed.

(** Conversely, a clean text in front of an allowed terminator is the next line. *)
Lemma next_line_complete bare t e rest :
  line_end bare e -> CR ∉ t -> LF ∉ t ->
  next_line (t ++ e ++ rest) bare = Ok (Some (mk_line t (length t + length e))).
Proof.
  intros He Hcr Hlf. unfold next_line. destruct He as [-> | [-> ->]].
  - change (t ++ CRLF ++ rest) with (t ++ [CR] ++ LF :: rest).
    rewrite (app_assoc t), find_here by (apply not_elem_of_app; split; [done|set_solver]).
    rewrite length_app. simpl length. destruct (length t + 1 =? 0)%nat eqn:E0; bool_facts; [lia|].
    replace (length t + 1 - 1)%nat with (length t) by lia.
    rewrite <- app_assoc. change ([CR] ++ LF :: rest) with (CR :: LF :: rest).
    rewrite bool_decide_true by (by rewrite list_lookup_middle).
    simpl. rewrite take_app_length. rewrite (proj2 (find_None CR t)) by done.
    do 3 f_equal. lia.
  - simpl. rewrite find_here by done. destruct (length t =? 0)%nat eqn:E0; bool_facts.
    { destruct t; [done|simpl in *; lia]. }
    rewrite bool_decide_false.
    2:{ rewrite lookup_app_l by lia. intros Hin%list_elem_of_lookup_2. done. }
    simpl. rewrite take_app_length. rewrite (proj2 (find_None CR t)) by done. done.
Qed.

Lemma next_line_need_more w bare : next_line w bare = Ok None <-> LF ∉ w.
Proof.
  rewrite <- find_None. unfold next_line. destruct (find LF w) as [lf|]; [|done].
  split; [|done]. repeat case_match; done.
Qed.

(** Decisions about a line depend only on the bytes up to its LF: more input
    behind it changes nothing. *)
Lemma next_line_app w x bare :
  next_line w bare <> Ok None -> next_line (w ++ x) bare = next_line w bare.
Proof.
  unfold next_line. destruct (find LF w) as [lf|] eqn:E; [|done]. intros _.
  rewrite (find_app_l _ _ x _ E). apply find_lt in E.
  rewrite lookup_app_l by lia.
  destruct (lf =? 0)%nat; [by rewrite !take_0|].
  set (has_cr := bool_decide _). destruct (negb has_cr && negb bare); [done|].
  by destruct has_cr; rewrite take_app_le by lia.
Qed.

Lemma next_line_consumed w bare l :
  next_line w bare = Ok (Some l) ->
  (1 <= line_consumed l <= length w /\ length (line_text l) < line_consumed l)%nat.
Proof.
  intros H. apply next_line_sound in H as (e & rest & -> & He & _ & _ & ->).
  rewrite !length_app. destruct He as [-> | [_ ->]]; simpl; lia.
Qed.

Lemma next_line_errors w bare e :
  next_line w bare = Fail e -> e = parse_error ParseError.bad_line_ending.
Proof. unfold next_line. repeat case_match; intros; simplify_eq; done. Qed.

#[export] Hint Resolve next_line_consumed next_line_errors : mira.

(** Line location is exact under either line-ending policy.  The
    parser finds the line [t] at the front of its window and consumes [n] bytes
    for it precisely when the window starts with [t] and a terminator the
    policy accepts (CRLF, or a lone LF only when that is allowed), [t] has no CR
    or LF in it, and [n] counts both; it asks for more precisely when the window
    holds no LF. *)
Theorem next_line_correct (w : bytes) (bare : bool) (t : bytes) (n : nat) :
  (next_line w bare = Ok (Some (mk_line t n)) <->
   exists e rest, w = t ++ e ++ rest /\ line_end bare e /\
     (CR ∉ t) /\ (LF ∉ t) /\ n = (length t + length e)%nat) /\
  (next_line w bare = Ok None <-> (LF ∉ w)).
Proof.
  split; [|apply next_line_need_more]. split.
  - by intros H%next_line_sound.
  - intros (e & rest & -> & He & Hcr & Hlf & ->). by apply next_line_complete.
Qed.

(** ** Facts: integers *)

(** The digits a text consists of, when it consists of digits only. *)
Definition text_digits (base : Z) (text : bytes) : option (list Z) :=
  mapM (digit_of base) text.

(** The number a digit sequence denotes. *)
Definition digits_number (base acc : Z) (ds : list Z) : Z :=
  foldl (fun a d => a * base + d) acc ds.

Lemma scan_digits_all base acc l v :
  scan_digits base acc l = (v, []) <->
  exists ds, text_digits base l = Some ds /\ v = digits_number base acc ds.
Proof.
  unfold text_digits. revert acc; induction l as [|b l IH]; intros acc; simpl.
  - split; [intros [= ->]; by exists [] | by intros (ds & [= <-] & ->)].
  - destruct (digit_of base b) as [d|]; simpl.
    + rewrite IH. split.
      * intros (ds & -> & ->). by exists (d :: ds).
      * intros (ds & (ds' & -> & [= <-])%bind_Some & ->). by exists ds'.
    + split; [done|]. by intros (ds & ? & _).
Qed.

(** Integer fields are read strictly.  A text is accepted as the
    number [v] precisely when it is non-empty, every byte of it is a digit of
    the base (so no sign, no blank, no other character), [v] is the number those
    digits denote, and [v] fits 64 bits: an overflowing length is refused rather
    than wrapped. *)
Theorem parse_integer_exact (text : bytes) (base v : Z) :
  parse_integer text base = Some v <->
  text <> [] /\ v <= UINT64_MAX /\
  exists ds, text_digits base text = Some ds /\ v = digits_number base 0 ds.
Proof.
  unfold parse_integer, from_chars. destruct text as [|b text]; simpl length; [naive_solver|].
  rewrite <- scan_digits_all. simpl.
  destruct (digit_of base b) as [d|]; [|naive_solver].
  destruct (scan_digits base (0 * base + d) text) as [v' rest].
  destruct (v' <=? UINT64_MAX) eqn:E; bool_facts.
  - destruct rest; naive_solver.
  - split; [done|]. intros (_ & Hle & [= -> ->]). lia.
Qed.

Lemma parse_decimal_printed v : 0 <= v <= UINT64_MAX -> parse_decimal (to_decimal v) = Some v.
Proof.
  intros Hv. unfold parse_decimal, parse_integer. rewrite from_chars_decimal by done.
  pose proof (to_decimal_nonempty v Hv). by destruct (to_decimal v).
Qed.

Lemma parse_hex_printed v : 0 <= v <= UINT64_MAX -> parse_hex (to_hex v) = Some v.
Proof.
  intros Hv. unfold parse_hex, parse_integer. rewrite from_chars_hex by done.
  pose proof (to_hex_length v Hv). destruct (to_hex v); simpl in *; [lia|done].
Qed.

(** The decimal lengths and hexadecimal chunk sizes the serialiser
    prints are read back as the same 64-bit number, and a hexadecimal size never
    outgrows the serialiser's 20-byte scratch array. *)
Theorem integer_roundtrip (v : Z) :
  0 <= v <= UINT64_MAX ->
  parse_decimal (to_decimal v) = Some v /\ parse_hex (to_hex v) = Some v /\
  (1 <= length (to_hex v) <= 16)%nat.
Proof.
  auto using parse_decimal_printed, parse_hex_printed, to_hex_length.
Qed.

Lemma integer_roundtrip_witness :
  parse_decimal (to_decimal 65535) = Some 65535 /\ parse_hex (to_hex 65535) = Some 65535 /\
  (1 <= length (to_hex 65535) <= 16)%nat.
Proof. apply (integer_roundtrip 65535). vm_compute. split; discriminate. Defined.
