(* ===== verification/RequestParser.v ===== *)
(** * RequestParser: the incremental HTTP/1.1 request parser
    (http/parser.hpp, http/src/parser.cpp)

    The parser is a state machine over its own record and the caller's input
    buffer.  Each method is a function on the pair of them; the buffer is any
    [ReadBuffer], because the parser only reads the readable region and consumes
    a prefix of it. *)

From S2P Require Import Prelude Numerals Errors Buffer Grammar Message Lines.

Local Open Scope Z_scope.
Local Open Scope mira_scope.

Module ParseStep.
Inductive t :=
| need_more
| head
| body
| complete.

#[export] Instance eq_dec : EqDecision t.
Proof. solve_decision. Defined.
End ParseStep.

Module State.
Inductive t :=
| start_line
| headers
| body_length
| body_chunk_header
| body_chunk_data
| body_chunk_trailer
| done.
End State.

Module Progress.
Inductive t :=
| need_data
| advanced
| emitted_body
| finished.
End Progress.

Record RequestParser := mk_request_parser {
  limits_ : Limits;
  state_ : State.t;
  request_ : Request;
  trailers_ : HeaderMap.t;
  body_ : bytes;
  body_seen_ : Z;
  body_remaining_ : Z;
  chunk_remaining_ : Z;
  headers_total_ : Z;
  pending_consume_ : nat;
  saw_last_chunk_ : bool;
}.

(** [RequestParser(limits)] *)
Definition make_parser (l : Limits) : RequestParser :=
  {| limits_ := l; state_ := State.start_line; request_ := clear_request; trailers_ := [];
     body_ := []; body_seen_ := 0; body_remaining_ := 0; chunk_remaining_ := 0;
     headers_total_ := 0; pending_consume_ := 0; saw_last_chunk_ := false |}.

(** [reset()]: everything but the limits. *)
Definition reset (p : RequestParser) : RequestParser :=
  {| limits_ := limits_ p; state_ := State.start_line; request_ := clear_request;
     trailers_ := []; body_ := []; body_seen_ := 0; body_remaining_ := 0;
     chunk_remaining_ := 0; headers_total_ := 0; pending_consume_ := 0;
     saw_last_chunk_ := false |}.

(** Assignments to single members. *)
Definition set_state_ (v : State.t) (p : RequestParser) : RequestParser :=
  {| limits_ := limits_ p; state_ := v; request_ := request_ p; trailers_ := trailers_ p; body_ := body_ p; body_seen_ := body_seen_ p; body_remaining_ := body_remaining_ p; chunk_remaining_ := chunk_remaining_ p; headers_total_ := headers_total_ p; pending_consume_ := pending_consume_ p; saw_last_chunk_ := saw_last_chunk_ p |}.

Definition set_request_ (v : Request) (p : RequestParser) : RequestParser :=
  {| limits_ := limits_ p; state_ := state_ p; request_ := v; trailers_ := trailers_ p; body_ := body_ p; body_seen_ := body_seen_ p; body_remaining_ := body_remaining_ p; chunk_remaining_ := chunk_remaining_ p; headers_total_ := headers_total_ p; pending_consume_ := pending_consume_ p; saw_last_chunk_ := saw_last_chunk_ p |}.

Definition set_trailers_ (v : HeaderMap.t) (p : RequestParser) : RequestParser :=
  {| limits_ := limits_ p; state_ := state_ p; request_ := request_ p; trailers_ := v; body_ := body_ p; body_seen_ := body_seen_ p; body_remaining_ := body_remaining_ p; chunk_remaining_ := chunk_remaining_ p; headers_total_ := headers_total_ p; pending_consume_ := pending_consume_ p; saw_last_chunk_ := saw_last_chunk_ p |}.

Definition set_body_ (v : bytes) (p : RequestParser) : RequestParser :=
  {| limits_ := limits_ p; state_ := state_ p; request_ := request_ p; trailers_ := trailers_ p; body_ := v; body_seen_ := body_seen_ p; body_remaining_ := body_remaining_ p; chunk_remaining_ := chunk_remaining_ p; headers_total_ := headers_total_ p; pending_consume_ := pending_consume_ p; saw_last_chunk_ := saw_last_chunk_ p |}.

Definition set_body_seen_ (v : Z) (p : RequestParser) : RequestParser :=
  {| limits_ := limits_ p; state_ := state_ p; request_ := request_ p; trailers_ := trailers_ p; body_ := body_ p; body_seen_ := v; body_remaining_ := body_remaining_ p; chunk_remaining_ := chunk_remaining_ p; headers_total_ := headers_total_ p; pending_consume_ := pending_consume_ p; saw_last_chunk_ := saw_last_chunk_ p |}.

Definition set_body_remaining_ (v : Z) (p : RequestParser) : RequestParser :=
  {| limits_ := limits_ p; state_ := state_ p; request_ := request_ p; trailers_ := trailers_ p; body_ := body_ p; body_seen_ := body_seen_ p; body_remaining_ := v; chunk_remaining_ := chunk_remaining_ p; headers_total_ := headers_total_ p; pending_consume_ := pending_consume_ p; saw_last_chunk_ := saw_last_chunk_ p |}.

Definition set_chunk_remaining_ (v : Z) (p : RequestParser) : RequestParser :=
  {| limits_ := limits_ p; state_ := state_ p; request_ := request_ p; trailers_ := trailers_ p; body_ := body_ p; body_seen_ := body_seen_ p; body_remaining_ := body_remaining_ p; chunk_remaining_ := v; headers_total_ := headers_total_ p; pending_consume_ := pending_consume_ p; saw_last_chunk_ := saw_last_chunk_ p |}.

Definition set_headers_total_ (v : Z) (p : RequestParser) : RequestParser :=
  {| limits_ := limits_ p; state_ := state_ p; request_ := request_ p; trailers_ := trailers_ p; body_ := body_ p; body_seen_ := body_seen_ p; body_remaining_ := body_remaining_ p; chunk_remaining_ := chunk_remaining_ p; headers_total_ := v; pending_consume_ := pending_consume_ p; saw_last_chunk_ := saw_last_chunk_ p |}.

Definition set_pending_consume_ (v : nat) (p : RequestParser) : RequestParser :=
  {| limits_ := limits_ p; state_ := state_ p; request_ := request_ p; trailers_ := trailers_ p; body_ := body_ p; body_seen_ := body_seen_ p; body_remaining_ := body_remaining_ p; chunk_remaining_ := chunk_remaining_ p; headers_total_ := headers_total_ p; pending_consume_ := v; saw_last_chunk_ := saw_last_chunk_ p |}.

Definition set_saw_last_chunk_ (v : bool) (p : RequestParser) : RequestParser :=
  {| limits_ := limits_ p; state_ := state_ p; request_ := request_ p; trailers_ := trailers_ p; body_ := body_ p; body_seen_ := body_seen_ p; body_remaining_ := body_remaining_ p; chunk_remaining_ := chunk_remaining_ p; headers_total_ := headers_total_ p; pending_consume_ := pending_consume_ p; saw_last_chunk_ := v |}.

Definition set_headers (h : HeaderMap.t) (p : RequestParser) : RequestParser :=
  set_request_ {| req_method := req_method (request_ p); req_target := req_target (request_ p);
                  req_version := req_version (request_ p); req_headers := h;
                  req_body_kind := req_body_kind (request_ p);
                  req_content_length := req_content_length (request_ p) |} p.

Definition set_framing (k : BodyKind.t) (n : Z) (p : RequestParser) : RequestParser :=
  set_request_ {| req_method := req_method (request_ p); req_target := req_target (request_ p);
                  req_version := req_version (request_ p);
                  req_headers := req_headers (request_ p);
                  req_body_kind := k; req_content_length := n |} p.

Definition set_start (m : Method.t) (target : bytes) (v : Version.t) (p : RequestParser)
    : RequestParser :=
  set_request_ {| req_method := m; req_target := target; req_version := v;
                  req_headers := req_headers (request_ p);
                  req_body_kind := req_body_kind (request_ p);
                  req_content_length := req_content_length (request_ p) |} p.

(** [fail(ParseError)] *)
Definition refuse {S A} (e : ParseError.t) : M S A := out_fail (parse_error e).

(** The bytes allowed in a request target: above SP, and not DEL. *)
Definition is_target_byte (b : byte) : bool := negb ((code b <=? 32) || (code b =? 127)).

(** The codings of every Transfer-Encoding field, in order. *)
Definition transfer_codings (h : HeaderMap.t) : list bytes :=
  List.concat (map split_list (HeaderMap.get_all (lit "Transfer-Encoding") h)).

(** The items of every Content-Length field, in order. *)
Definition content_length_items (h : HeaderMap.t) : list bytes :=
  List.concat (map split_list (HeaderMap.get_all (lit "Content-Length") h)).

(** The agreement loop over Content-Length items. *)
Fixpoint agree_lengths (items : list bytes) (agreed : option Z) : Result (option Z) :=
  match items with
  | [] => Ok agreed
  | item :: rest =>
      match parse_decimal item with
      | None => Fail (parse_error ParseError.malformed_content_length)
      | Some parsed =>
          match agreed with
          | Some a =>
              if negb (a =? parsed)
              then Fail (parse_error ParseError.inconsistent_content_length)
              else agree_lengths rest (Some parsed)
          | None => agree_lengths rest (Some parsed)
          end
      end
  end.

(** [decide_framing] as a function of the head and the bounds: the body kind
    and the declared length it assigns, or the error. *)
Definition framing_of (req : Request) (max_body : Z) : Result (BodyKind.t * Z) :=
  let has_te := HeaderMap.contains (lit "Transfer-Encoding") (req_headers req) in
  let cl_count := HeaderMap.count (lit "Content-Length") (req_headers req) in
  if has_te && (0 <? cl_count)%nat then Fail (parse_error ParseError.framing_conflict)
  else if has_te then
    if Version.eqb (req_version req) Version.http_1_0
    then Fail (parse_error ParseError.invalid_transfer_encoding)
    else
      let codings := transfer_codings (req_headers req) in
      if (length codings =? 0)%nat
      then Fail (parse_error ParseError.invalid_transfer_encoding)
      else
        let chunked_count :=
          length (List.filter (fun c => names_equal c (lit "chunked")) codings) in
        if negb (chunked_count =? 1)%nat ||
           negb (match last codings with
                 | Some c => names_equal c (lit "chunked")
                 | None => false
                 end)
        then Fail (parse_error ParseError.invalid_transfer_encoding)
        else if negb (length codings =? 1)%nat
        then Fail (parse_error ParseError.invalid_transfer_encoding)
        else Ok (BodyKind.chunked, req_content_length req)
  else if (0 <? cl_count)%nat then
    match agree_lengths (content_length_items (req_headers req)) None with
    | Fail e => Fail e
    | Ok None => Fail (parse_error ParseError.malformed_content_length)
    | Ok (Some agreed) =>
        if max_body <? agreed then Fail (parse_error ParseError.limit_exceeded)
        else Ok (BodyKind.length, agreed)
    end
  else Ok (BodyKind.none, req_content_length req).

Section Parser.
Context {B : Type} `{ReadBuffer B}.

(** The parser together with the input buffer it is working on. *)
Definition PS : Type := RequestParser * B.

Definition on_parser (f : RequestParser -> RequestParser) : M PS unit :=
  out_modify (fun s => (f s.1, s.2)).

(** [input.consume(n)] *)
Definition consume_input (n : nat) : M PS unit := out_modify (fun s => (s.1, consume n s.2)).

(** [next_line(input.readable(), limits_.allow_bare_lf)], propagating its error. *)
Definition locate : M PS (option Line) :=
  fun s => lift (next_line (readable s.2) (allow_bare_lf (limits_ s.1))) s.

(** [input.size() > limit] *)
Definition input_exceeds (s : PS) (limit : Z) : bool := limit <? len (readable s.2).

Definition parse_start_line : M PS bool :=
  let! s := out_get in
  let p := s.1 in
  let! located := locate in
  match located with
  | None =>
      if input_exceeds s (max_start_line (limits_ p)) then refuse ParseError.limit_exceeded
      else out_ret false
  | Some line =>
      let text := line_text line in
      require (negb (max_start_line (limits_ p) <? len text)) (parse_error ParseError.limit_exceeded) ;;;
      match find SP text with
      | None | Some O => refuse ParseError.malformed_start_line
      | Some first_sp =>
          match find_from SP (first_sp + 1) text with
          | None => refuse ParseError.malformed_start_line
          | Some second_sp =>
              require (negb (second_sp =? first_sp + 1)%nat)
                (parse_error ParseError.malformed_start_line) ;;;
              let method := take first_sp text in
              let target := take (second_sp - first_sp - 1) (drop (first_sp + 1) text) in
              let version := drop (second_sp + 1) text in
              require (match find SP version with None => true | Some _ => false end)
                (parse_error ParseError.malformed_start_line) ;;;
              require (forallb is_tchar method) (parse_error ParseError.malformed_start_line) ;;;
              require (negb (length target =? 0)%nat)
                (parse_error ParseError.malformed_start_line) ;;;
              require (forallb is_target_byte target)
                (parse_error ParseError.malformed_start_line) ;;;
              let! v :=
                (if bytes_eqb version (lit "HTTP/1.1") then out_ret Version.http_1_1
                 else if bytes_eqb version (lit "HTTP/1.0") then out_ret Version.http_1_0
                 else refuse ParseError.unsupported_version) in
              on_parser (set_start (method_from_token method) target v) ;;;
              consume_input (line_consumed line) ;;;
              out_ret true
          end
      end
  end.

(** One round of the loop of [parse_headers]. *)
Definition parse_header_line : M PS (option bool) :=
  let! s := out_get in
  let p := s.1 in
  let! located := locate in
  match located with
  | None =>
      if input_exceeds s (max_header_line (limits_ p)) then refuse ParseError.limit_exceeded
      else out_ret (Some false)
  | Some line =>
      let text := line_text line in
      match text with
      | [] => consume_input (line_consumed line) ;;; out_ret (Some true)
      | front :: _ =>
          require (negb (max_header_line (limits_ p) <? len text))
            (parse_error ParseError.limit_exceeded) ;;;
          if is_ows front then
            require (allow_obsolete_line_folding (limits_ p))
              (parse_error ParseError.obsolete_line_folding) ;;;
            require (negb (HeaderMap.empty (req_headers (request_ p))))
              (parse_error ParseError.malformed_header) ;;;
            consume_input (line_consumed line) ;;;
            out_ret None
          else
            match find COLON text with
            | None | Some O => refuse ParseError.malformed_header
            | Some colon =>
                let name := take colon text in
                require (match last name with Some b => negb (is_ows b) | None => true end)
                  (parse_error ParseError.whitespace_before_colon) ;;;
                require (forallb is_tchar name) (parse_error ParseError.malformed_header) ;;;
                let raw_value := drop (colon + 1) text in
                require (forallb is_field_vchar raw_value)
                  (parse_error ParseError.malformed_header) ;;;
                let value := trim_ows raw_value in
                require (negb (max_header_count (limits_ p) <?
                               HeaderMap.size (req_headers (request_ p)) + 1))
                  (parse_error ParseError.limit_exceeded) ;;;
                let total := wrap64 (headers_total_ p + len text) in
                on_parser (set_headers_total_ total) ;;;
                require (negb (max_headers_total (limits_ p) <? total))
                  (parse_error ParseError.limit_exceeded) ;;;
                on_parser (fun p => set_headers
                  (HeaderMap.append name value (req_headers (request_ p))) p) ;;;
                consume_input (line_consumed line) ;;;
                out_ret None
            end
      end
  end.

(** Each round consumes at least one byte of input, so the readable length
    bounds the rounds. *)
Definition parse_headers : M PS bool :=
  fun s => iter (S (length (readable s.2))) parse_header_line s.

Definition decide_framing : M PS unit :=
  let! s := out_get in
  let! f := lift (framing_of (request_ s.1) (max_body_size (limits_ s.1))) in
  on_parser (set_framing f.1 f.2).

Definition read_length_body : M PS ParseStep.t :=
  let! s := out_get in
  let p := s.1 in
  let available := readable s.2 in
  if (length available =? 0)%nat then out_ret ParseStep.need_more
  else
    let take_n := Z.min (body_remaining_ p) (len available) in
    on_parser (fun p => set_pending_consume_ (Z.to_nat take_n)
      (set_body_remaining_ (wrap64 (body_remaining_ p - take_n))
         (set_body_seen_ (wrap64 (body_seen_ p + take_n))
            (set_body_ (take (Z.to_nat take_n) available) p)))) ;;;
    on_parser (fun p => if body_remaining_ p =? 0 then set_state_ State.done p else p) ;;;
    out_ret ParseStep.body.

Definition read_chunk_header : M PS Progress.t :=
  let! s := out_get in
  let p := s.1 in
  let! located := locate in
  match located with
  | None =>
      if input_exceeds s (wrap64 (max_chunk_extension (limits_ p) + 32))
      then refuse ParseError.limit_exceeded
      else out_ret Progress.need_data
  | Some line =>
      let semicolon := find SEMICOLON (line_text line) in
      let size_text := prefix_to semicolon (line_text line) in
      require (match semicolon with
               | Some i => negb (max_chunk_extension (limits_ p) <? len (drop (i + 1) (line_text line)))
               | None => true
               end) (parse_error ParseError.limit_exceeded) ;;;
      match parse_hex size_text with
      | None => refuse ParseError.malformed_chunk
      | Some size =>
          require (negb (max_chunk_size (limits_ p) <? size))
            (parse_error ParseError.limit_exceeded) ;;;
          require (negb (max_body_size (limits_ p) <? wrap64 (body_seen_ p + size)))
            (parse_error ParseError.limit_exceeded) ;;;
          consume_input (line_consumed line) ;;;
          (if size =? 0
           then on_parser (fun p => set_state_ State.body_chunk_trailer (set_saw_last_chunk_ true p))
           else on_parser (fun p => set_state_ State.body_chunk_data (set_chunk_remaining_ size p))) ;;;
          out_ret Progress.advanced
      end
  end.

Definition read_chunk_data : M PS Progress.t :=
  let! s := out_get in
  let p := s.1 in
  let available := readable s.2 in
  if 0 <? chunk_remaining_ p then
    if (length available =? 0)%nat then out_ret Progress.need_data
    else
      let take_n := Z.min (chunk_remaining_ p) (len available) in
      on_parser (fun p => set_pending_consume_ (Z.to_nat take_n)
        (set_chunk_remaining_ (wrap64 (chunk_remaining_ p - take_n))
           (set_body_seen_ (wrap64 (body_seen_ p + take_n))
              (set_body_ (take (Z.to_nat take_n) available) p)))) ;;;
      out_ret Progress.emitted_body
  else
    let! located := locate in
    match located with
    | None => out_ret Progress.need_data
    | Some line =>
        require (length (line_text line) =? 0)%nat (parse_error ParseError.malformed_chunk) ;;;
        consume_input (line_consumed line) ;;;
        on_parser (set_state_ State.body_chunk_header) ;;;
        out_ret Progress.advanced
    end.

(** The loop of the source never goes round: every path through its body
    returns. *)
Definition read_chunk_trailer : M PS Progress.t :=
  let! s := out_get in
  let p := s.1 in
  let! located := locate in
  match located with
  | None =>
      if input_exceeds s (max_header_line (limits_ p)) then refuse ParseError.limit_exceeded
      else out_ret Progress.need_data
  | Some line =>
      let text := line_text line in
      if (length text =? 0)%nat then
        consume_input (line_consumed line) ;;;
        on_parser (set_state_ State.done) ;;;
        out_ret Progress.finished
      else
        require (negb (max_header_line (limits_ p) <? len text))
          (parse_error ParseError.limit_exceeded) ;;;
        match find COLON text with
        | None | Some O => refuse ParseError.malformed_header
        | Some colon =>
            let name := take colon text in
            require (match last name with Some b => negb (is_ows b) | None => true end)
              (parse_error ParseError.whitespace_before_colon) ;;;
            require (forallb is_tchar name) (parse_error ParseError.malformed_header) ;;;
            require (negb (max_header_count (limits_ p) <? HeaderMap.size (trailers_ p) + 1))
              (parse_error ParseError.limit_exceeded) ;;;
            on_parser (fun p => set_trailers_
              (HeaderMap.append name (trim_ows (drop (colon + 1) text)) (trailers_ p)) p) ;;;
            consume_input (line_consumed line) ;;;
            out_ret Progress.advanced
        end
  end.

(** One round of the loop of [parse]: [None] is [continue]. *)
Definition parse_round : M PS (option ParseStep.t) :=
  let! s := out_get in
  match state_ s.1 with
  | State.start_line =>
      let! parsed := parse_start_line in
      if negb parsed then out_ret (Some ParseStep.need_more)
      else on_parser (set_state_ State.headers) ;;; out_ret None
  | State.headers =>
      let! parsed := parse_headers in
      if negb parsed then out_ret (Some ParseStep.need_more)
      else
        decide_framing ;;;
        let! s := out_get in
        match req_body_kind (request_ s.1) with
        | BodyKind.none => on_parser (set_state_ State.done) ;;; out_ret (Some ParseStep.head)
        | BodyKind.length =>
            let n := req_content_length (request_ s.1) in
            on_parser (fun p =>
              set_state_ (if n =? 0 then State.done else State.body_length)
                (set_body_remaining_ n p)) ;;;
            out_ret (Some ParseStep.head)
        | BodyKind.chunked =>
            on_parser (set_state_ State.body_chunk_header) ;;; out_ret (Some ParseStep.head)
        | BodyKind.close_delimited => refuse ParseError.framing_conflict
        end
  | State.body_length =>
      let! step := read_length_body in
      out_ret (Some step)
  | State.body_chunk_header =>
      let! step := read_chunk_header in
      match step with
      | Progress.need_data => out_ret (Some ParseStep.need_more)
      | _ => out_ret None
      end
  | State.body_chunk_data =>
      let! step := read_chunk_data in
      match step with
      | Progress.need_data => out_ret (Some ParseStep.need_more)
      | Progress.emitted_body => out_ret (Some ParseStep.body)
      | _ => out_ret None
      end
  | State.body_chunk_trailer =>
      let! step := read_chunk_trailer in
      match step with
      | Progress.need_data => out_ret (Some ParseStep.need_more)
      | Progress.finished => out_ret (Some ParseStep.complete)
      | _ => out_ret None
      end
  | State.done => out_ret (Some ParseStep.complete)
  end.

(** The entry of [parse]: release the previous body slice. *)
Definition release_slice : M PS unit :=
  let! s := out_get in
  (if (0 <? pending_consume_ s.1)%nat
   then consume_input (pending_consume_ s.1) ;;; on_parser (set_pending_consume_ 0)
   else out_ret tt) ;;;
  on_parser (set_body_ []).

(** [parse(input)].  A round that goes on has consumed a byte or has just left
    the start line, so the readable length bounds the rounds. *)
Definition parse : M PS ParseStep.t :=
  release_slice ;;;
  (fun s => iter (2 + length (readable s.2)) parse_round s).

(** [done()] *)
Definition parser_done (p : RequestParser) : bool :=
  match state_ p with State.done => true | _ => false end.
End Parser.
