(* ===== verification/RequestFraming.v ===== *)
(** * RequestFraming: what the request parser's framing decision guarantees

    [decide_framing] (http/src/parser.cpp) resolves the body framing of a
    request from its headers.  The facts here characterise every accepting
    outcome; they are what makes a pipelined connection safe from the
    Content-Length / Transfer-Encoding differentials. *)

From S2P Require Import Prelude Numerals Errors Buffer Grammar Message Lines RequestParser.

Local Open Scope Z_scope.

(** The agreement loop accepts exactly the item lists that all read as one
    number (and agree with the number found before, if any). *)
Lemma agree_lengths_ok items agreed r :
  agree_lengths items agreed = Ok r <->
  match items with
  | [] => r = agreed
  | _ => exists n, r = Some n /\ Forall (fun i => parse_decimal i = Some n) items /\
                   (agreed = None \/ agreed = Some n)
  end.
Proof.
  revert agreed; induction items as [|i items IH]; intros agreed; simpl.
  { split; by intros [= ->] || intros ->. }
  destruct (parse_decimal i) as [v|] eqn:E.
  2:{ split; [done|]. intros (n & -> & Hall & _). apply Forall_cons in Hall as [? _]. congruence. }
  assert (agree_lengths items (Some v) = Ok r <->
          exists n, r = Some n /\ Forall (fun j => parse_decimal j = Some n) (i :: items) /\ v = n)
    as Hrest.
  { rewrite IH. destruct items as [|j items'].
    - split; [intros ->; exists v; auto|]. by intros (n & -> & _ & ->).
    - split.
      + intros (n & -> & Hall & [?|[= ->]]); [done|]. exists n. auto.
      + intros (n & -> & Hall & ->). apply Forall_cons in Hall as [_ Hall]. exists n. auto. }
  destruct agreed as [a|]; simpl.
  - destruct (a =? v) eqn:Ea; bool_facts; simpl.
    + subst. rewrite Hrest. split.
      * intros (n & -> & Hall & ->). exists n. auto.
      * intros (n & -> & Hall & [?|[= ->]]); [done|]. exists n. auto.
    + split; [done|]. intros (n & -> & Hall & [?|[= ->]]); [done|].
      apply Forall_cons in Hall as [? _]. congruence.
  - rewrite Hrest. split.
    + intros (n & -> & Hall & ->). exists n. auto.
    + intros (n & -> & Hall & _). pose proof Hall as Hall'.
      apply Forall_cons in Hall' as [? _]. exists n. split_and!; [done|done|congruence].
Qed.

(** What each accepted framing says about the head. *)
Definition framing_spec (req : Request) (max_body : Z) (k : BodyKind.t) (n : Z) : Prop :=
  let h := req_headers req in
  let te := HeaderMap.contains (lit "Transfer-Encoding") h in
  let cl := HeaderMap.contains (lit "Content-Length") h in
  match k with
  | BodyKind.none => te = false /\ cl = false /\ n = req_content_length req
  | BodyKind.length =>
      te = false /\ cl = true /\ content_length_items h <> [] /\
      Forall (fun i => parse_decimal i = Some n) (content_length_items h) /\ n <= max_body
  | BodyKind.chunked =>
      te = true /\ cl = false /\ req_version req = Version.http_1_1 /\
      (exists c, transfer_codings h = [c] /\ names_equal c (lit "chunked") = true) /\
      n = req_content_length req
  | BodyKind.close_delimited => False
  end.

(** The three tests on the coding list accept exactly the singleton. *)
Lemma codings_tests codings :
  (length codings =? 0)%nat = false /\
  (negb (length (List.filter (fun c => names_equal c (lit "chunked")) codings) =? 1)%nat ||
   negb (match last codings with Some c => names_equal c (lit "chunked") | None => false end))
    = false /\
  negb (length codings =? 1)%nat = false <->
  exists c, codings = [c] /\ names_equal c (lit "chunked") = true.
Proof.
  split.
  - intros (_ & H & H1). bool_facts.
    destruct codings as [|c [|? ?]]; simpl in *; try lia. exists c. by bool_facts.
  - intros (c & -> & Hc). simpl. by rewrite Hc.
Qed.

Lemma framing_te req max_body k n :
  HeaderMap.contains (lit "Transfer-Encoding") (req_headers req) = true ->
  HeaderMap.contains (lit "Content-Length") (req_headers req) = false ->
  framing_of req max_body = Ok (k, n) <-> framing_spec req max_body k n.
Proof.
  intros Hte Hcl. unfold framing_of, framing_spec. rewrite Hte, Hcl.
  unfold HeaderMap.contains in Hcl. rewrite Hcl. simpl.
  pose proof (codings_tests (transfer_codings (req_headers req))) as Ht.
  unfold Version.eqb. case_bool_decide as Ev.
  { split; [done|]. destruct k; intros Hs; destruct_and?; try done; congruence. }
  destruct (length _ =? 0)%nat; [|destruct (_ || _); [|destruct (negb (length _ =? 1)%nat)]].
  4:{ destruct (proj1 Ht ltac:(done)) as (c & Hc & Hn). rewrite Hc. split.
      - intros [= <- <-]. split_and!; try done; [by destruct (req_version req)|by exists c].
      - destruct k; intros Hs; destruct_and?; try done. by subst. }
  all: split; [done|]; destruct k; intros Hs; destruct_and?; try done.
  all: match goal with Hc : exists c, _ |- _ => apply Ht in Hc end; naive_solver.
Qed.

Lemma framing_cl req max_body k n :
  HeaderMap.contains (lit "Transfer-Encoding") (req_headers req) = false ->
  HeaderMap.contains (lit "Content-Length") (req_headers req) = true ->
  framing_of req max_body = Ok (k, n) <-> framing_spec req max_body k n.
Proof.
  intros Hte Hcl. unfold framing_of, framing_spec. rewrite Hte, Hcl.
  unfold HeaderMap.contains in Hcl. rewrite Hcl. simpl.
  destruct (agree_lengths _ None) as [r|e] eqn:Ea.
  - apply agree_lengths_ok in Ea.
    destruct (content_length_items (req_headers req)) as [|i items].
    { subst r. split; [done|]. destruct k; naive_solver. }
    destruct Ea as (m & -> & Hall & _). pose proof (Forall_inv Hall) as Hi.
    destruct (max_body <? m) eqn:Em; bool_facts.
    + split; [done|]. destruct k; try naive_solver. intros (_ & _ & _ & Hall' & Hle).
      apply Forall_inv in Hall'. rewrite Hi in Hall'. simplify_eq. lia.
    + split; [intros [= <- <-]; naive_solver|]. destruct k; try naive_solver.
      intros (_ & _ & _ & Hall' & Hle). apply Forall_inv in Hall'. congruence.
  - split; [done|]. destruct k; try naive_solver. intros (_ & _ & Hne & Hall & Hle).
    rewrite (proj2 (agree_lengths_ok _ None (Some n))) in Ea; [done|].
    destruct (content_length_items (req_headers req)); [done|]. exists n. auto.
Qed.

(** Accepting outcomes, on every combination of the two fields. *)
Lemma framing_of_exact (req : Request) (max_body : Z) (k : BodyKind.t) (n : Z) :
  framing_of req max_body = Ok (k, n) <-> framing_spec req max_body k n.
Proof.
  destruct (HeaderMap.contains (lit "Transfer-Encoding") (req_headers req)) eqn:Hte;
    destruct (HeaderMap.contains (lit "Content-Length") (req_headers req)) eqn:Hcl;
    [|by apply framing_te|by apply framing_cl|];
    unfold framing_of, framing_spec; rewrite Hte, Hcl;
    unfold HeaderMap.contains in Hcl; rewrite Hcl; simpl.
  - split; [done|]. destruct k; naive_solver.
  - split; [intros [= <- <-]; naive_solver|]. destruct k; naive_solver.
Qed.

(** C3: the framing decision is exact, and it never guesses.
    [decide_framing] gives a head the body kind [k] and length [n] precisely when
    the head supports that reading and no other: chunked only for HTTP/1.1 with
    "chunked" as the single transfer coding and no Content-Length at all; a
    length only without any Transfer-Encoding, when every item of every
    Content-Length field is a strict decimal and all of them are the same number
    within the body limit; no body only when neither field is present.  In every
    other case, a head with both fields among them, it fails and changes
    nothing; the input is never touched. *)
Theorem decide_framing_exact {B} `{ReadBuffer B} (p : RequestParser) (b : B) :
  let spec := framing_spec (request_ p) (max_body_size (limits_ p)) in
  match decide_framing (p, b) with
  | Returns _ (p', b') => b' = b /\ exists k n, p' = set_framing k n p /\ spec k n
  | Fails _ s' => s' = (p, b) /\ forall k n, ~ spec k n
  | OutOfFuel => False
  end.
Proof.
  unfold decide_framing, out_bind, out_get, lift, on_parser, out_modify. simpl.
  destruct (framing_of _ _) as [[k n]|e] eqn:E; simpl.
  - split; [done|]. exists k, n. split; [done|]. by apply framing_of_exact.
  - split; [done|]. intros k n Hk%framing_of_exact. congruence.
Qed.
