(* ===== verification/RequestParserInv.v ===== *)
(** * RequestParserInv: invariant, totality and bounds of the request parser

    Everything here is proved against the [ReadBuffer] interface, so it holds
    for the concrete [Buffer] and for any other lawful input. *)

From S2P Require Import Prelude Numerals Errors Buffer Grammar Message Lines RequestParser RequestFraming.

Local Open Scope Z_scope.
Local Open Scope mira_scope.

(** ** The invariant *)

(** A stored header field: a token for a name, a value of field characters with
    no surrounding whitespace. *)
Definition field_ok (f : HeaderMap.entry) : Prop :=
  f.1 <> [] /\ forallb is_tchar f.1 = true /\
  forallb is_field_vchar f.2 = true /\ no_outer_ows f.2 = true.

(** A stored trailer field: as above, except that the parser does not check the
    value's characters. *)
Definition trailer_ok (f : HeaderMap.entry) : Prop :=
  f.1 <> [] /\ forallb is_tchar f.1 = true /\ no_outer_ows f.2 = true.

(** The bytes a set of fields takes up: name, colon and value. *)
Definition fields_bytes (h : HeaderMap.t) : Z :=
  foldr (fun f acc => len f.1 + 1 + len f.2 + acc) 0 h.

(** Bounds that cannot overflow the parser's counters. *)
Record limits_sane (l : Limits) : Prop := {
  sane_range : limits_in_range l;
  sane_headers : max_headers_total l + max_header_line l <= UINT64_MAX;
  sane_body : max_body_size l + max_chunk_size l <= UINT64_MAX;
}.

(** Limits for which a counter cannot wrap around before it is compared.  The
    default of [max_body_size] is finite; with SIZE_MAX, "no limit", chunked bodies
    of 2^64 bytes could wrap. *)
Definition headers_fit (l : Limits) : Prop := max_headers_total l + max_header_line l <= UINT64_MAX.
Definition body_fits (l : Limits) : Prop := max_body_size l + max_chunk_size l <= UINT64_MAX.

(** How far the body has come, by state. *)
Definition body_inv (p : RequestParser) : Prop :=
  let l := limits_ p in
  let req := request_ p in
  0 <= body_seen_ p <= UINT64_MAX /\
  match state_ p with
  | State.start_line | State.headers => body_seen_ p = 0
  | State.body_length =>
      req_body_kind req = BodyKind.length /\ 0 < body_remaining_ p /\
      body_seen_ p + body_remaining_ p = req_content_length req
  | State.body_chunk_header | State.body_chunk_trailer =>
      req_body_kind req = BodyKind.chunked /\ (body_fits l -> body_seen_ p <= max_body_size l)
  | State.body_chunk_data =>
      req_body_kind req = BodyKind.chunked /\ 0 <= chunk_remaining_ p <= UINT64_MAX /\
      (body_fits l -> body_seen_ p + chunk_remaining_ p <= max_body_size l)
  | State.done =>
      (req_body_kind req <> BodyKind.chunked \/ body_fits l -> body_seen_ p <= max_body_size l) /\
      (req_body_kind req = BodyKind.length -> body_seen_ p = req_content_length req) /\
      (req_body_kind req = BodyKind.none -> body_seen_ p = 0)
  end.

(** Once the head is parsed, its framing is the one its fields determine. *)
Definition framing_inv (p : RequestParser) : Prop :=
  match state_ p with
  | State.start_line | State.headers => True
  | _ => framing_spec (request_ p) (max_body_size (limits_ p))
           (req_body_kind (request_ p)) (req_content_length (request_ p))
  end.

Record parser_inv (p : RequestParser) : Prop := {
  inv_limits : limits_in_range (limits_ p);
  inv_fields : Forall field_ok (req_headers (request_ p));
  inv_count : HeaderMap.size (req_headers (request_ p)) <= max_header_count (limits_ p);
  inv_total : 0 <= headers_total_ p <= max_headers_total (limits_ p);
  inv_bytes : headers_fit (limits_ p) -> fields_bytes (req_headers (request_ p)) <= headers_total_ p;
  inv_trailers : Forall trailer_ok (trailers_ p);
  inv_trailer_count : HeaderMap.size (trailers_ p) <= max_header_count (limits_ p);
  inv_body : body_inv p;
  inv_framing : framing_inv p;
}.

(** ** Generic facts *)

Lemma wrap64_small z : 0 <= z <= UINT64_MAX -> wrap64 z = z.
Proof. intros. unfold wrap64, UINT64_MAX in *. apply Z.mod_small. lia. Qed.

Lemma wrap64_range z : 0 <= wrap64 z <= UINT64_MAX.
Proof.
  unfold wrap64, UINT64_MAX. pose proof (Z.mod_pos_bound z (2 ^ 64) ltac:(lia)). lia.
Qed.

(** What the limits' types say, in the form [lia] uses. *)
Lemma limits_range l :
  limits_in_range l ->
  0 <= max_headers_total l <= UINT64_MAX /\ 0 <= max_header_count l <= UINT64_MAX /\
  0 <= max_body_size l <= UINT64_MAX /\ 0 <= max_chunk_size l <= UINT64_MAX.
Proof. unfold limits_in_range. rewrite !Forall_cons. tauto. Qed.

Lemma fields_bytes_app h f : fields_bytes (h ++ [f]) = fields_bytes h + (len f.1 + 1 + len f.2).
Proof. induction h as [|g h IH]; simpl; lia. Qed.

Lemma fields_bytes_nonneg h : 0 <= fields_bytes h.
Proof.
  induction h as [|f h IH]; simpl; [lia|].
  pose proof (len_nonneg f.1). pose proof (len_nonneg f.2). lia.
Qed.

Lemma size_app h f : HeaderMap.size (h ++ [f]) = HeaderMap.size h + 1.
Proof. unfold HeaderMap.size. rewrite length_app. simpl. lia. Qed.

Lemma len_trim l : len (trim_ows l) <= len l.
Proof.
  destruct (trim_ows_middle l) as (w1 & w2 & E & _). apply (f_equal len) in E.
  rewrite !len_app in E. pose proof (len_nonneg w1). pose proof (len_nonneg w2). lia.
Qed.

(** A field line splits at its colon into name, colon and value. *)
Lemma field_line_len text colon :
  find COLON text = Some colon ->
  len (take colon text) + 1 + len (trim_ows (drop (colon + 1) text)) <= len text.
Proof.
  intros H. pose proof (find_lt _ _ _ H). pose proof (len_trim (drop (colon + 1) text)).
  unfold len in *. rewrite length_take, length_drop in *. lia.
Qed.

Lemma take_nonempty (l : bytes) n : (0 < n < length l)%nat -> take n l <> [].
Proof. intros Hn E%(f_equal length). rewrite length_take in E. simpl in E. lia. Qed.

(** ** Symbolic execution of the parser's methods *)

Section Facts.
Context {B : Type} `{ReadBuffer B, !ReadBufferLaws B}.
Implicit Types s : PS (B := B).

Lemma wp_get {A} (k : PS (B := B) -> M PS A) s Q R :
  wp (k s) s Q R -> wp (out_bind out_get k) s Q R.
Proof. done. Qed.

Lemma wp_on_parser f s (Q : unit -> PS -> Prop) R :
  Q tt (f s.1, s.2) -> wp (on_parser f) s Q R.
Proof. done. Qed.

Lemma wp_consume_input n s (Q : unit -> PS -> Prop) R :
  Q tt (s.1, consume n s.2) -> wp (consume_input n) s Q R.
Proof. done. Qed.

Lemma wp_refuse {A} e s (Q : A -> PS -> Prop) (R : Error -> PS -> Prop) :
  R (parse_error e) s -> wp (refuse e) s Q R.
Proof. done. Qed.

Lemma wp_locate s Q R :
  match next_line (readable s.2) (allow_bare_lf (limits_ s.1)) with
  | Ok o => Q o s
  | Fail e => R e s
  end -> wp locate s Q R.
Proof. unfold wp, locate, lift. by destruct (next_line _ _). Qed.

End Facts.

(** One step of a method: bind, a primitive, or a case split. *)
Ltac wp_step :=
  lazymatch goal with
  | |- wp (out_bind out_get _) _ _ _ => apply wp_get
  | |- wp (out_bind _ _) _ _ _ => apply wp_bind
  | |- wp locate _ _ _ => apply wp_locate; split_match
  | |- wp (lift _) _ _ _ => apply wp_lift; split_match
  | |- wp (require _ _) _ _ _ => apply wp_require; intros ?
  | |- wp (out_ret _) _ _ _ => apply wp_ret
  | |- wp (refuse _) _ _ _ => apply wp_refuse
  | |- wp (on_parser _) _ _ _ => apply wp_on_parser
  | |- wp (consume_input _) _ _ _ => apply wp_consume_input
  | |- wp (match ?x with _ => _ end) _ _ _ => destruct x eqn:?
  end; cbv beta; cbn [fst snd].
Ltac wp_steps := repeat wp_step.

Section Methods.
Context {B : Type} `{ReadBuffer B, !ReadBufferLaws B}.
Implicit Types s : PS (B := B).

(** The slice handed out last is a prefix of the readable region. *)
Definition no_slice (p : RequestParser) : Prop := pending_consume_ p = 0%nat /\ body_ p = [].

(** [s'] has consumed some of the input of [s]. *)
Definition shorter s' s : Prop := (length (readable s'.2) < length (readable s.2))%nat.

Lemma consume_line_shorter (p p' : RequestParser) (b : B) bare l :
  next_line (readable b) bare = Ok (Some l) -> shorter (p', consume (line_consumed l) b) (p, b).
Proof.
  intros Hl%next_line_consumed. unfold shorter. simpl.
  rewrite readable_consume, length_drop. lia.
Qed.

(** Post-condition shared by the line-oriented methods: when they ask for more
    they changed nothing and there is no line left. *)
Definition blocked s' s : Prop := s' = s /\ LF ∉ readable s.2.

Lemma blocked_refl s bare : next_line (readable s.2) bare = Ok None -> blocked s s.
Proof. by intros ?%next_line_need_more. Qed.

Lemma parse_start_line_wp s :
  parser_inv s.1 -> state_ s.1 = State.start_line -> no_slice s.1 ->
  wp parse_start_line s
    (fun r s' => if r then parser_inv s'.1 /\ state_ s'.1 = State.start_line /\
                           no_slice s'.1 /\ shorter s' s
                 else blocked s' s)
    (fun _ _ => True).
Proof.
  destruct s as [p b]. intros Hinv Hst Hsl. unfold parse_start_line. wp_steps; try done.
  all: try (by eapply blocked_refl).
  all: split_and!; try done; try (by eapply consume_line_shorter).
  all: destruct Hinv; constructor; simpl in *; try done.
  all: unfold body_inv, framing_inv in *; simpl in *; by rewrite Hst in *.
Qed.

(** Storing one more header field keeps the invariant. *)
Lemma store_field_inv p name value n total :
  parser_inv p -> state_ p = State.headers ->
  field_ok (name, value) -> len name + 1 + len value <= n -> n <= max_header_line (limits_ p) ->
  HeaderMap.size (req_headers (request_ p)) + 1 <= max_header_count (limits_ p) ->
  total = wrap64 (headers_total_ p + n) -> total <= max_headers_total (limits_ p) ->
  parser_inv
    (set_headers (HeaderMap.append name value (req_headers (request_ p)))
       (set_headers_total_ total p)).
Proof.
  intros [] Hst Hok Hlen Hline Hcount Htotal Hmax.
  pose proof (len_nonneg name). pose proof (len_nonneg value).
  pose proof (fields_bytes_nonneg (req_headers (request_ p))).
  pose proof (wrap64_range (headers_total_ p + n)).
  constructor; simpl; unfold HeaderMap.append; try done.
  - apply Forall_app. split; [done|]. by constructor.
  - rewrite size_app. lia.
  - lia.
  - intros Hfit. specialize (inv_bytes0 Hfit). unfold headers_fit in Hfit.
    rewrite wrap64_small in Htotal by lia. rewrite fields_bytes_app. simpl. lia.
  - unfold framing_inv. simpl. by rewrite Hst.
Qed.

(** What the checks on a header line establish of the field it stores. *)
Lemma header_line_field text colon :
  find COLON text = Some (S colon) ->
  forallb is_tchar (take (S colon) text) = true ->
  forallb is_field_vchar (drop (S colon + 1) text) = true ->
  field_ok (take (S colon) text, trim_ows (drop (S colon + 1) text)).
Proof.
  intros Hcolon Hname Hvalue. apply find_lt in Hcolon. split_and!; [|done| |].
  - apply take_nonempty. lia.
  - by apply trim_ows_forallb.
  - apply trim_ows_no_outer.
Qed.

Lemma parse_header_line_wp s :
  parser_inv s.1 -> state_ s.1 = State.headers -> no_slice s.1 ->
  wp parse_header_line s
    (fun r s' => match r with
                 | Some false => blocked s' s
                 | _ => parser_inv s'.1 /\ state_ s'.1 = State.headers /\
                        no_slice s'.1 /\ shorter s' s
                 end)
    (fun _ _ => True).
Proof.
  destruct s as [p b]. intros Hinv Hst Hsl. unfold parse_header_line. wp_steps; try done.
  all: try (by eapply blocked_refl).
  all: split_and!; try done; try (by eapply consume_line_shorter).
  bool_facts. match goal with Ht : line_text _ = ?text |- _ =>
    apply (store_field_inv p _ _ (len text)); try done end.
  - by apply header_line_field.
  - by apply field_line_len.
Qed.

Lemma parse_headers_wp s :
  parser_inv s.1 -> state_ s.1 = State.headers -> no_slice s.1 ->
  wp parse_headers s
    (fun r s' => parser_inv s'.1 /\ state_ s'.1 = State.headers /\ no_slice s'.1 /\
                 if r then shorter s' s else LF ∉ readable s'.2)
    (fun _ _ => True).
Proof.
  intros Hinv Hst Hsl. unfold parse_headers.
  apply (iter_wp parse_header_line
    (fun s' => parser_inv s'.1 /\ state_ s'.1 = State.headers /\ no_slice s'.1 /\
               (length (readable s'.2) <= length (readable s.2))%nat)
    (fun s' => length (readable s'.2))); [|split_and!; try done; lia|lia].
  intros s' (Hinv' & Hst' & Hsl' & Hle).
  eapply wp_mono; [by apply parse_header_line_wp| |done].
  unfold shorter. intros [[|]|] s''; simpl.
  - intros (? & ? & ? & ?). split_and!; try done. lia.
  - by intros [-> ?].
  - intros (? & ? & ? & ?). split_and!; try done; lia.
Qed.

(** Moving the body state leaves the rest of the invariant alone. *)
Lemma parser_inv_body p p' :
  parser_inv p -> limits_ p' = limits_ p -> request_ p' = request_ p ->
  trailers_ p' = trailers_ p -> headers_total_ p' = headers_total_ p ->
  body_inv p' -> framing_inv p' -> parser_inv p'.
Proof. intros [] Hl Hr Ht Hh Hb Hf. by constructor; rewrite ?Hl, ?Hr, ?Ht, ?Hh. Qed.

(** What [parse] promises with each step it returns. *)
Definition step_post (step : ParseStep.t) s' : Prop :=
  match step with
  | ParseStep.need_more => no_slice s'.1 /\ (LF ∉ readable s'.2)
  | ParseStep.head =>
      no_slice s'.1 /\
      framing_spec (request_ s'.1) (max_body_size (limits_ s'.1))
        (req_body_kind (request_ s'.1)) (req_content_length (request_ s'.1))
  | ParseStep.body =>
      body_ s'.1 = take (pending_consume_ s'.1) (readable s'.2) /\
      length (body_ s'.1) = pending_consume_ s'.1 /\ (0 < pending_consume_ s'.1)%nat
  | ParseStep.complete => no_slice s'.1 /\ state_ s'.1 = State.done
  end.

(** What bounds the rounds of [parse]: the input left, and the step out of the
    start line. *)
Definition rounds_left s : nat :=
  (length (readable s.2) + match state_ s.1 with State.start_line => 1 | _ => 0 end)%nat.

(** [release_slice] drops the slice handed out and nothing else. *)
Definition released s : PS :=
  (set_body_ [] (set_pending_consume_ 0 s.1),
   if (0 <? pending_consume_ s.1)%nat then consume (pending_consume_ s.1) s.2 else s.2).

(** A slice has been handed out: the input is as it was, and releasing the slice
    will make it shorter. *)
Definition sliced s' s : Prop :=
  step_post ParseStep.body s' /\ s'.2 = s.2 /\ state_ s'.1 <> State.start_line.

Lemma sliced_shorter s' s : sliced s' s -> (rounds_left (released s') < rounds_left s)%nat.
Proof.
  intros ((Hb & Hl & Hpos) & Hs & Hst). unfold rounds_left, released. simpl. rewrite Hs in *.
  destruct (0 <? pending_consume_ s'.1)%nat eqn:E; bool_facts; [|lia].
  rewrite readable_consume, length_drop. rewrite Hb, length_take in Hl.
  destruct (state_ s'.1); done || lia.
Qed.

Lemma min_len_bounds r (l : bytes) :
  0 < r -> l <> [] -> 0 < Z.min r (len l) /\
  length (take (Z.to_nat (Z.min r (len l))) l) = Z.to_nat (Z.min r (len l)).
Proof.
  intros Hr Hl. unfold len. rewrite length_take. destruct l; [done|]. simpl length. lia.
Qed.

Lemma framing_length_bound req max_body n :
  framing_spec req max_body BodyKind.length n -> n <= max_body.
Proof. by intros (_ & _ & _ & _ & ?). Qed.

Lemma parse_integer_range text base v :
  1 < base -> parse_integer text base = Some v -> 0 <= v <= UINT64_MAX.
Proof.
  intros Hbase. unfold parse_integer. destruct (_ =? 0)%nat; [done|].
  unfold from_chars. destruct text as [|b text]; [done|].
  destruct (digit_of base b); [|done].
  pose proof (scan_digits_mono base 0 (b :: text) ltac:(lia) ltac:(lia)) as Hm.
  destruct (scan_digits base 0 (b :: text)) as [w rest]. simpl in Hm.
  destruct (w <=? UINT64_MAX) eqn:E; [|done]. destruct rest; [|done].
  intros [= <-]. bool_facts. lia.
Qed.

Lemma framing_length_nonneg req max_body n :
  framing_spec req max_body BodyKind.length n -> 0 <= n.
Proof.
  intros (_ & _ & Hne & Hall & _). destruct (content_length_items _); [done|].
  apply Forall_inv, parse_integer_range in Hall; lia.
Qed.

Lemma read_length_body_wp s :
  parser_inv s.1 -> state_ s.1 = State.body_length -> no_slice s.1 ->
  wp read_length_body s
    (fun step s' => parser_inv s'.1 /\
       match step with ParseStep.body => sliced s' s | _ => step_post step s' /\ step = ParseStep.need_more end)
    (fun _ _ => True).
Proof.
  destruct s as [p b]. simpl. intros Hinv Hst Hsl. unfold read_length_body. wp_steps.
  { split; [done|]. split; [|done]. split; [done|]. simpl. bool_facts.
    destruct (readable b); [apply not_elem_of_nil|done]. }
  assert (readable b <> []) as Hne by (intros E; rewrite E in *; done).
  pose proof Hinv as [Hrange _ _ _ _ _ _ Hbody Hframe].
  unfold body_inv in Hbody. unfold framing_inv in Hframe. rewrite Hst in Hbody, Hframe.
  destruct Hbody as (Hseen & Hk & Hrem & Heq).
  rewrite Hk in Hframe. pose proof (framing_length_bound _ _ _ Hframe) as Hmax.
  apply limits_range in Hrange.
  destruct (min_len_bounds (body_remaining_ p) (readable b) Hrem Hne) as [Hpos Hlen].
  set (n := Z.min (body_remaining_ p) (len (readable b))) in *.
  assert (n <= body_remaining_ p) by lia. clearbody n.
  cbn [body_remaining_ set_pending_consume_ set_body_remaining_].
  rewrite !wrap64_small by lia.
  destruct (body_remaining_ p - n =? 0) eqn:E; bool_facts.
  all: split; [apply (parser_inv_body p); try done
    |split; simpl; rewrite ?Hst, ?Hlen; split_and!; done || lia].
  all: unfold body_inv, framing_inv; simpl; rewrite ?Hst; simpl; try (by rewrite Hk).
  all: split_and!; intros; lia || congruence.
Qed.

(** Outcome of a chunk method, as the round consumes it. *)
Definition chunk_post s (step : Progress.t) s' : Prop :=
  parser_inv s'.1 /\
  match step with
  | Progress.need_data => step_post ParseStep.need_more s'
  | Progress.advanced => no_slice s'.1 /\ state_ s'.1 <> State.start_line /\ shorter s' s
  | Progress.emitted_body => state_ s.1 = State.body_chunk_data /\ sliced s' s
  | Progress.finished =>
      state_ s.1 = State.body_chunk_trailer /\ step_post ParseStep.complete s'
  end.

Lemma read_chunk_header_wp s :
  parser_inv s.1 -> state_ s.1 = State.body_chunk_header -> no_slice s.1 ->
  wp read_chunk_header s (chunk_post s) (fun _ _ => True).
Proof.
  destruct s as [p b]. simpl. intros Hinv Hst Hsl. unfold read_chunk_header.
  pose proof Hinv as [Hrange _ _ _ _ _ _ Hbody Hframe].
  unfold body_inv in Hbody. unfold framing_inv in Hframe. rewrite Hst in Hbody, Hframe.
  apply limits_range in Hrange. destruct Hbody as (Hseen & Hk & Hle).
  wp_steps; try done.
  all: try (split; [exact Hinv|]; split; [exact Hsl|]; by eapply next_line_need_more).
  all: match goal with Hx : parse_hex _ = Some _ |- _ => pose proof (parse_integer_range _ 16 _ ltac:(lia) Hx) end.
  all: bool_facts; split; [|split_and!; [done|done|by eapply consume_line_shorter]].
  all: apply (parser_inv_body p); try done; unfold body_inv; simpl.
  all: split_and!; try (done || lia); intros Hfit; specialize (Hle Hfit); unfold body_fits in Hfit.
  all: rewrite ?wrap64_small in * by lia; lia.
Qed.

Lemma read_chunk_data_wp s :
  parser_inv s.1 -> state_ s.1 = State.body_chunk_data -> no_slice s.1 ->
  wp read_chunk_data s (chunk_post s) (fun _ _ => True).
Proof.
  destruct s as [p b]. simpl. intros Hinv Hst Hsl. unfold read_chunk_data.
  pose proof Hinv as [Hrange _ _ _ _ _ _ Hbody Hframe].
  unfold body_inv in Hbody. unfold framing_inv in Hframe. rewrite Hst in Hbody, Hframe.
  apply limits_range in Hrange. destruct Hbody as (Hseen & Hk & Hrem & Hle).
  wp_steps; try done; bool_facts.
  - split; [exact Hinv|]. split; [exact Hsl|]. simpl.
    destruct (readable b); [apply not_elem_of_nil|done].
  - assert (readable b <> []) as Hne by (intros E; rewrite E in *; done).
    destruct (min_len_bounds (chunk_remaining_ p) (readable b)) as [Hpos Hlen]; [lia|done|].
    set (n := Z.min (chunk_remaining_ p) (len (readable b))) in *.
    assert (n <= chunk_remaining_ p) by lia. clearbody n.
    pose proof (wrap64_range (body_seen_ p + n)).
    rewrite (wrap64_small (chunk_remaining_ p - n)) by lia.
    split; [|split; [done|split; simpl; rewrite ?Hst, ?Hlen; split_and!; done || lia]].
    apply (parser_inv_body p); try done.
    + unfold body_inv. simpl. rewrite Hst. split_and!; try (done || lia).
      intros Hfit. specialize (Hle Hfit). rewrite wrap64_small by lia. lia.
    + unfold framing_inv. simpl. by rewrite Hst.
  - split; [|split_and!; [done|done|by eapply consume_line_shorter]].
    apply (parser_inv_body p); try done. unfold body_inv. simpl. split_and!; try (done || lia).
    intros Hfit. specialize (Hle Hfit). lia.
  - split; [exact Hinv|]. split; [exact Hsl|]. by eapply next_line_need_more.
Qed.

Lemma read_chunk_trailer_wp s :
  parser_inv s.1 -> state_ s.1 = State.body_chunk_trailer -> no_slice s.1 ->
  wp read_chunk_trailer s (chunk_post s) (fun _ _ => True).
Proof.
  destruct s as [p b]. simpl. intros Hinv Hst Hsl. unfold read_chunk_trailer.
  pose proof Hinv as [_ _ _ _ _ Htr Htc Hbody Hframe].
  unfold body_inv in Hbody. unfold framing_inv in Hframe. rewrite Hst in Hbody, Hframe.
  destruct Hbody as (Hseen & Hk & Hle).
  wp_steps; try done.
  - split; [|split_and!; done]. apply (parser_inv_body p); try done.
    unfold body_inv. simpl. rewrite Hk. split_and!; try (done || lia). intros [?|Hfit]; [done|auto].
  - bool_facts. split; [|split_and!; [done|simpl; by rewrite Hst|by eapply consume_line_shorter]].
    destruct Hinv. constructor; simpl; unfold HeaderMap.append; try done.
    + apply Forall_app. split; [done|]. constructor; [|done].
      match goal with Hx : find COLON _ = Some _ |- _ => apply find_lt in Hx end.
      split_and!; [apply take_nonempty; lia|done|apply trim_ows_no_outer].
    + rewrite size_app. lia.
  - split; [exact Hinv|]. split; [exact Hsl|]. by eapply next_line_need_more.
Qed.

Definition round_post s (o : option ParseStep.t) s' : Prop :=
  match o with
  | Some step =>
      parser_inv s'.1 /\ step_post step s' /\
      (step = ParseStep.head \/ step = ParseStep.body ->
       (rounds_left (released s') < rounds_left s)%nat)
  | None => (parser_inv s'.1 /\ no_slice s'.1) /\ (rounds_left s' < rounds_left s)%nat
  end.

Lemma rounds_left_shorter s s' :
  shorter s' s -> state_ s'.1 <> State.start_line -> (rounds_left s' < rounds_left s)%nat.
Proof. unfold shorter, rounds_left. intros. destruct (state_ s'.1); try done; lia. Qed.

(** The end of the head: the framing is decided and the body state entered. *)
Lemma enter_body_inv p (k : BodyKind.t) n p' :
  parser_inv p -> state_ p = State.headers ->
  framing_of (request_ p) (max_body_size (limits_ p)) = Ok (k, n) ->
  limits_ p' = limits_ p -> request_ p' = request_ (set_framing k n p) ->
  trailers_ p' = trailers_ p -> headers_total_ p' = headers_total_ p ->
  body_inv p' -> parser_inv p'.
Proof.
  intros [] Hst Hf Hl Hr Ht Hh Hb. constructor; rewrite ?Hl, ?Hr, ?Ht, ?Hh; try done.
  unfold framing_inv. rewrite Hr, Hl. simpl.
  apply framing_of_exact in Hf. destruct (state_ p'); try done; by destruct k; naive_solver.
Qed.

Lemma head_shorter (p : RequestParser) (b : B) s :
  (length (readable b) < length (readable s.2))%nat -> pending_consume_ p = 0%nat ->
  state_ p <> State.start_line -> (rounds_left (released (p, b)) < rounds_left s)%nat.
Proof.
  intros Hsh Hp Hst. unfold rounds_left, released. simpl. rewrite Hp. simpl.
  destruct (state_ p); done || lia.
Qed.

Lemma end_of_head_wp s s' :
  shorter s' s -> parser_inv s'.1 -> state_ s'.1 = State.headers -> no_slice s'.1 ->
  wp (decide_framing ;;;
      let! s0 := out_get in
      match req_body_kind (request_ s0.1) with
      | BodyKind.none => on_parser (set_state_ State.done) ;;; out_ret (Some ParseStep.head)
      | BodyKind.length =>
          let n := req_content_length (request_ s0.1) in
          on_parser (fun p =>
            set_state_ (if n =? 0 then State.done else State.body_length)
              (set_body_remaining_ n p)) ;;;
          out_ret (Some ParseStep.head)
      | BodyKind.chunked =>
          on_parser (set_state_ State.body_chunk_header) ;;; out_ret (Some ParseStep.head)
      | BodyKind.close_delimited => refuse ParseError.framing_conflict
      end) s' (round_post s) (fun _ _ => True).
Proof.
  intros Hsh Hinv Hst Hsl.
  assert (0 <= max_body_size (limits_ s'.1) <= UINT64_MAX /\ body_seen_ s'.1 = 0) as [Hmb Hseen].
  { destruct Hinv as [Hr _ _ _ _ _ _ Hb _]. apply limits_range in Hr.
    unfold body_inv in Hb. rewrite Hst in Hb. lia. }
  unfold decide_framing. wp_steps; try done.
  all: match goal with Hf : framing_of _ _ = Ok ?f |- _ =>
         destruct f as [k n]; pose proof (proj1 (framing_of_exact _ _ _ _) Hf) as Hspec end.
  all: simpl in *; subst k.
  all: match goal with |- parser_inv ?p /\ _ => assert (parser_inv p) as Hp end;
    [eapply (enter_body_inv s'.1); try done; unfold body_inv; simpl|].
  all: try (split; [exact Hp|split; [split; [exact Hsl|]|intros _;
      apply head_shorter; [exact Hsh|apply Hsl|simpl; try destruct (_ =? _); discriminate]]];
            exact Hspec || exact (inv_framing _ Hp)).
  - split_and!; done || lia.
  - rewrite Hseen. pose proof (framing_length_nonneg _ _ _ Hspec).
    destruct (n =? 0) eqn:En; bool_facts; split_and!; done || lia.
  - rewrite Hseen. split_and!; done || lia.
Qed.

Lemma chunk_round_wp s r s' :
  chunk_post s r s' -> state_ s.1 <> State.start_line ->
  round_post s
    match r with
    | Progress.need_data => Some ParseStep.need_more
    | Progress.advanced => None
    | Progress.emitted_body => Some ParseStep.body
    | Progress.finished => Some ParseStep.complete
    end s'.
Proof.
  intros [Hi Hr] Hs. destruct r.
  - split; [done|]. split; [exact Hr|by intros [?|?]].
  - destruct Hr as (Hn & Hst & Hsh). split; [by split|]. by apply rounds_left_shorter.
  - destruct Hr as [_ Hr]. split; [done|]. split; [apply Hr|intros _; by apply sliced_shorter].
  - destruct Hr as [_ Hr]. split; [done|]. split; [exact Hr|by intros [?|?]].
Qed.

(** Close a chunk state's round from the outcome of its method. *)
Ltac chunk_round s r s' :=
  let Hst := fresh in
  match goal with H : state_ s.1 = _ |- _ => pose proof H as Hst end;
  match goal with Hr : chunk_post s r s' |- _ =>
    destruct r; wp_steps;
    solve [exact (chunk_round_wp _ _ _ Hr ltac:(rewrite Hst; discriminate))
          | destruct Hr as [_ [? _]]; congruence]
  end.

Lemma parser_inv_headers p :
  parser_inv p -> state_ p = State.start_line -> parser_inv (set_state_ State.headers p).
Proof.
  intros Hp Hst. apply (parser_inv_body p); try done.
  pose proof (inv_body _ Hp) as Hb. unfold body_inv in *. by rewrite Hst in Hb.
Qed.

Lemma parse_round_wp s :
  parser_inv s.1 -> no_slice s.1 -> wp parse_round s (round_post s) (fun _ _ => True).
Proof.
  intros Hinv Hsl. unfold parse_round. wp_step. destruct (state_ s.1) eqn:Hst.
  - wp_step. eapply wp_mono; [by apply parse_start_line_wp| |done].
    intros [|] s'; simpl; [|intros [-> ?]; wp_steps; split_and!; try done; by intros [?|?]].
    intros (Hi & Hs & Hn & Hsh). wp_steps. split; [split|]; try done.
    + by apply parser_inv_headers.
    + by apply rounds_left_shorter.
  - wp_step. eapply wp_mono; [by apply parse_headers_wp| |done].
    intros [|] s' (Hi & Hs & Hn & Hsh); simpl;
      [|wp_steps; split_and!; try done; by intros [?|?]].
    by apply end_of_head_wp.
  - wp_step. eapply wp_mono; [by apply read_length_body_wp| |done].
    intros step s' [Hi Hr]. wp_steps. split; [done|]. destruct step; try (by destruct Hr).
    + split; [apply Hr|]. by intros [?|?].
    + split; [apply Hr|]. intros _. by apply sliced_shorter.
  - wp_step. eapply wp_mono; [by apply read_chunk_header_wp| |done].
    intros r s' Hr. by chunk_round s r s'.
  - wp_step. eapply wp_mono; [by apply read_chunk_data_wp| |done].
    intros r s' Hr. by chunk_round s r s'.
  - wp_step. eapply wp_mono; [by apply read_chunk_trailer_wp| |done].
    intros r s' Hr. by chunk_round s r s'.
  - wp_steps. split; [done|]. split; [done|by intros [?|?]].
Qed.

Lemma release_slice_eq s : release_slice s = Returns tt (released s).
Proof.
  destruct s as [[l st r t bd seen brem crem tot n last] b].
  unfold release_slice, released, out_bind. simpl. by destruct n.
Qed.

Lemma parse_wp s :
  parser_inv s.1 ->
  wp parse s
    (fun step s' => parser_inv s'.1 /\ step_post step s' /\
       (step = ParseStep.head \/ step = ParseStep.body ->
        (rounds_left (released s') < rounds_left (released s))%nat))
    (fun _ _ => True).
Proof.
  intros Hinv. unfold parse. wp_step. unfold wp at 1. rewrite release_slice_eq.
  apply (iter_wp parse_round
    (fun s' => parser_inv s'.1 /\ no_slice s'.1 /\
               (rounds_left s' <= rounds_left (released s))%nat) rounds_left).
  - intros s' (Hi & Hn & Hle). eapply wp_mono; [by apply parse_round_wp| |done].
    intros [step|] s''; simpl.
    + intros (? & ? & Hd). split; [done|]. split; [done|]. intros Hs%Hd. lia.
    + intros [[? ?] ?]. split; [|done]. split; [done|]. split; [done|lia].
  - split; [|split; [done|lia]]. by apply (parser_inv_body s.1); destruct Hinv.
  - unfold rounds_left. destruct (state_ (released s).1); lia.
Qed.
End Methods.

(** ** Errors: every failure is a parse error *)

Definition http_error (e : Error) : Prop := exists pe, e = parse_error pe.

Lemma http_error_intro pe : http_error (parse_error pe).
Proof. by exists pe. Qed.

Lemma fails_with_lift {S A} (P : Error -> Prop) (r : Result A) :
  (forall e, r = Fail e -> P e) -> fails_with P (lift (S := S) r).
Proof. intros Hr s. unfold lift. destruct r; auto. Qed.

Lemma agree_lengths_errors items agreed e : agree_lengths items agreed = Fail e -> http_error e.
Proof.
  revert agreed; induction items as [|i items IH]; intros agreed; simpl; [done|].
  repeat case_match; intros; simplify_eq; eauto using http_error_intro.
Qed.

Lemma framing_of_errors req max_body e : framing_of req max_body = Fail e -> http_error e.
Proof.
  unfold framing_of. intros Hf.
  repeat (case_match; simplify_eq; eauto using http_error_intro, agree_lengths_errors).
Qed.

#[export] Hint Resolve http_error_intro : mira.

(** Walk through a method, checking each place that fails. *)
Ltac fails_http :=
  repeat first
    [ progress intros
    | progress cbv zeta
    | assumption
    | apply fails_with_bind
    | apply fails_with_require
    | apply fails_with_ret | apply fails_with_get | apply fails_with_modify
    | apply fails_with_fail
    | apply http_error_intro
    | apply fails_with_fuel
    | match goal with |- fails_with _ (match ?x with _ => _ end) => destruct x end ].

Section Errors.
Context {B : Type} `{ReadBuffer B}.

Lemma locate_fails : fails_with http_error (locate (B := B)).
Proof.
  intros s. unfold locate, lift. destruct (next_line _ _) eqn:E; [done|].
  apply next_line_errors in E as ->. apply http_error_intro.
Qed.

Lemma parse_header_line_fails : fails_with http_error (parse_header_line (B := B)).
Proof. pose proof locate_fails. unfold parse_header_line. fails_http. Qed.

Lemma decide_framing_fails : fails_with http_error (decide_framing (B := B)).
Proof.
  unfold decide_framing. fails_http. apply fails_with_lift. intros e. apply framing_of_errors.
Qed.

Lemma parse_round_fails : fails_with http_error (parse_round (B := B)).
Proof.
  pose proof locate_fails. pose proof parse_header_line_fails. pose proof decide_framing_fails.
  unfold parse_round, parse_start_line, parse_headers, read_length_body, read_chunk_header,
    read_chunk_data, read_chunk_trailer.
  fails_http.
Qed.

Lemma parse_fails : fails_with http_error (parse (B := B)).
Proof. pose proof parse_round_fails. unfold parse, release_slice. fails_http. Qed.
End Errors.

(** ** The theorems *)

Lemma make_parser_inv l : limits_in_range l -> parser_inv (make_parser l).
Proof.
  intros Hl. pose proof (limits_range l Hl).
  constructor; simpl; unfold HeaderMap.size, body_inv, framing_inv; simpl; split_and?; done || lia.
Qed.

Lemma reset_inv p : parser_inv p -> parser_inv (reset p).
Proof. intros Hp. exact (make_parser_inv (limits_ p) (inv_limits _ Hp)). Qed.

Lemma default_limits_in_range : limits_in_range default_limits.
Proof. repeat constructor; by vm_compute. Qed.

Lemma default_limits_sane : limits_sane default_limits.
Proof. constructor; [apply default_limits_in_range|by vm_compute..]. Qed.

(** C2: for all limits their types allow, on any input and from every state that
    satisfies the invariant (a new parser does, and each call keeps it), [parse]
    returns: it never loops and it fails only with an error of the parser's own
    category.  The invariant says: stored fields are tokens with clean values;
    there are at most [max_header_count] of them and of trailers; the header bytes
    counted are at most [max_headers_total], and no fewer than those stored if
    [max_headers_total + max_header_line] does not exceed 2^64 - 1; and the body delivered
    so far is within [max_body_size], for chunked bodies if
    [max_body_size + max_chunk_size] does not exceed it either (beyond that the
    source's sums can wrap around).  Each step means what it says: [need_more] only
    when the input left holds no line; [head] only with the framing its fields
    determine; [body] only with a non-empty slice at the front of the input;
    [complete] only in the final state. *)
Theorem parse_correct {B} `{ReadBuffer B, !ReadBufferLaws B} (p : RequestParser) (b : B)
    (Hinv : parser_inv p) :
  match parse (p, b) with
  | Returns step s' => parser_inv s'.1 /\ step_post step s'
  | Fails e _ => http_error e
  | OutOfFuel => False
  end.
Proof.
  pose proof (parse_wp (p, b) Hinv) as Hwp. pose proof (parse_fails (p, b)) as Hf.
  unfold wp in Hwp. destruct (parse (p, b)); [|done|done]. by destruct Hwp as (? & ? & _).
Qed.

Definition get_request : bytes :=
  lit "GET /index.html HTTP/1.1" ++ CRLF ++ lit "Host: a" ++ CRLF ++ CRLF ++ lit "GET".

(** No limit on bodies. *)
Definition unlimited : Limits :=
  mk_limits 8192 8192 100 65536 UINT64_MAX UINT64_MAX 4096 false false.

Lemma parse_correct_witness :
  parser_inv (make_parser unlimited) /\
  exists s', parse (make_parser unlimited, get_request) = Returns ParseStep.head s' /\
             parser_inv s'.1 /\ readable s'.2 = lit "GET".
Proof.
  pose proof (make_parser_inv unlimited ltac:(repeat constructor; by vm_compute)) as Hi.
  split; [exact Hi|].
  pose proof (parse_correct (make_parser unlimited) get_request Hi) as Hc.
  destruct (parse (make_parser unlimited, get_request)) as [step s'|e s'|] eqn:E;
    vm_compute in E; try discriminate E.
  exists s'. destruct Hc as (Hp & _). injection E as <- <-. split_and!; [done|exact Hp|done].
Defined.
