(* ===== verification/Incremental.v ===== *)
(** * Incremental: splitting the input does not change what is parsed

    The claim of http/parser.hpp: the parser holds a message that arrives in
    pieces exactly as one that arrives whole.  A client runs [parse] until it
    asks for more, collecting the body slices; the pieces it is fed and their
    concatenation give the same run, step for step, unless the piecewise run is
    cut short by a size limit. *)

From S2P Require Import Prelude Numerals Errors Buffer Grammar Message Lines RequestParser RequestFraming.
From S2P Require Import RequestParserInv.

Local Open Scope Z_scope.
Local Open Scope mira_scope.

(** ** A client of the parser *)

(** The parser with the bytes received and not yet consumed, and the body
    collected so far. *)
Definition Client : Type := RequestParser * bytes * bytes.

(** One call of [parse]: a head or a slice goes on, [need_more] and [complete]
    stop. *)
Definition client_round : M Client (option ParseStep.t) :=
  fun c => match parse c.1 with
           | Returns ParseStep.body s => Returns None (s, c.2 ++ body_ s.1)
           | Returns ParseStep.head s => Returns None (s, c.2)
           | Returns step s => Returns (Some step) (s, c.2)
           | Fails e s => Fails e (s, c.2)
           | OutOfFuel => OutOfFuel
           end.

Definition client_run : M Client ParseStep.t :=
  fun c => iter (2 + length c.1.2) client_round c.

(** More bytes arrive. *)
Definition feed (x : bytes) (c : Client) : Client := ((c.1.1, c.1.2 ++ x), c.2).

(** Run on the pieces as they arrive; what arrives after the end of the message
    is left unread. *)
Fixpoint client_pieces (pieces : list bytes) (c : Client) : Outcome Error Client ParseStep.t :=
  match pieces with
  | [] => client_run c
  | x :: rest =>
      match client_run c with
      | Returns ParseStep.need_more c' => client_pieces rest (feed x c')
      | Returns step c' => Returns step (feed (x ++ List.concat rest) c')
      | Fails e c' => Fails e (feed (x ++ List.concat rest) c')
      | OutOfFuel => OutOfFuel
      end
  end.

(** ** The parser's rounds on extended input *)

Definition limit_error (e : Error) : Prop := e = parse_error ParseError.limit_exceeded.

Definition ext (x : bytes) (s : PS (B := bytes)) : PS := (s.1, s.2 ++ x).

Definition more (step : ParseStep.t) : bool :=
  match step with ParseStep.need_more => true | _ => false end.

(** A method that finished on a window does the same on a longer one; one that
    needs more input stops in a state it can be restarted from. *)
Definition carries {A} (x : bytes) (needs : A -> bool) (m : M PS A) (s : PS) : Prop :=
  match m s with
  | Returns a s' => if needs a then m (ext x s) = m (ext x s') else m (ext x s) = Returns a (ext x s')
  | Fails e s' => limit_error e \/ m (ext x s) = Fails e (ext x s')
  | OutOfFuel => True
  end.

(** The same for a method that stops exactly where it started. *)
Definition carries_here {A} (x : bytes) (needs : A -> bool) (m : M PS A) (s : PS) : Prop :=
  match m s with
  | Returns a s' => if needs a then s' = s else m (ext x s) = Returns a (ext x s')
  | Fails e s' => limit_error e \/ m (ext x s) = Fails e (ext x s')
  | OutOfFuel => True
  end.

Lemma consume_line_app (w x : bytes) bare l :
  next_line w bare = Ok (Some l) ->
  drop (line_consumed l) (w ++ x) = drop (line_consumed l) w ++ x.
Proof. intros Hl%next_line_consumed. apply drop_app_le. lia. Qed.

(** A line-oriented method: without a line it stops where it is, or gives up on
    a limit; with one it never asks for more, and it does the same on the longer
    window. *)
Lemma carries_line {A} x (needs : A -> bool) (m : M PS A) (p : RequestParser) (w : bytes) :
  (next_line w (allow_bare_lf (limits_ p)) = Ok None ->
   match m (p, w) with
   | Returns a s' => needs a = true /\ s' = (p, w)
   | Fails e _ => limit_error e
   | OutOfFuel => True
   end) ->
  (forall r, next_line w (allow_bare_lf (limits_ p)) = r ->
   next_line (w ++ x) (allow_bare_lf (limits_ p)) = r -> r <> Ok None ->
   match m (p, w) with
   | Returns a s' => needs a = false /\ m (ext x (p, w)) = Returns a (ext x s')
   | Fails e s' => m (ext x (p, w)) = Fails e (ext x s')
   | OutOfFuel => True
   end) ->
  carries_here x needs m (p, w).
Proof.
  intros Hnone Hsome. unfold carries_here.
  destruct (next_line w (allow_bare_lf (limits_ p))) as [[l|]|e] eqn:Hl.
  - specialize (Hsome _ eq_refl). rewrite next_line_app in Hsome by congruence.
    specialize (Hsome Hl ltac:(done)). destruct (m (p, w)); [|by right|done].
    by destruct Hsome as [-> ?].
  - specialize (Hnone eq_refl). destruct (m (p, w)); [|by left|done].
    by destruct Hnone as [-> ->].
  - specialize (Hsome _ eq_refl). rewrite next_line_app in Hsome by congruence.
    specialize (Hsome Hl ltac:(done)). destruct (m (p, w)); [|by right|done].
    by destruct Hsome as [-> ?].
Qed.

(** Run a line-oriented method on both windows: the line found is the same and
    so is everything decided from it. *)
Ltac run_defs :=
  unfold out_bind, out_get, locate, lift, consume_input, on_parser, out_modify,
    refuse, out_fail, require, out_ret, ext;
  cbn [fst snd readable consume bytes_read_buffer].
Ltac run_cases :=
  repeat (match goal with
          | |- context[match ?b with _ => _ end] =>
              lazymatch b with context[match _ with _ => _ end] => fail | _ => destruct b end
          end; cbn [fst snd]); try done.
Tactic Notation "carry_line" reference(m) :=
  apply carries_line;
  [ intros Hl; unfold m; run_defs; rewrite Hl; run_cases
  | intros [[?l|]|?e] Hl Hx Hne; [|done|]; unfold m; run_defs; rewrite Hl, Hx; cbn [fst snd];
    run_cases; by rewrite (consume_line_app _ _ _ _ Hl) ].

Lemma parse_start_line_carries x s : carries_here x negb parse_start_line s.
Proof. destruct s as [p w]. carry_line parse_start_line. Qed.

Lemma parse_header_line_carries x s :
  carries_here x (fun o => match o with Some false => true | _ => false end) parse_header_line s.
Proof. destruct s as [p w]. carry_line parse_header_line. Qed.

Definition needs_data (r : Progress.t) : bool :=
  match r with Progress.need_data => true | _ => false end.

Lemma read_chunk_header_carries x s : carries_here x needs_data read_chunk_header s.
Proof. destruct s as [p w]. carry_line read_chunk_header. Qed.

Lemma read_chunk_trailer_carries x s : carries_here x needs_data read_chunk_trailer s.
Proof. destruct s as [p w]. carry_line read_chunk_trailer. Qed.

(** The line that ends a chunk's data. *)
Lemma read_chunk_data_end_carries x s :
  (0 <? chunk_remaining_ s.1) = false -> carries_here x needs_data read_chunk_data s.
Proof.
  destruct s as [p w]. simpl. intros Hr. apply carries_line.
  - intros Hl. unfold read_chunk_data; run_defs. rewrite Hr. cbn. by rewrite Hl.
  - intros [[l|]|e] Hl Hx Hne; [|done|]; unfold read_chunk_data; run_defs; rewrite Hr; cbn;
      rewrite Hl, Hx; [|done].
    run_cases. by rewrite (consume_line_app _ _ _ _ Hl).
Qed.

(** The header loop: if it reads the end of the head it would have done so on
    the longer window, and if it stops it can be restarted there. *)
Lemma parse_headers_carries x s :
  parser_inv s.1 -> state_ s.1 = State.headers -> no_slice s.1 ->
  carries x negb parse_headers s.
Proof.
  intros Hinv Hst Hsl. unfold carries.
  assert (forall s' : PS (B := bytes), parser_inv s'.1 -> state_ s'.1 = State.headers -> no_slice s'.1 ->
            parse_headers s' <> OutOfFuel) as Htot.
  { intros s' H1 H2 H3 E. pose proof (parse_headers_wp s' H1 H2 H3) as Hwp.
    unfold wp in Hwp. by rewrite E in Hwp. }
  pose proof (parse_headers_wp s Hinv Hst Hsl) as Hpost. unfold wp in Hpost.
  pose proof (iter_resumes parse_header_line (ext x) negb limit_error
    (fun s' => parser_inv s'.1 /\ state_ s'.1 = State.headers /\ no_slice s'.1)
    (S (length (readable s.2))) (S (length (readable (ext x s).2))) s) as Hres.
  ospecialize (Hres _ _ _); [|done|by apply Htot|].
  - intros s' (H1 & H2 & H3). pose proof (parse_header_line_carries x s') as Hc.
    pose proof (parse_header_line_wp s' H1 H2 H3) as Hwp. unfold carries_here in Hc. unfold wp in Hwp.
    destruct (parse_header_line s') as [[[|]|] s''|e s''|]; try done; [by rewrite Hc|].
    destruct Hwp as (? & ? & ? & _). split; [done|by left].
  - unfold parse_headers at 1. unfold parse_headers at 1 in Hpost.
    destruct (iter (S (length (readable s.2))) parse_header_line s) as [[|] s'|e s'|];
      simpl in *; try done.
    destruct Hpost as (H1 & H2 & H3 & _). apply Hres. exact (Htot (ext x s') H1 H2 H3).
Qed.

(** ** The client, one parser round at a time

    The same client with the loops of [parse] and of the client made one, and
    every slice released as soon as it is collected. *)
Definition flat_round : M Client (option ParseStep.t) :=
  fun c => match parse_round c.1 with
           | Returns None s => Returns None (s, c.2)
           | Returns (Some ParseStep.body) s => Returns None (released s, c.2 ++ body_ s.1)
           | Returns (Some ParseStep.head) s => Returns None (s, c.2)
           | Returns (Some step) s => Returns (Some step) (s, c.2)
           | Fails e s => Fails e (s, c.2)
           | OutOfFuel => OutOfFuel
           end.

Definition client_inv (c : Client) : Prop := parser_inv c.1.1 /\ no_slice c.1.1.

Definition resumes (x : bytes) (c : Client) : Prop :=
  match flat_round c with
  | Returns None c' =>
      flat_round (feed x c) = Returns None (feed x c') \/
      flat_round (feed x c) = flat_round (feed x c')
  | Returns (Some step) c' =>
      if more step then flat_round (feed x c) = flat_round (feed x c')
      else flat_round (feed x c) = Returns (Some step) (feed x c')
  | Fails e c' => limit_error e \/ flat_round (feed x c) = Fails e (feed x c')
  | OutOfFuel => True
  end.

Lemma resumes_start_line x c :
  client_inv c -> state_ c.1.1 = State.start_line -> resumes x c.
Proof.
  intros [Hinv Hsl] Hst. destruct c as [s acc]. simpl in *.
  pose proof (parse_start_line_carries x s) as Hc.
  unfold resumes, flat_round, parse_round, out_bind, out_get, feed, carries_here in *. simpl in *.
  change (s.1, s.2 ++ x) with (ext x s) in *. rewrite Hst.
  destruct (parse_start_line s) as [[|] s'|e s'|]; simpl in *; try done.
  - rewrite Hc. by left.
  - subst s'. by rewrite Hst.
  - destruct Hc as [Hc|Hc]; [by left|rewrite Hc; by right].
Qed.

Lemma resumes_headers x c :
  client_inv c -> state_ c.1.1 = State.headers -> resumes x c.
Proof.
  intros [Hinv Hsl] Hst. destruct c as [s acc]. simpl in *.
  pose proof (parse_headers_carries x s Hinv Hst Hsl) as Hc.
  pose proof (parse_headers_wp s Hinv Hst Hsl) as Hwp. unfold wp in Hwp.
  unfold resumes, flat_round, parse_round, out_bind, out_get, feed, carries in *. simpl in *.
  change (s.1, s.2 ++ x) with (ext x s) in *. rewrite Hst.
  destruct (parse_headers s) as [[|] s'|e s'|]; simpl in *; try done.
  - rewrite Hc. unfold decide_framing, out_bind, out_get, lift, on_parser, out_modify, refuse,
      out_fail, out_ret. simpl.
    destruct (framing_of _ _) as [[k n]|e]; simpl; [|by right].
    by destruct k; simpl; (by left) || (by right).
  - destruct Hwp as (_ & Hst' & _ & _). rewrite Hst', Hc.
    change (s'.1, s'.2 ++ x) with (ext x s'). done.
  - destruct Hc as [Hc|Hc]; [by left|rewrite Hc; by right].
Qed.

(** A chunk state's round, from what its method carries over. *)
Lemma resumes_progress x c (m : M PS Progress.t) conv :
  (forall s, state_ s.1 = state_ c.1.1 -> parse_round s = out_bind m (fun r => out_ret (conv r)) s) ->
  conv Progress.need_data = Some ParseStep.need_more ->
  (forall r, needs_data r = false ->
     conv r = None \/ conv r = Some ParseStep.complete \/
     r = Progress.emitted_body /\ forall s', m c.1 <> Returns r s') ->
  carries_here x needs_data m c.1 -> resumes x c.
Proof.
  destruct c as [s acc]. simpl. intros Hround Hneed Hconv Hc.
  unfold resumes, flat_round, feed. cbn [fst snd].
  change (s.1, s.2 ++ x) with (ext x s). rewrite !Hround by done.
  unfold carries_here in Hc. unfold out_bind.
  destruct (m s) as [r s'|e s'|] eqn:Hm; [|by destruct Hc as [Hc|Hc]; [left|right; rewrite Hc]|done].
  unfold out_ret. destruct (needs_data r) eqn:Hr.
  - destruct r; try done. subst s'. rewrite Hneed. simpl.
    change (s.1, s.2 ++ x) with (ext x s). by rewrite Hround.
  - rewrite Hc. destruct (Hconv r Hr) as [->|[->|[_ Hno]]]; [by left|done|].
    by destruct (Hno s').
Qed.

Lemma resumes_chunk_header x c : state_ c.1.1 = State.body_chunk_header -> resumes x c.
Proof.
  intros Hst. apply (resumes_progress x c read_chunk_header (fun r =>
    match r with Progress.need_data => Some ParseStep.need_more | _ => None end)).
  - intros s Hs. unfold parse_round, out_bind, out_get. rewrite Hs, Hst.
    by destruct (read_chunk_header s) as [[] ?|? ?|].
  - done.
  - intros []; auto; done.
  - apply read_chunk_header_carries.
Qed.

Lemma resumes_chunk_trailer x c : state_ c.1.1 = State.body_chunk_trailer -> resumes x c.
Proof.
  intros Hst. apply (resumes_progress x c read_chunk_trailer (fun r =>
    match r with
    | Progress.need_data => Some ParseStep.need_more
    | Progress.finished => Some ParseStep.complete
    | _ => None
    end)).
  - intros s Hs. unfold parse_round, out_bind, out_get. rewrite Hs, Hst.
    by destruct (read_chunk_trailer s) as [[] ?|? ?|].
  - done.
  - intros []; auto; done.
  - apply read_chunk_trailer_carries.
Qed.

Lemma resumes_chunk_data_end x c :
  state_ c.1.1 = State.body_chunk_data -> (0 <? chunk_remaining_ c.1.1) = false -> resumes x c.
Proof.
  intros Hst Hr. apply (resumes_progress x c read_chunk_data (fun r =>
    match r with
    | Progress.need_data => Some ParseStep.need_more
    | Progress.emitted_body => Some ParseStep.body
    | _ => None
    end)).
  - intros s Hs. unfold parse_round, out_bind, out_get. rewrite Hs, Hst.
    by destruct (read_chunk_data s) as [[] ?|? ?|].
  - done.
  - intros []; [done|by auto| |by auto]. intros _. right; right. split; [done|]. intros s'.
    unfold read_chunk_data; run_defs. rewrite Hr. cbn.
    destruct (next_line _ _) as [[l|]|e]; cbn; [|done|done]. by destruct (length _ =? 0)%nat.
  - by apply read_chunk_data_end_carries.
Qed.

(** ** Body slices

    A slice is what the window holds of the bytes that remain.  When the window
    is shorter than that, the rest of the slice comes with the next bytes. *)
Section Slices.
Variables (slicing : RequestParser -> Prop) (rem : RequestParser -> Z)
  (eat : nat -> RequestParser -> RequestParser).
Hypothesis slice_empty : forall p acc,
  slicing p -> flat_round ((p, []), acc) = Returns (Some ParseStep.need_more) ((p, []), acc).
Hypothesis slice_round : forall p w acc,
  slicing p -> w <> [] ->
  let n := Z.to_nat (Z.min (rem p) (len w)) in
  flat_round ((p, w), acc) = Returns None ((eat n p, drop n w), acc ++ take n w).
Hypothesis slice_eat : forall p n,
  slicing p -> (Z.of_nat n < rem p) ->
  slicing (eat n p) /\ rem (eat n p) = rem p - Z.of_nat n /\
  forall m, eat m (eat n p) = eat (n + m) p.

Lemma resumes_slice x c : slicing c.1.1 -> resumes x c.
Proof.
  destruct c as [[p w] acc]. simpl. intros Hp. unfold resumes, feed. cbn [fst snd].
  destruct (decide (w = [])) as [->|Hw]; [by rewrite slice_empty|].
  assert (w ++ x <> []) as Hwx by (by intros [? _]%app_eq_nil).
  rewrite slice_round by done. cbn [fst snd].
  destruct (decide (x = [])) as [->|Hx]; [left; by rewrite !app_nil_r, slice_round by done|].
  destruct (decide (rem p <= len w)) as [Hle|Hgt].
  - left. rewrite slice_round by done. rewrite len_app, !Z.min_l by
      (pose proof (len_nonneg x); lia).
    rewrite take_app_le, drop_app_le by (unfold len in Hle; lia). done.
  - right. rewrite (Z.min_r (rem p) (len w)) by lia. unfold len at 1 2 3. rewrite Nat2Z.id.
    assert (Z.of_nat (length w) < rem p) as Hlt by (unfold len in Hgt; lia).
    destruct (slice_eat p (length w) Hp Hlt) as (Hs & Hr & Hm).
    rewrite drop_all, take_ge by done. rewrite app_nil_l.
    rewrite !slice_round by done. rewrite Hm, Hr.
    assert (Z.to_nat (rem p `min` len (w ++ x)) =
      length w + Z.to_nat ((rem p - Z.of_nat (length w)) `min` len x))%nat as ->.
    { rewrite len_app. unfold len. lia. }
    by rewrite <- drop_drop, drop_app_length, take_app_add, app_assoc.
Qed.
End Slices.

Lemma wrap64_add_assoc a b c : wrap64 (wrap64 (a + b) + c) = wrap64 (a + (b + c)).
Proof. unfold wrap64. rewrite Zplus_mod_idemp_l. f_equal. lia. Qed.

(** A body with a declared length. *)
Definition slicing_length (p : RequestParser) : Prop :=
  state_ p = State.body_length /\ 0 < body_remaining_ p <= UINT64_MAX.

Definition eat_length (n : nat) (p : RequestParser) : RequestParser :=
  let left := wrap64 (body_remaining_ p - Z.of_nat n) in
  set_body_ [] (set_pending_consume_ 0
    (set_state_ (if left =? 0 then State.done else state_ p)
      (set_body_remaining_ left (set_body_seen_ (wrap64 (body_seen_ p + Z.of_nat n)) p)))).

Lemma resumes_length x c : slicing_length c.1.1 -> resumes x c.
Proof.
  apply (resumes_slice slicing_length body_remaining_ eat_length).
  - intros p acc [Hst Hr]. unfold flat_round, parse_round, out_bind, out_get. simpl.
    by rewrite Hst.
  - intros p w acc [Hst Hr] Hw n. unfold flat_round, parse_round, out_bind, out_get. simpl.
    rewrite Hst. unfold read_length_body; run_defs.
    destruct (length w =? 0)%nat eqn:E; bool_facts; [by destruct w|].
    destruct (min_len_bounds (body_remaining_ p) w) as [Hpos _]; [lia|done|].
    cbn [body_remaining_ set_pending_consume_ set_body_remaining_].
    unfold released, eat_length. subst n. rewrite Z2Nat.id by lia.
    set (k := Z.min _ _) in *. simpl.
    destruct (wrap64 (body_remaining_ p - k) =? 0); simpl;
      (destruct (0 <? Z.to_nat k)%nat eqn:Ek; bool_facts; [|lia]); reflexivity.
  - intros p n [Hst Hr] Hn. unfold slicing_length, eat_length. simpl.
    rewrite (wrap64_small (body_remaining_ p - Z.of_nat n)) by (unfold UINT64_MAX in *; lia).
    destruct (body_remaining_ p - Z.of_nat n =? 0) eqn:E; bool_facts; [lia|].
    split_and!; [done|lia|lia|done|]. intros m.
    rewrite wrap64_add_assoc, <- Nat2Z.inj_add, <- Z.sub_add_distr, <- Nat2Z.inj_add. done.
Qed.

(** The data of a chunk. *)
Definition slicing_chunk (p : RequestParser) : Prop :=
  state_ p = State.body_chunk_data /\ 0 < chunk_remaining_ p <= UINT64_MAX.

Definition eat_chunk (n : nat) (p : RequestParser) : RequestParser :=
  set_body_ [] (set_pending_consume_ 0
    (set_chunk_remaining_ (wrap64 (chunk_remaining_ p - Z.of_nat n))
       (set_body_seen_ (wrap64 (body_seen_ p + Z.of_nat n)) p))).

Lemma flat_chunk_round p w acc :
  slicing_chunk p -> w <> [] ->
  let n := Z.to_nat (Z.min (chunk_remaining_ p) (len w)) in
  flat_round ((p, w), acc) = Returns None ((eat_chunk n p, drop n w), acc ++ take n w).
Proof.
  intros [Hst Hr] Hw n. unfold flat_round, parse_round, out_bind, out_get. simpl.
  rewrite Hst. unfold read_chunk_data; run_defs.
  destruct (0 <? chunk_remaining_ p) eqn:E0; bool_facts; [|lia].
  destruct (length w =? 0)%nat eqn:E; bool_facts; [by destruct w|].
  destruct (min_len_bounds (chunk_remaining_ p) w) as [Hpos _]; [lia|done|].
  unfold released, eat_chunk. subst n. rewrite Z2Nat.id by lia.
  set (k := Z.min _ _) in *. simpl. destruct (0 <? Z.to_nat k)%nat eqn:Ek; bool_facts; [done|lia].
Qed.

(** Once the bytes of a slice are all there, a later [eat] is not a slice: only
    chunks that go on are sliced again. *)
Lemma resumes_chunk_slice x c : slicing_chunk c.1.1 -> resumes x c.
Proof.
  apply (resumes_slice slicing_chunk chunk_remaining_ eat_chunk).
  - intros p acc [Hst Hr]. unfold flat_round, parse_round, out_bind, out_get. simpl.
    rewrite Hst. unfold read_chunk_data; run_defs. by destruct (0 <? _) eqn:E; bool_facts; [|lia].
  - intros p w acc. apply flat_chunk_round.
  - intros p n [Hst Hr] Hn. unfold slicing_chunk, eat_chunk. simpl.
    rewrite (wrap64_small (chunk_remaining_ p - Z.of_nat n)) by (unfold UINT64_MAX in *; lia).
    split_and!; [done|lia|lia|done|]. intros m.
    rewrite wrap64_add_assoc, <- Nat2Z.inj_add, <- Z.sub_add_distr, <- Nat2Z.inj_add. done.
Qed.

(** ** Restarting *)

Lemma released_id s : no_slice s.1 -> released (B := bytes) s = s.
Proof. destruct s as [[] b]. unfold no_slice, released. simpl. by intros [-> ->]. Qed.

Lemma client_resumes x c : client_inv c -> resumes x c.
Proof.
  destruct c as [[p w] acc]. intros Hc. pose proof Hc as [[Hr _ _ _ _ _ _ Hb Hf] _].
  unfold limits_in_range in Hr. rewrite !Forall_cons in Hr.
  unfold body_inv in Hb. unfold framing_inv in Hf. simpl in *.
  destruct (state_ p) eqn:Hst.
  - by apply resumes_start_line.
  - by apply resumes_headers.
  - apply resumes_length. destruct Hb as (? & Hk & ? & ?). rewrite Hk in Hf.
    apply framing_length_bound in Hf. split; [done|]. simpl. lia.
  - by apply resumes_chunk_header.
  - destruct Hb as (? & _ & ? & ?). destruct (0 <? chunk_remaining_ p) eqn:E; bool_facts.
    + apply resumes_chunk_slice. split; [done|]. simpl. lia.
    + apply resumes_chunk_data_end; [done|]. simpl. lia.
  - by apply resumes_chunk_trailer.
  - unfold resumes, flat_round, feed, parse_round, out_bind, out_get. simpl. by rewrite Hst.
Qed.

(** A round that goes on keeps the client's invariant. *)
Lemma flat_round_inv c c' : client_inv c -> flat_round c = Returns None c' -> client_inv c'.
Proof.
  intros [Hinv Hsl]. pose proof (parse_round_wp c.1 Hinv Hsl) as Hwp.
  unfold wp, round_post in Hwp. unfold flat_round.
  destruct (parse_round c.1) as [[[]|] s'|e s'|]; intros; simplify_eq/=.
  - split; apply Hwp.
  - split; [|done]. destruct Hwp as [Hp _]. by apply (parser_inv_body s'.1); destruct Hp.
  - split; apply Hwp.
Qed.

Lemma flat_round_resumes x : round_resumes flat_round (feed x) more limit_error client_inv.
Proof.
  intros c Hc. pose proof (client_resumes x c Hc) as Hres. pose proof (flat_round_inv c) as Hi.
  unfold resumes in Hres. destruct (flat_round c) as [[step|] c'|e c'|]; try done.
  split; [by apply Hi|done].
Qed.

(** The client and its flat version run alike. *)
Lemma parse_flat k s acc :
  parser_inv s.1 -> no_slice s.1 ->
  match iter k parse_round s with
  | Returns ParseStep.head s' =>
      exists j, forall m, iter (j + m) flat_round (s, acc) = iter m flat_round (s', acc)
  | Returns ParseStep.body s' =>
      exists j, forall m,
        iter (j + m) flat_round (s, acc) = iter m flat_round (released s', acc ++ body_ s'.1)
  | Returns step s' => exists j, iter j flat_round (s, acc) = Returns step (s', acc)
  | Fails e s' => exists j, iter j flat_round (s, acc) = Fails e (s', acc)
  | OutOfFuel => True
  end.
Proof.
  revert s; induction k as [|k IH]; intros s Hinv Hsl; [done|]. simpl.
  pose proof (parse_round_wp s Hinv Hsl) as Hwp. unfold wp, round_post in Hwp.
  assert (forall j, iter (S j) flat_round (s, acc) =
    match parse_round s with
    | Returns None s' => iter j flat_round (s', acc)
    | Returns (Some ParseStep.body) s' => iter j flat_round (released s', acc ++ body_ s'.1)
    | Returns (Some ParseStep.head) s' => iter j flat_round (s', acc)
    | Returns (Some step) s' => Returns step (s', acc)
    | Fails e s' => Fails e (s', acc)
    | OutOfFuel => OutOfFuel
    end) as Hj.
  { intros j. simpl. unfold flat_round at 1. simpl. by destruct (parse_round s) as [[[]|] ?|? ?|]. }
  destruct (parse_round s) as [[step|] s'|e s'|]; [| |by exists 1%nat; rewrite Hj|done].
  - destruct step; exists 1%nat; intros; simpl Nat.add; by rewrite Hj.
  - destruct Hwp as [[Hi Hn] _]. specialize (IH s' Hi Hn).
    destruct (iter k parse_round s') as [[]| |]; try done; destruct IH as [j Hjj];
      exists (S j); intros; simpl Nat.add; rewrite Hj; apply Hjj.
Qed.

(** A released client state: what the next call of [parse] works on. *)
Definition settle (c : Client) : Client := (released c.1, c.2).

Lemma client_flat n c :
  parser_inv c.1.1 -> iter n client_round c <> OutOfFuel ->
  exists k, iter k flat_round (settle c) = iter n client_round c.
Proof.
  revert c; induction n as [|n IH]; intros [s acc] Hinv Hn; [done|]. simpl in Hinv.
  assert (parser_inv (released s).1) as Hrel by (by apply (parser_inv_body s.1); destruct Hinv).
  pose proof (parse_wp s Hinv) as Hwp. unfold wp in Hwp.
  pose proof (parse_flat (2 + length (readable (released s).2)) (released s) acc Hrel
    (conj eq_refl eq_refl)) as Hflat.
  assert (parse s = iter (2 + length (readable (released s).2)) parse_round (released s)) as Hp
    by (unfold parse, out_bind; by rewrite release_slice_eq).
  rewrite <- Hp in Hflat. clear Hp. simpl in Hn |- *. unfold client_round at 1.
  unfold client_round at 1 in Hn. cbn [fst snd] in *.
  destruct (parse s) as [[] s'|e s'|]; try done.
  - destruct Hflat as [j Hj], Hwp as (Hi & [Hs _] & _).
    destruct (IH (s', acc)) as [k Hk]; [done|done|]. exists (j + k)%nat.
    unfold settle at 1. simpl. rewrite Hj, <- Hk. unfold settle. simpl. by rewrite released_id.
  - destruct Hflat as [j Hj], Hwp as [Hi _].
    destruct (IH (s', acc ++ body_ s'.1)) as [k Hk]; [done|done|]. exists (j + k)%nat.
    unfold settle at 1. simpl. by rewrite Hj, <- Hk.
Qed.

Lemma client_run_wp c :
  parser_inv c.1.1 ->
  wp client_run c (fun step c' => client_inv c') (fun _ _ => True).
Proof.
  intros Hinv. apply (iter_wp client_round (fun c' => parser_inv c'.1.1)
    (fun c' => rounds_left (released c'.1))); [|done|].
  - clear c Hinv. intros [s acc] Hinv. pose proof (parse_wp s Hinv) as Hwp.
    unfold wp, client_round in *. simpl. destruct (parse s) as [[] s'|e s'|]; try done.
    + destruct Hwp as (? & [? _] & _). by split.
    + destruct Hwp as (? & _ & Hd). split; [done|]. apply Hd. by left.
    + destruct Hwp as (? & _ & Hd). split; [done|]. apply Hd. by right.
    + destruct Hwp as (? & [? _] & _). by split.
  - unfold rounds_left, released. simpl. destruct c as [[p w] acc]; simpl.
    destruct (0 <? pending_consume_ p)%nat; rewrite ?length_drop; destruct (state_ p); lia.
Qed.

(** A client run is what its rounds, taken one at a time, come to. *)
Lemma client_run_by_rounds n c r :
  client_inv c -> iter n flat_round c = r -> r <> OutOfFuel -> client_run c = r.
Proof.
  intros [Hinv Hsl] Hr Hne. pose proof (client_run_wp c Hinv) as Hwp. unfold wp in Hwp.
  assert (client_run c <> OutOfFuel) as Hnec by (intros E; by rewrite E in Hwp).
  destruct (client_flat (2 + length c.1.2) c Hinv Hnec) as [k Hk].
  assert (settle c = c) as Es.
  { destruct c as [s acc]. unfold settle. cbn [fst snd]. by rewrite released_id. }
  rewrite Es in Hk. unfold client_run. rewrite <- Hk, <- Hr.
  apply iter_agree; [by rewrite Hk|by rewrite Hr].
Qed.

Lemma settle_feed x c :
  (pending_consume_ c.1.1 <= length c.1.2)%nat -> settle (feed x c) = feed x (settle c).
Proof.
  destruct c as [[p w] acc]. unfold settle, feed, released. simpl. intros Hle.
  destruct (0 <? pending_consume_ p)%nat; [|done]. by rewrite drop_app_le.
Qed.

(** The client run, on a window and on a longer one. *)
Lemma client_run_resumes x c :
  parser_inv c.1.1 -> (pending_consume_ c.1.1 <= length c.1.2)%nat ->
  match client_run c with
  | Returns step c' =>
      if more step then client_run (feed x c) = client_run (feed x c')
      else client_run (feed x c) = Returns step (feed x c')
  | Fails e c' => limit_error e \/ client_run (feed x c) = Fails e (feed x c')
  | OutOfFuel => False
  end.
Proof.
  intros Hinv Hle.
  assert (forall c', parser_inv c'.1.1 ->
    exists k, iter k flat_round (settle c') = client_run c' /\ client_run c' <> OutOfFuel) as Hflat.
  { intros c' Hi. pose proof (client_run_wp c' Hi) as Hwp. unfold wp in Hwp.
    assert (client_run c' <> OutOfFuel) as Hne by (intros E; by rewrite E in Hwp).
    destruct (client_flat (2 + length c'.1.2) c' Hi Hne) as [k Hk]. by exists k. }
  destruct (Hflat c Hinv) as (k & Hk & Hne), (Hflat (feed x c) Hinv) as (m & Hm & Hnem).
  rewrite settle_feed in Hm by done.
  pose proof (iter_resumes flat_round (feed x) more limit_error client_inv k m (settle c)
    (flat_round_resumes x)) as Hres.
  ospecialize (Hres _ _); [|by rewrite Hm|].
  { split; [|by split]. by apply (parser_inv_body c.1.1); destruct Hinv. }
  rewrite Hk, Hm in Hres. pose proof (client_run_wp c Hinv) as Hwp. unfold wp in Hwp.
  destruct (client_run c) as [step c'|e c'|]; [|done|done].
  destruct (more step); [|done]. destruct Hwp as [Hi Hs].
  destruct (Hflat (feed x c') Hi) as (j & Hj & Hnej).
  rewrite settle_feed in Hj.
  2:{ destruct c' as [[p' w'] acc']. destruct Hs as [Hs _]. simpl in *. lia. }
  assert (settle c' = c') as Es.
  { destruct c' as [s' acc]. unfold settle. cbn [fst snd]. by rewrite released_id. }
  rewrite Es in Hj. rewrite (Hres j) by (by rewrite Hj). exact Hj.
Qed.

(** C1: a message that arrives in pieces is parsed exactly like one
    that arrives whole.  Wherever the stream is cut, the client that is fed the
    pieces ends in the same step with the same parser (request line, headers,
    framing, trailers, counters), the same collected body and the same unread
    bytes as the client that has them all from the start, and fails with the
    same error; the one exception is a piecewise run that gives up with
    [limit_exceeded]. *)
Theorem parse_incremental (pieces : list bytes) (p : RequestParser) (w acc : bytes)
    (Hinv : parser_inv p) (Hslice : (pending_consume_ p <= length w)%nat) :
  client_pieces pieces ((p, w), acc) = client_run ((p, w ++ List.concat pieces), acc) \/
  exists c, client_pieces pieces ((p, w), acc) = Fails (parse_error ParseError.limit_exceeded) c.
Proof.
  revert p w acc Hinv Hslice; induction pieces as [|x pieces IH]; intros p w acc Hinv Hslice; simpl.
  { left. by rewrite app_nil_r. }
  set (rest := x ++ List.concat pieces).
  pose proof (client_run_resumes rest ((p, w), acc) Hinv Hslice) as Hres.
  pose proof (client_run_wp ((p, w), acc) Hinv) as Hwp. unfold wp in Hwp. unfold feed in *.
  simpl in Hres. destruct (client_run ((p, w), acc)) as [step c'|e c'|]; [| |done].
  - destruct step; try (by left). simpl in Hres. destruct c' as [[p' w'] acc'].
    destruct Hwp as [Hi Hs]. simpl in *.
    destruct (IH p' (w' ++ x) acc' Hi) as [->|Hlim]; [destruct Hs; lia| |by right].
    left. rewrite Hres. unfold rest. by rewrite app_assoc.
  - destruct Hres as [->|Hres]; [right; by eexists|by left].
Qed.

(** ** Witness and boundary cases *)

Definition post_request : list bytes :=
  [lit "POST /up HTTP/1.1" ++ [CR]; LF :: lit "Content-Le"; lit "ngth: 5" ++ CRLF ++ CRLF ++ lit "he";
   lit "llo"; lit "GET"].

Definition fresh_client (l : Limits) (w : bytes) : Client := ((make_parser l, w), []).

Lemma parse_incremental_witness :
  client_pieces post_request (fresh_client default_limits []) =
    client_run (fresh_client default_limits (List.concat post_request)) /\
  exists p, client_run (fresh_client default_limits (List.concat post_request)) =
    Returns ParseStep.complete ((p, lit "GET"), lit "hello").
Proof.
  split; [|eexists; vm_compute; reflexivity].
  destruct (parse_incremental post_request (make_parser default_limits) [] []
    (make_parser_inv default_limits default_limits_in_range) ltac:(simpl; lia)) as [H|[c H]].
  - exact H.
  - vm_compute in H. discriminate H.
Defined.

(** Limits with the given bounds on the start line, a chunk and the body. *)
Definition limits_with (start chunk body : Z) : Limits :=
  {| max_start_line := start; max_header_line := max_header_line default_limits;
     max_header_count := max_header_count default_limits;
     max_headers_total := max_headers_total default_limits; max_body_size := body;
     max_chunk_size := chunk; max_chunk_extension := max_chunk_extension default_limits;
     allow_obsolete_line_folding := false; allow_bare_lf := false |}.

(** The exception of the previous property is real, and it is off by
    one.  A start line of exactly [max_start_line] bytes is accepted when it
    arrives whole, and refused with [limit_exceeded] when its CR arrives before
    its LF: the waiting test compares the whole unread input, CR included, with
    a bound on the text of the line. *)
Theorem start_line_limit_depends_on_split :
  let line := lit "GET / HTTP/1.1" in
  let l := limits_with (len line) 16 16 in
  (exists s, parse (make_parser l, line ++ CRLF ++ CRLF) = Returns ParseStep.head s) /\
  (exists s, parse (make_parser l, line ++ [CR]) =
     Fails (parse_error ParseError.limit_exceeded) s) /\
  (exists c, client_pieces [line ++ [CR]; LF :: CRLF] (fresh_client l []) =
     Fails (parse_error ParseError.limit_exceeded) c) /\
  (exists c, client_run (fresh_client l (line ++ CRLF ++ CRLF)) = Returns ParseStep.complete c).
Proof. simpl. split_and!; eexists; vm_compute; reflexivity. Qed.

(** A chunked request whose second chunk declares 2^64 - 4 bytes. *)
Definition wrapping_request : bytes :=
  lit "POST / HTTP/1.1" ++ CRLF ++ lit "Transfer-Encoding: chunked" ++ CRLF ++ CRLF ++
  lit "8" ++ CRLF ++ lit "12345678" ++ CRLF ++
  lit "FFFFFFFFFFFFFFFC" ++ CRLF ++ lit "abcdefgh".

(** The requirement that the body and chunk limits cannot overflow
    together is needed.  With the chunk limit at its maximum the sum tested by
    [read_chunk_header] wraps around, and a body limited to 8 bytes is delivered
    with 16. *)
Theorem body_limit_wraps :
  let l := limits_with 100 UINT64_MAX 8 in
  exists p w, client_run (fresh_client l wrapping_request) =
    Returns ParseStep.need_more ((p, w), lit "12345678abcdefgh") /\
    max_body_size (limits_ p) < body_seen_ p.
Proof. simpl. eexists _, _. split; vm_compute; reflexivity. Qed.
