(* ===== verification/ParserRefinement.v ===== *)
(** * ParserRefinement: the parser on a buffer and on a byte queue

    The request parser reads a [Buffer] through its readable region.  Any lawful
    buffer can be replaced by the plain byte string it stands for: [parse] on the
    buffer is the image of [parse] on the string, state by state.  What is proved
    of the parser on strings therefore holds on the concrete buffer, whatever its
    cursor, capacity and compaction history. *)

From S2P Require Import Prelude Numerals Errors Buffer Grammar Message Lines RequestParser.

Local Open Scope Z_scope.
Local Open Scope mira_scope.

Definition out_map {E S S' A} (f : S -> S') (o : Outcome E S A) : Outcome E S' A :=
  match o with
  | Returns a s => Returns a (f s)
  | Fails e s => Fails e (f s)
  | OutOfFuel => OutOfFuel
  end.

Section Simulation.
Context {B : Type} `{ReadBuffer B, !ReadBufferLaws B}.

(** The parser with the queue its buffer stands for. *)
Definition view (s : PS (B := B)) : PS (B := bytes) := (s.1, readable s.2).

(** Method [m] at state [s] does what [m'] does on the queue. *)
Definition simulates {A} (m : M (PS (B := B)) A) (m' : M (PS (B := bytes)) A) s : Prop :=
  out_map view (m s) = m' (view s).

Lemma sim_bind {A C} (m : M PS A) m' (k : A -> M PS C) k' s :
  simulates m m' s -> (forall a s', simulates (k a) (k' a) s') ->
  simulates (out_bind m k) (out_bind m' k') s.
Proof.
  unfold simulates, out_bind. intros <- Hk. destruct (m s); simpl; [apply Hk|done|done].
Qed.

Lemma sim_get {A} (k : PS -> M PS A) k' s :
  simulates (k s) (k' (view s)) s -> simulates (out_bind out_get k) (out_bind out_get k') s.
Proof. done. Qed.

Lemma sim_ret {A} (a : A) s : simulates (out_ret a) (out_ret a) s.
Proof. done. Qed.

Lemma sim_fail {A} e s : simulates (A := A) (out_fail e) (out_fail e) s.
Proof. done. Qed.

Lemma sim_require c e s : simulates (require c e) (require c e) s.
Proof. unfold simulates, require. by destruct c. Qed.

Lemma sim_lift {A} (r : Result A) s : simulates (lift r) (lift r) s.
Proof. unfold simulates, lift. by destruct r. Qed.

Lemma sim_on_parser f s : simulates (on_parser f) (on_parser f) s.
Proof. done. Qed.

Lemma sim_consume n s : simulates (consume_input n) (consume_input n) s.
Proof. unfold simulates, consume_input, view. simpl. by rewrite readable_consume. Qed.

Lemma sim_locate s : simulates locate locate s.
Proof. unfold simulates, locate, lift. simpl. by destruct (next_line _ _). Qed.

Lemma sim_iter {A} n (body : M PS (option A)) body' s :
  (forall s', simulates body body' s') -> simulates (iter n body) (iter n body') s.
Proof.
  intros Hb. revert s; induction n as [|n IH]; intros s; [done|].
  unfold simulates in *. simpl. rewrite <- Hb. destruct (body s) as [[a|] s'|e s'|]; simpl; done.
Qed.

Lemma sim_if {A} (c : bool) (m1 m2 : M PS A) m1' m2' s :
  simulates m1 m1' s -> simulates m2 m2' s ->
  simulates (if c then m1 else m2) (if c then m1' else m2') s.
Proof. by destruct c. Qed.
End Simulation.

(** Walk through a method on both sides at once. *)
Ltac simulate_step :=
  intros; cbv zeta; unfold refuse, input_exceeds;
  cbn [fst snd view readable bytes_read_buffer];
  lazymatch goal with
  | |- simulates (out_bind out_get _) _ _ => apply sim_get
  | |- simulates (out_bind _ _) _ _ => apply sim_bind
  | |- simulates (match ?x with _ => _ end) _ _ => destruct x
  | |- simulates (out_ret _) _ _ => apply sim_ret
  | |- simulates (out_fail _) _ _ => apply sim_fail
  | |- simulates (require _ _) _ _ => apply sim_require
  | |- simulates (lift _) _ _ => apply sim_lift
  | |- simulates (on_parser _) _ _ => apply sim_on_parser
  | |- simulates (consume_input _) _ _ => apply sim_consume
  | |- simulates locate _ _ => apply sim_locate
  | Hm : forall s, simulates ?m _ s |- simulates ?m _ _ => apply Hm
  | |- forall _, _ => intros
  end.
Ltac simulate := repeat simulate_step.

Section Methods.
Context {B : Type} `{ReadBuffer B, !ReadBufferLaws B}.

Lemma sim_parse_header_line s : simulates (B := B) parse_header_line parse_header_line s.
Proof. unfold parse_header_line. simulate. Qed.

Lemma sim_parse_round s : simulates (B := B) parse_round parse_round s.
Proof.
  assert (forall s', simulates (B := B) parse_headers parse_headers s') as Hh.
  { intros s'. exact (sim_iter _ _ _ s' sim_parse_header_line). }
  unfold parse_round, parse_start_line, decide_framing, read_length_body, read_chunk_header,
    read_chunk_data, read_chunk_trailer.
  simulate.
Qed.

Lemma sim_parse s : simulates (B := B) parse parse s.
Proof.
  unfold parse. apply sim_bind.
  - unfold release_slice. simulate.
  - intros _ s'. exact (sim_iter _ _ _ s' sim_parse_round).
Qed.
End Methods.

(** Parsing from the concrete buffer refines parsing from a queue of
    bytes.  For every buffer, [parse] reports the same step or error and leaves
    the same parser as on the string of its readable bytes, and what is readable
    afterwards is what is left of that string; capacity, read cursor and pending
    reservation never show. *)
Theorem parse_refines_queue (p : RequestParser) (b : Buffer) :
  match parse (p, b) with
  | Returns step s => parse (p, buf_readable b) = Returns step (s.1, buf_readable s.2)
  | Fails e s => parse (p, buf_readable b) = Fails e (s.1, buf_readable s.2)
  | OutOfFuel => parse (p, buf_readable b) = OutOfFuel
  end.
Proof.
  pose proof (sim_parse (p, b)) as Hs. unfold simulates in Hs.
  change (view (p, b)) with (p, buf_readable b) in Hs. rewrite <- Hs.
  by destruct (parse (p, b)).
Qed.
