(* ===== verification/ResponseParser.v ===== *)
(** * ResponseParser: the incremental HTTP/1.1 response parser
    (http/response_parser.hpp, http/src/response_parser.cpp)

    The client side's parser.  It differs from the request parser in more than
    the start line: the framing of a response depends on the request's method
    and on the status, a body may end with the connection, an error is sticky,
    and every bound is tested by a subtraction that cannot wrap. *)

From S2P Require Import Prelude Numerals Errors Buffer Grammar Message Lines RequestParser.

Local Open Scope Z_scope.
Local Open Scope mira_scope.

Module RespState.
Inductive t :=
| start
| headers
| length
| chunk_size
| chunk_data
| chunk_end
| trailers
| eof_body
| done.
End RespState.

(** The private members of the class, each with the prefix [rs_]. *)
Record ResponseParser := mk_response_parser {
  rs_limits : Limits;
  rs_method : Method.t;
  rs_state : RespState.t;
  rs_response : Response;
  rs_trailers : HeaderMap.t;
  rs_body : bytes;
  rs_seen : Z;
  rs_remaining : Z;
  rs_pending : nat;
  rs_header_bytes : Z;
  rs_error : Error;
}.

(** [ResponseParser(method, limits)] *)
Definition make_response_parser (m : Method.t) (l : Limits) : ResponseParser :=
  {| rs_limits := l; rs_method := m; rs_state := RespState.start; rs_response := clear_response;
     rs_trailers := []; rs_body := []; rs_seen := 0; rs_remaining := 0; rs_pending := 0;
     rs_header_bytes := 0; rs_error := no_error |}.

(** [reset(method)] *)
Definition resp_reset (m : Method.t) (p : ResponseParser) : ResponseParser :=
  make_response_parser m (rs_limits p).

(** [done()] *)
Definition resp_done (p : ResponseParser) : bool :=
  match rs_state p with RespState.done => (rs_pending p =? 0)%nat | _ => false end.

(** Assignments to single members. *)
Definition set_rs_state (v : RespState.t) (p : ResponseParser) : ResponseParser :=
  {| rs_limits := rs_limits p; rs_method := rs_method p; rs_state := v; rs_response := rs_response p; rs_trailers := rs_trailers p; rs_body := rs_body p; rs_seen := rs_seen p; rs_remaining := rs_remaining p; rs_pending := rs_pending p; rs_header_bytes := rs_header_bytes p; rs_error := rs_error p |}.

Definition set_rs_response (v : Response) (p : ResponseParser) : ResponseParser :=
  {| rs_limits := rs_limits p; rs_method := rs_method p; rs_state := rs_state p; rs_response := v; rs_trailers := rs_trailers p; rs_body := rs_body p; rs_seen := rs_seen p; rs_remaining := rs_remaining p; rs_pending := rs_pending p; rs_header_bytes := rs_header_bytes p; rs_error := rs_error p |}.

Definition set_rs_trailers (v : HeaderMap.t) (p : ResponseParser) : ResponseParser :=
  {| rs_limits := rs_limits p; rs_method := rs_method p; rs_state := rs_state p; rs_response := rs_response p; rs_trailers := v; rs_body := rs_body p; rs_seen := rs_seen p; rs_remaining := rs_remaining p; rs_pending := rs_pending p; rs_header_bytes := rs_header_bytes p; rs_error := rs_error p |}.

Definition set_rs_body (v : bytes) (p : ResponseParser) : ResponseParser :=
  {| rs_limits := rs_limits p; rs_method := rs_method p; rs_state := rs_state p; rs_response := rs_response p; rs_trailers := rs_trailers p; rs_body := v; rs_seen := rs_seen p; rs_remaining := rs_remaining p; rs_pending := rs_pending p; rs_header_bytes := rs_header_bytes p; rs_error := rs_error p |}.

Definition set_rs_seen (v : Z) (p : ResponseParser) : ResponseParser :=
  {| rs_limits := rs_limits p; rs_method := rs_method p; rs_state := rs_state p; rs_response := rs_response p; rs_trailers := rs_trailers p; rs_body := rs_body p; rs_seen := v; rs_remaining := rs_remaining p; rs_pending := rs_pending p; rs_header_bytes := rs_header_bytes p; rs_error := rs_error p |}.

Definition set_rs_remaining (v : Z) (p : ResponseParser) : ResponseParser :=
  {| rs_limits := rs_limits p; rs_method := rs_method p; rs_state := rs_state p; rs_response := rs_response p; rs_trailers := rs_trailers p; rs_body := rs_body p; rs_seen := rs_seen p; rs_remaining := v; rs_pending := rs_pending p; rs_header_bytes := rs_header_bytes p; rs_error := rs_error p |}.

Definition set_rs_pending (v : nat) (p : ResponseParser) : ResponseParser :=
  {| rs_limits := rs_limits p; rs_method := rs_method p; rs_state := rs_state p; rs_response := rs_response p; rs_trailers := rs_trailers p; rs_body := rs_body p; rs_seen := rs_seen p; rs_remaining := rs_remaining p; rs_pending := v; rs_header_bytes := rs_header_bytes p; rs_error := rs_error p |}.

Definition set_rs_header_bytes (v : Z) (p : ResponseParser) : ResponseParser :=
  {| rs_limits := rs_limits p; rs_method := rs_method p; rs_state := rs_state p; rs_response := rs_response p; rs_trailers := rs_trailers p; rs_body := rs_body p; rs_seen := rs_seen p; rs_remaining := rs_remaining p; rs_pending := rs_pending p; rs_header_bytes := v; rs_error := rs_error p |}.

Definition set_rs_error (v : Error) (p : ResponseParser) : ResponseParser :=
  {| rs_limits := rs_limits p; rs_method := rs_method p; rs_state := rs_state p; rs_response := rs_response p; rs_trailers := rs_trailers p; rs_body := rs_body p; rs_seen := rs_seen p; rs_remaining := rs_remaining p; rs_pending := rs_pending p; rs_header_bytes := rs_header_bytes p; rs_error := v |}.

Definition set_status_line (v : Version.t) (status : Z) (reason : bytes) (p : ResponseParser)
    : ResponseParser :=
  set_rs_response {| res_version := v; res_status := status; res_reason := reason;
                     res_headers := res_headers (rs_response p);
                     res_body_kind := res_body_kind (rs_response p);
                     res_content_length := res_content_length (rs_response p) |} p.

Definition set_res_headers (h : HeaderMap.t) (p : ResponseParser) : ResponseParser :=
  let r := rs_response p in
  set_rs_response {| res_version := res_version r; res_status := res_status r;
                     res_reason := res_reason r; res_headers := h;
                     res_body_kind := res_body_kind r;
                     res_content_length := res_content_length r |} p.

Definition set_res_body_kind (k : BodyKind.t) (p : ResponseParser) : ResponseParser :=
  let r := rs_response p in
  set_rs_response {| res_version := res_version r; res_status := res_status r;
                     res_reason := res_reason r; res_headers := res_headers r;
                     res_body_kind := k; res_content_length := res_content_length r |} p.

Definition set_res_content_length (n : Z) (p : ResponseParser) : ResponseParser :=
  let r := rs_response p in
  set_rs_response {| res_version := res_version r; res_status := res_status r;
                     res_reason := res_reason r; res_headers := res_headers r;
                     res_body_kind := res_body_kind r; res_content_length := n |} p.

(** ** Free functions *)

(** [line(input, limit, bare_lf)], on the readable bytes. *)
Definition resp_line (text : bytes) (limit : Z) (bare_lf : bool) : Result (option Line) :=
  match find LF text with
  | None =>
      let size := len text - (if bool_decide (last text = Some CR) then 1 else 0) in
      if limit <? size then Fail (parse_error ParseError.limit_exceeded) else Ok None
  | Some lf =>
      let cr := (0 <? lf)%nat && bool_decide (text !! (lf - 1)%nat = Some CR) in
      if negb cr && negb bare_lf then Fail (parse_error ParseError.bad_line_ending)
      else
        let content := take (lf - (if cr then 1 else 0)) text in
        match find CR content with
        | Some _ => Fail (parse_error ParseError.bad_line_ending)
        | None =>
            if limit <? len content then Fail (parse_error ParseError.limit_exceeded)
            else Ok (Some (mk_line content (lf + 1)))
        end
  end.

(** [number(value, base)] *)
Definition number (value : bytes) (base : Z) : option Z :=
  if (length value =? 0)%nat then None
  else match from_chars value base with
       | fc_value result [] => Some result
       | _ => None
       end.

(** [status_forbids_body] (http/src/serializer.cpp) *)
Definition status_forbids_body (status : Z) : bool :=
  ((100 <=? status) && (status <? 200)) || (status =? 204) || (status =? 304).

(** The fields that may not come in a trailer. *)
Definition forbidden_trailer (name : bytes) : bool :=
  names_equal name (lit "Content-Length") || names_equal name (lit "Transfer-Encoding") ||
  names_equal name (lit "Host") || names_equal name (lit "Connection") ||
  names_equal name (lit "Trailer").

(** The inner loop of [framing] over one Content-Length value.  Each round
    removes a comma, so the value's length bounds the rounds. *)
Fixpoint length_value_loop (fuel : nat) (value : bytes) (agreed : option Z) : Result (option Z) :=
  match fuel with
  | O => Ok agreed
  | S k =>
      let comma := find COMMA value in
      match number (trim_ows (prefix_to comma value)) 10 with
      | None => Fail (parse_error ParseError.malformed_content_length)
      | Some n =>
          if match agreed with Some a => negb (a =? n) | None => false end
          then Fail (parse_error ParseError.inconsistent_content_length)
          else match comma with
               | None => Ok (Some n)
               | Some i => length_value_loop k (drop (i + 1) value) (Some n)
               end
      end
  end.

(** The outer loop, over the Content-Length fields. *)
Fixpoint length_values (values : list bytes) (agreed : option Z) : Result (option Z) :=
  match values with
  | [] => Ok agreed
  | value :: rest =>
      match length_value_loop (S (length value)) value agreed with
      | Ok agreed' => length_values rest agreed'
      | Fail e => Fail e
      end
  end.

Section RespParser.
Context {B : Type} `{ReadBuffer B}.

(** The parser together with the input buffer it is working on. *)
Definition RS : Type := ResponseParser * B.

Definition on_resp (f : ResponseParser -> ResponseParser) : M RS unit :=
  out_modify (fun s => (f s.1, s.2)).

(** [input.consume(n)] *)
Definition resp_consume (n : nat) : M RS unit := out_modify (fun s => (s.1, consume n s.2)).

(** [field(text, trailer)]; the caller has checked that the text is not empty. *)
Definition resp_field (text : bytes) (trailer : bool) : M RS unit :=
  let! s := out_get in
  let p := s.1 in
  require (negb (match text with front :: _ => is_ows front | [] => false end))
    (parse_error ParseError.obsolete_line_folding) ;;;
  match find COLON text with
  | None | Some O => refuse ParseError.malformed_header
  | Some colon =>
      let name := take colon text in
      require (match last name with Some b => negb (is_ows b) | None => true end)
        (parse_error ParseError.whitespace_before_colon) ;;;
      require (forallb is_tchar name) (parse_error ParseError.malformed_header) ;;;
      let value := trim_ows (drop (colon + 1) text) in
      require (forallb is_field_vchar value) (parse_error ParseError.malformed_header) ;;;
      require (negb (trailer && forbidden_trailer name))
        (parse_error ParseError.framing_conflict) ;;;
      require (negb ((max_header_count (rs_limits p) <=?
                        HeaderMap.size (res_headers (rs_response p)) +
                        HeaderMap.size (rs_trailers p)) ||
                     (wrap64 (max_headers_total (rs_limits p) - rs_header_bytes p) <? len text)))
        (parse_error ParseError.limit_exceeded) ;;;
      on_resp (set_rs_header_bytes (wrap64 (rs_header_bytes p + len text))) ;;;
      on_resp (fun p =>
        if trailer then set_rs_trailers (HeaderMap.append name value (rs_trailers p)) p
        else set_res_headers (HeaderMap.append name value (res_headers (rs_response p))) p)
  end.

(** [framing()] *)
Definition resp_framing : M RS unit :=
  let! s := out_get in
  let p := s.1 in
  let headers := res_headers (rs_response p) in
  let status := res_status (rs_response p) in
  let te := HeaderMap.contains (lit "Transfer-Encoding") headers in
  let cl := HeaderMap.contains (lit "Content-Length") headers in
  require (negb (te && cl)) (parse_error ParseError.framing_conflict) ;;;
  require (negb ((status =? 101) ||
                 (Method.eqb (rs_method p) Method.connect && (200 <=? status) && (status <? 300))))
    (make_error_code Errc.not_supported) ;;;
  let! length :=
    (if cl then lift (length_values (HeaderMap.get_all (lit "Content-Length") headers) None)
     else out_ret None) in
  require (negb (te && (Version.eqb (res_version (rs_response p)) Version.http_1_0 ||
                        negb (HeaderMap.count (lit "Transfer-Encoding") headers =? 1)%nat ||
                        negb (match HeaderMap.get (lit "Transfer-Encoding") headers with
                              | Some v => names_equal v (lit "chunked")
                              | None => false
                              end))))
    (parse_error ParseError.invalid_transfer_encoding) ;;;
  require (negb (((status <? 200) || (status =? 204)) && (te || cl)))
    (parse_error ParseError.framing_conflict) ;;;
  on_resp (fun p => match length with Some n => set_res_content_length n p | None => p end) ;;;
  if Method.eqb (rs_method p) Method.head || status_forbids_body status then
    on_resp (fun p => set_rs_state RespState.done (set_res_body_kind BodyKind.none p))
  else if te then
    on_resp (fun p => set_rs_state RespState.chunk_size (set_res_body_kind BodyKind.chunked p))
  else match length with
       | Some n =>
           require (negb (max_body_size (rs_limits p) <? n))
             (parse_error ParseError.limit_exceeded) ;;;
           on_resp (fun p =>
             set_rs_state (if negb (n =? 0) then RespState.length else RespState.done)
               (set_rs_remaining n (set_res_body_kind BodyKind.length p)))
       | None =>
           on_resp (fun p =>
             set_rs_state RespState.eof_body (set_res_body_kind BodyKind.close_delimited p))
       end.

(** The body branch of the loop of [advance]. *)
Definition resp_body_round (eof : bool) : M RS ParseStep.t :=
  let! s := out_get in
  let p := s.1 in
  let is_eof_body := match rs_state p with RespState.eof_body => true | _ => false end in
  if (length (readable s.2) =? 0)%nat then
    if eof && is_eof_body then on_resp (set_rs_state RespState.done) ;;; out_ret ParseStep.complete
    else if eof then out_fail (make_error_code Errc.eof)
    else out_ret ParseStep.need_more
  else
    let count := if is_eof_body then len (readable s.2)
                 else Z.min (rs_remaining p) (len (readable s.2)) in
    require (negb (wrap64 (max_body_size (rs_limits p) - rs_seen p) <? count))
      (parse_error ParseError.limit_exceeded) ;;;
    on_resp (fun p => set_rs_seen (wrap64 (rs_seen p + count))
      (set_rs_pending (Z.to_nat count)
         (set_rs_body (take (Z.to_nat count) (readable s.2)) p))) ;;;
    (if is_eof_body then out_ret tt
     else
       on_resp (fun p => set_rs_remaining (wrap64 (rs_remaining p - count)) p) ;;;
       on_resp (fun p =>
         if rs_remaining p =? 0
         then set_rs_state (match rs_state p with
                            | RespState.length => RespState.done
                            | _ => RespState.chunk_end
                            end) p
         else p)) ;;;
    out_ret ParseStep.body.

(** The bound on the line the state expects. *)
Definition line_cap (l : Limits) (st : RespState.t) : Z :=
  match st with
  | RespState.start => max_start_line l
  | RespState.chunk_size =>
      if UINT64_MAX - 32 <? max_chunk_extension l then UINT64_MAX else max_chunk_extension l + 32
  | RespState.chunk_end => 0
  | _ => max_header_line l
  end.

(** [case State::start] *)
Definition resp_status_line (text : bytes) : M RS unit :=
  require (negb ((len text <? 13) || negb (bool_decide (text !! 8%nat = Some SP)) ||
                 negb (bool_decide (text !! 12%nat = Some SP))))
    (parse_error ParseError.malformed_start_line) ;;;
  let version := take 8 text in
  let! v := (if bytes_eqb version (lit "HTTP/1.1") then out_ret Version.http_1_1
             else if bytes_eqb version (lit "HTTP/1.0") then out_ret Version.http_1_0
             else refuse ParseError.unsupported_version) in
  on_resp (fun p => set_status_line v (res_status (rs_response p)) (res_reason (rs_response p)) p) ;;;
  match number (take 3 (drop 9 text)) 10 with
  | None => refuse ParseError.malformed_start_line
  | Some status =>
      require (negb ((status <? 100) || (599 <? status)))
        (parse_error ParseError.malformed_start_line) ;;;
      require (forallb is_field_vchar (drop 13 text))
        (parse_error ParseError.malformed_start_line) ;;;
      on_resp (set_status_line v status (drop 13 text)) ;;;
      on_resp (set_rs_state RespState.headers)
  end.

(** [case State::chunk_size] *)
Definition resp_chunk_size (text : bytes) : M RS unit :=
  let! s := out_get in
  let p := s.1 in
  let semicolon := find SEMICOLON text in
  match number (prefix_to semicolon text) 16 with
  | None => refuse ParseError.malformed_chunk
  | Some n =>
      match semicolon with
      | Some i =>
          let ext := drop (i + 1) text in
          require (negb (max_chunk_extension (rs_limits p) <? len ext))
            (parse_error ParseError.limit_exceeded) ;;;
          require (forallb is_field_vchar ext) (parse_error ParseError.malformed_chunk)
      | None => out_ret tt
      end ;;;
      require (negb ((max_chunk_size (rs_limits p) <? n) ||
                     (wrap64 (max_body_size (rs_limits p) - rs_seen p) <? n)))
        (parse_error ParseError.limit_exceeded) ;;;
      on_resp (fun p =>
        set_rs_state (if negb (n =? 0) then RespState.chunk_data else RespState.trailers)
          (set_rs_remaining n p))
  end.

(** The switch of [advance] on a located line: [Some] returns from the function
    (the line is then already consumed), [None] goes on to consume it. *)
Definition resp_on_line (text : bytes) (consumed : nat) : M RS (option ParseStep.t) :=
  let! s := out_get in
  match rs_state s.1 with
  | RespState.start => resp_status_line text ;;; out_ret None
  | RespState.headers =>
      if (length text =? 0)%nat
      then resp_consume consumed ;;; resp_framing ;;; out_ret (Some ParseStep.head)
      else resp_field text false ;;; out_ret None
  | RespState.trailers =>
      if (length text =? 0)%nat
      then resp_consume consumed ;;; on_resp (set_rs_state RespState.done) ;;;
           out_ret (Some ParseStep.complete)
      else resp_field text true ;;; out_ret None
  | RespState.chunk_size => resp_chunk_size text ;;; out_ret None
  | RespState.chunk_end => on_resp (set_rs_state RespState.chunk_size) ;;; out_ret None
  | _ => out_fail (make_error_code Errc.invalid_argument)
  end.

(** The line branch of the loop of [advance]. *)
Definition resp_line_round (eof : bool) : M RS (option ParseStep.t) :=
  let! s := out_get in
  let p := s.1 in
  let! found := lift (resp_line (readable s.2) (line_cap (rs_limits p) (rs_state p))
                        (allow_bare_lf (rs_limits p))) in
  match found with
  | None => if eof then out_fail (make_error_code Errc.eof)
            else out_ret (Some ParseStep.need_more)
  | Some l =>
      let! r := resp_on_line (line_text l) (line_consumed l) in
      match r with
      | Some step => out_ret (Some step)
      | None => resp_consume (line_consumed l) ;;; out_ret None
      end
  end.

(** One round of the loop of [advance]: [None] goes round again. *)
Definition advance_round (eof : bool) : M RS (option ParseStep.t) :=
  let! s := out_get in
  match rs_state s.1 with
  | RespState.done => out_ret (Some ParseStep.complete)
  | RespState.length | RespState.chunk_data | RespState.eof_body =>
      let! step := resp_body_round eof in
      out_ret (Some step)
  | _ => resp_line_round eof
  end.

(** [advance(input, eof)].  Each round that goes on consumes a line, so the
    readable length bounds the rounds. *)
Definition advance (eof : bool) : M RS ParseStep.t :=
  fun s => iter (S (length (readable s.2))) (advance_round eof) s.

(** The start of [parse]: drop the slice handed out last. *)
Definition resp_release : M RS unit :=
  let! s := out_get in
  (if (0 <? rs_pending s.1)%nat
   then resp_consume (rs_pending s.1) ;;; on_resp (set_rs_pending 0)
   else out_ret tt) ;;;
  on_resp (set_rs_body []).

(** [parse(input, eof)]: an error, once met, is returned for ever. *)
Definition resp_parse (eof : bool) : M RS ParseStep.t :=
  let! s := out_get in
  if error_set (rs_error s.1) then out_fail (rs_error s.1)
  else
    resp_release ;;;
    (fun s => match advance eof s with
              | Fails e s' => Fails e (set_rs_error e s'.1, s'.2)
              | r => r
              end).
End RespParser.
