(* ===== verification/ResponseParserInv.v ===== *)
(** * ResponseParserInv: invariant, totality and errors of the response parser *)

From S2P Require Import Prelude Numerals Errors Buffer Grammar Message Lines RequestParser RequestFraming.
From S2P Require Import RequestParserInv ResponseParser.

Local Open Scope Z_scope.
Local Open Scope mira_scope.

(** ** What the framing of a response must satisfy *)

Definition has_te (r : Response) : bool :=
  HeaderMap.contains (lit "Transfer-Encoding") (res_headers r).
Definition has_cl (r : Response) : bool :=
  HeaderMap.contains (lit "Content-Length") (res_headers r).

(** Every item of every Content-Length field, empty ones included. *)
Definition length_items (r : Response) : list bytes :=
  List.concat (map (fun v => map trim_ows (split_commas v))
                 (HeaderMap.get_all (lit "Content-Length") (res_headers r))).

Definition response_bodyless (m : Method.t) (r : Response) : bool :=
  Method.eqb m Method.head || status_forbids_body (res_status r).

(** What the head of the answer to a request with method [m] satisfies, whatever
    the body kind: no conflict, no tunnel, no framing where there cannot be a
    body, lengths that all read as the recorded one, and only one coding. *)
Definition response_head_ok (m : Method.t) (r : Response) : Prop :=
  has_te r && has_cl r = false /\
  res_status r <> 101 /\ (m = Method.connect -> ~ 200 <= res_status r < 300) /\
  (res_status r < 200 \/ res_status r = 204 -> has_te r = false /\ has_cl r = false) /\
  (has_cl r = true -> length_items r <> [] /\
     Forall (fun i => parse_decimal i = Some (res_content_length r)) (length_items r)) /\
  (has_te r = true -> res_version r = Version.http_1_1 /\
     exists v, HeaderMap.get_all (lit "Transfer-Encoding") (res_headers r) = [v] /\
               names_equal v (lit "chunked") = true).

(** The body kind given to a response, and what it rests on. *)
Definition response_framing (m : Method.t) (r : Response) (max_body : Z) : Prop :=
  response_head_ok m r /\
  match res_body_kind r with
  | BodyKind.none => response_bodyless m r = true
  | BodyKind.chunked => response_bodyless m r = false /\ has_te r = true
  | BodyKind.length =>
      response_bodyless m r = false /\ has_cl r = true /\ res_content_length r <= max_body
  | BodyKind.close_delimited => response_bodyless m r = false /\ has_te r = false /\ has_cl r = false
  end.

(** ** The invariant *)

Definition resp_trailer_ok (f : HeaderMap.entry) : Prop :=
  field_ok f /\ forbidden_trailer f.1 = false.

Definition resp_body_inv (p : ResponseParser) : Prop :=
  let k := res_body_kind (rs_response p) in
  let n := res_content_length (rs_response p) in
  0 <= rs_seen p <= max_body_size (rs_limits p) /\
  match rs_state p with
  | RespState.start | RespState.headers => rs_seen p = 0
  | RespState.length =>
      k = BodyKind.length /\ 0 < rs_remaining p /\ rs_seen p + rs_remaining p = n
  | RespState.chunk_size | RespState.chunk_end | RespState.trailers => k = BodyKind.chunked
  | RespState.chunk_data =>
      k = BodyKind.chunked /\ 0 < rs_remaining p /\
      rs_seen p + rs_remaining p <= max_body_size (rs_limits p)
  | RespState.eof_body => k = BodyKind.close_delimited
  | RespState.done => (k = BodyKind.length -> rs_seen p = n) /\ (k = BodyKind.none -> rs_seen p = 0)
  end.

Definition resp_framing_inv (p : ResponseParser) : Prop :=
  match rs_state p with
  | RespState.start | RespState.headers => True
  | _ => response_framing (rs_method p) (rs_response p) (max_body_size (rs_limits p))
  end.

Record resp_inv (p : ResponseParser) : Prop := {
  rinv_limits : limits_in_range (rs_limits p);
  rinv_fields : Forall field_ok (res_headers (rs_response p));
  rinv_trailers : Forall resp_trailer_ok (rs_trailers p);
  rinv_count : HeaderMap.size (res_headers (rs_response p)) + HeaderMap.size (rs_trailers p)
               <= max_header_count (rs_limits p);
  rinv_bytes : fields_bytes (res_headers (rs_response p)) + fields_bytes (rs_trailers p)
               <= rs_header_bytes p <= max_headers_total (rs_limits p);
  rinv_body : resp_body_inv p;
  rinv_framing : resp_framing_inv p;
}.

Definition resp_no_slice (p : ResponseParser) : Prop := rs_pending p = 0%nat /\ rs_body p = [].

(** The errors a response can be refused with. *)
Definition resp_error (eof : bool) (e : Error) : Prop :=
  http_error e \/ e = make_error_code Errc.not_supported \/
  (eof = true /\ e = make_error_code Errc.eof).

(** ** Content-Length values *)

(** The loops agree with the request parser's agreement over the same items,
    empty items kept. *)
Lemma agree_lengths_app l1 l2 agreed :
  agree_lengths (l1 ++ l2) agreed =
  match agree_lengths l1 agreed with Ok a => agree_lengths l2 a | Fail e => Fail e end.
Proof.
  revert agreed; induction l1 as [|i l1 IH]; intros agreed; simpl; [done|].
  destruct (parse_decimal i) as [v|]; [|done].
  destruct agreed as [a|]; [|apply IH]. by destruct (negb (a =? v)).
Qed.

Lemma length_value_loop_items fuel value agreed :
  (length value < fuel)%nat ->
  length_value_loop fuel value agreed = agree_lengths (map trim_ows (split_commas value)) agreed.
Proof.
  revert value agreed; induction fuel as [|k IH]; intros value agreed Hf; [lia|]. simpl.
  change (number ?t 10) with (parse_decimal t).
  destruct (find COMMA value) as [i|] eqn:E.
  - rewrite (split_commas_some _ _ E). simpl.
    destruct (parse_decimal _) as [n|]; [|done].
    rewrite IH by (apply find_lt in E; rewrite length_drop; lia).
    destruct agreed as [a|]; [|done]. by destruct (negb (a =? n)).
  - rewrite (split_commas_none _ E). simpl.
    destruct (parse_decimal _) as [n|]; [|done].
    destruct agreed as [a|]; [|done]. by destruct (negb (a =? n)).
Qed.

Lemma length_values_items values agreed :
  length_values values agreed =
  agree_lengths (List.concat (map (fun v => map trim_ows (split_commas v)) values)) agreed.
Proof.
  revert agreed; induction values as [|v values IH]; intros agreed; [done|].
  cbn [length_values map List.concat]. rewrite length_value_loop_items, agree_lengths_app by lia.
  by destruct (agree_lengths _ agreed).
Qed.

Lemma split_commas_nonempty l : split_commas l <> [].
Proof. destruct l as [|b l]; simpl; [done|]. repeat case_match; done. Qed.

(** Present Content-Length fields that agree give a length. *)
Lemma length_values_some r o :
  has_cl r = true ->
  length_values (HeaderMap.get_all (lit "Content-Length") (res_headers r)) None = Ok o ->
  exists n, o = Some n /\ length_items r <> [] /\
    Forall (fun i => parse_decimal i = Some n) (length_items r).
Proof.
  intros Hcl. rewrite length_values_items. fold (length_items r). rewrite agree_lengths_ok.
  assert (length_items r <> []) as Hne.
  { unfold has_cl in Hcl. unfold length_items.
    destruct (HeaderMap.get_all _ _) as [|v vs] eqn:E.
    { apply contains_false in E. congruence. }
    simpl. pose proof (split_commas_nonempty v). by destruct (split_commas v). }
  destruct (length_items r); [done|]. intros (n & -> & Hall & _). by exists n.
Qed.

(** ** Lines *)

(** The bytes of an unfinished line: a trailing CR may be its terminator. *)
Definition unfinished_size (text : bytes) : Z :=
  len text - (if bool_decide (last text = Some CR) then 1 else 0).

(** The response parser's [line] is the request parser's with the bound on the
    text tested in the same place. *)
Lemma resp_line_next text limit bare :
  resp_line text limit bare =
  match next_line text bare with
  | Ok None => if limit <? unfinished_size text
               then Fail (parse_error ParseError.limit_exceeded) else Ok None
  | Ok (Some l) => if limit <? len (line_text l)
                   then Fail (parse_error ParseError.limit_exceeded) else Ok (Some l)
  | Fail e => Fail e
  end.
Proof.
  unfold resp_line, next_line. destruct (find LF text) as [lf|]; [|done].
  destruct (lf =? 0)%nat eqn:E; bool_facts.
  - subst lf. simpl. destruct bare; [|done]. by rewrite take_0.
  - assert ((0 <? lf)%nat = true) as -> by (apply Nat.ltb_lt; lia). cbn [andb].
    destruct (bool_decide _); cbn [negb andb].
    + by destruct (find CR _).
    + rewrite Nat.sub_0_r. destruct (negb bare); [done|]. by destruct (find CR _).
Qed.

Lemma resp_line_some text limit bare l :
  resp_line text limit bare = Ok (Some l) ->
  next_line text bare = Ok (Some l) /\ len (line_text l) <= limit.
Proof.
  rewrite resp_line_next. destruct (next_line text bare) as [[l'|]|e]; [|by case_match|done].
  case_match; intros; simplify_eq. bool_facts. done.
Qed.

Lemma resp_line_none text limit bare :
  resp_line text limit bare = Ok None -> LF ∉ text.
Proof.
  rewrite resp_line_next. destruct (next_line text bare) as [[l'|]|e] eqn:E; [by case_match| |done].
  intros _. by apply (next_line_need_more _ bare).
Qed.

Lemma resp_line_fail text limit bare e : resp_line text limit bare = Fail e -> http_error e.
Proof.
  rewrite resp_line_next. destruct (next_line text bare) as [[l'|]|e'] eqn:E.
  - case_match; intros; simplify_eq; apply http_error_intro.
  - case_match; intros; simplify_eq; apply http_error_intro.
  - intros [= <-]. apply next_line_errors in E as ->. apply http_error_intro.
Qed.

(** ** Methods *)

Lemma wp_modify {S} (f : S -> S) s (Q : unit -> S -> Prop) (R : Error -> S -> Prop) :
  Q tt (f s) -> wp (out_modify f) s Q R.
Proof. done. Qed.

Lemma wp_fail {S A} (e : Error) (s : S) (Q : A -> S -> Prop) (R : Error -> S -> Prop) :
  R e s -> wp (out_fail e) s Q R.
Proof. done. Qed.

Lemma wp_out_get {S A} (k : S -> M S A) s Q R : wp (k s) s Q R -> wp (out_bind out_get k) s Q R.
Proof. done. Qed.

Ltac rwp_step :=
  lazymatch goal with
  | |- wp (out_bind out_get _) _ _ _ => apply wp_out_get
  | |- wp (out_bind _ _) _ _ _ => apply wp_bind
  | |- wp (lift _) _ _ _ => apply wp_lift; split_match
  | |- wp (require _ _) _ _ _ => apply wp_require; intros ?
  | |- wp (out_ret _) _ _ _ => apply wp_ret
  | |- wp (out_fail _) _ _ _ => apply wp_fail
  | |- wp (refuse _) _ _ _ => apply wp_fail
  | |- wp (on_resp _) _ _ _ => apply wp_modify
  | |- wp (resp_consume _) _ _ _ => apply wp_modify
  | |- wp (match ?x with _ => _ end) _ _ _ => destruct x eqn:?
  end; cbv beta zeta; cbn [fst snd].
Ltac rwp_steps := repeat rwp_step.

Lemma resp_error_http eof pe : resp_error eof (parse_error pe).
Proof. left. apply http_error_intro. Qed.

#[export] Hint Resolve resp_error_http : mira.

Section RespMethods.
Context {B : Type} `{ReadBuffer B, !ReadBufferLaws B}.
Implicit Types (p : ResponseParser) (b : B).

Lemma resp_range p :
  resp_inv p ->
  0 <= rs_seen p <= max_body_size (rs_limits p) /\ max_body_size (rs_limits p) <= UINT64_MAX /\
  0 <= rs_header_bytes p <= max_headers_total (rs_limits p) /\
  max_headers_total (rs_limits p) <= UINT64_MAX.
Proof.
  intros [Hr _ _ _ Hb [Hs _] _]. unfold limits_in_range in Hr. rewrite !Forall_cons in Hr.
  pose proof (fields_bytes_nonneg (res_headers (rs_response p))).
  pose proof (fields_bytes_nonneg (rs_trailers p)). lia.
Qed.

(** A field within the bounds can be stored. *)
Definition store_field (trailer : bool) (name value : bytes) (n : Z) p : ResponseParser :=
  let p := set_rs_header_bytes (wrap64 (rs_header_bytes p + n)) p in
  if trailer then set_rs_trailers (HeaderMap.append name value (rs_trailers p)) p
  else set_res_headers (HeaderMap.append name value (res_headers (rs_response p))) p.

Lemma resp_store_inv p (trailer : bool) name value n :
  resp_inv p -> rs_state p = (if trailer then RespState.trailers else RespState.headers) ->
  field_ok (name, value) -> trailer && forbidden_trailer name = false ->
  len name + 1 + len value <= n -> n <= max_headers_total (rs_limits p) - rs_header_bytes p ->
  HeaderMap.size (res_headers (rs_response p)) + HeaderMap.size (rs_trailers p)
    < max_header_count (rs_limits p) ->
  resp_inv (store_field trailer name value n p).
Proof.
  intros Hinv Hst Hok Hforb Hlen Hfit Hcount. pose proof (resp_range p Hinv).
  pose proof (len_nonneg name). pose proof (len_nonneg value).
  destruct Hinv as [Hr Hf Ht Hc Hb Hbody Hfr]. unfold store_field.
  rewrite wrap64_small by lia. destruct trailer; simpl in Hforb.
  - constructor; simpl; unfold HeaderMap.append; rewrite ?size_app, ?fields_bytes_app; try done; try lia.
    + apply Forall_app. split; [done|]. apply Forall_singleton. by split.
    + simpl. lia.
  - constructor; simpl; unfold HeaderMap.append; rewrite ?size_app, ?fields_bytes_app; try done; try lia.
    + apply Forall_app. split; [done|]. by apply Forall_singleton.
    + simpl. lia.
    + unfold resp_framing_inv. simpl. by rewrite Hst.
Qed.

(** The lines of a header or trailer section. *)
Lemma resp_field_wp (text : bytes) (trailer : bool) p b eof :
  resp_inv p -> rs_state p = (if trailer then RespState.trailers else RespState.headers) ->
  wp (resp_field text trailer) (p, b)
    (fun _ s' => resp_inv s'.1 /\ rs_state s'.1 = rs_state p /\ s'.2 = b /\
       rs_pending s'.1 = rs_pending p /\ rs_body s'.1 = rs_body p)
    (fun e _ => resp_error eof e).
Proof.
  intros Hinv Hst. unfold resp_field. rwp_steps; auto with mira.
  pose proof (resp_range p Hinv). bool_facts. rewrite wrap64_small in * by lia.
  split; [|by destruct trailer].
  match goal with Hc : find COLON text = Some (S ?n) |- _ =>
    pose proof (field_line_len _ _ Hc); pose proof (find_lt _ _ _ Hc);
    apply (resp_store_inv p trailer (take (S n) text) (trim_ows (drop (S n + 1) text)) (len text))
  end; try done.
  split_and!; [apply take_nonempty; lia|done|done|apply trim_ows_no_outer].
Qed.

(** Leaving the header section: the framing fields, the state and the remaining
    length change, nothing else. *)
Lemma resp_inv_head p p' :
  resp_inv p -> rs_limits p' = rs_limits p ->
  res_headers (rs_response p') = res_headers (rs_response p) ->
  rs_trailers p' = rs_trailers p -> rs_header_bytes p' = rs_header_bytes p ->
  resp_body_inv p' -> resp_framing_inv p' -> resp_inv p'.
Proof. intros [] Hl Hh Ht Hb Hi Hf. by constructor; rewrite ?Hl, ?Hh, ?Ht, ?Hb. Qed.

(** The tests before the assignments. *)
Lemma te_tests r :
  has_te r &&
  (Version.eqb (res_version r) Version.http_1_0
   || negb (HeaderMap.count (lit "Transfer-Encoding") (res_headers r) =? 1)%nat
   || negb (match HeaderMap.get (lit "Transfer-Encoding") (res_headers r) with
            | Some v => names_equal v (lit "chunked")
            | None => false
            end)) = false ->
  has_te r = true -> res_version r = Version.http_1_1 /\
     exists v, HeaderMap.get_all (lit "Transfer-Encoding") (res_headers r) = [v] /\
               names_equal v (lit "chunked") = true.
Proof.
  intros Ht Hte. rewrite Hte in Ht. simpl in Ht. bool_facts. split.
  - unfold Version.eqb in *. case_bool_decide; [done|]. by destruct (res_version r).
  - rewrite <- get_all_length in *.
    assert (forall h, HeaderMap.get (lit "Transfer-Encoding") h =
      head (HeaderMap.get_all (lit "Transfer-Encoding") h)) as Hg.
    { intros h. induction h as [|[n v] h IH]; simpl; [done|]. by destruct (names_equal n _). }
    rewrite Hg in *. destruct (HeaderMap.get_all _ _) as [|v [|? ?]]; simpl in *; try lia.
    by exists v.
Qed.

Lemma head_ok_intro p length r' :
  let r := rs_response p in
  negb (has_te r && has_cl r) = true ->
  negb ((res_status r =? 101) ||
        (Method.eqb (rs_method p) Method.connect && (200 <=? res_status r) && (res_status r <? 300)))
    = true ->
  (if has_cl r then length_values (HeaderMap.get_all (lit "Content-Length") (res_headers r)) None
   else Ok None) = Ok length ->
  negb (has_te r &&
    (Version.eqb (res_version r) Version.http_1_0
     || negb (HeaderMap.count (lit "Transfer-Encoding") (res_headers r) =? 1)%nat
     || negb (match HeaderMap.get (lit "Transfer-Encoding") (res_headers r) with
              | Some v => names_equal v (lit "chunked")
              | None => false
              end))) = true ->
  negb (((res_status r <? 200) || (res_status r =? 204)) && (has_te r || has_cl r)) = true ->
  res_status r' = res_status r -> res_headers r' = res_headers r -> res_version r' = res_version r ->
  res_content_length r' = match length with Some n => n | None => res_content_length r end ->
  response_head_ok (rs_method p) r' /\ (is_Some length <-> has_cl r' = true).
Proof.
  intros r T1 T2 Hl T3 T4 Hst Hh Hv Hn. unfold response_head_ok, length_items, has_te, has_cl.
  rewrite Hst, Hh, Hv, Hn. fold (has_te r) (has_cl r). fold (length_items r).
  apply negb_true_iff in T1, T2, T3, T4. pose proof (te_tests r T3) as Hte.
  unfold Method.eqb in T2. clear T3 Hst Hh Hv Hn.
  destruct (has_cl r) eqn:Hcl.
  - destruct (length_values_some r _ Hcl Hl) as (n & -> & Hne & Hall).
    split; [|done]. split_and!; try done.
    + intros E. by rewrite E in T2.
    + intros E. rewrite (bool_decide_true _ E) in T2. bool_facts. lia.
    + intros Hs. destruct (has_te r); [done|]. bool_facts; lia.
  - simplify_eq. split; [|split; [by intros []|done]]. split_and!; try done.
    + intros E. by rewrite E in T2.
    + intros E. rewrite (bool_decide_true _ E) in T2. bool_facts. lia.
    + intros Hs. destruct (has_te r); [|done]. bool_facts; lia.
Qed.

Lemma lift_if {S A} (c : bool) (r : Result A) (a : A) :
  (if c then lift (S := S) r else out_ret a) = lift (if c then r else Ok a).
Proof. by destruct c. Qed.

Lemma parse_decimal_nonneg items n :
  items <> [] -> Forall (fun i => parse_decimal i = Some n) items -> 0 <= n.
Proof.
  destruct items; [done|]. intros _ Hall%Forall_inv%parse_integer_range; lia.
Qed.

(** The state entered after the head, for each body kind. *)
Lemma enter_resp_body_inv p p' :
  resp_inv p -> rs_seen p' = 0 -> rs_limits p' = rs_limits p ->
  res_headers (rs_response p') = res_headers (rs_response p) ->
  rs_trailers p' = rs_trailers p -> rs_header_bytes p' = rs_header_bytes p ->
  response_framing (rs_method p') (rs_response p') (max_body_size (rs_limits p')) ->
  match res_body_kind (rs_response p') with
  | BodyKind.none => rs_state p' = RespState.done
  | BodyKind.chunked => rs_state p' = RespState.chunk_size
  | BodyKind.close_delimited => rs_state p' = RespState.eof_body
  | BodyKind.length =>
      rs_remaining p' = res_content_length (rs_response p') /\
      rs_state p' = if negb (rs_remaining p' =? 0) then RespState.length else RespState.done
  end ->
  resp_inv p'.
Proof.
  intros Hinv Hs Hl Hh Ht Hb Hf Hk. pose proof (resp_range p Hinv).
  apply (resp_inv_head p); try done.
  - unfold resp_body_inv. rewrite Hs, Hl. split; [lia|].
    destruct (res_body_kind (rs_response p')) eqn:Ek.
    + rewrite Hk. done.
    + destruct Hk as [Hr ->]. destruct (rs_remaining p' =? 0) eqn:E; simpl; bool_facts.
      * split; [lia|done].
      * unfold response_framing in Hf. rewrite Ek in Hf.
        destruct Hf as [(_ & _ & _ & _ & Hc & _) (_ & Hcl & _)].
        destruct (Hc Hcl) as [Hne Hall]. pose proof (parse_decimal_nonneg _ _ Hne Hall).
        split_and!; [done|lia|lia].
    + by rewrite Hk.
    + by rewrite Hk.
  - unfold resp_framing_inv. by destruct (rs_state p').
Qed.

Lemma resp_framing_wp p b eof :
  resp_inv p -> rs_state p = RespState.headers -> resp_no_slice p ->
  wp resp_framing (p, b)
    (fun _ s' => resp_inv s'.1 /\ s'.2 = b /\ resp_no_slice s'.1 /\
       rs_state s'.1 <> RespState.start /\ rs_state s'.1 <> RespState.headers)
    (fun e _ => resp_error eof e).
Proof.
  intros Hinv Hst Hsl.
  assert (rs_seen p = 0) as Hseen.
  { pose proof (rinv_body _ Hinv) as [_ Hb]. by rewrite Hst in Hb. }
  unfold resp_framing. rwp_step. rewrite lift_if. fold (has_te (rs_response p)) (has_cl (rs_response p)).
  rwp_steps; auto with mira.
  all: try (left; destruct (has_cl (rs_response p)); [|done];
            rewrite length_values_items in *; by eapply agree_lengths_errors).
  all: try (by right; left).
  all: lazymatch goal with Hl : _ = Ok ?o |- resp_inv ?q /\ _ =>
    assert (response_head_ok (rs_method p) (rs_response q) /\ (is_Some o <-> has_cl (rs_response q) = true))
      as [Hok Hcl] by (apply (head_ok_intro p o); first
        [ assumption | done | by destruct o
        | match goal with E : has_te _ = _ |- _ => rewrite E; assumption end ])
    end.
  all: split; [apply (enter_resp_body_inv p); try done; try (by destruct a); try (split; [exact Hok|])
        |split; [done|split; [exact Hsl || (destruct a; exact Hsl)|]]].
  all: try (simpl; try destruct (_ =? 0); split; discriminate).
  - split; [assumption|]. split; [apply Hcl; by eexists|]. simpl. bool_facts. done.
  - split; [assumption|]. split; [assumption|]. destruct (has_cl _) eqn:E; [|done].
    destruct (proj2 Hcl); done.
Qed.

(** What [parse] promises with each step it returns. *)
Definition resp_step_post (eof : bool) (step : ParseStep.t) (s' : RS (B := B)) : Prop :=
  match step with
  | ParseStep.need_more => resp_no_slice s'.1 /\ eof = false /\ (LF ∉ readable s'.2)
  | ParseStep.head =>
      resp_no_slice s'.1 /\
      response_framing (rs_method s'.1) (rs_response s'.1) (max_body_size (rs_limits s'.1))
  | ParseStep.body =>
      rs_body s'.1 = take (rs_pending s'.1) (readable s'.2) /\
      length (rs_body s'.1) = rs_pending s'.1 /\ (0 < rs_pending s'.1)%nat
  | ParseStep.complete => resp_no_slice s'.1 /\ rs_state s'.1 = RespState.done
  end.

Lemma resp_slice_bounds k (l : bytes) :
  0 < k -> k <= len l -> length (take (Z.to_nat k) l) = Z.to_nat k.
Proof. intros. unfold len in *. rewrite length_take. lia. Qed.

Lemma resp_body_round_wp p b eof :
  resp_inv p -> resp_no_slice p ->
  match rs_state p with
  | RespState.length | RespState.chunk_data | RespState.eof_body => True
  | _ => False
  end ->
  wp (resp_body_round eof) (p, b)
    (fun step s' => resp_inv s'.1 /\ resp_step_post eof step s') (fun e _ => resp_error eof e).
Proof.
  intros Hinv Hsl Hst. pose proof (resp_range p Hinv) as Hrange.
  pose proof (rinv_body _ Hinv) as [Hs Hb]. pose proof (rinv_framing _ Hinv) as Hf.
  unfold resp_framing_inv in Hf.
  unfold resp_body_round. rwp_step.
  assert (forall k, 0 < k -> k <= len (readable b) -> rs_seen p + k <= max_body_size (rs_limits p) ->
    wrap64 (rs_seen p + k) = rs_seen p + k /\ length (take (Z.to_nat k) (readable b)) = Z.to_nat k /\
    (0 < Z.to_nat k)%nat) as Hk.
  { intros k ? ? ?. rewrite wrap64_small by lia. by rewrite resp_slice_bounds by lia; lia. }
  destruct (rs_state p) eqn:E; try done; rwp_steps; auto with mira.
  all: try (by right; right).
  all: try (split; [done|]; split; [done|]; bool_facts; split; [done|]; simpl;
            destruct (readable b); [apply not_elem_of_nil|done]).
  all: try (match goal with Hx : ?e && false = true |- _ => by destruct e end).
  all: try match goal with Hx : (length ?l =? 0)%nat = false |- _ =>
    apply Nat.eqb_neq in Hx; bool_facts; rewrite (wrap64_small (max_body_size _ - _)) in * by lia;
    assert (0 < len l) by (unfold len; lia) end.
  - destruct Hb as (Hkind & Hrem & Heq).
    assert (res_content_length (rs_response p) <= max_body_size (rs_limits p)) as Hmax.
    { destruct Hf as [_ Hf]. rewrite Hkind in Hf. apply Hf. }
    remember (Z.min (rs_remaining p) (len (readable b))) as k eqn:Ekk.
    destruct (Hk k) as (Hw & Hlen & Hpos); [lia..|]. rewrite Hw. clear Hw. simpl.
    rewrite E, wrap64_small by lia. split; [|split_and!; destruct (_ =? 0); done].
    apply (resp_inv_head p); try done; destruct (rs_remaining p - k =? 0) eqn:Ez; bool_facts; try done.
    all: unfold resp_body_inv, resp_framing_inv; simpl; rewrite ?E; try exact Hf.
    all: split; [lia|]; split_and?; intros; done || lia || congruence.
  - destruct Hb as (Hkind & Hrem & Heq). remember (Z.min (rs_remaining p) (len (readable b))) as k eqn:Ekk.
    destruct (Hk k) as (Hw & Hlen & Hpos); [lia..|]. rewrite Hw. clear Hw. simpl.
    rewrite E, wrap64_small by lia. split; [|split_and!; destruct (_ =? 0); done].
    apply (resp_inv_head p); try done; destruct (rs_remaining p - k =? 0) eqn:Ez; bool_facts; try done.
    all: unfold resp_body_inv, resp_framing_inv; simpl; rewrite ?E; try exact Hf.
    all: split; [lia|]; split_and?; intros; done || lia || congruence.
  - split; [|done]. apply (resp_inv_head p); try done.
    unfold resp_body_inv. simpl. rewrite Hb. done.
  - destruct (Hk (len (readable b))) as (Hw & Hlen & Hpos); [lia..|]. rewrite Hw. clear Hw.
    split; [|done]. apply (resp_inv_head p); try done.
    + unfold resp_body_inv. simpl. rewrite E. split; [lia|done].
    + unfold resp_framing_inv. simpl. by rewrite E.
Qed.

Lemma resp_status_line_wp text p b eof :
  resp_inv p -> rs_state p = RespState.start -> resp_no_slice p ->
  wp (resp_status_line text) (p, b)
    (fun _ s' => resp_inv s'.1 /\ resp_no_slice s'.1 /\ s'.2 = b) (fun e _ => resp_error eof e).
Proof.
  intros Hinv Hst Hsl. pose proof (rinv_body _ Hinv) as [Hs Hb]. rewrite Hst in Hb.
  unfold resp_status_line. rwp_steps; auto with mira.
  all: split; [|by split]; by apply (resp_inv_head p).
Qed.

Lemma resp_chunk_size_wp text p b eof :
  resp_inv p -> rs_state p = RespState.chunk_size -> resp_no_slice p ->
  wp (resp_chunk_size text) (p, b)
    (fun _ s' => resp_inv s'.1 /\ resp_no_slice s'.1 /\ s'.2 = b) (fun e _ => resp_error eof e).
Proof.
  intros Hinv Hst Hsl. pose proof (resp_range p Hinv) as Hrange.
  pose proof (rinv_body _ Hinv) as [Hs Hb]. pose proof (rinv_framing _ Hinv) as Hf.
  unfold resp_framing_inv in Hf. rewrite Hst in Hb, Hf.
  unfold resp_chunk_size. rwp_steps; auto with mira.
  all: match goal with Hn : number _ 16 = Some ?n |- _ =>
    pose proof (parse_integer_range _ 16 _ ltac:(lia) Hn) end.
  all: bool_facts; rewrite wrap64_small in * by lia; split; [|by split].
  all: apply (resp_inv_head p); try done.
  all: unfold resp_body_inv, resp_framing_inv; simpl; destruct (_ =? 0) eqn:Ez; simpl; try exact Hf.
  all: bool_facts; split; [lia|]; split_and?; done || lia.
Qed.

Definition resp_on_line_post p b (consumed : nat) eof (r : option ParseStep.t) (s' : RS) : Prop :=
  resp_inv s'.1 /\ resp_no_slice s'.1 /\
  match r with
  | None => s'.2 = b
  | Some step => resp_step_post eof step s' /\ s'.2 = consume consumed b
  end.

Lemma resp_on_line_wp text consumed p b eof :
  resp_inv p -> resp_no_slice p ->
  match rs_state p with
  | RespState.length | RespState.chunk_data | RespState.eof_body | RespState.done => False
  | _ => True
  end ->
  wp (resp_on_line text consumed) (p, b) (resp_on_line_post p b consumed eof)
    (fun e _ => resp_error eof e).
Proof.
  intros Hinv Hsl Hst. unfold resp_on_line. rwp_step. destruct (rs_state p) eqn:E; try done.
  - rwp_step. eapply wp_mono; [by apply (resp_status_line_wp _ _ _ eof)| |done].
    intros [] s' (? & ? & ?). by rwp_steps.
  - rwp_step; [|rwp_step; eapply wp_mono; [by apply (resp_field_wp _ false _ _ eof)| |done]].
    + do 3 rwp_step. eapply wp_mono; [by apply (resp_framing_wp _ _ eof)| |done].
      intros [] s' (Hi & Hb & Hn & H1 & H2). rwp_steps. split_and!; try done.
      pose proof (rinv_framing _ Hi) as Hf. unfold resp_framing_inv in Hf.
      by destruct (rs_state s'.1).
    + intros [] s' (Hi & Hs & Hb & Hp & Hbd). rwp_steps. destruct Hsl.
      split_and!; try done; split; congruence.
  - by rwp_step; eapply wp_mono; [by apply (resp_chunk_size_wp _ _ _ eof)| |done];
      intros [] s' (? & ? & ?); rwp_steps.
  - pose proof (rinv_body _ Hinv) as [Hs Hb]. pose proof (rinv_framing _ Hinv) as Hf.
    unfold resp_framing_inv in Hf. rewrite E in Hb, Hf.
    rwp_steps. split_and!; try done. apply (resp_inv_head p); try done.
  - pose proof (rinv_body _ Hinv) as [Hs Hb]. pose proof (rinv_framing _ Hinv) as Hf.
    unfold resp_framing_inv in Hf. rewrite E in Hb, Hf.
    rwp_step; [|rwp_step; eapply wp_mono; [by apply (resp_field_wp _ true _ _ eof)| |done]].
    + rwp_steps. split_and!; try done. apply (resp_inv_head p); try done.
      unfold resp_body_inv. simpl. rewrite Hb. done.
    + intros [] s' (Hi & Hst' & Hb' & Hp & Hbd). rwp_steps. destruct Hsl.
      split_and!; try done; split; congruence.
Qed.

(** What a round leaves: a step that keeps its promise, or a shorter input. *)
Definition resp_round_post eof b (o : option ParseStep.t) (s' : RS) : Prop :=
  match o with
  | Some step => resp_inv s'.1 /\ resp_step_post eof step s'
  | None => (resp_inv s'.1 /\ resp_no_slice s'.1) /\
            (length (readable s'.2) < length (readable b))%nat
  end.

Lemma resp_line_round_wp p b eof :
  resp_inv p -> resp_no_slice p ->
  match rs_state p with
  | RespState.length | RespState.chunk_data | RespState.eof_body | RespState.done => False
  | _ => True
  end ->
  wp (resp_line_round eof) (p, b) (resp_round_post eof b) (fun e _ => resp_error eof e).
Proof.
  intros Hinv Hsl Hst. unfold resp_line_round. do 2 rwp_step. apply wp_lift. cbn [fst snd].
  destruct (resp_line _ _ _) as [[l|]|e] eqn:Hl; [| |left; by eapply resp_line_fail].
  - rwp_step. apply resp_line_some in Hl as [Hl _]. apply next_line_consumed in Hl.
    eapply wp_mono; [by apply (resp_on_line_wp _ _ _ _ eof)| |done].
    intros [step|] s' (Hi & Hn & Hr); rwp_steps; [by split; [|apply Hr]|].
    split; [done|]. simpl. rewrite Hr, readable_consume, length_drop. lia.
  - destruct eof; rwp_steps; [by right; right|]. split; [done|]. split; [done|]. split; [done|].
    by eapply resp_line_none.
Qed.

Lemma advance_round_wp s eof :
  resp_inv s.1 -> resp_no_slice s.1 ->
  wp (advance_round eof) s (resp_round_post eof s.2) (fun e _ => resp_error eof e).
Proof.
  destruct s as [p b]. simpl. intros Hinv Hsl. unfold advance_round. rwp_step.
  assert (wp (let! step := resp_body_round eof in out_ret (Some step)) (p, b)
            (resp_round_post eof b) (fun e _ => resp_error eof e) \/
          match rs_state p with
          | RespState.length | RespState.chunk_data | RespState.eof_body => False
          | _ => True
          end) as Hbody.
  { destruct (rs_state p) eqn:E; try (by right); left.
    all: rwp_step; eapply wp_mono; [apply (resp_body_round_wp p b eof); [done|done|by rewrite E]| |done].
    all: by intros step s' ?; rwp_steps. }
  pose proof (resp_line_round_wp p b eof Hinv Hsl) as Hline.
  destruct (rs_state p) eqn:E; try (by destruct Hbody); try (by apply Hline).
Qed.

Lemma advance_wp s eof :
  resp_inv s.1 -> resp_no_slice s.1 ->
  wp (advance eof) s (fun step s' => resp_inv s'.1 /\ resp_step_post eof step s')
    (fun e _ => resp_error eof e).
Proof.
  intros Hinv Hsl. apply (iter_wp (advance_round eof)
    (fun s' => resp_inv s'.1 /\ resp_no_slice s'.1) (fun s' => length (readable s'.2)));
    [|done|lia].
  intros s' [Hi Hn]. eapply wp_mono; [by apply advance_round_wp| |done].
  by intros [step|] s''.
Qed.
End RespMethods.

(** ** The theorems *)

Lemma make_response_parser_inv m l : limits_in_range l -> resp_inv (make_response_parser m l).
Proof.
  intros Hr. pose proof Hr as Hr'. unfold limits_in_range in Hr'. rewrite !Forall_cons in Hr'.
  constructor; simpl; unfold HeaderMap.size, resp_body_inv, resp_framing_inv; simpl;
    split_and?; done || lia.
Qed.

Lemma resp_released_inv {B} `{ReadBuffer B} (p : ResponseParser) (b : B) :
  resp_inv p ->
  wp resp_release (p, b) (fun _ s' => resp_inv s'.1 /\ resp_no_slice s'.1) (fun _ _ => False).
Proof.
  intros Hinv. unfold resp_release. rwp_steps; bool_facts.
  all: split; [by apply (resp_inv_head p); destruct Hinv|split; simpl; done || lia].
Qed.

Lemma resp_error_set eof e : resp_error eof e -> error_set e = true.
Proof. by intros [[[] ->]|[->|[_ ->]]]. Qed.

Lemma resp_parse_spec {B} `{ReadBuffer B, !ReadBufferLaws B} (p : ResponseParser) (b : B)
    (eof : bool) (Hinv : resp_inv p) (Hok : rs_error p = no_error) :
  match resp_parse eof (p, b) with
  | Returns step s' => resp_inv s'.1 /\ resp_step_post eof step s'
  | Fails e s' =>
      resp_error eof e /\
      forall eof' b', resp_parse eof' (s'.1, b') = Fails (A := ParseStep.t) e (s'.1, b')
  | OutOfFuel => False
  end.
Proof.
  pose proof (resp_released_inv p b Hinv) as Hrel. unfold wp in Hrel.
  unfold resp_parse at 1. unfold out_bind at 1 2, out_get. cbn [fst snd]. rewrite Hok. simpl.
  unfold out_bind. destruct (resp_release (p, b)) as [[] s|e s|]; [|done|done].
  destruct Hrel as [Hi Hn]. pose proof (advance_wp s eof Hi Hn) as Hwp. unfold wp in Hwp.
  destruct (advance eof s) as [step s'|e s'|]; [done| |done].
  split; [done|]. intros eof' b'. unfold resp_parse, out_bind, out_get. simpl.
  by rewrite (resp_error_set eof e).
Qed.

(** C36: on any input, at any point of a response, with any limits the
    fields can hold, [ResponseParser::parse] returns.  Each step keeps the
    invariant (fields and trailers are clean, together within the count and byte
    limits, no framing field in a trailer; the body within its limit) and means
    what it says: [need_more] only before the end of the stream and without a
    complete line; [head] only with a framing its fields, the status and the
    request's method determine; [body] a non-empty slice of the input;
    [complete] only at the end of the message.  A refusal is a parse error,
    [not_supported] for a tunnel, or [eof] when the stream has ended; the parser
    remembers it, and every later call returns it again without touching the
    input. *)
Theorem resp_parse_correct {B} `{ReadBuffer B, !ReadBufferLaws B} (p : ResponseParser) (b : B)
    (eof : bool) (Hinv : resp_inv p) (Hok : rs_error p = no_error) :
  match resp_parse eof (p, b) with
  | Returns step s' => resp_inv s'.1 /\ resp_step_post eof step s'
  | Fails e s' =>
      resp_error eof e /\
      forall eof' b', resp_parse eof' (s'.1, b') = Fails (A := ParseStep.t) e (s'.1, b')
  | OutOfFuel => False
  end.
Proof. by apply resp_parse_spec. Qed.

Definition ok_response : bytes :=
  lit "HTTP/1.1 200 OK" ++ CRLF ++ lit "Content-Length: 2, 2" ++ CRLF ++ CRLF ++ lit "hi".

Lemma resp_parse_correct_witness :
  resp_inv (make_response_parser Method.get default_limits) /\
  exists s', resp_parse false (make_response_parser Method.get default_limits, ok_response) =
               Returns ParseStep.head s' /\
             resp_inv s'.1 /\ readable s'.2 = lit "hi".
Proof.
  pose proof (make_response_parser_inv Method.get default_limits (sane_range _ default_limits_sane))
    as Hi.
  split; [exact Hi|].
  pose proof (resp_parse_correct (make_response_parser Method.get default_limits) ok_response
    false Hi eq_refl) as Hc.
  destruct (resp_parse false (make_response_parser Method.get default_limits, ok_response))
    as [step s'|e s'|] eqn:E; vm_compute in E; try discriminate E.
  exists s'. destruct Hc as [Hp _]. injection E as <- <-. split_and!; [done|exact Hp|done].
Defined.
