(* ===== verification/Serializer.v ===== *)
(** * Serializer: writing HTTP/1.1 heads and chunks
    (http/serializer.hpp, http/src/serializer.cpp)

    The writers append to a buffer.  Their state is the bytes the buffer holds,
    so an error path that has already appended something shows. *)

From S2P Require Import Prelude Numerals Errors Buffer Grammar Message Lines RequestParser ResponseParser.

Local Open Scope Z_scope.
Local Open Scope mira_scope.

Module Framing.
Inductive t :=
| content_length
| chunked
| none.

#[export] Instance eq_dec : EqDecision t.
Proof. solve_decision. Defined.

Definition eqb (a b : t) : bool := bool_decide (a = b).
End Framing.

Module SerializeError.
Inductive t :=
| invalid_header
| framing_conflict
| invalid_status.

Definition value (e : t) : Z :=
  match e with
  | invalid_header => 1
  | framing_conflict => 2
  | invalid_status => 3
  end.

Definition of_value (v : Z) : option t :=
  match v with
  | 1 => Some invalid_header
  | 2 => Some framing_conflict
  | 3 => Some invalid_status
  | _ => None
  end.
End SerializeError.

(** [make_error_code(SerializeError)] *)
Definition serialize_error (e : SerializeError.t) : Error :=
  {| ec_value := SerializeError.value e; ec_category := serialize_category |}.

(** [SerializeCategory::message] *)
Definition serialize_message (value : Z) : bytes :=
  match SerializeError.of_value value with
  | Some SerializeError.invalid_header => lit "header name or value contains forbidden bytes"
  | Some SerializeError.framing_conflict =>
      lit "caller supplied a framing header that the serializer owns"
  | Some SerializeError.invalid_status => lit "status code outside 100..999"
  | None =>
      lit "unknown http serialize error (" ++
      (if value <? 0 then lit "-" ++ to_decimal (- value) else to_decimal value) ++ lit ")"
  end.

(** [append(out, text)] *)
Definition emit (text : bytes) : M bytes unit := out_modify (fun out => out ++ text).

Fixpoint emit_all (texts : list bytes) : M bytes unit :=
  match texts with
  | [] => out_ret tt
  | t :: rest => emit t ;;; emit_all rest
  end.

(** [valid_header_name] *)
Definition valid_header_name (name : bytes) : bool :=
  if (length name =? 0)%nat then false else forallb is_tchar name.

(** [valid_header_value] *)
Definition valid_header_value (value : bytes) : bool := forallb is_field_vchar value.

(** [should_keep_alive]: does a Connection field name the token? *)
Definition mentions (h : HeaderMap.t) (token : bytes) : bool :=
  existsb (fun f : HeaderMap.entry =>
    names_equal f.1 (lit "Connection") &&
    existsb (fun item => names_equal item token) (split_list f.2)) h.

Definition should_keep_alive (req : Request) : bool :=
  if Version.eqb (req_version req) Version.http_1_1
  then negb (mentions (req_headers req) (lit "close"))
  else mentions (req_headers req) (lit "keep-alive") &&
       negb (mentions (req_headers req) (lit "close")).

(** The loop that writes the fields. *)
Definition field_texts (f : HeaderMap.entry) : list bytes := [f.1; lit ": "; f.2; CRLF].

Definition emit_fields (h : HeaderMap.t) : M bytes unit :=
  emit_all (List.concat (map field_texts h)).

Definition write_response_head (res : Response) (framing : Framing.t) (body_size : Z)
    : M bytes unit :=
  require (negb (Version.eqb (res_version res) Version.http_1_0 &&
                 Framing.eqb framing Framing.chunked)) (make_error_code Errc.not_supported) ;;;
  require (negb ((res_status res <? 100) || (999 <? res_status res)))
    (serialize_error SerializeError.invalid_status) ;;;
  require (negb (HeaderMap.contains (lit "Content-Length") (res_headers res) ||
                 HeaderMap.contains (lit "Transfer-Encoding") (res_headers res)))
    (serialize_error SerializeError.framing_conflict) ;;;
  require (forallb (fun f : HeaderMap.entry => valid_header_name f.1 && valid_header_value f.2)
             (res_headers res)) (serialize_error SerializeError.invalid_header) ;;;
  emit (version_to_string (res_version res)) ;;;
  emit (lit " ") ;;;
  emit (to_decimal (res_status res)) ;;;
  emit (lit " ") ;;;
  (if negb (length (res_reason res) =? 0)%nat then
     require (valid_header_value (res_reason res))
       (serialize_error SerializeError.invalid_header) ;;;
     emit (res_reason res)
   else emit (default_reason (res_status res))) ;;;
  emit CRLF ;;;
  emit_fields (res_headers res) ;;;
  (if negb (status_forbids_body (res_status res)) then
     match framing with
     | Framing.content_length =>
         emit (lit "Content-Length: ") ;;; emit (to_decimal body_size) ;;; emit CRLF
     | Framing.chunked => emit (lit "Transfer-Encoding: chunked" ++ CRLF)
     | Framing.none => out_ret tt
     end
   else out_ret tt) ;;;
  emit CRLF.

(** ** The Host field of a request *)

(** [text.starts_with(pat)] *)
Fixpoint starts_with (pat text : bytes) : bool :=
  match pat, text with
  | [], _ => true
  | _, [] => false
  | p :: pat', t :: text' => Byte.eqb p t && starts_with pat' text'
  end.

(** [text.find(pat)] for a non-empty pattern. *)
Fixpoint find_sub (pat text : bytes) : option nat :=
  if starts_with pat text then Some O
  else match text with
       | [] => None
       | _ :: text' => S <$> find_sub pat text'
       end.

(** [text.ends_with(pat)] *)
Definition ends_with (pat text : bytes) : bool := starts_with (reverse pat) (reverse text).

Definition is_hex_digit (b : byte) : bool :=
  let c := code b in
  ((48 <=? c) && (c <=? 57)) || ((97 <=? c) && (c <=? 102)) || ((65 <=? c) && (c <=? 70)).

Definition is_reg_name_char (b : byte) : bool :=
  let c := code b in
  ((97 <=? c) && (c <=? 122)) || ((65 <=? c) && (c <=? 90)) || ((48 <=? c) && (c <=? 57)) ||
  Byte.eqb b x2e || Byte.eqb b x2d.

(** The group-counting loop: groups closed so far and digits in the open one;
    [None] when the address is refused. *)
Fixpoint count_groups (ip : bytes) (groups digits : Z) : option (Z * Z) :=
  match ip with
  | [] => Some (groups, digits)
  | c :: ip' =>
      if Byte.eqb c COLON
      then count_groups ip' (if negb (digits =? 0) then groups + 1 else groups) 0
      else if negb (is_hex_digit c) || (4 <? digits + 1) then None
      else count_groups ip' groups (digits + 1)
  end.

(** [front()] and [back()] compared with a character; never asked of an empty text. *)
Definition front_is (c : byte) (l : bytes) : bool := bool_decide (head l = Some c).
Definition back_is (c : byte) (l : bytes) : bool := bool_decide (last l = Some c).

(** The bracketed IPv6 address, without its brackets. *)
Definition valid_ipv6 (ip : bytes) : bool :=
  let compression := find_sub (lit "::") ip in
  if (length ip =? 0)%nat ||
     (front_is COLON ip && negb (starts_with (lit "::") ip)) ||
     (back_is COLON ip && negb (ends_with (lit "::") ip)) ||
     (match find_sub (lit ":::") ip with Some _ => true | None => false end) ||
     (match compression with
      | Some i => match find_sub (lit "::") (drop (i + 2) ip) with Some _ => true | None => false end
      | None => false
      end)
  then false
  else match count_groups ip 0 0 with
       | None => false
       | Some (groups, digits) =>
           let groups := if negb (digits =? 0) then groups + 1 else groups in
           match compression with
           | None => (groups =? 8) && negb (front_is COLON ip) && negb (back_is COLON ip)
           | Some _ => groups <? 8
           end
       end.

(** The host part: [None] refuses it, [Some port] is the text of the port. *)
Definition split_authority (authority : bytes) : option bytes :=
  match authority with
  | [] => None
  | front :: _ =>
      if Byte.eqb front x5b then
        match find x5d authority with
        | None => None
        | Some e =>
            if negb (valid_ipv6 (take (e - 1) (drop 1 authority))) then None
            else match drop (e + 1) authority with
                 | [] => Some []
                 | c :: port =>
                     if negb (Byte.eqb c COLON) || (length port =? 0)%nat then None else Some port
                 end
        end
      else
        let colon := find COLON authority in
        let name := prefix_to colon authority in
        if (length name =? 0)%nat || negb (forallb is_reg_name_char name) then None
        else match colon with
             | None => Some []
             | Some i =>
                 let port := drop (i + 1) authority in
                 if (length port =? 0)%nat then None else Some port
             end
  end.

(** The port loop. *)
Fixpoint port_loop (port : bytes) (port_number : Z) : option Z :=
  match port with
  | [] => Some port_number
  | c :: port' =>
      if (code c <? 48) || (57 <? code c) || (6553 <? port_number) then None
      else port_loop port' (port_number * 10 + (code c - 48))
  end.

Definition valid_host (host : bytes) : bool :=
  match split_authority host with
  | None => false
  | Some port =>
      match port_loop port 0 with
      | None => false
      | Some port_number => negb (65535 <? port_number)
      end
  end.

(** ** Request heads *)

(** Bytes allowed in an outgoing request target. *)
Definition is_origin_byte (b : byte) : bool :=
  negb ((code b <=? 32) || (127 <=? code b) || Byte.eqb b x23).

(** One round of the loop over the fields: the bytes they take up so far.  Each
    subtraction is guarded by the test before it. *)
Definition check_field (l : Limits) (f : HeaderMap.entry) (total : Z) : Result Z :=
  let '(name, value) := f in
  if negb (valid_header_name name) || negb (valid_header_value value)
  then Fail (serialize_error SerializeError.invalid_header)
  else if names_equal name (lit "Connection") &&
          negb (forallb (fun token => names_equal token (lit "close") ||
                                      names_equal token (lit "keep-alive")) (split_list value))
  then Fail (make_error_code Errc.not_supported)
  else if (max_header_line l <? len name) || (max_header_line l - len name <? len value) ||
          (max_header_line l - len name - len value <? 2)
  then Fail (make_error_code Errc.limit_exceeded)
  else
    let size := len name + len value + 2 in
    if max_headers_total l - total <? size then Fail (make_error_code Errc.limit_exceeded)
    else Ok (total + size).

Fixpoint check_fields (l : Limits) (h : HeaderMap.t) (total : Z) : Result Z :=
  match h with
  | [] => Ok total
  | f :: rest =>
      match check_field l f total with
      | Ok total' => check_fields l rest total'
      | Fail e => Fail e
      end
  end.

Definition write_request_head (req : Request) (body_size : Z) (l : Limits) : M bytes unit :=
  require (negb (Method.eqb (req_method req) Method.connect ||
                 Method.eqb (req_method req) Method.other ||
                 HeaderMap.contains (lit "Upgrade") (req_headers req) ||
                 HeaderMap.contains (lit "Expect") (req_headers req)))
    (make_error_code Errc.not_supported) ;;;
  let method := method_to_string (req_method req) in
  require (negb ((length method =? 0)%nat ||
                 (negb (Version.eqb (req_version req) Version.http_1_0) &&
                  negb (Version.eqb (req_version req) Version.http_1_1))))
    (make_error_code Errc.invalid_argument) ;;;
  require (negb ((length (req_target req) =? 0)%nat ||
                 (negb (front_is x2f (req_target req)) &&
                  negb (Method.eqb (req_method req) Method.options &&
                        bytes_eqb (req_target req) (lit "*")))))
    (make_error_code Errc.invalid_argument) ;;;
  require (forallb is_origin_byte (req_target req)) (make_error_code Errc.invalid_argument) ;;;
  require (negb (HeaderMap.contains (lit "Content-Length") (req_headers req) ||
                 HeaderMap.contains (lit "Transfer-Encoding") (req_headers req)))
    (serialize_error SerializeError.framing_conflict) ;;;
  require (negb ((1 <? HeaderMap.count (lit "Host") (req_headers req))%nat ||
                 (Version.eqb (req_version req) Version.http_1_1 &&
                  negb (HeaderMap.count (lit "Host") (req_headers req) =? 1)%nat)))
    (serialize_error SerializeError.invalid_header) ;;;
  require (match HeaderMap.get (lit "Host") (req_headers req) with
           | Some host => valid_host host
           | None => true
           end) (serialize_error SerializeError.invalid_header) ;;;
  require (negb ((max_start_line l <? len (req_target req)) ||
                 (max_start_line l - len (req_target req) <? len method + 10) ||
                 (max_body_size l <? body_size) ||
                 (max_header_count l <=? HeaderMap.size (req_headers req))))
    (make_error_code Errc.limit_exceeded) ;;;
  let! total := lift (check_fields l (req_headers req) 0) in
  let framing := lit "Content-Length: " ++ to_decimal body_size in
  require (negb ((max_header_line l <? len framing) ||
                 (max_headers_total l - total <? len framing)))
    (make_error_code Errc.limit_exceeded) ;;;
  emit_all [method; lit " "; req_target req; lit " "; version_to_string (req_version req); CRLF] ;;;
  emit_fields (req_headers req) ;;;
  emit_all [framing; CRLF ++ CRLF].

(** ** Chunks *)

Definition write_chunk (chunk : bytes) : M bytes unit :=
  require (negb (length chunk =? 0)%nat) (serialize_error SerializeError.framing_conflict) ;;;
  emit_all [to_hex (len chunk); CRLF; chunk; CRLF].

Definition write_last_chunk : M bytes unit := emit (lit "0" ++ CRLF ++ CRLF).
