(* ===== verification/RoundTrip.v ===== *)
(** * RoundTrip: what the serialiser writes, the parsers read back *)

From S2P Require Import Prelude Numerals Errors Buffer Grammar Message Lines RequestParser RequestFraming.
From S2P Require Import RequestParserInv ResponseParser Serializer.

Local Open Scope Z_scope.
Local Open Scope mira_scope.

(** ** Rendering *)

(** A field as a line of text. *)
Definition render_field (f : HeaderMap.entry) : bytes := f.1 ++ lit ": " ++ f.2.

(** Lines with their terminators. *)
Definition render_lines (lines : list bytes) : bytes :=
  List.concat (map (fun t => t ++ CRLF) lines).

Lemma emit_all_eq texts out : emit_all texts out = Returns tt (out ++ List.concat texts).
Proof.
  revert out; induction texts as [|t texts IH]; intros out; simpl.
  - by rewrite app_nil_r.
  - unfold out_bind, emit, out_modify. rewrite IH, <- app_assoc. done.
Qed.

Lemma emit_fields_eq h out :
  emit_fields h out = Returns tt (out ++ render_lines (map render_field h)).
Proof.
  unfold emit_fields. rewrite emit_all_eq. do 2 f_equal. unfold render_lines.
  induction h as [|[n v] h IH]; simpl; [done|]. rewrite IH. unfold render_field. simpl.
  by rewrite <- !app_assoc.
Qed.

(** ** Lines *)

Definition clean (t : bytes) : Prop := (CR ∉ t) /\ (LF ∉ t).

Lemma clean_vchar t : forallb is_field_vchar t = true -> clean t.
Proof.
  intros Ht. split; eapply forallb_not_elem; [exact Ht|apply vchar_not_CR|exact Ht|apply vchar_not_LF].
Qed.

Lemma clean_app a b : clean a -> clean b -> clean (a ++ b).
Proof. unfold clean. intros [] []. rewrite !not_elem_of_app. done. Qed.

Lemma next_line_clean t rest bare :
  clean t -> next_line (t ++ CRLF ++ rest) bare = Ok (Some (mk_line t (length t + 2))).
Proof. intros [Hc Hl]. by apply (next_line_complete bare t CRLF rest (or_introl eq_refl)). Qed.

Lemma drop_line (t rest : bytes) : drop (length t + 2) (t ++ CRLF ++ rest) = rest.
Proof. rewrite <- drop_drop, drop_app_length. done. Qed.

Lemma forallb_tchar_vchar t : forallb is_tchar t = true -> forallb is_field_vchar t = true.
Proof. rewrite !forallb_forall. intros Ht b Hb. by apply tchar_vchar, Ht. Qed.

(** ** Fields *)

Definition valid_field (f : HeaderMap.entry) : Prop :=
  f.1 <> [] /\ forallb is_tchar f.1 = true /\ forallb is_field_vchar f.2 = true.

Lemma valid_field_iff f :
  valid_header_name f.1 && valid_header_value f.2 = true <-> valid_field f.
Proof.
  unfold valid_header_name, valid_header_value, valid_field.
  destruct f as [[|b n] v]; simpl; [split; [done|by intros [? _]]|].
  rewrite !andb_true_iff. naive_solver.
Qed.

(** The field as a recipient stores it. *)
Definition trimmed (f : HeaderMap.entry) : HeaderMap.entry := (f.1, trim_ows f.2).

Lemma render_field_clean f : valid_field f -> clean (render_field f).
Proof.
  intros (_ & Hn & Hv). apply clean_vchar. unfold render_field.
  rewrite !forallb_app, Hv, (forallb_tchar_vchar _ Hn). done.
Qed.

(** How a field line is taken apart again. *)
Lemma render_field_split f :
  valid_field f ->
  find COLON (render_field f) = Some (length f.1) /\
  take (length f.1) (render_field f) = f.1 /\
  drop (length f.1 + 1) (render_field f) = SP :: f.2 /\
  trim_ows (SP :: f.2) = trim_ows f.2.
Proof.
  intros (Hne & Hn & _). unfold render_field. split_and!.
  - change (lit ": " ++ f.2) with (COLON :: SP :: f.2). rewrite find_here; [done|].
    eapply forallb_not_elem; [exact Hn|apply tchar_not_colon].
  - apply take_app_length.
  - by rewrite <- drop_drop, drop_app_length.
  - done.
Qed.

(** ** Reading a request head back *)

(** A field whose line and running total are within the bounds is stored. *)
Definition add_field (p : RequestParser) (f : HeaderMap.entry) : RequestParser :=
  set_headers (req_headers (request_ p) ++ [trimmed f])
    (set_headers_total_ (headers_total_ p + len (render_field f)) p).

Definition field_fits (p : RequestParser) (f : HeaderMap.entry) : Prop :=
  let l := limits_ p in
  len (render_field f) <= max_header_line l /\
  HeaderMap.size (req_headers (request_ p)) + 1 <= max_header_count l /\
  0 <= headers_total_ p /\ headers_total_ p + len (render_field f) <= max_headers_total l /\
  max_headers_total l <= UINT64_MAX.

Lemma last_not_ows n :
  forallb is_tchar n = true -> match last n with Some b => negb (is_ows b) | None => true end = true.
Proof.
  intros Hn. destruct (last n) as [b|] eqn:E; [|done]. apply last_Some_elem_of in E.
  rewrite forallb_forall in Hn. by rewrite tchar_not_ows by (by apply Hn, list_elem_of_In).
Qed.

Lemma parse_header_line_field p f (rest : bytes) :
  valid_field f -> field_fits p f ->
  parse_header_line (p, render_field f ++ CRLF ++ rest) = Returns None (add_field p f, rest).
Proof.
  intros Hf (Hline & Hcount & Hpos & Htotal & Hmax).
  pose proof (render_field_clean f Hf) as Hclean.
  destruct (render_field_split f Hf) as (Hcolon & Hname & Hvalue & Htrim).
  destruct Hf as (Hne & Hn & Hv).
  unfold parse_header_line, out_bind, out_get, locate, lift. cbn [fst snd readable bytes_read_buffer].
  rewrite next_line_clean by done. cbn [line_text line_consumed].
  destruct (render_field f) as [|front text] eqn:Er.
  { unfold render_field in Er. by destruct f.1. }
  rewrite <- Er in *. 
  assert (is_ows front = false) as ->.
  { destruct f as [[|b n] v]; [done|]. unfold render_field in Er. simpl in Er, Hn.
    injection Er as -> _. bool_facts. by apply tchar_not_ows. }
  unfold require. rewrite (ltb_false _ _ Hline). cbn [negb]. rewrite Hcolon.
  destruct (length f.1) as [|k] eqn:El; [by destruct f.1|]. rewrite <- El in *.
  cbv zeta. rewrite Hname, (last_not_ows _ Hn), Hn, Hvalue, Htrim.
  cbn [forallb]. rewrite Hv. cbn [andb]. change (is_field_vchar SP) with true. cbn [andb].
  rewrite (ltb_false _ _ Hcount). unfold on_parser, consume_input, out_modify, out_ret.
  cbn [negb fst snd consume bytes_read_buffer]. rewrite wrap64_small by (pose proof (len_nonneg (render_field f)); lia).
  rewrite (ltb_false _ _ Htotal). cbn [negb fst snd]. rewrite drop_line. done.
Qed.

(** Fields that fit one after the other. *)
Fixpoint fields_fit (p : RequestParser) (h : HeaderMap.t) : Prop :=
  match h with
  | [] => True
  | f :: h' => field_fits p f /\ fields_fit (add_field p f) h'
  end.

Lemma iter_fields h p (rest : bytes) n :
  Forall valid_field h -> fields_fit p h ->
  iter (length h + n) parse_header_line (p, render_lines (map render_field h) ++ rest) =
  iter n parse_header_line (foldl add_field p h, rest).
Proof.
  revert p; induction h as [|f h IH]; intros p Hv Hf; [done|].
  apply Forall_cons in Hv as [Hv Hvs]. destruct Hf as [Hf Hfs].
  assert (render_lines (map render_field (f :: h)) ++ rest =
          render_field f ++ CRLF ++ (render_lines (map render_field h) ++ rest)) as ->.
  { unfold render_lines. cbn [map List.concat]. by rewrite <- !app_assoc. }
  change (length (f :: h) + n)%nat with (S (length h + n)). cbn [iter foldl].
  rewrite parse_header_line_field by done. by apply IH.
Qed.

Lemma parse_header_line_end p (rest : bytes) :
  parse_header_line (p, CRLF ++ rest) = Returns (Some true) (p, rest).
Proof.
  unfold parse_header_line, out_bind, out_get, locate, lift. cbn [fst snd readable bytes_read_buffer].
  rewrite (next_line_clean [] rest) by (split; apply not_elem_of_nil). done.
Qed.

Lemma render_lines_length lines : (length lines <= length (render_lines lines))%nat.
Proof.
  induction lines as [|t lines IH]; [done|]. unfold render_lines in *. simpl.
  rewrite !length_app. simpl. lia.
Qed.

(** The header section, up to and including the blank line. *)
Lemma parse_headers_fields h p (rest : bytes) :
  Forall valid_field h -> fields_fit p h ->
  parse_headers (p, render_lines (map render_field h) ++ CRLF ++ rest) =
  Returns true (foldl add_field p h, rest).
Proof.
  intros Hv Hf. unfold parse_headers. cbn [fst snd readable bytes_read_buffer].
  assert (iter (length h + 1) parse_header_line
            (p, render_lines (map render_field h) ++ CRLF ++ rest) =
          Returns true (foldl add_field p h, rest)) as Hi.
  { rewrite iter_fields by done. cbn [iter]. by rewrite parse_header_line_end. }
  rewrite (iter_more _ (length h + 1)); [done|by rewrite Hi|].
  pose proof (render_lines_length (map render_field h)) as Hl. rewrite length_map in Hl.
  rewrite !length_app. simpl. lia.
Qed.

(** The bytes of the rendered fields. *)
Definition rendered_size (h : HeaderMap.t) : Z :=
  foldr (fun f acc => len (render_field f) + acc) 0 h.

Lemma rendered_size_app h1 h2 : rendered_size (h1 ++ h2) = rendered_size h1 + rendered_size h2.
Proof. induction h1 as [|f h1 IH]; simpl; lia. Qed.

Lemma rendered_size_nonneg h : 0 <= rendered_size h.
Proof. induction h as [|f h IH]; simpl; [lia|]. pose proof (len_nonneg (render_field f)). lia. Qed.

Lemma foldl_add_field h p :
  foldl add_field p h =
  set_headers (req_headers (request_ p) ++ map trimmed h)
    (set_headers_total_ (headers_total_ p + rendered_size h) p).
Proof.
  revert p; induction h as [|f h IH]; intros p; simpl.
  - rewrite app_nil_r, Z.add_0_r. by destruct p as [? ? []].
  - rewrite IH. unfold add_field. simpl. rewrite <- app_assoc, <- Z.add_assoc. done.
Qed.

(** Enough room for all of them is enough room for each. *)
Lemma fields_fit_total h p :
  let l := limits_ p in
  Forall (fun f => len (render_field f) <= max_header_line l) h ->
  HeaderMap.size (req_headers (request_ p)) + HeaderMap.size h <= max_header_count l ->
  0 <= headers_total_ p -> headers_total_ p + rendered_size h <= max_headers_total l ->
  max_headers_total l <= UINT64_MAX -> fields_fit p h.
Proof.
  revert p; induction h as [|f h IH]; intros p; cbv zeta; intros Hl Hc Hp Ht Hm; [done|].
  apply Forall_cons in Hl as [Hl Hls]. simpl in Ht.
  assert (HeaderMap.size (f :: h) = HeaderMap.size h + 1) as Hs.
  { unfold HeaderMap.size. simpl. lia. }
  pose proof (rendered_size_nonneg h). pose proof (len_nonneg (render_field f)).
  assert (0 <= HeaderMap.size h) by (unfold HeaderMap.size; lia).
  split; [unfold field_fits; lia|].
  apply IH; simpl; rewrite ?size_app; try done; lia.
Qed.

(** The request line. *)
Definition render_request_line (m : bytes) (target : bytes) (v : Version.t) : bytes :=
  m ++ lit " " ++ target ++ lit " " ++ version_to_string v.

Lemma target_not_sp t : forallb is_target_byte t = true -> SP ∉ t.
Proof. intros Ht. by eapply forallb_not_elem. Qed.

(** Where the two spaces of a request line are, and what lies between them. *)
Lemma request_line_split m target v :
  SP ∉ m -> SP ∉ target ->
  let text := render_request_line m target v in
  let second := (length m + 1 + length target)%nat in
  find SP text = Some (length m) /\ find_from SP (length m + 1) text = Some second /\
  take (length m) text = m /\
  take (second - length m - 1) (drop (length m + 1) text) = target /\
  drop (second + 1) text = version_to_string v.
Proof.
  intros Hm Ht. unfold render_request_line, find_from. cbv zeta.
  assert (drop (length m + 1) (m ++ lit " " ++ target ++ lit " " ++ version_to_string v) =
          target ++ SP :: version_to_string v) as Hd by (by rewrite <- drop_drop, drop_app_length).
  rewrite Hd. split_and!.
  - change (lit " " ++ ?t) with (SP :: t). by apply find_here.
  - rewrite find_here by done. done.
  - apply take_app_length.
  - replace (length m + 1 + length target - length m - 1)%nat with (length target) by lia.
    apply take_app_length.
  - replace (length m + 1 + length target + 1)%nat with ((length m + 1) + (length target + 1))%nat by lia.
    by rewrite <- drop_drop, Hd, <- drop_drop, drop_app_length.
Qed.

Lemma request_line_clean m target v :
  forallb is_tchar m = true -> forallb is_target_byte target = true ->
  clean (render_request_line m target v).
Proof.
  intros Hm Ht. unfold render_request_line. repeat apply clean_app.
  - by apply clean_vchar, forallb_tchar_vchar.
  - by apply clean_vchar.
  - split; by eapply forallb_not_elem.
  - by apply clean_vchar.
  - apply clean_vchar. by destruct v.
Qed.

Lemma parse_start_line_request p m target v (rest : bytes) :
  m <> [] -> forallb is_tchar m = true -> target <> [] -> forallb is_target_byte target = true ->
  len (render_request_line m target v) <= max_start_line (limits_ p) ->
  parse_start_line (p, render_request_line m target v ++ CRLF ++ rest) =
  Returns true (set_start (method_from_token m) target v p, rest).
Proof.
  intros Hm Hmt Ht Htt Hlen.
  assert (SP ∉ m) as Hsp by (by eapply forallb_not_elem).
  destruct (request_line_split m target v Hsp (target_not_sp _ Htt)) as (H1 & H2 & H3 & H4 & H5).
  pose proof (request_line_clean m target v Hmt Htt) as Hclean.
  unfold parse_start_line, out_bind, out_get, locate, lift. cbn [fst snd readable bytes_read_buffer].
  rewrite next_line_clean by done. cbn [line_text line_consumed].
  unfold require. rewrite (ltb_false _ _ Hlen), H1. cbn [negb].
  destruct (length m) as [|k] eqn:Ek; [by destruct m|]. rewrite <- Ek in *.
  rewrite H2. cbv zeta. rewrite H3, H4, H5, Hmt, Htt.
  destruct (_ =? length m + 1)%nat eqn:E; bool_facts; [destruct target; simpl in *; [done|lia]|].
  destruct (length target =? 0)%nat eqn:E'; bool_facts; [by destruct target|].
  unfold on_parser, consume_input, out_modify, out_ret. cbn [negb fst snd consume bytes_read_buffer].
  destruct v; simpl; do 2 f_equal; apply drop_line.
Qed.

(** ** What the request writer has checked *)

Lemma check_fields_ok l h total total' :
  check_fields l h total = Ok total' -> total <= max_headers_total l ->
  Forall valid_field h /\ Forall (fun f => len (render_field f) <= max_header_line l) h /\
  total' = total + rendered_size h /\ total' <= max_headers_total l.
Proof.
  revert total; induction h as [|[n v] h IH]; intros total; cbn [check_fields].
  { intros [= <-] ?. split_and!; try done. simpl. lia. }
  destruct (check_field l (n, v) total) as [t|e] eqn:E; [|done]. intros Hrest Htot.
  assert (valid_field (n, v) /\ len (render_field (n, v)) <= max_header_line l /\
          t = total + len (render_field (n, v)) /\ t <= max_headers_total l) as (H1 & H2 & H3 & H4).
  { unfold check_field in E. unfold render_field. rewrite !len_app. change (len (lit ": ")) with 2.
    cbn [fst snd]. destruct (negb _ || negb _) eqn:Ev; [done|]. bool_facts.
    destruct (_ && negb (forallb _ _)); [done|]. destruct (_ || _ || _) eqn:El; [done|]. bool_facts.
    destruct (_ <? _) eqn:Et; simplify_eq. bool_facts. split_and!; [|lia..].
    apply valid_field_iff. simpl. by bool_facts; apply andb_true_iff. }
  destruct (IH t Hrest H4) as (Hv & Hl & -> & Hm). simpl. split_and!; try by constructor.
  - lia.
  - done.
Qed.

Record request_written (req : Request) (body_size : Z) (l : Limits) : Prop := {
  written_method : method_to_string (req_method req) <> [] /\ req_method req <> Method.other;
  written_target : req_target req <> [] /\ forallb is_target_byte (req_target req) = true;
  written_framing : HeaderMap.contains (lit "Content-Length") (req_headers req) = false /\
    HeaderMap.contains (lit "Transfer-Encoding") (req_headers req) = false;
  written_line : len (render_request_line (method_to_string (req_method req)) (req_target req)
                        (req_version req)) <= max_start_line l;
  written_fields : Forall valid_field (req_headers req);
  written_lines : Forall (fun f => len (render_field f) <= max_header_line l)
    (req_headers req ++ [(lit "Content-Length", to_decimal body_size)]);
  written_count : HeaderMap.size (req_headers req) + 1 <= max_header_count l;
  written_total : rendered_size (req_headers req ++ [(lit "Content-Length", to_decimal body_size)])
    <= max_headers_total l;
  written_body : body_size <= max_body_size l;
}.

(** The whole head, as one text. *)
Definition request_text (req : Request) (body_size : Z) : bytes :=
  render_request_line (method_to_string (req_method req)) (req_target req) (req_version req) ++ CRLF ++
  render_lines (map render_field (req_headers req ++ [(lit "Content-Length", to_decimal body_size)])) ++
  CRLF.

Lemma origin_target_byte t : forallb is_origin_byte t = true -> forallb is_target_byte t = true.
Proof.
  rewrite !forallb_forall. intros Ht b Hb. specialize (Ht b Hb).
  unfold is_origin_byte, is_target_byte in *. bool_facts. apply negb_true_iff, orb_false_iff.
  split; [by apply Z.leb_gt|by apply Z.eqb_neq; lia].
Qed.

Ltac passed H name := apply require_returns in H as [name H]; cbv beta zeta in H.

Lemma write_request_head_ok req n l out out' :
  0 <= max_headers_total l ->
  write_request_head req n l out = Returns tt out' ->
  request_written req n l /\ out' = out ++ request_text req n.
Proof.
  intros Hmax H. unfold write_request_head in H.
  passed H T1. passed H T2. passed H T3. passed H T4. passed H T5. passed H T6. passed H T7.
  passed H T8. unfold out_bind at 1, lift in H.
  destruct (check_fields l (req_headers req) 0) as [total|e] eqn:Hc; [|done].
  apply check_fields_ok in Hc as (Hv & Hl & -> & Ht); [|done]. passed H T9.
  unfold out_bind in H. rewrite emit_all_eq, emit_fields_eq, emit_all_eq in H.
  injection H as <-. bool_facts. rewrite Z.add_0_l in *.
  assert (len (render_field (lit "Content-Length", to_decimal n)) =
          len (lit "Content-Length: " ++ to_decimal n)) as Hcl by done.
  split; [constructor|].
  - split; [by destruct (method_to_string (req_method req))|]. intros E. by rewrite E in *.
  - split; [by destruct (req_target req)|]. by apply origin_target_byte.
  - done.
  - unfold render_request_line. rewrite !len_app.
    assert (len (version_to_string (req_version req)) = 8) as -> by (by destruct (req_version req)).
    change (len (lit " ")) with 1. lia.
  - done.
  - apply Forall_app. split; [done|]. apply Forall_singleton. lia.
  - lia.
  - rewrite rendered_size_app. simpl. lia.
  - lia.
  - unfold request_text, render_request_line, render_lines. simpl.
    rewrite !map_app, List.concat_app. simpl.
    repeat (rewrite <- app_assoc || rewrite <- app_comm_cons). done.
Qed.

(** ** The round trip *)

(** Trimming the values changes no lookup by name. *)
Lemma get_all_trimmed name h :
  HeaderMap.get_all name (map trimmed h) = map trim_ows (HeaderMap.get_all name h).
Proof.
  induction h as [|[n v] h IH]; simpl; [done|]. destruct (names_equal n name); simpl; by rewrite IH.
Qed.

Lemma count_trimmed name h : HeaderMap.count name (map trimmed h) = HeaderMap.count name h.
Proof. by rewrite <- !get_all_length, get_all_trimmed, length_map. Qed.

(** Digits are field characters, and neither whitespace nor a comma. *)
Lemma decimal_tchar n : forallb is_tchar (to_decimal n) = true.
Proof.
  apply forallb_forall. intros b Hb. pose proof (to_decimal_digits n) as Hd.
  rewrite Forall_forall in Hd. specialize (Hd b). rewrite list_elem_of_In in Hd. specialize (Hd Hb).
  unfold is_tchar. destruct (_ || _ || _) eqn:E; [done|]. bool_facts.
  repeat match goal with H : _ && _ = false |- _ => apply andb_false_iff in H as [H|H] end;
    bool_facts; lia.
Qed.

Lemma tchars_no_outer t : forallb is_tchar t = true -> no_outer_ows t = true.
Proof.
  intros Ht. unfold no_outer_ows. apply andb_true_iff. split; [|by apply last_not_ows].
  destruct t as [|b t]; [done|]. simpl in Ht. bool_facts. by rewrite tchar_not_ows.
Qed.

Lemma decimal_item n :
  0 <= n <= UINT64_MAX ->
  trim_ows (to_decimal n) = to_decimal n /\ split_list (to_decimal n) = [to_decimal n].
Proof.
  intros Hn. pose proof (decimal_tchar n) as Ht.
  assert (trim_ows (to_decimal n) = to_decimal n) as Htrim by (by apply trim_ows_id, tchars_no_outer).
  split; [done|]. rewrite split_list_items. unfold list_items.
  rewrite split_commas_none by (apply find_None; by eapply forallb_not_elem). simpl.
  rewrite Htrim. unfold nonempty. pose proof (to_decimal_nonempty n Hn).
  destruct (length _ =? 0)%nat eqn:E; bool_facts; [by destruct (to_decimal n)|done].
Qed.

Definition content_length_field (n : Z) : HeaderMap.entry := (lit "Content-Length", to_decimal n).

(** The framing of a head whose only framing field is one Content-Length. *)
Lemma framing_of_written req h n max_body :
  HeaderMap.contains (lit "Content-Length") h = false ->
  HeaderMap.contains (lit "Transfer-Encoding") h = false ->
  0 <= n <= UINT64_MAX -> n <= max_body ->
  req_headers req = map trimmed (h ++ [content_length_field n]) ->
  framing_of req max_body = Ok (BodyKind.length, n).
Proof.
  intros Hcl Hte Hn Hmax Hh. destruct (decimal_item n Hn) as [Htrim Hsplit].
  apply framing_of_exact. unfold framing_spec, content_length_items, HeaderMap.contains in *.
  rewrite Hh, get_all_trimmed, !count_trimmed, !count_app, get_all_app.
  apply contains_false in Hcl as Hg. apply contains_false in Hte as Ht.
  rewrite <- !get_all_length, Hg, Ht. simpl. rewrite Htrim, Hsplit. simpl.
  split_and!; try done. apply Forall_singleton. by apply parse_decimal_printed.
Qed.

(** The parser after reading a written head. *)
Definition read_back (req : Request) (n : Z) : Request :=
  {| req_method := req_method req; req_target := req_target req; req_version := req_version req;
     req_headers := map trimmed (req_headers req ++ [content_length_field n]);
     req_body_kind := BodyKind.length; req_content_length := n |}.

Lemma method_to_string_tchar m : forallb is_tchar (method_to_string m) = true.
Proof. by destruct m. Qed.

Lemma content_length_field_valid n : valid_field (content_length_field n).
Proof. split_and!; [done|done|]. by apply forallb_tchar_vchar, decimal_tchar. Qed.

(** One round reads the request line, one more the rest of the head. *)
Lemma parse_round_start p p' (w rest : bytes) :
  state_ p = State.start_line -> parse_start_line (p, w) = Returns true (p', rest) ->
  parse_round (p, w) = Returns None (set_state_ State.headers p', rest).
Proof. intros Hst Hp. unfold parse_round, out_bind, out_get. simpl. by rewrite Hst, Hp. Qed.

Lemma parse_round_length_head p p' n (w rest : bytes) :
  state_ p = State.headers -> parse_headers (p, w) = Returns true (p', rest) ->
  framing_of (request_ p') (max_body_size (limits_ p')) = Ok (BodyKind.length, n) ->
  parse_round (p, w) =
  Returns (Some ParseStep.head)
    (set_state_ (if n =? 0 then State.done else State.body_length)
       (set_body_remaining_ n (set_framing BodyKind.length n p')), rest).
Proof.
  intros Hst Hp Hf. unfold parse_round, decide_framing, out_bind, out_get, lift. simpl.
  rewrite Hst, Hp. cbn [negb fst snd]. by rewrite Hf.
Qed.

Lemma parse_two_rounds l p p' (w w' rest : bytes) :
  parse_round (make_parser l, w) = Returns None (p, w') ->
  parse_round (p, w') = Returns (Some ParseStep.head) (p', rest) ->
  parse (make_parser l, w) = Returns ParseStep.head (p', rest).
Proof.
  intros H1 H2. change (parse (make_parser l, w)) with
    (iter (2 + length w) parse_round (make_parser l, w)). cbn [iter Nat.add]. by rewrite H1, H2.
Qed.

(** C34: what the client serialises, the server's parser reads
    back.  Whenever [write_request_head] accepts a request under some limits, the
    request parser under the same limits, given the bytes it wrote with anything
    behind them, reports a complete head in one call: same method, target and
    version, the same fields in the same order (values without surrounding
    whitespace) plus the Content-Length the writer added, a body of exactly the
    announced size, and the bytes behind the head unread. *)
Theorem request_head_roundtrip (req : Request) (n : Z) (l : Limits) (out out' rest : bytes)
    (Hl : limits_sane l) (Hn : 0 <= n <= UINT64_MAX)
    (Hw : write_request_head req n l out = Returns tt out') :
  exists head p,
    out' = out ++ head /\
    parse (make_parser l, head ++ rest) = Returns ParseStep.head (p, rest) /\
    request_ p = read_back req n /\
    state_ p = (if n =? 0 then State.done else State.body_length) /\ body_remaining_ p = n.
Proof.
  pose proof (sane_range _ Hl) as Hr. unfold limits_in_range in Hr. rewrite !Forall_cons in Hr.
  apply write_request_head_ok in Hw as [[[Hm Hno] [Ht Htt] [Hcl Hte] Hline Hv Hlines Hc Htot Hb] ->];
    [|lia].
  exists (request_text req n). unfold request_text.
  set (h := req_headers req ++ [content_length_field n]) in *.
  set (p1 := set_state_ State.headers (set_start (req_method req) (req_target req) (req_version req)
               (make_parser l))).
  exists (set_state_ (if n =? 0 then State.done else State.body_length)
            (set_body_remaining_ n (set_framing BodyKind.length n (foldl add_field p1 h)))).
  rewrite foldl_add_field at 2 3 4. split; [done|]. split; [|done].
  assert (fields_fit p1 h) as Hfit.
  { apply fields_fit_total; simpl; try done; try lia. unfold h, HeaderMap.size in *.
    rewrite length_app. simpl. lia. }
  assert (Forall valid_field h) as Hvh.
  { apply Forall_app. split; [done|]. apply Forall_singleton, content_length_field_valid. }
  rewrite <- !app_assoc. eapply parse_two_rounds.
  - apply parse_round_start; [done|].
    by apply parse_start_line_request; [|apply method_to_string_tchar|..].
  - rewrite method_token_roundtrip by done.
    apply parse_round_length_head; [done|by apply parse_headers_fields|].
    rewrite foldl_add_field. by apply (framing_of_written _ (req_headers req)).
Qed.

Definition sample_request : Request :=
  {| req_method := Method.post; req_target := lit "/up?x=1"; req_version := Version.http_1_1;
     req_headers := [(lit "Host", lit "[::1]:8080"); (lit "X-Note", lit "  hi ")];
     req_body_kind := BodyKind.none; req_content_length := 0 |}.

Lemma request_head_roundtrip_witness :
  exists head p,
    write_request_head sample_request 5 default_limits [] = Returns tt head /\
    parse (make_parser default_limits, head ++ lit "hello") =
      Returns ParseStep.head (p, lit "hello") /\
    request_ p = read_back sample_request 5.
Proof.
  destruct (write_request_head sample_request 5 default_limits []) as [[] out'|e out'|] eqn:Hw;
    [|vm_compute in Hw; discriminate Hw|vm_compute in Hw; discriminate Hw].
  destruct (request_head_roundtrip sample_request 5 default_limits [] out' (lit "hello")
    default_limits_sane ltac:(unfold UINT64_MAX; lia) Hw) as (head & p & -> & Hp & Hr & _).
  exists head, p. split_and!; [done|exact Hp|exact Hr].
Defined.
