(* ===== verification/ChunkRoundTrip.v ===== *)
(** * ChunkRoundTrip: the chunked coding, written and read back

    [write_chunk] and [write_last_chunk] against the chunk states of the request
    parser: any sequence of non-empty chunks within the limits is collected by
    the client as their concatenation. *)

From S2P Require Import Prelude Numerals Errors Buffer Grammar Message Lines RequestParser RequestFraming.
From S2P Require Import RequestParserInv Incremental ResponseParser Serializer RoundTrip.

Local Open Scope Z_scope.
Local Open Scope mira_scope.

(** The writer's calls for a body: one [write_chunk] per chunk, then the end. *)
Fixpoint write_chunks (chunks : list bytes) : M bytes unit :=
  match chunks with
  | [] => write_last_chunk
  | c :: rest => write_chunk c ;;; write_chunks rest
  end.

Definition render_chunk (c : bytes) : bytes := to_hex (len c) ++ CRLF ++ c ++ CRLF.

Definition render_body (chunks : list bytes) : bytes :=
  List.concat (map render_chunk chunks) ++ lit "0" ++ CRLF ++ CRLF.

Lemma write_chunks_eq chunks out :
  Forall (fun c => c <> []) chunks ->
  write_chunks chunks out = Returns tt (out ++ render_body chunks).
Proof.
  revert out; induction chunks as [|c chunks IH]; intros out Hne; [done|].
  apply Forall_cons in Hne as [Hc Hne]. cbn [write_chunks]. unfold write_chunk, out_bind, require.
  destruct (length c =? 0)%nat eqn:E; bool_facts; [by destruct c|]. cbn [negb].
  rewrite emit_all_eq, IH by done. unfold render_body, render_chunk. cbn [map List.concat].
  by rewrite app_nil_r, <- !app_assoc.
Qed.

(** ** The rounds of one chunk *)

Lemma hex_tchar n : forallb is_tchar (to_hex n) = true.
Proof.
  assert (Forall (fun b => is_tchar b = true) (to_hex n)) as Hf.
  { unfold to_hex. apply digits_loop_Forall; [lia| |by case_match; repeat constructor].
    intros d Hd. assert (d = 0 \/ d = 1 \/ d = 2 \/ d = 3 \/ d = 4 \/ d = 5 \/ d = 6 \/ d = 7 \/
      d = 8 \/ d = 9 \/ d = 10 \/ d = 11 \/ d = 12 \/ d = 13 \/ d = 14 \/ d = 15) as Hc by lia.
    destruct_or! Hc; by subst. }
  apply forallb_forall. intros b Hb. rewrite Forall_forall in Hf. by apply Hf, list_elem_of_In.
Qed.

(** The size line of a chunk. *)
Lemma read_chunk_header_size p n (rest : bytes) :
  0 <= n <= UINT64_MAX -> n <= max_chunk_size (limits_ p) ->
  0 <= body_seen_ p -> body_seen_ p + n <= max_body_size (limits_ p) ->
  max_body_size (limits_ p) <= UINT64_MAX ->
  read_chunk_header (p, to_hex n ++ CRLF ++ rest) =
  Returns Progress.advanced
    (if n =? 0 then set_state_ State.body_chunk_trailer (set_saw_last_chunk_ true p)
     else set_state_ State.body_chunk_data (set_chunk_remaining_ n p), rest).
Proof.
  intros Hn Hc Hs Hb Hm. pose proof (hex_tchar n) as Hx.
  unfold read_chunk_header; run_defs.
  rewrite next_line_clean by (by apply clean_vchar, forallb_tchar_vchar).
  cbn [line_text line_consumed].
  rewrite (proj2 (find_None SEMICOLON (to_hex n))) by (by eapply forallb_not_elem).
  cbn [prefix_to]. rewrite parse_hex_printed, (ltb_false _ _ Hc), wrap64_small, (ltb_false _ _ Hb) by lia.
  cbn [negb fst snd]. rewrite drop_line. by destruct (n =? 0).
Qed.

(** The state after a whole chunk. *)
Definition chunk_open (p : RequestParser) (c : bytes) : RequestParser :=
  set_state_ State.body_chunk_data (set_chunk_remaining_ (len c) p).
Definition chunk_read (p : RequestParser) (c : bytes) : RequestParser :=
  set_state_ State.body_chunk_header (eat_chunk (length c) (chunk_open p c)).

Definition chunk_fits (p : RequestParser) (c : bytes) : Prop :=
  c <> [] /\ len c <= max_chunk_size (limits_ p) /\ 0 <= body_seen_ p /\
  body_seen_ p + len c <= max_body_size (limits_ p) /\ max_body_size (limits_ p) <= UINT64_MAX.

(** The three rounds of a chunk: its size, its data, its end. *)
Lemma flat_chunk p c (rest acc : bytes) k :
  state_ p = State.body_chunk_header -> chunk_fits p c ->
  iter (3 + k) flat_round ((p, render_chunk c ++ rest), acc) =
  iter k flat_round ((chunk_read p c, rest), acc ++ c).
Proof.
  intros Hst (Hne & Hc & Hs & Hb & Hm). unfold render_chunk. rewrite <- !app_assoc.
  assert (0 < len c) as Hpos by (destruct c; [done|unfold len; simpl; lia]).
  assert (flat_round ((p, to_hex (len c) ++ CRLF ++ c ++ CRLF ++ rest), acc) =
          Returns None ((chunk_open p c, c ++ CRLF ++ rest), acc)) as H1.
  { unfold flat_round, parse_round, out_bind, out_get. cbn [fst snd]. rewrite Hst.
    rewrite read_chunk_header_size by lia.
    destruct (len c =? 0) eqn:E; bool_facts; [lia|]. done. }
  assert (flat_round ((chunk_open p c, c ++ CRLF ++ rest), acc) =
          Returns None ((eat_chunk (length c) (chunk_open p c), CRLF ++ rest), acc ++ c)) as H2.
  { rewrite flat_chunk_round.
    - cbn [chunk_open chunk_remaining_ set_state_ set_chunk_remaining_].
      rewrite Z.min_l by (rewrite len_app; pose proof (len_nonneg (CRLF ++ rest)); lia).
      unfold len. by rewrite Nat2Z.id, drop_app_length, take_app_length.
    - split; [done|]. simpl. lia.
    - by destruct c. }
  assert (flat_round ((eat_chunk (length c) (chunk_open p c), CRLF ++ rest), acc ++ c) =
          Returns None ((chunk_read p c, rest), acc ++ c)) as H3.
  { unfold flat_round, parse_round, out_bind, out_get. cbn [fst snd].
    change (state_ (eat_chunk (length c) (chunk_open p c))) with State.body_chunk_data. cbv iota.
    unfold read_chunk_data; run_defs. cbn [eat_chunk chunk_open chunk_remaining_ set_body_
      set_pending_consume_ set_chunk_remaining_ set_body_seen_ set_state_].
    unfold len at 1. rewrite Z.sub_diag. change (0 <? wrap64 0) with false. cbv beta iota. cbn [snd].
    rewrite (next_line_clean [] rest) by (split; apply not_elem_of_nil). done. }
  change (3 + k)%nat with (S (S (S k))). cbn [iter]. by rewrite H1, H2, H3.
Qed.

Fixpoint chunks_fit (p : RequestParser) (chunks : list bytes) : Prop :=
  match chunks with
  | [] => True
  | c :: rest => chunk_fits p c /\ chunks_fit (chunk_read p c) rest
  end.

Lemma flat_chunks chunks p (rest acc : bytes) k :
  state_ p = State.body_chunk_header -> chunks_fit p chunks ->
  iter (3 * length chunks + k) flat_round
    ((p, List.concat (map render_chunk chunks) ++ rest), acc) =
  iter k flat_round ((foldl chunk_read p chunks, rest), acc ++ List.concat chunks).
Proof.
  revert p acc; induction chunks as [|c chunks IH]; intros p acc Hst Hf.
  { by rewrite app_nil_r. }
  destruct Hf as [Hc Hf]. cbn [map List.concat foldl]. rewrite <- !app_assoc.
  replace (3 * length (c :: chunks) + k)%nat with (3 + (3 * length chunks + k))%nat by (simpl; lia).
  rewrite flat_chunk by done. rewrite IH by done. by rewrite app_assoc.
Qed.

Definition total_len (chunks : list bytes) : Z := len (List.concat chunks).

Lemma chunk_read_seen p c :
  chunk_fits p c -> body_seen_ (chunk_read p c) = body_seen_ p + len c.
Proof. intros (_ & _ & Hs & Hb & Hm). simpl. fold (len c). pose proof (len_nonneg c).
  by rewrite wrap64_small by lia. Qed.

(** Chunks within the chunk limit, in a body within the body limit, all fit. *)
Lemma chunks_fit_total chunks p :
  Forall (fun c => c <> [] /\ len c <= max_chunk_size (limits_ p)) chunks ->
  0 <= body_seen_ p -> body_seen_ p + total_len chunks <= max_body_size (limits_ p) ->
  max_body_size (limits_ p) <= UINT64_MAX ->
  chunks_fit p chunks /\
  body_seen_ (foldl chunk_read p chunks) = body_seen_ p + total_len chunks /\
  limits_ (foldl chunk_read p chunks) = limits_ p /\
  trailers_ (foldl chunk_read p chunks) = trailers_ p /\
  request_ (foldl chunk_read p chunks) = request_ p.
Proof.
  revert p; induction chunks as [|c chunks IH]; intros p Hall Hs Ht Hm.
  { unfold total_len, len in *. simpl in *. split_and!; done || lia. }
  apply Forall_cons in Hall as [[Hne Hc] Hall]. unfold total_len in *. cbn [List.concat foldl] in *.
  rewrite len_app in Ht. pose proof (len_nonneg c). pose proof (len_nonneg (List.concat chunks)).
  assert (chunk_fits p c) as Hf by (repeat split; try done; lia).
  destruct (IH (chunk_read p c)) as (H1 & H2 & H3 & H4 & H5); rewrite ?(chunk_read_seen p c Hf);
    try done; try (simpl; lia).
  rewrite H2, H3, H4, H5, (chunk_read_seen p c Hf), len_app. repeat split; done || lia.
Qed.

(** The last chunk and the empty trailer section. *)
Lemma flat_last_chunk p (rest acc : bytes) :
  state_ p = State.body_chunk_header -> 0 <= max_chunk_size (limits_ p) ->
  0 <= body_seen_ p <= max_body_size (limits_ p) -> max_body_size (limits_ p) <= UINT64_MAX ->
  iter 2 flat_round ((p, lit "0" ++ CRLF ++ CRLF ++ rest), acc) =
  Returns ParseStep.complete
    ((set_state_ State.done (set_state_ State.body_chunk_trailer (set_saw_last_chunk_ true p)), rest),
     acc).
Proof.
  intros Hst Hc Hs Hm. cbn [iter].
  assert (flat_round ((p, lit "0" ++ CRLF ++ CRLF ++ rest), acc) =
    Returns None ((set_state_ State.body_chunk_trailer (set_saw_last_chunk_ true p),
                   CRLF ++ rest), acc)) as ->.
  { unfold flat_round, parse_round, out_bind, out_get. cbn [fst snd]. rewrite Hst.
    change (lit "0") with (to_hex 0). rewrite read_chunk_header_size by (unfold UINT64_MAX in *; lia).
    done. }
  unfold flat_round, parse_round, out_bind, out_get. cbn [fst snd set_state_ state_].
  unfold read_chunk_trailer; run_defs.
  by rewrite (next_line_clean [] rest) by (split; apply not_elem_of_nil).
Qed.

(** C35: the chunked coding is read back as it was written.  A body
    written by [write_chunk] on each of any non-empty chunks within the limits
    and closed by [write_last_chunk] is collected by a client of the request
    parser as the concatenation of the chunks: the message completes, the body
    count is the number of bytes, no trailer appears, and whatever follows the
    body is left unread. *)
Theorem chunked_body_roundtrip (chunks : list bytes) (p : RequestParser) (out rest acc : bytes)
    (Hinv : parser_inv p) (Hslice : no_slice p) (Hst : state_ p = State.body_chunk_header)
    (Hchunks : Forall (fun c => c <> [] /\ len c <= max_chunk_size (limits_ p)) chunks)
    (Hbody : body_seen_ p + total_len chunks <= max_body_size (limits_ p)) :
  exists body p',
    write_chunks chunks out = Returns tt (out ++ body) /\
    client_run ((p, body ++ rest), acc) =
      Returns ParseStep.complete ((p', rest), acc ++ List.concat chunks) /\
    state_ p' = State.done /\ body_seen_ p' = body_seen_ p + total_len chunks /\
    trailers_ p' = trailers_ p /\ request_ p' = request_ p.
Proof.
  pose proof (inv_body _ Hinv) as [Hs Hb]. rewrite Hst in Hb.
  pose proof (inv_limits _ Hinv) as Hr. unfold limits_in_range in Hr.
  rewrite !Forall_cons in Hr.
  destruct (chunks_fit_total chunks p) as (Hfit & Hseen & Hlim & Htr & Hreq); [done|lia|lia|lia|].
  set (q := foldl chunk_read p chunks) in *.
  exists (render_body chunks),
    (set_state_ State.done (set_state_ State.body_chunk_trailer (set_saw_last_chunk_ true q))).
  split. { apply write_chunks_eq. eapply Forall_impl; [exact Hchunks|]. by intros c [? _]. }
  split; [|done].
  assert (state_ q = State.body_chunk_header) as Hq.
  { unfold q. destruct chunks as [|c chunks _] using rev_ind; [done|]. by rewrite foldl_snoc. }
  apply (client_run_by_rounds (3 * length chunks + 2)); [done| |done].
  unfold render_body. rewrite <- !app_assoc, flat_chunks by done.
  assert (0 <= total_len chunks) by apply len_nonneg.
  apply flat_last_chunk; rewrite ?Hlim, ?Hseen; [done|lia..].
Qed.

(** The parser after one call on a fresh connection. *)
Definition after_parse (l : Limits) (w : bytes) : RequestParser :=
  match parse (make_parser l, w) with
  | Returns _ s => s.1
  | _ => make_parser l
  end.

Lemma after_parse_inv l w : limits_in_range l -> parser_inv (after_parse l w).
Proof.
  intros Hl. pose proof (make_parser_inv l Hl) as Hi. unfold after_parse.
  pose proof (parse_wp (make_parser l, w) Hi) as Hwp. unfold wp in Hwp.
  destruct (parse (make_parser l, w)) as [step s|e s|]; [apply Hwp|done|done].
Qed.

(** A chunked request just past its head. *)
Definition chunked_parser : RequestParser :=
  after_parse default_limits
    (lit "POST / HTTP/1.1" ++ CRLF ++ lit "Transfer-Encoding: chunked" ++ CRLF ++ CRLF).

Lemma chunked_body_roundtrip_witness :
  exists body p',
    write_chunks [lit "abc"; lit "de"] [] = Returns tt ([] ++ body) /\
    client_run ((chunked_parser, body ++ lit "GET"), []) =
      Returns ParseStep.complete ((p', lit "GET"), [] ++ List.concat [lit "abc"; lit "de"]) /\
    state_ p' = State.done.
Proof.
  destruct (chunked_body_roundtrip [lit "abc"; lit "de"] chunked_parser [] (lit "GET") []
    (after_parse_inv _ _ default_limits_in_range)) as (body & p' & Hw & Hr & Hs & _).
  - vm_compute. split; reflexivity.
  - vm_compute. reflexivity.
  - repeat constructor; vm_compute; discriminate.
  - vm_compute. discriminate.
  - exists body, p'. split; [exact Hw|]. split; [exact Hr|exact Hs].
Defined.
