(* ===== verification/Timers.v ===== *)
(** * Timers: the timer queue, the wait computation and the post queue
    (core/src/loop_common.hpp, core/operation.hpp)

    Times are the steady clock's nanosecond ticks.  [std::map] is an association
    list kept in key order, so that iteration order is the order of the list. *)

From Stdlib Require Import Sorting.Sorted.
From S2P Require Import Prelude Errors.

Local Open Scope Z_scope.

(** [OperationId] and [kNoOperation] *)
Definition OperationId : Type := Z.
Definition kNoOperation : OperationId := 0.

Record TimerTarget := mk_target { operation : OperationId; is_deadline : bool }.

Record TimerHandle := mk_handle { th_deadline : Z; th_serial : Z }.

Definition no_timer : TimerHandle := mk_handle 0 0.

(** [TimerHandle::valid] *)
Definition handle_valid (h : TimerHandle) : bool := negb (th_serial h =? 0).

#[export] Instance timer_target_eq_dec : EqDecision TimerTarget.
Proof. solve_decision. Defined.

#[export] Instance timer_handle_eq_dec : EqDecision TimerHandle.
Proof. solve_decision. Defined.

(** [TimerQueue::Key] and its defaulted comparison. *)
Definition Key : Type := Z * Z.

Definition key_ltb (a b : Key) : bool :=
  (a.1 <? b.1) || ((a.1 =? b.1) && (a.2 <? b.2)).

Definition key_lt (a b : Key) : Prop := a.1 < b.1 \/ (a.1 = b.1 /\ a.2 < b.2).

Record TimerQueue := mk_timers { timers_ : list (Key * TimerTarget); serial_ : Z }.

Definition empty_timers : TimerQueue := mk_timers [] 0.

(** [std::map::emplace]: an existing key is left alone. *)
Fixpoint map_emplace (k : Key) (t : TimerTarget) (m : list (Key * TimerTarget))
    : list (Key * TimerTarget) :=
  match m with
  | [] => [(k, t)]
  | (k', t') :: m' =>
      if key_ltb k k' then (k, t) :: m
      else if key_ltb k' k then (k', t') :: map_emplace k t m'
      else m
  end.

(** [add(deadline, target)] *)
Definition timer_add (deadline : Z) (t : TimerTarget) (q : TimerQueue) : TimerQueue * TimerHandle :=
  let serial := wrap64 (serial_ q + 1) in
  (mk_timers (map_emplace (deadline, serial) t (timers_ q)) serial, mk_handle deadline serial).

(** [std::map::erase(key)] *)
Definition map_erase (k : Key) (m : list (Key * TimerTarget)) : list (Key * TimerTarget) :=
  List.filter (fun e => negb (bool_decide (e.1 = k))) m.

(** [cancel(handle)] *)
Definition timer_cancel (h : TimerHandle) (q : TimerQueue) : TimerQueue :=
  if handle_valid h
  then mk_timers (map_erase (th_deadline h, th_serial h) (timers_ q)) (serial_ q)
  else q.

(** [earliest()]: [None] stands for [time_point::max()]. *)
Definition earliest (q : TimerQueue) : option Z :=
  match timers_ q with
  | [] => None
  | (k, _) :: _ => Some k.1
  end.

(** [extract_expired(now, out)]: the loop on the front of the map. *)
Fixpoint expired_split (now : Z) (m : list (Key * TimerTarget))
    : list TimerTarget * list (Key * TimerTarget) :=
  match m with
  | (k, t) :: m' =>
      if k.1 <=? now
      then let '(out, rest) := expired_split now m' in (t :: out, rest)
      else ([], m)
  | [] => ([], [])
  end.

Definition extract_expired (now : Z) (q : TimerQueue) : list TimerTarget * TimerQueue :=
  let '(out, rest) := expired_split now (timers_ q) in (out, mk_timers rest (serial_ q)).

(** ** Waiting *)

Definition ns_per_ms : Z := 1000000.

(** [ceil<milliseconds>(d).count()] *)
Definition ceil_ms (d : Z) : Z := - ((- d) / ns_per_ms).

(** [resolve_timeout_ms].  [None] stands for [Clock::duration::min()] and for
    [time_point::max()], the values that mean "no bound". *)
Definition resolve_timeout_ms (caller_timeout earliest_deadline : option Z) (now : Z)
    (work_already_queued : bool) : Z :=
  if work_already_queued then 0
  else
    let limit :=
      match caller_timeout with
      | Some t => let rounded := ceil_ms t in if rounded <=? 0 then 0 else to_int32 rounded
      | None => -1
      end in
    match earliest_deadline with
    | Some d =>
        let remaining := d - now in
        let until_deadline := if remaining <=? 0 then 0 else to_int32 (ceil_ms remaining) in
        if limit <? 0 then until_deadline
        else if until_deadline <? limit then until_deadline else limit
    | None => limit
    end.

(** [OperationOptions]: whether the token has been stopped, and the deadline. *)
Record OperationOptions := mk_options { stop_requested : bool; opt_deadline : option Z }.

Definition no_options : OperationOptions := mk_options false None.

(** [rejected_before_submit(options)] at time [now]. *)
Definition rejected_before_submit (o : OperationOptions) (now : Z) : option Error :=
  if stop_requested o then Some (make_error_code Errc.cancelled)
  else match opt_deadline o with
       | Some d => if d <=? now then Some (make_error_code Errc.timed_out) else None
       | None => None
       end.

(** ** Facts: the key order *)

Lemma key_ltb_lt a b : key_ltb a b = true <-> key_lt a b.
Proof.
  unfold key_ltb, key_lt. rewrite orb_true_iff, andb_true_iff, !Z.ltb_lt, Z.eqb_eq. done.
Qed.

Lemma key_ltb_nlt a b : key_ltb a b = false <-> ~ key_lt a b.
Proof. rewrite <- key_ltb_lt. by destruct (key_ltb a b). Qed.

Lemma key_lt_trans a b c : key_lt a b -> key_lt b c -> key_lt a c.
Proof. unfold key_lt. lia. Qed.

Lemma key_lt_irrefl a : ~ key_lt a a.
Proof. unfold key_lt. lia. Qed.

Lemma key_trichotomy a b : ~ key_lt a b -> ~ key_lt b a -> a = b.
Proof. destruct a, b. unfold key_lt. simpl. intros. f_equal; lia. Qed.

(** ** Facts: the queue *)

Definition entry_lt (a b : Key * TimerTarget) : Prop := key_lt a.1 b.1.

(** Sorted, and no serial beyond the last one handed out. *)
Record timers_wf (q : TimerQueue) : Prop := {
  wf_sorted : StronglySorted entry_lt (timers_ q);
  wf_serials : Forall (fun e => 0 < e.1.2 <= serial_ q) (timers_ q);
  wf_serial : 0 <= serial_ q;
}.

Lemma Forall_lt_trans k m e :
  key_lt k e.1 -> Forall (entry_lt e) m -> Forall (fun x => key_lt k x.1) m.
Proof. intros Hk Hm. eapply Forall_impl; [exact Hm|]. intros x. by apply key_lt_trans. Qed.

(** A new key goes in between the smaller and the larger ones. *)
Lemma map_emplace_fresh k t m :
  StronglySorted entry_lt m -> Forall (fun e => e.1 <> k) m ->
  exists m1 m2, m = m1 ++ m2 /\ map_emplace k t m = m1 ++ (k, t) :: m2 /\
    StronglySorted entry_lt (map_emplace k t m).
Proof.
  induction m as [|[k' t'] m IH]; simpl; intros Hs Hf.
  { exists [], []. split_and!; try done. by repeat constructor. }
  apply StronglySorted_inv in Hs as [Hs Hall]. apply Forall_cons in Hf as [Hne Hf]. simpl in Hne.
  destruct (key_ltb k k') eqn:E1.
  - apply key_ltb_lt in E1. exists [], ((k', t') :: m). split_and!; try done.
    constructor; [by constructor|]. constructor; [done|]. by apply (Forall_lt_trans k m (k', t')).
  - destruct (key_ltb k' k) eqn:E2.
    + apply key_ltb_lt in E2. destruct (IH Hs Hf) as (m1 & m2 & -> & Hm & Hs').
      exists ((k', t') :: m1), m2. rewrite Hm in *. split_and!; try done.
      constructor; [done|]. rewrite Forall_app, Forall_cons in *. naive_solver.
    + apply key_ltb_nlt in E1, E2. by destruct (Hne (key_trichotomy _ _ E2 E1)).
Qed.

Lemma StronglySorted_filter {A} (R : A -> A -> Prop) P (l : list A) :
  StronglySorted R l -> StronglySorted R (List.filter P l).
Proof.
  induction 1 as [|a l Hs IH Hall]; simpl; [constructor|].
  destruct (P a); [|done]. constructor; [done|]. rewrite Forall_forall in *. intros x.
  rewrite list_elem_of_In, List.filter_In. intros [Hx _]. by apply Hall, list_elem_of_In.
Qed.

(** The loop takes exactly the entries that are due. *)
Lemma expired_split_spec now m :
  StronglySorted entry_lt m ->
  expired_split now m =
  (map snd (List.filter (fun e => e.1.1 <=? now) m), List.filter (fun e => negb (e.1.1 <=? now)) m).
Proof.
  induction m as [|[k t] m IH]; simpl; intros Hs; [done|].
  apply StronglySorted_inv in Hs as [Hs Hall]. rewrite IH by done.
  destruct (k.1 <=? now) eqn:E; simpl; [done|]. apply Z.leb_gt in E.
  assert (Forall (fun e => (e.1.1 <=? now) = false) m) as Hno.
  { eapply Forall_impl; [exact Hall|]. intros [[dx sx] tx] Hx. apply Z.leb_gt.
    destruct k as [dk sk]. unfold entry_lt, key_lt in Hx. simpl in *. lia. }
  clear IH Hs Hall. induction m as [|e m IHm]; simpl; [done|].
  apply Forall_cons in Hno as [He Hno]. rewrite He. simpl.
  specialize (IHm Hno). injection IHm as E1 E2. rewrite <- E1, <- E2. done.
Qed.

Lemma timer_cancel_wf h q : timers_wf q -> timers_wf (timer_cancel h q).
Proof.
  intros [Hs Hf Hn]. unfold timer_cancel. destruct (handle_valid h); [|done].
  constructor; simpl; [by apply StronglySorted_filter| |done].
  unfold map_erase. rewrite Forall_forall in *. intros x.
  rewrite list_elem_of_In, List.filter_In. intros [Hx _]. by apply Hf, list_elem_of_In.
Qed.

(** Serials stay within the 64 bits of the counter. *)
Definition serial_room (q : TimerQueue) : Prop := serial_ q < UINT64_MAX.

Lemma next_serial q : timers_wf q -> serial_room q -> wrap64 (serial_ q + 1) = serial_ q + 1.
Proof.
  intros Hq Hr. pose proof (wf_serial _ Hq). unfold wrap64, serial_room, UINT64_MAX in *.
  apply Z.mod_small. lia.
Qed.

Lemma fresh_key q deadline :
  timers_wf q -> Forall (fun e => e.1 <> (deadline, serial_ q + 1)) (timers_ q).
Proof.
  intros Hq. eapply Forall_impl; [exact (wf_serials _ Hq)|]. intros [[d s] t] Hs. simpl in *.
  intros [= _ ->]. lia.
Qed.

Lemma timer_add_spec deadline t q :
  timers_wf q -> serial_room q ->
  let '(q', h) := timer_add deadline t q in
  timers_wf q' /\ handle_valid h = true /\ th_deadline h = deadline /\ serial_ q' = th_serial h /\
  th_serial h = serial_ q + 1 /\
  exists m1 m2, timers_ q = m1 ++ m2 /\ timers_ q' = m1 ++ ((deadline, th_serial h), t) :: m2.
Proof.
  intros Hq Hr. unfold timer_add. rewrite next_serial by done. pose proof (wf_serial _ Hq).
  destruct (map_emplace_fresh (deadline, serial_ q + 1) t (timers_ q) (wf_sorted _ Hq)
    (fresh_key q deadline Hq)) as (m1 & m2 & E & Em & Hs).
  split_and!; simpl; try done.
  - constructor; simpl; [done| |lia]. rewrite Em. pose proof (wf_serials _ Hq) as Hf.
    rewrite E in Hf. apply Forall_app in Hf as [H1 H2].
    apply Forall_app. split; [|constructor].
    1,3: (eapply Forall_impl; [eassumption|]); simpl; intros; lia. simpl. lia.
  - apply negb_true_iff, Z.eqb_neq. simpl. lia.
  - by exists m1, m2.
Qed.

Lemma extract_expired_wf now q : timers_wf q -> timers_wf (extract_expired now q).2.
Proof.
  intros [Hs Hf Hn]. unfold extract_expired. rewrite expired_split_spec by done.
  constructor; simpl; [by apply StronglySorted_filter| |done].
  rewrite Forall_forall in *. intros x.
  rewrite list_elem_of_In, List.filter_In. intros [Hx _]. by apply Hf, list_elem_of_In.
Qed.

(** ** Membership *)

Definition key_of (h : TimerHandle) : Key := (th_deadline h, th_serial h).

Lemma timer_cancel_elem e h q :
  e ∈ timers_ (timer_cancel h q) <->
  e ∈ timers_ q /\ (handle_valid h = true -> e.1 <> key_of h).
Proof.
  unfold timer_cancel. destruct (handle_valid h); simpl; [|naive_solver].
  unfold map_erase. rewrite !list_elem_of_In, List.filter_In, negb_true_iff, bool_decide_eq_false.
  unfold key_of. naive_solver.
Qed.

Lemma timer_cancel_serial h q : serial_ (timer_cancel h q) = serial_ q.
Proof. unfold timer_cancel. by destruct (handle_valid h). Qed.

Lemma timer_add_elem d t q q' h :
  timers_wf q -> serial_room q -> timer_add d t q = (q', h) ->
  timers_wf q' /\ handle_valid h = true /\ th_serial h = serial_ q + 1 /\ serial_ q' = serial_ q + 1 /\
  forall e, e ∈ timers_ q' <-> e = (key_of h, t) \/ e ∈ timers_ q.
Proof.
  intros Hq Hr Ha. pose proof (timer_add_spec d t q Hq Hr) as Hs. rewrite Ha in Hs.
  destruct Hs as (Hq' & Hv & Hd & Hser & Hn & m1 & m2 & E & E').
  split_and!; try done; [congruence|]. intros e. rewrite E, E'. unfold key_of. rewrite Hd. set_solver.
Qed.

Lemma handle_invalid h : handle_valid h = false <-> th_serial h = 0.
Proof. unfold handle_valid. by rewrite negb_false_iff, Z.eqb_eq. Qed.

(** ** The queue against its specification *)

Inductive TimerOp :=
| op_add (deadline : Z) (t : TimerTarget)
| op_cancel (h : TimerHandle)
| op_expire (now : Z).

Definition timer_apply (op : TimerOp) (q : TimerQueue) : TimerQueue :=
  match op with
  | op_add d t => (timer_add d t q).1
  | op_cancel h => timer_cancel h q
  | op_expire now => (extract_expired now q).2
  end.

(** The specification: the live timers in the order they were registered. *)
Definition Live : Type := list (Key * TimerTarget) * Z.

Definition live_apply (op : TimerOp) (l : Live) : Live :=
  match op with
  | op_add d t => (l.1 ++ [((d, l.2 + 1), t)], l.2 + 1)
  | op_cancel h =>
      if handle_valid h
      then (List.filter (fun e => negb (bool_decide (e.1 = (th_deadline h, th_serial h)))) l.1, l.2)
      else l
  | op_expire now => (List.filter (fun e => negb (e.1.1 <=? now)) l.1, l.2)
  end.

Definition timer_run (ops : list TimerOp) (q : TimerQueue) : TimerQueue :=
  foldl (fun q op => timer_apply op q) q ops.
Definition live_run (ops : list TimerOp) (l : Live) : Live :=
  foldl (fun l op => live_apply op l) l ops.

Definition timers_refine (q : TimerQueue) (l : Live) : Prop :=
  timers_wf q /\ timers_ q ≡ₚ l.1 /\ serial_ q = l.2.

Lemma filter_Permutation {A} (P : A -> bool) (l1 l2 : list A) :
  l1 ≡ₚ l2 -> List.filter P l1 ≡ₚ List.filter P l2.
Proof.
  induction 1 as [|x l1 l2 _ IH|x y l|l1 l2 l3 _ IH1 _ IH2]; simpl; [done| | |by etransitivity].
  - destruct (P x); [by constructor|done].
  - destruct (P x), (P y); try done. by constructor.
Qed.

Lemma timer_apply_refines op q l :
  timers_refine q l -> serial_room q -> timers_refine (timer_apply op q) (live_apply op l).
Proof.
  intros (Hq & Hp & Hs) Hr. destruct op as [d t|h|now];
    cbn [timer_apply live_apply].
  - pose proof (timer_add_spec d t q Hq Hr) as Ha. destruct (timer_add d t q) as [q' h]. simpl.
    destruct Ha as (Hq' & _ & _ & Hser & Hnext & m1 & m2 & E & E').
    split_and!; [done| |simpl; congruence]. rewrite E', <- Hs, <- Hnext, <- Hp, E. simpl.
    rewrite <- app_assoc. apply Permutation_app_head. apply Permutation_cons_append.
  - pose proof (timer_cancel_wf h q Hq). unfold timer_cancel in *.
    destruct (handle_valid h); split_and!; try done. simpl. by apply filter_Permutation.
  - pose proof (extract_expired_wf now q Hq). unfold extract_expired in *.
    rewrite expired_split_spec in * by apply Hq. split_and!; try done. by apply filter_Permutation.
Qed.

Lemma live_serial ops l : 0 <= l.2 -> l.2 <= (live_run ops l).2 <= l.2 + Z.of_nat (length ops).
Proof.
  revert l; induction ops as [|op ops IH]; intros l Hl; simpl; [lia|].
  assert (l.2 <= (live_apply op l).2 <= l.2 + 1).
  { destruct op; simpl; [lia| |lia]. destruct (handle_valid h); simpl; lia. }
  specialize (IH (live_apply op l)). lia.
Qed.

Lemma timer_run_refines ops q l :
  timers_refine q l -> l.2 + Z.of_nat (length ops) <= UINT64_MAX ->
  timers_refine (timer_run ops q) (live_run ops l).
Proof.
  revert q l; induction ops as [|op ops IH]; intros q l Hr Hn; simpl in *; [done|].
  pose proof Hr as (Hq & _ & Hs). pose proof (wf_serial _ Hq).
  apply IH.
  - apply timer_apply_refines; [done|]. unfold serial_room. lia.
  - pose proof (live_serial [op] l). simpl in *. lia.
Qed.

(** the timer queue delivers every live timer exactly once, in the
    order they came due.  After any sequence of registrations, cancellations and
    expiries, the queue holds precisely the timers registered and neither
    cancelled nor delivered; [extract_expired] returns precisely those whose time
    has come, earliest first and, on the same instant, in the order they were
    registered, and leaves the others; [earliest] is a lower bound that some
    timer attains. *)
Theorem timer_queue_exact (ops : list TimerOp) (now : Z)
    (Hops : Z.of_nat (length ops) <= UINT64_MAX) :
  let q := timer_run ops empty_timers in
  let live := (live_run ops ([], 0)).1 in
  timers_ q ≡ₚ live /\
  (let '(out, q') := extract_expired now q in
   timers_ q' ≡ₚ List.filter (fun e => negb (e.1.1 <=? now)) live /\
   exists due, out = map snd due /\ due ≡ₚ List.filter (fun e => e.1.1 <=? now) live /\
     StronglySorted entry_lt due) /\
  match earliest q with
  | None => live = []
  | Some d => Forall (fun e => d <= e.1.1) live /\ Exists (fun e => e.1.1 = d) live
  end.
Proof.
  cbv zeta. destruct (timer_run_refines ops empty_timers ([], 0)) as (Hq & Hp & _).
  { split_and!; [constructor; [constructor|done|done]|done|done]. }
  { simpl. lia. }
  split; [done|]. unfold extract_expired. rewrite expired_split_spec by apply Hq. split.
  - split; [by apply filter_Permutation|].
    exists (List.filter (fun e => e.1.1 <=? now) (timers_ (timer_run ops empty_timers))).
    split_and!; [done|by apply filter_Permutation|apply StronglySorted_filter, Hq].
  - unfold earliest. pose proof (wf_sorted _ Hq) as Hs.
    destruct (timers_ (timer_run ops empty_timers)) as [|[k t] m].
    { by apply Permutation_nil_l in Hp. }
    apply StronglySorted_inv in Hs as [_ Hall]. rewrite <- Hp. split; [|by constructor].
    constructor; [simpl; lia|]. eapply Forall_impl; [exact Hall|].
    intros [[dx sx] tx] Hx. destruct k as [dk sk]. unfold entry_lt, key_lt in Hx. simpl in *. lia.
Qed.

Lemma timer_queue_exact_witness :
  let ops := [op_add 30 (mk_target 1 false); op_add 20 (mk_target 2 true);
              op_add 20 (mk_target 3 false); op_cancel (mk_handle 30 1)] in
  Z.of_nat (length ops) <= UINT64_MAX /\
  timers_ (timer_run ops empty_timers) ≡ₚ (live_run ops ([], 0)).1 /\
  (extract_expired 25 (timer_run ops empty_timers)).1 = [mk_target 2 true; mk_target 3 false].
Proof.
  split; [vm_compute; discriminate|]. split; [|reflexivity].
  apply (timer_queue_exact [op_add 30 (mk_target 1 false); op_add 20 (mk_target 2 true);
              op_add 20 (mk_target 3 false); op_cancel (mk_handle 30 1)] 25).
  vm_compute. discriminate.
Defined.

(** ** The wait computation *)

Lemma ceil_ms_spec d : ceil_ms d * ns_per_ms - ns_per_ms < d <= ceil_ms d * ns_per_ms.
Proof.
  unfold ceil_ms, ns_per_ms. pose proof (Z.div_mod (- d) 1000000).
  pose proof (Z.mod_pos_bound (- d) 1000000). lia.
Qed.

Definition fits_int32 (o : option Z) : Prop :=
  match o with Some d => ceil_ms d < 2 ^ 31 | None => True end.

(** The milliseconds a bound stands for. *)
Definition bound_ms (d : Z) : Z := Z.max 0 (ceil_ms d).

Lemma to_int32_small z : 0 <= z < 2 ^ 31 -> to_int32 z = z.
Proof.
  intros Hz. unfold to_int32. rewrite Z.mod_small; lia.
Qed.

(** The loop blocks for exactly as long as it may.  When the bounds are
    representable in the [int] of milliseconds, [resolve_timeout_ms] is 0 with
    work queued, negative (block for ever) only with no bound at all, and
    otherwise the smaller of the caller's timeout and the time to the nearest
    deadline, each rounded up to a millisecond and never below zero; so the loop
    wakes at or after a deadline it waited for, by less than a millisecond. *)
Theorem resolve_timeout_exact (caller deadline : option Z) (now : Z) (queued : bool)
    (Hc : fits_int32 caller) (Hd : fits_int32 ((fun d => d - now) <$> deadline)) :
  let r := resolve_timeout_ms caller deadline now queued in
  (queued = true -> r = 0) /\
  (queued = false ->
   match caller, deadline with
   | None, None => r < 0
   | Some t, None => r = bound_ms t
   | None, Some d => r = bound_ms (d - now)
   | Some t, Some d => r = Z.min (bound_ms t) (bound_ms (d - now))
   end) /\
  (queued = false -> caller = None ->
   match deadline with
   | Some d => d <= now + r * ns_per_ms /\ (now < d -> now + r * ns_per_ms < d + ns_per_ms)
   | None => True
   end).
Proof.
  cbv zeta. unfold resolve_timeout_ms. split; [by intros ->|].
  assert (forall d, ceil_ms d < 2 ^ 31 ->
    (if d <=? 0 then 0 else to_int32 (ceil_ms d)) = bound_ms d /\
    (if ceil_ms d <=? 0 then 0 else to_int32 (ceil_ms d)) = bound_ms d) as Hb.
  { intros d Hlt. pose proof (ceil_ms_spec d). unfold bound_ms, ns_per_ms in *.
    split; case_match; bool_facts; rewrite ?to_int32_small by lia; lia. }
  assert (forall d, 0 <= bound_ms d) by (intros; unfold bound_ms; lia).
  destruct caller as [t|], deadline as [d|]; simpl in *;
    repeat match goal with Hx : ceil_ms ?x < 2 ^ 31 |- _ =>
      let B1 := fresh in let B2 := fresh in
      destruct (Hb x Hx) as [B1 B2]; rewrite ?B1, ?B2; clear Hx end.
  - split; [|done]. intros ->. rewrite ltb_false by done.
    destruct (bound_ms (d - now) <? bound_ms t) eqn:E; bool_facts; lia.
  - split; [|done]. by intros ->.
  - split; intros ->; [done|]. intros _. pose proof (ceil_ms_spec (d - now)).
    unfold bound_ms, ns_per_ms in *. lia.
  - split; [by intros ->|done].
Qed.

Lemma resolve_timeout_exact_witness :
  fits_int32 (Some 5000000000) /\
  resolve_timeout_ms (Some 5000000000) (Some 2000001) 0 false = 3.
Proof.
  assert (fits_int32 (Some 5000000000)) as Hc by (vm_compute; reflexivity).
  split; [exact Hc|].
  destruct (resolve_timeout_exact (Some 5000000000) (Some 2000001) 0 false Hc
    ltac:(vm_compute; reflexivity)) as (_ & Hr & _).
  rewrite (Hr eq_refl). reflexivity.
Defined.

(** The requirement is needed.  A single deadline 2^31
    milliseconds away (under 25 days) makes the conversion to [int] negative,
    which the pollers read as "block for ever"; with a caller timeout of one
    second in force, the truncated value wins over it. *)
Theorem resolve_timeout_truncates :
  let far := 2 ^ 31 * ns_per_ms in
  resolve_timeout_ms None (Some far) 0 false < 0 /\
  resolve_timeout_ms (Some (1000 * ns_per_ms)) (Some far) 0 false < 0.
Proof. split; vm_compute; reflexivity. Qed.
