(* ===== verification/EventLoop.v ===== *)
(** * EventLoop: the POSIX event loop's bookkeeping
    (core/src/event_loop_posix.cpp, core/src/poller.hpp, poller_epoll.cpp)

    [Loop] holds the members of [EventLoop::Impl] behind its mutex, and the
    kernel's one-shot registrations as the poller installs them.  Each method is
    a function on it; what the kernel answers is an argument.

    A resumed coroutine may call back into the loop.  Resumptions are therefore
    not inlined: the calls still to be made ([finalize], re-arming, posted work)
    are a list [todo], taken one at a time, and other calls may come in between. *)

From stdpp Require Import gmap.
From S2P Require Import Prelude Errors Timers.

Local Open Scope Z_scope.

(** ** Poller *)

(** [Interest] as the set of its two flags. *)
Record Interest := mk_interest { i_read : bool; i_write : bool }.

#[export] Instance interest_eq_dec : EqDecision Interest.
Proof. solve_decision. Defined.

Definition interest_none : Interest := mk_interest false false.

(** [operator|] *)
Definition interest_or (a b : Interest) : Interest :=
  mk_interest (i_read a || i_read b) (i_write a || i_write b).

Record ReadyEvent := mk_event { ev_fd : Z; ev_readable : bool; ev_writable : bool; ev_failed : bool }.

(** [Poller::arm] on epoll: an empty interest is refused; otherwise the
    descriptor's registration is replaced, unless the kernel refuses. *)
Definition poller_arm (fd : Z) (i : Interest) (kernel : option Error) (r : gmap Z Interest)
    : Result unit * gmap Z Interest :=
  if bool_decide (i = interest_none) then (Fail (make_error_code Errc.invalid_argument), r)
  else match kernel with
       | Some e => (Fail e, r)
       | None => (Ok tt, <[fd := i]> r)
       end.

(** [Poller::disarm]: the descriptor's registration is removed, if there is one,
    unless the kernel refuses. *)
Definition poller_disarm (fd : Z) (kernel : option Error) (r : gmap Z Interest)
    : Result unit * gmap Z Interest :=
  match kernel with
  | Some e => (Fail e, r)
  | None => (Ok tt, delete fd r)
  end.

(** ** The loop's state *)

Module Kind.
Inductive t :=
| readiness
| timer.
End Kind.

#[export] Instance kind_eq_dec : EqDecision Kind.t.
Proof. solve_decision. Defined.

Record Operation := mk_operation {
  op_id : OperationId;
  op_handle : Z;
  op_kind : Kind.t;
  op_fd : Z;
  op_writable : bool;
  op_armed : bool;
  op_wake : TimerHandle;
  op_deadline : TimerHandle;
}.

Record FdWaiters := mk_waiters { w_read : OperationId; w_write : OperationId }.

Definition no_waiters : FdWaiters := mk_waiters kNoOperation kNoOperation.

(** [FdWaiters::empty] *)
Definition waiters_empty (w : FdWaiters) : bool :=
  (w_read w =? kNoOperation) && (w_write w =? kNoOperation).

(** [FdWaiters::interest] *)
Definition interest (w : FdWaiters) : Interest :=
  let set := interest_none in
  let set := if negb (w_read w =? kNoOperation) then interest_or set (mk_interest true false) else set in
  if negb (w_write w =? kNoOperation) then interest_or set (mk_interest false true) else set.

(** The slot of one direction. *)
Definition slot (writable : bool) (w : FdWaiters) : OperationId :=
  if writable then w_write w else w_read w.
Definition set_slot (writable : bool) (id : OperationId) (w : FdWaiters) : FdWaiters :=
  if writable then mk_waiters (w_read w) id else mk_waiters id (w_write w).

Definition Work : Type := Z.

(** What the loop still has to do outside its lock. *)
Inductive Action :=
| do_rearm (fd : Z) (i : Interest)
| do_finalize (id : OperationId) (outcome : Result unit)
| do_run (w : Work).

Record Loop := mk_loop {
  operations_ : gmap Z Operation;
  fd_waiters_ : gmap Z FdWaiters;
  l_timers : TimerQueue;
  posted_ : list Work;
  pending_cancels_ : list OperationId;
  next_id_ : Z;
  stop_requested_ : bool;
  shutting_down_ : bool;
  registrations : gmap Z Interest;
}.

Definition new_loop : Loop :=
  {| operations_ := ∅; fd_waiters_ := ∅; l_timers := empty_timers; posted_ := [];
     pending_cancels_ := []; next_id_ := kNoOperation; stop_requested_ := false;
     shutting_down_ := false; registrations := ∅ |}.

Definition set_operations (v : gmap Z Operation) (l : Loop) : Loop :=
  {| operations_ := v; fd_waiters_ := fd_waiters_ l; l_timers := l_timers l; posted_ := posted_ l; pending_cancels_ := pending_cancels_ l; next_id_ := next_id_ l; stop_requested_ := stop_requested_ l; shutting_down_ := shutting_down_ l; registrations := registrations l |}.
Definition set_fd_waiters (v : gmap Z FdWaiters) (l : Loop) : Loop :=
  {| operations_ := operations_ l; fd_waiters_ := v; l_timers := l_timers l; posted_ := posted_ l; pending_cancels_ := pending_cancels_ l; next_id_ := next_id_ l; stop_requested_ := stop_requested_ l; shutting_down_ := shutting_down_ l; registrations := registrations l |}.
Definition set_timers (v : TimerQueue) (l : Loop) : Loop :=
  {| operations_ := operations_ l; fd_waiters_ := fd_waiters_ l; l_timers := v; posted_ := posted_ l; pending_cancels_ := pending_cancels_ l; next_id_ := next_id_ l; stop_requested_ := stop_requested_ l; shutting_down_ := shutting_down_ l; registrations := registrations l |}.
Definition set_posted (v : list Work) (l : Loop) : Loop :=
  {| operations_ := operations_ l; fd_waiters_ := fd_waiters_ l; l_timers := l_timers l; posted_ := v; pending_cancels_ := pending_cancels_ l; next_id_ := next_id_ l; stop_requested_ := stop_requested_ l; shutting_down_ := shutting_down_ l; registrations := registrations l |}.
Definition set_cancels (v : list OperationId) (l : Loop) : Loop :=
  {| operations_ := operations_ l; fd_waiters_ := fd_waiters_ l; l_timers := l_timers l; posted_ := posted_ l; pending_cancels_ := v; next_id_ := next_id_ l; stop_requested_ := stop_requested_ l; shutting_down_ := shutting_down_ l; registrations := registrations l |}.
Definition set_next_id (v : Z) (l : Loop) : Loop :=
  {| operations_ := operations_ l; fd_waiters_ := fd_waiters_ l; l_timers := l_timers l; posted_ := posted_ l; pending_cancels_ := pending_cancels_ l; next_id_ := v; stop_requested_ := stop_requested_ l; shutting_down_ := shutting_down_ l; registrations := registrations l |}.
Definition set_stop (v : bool) (l : Loop) : Loop :=
  {| operations_ := operations_ l; fd_waiters_ := fd_waiters_ l; l_timers := l_timers l; posted_ := posted_ l; pending_cancels_ := pending_cancels_ l; next_id_ := next_id_ l; stop_requested_ := v; shutting_down_ := shutting_down_ l; registrations := registrations l |}.
Definition set_shutting_down (v : bool) (l : Loop) : Loop :=
  {| operations_ := operations_ l; fd_waiters_ := fd_waiters_ l; l_timers := l_timers l; posted_ := posted_ l; pending_cancels_ := pending_cancels_ l; next_id_ := next_id_ l; stop_requested_ := stop_requested_ l; shutting_down_ := v; registrations := registrations l |}.
Definition set_registrations (v : gmap Z Interest) (l : Loop) : Loop :=
  {| operations_ := operations_ l; fd_waiters_ := fd_waiters_ l; l_timers := l_timers l; posted_ := posted_ l; pending_cancels_ := pending_cancels_ l; next_id_ := next_id_ l; stop_requested_ := stop_requested_ l; shutting_down_ := shutting_down_ l; registrations := v |}.

(** [fd_waiters_[fd]], which inserts an empty entry when there is none. *)
Definition waiters_of (fd : Z) (l : Loop) : FdWaiters := default no_waiters (fd_waiters_ l !! fd).

(** Store an entry, or erase it once it is empty. *)
Definition put_waiters (fd : Z) (w : FdWaiters) (l : Loop) : Loop :=
  if waiters_empty w then set_fd_waiters (delete fd (fd_waiters_ l)) l
  else set_fd_waiters (<[fd := w]> (fd_waiters_ l)) l.

(** ** Removing an operation *)

Record Unlinked := mk_unlinked {
  u_handle : Z;
  u_fd : Z;
  u_remaining : Interest;
  u_registered : bool;
}.

(** [unlink(id)]; [None] is [found == false]. *)
Definition unlink (id : OperationId) (l : Loop) : option Unlinked * Loop :=
  match operations_ l !! id with
  | None => (None, l)
  | Some op =>
      let l := set_operations (delete id (operations_ l)) l in
      let out := mk_unlinked (op_handle op) (-1) interest_none false in
      let '(out, l) :=
        match op_kind op with
        | Kind.readiness =>
            match fd_waiters_ l !! op_fd op with
            | Some w =>
                let w := if slot (op_writable op) w =? id
                         then set_slot (op_writable op) kNoOperation w else w in
                (mk_unlinked (op_handle op) (op_fd op) (interest w) (op_armed op),
                 put_waiters (op_fd op) w l)
            | None => (out, l)
            end
        | Kind.timer => (out, l)
        end in
      let l := set_timers (timer_cancel (op_wake op) (l_timers l)) l in
      (Some out, set_timers (timer_cancel (op_deadline op) (l_timers l)) l)
  end.

(** [release_registration(unlinked)]; [kernel] is the poller's answer, which is
    ignored. *)
Definition release_registration (u : Unlinked) (kernel : option Error) (l : Loop) : Loop :=
  if negb (u_registered u) || (u_fd u <? 0) || shutting_down_ l then l
  else if bool_decide (u_remaining u = interest_none)
  then set_registrations (poller_disarm (u_fd u) kernel (registrations l)).2 l
  else set_registrations (poller_arm (u_fd u) (u_remaining u) kernel (registrations l)).2 l.

(** [discard(id)] *)
Definition discard (id : OperationId) (kernel : option Error) (l : Loop) : Loop :=
  let '(u, l) := unlink id l in
  match u with
  | Some u => release_registration u kernel l
  | None => l
  end.

(** [finalize(id, outcome)] up to the resumption: the handle to resume, if the
    operation was still there. *)
Definition finalize (id : OperationId) (kernel : option Error) (l : Loop) : option Z * Loop :=
  let '(u, l) := unlink id l in
  match u with
  | None => (None, l)
  | Some u => (Some (u_handle u), release_registration u kernel l)
  end.

(** ** Submitting *)

(** The part of [add_waiter] under the lock: the id, or [None] when the
    direction is taken. *)
Definition insert_waiter (fd : Z) (writable : bool) (o : OperationOptions) (handle : Z) (l : Loop)
    : option (OperationId * Interest) * Loop :=
  let w := waiters_of fd l in
  if negb (slot writable w =? kNoOperation) then (None, l)
  else
    let id := wrap64 (next_id_ l + 1) in
    let l := set_next_id id l in
    let '(timers, deadline) :=
      match opt_deadline o with
      | Some d => timer_add d (mk_target id true) (l_timers l)
      | None => (l_timers l, no_timer)
      end in
    let op := {| op_id := id; op_handle := handle; op_kind := Kind.readiness; op_fd := fd;
                 op_writable := writable; op_armed := true; op_wake := no_timer;
                 op_deadline := deadline |} in
    let w := set_slot writable id w in
    (Some (id, interest w),
     set_fd_waiters (<[fd := w]> (fd_waiters_ l))
       (set_timers timers (set_operations (<[id := op]> (operations_ l)) l))).

(** [add_waiter].  [now] is the clock, [kernel] the answer of [poller_.arm] and
    of the release of a registration that could not be made. *)
Definition add_waiter (fd : Z) (writable : bool) (o : OperationOptions) (handle now : Z)
    (kernel kernel' : option Error) (l : Loop) : Result OperationId * Loop :=
  if fd <? 0 then (Fail (make_error_code Errc.invalid_argument), l)
  else if shutting_down_ l then (Fail (make_error_code Errc.cancelled), l)
  else match rejected_before_submit o now with
       | Some e => (Fail e, l)
       | None =>
           match insert_waiter fd writable o handle l with
           | (None, l) => (Fail (make_error_code Errc.invalid_argument), l)
           | (Some (id, combined), l) =>
               match poller_arm fd combined kernel (registrations l) with
               | (Fail e, _) => (Fail e, discard id kernel' l)
               | (Ok _, r) => (Ok id, set_registrations r l)
               end
           end
       end.

(** The part of [add_timer] under the lock. *)
Definition insert_timer (wake_at : Z) (o : OperationOptions) (handle : Z) (l : Loop)
    : OperationId * Loop :=
  let id := wrap64 (next_id_ l + 1) in
  let '(timers, wake) := timer_add wake_at (mk_target id false) (l_timers l) in
  let '(timers, deadline) :=
    match opt_deadline o with
    | Some d => timer_add d (mk_target id true) timers
    | None => (timers, no_timer)
    end in
  let op := {| op_id := id; op_handle := handle; op_kind := Kind.timer; op_fd := -1;
               op_writable := false; op_armed := false; op_wake := wake;
               op_deadline := deadline |} in
  (id, set_timers timers (set_operations (<[id := op]> (operations_ l)) (set_next_id id l))).

(** [add_timer] *)
Definition add_timer (wake_at : Z) (o : OperationOptions) (handle now : Z) (l : Loop)
    : Result OperationId * Loop :=
  if shutting_down_ l then (Fail (make_error_code Errc.cancelled), l)
  else match rejected_before_submit o now with
       | Some e => (Fail e, l)
       | None => let '(id, l) := insert_timer wake_at o handle l in (Ok id, l)
       end.

(** [request_cancel(id)] *)
Definition request_cancel (id : OperationId) (l : Loop) : Loop :=
  match operations_ l !! id with
  | None => l
  | Some _ => set_cancels (pending_cancels_ l ++ [id]) l
  end.

(** [post(work)] *)
Definition post (w : Work) (l : Loop) : Loop :=
  if shutting_down_ l then l else set_posted (posted_ l ++ [w]) l.

(** [stop()] *)
Definition stop (l : Loop) : Loop := set_stop true l.

(** [outstanding()] *)
Definition outstanding (l : Loop) : nat := (size (operations_ l) + length (posted_ l))%nat.

(** ** Failing the waiters of a descriptor *)

Definition disarm_operation (id : OperationId) (l : Loop) : Loop :=
  match operations_ l !! id with
  | Some op =>
      set_operations
        (<[id := {| op_id := op_id op; op_handle := op_handle op; op_kind := op_kind op;
                    op_fd := op_fd op; op_writable := op_writable op; op_armed := false;
                    op_wake := op_wake op; op_deadline := op_deadline op |}]> (operations_ l)) l
  | None => l
  end.

(** [fail_waiters(fd, error)] up to its [finalize] calls. *)
Definition fail_waiters (fd : Z) (e : Error) (l : Loop) : list Action * Loop :=
  match fd_waiters_ l !! fd with
  | None => ([], l)
  | Some w =>
      let l := disarm_operation (w_write w) (disarm_operation (w_read w) l) in
      ([do_finalize (w_read w) (Fail e); do_finalize (w_write w) (Fail e)],
       set_fd_waiters (delete fd (fd_waiters_ l)) l)
  end.

(** [detach(fd)] as far as descriptors are concerned; [kernel] is the poller's
    answer, which is ignored. *)
Definition detach (fd : Z) (kernel : option Error) (l : Loop) : list Action * Loop :=
  fail_waiters fd (make_error_code Errc.cancelled)
    (set_registrations (poller_disarm fd kernel (registrations l)).2 l).

(** ** One iteration *)

(** [claim(slot)] on the entry of [fd]: the resolution it adds, and the entry
    with the slot cleared. *)
Definition claim (writable : bool) (w : FdWaiters) (l : Loop)
    : list Action * FdWaiters * Loop :=
  let id := slot writable w in
  if id =? kNoOperation then ([], w, l)
  else ([do_finalize id (Ok tt)], set_slot writable kNoOperation w, disarm_operation id l).

(** One event of the batch: the operations resolved, the descriptor to re-arm,
    and the state. *)
Definition on_event (wake_fd : Z) (ev : ReadyEvent) (l : Loop) : list Action * list Action * Loop :=
  if ev_fd ev =? wake_fd then ([], [], l)
  else match fd_waiters_ l !! ev_fd ev with
       | None => ([], [], l)
       | Some w =>
           let '(r1, w, l) :=
             if ev_readable ev || ev_failed ev then claim false w l else ([], w, l) in
           let '(r2, w, l) :=
             if ev_writable ev || ev_failed ev then claim true w l else ([], w, l) in
           (r1 ++ r2,
            if waiters_empty w then [] else [do_rearm (ev_fd ev) (interest w)],
            put_waiters (ev_fd ev) w l)
       end.

Fixpoint on_events (wake_fd : Z) (evs : list ReadyEvent) (l : Loop)
    : list Action * list Action * Loop :=
  match evs with
  | [] => ([], [], l)
  | ev :: rest =>
      let '(r, a, l) := on_event wake_fd ev l in
      let '(rs, arms, l) := on_events wake_fd rest l in
      (r ++ rs, a ++ arms, l)
  end.

(** The outcome a due timer stands for. *)
Definition timer_outcome (t : TimerTarget) : Action :=
  do_finalize (operation t)
    (if is_deadline t then Fail (make_error_code Errc.timed_out) else Ok tt).

(** [run_once] between the return of [poll] with [evs] and the first call made
    outside the lock: everything due is taken out of its queue, in the order it
    will be delivered. *)
Definition collect (wake_fd : Z) (evs : list ReadyEvent) (now : Z) (l : Loop)
    : list Action * Loop :=
  let '(resolved, rearm, l) := on_events wake_fd evs l in
  let '(expired, timers) := extract_expired now (l_timers l) in
  let cancels := pending_cancels_ l in
  let to_run := posted_ l in
  let l := set_posted [] (set_cancels [] (set_timers timers l)) in
  (rearm ++
   (resolved ++ map timer_outcome expired ++
    map (fun id => do_finalize id (Fail (make_error_code Errc.cancelled))) cancels) ++
   map do_run to_run, l).

(** The kernel side of an event: its one-shot registration is spent. *)
Definition fired (evs : list ReadyEvent) (l : Loop) : Loop :=
  set_registrations (foldl (fun r ev => delete (ev_fd ev) r) (registrations l) evs) l.

(** How long [run_once] may block. *)
Definition poll_timeout (timeout : option Z) (now : Z) (l : Loop) : Z :=
  let queued := negb (length (posted_ l) =? 0)%nat || negb (length (pending_cancels_ l) =? 0)%nat ||
                stop_requested_ l in
  resolve_timeout_ms timeout (earliest (l_timers l)) now queued.

(** [shutdown()] up to its [finalize] calls; a second call does nothing. *)
Definition shutdown (l : Loop) : list Action * Loop :=
  if shutting_down_ l then ([], l)
  else
    let l := set_shutting_down true l in
    (map (fun id => do_finalize id (Fail (make_error_code Errc.cancelled)))
       (map fst (map_to_list (operations_ l))),
     set_posted [] l).
