(* ===== verification/EventLoopInv.v ===== *)
(** * EventLoopInv: every suspended operation resolves exactly once

    The loop's bookkeeping as a step relation: submissions, cancellations, posted
    work, detaching, iterations and shutdown in any order, with the resumptions
    of an iteration taken one at a time between them. *)

From stdpp Require Import gmap.
From S2P Require Import Prelude Errors Timers EventLoop.

Local Open Scope Z_scope.

(** ** Worlds and steps *)

(** The loop, the calls it still has to make, the resumptions made so far (id,
    handle, outcome), the operations handed out and the posted work run. *)
Record World := mk_world {
  w_loop : Loop;
  w_todo : list Action;
  w_log : list (OperationId * Z * Result unit);
  w_issued : list (OperationId * Z);
  w_ran : list Work;
}.

Definition new_world : World := mk_world new_loop [] [] [] [].

(** Make the next call: what the kernel answers to it is [kernel]. *)
Definition perform (a : Action) (kernel : option Error) (w : World) : World :=
  match a with
  | do_rearm fd i =>
      match poller_arm fd i kernel (registrations (w_loop w)) with
      | (Ok _, r) =>
          mk_world (set_registrations r (w_loop w)) (w_todo w) (w_log w) (w_issued w) (w_ran w)
      | (Fail e, _) =>
          let '(acts, l) := fail_waiters fd e (w_loop w) in
          mk_world l (acts ++ w_todo w) (w_log w) (w_issued w) (w_ran w)
      end
  | do_finalize id outcome =>
      match finalize id kernel (w_loop w) with
      | (Some handle, l) =>
          mk_world l (w_todo w) (w_log w ++ [(id, handle, outcome)]) (w_issued w) (w_ran w)
      | (None, l) => mk_world l (w_todo w) (w_log w) (w_issued w) (w_ran w)
      end
  | do_run work => mk_world (w_loop w) (w_todo w) (w_log w) (w_issued w) (w_ran w ++ [work])
  end.

(** The outcome of a submission: an id is handed to the coroutine that suspends. *)
Definition submitted (r : Result OperationId) (handle : Z) (l : Loop) (w : World) : World :=
  mk_world l (w_todo w) (w_log w)
    (match r with Ok id => w_issued w ++ [(id, handle)] | Fail _ => w_issued w end) (w_ran w).

(** The counters are 64 bits wide and never run out. *)
Definition room (l : Loop) : Prop :=
  next_id_ l < UINT64_MAX /\ serial_ (l_timers l) + 2 <= UINT64_MAX.

Definition with_loop (l : Loop) (w : World) : World :=
  mk_world l (w_todo w) (w_log w) (w_issued w) (w_ran w).

Inductive step : World -> World -> Prop :=
| step_waiter w fd writable o handle now k k' r l :
    room (w_loop w) ->
    add_waiter fd writable o handle now k k' (w_loop w) = (r, l) ->
    step w (submitted r handle l w)
| step_timer w wake_at o handle now r l :
    room (w_loop w) ->
    add_timer wake_at o handle now (w_loop w) = (r, l) ->
    step w (submitted r handle l w)
| step_cancel w id : step w (with_loop (request_cancel id (w_loop w)) w)
| step_post w work : step w (with_loop (post work (w_loop w)) w)
| step_stop w : step w (with_loop (stop (w_loop w)) w)
| step_detach w fd kernel acts l :
    detach fd kernel (w_loop w) = (acts, l) ->
    step w (mk_world l (acts ++ w_todo w) (w_log w) (w_issued w) (w_ran w))
| step_run_once w wake_fd evs now acts l :
    w_todo w = [] -> shutting_down_ (w_loop w) = false ->
    collect wake_fd evs now (fired evs (w_loop w)) = (acts, l) ->
    step w (mk_world l acts (w_log w) (w_issued w) (w_ran w))
| step_perform w a rest kernel :
    w_todo w = a :: rest ->
    step w (perform a kernel (mk_world (w_loop w) rest (w_log w) (w_issued w) (w_ran w)))
| step_shutdown w acts l :
    w_todo w = [] -> shutdown (w_loop w) = (acts, l) ->
    step w (mk_world l acts (w_log w) (w_issued w) (w_ran w)).

Definition reachable (w : World) : Prop := rtc step new_world w.

(** ** The invariant *)

(** The two timers of an operation: its wake-up and its deadline. *)
Definition timer_of (is_dl : bool) (op : Operation) : TimerHandle :=
  if is_dl then op_deadline op else op_wake op.

(** [P id]: a [finalize] of [id] is still to come. *)
Record loop_inv (l : Loop) (P : OperationId -> Prop) : Prop := {
  inv_ids : forall id op, operations_ l !! id = Some op -> 0 < id <= next_id_ l;
  inv_next : 0 <= next_id_ l;
  inv_slots : forall fd w, fd_waiters_ l !! fd = Some w ->
    waiters_empty w = false /\
    forall dir, slot dir w <> kNoOperation -> exists op, operations_ l !! slot dir w = Some op /\
      op_kind op = Kind.readiness /\ op_fd op = fd /\ op_writable op = dir;
  inv_waiting : forall id op, operations_ l !! id = Some op -> op_kind op = Kind.readiness ->
    P id \/ exists w, fd_waiters_ l !! op_fd op = Some w /\ slot (op_writable op) w = id;
  inv_timers : timers_wf (l_timers l);
  inv_targets : forall d s t, ((d, s), t) ∈ timers_ (l_timers l) ->
    exists op, operations_ l !! operation t = Some op /\ timer_of (is_deadline t) op = mk_handle d s;
  inv_sleeping : forall id op, operations_ l !! id = Some op -> op_kind op = Kind.timer ->
    handle_valid (op_wake op) = true;
  inv_due : forall id op dl, operations_ l !! id = Some op ->
    handle_valid (timer_of dl op) = true ->
    P id \/ ((th_deadline (timer_of dl op), th_serial (timer_of dl op)), mk_target id dl)
              ∈ timers_ (l_timers l);
  inv_serials : forall id op dl, operations_ l !! id = Some op ->
    th_serial (timer_of dl op) <= serial_ (l_timers l);
  inv_unique : forall id1 op1 dl1 id2 op2 dl2,
    operations_ l !! id1 = Some op1 -> operations_ l !! id2 = Some op2 ->
    handle_valid (timer_of dl1 op1) = true ->
    th_serial (timer_of dl1 op1) = th_serial (timer_of dl2 op2) -> id1 = id2 /\ dl1 = dl2;
}.

Definition finalizing (todo : list Action) (id : OperationId) : Prop :=
  exists outcome, do_finalize id outcome ∈ todo.

(** Weakening: what is still to come may grow, and need only cover the
    operations that exist. *)
Lemma loop_inv_mono l (P Q : OperationId -> Prop) :
  loop_inv l P -> (forall id, is_Some (operations_ l !! id) -> P id -> Q id) -> loop_inv l Q.
Proof.
  intros [] HPQ. constructor; try done.
  - intros id op Ho Hk. destruct (inv_waiting0 id op Ho Hk) as [?|?]; [left|by right].
    apply HPQ; [by eexists|done].
  - intros id op dl Ho Hv. destruct (inv_due0 id op dl Ho Hv) as [?|?]; [left|by right].
    apply HPQ; [by eexists|done].
Qed.

(** The invariant only reads the four indices. *)
Lemma loop_inv_ext l l' P :
  loop_inv l P -> operations_ l' = operations_ l -> fd_waiters_ l' = fd_waiters_ l ->
  l_timers l' = l_timers l -> next_id_ l' = next_id_ l -> loop_inv l' P.
Proof. intros [] Ho Hf Ht Hn. constructor; rewrite ?Ho, ?Hf, ?Ht, ?Hn; done. Qed.

Lemma new_loop_inv P : loop_inv new_loop P.
Proof. constructor; simpl; try done; try (intros *; set_solver). by constructor; [constructor|..]. Qed.

(** ** Slots *)

Lemma slot_set_same dir id w : slot dir (set_slot dir id w) = id.
Proof. by destruct dir. Qed.

Lemma slot_set_other dir dir' id w : dir <> dir' -> slot dir' (set_slot dir id w) = slot dir' w.
Proof. by destruct dir, dir'. Qed.

Lemma waiters_empty_slots w : waiters_empty w = true <-> forall dir, slot dir w = kNoOperation.
Proof.
  unfold waiters_empty. rewrite andb_true_iff, !Z.eqb_eq. split.
  - intros [? ?] []; assumption.
  - intros Hs. split; [exact (Hs false)|exact (Hs true)].
Qed.

Lemma slot_nonempty w dir : slot dir w <> kNoOperation -> waiters_empty w = false.
Proof.
  intros Hs. destruct (waiters_empty w) eqn:E; [|done].
  destruct Hs. by apply waiters_empty_slots.
Qed.

(** ** Removing an operation *)

(** The slots after an operation has left them. *)
Definition unlink_waiters (id : OperationId) (op : Operation) (m : gmap Z FdWaiters)
    : gmap Z FdWaiters :=
  match op_kind op with
  | Kind.readiness =>
      match m !! op_fd op with
      | Some w =>
          let w := if slot (op_writable op) w =? id
                   then set_slot (op_writable op) kNoOperation w else w in
          if waiters_empty w then delete (op_fd op) m else <[op_fd op := w]> m
      | None => m
      end
  | Kind.timer => m
  end.

Lemma unlink_spec id l op :
  operations_ l !! id = Some op ->
  exists u l', unlink id l = (Some u, l') /\ u_handle u = op_handle op /\
    operations_ l' = delete id (operations_ l) /\
    fd_waiters_ l' = unlink_waiters id op (fd_waiters_ l) /\
    l_timers l' = timer_cancel (op_deadline op) (timer_cancel (op_wake op) (l_timers l)) /\
    next_id_ l' = next_id_ l /\ shutting_down_ l' = shutting_down_ l.
Proof.
  intros Ho. unfold unlink, unlink_waiters, put_waiters. rewrite Ho.
  destruct (op_kind op); [|by eexists _, _].
  simpl. destruct (fd_waiters_ l !! op_fd op) as [w|]; [|by eexists _, _].
  destruct (waiters_empty _); by eexists _, _.
Qed.

Lemma unlink_none id l : operations_ l !! id = None -> unlink id l = (None, l).
Proof. intros Ho. unfold unlink. by rewrite Ho. Qed.

(** What is left in the slots. *)
Lemma unlink_waiters_lookup id op m fd w :
  unlink_waiters id op m !! fd = Some w ->
  (forall fd w, m !! fd = Some w -> waiters_empty w = false) ->
  waiters_empty w = false /\
  exists w0, m !! fd = Some w0 /\
    forall dir, slot dir w = slot dir w0 \/
      (slot dir w = kNoOperation /\ slot dir w0 = id /\ fd = op_fd op /\ op_kind op = Kind.readiness).
Proof.
  intros Hl Hne. unfold unlink_waiters in Hl.
  destruct (op_kind op) eqn:Hk; [|split; [by eapply Hne|exists w; naive_solver]].
  destruct (m !! op_fd op) as [w0|] eqn:Hm; [|split; [by eapply Hne|exists w; naive_solver]].
  cbv zeta in Hl. set (w1 := if slot _ _ =? id then _ else _) in Hl.
  destruct (waiters_empty w1) eqn:E.
  { apply lookup_delete_Some in Hl as [_ Hl]. split; [by eapply Hne|exists w; naive_solver]. }
  apply lookup_insert_Some in Hl as [[<- <-]|[_ Hl]]; [|split; [by eapply Hne|exists w; naive_solver]].
  split; [done|]. exists w0. split; [done|]. intros dir. subst w1.
  destruct (slot (op_writable op) w0 =? id) eqn:Es; bool_facts; [|by left].
  destruct (decide (op_writable op = dir)) as [<-|Hd].
  - right. by rewrite slot_set_same.
  - left. by rewrite slot_set_other.
Qed.

(** Other operations keep their slot. *)
Lemma unlink_waiters_keep id id' op m fd dir w :
  m !! fd = Some w -> slot dir w = id' -> id' <> id -> id' <> kNoOperation ->
  exists w', unlink_waiters id op m !! fd = Some w' /\ slot dir w' = id'.
Proof.
  intros Hm Hs Hne Hno. unfold unlink_waiters.
  destruct (op_kind op); [|by exists w].
  destruct (m !! op_fd op) as [w0|] eqn:E0; [|by exists w]. cbv zeta.
  destruct (decide (op_fd op = fd)) as [<-|Hfd].
  2:{ exists w. split; [|done]. destruct (waiters_empty _); by simplify_map_eq. }
  rewrite Hm in E0. injection E0 as <-.
  set (w1 := if slot _ _ =? id then _ else _).
  assert (slot dir w1 = id') as Hs1.
  { subst w1. destruct (_ =? id) eqn:E; bool_facts; [|done].
    destruct (decide (op_writable op = dir)) as [<-|Hd]; [congruence|]. by rewrite slot_set_other. }
  rewrite (slot_nonempty w1 dir) by congruence. exists w1. by simplify_map_eq.
Qed.

(** Cancelling both timers of an operation removes its entries and no other. *)
Lemma cancel_both_elem l P id op d s t :
  loop_inv l P -> operations_ l !! id = Some op ->
  ((d, s), t) ∈ timers_ (timer_cancel (op_deadline op) (timer_cancel (op_wake op) (l_timers l))) <->
  ((d, s), t) ∈ timers_ (l_timers l) /\ operation t <> id.
Proof.
  intros Hinv Ho. rewrite !timer_cancel_elem. split.
  - intros [[Hin Hw] Hd]. split; [done|]. intros E.
    destruct (inv_targets _ _ Hinv _ _ _ Hin) as (op' & Ho' & Ht). rewrite E, Ho in Ho'.
    injection Ho' as <-.
    pose proof (wf_serials _ (inv_timers _ _ Hinv)) as Hs. rewrite Forall_forall in Hs.
    specialize (Hs _ Hin). simpl in Hs.
    destruct (is_deadline t); simpl in Ht; rewrite Ht in *; unfold key_of in *; simpl in *.
    + apply Hd; [|done]. unfold handle_valid. simpl. apply negb_true_iff, Z.eqb_neq. lia.
    + apply Hw; [|done]. unfold handle_valid. simpl. apply negb_true_iff, Z.eqb_neq. lia.
  - intros [Hin Hne]. destruct (inv_targets _ _ Hinv _ _ _ Hin) as (op' & Ho' & Ht).
    assert (forall dl, handle_valid (timer_of dl op) = true -> (d, s) <> key_of (timer_of dl op)) as Hk.
    { intros dl Hv E. unfold key_of in E. injection E as -> E.
      destruct (inv_unique _ _ Hinv id op dl (operation t) op' (is_deadline t) Ho Ho' Hv) as [Hi _];
        [by rewrite Ht, <- E|]. by rewrite Hi in Hne. }
    split; [split; [done|]|]; [exact (Hk false)|exact (Hk true)].
Qed.

Lemma unlink_inv id l P u l' :
  loop_inv l P -> unlink id l = (u, l') ->
  loop_inv l' P /\ operations_ l' = delete id (operations_ l) /\
  u_handle <$> u = op_handle <$> (operations_ l !! id).
Proof.
  intros Hinv Hu. destruct (operations_ l !! id) as [op|] eqn:Ho.
  2:{ rewrite unlink_none in Hu by done. injection Hu as <- <-. by rewrite delete_id. }
  destruct (unlink_spec id l op Ho) as (u' & l'' & Hu' & Hh & Hops & Hfds & Htm & Hn & _).
  rewrite Hu in Hu'. injection Hu' as -> ->. split; [|split; [done|by simpl; rewrite Hh]].
  assert (forall id' op', operations_ l'' !! id' = Some op' ->
            id' <> id /\ operations_ l !! id' = Some op') as Hold.
  { intros id' op' Hl. rewrite Hops in Hl. by apply lookup_delete_Some in Hl as [? ?]. }
  pose proof (fun fd w Hw => proj1 (inv_slots _ _ Hinv fd w Hw)) as Hne.
  constructor; rewrite ?Hn.
  - intros id' op' Hl. destruct (Hold _ _ Hl). by eapply inv_ids.
  - by eapply inv_next.
  - intros fd w Hw. rewrite Hfds in Hw. rewrite Hops.
    destruct (unlink_waiters_lookup _ _ _ _ _ Hw Hne) as [He (w0 & Hw0 & Hsl)].
    split; [done|]. intros dir Hd.
    destruct (Hsl dir) as [E|[E _]]; [|done]. rewrite E in *.
    destruct (proj2 (inv_slots _ _ Hinv fd w0 Hw0) dir Hd) as (op' & Ho' & Hk' & Hf' & Hd').
    exists op'. rewrite lookup_delete_ne; [done|]. intros Eid.
    rewrite <- Eid, Ho in Ho'. injection Ho' as <-.
    (* the operation's own slot would have been cleared *)
    subst fd dir. clear - Hw Hw0 Hk' E Eid Hd. unfold unlink_waiters in Hw.
    rewrite Hk', Hw0 in Hw. cbv zeta in Hw. rewrite <- Eid, Z.eqb_refl in Hw.
    destruct (waiters_empty _); [by rewrite lookup_delete_eq in Hw|].
    rewrite lookup_insert_eq in Hw. injection Hw as <-. rewrite slot_set_same in E. congruence.
  - intros id' op' Hl Hk. destruct (Hold _ _ Hl) as [Hid Hl'].
    destruct (inv_waiting _ _ Hinv _ _ Hl' Hk) as [?|(w & Hw & Hs)]; [by left|right].
    rewrite Hfds. apply (unlink_waiters_keep id id' op _ _ _ w); try done.
    pose proof (inv_ids _ _ Hinv _ _ Hl'). unfold kNoOperation. lia.
  - rewrite Htm. by apply timer_cancel_wf, timer_cancel_wf, (inv_timers _ _ Hinv).
  - intros d s t Hin. rewrite Htm, (cancel_both_elem l P id op) in Hin by done.
    destruct Hin as [Hin Ht]. destruct (inv_targets _ _ Hinv _ _ _ Hin) as (op' & Ho' & Ht').
    exists op'. rewrite Hops, lookup_delete_ne by done. done.
  - intros id' op' Hl. destruct (Hold _ _ Hl). by eapply inv_sleeping.
  - intros id' op' dl Hl Hv. destruct (Hold _ _ Hl) as [Hid Hl'].
    destruct (inv_due _ _ Hinv _ _ _ Hl' Hv) as [?|Hin]; [by left|right].
    rewrite Htm, (cancel_both_elem l P id op) by done. done.
  - intros id' op' dl Hl. destruct (Hold _ _ Hl) as [_ Hl'].
    rewrite Htm, !timer_cancel_serial. by eapply inv_serials.
  - intros id1 op1 dl1 id2 op2 dl2 H1 H2. destruct (Hold _ _ H1) as [_ H1'], (Hold _ _ H2) as [_ H2'].
    by apply (inv_unique _ _ Hinv).
Qed.

(** ** Methods that keep the invariant *)

Lemma release_inv u k l P : loop_inv l P -> loop_inv (release_registration u k l) P.
Proof.
  intros Hinv. unfold release_registration.
  destruct (_ || _ || _); [done|]. by destruct (bool_decide _); apply (loop_inv_ext l).
Qed.

Lemma release_operations u k l : operations_ (release_registration u k l) = operations_ l.
Proof. unfold release_registration. destruct (_ || _ || _); [done|]. by destruct (bool_decide _). Qed.

Lemma finalize_inv id k l P h l' :
  loop_inv l P -> finalize id k l = (h, l') ->
  loop_inv l' P /\ operations_ l' = delete id (operations_ l) /\
  h = op_handle <$> (operations_ l !! id).
Proof.
  intros Hinv. unfold finalize. destruct (unlink id l) as [u l1] eqn:Hu.
  destruct (unlink_inv _ _ _ _ _ Hinv Hu) as (Hi & Ho & Hh).
  destruct u as [u|]; intros [= <- <-]; simpl in Hh.
  - split; [by apply release_inv|]. by rewrite release_operations.
  - done.
Qed.

Lemma discard_inv id k l P :
  loop_inv l P ->
  loop_inv (discard id k l) P /\ operations_ (discard id k l) = delete id (operations_ l).
Proof.
  intros Hinv. unfold discard. destruct (unlink id l) as [u l1] eqn:Hu.
  destruct (unlink_inv _ _ _ _ _ Hinv Hu) as (Hi & Ho & _).
  destruct u as [u|]; [|done]. split; [by apply release_inv|by rewrite release_operations].
Qed.

(** Marking an operation unarmed changes nothing the invariant reads. *)
Lemma disarm_lookup id l id' op' :
  operations_ (disarm_operation id l) !! id' = Some op' ->
  exists op, operations_ l !! id' = Some op /\ op_kind op' = op_kind op /\ op_fd op' = op_fd op /\
    op_writable op' = op_writable op /\ op_handle op' = op_handle op /\
    forall dl, timer_of dl op' = timer_of dl op.
Proof.
  unfold disarm_operation. destruct (operations_ l !! id) as [op|] eqn:Ho; [|by exists op'].
  simpl. intros [[<- <-]|[_ Hl]]%lookup_insert_Some; [|by exists op'].
  exists op. split_and!; try done; by intros [].
Qed.

Lemma disarm_lookup_back id l id' op :
  operations_ l !! id' = Some op ->
  exists op', operations_ (disarm_operation id l) !! id' = Some op' /\ op_kind op' = op_kind op /\
    op_fd op' = op_fd op /\ op_writable op' = op_writable op /\ op_handle op' = op_handle op /\
    forall dl, timer_of dl op' = timer_of dl op.
Proof.
  intros Hl. unfold disarm_operation. destruct (operations_ l !! id) as [op0|] eqn:Ho; [|by exists op].
  simpl. destruct (decide (id' = id)) as [->|Hne]; simplify_map_eq; [|by exists op].
  eexists. split; [done|]. split_and!; try done; by intros [].
Qed.

Lemma disarm_rest id l :
  fd_waiters_ (disarm_operation id l) = fd_waiters_ l /\ l_timers (disarm_operation id l) = l_timers l /\
  next_id_ (disarm_operation id l) = next_id_ l /\
  pending_cancels_ (disarm_operation id l) = pending_cancels_ l /\
  posted_ (disarm_operation id l) = posted_ l /\
  shutting_down_ (disarm_operation id l) = shutting_down_ l.
Proof. unfold disarm_operation. by destruct (operations_ l !! id). Qed.

Lemma disarm_inv id l P : loop_inv l P -> loop_inv (disarm_operation id l) P.
Proof.
  intros Hinv. destruct (disarm_rest id l) as (Hf & Ht & Hn & _).
  constructor; rewrite ?Hf, ?Ht, ?Hn.
  - intros id' op' (op & Ho & _)%disarm_lookup. by eapply inv_ids.
  - by eapply inv_next.
  - intros fd w Hw. destruct (inv_slots _ _ Hinv fd w Hw) as [He Hs]. split; [done|].
    intros dir Hd. destruct (Hs dir Hd) as (op & Ho & Hk & Hfd & Hwr).
    destruct (disarm_lookup_back id l _ _ Ho) as (op' & Ho' & Hk' & Hf' & Hw' & _).
    exists op'. by rewrite Hk', Hf', Hw'.
  - intros id' op' (op & Ho & Hk' & Hf' & Hw' & _)%disarm_lookup. rewrite Hk', Hf', Hw'.
    by apply (inv_waiting _ _ Hinv).
  - by eapply inv_timers.
  - intros d s t Hin. destruct (inv_targets _ _ Hinv _ _ _ Hin) as (op & Ho & Ht').
    destruct (disarm_lookup_back id l _ _ Ho) as (op' & Ho' & _ & _ & _ & _ & Hd).
    exists op'. by rewrite Hd.
  - intros id' op' (op & Ho & Hk' & _ & _ & _ & Hd)%disarm_lookup Hk. rewrite Hk' in Hk.
    change (op_wake op') with (timer_of false op'). rewrite Hd. by eapply inv_sleeping.
  - intros id' op' dl (op & Ho & _ & _ & _ & _ & Hd)%disarm_lookup. rewrite Hd.
    by apply (inv_due _ _ Hinv).
  - intros id' op' dl (op & Ho & _ & _ & _ & _ & Hd)%disarm_lookup. rewrite Hd.
    by eapply inv_serials.
  - intros id1 op1 dl1 id2 op2 dl2 (o1 & H1 & _ & _ & _ & _ & D1)%disarm_lookup
      (o2 & H2 & _ & _ & _ & _ & D2)%disarm_lookup. rewrite D1, D2. by apply (inv_unique _ _ Hinv).
Qed.

(** Clearing slots moves their operations to what is still to come. *)
Lemma clear_slots_inv fd w' l P (Q : OperationId -> Prop) :
  loop_inv l P ->
  (forall dir, slot dir w' = slot dir (waiters_of fd l) \/ slot dir w' = kNoOperation) ->
  (forall id, P id -> Q id) ->
  (forall dir, slot dir w' = kNoOperation -> slot dir (waiters_of fd l) <> kNoOperation ->
     Q (slot dir (waiters_of fd l))) ->
  loop_inv (put_waiters fd w' l) Q.
Proof.
  intros Hinv Hsl HPQ HQ. unfold waiters_of in *.
  assert (forall fd' w, fd_waiters_ (put_waiters fd w' l) !! fd' = Some w ->
    (fd' = fd /\ w = w' /\ waiters_empty w = false) \/ (fd' <> fd /\ fd_waiters_ l !! fd' = Some w)) as Hput.
  { intros fd' w. unfold put_waiters. destruct (waiters_empty w') eqn:E; simpl.
    - intros [? ?]%lookup_delete_Some. right. split; [congruence|done].
    - intros [[<- <-]|[? ?]]%lookup_insert_Some; [by left|]. right. split; [congruence|done]. }
  assert (operations_ (put_waiters fd w' l) = operations_ l /\
          l_timers (put_waiters fd w' l) = l_timers l /\ next_id_ (put_waiters fd w' l) = next_id_ l)
    as (Ho & Ht & Hn) by (unfold put_waiters; by destruct (waiters_empty w')).
  destruct (loop_inv_mono l P Q Hinv) as [? ? ? Hwait ? ? ? ? ? ?]; [naive_solver|].
  constructor; rewrite ?Ho, ?Ht, ?Hn; try done.
  - intros fd' w [(-> & -> & He)|[_ Hw]]%Hput; [|by apply inv_slots0]. split; [done|].
    intros dir Hd. destruct (Hsl dir) as [E|E]; [|done]. rewrite E in *.
    destruct (fd_waiters_ l !! fd) as [w0|] eqn:Hw0; [|by destruct dir].
    by apply (inv_slots0 fd w0 Hw0).
  - intros id op Hop Hk. destruct (Hwait id op Hop Hk) as [?|(w & Hw & Hs)]; [by left|].
    pose proof (inv_ids0 _ _ Hop). destruct (decide (op_fd op = fd)) as [<-|Hfd].
    2:{ right. exists w. split; [|done]. unfold put_waiters.
        destruct (waiters_empty w'); simpl; by simplify_map_eq. }
    rewrite Hw in *. simpl in *. destruct (Hsl (op_writable op)) as [E|E].
    + right. exists w'. split; [|congruence]. unfold put_waiters.
      rewrite (slot_nonempty w' (op_writable op)) by (unfold kNoOperation; lia).
      simpl. by simplify_map_eq.
    + left. rewrite <- Hs. apply HQ; [done|]. unfold kNoOperation. lia.
Qed.

(** ** Submitting an operation *)

(** What the timers of a new operation add to the queue. *)
Record timers_added (q q' : TimerQueue) (id : OperationId) (op : Operation) : Prop := {
  added_wf : timers_wf q';
  added_serial : serial_ q <= serial_ q';
  added_elem : forall e, e ∈ timers_ q' <->
    e ∈ timers_ q \/ exists dl, handle_valid (timer_of dl op) = true /\
                                e = (key_of (timer_of dl op), mk_target id dl);
  added_fresh : forall dl, handle_valid (timer_of dl op) = true ->
    serial_ q < th_serial (timer_of dl op) <= serial_ q';
  added_distinct : handle_valid (op_wake op) = true -> handle_valid (op_deadline op) = true ->
    th_serial (op_wake op) <> th_serial (op_deadline op);
}.

Definition slot_taken (id : OperationId) (op : Operation) (l : Loop) (m : gmap Z FdWaiters) : Prop :=
  match op_kind op with
  | Kind.timer => m = fd_waiters_ l
  | Kind.readiness =>
      slot (op_writable op) (waiters_of (op_fd op) l) = kNoOperation /\
      m = <[op_fd op := set_slot (op_writable op) id (waiters_of (op_fd op) l)]> (fd_waiters_ l)
  end.

Lemma slot_taken_slots id op l m P :
  loop_inv l P -> slot_taken id op l m -> id <> kNoOperation ->
  (forall fd w, m !! fd = Some w -> waiters_empty w = false /\
     forall dir, slot dir w <> kNoOperation ->
       (slot dir w = id /\ fd = op_fd op /\ dir = op_writable op /\ op_kind op = Kind.readiness) \/
       exists w0, fd_waiters_ l !! fd = Some w0 /\ slot dir w0 = slot dir w) /\
  (forall fd w dir, fd_waiters_ l !! fd = Some w -> slot dir w <> kNoOperation ->
     exists w', m !! fd = Some w' /\ slot dir w' = slot dir w) /\
  (op_kind op = Kind.readiness ->
     exists w, m !! op_fd op = Some w /\ slot (op_writable op) w = id).
Proof.
  intros Hinv Ht Hid. pose proof (fun fd w Hw => proj1 (inv_slots _ _ Hinv fd w Hw)) as Hne.
  unfold slot_taken in Ht. destruct (op_kind op).
  2:{ subst m. split_and!; try done; [|naive_solver]. intros fd w Hw. split; [by eapply Hne|].
      right. by exists w. }
  destruct Ht as [Hfree ->]. set (w1 := set_slot _ _ _). unfold waiters_of in *. split_and!.
  - intros fd w [[<- <-]|[Hfd Hw]]%lookup_insert_Some.
    + split. { apply (slot_nonempty _ (op_writable op)). unfold w1. by rewrite slot_set_same. }
      intros dir Hd. destruct (decide (op_writable op = dir)) as [<-|Hdir].
      * left. unfold w1. by rewrite slot_set_same.
      * right. unfold w1 in *. rewrite slot_set_other in * by done.
        destruct (fd_waiters_ l !! op_fd op) as [w0|]; [by exists w0|by destruct dir].
    + split; [by eapply Hne|]. right. by exists w.
  - intros fd w dir Hw Hd. destruct (decide (op_fd op = fd)) as [<-|Hfd].
    + exists w1. rewrite lookup_insert_eq. split; [done|]. unfold w1. rewrite Hw in *. simpl in *.
      destruct (decide (op_writable op = dir)) as [<-|Hdir]; [done|]. by rewrite slot_set_other.
    + exists w. by rewrite lookup_insert_ne.
  - intros _. exists w1. rewrite lookup_insert_eq. split; [done|]. unfold w1. by rewrite slot_set_same.
Qed.

(** New timers have new serials. *)
Lemma added_unique l q' id op P (lookup : OperationId -> Operation -> Prop) :
  loop_inv l P -> timers_added (l_timers l) q' id op ->
  (forall id' op', lookup id' op' ->
     (id' = id /\ op' = op) \/ (id' <> id /\ operations_ l !! id' = Some op')) ->
  forall id1 op1 dl1 id2 op2 dl2, lookup id1 op1 -> lookup id2 op2 ->
    handle_valid (timer_of dl1 op1) = true ->
    th_serial (timer_of dl1 op1) = th_serial (timer_of dl2 op2) -> id1 = id2 /\ dl1 = dl2.
Proof.
  intros Hinv Ht Hl id1 op1 dl1 id2 op2 dl2 H1 H2 Hv Es.
  assert (handle_valid (timer_of dl2 op2) = true) as Hv2.
  { destruct (handle_valid (timer_of dl2 op2)) eqn:E; [done|]. apply handle_invalid in E.
    rewrite E in Es. apply handle_invalid in Es. congruence. }
  destruct (Hl _ _ H1) as [[-> ->]|[N1 L1]], (Hl _ _ H2) as [[-> ->]|[N2 L2]].
  - split; [done|]. pose proof (added_distinct _ _ _ _ Ht) as Hd.
    destruct dl1, dl2; simpl in *; try done; exfalso; by apply Hd.
  - pose proof (added_fresh _ _ _ _ Ht dl1 Hv). pose proof (inv_serials _ _ Hinv _ _ dl2 L2). lia.
  - pose proof (added_fresh _ _ _ _ Ht dl2 Hv2). pose proof (inv_serials _ _ Hinv _ _ dl1 L1). lia.
  - by apply (inv_unique _ _ Hinv id1 op1 dl1 id2 op2 dl2).
Qed.

Lemma add_operation_inv l l' P op :
  let id := next_id_ l + 1 in
  loop_inv l P ->
  next_id_ l' = id -> operations_ l' = <[id := op]> (operations_ l) ->
  timers_added (l_timers l) (l_timers l') id op ->
  slot_taken id op l (fd_waiters_ l') ->
  (op_kind op = Kind.timer -> handle_valid (op_wake op) = true) ->
  loop_inv l' P.
Proof.
  intros id Hinv Hn Ho Ht Hsl Hw. pose proof (inv_next _ _ Hinv) as Hnext.
  destruct (slot_taken_slots _ _ _ _ _ Hinv Hsl ltac:(unfold kNoOperation; lia)) as (Hs1 & Hs2 & Hs3).
  assert (operations_ l !! id = None) as Hfresh.
  { destruct (operations_ l !! id) as [op0|] eqn:E; [|done]. pose proof (inv_ids _ _ Hinv _ _ E). lia. }
  assert (forall id' op', operations_ l' !! id' = Some op' ->
    (id' = id /\ op' = op) \/ (id' <> id /\ operations_ l !! id' = Some op')) as Hcases.
  { intros id' op'. rewrite Ho. intros [[<- <-]|[? ?]]%lookup_insert_Some; [by left|by right]. }
  assert (forall id' op', operations_ l !! id' = Some op' -> operations_ l' !! id' = Some op') as Hkeep.
  { intros id' op' Hl. rewrite Ho, lookup_insert_ne; [done|]. intros <-. congruence. }
  constructor; rewrite ?Hn.
  - intros id' op' [[-> ->]|[_ Hl]]%Hcases; [lia|]. pose proof (inv_ids _ _ Hinv _ _ Hl). lia.
  - lia.
  - intros fd w Hfw. destruct (Hs1 fd w Hfw) as [He Hd]. split; [done|]. intros dir Hne.
    destruct (Hd dir Hne) as [(-> & -> & -> & Hk)|(w0 & Hw0 & Hs)].
    + exists op. by rewrite Ho, lookup_insert_eq.
    + rewrite <- Hs in *. destruct (proj2 (inv_slots _ _ Hinv fd w0 Hw0) dir Hne) as (op' & Hop & ?).
      exists op'. split; [by apply Hkeep|done].
  - intros id' op' [[-> ->]|[Hid Hl]]%Hcases Hk; [right; by apply Hs3|].
    destruct (inv_waiting _ _ Hinv _ _ Hl Hk) as [?|(w & Hfw & Hs)]; [by left|right].
    pose proof (inv_ids _ _ Hinv _ _ Hl). rewrite <- Hs.
    apply (Hs2 _ _ _ Hfw). rewrite Hs. unfold kNoOperation. lia.
  - apply Ht.
  - intros d s t [Hin|(dl & Hv & [= -> -> ->])]%(added_elem _ _ _ _ Ht).
    + destruct (inv_targets _ _ Hinv _ _ _ Hin) as (op' & Hop & ?). exists op'. split; [by apply Hkeep|done].
    + exists op. simpl. rewrite Ho, lookup_insert_eq. split; [done|]. by destruct (timer_of dl op).
  - intros id' op' [[-> ->]|[_ Hl]]%Hcases; [done|]. by eapply inv_sleeping.
  - intros id' op' dl [[-> ->]|[_ Hl]]%Hcases Hv.
    + right. apply (added_elem _ _ _ _ Ht). right. by exists dl.
    + destruct (inv_due _ _ Hinv _ _ _ Hl Hv) as [?|?]; [by left|right].
      apply (added_elem _ _ _ _ Ht). by left.
  - intros id' op' dl [[-> ->]|[_ Hl]]%Hcases.
    + destruct (handle_valid (timer_of dl op)) eqn:Hv; [by apply (added_fresh _ _ _ _ Ht)|].
      apply handle_invalid in Hv. rewrite Hv. apply (added_wf _ _ _ _ Ht).
    + pose proof (inv_serials _ _ Hinv _ _ dl Hl). pose proof (added_serial _ _ _ _ Ht). lia.
  - by apply (added_unique l (l_timers l') id op P).
Qed.

Lemma room_id l : 0 <= next_id_ l -> next_id_ l < UINT64_MAX -> wrap64 (next_id_ l + 1) = next_id_ l + 1.
Proof. intros. unfold wrap64, UINT64_MAX in *. apply Z.mod_small. lia. Qed.

(** No timer, or one, or two. *)
Lemma timers_added_deadline q o id op q' h :
  timers_wf q -> serial_ q < UINT64_MAX ->
  match opt_deadline o with
  | Some d => timer_add d (mk_target id true) q
  | None => (q, no_timer)
  end = (q', h) ->
  op_wake op = no_timer -> op_deadline op = h -> timers_added q q' id op.
Proof.
  intros Hq Hr Ha Hw Hd. destruct (opt_deadline o) as [d|].
  - destruct (timer_add_elem _ _ _ _ _ Hq Hr Ha) as (Hq' & Hv & Hs & Hs' & He).
    constructor; [done|lia| | |by rewrite Hw].
    + intros e. rewrite He. split.
      * intros [->|?]; [right|by left]. exists true. simpl. by rewrite Hd.
      * intros [?|([] & Hv' & ->)]; simpl in *; [by right|left; by rewrite Hd|by rewrite Hw in Hv'].
    + intros []; simpl; rewrite ?Hw, ?Hd; [lia|done].
  - injection Ha as <- <-. constructor; [done|lia| | |by rewrite Hw].
    + intros e. split; [by left|]. intros [?|([] & Hv' & _)]; simpl in *; [done|by rewrite Hd in Hv'|].
      by rewrite Hw in Hv'.
    + intros []; simpl; by rewrite ?Hw, ?Hd.
Qed.

Lemma timers_added_wake q o id op q1 q' hw hd wake_at :
  timers_wf q -> serial_ q + 2 <= UINT64_MAX ->
  timer_add wake_at (mk_target id false) q = (q1, hw) ->
  match opt_deadline o with
  | Some d => timer_add d (mk_target id true) q1
  | None => (q1, no_timer)
  end = (q', hd) ->
  op_wake op = hw -> op_deadline op = hd -> timers_added q q' id op /\ handle_valid hw = true.
Proof.
  intros Hq Hr Ha Hb Hw Hd.
  destruct (timer_add_elem _ _ _ _ _ Hq ltac:(unfold serial_room; lia) Ha) as (Hq1 & Hv & Hs & Hs1 & He).
  split; [|done]. destruct (opt_deadline o) as [d|].
  - destruct (timer_add_elem _ _ _ _ _ Hq1 ltac:(unfold serial_room; lia) Hb)
      as (Hq' & Hv2 & Hs2 & Hs3 & He2).
    constructor; [done|lia| | |rewrite Hw, Hd; lia].
    + intros e. rewrite He2, He. split.
      * intros [->|[->|?]]; [right|right|by left]; [exists true|exists false]; simpl; by rewrite ?Hw, ?Hd.
      * intros [?|([] & Hv' & ->)]; simpl in *; rewrite ?Hw, ?Hd; auto.
    + intros []; simpl; rewrite ?Hw, ?Hd; lia.
  - injection Hb as <- <-. constructor; [done|lia| | |by rewrite Hd].
    + intros e. rewrite He. split.
      * intros [->|?]; [right|by left]. exists false. simpl. by rewrite Hw.
      * intros [?|([] & Hv' & ->)]; simpl in *; [by right|by rewrite Hd in Hv'|left; by rewrite Hw].
    + intros []; simpl; rewrite ?Hw, ?Hd; [done|lia].
Qed.

Lemma insert_waiter_inv fd writable o handle l P :
  loop_inv l P -> room l ->
  match insert_waiter fd writable o handle l with
  | (None, l') => l' = l
  | (Some (id, i), l') =>
      loop_inv l' P /\ operations_ l !! id = None /\ next_id_ l < id /\
      exists op, operations_ l' = <[id := op]> (operations_ l) /\ op_handle op = handle
  end.
Proof.
  intros Hinv [Hid Hser]. pose proof (inv_next _ _ Hinv). unfold insert_waiter.
  destruct (negb _) eqn:Hfree; [done|]. apply negb_false_iff, Z.eqb_eq in Hfree.
  rewrite room_id by done. cbv zeta. simpl l_timers.
  destruct (match opt_deadline o with Some _ => _ | None => _ end) as [tq h] eqn:Ht.
  assert (operations_ l !! (next_id_ l + 1) = None) as Hfresh.
  { destruct (operations_ l !! _) as [op0|] eqn:E; [|done]. pose proof (inv_ids _ _ Hinv _ _ E). lia. }
  split_and!; [|done|lia|by eexists].
  eapply add_operation_inv; [exact Hinv|done|done| |split; done|done].
  simpl. eapply timers_added_deadline; [by eapply inv_timers|lia|exact Ht|done|done].
Qed.

Lemma insert_timer_inv wake_at o handle l P :
  loop_inv l P -> room l ->
  let '(id, l') := insert_timer wake_at o handle l in
  loop_inv l' P /\ operations_ l !! id = None /\ next_id_ l < id /\
  exists op, operations_ l' = <[id := op]> (operations_ l) /\ op_handle op = handle.
Proof.
  intros Hinv [Hid Hser]. pose proof (inv_next _ _ Hinv). unfold insert_timer.
  rewrite room_id by done. cbv zeta.
  destruct (timer_add wake_at _ _) as [q1 hw] eqn:Ha.
  destruct (match opt_deadline o with Some _ => _ | None => _ end) as [tq h] eqn:Ht.
  assert (operations_ l !! (next_id_ l + 1) = None) as Hfresh.
  { destruct (operations_ l !! _) as [op0|] eqn:E; [|done]. pose proof (inv_ids _ _ Hinv _ _ E). lia. }
  split_and!; [|done|lia|by eexists].
  eassert (timers_added _ _ _ _ /\ _) as [Hadd Hv].
  { eapply timers_added_wake; [by eapply inv_timers|done|exact Ha|exact Ht|..]; 
      [instantiate (1 := mk_operation (next_id_ l + 1) handle Kind.timer (-1) false false hw h); done|done]. }
  by eapply add_operation_inv.
Qed.

(** ** Taking operations out of their slots *)

(** The same operations, with the same coroutines. *)
Definition same_ops (l l' : Loop) : Prop :=
  forall id, op_handle <$> (operations_ l' !! id) = op_handle <$> (operations_ l !! id).

Lemma disarm_same id l : same_ops l (disarm_operation id l).
Proof.
  intros id'. unfold disarm_operation. destruct (operations_ l !! id) as [op|] eqn:E; [|done].
  simpl. destruct (decide (id = id')) as [<-|Hne]; [|by rewrite lookup_insert_ne].
  rewrite lookup_insert_eq. symmetry. exact (f_equal (fmap op_handle) E).
Qed.

Lemma put_waiters_same fd w l : same_ops l (put_waiters fd w l).
Proof. intros id. unfold put_waiters. by destruct (waiters_empty w). Qed.

Lemma same_ops_trans l1 l2 l3 : same_ops l1 l2 -> same_ops l2 l3 -> same_ops l1 l3.
Proof. intros H1 H2 id. by rewrite H2, H1. Qed.

Lemma finalizing_app a b id : finalizing (a ++ b) id <-> finalizing a id \/ finalizing b id.
Proof. unfold finalizing. setoid_rewrite elem_of_app. naive_solver. Qed.

Lemma fail_waiters_inv fd e l P acts l' :
  loop_inv l P -> fail_waiters fd e l = (acts, l') ->
  loop_inv l' (fun id => finalizing acts id \/ P id) /\ same_ops l l'.
Proof.
  intros Hinv. unfold fail_waiters. destruct (fd_waiters_ l !! fd) as [w|] eqn:Hw.
  2:{ intros [= <- <-]. split; [|done]. eapply loop_inv_mono; [done|]. by right. }
  intros [= <- <-]. set (l1 := disarm_operation (w_write w) (disarm_operation (w_read w) l)).
  assert (loop_inv l1 P) as Hinv1 by (by apply disarm_inv, disarm_inv).
  assert (same_ops l l1) as Hs1 by (eapply same_ops_trans; apply disarm_same).
  assert (fd_waiters_ l1 = fd_waiters_ l) as Hf.
  { unfold l1. by rewrite !(proj1 (disarm_rest _ _)). }
  change (set_fd_waiters (delete fd (fd_waiters_ l1)) l1) with (put_waiters fd no_waiters l1).
  split; [|eapply same_ops_trans; [done|apply put_waiters_same]].
  apply (clear_slots_inv fd no_waiters l1 P).
  - done.
  - intros []; by right.
  - by right.
  - unfold waiters_of. rewrite Hf, Hw. simpl. intros dir _ _. left.
    exists (Fail e). destruct dir; simpl; set_solver.
Qed.

(** One direction of an event. *)
Lemma claim_spec dir w l r w' l' :
  claim dir w l = (r, w', l') ->
  (forall P, loop_inv l P -> loop_inv l' P) /\ same_ops l l' /\
  fd_waiters_ l' = fd_waiters_ l /\ l_timers l' = l_timers l /\
  pending_cancels_ l' = pending_cancels_ l /\ posted_ l' = posted_ l /\
  shutting_down_ l' = shutting_down_ l /\
  (forall d, slot d w' = slot d w \/
     (slot d w' = kNoOperation /\ finalizing r (slot d w))).
Proof.
  unfold claim. destruct (slot dir w =? kNoOperation) eqn:E; bool_facts.
  { intros [= <- <- <-]. split_and!; try done. by left. }
  intros [= <- <- <-]. destruct (disarm_rest (slot dir w) l) as (? & ? & ? & ? & ? & ?).
  split_and!; try done; [by intros; apply disarm_inv|apply disarm_same|].
  intros d. destruct (decide (dir = d)) as [<-|Hd].
  - right. rewrite slot_set_same. split; [done|]. exists (Ok tt). set_solver.
  - left. by rewrite slot_set_other.
Qed.

(** What an iteration does not touch while it takes its events in. *)
Definition rest_same (l l' : Loop) : Prop :=
  l_timers l' = l_timers l /\ pending_cancels_ l' = pending_cancels_ l /\ posted_ l' = posted_ l /\
  shutting_down_ l' = shutting_down_ l.

Lemma maybe_claim (c dir : bool) w l r w' l' :
  (if c then claim dir w l else ([], w, l)) = (r, w', l') ->
  (forall P, loop_inv l P -> loop_inv l' P) /\ same_ops l l' /\ fd_waiters_ l' = fd_waiters_ l /\
  rest_same l l' /\
  (forall d, slot d w' = slot d w \/ (slot d w' = kNoOperation /\ finalizing r (slot d w))).
Proof.
  destruct c; [|intros [= <- <- <-]; split_and!; try done; by left].
  intros (? & ? & ? & ? & ? & ? & ? & ?)%claim_spec. by split_and!.
Qed.

Lemma on_event_inv wake_fd ev l P r a l' :
  loop_inv l P -> on_event wake_fd ev l = (r, a, l') ->
  loop_inv l' (fun id => P id \/ finalizing r id) /\ same_ops l l' /\ rest_same l l'.
Proof.
  intros Hinv. unfold on_event.
  assert (([], [], l) = (r, a, l') ->
    loop_inv l' (fun id => P id \/ finalizing r id) /\ same_ops l l' /\ rest_same l l') as Hnone.
  { intros [= <- <- <-]. split_and!; try done. eapply loop_inv_mono; [done|]. by left. }
  destruct (_ =? wake_fd); [done|].
  destruct (fd_waiters_ l !! ev_fd ev) as [w|] eqn:Hw; [|done]. clear Hnone.
  destruct (if ev_readable ev || ev_failed ev then claim false w l else ([], w, l))
    as [[r1 w1] l1] eqn:E1.
  destruct (if ev_writable ev || ev_failed ev then claim true w1 l1 else ([], w1, l1))
    as [[r2 w2] l2] eqn:E2.
  intros [= <- <- <-].
  destruct (maybe_claim _ _ _ _ _ _ _ E1) as (Hi1 & Ho1 & Hf1 & Hr1 & Hs1).
  destruct (maybe_claim _ _ _ _ _ _ _ E2) as (Hi2 & Ho2 & Hf2 & Hr2 & Hs2).
  split_and!.
  - eapply (clear_slots_inv _ w2 l2 P); [auto| |by left|].
    all: unfold waiters_of; rewrite Hf2, Hf1, Hw; simpl.
    + intros d. destruct (Hs2 d) as [->|[-> _]]; [|by right].
      destruct (Hs1 d) as [->|[-> _]]; auto.
    + intros d Hz Hnz. right. apply finalizing_app.
      destruct (Hs1 d) as [E|[_ ?]]; [|by left]. right.
      destruct (Hs2 d) as [E'|[_ ?]]; congruence.
  - eapply same_ops_trans; [|apply put_waiters_same]. by eapply same_ops_trans.
  - destruct Hr1 as (? & ? & ? & ?), Hr2 as (? & ? & ? & ?). unfold rest_same, put_waiters.
    destruct (waiters_empty w2); simpl; split_and!; congruence.
Qed.

Lemma on_events_inv wake_fd evs l P r a l' :
  loop_inv l P -> on_events wake_fd evs l = (r, a, l') ->
  loop_inv l' (fun id => P id \/ finalizing r id) /\ same_ops l l' /\ rest_same l l'.
Proof.
  revert l P r a l'; induction evs as [|ev evs IH]; intros l P r a l' Hinv; simpl.
  { intros [= <- <- <-]. split_and!; try done. eapply loop_inv_mono; [done|]. by left. }
  destruct (on_event wake_fd ev l) as [[r1 a1] l1] eqn:E1.
  destruct (on_events wake_fd evs l1) as [[r2 a2] l2] eqn:E2. intros [= <- <- <-].
  destruct (on_event_inv _ _ _ _ _ _ _ Hinv E1) as (Hi1 & Ho1 & Hr1).
  destruct (IH _ _ _ _ _ Hi1 E2) as (Hi2 & Ho2 & Hr2). split_and!.
  - eapply loop_inv_mono; [done|]. simpl. intros id _. rewrite finalizing_app. tauto.
  - by eapply same_ops_trans.
  - destruct Hr1 as (? & ? & ? & ?), Hr2 as (? & ? & ? & ?). split_and!; congruence.
Qed.

Lemma on_event_next wake_fd ev l r a l' :
  on_event wake_fd ev l = (r, a, l') -> next_id_ l' = next_id_ l.
Proof.
  assert (forall dir w l r w' l', claim dir w l = (r, w', l') -> next_id_ l' = next_id_ l) as Hc.
  { intros dir w l0 r0 w' l0'. unfold claim. destruct (_ =? _); intros [= <- <- <-]; [done|].
    by destruct (disarm_rest (slot dir w) l0) as (_ & _ & ? & _). }
  assert (forall fd w l, next_id_ (put_waiters fd w l) = next_id_ l) as Hp.
  { intros. unfold put_waiters. by destruct (waiters_empty _). }
  unfold on_event. destruct (_ =? wake_fd); [by intros [= _ _ <-]|].
  destruct (fd_waiters_ l !! ev_fd ev) as [w|]; [|by intros [= _ _ <-]].
  destruct (ev_readable ev || ev_failed ev), (ev_writable ev || ev_failed ev);
    repeat match goal with |- context[claim ?d ?w ?l] =>
      destruct (claim d w l) as [[? ?] ?] eqn:?; simpl end;
    intros [= _ _ <-]; rewrite Hp; try done;
    repeat match goal with H : claim _ _ _ = _ |- _ => apply Hc in H end; congruence.
Qed.

Lemma on_events_next wake_fd evs l r a l' :
  on_events wake_fd evs l = (r, a, l') -> next_id_ l' = next_id_ l.
Proof.
  revert l r a l'; induction evs as [|ev evs IH]; intros l r a l'; simpl; [by intros [= _ _ <-]|].
  destruct (on_event wake_fd ev l) as [[r1 a1] l1] eqn:E1.
  destruct (on_events wake_fd evs l1) as [[r2 a2] l2] eqn:E2. intros [= _ _ <-].
  apply on_event_next in E1. apply IH in E2. congruence.
Qed.

(** The batch of an iteration. *)
Lemma collect_inv wake_fd evs now l acts l' :
  loop_inv l (fun _ => False) -> collect wake_fd evs now l = (acts, l') ->
  loop_inv l' (finalizing acts) /\ same_ops l l' /\ next_id_ l' = next_id_ l.
Proof.
  intros Hinv. unfold collect.
  destruct (on_events wake_fd evs l) as [[resolved rearm] l1] eqn:E1.
  destruct (on_events_inv _ _ _ _ _ _ _ Hinv E1) as (Hi & Ho & _).
  unfold extract_expired. rewrite expired_split_spec by apply Hi. cbv zeta. intros [= <- <-].
  assert (next_id_ l1 = next_id_ l) as Hn by exact (on_events_next _ _ _ _ _ _ E1).
  split; [|by split]. set (q := mk_timers _ _).
  assert (forall id, (False \/ finalizing resolved id) ->
    finalizing (rearm ++ (resolved ++
       map timer_outcome (map snd (List.filter (fun e => e.1.1 <=? now) (timers_ (l_timers l1)))) ++
       map (fun id => do_finalize id (Fail (make_error_code Errc.cancelled))) (pending_cancels_ l1)) ++
      map do_run (posted_ l1)) id) as HQ by (intros id; rewrite !finalizing_app; tauto).
  destruct Hi as [H1 H2 H3 H4 H5 H6 H7 H8 H9 H10].
  constructor; simpl; try done.
  - intros id op Hop Hk. destruct (H4 id op Hop Hk) as [?|?]; [left; by apply HQ|by right].
  - pose proof (extract_expired_wf now _ H5) as Hwf. unfold extract_expired in Hwf.
    by rewrite expired_split_spec in Hwf by apply H5.
  - intros d s t Hin. apply H6. rewrite list_elem_of_In, List.filter_In in Hin.
    destruct Hin as [Hin _]. by apply list_elem_of_In.
  - intros id op dl Hop Hv. destruct (H8 id op dl Hop Hv) as [?|Hin]; [left; by apply HQ|].
    destruct (th_deadline (timer_of dl op) <=? now) eqn:Ed.
    + left. rewrite !finalizing_app. right; left; right; left.
      eexists. apply list_elem_of_In, in_map_iff. exists (mk_target id dl). split; [done|].
      apply in_map_iff. eexists (_, mk_target id dl). split; [done|]. apply List.filter_In.
      split; [by apply list_elem_of_In|done].
    + right. apply list_elem_of_In, List.filter_In. split; [by apply list_elem_of_In|].
      by apply negb_true_iff.
Qed.

Lemma shutdown_inv l P acts l' :
  loop_inv l P -> shutdown l = (acts, l') ->
  loop_inv l' P /\ operations_ l' = operations_ l /\ next_id_ l' = next_id_ l.
Proof.
  intros Hinv. unfold shutdown. destruct (shutting_down_ l); intros [= <- <-]; [done|].
  split; [by apply (loop_inv_ext l)|done].
Qed.
