(* ===== verification/EventLoopLedger.v ===== *)
(** * EventLoopLedger: every suspended operation resolves exactly once

    The invariant of [EventLoopInv] carried over every reachable world, with a
    ledger of the operations handed out and the resumptions made. *)

From stdpp Require Import gmap.
From S2P Require Import Prelude Errors Timers EventLoop EventLoopInv.

Local Open Scope Z_scope.

(** ** The ledger: issued operations are suspended or resumed, once *)

Definition suspended (l : Loop) : list (OperationId * Z) :=
  map_to_list (op_handle <$> operations_ l : gmap Z Z).

Definition resumed (log : list (OperationId * Z * Result unit)) : list (OperationId * Z) :=
  map fst log.

(** [D] are operations due: a [finalize] of each is still to come, or it is gone. *)
Record world_inv (D : OperationId -> Prop) (w : World) : Prop := {
  winv_loop : loop_inv (w_loop w) (finalizing (w_todo w));
  winv_ledger : w_issued w ≡ₚ suspended (w_loop w) ++ resumed (w_log w);
  winv_nodup : NoDup (map fst (w_issued w));
  winv_ids : Forall (fun e => e.1 <= next_id_ (w_loop w)) (w_issued w);
  winv_old : forall id, D id -> id <= next_id_ (w_loop w);
  winv_due : forall id, D id \/ shutting_down_ (w_loop w) = true ->
    is_Some (operations_ (w_loop w) !! id) -> finalizing (w_todo w) id;
}.

Lemma same_ops_suspended l l' : same_ops l l' -> suspended l' = suspended l.
Proof.
  intros Hs. unfold suspended. f_equal. apply map_eq. intros id. rewrite !lookup_fmap. apply Hs.
Qed.

Lemma suspended_insert l l' id op :
  operations_ l' = <[id := op]> (operations_ l) -> operations_ l !! id = None ->
  suspended l' ≡ₚ (id, op_handle op) :: suspended l.
Proof.
  intros Ho Hn. unfold suspended. rewrite Ho, fmap_insert. apply map_to_list_insert.
  by rewrite lookup_fmap, Hn.
Qed.

Lemma suspended_delete l l' id h :
  operations_ l' = delete id (operations_ l) -> op_handle <$> operations_ l !! id = Some h ->
  suspended l ≡ₚ (id, h) :: suspended l'.
Proof.
  intros Ho Hn. unfold suspended. rewrite Ho, fmap_delete. symmetry.
  apply map_to_list_delete. by rewrite lookup_fmap.
Qed.

Lemma same_ops_some l l' id :
  same_ops l l' -> is_Some (operations_ l' !! id) -> is_Some (operations_ l !! id).
Proof.
  intros Hs Hi. specialize (Hs id).
  destruct Hi as [op Hi]. destruct (operations_ l !! id); [by eexists|].
  exfalso. rewrite Hi in Hs. discriminate.
Qed.

(** A loop with the same operations keeps the ledger. *)
Lemma world_inv_same D w l todo ran :
  world_inv D w -> same_ops (w_loop w) l -> next_id_ (w_loop w) <= next_id_ l ->
  loop_inv l (finalizing todo) ->
  (forall id, D id \/ shutting_down_ l = true -> is_Some (operations_ l !! id) -> finalizing todo id) ->
  world_inv D (mk_world l todo (w_log w) (w_issued w) ran).
Proof.
  intros [Hl Hg Hd Hi Hold Hq] Hs Hn Hinv Hdown. constructor; simpl; [done|..|done].
  - by rewrite (same_ops_suspended _ _ Hs).
  - done.
  - eapply Forall_impl; [exact Hi|]. simpl. lia.
  - intros id Hid. specialize (Hold id Hid). lia.
Qed.

(** What is due stays covered when the calls to make only grow. *)
Lemma due_same D w l todo :
  world_inv D w -> same_ops (w_loop w) l -> shutting_down_ l = shutting_down_ (w_loop w) ->
  (forall id, finalizing (w_todo w) id -> finalizing todo id) ->
  forall id, D id \/ shutting_down_ l = true -> is_Some (operations_ l !! id) -> finalizing todo id.
Proof.
  intros Hw Hs Hd Ht id Hdue Hi. rewrite Hd in Hdue.
  apply Ht, (winv_due D w Hw); [done|]. by eapply same_ops_some.
Qed.

(** A new operation is issued. *)
Lemma world_inv_issue D w l id op :
  world_inv D w -> loop_inv l (finalizing (w_todo w)) ->
  operations_ l = <[id := op]> (operations_ (w_loop w)) -> operations_ (w_loop w) !! id = None ->
  next_id_ (w_loop w) < id -> shutting_down_ l = false ->
  world_inv D (submitted (Ok id) (op_handle op) l w).
Proof.
  intros [Hl Hg Hd Hi Hold Hq] Hinv Ho Hnew Hlt Hdown.
  assert (id <= next_id_ l) as Hn.
  { destruct (inv_ids _ _ Hinv id op); [|done]. rewrite Ho. apply lookup_insert_eq. }
  constructor; simpl; [done|..].
  - rewrite Hg, (suspended_insert _ _ _ _ Ho Hnew), <- Permutation_cons_append. done.
  - rewrite map_app. apply NoDup_app. split_and!; [done| |by apply NoDup_singleton].
    intros x Hx. simpl. rewrite list_elem_of_singleton. intros ->.
    apply list_elem_of_In, in_map_iff in Hx as ([id' h'] & <- & Hin).
    rewrite Forall_forall in Hi. specialize (Hi (id', h')). rewrite list_elem_of_In in Hi.
    specialize (Hi Hin). simpl in Hi. simpl in Hlt. lia.
  - apply Forall_app. split; [|by constructor]. eapply Forall_impl; [exact Hi|]. simpl. lia.
  - intros id' Hid. specialize (Hold id' Hid). lia.
  - intros id' [Hid|]; [|congruence]. rewrite Ho. specialize (Hold id' Hid).
    rewrite lookup_insert_ne by lia. apply Hq. by left.
Qed.

(** ** Counters and flags the calls leave alone *)

Definition same_flags (l l' : Loop) : Prop :=
  next_id_ l' = next_id_ l /\ shutting_down_ l' = shutting_down_ l.

Lemma same_flags_trans l1 l2 l3 : same_flags l1 l2 -> same_flags l2 l3 -> same_flags l1 l3.
Proof. intros [? ?] [? ?]. split; congruence. Qed.

Lemma unlink_flags id l u l' : unlink id l = (u, l') -> same_flags l l'.
Proof.
  intros Hu. destruct (operations_ l !! id) as [op|] eqn:E.
  - destruct (unlink_spec id l op E) as (u' & l1 & Hu' & _ & _ & _ & _ & ? & ?).
    rewrite Hu' in Hu. by injection Hu as <- <-.
  - rewrite (unlink_none _ _ E) in Hu. by injection Hu as <- <-.
Qed.

Lemma release_flags u k l : same_flags l (release_registration u k l).
Proof. unfold release_registration. destruct (_ || _ || _); [done|]. by destruct (bool_decide _). Qed.

Lemma finalize_flags id k l h l' : finalize id k l = (h, l') -> same_flags l l'.
Proof.
  unfold finalize. destruct (unlink id l) as [u l1] eqn:Hu. apply unlink_flags in Hu.
  destruct u as [u|]; intros [= <- <-]; [|done].
  eapply same_flags_trans; [exact Hu|]. apply release_flags.
Qed.

Lemma discard_flags id k l : same_flags l (discard id k l).
Proof.
  unfold discard. destruct (unlink id l) as [[u|] l1] eqn:Hu; apply unlink_flags in Hu; [|done].
  eapply same_flags_trans; [exact Hu|]. apply release_flags.
Qed.

Lemma disarm_flags id l : same_flags l (disarm_operation id l).
Proof. by destruct (disarm_rest id l) as (_ & _ & ? & _ & _ & ?). Qed.

Lemma fail_waiters_flags fd e l acts l' : fail_waiters fd e l = (acts, l') -> same_flags l l'.
Proof.
  unfold fail_waiters. destruct (fd_waiters_ l !! fd) as [w|]; intros [= <- <-]; [|done].
  eapply same_flags_trans; [apply (disarm_flags (w_read w))|].
  eapply same_flags_trans; [apply (disarm_flags (w_write w))|]. done.
Qed.

Lemma insert_waiter_down fd writable o handle l :
  shutting_down_ (insert_waiter fd writable o handle l).2 = shutting_down_ l.
Proof.
  unfold insert_waiter. destruct (negb _); [done|]. cbv zeta. by destruct (opt_deadline o).
Qed.

Lemma insert_timer_down wake_at o handle l :
  shutting_down_ (insert_timer wake_at o handle l).2 = shutting_down_ l.
Proof. unfold insert_timer. cbv zeta. by destruct (opt_deadline o). Qed.

(** ** Every step keeps the invariant *)

Lemma add_waiter_world D w fd writable o handle now k k' r l :
  world_inv D w -> room (w_loop w) ->
  add_waiter fd writable o handle now k k' (w_loop w) = (r, l) ->
  world_inv D (submitted r handle l w).
Proof.
  intros Hw Hroom. unfold add_waiter.
  assert (forall e l, (Fail e, w_loop w) = (r, l) -> world_inv D (submitted r handle l w)) as Hno.
  { intros e l0 [= <- <-]. by destruct w. }
  destruct (fd <? 0); [apply Hno|]. destruct (shutting_down_ (w_loop w)) eqn:Hdown; [apply Hno|].
  destruct (rejected_before_submit o now); [apply Hno|].
  pose proof (insert_waiter_inv fd writable o handle _ _ (winv_loop _ _ Hw) Hroom) as Hins.
  pose proof (insert_waiter_down fd writable o handle (w_loop w)) as Hfl.
  destruct (insert_waiter fd writable o handle (w_loop w)) as [[[id combined]|] l1];
    [|subst; apply Hno].
  destruct Hins as (Hi & Hnew & Hlt & op & Ho & <-). simpl in Hfl.
  destruct (poller_arm fd combined k (registrations l1)) as [[[]|e] rg]; intros [= <- <-].
  - apply (world_inv_issue D w _ id op); try done; [by apply (loop_inv_ext l1)|]. simpl. congruence.
  - destruct (discard_inv id k' _ _ Hi) as [Hi' Ho'].
    destruct (discard_flags id k' l1) as [Hn' Hd'].
    assert (same_ops (w_loop w) (discard id k' l1)) as Hs.
    { intros id'. by rewrite Ho', Ho, delete_insert_id. }
    apply world_inv_same; [done|done|..|done|].
    2:{ apply (due_same D w); [done|done|congruence|done]. }
    assert (0 < id <= next_id_ l1); [|lia]. apply (inv_ids _ _ Hi id op).
    rewrite Ho. apply lookup_insert_eq.
Qed.

Lemma add_timer_world D w wake_at o handle now r l :
  world_inv D w -> room (w_loop w) -> add_timer wake_at o handle now (w_loop w) = (r, l) ->
  world_inv D (submitted r handle l w).
Proof.
  intros Hw Hroom. unfold add_timer.
  assert (forall e l, (Fail e, w_loop w) = (r, l) -> world_inv D (submitted r handle l w)) as Hno.
  { intros e l0 [= <- <-]. by destruct w. }
  destruct (shutting_down_ (w_loop w)) eqn:Hdown; [apply Hno|].
  destruct (rejected_before_submit o now); [apply Hno|].
  pose proof (insert_timer_inv wake_at o handle _ _ (winv_loop _ _ Hw) Hroom) as Hins.
  pose proof (insert_timer_down wake_at o handle (w_loop w)) as Hd.
  destruct (insert_timer wake_at o handle (w_loop w)) as [id l1].
  destruct Hins as (Hi & Hnew & Hlt & op & Ho & <-). intros [= <- <-].
  apply (world_inv_issue D w _ id op); try done. simpl in Hd. congruence.
Qed.

(** One resumption: the operation leaves the table and enters the log. *)
Lemma finalize_world D l rest log issued ran id outcome h l' k :
  world_inv D (mk_world l (do_finalize id outcome :: rest) log issued ran) ->
  finalize id k l = (h, l') ->
  world_inv D (mk_world l' rest
    (match h with Some h => log ++ [(id, h, outcome)] | None => log end) issued ran).
Proof.
  intros [Hl Hg Hd Hi Hold Hq] Hf. simpl in *.
  destruct (finalize_inv _ _ _ _ _ _ Hl Hf) as (Hl' & Ho & Hh).
  destruct (finalize_flags _ _ _ _ _ Hf) as [Hn Hdown].
  assert (forall id', is_Some (operations_ l' !! id') ->
    finalizing (do_finalize id outcome :: rest) id' -> finalizing rest id') as Hrest.
  { intros id' Hs (o & Hin). rewrite Ho in Hs.
    apply elem_of_cons in Hin as [[= -> ->]|Hin]; [|by exists o].
    rewrite lookup_delete_eq in Hs. by destruct Hs. }
  constructor; simpl.
  - by eapply loop_inv_mono.
  - rewrite Hg. destruct h as [h|].
    + unfold resumed. rewrite map_app. simpl.
      rewrite (suspended_delete l l' id h Ho) by done. simpl.
      by rewrite Permutation_middle, <- (Permutation_cons_append _ (id, h)).
    + f_equiv. unfold suspended. rewrite Ho, delete_id; [done|].
      by destruct (operations_ l !! id).
  - done.
  - by rewrite Hn.
  - by rewrite Hn.
  - rewrite Hdown. intros id' Hdn Hs. apply Hrest; [done|]. apply Hq; [done|].
    rewrite Ho in Hs. destruct Hs as [op Hs]. apply lookup_delete_Some in Hs as [_ Hs]. by exists op.
Qed.

(** Other calls drop nothing. *)
Lemma finalizing_skip a rest id :
  (forall i o, a <> do_finalize i o) -> finalizing (a :: rest) id -> finalizing rest id.
Proof.
  intros Ha (o & Hin). apply elem_of_cons in Hin as [E|Hin]; [by edestruct Ha|by exists o].
Qed.

Lemma world_inv_skip D l a rest log issued ran ran' :
  (forall i o, a <> do_finalize i o) ->
  world_inv D (mk_world l (a :: rest) log issued ran) -> world_inv D (mk_world l rest log issued ran').
Proof.
  intros Ha Hw. apply (world_inv_same D (mk_world l (a :: rest) log issued ran)); [done..| |].
  - eapply loop_inv_mono; [apply (winv_loop _ _ Hw)|]. intros id _. by apply finalizing_skip.
  - intros id Hd Hs. eapply finalizing_skip; [done|]. by apply (winv_due _ _ Hw).
Qed.

Lemma fail_waiters_world D w fd e acts l :
  world_inv D w -> fail_waiters fd e (w_loop w) = (acts, l) ->
  world_inv D (mk_world l (acts ++ w_todo w) (w_log w) (w_issued w) (w_ran w)).
Proof.
  intros Hw Hf. destruct (fail_waiters_inv _ _ _ _ _ _ (winv_loop _ _ Hw) Hf) as [Hi Hs].
  destruct (fail_waiters_flags _ _ _ _ _ Hf) as [Hn Hd].
  apply world_inv_same; [done|done|lia|..].
  - eapply loop_inv_mono; [exact Hi|]. intros id _. by rewrite finalizing_app.
  - apply (due_same D w); try done. intros id. rewrite finalizing_app. by right.
Qed.

Lemma perform_world D w a rest k :
  world_inv D w -> w_todo w = a :: rest ->
  world_inv D (perform a k (mk_world (w_loop w) rest (w_log w) (w_issued w) (w_ran w))).
Proof.
  destruct w as [l todo log issued ran]. simpl. intros Hw ->. destruct a as [fd i|id outcome|work].
  - apply world_inv_skip with (ran' := ran) in Hw; [|done]. unfold perform. simpl.
    destruct (poller_arm fd i k (registrations l)) as [[[]|e] rg].
    + apply (world_inv_same D (mk_world l rest log issued ran)); [done..| |apply (winv_due _ _ Hw)].
      apply (loop_inv_ext l); try done. apply (winv_loop _ _ Hw).
    + destruct (fail_waiters fd e l) as [acts l'] eqn:Hf.
      by apply (fail_waiters_world D (mk_world l rest log issued ran) fd e).
  - unfold perform. simpl. destruct (finalize id k l) as [h l'] eqn:Hf.
    pose proof (finalize_world _ _ _ _ _ _ _ _ _ _ _ Hw Hf). by destruct h.
  - by eapply (world_inv_skip D l (do_run work)).
Qed.

Lemma collect_down wake_fd evs now l acts l' :
  loop_inv l (fun _ => False) -> collect wake_fd evs now l = (acts, l') ->
  shutting_down_ l' = shutting_down_ l.
Proof.
  intros Hinv. unfold collect. destruct (on_events wake_fd evs l) as [[resolved rearm] l1] eqn:E1.
  destruct (on_events_inv _ _ _ _ _ _ _ Hinv E1) as (_ & _ & Hr).
  destruct (extract_expired now (l_timers l1)). intros [= <- <-]. apply Hr.
Qed.

Lemma run_once_world D w wake_fd evs now acts l :
  world_inv D w -> w_todo w = [] -> shutting_down_ (w_loop w) = false ->
  collect wake_fd evs now (fired evs (w_loop w)) = (acts, l) ->
  world_inv D (mk_world l acts (w_log w) (w_issued w) (w_ran w)).
Proof.
  intros Hw Ht Hd Hc.
  assert (loop_inv (fired evs (w_loop w)) (fun _ => False)) as Hi.
  { apply (loop_inv_ext (w_loop w)); try done.
    eapply loop_inv_mono; [apply (winv_loop _ _ Hw)|]. intros id _ (o & Hin).
    rewrite Ht in Hin. by apply not_elem_of_nil in Hin. }
  destruct (collect_inv _ _ _ _ _ _ Hi Hc) as (Hi' & Hs & Hn).
  pose proof (collect_down _ _ _ _ _ _ Hi Hc) as Hd'. simpl in Hn, Hd'.
  apply world_inv_same; [done|done|lia|done|].
  intros id [Hid|]; [|congruence]. intros Hop. exfalso.
  destruct (winv_due _ _ Hw id) as (o & Hin); [by left|by eapply (same_ops_some (w_loop w))|].
  rewrite Ht in Hin. by apply not_elem_of_nil in Hin.
Qed.

Lemma shutdown_world D w acts l :
  world_inv D w -> w_todo w = [] -> shutdown (w_loop w) = (acts, l) ->
  world_inv D (mk_world l acts (w_log w) (w_issued w) (w_ran w)).
Proof.
  intros Hw Ht Hs. destruct (shutdown_inv _ _ _ _ (winv_loop _ _ Hw) Hs) as (Hi & Ho & Hn).
  rewrite Ht in Hi. apply world_inv_same; [done| |lia|..].
  - intros id. by rewrite Ho.
  - eapply loop_inv_mono; [exact Hi|]. intros id _ (o & Hin). by apply not_elem_of_nil in Hin.
  - intros id _ Hid. rewrite Ho in Hid. unfold shutdown in Hs.
    destruct (shutting_down_ (w_loop w)) eqn:Hd; injection Hs as <- <-.
    + rewrite <- Ht. apply (winv_due _ _ Hw); [by right|done].
    + destruct Hid as [op Hid]. eexists. apply list_elem_of_In, in_map_iff. exists id.
      split; [done|]. apply in_map_iff. exists (id, op). split; [done|].
      by apply list_elem_of_In, elem_of_map_to_list.
Qed.

(** Calls that touch none of the indices. *)
Lemma world_inv_frame D w l :
  world_inv D w -> operations_ l = operations_ (w_loop w) -> fd_waiters_ l = fd_waiters_ (w_loop w) ->
  l_timers l = l_timers (w_loop w) -> same_flags (w_loop w) l -> world_inv D (with_loop l w).
Proof.
  intros Hw Ho Hf Ht [Hn Hd].
  apply world_inv_same; [done|by intros id; rewrite Ho|lia|..].
  - eapply loop_inv_ext; [apply (winv_loop _ _ Hw)|done..].
  - rewrite Hd, Ho. apply (winv_due _ _ Hw).
Qed.

Lemma step_world D w w' : world_inv D w -> step w w' -> world_inv D w'.
Proof.
  intros Hw Hstep. destruct Hstep as [| | | | |w fd kernel acts l Hd|w|w|w].
  - by eapply add_waiter_world.
  - by eapply add_timer_world.
  - apply world_inv_frame; unfold request_cancel; by destruct (operations_ (w_loop w) !! id).
  - apply world_inv_frame; unfold post; by destruct (shutting_down_ (w_loop w)).
  - by apply world_inv_frame.
  - unfold detach in Hd.
    by eapply (fail_waiters_world D
      (with_loop (set_registrations (poller_disarm fd kernel (registrations (w_loop w))).2 (w_loop w)) w));
      [apply world_inv_frame|].
  - by eapply run_once_world.
  - by eapply perform_world.
  - by eapply shutdown_world.
Qed.

Lemma new_world_inv : world_inv (fun _ => False) new_world.
Proof. constructor; simpl; [apply new_loop_inv|done|by apply NoDup_nil|done|done|naive_solver]. Qed.

Lemma steps_world D w w' : world_inv D w -> rtc step w w' -> world_inv D w'.
Proof. intros Hw Hr. induction Hr; eauto using step_world. Qed.

Lemma reachable_inv w : reachable w -> world_inv (fun _ => False) w.
Proof. apply steps_world, new_world_inv. Qed.

(** ** Scripts: concrete runs *)

Inductive Call :=
| c_waiter (fd : Z) (writable : bool) (o : OperationOptions) (handle now : Z) (k k' : option Error)
| c_timer (wake_at : Z) (o : OperationOptions) (handle now : Z)
| c_cancel (id : OperationId)
| c_post (work : Work)
| c_stop
| c_detach (fd : Z) (kernel : option Error)
| c_run_once (wake_fd : Z) (evs : list ReadyEvent) (now : Z)
| c_perform (kernel : option Error)
| c_shutdown.

Definition has_room (l : Loop) : bool :=
  (next_id_ l <? UINT64_MAX) && (serial_ (l_timers l) + 2 <=? UINT64_MAX).

(** A call, when it may be made. *)
Definition exec (c : Call) (w : World) : option World :=
  match c with
  | c_waiter fd wr o h now k k' =>
      if has_room (w_loop w)
      then let '(r, l) := add_waiter fd wr o h now k k' (w_loop w) in Some (submitted r h l w)
      else None
  | c_timer at_ o h now =>
      if has_room (w_loop w)
      then let '(r, l) := add_timer at_ o h now (w_loop w) in Some (submitted r h l w)
      else None
  | c_cancel id => Some (with_loop (request_cancel id (w_loop w)) w)
  | c_post work => Some (with_loop (post work (w_loop w)) w)
  | c_stop => Some (with_loop (stop (w_loop w)) w)
  | c_detach fd kernel =>
      let '(acts, l) := detach fd kernel (w_loop w) in
      Some (mk_world l (acts ++ w_todo w) (w_log w) (w_issued w) (w_ran w))
  | c_run_once wake_fd evs now =>
      match w_todo w, shutting_down_ (w_loop w) with
      | [], false =>
          let '(acts, l) := collect wake_fd evs now (fired evs (w_loop w)) in
          Some (mk_world l acts (w_log w) (w_issued w) (w_ran w))
      | _, _ => None
      end
  | c_perform kernel =>
      match w_todo w with
      | a :: rest =>
          Some (perform a kernel (mk_world (w_loop w) rest (w_log w) (w_issued w) (w_ran w)))
      | [] => None
      end
  | c_shutdown =>
      match w_todo w with
      | [] => let '(acts, l) := shutdown (w_loop w) in
              Some (mk_world l acts (w_log w) (w_issued w) (w_ran w))
      | _ => None
      end
  end.

Definition script (cs : list Call) (w : World) : option World :=
  foldl (fun w c => w ← w; exec c w) (Some w) cs.

Lemma has_room_spec l : has_room l = true -> room l.
Proof. unfold has_room, room. rewrite andb_true_iff, Z.ltb_lt, Z.leb_le. done. Qed.

Lemma exec_step c w w' : exec c w = Some w' -> step w w'.
Proof.
  destruct c; simpl.
  1,2: destruct (has_room _) eqn:Hr; [apply has_room_spec in Hr|done].
  1: destruct (add_waiter _ _ _ _ _ _ _ _) eqn:?. 2: destruct (add_timer _ _ _ _ _) eqn:?.
  6: destruct (detach _ _ _) eqn:?.
  7: destruct (w_todo w) eqn:?, (shutting_down_ (w_loop w)) eqn:?; try done;
     destruct (collect _ _ _ _) eqn:?.
  8: destruct (w_todo w) eqn:?; [done|].
  9: destruct (w_todo w) eqn:?; [|done]; destruct (shutdown _) eqn:?.
  all: intros [= <-]; by econstructor.
Qed.

Lemma script_steps cs w w' : script cs w = Some w' -> rtc step w w'.
Proof.
  unfold script. revert w. induction cs as [|c cs IH]; intros w; simpl; [by intros [= ->]|].
  destruct (exec c w) as [w1|] eqn:E; simpl.
  - intros Hs. eapply rtc_l; [by eapply exec_step|by apply IH].
  - intros Hs. exfalso. clear -Hs. by induction cs.
Qed.

Lemma script_reachable cs w : script cs new_world = Some w -> reachable w.
Proof. apply script_steps. Qed.

(** ** What the invariant gives *)

(** An operation issued and no longer in the table has been resumed. *)
Lemma gone_resumed D w id h :
  world_inv D w -> (id, h) ∈ w_issued w -> operations_ (w_loop w) !! id = None ->
  exists outcome, (id, h, outcome) ∈ w_log w.
Proof.
  intros Hw Hin Hn. rewrite (winv_ledger _ _ Hw), elem_of_app in Hin. destruct Hin as [Hin|Hin].
  - unfold suspended in Hin. apply elem_of_map_to_list in Hin.
    rewrite lookup_fmap, Hn in Hin. discriminate.
  - apply list_elem_of_In, in_map_iff in Hin as ([e o] & Heq & Hin). simpl in Heq. subst e.
    exists o. by apply list_elem_of_In.
Qed.

Lemma step_issued w w' e : step w w' -> e ∈ w_issued w -> e ∈ w_issued w'.
Proof.
  intros Hs He. destruct Hs; simpl; try done.
  1,2: destruct r; [by apply elem_of_app; left|done].
  unfold perform. destruct a; simpl; [| |done].
  - destruct (poller_arm _ _ _ _) as [[]]; simpl; [done|]. by destruct (fail_waiters _ _ _).
  - by destruct (finalize _ _ _) as [[] ?].
Qed.

(** C4: every operation handed out to a coroutine is, at any moment, either still
    suspended in the loop or resumed exactly once, under the handle it was
    submitted with: the two together are a permutation of what was issued, and
    no id occurs twice. *)
Theorem resolves_exactly_once (w : World) (Hw : reachable w) :
  w_issued w ≡ₚ suspended (w_loop w) ++ resumed (w_log w) /\
  NoDup (map fst (suspended (w_loop w)) ++ map fst (resumed (w_log w))).
Proof.
  destruct (reachable_inv w Hw) as [_ Hg Hd _ _ _]. split; [done|].
  rewrite <- map_app. by rewrite <- Hg.
Qed.

(** A read with a deadline, a sleep, a write on the same descriptor: the first
    iteration resolves the read, whose deadline had passed too. *)
Definition demo_calls : list Call :=
  [c_waiter 7 false (mk_options false (Some 50)) 100 0 None None;
   c_timer 80 no_options 101 0;
   c_waiter 7 true no_options 102 0 None None;
   c_cancel 2; c_post 5;
   c_run_once 3 [mk_event 7 true false false] 60;
   c_perform None; c_perform None].

Definition demo_world : World := default new_world (script demo_calls new_world).
Lemma demo_reachable : reachable demo_world.
Proof. apply (script_reachable demo_calls). vm_compute. reflexivity. Qed.

Lemma resolves_exactly_once_witness :
  reachable demo_world /\
  w_issued demo_world ≡ₚ suspended (w_loop demo_world) ++ resumed (w_log demo_world) /\
  NoDup (map fst (suspended (w_loop demo_world)) ++ map fst (resumed (w_log demo_world))).
Proof. split; [exact demo_reachable|]. exact (resolves_exactly_once demo_world demo_reachable). Defined.

(** an operation the current batch is to resolve is resolved by the
    time the batch is over, whatever the coroutines resumed in between do: submit,
    cancel, detach descriptors, post work, and whatever the kernel answers. *)
Theorem batch_is_delivered (w w' : World) (id : OperationId) (h : Z)
    (Hw : reachable w) (Hid : (id, h) ∈ w_issued w) (Hdue : finalizing (w_todo w) id)
    (Hrun : rtc step w w') (Hover : w_todo w' = []) :
  operations_ (w_loop w') !! id = None /\ exists outcome, (id, h, outcome) ∈ w_log w'.
Proof.
  assert (world_inv (fun i => i = id) w) as Hinv.
  { destruct (reachable_inv w Hw). constructor; try done.
    - intros i ->. rewrite Forall_forall in winv_ids0. by apply (winv_ids0 (id, h)).
    - intros i [->|Hd]; [done|]. intros. apply winv_due0; [by right|done]. }
  assert ((id, h) ∈ w_issued w') as Hid'.
  { clear -Hid Hrun. induction Hrun; eauto using step_issued. }
  pose proof (steps_world _ _ _ Hinv Hrun) as Hinv'.
  assert (operations_ (w_loop w') !! id = None) as Hn; [|by split; [|by eapply gone_resumed]].
  destruct (operations_ (w_loop w') !! id) eqn:E; [|done]. exfalso.
  destruct (winv_due _ _ Hinv' id) as (out & Hin); [by left|by eexists|].
  rewrite Hover in Hin. by apply not_elem_of_nil in Hin.
Qed.

Definition demo_rest : list Call :=
  [c_detach 7 None; c_waiter 7 true no_options 103 60 None None; c_perform None; c_perform None;
   c_perform None; c_perform None; c_perform None].

Definition demo_end : World := default new_world (script demo_rest demo_world).

Lemma batch_is_delivered_witness :
  finalizing (w_todo demo_world) 2 /\ w_todo demo_end = [] /\
  operations_ (w_loop demo_end) !! 2 = None /\ exists outcome, (2, 101, outcome) ∈ w_log demo_end.
Proof.
  assert (finalizing (w_todo demo_world) 2) as Hd.
  { eexists. apply list_elem_of_In. vm_compute. right; left. reflexivity. }
  split; [exact Hd|]. split; [vm_compute; reflexivity|].
  apply (batch_is_delivered demo_world demo_end 2 101).
  - exact demo_reachable.
  - apply list_elem_of_In. vm_compute. auto.
  - exact Hd.
  - apply (script_steps demo_rest). vm_compute. reflexivity.
  - vm_compute. reflexivity.
Defined.

(** between batches no operation is stranded and no index dangles.  A
    suspended readiness wait is named by the slot of its descriptor and direction,
    a sleep by its wake-up in the timer queue, and every deadline by an entry of
    its own; each non-empty slot and each timer names an operation that exists. *)
Theorem nothing_stranded (w : World) (Hw : reachable w) (Hidle : w_todo w = []) :
  let l := w_loop w in
  (forall id op, operations_ l !! id = Some op ->
     (op_kind op = Kind.readiness ->
        exists ws, fd_waiters_ l !! op_fd op = Some ws /\ slot (op_writable op) ws = id) /\
     (op_kind op = Kind.timer ->
        (key_of (op_wake op), mk_target id false) ∈ timers_ (l_timers l)) /\
     (handle_valid (op_deadline op) = true ->
        (key_of (op_deadline op), mk_target id true) ∈ timers_ (l_timers l))) /\
  (forall fd ws dir, fd_waiters_ l !! fd = Some ws -> slot dir ws <> kNoOperation ->
     exists op, operations_ l !! slot dir ws = Some op /\ op_fd op = fd /\ op_writable op = dir) /\
  (forall k t, (k, t) ∈ timers_ (l_timers l) -> is_Some (operations_ l !! operation t)).
Proof.
  destruct (reachable_inv w Hw) as [Hi _ _ _ _ _]. cbv zeta. rewrite Hidle in Hi.
  assert (forall id, ~ finalizing [] id) as Hno.
  { intros id (o & Hin). by apply not_elem_of_nil in Hin. }
  split_and!.
  - intros id op Ho. split_and!.
    + intros Hk. by destruct (inv_waiting _ _ Hi id op Ho Hk) as [?%Hno|?].
    + intros Hk. pose proof (inv_sleeping _ _ Hi id op Ho Hk) as Hv.
      by destruct (inv_due _ _ Hi id op false Ho Hv) as [?%Hno|?].
    + intros Hv. by destruct (inv_due _ _ Hi id op true Ho Hv) as [?%Hno|?].
  - intros fd ws dir Hf Hs. destruct (inv_slots _ _ Hi fd ws Hf) as [_ Hall].
    destruct (Hall dir Hs) as (op & ? & _ & ? & ?). by exists op.
  - intros [d s] t Hin. destruct (inv_targets _ _ Hi d s t Hin) as (op & ? & _). by exists op.
Qed.

Lemma nothing_stranded_witness :
  w_todo demo_end = [] /\
  exists ws, fd_waiters_ (w_loop demo_end) !! 7 = Some ws /\ slot true ws = 4.
Proof.
  split; [vm_compute; reflexivity|].
  assert (reachable demo_end) as Hr.
  { apply (script_reachable (demo_calls ++ demo_rest)). vm_compute. reflexivity. }
  destruct (nothing_stranded demo_end Hr) as (Hops & _); [vm_compute; reflexivity|].
  destruct (Hops 4 (mk_operation 4 103 Kind.readiness 7 true true no_timer no_timer)) as (Hread & _);
    [vm_compute; reflexivity|].
  exact (Hread eq_refl).
Defined.

(** shutting down leaves nobody suspended.  Once the resumptions it
    makes are over, whatever they did in turn, the table is empty, each operation
    ever issued has been resumed once, and later submissions are refused with
    [cancelled] while posted work is dropped. *)
Theorem shutdown_resumes_all (w : World) (Hw : reachable w)
    (Hdown : shutting_down_ (w_loop w) = true) (Hidle : w_todo w = []) :
  operations_ (w_loop w) = ∅ /\
  w_issued w ≡ₚ resumed (w_log w) /\ NoDup (map fst (resumed (w_log w))) /\
  (forall fd writable o h now k k', 0 <= fd ->
     add_waiter fd writable o h now k k' (w_loop w)
     = (Fail (make_error_code Errc.cancelled), w_loop w)) /\
  (forall wake_at o h now,
     add_timer wake_at o h now (w_loop w) = (Fail (make_error_code Errc.cancelled), w_loop w)) /\
  (forall work, post work (w_loop w) = w_loop w).
Proof.
  destruct (reachable_inv w Hw) as [_ Hg Hd _ _ Hq].
  assert (operations_ (w_loop w) = ∅) as He.
  { apply map_empty. intros id. destruct (_ !! id) eqn:E; [exfalso|done].
    destruct (Hq id) as (out & Hin); [by right|by eexists|].
    rewrite Hidle in Hin. by apply not_elem_of_nil in Hin. }
  assert (suspended (w_loop w) = []) as Hs.
  { unfold suspended. by rewrite He, fmap_empty, map_to_list_empty. }
  rewrite Hs in Hg. simpl in Hg. split_and!; try done.
  - by rewrite <- Hg.
  - intros. unfold add_waiter. rewrite Hdown. destruct (fd <? 0) eqn:E; [|done].
    apply Z.ltb_lt in E. lia.
  - intros. unfold add_timer. by rewrite Hdown.
  - intros. unfold post. by rewrite Hdown.
Qed.

Definition demo_shutdown : World :=
  default new_world (script [c_shutdown; c_perform None] demo_end).

Lemma shutdown_resumes_all_witness :
  shutting_down_ (w_loop demo_shutdown) = true /\ w_todo demo_shutdown = [] /\
  length (w_log demo_shutdown) = 4%nat /\ w_issued demo_shutdown ≡ₚ resumed (w_log demo_shutdown).
Proof.
  assert (shutting_down_ (w_loop demo_shutdown) = true) as Hd by (vm_compute; reflexivity).
  assert (w_todo demo_shutdown = []) as Ht by (vm_compute; reflexivity).
  split; [exact Hd|]. split; [exact Ht|]. split; [vm_compute; reflexivity|].
  refine (proj1 (proj2 (shutdown_resumes_all demo_shutdown _ Hd Ht))).
  apply (script_reachable (demo_calls ++ demo_rest ++ [c_shutdown; c_perform None])).
  vm_compute. reflexivity.
Defined.
