(* ===== verification/EventLoopArmed.v ===== *)
(** * EventLoopArmed: a suspended wait is backed by a kernel registration

    A readiness wait is resolved by an event only if the poller holds a one-shot
    registration covering its direction.  This file proves that it does, for a
    loop whose calls are not interleaved with the re-arming of a batch, and shows
    the interleaving that breaks it. *)

From stdpp Require Import gmap.
From S2P Require Import Prelude Errors Timers EventLoop EventLoopInv EventLoopLedger.

Local Open Scope Z_scope.

(** ** Covering an interest *)

Definition covers (i j : Interest) : Prop :=
  (i_read j = true -> i_read i = true) /\ (i_write j = true -> i_write i = true).

Definition covered (r : option Interest) (j : Interest) : Prop :=
  exists i, r = Some i /\ covers i j.

#[export] Instance covers_preorder : PreOrder covers.
Proof. split; [done|]. unfold covers. intros i j k [? ?] [? ?]. auto. Qed.

Lemma interest_flags w :
  interest w = mk_interest (negb (w_read w =? kNoOperation)) (negb (w_write w =? kNoOperation)).
Proof. unfold interest. by destruct (w_read w =? _), (w_write w =? _). Qed.

(** Emptying slots only shrinks the interest. *)
Definition shrinks (w w' : FdWaiters) : Prop :=
  forall dir, slot dir w' <> kNoOperation -> slot dir w <> kNoOperation.

Lemma shrinks_covers w w' : shrinks w w' -> covers (interest w) (interest w').
Proof.
  intros Hs. rewrite !interest_flags. unfold covers. simpl.
  rewrite !negb_true_iff, !Z.eqb_neq. split; [exact (Hs false)|exact (Hs true)].
Qed.

Lemma shrinks_refl w : shrinks w w.
Proof. by intros dir. Qed.
#[local] Hint Resolve shrinks_refl : core.

Lemma shrinks_clear dir w : shrinks w (set_slot dir kNoOperation w).
Proof. intros dir'. by destruct dir, dir'. Qed.

Lemma interest_none_empty w : interest w = interest_none <-> waiters_empty w = true.
Proof.
  rewrite interest_flags. unfold interest_none, waiters_empty.
  destruct (_ =? _), (_ =? _); simpl; naive_solver.
Qed.

(** ** The invariant *)

(** Every descriptor waited on has a registration covering its waiters, or is
    about to be re-armed; [pending] are descriptors whose event is being handled. *)
Record armed (l : Loop) (todo : list Action) (pending : Z -> Prop) : Prop := {
  armed_by : forall fd w, fd_waiters_ l !! fd = Some w ->
    covered (registrations l !! fd) (interest w) \/ (exists i, do_rearm fd i ∈ todo) \/ pending fd;
  armed_rearm : forall fd i, do_rearm fd i ∈ todo -> i <> interest_none /\
    forall w, fd_waiters_ l !! fd = Some w -> covers i (interest w);
}.

(** Waiters only leave. *)
Definition waiters_shrink (m m' : gmap Z FdWaiters) : Prop :=
  forall fd w', m' !! fd = Some w' -> exists w, m !! fd = Some w /\ shrinks w w'.

Lemma waiters_shrink_refl m : waiters_shrink m m.
Proof. intros fd w Hw. exists w. auto. Qed.

Lemma waiters_shrink_trans m1 m2 m3 :
  waiters_shrink m1 m2 -> waiters_shrink m2 m3 -> waiters_shrink m1 m3.
Proof.
  intros H1 H2 fd w Hw. destruct (H2 fd w Hw) as (w2 & Hw2 & Hs2).
  destruct (H1 fd w2 Hw2) as (w1 & Hw1 & Hs1). exists w1. split; [done|]. intros dir. auto.
Qed.

Lemma waiters_shrink_delete fd m : waiters_shrink m (delete fd m).
Proof. intros fd' w [_ Hw]%lookup_delete_Some. exists w. auto. Qed.

(** Registrations may change where nobody waits, or to what is waited for. *)
Lemma armed_shrink l l' todo todo' pending :
  armed l todo pending -> waiters_shrink (fd_waiters_ l) (fd_waiters_ l') ->
  (forall fd w', fd_waiters_ l' !! fd = Some w' ->
     registrations l' !! fd = registrations l !! fd \/
     covered (registrations l' !! fd) (interest w')) ->
  (forall fd i, do_rearm fd i ∈ todo' <-> do_rearm fd i ∈ todo) ->
  armed l' todo' pending.
Proof.
  intros [Hby Hre] Hsh Hreg Htodo. constructor.
  - intros fd w' Hw'. destruct (Hsh fd w' Hw') as (w & Hw & Hs).
    destruct (Hreg fd w' Hw') as [E|?]; [|by left].
    destruct (Hby fd w Hw) as [(i & Hi & Hc)|[(i & Hi)|?]]; [left|right; left|by right; right].
    + exists i. split; [congruence|]. etrans; [exact Hc|]. by apply shrinks_covers.
    + exists i. by apply Htodo.
  - intros fd i Hi. apply Htodo in Hi. destruct (Hre fd i Hi) as [Hne Hall]. split; [done|].
    intros w' Hw'. destruct (Hsh fd w' Hw') as (w & Hw & Hs).
    etrans; [by apply Hall|]. by apply shrinks_covers.
Qed.

(** ** Removing operations *)

Lemma put_waiters_lookup fd w l fd' w' :
  fd_waiters_ (put_waiters fd w l) !! fd' = Some w' ->
  (fd' = fd /\ w' = w /\ waiters_empty w = false) \/ (fd' <> fd /\ fd_waiters_ l !! fd' = Some w').
Proof.
  unfold put_waiters. destruct (waiters_empty w) eqn:E; simpl.
  - intros [Hne Hl]%lookup_delete_Some. by right.
  - intros [[-> ->]|[Hne Hl]]%lookup_insert_Some; [by left|by right].
Qed.

Lemma put_waiters_same_fd fd w l :
  fd_waiters_ (put_waiters fd w l) !! fd = if waiters_empty w then None else Some w.
Proof.
  unfold put_waiters. destruct (waiters_empty w); simpl; [apply lookup_delete_eq|apply lookup_insert_eq].
Qed.

Lemma put_waiters_shrink fd w w0 l :
  fd_waiters_ l !! fd = Some w0 -> shrinks w0 w ->
  waiters_shrink (fd_waiters_ l) (fd_waiters_ (put_waiters fd w l)).
Proof.
  intros Hw0 Hs fd' w' [(-> & -> & _)|[_ Hw']]%put_waiters_lookup; [by exists w0|exists w'; auto].
Qed.

(** What [unlink] reports is what is left. *)
Lemma unlink_report id l u l' :
  unlink id l = (u, l') ->
  waiters_shrink (fd_waiters_ l) (fd_waiters_ l') /\ registrations l' = registrations l /\
  match u with
  | Some u => u_registered u = false \/
      exists w, u_remaining u = interest w /\
        fd_waiters_ l' !! u_fd u = if waiters_empty w then None else Some w
  | None => True
  end.
Proof.
  unfold unlink. destruct (operations_ l !! id) as [op|].
  2:{ intros [= <- <-]. split_and!; [apply waiters_shrink_refl|done..]. }
  destruct (op_kind op).
  2:{ intros [= <- <-]. split_and!; [apply waiters_shrink_refl|done|by left]. }
  simpl. destruct (fd_waiters_ l !! op_fd op) as [w0|] eqn:E0.
  2:{ intros [= <- <-]. split_and!; [apply waiters_shrink_refl|done|by left]. }
  set (w := if slot _ _ =? id then _ else _). intros [= <- <-]. simpl.
  assert (forall l0, registrations (put_waiters (op_fd op) w l0) = registrations l0) as Hreg.
  { intros l0. unfold put_waiters. by destruct (waiters_empty w). }
  split_and!.
  - apply (put_waiters_shrink _ _ w0 (set_operations (delete id (operations_ l)) l)); [done|].
    unfold w. destruct (_ =? id); [apply shrinks_clear|apply shrinks_refl].
  - etrans; [apply Hreg|done].
  - right. exists w. split; [done|]. apply put_waiters_same_fd.
Qed.

Lemma release_waiters u k l : fd_waiters_ (release_registration u k l) = fd_waiters_ l.
Proof. unfold release_registration. destruct (_ || _ || _); [done|]. by destruct (bool_decide _). Qed.

(** Putting back the remaining interest keeps the other waiter covered. *)
Lemma release_covered u l fd w' :
  (u_registered u = false \/
   exists w, u_remaining u = interest w /\
     fd_waiters_ l !! u_fd u = if waiters_empty w then None else Some w) ->
  fd_waiters_ l !! fd = Some w' ->
  registrations (release_registration u None l) !! fd = registrations l !! fd \/
  covered (registrations (release_registration u None l) !! fd) (interest w').
Proof.
  unfold release_registration. intros Hu Hw'.
  destruct (u_registered u) eqn:Er; [|by left].
  destruct (_ || shutting_down_ l); [by left|]. destruct Hu as [?|(w & Hr & Hl)]; [done|].
  destruct (decide (fd = u_fd u)) as [->|Hne].
  - rewrite Hl in Hw'. destruct (waiters_empty w) eqn:Ee; [done|]. injection Hw' as ->.
    right. rewrite bool_decide_eq_false_2.
    2:{ rewrite Hr. intros Hn%interest_none_empty. congruence. }
    unfold poller_arm. rewrite bool_decide_eq_false_2.
    2:{ rewrite Hr. intros Hn%interest_none_empty. congruence. }
    simpl. exists (u_remaining u). split; [apply lookup_insert_eq|by rewrite Hr].
  - left. destruct (bool_decide _); simpl; [by apply lookup_delete_ne|].
    unfold poller_arm. destruct (bool_decide _); simpl; [done|]. by apply lookup_insert_ne.
Qed.

Lemma finalize_armed id l h l' o rest pending :
  armed l (do_finalize id o :: rest) pending -> finalize id None l = (h, l') -> armed l' rest pending.
Proof.
  intros Ha. unfold finalize. destruct (unlink id l) as [u l1] eqn:Hu.
  destruct (unlink_report _ _ _ _ Hu) as (Hsh & Hr & Hrep).
  intros Hf. eapply armed_shrink; [exact Ha|..].
  - destruct u; injection Hf as <- <-; rewrite ?release_waiters; done.
  - intros fd w' Hw'. destruct u as [u|]; injection Hf as <- <-.
    + rewrite release_waiters in Hw'. rewrite <- Hr. by apply release_covered.
    + left. by rewrite Hr.
  - intros fd i. rewrite elem_of_cons. naive_solver.
Qed.

(** ** Adding a waiter *)

Lemma insert_waiter_slots fd writable o h l id i l' :
  insert_waiter fd writable o h l = (Some (id, i), l') ->
  exists w, fd_waiters_ l' = <[fd := w]> (fd_waiters_ l) /\ i = interest w /\
    slot writable w = id /\ id = wrap64 (next_id_ l + 1) /\ registrations l' = registrations l.
Proof.
  unfold insert_waiter. destruct (negb _); [done|]. cbv zeta.
  destruct (opt_deadline o); [destruct (timer_add _ _ _)|]; intros [= <- <- <-]; simpl;
    (eexists; split_and!; try done; apply slot_set_same).
Qed.

(** No re-arming is pending: the loop is between batches or past that phase. *)
Definition no_rearm (todo : list Action) : Prop := forall fd i, do_rearm fd i ∉ todo.

Definition nobody (fd : Z) : Prop := False.

Lemma armed_direct l todo fd w :
  armed l todo nobody -> no_rearm todo -> fd_waiters_ l !! fd = Some w ->
  covered (registrations l !! fd) (interest w).
Proof.
  intros Ha Hno Hw. destruct (armed_by _ _ _ Ha fd w Hw) as [?|[(i & Hi)|[]]]; [done|].
  by apply Hno in Hi.
Qed.

Lemma add_waiter_armed fd writable o h now k' l r l' P todo :
  loop_inv l P -> room l -> armed l todo nobody -> no_rearm todo ->
  add_waiter fd writable o h now None k' l = (r, l') -> armed l' todo nobody.
Proof.
  intros Hinv Hroom Ha Hno. unfold add_waiter.
  destruct (fd <? 0); [by intros [= <- <-]|]. destruct (shutting_down_ l); [by intros [= <- <-]|].
  destruct (rejected_before_submit o now); [by intros [= <- <-]|].
  pose proof (insert_waiter_inv fd writable o h _ _ Hinv Hroom) as Hins.
  destruct (insert_waiter fd writable o h l) as [[[id i]|] l1] eqn:E;
    [|intros [= <- <-]; by subst].
  destruct (insert_waiter_slots _ _ _ _ _ _ _ _ E) as (w & Hf & -> & Hsl & _ & Hr).
  destruct Hins as (Hi1 & _ & Hlt & _). pose proof (inv_next _ _ Hinv).
  unfold poller_arm. rewrite bool_decide_eq_false_2.
  2:{ intros Hn%interest_none_empty. rewrite waiters_empty_slots in Hn. specialize (Hn writable).
      rewrite Hsl in Hn. unfold kNoOperation in Hn. lia. }
  intros [= <- <-]. constructor; simpl.
  - rewrite Hf, Hr. intros fd' w' [[<- <-]|[Hne Hw']]%lookup_insert_Some; left.
    + exists (interest w). by rewrite lookup_insert_eq.
    + rewrite lookup_insert_ne by done. by eapply armed_direct.
  - intros fd' i Hin. by apply Hno in Hin.
Qed.

(** ** One batch *)

Lemma claim_slots dir w l r w' l' :
  claim dir w l = (r, w', l') ->
  shrinks w w' /\ fd_waiters_ l' = fd_waiters_ l /\ registrations l' = registrations l /\
  no_rearm r.
Proof.
  unfold claim. destruct (_ =? _); intros [= <- <- <-].
  - split_and!; try done. intros fd i. apply not_elem_of_nil.
  - split_and!; [apply shrinks_clear|by apply disarm_rest| |].
    + unfold disarm_operation. by destruct (operations_ l !! _).
    + intros fd i. rewrite elem_of_cons. intros [?|?%not_elem_of_nil]; done.
Qed.

Lemma no_rearm_app a b : no_rearm a -> no_rearm b -> no_rearm (a ++ b).
Proof. intros Ha Hb fd i [?|?]%elem_of_app; [by eapply Ha|by eapply Hb]. Qed.

(** The two claims of an event. *)
Lemma claims_slots (rd wr : bool) w l r1 w1 l1 r2 w2 l2 :
  (if rd then claim false w l else ([], w, l)) = (r1, w1, l1) ->
  (if wr then claim true w1 l1 else ([], w1, l1)) = (r2, w2, l2) ->
  shrinks w w2 /\ fd_waiters_ l2 = fd_waiters_ l /\ registrations l2 = registrations l /\
  no_rearm (r1 ++ r2).
Proof.
  assert (forall (b : bool) dir w l r w' l',
    (if b then claim dir w l else ([], w, l)) = (r, w', l') ->
    shrinks w w' /\ fd_waiters_ l' = fd_waiters_ l /\ registrations l' = registrations l /\
    no_rearm r) as Hone.
  { intros [] dir w0 l0 r w' l' E; [by apply claim_slots in E|]. injection E as <- <- <-.
    split_and!; try done. intros fd i. apply not_elem_of_nil. }
  intros (Hs1 & Hf1 & Hr1 & Hn1)%Hone (Hs2 & Hf2 & Hr2 & Hn2)%Hone.
  split_and!; [|congruence..|by apply no_rearm_app]. intros dir. auto.
Qed.

Lemma on_event_armed wake_fd ev l r a l' todo pending :
  armed l todo (fun fd => fd = ev_fd ev \/ pending fd) -> fd_waiters_ l !! wake_fd = None ->
  on_event wake_fd ev l = (r, a, l') ->
  armed l' (todo ++ a) pending /\ no_rearm r /\ fd_waiters_ l' !! wake_fd = None.
Proof.
  intros Ha Hwake. unfold on_event.
  assert (fd_waiters_ l !! ev_fd ev = None -> ([], [], l) = (r, a, l') ->
    armed l' (todo ++ a) pending /\ no_rearm r /\ fd_waiters_ l' !! wake_fd = None) as Hskip.
  { intros Hnone [= <- <- <-]. rewrite app_nil_r.
    split_and!; [|intros ??; apply not_elem_of_nil|done]. destruct Ha as [Hby Hre].
    constructor; [|done]. intros fd w Hw.
    destruct (Hby fd w Hw) as [?|[?|[->|?]]]; [by left|by right; left|congruence|by right; right]. }
  destruct (ev_fd ev =? wake_fd) eqn:Ew; [apply Hskip; apply Z.eqb_eq in Ew; congruence|].
  destruct (fd_waiters_ l !! ev_fd ev) as [w|] eqn:E; [|by apply Hskip]. clear Hskip.
  apply Z.eqb_neq in Ew.
  destruct (if ev_readable ev || ev_failed ev then _ else _) as [[r1 w1] l1] eqn:E1.
  destruct (if ev_writable ev || ev_failed ev then _ else _) as [[r2 w2] l2] eqn:E2.
  destruct (claims_slots _ _ _ _ _ _ _ _ _ _ E1 E2) as (Hs & Hf & Hr & Hn).
  intros [= <- <- <-]. destruct Ha as [Hby Hre].
  assert (registrations (put_waiters (ev_fd ev) w2 l2) = registrations l) as Hreg.
  { unfold put_waiters. by destruct (waiters_empty w2). }
  split_and!; [|done|].
  - constructor.
    + rewrite Hreg. intros fd w' [(-> & -> & Ee)|[Hne Hw']]%put_waiters_lookup.
      { right; left. exists (interest w2). rewrite Ee. set_solver. }
      rewrite Hf in Hw'. destruct (Hby fd w' Hw') as [?|[(i & ?)|[?|?]]];
        [by left|right; left; exists i; set_solver|done|by right; right].
    + intros fd i [Hi|Hi]%elem_of_app.
      * destruct (Hre fd i Hi) as [Hin Hall]. split; [done|].
        intros w' [(-> & -> & Ee)|[Hne Hw']]%put_waiters_lookup; [|apply Hall; congruence].
        etrans; [by apply (Hall w)|by apply shrinks_covers].
      * destruct (waiters_empty w2) eqn:Ee; [by apply not_elem_of_nil in Hi|].
        apply list_elem_of_singleton in Hi as [= -> ->]. split.
        -- intros Hnn%interest_none_empty. congruence.
        -- intros w'. rewrite put_waiters_same_fd, Ee. by intros [= ->].
  - destruct (fd_waiters_ (put_waiters _ _ _) !! wake_fd) as [w'|] eqn:Ex; [exfalso|done].
    apply put_waiters_lookup in Ex as [(? & _)|[_ Ex]]; congruence.
Qed.

Lemma on_events_armed wake_fd evs l r a l' todo :
  armed l todo (fun fd => Exists (fun ev => fd = ev_fd ev) evs) ->
  fd_waiters_ l !! wake_fd = None -> on_events wake_fd evs l = (r, a, l') ->
  armed l' (todo ++ a) nobody /\ no_rearm r /\ fd_waiters_ l' !! wake_fd = None.
Proof.
  revert l todo r a l'. induction evs as [|ev evs IH]; intros l todo r a l' Ha Hw; simpl.
  { intros [= <- <- <-]. rewrite app_nil_r. split_and!; [|intros ??; apply not_elem_of_nil|done].
    destruct Ha as [Hby Hre]. constructor; [|done]. intros fd w Hfd.
    destruct (Hby fd w Hfd) as [?|[?|?%Exists_nil]]; [by left|by right; left|done]. }
  destruct (on_event wake_fd ev l) as [[r1 a1] l1] eqn:E1.
  destruct (on_events wake_fd evs l1) as [[r2 a2] l2] eqn:E2. intros [= <- <- <-].
  eapply (on_event_armed _ _ _ _ _ _ _ (fun fd => Exists (fun ev => fd = ev_fd ev) evs)) in E1 as (Ha1 & Hn1 & Hw1); [|clear -Ha|done].
  2:{ destruct Ha as [Hby Hre]. constructor; [|exact Hre]. intros fd w Hfd.
      destruct (Hby fd w Hfd) as [?|[?|Hex]]; [by left|by right; left|right; right].
      by apply Exists_cons in Hex. }
  destruct (IH _ _ _ _ _ Ha1 Hw1 E2) as (Ha2 & Hn2 & Hw2).
  rewrite app_assoc. split_and!; [done|by apply no_rearm_app|done].
Qed.

Lemma fired_lookup evs r fd :
  foldl (fun (r : gmap Z Interest) ev => delete (ev_fd ev) r) r evs !! fd = r !! fd \/
  Exists (fun ev => fd = ev_fd ev) evs.
Proof.
  revert r; induction evs as [|ev evs IH]; intros r; simpl; [by left|].
  destruct (IH (delete (ev_fd ev) r)) as [E|?]; [|by right; apply Exists_cons_tl].
  destruct (decide (fd = ev_fd ev)) as [->|Hne]; [by right; apply Exists_cons_hd|].
  left. rewrite E. by apply lookup_delete_ne.
Qed.

Lemma collect_armed wake_fd evs now l acts l' :
  armed l [] nobody -> fd_waiters_ l !! wake_fd = None ->
  collect wake_fd evs now (fired evs l) = (acts, l') ->
  armed l' acts nobody /\ fd_waiters_ l' !! wake_fd = None.
Proof.
  intros Ha Hw. unfold collect.
  destruct (on_events wake_fd evs (fired evs l)) as [[resolved rearm] l1] eqn:E.
  eapply (on_events_armed _ _ _ _ _ _ []) in E as (Ha1 & Hn1 & Hw1); [|clear E|done].
  2:{ destruct Ha as [Hby Hre]. constructor.
      - intros fd w Hfd. simpl. destruct (fired_lookup evs (registrations l) fd) as [->|?];
          [|by right; right].
        destruct (Hby fd w Hfd) as [?|[(i & Hi)|[]]]; [by left|by apply not_elem_of_nil in Hi].
      - intros fd i Hi. by apply not_elem_of_nil in Hi. }
  destruct (extract_expired now (l_timers l1)) as [ex q]. intros [= <- <-].
  split; [|done]. eapply armed_shrink; [exact Ha1|apply waiters_shrink_refl|by left|].
  intros fd i. simpl. rewrite !elem_of_app. split; [|by left].
  intros [?|[[?|[Hi|Hi]]|Hi]]; [done|by edestruct Hn1|..].
  all: apply list_elem_of_In, in_map_iff in Hi as (x & Hx & _); by destruct x.
Qed.

(** ** Runs in which nothing comes between a batch and its re-arming *)

(** The kernel accepts what is registered, nobody waits on the loop's own wake-up
    descriptor, and no other call is made while descriptors remain to be re-armed. *)
Definition calm (wake_fd : Z) (c : Call) (w : World) : Prop :=
  match c with
  | c_perform k => k = None
  | c_waiter fd _ _ _ _ k _ => no_rearm (w_todo w) /\ k = None /\ fd <> wake_fd
  | c_run_once wfd _ _ => no_rearm (w_todo w) /\ wfd = wake_fd
  | _ => no_rearm (w_todo w)
  end.

Inductive calm_run (wake_fd : Z) : World -> Prop :=
| calm_start : calm_run wake_fd new_world
| calm_call c w w' :
    calm_run wake_fd w -> calm wake_fd c w -> exec c w = Some w' -> calm_run wake_fd w'.

Lemma calm_reachable wake_fd w : calm_run wake_fd w -> reachable w.
Proof.
  induction 1 as [|c w w' _ IH _ He]; [apply rtc_refl|].
  eapply rtc_r; [exact IH|]. by eapply exec_step.
Qed.

Definition world_armed (wake_fd : Z) (w : World) : Prop :=
  armed (w_loop w) (w_todo w) nobody /\ fd_waiters_ (w_loop w) !! wake_fd = None.

Lemma fail_waiters_slots fd e l acts l' :
  fail_waiters fd e l = (acts, l') ->
  fd_waiters_ l' = delete fd (fd_waiters_ l) /\ registrations l' = registrations l /\ no_rearm acts.
Proof.
  unfold fail_waiters. destruct (fd_waiters_ l !! fd) as [w|] eqn:E; intros [= <- <-].
  - simpl. rewrite !(proj1 (disarm_rest _ _)). split_and!; [done| |].
    + unfold disarm_operation. repeat (destruct (_ !! _); simpl); done.
    + intros fd' i [?|[?|?%not_elem_of_nil]%elem_of_cons]%elem_of_cons; done.
  - rewrite delete_id by done. split_and!; try done. intros fd' i. apply not_elem_of_nil.
Qed.

Lemma detach_armed wake_fd w fd kernel acts l :
  world_armed wake_fd w -> no_rearm (w_todo w) -> detach fd kernel (w_loop w) = (acts, l) ->
  world_armed wake_fd (mk_world l (acts ++ w_todo w) (w_log w) (w_issued w) (w_ran w)).
Proof.
  intros [Ha Hw] Hno Hd. apply fail_waiters_slots in Hd as (Hf & Hr & Hn). simpl in Hf, Hr.
  split; simpl.
  - eapply armed_shrink; [exact Ha|rewrite Hf; apply waiters_shrink_delete|..].
    + rewrite Hf, Hr. intros fd' w' [Hne _]%lookup_delete_Some. left.
      destruct kernel; [done|]. by apply lookup_delete_ne.
    + intros fd' i. rewrite elem_of_app. split; [|by right]. intros [?%Hn|?]; done.
  - rewrite Hf. by apply lookup_delete_None; right.
Qed.

Lemma perform_armed wake_fd w a rest :
  world_armed wake_fd w -> w_todo w = a :: rest ->
  world_armed wake_fd (perform a None (mk_world (w_loop w) rest (w_log w) (w_issued w) (w_ran w))).
Proof.
  intros [Ha Hw] Ht. rewrite Ht in Ha. destruct a as [fd i|id o|work]; unfold perform; simpl.
  - destruct (armed_rearm _ _ _ Ha fd i) as [Hne Hall]; [by left|].
    unfold poller_arm. rewrite bool_decide_eq_false_2 by done. split; [|done]. simpl.
    destruct Ha as [Hby Hre]. constructor; simpl.
    + intros fd' w' Hw'. destruct (decide (fd' = fd)) as [->|Hd].
      { left. exists i. rewrite lookup_insert_eq. auto. }
      rewrite lookup_insert_ne by done.
      destruct (Hby fd' w' Hw') as [?|[(j & Hj)|[]]]; [by left|right; left].
      exists j. by apply elem_of_cons in Hj as [[= -> ->]|?].
    + intros fd' j Hj. apply Hre. by right.
  - destruct (finalize id None (w_loop w)) as [h l'] eqn:Hf.
    assert (fd_waiters_ l' !! wake_fd = None) as Hw'.
    { unfold finalize in Hf. destruct (unlink id (w_loop w)) as [u l1] eqn:Hu.
      destruct (unlink_report _ _ _ _ Hu) as (Hsh & _).
      destruct (fd_waiters_ l' !! wake_fd) as [x|] eqn:Ex; [exfalso|done].
      destruct (Hsh wake_fd x) as (? & ? & _); [|congruence].
      destruct u; injection Hf as <- <-; by rewrite ?release_waiters in Ex. }
    pose proof (finalize_armed _ _ _ _ _ _ _ Ha Hf). by destruct h.
  - split; [|done]. eapply armed_shrink; [exact Ha|apply waiters_shrink_refl|by left|].
    intros fd i. rewrite elem_of_cons. naive_solver.
Qed.

(** Calls that leave slots and registrations alone. *)
Lemma armed_frame wake_fd w l todo log issued ran :
  world_armed wake_fd w -> fd_waiters_ l = fd_waiters_ (w_loop w) ->
  registrations l = registrations (w_loop w) -> no_rearm (w_todo w) -> no_rearm todo ->
  world_armed wake_fd (mk_world l todo log issued ran).
Proof.
  intros [Ha Hw] Hf Hr Hn Hn'. split; simpl; [|by rewrite Hf].
  eapply armed_shrink; [exact Ha|rewrite Hf; apply waiters_shrink_refl|by left; rewrite Hr|].
  intros fd i. split; [by intros ?%Hn'|by intros ?%Hn].
Qed.

Lemma add_waiter_wake fd writable o h now k' l r l' wake_fd P :
  loop_inv l P -> room l -> fd <> wake_fd -> fd_waiters_ l !! wake_fd = None ->
  add_waiter fd writable o h now None k' l = (r, l') -> fd_waiters_ l' !! wake_fd = None.
Proof.
  intros Hinv Hroom Hne Hw. unfold add_waiter. 
  destruct (fd <? 0); [by intros [= <- <-]|]. destruct (shutting_down_ l); [by intros [= <- <-]|].
  destruct (rejected_before_submit o now); [by intros [= <- <-]|].
  pose proof (insert_waiter_inv fd writable o h _ _ Hinv Hroom) as Hins.
  destruct (insert_waiter fd writable o h l) as [[[id i]|] l1] eqn:E;
    [|intros [= <- <-]; by subst].
  destruct (insert_waiter_slots _ _ _ _ _ _ _ _ E) as (w & Hf & _).
  assert (fd_waiters_ l1 !! wake_fd = None) as Hw1 by (rewrite Hf; by rewrite lookup_insert_ne).
  destruct (poller_arm _ _ _ _) as [[]]; intros [= <- <-]; [done|].
  unfold discard. destruct (unlink id l1) as [u l2] eqn:Hu.
  destruct (unlink_report _ _ _ _ Hu) as (Hsh & _).
  destruct u; rewrite ?release_waiters;
    (destruct (fd_waiters_ l2 !! wake_fd) as [x|] eqn:Ex; [|done]);
    destruct (Hsh wake_fd x Ex) as (? & ? & _); congruence.
Qed.

Lemma calm_armed wake_fd w : calm_run wake_fd w -> world_armed wake_fd w.
Proof.
  induction 1 as [|c w w' Hrun IH Hc He].
  { split; [|done]. constructor; simpl; [done|]. intros fd i Hi. by apply not_elem_of_nil in Hi. }
  pose proof (reachable_inv _ (calm_reachable _ _ Hrun)) as Hinv.
  destruct c as [fd wr o h now k k'|at_ o h now|id|work| |fd k|wfd evs now|k|]; simpl in Hc, He.
  - destruct Hc as (Hno & -> & Hne). destruct (has_room _) eqn:Hr; [apply has_room_spec in Hr|done].
    destruct (add_waiter _ _ _ _ _ _ _ _) as [r l] eqn:Ea. injection He as <-. destruct IH as [Ha Hw].
    split; [by eapply add_waiter_armed; [apply (winv_loop _ _ Hinv)|..]|].
    by eapply add_waiter_wake; [apply (winv_loop _ _ Hinv)|..].
  - destruct (has_room _); [|done]. destruct (add_timer _ _ _ _ _) as [r l] eqn:Ea. injection He as <-.
    assert (fd_waiters_ l = fd_waiters_ (w_loop w) /\ registrations l = registrations (w_loop w)) as [? ?].
    { revert Ea. unfold add_timer, insert_timer. destruct (shutting_down_ _); [by intros [= <- <-]|].
      destruct (rejected_before_submit _ _); [by intros [= <- <-]|]. cbv zeta.
      by destruct (opt_deadline o); intros [= <- <-]. }
    by eapply armed_frame.
  - injection He as <-. eapply armed_frame; try done; unfold request_cancel; by destruct (_ !! id).
  - injection He as <-. eapply armed_frame; try done; unfold post; by destruct (shutting_down_ _).
  - injection He as <-. by eapply armed_frame.
  - destruct (detach _ _ _) as [acts l] eqn:Ed. injection He as <-. by eapply detach_armed.
  - destruct Hc as [_ ->]. destruct (w_todo w) eqn:Et, (shutting_down_ (w_loop w)); try done.
    destruct (collect _ _ _ _) as [acts l] eqn:Ec. injection He as <-. destruct IH as [Ha Hw].
    rewrite Et in Ha. by eapply collect_armed.
  - subst k. destruct (w_todo w) as [|a rest] eqn:Et; [done|]. injection He as <-. by apply perform_armed.
  - destruct (w_todo w) eqn:Et; [|done]. destruct (shutdown _) as [acts l] eqn:Es. injection He as <-.
    unfold shutdown in Es. destruct (shutting_down_ _); injection Es as <- <-;
      (eapply armed_frame; [done..|by rewrite Et|]); intros fd i Hi.
    + by apply not_elem_of_nil in Hi.
    + by apply list_elem_of_In, in_map_iff in Hi as (x & Hx & _).
Qed.

(** The direction an operation waits for. *)
Definition wants (op : Operation) (i : Interest) : bool :=
  if op_writable op then i_write i else i_read i.

(** C20: as long as the kernel accepts registrations and no call comes between
    a batch and its re-arming, no wait is left without a registration.  Every
    readiness operation the batch is not about to resolve has a live one-shot
    registration on its descriptor that covers its direction, however the other
    direction was submitted, resolved, cancelled or timed out. *)
Theorem waiting_is_armed (wake_fd : Z) (w : World) (id : OperationId) (op : Operation)
    (Hrun : calm_run wake_fd w) (Hrearmed : no_rearm (w_todo w))
    (Hop : operations_ (w_loop w) !! id = Some op) (Hkind : op_kind op = Kind.readiness)
    (Hwaits : finalizing (w_todo w) id -> False) :
  exists i, registrations (w_loop w) !! op_fd op = Some i /\ wants op i = true.
Proof.
  pose proof (reachable_inv _ (calm_reachable _ _ Hrun)) as Hinv.
  destruct (calm_armed _ _ Hrun) as [Ha _].
  destruct (inv_waiting _ _ (winv_loop _ _ Hinv) id op Hop Hkind) as [?|(ws & Hws & Hs)]; [done|].
  destruct (armed_direct _ _ _ _ Ha Hrearmed Hws) as (i & Hi & Hr & Hw).
  exists i. split; [done|]. rewrite interest_flags in Hr, Hw. simpl in Hr, Hw.
  assert (slot (op_writable op) ws <> kNoOperation) as Hne.
  { pose proof (inv_ids _ _ (winv_loop _ _ Hinv) id op Hop). rewrite Hs. unfold kNoOperation. lia. }
  apply Z.eqb_neq in Hne. unfold wants. destruct (op_writable op); simpl in Hne; [apply Hw|apply Hr];
    by rewrite Hne.
Qed.

(** Calm scripts. *)
Definition armed_calls : list Call :=
  [c_waiter 7 false (mk_options false (Some 50)) 100 0 None None;
   c_waiter 7 true no_options 102 0 None None;
   c_run_once 3 [mk_event 7 true false false] 60;
   c_perform None; c_perform None; c_perform None].

Definition no_rearmb (todo : list Action) : bool :=
  forallb (fun a => match a with do_rearm _ _ => false | _ => true end) todo.

Lemma no_rearmb_spec todo : no_rearmb todo = true -> no_rearm todo.
Proof.
  unfold no_rearmb. rewrite forallb_forall. intros Hall fd i Hin.
  apply list_elem_of_In, Hall in Hin. done.
Qed.

Definition calmb (wake_fd : Z) (c : Call) (w : World) : bool :=
  match c with
  | c_perform k => bool_decide (k = None)
  | c_waiter fd _ _ _ _ k _ => no_rearmb (w_todo w) && bool_decide (k = None) && negb (fd =? wake_fd)
  | c_run_once wfd _ _ => no_rearmb (w_todo w) && (wfd =? wake_fd)
  | _ => no_rearmb (w_todo w)
  end.

Lemma calmb_spec wake_fd c w : calmb wake_fd c w = true -> calm wake_fd c w.
Proof.
  destruct c; simpl; rewrite ?andb_true_iff, ?bool_decide_eq_true, ?negb_true_iff, ?Z.eqb_neq, ?Z.eqb_eq;
    intros; repeat (match goal with H : _ /\ _ |- _ => destruct H end);
    repeat split; auto using no_rearmb_spec.
Qed.

Fixpoint calm_script (wake_fd : Z) (cs : list Call) (w : World) : option World :=
  match cs with
  | [] => Some w
  | c :: cs => if calmb wake_fd c w then w' ← exec c w; calm_script wake_fd cs w' else None
  end.

Lemma calm_script_run wake_fd cs w w' :
  calm_run wake_fd w -> calm_script wake_fd cs w = Some w' -> calm_run wake_fd w'.
Proof.
  revert w; induction cs as [|c cs IH]; intros w Hw; simpl; [by intros [= <-]|].
  destruct (calmb wake_fd c w) eqn:Ec; [|done]. apply calmb_spec in Ec.
  destruct (exec c w) as [w1|] eqn:E; simpl; [|done]. apply IH. by eapply calm_call.
Qed.

Definition armed_world : World := default new_world (calm_script 3 armed_calls new_world).

Lemma waiting_is_armed_witness :
  exists i, registrations (w_loop armed_world) !! 7 = Some i /\ i_write i = true.
Proof.
  apply (waiting_is_armed 3 armed_world 2
           (mk_operation 2 102 Kind.readiness 7 true true no_timer no_timer)).
  - apply (calm_script_run 3 armed_calls new_world); [constructor|vm_compute; reflexivity].
  - apply no_rearmb_spec. vm_compute. reflexivity.
  - vm_compute. reflexivity.
  - reflexivity.
  - intros (o & Hin). revert Hin. apply not_elem_of_nil.
Defined.

(** ** What a call during the re-arming breaks *)

(** Descriptors 7 and 8 each have both directions waited for and become readable.
    The kernel refuses to re-arm 7, so its writer is resumed at once with the
    error, and waits for descriptor 8 to become readable; then 8 is re-armed with
    the interest computed before. *)
Definition stale_calls : list Call :=
  [c_waiter 7 false no_options 100 0 None None; c_waiter 7 true no_options 101 0 None None;
   c_waiter 8 false no_options 102 0 None None; c_waiter 8 true no_options 103 0 None None;
   c_run_once 3 [mk_event 7 true false false; mk_event 8 true false false] 10;
   c_perform (Some (mk_error 12 system_category)); c_perform None; c_perform None;
   c_waiter 8 false no_options 104 10 None None;
   c_perform None; c_perform None; c_perform None].

(** Re-arming a batch with interests computed before user code ran can
    leave a wait unarmed.  After this run nothing is left to do, every
    registration after the refused one was accepted, operation 5 is suspended on
    descriptor 8 becoming readable, and the only registration of 8 is for
    writing: the arrival of data on 8 will not wake it. *)
Theorem stale_rearm_strands_reader :
  exists w op, script stale_calls new_world = Some w /\ reachable w /\ w_todo w = [] /\
    operations_ (w_loop w) !! 5 = Some op /\ op_fd op = 8 /\ op_writable op = false /\
    registrations (w_loop w) !! 8 = Some (mk_interest false true).
Proof.
  exists (default new_world (script stale_calls new_world)),
    (mk_operation 5 104 Kind.readiness 8 false true no_timer no_timer).
  split_and!; try (vm_compute; reflexivity).
  apply (script_reachable stale_calls). vm_compute. reflexivity.
Qed.
