(* ===== verification/EventLoopBatch.v ===== *)
(** * EventLoopBatch: which outcome an operation gets

    One iteration may find an operation completed, out of time and cancelled at
    once.  This file computes the outcome it is resumed with when the batch is
    delivered without other calls in between. *)

From Stdlib Require Import Sorted.
From stdpp Require Import gmap.
From S2P Require Import Prelude Errors Timers EventLoop EventLoopInv EventLoopLedger EventLoopArmed.

Local Open Scope Z_scope.

(** ** Delivering a batch *)

(** Make the calls one after the other, the kernel accepting each registration. *)
Fixpoint drain (n : nat) (w : World) : World :=
  match n, w_todo w with
  | S n, a :: rest =>
      drain n (perform a None (mk_world (w_loop w) rest (w_log w) (w_issued w) (w_ran w)))
  | _, _ => w
  end.

(** The outcome of the first [finalize] of [id]. *)
Fixpoint first_outcome (id : OperationId) (todo : list Action) : option (Result unit) :=
  match todo with
  | [] => None
  | do_finalize id' o :: rest => if id' =? id then Some o else first_outcome id rest
  | _ :: rest => first_outcome id rest
  end.

Lemma first_outcome_app id a b :
  first_outcome id (a ++ b) =
  match first_outcome id a with Some o => Some o | None => first_outcome id b end.
Proof.
  induction a as [|[fd i|id' o|work] a IH]; simpl; [done|done| |done].
  by destruct (id' =? id).
Qed.

Lemma first_outcome_rearm id a : (forall x, x ∈ a -> exists fd i, x = do_rearm fd i) ->
  first_outcome id a = None.
Proof.
  induction a as [|x a IH]; intros Hall; simpl; [done|].
  destruct (Hall x) as (fd & i & ->); [by left|]. apply IH. intros y Hy. apply Hall. by right.
Qed.

(** The coroutine an operation belongs to, while it is suspended. *)
Definition handle_of (l : Loop) (id : OperationId) : option Z := op_handle <$> operations_ l !! id.

Lemma finalize_handles id k l h l' :
  finalize id k l = (h, l') ->
  h = handle_of l id /\ forall j, handle_of l' j = if id =? j then None else handle_of l j.
Proof.
  unfold finalize, handle_of. destruct (operations_ l !! id) as [op|] eqn:E.
  - destruct (unlink_spec id l op E) as (u & l1 & -> & Hh & Ho & _). intros [= <- <-].
    rewrite release_operations, Ho. split; [by simpl; rewrite Hh|]. intros j.
    destruct (Z.eqb_spec id j) as [<-|Hne]; [by rewrite lookup_delete_eq|].
    by rewrite lookup_delete_ne.
  - rewrite (unlink_none _ _ E). intros [= <- <-]. split; [done|]. intros j.
    destruct (Z.eqb_spec id j) as [<-|Hne]; [by rewrite E|done].
Qed.

(** Once each, with the first outcome mentioned. *)
Lemma drain_delivers n w :
  (length (w_todo w) <= n)%nat -> (forall fd i, do_rearm fd i ∈ w_todo w -> i <> interest_none) ->
  let w' := drain n w in
  w_todo w' = [] /\ (forall e, e ∈ w_log w -> e ∈ w_log w') /\
  forall id, match first_outcome id (w_todo w) with
             | Some o => handle_of (w_loop w') id = None /\
                 forall h, handle_of (w_loop w) id = Some h -> (id, h, o) ∈ w_log w'
             | None => handle_of (w_loop w') id = handle_of (w_loop w) id
             end.
Proof.
  revert w. induction n as [|n IH]; intros [l todo log issued ran] Hlen Hre; simpl in *.
  { destruct todo; simpl in *; [done|lia]. }
  destruct todo as [|a rest]; simpl in *; [done|].
  assert (forall fd i, do_rearm fd i ∈ rest -> i <> interest_none) as Hre'.
  { intros fd i Hi. apply (Hre fd). by right. }
  destruct a as [fd i|id o|work]; unfold perform; simpl.
  - unfold poller_arm. rewrite bool_decide_eq_false_2 by (apply (Hre fd); by left).
    by apply (IH (mk_world (set_registrations (<[fd := i]> (registrations l)) l) rest log issued ran));
      [simpl; lia|].
  - destruct (finalize id None l) as [h l'] eqn:Hf.
    assert (h = handle_of l id /\ forall j, handle_of l' j = if id =? j then None else handle_of l j)
      as [-> Hl'] by (by eapply finalize_handles).
    set (log' := match handle_of l id with Some h => log ++ [(id, h, o)] | None => log end).
    assert (forall e, e ∈ log -> e ∈ log') as Hlog.
    { intros e He. unfold log'. destruct (handle_of l id); set_solver. }
    assert (match handle_of l id with
            | Some h => mk_world l' rest (log ++ [(id, h, o)]) issued ran
            | None => mk_world l' rest log issued ran
            end = mk_world l' rest log' issued ran) as -> by (by unfold log'; destruct (handle_of l id)).
    destruct (IH (mk_world l' rest log' issued ran)) as (Ht & Hmono & Hall); [simpl; lia|done|].
    simpl in *. split_and!; [done|by auto|]. intros j. specialize (Hall j). rewrite Hl' in Hall.
    destruct (id =? j) eqn:Ej; [|done]. apply Z.eqb_eq in Ej. subst j. split.
    + by destruct (first_outcome id rest) as [?|]; [destruct Hall|].
    + intros h Hh. apply Hmono. unfold log'. rewrite Hh. set_solver.
  - by apply (IH (mk_world l rest log issued (ran ++ [work]))); [simpl; lia|].
Qed.

(** ** What the events resolve *)

(** [ev] reports the direction [op] waits for. *)
Definition reports (op : Operation) (ev : ReadyEvent) : bool :=
  (ev_fd ev =? op_fd op) && (ev_failed ev || if op_writable op then ev_writable ev else ev_readable ev).

(** The slot of [op] names [id]. *)
Definition named (l : Loop) (op : Operation) (id : OperationId) : bool :=
  slot (op_writable op) (waiters_of (op_fd op) l) =? id.

(** A slot names an operation of its own descriptor and direction. *)
Definition slots_own (l : Loop) (op : Operation) (id : OperationId) : Prop :=
  forall fd w dir, fd_waiters_ l !! fd = Some w -> slot dir w = id -> fd = op_fd op /\ dir = op_writable op.

Lemma claims_outcome (rd wr : bool) w l r1 w1 l1 r2 w2 l2 id :
  id <> kNoOperation ->
  (if rd then claim false w l else ([], w, l)) = (r1, w1, l1) ->
  (if wr then claim true w1 l1 else ([], w1, l1)) = (r2, w2, l2) ->
  first_outcome id (r1 ++ r2) =
    (if (rd && (slot false w =? id)) || (wr && (slot true w =? id)) then Some (Ok tt) else None) /\
  forall dir, slot dir w2 = if (if dir then wr else rd) then kNoOperation else slot dir w.
Proof.
  intros Hid.
  assert (forall (b : bool) dir w l r w' l',
    (if b then claim dir w l else ([], w, l)) = (r, w', l') ->
    first_outcome id r = (if b && (slot dir w =? id) then Some (Ok tt) else None) /\
    w' = if b then set_slot dir kNoOperation w else w) as Hone.
  { intros b dir w0 l0 r w' l'. destruct b; simpl; [|by intros [= <- <- <-]].
    unfold claim. destruct (Z.eqb_spec (slot dir w0) kNoOperation) as [E|E]; intros [= <- <- <-].
    - split; [|by destruct w0, dir; simpl in *; subst].
      rewrite E. destruct (Z.eqb_spec kNoOperation id); [by subst|done].
    - by simpl; destruct (_ =? id). }
  intros [H1 ->]%Hone [H2 ->]%Hone. split.
  - rewrite first_outcome_app, H1, H2. by destruct rd, wr; simpl; repeat destruct (_ =? id).
  - intros []; by destruct rd, wr.
Qed.

Lemma put_waiters_slot fd w l dir : slot dir (waiters_of fd (put_waiters fd w l)) = slot dir w.
Proof.
  unfold waiters_of. rewrite put_waiters_same_fd.
  destruct (waiters_empty w) eqn:E; simpl; [|done].
  rewrite waiters_empty_slots in E. rewrite E. by destruct dir.
Qed.

Lemma put_waiters_other fd fd' w l : fd' <> fd ->
  fd_waiters_ (put_waiters fd w l) !! fd' = fd_waiters_ l !! fd'.
Proof.
  intros Hne. unfold put_waiters. destruct (waiters_empty w); simpl;
    [by apply lookup_delete_ne|by apply lookup_insert_ne].
Qed.

#[local] Arguments slot : simpl never.

(** The claims made are those of the slot [op] sits in. *)
Lemma reports_claims l op id ev w :
  slots_own l op id -> fd_waiters_ l !! ev_fd ev = Some w ->
  (if ((ev_readable ev || ev_failed ev) && (slot false w =? id)) ||
      ((ev_writable ev || ev_failed ev) && (slot true w =? id)) then Some (Ok tt) else None) =
  (if named l op id && reports op ev then Some (Ok tt) else @None (Result unit)).
Proof.
  intros Hown Hw.
  assert (((ev_readable ev || ev_failed ev) && (slot false w =? id)) ||
          ((ev_writable ev || ev_failed ev) && (slot true w =? id)) =
          named l op id && reports op ev) as ->; [|done].
  assert (forall dir, (slot dir w =? id) = true -> ev_fd ev = op_fd op /\ dir = op_writable op) as Ho.
  { intros dir E. apply (Hown (ev_fd ev) w); [done|by apply Z.eqb_eq]. }
  unfold named, reports, waiters_of.
  destruct (Z.eqb_spec (ev_fd ev) (op_fd op)) as [E|E]; simpl.
  - rewrite <- E, Hw. simpl. destruct (op_writable op) eqn:Ed.
    + destruct (slot false w =? id) eqn:E0; [by destruct (Ho false E0)|].
      by destruct (slot true w =? id), (ev_writable ev), (ev_failed ev); rewrite ?andb_false_r.
    + destruct (slot true w =? id) eqn:E0; [by destruct (Ho true E0)|].
      by destruct (slot false w =? id), (ev_readable ev), (ev_failed ev); rewrite ?andb_false_r.
  - destruct (slot false w =? id) eqn:E0; [by destruct (Ho false E0)|].
    destruct (slot true w =? id) eqn:E1; [by destruct (Ho true E1)|]. by rewrite !andb_false_r.
Qed.

Lemma on_event_outcome wake_fd ev l r a l' op id :
  id <> kNoOperation -> slots_own l op id -> op_fd op <> wake_fd ->
  on_event wake_fd ev l = (r, a, l') ->
  first_outcome id r = (if named l op id && reports op ev then Some (Ok tt) else None) /\
  slots_own l' op id /\ named l' op id = named l op id && negb (reports op ev) /\
  (forall x, x ∈ a -> exists fd i, x = do_rearm fd i).
Proof.
  intros Hid Hown Hwake. unfold on_event.
  assert (named l op id && reports op ev = false -> ([], [], l) = (r, a, l') ->
    first_outcome id r = (if named l op id && reports op ev then Some (Ok tt) else None) /\
    slots_own l' op id /\ named l' op id = named l op id && negb (reports op ev) /\
    (forall x, x ∈ a -> exists fd i, x = do_rearm fd i)) as Hskip.
  { intros E [= <- <- <-]. rewrite E. split_and!; [done|done|by destruct (named _ _ _), (reports _ _)|].
    intros x Hx. by apply not_elem_of_nil in Hx. }
  destruct (Z.eqb_spec (ev_fd ev) wake_fd) as [Ew|Ew].
  { apply Hskip. unfold reports. rewrite (proj2 (Z.eqb_neq _ _)) by congruence. apply andb_false_r. }
  destruct (fd_waiters_ l !! ev_fd ev) as [w|] eqn:Hw.
  2:{ apply Hskip. unfold named, reports, waiters_of.
      destruct (Z.eqb_spec (ev_fd ev) (op_fd op)) as [E|E]; [|apply andb_false_r].
      rewrite <- E, Hw. simpl. apply andb_false_intro1. apply Z.eqb_neq. by destruct (op_writable op). }
  clear Hskip.
  destruct (if ev_readable ev || ev_failed ev then _ else _) as [[r1 w1] l1] eqn:E1.
  destruct (if ev_writable ev || ev_failed ev then _ else _) as [[r2 w2] l2] eqn:E2.
  destruct (claims_slots _ _ _ _ _ _ _ _ _ _ E1 E2) as (_ & Hf & _).
  destruct (claims_outcome _ _ _ _ _ _ _ _ _ _ id Hid E1 E2) as [Hout Hslots].
  intros [= <- <- <-]. split_and!.
  - rewrite Hout. by apply (reports_claims l op id ev w).
  - intros fd w' dir [(-> & -> & _)|[_ Hw']]%put_waiters_lookup Hs; [|apply (Hown fd w'); congruence].
    apply (Hown (ev_fd ev) w dir Hw). rewrite Hslots in Hs.
    by destruct (if dir then _ else _).
  - unfold named at 1. destruct (decide (op_fd op = ev_fd ev)) as [E|E].
    + rewrite E, put_waiters_slot, Hslots. unfold named, waiters_of, reports. rewrite E, Hw, Z.eqb_refl.
      simpl. assert ((kNoOperation =? id) = false) as H0 by (by apply Z.eqb_neq).
      destruct (op_writable op); destruct (ev_failed ev);
        rewrite ?orb_true_r, ?orb_false_r; simpl; rewrite ?H0, ?andb_false_r, ?andb_true_r;
        try done; [destruct (ev_writable ev)|destruct (ev_readable ev)]; simpl;
        rewrite ?H0, ?andb_false_r, ?andb_true_r; done.
    + unfold waiters_of. rewrite put_waiters_other, Hf by done. unfold named, reports, waiters_of.
      rewrite (proj2 (Z.eqb_neq (ev_fd ev) (op_fd op))) by congruence. by rewrite andb_true_r.
  - intros x. destruct (waiters_empty w2); [by intros ?%not_elem_of_nil|].
    intros ->%list_elem_of_singleton. by eexists _, _.
Qed.

Lemma on_events_outcome wake_fd evs l r a l' op id :
  id <> kNoOperation -> slots_own l op id -> op_fd op <> wake_fd ->
  on_events wake_fd evs l = (r, a, l') ->
  first_outcome id r = (if named l op id && existsb (reports op) evs then Some (Ok tt) else None) /\
  (forall x, x ∈ a -> exists fd i, x = do_rearm fd i).
Proof.
  intros Hid. revert l r a l'. induction evs as [|ev evs IH]; intros l r a l' Hown Hw; simpl.
  { intros [= <- <- <-]. rewrite andb_false_r. split; [done|]. by intros x ?%not_elem_of_nil. }
  destruct (on_event wake_fd ev l) as [[r1 a1] l1] eqn:E1.
  destruct (on_events wake_fd evs l1) as [[r2 a2] l2] eqn:E2. intros [= <- <- <-].
  destruct (on_event_outcome _ _ _ _ _ _ _ _ Hid Hown Hw E1) as (H1 & Hown1 & Hn & Ha1).
  destruct (IH _ _ _ _ Hown1 Hw E2) as [H2 Ha2]. split.
  - rewrite first_outcome_app, H1, H2, Hn.
    by destruct (named l op id), (reports op ev).
  - intros x [?|?]%elem_of_app; [by apply Ha1|by apply Ha2].
Qed.

(** ** What the timers resolve *)

Definition due (h : TimerHandle) (now : Z) : bool := handle_valid h && (th_deadline h <=? now).

(** The first timer of [id] in a sorted queue is its earliest. *)
Lemma first_timer id m :
  StronglySorted entry_lt m ->
  match first_outcome id (map timer_outcome (map snd m)) with
  | None => forall k t, (k, t) ∈ m -> operation t <> id
  | Some o => exists k t, (k, t) ∈ m /\ operation t = id /\ timer_outcome t = do_finalize id o /\
      forall k' t', (k', t') ∈ m -> operation t' = id -> (k', t') = (k, t) \/ key_lt k k'
  end.
Proof.
  induction 1 as [|[k t] m Hs IH Hall]; simpl; [by intros k t ?%not_elem_of_nil|].
  destruct (Z.eqb_spec (operation t) id) as [E|E].
  - exists k, t. split_and!; [by left|done|by unfold timer_outcome; rewrite E|].
    intros k' t' [?|Hin]%elem_of_cons _; [by left|right].
    rewrite Forall_forall in Hall. exact (Hall (k', t') Hin).
  - destruct (first_outcome id _) as [o|].
    + destruct IH as (k1 & t1 & Hin & Hop & Ho & Hmin). exists k1, t1.
      split_and!; [by right|done|done|]. intros k' t' [[= -> ->]|Hin']%elem_of_cons Hop'; [done|].
      by apply Hmin.
    + intros k' t' [[= -> ->]|Hin]%elem_of_cons; [done|by eapply IH].
Qed.

(** The timers of one operation in the queue. *)
Lemma timer_entries l P id op k t :
  loop_inv l P -> ~ P id -> operations_ l !! id = Some op ->
  ((k, t) ∈ timers_ (l_timers l) /\ operation t = id <->
   handle_valid (timer_of (is_deadline t) op) = true /\ k = key_of (timer_of (is_deadline t) op) /\
   t = mk_target id (is_deadline t)).
Proof.
  intros Hinv HP Hop. split.
  - intros [Hin Ht]. destruct k as [d s]. destruct (inv_targets _ _ Hinv d s t Hin) as (op' & Ho & Hh).
    rewrite Ht, Hop in Ho. injection Ho as <-. rewrite Hh. unfold key_of. simpl.
    split_and!; [|done|by destruct t; simpl in *; subst].
    pose proof (wf_serials _ (inv_timers _ _ Hinv)) as Hser. rewrite Forall_forall in Hser.
    specialize (Hser _ Hin). simpl in Hser. unfold handle_valid. simpl.
    apply negb_true_iff, Z.eqb_neq. lia.
  - intros (Hv & -> & Ht). split; [|by rewrite Ht].
    destruct (inv_due _ _ Hinv id op (is_deadline t) Hop Hv) as [?|Hin]; [done|].
    by rewrite Ht.
Qed.

Lemma timers_outcome l P id op now :
  loop_inv l P -> ~ P id -> operations_ l !! id = Some op ->
  first_outcome id (map timer_outcome (map snd
    (List.filter (fun e => e.1.1 <=? now) (timers_ (l_timers l))))) =
  if due (op_wake op) now && (negb (due (op_deadline op) now) ||
                               key_ltb (key_of (op_wake op)) (key_of (op_deadline op)))
  then Some (Ok tt)
  else if due (op_deadline op) now then Some (Fail (make_error_code Errc.timed_out)) else None.
Proof.
  intros Hinv HP Hop. set (m := List.filter _ _).
  assert (StronglySorted entry_lt m) as Hs by apply StronglySorted_filter, Hinv.
  assert (forall k dl, (k, mk_target id dl) ∈ m <->
    due (timer_of dl op) now = true /\ k = key_of (timer_of dl op)) as Hm.
  { intros k dl. unfold m, due. rewrite list_elem_of_In, List.filter_In, <- list_elem_of_In, andb_true_iff.
    pose proof (timer_entries l P id op k (mk_target id dl) Hinv HP Hop) as He. simpl in He.
    split.
    - intros [Hin Hle]. destruct (proj1 He) as (Hv & -> & _); [done|]. done.
    - intros [[Hv Hle] ->]. split; [apply (proj2 He); done|done]. }
  pose proof (first_timer id m Hs) as Hf.
  destruct (first_outcome id _) as [o|].
  - destruct Hf as (k & [i dl] & Hin & Ht & Ho & Hmin). simpl in Ht. subst i.
    injection Ho as Ho. apply Hm in Hin as [Hd ->]. destruct dl; simpl in *.
    + rewrite Hd. subst o. simpl. destruct (due (op_wake op) now) eqn:Hw; simpl; [|done].
      destruct (Hmin (key_of (op_wake op)) (mk_target id false)) as [?|Hlt]; [by apply Hm|done|done|].
      assert (key_ltb (key_of (op_wake op)) (key_of (op_deadline op)) = false) as ->; [|done].
      apply key_ltb_nlt. unfold key_lt in *. lia.
    + rewrite Hd. subst o. simpl. destruct (due (op_deadline op) now) eqn:Hdl; simpl; [|done].
      destruct (Hmin (key_of (op_deadline op)) (mk_target id true)) as [?|Hlt]; [by apply Hm|done|done|].
      by apply key_ltb_lt in Hlt as ->.
  - assert (forall dl, due (timer_of dl op) now = false) as Hno.
    { intros dl. destruct (due (timer_of dl op) now) eqn:E; [exfalso|done].
      by apply (Hf (key_of (timer_of dl op)) (mk_target id dl)); [apply Hm|]. }
    pose proof (Hno false) as H0. pose proof (Hno true) as H1. simpl in H0, H1. by rewrite H0, H1.
Qed.

(** ** The outcome of an iteration *)

Lemma cancels_outcome id cancels :
  first_outcome id (map (fun id => do_finalize id (Fail (make_error_code Errc.cancelled))) cancels) =
  if existsb (Z.eqb id) cancels then Some (Fail (make_error_code Errc.cancelled)) else None.
Proof.
  induction cancels as [|c cancels IH]; simpl; [done|]. rewrite (Z.eqb_sym c id).
  by destruct (id =? c).
Qed.

Lemma run_outcome id works : first_outcome id (map do_run works) = None.
Proof. by induction works. Qed.

(** The outcome of [op] in an iteration at time [now] with events [evs]: a
    reported event completes it; otherwise its earliest due timer decides, the
    wake-up completing it and the deadline timing it out; otherwise a
    cancellation requested since the last iteration cancels it. *)
Definition verdict (evs : list ReadyEvent) (now : Z) (cancels : list OperationId)
    (id : OperationId) (op : Operation) : option (Result unit) :=
  if bool_decide (op_kind op = Kind.readiness) && existsb (reports op) evs then Some (Ok tt)
  else if due (op_wake op) now && (negb (due (op_deadline op) now) ||
                                    key_ltb (key_of (op_wake op)) (key_of (op_deadline op)))
  then Some (Ok tt)
  else if due (op_deadline op) now then Some (Fail (make_error_code Errc.timed_out))
  else if existsb (Z.eqb id) cancels then Some (Fail (make_error_code Errc.cancelled))
  else None.

(** Slots of an operation, from the invariant. *)
Lemma inv_slots_own l P id op :
  loop_inv l P -> operations_ l !! id = Some op -> slots_own l op id.
Proof.
  intros Hinv Hop fd w dir Hw Hs. pose proof (inv_ids _ _ Hinv id op Hop).
  destruct (inv_slots _ _ Hinv fd w Hw) as [_ Hall].
  destruct (Hall dir) as (op' & Ho & _ & Hfd & Hd); [unfold kNoOperation; lia|].
  rewrite Hs, Hop in Ho. injection Ho as <-. done.
Qed.

(** A wait is named by its slot, a sleep by none. *)
Lemma inv_named l P id op :
  loop_inv l P -> ~ P id -> operations_ l !! id = Some op ->
  named l op id = bool_decide (op_kind op = Kind.readiness).
Proof.
  intros Hinv HP Hop. unfold named, waiters_of. pose proof (inv_ids _ _ Hinv id op Hop).
  destruct (op_kind op) eqn:Hk.
  - destruct (inv_waiting _ _ Hinv id op Hop Hk) as [?|(w & -> & Hs)]; [done|].
    simpl. rewrite Hs, Z.eqb_refl. done.
  - rewrite bool_decide_eq_false_2 by done. apply Z.eqb_neq. intros Hs.
    destruct (fd_waiters_ l !! op_fd op) as [w|] eqn:Hw; simpl in Hs.
    + destruct (inv_slots _ _ Hinv _ _ Hw) as [_ Hall].
      destruct (Hall (op_writable op)) as (op' & Ho & Hk' & _); [unfold kNoOperation; lia|].
      rewrite Hs, Hop in Ho. injection Ho as <-. congruence.
    + assert (slot (op_writable op) no_waiters = 0) as H0 by (by destruct (op_writable op)).
      rewrite H0 in Hs. lia.
Qed.

Lemma collect_outcome wake_fd evs now l acts l' id op :
  loop_inv l (fun _ => False) -> operations_ l !! id = Some op -> op_fd op <> wake_fd ->
  collect wake_fd evs now l = (acts, l') ->
  first_outcome id acts = verdict evs now (pending_cancels_ l) id op.
Proof.
  intros Hinv Hop Hwake. unfold collect.
  destruct (on_events wake_fd evs l) as [[resolved rearm] l1] eqn:E.
  destruct (on_events_inv _ _ _ _ _ _ _ Hinv E) as (_ & _ & Ht & Hc & _).
  assert (id <> kNoOperation) as Hid by (pose proof (inv_ids _ _ Hinv id op Hop); unfold kNoOperation; lia).
  destruct (on_events_outcome _ _ _ _ _ _ op id Hid (inv_slots_own _ _ _ _ Hinv Hop) Hwake E)
    as [Hout Hre].
  unfold extract_expired. rewrite Ht, expired_split_spec by apply Hinv. intros [= <- <-].
  rewrite !first_outcome_app, (first_outcome_rearm id rearm Hre), Hout, run_outcome.
  rewrite (inv_named _ _ _ _ Hinv (fun H => H) Hop).
  rewrite (timers_outcome _ _ _ _ now Hinv (fun H => H) Hop), Hc, cancels_outcome. unfold verdict.
  repeat match goal with |- context[if ?b then _ else _] => destruct b; simpl end; done.
Qed.

(** C5: what an undisturbed iteration does with each operation.  The loop got where
    it is by registrations the kernel accepted and without calls while descriptors were
    still to be re-armed ([calm_run]), and nothing is left to deliver; the batch an
    iteration then collects is delivered with nothing in between ([drain]: no
    resumed coroutine calls the loop back, and the kernel accepts every re-arm).
    Then, of the operations that do not wait for the wake-up descriptor, every one that an event completed is resumed with success even if its
    deadline had passed or its cancellation was requested; otherwise the earlier
    of its due timers decides, success for the wake-up of a sleep and
    [timed_out] for a deadline; otherwise a requested cancellation gives
    [cancelled]; and every other operation stays suspended.  Delivering takes as
    many calls as the batch is long. *)
Theorem batch_verdict (w : World) (wake_fd : Z) (evs : list ReadyEvent) (now : Z)
    (acts : list Action) (l : Loop) (Hrun : calm_run wake_fd w) (Hidle : w_todo w = [])
    (Hcollect : collect wake_fd evs now (fired evs (w_loop w)) = (acts, l)) :
  let w' := drain (length acts) (mk_world l acts (w_log w) (w_issued w) (w_ran w)) in
  w_todo w' = [] /\
  forall id op, operations_ (w_loop w) !! id = Some op -> op_fd op <> wake_fd ->
    match verdict evs now (pending_cancels_ (w_loop w)) id op with
    | Some outcome => operations_ (w_loop w') !! id = None /\ (id, op_handle op, outcome) ∈ w_log w'
    | None => handle_of (w_loop w') id = Some (op_handle op)
    end.
Proof.
  pose proof (reachable_inv _ (calm_reachable _ _ Hrun)) as Hinv.
  assert (loop_inv (fired evs (w_loop w)) (fun _ => False)) as Hi.
  { apply (loop_inv_ext (w_loop w)); try done.
    eapply loop_inv_mono; [apply (winv_loop _ _ Hinv)|]. intros id _ (o & Hin).
    rewrite Hidle in Hin. by apply not_elem_of_nil in Hin. }
  destruct (calm_armed _ _ Hrun) as [Ha Hw]. rewrite Hidle in Ha.
  destruct (collect_armed _ _ _ _ _ _ Ha Hw Hcollect) as [Ha' _].
  destruct (collect_inv _ _ _ _ _ _ Hi Hcollect) as (_ & Hsame & _).
  destruct (drain_delivers (length acts) (mk_world l acts (w_log w) (w_issued w) (w_ran w)))
    as (Ht & _ & Hall); [done|by intros fd i Hre; apply (armed_rearm _ _ _ Ha' fd i)|].
  simpl in Hall. split; [exact Ht|]. intros id op Hop Hfd. specialize (Hall id).
  rewrite (collect_outcome _ _ _ _ _ _ _ _ Hi Hop Hfd Hcollect) in Hall.
  assert (handle_of l id = Some (op_handle op)) as Hh.
  { unfold handle_of. rewrite Hsame. simpl. exact (f_equal (fmap op_handle) Hop). }
  destruct (verdict _ _ _ _ _) as [o|]; [|by rewrite Hall].
  destruct Hall as [Hn Hlog]. split; [|by apply Hlog].
  unfold handle_of in Hn. by destruct (operations_ _ !! id).
Qed.

(** Four operations: a read ready and out of time and cancelled, a sleep cut
    short by its deadline, a cancelled write, and a sleep not yet due. *)
Definition verdict_calls : list Call :=
  [c_waiter 7 false (mk_options false (Some 50)) 100 0 None None;
   c_timer 58 (mk_options false (Some 55)) 101 0;
   c_waiter 8 true no_options 102 0 None None;
   c_timer 90 no_options 103 0;
   c_cancel 1; c_cancel 3].

Definition verdict_world : World := default new_world (calm_script 3 verdict_calls new_world).
Definition verdict_events : list ReadyEvent := [mk_event 7 true false false].

Lemma batch_verdict_witness :
  verdict verdict_events 60 (pending_cancels_ (w_loop verdict_world)) 2
    (mk_operation 2 101 Kind.timer (-1) false false (mk_handle 58 2) (mk_handle 55 3))
  = Some (Fail (make_error_code Errc.timed_out)) /\
  let '(acts, l) := collect 3 verdict_events 60 (fired verdict_events (w_loop verdict_world)) in
  let w' := drain (length acts) (mk_world l acts [] (w_issued verdict_world) []) in
  operations_ (w_loop w') !! 2 = None /\
  (2, 101, Fail (make_error_code Errc.timed_out)) ∈ w_log w'.
Proof.
  split; [vm_compute; reflexivity|].
  destruct (collect 3 verdict_events 60 (fired verdict_events (w_loop verdict_world)))
    as [acts l] eqn:E.
  refine (proj2 (batch_verdict verdict_world 3 verdict_events 60 acts l _ _ E) 2
    (mk_operation 2 101 Kind.timer (-1) false false (mk_handle 58 2) (mk_handle 55 3)) _ _).
  - apply (calm_script_run 3 verdict_calls new_world); [constructor|vm_compute; reflexivity].
  - vm_compute. reflexivity.
  - vm_compute. reflexivity.
  - simpl. lia.
Defined.
