(* ===== verification/Pollers.v ===== *)
(** * Pollers: the readiness backends (core/src/poller.hpp, poller_epoll.cpp,
    poller_kqueue.cpp)

    The two backends over parameters for the kernel ([Epoll], [Kqueue]) with laws
    about the registrations that a queue holds.  [EventLoop] models the loop over
    one-shot registrations; the theorems here say that the epoll backend implements
    that model ([poller_arm], [poller_disarm]) and what the kqueue backend does. *)

From stdpp Require Import gmap.
From S2P Require Import Prelude Errors Timers EventLoop.

Local Open Scope Z_scope.

(** [last_os_error] *)
Definition os_error (errno : Z) : Error := mk_error errno system_category.

Definition ENOENT : Z := 2.
Definition EINTR : Z := 4.

(** The events one call of [poll] asks for: [events] has 64 slots. *)
Definition event_capacity (out : nat) : nat := out `min` 64.

(** ** epoll *)

Definition EPOLLIN : Z := 1.
Definition EPOLLOUT : Z := 4.
Definition EPOLLERR : Z := 8.
Definition EPOLLHUP : Z := 16.
Definition EPOLLONESHOT : Z := 2 ^ 30.

Inductive EpollOp :=
| EPOLL_CTL_ADD
| EPOLL_CTL_DEL
| EPOLL_CTL_MOD.

(** A call returns the errno it sets, zero for success; [epoll_create1] a handle or
    an errno, [epoll_wait] the descriptors with their event masks, or an errno. *)
Class Epoll (K : Type) := {
  epoll_create1 : K -> (Z + Z) * K;
  epoll_close : Z -> K -> K;
  epoll_ctl : Z -> EpollOp -> Z -> Z -> K -> Z * K;
  epoll_wait : Z -> nat -> Z -> K -> (list (Z * Z) + Z) * K;
}.

(** [to_epoll_events] *)
Definition to_epoll_events (i : Interest) : Z :=
  let events := EPOLLONESHOT in
  let events := if i_read i then Z.lor events EPOLLIN else events in
  if i_write i then Z.lor events EPOLLOUT else events.

(** The translation of one event in [Poller::poll] *)
Definition from_epoll (source : Z * Z) : ReadyEvent :=
  let '(fd, events) := source in
  mk_event fd (negb (Z.land events EPOLLIN =? 0)) (negb (Z.land events EPOLLOUT =? 0))
    (negb (Z.land events (Z.lor EPOLLERR EPOLLHUP) =? 0)).

Section EpollPoller.
Context {K : Type} `{!Epoll K}.

(** [Poller::create]; a poller is its handle, -1 once it is closed. *)
Definition epoll_new (k : K) : Result Z * K :=
  match epoll_create1 k with
  | (inl handle, k) => (Ok handle, k)
  | (inr errno, k) => (Fail (os_error errno), k)
  end.

(** [Poller::close] *)
Definition epoll_shut (handle : Z) (k : K) : Z * K :=
  if 0 <=? handle then (-1, epoll_close handle k) else (handle, k).

(** [Poller::operator=(Poller&&)] for two pollers: this one's handle, and what the
    other is left with. *)
Definition epoll_assign (handle other : Z) (k : K) : Z * Z * K :=
  let '(_, k) := epoll_shut handle k in (other, -1, k).

(** [Poller::arm] *)
Definition epoll_arm (handle fd : Z) (i : Interest) (k : K) : Result unit * K :=
  let events := to_epoll_events i in
  if Z.land events (Z.lor EPOLLIN EPOLLOUT) =? 0
  then (Fail (make_error_code Errc.invalid_argument), k)
  else
    let '(errno, k) := epoll_ctl handle EPOLL_CTL_MOD fd events k in
    if errno =? 0 then (Ok tt, k)
    else if negb (errno =? ENOENT) then (Fail (os_error errno), k)
    else
      let '(errno, k) := epoll_ctl handle EPOLL_CTL_ADD fd events k in
      if errno =? 0 then (Ok tt, k) else (Fail (os_error errno), k).

(** [Poller::disarm] *)
Definition epoll_disarm (handle fd : Z) (k : K) : Result unit * K :=
  let '(errno, k) := epoll_ctl handle EPOLL_CTL_DEL fd 0 k in
  if negb (errno =? 0) && negb (errno =? ENOENT) then (Fail (os_error errno), k) else (Ok tt, k).

(** [Poller::poll] into [out] slots *)
Definition epoll_poll (handle : Z) (out : nat) (timeout_ms : Z) (k : K)
    : Result (list ReadyEvent) * K :=
  if (out =? 0)%nat then (Fail (make_error_code Errc.invalid_argument), k)
  else
    match epoll_wait handle (event_capacity out) timeout_ms k with
    | (inl events, k) => (Ok (map from_epoll events), k)
    | (inr errno, k) => if errno =? EINTR then (Ok [], k) else (Fail (os_error errno), k)
    end.

End EpollPoller.

(** ** kqueue *)

Inductive Filter :=
| EVFILT_READ
| EVFILT_WRITE.

#[export] Instance filter_eq_dec : EqDecision Filter.
Proof. solve_decision. Defined.

#[export] Program Instance filter_countable : Countable Filter :=
  inj_countable' (fun f => match f with EVFILT_READ => false | EVFILT_WRITE => true end)
    (fun b : bool => if b then EVFILT_WRITE else EVFILT_READ) _.
Next Obligation. by intros []. Qed.

Inductive Change :=
| EV_ADD_ONESHOT (fd : Z) (filter : Filter)
| EV_DELETE (fd : Z) (filter : Filter).

(** An event that was reported: the descriptor, its filter, and whether [EV_ERROR]
    or [EV_EOF] is set. *)
Record Kevent := mk_kevent { ke_ident : Z; ke_filter : Filter; ke_error : bool; ke_eof : bool }.

(** A timeout as the system call takes it: seconds and nanoseconds, or none. *)
Class Kqueue (K : Type) := {
  kqueue_new : K -> (Z + Z) * K;
  kqueue_close : Z -> K -> K;
  kevent_change : Z -> list Change -> K -> Z * K;
  kevent_wait : Z -> nat -> option (Z * Z) -> K -> (list Kevent + Z) * K;
}.

(** The changes of [Poller::arm] and of [Poller::disarm] *)
Definition arm_changes (fd : Z) (i : Interest) : list Change :=
  (if i_read i then [EV_ADD_ONESHOT fd EVFILT_READ] else []) ++
  (if i_write i then [EV_ADD_ONESHOT fd EVFILT_WRITE] else []).

Definition disarm_changes (fd : Z) : list Change :=
  [EV_DELETE fd EVFILT_READ; EV_DELETE fd EVFILT_WRITE].

(** The timeout of [Poller::poll] *)
Definition to_timespec (timeout_ms : Z) : option (Z * Z) :=
  if 0 <=? timeout_ms then Some (timeout_ms / 1000, timeout_ms mod 1000 * 1000000) else None.

Definition from_kevent (source : Kevent) : ReadyEvent :=
  mk_event (ke_ident source) (bool_decide (ke_filter source = EVFILT_READ))
    (bool_decide (ke_filter source = EVFILT_WRITE)) (ke_error source || ke_eof source).

Section KqueuePoller.
Context {K : Type} `{!Kqueue K}.

Definition kqueue_create (k : K) : Result Z * K :=
  match kqueue_new k with
  | (inl handle, k) => (Ok handle, k)
  | (inr errno, k) => (Fail (os_error errno), k)
  end.

Definition kqueue_shut (handle : Z) (k : K) : Z * K :=
  if 0 <=? handle then (-1, kqueue_close handle k) else (handle, k).

Definition kqueue_arm (handle fd : Z) (i : Interest) (k : K) : Result unit * K :=
  match arm_changes fd i with
  | [] => (Fail (make_error_code Errc.invalid_argument), k)
  | changes =>
      let '(errno, k) := kevent_change handle changes k in
      if errno =? 0 then (Ok tt, k) else (Fail (os_error errno), k)
  end.

Definition kqueue_disarm (handle fd : Z) (k : K) : Result unit * K :=
  let '(errno, k) := kevent_change handle (disarm_changes fd) k in
  if negb (errno =? 0) && negb (errno =? ENOENT) then (Fail (os_error errno), k) else (Ok tt, k).

Definition kqueue_poll (handle : Z) (out : nat) (timeout_ms : Z) (k : K)
    : Result (list ReadyEvent) * K :=
  if (out =? 0)%nat then (Fail (make_error_code Errc.invalid_argument), k)
  else
    match kevent_wait handle (event_capacity out) (to_timespec timeout_ms) k with
    | (inl events, k) => (Ok (map from_kevent events), k)
    | (inr errno, k) => if errno =? EINTR then (Ok [], k) else (Fail (os_error errno), k)
    end.

End KqueuePoller.

(** ** What the kernel promises: epoll *)

(** The event mask of each descriptor in a queue; a one-shot registration that has
    fired stays, with an empty mask. *)
Class EpollView (K : Type) := ep_view : K -> Z -> gmap Z Z.

Class EpollLaws (K : Type) `{!Epoll K, !EpollView K} : Prop := {
  ctl_law : forall h op fd events k,
    let '(errno, k') := epoll_ctl h op fd events k in
    if errno =? 0 then
      match op with
      | EPOLL_CTL_ADD => ep_view k' h = <[fd := events]> (ep_view k h)
      | EPOLL_CTL_MOD => ep_view k' h = <[fd := events]> (ep_view k h)
      | EPOLL_CTL_DEL => ep_view k' h = delete fd (ep_view k h)
      end
    else
      ep_view k' h = ep_view k h /\
      (errno = ENOENT -> op <> EPOLL_CTL_ADD -> ep_view k h !! fd = None);
  wait_law : forall h n timeout k,
    match epoll_wait h n timeout k with
    | (inl events, k') =>
        (length events <= n)%nat /\ NoDup (map fst events) /\
        (forall fd e, (fd, e) ∈ events -> exists mask, ep_view k h !! fd = Some mask /\
           Z.land e EPOLLIN = Z.land (Z.land e EPOLLIN) mask /\
           Z.land e EPOLLOUT = Z.land (Z.land e EPOLLOUT) mask) /\
        (forall fd, ep_view k' h !! fd =
           if bool_decide (fd ∈ map fst events) then Some 0 else ep_view k h !! fd)
    | (inr _, k') => ep_view k' h = ep_view k h
    end;
}.

(** The registrations of the loop's model: what each descriptor is armed for. *)
Definition interest_of (mask : Z) : Interest :=
  mk_interest (negb (Z.land mask EPOLLIN =? 0)) (negb (Z.land mask EPOLLOUT =? 0)).

Definition armed_for (mask : Z) : option Interest :=
  let i := interest_of mask in if bool_decide (i = interest_none) then None else Some i.

Definition registered {K} `{!EpollView K} (h : Z) (k : K) : gmap Z Interest :=
  omap armed_for (ep_view k h).

Lemma interest_of_events i : interest_of (to_epoll_events i) = i.
Proof. by destruct i as [[] []]. Qed.

Lemma events_none i :
  (Z.land (to_epoll_events i) (Z.lor EPOLLIN EPOLLOUT) =? 0) = bool_decide (i = interest_none).
Proof. by destruct i as [[] []]. Qed.

Lemma armed_for_events i : i <> interest_none -> armed_for (to_epoll_events i) = Some i.
Proof. intros H. unfold armed_for. by rewrite interest_of_events, bool_decide_eq_false_2. Qed.

(** The descriptors of the translated events are those of the kernel's. *)
Lemma list_fmap_compose_fst events : map ev_fd (map from_epoll events) = map fst events.
Proof. rewrite map_map. apply map_ext. by intros []. Qed.

Section EpollFacts.
Context {K : Type} `{!Epoll K, !EpollView K, !EpollLaws K}.

Lemma registered_insert h fd i (k k' : K) :
  i <> interest_none -> ep_view k' h = <[fd := to_epoll_events i]> (ep_view k h) ->
  registered h k' = <[fd := i]> (registered h k).
Proof.
  intros Hi Hv. unfold registered. rewrite Hv. by rewrite omap_insert, armed_for_events.
Qed.

(** A system call's errno as the poller's answer. *)
Definition kernel_answer (errno : Z) : option Error :=
  if errno =? 0 then None else Some (os_error errno).

(** What the kernel has to say to a registration: its answer to EPOLL_CTL_MOD for a
    descriptor that the queue knows; for another one the answer to EPOLL_CTL_ADD,
    unless MOD fails for a reason of its own. *)
Definition arm_errno (h fd : Z) (i : Interest) (k : K) : Z :=
  let '(errno, k') := epoll_ctl h EPOLL_CTL_MOD fd (to_epoll_events i) k in
  match ep_view k h !! fd with
  | Some _ => errno
  | None => if errno =? ENOENT then (epoll_ctl h EPOLL_CTL_ADD fd (to_epoll_events i) k').1 else errno
  end.

(** And to a removal: that there is nothing to remove is as good as success. *)
Definition disarm_errno (h fd : Z) (k : K) : Z :=
  let '(errno, _) := epoll_ctl h EPOLL_CTL_DEL fd 0 k in if errno =? ENOENT then 0 else errno.

Lemma epoll_arm_refines h fd i (k : K) :
  poller_arm fd i (kernel_answer (arm_errno h fd i k)) (registered h k)
  = ((epoll_arm h fd i k).1, registered h (epoll_arm h fd i k).2).
Proof.
  unfold epoll_arm, poller_arm, arm_errno, kernel_answer. rewrite events_none.
  destruct (bool_decide (i = interest_none)) eqn:E; [done|]. apply bool_decide_eq_false in E.
  pose proof (ctl_law h EPOLL_CTL_MOD fd (to_epoll_events i) k) as H1.
  destruct (epoll_ctl h EPOLL_CTL_MOD fd _ k) as [e1 k1].
  destruct (e1 =? 0) eqn:E1; cbn [fst snd].
  { rewrite (registered_insert h fd i k k1) by done. bool_facts. subst e1.
    by destruct (ep_view k h !! fd). }
  destruct H1 as [V1 N1]. destruct (e1 =? ENOENT) eqn:E2; cbn [negb].
  - apply Z.eqb_eq in E2. rewrite (N1 E2 ltac:(done)).
    pose proof (ctl_law h EPOLL_CTL_ADD fd (to_epoll_events i) k1) as H2.
    destruct (epoll_ctl h EPOLL_CTL_ADD fd _ k1) as [e2 k2]. cbn [fst snd].
    destruct (e2 =? 0) eqn:E3; cbn [fst snd].
    + rewrite (registered_insert h fd i k k2); [done|done|by rewrite H2, V1].
    + unfold registered. by rewrite (proj1 H2), V1.
  - cbn [fst snd]. unfold registered. rewrite V1. destruct (ep_view k h !! fd); by rewrite E1.
Qed.

Lemma epoll_disarm_refines h fd (k : K) :
  poller_disarm fd (kernel_answer (disarm_errno h fd k)) (registered h k)
  = ((epoll_disarm h fd k).1, registered h (epoll_disarm h fd k).2).
Proof.
  unfold epoll_disarm, poller_disarm, disarm_errno, kernel_answer.
  pose proof (ctl_law h EPOLL_CTL_DEL fd 0 k) as H. destruct (epoll_ctl _ _ _ _ k) as [e k'].
  unfold registered. destruct (e =? 0) eqn:E.
  - apply Z.eqb_eq in E as ->. cbn. by rewrite H, omap_delete.
  - destruct H as [Hv Hn]. destruct (e =? ENOENT) eqn:E2; rewrite ?E; cbn; rewrite Hv; [|done].
    apply Z.eqb_eq in E2. rewrite delete_id; [done|]. rewrite lookup_omap.
    by rewrite (Hn E2 ltac:(done)).
Qed.

(** C21: The epoll backend implements the poller that the loop is verified over.
    [arm] has the result and the effect on the one-shot registrations of the model's
    [poller_arm], for the answer of the one system call that applies: EPOLL_CTL_MOD
    if the queue knows the descriptor (armed, or fired and disabled), EPOLL_CTL_ADD
    if MOD has just reported that it does not.  So it succeeds whenever that call
    does, arms the descriptor for exactly the interest asked for, refuses an empty
    one, and a failure changes nothing.  [disarm] is [poller_disarm] for the answer
    to EPOLL_CTL_DEL, with "not registered" for success: after it has succeeded the
    descriptor is armed for nothing and every other one is as it was; if it fails the
    registration stays. *)
Theorem epoll_implements_poller h fd i (k : K) :
  poller_arm fd i (kernel_answer (arm_errno h fd i k)) (registered h k)
  = ((epoll_arm h fd i k).1, registered h (epoll_arm h fd i k).2) /\
  poller_disarm fd (kernel_answer (disarm_errno h fd k)) (registered h k)
  = ((epoll_disarm h fd k).1, registered h (epoll_disarm h fd k).2).
Proof. split; [apply epoll_arm_refines|apply epoll_disarm_refines]. Qed.

Lemma bit_reported e bit mask :
  Z.land e bit = Z.land (Z.land e bit) mask -> Z.land e bit <> 0 -> Z.land mask bit <> 0.
Proof.
  intros He Hne Hm. apply Hne. rewrite He, <- Z.land_assoc, (Z.land_comm bit mask), Hm.
  apply Z.land_0_r.
Qed.

(** [poll] fills at most the slots it is given, reports only directions that are
    armed, and consumes what it reports. *)
Theorem epoll_poll_reports h out timeout (k : K) :
  match epoll_poll h out timeout k with
  | (Ok evs, k') =>
      (length evs <= event_capacity out)%nat /\
      (forall ev, ev ∈ evs -> exists mask, ep_view k h !! ev_fd ev = Some mask /\
         (ev_readable ev = true -> i_read (interest_of mask) = true) /\
         (ev_writable ev = true -> i_write (interest_of mask) = true)) /\
      (forall fd, registered h k' !! fd =
         if bool_decide (fd ∈ map ev_fd evs) then None else registered h k !! fd)
  | (Fail _, k') => registered h k' = registered h k
  end.
Proof.
  unfold epoll_poll. destruct (out =? 0)%nat; [done|].
  pose proof (wait_law h (event_capacity out) timeout k) as H.
  destruct (epoll_wait _ _ _ k) as [[events|errno] k'].
  - destruct H as (Hl & _ & Hin & Hv). rewrite length_map. split_and!; [done| |].
    + intros ev [[fd e] [-> He]]%list_elem_of_fmap.
      destruct (Hin fd e He) as (mask & Hm & Hr & Hw). exists mask. split; [done|].
      cbn. rewrite !negb_true_iff, !Z.eqb_neq. split; by apply bit_reported.
    + intros fd. unfold registered. rewrite !lookup_omap, Hv.
      rewrite (list_fmap_compose_fst events). by case_bool_decide.
  - unfold registered. destruct (errno =? EINTR); rewrite H; [|done].
    split_and!; [simpl; lia|set_solver|]. intros fd. by rewrite bool_decide_eq_false_2 by set_solver.
Qed.

End EpollFacts.

(** ** What the kernel promises: kqueue *)

(** The filters of a queue that are armed. *)
Class KqueueView (K : Type) := kq_view : K -> Z -> gset (Z * Filter).

Definition apply_change (c : Change) (v : gset (Z * Filter)) : gset (Z * Filter) :=
  match c with
  | EV_ADD_ONESHOT fd f => {[(fd, f)]} ∪ v
  | EV_DELETE fd f => v ∖ {[(fd, f)]}
  end.

(** A change list is processed in order, up to the first change that fails when
    there is no room to report it: [applied] were made, [failed] was not, and
    nothing behind it.  Deleting a filter that is not there is such a failure. *)
Inductive applies : list Change -> gset (Z * Filter) -> Z -> gset (Z * Filter) -> Prop :=
| applies_all v : applies [] v 0 v
| applies_next c cs v errno v' :
    match c with EV_DELETE fd f => (fd, f) ∈ v | _ => True end ->
    applies cs (apply_change c v) errno v' -> applies (c :: cs) v errno v'
| applies_missing fd f cs v : (fd, f) ∉ v -> applies (EV_DELETE fd f :: cs) v ENOENT v
| applies_refused c cs v errno : errno <> 0 -> errno <> ENOENT -> applies (c :: cs) v errno v.

Class KqueueLaws (K : Type) `{!Kqueue K, !KqueueView K} : Prop := {
  change_law : forall h changes k,
    let '(errno, k') := kevent_change h changes k in
    applies changes (kq_view k h) errno (kq_view k' h);
}.

Section KqueueFacts.
Context {K : Type} `{!Kqueue K, !KqueueView K, !KqueueLaws K}.

(** The filters of an interest. *)
Definition filters (fd : Z) (i : Interest) : gset (Z * Filter) :=
  (if i_read i then {[(fd, EVFILT_READ)]} else ∅) ∪
  (if i_write i then {[(fd, EVFILT_WRITE)]} else ∅).

Ltac applied :=
  repeat match goal with
  | H : applies [] _ _ _ |- _ => inversion H; clear H; subst
  | H : applies (_ :: _) _ _ _ |- _ => inversion H; clear H; subst
  end.

(** The kqueue backend arms the filters of the interest and leaves every other one
    as it was, also the other direction of the same descriptor; a failure arms none
    that was not asked for. *)
Theorem kqueue_arm_spec h fd i (k : K) :
  match kqueue_arm h fd i k with
  | (Ok _, k') => i <> interest_none /\ kq_view k' h = filters fd i ∪ kq_view k h
  | (Fail e, k') =>
      (i = interest_none /\ e = make_error_code Errc.invalid_argument /\ k' = k) \/
      (kq_view k h ⊆ kq_view k' h /\ kq_view k' h ⊆ filters fd i ∪ kq_view k h)
  end.
Proof.
  unfold kqueue_arm. destruct i as [[] []]; cbn [arm_changes i_read i_write app];
    [..|left; by split_and!];
    (match goal with |- context [kevent_change h ?cs k] => pose proof (change_law h cs k) as H end);
    destruct (kevent_change _ _ k) as [errno k']; destruct (errno =? 0) eqn:E; bool_facts; subst;
    applied; unfold filters; cbn in *; try done; try (split; [done|]); try right; set_solver.
Qed.

(** [disarm] removes the read filter; the write filter only if the read filter was
    there, since otherwise the change list fails before it is reached. *)
Theorem kqueue_disarm_spec h fd (k : K) :
  match kqueue_disarm h fd k with
  | (Ok _, k') =>
      kq_view k' h =
        if bool_decide ((fd, EVFILT_READ) ∈ kq_view k h)
        then kq_view k h ∖ {[(fd, EVFILT_READ); (fd, EVFILT_WRITE)]}
        else kq_view k h
  | (Fail _, k') => kq_view k' h ⊆ kq_view k h
  end.
Proof.
  unfold kqueue_disarm. pose proof (change_law h (disarm_changes fd) k) as H.
  destruct (kevent_change _ _ k) as [errno k']. unfold disarm_changes in H.
  applied; cbn [apply_change] in *;
    try (destruct (errno =? 0) eqn:E0; bool_facts; [done|]);
    try (destruct (errno =? ENOENT) eqn:E1; bool_facts; [done|]);
    simpl; try case_bool_decide; set_solver.
Qed.

End KqueueFacts.

(** ** Kernels that run *)

Module ToyEpoll.

(** One queue: the masks, and an event that is ready to be reported. *)
Record t := mk { masks : gmap Z Z; ready : option (Z * Z) }.

Definition ctl (op : EpollOp) (fd events : Z) (k : t) : Z * t :=
  match op, masks k !! fd with
  | EPOLL_CTL_ADD, None | EPOLL_CTL_MOD, Some _ => (0, mk (<[fd := events]> (masks k)) (ready k))
  | EPOLL_CTL_DEL, Some _ => (0, mk (delete fd (masks k)) (ready k))
  | EPOLL_CTL_ADD, Some _ => (17, k)
  | _, None => (ENOENT, k)
  end.

Definition wait (n : nat) (k : t) : (list (Z * Z) + Z) * t :=
  match n, ready k with
  | S _, Some (fd, e) =>
      match masks k !! fd with
      | Some mask => (inl [(fd, Z.land e mask)], mk (<[fd := 0]> (masks k)) None)
      | None => (inl [], k)
      end
  | _, _ => (inl [], k)
  end.

#[global] Instance calls : Epoll t := {
  epoll_create1 k := (inl 3, k);
  epoll_close _ k := k;
  epoll_ctl _ := ctl;
  epoll_wait _ n _ := wait n;
}.

#[global] Instance view : EpollView t := fun k _ => masks k.

#[global] Instance laws : EpollLaws t.
Proof.
  split.
  - intros h op fd e k. cbn. unfold ctl. destruct op, (masks k !! fd) eqn:E; simpl; try done;
      unfold ep_view, view; by rewrite ?E.
  - intros h n timeout k. cbn. unfold wait.
    assert (Hno : (0 <= n)%nat /\ NoDup (@nil Z) /\ forall fd : Z, fd ∉ @nil Z)
      by (split_and!; [lia|constructor|set_solver]).
    destruct n as [|n]; [|destruct (ready k) as [[fd e]|]; [destruct (masks k !! fd) as [mask|] eqn:E|]];
      try (split_and!; [simpl; lia|constructor|set_solver|];
           intros fd'; by rewrite bool_decide_eq_false_2 by set_solver).
    split_and!.
    + simpl. lia.
    + simpl. apply NoDup_singleton.
    + intros fd' e' [= -> ->]%list_elem_of_singleton. exists mask. split; [done|].
      split; apply Z.bits_inj'; intros b _; rewrite !Z.land_spec;
        destruct (Z.testbit e b), (Z.testbit mask b); cbn; by rewrite ?andb_true_r, ?andb_false_r.
    + intros fd'. unfold ep_view, view. cbn [masks map fst].
      case_bool_decide as Hf; [apply list_elem_of_singleton in Hf as ->; by rewrite lookup_insert_eq|].
      rewrite lookup_insert_ne; [done|]. set_solver.
Qed.

End ToyEpoll.

(** A descriptor that has fired is armed again for another direction, with MOD. *)
Definition fired_queue : ToyEpoll.t := ToyEpoll.mk {[7 := 0]} None.

(** And a new descriptor is added. *)
Lemma epoll_implements_poller_witness :
  (epoll_arm 3 7 (mk_interest false true) fired_queue).1 = Ok tt /\
  kernel_answer (arm_errno 3 8 (mk_interest true false) fired_queue) = None /\
  ((epoll_arm 3 8 (mk_interest true false) fired_queue).1,
   registered 3 (epoll_arm 3 8 (mk_interest true false) fired_queue).2)
  = (Ok tt, {[8 := mk_interest true false]}).
Proof.
  split; [vm_compute; reflexivity|]. split; [vm_compute; reflexivity|].
  rewrite <- (proj1 (epoll_implements_poller 3 8 (mk_interest true false) fired_queue)).
  vm_compute. reflexivity.
Defined.

Module ToyKqueue.

(** One queue that refuses nothing. *)
Fixpoint change (cs : list Change) (v : gset (Z * Filter)) : Z * gset (Z * Filter) :=
  match cs with
  | [] => (0, v)
  | EV_DELETE fd f :: rest =>
      if bool_decide ((fd, f) ∈ v) then change rest (v ∖ {[(fd, f)]}) else (ENOENT, v)
  | EV_ADD_ONESHOT fd f :: rest => change rest ({[(fd, f)]} ∪ v)
  end.

#[global] Instance calls : Kqueue (gset (Z * Filter)) := {
  kqueue_new k := (inl 3, k);
  kqueue_close _ k := k;
  kevent_change _ := change;
  kevent_wait _ _ _ k := (inl [], k);
}.

#[global] Instance view : KqueueView (gset (Z * Filter)) := fun k _ => k.

#[global] Instance laws : KqueueLaws (gset (Z * Filter)).
Proof.
  split. intros h cs k. cbn. unfold kq_view, view. revert k.
  induction cs as [|[fd f|fd f] cs IH]; intros k; cbn [change].
  - constructor.
  - specialize (IH ({[(fd, f)]} ∪ k)). destruct (change cs _). by constructor.
  - case_bool_decide; [|by constructor].
    specialize (IH (k ∖ {[(fd, f)]})). destruct (change cs _). by constructor.
Qed.

End ToyKqueue.

(** A writer alone is not disarmed: the deletion of the read filter fails first. *)
Theorem kqueue_disarm_leaves_writer :
  let armed := (kqueue_arm 3 7 (mk_interest false true) (∅ : gset (Z * Filter))).2 in
  (kqueue_disarm 3 7 armed).1 = Ok tt /\
  (7, EVFILT_WRITE) ∈ kq_view (kqueue_disarm 3 7 armed).2 3.
Proof.
  split; [vm_compute; reflexivity|].
  apply (bool_decide_eq_true_1 ((7, EVFILT_WRITE) ∈ kq_view _ 3)). vm_compute. reflexivity.
Qed.
