(* ===== verification/LoopCreate.v ===== *)
(** * LoopCreate: making and destroying a POSIX loop (core/src/event_loop_posix.cpp)

    [EventLoop::create] makes the poller, the wake-up pipe and its registration; the
    destructor of [Impl] closes them.  The kernel's descriptors are a parameter, on
    top of the epoll calls of [Pollers]; the theorem is that no path leaves a
    descriptor behind. *)

From stdpp Require Import gmap.
From S2P Require Import Prelude Errors Timers EventLoop Pollers.

Local Open Scope Z_scope.

Definition O_NONBLOCK : Z := 2048.
Definition FD_CLOEXEC : Z := 1.

(** [pipe] gives two descriptors (read and write end) or an errno; [F_GETFL] the
    flags or an errno; the other calls an errno, zero for success. *)
Class PipeKernel (K : Type) := {
  k_pipe : K -> (Z * Z + Z) * K;
  k_getfl : Z -> K -> (Z + Z) * K;
  k_setfl : Z -> Z -> K -> Z * K;
  k_setfd : Z -> Z -> K -> Z * K;
  k_close_fd : Z -> K -> K;
}.

(** The descriptors of an [Impl]. *)
Record LoopFds := mk_loop_fds { lf_poller : Z; lf_wake_read : Z; lf_wake_write : Z }.

Section Create.
Context {K : Type} `{!Epoll K, !PipeKernel K}.

(** The body of the loop over the two ends: the errno of the first call that fails. *)
Definition set_up_end (fd : Z) (k : K) : option Z * K :=
  match k_getfl fd k with
  | (inr errno, k) => (Some errno, k)
  | (inl flags, k) =>
      let '(errno, k) := k_setfl fd (Z.lor flags O_NONBLOCK) k in
      if negb (errno =? 0) then (Some errno, k)
      else
        let '(errno, k) := k_setfd fd FD_CLOEXEC k in
        if negb (errno =? 0) then (Some errno, k) else (None, k)
  end.

Fixpoint set_up_ends (fds : list Z) (k : K) : option Z * K :=
  match fds with
  | [] => (None, k)
  | fd :: rest =>
      match set_up_end fd k with
      | (Some errno, k) => (Some errno, k)
      | (None, k) => set_up_ends rest k
      end
  end.

(** [~Poller] *)
Definition drop_poller (handle : Z) (k : K) : K := (epoll_shut handle k).2.

(** [~Impl], behind its [shutdown] *)
Definition destroy_loop (l : LoopFds) (k : K) : K :=
  let k := if 0 <=? lf_wake_read l then k_close_fd (lf_wake_read l) k else k in
  let k := if 0 <=? lf_wake_write l then k_close_fd (lf_wake_write l) k else k in
  drop_poller (lf_poller l) k.

(** [EventLoop::create] *)
Definition create_loop (k : K) : Result LoopFds * K :=
  match epoll_new k with
  | (Fail e, k) => (Fail e, k)
  | (Ok poller, k) =>
      match k_pipe k with
      | (inr errno, k) => (Fail (os_error errno), drop_poller poller k)
      | (inl (r, w), k) =>
          match set_up_ends [r; w] k with
          | (Some errno, k) =>
              (Fail (os_error errno), drop_poller poller (k_close_fd w (k_close_fd r k)))
          | (None, k) =>
              let impl := mk_loop_fds poller r w in
              match epoll_arm poller r (mk_interest true false) k with
              | (Fail e, k) => (Fail e, destroy_loop impl k)
              | (Ok _, k) => (Ok impl, k)
              end
          end
      end
  end.

End Create.

(** ** What the kernel promises *)

(** The open descriptors, with what has been set on them. *)
Record FdFlags := mk_fd_flags { ff_status : Z; ff_cloexec : bool }.

Class OpenFds (K : Type) := open_fds : K -> gmap Z FdFlags.

Class PipeLaws (K : Type) `{!Epoll K, !PipeKernel K, !OpenFds K} : Prop := {
  create_open : forall k,
    match epoll_create1 k with
    | (inl h, k') => 0 <= h /\ open_fds k !! h = None /\
        open_fds k' = <[h := mk_fd_flags 0 true]> (open_fds k)
    | (inr _, k') => open_fds k' = open_fds k
    end;
  epoll_close_open : forall h k, open_fds (epoll_close h k) = delete h (open_fds k);
  ctl_open : forall h op fd events k, open_fds (epoll_ctl h op fd events k).2 = open_fds k;
  pipe_open : forall k,
    match k_pipe k with
    | (inl (r, w), k') =>
        0 <= r /\ 0 <= w /\ r <> w /\ open_fds k !! r = None /\ open_fds k !! w = None /\
        open_fds k' = <[r := mk_fd_flags 0 false]> (<[w := mk_fd_flags 0 false]> (open_fds k))
    | (inr _, k') => open_fds k' = open_fds k
    end;
  getfl_open : forall fd k,
    let '(r, k') := k_getfl fd k in
    open_fds k' = open_fds k /\
    (forall flags, r = inl flags -> exists f, open_fds k !! fd = Some f /\ ff_status f = flags);
  setfl_open : forall fd flags k,
    let '(errno, k') := k_setfl fd flags k in
    open_fds k' = if errno =? 0
                  then alter (fun f => mk_fd_flags flags (ff_cloexec f)) fd (open_fds k)
                  else open_fds k;
  setfd_open : forall fd k,
    let '(errno, k') := k_setfd fd FD_CLOEXEC k in
    open_fds k' = if errno =? 0
                  then alter (fun f => mk_fd_flags (ff_status f) true) fd (open_fds k)
                  else open_fds k;
  close_open : forall fd k, open_fds (k_close_fd fd k) = delete fd (open_fds k);
}.

Section Facts.
Context {K : Type} `{!Epoll K, !PipeKernel K, !OpenFds K, !PipeLaws K}.

(** An end of the pipe as the loop needs it. *)
Definition wake_flags : FdFlags := mk_fd_flags (Z.lor 0 O_NONBLOCK) true.

Lemma set_up_end_open fd (k : K) o :
  open_fds k = <[fd := mk_fd_flags 0 false]> o ->
  match set_up_end fd k with
  | (None, k') => open_fds k' = <[fd := wake_flags]> o
  | (Some _, k') => exists f, open_fds k' = <[fd := f]> o
  end.
Proof.
  intros Ho. unfold set_up_end. pose proof (getfl_open fd k) as Hg.
  destruct (k_getfl fd k) as [[flags|errno] k1]; destruct Hg as [Hk1 Hg]; [|eexists; by rewrite Hk1].
  destruct (Hg flags eq_refl) as (f & Hf & <-). rewrite Ho, lookup_insert_eq in Hf.
  injection Hf as <-. pose proof (setfl_open fd (Z.lor 0 O_NONBLOCK) k1) as Hs. cbn [ff_status].
  destruct (k_setfl _ _ k1) as [e1 k2]. rewrite Hk1, Ho in Hs. destruct (e1 =? 0); cbn [negb];
    [|by eexists]. rewrite alter_insert_eq in Hs.
  pose proof (setfd_open fd k2) as Hd. destruct (k_setfd _ _ k2) as [e2 k3].
  rewrite Hs in Hd. destruct (e2 =? 0); cbn [negb]; [|by eexists].
  rewrite Hd, alter_insert_eq. done.
Qed.

Lemma set_up_ends_open r w (k : K) o :
  r <> w -> open_fds k = <[r := mk_fd_flags 0 false]> (<[w := mk_fd_flags 0 false]> o) ->
  match set_up_ends [r; w] k with
  | (None, k') => open_fds k' = <[r := wake_flags]> (<[w := wake_flags]> o)
  | (Some _, k') => exists f g, open_fds k' = <[r := f]> (<[w := g]> o)
  end.
Proof.
  intros Hne Ho. cbn [set_up_ends]. pose proof (set_up_end_open r k _ Ho) as H1.
  destruct (set_up_end r k) as [[e|] k1]; [destruct H1; by eexists _, _|].
  rewrite insert_insert_ne in H1 by done. pose proof (set_up_end_open w k1 _ H1) as H2.
  destruct (set_up_end w k1) as [[e|] k2].
  - destruct H2 as [g H2]. eexists _, g. by rewrite H2, insert_insert_ne.
  - by rewrite H2, insert_insert_ne.
Qed.

Lemma drop_poller_open h (k : K) : 0 <= h -> open_fds (drop_poller h k) = delete h (open_fds k).
Proof.
  intros H. unfold drop_poller, epoll_shut. rewrite (proj2 (Z.leb_le 0 h) H). apply epoll_close_open.
Qed.

Lemma epoll_arm_open h fd i (k : K) : open_fds (epoll_arm h fd i k).2 = open_fds k.
Proof.
  unfold epoll_arm. destruct (Z.land _ _ =? 0); [done|].
  pose proof (ctl_open h EPOLL_CTL_MOD fd (to_epoll_events i) k) as H1.
  destruct (epoll_ctl h EPOLL_CTL_MOD fd _ k) as [e1 k1]. cbn in H1.
  destruct (e1 =? 0); [done|]. destruct (negb _); [done|].
  pose proof (ctl_open h EPOLL_CTL_ADD fd (to_epoll_events i) k1) as H2.
  destruct (epoll_ctl h EPOLL_CTL_ADD fd _ k1) as [e2 k2]. cbn in H2.
  destruct (e2 =? 0); cbn; congruence.
Qed.

(** Closing the three descriptors of a loop undoes what opened them. *)
Lemma delete_loop_fds (o : gmap Z FdFlags) p r w f g h :
  o !! p = None -> o !! r = None -> o !! w = None -> r <> p -> w <> p -> r <> w ->
  delete p (delete w (delete r (<[r := f]> (<[w := g]> (<[p := h]> o))))) = o.
Proof.
  intros Hp Hr Hw Hrp Hwp Hrw.
  rewrite (delete_insert_id _ r) by (rewrite !lookup_insert_ne by congruence; done).
  rewrite (delete_insert_id _ w) by (rewrite !lookup_insert_ne by congruence; done).
  by rewrite delete_insert_id.
Qed.

Lemma destroy_loop_open l (k : K) :
  0 <= lf_poller l -> 0 <= lf_wake_read l -> 0 <= lf_wake_write l ->
  open_fds (destroy_loop l k)
  = delete (lf_poller l) (delete (lf_wake_write l) (delete (lf_wake_read l) (open_fds k))).
Proof.
  intros Hp Hr Hw. unfold destroy_loop.
  rewrite (proj2 (Z.leb_le 0 _) Hr), (proj2 (Z.leb_le 0 _) Hw).
  by rewrite drop_poller_open, !close_open.
Qed.

End Facts.

(** A loop is made with three new descriptors, the ends of its pipe non-blocking and
    closed on exec, and destroying it closes them; when [create] fails, whichever
    call failed, the open descriptors are what they were. *)
Theorem loop_leaks_nothing {K} `{!Epoll K, !PipeKernel K, !OpenFds K, !PipeLaws K} (k : K) :
  match create_loop k with
  | (Ok l, k') =>
      open_fds k' = <[lf_wake_read l := wake_flags]> (<[lf_wake_write l := wake_flags]>
                      (<[lf_poller l := mk_fd_flags 0 true]> (open_fds k))) /\
      forall k'', open_fds k'' = open_fds k' -> open_fds (destroy_loop l k'') = open_fds k
  | (Fail _, k') => open_fds k' = open_fds k
  end.
Proof.
  unfold create_loop, epoll_new. pose proof (create_open k) as H0.
  destruct (epoll_create1 k) as [[p|e] k0]; [|done]. destruct H0 as (Hp & Hpn & H0).
  pose proof (pipe_open k0) as H1. destruct (k_pipe k0) as [[[r w]|e] k1].
  2: { by rewrite drop_poller_open, H1, H0, delete_insert_id. }
  destruct H1 as (Hr & Hw & Hrw & Hrn & Hwn & H1). rewrite H0 in *.
  apply lookup_insert_None in Hrn as [Hrn Hpr]. apply lookup_insert_None in Hwn as [Hwn Hpw].
  assert (Hdel : forall f g, delete p (delete w (delete r
            (<[r := f]> (<[w := g]> (<[p := mk_fd_flags 0 true]> (open_fds k)))))) = open_fds k)
    by (intros; by apply delete_loop_fds).
  pose proof (set_up_ends_open r w k1 _ Hrw H1) as H2.
  destruct (set_up_ends [r; w] k1) as [[e|] k2].
  { destruct H2 as (f & g & H2). by rewrite drop_poller_open, !close_open, H2, Hdel. }
  pose proof (epoll_arm_open p r (mk_interest true false) k2) as H3.
  destruct (epoll_arm p r _ k2) as [[[]|e] k3]; cbn [snd] in H3.
  - split; [by rewrite H3, H2|]. intros k'' Hk. by rewrite destroy_loop_open, Hk, H3, H2, Hdel.
  - by rewrite destroy_loop_open, H3, H2, Hdel.
Qed.

(** ** A kernel that runs *)

Module ToyPipes.

(** Descriptors are numbered from [next]; [setfd] fails on the descriptor [bad]. *)
Record t := mk { next : Z; fds : gmap Z FdFlags; bad : Z }.

Definition free (k : t) (n : Z) : bool := (0 <=? n) && bool_decide (fds k !! n = None).

#[global] Instance epoll : Epoll t := {
  epoll_create1 k :=
    if free k (next k)
    then (inl (next k), mk (next k + 1) (<[next k := mk_fd_flags 0 true]> (fds k)) (bad k))
    else (inr 24, k);
  epoll_close h k := mk (next k) (delete h (fds k)) (bad k);
  epoll_ctl _ _ _ _ k := (0, k);
  epoll_wait _ _ _ k := (inl [], k);
}.

#[global] Instance pipes : PipeKernel t := {
  k_pipe k :=
    if free k (next k) && free k (next k + 1)
    then (inl (next k, next k + 1),
          mk (next k + 2) (<[next k := mk_fd_flags 0 false]>
            (<[next k + 1 := mk_fd_flags 0 false]> (fds k))) (bad k))
    else (inr 24, k);
  k_getfl fd k :=
    match fds k !! fd with Some f => (inl (ff_status f), k) | None => (inr 9, k) end;
  k_setfl fd flags k :=
    (0, mk (next k) (alter (fun f => mk_fd_flags flags (ff_cloexec f)) fd (fds k)) (bad k));
  k_setfd fd _ k :=
    if fd =? bad k then (9, k)
    else (0, mk (next k) (alter (fun f => mk_fd_flags (ff_status f) true) fd (fds k)) (bad k));
  k_close_fd fd k := mk (next k) (delete fd (fds k)) (bad k);
}.

#[global] Instance opened : OpenFds t := fds.

#[global] Instance laws : PipeLaws t.
Proof.
  split; try done.
  - intros k. cbn. unfold free. destruct (0 <=? next k) eqn:E; [|done]. cbn [andb].
    bool_facts. by case_bool_decide.
  - intros k. cbn. unfold free. destruct (0 <=? next k) eqn:E; [|done]. cbn [andb].
    case_bool_decide; [|done]. cbn [andb]. destruct (0 <=? next k + 1) eqn:E2; [|done].
    cbn [andb]. case_bool_decide; [|done]. bool_facts. split_and!; try done; lia.
  - intros fd k. cbn. destruct (fds k !! fd) as [f|] eqn:E; split; try done.
    intros flags [= <-]. by exists f.
  - intros fd k. cbn. by destruct (fd =? bad k).
Qed.

End ToyPipes.

(** With the write end refused, all three descriptors are closed again. *)
Example refused_end_closes :
  let k := ToyPipes.mk 3 ∅ 5 in
  (create_loop k).1 = Fail (os_error 9) /\ open_fds (create_loop k).2 = ∅ /\
  (create_loop (ToyPipes.mk 3 ∅ (-1))).1 = Ok (mk_loop_fds 3 4 5).
Proof. split; [|split]; vm_compute; reflexivity. Qed.
