(* ===== verification/Wakeup.v ===== *)
(** * Wakeup: the wake-up pipe of the POSIX loop (core/src/event_loop_posix.cpp)

    [post], [stop] and [request_cancel] may be called by any thread: they leave
    something in a queue, then [wake] writes a byte into a pipe that the loop
    polls, unless the flag [wake_pending_] says that one is on its way.  A run
    interleaves the atomic actions of those threads with the sections of
    [run_once], down to the single [read] and [write] on the pipe.  The questions
    are whether every piece of work is run, and whether a loop that is blocked with
    something in a queue will wake up. *)

From S2P Require Import Prelude.

Local Open Scope nat_scope.

(** Where the loop's thread is in [run_once]. *)
Module Section.
Inductive t :=
| deciding                      (** before the timeout is computed *)
| polling (block : bool)        (** in [poller_.poll]; [block]: the timeout is not zero *)
| collecting (fired : bool)     (** poll has returned; [fired]: with the pipe's event *)
| draining (work : list nat)    (** in [drain_wakeup] *)
| arming (work : list nat)      (** before [arm_wakeup] *)
| dispatching (work : list nat).
End Section.
Import Section.

(** The bytes a pipe holds before [write] fails with EAGAIN (the theorems only need
    room for one), and the size of the buffer of [drain_wakeup]. *)
Definition pipe_capacity : nat := 4096.
Definition scratch_size : nat := 64.

(** [pushed] threads have left something in a queue and not yet looked at
    [wake_pending_]; [writing] threads have set it and not yet written their byte.
    [history] and [ran] have the work that was posted, and run. *)
Record WakeLoop := mk_wake {
  section : Section.t;
  pipe : nat;
  armed : bool;
  wake_pending_ : bool;
  posted_ : list nat;
  pending_cancels_ : list nat;
  stop_requested_ : bool;
  pushed : nat;
  writing : nat;
  history : list nat;
  ran : list nat;
}.

(** After [create]: the pipe is armed and empty. *)
Definition new_wake_loop : WakeLoop := mk_wake deciding 0 true false [] [] false 0 0 [] [].

Inductive Event :=
(** a thread *)
| call_post (work : nat)
| call_cancel (id : nat)
| call_stop
| exchange                      (** [wake_pending_.exchange(true)] *)
| write_byte                    (** [::write(wake_write_, &byte, 1)] *)
(** the loop's thread *)
| decide_timeout
| pipe_ready                    (** poll reports the pipe *)
| other_ready                   (** poll returns for another reason *)
| collect_queues                (** the section under the lock *)
| read_bytes                    (** one [::read] of [drain_wakeup] *)
| arm_wakeup
| dispatch.

Definition is_nil {A} (l : list A) : bool := match l with [] => true | _ => false end.

(** [queued] of [run_once] *)
Definition anything_queued (l : WakeLoop) : bool :=
  negb (is_nil (posted_ l)) || negb (is_nil (pending_cancels_ l)) || stop_requested_ l.

Definition at_section (s : Section.t) (l : WakeLoop) : WakeLoop :=
  mk_wake s (pipe l) (armed l) (wake_pending_ l) (posted_ l) (pending_cancels_ l)
    (stop_requested_ l) (pushed l) (writing l) (history l) (ran l).

(** [post] (of a loop that is not shutting down), [request_cancel] (of an operation
    that is outstanding) and [stop], up to their calls of [wake] *)
Definition push_work (work : nat) (l : WakeLoop) : WakeLoop :=
  mk_wake (section l) (pipe l) (armed l) (wake_pending_ l) (posted_ l ++ [work])
    (pending_cancels_ l) (stop_requested_ l) (S (pushed l)) (writing l) (history l ++ [work])
    (ran l).

Definition record_cancel (id : nat) (l : WakeLoop) : WakeLoop :=
  mk_wake (section l) (pipe l) (armed l) (wake_pending_ l) (posted_ l)
    (pending_cancels_ l ++ [id]) (stop_requested_ l) (S (pushed l)) (writing l) (history l)
    (ran l).

Definition raise_stop (l : WakeLoop) : WakeLoop :=
  mk_wake (section l) (pipe l) (armed l) (wake_pending_ l) (posted_ l) (pending_cancels_ l)
    true (S (pushed l)) (writing l) (history l) (ran l).

(** [wake]: the exchange, and the write of the thread that found the flag down. *)
Definition wake_exchange (l : WakeLoop) : option WakeLoop :=
  match pushed l with
  | O => None
  | S n =>
      Some (mk_wake (section l) (pipe l) (armed l) true (posted_ l) (pending_cancels_ l)
              (stop_requested_ l) n (if wake_pending_ l then writing l else S (writing l))
              (history l) (ran l))
  end.

Definition wake_write (l : WakeLoop) : option WakeLoop :=
  match writing l with
  | O => None
  | S n =>
      Some (mk_wake (section l) (pipe l + if pipe l <? pipe_capacity then 1 else 0) (armed l)
              (wake_pending_ l) (posted_ l) (pending_cancels_ l) (stop_requested_ l) (pushed l) n
              (history l) (ran l))
  end.

(** The section of [run_once] behind the poll: the queues are taken, and the flag
    goes down. *)
Definition take_queues (fired : bool) (l : WakeLoop) : WakeLoop :=
  mk_wake (if fired then draining (posted_ l) else dispatching (posted_ l)) (pipe l) (armed l)
    false [] [] (stop_requested_ l) (pushed l) (writing l) (history l) (ran l).

(** One round of [drain_wakeup] *)
Definition drain_read (work : list nat) (l : WakeLoop) : WakeLoop :=
  let count := pipe l `min` scratch_size in
  mk_wake (if count <? scratch_size then arming work else draining work) (pipe l - count)
    (armed l) (wake_pending_ l) (posted_ l) (pending_cancels_ l) (stop_requested_ l) (pushed l)
    (writing l) (history l) (ran l).

Definition set_armed (a : bool) (l : WakeLoop) : WakeLoop :=
  mk_wake (section l) (pipe l) a (wake_pending_ l) (posted_ l) (pending_cancels_ l)
    (stop_requested_ l) (pushed l) (writing l) (history l) (ran l).

Definition run_work (work : list nat) (l : WakeLoop) : WakeLoop :=
  mk_wake deciding (pipe l) (armed l) (wake_pending_ l) (posted_ l) (pending_cancels_ l)
    (stop_requested_ l) (pushed l) (writing l) (history l) (ran l ++ work).

(** One action; [None] where it cannot happen.  A one-shot registration is consumed
    by the event it reports. *)
Definition wake_step (e : Event) (l : WakeLoop) : option WakeLoop :=
  match e, section l with
  | call_post w, _ => Some (push_work w l)
  | call_cancel id, _ => Some (record_cancel id l)
  | call_stop, _ => Some (raise_stop l)
  | exchange, _ => wake_exchange l
  | write_byte, _ => wake_write l
  | decide_timeout, deciding => Some (at_section (polling (negb (anything_queued l))) l)
  | pipe_ready, polling _ =>
      if armed l && negb (pipe l =? 0) then Some (set_armed false (at_section (collecting true) l))
      else None
  | other_ready, polling _ => Some (at_section (collecting false) l)
  | collect_queues, collecting fired => Some (take_queues fired l)
  | read_bytes, draining work => Some (drain_read work l)
  | arm_wakeup, arming work => Some (set_armed true (at_section (dispatching work) l))
  | dispatch, dispatching work => Some (run_work work l)
  | _, _ => None
  end.

Fixpoint wake_run (es : list Event) (l : WakeLoop) : option WakeLoop :=
  match es with
  | [] => Some l
  | e :: es => match wake_step e l with Some l => wake_run es l | None => None end
  end.

Definition by_thread (e : Event) : bool :=
  match e with
  | call_post _ | call_cancel _ | call_stop | exchange | write_byte => true
  | _ => false
  end.

(** The steps of calls of [wake] that have begun. *)
Definition in_wake (e : Event) : bool :=
  match e with exchange | write_byte => true | _ => false end.

(** A byte that is written while the loop empties the pipe. *)
Definition late (e : Event) (l : WakeLoop) : bool :=
  match e, section l with
  | write_byte, draining _ => true
  | _, _ => false
  end.

(** The runs in which that does not happen. *)
Inductive timely : WakeLoop -> Prop :=
| timely_new : timely new_wake_loop
| timely_step e l l' : timely l -> late e l = false -> wake_step e l = Some l' -> timely l'.

(** ** Work is run once, and in order *)

(** What has been taken and not yet run. *)
Definition taken (l : WakeLoop) : list nat :=
  match section l with
  | draining work | arming work | dispatching work => work
  | _ => []
  end.

Definition accounted (l : WakeLoop) : Prop := history l = ran l ++ taken l ++ posted_ l.

Lemma wake_step_accounted e l l' : accounted l -> wake_step e l = Some l' -> accounted l'.
Proof.
  unfold accounted, taken. destruct l as [sec pi ar wp po ca st pu wr hi ra]. cbn. intros ->.
  destruct e, sec; cbn; unfold wake_exchange, wake_write, take_queues, drain_read; cbn; intros Hs;
    repeat split_match_in Hs; simplify_eq/=; rewrite <- ?app_assoc, ?app_nil_r; try done.
Qed.

Lemma wake_run_accounted es l l' : accounted l -> wake_run es l = Some l' -> accounted l'.
Proof.
  revert l. induction es as [|e es IH]; intros l H; cbn [wake_run]; [by intros [= <-]|].
  destruct (wake_step e l) eqn:E; [|done]. apply IH. by eapply wake_step_accounted.
Qed.

(** ** A blocked loop *)

(** What announces itself: a byte in the pipe, or a thread about to write one. *)
Definition announced (l : WakeLoop) : Prop := 0 < pipe l \/ 0 < writing l.

Definition blocked (l : WakeLoop) : bool :=
  match section l with polling true => true | _ => false end.

(** In a timely run: the flag is up only where a byte is announced or the loop will
    look at its queues before it blocks; and what is in a queue of a blocked loop is
    announced, or about to be. *)
Definition wake_inv (l : WakeLoop) : Prop :=
  match section l with
  | deciding =>
      armed l = true /\ (wake_pending_ l = true -> announced l \/ anything_queued l = true)
  | polling true =>
      armed l = true /\ (wake_pending_ l = true -> announced l) /\
      (anything_queued l = true -> announced l \/ 0 < pushed l)
  | polling false => armed l = true
  | collecting fired => armed l = negb fired
  | draining _ => wake_pending_ l = true -> 0 < writing l
  | arming _ => wake_pending_ l = true -> announced l \/ anything_queued l = true
  | dispatching _ =>
      armed l = true /\ (wake_pending_ l = true -> announced l \/ anything_queued l = true)
  end.

Lemma wake_inv_new : wake_inv new_wake_loop.
Proof. done. Qed.

Lemma queued_after_push work l : anything_queued (push_work work l) = true.
Proof. unfold anything_queued, push_work. cbn. by destruct (posted_ l). Qed.

Lemma queued_after_cancel id l : anything_queued (record_cancel id l) = true.
Proof.
  unfold anything_queued, record_cancel. cbn.
  destruct (posted_ l), (pending_cancels_ l); done.
Qed.

Lemma queued_after_stop l : anything_queued (raise_stop l) = true.
Proof. unfold anything_queued, raise_stop. cbn. by rewrite orb_true_r. Qed.

Ltac wake_crush :=
  unfold announced in *; cbn in *; intuition (try lia; try congruence; eauto).

Lemma wake_inv_step e l l' :
  wake_inv l -> late e l = false -> wake_step e l = Some l' -> wake_inv l'.
Proof.
  destruct e as [w|id| | | | | | | | | |]; intros H Hlate Hs; cbn [wake_step] in Hs.
  - injection Hs as <-. pose proof (queued_after_push w l) as Hq. revert H Hq. unfold wake_inv.
    cbn [section push_work]. destruct (section l) as [|[]| | | |]; intros; wake_crush.
  - injection Hs as <-. pose proof (queued_after_cancel id l) as Hq. revert H Hq. unfold wake_inv.
    cbn [section record_cancel]. destruct (section l) as [|[]| | | |]; intros; wake_crush.
  - injection Hs as <-. pose proof (queued_after_stop l) as Hq. revert H Hq. unfold wake_inv.
    cbn [section raise_stop]. destruct (section l) as [|[]| | | |]; intros; wake_crush.
  - unfold wake_exchange in Hs. destruct (pushed l) as [|n] eqn:En; [done|]. injection Hs as <-.
    revert H. unfold wake_inv, anything_queued. cbn.
    destruct (section l) as [|[]| | | |]; destruct (wake_pending_ l) eqn:Ew; intros; wake_crush.
  - unfold wake_write in Hs. destruct (writing l) as [|n] eqn:En; [done|]. injection Hs as <-.
    assert (Hp : 0 < pipe l + (if pipe l <? pipe_capacity then 1 else 0)).
    { destruct (Nat.ltb_spec (pipe l) pipe_capacity); unfold pipe_capacity in *; lia. }
    revert H Hlate. unfold wake_inv, late, anything_queued. cbn [section].
    set (q := pipe l + _) in *. clearbody q.
    destruct (section l) as [|[]| | | |]; intros; wake_crush.
  - destruct (section l) eqn:Es; try done. injection Hs as <-. unfold wake_inv in *.
    rewrite Es in H. cbn [section at_section]. destruct (anything_queued l) eqn:Eq; cbn [negb].
    + by destruct H.
    + destruct H as [Ha Hw]. unfold anything_queued in *. cbn in *. rewrite Eq.
      split_and!; [done| |done]. intros Hp. by destruct (Hw Hp) as [|[=]].
  - destruct (section l) eqn:Es; try done. destruct (_ && _); [|done]. by injection Hs as <-.
  - destruct (section l) as [|b| | | |] eqn:Es; try done. injection Hs as <-. unfold wake_inv in *.
    rewrite Es in H. cbn. by destruct b; [destruct H|].
  - destruct (section l) as [| |fired| | |] eqn:Es; try done. injection Hs as <-.
    unfold wake_inv in *. rewrite Es in H. unfold take_queues. cbn. by destruct fired.
  - destruct (section l) as [| | |work| |] eqn:Es; try done. injection Hs as <-.
    unfold wake_inv in *. rewrite Es in H. unfold drain_read, anything_queued, announced. cbn [section].
    destruct (_ <? _); cbn; intros Hp; specialize (H Hp); [left; by right|done].
  - destruct (section l) as [| | | |work|] eqn:Es; try done. injection Hs as <-.
    unfold wake_inv in *. rewrite Es in H. cbn. by split.
  - destruct (section l) as [| | | | |work] eqn:Es; try done. injection Hs as <-.
    unfold wake_inv in *. rewrite Es in H. cbn. by destruct H.
Qed.

Lemma timely_inv l : timely l -> wake_inv l.
Proof. induction 1; [apply wake_inv_new|by eapply wake_inv_step]. Qed.

(** The pipe wakes a blocked loop once a byte is in it. *)
Lemma byte_wakes l :
  section l = polling true -> armed l = true -> 0 < pipe l ->
  is_Some (wake_step pipe_ready l).
Proof.
  intros Hs Ha Hp. cbn. rewrite Hs, Ha. destruct (Nat.eqb_spec (pipe l) 0); [lia|by eexists].
Qed.

Lemma writer_wakes l :
  section l = polling true -> armed l = true -> announced l ->
  exists es l', forallb in_wake es = true /\ wake_run es l = Some l' /\
    is_Some (wake_step pipe_ready l').
Proof.
  intros Hs Ha [Hp|Hw]; [exists [], l; split_and!; try done; by apply byte_wakes|].
  exists [write_byte]. cbn [wake_run wake_step]. unfold wake_write.
  destruct (writing l) as [|n]; [lia|]. eexists. split_and!; [done|done|].
  apply byte_wakes; [done|done|]. cbn [pipe].
  destruct (Nat.ltb_spec (pipe l) pipe_capacity); unfold pipe_capacity in *; lia.
Qed.

(** ** The properties *)

(** Steps of [wake] leave a blocked loop as it is. *)
Lemma in_wake_step e l l' :
  in_wake e = true -> wake_step e l = Some l' ->
  section l' = section l /\ anything_queued l' = anything_queued l /\ (blocked l = true -> late e l = false).
Proof.
  unfold blocked, late. destruct e; try done; intros _; cbn [wake_step].
  - unfold wake_exchange. destruct (pushed l); [done|]. intros [= <-]. by split_and!.
  - unfold wake_write. destruct (writing l); [done|]. intros [= <-]. split_and!; [done|done|].
    by destruct (section l) as [|[]| | | |].
Qed.

Lemma in_wake_run es l l' :
  timely l -> blocked l = true -> forallb in_wake es = true -> wake_run es l = Some l' ->
  timely l' /\ blocked l' = true /\ anything_queued l' = anything_queued l.
Proof.
  revert l. induction es as [|e es IH]; intros l Ht Hb; cbn [forallb wake_run]; [by intros _ [= <-]|].
  intros [He Hes]%andb_true_iff. destruct (wake_step e l) as [l1|] eqn:E; [|done]. intros Hr.
  destruct (in_wake_step e l l1 He E) as (Hs & Hq & Hl). rewrite <- Hq. apply IH; [|by unfold blocked in *; rewrite Hs|done|done].
  eapply timely_step; [exact Ht|by apply Hl|exact E].
Qed.

(** C12: In every run in which no byte is written while the loop empties its pipe, a
    loop that is blocked in its poll while work, a cancellation or a stop request is
    in a queue will wake.  Only calls of [wake] that have already begun are needed:
    they can finish so that the poll returns, and in whatever order all of them
    finish, it does.  So whoever puts something into a queue of a blocked loop must
    call [wake] afterwards, as [post], [request_cancel] and [stop] do. *)
Theorem timely_wakeup l :
  timely l -> blocked l = true -> anything_queued l = true ->
  (exists es l', forallb in_wake es = true /\ wake_run es l = Some l' /\
    is_Some (wake_step pipe_ready l')) /\
  (forall es l', forallb in_wake es = true -> wake_run es l = Some l' ->
    pushed l' = 0 -> writing l' = 0 -> is_Some (wake_step pipe_ready l')).
Proof.
  intros Ht0 Hb Hq. pose proof (timely_inv l Ht0) as Ht. split.
  - unfold wake_inv, blocked in *.
    destruct (section l) as [|[]| | | |] eqn:Es; try done. destruct Ht as (Ha & Hw & Hx).
    destruct (Hx Hq) as [Han|Hp]; [by apply writer_wakes|].
    destruct (wake_pending_ l) eqn:Ew; [by apply writer_wakes, Hw|].
    destruct (pushed l) as [|n] eqn:En; [lia|].
    set (l1 := mk_wake (section l) (pipe l) (armed l) true (posted_ l) (pending_cancels_ l)
                 (stop_requested_ l) n (S (writing l)) (history l) (ran l)).
    destruct (writer_wakes l1) as (es & l' & Hes & Hr & Hl'); [done|done|right; cbn; lia|].
    exists (exchange :: es), l'. split_and!; [done| |done]. cbn [wake_run wake_step].
    unfold wake_exchange. rewrite En, Ew. exact Hr.
  - intros es l' Hes Hr Hp Hw. destruct (in_wake_run es l l' Ht0 Hb Hes Hr) as (Ht' & Hb' & Hq').
    apply timely_inv in Ht'. unfold wake_inv, blocked in *.
    destruct (section l') as [|[]| | | |] eqn:Es; try done. destruct Ht' as (Ha & _ & Hx).
    rewrite Hq' in Hx. destruct (Hx Hq) as [[?|?]|?]; [by apply byte_wakes|lia|lia].
Qed.

Lemma timely_run es l l' :
  timely l -> (forall e l, e ∈ es -> late e l = false) -> wake_run es l = Some l' -> timely l'.
Proof.
  revert l. induction es as [|e es IH]; intros l Ht Hl; cbn [wake_run]; [by intros [= <-]|].
  destruct (wake_step e l) as [l1|] eqn:E; [|done]. apply IH; [|set_solver].
  eapply timely_step; [exact Ht|apply Hl; left|exact E].
Qed.

(** Somebody asks for a cancellation while it is blocked. *)
Definition blocked_cancel : list Event := [decide_timeout; call_cancel 7].

Lemma timely_wakeup_witness :
  match wake_run blocked_cancel new_wake_loop with
  | Some l =>
      blocked l = true /\ anything_queued l = true /\ wake_step pipe_ready l = None /\
      forall l', wake_run [exchange; write_byte] l = Some l' -> is_Some (wake_step pipe_ready l')
  | None => False
  end.
Proof.
  destruct (wake_run blocked_cancel new_wake_loop) as [l|] eqn:E; [|discriminate E].
  assert (Ht : timely l).
  { apply (timely_run blocked_cancel new_wake_loop); [constructor| |exact E].
    intros e l1 He. repeat (apply elem_of_cons in He as [->|He]; [reflexivity|]).
    by apply not_elem_of_nil in He. }
  injection E as <-. split; [reflexivity|]. split; [reflexivity|]. split; [reflexivity|].
  intros l' Hl'. refine (proj2 (timely_wakeup _ Ht eq_refl eq_refl) [exchange; write_byte] l' eq_refl Hl' _ _);
    vm_compute in Hl'; injection Hl' as <-; reflexivity.
Defined.

(** Whatever the interleaving, posted work is run at most once and in the order
    in which it was posted: what has been posted is what has run, what the current
    iteration has taken, and what is still in the queue, in that order. *)
Theorem posted_work_in_order es l :
  wake_run es new_wake_loop = Some l -> history l = ran l ++ taken l ++ posted_ l.
Proof. by apply wake_run_accounted. Qed.

Lemma posted_work_in_order_witness :
  exists l,
    wake_run [call_post 1; call_post 2; decide_timeout; other_ready; collect_queues;
              call_post 3; dispatch] new_wake_loop = Some l /\
    history l = [1; 2; 3] /\ ran l = [1; 2] /\ history l = ran l ++ taken l ++ posted_ l.
Proof.
  exists (mk_wake deciding 0 true false [3] [] false 3 0 [1; 2; 3] [1; 2]).
  split; [vm_compute; reflexivity|]. split; [reflexivity|]. split; [reflexivity|].
  apply (posted_work_in_order [call_post 1; call_post 2; decide_timeout; other_ready;
    collect_queues; call_post 3; dispatch]). vm_compute. reflexivity.
Defined.

(** The run in which the wake-up is lost.  A thread has posted 1 and is about to
    call [wake]; the loop, woken by an earlier byte, takes 1 and lowers the flag; the
    thread raises the flag and writes its byte; the loop drains it.  The flag is up,
    the pipe is empty, and no thread is on its way. *)
Definition late_script : list Event :=
  [call_post 0; exchange; write_byte; decide_timeout; pipe_ready; call_post 1; collect_queues;
   exchange; write_byte; read_bytes; arm_wakeup; dispatch; decide_timeout; call_post 2; exchange].

(** The flag is up, and nothing is on its way. *)
Definition deaf (l : WakeLoop) : Prop :=
  section l = polling true /\ pipe l = 0 /\ writing l = 0 /\ wake_pending_ l = true.

Lemma deaf_step e l l' : deaf l -> by_thread e = true -> wake_step e l = Some l' -> deaf l'.
Proof.
  intros (Hs & Hp & Hw & Hf). destruct e; cbn; try done; intros _ H.
  1-3: by injection H as <-.
  - unfold wake_exchange in H. destruct (pushed l); [done|]. injection H as <-.
    unfold deaf. cbn. by rewrite Hf.
  - unfold wake_write in H. by rewrite Hw in H.
Qed.

(** From there on the loop sleeps although work 2 is in its queue, and no number of
    further calls of [post], [stop] or [request_cancel] wakes it. *)
Theorem wakeup_lost :
  exists l,
    wake_run late_script new_wake_loop = Some l /\ blocked l = true /\ posted_ l = [2] /\
    pushed l = 0 /\
    forall es l', forallb by_thread es = true -> wake_run es l = Some l' ->
      blocked l' = true /\ wake_step pipe_ready l' = None.
Proof.
  exists (mk_wake (polling true) 0 true true [2] [] false 0 0 [0; 1; 2] [0; 1]).
  split; [vm_compute; reflexivity|]. split_and!; try reflexivity.
  generalize (mk_wake (polling true) 0 true true [2] [] false 0 0 [0; 1; 2] [0; 1])
    (ltac:(done) : deaf (mk_wake (polling true) 0 true true [2] [] false 0 0 [0; 1; 2] [0; 1])).
  intros l Hd es. revert l Hd.
  induction es as [|e es IH]; intros l Hd l'; cbn [forallb wake_run].
  - intros _ [= <-]. destruct Hd as (Hs & Hp & _ & _). unfold blocked. cbn. rewrite Hs, Hp.
    by rewrite andb_false_r.
  - intros [He Hes]%andb_true_iff. destruct (wake_step e l) as [l1|] eqn:E; [|done].
    apply IH; [by eapply deaf_step|done].
Qed.
