(* ===== verification/Iocp.v ===== *)
(** * Iocp: the Windows event loop (core/src/event_loop_iocp.cpp, core/src/error.cpp)

    [Iocp] holds the members of [EventLoop::Impl]; [Port] is the kernel's side of
    the completion port: the operations whose packet has not been dequeued, the
    wake-up packets, the sockets made for AcceptEx and the calls of CancelIoEx.
    What a system call answers is an argument.

    The kernel hands back the address of an [OVERLAPPED], which is the address of
    the operation it is part of.  An operation is one allocation, so its id stands
    for its address; it is live as long as it is in the table.  Reading one that is
    not there is the use after free that [read_packet] makes visible. *)

From stdpp Require Import gmap.
From S2P Require Import Prelude Errors Timers.

Local Open Scope Z_scope.

(** [static_cast<ULONG>] *)
Definition wrap32 (z : Z) : Z := z mod 2 ^ 32.
Definition ULONG_MAX : Z := 2 ^ 32 - 1.

Definition INVALID_SOCKET : Z := 2 ^ 64 - 1.
Definition kEventBatch : nat := 64.
Definition kWakeupKey : Z := 1.
Definition kMaxScatter : nat := 16.
Definition sizeof_sockaddr : Z := 16.
Definition sizeof_storage : Z := 128.

Definition WSAEINVAL : Z := 10022.
Definition WSAEMSGSIZE : Z := 10040.

(** ** Errors *)

(** The Winsock numbers with a portable equivalent, and that equivalent in the
    numbering of the platform's errno.h. *)
Definition winsock_errc : list (Z * Z) :=
  [(10004, 4); (10013, 13); (10014, 14); (10022, 22); (10024, 24); (10035, 140); (10036, 112);
   (10037, 103); (10038, 128); (10039, 109); (10040, 115); (10041, 136); (10042, 123); (10043, 135);
   (10045, 130); (10047, 102); (10048, 100); (10049, 101); (10050, 116); (10051, 118); (10052, 117);
   (10053, 106); (10054, 108); (10055, 119); (10056, 113); (10057, 126); (10060, 138); (10061, 107);
   (10065, 110)].

(** [socket_error] on Windows *)
Definition winsock_error (native_code : Z) : Error :=
  match List.find (fun e => e.1 =? native_code) winsock_errc with
  | Some e => mk_error e.2 generic_category
  | None => mk_error native_code system_category
  end.

(** [std::make_error_code(std::errc::message_size)] *)
Definition win_message_size : Error := mk_error 115 generic_category.

(** ** Operations *)

Module IoKind.
Inductive t := timer | read | write | accept | connect | receive_from | send_to.

#[global] Instance eq_dec : EqDecision t.
Proof. solve_decision. Defined.
End IoKind.

(** [Operation].  [io_buffers] are the lengths of the buffers given to the kernel
    ([buffer], or [scatter] up to [scatter_count]); [io_handle] is the coroutine. *)
Record IoOp := mk_io_op {
  io_kind : IoKind.t;
  io_handle : Z;
  io_socket : Z;
  io_accepted : Z;
  io_buffers : list Z;
  io_capacity : Z;
  io_address : bytes;
  io_closed : bool;
  io_reason : option Error;
  io_wake : TimerHandle;
  io_deadline : TimerHandle;
}.

Definition with_io_socket (v : Z) (x : IoOp) : IoOp :=
  {| io_kind := io_kind x; io_handle := io_handle x; io_socket := v; io_accepted := io_accepted x; io_buffers := io_buffers x; io_capacity := io_capacity x; io_address := io_address x; io_closed := io_closed x; io_reason := io_reason x; io_wake := io_wake x; io_deadline := io_deadline x |}.
Definition with_io_accepted (v : Z) (x : IoOp) : IoOp :=
  {| io_kind := io_kind x; io_handle := io_handle x; io_socket := io_socket x; io_accepted := v; io_buffers := io_buffers x; io_capacity := io_capacity x; io_address := io_address x; io_closed := io_closed x; io_reason := io_reason x; io_wake := io_wake x; io_deadline := io_deadline x |}.
Definition with_io_buffers (v : list Z) (x : IoOp) : IoOp :=
  {| io_kind := io_kind x; io_handle := io_handle x; io_socket := io_socket x; io_accepted := io_accepted x; io_buffers := v; io_capacity := io_capacity x; io_address := io_address x; io_closed := io_closed x; io_reason := io_reason x; io_wake := io_wake x; io_deadline := io_deadline x |}.
Definition with_io_capacity (v : Z) (x : IoOp) : IoOp :=
  {| io_kind := io_kind x; io_handle := io_handle x; io_socket := io_socket x; io_accepted := io_accepted x; io_buffers := io_buffers x; io_capacity := v; io_address := io_address x; io_closed := io_closed x; io_reason := io_reason x; io_wake := io_wake x; io_deadline := io_deadline x |}.
Definition with_io_address (v : bytes) (x : IoOp) : IoOp :=
  {| io_kind := io_kind x; io_handle := io_handle x; io_socket := io_socket x; io_accepted := io_accepted x; io_buffers := io_buffers x; io_capacity := io_capacity x; io_address := v; io_closed := io_closed x; io_reason := io_reason x; io_wake := io_wake x; io_deadline := io_deadline x |}.
Definition with_io_closed (v : bool) (x : IoOp) : IoOp :=
  {| io_kind := io_kind x; io_handle := io_handle x; io_socket := io_socket x; io_accepted := io_accepted x; io_buffers := io_buffers x; io_capacity := io_capacity x; io_address := io_address x; io_closed := v; io_reason := io_reason x; io_wake := io_wake x; io_deadline := io_deadline x |}.
Definition with_io_reason (v : option Error) (x : IoOp) : IoOp :=
  {| io_kind := io_kind x; io_handle := io_handle x; io_socket := io_socket x; io_accepted := io_accepted x; io_buffers := io_buffers x; io_capacity := io_capacity x; io_address := io_address x; io_closed := io_closed x; io_reason := v; io_wake := io_wake x; io_deadline := io_deadline x |}.
Definition with_io_deadline (v : TimerHandle) (x : IoOp) : IoOp :=
  {| io_kind := io_kind x; io_handle := io_handle x; io_socket := io_socket x; io_accepted := io_accepted x; io_buffers := io_buffers x; io_capacity := io_capacity x; io_address := io_address x; io_closed := io_closed x; io_reason := io_reason x; io_wake := io_wake x; io_deadline := v |}.

(** A value-initialised operation of a kind, for a coroutine. *)
Definition new_io_op (kind : IoKind.t) (coroutine : Z) (wake deadline : TimerHandle) : IoOp :=
  mk_io_op kind coroutine INVALID_SOCKET INVALID_SOCKET [] 0 [] false None wake deadline.

(** [kernel_backed()] *)
Definition kernel_backed (op : IoOp) : bool := negb (bool_decide (io_kind op = IoKind.timer)).

(** ** The loop *)

Record Port := mk_port {
  owed : gset Z;
  nudges : nat;
  sockets : gset Z;
  contexts : gset Z;
  cancel_calls : list (Z * option Z);
  port_open : bool;
}.

Definition set_owed (v : gset Z) (x : Port) : Port :=
  {| owed := v; nudges := nudges x; sockets := sockets x; contexts := contexts x; cancel_calls := cancel_calls x; port_open := port_open x |}.
Definition set_nudges (v : nat) (x : Port) : Port :=
  {| owed := owed x; nudges := v; sockets := sockets x; contexts := contexts x; cancel_calls := cancel_calls x; port_open := port_open x |}.
Definition set_sockets (v : gset Z) (x : Port) : Port :=
  {| owed := owed x; nudges := nudges x; sockets := v; contexts := contexts x; cancel_calls := cancel_calls x; port_open := port_open x |}.
Definition set_contexts (v : gset Z) (x : Port) : Port :=
  {| owed := owed x; nudges := nudges x; sockets := sockets x; contexts := v; cancel_calls := cancel_calls x; port_open := port_open x |}.
Definition set_cancel_calls (v : list (Z * option Z)) (x : Port) : Port :=
  {| owed := owed x; nudges := nudges x; sockets := sockets x; contexts := contexts x; cancel_calls := v; port_open := port_open x |}.
Definition set_port_open (v : bool) (x : Port) : Port :=
  {| owed := owed x; nudges := nudges x; sockets := sockets x; contexts := contexts x; cancel_calls := cancel_calls x; port_open := v |}.

Definition IoWork : Type := Z.

Record Iocp := mk_iocp {
  io_operations : gmap Z IoOp;
  io_timers : TimerQueue;
  io_posted : list IoWork;
  io_cancels : list OperationId;
  io_next_id : Z;
  io_accept_ex : bool;
  io_connect_ex : bool;
  io_stop : bool;
  io_wake_pending : bool;
  io_shutting_down : bool;
  io_port : Port;
}.

Definition set_io_operations (v : gmap Z IoOp) (x : Iocp) : Iocp :=
  {| io_operations := v; io_timers := io_timers x; io_posted := io_posted x; io_cancels := io_cancels x; io_next_id := io_next_id x; io_accept_ex := io_accept_ex x; io_connect_ex := io_connect_ex x; io_stop := io_stop x; io_wake_pending := io_wake_pending x; io_shutting_down := io_shutting_down x; io_port := io_port x |}.
Definition set_io_timers (v : TimerQueue) (x : Iocp) : Iocp :=
  {| io_operations := io_operations x; io_timers := v; io_posted := io_posted x; io_cancels := io_cancels x; io_next_id := io_next_id x; io_accept_ex := io_accept_ex x; io_connect_ex := io_connect_ex x; io_stop := io_stop x; io_wake_pending := io_wake_pending x; io_shutting_down := io_shutting_down x; io_port := io_port x |}.
Definition set_io_posted (v : list IoWork) (x : Iocp) : Iocp :=
  {| io_operations := io_operations x; io_timers := io_timers x; io_posted := v; io_cancels := io_cancels x; io_next_id := io_next_id x; io_accept_ex := io_accept_ex x; io_connect_ex := io_connect_ex x; io_stop := io_stop x; io_wake_pending := io_wake_pending x; io_shutting_down := io_shutting_down x; io_port := io_port x |}.
Definition set_io_cancels (v : list OperationId) (x : Iocp) : Iocp :=
  {| io_operations := io_operations x; io_timers := io_timers x; io_posted := io_posted x; io_cancels := v; io_next_id := io_next_id x; io_accept_ex := io_accept_ex x; io_connect_ex := io_connect_ex x; io_stop := io_stop x; io_wake_pending := io_wake_pending x; io_shutting_down := io_shutting_down x; io_port := io_port x |}.
Definition set_io_next_id (v : Z) (x : Iocp) : Iocp :=
  {| io_operations := io_operations x; io_timers := io_timers x; io_posted := io_posted x; io_cancels := io_cancels x; io_next_id := v; io_accept_ex := io_accept_ex x; io_connect_ex := io_connect_ex x; io_stop := io_stop x; io_wake_pending := io_wake_pending x; io_shutting_down := io_shutting_down x; io_port := io_port x |}.
Definition set_io_accept_ex (v : bool) (x : Iocp) : Iocp :=
  {| io_operations := io_operations x; io_timers := io_timers x; io_posted := io_posted x; io_cancels := io_cancels x; io_next_id := io_next_id x; io_accept_ex := v; io_connect_ex := io_connect_ex x; io_stop := io_stop x; io_wake_pending := io_wake_pending x; io_shutting_down := io_shutting_down x; io_port := io_port x |}.
Definition set_io_connect_ex (v : bool) (x : Iocp) : Iocp :=
  {| io_operations := io_operations x; io_timers := io_timers x; io_posted := io_posted x; io_cancels := io_cancels x; io_next_id := io_next_id x; io_accept_ex := io_accept_ex x; io_connect_ex := v; io_stop := io_stop x; io_wake_pending := io_wake_pending x; io_shutting_down := io_shutting_down x; io_port := io_port x |}.
Definition set_io_stop (v : bool) (x : Iocp) : Iocp :=
  {| io_operations := io_operations x; io_timers := io_timers x; io_posted := io_posted x; io_cancels := io_cancels x; io_next_id := io_next_id x; io_accept_ex := io_accept_ex x; io_connect_ex := io_connect_ex x; io_stop := v; io_wake_pending := io_wake_pending x; io_shutting_down := io_shutting_down x; io_port := io_port x |}.
Definition set_io_wake_pending (v : bool) (x : Iocp) : Iocp :=
  {| io_operations := io_operations x; io_timers := io_timers x; io_posted := io_posted x; io_cancels := io_cancels x; io_next_id := io_next_id x; io_accept_ex := io_accept_ex x; io_connect_ex := io_connect_ex x; io_stop := io_stop x; io_wake_pending := v; io_shutting_down := io_shutting_down x; io_port := io_port x |}.
Definition set_io_shutting_down (v : bool) (x : Iocp) : Iocp :=
  {| io_operations := io_operations x; io_timers := io_timers x; io_posted := io_posted x; io_cancels := io_cancels x; io_next_id := io_next_id x; io_accept_ex := io_accept_ex x; io_connect_ex := io_connect_ex x; io_stop := io_stop x; io_wake_pending := io_wake_pending x; io_shutting_down := v; io_port := io_port x |}.
Definition set_io_port (v : Port) (x : Iocp) : Iocp :=
  {| io_operations := io_operations x; io_timers := io_timers x; io_posted := io_posted x; io_cancels := io_cancels x; io_next_id := io_next_id x; io_accept_ex := io_accept_ex x; io_connect_ex := io_connect_ex x; io_stop := io_stop x; io_wake_pending := io_wake_pending x; io_shutting_down := io_shutting_down x; io_port := v |}.

(** [Impl(port)] *)
Definition new_iocp : Iocp :=
  mk_iocp ∅ empty_timers [] [] kNoOperation false false false false false (mk_port ∅ 0 ∅ ∅ [] true).

(** Assignments through a pointer to an operation in the table. *)
Definition update_op (id : OperationId) (f : IoOp -> IoOp) (l : Iocp) : Iocp :=
  set_io_operations (alter f id (io_operations l)) l.

(** The kernel has taken the operation's [OVERLAPPED]. *)
Definition owe (id : OperationId) (l : Iocp) : Iocp :=
  set_io_port (set_owed ({[id]} ∪ owed (io_port l)) (io_port l)) l.

(** [CancelIoEx(handle, overlapped)]: a request; the packet arrives either way. *)
Definition cancel_io_ex (socket : Z) (overlapped : option Z) (l : Iocp) : Iocp :=
  set_io_port (set_cancel_calls (cancel_calls (io_port l) ++ [(socket, overlapped)]) (io_port l)) l.

(** [closesocket] *)
Definition close_socket (socket : Z) (l : Iocp) : Iocp :=
  set_io_port (set_sockets (sockets (io_port l) ∖ {[socket]}) (io_port l)) l.

(** [PostQueuedCompletionStatus(port_, 0, kWakeupKey, nullptr)] *)
Definition nudge (l : Iocp) : Iocp :=
  if port_open (io_port l) then set_io_port (set_nudges (S (nudges (io_port l))) (io_port l)) l else l.

(** [wake()]: whether a packet has to be posted, and the flag raised. *)
Definition wake_begin (l : Iocp) : bool * Iocp :=
  if io_wake_pending l then (false, l) else (true, set_io_wake_pending true l).

Definition wake (l : Iocp) : Iocp :=
  let '(post, l) := wake_begin l in if post then nudge l else l.

(** ** The table of operations *)

(** [acquire_operation] *)
Definition acquire_operation (kind : IoKind.t) (coroutine : Z) (wake_at : option Z)
    (o : OperationOptions) (l : Iocp) : OperationId * Iocp :=
  let id := wrap64 (io_next_id l + 1) in
  let '(timers, wake) :=
    match wake_at with
    | Some t => timer_add t (mk_target id false) (io_timers l)
    | None => (io_timers l, no_timer)
    end in
  let '(timers, deadline) :=
    match opt_deadline o with
    | Some d => timer_add d (mk_target id true) timers
    | None => (timers, no_timer)
    end in
  (id, set_io_timers timers
         (set_io_operations (<[id := new_io_op kind coroutine wake deadline]> (io_operations l))
            (set_io_next_id id l))).

(** [take(id)] *)
Definition take_op (id : OperationId) (l : Iocp) : option IoOp * Iocp :=
  match io_operations l !! id with
  | None => (None, l)
  | Some op =>
      (Some op,
       set_io_timers (timer_cancel (io_deadline op) (timer_cancel (io_wake op) (io_timers l)))
         (set_io_operations (delete id (io_operations l)) l))
  end.

(** [discard(id)] *)
Definition discard_op (id : OperationId) (l : Iocp) : Iocp := (take_op id l).2.

(** What the coroutine finds in its result slot: a timer's carries no value. *)
Inductive Answer := void_answer (r : Result unit) | size_answer (r : Result Z).

Definition answer_of (op : IoOp) (outcome : Result Z) : Answer :=
  match io_kind op with
  | IoKind.timer => void_answer (match outcome with Ok _ => Ok tt | Fail e => Fail e end)
  | _ => size_answer outcome
  end.

Definition succeeded (outcome : Result Z) : bool :=
  match outcome with Ok _ => true | Fail _ => false end.

(** [finalize(id, outcome)] up to the resumption: the operation, if it was still
    there, and what its coroutine is told. *)
Definition finalize_op (id : OperationId) (outcome : Result Z) (l : Iocp)
    : option (IoOp * Answer) * Iocp :=
  match take_op id l with
  | (None, l) => (None, l)
  | (Some op, l) =>
      (Some (op, answer_of op outcome),
       if bool_decide (io_kind op = IoKind.accept) && negb (succeeded outcome) &&
          negb (io_accepted op =? INVALID_SOCKET)
       then close_socket (io_accepted op) l else l)
  end.

(** ** Submitting *)

(** The tail of every [submit_*]: [None] is success or WSA_IO_PENDING, otherwise
    the kernel did not take the operation and it is dropped. *)
Definition launch (id : OperationId) (kernel : option Z) (l : Iocp) : Result OperationId * Iocp :=
  match kernel with
  | None => (Ok id, owe id l)
  | Some code => (Fail (winsock_error code), discard_op id l)
  end.

(** The refusals every [submit_*] starts with. *)
Definition refused (o : OperationOptions) (now : Z) (l : Iocp) : option Error :=
  if io_shutting_down l then Some (make_error_code Errc.cancelled)
  else rejected_before_submit o now.

(** [submit_read(handle, destination, options, coroutine, result)] *)
Definition submit_read (handle size : Z) (o : OperationOptions) (coroutine now : Z)
    (kernel : option Z) (l : Iocp) : Result OperationId * Iocp :=
  match refused o now l with
  | Some e => (Fail e, l)
  | None =>
      let '(id, l) := acquire_operation IoKind.read coroutine None o l in
      let l := update_op id (fun op => with_io_buffers [wrap32 size] (with_io_socket handle op)) l in
      launch id kernel l
  end.

(** [submit_write(handle, source, options, coroutine, result)] *)
Definition submit_write (handle size : Z) (o : OperationOptions) (coroutine now : Z)
    (kernel : option Z) (l : Iocp) : Result OperationId * Iocp :=
  match refused o now l with
  | Some e => (Fail e, l)
  | None =>
      let '(id, l) := acquire_operation IoKind.write coroutine None o l in
      let l := update_op id (fun op => with_io_buffers [wrap32 size] (with_io_socket handle op)) l in
      launch id kernel l
  end.

(** The first loop of [submit_writev]; [count] is never advanced. *)
Definition scatter_total (pieces : list Z) : Z :=
  foldl (fun total piece => if piece =? 0 then total else wrap64 (total + piece)) 0 pieces.

(** The second loop: the descriptors. *)
Definition scatter_of (pieces : list Z) : list Z :=
  foldl (fun scatter piece =>
           if (piece =? 0) || (length scatter =? kMaxScatter)%nat then scatter
           else scatter ++ [wrap32 piece]) [] pieces.

(** [submit_writev(handle, pieces, options, coroutine, result)] *)
Definition submit_writev (handle : Z) (pieces : list Z) (o : OperationOptions) (coroutine now : Z)
    (kernel : option Z) (l : Iocp) : Result OperationId * Iocp :=
  match refused o now l with
  | Some e => (Fail e, l)
  | None =>
      if scatter_total pieces =? 0 then (fail Errc.invalid_argument, l)
      else
        let '(id, l) := acquire_operation IoKind.write coroutine None o l in
        let l := update_op id
                   (fun op => with_io_buffers (scatter_of pieces) (with_io_socket handle op)) l in
        launch id kernel l
  end.

(** What [submit_datagram] moves: into a destination, or from a source to an
    address. *)
Inductive DatagramIo := recv_into (capacity : Z) | send_from (size : Z) (address : bytes).

Definition datagram_kind (io : DatagramIo) : IoKind.t :=
  match io with recv_into _ => IoKind.receive_from | send_from _ _ => IoKind.send_to end.

Definition datagram_size (io : DatagramIo) : Z :=
  match io with recv_into n => n | send_from n _ => n end.

Definition datagram_address_ok (io : DatagramIo) : bool :=
  match io with
  | recv_into _ => true
  | send_from _ address =>
      negb ((Z.of_nat (length address) <? sizeof_sockaddr) || (sizeof_storage <? Z.of_nat (length address)))
  end.

(** An operation of the same kind is in flight on the handle. *)
Definition same_in_flight (handle : Z) (kind : IoKind.t) (l : Iocp) : bool :=
  List.existsb (fun e => (io_socket e.2 =? handle) && bool_decide (io_kind e.2 = kind) &&
                         negb (io_closed e.2)) (map_to_list (io_operations l)).

(** A receive always offers a buffer of at least one byte. *)
Definition datagram_length (io : DatagramIo) : Z :=
  match io with recv_into 0 => 1 | _ => wrap32 (datagram_size io) end.

(** The fields of the operation a datagram call submits. *)
Definition datagram_fields (handle : Z) (io : DatagramIo) (op : IoOp) : IoOp :=
  let address := match io with recv_into _ => [] | send_from _ a => a end in
  with_io_address address
    (with_io_capacity (datagram_size io)
       (with_io_buffers [datagram_length io] (with_io_socket handle op))).

(** [submit_datagram(handle, destination, source, address, datagram, ...)] *)
Definition submit_datagram (handle : Z) (io : DatagramIo) (o : OperationOptions) (coroutine now : Z)
    (kernel : option Z) (l : Iocp) : Result OperationId * Iocp :=
  match refused o now l with
  | Some e => (Fail e, l)
  | None =>
      if ULONG_MAX <? datagram_size io then (Fail win_message_size, l)
      else if (handle =? INVALID_SOCKET) || negb (datagram_address_ok io)
      then (fail Errc.invalid_argument, l)
      else if same_in_flight handle (datagram_kind io) l then (fail Errc.invalid_argument, l)
      else
        let '(id, l) := acquire_operation (datagram_kind io) coroutine None o l in
        let l := update_op id (datagram_fields handle io) l in
        match kernel with
        | None => (Ok id, owe id l)
        | Some code =>
            (Fail (if code =? WSAEMSGSIZE then win_message_size else winsock_error code),
             discard_op id l)
        end
  end.

(** [resolve_extension], made once and cached: [ext] is its answer. *)
Definition submit_accept (listener : Z) (ext : Result unit) (socket : Result Z)
    (o : OperationOptions) (coroutine now : Z) (kernel : option Z) (l : Iocp)
    : Result OperationId * Iocp :=
  match refused o now l with
  | Some e => (Fail e, l)
  | None =>
      match (if io_accept_ex l then Ok tt else ext) with
      | Fail e => (Fail e, l)
      | Ok _ =>
          let l := set_io_accept_ex true l in
          match socket with
          | Fail e => (Fail e, l)
          | Ok accepted =>
              let l := set_io_port (set_sockets ({[accepted]} ∪ sockets (io_port l)) (io_port l)) l in
              let '(id, l) := acquire_operation IoKind.accept coroutine None o l in
              let l := update_op id
                         (fun op => with_io_accepted accepted (with_io_socket listener op)) l in
              match kernel with
              | None => (Ok id, owe id l)
              | Some code => (Fail (winsock_error code), discard_op id (close_socket accepted l))
              end
          end
      end
  end.

(** [submit_connect]; [bound] is the answer of the implicit bind. *)
Definition submit_connect (handle : Z) (ext : Result unit) (bound : option Z)
    (o : OperationOptions) (coroutine now : Z) (kernel : option Z) (l : Iocp)
    : Result OperationId * Iocp :=
  match refused o now l with
  | Some e => (Fail e, l)
  | None =>
      match (if io_connect_ex l then Ok tt else ext) with
      | Fail e => (Fail e, l)
      | Ok _ =>
          let l := set_io_connect_ex true l in
          match bound with
          | Some code =>
              if negb (code =? WSAEINVAL) then (Fail (winsock_error code), l)
              else
                let '(id, l) := acquire_operation IoKind.connect coroutine None o l in
                launch id kernel (update_op id (with_io_socket handle) l)
          | None =>
              let '(id, l) := acquire_operation IoKind.connect coroutine None o l in
              launch id kernel (update_op id (with_io_socket handle) l)
          end
      end
  end.

(** [add_timer(wake_at, options, coroutine, result)] *)
Definition submit_timer (wake_at : Z) (o : OperationOptions) (coroutine now : Z) (l : Iocp)
    : Result OperationId * Iocp :=
  match refused o now l with
  | Some e => (Fail e, l)
  | None =>
      let '(id, l) := acquire_operation IoKind.timer coroutine (Some wake_at) o l in
      (Ok id, wake l)
  end.

(** ** Cancelling *)

(** [Fixed]; [None] is [applied == false]. *)
Record Fixed := mk_fixed { resolve_now : bool; fixed_target : option (Z * Z) }.

(** [fix_reason(id, reason)] *)
Definition fix_reason (id : OperationId) (reason : Error) (l : Iocp) : option Fixed * Iocp :=
  match io_operations l !! id with
  | None => (None, l)
  | Some op =>
      match io_reason op with
      | Some _ => (None, l)
      | None =>
          (Some (mk_fixed (negb (kernel_backed op))
                   (if kernel_backed op && negb (io_closed op) then Some (io_socket op, id) else None)),
           update_op id (fun op => with_io_deadline no_timer (with_io_reason (Some reason) op))
             (set_io_timers (timer_cancel (io_deadline op) (io_timers l)) l))
      end
  end.

(** [cancel_io(fixed)] *)
Definition cancel_io (f : Fixed) (l : Iocp) : Iocp :=
  match fixed_target f with
  | Some (socket, overlapped) => cancel_io_ex socket (Some overlapped) l
  | None => l
  end.

(** [fixed_reason_of(id)] *)
Definition fixed_reason_of (id : OperationId) (l : Iocp) : option Error :=
  io_operations l !! id ≫= io_reason.

(** ** Calls from any thread

    [request_cancel], [post] and [stop] may run on another thread.  Each is a
    sequence of atomic sections: the first one is the function below, and the
    sections still to come are a list. *)
Inductive ThreadStep :=
| th_cancel_io (f : Fixed)
| th_push_cancel (id : OperationId)
| th_wake
| th_nudge.

(** [request_cancel(id)] *)
Definition request_cancel (id : OperationId) (l : Iocp) : list ThreadStep * Iocp :=
  match fix_reason id (make_error_code Errc.cancelled) l with
  | (None, l) => ([], l)
  | (Some f, l) =>
      (th_cancel_io f :: (if resolve_now f then [th_push_cancel id; th_wake] else []), l)
  end.

(** [post(work)] *)
Definition post_work (w : IoWork) (l : Iocp) : Result unit * list ThreadStep * Iocp :=
  if io_shutting_down l then (fail Errc.cancelled, [], l)
  else (Ok tt, [th_wake], set_io_posted (io_posted l ++ [w]) l).

(** [stop()] *)
Definition stop_loop (l : Iocp) : list ThreadStep * Iocp := ([th_wake], set_io_stop true l).

(** One section: what it leaves to do. *)
Definition thread_step (t : ThreadStep) (l : Iocp) : list ThreadStep * Iocp :=
  match t with
  | th_cancel_io f => ([], cancel_io f l)
  | th_push_cancel id => ([], set_io_cancels (io_cancels l ++ [id]) l)
  | th_wake => let '(post, l) := wake_begin l in (if post then [th_nudge] else [], l)
  | th_nudge => ([], nudge l)
  end.

(** [outstanding()] *)
Definition io_outstanding (l : Iocp) : nat := (size (io_operations l) + length (io_posted l))%nat.

(** The condition of the loop in [run()]. *)
Definition run_continues (l : Iocp) : bool := negb (io_stop l) && negb (io_outstanding l =? 0)%nat.

(** ** Handles *)

(** [attach(handle)]; [kernel] is the answer of CreateIoCompletionPort. *)
Definition attach_handle (handle : Z) (kernel : option Error) (l : Iocp) : Result unit :=
  if io_shutting_down l then fail Errc.cancelled
  else if handle =? INVALID_SOCKET then fail Errc.invalid_argument
  else match kernel with Some e => Fail e | None => Ok tt end.

(** [detach(handle)] *)
Definition detach_handle (handle : Z) (l : Iocp) : Iocp :=
  cancel_io_ex handle None
    (set_io_operations
       ((fun op => if io_socket op =? handle then with_io_closed true op else op) <$> io_operations l) l).

(** ** One iteration *)

(** [OVERLAPPED_ENTRY] and what the kernel left beside it: the answer of
    WSAGetOverlappedResult (the error, if it reports one), whether the datagram
    flags say the packet was cut, and the sender's address. *)
Record Packet := mk_packet {
  pk_key : Z;
  pk_overlapped : option Z;
  pk_internal : Z;
  pk_transferred : Z;
  pk_result : option Z;
  pk_cut : bool;
  pk_address : bytes;
}.

Definition wake_packet : Packet := mk_packet kWakeupKey None 0 0 None false [].

(** The wait of [run_once]. *)
Definition wait_ms (timeout : option Z) (now : Z) (l : Iocp) : Z :=
  let queued := negb (length (io_posted l) =? 0)%nat || negb (length (io_cancels l) =? 0)%nat ||
                io_stop l in
  resolve_timeout_ms timeout (earliest (io_timers l)) now queued.

(** What [classify] does besides answering: fill in the datagram result, or
    update the accepted socket's context. *)
Inductive Effect := no_effect | filled (size : Z) (address : bytes) | updated (socket : Z).

(** The bytes the kernel may move. *)
Definition buffers_length (op : IoOp) : Z := foldr Z.add 0 (io_buffers op).

(** [classify(operation, entry)] *)
Definition classify (op : IoOp) (pk : Packet) : Result Z * Effect :=
  if io_closed op then (fail Errc.cancelled, no_effect)
  else if negb (pk_internal pk =? 0) then
    (match pk_result pk with
     | Some code =>
         if negb (io_socket op =? INVALID_SOCKET) then
           if (code =? WSAEMSGSIZE) && (bool_decide (io_kind op = IoKind.receive_from) ||
                                        bool_decide (io_kind op = IoKind.send_to))
           then Fail win_message_size else Fail (winsock_error code)
         else Fail (mk_error (to_int32 (pk_internal pk)) system_category)
     | None => Fail (mk_error (to_int32 (pk_internal pk)) system_category)
     end, no_effect)
  else match io_kind op with
       | IoKind.accept => (Ok (io_accepted op), updated (io_accepted op))
       | IoKind.connect => (Ok 0, no_effect)
       | IoKind.read =>
           (if pk_transferred pk =? 0 then fail Errc.eof else Ok (pk_transferred pk), no_effect)
       | IoKind.receive_from =>
           if pk_cut pk || (io_capacity op <? pk_transferred pk) then (Fail win_message_size, no_effect)
           else (Ok (pk_transferred pk), filled (pk_transferred pk) (pk_address pk))
       | IoKind.send_to =>
           (if negb (pk_transferred pk =? buffers_length op) then Fail win_message_size
            else Ok (pk_transferred pk), no_effect)
       | IoKind.write => (Ok (pk_transferred pk), no_effect)
       | IoKind.timer => (fail Errc.not_supported, no_effect)
       end.

(** The body of the loop over the dequeued entries: the resolution it appends and
    the effect of classifying; [None] follows a pointer to a freed operation. *)
Definition read_packet (pk : Packet) (l : Iocp)
    : option (list (OperationId * Result Z) * Effect) :=
  if (pk_key pk =? kWakeupKey) then Some ([], no_effect)
  else match pk_overlapped pk with
       | None => Some ([], no_effect)
       | Some id =>
           op ← io_operations l !! id;
           let '(outcome, effect) := classify op pk in
           let outcome := match fixed_reason_of id l with Some e => Fail e | None => outcome end in
           Some ([(id, outcome)], effect)
       end.

(** The section that empties the queues. *)
Definition drain_queues (now : Z) (l : Iocp)
    : list TimerTarget * list OperationId * list IoWork * Iocp :=
  let '(expired, timers) := extract_expired now (io_timers l) in
  (expired, io_cancels l, io_posted l,
   set_io_wake_pending false (set_io_posted [] (set_io_cancels [] (set_io_timers timers l)))).

(** The body of the loop over the expired timers. *)
Definition expire_target (t : TimerTarget) (l : Iocp) : list (OperationId * Result Z) * Iocp :=
  if negb (is_deadline t) then ([(operation t, Ok 0)], l)
  else match fix_reason (operation t) (make_error_code Errc.timed_out) l with
       | (None, l) => ([], l)
       | (Some f, l) =>
           (if resolve_now f then [(operation t, fail Errc.timed_out)] else [], cancel_io f l)
       end.

(** The body of the loop over the cancellations. *)
Definition resolve_cancel (id : OperationId) (l : Iocp) : list (OperationId * Result Z) :=
  match fixed_reason_of id l with Some e => [(id, Fail e)] | None => [] end.

(** What is delivered outside the lock, in this order. *)
Inductive Delivery := deliver (id : OperationId) (outcome : Result Z) | run_work (w : IoWork).

Definition deliveries (resolved : list (OperationId * Result Z)) (work : list IoWork)
    : list Delivery :=
  map (fun r => deliver r.1 r.2) resolved ++ map run_work work.

(** ** Shutting down *)

(** The flags [shutdown()] raises first. *)
Definition shutdown_begin (l : Iocp) : Iocp := set_io_stop true (set_io_shutting_down true l).

(** An operation already cut short keeps its reason. *)
Definition pin_cancelled (op : IoOp) : IoOp :=
  match io_reason op with
  | Some _ => op
  | None => with_io_reason (Some (make_error_code Errc.cancelled)) op
  end.

Record Orphans := mk_orphans {
  orphans : list (OperationId * Error);
  to_cancel : list (Z * Z);
  backed : nat;
}.

(** One turn of the loop over [operations_] (after [pin_cancelled]). *)
Definition add_orphan (acc : Orphans) (e : OperationId * IoOp) : Orphans :=
  let '(id, op) := e in
  let reason := default (make_error_code Errc.cancelled) (io_reason op) in
  mk_orphans (orphans acc ++ [(id, reason)])
    (if kernel_backed op && negb (io_closed op) then to_cancel acc ++ [(io_socket op, id)]
     else to_cancel acc)
    (if kernel_backed op then S (backed acc) else backed acc).

(** The locked section of [shutdown()]. *)
Definition shutdown_collect (l : Iocp) : Orphans * Iocp :=
  let l := set_io_operations (pin_cancelled <$> io_operations l)
             (set_io_cancels [] (set_io_posted [] l)) in
  (foldl add_orphan (mk_orphans [] [] 0) (map_to_list (io_operations l)), l).

(** One packet of the draining loop: how many are still awaited. *)
Definition drain_packet (pk : Packet) (n : nat) : nat :=
  match pk_overlapped pk with
  | None => n
  | Some _ => if pk_key pk =? kWakeupKey then n else Nat.pred n
  end.

(** [CloseHandle(port_)] *)
Definition shutdown_end (l : Iocp) : Iocp := set_io_port (set_port_open false (io_port l)) l.

(** ** The completion API

    A call is answered at once or suspends its coroutine.  [now] is the clock at
    the call's own check and [now'] at the one of the submission. *)
Inductive Call := answered (r : Result Z) | suspended (id : OperationId).

(** [OperationAwaiter::await_suspend]: a submission that fails does not suspend. *)
Definition await_operation (submitted : Result OperationId * Iocp) : Call * Iocp :=
  match submitted with
  | (Ok id, l) => (suspended id, l)
  | (Fail e, l) => (answered (Fail e), l)
  end.

(** [if (!impl || impl->shutting_down()) co_return fail(Errc::cancelled)] *)
Definition while_open (l : Iocp) (submit : Result OperationId * Iocp) : Call * Iocp :=
  if io_shutting_down l then (answered (fail Errc.cancelled), l) else await_operation submit.

(** [EventLoop::read] *)
Definition call_read (handle size : Z) (o : OperationOptions) (coroutine now now' : Z)
    (kernel : option Z) (l : Iocp) : Call * Iocp :=
  match rejected_before_submit o now with
  | Some e => (answered (Fail e), l)
  | None =>
      if size =? 0 then (answered (Ok 0), l)
      else while_open l (submit_read handle size o coroutine now' kernel l)
  end.

(** [EventLoop::write] *)
Definition call_write (handle size : Z) (o : OperationOptions) (coroutine now now' : Z)
    (kernel : option Z) (l : Iocp) : Call * Iocp :=
  match rejected_before_submit o now with
  | Some e => (answered (Fail e), l)
  | None =>
      if size =? 0 then (answered (Ok 0), l)
      else while_open l (submit_write handle size o coroutine now' kernel l)
  end.

(** [EventLoop::writev] *)
Definition call_writev (handle : Z) (pieces : list Z) (o : OperationOptions) (coroutine now now' : Z)
    (kernel : option Z) (l : Iocp) : Call * Iocp :=
  match rejected_before_submit o now with
  | Some e => (answered (Fail e), l)
  | None =>
      if foldl (fun total piece => wrap64 (total + piece)) 0 pieces =? 0 then (answered (Ok 0), l)
      else while_open l (submit_writev handle pieces o coroutine now' kernel l)
  end.

(** [EventLoop::accept] up to its suspension. *)
Definition call_accept (listener : Z) (ext : Result unit) (socket : Result Z)
    (o : OperationOptions) (coroutine now now' : Z) (kernel : option Z) (l : Iocp) : Call * Iocp :=
  match rejected_before_submit o now with
  | Some e => (answered (Fail e), l)
  | None => while_open l (submit_accept listener ext socket o coroutine now' kernel l)
  end.

(** [EventLoop::accept] after it: the new socket joins the port or is closed. *)
Definition accept_resumed (accepted : Result Z) (kernel : option Error) (l : Iocp)
    : Result Z * Iocp :=
  match accepted with
  | Fail e => (Fail e, l)
  | Ok socket =>
      match attach_handle socket kernel l with
      | Fail e => (Fail e, close_socket socket l)
      | Ok _ => (Ok socket, l)
      end
  end.

(** [EventLoop::connect] up to its suspension. *)
Definition call_connect (handle : Z) (address : bytes) (ext : Result unit) (bound : option Z)
    (o : OperationOptions) (coroutine now now' : Z) (kernel : option Z) (l : Iocp) : Call * Iocp :=
  if Z.of_nat (length address) <? sizeof_sockaddr then (answered (fail Errc.invalid_argument), l)
  else match rejected_before_submit o now with
       | Some e => (answered (Fail e), l)
       | None => while_open l (submit_connect handle ext bound o coroutine now' kernel l)
       end.

(** [EventLoop::receive_from] and [EventLoop::send_to] up to their suspension. *)
Definition call_datagram (handle : Z) (io : DatagramIo) (o : OperationOptions) (coroutine now : Z)
    (kernel : option Z) (l : Iocp) : Call * Iocp :=
  while_open l (submit_datagram handle io o coroutine now kernel l).

(** [EventLoop::sleep_until] *)
Definition call_sleep_until (wake_at : Z) (o : OperationOptions) (coroutine now : Z) (l : Iocp)
    : Call * Iocp :=
  while_open l (submit_timer wake_at o coroutine now l).

(** [EventLoop::sleep_for] *)
Definition call_sleep_for (delay : Z) (o : OperationOptions) (coroutine now now' : Z) (l : Iocp)
    : Call * Iocp :=
  call_sleep_until (now + delay) o coroutine now' l.

(** [EventLoop::yield]: a sleep that is due at once, and that cannot be refused
    before it is submitted. *)
Definition call_yield (coroutine now now' : Z) (l : Iocp) : Call * Iocp :=
  call_sleep_until now no_options coroutine now' l.
