(* ===== verification/IocpRun.v ===== *)
(** * IocpRun: the runs of the Windows event loop

    The loop's thread is in one of the phases of [run_once] or of [shutdown]; other
    threads are in the middle of [request_cancel], [post] or [stop].  A [Command]
    picks who moves next and what the kernel and the clock say; every critical
    section, atomic operation and system call that another thread can come between
    is a move of its own.  Coroutines call the loop when they are resumed, one at a
    time, and between iterations. *)

From stdpp Require Import gmap.
From S2P Require Import Prelude Errors Timers Iocp.

Local Open Scope Z_scope.

(** Where the loop's thread is.  [waiting] holds the milliseconds it may block;
    the lists are what a loop of [run_once] or [shutdown] has still to visit, and
    [resolved] what has been appended so far. *)
Inductive Phase :=
| idle
| waiting (ms : Z)
| reading (ps : list Packet) (resolved : list (OperationId * Result Z))
| expiring (ts : list TimerTarget) (cancels : list OperationId) (work : list IoWork)
    (resolved : list (OperationId * Result Z))
| cancelling (cancels : list OperationId) (work : list IoWork)
    (resolved : list (OperationId * Result Z))
| delivering (todo : list Delivery)
| closing
| aborting (o : Orphans)
| draining (o : Orphans) (n : nat)
| orphaning (todo : list (OperationId * Error))
| closed.

(** A resumption: the operation as it was taken out of the table, and the outcome
    it was resolved with. *)
Record Resumed := mk_resumed { r_id : OperationId; r_op : IoOp; r_outcome : Result Z }.

(** What a coroutine asks for, with what the system answers on the way. *)
Inductive IoRequest :=
| rq_read (handle size : Z)
| rq_write (handle size : Z)
| rq_writev (handle : Z) (pieces : list Z)
| rq_datagram (handle : Z) (io : DatagramIo)
| rq_accept (listener : Z) (ext : Result unit) (socket : Result Z)
| rq_connect (handle : Z) (address : bytes) (ext : Result unit) (bound : option Z)
| rq_sleep (wake_at : Z).

Definition request_wake_at (rq : IoRequest) : option Z :=
  match rq with rq_sleep t => Some t | _ => None end.

(** A suspension: the coroutine, what it asked for, and its options. *)
Record Issued := mk_issued {
  s_id : OperationId; s_coroutine : Z; s_request : IoRequest; s_options : OperationOptions }.

Definition s_wake_at (i : Issued) : option Z := request_wake_at (s_request i).

(** The loop, its thread, the other threads, and the history: resumptions,
    suspensions, work run, sockets given to callers, the packets dequeued, the
    cancellations asked for, the datagrams filled in, the clock, the operations whose
    handle was detached under them; [w_fault] is set when a freed operation is
    followed. *)
Record World := mk_world {
  w_loop : Iocp;
  w_phase : Phase;
  w_threads : list (list ThreadStep);
  w_log : list Resumed;
  w_issued : list Issued;
  w_ran : list IoWork;
  w_given : gset Z;
  w_packets : gmap Z Packet;
  w_asked : gset Z;
  w_filled : list (OperationId * Z * bytes);
  w_clock : Z;
  w_detached : gset Z;
  w_fault : bool;
}.

Definition set_w_loop (v : Iocp) (x : World) : World :=
  {| w_loop := v; w_phase := w_phase x; w_threads := w_threads x; w_log := w_log x; w_issued := w_issued x; w_ran := w_ran x; w_given := w_given x; w_packets := w_packets x; w_asked := w_asked x; w_filled := w_filled x; w_clock := w_clock x; w_detached := w_detached x; w_fault := w_fault x |}.
Definition set_w_phase (v : Phase) (x : World) : World :=
  {| w_loop := w_loop x; w_phase := v; w_threads := w_threads x; w_log := w_log x; w_issued := w_issued x; w_ran := w_ran x; w_given := w_given x; w_packets := w_packets x; w_asked := w_asked x; w_filled := w_filled x; w_clock := w_clock x; w_detached := w_detached x; w_fault := w_fault x |}.
Definition set_w_threads (v : list (list ThreadStep)) (x : World) : World :=
  {| w_loop := w_loop x; w_phase := w_phase x; w_threads := v; w_log := w_log x; w_issued := w_issued x; w_ran := w_ran x; w_given := w_given x; w_packets := w_packets x; w_asked := w_asked x; w_filled := w_filled x; w_clock := w_clock x; w_detached := w_detached x; w_fault := w_fault x |}.
Definition set_w_log (v : list Resumed) (x : World) : World :=
  {| w_loop := w_loop x; w_phase := w_phase x; w_threads := w_threads x; w_log := v; w_issued := w_issued x; w_ran := w_ran x; w_given := w_given x; w_packets := w_packets x; w_asked := w_asked x; w_filled := w_filled x; w_clock := w_clock x; w_detached := w_detached x; w_fault := w_fault x |}.
Definition set_w_issued (v : list Issued) (x : World) : World :=
  {| w_loop := w_loop x; w_phase := w_phase x; w_threads := w_threads x; w_log := w_log x; w_issued := v; w_ran := w_ran x; w_given := w_given x; w_packets := w_packets x; w_asked := w_asked x; w_filled := w_filled x; w_clock := w_clock x; w_detached := w_detached x; w_fault := w_fault x |}.
Definition set_w_ran (v : list IoWork) (x : World) : World :=
  {| w_loop := w_loop x; w_phase := w_phase x; w_threads := w_threads x; w_log := w_log x; w_issued := w_issued x; w_ran := v; w_given := w_given x; w_packets := w_packets x; w_asked := w_asked x; w_filled := w_filled x; w_clock := w_clock x; w_detached := w_detached x; w_fault := w_fault x |}.
Definition set_w_given (v : gset Z) (x : World) : World :=
  {| w_loop := w_loop x; w_phase := w_phase x; w_threads := w_threads x; w_log := w_log x; w_issued := w_issued x; w_ran := w_ran x; w_given := v; w_packets := w_packets x; w_asked := w_asked x; w_filled := w_filled x; w_clock := w_clock x; w_detached := w_detached x; w_fault := w_fault x |}.
Definition set_w_packets (v : gmap Z Packet) (x : World) : World :=
  {| w_loop := w_loop x; w_phase := w_phase x; w_threads := w_threads x; w_log := w_log x; w_issued := w_issued x; w_ran := w_ran x; w_given := w_given x; w_packets := v; w_asked := w_asked x; w_filled := w_filled x; w_clock := w_clock x; w_detached := w_detached x; w_fault := w_fault x |}.
Definition set_w_asked (v : gset Z) (x : World) : World :=
  {| w_loop := w_loop x; w_phase := w_phase x; w_threads := w_threads x; w_log := w_log x; w_issued := w_issued x; w_ran := w_ran x; w_given := w_given x; w_packets := w_packets x; w_asked := v; w_filled := w_filled x; w_clock := w_clock x; w_detached := w_detached x; w_fault := w_fault x |}.
Definition set_w_filled (v : list (OperationId * Z * bytes)) (x : World) : World :=
  {| w_loop := w_loop x; w_phase := w_phase x; w_threads := w_threads x; w_log := w_log x; w_issued := w_issued x; w_ran := w_ran x; w_given := w_given x; w_packets := w_packets x; w_asked := w_asked x; w_filled := v; w_clock := w_clock x; w_detached := w_detached x; w_fault := w_fault x |}.
Definition set_w_clock (v : Z) (x : World) : World :=
  {| w_loop := w_loop x; w_phase := w_phase x; w_threads := w_threads x; w_log := w_log x; w_issued := w_issued x; w_ran := w_ran x; w_given := w_given x; w_packets := w_packets x; w_asked := w_asked x; w_filled := w_filled x; w_clock := v; w_detached := w_detached x; w_fault := w_fault x |}.
Definition set_w_detached (v : gset Z) (x : World) : World :=
  {| w_loop := w_loop x; w_phase := w_phase x; w_threads := w_threads x; w_log := w_log x; w_issued := w_issued x; w_ran := w_ran x; w_given := w_given x; w_packets := w_packets x; w_asked := w_asked x; w_filled := w_filled x; w_clock := w_clock x; w_detached := v; w_fault := w_fault x |}.
Definition set_w_fault (v : bool) (x : World) : World :=
  {| w_loop := w_loop x; w_phase := w_phase x; w_threads := w_threads x; w_log := w_log x; w_issued := w_issued x; w_ran := w_ran x; w_given := w_given x; w_packets := w_packets x; w_asked := w_asked x; w_filled := w_filled x; w_clock := w_clock x; w_detached := w_detached x; w_fault := v |}.

(** ** Calls of coroutines *)

Definition io_call (rq : IoRequest) (o : OperationOptions) (coroutine now now' : Z)
    (kernel : option Z) (l : Iocp) : Call * Iocp :=
  match rq with
  | rq_read h n => call_read h n o coroutine now now' kernel l
  | rq_write h n => call_write h n o coroutine now now' kernel l
  | rq_writev h ps => call_writev h ps o coroutine now now' kernel l
  | rq_datagram h io => call_datagram h io o coroutine now' kernel l
  | rq_accept h ext s => call_accept h ext s o coroutine now now' kernel l
  | rq_connect h a ext b => call_connect h a ext b o coroutine now now' kernel l
  | rq_sleep t => call_sleep_until t o coroutine now' l
  end.

(** WSASocketW returns a handle that is not in use. *)
Definition fresh_socket (rq : IoRequest) (l : Iocp) : bool :=
  match rq with
  | rq_accept _ _ (Ok s) =>
      bool_decide (s ∉ sockets (io_port l)) && negb (s =? INVALID_SOCKET)
  | _ => true
  end.

(** The counters are 64 bits wide and never run out. *)
Definition io_room (l : Iocp) : bool :=
  (io_next_id l <? UINT64_MAX) && (serial_ (io_timers l) + 2 <=? UINT64_MAX).

(** The loop's thread is running a coroutine, or its owner's code. *)
Definition user_code (p : Phase) : bool :=
  match p with idle | delivering _ | orphaning _ | closed => true | _ => false end.

Definition issue (r : Call) (rq : IoRequest) (o : OperationOptions) (coroutine : Z) (w : World)
    : World :=
  match r with
  | answered _ => w
  | suspended id =>
      set_w_issued (w_issued w ++ [mk_issued id coroutine rq o]) w
  end.

(** ** Packets *)

Definition packet_id (pk : Packet) : option Z :=
  if pk_key pk =? kWakeupKey then None else pk_overlapped pk.

Definition packet_ids (ps : list Packet) : list Z := omap packet_id ps.

Definition wakes (ps : list Packet) : nat :=
  length (List.filter (fun pk => pk_key pk =? kWakeupKey) ps).

(** The kernel transfers no more than it was given room for. *)
Definition genuine (pk : Packet) (l : Iocp) : bool :=
  match packet_id pk ≫= (io_operations l !!.) with
  | Some op => (0 <=? pk_transferred pk) && (pk_transferred pk <=? buffers_length op)
  | None => true
  end.

(** A packet is a wake-up that was posted, or belongs to an operation whose packet
    has not been dequeued. *)
Definition packet_ok (l : Iocp) (pk : Packet) : bool :=
  genuine pk l &&
  if pk_key pk =? kWakeupKey then bool_decide (pk_overlapped pk = None)
  else match pk_overlapped pk with
       | Some id => bool_decide (id ∈ owed (io_port l))
       | None => false
       end.

Definition packets_ok (ps : list Packet) (l : Iocp) : bool :=
  forallb (packet_ok l) ps && bool_decide (NoDup (packet_ids ps)) &&
  (wakes ps <=? nudges (io_port l))%nat && (length ps <=? kEventBatch)%nat.

(** The packets leave the port. *)
Definition dequeue (ps : list Packet) (l : Iocp) : Iocp :=
  set_io_port (set_owed (owed (io_port l) ∖ list_to_set (packet_ids ps))
                 (set_nudges (nudges (io_port l) - wakes ps)%nat (io_port l))) l.

Definition record_packet (m : gmap Z Packet) (pk : Packet) : gmap Z Packet :=
  match packet_id pk with Some id => <[id := pk]> m | None => m end.

Definition take_packets (ps : list Packet) (w : World) : World :=
  set_w_packets (foldl record_packet (w_packets w) ps) (set_w_loop (dequeue ps (w_loop w)) w).

(** ** The loop's thread *)

Definition given_socket (op : IoOp) (outcome : Result Z) : gset Z :=
  match io_kind op, outcome with IoKind.accept, Ok s => {[s]} | _, _ => ∅ end.

(** [finalize] and the resumption. *)
Definition resume (id : OperationId) (outcome : Result Z) (w : World) : World :=
  match finalize_op id outcome (w_loop w) with
  | (None, l) => set_w_loop l w
  | (Some (op, _), l) =>
      set_w_given (given_socket op outcome ∪ w_given w)
        (set_w_log (w_log w ++ [mk_resumed id op outcome]) (set_w_loop l w))
  end.

Definition apply_effect (id : option Z) (e : Effect) (w : World) : World :=
  match e, id with
  | filled n a, Some id => set_w_filled (w_filled w ++ [(id, n, a)]) w
  | updated s, _ =>
      let l := w_loop w in
      set_w_loop (set_io_port (set_contexts ({[s]} ∪ contexts (io_port l)) (io_port l)) l) w
  | _, _ => w
  end.

Definition in_phase (p : Phase) (w : World) : World := set_w_phase p w.

(** The next move of the loop's thread inside [run_once] or [shutdown], where it
    does not wait for the kernel; [now] is the clock where the move reads it. *)
Definition advance (now : Z) (w : World) : option World :=
  let l := w_loop w in
  match w_phase w with
  | reading (pk :: ps) resolved =>
      Some match read_packet pk l with
           | None => set_w_fault true (in_phase (reading ps resolved) w)
           | Some (r, e) => in_phase (reading ps (resolved ++ r)) (apply_effect (packet_id pk) e w)
           end
  | reading [] resolved =>
      if w_clock w <=? now then
        let '(expired, cancels, work, l) := drain_queues now l in
        Some (in_phase (expiring expired cancels work resolved) (set_w_clock now (set_w_loop l w)))
      else None
  | expiring (t :: ts) cancels work resolved =>
      let '(r, l) := expire_target t l in
      Some (in_phase (expiring ts cancels work (resolved ++ r)) (set_w_loop l w))
  | expiring [] cancels work resolved => Some (in_phase (cancelling cancels work resolved) w)
  | cancelling (id :: cancels) work resolved =>
      Some (in_phase (cancelling cancels work (resolved ++ resolve_cancel id l)) w)
  | cancelling [] work resolved => Some (in_phase (delivering (deliveries resolved work)) w)
  | delivering (deliver id outcome :: todo) => Some (resume id outcome (in_phase (delivering todo) w))
  | delivering (run_work x :: todo) =>
      Some (set_w_ran (w_ran w ++ [x]) (in_phase (delivering todo) w))
  | delivering [] => Some (in_phase idle w)
  | closing => let '(o, l) := shutdown_collect l in Some (in_phase (aborting o) (set_w_loop l w))
  | aborting (mk_orphans os ((socket, id) :: rest) n) =>
      Some (in_phase (aborting (mk_orphans os rest n)) (set_w_loop (cancel_io_ex socket (Some id) l) w))
  | aborting (mk_orphans os [] n) => Some (in_phase (draining (mk_orphans os [] n) n) w)
  | draining o O => Some (in_phase (orphaning (orphans o)) w)
  | orphaning ((id, reason) :: todo) => Some (resume id (Fail reason) (in_phase (orphaning todo) w))
  | orphaning [] => Some (in_phase closed (set_w_loop (shutdown_end l) w))
  | idle | waiting _ | draining _ (S _) | closed => None
  end.

(** ** Moves *)

Inductive Command :=
| c_call (rq : IoRequest) (o : OperationOptions) (coroutine now now' : Z) (kernel : option Z)
| c_detach (handle : Z)
| c_close (socket : Z)
| c_cancel (id : OperationId)
| c_post (x : IoWork)
| c_stop
| c_thread (i : nat)
| c_run_once (timeout : option Z) (now : Z)
| c_dequeue (ps : list Packet)
| c_dequeue_fails
| c_advance (now : Z)
| c_shutdown
| c_drain (pk : Packet).

(** The operations in flight on a handle. *)
Definition on_handle (handle : Z) (l : Iocp) : gset Z :=
  dom (filter (fun e => io_socket e.2 = handle) (io_operations l)).

Definition start_thread (rest : list ThreadStep) (l : Iocp) (w : World) : World :=
  set_w_threads (w_threads w ++ [rest]) (set_w_loop l w).

(** [None]: the move is not possible.  [run_once] or [shutdown] from inside an
    iteration ends the process and has no successor either. *)
Definition exec (c : Command) (w : World) : option World :=
  let l := w_loop w in
  match c with
  | c_call rq o coroutine now now' kernel =>
      if user_code (w_phase w) && io_room l && (w_clock w <=? now) && (now <=? now') &&
         fresh_socket rq l
      then
        let '(r, l) := io_call rq o coroutine now now' kernel l in
        Some (issue r rq o coroutine (set_w_clock now' (set_w_loop l w)))
      else None
  | c_detach handle =>
      if user_code (w_phase w)
      then Some (set_w_detached (on_handle handle l ∪ w_detached w) (set_w_loop (detach_handle handle l) w))
      else None
  | c_close socket =>
      if user_code (w_phase w) && bool_decide (socket ∈ w_given w)
      then Some (set_w_given (w_given w ∖ {[socket]}) (set_w_loop (close_socket socket l) w))
      else None
  | c_cancel id =>
      if (id <=? io_next_id l) then
        let '(rest, l) := request_cancel id l in
        Some (set_w_asked ({[id]} ∪ w_asked w) (start_thread rest l w))
      else None
  | c_post x => let '(_, rest, l) := post_work x l in Some (start_thread rest l w)
  | c_stop => let '(rest, l) := stop_loop l in Some (start_thread rest l w)
  | c_thread i =>
      match w_threads w !! i with
      | Some (t :: rest) =>
          let '(more, l) := thread_step t l in
          Some (set_w_threads (<[i := more ++ rest]> (w_threads w)) (set_w_loop l w))
      | _ => None
      end
  | c_run_once timeout now =>
      match w_phase w with
      | idle =>
          if (w_clock w <=? now) && negb (io_shutting_down l)
          then Some (in_phase (waiting (wait_ms timeout now l)) (set_w_clock now w)) else None
      | closed => Some w
      | _ => None
      end
  | c_dequeue ps =>
      match w_phase w with
      | waiting ms =>
          if packets_ok ps l && ((0 <=? ms) || negb (length ps =? 0)%nat)
          then Some (in_phase (reading ps []) (take_packets ps w)) else None
      | _ => None
      end
  | c_dequeue_fails =>
      match w_phase w with waiting _ => Some (in_phase idle w) | _ => None end
  | c_advance now => advance now w
  | c_shutdown =>
      if io_shutting_down l then Some w
      else match w_phase w with
           | idle => Some (in_phase closing (set_w_loop (shutdown_begin l) w))
           | _ => None
           end
  | c_drain pk =>
      match w_phase w with
      | draining o (S n) =>
          if packets_ok [pk] l
          then Some (in_phase (draining o (drain_packet pk (S n))) (take_packets [pk] w)) else None
      | _ => None
      end
  end.

Definition new_world : World :=
  mk_world new_iocp idle [] [] [] [] ∅ ∅ ∅ [] 0 ∅ false.

Definition step (w w' : World) : Prop := exists c, exec c w = Some w'.

Definition reachable (w : World) : Prop := rtc step new_world w.

(** A run given by its moves. *)
Fixpoint script (cs : list Command) (w : World) : option World :=
  match cs with
  | [] => Some w
  | c :: cs => exec c w ≫= script cs
  end.

Lemma io_script_steps cs w w' : script cs w = Some w' -> rtc step w w'.
Proof.
  revert w; induction cs as [|c cs IH]; intros w; simpl; [by intros [= ->]|].
  destruct (exec c w) as [w1|] eqn:E; [|done]. simpl. intros Hs.
  eapply rtc_l; [by exists c|by apply IH].
Qed.
