(* ===== verification/IocpCalls.v ===== *)
(** * IocpCalls: what a call of the Windows loop does

    Every call of the completion API is answered, leaving the table of operations,
    the timers and the kernel as they were, or suspends its coroutine on a new
    operation that the kernel or the timers will resolve. *)

From stdpp Require Import gmap.
From S2P Require Import Prelude Errors Timers Iocp IocpRun.

Local Open Scope Z_scope.

(** ** Submitting *)

(** The two timers of an operation: its wake-up and its deadline. *)
Definition io_timer (dl : bool) (op : IoOp) : TimerHandle :=
  if dl then io_deadline op else io_wake op.

(** A timer that was asked for at [t], registered between two states of the queue. *)
Definition timer_made (t : option Z) (h : TimerHandle) (q q' : TimerQueue) : Prop :=
  match t with
  | Some t => handle_valid h = true /\ th_deadline h = t /\ serial_ q < th_serial h <= serial_ q'
  | None => h = no_timer
  end.

Lemma maybe_add (t : option Z) target q q' h :
  timers_wf q -> serial_ q < UINT64_MAX ->
  match t with Some d => timer_add d target q | None => (q, no_timer) end = (q', h) ->
  timers_wf q' /\ timer_made t h q q' /\ serial_ q <= serial_ q' <= serial_ q + 1 /\
  forall e, e ∈ timers_ q' <-> e ∈ timers_ q \/ (is_Some t /\ e = (key_of h, target)).
Proof.
  intros Hq Hr Ha. destruct t as [d|].
  - pose proof (timer_add_spec d target q Hq Hr) as Hs.
    destruct (timer_add_elem _ _ _ _ _ Hq Hr Ha) as (Hq' & Hv & Hs1 & Hs2 & He).
    rewrite Ha in Hs. destruct Hs as (_ & _ & Hd & _).
    split_and!; [done|split_and!; [done|done|lia|lia]|lia|lia|].
    intros e. rewrite He. naive_solver.
  - injection Ha as <- <-. split_and!; [done|done|lia|lia|]. intros e.
    split; [by left|]. by intros [?|[[? ?] _]].
Qed.

Definition wanted (t : option Z) (h : TimerHandle) (target : TimerTarget) (e : Key * TimerTarget)
    : Prop := is_Some t /\ e = (key_of h, target).

(** The loop after [acquire_operation], with the timers [q]. *)
Definition with_acquired (kind : IoKind.t) (coroutine : Z) (id : OperationId) (hw hd : TimerHandle)
    (q : TimerQueue) (l : Iocp) : Iocp :=
  set_io_timers q
    (set_io_operations (<[id := new_io_op kind coroutine hw hd]> (io_operations l))
       (set_io_next_id id l)).

(** The timers [acquire_operation] registers. *)
Record acquired (wake_at deadline : option Z) (l : Iocp) (q : TimerQueue)
    (id : OperationId) (hw hd : TimerHandle) : Prop := {
  aq_id : id = io_next_id l + 1;
  aq_wf : timers_wf q;
  aq_wake : timer_made wake_at hw (io_timers l) q;
  aq_deadline : timer_made deadline hd (io_timers l) q;
  aq_distinct : th_serial hw = th_serial hd -> hw = no_timer /\ hd = no_timer;
  aq_serial : serial_ (io_timers l) <= serial_ q;
  aq_elem : forall e, e ∈ timers_ q <->
    e ∈ timers_ (io_timers l) \/ wanted wake_at hw (mk_target id false) e \/
    wanted deadline hd (mk_target id true) e;
}.

Arguments aq_id {_ _ _ _ _ _ _}.
Arguments aq_wf {_ _ _ _ _ _ _}.
Arguments aq_wake {_ _ _ _ _ _ _}.
Arguments aq_deadline {_ _ _ _ _ _ _}.
Arguments aq_distinct {_ _ _ _ _ _ _}.
Arguments aq_serial {_ _ _ _ _ _ _}.
Arguments aq_elem {_ _ _ _ _ _ _}.

Lemma io_room_spec l :
  io_room l = true -> io_next_id l < UINT64_MAX /\ serial_ (io_timers l) + 2 <= UINT64_MAX.
Proof. unfold io_room. rewrite andb_true_iff, Z.ltb_lt, Z.leb_le. done. Qed.

Lemma acquire_op_spec kind coroutine wake_at o l id l' :
  0 <= io_next_id l -> timers_wf (io_timers l) -> io_room l = true ->
  acquire_operation kind coroutine wake_at o l = (id, l') ->
  exists hw hd q, l' = with_acquired kind coroutine id hw hd q l /\
    acquired wake_at (opt_deadline o) l q id hw hd.
Proof.
  intros Hn Hq [Hr1 Hr2]%io_room_spec. unfold acquire_operation.
  assert (wrap64 (io_next_id l + 1) = io_next_id l + 1) as ->.
  { unfold wrap64, UINT64_MAX in *. apply Z.mod_small. lia. }
  destruct (match wake_at with Some _ => _ | None => _ end) as [q1 hw] eqn:Ew.
  destruct (match opt_deadline o with Some _ => _ | None => _ end) as [q2 hd] eqn:Ed.
  intros [= <- <-]. exists hw, hd, q2. split; [done|].
  destruct (maybe_add _ _ _ _ _ Hq ltac:(lia) Ew) as (Hq1 & Hw & Hs1 & He1).
  destruct (maybe_add _ _ _ _ _ Hq1 ltac:(lia) Ed) as (Hq2 & Hd & Hs2 & He2).
  pose proof (wf_serial _ Hq).
  constructor; simpl; try done; [| |..].
  - destruct wake_at; simpl in *; [|done]. destruct Hw as (? & ? & ?). split_and!; try done; lia.
  - destruct (opt_deadline o); simpl in *; [|done]. destruct Hd as (? & ? & ?). split_and!; try done; lia.
  - destruct wake_at, (opt_deadline o); simpl in *; subst; try done;
      destruct_and?; intros; simpl in *; try lia.
  - lia.
  - intros e. rewrite He2, He1. unfold wanted. tauto.
Qed.

(** What other threads see of the loop. *)
Definition queues (l : Iocp) : list IoWork * list OperationId * bool * bool :=
  (io_posted l, io_cancels l, io_stop l, io_shutting_down l).

Definition wake_state (l : Iocp) : bool * nat := (io_wake_pending l, nudges (io_port l)).

(** A call that was answered: at most an id and two serials have been used up. *)
Record refusal (l l' : Iocp) : Prop := {
  rf_ops : io_operations l' = io_operations l;
  rf_port : io_port l' = io_port l;
  rf_elem : forall e, e ∈ timers_ (io_timers l') <-> e ∈ timers_ (io_timers l);
  rf_wf : timers_wf (io_timers l');
  rf_serial : serial_ (io_timers l) <= serial_ (io_timers l');
  rf_next : io_next_id l <= io_next_id l';
  rf_queues : queues l' = queues l;
  rf_wake : io_wake_pending l' = io_wake_pending l;
}.

Definition request_kind (rq : IoRequest) : IoKind.t :=
  match rq with
  | rq_read _ _ => IoKind.read
  | rq_write _ _ | rq_writev _ _ => IoKind.write
  | rq_datagram _ io => datagram_kind io
  | rq_accept _ _ _ => IoKind.accept
  | rq_connect _ _ _ _ => IoKind.connect
  | rq_sleep _ => IoKind.timer
  end.

(** The operation a request is submitted as. *)
Definition request_op (rq : IoRequest) (op : IoOp) : Prop :=
  io_kind op = request_kind rq /\
  match rq with
  | rq_read h n | rq_write h n => io_socket op = h /\ io_buffers op = [wrap32 n]
  | rq_writev h ps => io_socket op = h /\ io_buffers op = scatter_of ps
  | rq_datagram h io =>
      io_socket op = h /\ io_buffers op = [datagram_length io] /\ io_capacity op = datagram_size io /\
      datagram_size io <= ULONG_MAX
  | rq_accept h _ s => io_socket op = h /\ s = Ok (io_accepted op) /\ io_buffers op = []
  | rq_connect h _ _ _ => io_socket op = h /\ io_buffers op = []
  | rq_sleep _ => True
  end.

Definition request_socket (rq : IoRequest) : gset Z :=
  match rq with rq_accept _ _ (Ok s) => {[s]} | _ => ∅ end.

(** A call that suspended its coroutine. *)
Record submission (rq : IoRequest) (o : OperationOptions) (coroutine : Z) (l l' : Iocp)
    (id : OperationId) (op : IoOp) : Prop := {
  sb_open : io_shutting_down l = false;
  sb_id : id = io_next_id l + 1;
  sb_next : io_next_id l' = id;
  sb_ops : io_operations l' = <[id := op]> (io_operations l);
  sb_handle : io_handle op = coroutine;
  sb_request : request_op rq op;
  sb_new : io_reason op = None /\ io_closed op = false;
  sb_owed : owed (io_port l') = if kernel_backed op then {[id]} ∪ owed (io_port l)
                                else owed (io_port l);
  sb_sockets : sockets (io_port l') = request_socket rq ∪ sockets (io_port l);
  sb_open_port : port_open (io_port l') = port_open (io_port l);
  sb_wf : timers_wf (io_timers l');
  sb_wake : timer_made (request_wake_at rq) (io_wake op) (io_timers l) (io_timers l');
  sb_deadline : timer_made (opt_deadline o) (io_deadline op) (io_timers l) (io_timers l');
  sb_distinct : th_serial (io_wake op) = th_serial (io_deadline op) ->
    io_wake op = no_timer /\ io_deadline op = no_timer;
  sb_serial : serial_ (io_timers l) <= serial_ (io_timers l');
  sb_elem : forall e, e ∈ timers_ (io_timers l') <->
    e ∈ timers_ (io_timers l) \/ wanted (request_wake_at rq) (io_wake op) (mk_target id false) e \/
    wanted (opt_deadline o) (io_deadline op) (mk_target id true) e;
  sb_queues : queues l' = queues l;
  sb_wakes : wake_state l' = wake_state l \/
    (io_wake_pending l = false /\ io_wake_pending l' = true /\
     (port_open (io_port l) = true -> nudges (io_port l') = S (nudges (io_port l))));
}.

(** Fields [acquire_operation] sets and the submissions leave alone. *)
Definition keeps_frame (f : IoOp -> IoOp) : Prop :=
  forall op, io_kind (f op) = io_kind op /\ io_handle (f op) = io_handle op /\
    io_reason (f op) = io_reason op /\ io_closed (f op) = io_closed op /\
    io_wake (f op) = io_wake op /\ io_deadline (f op) = io_deadline op.

(** A timer that was just made is the only entry under its key. *)
Lemma made_fresh t h q q' e :
  timers_wf q -> timer_made t h q q' -> handle_valid h = true -> e ∈ timers_ q -> e.1 <> key_of h.
Proof.
  intros Hq Hm Hv He. destruct t as [t|]; simpl in Hm; [|by subst].
  destruct Hm as (_ & _ & Hs). pose proof (wf_serials _ Hq) as Hf. rewrite Forall_forall in Hf.
  specialize (Hf _ He). destruct e as [[d s] tt]. simpl in *. unfold key_of.
  intros [= _ ->]. lia.
Qed.

Lemma update_op_new id f l l' op :
  io_operations l' = <[id := op]> (io_operations l) ->
  io_operations (update_op id f l') = <[id := f op]> (io_operations l).
Proof. intros E. simpl. rewrite E. apply alter_insert_eq. Qed.

(** A submission the kernel turned down leaves nothing behind. *)
Lemma discard_acquired kind coroutine wake_at deadline l q id hw hd f :
  acquired wake_at deadline l q id hw hd -> keeps_frame f ->
  io_operations l !! id = None -> timers_wf (io_timers l) ->
  refusal l (discard_op id (update_op id f (with_acquired kind coroutine id hw hd q l))).
Proof.
  intros A Hf Hnone Hq.
  destruct (Hf (new_io_op kind coroutine hw hd)) as (_ & _ & _ & _ & Fw & Fd). simpl in Fw, Fd.
  unfold discard_op, take_op. rewrite (update_op_new id f l _ (new_io_op kind coroutine hw hd)) by done.
  rewrite lookup_insert_eq. simpl. rewrite Fw, Fd.
  constructor; simpl; try done.
  - by rewrite delete_insert_eq, delete_id.
  - intros e. rewrite !timer_cancel_elem, (aq_elem A). split.
    + intros [[[He|[[[t Et] ->]|[[t Et] ->]]] H1] H2]; [done|..].
      * destruct H1; [|done]. pose proof (aq_wake A) as Hm. rewrite Et in Hm. apply Hm.
      * destruct H2; [|done]. pose proof (aq_deadline A) as Hm. rewrite Et in Hm. apply Hm.
    + intros He. split_and!; [by left| |].
      * intros Hv. eapply made_fresh; [exact Hq|apply (aq_wake A)|done|done].
      * intros Hv. eapply made_fresh; [exact Hq|apply (aq_deadline A)|done|done].
  - apply timer_cancel_wf, timer_cancel_wf, (aq_wf A).
  - rewrite !timer_cancel_serial. apply (aq_serial A).
  - rewrite (aq_id A). lia.
Qed.

(** An id that has not been handed out is not in the table. *)
Definition ids_ok (l : Iocp) : Prop :=
  0 <= io_next_id l /\ forall id op, io_operations l !! id = Some op -> 0 < id <= io_next_id l.

Lemma next_fresh l : ids_ok l -> io_operations l !! (io_next_id l + 1) = None.
Proof.
  intros [_ Hi]. destruct (io_operations l !! _) as [op|] eqn:E; [|done].
  specialize (Hi _ _ E). lia.
Qed.

(** Whatever the outcome of a call, the loop it started from was ready for it. *)
Record ready (l : Iocp) : Prop := {
  rd_ids : ids_ok l;
  rd_wf : timers_wf (io_timers l);
  rd_room : io_room l = true;
}.

Definition call_spec (rq : IoRequest) (o : OperationOptions) (coroutine : Z) (l : Iocp)
    (out : Call * Iocp) : Prop :=
  match out with
  | (answered _, l') => refusal l l'
  | (suspended id, l') => exists op, submission rq o coroutine l l' id op
  end.

Lemma refusal_refl l : timers_wf (io_timers l) -> refusal l l.
Proof. intros. by constructor. Qed.

(** The operation the kernel took. *)
Lemma owe_acquired rq o coroutine l q id hw hd f :
  acquired (request_wake_at rq) (opt_deadline o) l q id hw hd ->
  keeps_frame f -> io_shutting_down l = false -> request_kind rq <> IoKind.timer ->
  request_socket rq = ∅ -> request_op rq (f (new_io_op (request_kind rq) coroutine hw hd)) ->
  exists op, submission rq o coroutine l
    (owe id (update_op id f (with_acquired (request_kind rq) coroutine id hw hd q l))) id op.
Proof.
  intros A Hf Hopen Hk Hs Hacc. exists (f (new_io_op (request_kind rq) coroutine hw hd)).
  destruct (Hf (new_io_op (request_kind rq) coroutine hw hd)) as (Fk & Fh & Fr & Fc & Fw & Fd).
  simpl in *.
  assert (kernel_backed (f (new_io_op (request_kind rq) coroutine hw hd)) = true) as Hb.
  { unfold kernel_backed. rewrite Fk, bool_decide_false by done. done. }
  constructor; rewrite ?Fk, ?Fh, ?Fr, ?Fc, ?Fw, ?Fd, ?Hb; try done; try apply A.
  - by apply update_op_new.
  - rewrite Hs. simpl. by rewrite union_empty_l_L.
  - by left.
Qed.

Lemma launch_spec rq o coroutine l f kernel (err : Z -> Error) :
  ready l -> io_shutting_down l = false -> request_kind rq <> IoKind.timer ->
  request_wake_at rq = None -> request_socket rq = ∅ ->
  (forall hw hd, request_op rq (f (new_io_op (request_kind rq) coroutine hw hd))) -> keeps_frame f ->
  call_spec rq o coroutine l (await_operation
    (let '(id, l) := acquire_operation (request_kind rq) coroutine None o l in
     match kernel with
     | None => (Ok id, owe id (update_op id f l))
     | Some code => (Fail (err code), discard_op id (update_op id f l))
     end)).
Proof.
  intros [Hids Hwf Hroom] Hopen Hk Hw Hs Hacc Hf.
  destruct (acquire_operation _ _ _ _ l) as [id l1] eqn:Ea.
  destruct (acquire_op_spec _ _ _ _ _ _ _ (proj1 Hids) Hwf Hroom Ea) as (hw & hd & q & -> & A).
  destruct kernel as [code|]; simpl.
  - eapply discard_acquired; try done. rewrite (aq_id A). by apply next_fresh.
  - rewrite <- Hw in A. by apply owe_acquired.
Qed.

Lemma close_fresh s (X : gset Z) : s ∉ X -> ({[s]} ∪ X) ∖ {[s]} = X.
Proof. set_solver. Qed.

Lemma set_sockets_same p X Y : X = sockets p -> set_sockets X (set_sockets Y p) = p.
Proof. intros ->. by destruct p. Qed.

Lemma accept_spec listener ext socket o coroutine now now' kernel l :
  ready l -> fresh_socket (rq_accept listener ext socket) l = true ->
  call_spec (rq_accept listener ext socket) o coroutine l
    (call_accept listener ext socket o coroutine now now' kernel l).
Proof.
  intros [Hids Hwf Hroom] Hfs. unfold call_accept, while_open.
  destruct (rejected_before_submit o now); [by apply refusal_refl|].
  destruct (io_shutting_down l) eqn:Hopen; [by apply refusal_refl|].
  unfold submit_accept, refused. rewrite Hopen.
  destruct (rejected_before_submit o now'); [by apply refusal_refl|].
  destruct (if io_accept_ex l then _ else ext) as [_|]; [|by apply refusal_refl].
  destruct socket as [s|e]; [|by constructor].
  simpl in Hfs. apply andb_true_iff in Hfs as [Hfs _]. apply bool_decide_eq_true in Hfs.
  set (l0 := set_io_port _ _). destruct (acquire_operation _ _ _ _ l0) as [id l1] eqn:Ea.
  destruct (acquire_op_spec IoKind.accept coroutine None o l0 id l1) as (hw & hd & q & -> & A); try done;
    [apply Hids|]. simpl in A.
  destruct kernel as [code|]; simpl.
  - set (f := fun op => with_io_accepted s (with_io_socket listener op)).
    assert (refusal l0 (discard_op id (update_op id f
      (with_acquired IoKind.accept coroutine id hw hd q l0)))) as R.
    { eapply discard_acquired; try done. rewrite (aq_id A). by apply (next_fresh l). }
    assert (discard_op id (close_socket s (update_op id f
              (with_acquired IoKind.accept coroutine id hw hd q l0))) =
            close_socket s (discard_op id (update_op id f
              (with_acquired IoKind.accept coroutine id hw hd q l0)))) as ->.
    { unfold discard_op, take_op. simpl. by destruct (alter f id _ !! id). }
    constructor; try apply R. simpl. rewrite (rf_port _ _ R). simpl.
    apply set_sockets_same. by apply close_fresh.
  - exists (with_io_accepted s (with_io_socket listener (new_io_op IoKind.accept coroutine hw hd))).
    constructor; try done; try apply A; [|by left].
    by apply (update_op_new id (fun op => with_io_accepted s (with_io_socket listener op)) l0 _
      (new_io_op IoKind.accept coroutine hw hd)).
Qed.

Lemma wake_frame l :
  io_operations (wake l) = io_operations l /\ io_timers (wake l) = io_timers l /\
  io_next_id (wake l) = io_next_id l /\ queues (wake l) = queues l /\
  owed (io_port (wake l)) = owed (io_port l) /\ sockets (io_port (wake l)) = sockets (io_port l) /\
  port_open (io_port (wake l)) = port_open (io_port l).
Proof.
  unfold wake, wake_begin. destruct (io_wake_pending l); [done|]. unfold nudge. simpl.
  by destruct (port_open (io_port l)) eqn:E; simpl; rewrite ?E.
Qed.

Lemma wake_woken l :
  wake_state (wake l) = wake_state l \/
  (io_wake_pending l = false /\ io_wake_pending (wake l) = true /\
   (port_open (io_port l) = true -> nudges (io_port (wake l)) = S (nudges (io_port l)))).
Proof.
  unfold wake, wake_begin, nudge. destruct (io_wake_pending l) eqn:E; simpl; [by left|right].
  by destruct (port_open (io_port l)).
Qed.

Lemma sleep_spec wake_at o coroutine now l :
  ready l -> call_spec (rq_sleep wake_at) o coroutine l (call_sleep_until wake_at o coroutine now l).
Proof.
  intros [Hids Hwf Hroom]. unfold call_sleep_until, while_open.
  destruct (io_shutting_down l) eqn:Hopen; [by apply refusal_refl|].
  unfold submit_timer, refused. rewrite Hopen.
  destruct (rejected_before_submit o now); [by apply refusal_refl|].
  destruct (acquire_operation _ _ _ _ l) as [id l1] eqn:Ea.
  destruct (acquire_op_spec _ _ _ _ _ _ _ (proj1 Hids) Hwf Hroom Ea) as (hw & hd & q & -> & A).
  simpl. exists (new_io_op IoKind.timer coroutine hw hd).
  destruct (wake_frame (with_acquired IoKind.timer coroutine id hw hd q l))
    as (W1 & W2 & W3 & W4 & W5 & W6 & W7).
  constructor; rewrite ?W1, ?W2, ?W3, ?W4, ?W5, ?W6, ?W7; try done; try apply A.
  - simpl. by rewrite union_empty_l_L.
  - apply (wake_woken (with_acquired IoKind.timer coroutine id hw hd q l)).
Qed.

(** The cached extension pointer is of no consequence. *)
Lemma connect_ex_spec rq o coroutine b l out :
  call_spec rq o coroutine (set_io_connect_ex b l) out -> call_spec rq o coroutine l out.
Proof.
  destruct out as [[r|id] l']; simpl.
  - intros R. constructor; apply R.
  - intros [op S]. exists op. constructor; apply S.
Qed.

Ltac refuse_or_go :=
  repeat match goal with
  | |- call_spec _ _ _ ?l (answered _, ?l) => apply refusal_refl; assumption
  | |- context [match rejected_before_submit ?o ?n with _ => _ end] =>
      destruct (rejected_before_submit o n)
  | |- context [if ?b then (answered _, _) else _] => destruct b eqn:?
  | |- call_spec _ _ _ ?l (await_operation (Fail _, ?l)) => apply refusal_refl; assumption
  end.

(** ** Every call, answered or suspended *)
Lemma io_call_spec rq o coroutine now now' kernel l :
  ready l -> fresh_socket rq l = true ->
  call_spec rq o coroutine l (io_call rq o coroutine now now' kernel l).
Proof.
  intros Hrd Hfs. pose proof (rd_wf _ Hrd) as Hwf.
  destruct rq as [h n|h n|h ps|h io|h ext s|h a ext b|t]; simpl;
    [| | | |by apply accept_spec| |by apply sleep_spec].
  - unfold call_read, while_open, submit_read, refused, launch. refuse_or_go.
    by apply (launch_spec (rq_read h n)).
  - unfold call_write, while_open, submit_write, refused, launch. refuse_or_go.
    by apply (launch_spec (rq_write h n)).
  - unfold call_writev, while_open, submit_writev, refused, launch. refuse_or_go.
    destruct (scatter_total ps =? 0); simpl; [by apply refusal_refl|].
    by apply (launch_spec (rq_writev h ps)).
  - unfold call_datagram, while_open, submit_datagram, refused. refuse_or_go.
    destruct (ULONG_MAX <? _) eqn:Hsize; [by apply refusal_refl|]. apply Z.ltb_ge in Hsize.
    destruct (_ || _); [by apply refusal_refl|].
    destruct (same_in_flight _ _ _); [by apply refusal_refl|].
    apply (launch_spec (rq_datagram h io) o coroutine l (datagram_fields h io) kernel
      (fun code => if code =? WSAEMSGSIZE then win_message_size else winsock_error code)); try done;
      by destruct io.
  - unfold call_connect, while_open, submit_connect, refused, launch. refuse_or_go.
    destruct (if io_connect_ex l then _ else ext) as [_|]; [|by apply refusal_refl].
    assert (ready (set_io_connect_ex true l)) by (destruct Hrd; by constructor).
    apply (connect_ex_spec _ _ _ true). destruct b as [code|]; [destruct (negb _)|].
    + by apply refusal_refl.
    + by apply (launch_spec (rq_connect h a ext (Some code))).
    + by apply (launch_spec (rq_connect h a ext None)).
Qed.
