(* ===== verification/IocpInv.v ===== *)
(** * IocpInv: the kernel never writes into a freed operation

    The invariant of the Windows loop's runs: the operations the kernel has not
    finished with are in the table, and only those it has finished with are on
    their way to being resumed. *)

From stdpp Require Import gmap.
From S2P Require Import Prelude Errors Timers Iocp IocpRun IocpCalls.

Local Open Scope Z_scope.

(** ** The invariant *)

(** Nothing but a timer can be called [id], now or later. *)
Definition timer_only (l : Iocp) (id : OperationId) : Prop :=
  id <= io_next_id l /\ forall op, io_operations l !! id = Some op -> io_kind op = IoKind.timer.

(** The kernel has no packet for [id], now or later. *)
Definition let_go (l : Iocp) (id : OperationId) : Prop :=
  id <= io_next_id l /\ id ∉ owed (io_port l).

Definition delivered (d : Delivery) : option OperationId :=
  match d with deliver id _ => Some id | run_work _ => None end.

(** The operations whose packet has been dequeued and that are on their way to
    being resumed. *)
Definition hand (p : Phase) : list OperationId :=
  match p with
  | reading ps resolved => packet_ids ps ++ resolved.*1
  | expiring _ _ _ resolved | cancelling _ _ resolved => resolved.*1
  | delivering todo => omap delivered todo
  | draining o _ => (orphans o).*1
  | orphaning todo => todo.*1
  | idle | waiting _ | closing | aborting _ | closed => []
  end.

Definition covers (ids : list OperationId) (l : Iocp) : Prop :=
  forall id op, io_operations l !! id = Some op -> id ∈ ids.

Definition phase_ok (l : Iocp) (p : Phase) : Prop :=
  match p with
  | idle | waiting _ | closing => True
  | reading ps resolved =>
      Forall (fun id => is_Some (io_operations l !! id) /\ let_go l id) (packet_ids ps) /\
      Forall (let_go l) resolved.*1
  | expiring ts cancels _ resolved =>
      Forall (fun t => is_deadline t = false -> timer_only l (operation t)) ts /\
      Forall (timer_only l) cancels /\ Forall (let_go l) resolved.*1
  | cancelling cancels _ resolved => Forall (timer_only l) cancels /\ Forall (let_go l) resolved.*1
  | delivering todo => Forall (let_go l) (omap delivered todo)
  | aborting o => covers (orphans o).*1 l /\ backed o = size (owed (io_port l))
  | draining o n => covers (orphans o).*1 l /\ n = size (owed (io_port l))
  | orphaning todo => owed (io_port l) = ∅ /\ covers todo.*1 l
  | closed => owed (io_port l) = ∅ /\ io_operations l = ∅
  end.

Definition shut_phase (p : Phase) : bool :=
  match p with closing | aborting _ | draining _ _ | orphaning _ | closed => true | _ => false end.

Record io_inv (w : World) : Prop := {
  iv_ids : ids_ok (w_loop w);
  iv_wf : timers_wf (io_timers (w_loop w));
  iv_owed : forall id, id ∈ owed (io_port (w_loop w)) ->
    exists op, io_operations (w_loop w) !! id = Some op /\ kernel_backed op = true;
  iv_backed : forall id op, io_operations (w_loop w) !! id = Some op -> kernel_backed op = true ->
    id ∈ owed (io_port (w_loop w)) \/ (id ∈ hand (w_phase w) /\ is_Some (w_packets w !! id));
  iv_packets : forall id, is_Some (w_packets w !! id) -> let_go (w_loop w) id;
  iv_wakes : forall k t, (k, t) ∈ timers_ (io_timers (w_loop w)) -> is_deadline t = false ->
    timer_only (w_loop w) (operation t);
  iv_cancels : Forall (timer_only (w_loop w)) (io_cancels (w_loop w));
  iv_threads : forall prog id, prog ∈ w_threads w -> th_push_cancel id ∈ prog ->
    timer_only (w_loop w) id;
  iv_phase : phase_ok (w_loop w) (w_phase w);
  iv_shut : io_shutting_down (w_loop w) = shut_phase (w_phase w);
  iv_fault : w_fault w = false;
}.

(** ** Moves that take nothing from the kernel *)

(** No operation is new, none that the kernel works on is gone. *)
Record shrinks (l l' : Iocp) : Prop := {
  sh_next : io_next_id l <= io_next_id l';
  sh_ops : forall id op', io_operations l' !! id = Some op' ->
    exists op, io_operations l !! id = Some op /\ io_kind op' = io_kind op;
  sh_keep : forall id, id ∈ owed (io_port l) -> is_Some (io_operations l !! id) ->
    is_Some (io_operations l' !! id);
  sh_owed : owed (io_port l') = owed (io_port l);
  sh_timers : forall e, e ∈ timers_ (io_timers l') -> e ∈ timers_ (io_timers l);
  sh_wf : timers_wf (io_timers l) -> timers_wf (io_timers l');
}.

#[export] Instance shrinks_preorder : PreOrder shrinks.
Proof.
  split.
  - intros l. constructor; eauto; lia.
  - intros l1 l2 l3 H1 H2. constructor.
    + pose proof (sh_next _ _ H1). pose proof (sh_next _ _ H2). lia.
    + intros id op3 (op2 & E2 & K2)%(sh_ops _ _ H2).
      destruct (sh_ops _ _ H1 _ _ E2) as (op1 & E1 & K1). exists op1. split; [done|congruence].
    + intros id Ho Hs. apply (sh_keep _ _ H2); [by rewrite (sh_owed _ _ H1)|].
      by apply (sh_keep _ _ H1).
    + by rewrite (sh_owed _ _ H2), (sh_owed _ _ H1).
    + intros e He. by apply (sh_timers _ _ H1), (sh_timers _ _ H2).
    + intros Hw. by apply (sh_wf _ _ H2), (sh_wf _ _ H1).
Qed.

Lemma shrinks_timer_only l l' id : shrinks l l' -> timer_only l id -> timer_only l' id.
Proof.
  intros Hs [Hn Ht]. split; [pose proof (sh_next _ _ Hs); lia|].
  intros op' (op & Ho & ->)%(sh_ops _ _ Hs). by apply Ht.
Qed.

Lemma shrinks_let_go l l' id : shrinks l l' -> let_go l id -> let_go l' id.
Proof.
  intros Hs [Hn Ht]. split; [pose proof (sh_next _ _ Hs); lia|]. by rewrite (sh_owed _ _ Hs).
Qed.

Lemma shrinks_ids l l' : shrinks l l' -> ids_ok l -> ids_ok l'.
Proof.
  intros Hs [Hn Hi]. pose proof (sh_next _ _ Hs). split; [lia|].
  intros id op' (op & Ho & _)%(sh_ops _ _ Hs). specialize (Hi _ _ Ho). lia.
Qed.

Lemma covers_shrinks l l' ids : shrinks l l' -> covers ids l -> covers ids l'.
Proof. intros Hs Hc id op' (op & Ho & _)%(sh_ops _ _ Hs). by eapply Hc. Qed.

(** A move that shrinks the loop keeps the invariant if the threads and the phase
    it ends in are in order and nothing it holds is dropped. *)
Lemma shrinks_inv w w' :
  io_inv w -> shrinks (w_loop w) (w_loop w') ->
  w_packets w' = w_packets w -> w_fault w' = false ->
  (forall id, is_Some (io_operations (w_loop w') !! id) -> id ∈ hand (w_phase w) -> id ∈ hand (w_phase w')) ->
  Forall (timer_only (w_loop w')) (io_cancels (w_loop w')) ->
  (forall prog id, prog ∈ w_threads w' -> th_push_cancel id ∈ prog -> timer_only (w_loop w') id) ->
  phase_ok (w_loop w') (w_phase w') ->
  io_shutting_down (w_loop w') = shut_phase (w_phase w') ->
  io_inv w'.
Proof.
  intros Hi Hs Hp Hf Hh Hc Ht Hph Hsd. constructor; try done.
  - by eapply shrinks_ids, Hi.
  - by apply (sh_wf _ _ Hs), Hi.
  - intros id. rewrite (sh_owed _ _ Hs). intros Ho.
    destruct (iv_owed _ Hi _ Ho) as (op & Hop & Hk).
    destruct (sh_keep _ _ Hs _ Ho ltac:(by eexists)) as [op' Hop']. exists op'. split; [done|].
    destruct (sh_ops _ _ Hs _ _ Hop') as (op2 & E & K). unfold kernel_backed in *.
    rewrite K. by simplify_eq.
  - intros id op' Hop'. destruct (sh_ops _ _ Hs _ _ Hop') as (op & Hop & K).
    unfold kernel_backed. rewrite K. intros Hk.
    destruct (iv_backed _ Hi _ _ Hop Hk) as [?|[? ?]]; [left; by rewrite (sh_owed _ _ Hs)|right].
    rewrite Hp. split; [|done]. by apply Hh; [eexists|].
  - intros id. rewrite Hp. intros Hid. by eapply shrinks_let_go, (iv_packets _ Hi).
  - intros k t He Hd. eapply shrinks_timer_only, (iv_wakes _ Hi k); [done|by apply (sh_timers _ _ Hs)|done].
Qed.

(** Every operation is still there. *)
Definition keeps (l l' : Iocp) : Prop :=
  forall id, is_Some (io_operations l !! id) -> is_Some (io_operations l' !! id).

#[export] Instance keeps_preorder : PreOrder keeps.
Proof. split; unfold keeps; [intros l; auto|intros l1 l2 l3; auto]. Qed.

Lemma phase_ok_mono l l' p :
  shrinks l l' -> user_code p = true \/ keeps l l' -> phase_ok l p -> phase_ok l' p.
Proof.
  intros Hs Hu.
  assert (forall ids, Forall (let_go l) ids -> Forall (let_go l') ids) as HL.
  { intros ids Hf. eapply Forall_impl; [exact Hf|]. intros. by eapply shrinks_let_go. }
  assert (forall ids, Forall (timer_only l) ids -> Forall (timer_only l') ids) as HT.
  { intros ids Hf. eapply Forall_impl; [exact Hf|]. intros. by eapply shrinks_timer_only. }
  pose proof (sh_owed _ _ Hs) as Ho. destruct p; simpl in *; rewrite ?Ho; try done.
  - destruct Hu as [?|Hk]; [done|]. intros [Hp Hr]. split; [|by apply HL].
    eapply Forall_impl; [exact Hp|]. intros id [? ?]. split; [by apply Hk|by eapply shrinks_let_go].
  - intros (Ht & Hc & Hr). split_and!; [|by apply HT|by apply HL].
    eapply Forall_impl; [exact Ht|]. intros t Htt Hd. eapply shrinks_timer_only; eauto.
  - intros (Hc & Hr). split; [by apply HT|by apply HL].
  - by apply HL.
  - intros [Hc ?]. split; [by eapply covers_shrinks|done].
  - intros [Hc ?]. split; [by eapply covers_shrinks|done].
  - intros [? Hc]. split; [done|by eapply covers_shrinks].
  - intros [? He]. split; [done|]. apply map_empty. intros id.
    destruct (io_operations l' !! id) as [op'|] eqn:E; [|done].
    destruct (sh_ops _ _ Hs _ _ E) as (op & Hop & _). rewrite He in Hop. done.
Qed.

(** ** The loop's own operations *)

Lemma refusal_shrinks l l' : refusal l l' -> shrinks l l'.
Proof.
  intros R. constructor; rewrite ?(rf_ops _ _ R), ?(rf_port _ _ R); eauto; [apply R| |].
  - intros e. apply (rf_elem _ _ R).
  - intros _. apply R.
Qed.

(** A change of the table that keeps every operation and its kind. *)
Lemma retouch_shrinks l l' :
  io_next_id l' = io_next_id l -> owed (io_port l') = owed (io_port l) ->
  (forall e, e ∈ timers_ (io_timers l') -> e ∈ timers_ (io_timers l)) ->
  (timers_wf (io_timers l) -> timers_wf (io_timers l')) ->
  (forall id, io_kind <$> io_operations l' !! id = io_kind <$> io_operations l !! id) ->
  shrinks l l' /\ keeps l l'.
Proof.
  intros Hn Ho Ht Hw Hk. assert (keeps l l') as Hkeep.
  { intros id [op Hop]. specialize (Hk id). rewrite Hop in Hk. simpl in Hk.
    destruct (io_operations l' !! id); [by eexists|done]. }
  split; [|done]. constructor; try done; [lia| |by intros id _; apply Hkeep].
  intros id op' Hop'. specialize (Hk id). rewrite Hop' in Hk. simpl in Hk.
  destruct (io_operations l !! id) as [op|]; [|done]. exists op. split; [done|]. by injection Hk.
Qed.

(** A goal about a loop whose table was not touched. *)
Ltac retouched :=
  match goal with |- shrinks ?l ?l' /\ _ => destruct (retouch_shrinks l l'); try done end.

Lemma alter_kind f id l id' :
  (forall op, io_kind (f op) = io_kind op) ->
  io_kind <$> io_operations (update_op id f l) !! id' = io_kind <$> io_operations l !! id'.
Proof.
  intros Hf. simpl. destruct (decide (id = id')) as [->|Hne].
  - rewrite lookup_alter_eq. destruct (io_operations l !! id'); simpl; [by rewrite Hf|done].
  - by rewrite lookup_alter_ne.
Qed.

Lemma fix_reason_spec id e l r l' :
  ids_ok l -> fix_reason id e l = (r, l') ->
  shrinks l l' /\ keeps l l' /\ queues l' = queues l /\ wake_state l' = wake_state l /\
  io_port l' = io_port l /\
  match r with
  | Some f => resolve_now f = true -> timer_only l' id
  | None => l' = l
  end.
Proof.
  intros [_ Hids]. unfold fix_reason. destruct (io_operations l !! id) as [op|] eqn:Hop;
    [destruct (io_reason op) eqn:Er|]; intros [= <- <-]; [by split_and!| |by split_and!].
  retouched.
  - intros x. by intros [? _]%timer_cancel_elem.
  - apply timer_cancel_wf.
  - intros id'. by apply (alter_kind (fun op => with_io_deadline no_timer (with_io_reason (Some e) op)) id l).
  - split_and!; try done. intros Hb. specialize (Hids _ _ Hop). split; simpl; [lia|]. intros op'.
    rewrite lookup_alter_eq, Hop. simpl. intros [= <-]. simpl.
    unfold kernel_backed in Hb. rewrite negb_involutive in Hb. by apply bool_decide_eq_true in Hb.
Qed.

Lemma cancel_io_ex_shrinks s o l : shrinks l (cancel_io_ex s o l) /\ keeps l (cancel_io_ex s o l).
Proof. by apply retouch_shrinks. Qed.

Lemma cancel_io_shrinks f l :
  shrinks l (cancel_io f l) /\ keeps l (cancel_io f l) /\ queues (cancel_io f l) = queues l /\
  wake_state (cancel_io f l) = wake_state l.
Proof.
  unfold cancel_io. destruct (fixed_target f) as [[s o]|]; [|by split_and!].
  destruct (cancel_io_ex_shrinks s (Some o) l). by split_and!.
Qed.

Lemma detach_shrinks h l : shrinks l (detach_handle h l) /\ keeps l (detach_handle h l).
Proof.
  apply retouch_shrinks; try done. intros id. simpl. rewrite lookup_fmap.
  destruct (io_operations l !! id) as [op|]; [|done]. simpl. by destruct (io_socket op =? h).
Qed.

Lemma take_op_shrinks id l r l' :
  id ∉ owed (io_port l) -> take_op id l = (r, l') ->
  shrinks l l' /\ queues l' = queues l /\ wake_state l' = wake_state l /\ io_port l' = io_port l /\
  io_next_id l' = io_next_id l /\
  r = io_operations l !! id /\ io_operations l' = delete id (io_operations l).
Proof.
  intros Ho. unfold take_op. destruct (io_operations l !! id) as [op|] eqn:Hop; intros [= <- <-].
  - split_and!; try done. constructor; simpl; try done.
    + intros id' op' [_ Hop']%lookup_delete_Some. by exists op'.
    + intros id' Ho' Hs. rewrite lookup_delete_ne; [done|]. by intros ->.
    + intros e. rewrite !timer_cancel_elem. tauto.
    + intros. by repeat apply timer_cancel_wf.
  - split_and!; try done. by rewrite delete_id.
Qed.

Lemma close_socket_shrinks s l : shrinks l (close_socket s l) /\ keeps l (close_socket s l).
Proof. by apply retouch_shrinks. Qed.

Lemma finalize_op_shrinks id outcome l r l' :
  id ∉ owed (io_port l) -> finalize_op id outcome l = (r, l') ->
  shrinks l l' /\ queues l' = queues l /\ wake_state l' = wake_state l /\
  io_next_id l' = io_next_id l /\ port_open (io_port l') = port_open (io_port l) /\
  fst <$> r = io_operations l !! id /\ io_operations l' = delete id (io_operations l).
Proof.
  intros Ho. unfold finalize_op. destruct (take_op id l) as [t l1] eqn:Et.
  destruct (take_op_shrinks _ _ _ _ Ho Et) as (Hs & Hq & Hw & Hp & Hn & Hr & Hd).
  destruct t as [op|]; intros [= <- <-].
  - destruct (_ && _ && _).
    + destruct (close_socket_shrinks (io_accepted op) l1). simpl.
      split_and!; try done; [by transitivity l1|by rewrite Hp].
    + simpl. split_and!; try done. by rewrite Hp.
  - split_and!; try done. by rewrite Hp.
Qed.

Lemma wake_begin_shrinks l b l' :
  wake_begin l = (b, l') -> shrinks l l' /\ keeps l l' /\ queues l' = queues l.
Proof.
  unfold wake_begin. destruct (io_wake_pending l); intros [= <- <-]; [by split_and!|].
  by retouched.
Qed.

Lemma nudge_shrinks l : shrinks l (nudge l) /\ keeps l (nudge l) /\ queues (nudge l) = queues l.
Proof.
  unfold nudge. destruct (port_open (io_port l)); [|by split_and!].
  by retouched.
Qed.

(** ** Moves of coroutines and other threads *)

Lemma same_phase_inv w w' :
  io_inv w -> shrinks (w_loop w) (w_loop w') ->
  user_code (w_phase w) = true \/ keeps (w_loop w) (w_loop w') ->
  w_phase w' = w_phase w -> w_packets w' = w_packets w -> w_fault w' = w_fault w ->
  (forall id, id ∈ io_cancels (w_loop w') ->
     id ∈ io_cancels (w_loop w) \/ timer_only (w_loop w') id) ->
  (forall prog id, prog ∈ w_threads w' -> th_push_cancel id ∈ prog ->
     timer_only (w_loop w') id \/ exists prog', prog' ∈ w_threads w /\ th_push_cancel id ∈ prog') ->
  io_shutting_down (w_loop w') = io_shutting_down (w_loop w) ->
  io_inv w'.
Proof.
  intros Hi Hs Hu Hph Hp Hf Hc Ht Hsd. eapply shrinks_inv; try eassumption.
  - by rewrite Hf, (iv_fault _ Hi).
  - by rewrite Hph.
  - apply Forall_forall. intros id [Hid|?]%Hc; [|done].
    eapply shrinks_timer_only; [done|]. pose proof (iv_cancels _ Hi) as Hf'.
    rewrite Forall_forall in Hf'. by apply Hf'.
  - intros prog id Hprog Hid. destruct (Ht _ _ Hprog Hid) as [?|(p' & ? & ?)]; [done|].
    eapply shrinks_timer_only; [done|]. by eapply iv_threads.
  - rewrite Hph. eapply phase_ok_mono; [done|done|apply Hi].
  - rewrite Hsd, Hph. apply Hi.
Qed.

(** Moves that leave the queues and the threads alone. *)
Lemma same_queues_inv w w' :
  io_inv w -> shrinks (w_loop w) (w_loop w') ->
  user_code (w_phase w) = true \/ keeps (w_loop w) (w_loop w') ->
  w_phase w' = w_phase w -> w_packets w' = w_packets w -> w_fault w' = w_fault w ->
  w_threads w' = w_threads w -> queues (w_loop w') = queues (w_loop w) -> io_inv w'.
Proof.
  intros Hi Hs Hu Hph Hp Hf Ht Hq. unfold queues in Hq. injection Hq as _ Hc _ Hsd.
  eapply same_phase_inv; try eassumption; rewrite ?Hc, ?Ht; eauto.
Qed.

Lemma submission_timer_only rq o coroutine l l' id op x :
  submission rq o coroutine l l' id op -> timer_only l x -> timer_only l' x.
Proof.
  intros S [Hn Ht]. pose proof (sb_id _ _ _ _ _ _ _ S). pose proof (sb_next _ _ _ _ _ _ _ S).
  split; [lia|]. intros op'. rewrite (sb_ops _ _ _ _ _ _ _ S), lookup_insert_ne by lia. apply Ht.
Qed.

Lemma submission_let_go rq o coroutine l l' id op x :
  submission rq o coroutine l l' id op -> let_go l x -> let_go l' x.
Proof.
  intros S [Hn Ht]. pose proof (sb_id _ _ _ _ _ _ _ S). pose proof (sb_next _ _ _ _ _ _ _ S).
  split; [lia|]. rewrite (sb_owed _ _ _ _ _ _ _ S).
  destruct (kernel_backed op); [|done]. assert (x <> id) by lia. set_solver.
Qed.

Lemma submission_inv rq o coroutine w w' id op :
  io_inv w -> user_code (w_phase w) = true ->
  submission rq o coroutine (w_loop w) (w_loop w') id op ->
  w_phase w' = w_phase w -> w_packets w' = w_packets w -> w_fault w' = w_fault w ->
  w_threads w' = w_threads w -> io_inv w'.
Proof.
  intros Hi Hu S Hph Hp Hf Ht. pose proof (sb_queues _ _ _ _ _ _ _ S) as Hq.
  unfold queues in Hq. injection Hq as _ Hc _ Hsd.
  pose proof (sb_id _ _ _ _ _ _ _ S) as Hid. pose proof (sb_next _ _ _ _ _ _ _ S) as Hn.
  destruct (iv_ids _ Hi) as [Hn0 Hids].
  assert (forall ids, Forall (timer_only (w_loop w)) ids -> Forall (timer_only (w_loop w')) ids) as HT.
  { intros ids Hids'. eapply Forall_impl; [exact Hids'|]. intros. by eapply submission_timer_only. }
  constructor; rewrite ?Hph, ?Hp, ?Hf, ?Ht, ?Hc, ?Hsd.
  - split; [lia|]. intros id' op'. rewrite (sb_ops _ _ _ _ _ _ _ S).
    intros [[<- _]|[_ Ho]]%lookup_insert_Some; [lia|]. specialize (Hids _ _ Ho). lia.
  - apply S.
  - intros id'. rewrite (sb_owed _ _ _ _ _ _ _ S), (sb_ops _ _ _ _ _ _ _ S).
    destruct (kernel_backed op) eqn:Hk.
    + rewrite elem_of_union, elem_of_singleton. intros [->|Ho].
      * exists op. by rewrite lookup_insert_eq.
      * destruct (iv_owed _ Hi _ Ho) as (op' & Hop & ?). exists op'.
        rewrite lookup_insert_ne; [done|]. specialize (Hids _ _ Hop). lia.
    + intros Ho. destruct (iv_owed _ Hi _ Ho) as (op' & Hop & ?). exists op'.
      rewrite lookup_insert_ne; [done|]. specialize (Hids _ _ Hop). lia.
  - intros id' op'. rewrite (sb_owed _ _ _ _ _ _ _ S), (sb_ops _ _ _ _ _ _ _ S).
    intros [[<- ->]|[Hne Ho]]%lookup_insert_Some Hk.
    + left. rewrite Hk. set_solver.
    + destruct (iv_backed _ Hi _ _ Ho Hk) as [?|?]; [left|by right]. destruct (kernel_backed op); set_solver.
  - intros id' Hid'. by eapply submission_let_go, (iv_packets _ Hi).
  - intros k t. rewrite (sb_elem _ _ _ _ _ _ _ S).
    intros [He|[[Hw [= _ ->]]|[_ [= _ ->]]]] Hd; [|split; [simpl; lia|]|done].
    + eapply submission_timer_only; [done|]. by eapply iv_wakes.
    + intros op'. simpl. rewrite (sb_ops _ _ _ _ _ _ _ S), lookup_insert_eq. intros [= <-].
      rewrite (proj1 (sb_request _ _ _ _ _ _ _ S)). destruct rq; simpl in *; by destruct Hw.
  - apply HT, Hi.
  - intros prog x Hx1 Hx2. eapply submission_timer_only; [done|]. by eapply iv_threads.
  - pose proof (iv_phase _ Hi) as Hpo. pose proof (iv_shut _ Hi) as Hsh.
    rewrite (sb_open _ _ _ _ _ _ _ S) in Hsh. destruct (w_phase w); simpl in *; try done.
    eapply Forall_impl; [exact Hpo|]. intros. by eapply submission_let_go.
  - apply Hi.
  - apply Hi.
Qed.

Lemma ready_inv w : io_inv w -> io_room (w_loop w) = true -> ready (w_loop w).
Proof. intros Hi Hr. constructor; [apply Hi|apply Hi|done]. Qed.

Lemma call_inv rq o coroutine now now' kernel w r l' :
  io_inv w -> user_code (w_phase w) = true -> io_room (w_loop w) = true ->
  fresh_socket rq (w_loop w) = true ->
  io_call rq o coroutine now now' kernel (w_loop w) = (r, l') ->
  io_inv (issue r rq o coroutine (set_w_clock now' (set_w_loop l' w))).
Proof.
  intros Hi Hu Hr Hfs Hc.
  pose proof (io_call_spec rq o coroutine now now' kernel _ (ready_inv _ Hi Hr) Hfs) as Hsp.
  rewrite Hc in Hsp. destruct r as [r|id]; simpl in *.
  - eapply same_queues_inv; try done; [by apply refusal_shrinks|by left|apply Hsp].
  - destruct Hsp as [op S]. by eapply submission_inv.
Qed.

Lemma elem_of_snoc {A} (x y : A) l : x ∈ l ++ [y] <-> x ∈ l \/ x = y.
Proof. rewrite elem_of_app, list_elem_of_singleton. done. Qed.

Lemma list_insert_elem {A} (l : list A) i x y : y ∈ <[i := x]> l -> y = x \/ y ∈ l.
Proof.
  rewrite !list_elem_of_lookup. intros [j [(_ & -> & _)|[_ Hj]]%list_lookup_insert_Some];
    [by left|right; by exists j].
Qed.

Lemma thread_inv w i t rest more l' :
  io_inv w -> w_threads w !! i = Some (t :: rest) -> thread_step t (w_loop w) = (more, l') ->
  io_inv (set_w_threads (<[i := more ++ rest]> (w_threads w)) (set_w_loop l' w)).
Proof.
  intros Hi Hl Ht. apply list_elem_of_lookup_2 in Hl as Hin.
  assert (shrinks (w_loop w) l' /\ keeps (w_loop w) l' /\
    io_shutting_down l' = io_shutting_down (w_loop w) /\
    (forall id, th_push_cancel id ∉ more) /\
    forall id, id ∈ io_cancels l' -> id ∈ io_cancels (w_loop w) \/ t = th_push_cancel id)
    as (Hs & Hk & Hsd & Hm & Hc).
  { destruct t as [f|id| |]; simpl in Ht.
    - injection Ht as <- <-. destruct (cancel_io_shrinks f (w_loop w)) as (? & ? & Hq & _).
      unfold queues in Hq. injection Hq as _ Hc _ Hsd. split_and!; try done; [set_solver|].
      rewrite Hc. auto.
    - injection Ht as <- <-. retouched. split_and!; try done; [set_solver|].
      intros x. simpl. rewrite elem_of_snoc. naive_solver.
    - destruct (wake_begin (w_loop w)) as [b l1] eqn:Eb. injection Ht as <- <-.
      destruct (wake_begin_shrinks _ _ _ Eb) as (? & ? & Hq). unfold queues in Hq.
      injection Hq as _ Hc _ Hsd. split_and!; try done; [destruct b; set_solver|]. rewrite Hc. auto.
    - injection Ht as <- <-. destruct (nudge_shrinks (w_loop w)) as (? & ? & Hq). unfold queues in Hq.
      injection Hq as _ Hc _ Hsd. split_and!; try done; [set_solver|]. rewrite Hc. auto. }
  eapply same_phase_inv; try done; [by right| |].
  - intros id Hid. destruct (Hc _ Hid) as [?| ->]; [by left|right].
    eapply shrinks_timer_only; [done|]. eapply (iv_threads _ Hi); [done|]. left.
  - intros prog id Hprog Hid. right. simpl in Hprog.
    apply list_insert_elem in Hprog as [->|?]; [|by exists prog].
    apply elem_of_app in Hid as [Hid|Hid]; [by destruct (Hm id)|].
    exists (t :: rest). split; [done|]. by right.
Qed.

Lemma request_cancel_inv w id rest l' :
  io_inv w -> request_cancel id (w_loop w) = (rest, l') ->
  io_inv (set_w_asked ({[id]} ∪ w_asked w) (start_thread rest l' w)).
Proof.
  intros Hi. unfold request_cancel.
  destruct (fix_reason id _ _) as [r l1] eqn:Ef.
  destruct (fix_reason_spec _ _ _ _ _ (iv_ids _ Hi) Ef) as (Hs & Hk & Hq & _ & _ & Hr).
  unfold queues in Hq. injection Hq as _ Hc _ Hsd.
  assert (forall rest, (forall x, th_push_cancel x ∈ rest -> timer_only l1 x) ->
    io_inv (set_w_asked ({[id]} ∪ w_asked w) (start_thread rest l1 w))) as Hall.
  { intros rest' Hrest. eapply same_phase_inv; try done; simpl; [by right|rewrite Hc; auto|].
    intros prog x [?| ->]%elem_of_snoc Hx; [right; by exists prog|left; by apply Hrest]. }
  destruct r as [f|]; intros [= <- <-]; apply Hall; [|set_solver].
  intros x. destruct (resolve_now f) eqn:En; [|set_solver].
  rewrite !elem_of_cons. intros [?|[[= ->]|[?|?%elem_of_nil]]]; try done. by apply Hr.
Qed.

(** [post] and [stop]: a queue or a flag, and a wake-up to come. *)
Lemma simple_thread_inv w rest l' :
  io_inv w -> shrinks (w_loop w) l' /\ keeps (w_loop w) l' ->
  (forall id, th_push_cancel id ∉ rest) -> io_cancels l' = io_cancels (w_loop w) ->
  io_shutting_down l' = io_shutting_down (w_loop w) -> io_inv (start_thread rest l' w).
Proof.
  intros Hi [Hs Hk] Hr Hc Hsd. eapply same_phase_inv; try done; simpl; [by right|rewrite Hc; auto|].
  intros prog x [?| ->]%elem_of_snoc Hx; [right; by exists prog|by destruct (Hr x)].
Qed.

(** ** Packets *)

Lemma packet_ids_elem ps id : id ∈ packet_ids ps <-> exists pk, pk ∈ ps /\ packet_id pk = Some id.
Proof. unfold packet_ids. by rewrite list_elem_of_omap. Qed.

Lemma packets_ok_spec ps l :
  packets_ok ps l = true ->
  (forall id, id ∈ packet_ids ps -> id ∈ owed (io_port l)) /\ NoDup (packet_ids ps) /\
  (wakes ps <= nudges (io_port l))%nat /\ forall pk, pk ∈ ps -> packet_ok l pk = true.
Proof.
  unfold packets_ok. rewrite !andb_true_iff, bool_decide_eq_true, Nat.leb_le.
  intros [[[Hall Hnd] Hw] _].
  assert (forall pk, pk ∈ ps -> packet_ok l pk = true) as Hok.
  { intros pk Hin. rewrite forallb_forall in Hall. by apply Hall, list_elem_of_In. }
  split_and!; try done. intros id (pk & Hin & Hid)%packet_ids_elem. apply Hok in Hin.
  unfold packet_ok, packet_id in *. apply andb_true_iff in Hin as [_ Hin].
  destruct (pk_key pk =? kWakeupKey); [done|]. rewrite Hid in Hin. by apply bool_decide_eq_true in Hin.
Qed.

Lemma recorded_lookup ps m id :
  is_Some (foldl record_packet m ps !! id) <-> id ∈ packet_ids ps \/ is_Some (m !! id).
Proof.
  revert m; induction ps as [|pk ps IH]; intros m; simpl; [set_solver|].
  rewrite IH. unfold record_packet. destruct (packet_id pk) as [x|]; [|done].
  rewrite elem_of_cons. destruct (decide (x = id)) as [->|Hne].
  - rewrite lookup_insert_eq. naive_solver.
  - rewrite lookup_insert_ne by done. naive_solver.
Qed.

Lemma dequeue_owed ps l id :
  id ∈ owed (io_port (dequeue ps l)) <-> id ∈ owed (io_port l) /\ id ∉ packet_ids ps.
Proof. simpl. rewrite elem_of_difference, elem_of_list_to_set. done. Qed.

Lemma dequeue_let_go ps l id : let_go l id -> let_go (dequeue ps l) id.
Proof. intros [? Ho]. split; [done|]. rewrite dequeue_owed. tauto. Qed.

(** The packets dequeued are those of operations in the table. *)
Lemma dequeue_inv w ps p' :
  io_inv w -> packets_ok ps (w_loop w) = true ->
  (forall id, id ∈ packet_ids ps \/ id ∈ hand (w_phase w) -> id ∈ hand p') ->
  phase_ok (dequeue ps (w_loop w)) p' -> shut_phase p' = shut_phase (w_phase w) ->
  io_inv (in_phase p' (take_packets ps w)).
Proof.
  intros Hi Hok Hh Hph Hsd. destruct (packets_ok_spec _ _ Hok) as (Hin & _ & _ & _).
  constructor; simpl; try apply Hi; [..|done|].
  - intros id [Ho _]%dequeue_owed. by apply (iv_owed _ Hi).
  - intros id op Hop Hk. destruct (decide (id ∈ packet_ids ps)) as [Hp|Hp].
    + right. split; [apply Hh; by left|]. apply recorded_lookup. by left.
    + destruct (iv_backed _ Hi _ _ Hop Hk) as [Ho|[Hhand Hs]].
      * left. by apply dequeue_owed.
      * right. split; [apply Hh; by right|]. apply recorded_lookup. by right.
  - intros id [Hp|Hp]%recorded_lookup.
    + destruct (iv_owed _ Hi _ (Hin _ Hp)) as (op & Hop & _).
      split; [apply (proj2 (iv_ids _ Hi) _ _ Hop)|]. rewrite dequeue_owed. tauto.
    + by apply dequeue_let_go, (iv_packets _ Hi).
  - rewrite Hsd. apply Hi.
Qed.

Lemma dequeue_reading w ps :
  io_inv w -> packets_ok ps (w_loop w) = true -> hand (w_phase w) = [] ->
  shut_phase (w_phase w) = false -> io_inv (in_phase (reading ps []) (take_packets ps w)).
Proof.
  intros Hi Hok Hh Hsd. eapply dequeue_inv; try done.
  - rewrite Hh. simpl. intros id [?|?%elem_of_nil]; [|done]. by rewrite app_nil_r.
  - split; [|by constructor]. apply Forall_forall. intros id Hp.
    destruct (packets_ok_spec _ _ Hok) as (Hin & _).
    destruct (iv_owed _ Hi _ (Hin _ Hp)) as (op & Hop & _). split; [by eexists|].
    split; [apply (proj2 (iv_ids _ Hi) _ _ Hop)|]. rewrite dequeue_owed. tauto.
Qed.

Lemma dequeue_draining w o n pk :
  io_inv w -> w_phase w = draining o (S n) -> packets_ok [pk] (w_loop w) = true ->
  io_inv (in_phase (draining o (drain_packet pk (S n))) (take_packets [pk] w)).
Proof.
  intros Hi Hph Hok. pose proof (iv_phase _ Hi) as Hp. rewrite Hph in Hp. destruct Hp as [Hc Hn].
  destruct (packets_ok_spec _ _ Hok) as (Hin & _ & _ & Hpk).
  eapply dequeue_inv; try done; rewrite ?Hph; [|split; [done|]|done].
  - simpl. intros id [Hid|?]; [|done].
    destruct (iv_owed _ Hi _ (Hin _ Hid)) as (op & Hop & _). by eapply Hc.
  - specialize (Hpk pk ltac:(left)). unfold packet_ok in Hpk. apply andb_true_iff in Hpk as [_ Hpk].
    unfold drain_packet. simpl. unfold packet_id. destruct (pk_key pk =? kWakeupKey) eqn:Ek.
    + apply bool_decide_eq_true in Hpk. rewrite Hpk. simpl. by rewrite difference_empty_L.
    + destruct (pk_overlapped pk) as [id|]; [|done]. apply bool_decide_eq_true in Hpk. simpl.
      rewrite union_empty_r_L, size_difference by set_solver. rewrite size_singleton. lia.
Qed.

(** ** The loop's thread *)

(** A move of the loop's thread to another phase. *)
Lemma advance_inv w w' :
  io_inv w -> shrinks (w_loop w) (w_loop w') ->
  w_packets w' = w_packets w -> w_fault w' = false -> w_threads w' = w_threads w ->
  (forall id, id ∈ io_cancels (w_loop w') -> id ∈ io_cancels (w_loop w)) ->
  (forall id, is_Some (io_operations (w_loop w') !! id) -> id ∈ hand (w_phase w) -> id ∈ hand (w_phase w')) ->
  phase_ok (w_loop w') (w_phase w') ->
  io_shutting_down (w_loop w') = shut_phase (w_phase w') -> io_inv w'.
Proof.
  intros Hi Hs Hp Hf Ht Hc Hh Hph Hsd. eapply shrinks_inv; try eassumption.
  - apply Forall_forall. intros id Hid%Hc. eapply shrinks_timer_only; [done|].
    pose proof (iv_cancels _ Hi) as Hf'. rewrite Forall_forall in Hf'. by apply Hf'.
  - rewrite Ht. intros prog id ? ?. eapply shrinks_timer_only; [done|]. by eapply iv_threads.
Qed.

Lemma read_packet_spec pk l :
  read_packet pk l =
  match packet_id pk with
  | None => Some ([], no_effect)
  | Some id =>
      op ← io_operations l !! id;
      Some ([(id, match io_reason op with Some e => Fail e | None => (classify op pk).1 end)],
            (classify op pk).2)
  end.
Proof.
  unfold read_packet, packet_id, fixed_reason_of, OperationId. destruct (pk_key pk =? kWakeupKey); [done|].
  destruct (pk_overlapped pk) as [id|]; [|done].
  destruct (io_operations l !! id) as [op|]; [|done]. simpl. by destruct (classify op pk).
Qed.

Lemma apply_effect_frame id e w :
  shrinks (w_loop w) (w_loop (apply_effect id e w)) /\ keeps (w_loop w) (w_loop (apply_effect id e w)) /\
  queues (w_loop (apply_effect id e w)) = queues (w_loop w) /\
  w_packets (apply_effect id e w) = w_packets w /\ w_fault (apply_effect id e w) = w_fault w /\
  w_threads (apply_effect id e w) = w_threads w /\ w_phase (apply_effect id e w) = w_phase w.
Proof.
  destruct e as [|n a|s]; simpl; [by split_and!|by destruct id; split_and!|]. by retouched.
Qed.

Lemma fmap_fst_snoc {A B} (l : list (A * B)) x y : (l ++ [(x, y)]).*1 = l.*1 ++ [x].
Proof. by rewrite fmap_app. Qed.

Lemma advance_read w pk ps res w' now :
  io_inv w -> w_phase w = reading (pk :: ps) res -> advance now w = Some w' -> io_inv w'.
Proof.
  intros Hi Hph. unfold advance. rewrite Hph. intros [= <-].
  pose proof (iv_phase _ Hi) as Hp. rewrite Hph in Hp. destruct Hp as [Hps Hres].
  rewrite read_packet_spec. unfold packet_ids in Hps. simpl in Hps. destruct (packet_id pk) as [id|] eqn:Hid.
  - apply Forall_cons in Hps as [[[op Hop] Hgo] Hps]. unfold OperationId in *. rewrite Hop. simpl.
    destruct (apply_effect_frame (Some id) (classify op pk).2 w) as (Hs & Hk & Hq & E1 & E2 & E3 & _).
    unfold queues in Hq. injection Hq as _ Hc _ Hsd.
    eapply advance_inv; try done; simpl; rewrite ?Hc, ?Hsd.
    + by rewrite E2, (iv_fault _ Hi).
    + done.
    + rewrite Hph, fmap_fst_snoc. unfold packet_ids. simpl. rewrite Hid. set_solver.
    + rewrite fmap_fst_snoc. split.
      * eapply Forall_impl; [exact Hps|]. intros x [? ?]. split; [by apply Hk|by eapply shrinks_let_go].
      * apply Forall_app. split; [|apply Forall_singleton; by eapply shrinks_let_go].
        eapply Forall_impl; [exact Hres|]. intros. by eapply shrinks_let_go.
    + rewrite (iv_shut _ Hi), Hph. done.
  - rewrite app_nil_r. eapply advance_inv; try done; simpl; [apply Hi|..].
    + rewrite Hph. unfold packet_ids. simpl. by rewrite Hid.
    + rewrite (iv_shut _ Hi), Hph. done.
Qed.

Lemma extract_expired_elem now q out q' :
  timers_wf q -> extract_expired now q = (out, q') ->
  timers_wf q' /\ (forall e, e ∈ timers_ q' <-> e ∈ timers_ q /\ now < e.1.1) /\
  serial_ q' = serial_ q /\
  forall t, t ∈ out <-> exists k, (k, t) ∈ timers_ q /\ k.1 <= now.
Proof.
  intros Hq He. pose proof (extract_expired_wf now q Hq) as Hw. rewrite He in Hw.
  unfold extract_expired in He. rewrite expired_split_spec in He by apply Hq. injection He as <- <-.
  split_and!; [done| |done|].
  - intros e. simpl. rewrite !list_elem_of_In, List.filter_In, negb_true_iff, Z.leb_gt. done.
  - intros t. rewrite list_elem_of_In, in_map_iff. split.
    + intros ([k t'] & <- & [Hin Hle]%List.filter_In). exists k.
      rewrite list_elem_of_In. split; [done|]. by apply Z.leb_le in Hle.
    + intros (k & Hin & Hle). exists (k, t). split; [done|]. apply List.filter_In.
      rewrite <- list_elem_of_In. split; [done|]. by apply Z.leb_le.
Qed.

Lemma drain_queues_shrinks now l out cancels work l' :
  timers_wf (io_timers l) -> drain_queues now l = (out, cancels, work, l') ->
  shrinks l l' /\ keeps l l' /\ io_shutting_down l' = io_shutting_down l /\ cancels = io_cancels l /\
  work = io_posted l /\ io_cancels l' = [] /\ io_posted l' = [] /\
  io_wake_pending l' = false /\ io_port l' = io_port l /\ io_stop l' = io_stop l /\
  io_operations l' = io_operations l /\ io_next_id l' = io_next_id l /\
  extract_expired now (io_timers l) = (out, io_timers l').
Proof.
  intros Hq. unfold drain_queues. destruct (extract_expired now (io_timers l)) as [exp q] eqn:Ee.
  intros [= <- <- <- <-]. destruct (extract_expired_elem _ _ _ _ Hq Ee) as (Hq' & He & _).
  retouched. intros e. simpl. rewrite He. tauto.
Qed.

Lemma advance_drain w res w' now :
  io_inv w -> w_phase w = reading [] res -> advance now w = Some w' -> io_inv w'.
Proof.
  intros Hi Hph. unfold advance. rewrite Hph. destruct (w_clock w <=? now); [|done].
  destruct (drain_queues now (w_loop w)) as [[[exp cs] work] l'] eqn:Ed. intros [= <-].
  destruct (drain_queues_shrinks _ _ _ _ _ _ (iv_wf _ Hi) Ed)
    as (Hs & Hk & Hsd & -> & -> & Hc & Hp & _ & _ & _ & _ & _ & Ee).
  pose proof (iv_phase _ Hi) as Hpo. rewrite Hph in Hpo. destruct Hpo as [_ Hres].
  eapply advance_inv; try done; simpl; rewrite ?Hc, ?Hsd.
  - apply Hi.
  - set_solver.
  - rewrite Hph. unfold packet_ids. simpl. done.
  - destruct (extract_expired_elem _ _ _ _ (iv_wf _ Hi) Ee) as (_ & _ & _ & Hout).
    split_and!.
    + apply Forall_forall. intros t (k & Hin & _)%Hout Hd. eapply shrinks_timer_only; [done|].
      by eapply iv_wakes.
    + eapply Forall_impl; [apply Hi|]. intros. by eapply shrinks_timer_only.
    + eapply Forall_impl; [exact Hres|]. intros. by eapply shrinks_let_go.
  - rewrite (iv_shut _ Hi), Hph. done.
Qed.

(** The kernel has no packet for a timer. *)
Lemma timer_let_go w l id :
  io_inv w -> shrinks (w_loop w) l -> timer_only l id -> let_go l id.
Proof.
  intros Hi Hs [Hn Ht]. split; [done|]. rewrite (sh_owed _ _ Hs). intros Ho.
  destruct (iv_owed _ Hi _ Ho) as (op & Hop & Hk).
  destruct (sh_keep _ _ Hs _ Ho ltac:(by eexists)) as [op' Hop']. pose proof (Ht _ Hop') as Ht'.
  destruct (sh_ops _ _ Hs _ _ Hop') as (op2 & E & K). simplify_eq. unfold kernel_backed in Hk.
  rewrite <- K, Ht' in Hk. done.
Qed.

Lemma expire_target_spec t l r l' :
  ids_ok l -> (is_deadline t = false -> timer_only l (operation t)) ->
  expire_target t l = (r, l') ->
  shrinks l l' /\ keeps l l' /\ queues l' = queues l /\ Forall (timer_only l') r.*1.
Proof.
  intros Hids Ht. unfold expire_target. destruct (is_deadline t); simpl.
  - destruct (fix_reason _ _ l) as [f l1] eqn:Ef.
    destruct (fix_reason_spec _ _ _ _ _ Hids Ef) as (Hs & Hk & Hq & _ & _ & Hr).
    destruct f as [f|]; intros [= <- <-]; [|by split_and!].
    destruct (cancel_io_shrinks f l1) as (Hs' & Hk' & Hq' & _).
    split_and!; [by transitivity l1|by transitivity l1|congruence|].
    destruct (resolve_now f); constructor; [|constructor]. eapply shrinks_timer_only; [done|]. by apply Hr.
  - intros [= <- <-]. split_and!; try done. apply Forall_singleton. by apply Ht.
Qed.

Lemma advance_expire w t ts cs work res w' now :
  io_inv w -> w_phase w = expiring (t :: ts) cs work res -> advance now w = Some w' -> io_inv w'.
Proof.
  intros Hi Hph. unfold advance. rewrite Hph.
  pose proof (iv_phase _ Hi) as Hpo. rewrite Hph in Hpo. destruct Hpo as (Hts & Hcs & Hres).
  apply Forall_cons in Hts as [Ht Hts].
  destruct (expire_target t (w_loop w)) as [r l'] eqn:Ee. intros [= <-].
  destruct (expire_target_spec _ _ _ _ (iv_ids _ Hi) Ht Ee) as (Hs & Hk & Hq & Hr).
  unfold queues in Hq. injection Hq as _ Hc _ Hsd.
  eapply advance_inv; try done; simpl; rewrite ?Hc, ?Hsd.
  - apply Hi.
  - done.
  - rewrite Hph, fmap_app. set_solver.
  - rewrite fmap_app, Forall_app. split_and!.
    + eapply Forall_impl; [exact Hts|]. intros x Hx Hd. eapply shrinks_timer_only; eauto.
    + eapply Forall_impl; [exact Hcs|]. intros. by eapply shrinks_timer_only.
    + eapply Forall_impl; [exact Hres|]. intros. by eapply shrinks_let_go.
    + eapply Forall_impl; [exact Hr|]. intros. by eapply timer_let_go.
  - rewrite (iv_shut _ Hi), Hph. done.
Qed.

Lemma advance_cancel w id cs work res w' now :
  io_inv w -> w_phase w = cancelling (id :: cs) work res -> advance now w = Some w' -> io_inv w'.
Proof.
  intros Hi Hph. unfold advance. rewrite Hph. intros [= <-].
  pose proof (iv_phase _ Hi) as Hpo. rewrite Hph in Hpo. destruct Hpo as (Hcs & Hres).
  apply Forall_cons in Hcs as [Hid Hcs].
  eapply advance_inv; try done; simpl; [apply Hi|..].
  - rewrite Hph, fmap_app. set_solver.
  - rewrite fmap_app, Forall_app. split_and!; try done. unfold resolve_cancel.
    destruct (fixed_reason_of _ _); [|constructor]. apply Forall_singleton. by eapply timer_let_go.
  - rewrite (iv_shut _ Hi), Hph. done.
Qed.

(** Resuming an operation the kernel has let go of. *)
Lemma resume_frame id outcome w :
  id ∉ owed (io_port (w_loop w)) ->
  shrinks (w_loop w) (w_loop (resume id outcome w)) /\
  queues (w_loop (resume id outcome w)) = queues (w_loop w) /\
  wake_state (w_loop (resume id outcome w)) = wake_state (w_loop w) /\
  w_packets (resume id outcome w) = w_packets w /\ w_fault (resume id outcome w) = w_fault w /\
  w_threads (resume id outcome w) = w_threads w /\ w_phase (resume id outcome w) = w_phase w /\
  io_operations (w_loop (resume id outcome w)) = delete id (io_operations (w_loop w)).
Proof.
  intros Ho. unfold resume. destruct (finalize_op id outcome (w_loop w)) as [r l'] eqn:Ef.
  destruct (finalize_op_shrinks _ _ _ _ _ Ho Ef) as (Hs & Hq & Hw & _ & _ & _ & Hd).
  destruct r as [[op a]|]; by split_and!.
Qed.

Lemma advance_deliver w id outcome todo :
  io_inv w -> w_phase w = delivering (deliver id outcome :: todo) ->
  io_inv (resume id outcome (in_phase (delivering todo) w)).
Proof.
  intros Hi Hph. pose proof (iv_phase _ Hi) as Hpo. rewrite Hph in Hpo. simpl in Hpo.
  apply Forall_cons in Hpo as [[Hn Ho] Htodo].
  destruct (resume_frame id outcome (in_phase (delivering todo) w) Ho)
    as (Hs & Hq & _ & E1 & E2 & E3 & E4 & Hd).
  unfold queues in Hq. injection Hq as _ Hc _ Hsd.
  eapply advance_inv; try done; rewrite ?E1, ?E2, ?E3, ?E4, ?Hc, ?Hsd; try done.
  - apply Hi.
  - intros x. rewrite Hd, Hph. simpl. intros Hx [->|?]%elem_of_cons; [|done].
    rewrite lookup_delete_eq in Hx. by destruct Hx.
  - simpl. eapply Forall_impl; [exact Htodo|]. intros. by eapply shrinks_let_go.
  - simpl. rewrite (iv_shut _ Hi), Hph. done.
Qed.

Lemma advance_orphan w id reason todo :
  io_inv w -> w_phase w = orphaning ((id, reason) :: todo) ->
  io_inv (resume id (Fail reason) (in_phase (orphaning todo) w)).
Proof.
  intros Hi Hph. pose proof (iv_phase _ Hi) as Hpo. rewrite Hph in Hpo. destruct Hpo as [Howed Hcov].
  assert (id ∉ owed (io_port (w_loop w))) as Ho by (rewrite Howed; set_solver).
  destruct (resume_frame id (Fail reason) (in_phase (orphaning todo) w) Ho)
    as (Hs & Hq & _ & E1 & E2 & E3 & E4 & Hd).
  unfold queues in Hq. injection Hq as _ Hc _ Hsd.
  eapply advance_inv; try done; rewrite ?E1, ?E2, ?E3, ?E4, ?Hc, ?Hsd; try done.
  - apply Hi.
  - intros x. rewrite Hd, Hph. simpl. intros Hx [->|?]%elem_of_cons; [|done].
    rewrite lookup_delete_eq in Hx. by destruct Hx.
  - simpl. rewrite (sh_owed _ _ Hs). split; [done|]. intros x op. rewrite Hd.
    intros [Hne Hx]%lookup_delete_Some. apply Hcov in Hx. simpl in Hx.
    by apply elem_of_cons in Hx as [->|?].
  - simpl. rewrite (iv_shut _ Hi), Hph. done.
Qed.

(** ** Shutting down *)

Lemma orphans_spec es acc :
  let o := foldl add_orphan acc es in
  orphans o = orphans acc ++
    map (fun e => (e.1, default (make_error_code Errc.cancelled) (io_reason e.2))) es /\
  backed o = (backed acc + length (List.filter (fun e => kernel_backed e.2) es))%nat.
Proof.
  revert acc; induction es as [|[id op] es IH]; intros acc; [simpl; by rewrite app_nil_r, Nat.add_0_r|].
  destruct (IH (add_orphan acc (id, op))) as [E1 E2]. cbn [foldl map List.filter].
  rewrite E1, E2. simpl. rewrite <- app_assoc. split; [done|].
  destruct (kernel_backed op); simpl; lia.
Qed.

(** The operations the kernel works on, counted in the table. *)
Lemma owed_size (m : gmap Z IoOp) (X : gset Z) :
  (forall id, id ∈ X <-> exists op, m !! id = Some op /\ kernel_backed op = true) ->
  size X = length (List.filter (fun e => kernel_backed e.2) (map_to_list m)).
Proof.
  intros HX. set (es := List.filter (fun e => kernel_backed e.2) (map_to_list m)).
  assert (X = list_to_set es.*1) as ->.
  { apply set_eq. intros id. rewrite HX, elem_of_list_to_set, list_elem_of_fmap. split.
    - intros (op & Hop & Hk). exists (id, op). split; [done|]. unfold es.
      rewrite list_elem_of_In, List.filter_In, <- list_elem_of_In, elem_of_map_to_list. done.
    - intros ([id' op] & -> & He). unfold es in He.
      rewrite list_elem_of_In, List.filter_In, <- list_elem_of_In, elem_of_map_to_list in He.
      exists op. done. }
  rewrite size_list_to_set, length_fmap; [done|].
  assert (NoDup (map_to_list m).*1) as Hnd by apply NoDup_fst_map_to_list.
  unfold es. clear -Hnd. induction (map_to_list m) as [|[id op] l IH]; simpl; [constructor|].
  simpl in Hnd. apply NoDup_cons in Hnd as [Hni Hnd]. destruct (kernel_backed op); [|by apply IH].
  simpl. constructor; [|by apply IH]. rewrite list_elem_of_fmap in *. intros ([id' op'] & -> & He).
  apply Hni. exists (id', op'). split; [done|].
  rewrite list_elem_of_In, List.filter_In, <- list_elem_of_In in He. apply He.
Qed.

Lemma pin_kind op : io_kind (pin_cancelled op) = io_kind op.
Proof. unfold pin_cancelled. by destruct (io_reason op). Qed.

Lemma collect_frame l o l' :
  shutdown_collect l = (o, l') ->
  shrinks l l' /\ keeps l l' /\ io_cancels l' = [] /\ io_posted l' = [] /\
  io_shutting_down l' = io_shutting_down l /\ io_operations l' = pin_cancelled <$> io_operations l /\
  io_port l' = io_port l /\
  o = foldl add_orphan (mk_orphans [] [] 0) (map_to_list (pin_cancelled <$> io_operations l)).
Proof.
  unfold shutdown_collect. intros [= <- <-]. retouched.
  intros id. simpl. rewrite lookup_fmap. destruct (io_operations l !! id); simpl; [by rewrite pin_kind|done].
Qed.

Lemma advance_collect w w' now :
  io_inv w -> w_phase w = closing -> advance now w = Some w' -> io_inv w'.
Proof.
  intros Hi Hph. unfold advance. rewrite Hph.
  destruct (shutdown_collect (w_loop w)) as [o l'] eqn:Ec. intros [= <-].
  destruct (collect_frame _ _ _ Ec) as (Hs & Hk & Hc & _ & Hsd & Hops & Hport & ->).
  destruct (orphans_spec (map_to_list (pin_cancelled <$> io_operations (w_loop w))) (mk_orphans [] [] 0))
    as [Ho Hb].
  eapply advance_inv; try done; simpl; rewrite ?Hc, ?Hsd.
  - apply Hi.
  - set_solver.
  - by rewrite Hph.
  - split.
    + rewrite Ho. simpl. intros id op Hop. apply list_elem_of_fmap.
      exists (id, default (make_error_code Errc.cancelled) (io_reason op)). split; [done|].
      apply list_elem_of_In, in_map_iff. exists (id, op). split; [done|].
      apply list_elem_of_In, elem_of_map_to_list. by rewrite <- Hops.
    + rewrite Hb. simpl. rewrite <- (owed_size _ (owed (io_port l'))); [done|].
      intros id. rewrite Hport, lookup_fmap. split.
      * intros Hid. destruct (iv_owed _ Hi _ Hid) as (op & Hop & Hkb). exists (pin_cancelled op).
        rewrite Hop. split; [done|]. unfold kernel_backed in *. by rewrite pin_kind.
      * intros (op' & Hop' & Hkb). destruct (io_operations (w_loop w) !! id) as [op|] eqn:Hop; [|done].
        simpl in Hop'. injection Hop' as <-. unfold kernel_backed in Hkb. rewrite pin_kind in Hkb.
        destruct (iv_backed _ Hi _ _ Hop Hkb) as [?|[Hh _]]; [done|]. rewrite Hph in Hh. by apply elem_of_nil in Hh.
  - rewrite (iv_shut _ Hi), Hph. done.
Qed.

(** A move to the next phase that touches nothing. *)
Lemma advance_phase w p' :
  io_inv w -> (forall id, id ∈ hand (w_phase w) -> id ∈ hand p') -> phase_ok (w_loop w) p' ->
  shut_phase p' = shut_phase (w_phase w) -> io_inv (in_phase p' w).
Proof.
  intros Hi Hh Hph Hsd. eapply advance_inv; try done; simpl; [apply Hi|by intros id _; apply Hh|].
  by rewrite Hsd, (iv_shut _ Hi).
Qed.

Lemma deliveries_ids resolved work : omap delivered (deliveries resolved work) = resolved.*1.
Proof.
  unfold deliveries. induction resolved as [|[id r] resolved IH]; [by induction work|].
  simpl in *. by f_equal.
Qed.

Lemma advance_step_inv w w' now : io_inv w -> advance now w = Some w' -> io_inv w'.
Proof.
  intros Hi Ha. pose proof (iv_phase _ Hi) as Hpo.
  destruct (w_phase w) as [|ms|ps res|ts cs work res|cs work res|todo| |[os tc n]|o n|todo|] eqn:Hph;
    try (unfold advance in Ha; rewrite Hph in Ha; done).
  - destruct ps as [|pk ps]; [by eapply advance_drain|by eapply advance_read].
  - destruct ts as [|t ts]; [|by eapply advance_expire].
    unfold advance in Ha. rewrite Hph in Ha. injection Ha as <-.
    apply advance_phase; rewrite ?Hph; try done. apply Hpo.
  - destruct cs as [|id cs]; [|by eapply advance_cancel].
    unfold advance in Ha. rewrite Hph in Ha. injection Ha as <-.
    apply advance_phase; rewrite ?Hph; try done; simpl; rewrite deliveries_ids; [done|apply Hpo].
  - unfold advance in Ha. rewrite Hph in Ha. destruct todo as [|[id outcome|x] todo]; injection Ha as <-.
    + apply advance_phase; rewrite ?Hph; done.
    + by apply advance_deliver.
    + destruct (advance_phase w (delivering todo)); rewrite ?Hph; try done.
  - by eapply advance_collect.
  - unfold advance in Ha. rewrite Hph in Ha. destruct tc as [|[s id] tc]; injection Ha as <-.
    + apply advance_phase; rewrite ?Hph; try done; set_solver.
    + destruct (cancel_io_ex_shrinks s (Some id) (w_loop w)).
      eapply advance_inv; try done; simpl; [apply Hi|by rewrite Hph|].
      rewrite (iv_shut _ Hi), Hph. done.
  - unfold advance in Ha. rewrite Hph in Ha. destruct n; [|done]. injection Ha as <-.
    destruct Hpo as [Hc Hn].
    apply advance_phase; rewrite ?Hph; try done. split; [|done].
    symmetry in Hn. by apply size_empty_inv in Hn; apply leibniz_equiv in Hn.
  - unfold advance in Ha. rewrite Hph in Ha. destruct todo as [|[id r] todo]; injection Ha as <-.
    + destruct Hpo as [Ho Hc].
      destruct (retouch_shrinks (w_loop w) (shutdown_end (w_loop w))); try done.
      eapply advance_inv; try done; simpl; [apply Hi|by rewrite Hph| |].
      * split; [done|]. apply map_empty. intros id.
        destruct (io_operations (w_loop w) !! id) eqn:E; [|done]. apply Hc in E. by apply elem_of_nil in E.
      * rewrite (iv_shut _ Hi), Hph. done.
    + by apply advance_orphan.
Qed.

Lemma exec_inv c w w' : io_inv w -> exec c w = Some w' -> io_inv w'.
Proof.
  intros Hi. unfold exec. destruct c as [rq o coroutine now now' kernel|h|s|id|x| |i|timeout now|ps| |now| |pk].
  - destruct (_ && _ && _ && _ && _) eqn:Eg; [|done]. rewrite !andb_true_iff in Eg.
    destruct Eg as [[[[Hu Hr] _] _] Hfs].
    destruct (io_call _ _ _ _ _ _ _) as [r l'] eqn:Ec. intros [= <-]. by eapply call_inv.
  - destruct (user_code _) eqn:Hu; [|done]. intros [= <-]. destruct (detach_shrinks h (w_loop w)).
    eapply same_queues_inv; try done. by left.
  - destruct (_ && _) eqn:Hu; [|done]. intros [= <-]. destruct (close_socket_shrinks s (w_loop w)).
    eapply same_queues_inv; try done. by right.
  - destruct (id <=? _); [|done]. destruct (request_cancel _ _) as [rest l'] eqn:Ec. intros [= <-].
    by apply request_cancel_inv.
  - unfold post_work. destruct (io_shutting_down (w_loop w)); intros [= <-].
    + apply simple_thread_inv; try done. set_solver.
    + apply simple_thread_inv; try done; [by apply retouch_shrinks|set_solver].
  - intros [= <-]. apply simple_thread_inv; try done; [by apply retouch_shrinks|set_solver].
  - destruct (w_threads w !! i) as [[|t rest]|] eqn:Et; try done.
    destruct (thread_step t (w_loop w)) as [more l'] eqn:Es. intros [= <-]. by eapply thread_inv.
  - destruct (w_phase w) eqn:Hph; try done; [|by intros [= <-]].
    destruct (_ && _); [|done]. intros [= <-].
    apply (advance_phase (set_w_clock now w)); simpl; rewrite ?Hph; try done.
    destruct Hi. by constructor.
  - destruct (w_phase w) eqn:Hph; try done. destruct (_ && _) eqn:Eg; [|done]. intros [= <-].
    apply andb_true_iff in Eg as [Hok _]. apply dequeue_reading; rewrite ?Hph; done.
  - destruct (w_phase w) eqn:Hph; try done. intros [= <-]. apply advance_phase; rewrite ?Hph; done.
  - by apply advance_step_inv.
  - destruct (io_shutting_down _) eqn:Hsd; [by intros [= <-]|].
    destruct (w_phase w) eqn:Hph; try done. intros [= <-].
    destruct (retouch_shrinks (w_loop w) (shutdown_begin (w_loop w))); try done.
    eapply advance_inv; try done; simpl; [apply Hi|by rewrite Hph].
  - destruct (w_phase w) eqn:Hph; try done. destruct n as [|n]; [done|].
    destruct (packets_ok _ _) eqn:Hok; [|done]. intros [= <-]. by apply dequeue_draining.
Qed.

Lemma new_world_io_inv : io_inv new_world.
Proof.
  constructor; simpl; try done; try (intros *; set_solver).
  - by constructor; [constructor|..].
  - intros id []. done.
Qed.
