(* ===== verification/IocpLedger.v ===== *)
(** * IocpLedger: every operation of the Windows loop is answered exactly once

    The history of a run: who was suspended, who was resumed with what, which
    packets were dequeued, which sockets are whose. *)

From stdpp Require Import gmap.
From S2P Require Import Prelude Errors Timers Iocp IocpRun IocpCalls IocpInv.

Local Open Scope Z_scope.

(** ** How an operation changes while it is in the table *)

(** A handle may be closed under it, its answer may be pinned once, and its
    deadline withdrawn. *)
Definition touched (op op' : IoOp) : Prop :=
  exists b r h, op' = with_io_deadline h (with_io_reason r (with_io_closed b op)) /\
    (io_closed op = true -> b = true) /\ (forall e, io_reason op = Some e -> r = Some e) /\
    (h = io_deadline op \/ h = no_timer).

#[export] Instance touched_preorder : PreOrder touched.
Proof.
  split.
  - intros op. exists (io_closed op), (io_reason op), (io_deadline op). split_and!; auto. by destruct op.
  - intros op1 op2 op3 (b1 & r1 & h1 & -> & Hb1 & Hr1 & Hh1) (b2 & r2 & h2 & -> & Hb2 & Hr2 & Hh2).
    simpl in *. exists b2, r2, h2. split_and!; [done|auto|auto|]. naive_solver.
Qed.

(** The operations that were there before are the same ones. *)
Definition touches (l l' : Iocp) : Prop :=
  forall id op', id <= io_next_id l -> io_operations l' !! id = Some op' ->
    exists op, io_operations l !! id = Some op /\ touched op op'.

(** The same operations, some of them touched, and the same sockets. *)
Record quiet (l l' : Iocp) : Prop := {
  q_ops : forall id, match io_operations l !! id, io_operations l' !! id with
          | Some op, Some op' => touched op op'
          | None, None => True
          | _, _ => False
          end;
  q_sockets : sockets (io_port l') = sockets (io_port l);
  q_next : io_next_id l <= io_next_id l';
}.

#[export] Instance quiet_preorder : PreOrder quiet.
Proof.
  split.
  - intros l. constructor; [|done|lia]. intros id. by destruct (io_operations l !! id).
  - intros l1 l2 l3 [O1 S1 N1] [O2 S2 N2]. constructor; [|congruence|lia]. intros id.
    specialize (O1 id). specialize (O2 id).
    destruct (io_operations l1 !! id), (io_operations l2 !! id), (io_operations l3 !! id); try done.
    etransitivity; eassumption.
Qed.

Lemma quiet_same l l' :
  io_operations l' = io_operations l -> sockets (io_port l') = sockets (io_port l) ->
  io_next_id l <= io_next_id l' -> quiet l l'.
Proof. intros E1 E2 E3. constructor; [|done|done]. intros id. rewrite E1. by destruct (io_operations l !! id). Qed.

Lemma quiet_touches l l' : quiet l l' -> touches l l'.
Proof.
  intros Q id op' _ Hop'. pose proof (q_ops _ _ Q id) as H. rewrite Hop' in H.
  destruct (io_operations l !! id) as [op|]; [by exists op|done].
Qed.

Lemma quiet_fix_reason id e l r l' : fix_reason id e l = (r, l') -> quiet l l'.
Proof.
  unfold fix_reason. destruct (io_operations l !! id) as [op|] eqn:Hop; [destruct (io_reason op) eqn:Er|];
    intros [= <- <-]; try done.
  constructor; simpl; [|done|lia]. unfold OperationId in *. intros x. destruct (decide (id = x)) as [<-|Hne].
  - rewrite lookup_alter_eq, Hop. simpl. exists (io_closed op), (Some e), no_timer.
    split_and!; [by destruct op|done|by rewrite Er|by right].
  - rewrite lookup_alter_ne by done. by destruct (io_operations l !! x).
Qed.

Lemma quiet_cancel_io f l : quiet l (cancel_io f l).
Proof. unfold cancel_io. destruct (fixed_target f) as [[s o]|]; [|done]. by apply quiet_same. Qed.

Lemma quiet_fmap f l l' :
  (forall op, touched op (f op)) -> io_operations l' = f <$> io_operations l ->
  sockets (io_port l') = sockets (io_port l) -> io_next_id l <= io_next_id l' -> quiet l l'.
Proof.
  intros Hf E1 E2 E3. constructor; [|done|done]. intros id. rewrite E1, lookup_fmap.
  destruct (io_operations l !! id); simpl; [by apply Hf|done].
Qed.

Lemma touched_detach h op : touched op (if io_socket op =? h then with_io_closed true op else op).
Proof.
  destruct (io_socket op =? h); [|done]. exists true, (io_reason op), (io_deadline op).
  split_and!; auto.
Qed.

Lemma touched_pin op : touched op (pin_cancelled op).
Proof.
  unfold pin_cancelled. destruct (io_reason op) eqn:Er; [done|].
  exists (io_closed op), (Some (make_error_code Errc.cancelled)), (io_deadline op).
  split_and!; auto; by rewrite Er.
Qed.

Lemma quiet_wake_begin l b l' : wake_begin l = (b, l') -> quiet l l'.
Proof. unfold wake_begin. destruct (io_wake_pending l); intros [= <- <-]; [done|]. by apply quiet_same. Qed.

Lemma quiet_nudge l : quiet l (nudge l).
Proof. unfold nudge. destruct (port_open _); [|done]. by apply quiet_same. Qed.

Lemma quiet_thread t l more l' : thread_step t l = (more, l') -> quiet l l'.
Proof.
  destruct t; simpl.
  - intros [= <- <-]. apply quiet_cancel_io.
  - intros [= <- <-]. by apply quiet_same.
  - destruct (wake_begin l) as [b l1] eqn:E. intros [= <- <-]. by eapply quiet_wake_begin.
  - intros [= <- <-]. apply quiet_nudge.
Qed.

Lemma quiet_request_cancel id l rest l' : request_cancel id l = (rest, l') -> quiet l l'.
Proof.
  unfold request_cancel. destruct (fix_reason _ _ l) as [[f|] l1] eqn:E; intros [= <- <-];
    by eapply quiet_fix_reason.
Qed.

Lemma quiet_expire t l r l' : expire_target t l = (r, l') -> quiet l l'.
Proof.
  unfold expire_target. destruct (negb _); [by intros [= <- <-]|].
  destruct (fix_reason _ _ l) as [[f|] l1] eqn:E; intros [= <- <-].
  - transitivity l1; [by eapply quiet_fix_reason|apply quiet_cancel_io].
  - by eapply quiet_fix_reason.
Qed.

Lemma quiet_drain now l out cs work l' : drain_queues now l = (out, cs, work, l') -> quiet l l'.
Proof.
  unfold drain_queues. destruct (extract_expired now (io_timers l)). intros [= <- <- <- <-].
  by apply quiet_same.
Qed.

Lemma quiet_refusal l l' : refusal l l' -> quiet l l'.
Proof. intros R. apply quiet_same; [apply R|by rewrite (rf_port _ _ R)|apply R]. Qed.

(** ** What a move does to the table and the history *)

Definition same_history (w w' : World) : Prop :=
  w_log w' = w_log w /\ w_issued w' = w_issued w /\ w_given w' = w_given w.

Inductive effect (w w' : World) : Prop :=
| ef_submit rq o coroutine id op :
    submission rq o coroutine (w_loop w) (w_loop w') id op -> fresh_socket rq (w_loop w) = true ->
    w_log w' = w_log w -> w_given w' = w_given w ->
    w_issued w' = w_issued w ++ [mk_issued id coroutine rq o] -> effect w w'
| ef_resume id outcome op a :
    io_operations (w_loop w) !! id = Some op -> id ∉ owed (io_port (w_loop w)) ->
    finalize_op id outcome (w_loop w) = (Some (op, a), w_loop w') ->
    w_log w' = w_log w ++ [mk_resumed id op outcome] -> w_issued w' = w_issued w ->
    w_given w' = given_socket op outcome ∪ w_given w -> effect w w'
| ef_quiet : quiet (w_loop w) (w_loop w') -> same_history w w' -> effect w w'
| ef_close s :
    s ∈ w_given w -> w_loop w' = close_socket s (w_loop w) -> w_log w' = w_log w ->
    w_issued w' = w_issued w -> w_given w' = w_given w ∖ {[s]} -> effect w w'.

Lemma resume_effect id outcome w p :
  id ∉ owed (io_port (w_loop w)) -> effect w (resume id outcome (in_phase p w)).
Proof.
  intros Ho. unfold resume. destruct (finalize_op id outcome (w_loop (in_phase p w))) as [[[op a]|] l'] eqn:Ef.
  - destruct (finalize_op_shrinks _ _ _ _ _ Ho Ef) as (_ & _ & _ & _ & _ & Hr & _).
    eapply ef_resume; done.
  - destruct (finalize_op_shrinks _ _ _ _ _ Ho Ef) as (_ & _ & _ & _ & _ & Hr & _). simpl in *.
    unfold finalize_op, take_op in Ef. rewrite <- Hr in Ef. injection Ef as <-. by apply ef_quiet.
Qed.

Lemma apply_effect_quiet id e w :
  quiet (w_loop w) (w_loop (apply_effect id e w)) /\ same_history w (apply_effect id e w).
Proof.
  destruct e as [|n a|s]; simpl; [done|by destruct id|]. split; [by apply quiet_same|done].
Qed.

Lemma advance_effect now w w' : io_inv w -> advance now w = Some w' -> effect w w'.
Proof.
  intros Hi. pose proof (iv_phase _ Hi) as Hpo. unfold advance.
  destruct (w_phase w) as [|ms|ps res|ts cs work res|cs work res|todo| |[os tc n]|o n|todo|] eqn:Hph; try done.
  - destruct ps as [|pk ps].
    + destruct (_ <=? _); [|done]. destruct (drain_queues _ _) as [[[exp cs] work] l'] eqn:Ed.
      intros [= <-]. apply ef_quiet; [by eapply quiet_drain|done].
    + intros [= <-]. destruct (read_packet pk (w_loop w)) as [[r e]|]; [|by apply ef_quiet].
      destruct (apply_effect_quiet (packet_id pk) e w). by apply ef_quiet.
  - destruct ts as [|t ts].
    + intros [= <-]. by apply ef_quiet.
    + destruct (expire_target t _) as [r l'] eqn:Ee. intros [= <-].
      apply ef_quiet; [by eapply quiet_expire|done].
  - destruct cs; intros [= <-]; by apply ef_quiet.
  - destruct todo as [|[id outcome|x] todo]; intros [= <-]; [by apply ef_quiet| |by apply ef_quiet].
    apply resume_effect. simpl in Hpo. apply Forall_cons in Hpo as [[_ ?] _]. done.
  - destruct (shutdown_collect _) as [o l'] eqn:Ec. intros [= <-].
    destruct (collect_frame _ _ _ Ec) as (Hs & _ & _ & _ & _ & Hops & Hport & _).
    apply ef_quiet; [|done]. eapply quiet_fmap; [apply touched_pin|done|simpl; by rewrite Hport|apply Hs].
  - destruct tc as [|[s id] tc]; intros [= <-]; apply ef_quiet; try done. by apply quiet_same.
  - destruct n; intros [= <-]. by apply ef_quiet.
  - destruct todo as [|[id r] todo]; intros [= <-].
    + apply ef_quiet; [|done]. by apply quiet_same.
    + apply resume_effect. destruct Hpo as [-> _]. set_solver.
Qed.

Lemma exec_effect c w w' : io_inv w -> exec c w = Some w' -> effect w w'.
Proof.
  intros Hi. unfold exec. destruct c as [rq o coroutine now now' kernel|h|s|id|x| |i|timeout now|ps| |now| |pk].
  - destruct (_ && _ && _ && _ && _) eqn:Eg; [|done]. rewrite !andb_true_iff in Eg.
    destruct Eg as [[[[Hu Hr] _] _] Hfs].
    pose proof (io_call_spec rq o coroutine now now' kernel _ (ready_inv _ Hi Hr) Hfs) as Hsp.
    destruct (io_call _ _ _ _ _ _ _) as [[r|id] l'] eqn:Ec; intros [= <-]; simpl in Hsp.
    + apply ef_quiet; [by apply quiet_refusal|done].
    + destruct Hsp as [op S]. by eapply ef_submit.
  - destruct (user_code _); [|done]. intros [= <-]. apply ef_quiet; [|done].
    eapply quiet_fmap; [apply (touched_detach h)|done|done|simpl; lia].
  - destruct (_ && _) eqn:Hu; [|done]. apply andb_true_iff in Hu as [_ Hs].
    apply bool_decide_eq_true in Hs. intros [= <-]. by eapply ef_close.
  - destruct (id <=? _); [|done]. destruct (request_cancel _ _) as [rest l'] eqn:Ec. intros [= <-].
    apply ef_quiet; [by eapply quiet_request_cancel|done].
  - unfold post_work. destruct (io_shutting_down (w_loop w)); intros [= <-]; apply ef_quiet; try done.
    by apply quiet_same.
  - intros [= <-]. apply ef_quiet; [|done]. by apply quiet_same.
  - destruct (w_threads w !! i) as [[|t rest]|] eqn:Et; try done.
    destruct (thread_step t (w_loop w)) as [more l'] eqn:Es. intros [= <-].
    apply ef_quiet; [by eapply quiet_thread|done].
  - destruct (w_phase w); try done; [|intros [= <-]; by apply ef_quiet].
    destruct (_ && _); [|done]. intros [= <-]. by apply ef_quiet.
  - destruct (w_phase w); try done. destruct (_ && _); [|done]. intros [= <-].
    apply ef_quiet; [|done]. by apply quiet_same.
  - destruct (w_phase w); try done. intros [= <-]. by apply ef_quiet.
  - by apply advance_effect.
  - destruct (io_shutting_down _); [intros [= <-]; by apply ef_quiet|].
    destruct (w_phase w); try done. intros [= <-]. apply ef_quiet; [|done]. by apply quiet_same.
  - destruct (w_phase w) as [| | | | | | | |o n| |]; try done. destruct n as [|n]; [done|].
    destruct (packets_ok _ _); [|done]. intros [= <-]. apply ef_quiet; [|done]. by apply quiet_same.
Qed.
