(* ===== verification/IocpVerdict.v ===== *)
(** * IocpVerdict: what a resumed coroutine is told

    Each outcome the Windows loop delivers has its cause in the run: the packet of
    the operation, read as [classify] reads it, or the reason pinned before, which
    was asked for, overdue or the end of the loop; a sleep that succeeds has slept. *)

From stdpp Require Import gmap.
From S2P Require Import Prelude Errors Timers Iocp IocpRun IocpCalls IocpInv IocpLedger.

Local Open Scope Z_scope.

(** ** The history only grows *)

Record grows (w w' : World) : Prop := {
  gr_issued : forall i, i ∈ w_issued w -> i ∈ w_issued w';
  gr_clock : w_clock w <= w_clock w';
  gr_asked : w_asked w ⊆ w_asked w';
  gr_packets : forall id pk, w_packets w !! id = Some pk -> w_packets w' !! id = Some pk;
  gr_shut : io_shutting_down (w_loop w) = true -> io_shutting_down (w_loop w') = true;
}.

Lemma recorded_other ps m id :
  id ∉ packet_ids ps -> foldl record_packet m ps !! id = m !! id.
Proof.
  revert m; induction ps as [|pk ps IH]; intros m; [done|]. unfold packet_ids. simpl. intros Hni.
  rewrite IH; [|unfold packet_ids; destruct (packet_id pk); set_solver].
  unfold record_packet. destruct (packet_id pk) as [x|]; [|done].
  rewrite lookup_insert_ne; [done|]. set_solver.
Qed.

Lemma packets_grow w ps id pk :
  io_inv w -> packets_ok ps (w_loop w) = true -> w_packets w !! id = Some pk ->
  foldl record_packet (w_packets w) ps !! id = Some pk.
Proof.
  intros Hi Hok Hpk. rewrite recorded_other; [done|]. intros Hin.
  destruct (packets_ok_spec _ _ Hok) as (Ho & _). apply Ho in Hin.
  by destruct (iv_packets _ Hi id (ltac:(by eexists))) as [_ Hno].
Qed.

Lemma apply_effect_history id e w :
  w_issued (apply_effect id e w) = w_issued w /\ w_clock (apply_effect id e w) = w_clock w /\
  w_asked (apply_effect id e w) = w_asked w /\ w_packets (apply_effect id e w) = w_packets w /\
  w_log (apply_effect id e w) = w_log w /\
  io_shutting_down (w_loop (apply_effect id e w)) = io_shutting_down (w_loop w) /\
  io_operations (w_loop (apply_effect id e w)) = io_operations (w_loop w) /\
  io_timers (w_loop (apply_effect id e w)) = io_timers (w_loop w).
Proof. destruct e; simpl; [done|by destruct id|done]. Qed.

(** A history with the same entries. *)
Lemma grows_same w w' :
  w_issued w' = w_issued w -> w_clock w <= w_clock w' -> w_asked w' = w_asked w ->
  w_packets w' = w_packets w -> io_shutting_down (w_loop w') = io_shutting_down (w_loop w) -> grows w w'.
Proof. intros E1 E2 E3 E4 E5. constructor; rewrite ?E1, ?E3, ?E4, ?E5; done. Qed.

Lemma resume_grows id outcome p w :
  id ∉ owed (io_port (w_loop w)) -> grows w (resume id outcome (in_phase p w)).
Proof.
  intros Ho. destruct (resume_frame id outcome (in_phase p w) Ho) as (_ & Hq & _ & Hp & _).
  unfold queues in Hq. injection Hq as _ _ _ Hsd.
  apply grows_same; try done; unfold resume; destruct (finalize_op _ _ _) as [[[op a]|] l']; done.
Qed.

Lemma advance_grows now w w' : io_inv w -> advance now w = Some w' -> grows w w'.
Proof.
  intros Hi. pose proof (iv_phase _ Hi) as Hpo. unfold advance.
  destruct (w_phase w) as [|ms|ps res|ts cs work res|cs work res|todo| |[os tc n]|o n|todo|] eqn:Hph; try done.
  - destruct ps as [|pk ps].
    + destruct (w_clock w <=? now) eqn:Hc; [|done]. apply Z.leb_le in Hc.
      destruct (drain_queues _ _) as [[[exp cs] work] l'] eqn:Ed. intros [= <-].
      destruct (drain_queues_shrinks _ _ _ _ _ _ (iv_wf _ Hi) Ed) as (_ & _ & Hsd & _). by apply grows_same.
    + intros [= <-]. destruct (read_packet pk (w_loop w)) as [[r e]|]; [|by apply grows_same].
      destruct (apply_effect_history (packet_id pk) e w) as (H1 & H2 & H3 & H4 & _ & H5 & _).
      apply grows_same; simpl; congruence || lia.
  - destruct ts as [|t ts]; [intros [= <-]; by apply grows_same|].
    destruct (expire_target t _) as [r l'] eqn:Ee. intros [= <-]. simpl in Hpo.
    destruct Hpo as [[Ht _]%Forall_cons _].
    destruct (expire_target_spec _ _ _ _ (iv_ids _ Hi) Ht Ee) as (_ & _ & Hq & _).
    unfold queues in Hq. injection Hq as _ _ _ Hsd. by apply grows_same.
  - destruct cs; intros [= <-]; by apply grows_same.
  - destruct todo as [|[id outcome|x] todo]; intros [= <-]; [by apply grows_same| |by apply grows_same].
    apply resume_grows. simpl in Hpo. by apply Forall_cons in Hpo as [[_ ?] _].
  - destruct (shutdown_collect _) as [o l'] eqn:Ec. intros [= <-].
    destruct (collect_frame _ _ _ Ec) as (_ & _ & _ & _ & Hsd & _). by apply grows_same.
  - destruct tc as [|[s id] tc]; intros [= <-]; by apply grows_same.
  - destruct n; intros [= <-]. by apply grows_same.
  - destruct todo as [|[id r] todo]; intros [= <-]; [by apply grows_same|].
    apply resume_grows. destruct Hpo as [-> _]. set_solver.
Qed.

Lemma exec_grows c w w' : io_inv w -> exec c w = Some w' -> grows w w'.
Proof.
  intros Hi. unfold exec. destruct c as [rq o coroutine now now' kernel|h|s|id|x| |i|timeout now|ps| |now| |pk].
  - destruct (_ && _ && _ && _ && _) eqn:Eg; [|done]. rewrite !andb_true_iff, !Z.leb_le in Eg.
    destruct Eg as [[[[Hu Hr] Hc1] Hc2] Hfs].
    pose proof (io_call_spec rq o coroutine now now' kernel _ (ready_inv _ Hi Hr) Hfs) as Hsp.
    destruct (io_call _ _ _ _ _ _ _) as [[r|id] l'] eqn:Ec; intros [= <-]; simpl in Hsp.
    + pose proof (rf_queues _ _ Hsp) as Hq. unfold queues in Hq. injection Hq as _ _ _ Hsd.
      apply grows_same; simpl; try done. lia.
    + destruct Hsp as [op S]. pose proof (sb_queues _ _ _ _ _ _ _ S) as Hq. unfold queues in Hq.
      injection Hq as _ _ _ Hsd. constructor; simpl; try done; [set_solver|lia|by rewrite Hsd].
  - destruct (user_code _); [|done]. intros [= <-]. by apply grows_same.
  - destruct (_ && _); [|done]. intros [= <-]. by apply grows_same.
  - destruct (id <=? _); [|done]. destruct (request_cancel _ _) as [rest l'] eqn:Ec. intros [= <-].
    constructor; simpl; try done; [set_solver|]. unfold request_cancel in Ec.
    destruct (fix_reason id _ _) as [r l1] eqn:Ef.
    destruct (fix_reason_spec _ _ _ _ _ (iv_ids _ Hi) Ef) as (_ & _ & Hq & _).
    unfold queues in Hq. injection Hq as _ _ _ Hsd. destruct r; injection Ec as _ <-; by rewrite Hsd.
  - unfold post_work. destruct (io_shutting_down (w_loop w)) eqn:E; intros [= <-]; by apply grows_same; simpl.
  - intros [= <-]. by apply grows_same.
  - destruct (w_threads w !! i) as [[|t rest]|] eqn:Et; try done.
    destruct (thread_step t (w_loop w)) as [more l'] eqn:Es. intros [= <-].
    pose proof (exec_inv (c_thread i) w) as Hx. simpl in Hx. rewrite Et, Es in Hx.
    specialize (Hx _ Hi eq_refl). apply grows_same; simpl; try done.
    pose proof (iv_shut _ Hx) as H1. pose proof (iv_shut _ Hi) as H2. simpl in *. congruence.
  - destruct (w_phase w); try done; [|intros [= <-]; by apply grows_same].
    destruct (_ && _) eqn:Eg; [|done]. apply andb_true_iff in Eg as [Eg _]. apply Z.leb_le in Eg.
    intros [= <-]. by apply grows_same.
  - destruct (w_phase w); try done. destruct (_ && _) eqn:Eg; [|done].
    apply andb_true_iff in Eg as [Eg _]. intros [= <-]. constructor; simpl; try done.
    intros. by apply packets_grow.
  - destruct (w_phase w); try done. intros [= <-]. by apply grows_same.
  - by apply advance_grows.
  - destruct (io_shutting_down _) eqn:Hsd; [intros [= <-]; by apply grows_same|].
    destruct (w_phase w); try done. intros [= <-]. by constructor.
  - destruct (w_phase w) as [| | | | | | | |o n| |]; try done. destruct n as [|n]; [done|].
    destruct (packets_ok _ _) eqn:Hok; [|done]. intros [= <-]. constructor; simpl; try done.
    intros. by apply (packets_grow _ [pk]).
Qed.

(** ** Causes *)

(** A suspension of [id] asked to be woken, or cut short, at a time that has come. *)
Definition came_due (w : World) (id : OperationId) (dl : bool) : Prop :=
  exists i t, i ∈ w_issued w /\ s_id i = id /\
    (if dl then opt_deadline (s_options i) else s_wake_at i) = Some t /\ t <= w_clock w.

(** An answer pinned before the operation could be resolved. *)
Definition pinned (op : IoOp) (outcome : Result Z) : Prop :=
  exists e, io_reason op = Some e /\ outcome = Fail e.

(** A pinned reason was asked for, came due, or is the end of the loop. *)
Definition reason_ok (w : World) (id : OperationId) (op : IoOp) : Prop :=
  forall e, io_reason op = Some e ->
    (e = make_error_code Errc.cancelled /\
     (id ∈ w_asked w \/ io_shutting_down (w_loop w) = true)) \/
    (e = make_error_code Errc.timed_out /\ came_due w id true).

(** The packet of an operation that has been dequeued. *)
Definition its_packet (w : World) (id : OperationId) (op : IoOp) (pk : Packet) : Prop :=
  w_packets w !! id = Some pk /\ 0 <= pk_transferred pk <= buffers_length op.

(** What [id] may be told: for an operation of the kernel, what its packet says (as
    the handle was then, open or closed) or the pinned reason, and in either case
    after the packet; for a timer, success once it is due, or the pinned reason. *)
Definition verdict (w : World) (id : OperationId) (op : IoOp) (outcome : Result Z) : Prop :=
  if kernel_backed op then
    exists pk b, its_packet w id op pk /\ (b = true -> io_closed op = true) /\
      (outcome = (classify (with_io_closed b op) pk).1 \/ pinned op outcome)
  else (outcome = Ok 0 /\ came_due w id false) \/ pinned op outcome.

Lemma came_due_grows w w' id dl : grows w w' -> came_due w id dl -> came_due w' id dl.
Proof.
  intros Hg (i & t & Hi & Hid & Ht & Hle). exists i, t.
  split_and!; [by apply (gr_issued _ _ Hg)|done|done|pose proof (gr_clock _ _ Hg); lia].
Qed.

Lemma reason_ok_grows w w' id op : grows w w' -> reason_ok w id op -> reason_ok w' id op.
Proof.
  intros Hg Hr e He. destruct (Hr e He) as [[-> [Ha|Hs]]|[-> Hd]].
  - left. split; [done|left]. by apply (gr_asked _ _ Hg).
  - left. split; [done|right]. by apply (gr_shut _ _ Hg).
  - right. split; [done|]. by eapply came_due_grows.
Qed.

Lemma verdict_grows w w' id op outcome :
  grows w w' -> verdict w id op outcome -> verdict w' id op outcome.
Proof.
  intros Hg. unfold verdict. destruct (kernel_backed op).
  - intros (pk & b & [Hp Hl] & Hb & Ho). exists pk, b. split_and!; try done.
    split; [by apply (gr_packets _ _ Hg)|done].
  - intros [[? ?]|?]; [left|by right]. split; [done|by eapply came_due_grows].
Qed.

Lemma verdict_touched w id op op' outcome :
  touched op op' -> verdict w id op outcome -> verdict w id op' outcome.
Proof.
  intros (b & r & h & -> & Hb & Hr & _). unfold verdict, kernel_backed. simpl.
  assert (pinned op outcome -> pinned (with_io_deadline h (with_io_reason r (with_io_closed b op))) outcome)
    as Hpin.
  { intros (e & He & ->). exists e. by rewrite (Hr e He). }
  destruct (negb _).
  - intros (pk & b' & [Hp Hl] & Hb' & Ho). exists pk, b'. split_and!; [done| |].
    + intros E. by apply Hb, Hb'.
    + destruct Ho as [Ho|?]; [left|by right; apply Hpin]. by rewrite Ho.
  - naive_solver.
Qed.

(** ** The invariant *)

(** The resolutions a phase has still to deliver. *)
Definition to_deliver (p : Phase) : list (OperationId * Result Z) :=
  match p with
  | reading _ resolved | expiring _ _ _ resolved | cancelling _ _ resolved => resolved
  | delivering todo => omap (fun d => match d with deliver id r => Some (id, r) | _ => None end) todo
  | _ => []
  end.

(** The operations [shutdown] has listed with the reason each was given. *)
Definition listed (p : Phase) : list (OperationId * Error) :=
  match p with
  | aborting o | draining o _ => orphans o
  | orphaning todo => todo
  | _ => []
  end.

(** The packets a phase has still to read. *)
Definition unread (p : Phase) : list Packet := match p with reading ps _ => ps | _ => [] end.

Definition fired_timers (p : Phase) : list TimerTarget :=
  match p with expiring ts _ _ _ => ts | _ => [] end.

Record told_inv (w : World) : Prop := {
  tv_timers : forall d s t, ((d, s), t) ∈ timers_ (io_timers (w_loop w)) ->
    exists i, i ∈ w_issued w /\ s_id i = operation t /\
      (if is_deadline t then opt_deadline (s_options i) else s_wake_at i) = Some d;
  tv_fired : forall t, t ∈ fired_timers (w_phase w) -> came_due w (operation t) (is_deadline t);
  tv_reasons : forall id op, io_operations (w_loop w) !! id = Some op -> reason_ok w id op;
  tv_packets : forall id op pk, io_operations (w_loop w) !! id = Some op ->
    w_packets w !! id = Some pk ->
    kernel_backed op = true /\ 0 <= pk_transferred pk <= buffers_length op;
  tv_unread : forall pk id, pk ∈ unread (w_phase w) -> packet_id pk = Some id ->
    w_packets w !! id = Some pk;
  tv_todo : forall id outcome op, (id, outcome) ∈ to_deliver (w_phase w) ->
    io_operations (w_loop w) !! id = Some op -> verdict w id op outcome;
  tv_listed : forall id e op, (id, e) ∈ listed (w_phase w) ->
    io_operations (w_loop w) !! id = Some op -> io_reason op = Some e;
  tv_log : forall r, r ∈ w_log w ->
    verdict w (r_id r) (r_op r) (r_outcome r) /\ reason_ok w (r_id r) (r_op r);
}.

Lemma touched_buffers op op' : touched op op' -> buffers_length op' = buffers_length op.
Proof. by intros (b & r & h & -> & _). Qed.

Lemma touched_backed op op' : touched op op' -> kernel_backed op' = kernel_backed op.
Proof. by intros (b & r & h & -> & _). Qed.

(** A move after which every operation in the table is one that was there before,
    resolves to what it is told, and resumes nobody. *)
Lemma told_keeps w w' :
  io_inv w -> told_inv w -> grows w w' -> touches (w_loop w) (w_loop w') ->
  (forall id op', io_operations (w_loop w') !! id = Some op' -> id <= io_next_id (w_loop w)) ->
  (forall e, e ∈ timers_ (io_timers (w_loop w')) -> e ∈ timers_ (io_timers (w_loop w))) ->
  (forall t, t ∈ fired_timers (w_phase w') -> came_due w' (operation t) (is_deadline t)) ->
  (forall id op op', io_operations (w_loop w) !! id = Some op ->
     io_operations (w_loop w') !! id = Some op' -> io_reason op' = io_reason op \/ reason_ok w' id op') ->
  (forall id pk, w_packets w' !! id = Some pk -> w_packets w !! id = Some pk \/
     forall op', io_operations (w_loop w') !! id = Some op' ->
       kernel_backed op' = true /\ 0 <= pk_transferred pk <= buffers_length op') ->
  (forall pk id, pk ∈ unread (w_phase w') -> packet_id pk = Some id ->
     pk ∈ unread (w_phase w) \/ w_packets w' !! id = Some pk) ->
  (forall id outcome op', (id, outcome) ∈ to_deliver (w_phase w') ->
     io_operations (w_loop w') !! id = Some op' ->
     (id, outcome) ∈ to_deliver (w_phase w) \/ verdict w' id op' outcome) ->
  (forall id e op', (id, e) ∈ listed (w_phase w') -> io_operations (w_loop w') !! id = Some op' ->
     (id, e) ∈ listed (w_phase w) \/ io_reason op' = Some e) ->
  (forall r, r ∈ w_log w' -> r ∈ w_log w \/
     (verdict w' (r_id r) (r_op r) (r_outcome r) /\ reason_ok w' (r_id r) (r_op r))) ->
  told_inv w'.
Proof.
  intros Hi Ht Hg Htch Hold Htm Hf Hr Hp Hu Hd Hl Hlog. constructor.
  - intros d s t Hin. destruct (tv_timers _ Ht _ _ _ (Htm _ Hin)) as (i & H1 & H2 & H3).
    exists i. split; [by apply (gr_issued _ _ Hg)|done].
  - done.
  - intros id op' Hop'. destruct (Htch _ _ (Hold _ _ Hop') Hop') as (op & Hop & _).
    destruct (Hr _ _ _ Hop Hop') as [E|?]; [|done]. eapply reason_ok_grows; [done|].
    intros e. rewrite E. by apply (tv_reasons _ Ht _ _ Hop).
  - intros id op' pk Hop' Hpk. destruct (Hp _ _ Hpk) as [Hpk'|Hx]; [|by apply Hx].
    destruct (Htch _ _ (Hold _ _ Hop') Hop') as (op & Hop & Htc).
    rewrite (touched_buffers _ _ Htc), (touched_backed _ _ Htc). by eapply (tv_packets _ Ht).
  - intros pk id Hin Hpid. destruct (Hu _ _ Hin Hpid) as [Hin'|?]; [|done].
    by eapply (gr_packets _ _ Hg), (tv_unread _ Ht).
  - intros id outcome op' Hin Hop'. destruct (Hd _ _ _ Hin Hop') as [Hin'|?]; [|done].
    destruct (Htch _ _ (Hold _ _ Hop') Hop') as (op & Hop & Htc).
    eapply verdict_grows, verdict_touched, (tv_todo _ Ht); done.
  - intros id e op' Hin Hop'. destruct (Hl _ _ _ Hin Hop') as [Hin'|?]; [|done].
    destruct (Htch _ _ (Hold _ _ Hop') Hop') as (op & Hop & (b & r & h & -> & _ & Hre & _)).
    simpl. apply Hre. by eapply (tv_listed _ Ht).
  - intros r Hr'. destruct (Hlog r Hr') as [Hr''|?]; [|done].
    destruct (tv_log _ Ht r Hr'') as [H1 H2]. split; [by eapply verdict_grows|by eapply reason_ok_grows].
Qed.

Lemma quiet_old w w' id op' :
  io_inv w -> quiet (w_loop w) (w_loop w') -> io_operations (w_loop w') !! id = Some op' ->
  id <= io_next_id (w_loop w).
Proof.
  intros Hi Q Hop'. pose proof (q_ops _ _ Q id) as H. rewrite Hop' in H.
  destruct (io_operations (w_loop w) !! id) as [op|] eqn:Hop; [|done].
  by apply (proj2 (iv_ids _ Hi) _ _ Hop).
Qed.

(** A move that resumes nobody and leaves the phase alone. *)
Lemma told_same_phase w w' :
  io_inv w -> told_inv w -> grows w w' -> quiet (w_loop w) (w_loop w') ->
  (forall e, e ∈ timers_ (io_timers (w_loop w')) -> e ∈ timers_ (io_timers (w_loop w))) ->
  (forall id op op', io_operations (w_loop w) !! id = Some op ->
     io_operations (w_loop w') !! id = Some op' -> io_reason op' = io_reason op \/ reason_ok w' id op') ->
  w_phase w' = w_phase w -> w_packets w' = w_packets w -> w_log w' = w_log w -> told_inv w'.
Proof.
  intros Hi Ht Hg Q Htm Hr Hph Hp Hlog.
  eapply told_keeps; try eassumption; rewrite ?Hph, ?Hp, ?Hlog; auto.
  - by apply quiet_touches.
  - intros id op' Hop'. by eapply quiet_old.
  - intros t Hin. eapply came_due_grows, (tv_fired _ Ht); done.
Qed.

Lemma same_ops_reasons (l l' : Iocp) (w' : World) :
  io_operations l' = io_operations l ->
  forall id op op', io_operations l !! id = Some op -> io_operations l' !! id = Some op' ->
    io_reason op' = io_reason op \/ reason_ok w' id op'.
Proof. intros E id op op' H1 H2. rewrite E in H2. simplify_eq. by left. Qed.

(** What pinning changes. *)
Lemma fix_reason_reasons id e l r l' :
  fix_reason id e l = (r, l') ->
  forall x op op', io_operations l !! x = Some op -> io_operations l' !! x = Some op' ->
    io_reason op' = io_reason op \/ (x = id /\ io_reason op' = Some e /\ is_Some r).
Proof.
  unfold fix_reason. destruct (io_operations l !! id) as [op0|] eqn:Hop0;
    [destruct (io_reason op0) eqn:Er|]; intros [= <- <-] x op op' H1 H2; simpl in *;
    try (left; congruence).
  destruct (decide (id = x)) as [->|Hne].
  - right. unfold OperationId in *. rewrite lookup_alter_eq, H1 in H2. simpl in H2. injection H2 as <-. done.
  - left. rewrite lookup_alter_ne in H2 by done. congruence.
Qed.

Lemma call_told rq o coroutine w w' id op :
  io_inv w -> told_inv w -> grows w w' -> submission rq o coroutine (w_loop w) (w_loop w') id op ->
  mk_issued id coroutine rq o ∈ w_issued w' ->
  w_phase w' = w_phase w -> w_packets w' = w_packets w -> w_log w' = w_log w -> told_inv w'.
Proof.
  intros Hi Ht Hg S Hiss Hph Hp Hlog. pose proof (sb_ops _ _ _ _ _ _ _ S) as Hops.
  pose proof (sb_id _ _ _ _ _ _ _ S) as Hid.
  assert (forall x opx, io_operations (w_loop w) !! x = Some opx -> x <> id) as Hne.
  { intros x opx Hx. pose proof (proj2 (iv_ids _ Hi) _ _ Hx). lia. }
  constructor; rewrite ?Hph, ?Hp, ?Hlog.
  - intros d s t. rewrite (sb_elem _ _ _ _ _ _ _ S). unfold wanted, key_of.
    intros [Hin|[[[t' Et] E]|[[t' Et] E]]]; [|injection E as -> -> ->..].
    + destruct (tv_timers _ Ht _ _ _ Hin) as (i & H1 & H2 & H3).
      exists i. split; [by apply (gr_issued _ _ Hg)|done].
    + eexists. split; [exact Hiss|]. split; [done|]. unfold s_wake_at. simpl. rewrite Et. f_equal.
      pose proof (sb_wake _ _ _ _ _ _ _ S) as Hw. rewrite Et in Hw. by destruct Hw as (_ & Hw & _).
    + eexists. split; [exact Hiss|]. split; [done|]. simpl. rewrite Et. f_equal.
      pose proof (sb_deadline _ _ _ _ _ _ _ S) as Hw. rewrite Et in Hw. by destruct Hw as (_ & Hw & _).
  - intros t Hin. eapply came_due_grows, (tv_fired _ Ht); done.
  - intros x opx. rewrite Hops. intros [[<- <-]|[_ Hx]]%lookup_insert_Some.
    + intros e. by rewrite (proj1 (sb_new _ _ _ _ _ _ _ S)).
    + by eapply reason_ok_grows, (tv_reasons _ Ht).
  - intros x opx pk. rewrite Hops. intros [[<- _]|[_ Hx]]%lookup_insert_Some Hpk.
    + destruct (iv_packets _ Hi id ltac:(by eexists)). lia.
    + by eapply (tv_packets _ Ht).
  - apply Ht.
  - intros x outcome opx Hin. rewrite Hops. intros [[<- _]|[_ Hx]]%lookup_insert_Some.
    + assert (let_go (w_loop w) id) as [Hle _]; [|lia].
      pose proof (iv_phase _ Hi) as Hpo. pose proof (iv_shut _ Hi) as Hsh.
      rewrite (sb_open _ _ _ _ _ _ _ S) in Hsh.
      assert (forall res, Forall (let_go (w_loop w)) res.*1 -> (id, outcome) ∈ res -> let_go (w_loop w) id) as Hres.
      { intros res Hf Hx. rewrite Forall_forall in Hf. apply Hf, list_elem_of_fmap. by exists (id, outcome). }
      destruct (w_phase w); simpl in *; try (by apply elem_of_nil in Hin).
      * by eapply Hres; [apply Hpo|].
      * by eapply Hres; [apply Hpo|].
      * by eapply Hres; [apply Hpo|].
      * rewrite Forall_forall in Hpo. apply Hpo. apply list_elem_of_omap in Hin as ([x r|x] & Hin & E); [|done].
        injection E as -> ->. apply list_elem_of_omap. by exists (deliver id outcome).
    + by eapply verdict_grows, (tv_todo _ Ht).
  - intros x e opx Hin. rewrite Hops. intros [[<- _]|[_ Hx]]%lookup_insert_Some.
    + pose proof (iv_shut _ Hi) as Hsh. rewrite (sb_open _ _ _ _ _ _ _ S) in Hsh.
      destruct (w_phase w); simpl in *; try done; by apply elem_of_nil in Hin.
    + by eapply (tv_listed _ Ht).
  - intros r Hr. destruct (tv_log _ Ht r Hr). split; [by eapply verdict_grows|by eapply reason_ok_grows].
Qed.

(** A move that touches neither the table nor what is to be delivered. *)
Ltac told_easy lemma :=
  eapply lemma; try eassumption; simpl;
  repeat match goal with H : w_phase _ = _ |- _ => rewrite ?H; clear H end; simpl; auto;
  first [done | by apply quiet_same | by apply same_ops_reasons | idtac].

(** ** Moves of the loop's thread *)

(** A move to another phase that resumes nobody and dequeues nothing. *)
Lemma told_phase w w' :
  io_inv w -> told_inv w -> grows w w' -> quiet (w_loop w) (w_loop w') ->
  (forall e, e ∈ timers_ (io_timers (w_loop w')) -> e ∈ timers_ (io_timers (w_loop w))) ->
  (forall id op op', io_operations (w_loop w) !! id = Some op ->
     io_operations (w_loop w') !! id = Some op' -> io_reason op' = io_reason op \/ reason_ok w' id op') ->
  w_packets w' = w_packets w -> w_log w' = w_log w ->
  (forall pk, pk ∈ unread (w_phase w') -> pk ∈ unread (w_phase w)) ->
  (forall t, t ∈ fired_timers (w_phase w') ->
     t ∈ fired_timers (w_phase w) \/ came_due w' (operation t) (is_deadline t)) ->
  (forall id outcome op', (id, outcome) ∈ to_deliver (w_phase w') ->
     io_operations (w_loop w') !! id = Some op' ->
     (id, outcome) ∈ to_deliver (w_phase w) \/ verdict w' id op' outcome) ->
  (forall id e op', (id, e) ∈ listed (w_phase w') -> io_operations (w_loop w') !! id = Some op' ->
     (id, e) ∈ listed (w_phase w) \/ io_reason op' = Some e) -> told_inv w'.
Proof.
  intros Hi Ht Hg Q Htm Hr Hp Hlog Hu Hf Hd Hl.
  eapply told_keeps; try eassumption; rewrite ?Hp, ?Hlog; auto.
  - by apply quiet_touches.
  - intros id op' Hop'. by eapply quiet_old.
  - intros t Hin. destruct (Hf t Hin) as [Hin'|?]; [|done]. eapply came_due_grows, (tv_fired _ Ht); done.
Qed.

Lemma resume_told id outcome p w :
  io_inv w -> told_inv w -> id ∉ owed (io_port (w_loop w)) ->
  (forall op, io_operations (w_loop w) !! id = Some op -> verdict w id op outcome) ->
  unread p = [] -> fired_timers p = [] ->
  (forall x, x ∈ to_deliver p -> x ∈ to_deliver (w_phase w)) ->
  (forall x, x ∈ listed p -> x ∈ listed (w_phase w)) ->
  told_inv (resume id outcome (in_phase p w)).
Proof.
  intros Hi Ht Ho Hv Hu Hf Hd Hl. pose proof (resume_grows id outcome p w Ho) as Hg.
  destruct (resume_frame id outcome (in_phase p w) Ho) as (Hs & _ & _ & Hp & _ & _ & Hph & Hops).
  eapply told_keeps; try eassumption; rewrite ?Hph, ?Hp, ?Hops; simpl; rewrite ?Hu, ?Hf; auto.
  - intros x op' _. rewrite Hops. intros [_ Hx]%lookup_delete_Some. by exists op'.
  - intros x op' [_ Hx]%lookup_delete_Some. by apply (proj2 (iv_ids _ Hi) _ _ Hx).
  - intros e He. by apply (sh_timers _ _ Hs).
  - intros t ?%elem_of_nil. done.
  - intros x op op' H1 [_ H2]%lookup_delete_Some. left. simpl in H2. congruence.
  - intros pk x ?%elem_of_nil. done.
  - intros r. unfold resume. destruct (finalize_op id outcome (w_loop (in_phase p w))) as [[[op a]|] l'] eqn:Ef;
      [|by left].
    simpl. intros [?|Hr]%elem_of_snoc; [by left|right]. subst r. simpl.
    destruct (finalize_op_shrinks _ _ _ _ _ Ho Ef) as (_ & _ & _ & _ & _ & Hop & _). simpl in Hop.
    unfold resume in Hg. rewrite Ef in Hg. split.
    + eapply verdict_grows; [exact Hg|]. by apply Hv.
    + eapply reason_ok_grows; [exact Hg|]. by apply (tv_reasons _ Ht).
Qed.

Lemma classify_now op pk : classify (with_io_closed (io_closed op) op) pk = classify op pk.
Proof. by destruct op. Qed.

(** Reading a packet: the outcome is what the packet says, unless a reason was
    pinned before. *)
Lemma read_told w pk ps res w' now :
  io_inv w -> told_inv w -> w_phase w = reading (pk :: ps) res -> advance now w = Some w' -> told_inv w'.
Proof.
  intros Hi Ht Hph Ha. pose proof (advance_grows _ _ _ Hi Ha) as Hg. unfold advance in Ha.
  rewrite Hph in Ha. injection Ha as <-. pose proof (iv_phase _ Hi) as Hpo. rewrite Hph in Hpo.
  destruct Hpo as [Hps _]. unfold packet_ids in Hps. simpl in Hps.
  rewrite read_packet_spec in *. destruct (packet_id pk) as [id|] eqn:Hid.
  - apply Forall_cons in Hps as [[[op Hop] _] _]. unfold OperationId in *. rewrite Hop in *. simpl in *.
    destruct (apply_effect_history (Some id) (classify op pk).2 w) as (_ & _ & _ & H4 & H5 & _ & H6 & H7).
    destruct (apply_effect_quiet (Some id) (classify op pk).2 w) as [Q _].
    assert (w_packets w !! id = Some pk) as Hpk.
    { eapply (tv_unread _ Ht); [rewrite Hph; left|done]. }
    destruct (tv_packets _ Ht _ _ _ Hop Hpk) as [Hk Hlen].
    eapply told_phase; try eassumption; simpl; rewrite ?H4, ?H6, ?H7; auto; rewrite ?Hph; simpl.
    + intros x op1 op2 E1 E2. left. congruence.
    + intros x Hx. by right.
    + by left.
    + intros x outcome op' Hin Hop'. apply elem_of_snoc in Hin as [?|Hin]; [by left|right].
      injection Hin as -> ->. unfold OperationId in *. assert (op' = op) as -> by congruence.
      eapply verdict_grows; [exact Hg|].
      unfold verdict. rewrite Hk. exists pk, (io_closed op). split; [done|split; [done|]].
      rewrite classify_now. destruct (io_reason op) as [e|] eqn:Er; [right|by left]. by exists e.
    + by left.
  - rewrite app_nil_r in *. eapply told_phase; try eassumption; simpl; rewrite ?Hph; simpl; auto.
    + done.
    + by apply same_ops_reasons.
    + intros x Hx. by right.
Qed.

(** Emptying the queues: the timers taken out are due. *)
Lemma drain_told w res w' now :
  io_inv w -> told_inv w -> w_phase w = reading [] res -> advance now w = Some w' -> told_inv w'.
Proof.
  intros Hi Ht Hph Ha. pose proof (advance_grows _ _ _ Hi Ha) as Hg. unfold advance in Ha.
  rewrite Hph in Ha. destruct (w_clock w <=? now) eqn:Hc; [|done].
  destruct (drain_queues now (w_loop w)) as [[[exp cs] work] l'] eqn:Ed. injection Ha as <-.
  destruct (drain_queues_shrinks _ _ _ _ _ _ (iv_wf _ Hi) Ed)
    as (Hs & _ & _ & _ & _ & _ & _ & _ & _ & _ & Hops & _ & Ee).
  destruct (extract_expired_elem _ _ _ _ (iv_wf _ Hi) Ee) as (_ & _ & _ & Hout).
  eapply told_phase; try eassumption; simpl; rewrite ?Hph; simpl; auto.
  - by eapply quiet_drain.
  - apply Hs.
  - by apply same_ops_reasons.
  - intros t ([d s] & Hin & Hle)%Hout. right.
    destruct (tv_timers _ Ht _ _ _ Hin) as (i & H1 & H2 & H3). exists i, d. done.
Qed.

(** A timer or a deadline that is due. *)
Lemma expire_told w t ts cs work res w' now :
  io_inv w -> told_inv w -> w_phase w = expiring (t :: ts) cs work res ->
  advance now w = Some w' -> told_inv w'.
Proof.
  intros Hi Ht Hph Ha. pose proof (advance_grows _ _ _ Hi Ha) as Hg. unfold advance in Ha.
  rewrite Hph in Ha. destruct (expire_target t (w_loop w)) as [r l'] eqn:Ee. injection Ha as <-.
  pose proof (iv_phase _ Hi) as Hpo. rewrite Hph in Hpo. destruct Hpo as [[Ht1 _]%Forall_cons _].
  destruct (expire_target_spec _ _ _ _ (iv_ids _ Hi) Ht1 Ee) as (Hs & _ & _ & Hr).
  assert (came_due w (operation t) (is_deadline t)) as Hdue by (apply (tv_fired _ Ht); rewrite Hph; left).
  assert (forall id op op', io_operations (w_loop w) !! id = Some op -> io_operations l' !! id = Some op' ->
    io_reason op' = io_reason op \/
    (id = operation t /\ is_deadline t = true /\ io_reason op' = Some (make_error_code Errc.timed_out))) as Hreas.
  { unfold expire_target in Ee. destruct (is_deadline t) eqn:Hdl; simpl in Ee.
    - destruct (fix_reason _ _ _) as [f l1] eqn:Ef. intros id op op' H1 H2.
      destruct (fix_reason_reasons _ _ _ _ _ Ef id op op') as [?|(-> & ? & _)]; auto.
      destruct f; injection Ee as _ <-; [|done]. unfold cancel_io in H2. by destruct (fixed_target f) as [[? ?]|].
    - injection Ee as _ <-. intros id op op' H1 H2. left. congruence. }
  eapply told_phase; try eassumption; simpl; rewrite ?Hph; simpl; auto.
  - by eapply quiet_expire.
  - apply Hs.
  - intros id op op' H1 H2. destruct (Hreas _ _ _ H1 H2) as [?|(-> & Hdl & He)]; [by left|right].
    intros e He'. rewrite He in He'. injection He' as <-. right. split; [done|].
    rewrite Hdl in Hdue. by eapply came_due_grows.
  - intros x Hx. left. by right.
  - intros id outcome op' Hin Hop'. apply elem_of_app in Hin as [?|Hin]; [by left|right].
    assert (id ∈ r.*1) as Hin1 by (apply list_elem_of_fmap; by exists (id, outcome)).
    rewrite Forall_forall in Hr. destruct (Hr _ Hin1) as [_ Hkind]. specialize (Hkind _ Hop').
    eapply verdict_grows; [exact Hg|]. unfold verdict, kernel_backed. rewrite Hkind. simpl.
    unfold expire_target in Ee. destruct (is_deadline t) eqn:Hdl; simpl in Ee.
    + destruct (fix_reason _ _ _) as [[f|] l1] eqn:Ef; injection Ee as <- <-; [|by apply elem_of_nil in Hin].
      destruct (resolve_now f); [|by apply elem_of_nil in Hin]. apply list_elem_of_singleton in Hin.
      injection Hin as -> ->. right. exists (make_error_code Errc.timed_out). split; [|done].
      destruct (sh_ops _ _ Hs _ _ Hop') as (op & Hop & _).
      assert (io_operations l1 !! operation t = Some op') as Hop1.
      { unfold cancel_io in Hop'. by destruct (fixed_target f) as [[? ?]|]. }
      unfold fix_reason in Ef. unfold OperationId in *. rewrite Hop in Ef.
      destruct (io_reason op) eqn:Er; [done|]. injection Ef as _ <-. simpl in Hop1.
      rewrite lookup_alter_eq, Hop in Hop1. simpl in Hop1. by injection Hop1 as <-.
    + injection Ee as <- <-. apply list_elem_of_singleton in Hin. injection Hin as -> ->. by left.
Qed.

Lemma cancel_told w id cs work res w' now :
  io_inv w -> told_inv w -> w_phase w = cancelling (id :: cs) work res ->
  advance now w = Some w' -> told_inv w'.
Proof.
  intros Hi Ht Hph Ha. pose proof (advance_grows _ _ _ Hi Ha) as Hg. unfold advance in Ha.
  rewrite Hph in Ha. injection Ha as <-. pose proof (iv_phase _ Hi) as Hpo. rewrite Hph in Hpo.
  destruct Hpo as [[[_ Hkind] _]%Forall_cons _].
  eapply told_phase; try eassumption; simpl; rewrite ?Hph; simpl; auto; [done|by apply same_ops_reasons|].
  intros x outcome op' Hin Hop'. apply elem_of_app in Hin as [?|Hin]; [by left|right].
  eapply verdict_grows; [exact Hg|]. unfold resolve_cancel, fixed_reason_of in Hin.
  destruct (io_operations (w_loop w) !! id ≫= io_reason) as [e|] eqn:He; [|by apply elem_of_nil in Hin].
  apply list_elem_of_singleton in Hin. injection Hin as -> ->. unfold OperationId in *.
  rewrite Hop' in He. unfold verdict, kernel_backed. rewrite (Hkind _ Hop'). simpl. right. by exists e.
Qed.

(** An operation the kernel has let go of, with its pinned reason. *)
Lemma orphan_verdict w id reason todo op :
  io_inv w -> told_inv w -> w_phase w = orphaning ((id, reason) :: todo) ->
  io_operations (w_loop w) !! id = Some op -> verdict w id op (Fail reason).
Proof.
  intros Hi Ht Hph Hop. assert (pinned op (Fail reason)) as Hpin.
  { exists reason. split; [|done]. eapply (tv_listed _ Ht); [rewrite Hph; left|done]. }
  pose proof (iv_phase _ Hi) as Hpo. rewrite Hph in Hpo. destruct Hpo as [Howed _].
  unfold verdict. destruct (kernel_backed op) eqn:Hk; [|by right].
  destruct (iv_backed _ Hi _ _ Hop Hk) as [Ho|[_ [pk Hpk]]]; [rewrite Howed in Ho; set_solver|].
  destruct (tv_packets _ Ht _ _ _ Hop Hpk). exists pk, false. split; [done|split; [done|by right]].
Qed.

Lemma deliveries_to_deliver resolved work :
  to_deliver (delivering (deliveries resolved work)) = resolved.
Proof.
  simpl. unfold deliveries. induction resolved as [|[id r] resolved IH]; [by induction work|].
  simpl in *. by f_equal.
Qed.

Lemma collect_told w w' now :
  io_inv w -> told_inv w -> w_phase w = closing -> advance now w = Some w' -> told_inv w'.
Proof.
  intros Hi Ht Hph Ha. pose proof (advance_grows _ _ _ Hi Ha) as Hg.
  pose proof (advance_effect _ _ _ Hi Ha) as Heff. unfold advance in Ha. rewrite Hph in Ha.
  destruct (shutdown_collect (w_loop w)) as [o l'] eqn:Ec. injection Ha as <-.
  destruct (collect_frame _ _ _ Ec) as (Hs & _ & _ & _ & Hsd & Hops & Hport & ->).
  assert (io_shutting_down l' = true) as Hdown by (rewrite Hsd, (iv_shut _ Hi), Hph; done).
  eapply told_phase; try eassumption; simpl; rewrite ?Hph; simpl; auto.
  - eapply quiet_fmap; [apply touched_pin|done|by rewrite Hport|apply Hs].
  - apply Hs.
  - rewrite Hops. intros id op op' Hop. rewrite lookup_fmap, Hop. simpl. intros [= <-].
    unfold pin_cancelled. destruct (io_reason op) eqn:Er; [by left|right]. intros e. simpl.
    intros [= <-]. left. split; [done|by right].
  - intros id e op' Hin Hop'. right. revert Hin.
    rewrite (proj1 (orphans_spec (map_to_list (pin_cancelled <$> io_operations (w_loop w))) (mk_orphans [] [] 0))).
    simpl. intros Hin. apply list_elem_of_In, in_map_iff in Hin as ([id' op] & [= -> <-] & Hin).
    apply list_elem_of_In, elem_of_map_to_list in Hin. unfold OperationId in *. rewrite Hops, Hin in Hop'.
    injection Hop' as <-. rewrite lookup_fmap in Hin. destruct (io_operations (w_loop w) !! id) as [op0|]; [|done].
    simpl in Hin. injection Hin as <-. unfold pin_cancelled. by destruct (io_reason op0) eqn:Er; simpl; rewrite ?Er.
Qed.

Lemma advance_told now w w' : io_inv w -> told_inv w -> advance now w = Some w' -> told_inv w'.
Proof.
  intros Hi Ht Ha. pose proof (advance_grows _ _ _ Hi Ha) as Hg.
  pose proof (iv_phase _ Hi) as Hpo. pose proof Ha as Ha'. unfold advance in Ha'.
  destruct (w_phase w) as [|ms|ps res|ts cs work res|cs work res|todo| |[os tc n]|o n|todo|] eqn:Hph; try done.
  - destruct ps as [|pk ps]; [by eapply drain_told|by eapply read_told].
  - destruct ts as [|t ts]; [|by eapply expire_told]. injection Ha' as <-.
    told_easy told_phase.
  - destruct cs as [|id cs]; [|by eapply cancel_told]. injection Ha' as <-.
    eapply told_phase; try eassumption; cbn [w_phase in_phase set_w_phase];
      rewrite ?Hph, ?deliveries_to_deliver; simpl; auto; [done|by apply same_ops_reasons].
  - destruct todo as [|[id outcome|x] todo]; injection Ha' as <-.
    + told_easy told_phase.
    + simpl in Hpo. apply Forall_cons in Hpo as [[_ Ho] _].
      apply resume_told; try done; rewrite ?Hph; simpl; auto.
      * intros op Hop. eapply (tv_todo _ Ht); [rewrite Hph; left|done].
      * intros y Hy. by right.
    + told_easy told_phase.
  - by eapply collect_told.
  - destruct tc as [|[s id] tc]; injection Ha' as <-;
      told_easy told_phase.
  - destruct n; [|done]. injection Ha' as <-.
    told_easy told_phase.
  - destruct todo as [|[id r] todo]; injection Ha' as <-.
    + told_easy told_phase.
    + destruct Hpo as [Howed _]. apply resume_told; try done; rewrite ?Hph; simpl; auto.
      * rewrite Howed. set_solver.
      * intros op Hop. by eapply orphan_verdict.
      * intros y Hy. by right.
Qed.

Lemma thread_tables t l more l' :
  thread_step t l = (more, l') -> io_operations l' = io_operations l /\ io_timers l' = io_timers l.
Proof.
  destruct t as [f|id| |]; simpl.
  - intros [= <- <-]. unfold cancel_io. by destruct (fixed_target f) as [[? ?]|].
  - by intros [= <- <-].
  - unfold wake_begin. by destruct (io_wake_pending l); intros [= <- <-].
  - intros [= <- <-]. unfold nudge. by destruct (port_open _).
Qed.

(** ** Packets *)

Lemma recorded_in ps m pk id :
  NoDup (packet_ids ps) -> pk ∈ ps -> packet_id pk = Some id -> foldl record_packet m ps !! id = Some pk.
Proof.
  revert m; induction ps as [|pk' ps IH]; intros m Hnd Hin Hid; [by apply elem_of_nil in Hin|].
  unfold packet_ids in Hnd. simpl in Hnd. apply elem_of_cons in Hin as [->|Hin]; simpl.
  - rewrite Hid in Hnd. apply NoDup_cons in Hnd as [Hni _].
    rewrite recorded_other by done. unfold record_packet. rewrite Hid. by rewrite lookup_insert_eq.
  - apply IH; try done. destruct (packet_id pk'); [by apply NoDup_cons in Hnd as [_ ?]|done].
Qed.

Lemma recorded_source ps m id pk :
  foldl record_packet m ps !! id = Some pk ->
  m !! id = Some pk \/ (pk ∈ ps /\ packet_id pk = Some id).
Proof.
  revert m; induction ps as [|pk' ps IH]; intros m; simpl; [by left|].
  intros Hl. destruct (IH _ Hl) as [Hm|[? ?]]; [|right; split; [by right|done]].
  unfold record_packet in Hm. destruct (packet_id pk') as [x|] eqn:Hx; [|by left].
  apply lookup_insert_Some in Hm as [[-> ->]|[_ ?]]; [|by left]. right. split; [left|done].
Qed.

(** Packets leaving the port. *)
Lemma dequeue_told ps p' w :
  io_inv w -> told_inv w -> packets_ok ps (w_loop w) = true ->
  (forall pk, pk ∈ unread p' -> pk ∈ unread (w_phase w) \/ pk ∈ ps) ->
  fired_timers p' = [] -> to_deliver p' = [] -> (forall x, x ∈ listed p' -> x ∈ listed (w_phase w)) ->
  told_inv (in_phase p' (take_packets ps w)).
Proof.
  intros Hi Ht Hok Hu Hf Hd Hl. destruct (packets_ok_spec _ _ Hok) as (Ho & Hnd & _ & Hgen).
  assert (grows w (in_phase p' (take_packets ps w))) as Hg.
  { constructor; simpl; try done. intros. by apply packets_grow. }
  assert (quiet (w_loop w) (w_loop (in_phase p' (take_packets ps w)))) as Q by by apply quiet_same.
  eapply told_keeps; try eassumption; cbn [w_phase in_phase set_w_phase]; rewrite ?Hf, ?Hd; simpl; auto.
  - by apply quiet_touches.
  - intros id op' Hop'. by eapply quiet_old.
  - intros t ?%elem_of_nil. done.
  - by apply same_ops_reasons.
  - intros id pk [?|[Hin Hid]]%recorded_source; [by left|right]. intros op Hop.
    assert (id ∈ packet_ids ps) as Hp by (apply packet_ids_elem; by exists pk).
    destruct (iv_owed _ Hi _ (Ho _ Hp)) as (op' & Hop' & Hk). unfold OperationId in *.
    assert (op' = op) as -> by congruence. split; [done|].
    specialize (Hgen _ Hin). unfold packet_ok in Hgen. apply andb_true_iff in Hgen as [Hgen _].
    unfold genuine in Hgen. rewrite Hid in Hgen. simpl in Hgen. rewrite Hop in Hgen.
    rewrite andb_true_iff, !Z.leb_le in Hgen. done.
  - intros pk id Hin Hid. destruct (Hu _ Hin) as [?|?]; [by left|right]. by apply recorded_in.
  - intros id outcome op' ?%elem_of_nil. done.
Qed.

Lemma exec_told c w w' : io_inv w -> told_inv w -> exec c w = Some w' -> told_inv w'.
Proof.
  intros Hi Ht He. pose proof (exec_grows _ _ _ Hi He) as Hg. pose proof He as He0. revert He0. unfold exec.
  destruct c as [rq o coroutine now now' kernel|h|s|id|x| |i|timeout now|ps| |now| |pk].
  - destruct (_ && _ && _ && _ && _) eqn:Eg; [|done]. rewrite !andb_true_iff in Eg.
    destruct Eg as [[[[Hu Hr] _] _] Hfs].
    pose proof (io_call_spec rq o coroutine now now' kernel _ (ready_inv _ Hi Hr) Hfs) as Hsp.
    destruct (io_call _ _ _ _ _ _ _) as [[r|id] l'] eqn:Ec; intros [= <-]; simpl in Hsp.
    + eapply told_same_phase; try eassumption; try done; simpl; [by apply quiet_refusal| |].
      * intros e. by apply (rf_elem _ _ Hsp).
      * apply same_ops_reasons, Hsp.
    + destruct Hsp as [op S]. eapply call_told; try eassumption; try done. simpl.
      apply elem_of_snoc. by right.
  - destruct (user_code _); [|done]. intros [= <-].
    eapply told_same_phase; try eassumption; try done; simpl.
    + eapply quiet_fmap; [apply (touched_detach h)|done|done|simpl; lia].
    + intros x op op' H1. rewrite lookup_fmap, H1. simpl. intros [= <-]. left.
      by destruct (io_socket op =? h).
  - destruct (_ && _); [|done]. intros [= <-]. eapply told_keeps; try eassumption; simpl; auto.
    + intros x op' _ Hx. by exists op'.
    + intros x op' Hx. by apply (proj2 (iv_ids _ Hi) _ _ Hx).
    + intros t Hin. eapply came_due_grows, (tv_fired _ Ht); done.
    + by apply same_ops_reasons.
  - destruct (id <=? _); [|done]. destruct (request_cancel _ _) as [rest l'] eqn:Ec. intros [= <-].
    eapply told_same_phase; try eassumption; try done; simpl; [by eapply quiet_request_cancel|..];
      unfold request_cancel in Ec; destruct (fix_reason id _ _) as [r l1] eqn:Ef;
      assert (l' = l1) as -> by (destruct r; congruence).
    + by apply (fix_reason_spec _ _ _ _ _ (iv_ids _ Hi) Ef).
    + intros x op op' H1 H2. destruct (fix_reason_reasons _ _ _ _ _ Ef _ _ _ H1 H2) as [?|(-> & Hr & _)];
        [by left|right]. intros e. rewrite Hr. intros [= <-]. left. split; [done|left]. simpl. set_solver.
  - unfold post_work. destruct (io_shutting_down (w_loop w)) eqn:E; intros [= <-];
      told_easy told_same_phase.
  - intros [= <-]. told_easy told_same_phase.
  - destruct (w_threads w !! i) as [[|t rest]|] eqn:Et; try done.
    destruct (thread_step t (w_loop w)) as [more l'] eqn:Es. intros [= <-].
    destruct (thread_tables t (w_loop w) more l' Es) as [E1 E2].
    eapply told_same_phase; try eassumption; try done; simpl; [by eapply quiet_thread|by rewrite E2|by apply same_ops_reasons].
  - destruct (w_phase w) eqn:Hph; try done; [|by intros [= <-]].
    destruct (_ && _); [|done]. intros [= <-].
    told_easy told_phase.
  - destruct (w_phase w) eqn:Hph; try done. destruct (_ && _) eqn:Eg; [|done].
    apply andb_true_iff in Eg as [Eg _]. intros [= <-].
    apply dequeue_told; try done; rewrite ?Hph; simpl; [by right|done].
  - destruct (w_phase w) eqn:Hph; try done. intros [= <-].
    told_easy told_phase.
  - by apply advance_told.
  - destruct (io_shutting_down _) eqn:Hsd; [by intros [= <-]|].
    destruct (w_phase w) eqn:Hph; try done. intros [= <-].
    told_easy told_phase.
  - destruct (w_phase w) as [| | | | | | | |o n| |] eqn:Hph; try done. destruct n as [|n]; [done|].
    destruct (packets_ok _ _) eqn:Hok; [|done]. intros [= <-]. apply dequeue_told; try done; rewrite ?Hph; auto.
Qed.

Lemma new_world_told : told_inv new_world.
Proof. constructor; simpl; try (intros *; set_solver); intros *; by rewrite lookup_empty. Qed.
