(* ===== verification/IocpSafety.v ===== *)
(** * IocpSafety: the guarantees of the Windows event loop

    Every suspension is answered exactly once, with an outcome that fits what was
    asked; the kernel never writes into memory the loop has freed; sockets made for
    AcceptEx are never lost; shutting down waits for exactly the packets the kernel
    owes and then resumes everybody. *)

From stdpp Require Import gmap.
From S2P Require Import Prelude Errors Timers Iocp IocpRun IocpCalls IocpInv IocpLedger IocpVerdict.

Local Open Scope Z_scope.

(** ** The ledger *)

(** Who is suspended: ids with their coroutines. *)
Definition suspended_ops (l : Iocp) : list (OperationId * Z) := map_to_list (io_handle <$> io_operations l).

Definition issued_pair (i : Issued) : OperationId * Z := (s_id i, s_coroutine i).
Definition resumed_pair (r : Resumed) : OperationId * Z := (r_id r, io_handle (r_op r)).

(** A suspension the operation was submitted for. *)
Definition asked_for (w : World) (id : OperationId) (op : IoOp) : Prop :=
  exists i, i ∈ w_issued w /\ s_id i = id /\ s_coroutine i = io_handle op /\ request_op (s_request i) op.

Record ledger_inv (w : World) : Prop := {
  lg_perm : map issued_pair (w_issued w) ≡ₚ suspended_ops (w_loop w) ++ map resumed_pair (w_log w);
  lg_nodup : NoDup (map s_id (w_issued w));
  lg_old : forall i, i ∈ w_issued w -> 0 < s_id i <= io_next_id (w_loop w);
  lg_asked : forall id op, io_operations (w_loop w) !! id = Some op -> asked_for w id op;
  lg_told : forall r, r ∈ w_log w -> asked_for w (r_id r) (r_op r);
}.

Lemma asked_for_grows w w' id op :
  (forall i, i ∈ w_issued w -> i ∈ w_issued w') -> asked_for w id op -> asked_for w' id op.
Proof. intros Hi (i & ? & ? & ? & ?). exists i. auto. Qed.

Lemma asked_for_touched w id op op' : touched op op' -> asked_for w id op -> asked_for w id op'.
Proof.
  intros (b & r & h & -> & _) (i & H1 & H2 & H3 & H4). exists i. by split_and!.
Qed.

Lemma quiet_suspended l l' : quiet l l' -> suspended_ops l' = suspended_ops l.
Proof.
  intros Q. unfold suspended_ops. f_equal. apply map_eq. intros id. rewrite !lookup_fmap.
  pose proof (q_ops _ _ Q id) as H.
  destruct (io_operations l !! id) as [op|], (io_operations l' !! id) as [op'|]; try done.
  destruct H as (b & r & h & -> & _). done.
Qed.

Lemma submit_ledger w w' rq o coroutine id op :
  io_inv w -> ledger_inv w -> submission rq o coroutine (w_loop w) (w_loop w') id op ->
  w_log w' = w_log w -> w_issued w' = w_issued w ++ [mk_issued id coroutine rq o] -> ledger_inv w'.
Proof.
  intros Hi Hl S Hlog Hiss. pose proof (sb_id _ _ _ _ _ _ _ S) as Hid.
  pose proof (sb_next _ _ _ _ _ _ _ S) as Hn. pose proof (next_fresh _ (iv_ids _ Hi)) as Hfresh.
  rewrite <- Hid in Hfresh. destruct (iv_ids _ Hi) as [Hn0 _].
  assert (forall i, i ∈ w_issued w -> i ∈ w_issued w') as Hgrow by (rewrite Hiss; set_solver).
  constructor.
  - rewrite Hiss, Hlog, map_app, (lg_perm _ Hl). unfold suspended_ops.
    rewrite (sb_ops _ _ _ _ _ _ _ S), fmap_insert, map_to_list_insert;
      [|rewrite lookup_fmap; unfold OperationId in *; by rewrite Hfresh].
    simpl. rewrite (sb_handle _ _ _ _ _ _ _ S). symmetry. apply Permutation_cons_append.
  - rewrite Hiss, map_app. apply NoDup_app. split_and!; [apply Hl| |simpl; apply NoDup_singleton].
    intros x Hx. simpl. rewrite list_elem_of_singleton. intros ->.
    apply list_elem_of_In, in_map_iff in Hx as (i & Hi1 & Hi2%list_elem_of_In).
    pose proof (lg_old _ Hl _ Hi2). simpl in *. lia.
  - intros i. rewrite Hiss. intros [Hx|Hx]%elem_of_snoc; [pose proof (lg_old _ Hl _ Hx); lia|].
    subst i. simpl. lia.
  - intros x opx. rewrite (sb_ops _ _ _ _ _ _ _ S). intros [[<- <-]|[_ Hx]]%lookup_insert_Some.
    + exists (mk_issued id coroutine rq o). rewrite Hiss. split_and!; try done; [apply elem_of_snoc; by right| |].
      * by rewrite (sb_handle _ _ _ _ _ _ _ S).
      * apply S.
    + eapply asked_for_grows; [done|]. by apply (lg_asked _ Hl).
  - rewrite Hlog. intros r Hr. eapply asked_for_grows; [done|]. by apply (lg_told _ Hl).
Qed.

Lemma resume_ledger w w' id outcome op a :
  ledger_inv w -> io_operations (w_loop w) !! id = Some op -> id ∉ owed (io_port (w_loop w)) ->
  finalize_op id outcome (w_loop w) = (Some (op, a), w_loop w') ->
  w_log w' = w_log w ++ [mk_resumed id op outcome] -> w_issued w' = w_issued w -> ledger_inv w'.
Proof.
  intros Hl Hop Ho Hf Hlog Hiss.
  destruct (finalize_op_shrinks _ _ _ _ _ Ho Hf) as (_ & _ & _ & Hn & _ & _ & Hops).
  assert (forall i, i ∈ w_issued w -> i ∈ w_issued w') as Hgrow by (by rewrite Hiss).
  constructor; rewrite ?Hiss, ?Hlog, ?Hn; try apply Hl.
  - rewrite (lg_perm _ Hl), map_app, app_assoc. unfold suspended_ops. rewrite Hops, fmap_delete.
    rewrite <- (map_to_list_delete (io_handle <$> io_operations (w_loop w)) id (io_handle op))
      by (by rewrite lookup_fmap, Hop).
    simpl. rewrite <- Permutation_cons_append. done.
  - rewrite Hops. intros x opx [_ Hx]%lookup_delete_Some.
    eapply asked_for_grows; [done|]. by apply (lg_asked _ Hl).
  - intros r [Hr|Hr]%elem_of_snoc; (eapply asked_for_grows; [done|]); [by apply (lg_told _ Hl)|].
    subst r. by apply (lg_asked _ Hl).
Qed.

Lemma quiet_ledger w w' l :
  ledger_inv w -> quiet (w_loop w) l -> io_operations (w_loop w') = io_operations l ->
  io_next_id (w_loop w') = io_next_id l -> w_log w' = w_log w -> w_issued w' = w_issued w ->
  ledger_inv w'.
Proof.
  intros Hl Q Eops En Hlog Hiss.
  assert (forall i, i ∈ w_issued w -> i ∈ w_issued w') as Hgrow by (by rewrite Hiss).
  constructor; rewrite ?Hiss, ?Hlog; try apply Hl.
  - unfold suspended_ops. rewrite Eops. fold (suspended_ops l). rewrite (quiet_suspended _ _ Q). apply Hl.
  - intros i Hi. rewrite En. pose proof (lg_old _ Hl _ Hi). pose proof (q_next _ _ Q). lia.
  - rewrite Eops. intros id op' Hop'. pose proof (q_ops _ _ Q id) as H.
    unfold OperationId in *. rewrite Hop' in H. destruct (io_operations (w_loop w) !! id) as [op|] eqn:Hop; [|done].
    eapply asked_for_grows; [done|]. eapply asked_for_touched; [done|]. by apply (lg_asked _ Hl).
  - intros r Hr. eapply asked_for_grows; [done|]. by apply (lg_told _ Hl).
Qed.

Lemma exec_ledger c w w' : io_inv w -> ledger_inv w -> exec c w = Some w' -> ledger_inv w'.
Proof.
  intros Hi Hl He. destruct (exec_effect _ _ _ Hi He) as
    [rq o coroutine id op S Hfs H1 H2 H3|id outcome op a Hop Ho Hf H1 H2 H3|Q (H1 & H2 & H3)|s Hs Hloop H1 H2 H3].
  - by eapply submit_ledger.
  - by eapply resume_ledger.
  - by eapply quiet_ledger.
  - eapply (quiet_ledger w w' (w_loop w)); try done; by rewrite Hloop.
Qed.

(** ** Sockets *)

(** The sockets made for AcceptEx and still open belong to one operation in flight
    each, or to a caller. *)
Record sockets_inv (w : World) : Prop := {
  sk_live : forall id op, io_operations (w_loop w) !! id = Some op -> io_kind op = IoKind.accept ->
    io_accepted op ∈ sockets (io_port (w_loop w)) /\ (io_accepted op ∉ w_given w) /\
    io_accepted op <> INVALID_SOCKET;
  sk_inj : forall id1 id2 op1 op2, io_operations (w_loop w) !! id1 = Some op1 ->
    io_operations (w_loop w) !! id2 = Some op2 -> io_kind op1 = IoKind.accept ->
    io_kind op2 = IoKind.accept -> io_accepted op1 = io_accepted op2 -> id1 = id2;
  sk_given : w_given w ⊆ sockets (io_port (w_loop w));
  sk_owner : forall s, s ∈ sockets (io_port (w_loop w)) -> s ∈ w_given w \/
    exists id op, io_operations (w_loop w) !! id = Some op /\ io_kind op = IoKind.accept /\
      io_accepted op = s;
}.

(** What [classify] reports as success. *)
Lemma classify_ok op pk b k :
  (classify (with_io_closed b op) pk).1 = Ok k ->
  match io_kind op with
  | IoKind.read => k = pk_transferred pk /\ k <> 0
  | IoKind.write => k = pk_transferred pk
  | IoKind.accept => k = io_accepted op
  | IoKind.connect => k = 0
  | IoKind.receive_from => k = pk_transferred pk /\ k <= io_capacity op
  | IoKind.send_to => k = buffers_length op
  | IoKind.timer => False
  end.
Proof.
  unfold classify. simpl. destruct b; [done|]. destruct (negb _); simpl.
  - destruct (pk_result pk); [|done]. destruct (negb _); [|done]. by destruct (_ && _).
  - destruct (io_kind op); simpl; try (by intros [= ->]).
    + destruct (_ =? _) eqn:E; [done|]. apply Z.eqb_neq in E. intros [= <-]. done.
    + destruct (_ || _) eqn:E; [done|]. apply orb_false_iff in E as [_ E]. apply Z.ltb_ge in E.
      intros [= <-]. done.
    + destruct (negb _) eqn:E; [done|]. apply negb_false_iff, Z.eqb_eq in E. intros [= <-]. done.
Qed.

(** What an accept may be told. *)
Lemma accept_verdict w id op s :
  verdict w id op (Ok s) -> io_kind op = IoKind.accept -> s = io_accepted op.
Proof.
  unfold verdict, kernel_backed. intros Hv Hk. rewrite Hk in Hv. simpl in Hv.
  destruct Hv as (pk & b & _ & _ & [Ho|(e & _ & Ho)]); [|done].
  symmetry in Ho. apply classify_ok in Ho. by rewrite Hk in Ho.
Qed.

Lemma touched_accept op op' :
  touched op op' -> io_kind op' = io_kind op /\ io_accepted op' = io_accepted op.
Proof. by intros (b & r & h & -> & _). Qed.

Lemma quiet_lookup l l' id op' :
  quiet l l' -> io_operations l' !! id = Some op' ->
  exists op, io_operations l !! id = Some op /\ touched op op'.
Proof.
  intros Q Hop'. pose proof (q_ops _ _ Q id) as H. rewrite Hop' in H.
  destruct (io_operations l !! id) as [op|]; [by exists op|done].
Qed.

Lemma quiet_lookup_back l l' id op :
  quiet l l' -> io_operations l !! id = Some op ->
  exists op', io_operations l' !! id = Some op' /\ touched op op'.
Proof.
  intros Q Hop. pose proof (q_ops _ _ Q id) as H. rewrite Hop in H.
  destruct (io_operations l' !! id) as [op'|]; [by exists op'|done].
Qed.

Lemma quiet_sockets w w' :
  sockets_inv w -> quiet (w_loop w) (w_loop w') -> w_given w' = w_given w -> sockets_inv w'.
Proof.
  intros Hs Q Hg. constructor; rewrite ?Hg, ?(q_sockets _ _ Q).
  - intros id op' (op & Hop & [-> ->]%touched_accept)%(quiet_lookup _ _ _ _ Q). by apply (sk_live _ Hs id).
  - intros id1 id2 op1' op2' (op1 & H1 & [-> ->]%touched_accept)%(quiet_lookup _ _ _ _ Q)
      (op2 & H2 & [-> ->]%touched_accept)%(quiet_lookup _ _ _ _ Q). by apply (sk_inj _ Hs).
  - apply Hs.
  - intros s Hin. destruct (sk_owner _ Hs s Hin) as [?|(id & op & Hop & Hk & Ha)]; [by left|right].
    destruct (quiet_lookup_back _ _ _ _ Q Hop) as (op' & Hop' & [E1 E2]%touched_accept).
    exists id, op'. by rewrite E1, E2.
Qed.

Lemma submit_sockets w w' rq o coroutine id op :
  io_inv w -> sockets_inv w -> submission rq o coroutine (w_loop w) (w_loop w') id op ->
  fresh_socket rq (w_loop w) = true -> w_given w' = w_given w -> sockets_inv w'.
Proof.
  intros Hi Hs S Hfs Hg. pose proof (sb_ops _ _ _ _ _ _ _ S) as Hops.
  pose proof (sb_sockets _ _ _ _ _ _ _ S) as Hsk. destruct (sb_request _ _ _ _ _ _ _ S) as [Hk Hrq].
  pose proof (next_fresh _ (iv_ids _ Hi)) as Hfresh. rewrite <- (sb_id _ _ _ _ _ _ _ S) in Hfresh.
  assert (io_kind op = IoKind.accept -> request_socket rq = {[io_accepted op]} /\
    (io_accepted op ∉ sockets (io_port (w_loop w))) /\ io_accepted op <> INVALID_SOCKET) as Hnew.
  { intros Ha. rewrite Ha in Hk. destruct rq as [| | |? []|h ext s| |]; try done.
    destruct Hrq as (_ & -> & _). simpl in *. apply andb_true_iff in Hfs as [Hfs Hne].
    apply bool_decide_eq_true in Hfs. apply negb_true_iff, Z.eqb_neq in Hne. done. }
  assert (forall x opx, io_operations (w_loop w') !! x = Some opx ->
    (x = id /\ opx = op) \/ io_operations (w_loop w) !! x = Some opx) as Hcase.
  { intros x opx. rewrite Hops. intros [[<- <-]|[_ ?]]%lookup_insert_Some; auto. }
  constructor; rewrite ?Hg, ?Hsk.
  - intros x opx [[-> ->]|Hx]%Hcase Ha.
    + destruct (Hnew Ha) as (-> & Hni & Hne). split_and!; [set_solver| |done].
      intros Hx. by apply (sk_given _ Hs) in Hx.
    + destruct (sk_live _ Hs _ _ Hx Ha) as (? & ? & ?). set_solver.
  - intros x1 x2 op1 op2 [[-> ->]|H1]%Hcase [[-> ->]|H2]%Hcase A1 A2 E; try done.
    + destruct (Hnew A1) as (_ & Hni & _). destruct (sk_live _ Hs _ _ H2 A2) as (? & _). congruence.
    + destruct (Hnew A2) as (_ & Hni & _). destruct (sk_live _ Hs _ _ H1 A1) as (? & _). congruence.
    + by apply (sk_inj _ Hs x1 x2 op1 op2).
  - pose proof (sk_given _ Hs). set_solver.
  - intros s [Hin|Hin]%elem_of_union.
    + right. exists id, op. destruct rq as [| | | |h ext r| |]; try (by apply elem_of_empty in Hin).
      destruct Hrq as (_ & -> & _). simpl in Hin. apply elem_of_singleton in Hin as ->.
      rewrite Hops, lookup_insert_eq. done.
    + destruct (sk_owner _ Hs s Hin) as [?|(x & opx & Hx & Ha & Es)]; [by left|right].
      exists x, opx. split; [|done]. rewrite Hops, lookup_insert_ne; [done|]. intros <-.
      unfold OperationId in *. congruence.
Qed.

Lemma resume_sockets w w' id outcome op a :
  sockets_inv w -> io_operations (w_loop w) !! id = Some op -> id ∉ owed (io_port (w_loop w)) ->
  finalize_op id outcome (w_loop w) = (Some (op, a), w_loop w') ->
  (forall s, outcome = Ok s -> io_kind op = IoKind.accept -> s = io_accepted op) ->
  w_given w' = given_socket op outcome ∪ w_given w -> sockets_inv w'.
Proof.
  intros Hs Hop Ho Hf Hacc Hg.
  destruct (finalize_op_shrinks _ _ _ _ _ Ho Hf) as (_ & _ & _ & _ & _ & _ & Hops).
  assert (sockets (io_port (w_loop w')) =
    if bool_decide (io_kind op = IoKind.accept) && negb (succeeded outcome) &&
       negb (io_accepted op =? INVALID_SOCKET)
    then sockets (io_port (w_loop w)) ∖ {[io_accepted op]} else sockets (io_port (w_loop w))) as Hsk.
  { unfold finalize_op in Hf. destruct (take_op id (w_loop w)) as [[op1|] l1] eqn:Et; [|done].
    destruct (take_op_shrinks _ _ _ _ Ho Et) as (_ & _ & _ & Hp & _). injection Hf as -> _ <-.
    destruct (_ && _ && _); simpl; by rewrite Hp. }
  destruct (decide (io_kind op = IoKind.accept)) as [Ha|Hna].
  - destruct (sk_live _ Hs _ _ Hop Ha) as (Hin & Hng & Hne).
    rewrite bool_decide_true in Hsk by done. apply Z.eqb_neq in Hne. rewrite Hne in Hsk.
    assert (forall x opx, x <> id -> io_operations (w_loop w) !! x = Some opx ->
      io_kind opx = IoKind.accept -> io_accepted opx <> io_accepted op) as Hother.
    { intros x opx Hx Hxo Hxa E. apply Hx. by eapply (sk_inj _ Hs). }
    destruct outcome as [s|e]; simpl in Hsk.
    + specialize (Hacc s eq_refl Ha). subst s. unfold given_socket in Hg. rewrite Ha in Hg.
      constructor; rewrite ?Hsk, ?Hops, ?Hg.
      * intros x opx [Hx Hxo]%lookup_delete_Some Hxa. destruct (sk_live _ Hs _ _ Hxo Hxa) as (? & ? & ?).
        specialize (Hother x opx (not_eq_sym Hx) Hxo Hxa). set_solver.
      * intros x1 x2 op1 op2 [_ H1]%lookup_delete_Some [_ H2]%lookup_delete_Some. by apply (sk_inj _ Hs).
      * pose proof (sk_given _ Hs). set_solver.
      * intros s Hs'. destruct (sk_owner _ Hs _ Hs') as [?|(x & opx & Hx & Hxa & <-)]; [left; set_solver|].
        destruct (decide (x = id)) as [->|Hne']; [left|right].
        -- unfold OperationId in *. assert (opx = op) as -> by congruence. set_solver.
        -- exists x, opx. by rewrite lookup_delete_ne.
    + unfold given_socket in Hg. rewrite Ha, union_empty_l_L in Hg.
      constructor; rewrite ?Hsk, ?Hops, ?Hg.
      * intros x opx [Hx Hxo]%lookup_delete_Some Hxa. destruct (sk_live _ Hs _ _ Hxo Hxa) as (? & ? & ?).
        specialize (Hother x opx (not_eq_sym Hx) Hxo Hxa). set_solver.
      * intros x1 x2 op1 op2 [_ H1]%lookup_delete_Some [_ H2]%lookup_delete_Some. by apply (sk_inj _ Hs).
      * pose proof (sk_given _ Hs). set_solver.
      * intros s [Hs' Hns]%elem_of_difference.
        destruct (sk_owner _ Hs _ Hs') as [?|(x & opx & Hx & Hxa & <-)]; [by left|right].
        exists x, opx. rewrite lookup_delete_ne; [done|]. intros ->. unfold OperationId in *.
        assert (opx = op) as -> by congruence. set_solver.
  - rewrite bool_decide_false in Hsk by done. simpl in Hsk.
    assert (given_socket op outcome = ∅) as E by (unfold given_socket; by destruct (io_kind op)).
    rewrite E, union_empty_l_L in Hg. constructor; rewrite ?Hsk, ?Hops, ?Hg.
    + intros x opx [_ Hxo]%lookup_delete_Some. by apply (sk_live _ Hs x).
    + intros x1 x2 op1 op2 [_ H1]%lookup_delete_Some [_ H2]%lookup_delete_Some. by apply (sk_inj _ Hs).
    + apply Hs.
    + intros s Hs'. destruct (sk_owner _ Hs _ Hs') as [?|(x & opx & Hx & Hxa & <-)]; [by left|right].
      exists x, opx. rewrite lookup_delete_ne; [done|]. intros ->. unfold OperationId in *. congruence.
Qed.

Lemma close_sockets w w' s :
  sockets_inv w -> s ∈ w_given w -> w_loop w' = close_socket s (w_loop w) ->
  w_given w' = w_given w ∖ {[s]} -> sockets_inv w'.
Proof.
  intros Hs Hin Hl Hg. constructor; rewrite ?Hl, ?Hg; simpl.
  - intros id op Hop Ha. destruct (sk_live _ Hs _ _ Hop Ha) as (? & ? & ?). set_solver.
  - apply Hs.
  - pose proof (sk_given _ Hs). set_solver.
  - intros x [Hx Hne]%elem_of_difference. destruct (sk_owner _ Hs _ Hx) as [?|?]; [left; set_solver|by right].
Qed.

(** What the move resumes has its verdict. *)
Lemma exec_sockets c w w' :
  io_inv w -> told_inv w' -> sockets_inv w -> exec c w = Some w' -> sockets_inv w'.
Proof.
  intros Hi Ht Hs He. destruct (exec_effect _ _ _ Hi He) as
    [rq o coroutine id op S Hfs H1 H2 H3|id outcome op a Hop Ho Hf H1 H2 H3|Q (H1 & H2 & H3)|s Hin Hloop H1 H2 H3].
  - by eapply submit_sockets.
  - eapply resume_sockets; try done. intros s -> Ha. eapply accept_verdict; [|done].
    apply (tv_log _ Ht (mk_resumed id op (Ok s))). rewrite H1. apply elem_of_snoc. by right.
  - by eapply quiet_sockets.
  - by eapply close_sockets.
Qed.

(** ** All of it, in every run *)

Record run_inv (w : World) : Prop := {
  ri_io : io_inv w;
  ri_told : told_inv w;
  ri_ledger : ledger_inv w;
  ri_sockets : sockets_inv w;
}.

Lemma new_world_run_inv : run_inv new_world.
Proof.
  constructor; [apply new_world_io_inv|apply new_world_told|..].
  - constructor; simpl; try done; try (intros *; set_solver). constructor.
  - constructor; simpl; try done; intros *; set_solver.
Qed.

Lemma exec_run_inv c w w' : run_inv w -> exec c w = Some w' -> run_inv w'.
Proof.
  intros [Hi Ht Hl Hs] He. pose proof (exec_told _ _ _ Hi Ht He) as Ht'.
  constructor; [by eapply exec_inv|done|by eapply exec_ledger|by eapply exec_sockets].
Qed.

Lemma reachable_run_inv w : reachable w -> run_inv w.
Proof.
  unfold reachable. generalize new_world_run_inv. generalize new_world. intros w0 H0 Hr.
  induction Hr as [|w1 w2 w3 [c Hc] _ IH]; [done|]. apply IH. by eapply exec_run_inv.
Qed.

(** ** A run to look at *)

Definition plain_packet (id transferred : Z) : Packet := mk_packet 0 (Some id) 0 transferred None false [].

(** A read, an accept and a sleep are suspended; the read completes, the accept is
    cancelled from another thread and its packet says it succeeded, and the sleep
    is left when the loop is shut down. *)
Definition demo_moves : list Command :=
  [c_call (rq_read 5 100) no_options 1 0 0 None;
   c_call (rq_accept 6 (Ok tt) (Ok 40)) no_options 2 0 0 None;
   c_call (rq_sleep 1000) no_options 3 0 0 None;
   c_cancel 2; c_thread 0;
   c_run_once None 1;
   c_dequeue [plain_packet 1 30; plain_packet 2 0; wake_packet];
   c_advance 1; c_advance 1; c_advance 1; c_advance 1; c_advance 1; c_advance 1;
   c_advance 1; c_advance 1; c_advance 1].

Definition demo_world : World := default new_world (script demo_moves new_world).

Lemma demo_io_reachable : reachable demo_world.
Proof. apply (io_script_steps demo_moves). vm_compute. reflexivity. Qed.

(** C6: on Windows the kernel never writes into memory the loop has freed, and the
    loop never follows a pointer to a freed operation.  In every run, whatever
    coroutines, other threads and the kernel do: no packet leads to an operation
    that is gone; an operation whose packet has not been dequeued is in the table;
    and a coroutine whose operation the kernel had taken was resumed only after its
    packet was dequeued, also when it was cancelled, timed out or shut down. *)
Theorem iocp_memory_safe (w : World) (Hw : reachable w) :
  w_fault w = false /\
  (forall id, id ∈ owed (io_port (w_loop w)) ->
     exists op, io_operations (w_loop w) !! id = Some op /\ kernel_backed op = true) /\
  (forall r, r ∈ w_log w -> kernel_backed (r_op r) = true ->
     is_Some (w_packets w !! r_id r) /\ (r_id r ∉ owed (io_port (w_loop w)))).
Proof.
  destruct (reachable_run_inv w Hw) as [Hi Ht _ _]. split_and!; [apply Hi|apply Hi|].
  intros r Hr Hk. destruct (tv_log _ Ht r Hr) as [Hv _]. unfold verdict in Hv. rewrite Hk in Hv.
  destruct Hv as (pk & b & [Hpk _] & _). assert (is_Some (w_packets w !! r_id r)) as Hs by (by eexists).
  split; [done|]. apply (iv_packets _ Hi _ Hs).
Qed.

Lemma iocp_memory_safe_witness :
  reachable demo_world /\ w_fault demo_world = false /\
  map r_id (w_log demo_world) = [1; 2].
Proof.
  pose proof demo_io_reachable as Hr. split; [exact Hr|].
  split; [apply (iocp_memory_safe demo_world Hr)|]. vm_compute. reflexivity.
Defined.

(** C40: on Windows every suspended coroutine is resumed exactly once.  In every
    run the suspensions so far are, as a permutation, those still in the table and
    the resumptions made, with their coroutines, and no id occurs twice. *)
Theorem iocp_resolves_exactly_once (w : World) (Hw : reachable w) :
  map issued_pair (w_issued w) ≡ₚ suspended_ops (w_loop w) ++ map resumed_pair (w_log w) /\
  NoDup (map s_id (w_issued w)) /\ NoDup (map r_id (w_log w)).
Proof.
  destruct (reachable_run_inv w Hw) as [_ _ Hl _]. split_and!; [apply Hl|apply Hl|].
  assert (NoDup (map fst (map issued_pair (w_issued w)))) as Hnd.
  { rewrite map_map. apply Hl. }
  rewrite (lg_perm _ Hl), map_app, NoDup_app in Hnd. destruct Hnd as (_ & _ & Hnd).
  by rewrite map_map in Hnd.
Qed.

Lemma iocp_resolves_exactly_once_witness :
  reachable demo_world /\
  map issued_pair (w_issued demo_world) ≡ₚ
    suspended_ops (w_loop demo_world) ++ map resumed_pair (w_log demo_world) /\
  map issued_pair (w_issued demo_world) = [(1, 1); (2, 2); (3, 3)].
Proof.
  pose proof demo_io_reachable as Hr. split; [exact Hr|].
  split; [apply (iocp_resolves_exactly_once demo_world Hr)|]. vm_compute. reflexivity.
Defined.

(** ** Closed handles *)

(** No operation is marked closed that was not so before. *)
Definition unclosed (l l' : Iocp) : Prop :=
  forall id op', io_operations l' !! id = Some op' -> io_closed op' = true ->
    exists op, io_operations l !! id = Some op /\ io_closed op = true.

Lemma unclosed_same l l' : io_operations l' = io_operations l -> unclosed l l'.
Proof. intros E id op'. rewrite E. by exists op'. Qed.

Lemma unclosed_fix id e l r l' : fix_reason id e l = (r, l') -> unclosed l l'.
Proof.
  unfold fix_reason. destruct (io_operations l !! id) as [op|] eqn:Hop; [destruct (io_reason op)|];
    intros [= <- <-]; try by apply unclosed_same.
  intros x op'. unfold OperationId in *. simpl. destruct (decide (id = x)) as [<-|Hne].
  - rewrite lookup_alter_eq, Hop. simpl. intros [= <-] Hc. by exists op.
  - rewrite lookup_alter_ne by done. by exists op'.
Qed.

Lemma unclosed_cancel_io f l l' : unclosed l l' -> unclosed l (cancel_io f l').
Proof. unfold cancel_io. by destruct (fixed_target f) as [[s o]|]. Qed.

Lemma unclosed_expire t l r l' : expire_target t l = (r, l') -> unclosed l l'.
Proof.
  unfold expire_target. destruct (negb _); [intros [= <- <-]; by apply unclosed_same|].
  destruct (fix_reason _ _ l) as [[f|] l1] eqn:E; intros [= <- <-];
    [apply unclosed_cancel_io|]; by eapply unclosed_fix.
Qed.

Lemma unclosed_cancel id l rest l' : request_cancel id l = (rest, l') -> unclosed l l'.
Proof.
  unfold request_cancel. destruct (fix_reason _ _ l) as [[f|] l1] eqn:E; intros [= <- <-];
    by eapply unclosed_fix.
Qed.

Lemma unclosed_collect l o l' : shutdown_collect l = (o, l') -> unclosed l l'.
Proof.
  unfold shutdown_collect. intros [= _ <-] id op'. simpl. rewrite lookup_fmap.
  unfold OperationId in *. destruct (io_operations l !! id) as [op|]; simpl; [|done]. intros [= <-] Hc.
  exists op. split; [done|]. unfold pin_cancelled in Hc. by destruct (io_reason op).
Qed.

(** An operation is marked closed only if [detach] was called while it was in flight. *)
Record closed_inv (w : World) : Prop := {
  cv_ops : forall id op, io_operations (w_loop w) !! id = Some op -> io_closed op = true ->
    id ∈ w_detached w;
  cv_log : forall r, r ∈ w_log w -> io_closed (r_op r) = true -> r_id r ∈ w_detached w
}.

Lemma closed_keeps w w' :
  closed_inv w -> unclosed (w_loop w) (w_loop w') -> w_detached w' = w_detached w -> w_log w' = w_log w ->
  closed_inv w'.
Proof.
  intros [Ho Hl] Hu Ed El. constructor; rewrite Ed.
  - intros id op' Hop' Hc. destruct (Hu _ _ Hop' Hc) as (op & Hop & Hc'). by eapply Ho.
  - by rewrite El.
Qed.

Lemma closed_resume id outcome p w : closed_inv w -> closed_inv (resume id outcome (in_phase p w)).
Proof.
  intros [Ho Hl]. unfold resume, finalize_op, take_op. simpl.
  destruct (io_operations (w_loop w) !! id) as [op|] eqn:Hop; [|done].
  assert (forall l, io_operations l = delete id (io_operations (w_loop w)) ->
    closed_inv (set_w_given (given_socket op outcome ∪ w_given w)
      (set_w_log (w_log w ++ [mk_resumed id op outcome]) (set_w_loop l (in_phase p w))))) as Hk.
  { intros l El. constructor; simpl.
    - intros x op'. rewrite El. intros [_ Hx]%lookup_delete_Some. by apply Ho.
    - intros r [Hr| ->]%elem_of_snoc Hc; [by apply Hl|]. by eapply Ho. }
  simpl. apply Hk. by destruct (_ && _ && _).
Qed.

Lemma advance_closed now w w' : closed_inv w -> advance now w = Some w' -> closed_inv w'.
Proof.
  intros Hc. unfold advance.
  destruct (w_phase w) as [|ms|ps res|ts cs work res|cs work res|todo| |[os tc n]|o n|todo|]; try done.
  - destruct ps as [|pk ps].
    + destruct (w_clock w <=? now); [|done].
      destruct (drain_queues _ _) as [[[exp cs] work] l'] eqn:Ed. intros [= <-].
      eapply closed_keeps; [done| |done|done]. apply unclosed_same. unfold drain_queues in Ed.
      destruct (extract_expired _ _). by injection Ed as _ _ _ <-.
    + intros [= <-]. destruct (read_packet pk (w_loop w)) as [[r e]|];
        (eapply closed_keeps; [done|apply unclosed_same| |]); try done.
      all: destruct e; simpl; try done; by destruct (packet_id pk).
  - destruct ts as [|t ts]; [intros [= <-]; by eapply closed_keeps; [|apply unclosed_same|..]|].
    destruct (expire_target t _) as [r l'] eqn:Ee. intros [= <-].
    eapply closed_keeps; [done|by eapply unclosed_expire|done|done].
  - destruct cs; intros [= <-]; by eapply closed_keeps; [|apply unclosed_same|..].
  - destruct todo as [|[id outcome|x] todo]; intros [= <-];
      [by eapply closed_keeps; [|apply unclosed_same|..]|by apply closed_resume
      |by eapply closed_keeps; [|apply unclosed_same|..]].
  - destruct (shutdown_collect _) as [o l'] eqn:Ec. intros [= <-].
    eapply closed_keeps; [done|by eapply unclosed_collect|done|done].
  - destruct tc as [|[s id] tc]; intros [= <-]; by eapply closed_keeps; [|apply unclosed_same|..].
  - destruct n; intros [= <-]. by eapply closed_keeps; [|apply unclosed_same|..].
  - destruct todo as [|[id r] todo]; intros [= <-];
      [by eapply closed_keeps; [|apply unclosed_same|..]|by apply closed_resume].
Qed.

Lemma detach_closed h w :
  closed_inv w ->
  closed_inv (set_w_detached (on_handle h (w_loop w) ∪ w_detached w) (set_w_loop (detach_handle h (w_loop w)) w)).
Proof.
  intros [Ho Hl]. constructor; simpl.
  - intros id op'. rewrite lookup_fmap. unfold OperationId in *.
    destruct (io_operations (w_loop w) !! id) as [op|] eqn:Hop; simpl; [|done]. intros [= <-].
    destruct (io_socket op =? h) eqn:E; bool_facts.
    + intros _. apply elem_of_union_l, elem_of_dom. exists op. by apply map_lookup_filter_Some.
    + intros Hc. apply elem_of_union_r. by eapply Ho.
  - intros r Hr Hc. apply elem_of_union_r. by apply Hl.
Qed.

Lemma exec_closed c w w' : io_inv w -> closed_inv w -> exec c w = Some w' -> closed_inv w'.
Proof.
  intros Hi Hc. unfold exec.
  destruct c as [rq o coroutine now now' kernel|h|s|id|x| |i|timeout now|ps| |now| |pk].
  - destruct (_ && _ && _ && _ && _) eqn:Eg; [|done]. rewrite !andb_true_iff in Eg.
    destruct Eg as [[[[Hu Hr] _] _] Hfs].
    pose proof (io_call_spec rq o coroutine now now' kernel _ (ready_inv _ Hi Hr) Hfs) as Hsp.
    destruct (io_call _ _ _ _ _ _ _) as [[r|id] l'] eqn:Ec; intros [= <-]; simpl in Hsp.
    + eapply closed_keeps; [done|apply unclosed_same, Hsp|done|done].
    + destruct Hsp as [op S]. eapply closed_keeps; [done| |done|done]. simpl. intros x op' Hx Hcl.
      rewrite (sb_ops _ _ _ _ _ _ _ S) in Hx.
      apply lookup_insert_Some in Hx as [[_ <-]|[_ Hx]]; [|by exists op'].
      destruct (sb_new _ _ _ _ _ _ _ S) as [_ Hn]. congruence.
  - destruct (user_code _); [|done]. intros [= <-]. by apply detach_closed.
  - destruct (_ && _); [|done]. intros [= <-]. by eapply closed_keeps; [|apply unclosed_same|..].
  - destruct (id <=? _); [|done]. destruct (request_cancel _ _) as [rest l'] eqn:Ec. intros [= <-].
    eapply closed_keeps; [done|by eapply unclosed_cancel|done|done].
  - unfold post_work. destruct (io_shutting_down (w_loop w)); intros [= <-];
      by eapply closed_keeps; [|apply unclosed_same|..].
  - intros [= <-]. by eapply closed_keeps; [|apply unclosed_same|..].
  - destruct (w_threads w !! i) as [[|t rest]|]; try done.
    destruct (thread_step t (w_loop w)) as [more l'] eqn:Es. intros [= <-].
    destruct (thread_tables t (w_loop w) more l' Es) as [E1 _].
    by eapply closed_keeps; [|apply unclosed_same|..].
  - destruct (w_phase w); try done; [|by intros [= <-]].
    destruct (_ && _); [|done]. intros [= <-]. by eapply closed_keeps; [|apply unclosed_same|..].
  - destruct (w_phase w); try done. destruct (_ && _); [|done].
    intros [= <-]. by eapply closed_keeps; [|apply unclosed_same|..].
  - destruct (w_phase w); try done. intros [= <-]. by eapply closed_keeps; [|apply unclosed_same|..].
  - by apply advance_closed.
  - destruct (io_shutting_down _); [by intros [= <-]|].
    destruct (w_phase w); try done. intros [= <-]. by eapply closed_keeps; [|apply unclosed_same|..].
  - destruct (w_phase w) as [| | | | | | | |o n| |]; try done. destruct n as [|n]; [done|].
    destruct (packets_ok _ _); [|done]. intros [= <-]. by eapply closed_keeps; [|apply unclosed_same|..].
Qed.

Lemma reachable_closed w : reachable w -> closed_inv w.
Proof.
  assert (closed_inv new_world) as H0.
  { constructor; simpl; [intros id op; by rewrite lookup_empty|intros r ?%elem_of_nil; done]. }
  unfold reachable. generalize new_world_run_inv H0. generalize new_world. intros w0 Hi H1 Hr.
  induction Hr as [|w1 w2 w3 [c Hc] _ IH]; [done|].
  apply IH; [by eapply exec_run_inv|]. eapply exec_closed; [apply Hi|done|exact Hc].
Qed.

(** ** Answers *)

(** What the coroutine of a suspension may find, when its operation was [op]: a
    success that fits what it asked for, or an error with its cause, which is a
    cancellation asked for, the shutdown, a [detach] of its handle while it was in
    flight, its deadline, or what its packet says of an operation whose handle is
    open. *)
Definition answer_fits (w : World) (i : Issued) (op : IoOp) (outcome : Result Z) : Prop :=
  match outcome with
  | Ok k =>
      match s_request i with
      | rq_read _ n => 0 < k <= wrap32 n
      | rq_write _ n => 0 <= k <= wrap32 n
      | rq_writev _ ps => 0 <= k <= foldr Z.add 0 (scatter_of ps)
      | rq_datagram _ (recv_into n) => 0 <= k <= n
      | rq_datagram _ (send_from n _) => k = wrap32 n /\ n <= ULONG_MAX
      | rq_accept _ _ s => s = Ok k
      | rq_connect _ _ _ _ => k = 0
      | rq_sleep t => k = 0 /\ t <= w_clock w
      end
  | Fail e =>
      (e = make_error_code Errc.cancelled /\
       (s_id i ∈ w_asked w \/ io_shutting_down (w_loop w) = true \/
        kernel_backed op = true /\ io_closed op = true /\ s_id i ∈ w_detached w)) \/
      (e = make_error_code Errc.timed_out /\
       exists d, opt_deadline (s_options i) = Some d /\ d <= w_clock w) \/
      (kernel_backed op = true /\ exists pk, w_packets w !! s_id i = Some pk /\
         (classify (with_io_closed false op) pk).1 = Fail e)
  end.

Lemma NoDup_map_inj {A B} (f : A -> B) l x y :
  NoDup (map f l) -> x ∈ l -> y ∈ l -> f x = f y -> x = y.
Proof.
  induction l as [|z l IH]; simpl; intros Hnd Hx Hy E; [by apply elem_of_nil in Hx|].
  apply NoDup_cons in Hnd as [Hni Hnd].
  assert (forall u, u ∈ l -> f u <> f z) as Hne.
  { intros u Hu E'. apply Hni, list_elem_of_In, in_map_iff. exists u. by rewrite <- list_elem_of_In. }
  apply elem_of_cons in Hx as [->|Hx], Hy as [->|Hy]; auto; exfalso.
  - by apply (Hne y).
  - by apply (Hne x).
Qed.

(** The suspension whose timer came due is the one that is resumed. *)
Lemma came_due_own w i dl :
  ledger_inv w -> i ∈ w_issued w -> came_due w (s_id i) dl ->
  exists t, (if dl then opt_deadline (s_options i) else s_wake_at i) = Some t /\ t <= w_clock w.
Proof.
  intros Hl Hi (i' & t & Hi' & Hid & Ht & Hle). exists t. split; [|done].
  by rewrite <- (NoDup_map_inj s_id _ i' i (lg_nodup _ Hl) Hi' Hi Hid).
Qed.

Lemma request_kind_backed rq op :
  request_op rq op -> kernel_backed op = negb (match rq with rq_sleep _ => true | _ => false end).
Proof. intros [Hk _]. unfold kernel_backed. rewrite Hk. by destruct rq as [| | |? []| | |]. Qed.

(** Successes of operations of the kernel. *)
Lemma kernel_success rq op pk b k :
  request_op rq op -> kernel_backed op = true -> 0 <= pk_transferred pk <= buffers_length op ->
  (classify (with_io_closed b op) pk).1 = Ok k ->
  match rq with
  | rq_read _ n => 0 < k <= wrap32 n
  | rq_write _ n => 0 <= k <= wrap32 n
  | rq_writev _ ps => 0 <= k <= foldr Z.add 0 (scatter_of ps)
  | rq_datagram _ (recv_into n) => 0 <= k <= n
  | rq_datagram _ (send_from n _) => k = wrap32 n /\ n <= ULONG_MAX
  | rq_accept _ _ s => s = Ok k
  | rq_connect _ _ _ _ => k = 0
  | rq_sleep _ => False
  end.
Proof.
  intros Hrq Hb Hlen Hc. rewrite (request_kind_backed _ _ Hrq) in Hb.
  destruct Hrq as [Hk Hrq]. apply classify_ok in Hc. rewrite Hk in Hc. unfold buffers_length in *.
  destruct rq as [h n|h n|h ps|h [n|n a]|h ext s|h a ext bd|t]; simpl in *; try done.
  - destruct Hrq as [_ Hbuf]. rewrite Hbuf in Hlen. simpl in Hlen. lia.
  - destruct Hrq as [_ Hbuf]. rewrite Hbuf in Hlen. simpl in Hlen. lia.
  - destruct Hrq as [_ Hbuf]. rewrite Hbuf in Hlen. lia.
  - destruct Hrq as (_ & _ & Hcap & _). rewrite Hcap in Hc. lia.
  - destruct Hrq as (_ & Hbuf & _ & Hmax). rewrite Hbuf in Hc. simpl in Hc. lia.
  - destruct Hrq as (_ & -> & _). by subst k.
Qed.

Lemma resumed_answer (w : World) (Hw : reachable w) (r : Resumed) (Hr : r ∈ w_log w) :
  exists i, i ∈ w_issued w /\ s_id i = r_id r /\ s_coroutine i = io_handle (r_op r) /\
    request_op (s_request i) (r_op r) /\ answer_fits w i (r_op r) (r_outcome r).
Proof.
  destruct (reachable_run_inv w Hw) as [Hi Ht Hl _].
  destruct (lg_told _ Hl r Hr) as (i & Hin & Hid & Hco & Hrq). exists i. split_and!; try done.
  destruct (tv_log _ Ht r Hr) as [Hv Hre]. rewrite <- Hid in Hv, Hre.
  assert (forall e, io_reason (r_op r) = Some e -> answer_fits w i (r_op r) (Fail e)) as Hpin.
  { intros e He. destruct (Hre e He) as [[? Hc]|[? Hd]]; [left; split; [done|]; tauto|right; left].
    split; [done|]. by apply (came_due_own w i true). }
  unfold verdict in Hv. destruct (kernel_backed (r_op r)) eqn:Hk.
  - destruct Hv as (pk & b & [Hpk Hlen] & Hb & [->|(e & He & ->)]); [|by apply Hpin].
    destruct (classify (with_io_closed b (r_op r)) pk).1 as [k|e] eqn:Hc.
    + pose proof (kernel_success _ _ _ _ _ Hrq Hk Hlen Hc) as Hs. unfold answer_fits.
      by destruct (s_request i) as [| | |? []| | |].
    + destruct b.
      * left. specialize (Hb eq_refl). injection Hc as <-. split; [done|]. right; right.
        split_and!; [done|done|]. rewrite Hid. by apply (cv_log _ (reachable_closed w Hw)).
      * right; right. split; [done|]. exists pk. done.
  - rewrite (request_kind_backed _ _ Hrq) in Hk.
    destruct Hv as [[-> Hd]|(e & He & ->)]; [|by apply Hpin].
    destruct (came_due_own w i false Hl Hin Hd) as (t & Ht' & Hle). unfold answer_fits, s_wake_at in *.
    destruct (s_request i); try done. simpl in Ht'. injection Ht' as ->. done.
Qed.

(** C7: what a resumed coroutine is told fits what it asked for.  In every run and
    for every resumption there is the suspension it answers, of the same coroutine
    and with the operation it asked for, and: a read reports between one byte and
    the length handed to the kernel, a write, a scattered write or a receive at most
    that much, a send the whole packet, an accept the socket made for it, a sleep
    ends at or after its time; [cancelled] was asked for, or the loop was shut down,
    or the handle was detached while the operation was in flight; [timed_out] is
    past the operation's own deadline; and any other error is what the operation's
    own packet, dequeued before, says of it. *)
Theorem iocp_answers_fit (w : World) (Hw : reachable w) (r : Resumed) (Hr : r ∈ w_log w) :
  exists i, i ∈ w_issued w /\ s_id i = r_id r /\ s_coroutine i = io_handle (r_op r) /\
    request_op (s_request i) (r_op r) /\ answer_fits w i (r_op r) (r_outcome r).
Proof. by apply resumed_answer. Qed.

Lemma iocp_answers_fit_witness :
  exists r, r ∈ w_log demo_world /\ r_outcome r = Ok 30 /\
    exists i, i ∈ w_issued demo_world /\ s_id i = r_id r /\ answer_fits demo_world i (r_op r) (r_outcome r).
Proof.
  assert (r_outcome <$> head (w_log demo_world) = Some (Ok 30)) as E by (vm_compute; reflexivity).
  destruct (w_log demo_world) as [|r rest] eqn:El; [discriminate|]. injection E as E.
  assert (r ∈ w_log demo_world) as Hin by (rewrite El; left).
  destruct (iocp_answers_fit demo_world demo_io_reachable r Hin) as (i & Hi & Hid & _ & _ & Hfit).
  exists r. split; [left|]. split; [exact E|]. exists i. split; [exact Hi|]. split; [exact Hid|exact Hfit].
Defined.

(** ** Sockets made for AcceptEx *)

(** The sockets made for AcceptEx are never lost and never closed under
    somebody.  In every run an open one belongs to exactly one accept in flight or
    to a caller it was given to, never to both, and those of accepts in flight are
    open. *)
Theorem accepted_sockets_owned (w : World) (Hw : reachable w) :
  (forall s, s ∈ sockets (io_port (w_loop w)) <->
     s ∈ w_given w \/ exists id op, io_operations (w_loop w) !! id = Some op /\
       io_kind op = IoKind.accept /\ io_accepted op = s) /\
  (forall id1 id2 op1 op2, io_operations (w_loop w) !! id1 = Some op1 ->
     io_operations (w_loop w) !! id2 = Some op2 -> io_kind op1 = IoKind.accept ->
     io_kind op2 = IoKind.accept -> io_accepted op1 = io_accepted op2 -> id1 = id2) /\
  (forall id op, io_operations (w_loop w) !! id = Some op -> io_kind op = IoKind.accept ->
     io_accepted op ∉ w_given w).
Proof.
  destruct (reachable_run_inv w Hw) as [_ _ _ Hs]. split_and!.
  - intros s. split; [apply Hs|]. intros [Hg|(id & op & Hop & Hk & <-)]; [by apply (sk_given _ Hs)|].
    by apply (sk_live _ Hs id op).
  - apply Hs.
  - intros id op Hop Hk. by apply (sk_live _ Hs id op).
Qed.

Lemma accepted_sockets_owned_witness :
  reachable demo_world /\
  (forall s, s ∈ sockets (io_port (w_loop demo_world)) -> s ∈ w_given demo_world \/
     exists id op, io_operations (w_loop demo_world) !! id = Some op /\
       io_kind op = IoKind.accept /\ io_accepted op = s) /\
  elements (sockets (io_port (w_loop demo_world))) = [].
Proof.
  pose proof demo_io_reachable as Hr. split; [exact Hr|]. split; [|vm_compute; reflexivity].
  intros s. apply (accepted_sockets_owned demo_world Hr).
Defined.

(** ** Lengths that do not fit *)

(** a read into a buffer of 2^32 bytes cannot succeed on Windows.  The length is
    truncated to 32 bits and becomes 0; no run ever reports a byte to such a read,
    and there is a run in which the peer has closed nothing and the read is told
    that the stream has ended. *)
Theorem huge_read_is_eof :
  (forall w r i, reachable w -> r ∈ w_log w -> i ∈ w_issued w -> s_id i = r_id r ->
     forall h k, s_request i = rq_read h (2 ^ 32) -> r_outcome r <> Ok k) /\
  exists w, reachable w /\
    map r_outcome (w_log w) = [fail Errc.eof] /\
    map s_request (w_issued w) = [rq_read 5 (2 ^ 32)].
Proof.
  split.
  - intros w r i Hw Hr Hi Hid h k Hrq Hok.
    destruct (resumed_answer w Hw r Hr) as (i' & Hi' & Hid' & _ & _ & Hfit).
    pose proof (ri_ledger _ (reachable_run_inv w Hw)) as Hl.
    assert (i' = i) as -> by (eapply (NoDup_map_inj s_id _ _ _ (lg_nodup _ Hl)); congruence || done).
    rewrite Hok in Hfit. unfold answer_fits in Hfit. rewrite Hrq in Hfit. unfold wrap32 in Hfit.
    rewrite Z.mod_same in Hfit by done. lia.
  - set (moves := [c_call (rq_read 5 (2 ^ 32)) no_options 1 0 0 None; c_run_once None 1;
      c_dequeue [plain_packet 1 0]; c_advance 1; c_advance 1; c_advance 1; c_advance 1; c_advance 1]).
    exists (default new_world (script moves new_world)). split.
    + apply (io_script_steps moves). vm_compute. reflexivity.
    + split; vm_compute; reflexivity.
Qed.

(** ** A handle that is closed while another thread cancels *)

(** [detach] is documented to end the use of a handle, and [fix_reason] checks
    for it; but the call of CancelIoEx comes after the lock is released.  There is
    a run in which a handle is detached (and may be closed and reused) and then
    another thread calls CancelIoEx on it. *)
Theorem cancel_after_detach :
  exists w, reachable w /\
    cancel_calls (io_port (w_loop w)) = [(5, None); (5, Some 1)] /\
    forall op, io_operations (w_loop w) !! 1 = Some op -> io_closed op = true.
Proof.
  set (moves := [c_call (rq_read 5 100) no_options 1 0 0 None; c_cancel 1; c_detach 5; c_thread 0]).
  exists (default new_world (script moves new_world)). split.
  - apply (io_script_steps moves). vm_compute. reflexivity.
  - split; [vm_compute; reflexivity|]. intros op Hop. vm_compute in Hop. by injection Hop as <-.
Qed.
