(* ===== verification/IocpProgress.v ===== *)
(** * IocpProgress: the Windows event loop does not hang

    Shutting down waits for exactly the packets the kernel owes, comes closer to
    its end with every move, and leaves nobody behind; and the loop never blocks
    while work for it is queued without a wake-up on its way. *)

From stdpp Require Import gmap.
From S2P Require Import Prelude Errors Timers Iocp IocpRun IocpCalls IocpInv IocpLedger IocpVerdict IocpSafety.

Local Open Scope Z_scope.

(** ** Shutting down *)

(** How far the closing thread is from its end. *)
Definition closing_left (w : World) : nat :=
  (match w_phase w with
   | closing => 3 * size (io_operations (w_loop w)) + 4
   | aborting o => length (to_cancel o) + backed o + length (orphans o) + 3
   | draining o n => n + length (orphans o) + 2
   | orphaning todo => length todo + 1
   | _ => 0
   end)%nat.

Lemma orphans_bounds es acc :
  (length (to_cancel (foldl add_orphan acc es)) <= length (to_cancel acc) + length es)%nat /\
  (backed (foldl add_orphan acc es) <= backed acc + length es)%nat /\
  length (orphans (foldl add_orphan acc es)) = (length (orphans acc) + length es)%nat.
Proof.
  revert acc; induction es as [|[id op] es IH]; intros acc; simpl; [lia|].
  destruct (IH (add_orphan acc (id, op))) as (H1 & H2 & H3). simpl in *.
  rewrite length_app in H3. simpl in H3.
  destruct (kernel_backed op && negb (io_closed op)); rewrite ?length_app in H1; simpl in H1;
    destruct (kernel_backed op); lia.
Qed.

Lemma wrap32_nonneg n : 0 <= wrap32 n.
Proof. unfold wrap32. pose proof (Z.mod_pos_bound n (2 ^ 32)). lia. Qed.

Lemma scatter_nonneg ps : Forall (fun n => 0 <= n) (scatter_of ps).
Proof.
  unfold scatter_of.
  match goal with |- Forall ?P (foldl ?f [] ps) =>
    enough (forall acc, Forall P acc -> Forall P (foldl f acc ps)) as Hg by (apply Hg; constructor) end.
  induction ps as [|p ps IH]; intros acc Hacc; simpl; [done|].
  destruct (_ || _); [by apply IH|]. apply IH, Forall_app. split; [done|].
  apply Forall_singleton, wrap32_nonneg.
Qed.

Lemma sum_nonneg l : Forall (fun n => 0 <= n) l -> 0 <= foldr Z.add 0 l.
Proof. induction 1; simpl; lia. Qed.

(** An operation of the kernel has room for at least no bytes. *)
Lemma request_room rq op : request_op rq op -> kernel_backed op = true -> 0 <= buffers_length op.
Proof.
  intros Hrq Hk. rewrite (request_kind_backed _ _ Hrq) in Hk. destruct Hrq as [_ Hrq].
  unfold buffers_length. destruct rq as [h n|h n|h ps|h io|h ext s|h a ext bd|t]; try done;
    destruct_and? Hrq; repeat match goal with H : io_buffers op = _ |- _ => rewrite H; clear H end;
    simpl; try done.
  - pose proof (wrap32_nonneg n). lia.
  - pose proof (wrap32_nonneg n). lia.
  - apply sum_nonneg, scatter_nonneg.
  - unfold datagram_length. pose proof (wrap32_nonneg (datagram_size io)).
    destruct io as [[|p|p]|n a]; simpl in *; lia.
Qed.

(** While the kernel owes a packet, one can be dequeued. *)
Lemma packet_available w id :
  run_inv w -> id ∈ owed (io_port (w_loop w)) -> packets_ok [plain_packet id 0] (w_loop w) = true.
Proof.
  intros [Hi _ Hl _] Ho. destruct (iv_owed _ Hi _ Ho) as (op & Hop & Hk).
  destruct (lg_asked _ Hl _ _ Hop) as (i & _ & _ & _ & Hrq).
  pose proof (request_room _ _ Hrq Hk) as Hroom.
  apply Z.leb_le in Hroom. unfold packets_ok, packet_ok, genuine. simpl.
  unfold OperationId in *. rewrite Hop. simpl. rewrite Hroom. simpl. rewrite bool_decide_true by done. done.
Qed.

Lemma closing_moves (w : World) :
  run_inv w -> shut_phase (w_phase w) = true -> w_phase w <> closed ->
  exists c w', exec c w = Some w' /\ (closing_left w' < closing_left w)%nat.
Proof.
  intros Hr Hsh Hnc. pose proof (iv_phase _ (ri_io _ Hr)) as Hpo. unfold closing_left.
  destruct (w_phase w) as [| | | | | | |[os tc n]|o n|todo|] eqn:Hph; try done.
  - exists (c_advance 0). simpl. unfold advance. rewrite Hph.
    destruct (shutdown_collect (w_loop w)) as [o l'] eqn:Ec. eexists. split; [done|]. simpl.
    destruct (collect_frame _ _ _ Ec) as (_ & _ & _ & _ & _ & _ & _ & ->).
    destruct (orphans_bounds (map_to_list (pin_cancelled <$> io_operations (w_loop w))) (mk_orphans [] [] 0))
      as (H1 & H2 & H3). rewrite length_map_to_list, map_size_fmap in H1, H2, H3. simpl in *.
    unfold OperationId in *. lia.
  - exists (c_advance 0). simpl. unfold advance. rewrite Hph. destruct tc as [|[s id] tc];
      (eexists; split; [done|]); simpl; lia.
  - destruct n as [|n].
    + exists (c_advance 0). simpl. unfold advance. rewrite Hph. eexists. split; [done|]. simpl. lia.
    + destruct Hpo as [_ Hn].
      destruct (set_choose_or_empty (owed (io_port (w_loop w)))) as [[id Hid]|He].
      * exists (c_drain (plain_packet id 0)). simpl. rewrite Hph, packet_available by done.
        eexists. split; [done|]. cbv [w_phase in_phase set_w_phase]. unfold drain_packet. simpl. lia.
      * apply size_empty_iff in He. by rewrite He in Hn.
  - exists (c_advance 0). simpl. unfold advance. rewrite Hph. destruct todo as [|[id r] todo].
    + eexists. split; [done|]. simpl. lia.
    + eexists. split; [done|]. simpl.
      assert (id ∉ owed (io_port (w_loop w))) as Ho by (destruct Hpo as [-> _]; set_solver).
      destruct (resume_frame id (Fail r) (in_phase (orphaning todo) w) Ho) as (_ & _ & _ & _ & _ & _ & -> & _).
      simpl. lia.
Qed.

(** Nobody else pushes the end further away. *)
Lemma quiet_size l l' : quiet l l' -> size (io_operations l') = size (io_operations l).
Proof.
  intros Q. rewrite <- !size_dom. f_equal. apply set_eq. intros id. rewrite !elem_of_dom.
  pose proof (q_ops _ _ Q id) as H. unfold OperationId in *.
  destruct (io_operations l !! id), (io_operations l' !! id); try done; split; by intros [].
Qed.

Lemma same_phase_left w w' :
  w_phase w' = w_phase w -> w_phase w <> closing \/ quiet (w_loop w) (w_loop w') ->
  closing_left w' = closing_left w.
Proof.
  intros Hph Hq. unfold closing_left. rewrite Hph. destruct (w_phase w); try done.
  destruct Hq as [?|Hq]; [done|]. by rewrite (quiet_size _ _ Hq).
Qed.

Lemma advance_left now w w' :
  io_inv w -> shut_phase (w_phase w) = true -> advance now w = Some w' ->
  (closing_left w' <= closing_left w)%nat.
Proof.
  intros Hi Hsh Ha. pose proof (iv_phase _ Hi) as Hpo. unfold advance in Ha. unfold closing_left.
  destruct (w_phase w) as [| | | | | | |[os tc n]|o n|todo|] eqn:Hph; try done.
  - destruct (shutdown_collect (w_loop w)) as [o l'] eqn:Ec. injection Ha as <-. simpl.
    destruct (collect_frame _ _ _ Ec) as (_ & _ & _ & _ & _ & _ & _ & ->).
    destruct (orphans_bounds (map_to_list (pin_cancelled <$> io_operations (w_loop w))) (mk_orphans [] [] 0))
      as (H1 & H2 & H3). rewrite length_map_to_list, map_size_fmap in H1, H2, H3. simpl in *.
    unfold OperationId in *. lia.
  - destruct tc as [|[s id] tc]; injection Ha as <-; simpl; lia.
  - destruct n; [|done]. injection Ha as <-. simpl. lia.
  - destruct todo as [|[id r] todo]; injection Ha as <-; [simpl; lia|].
    assert (id ∉ owed (io_port (w_loop w))) as Ho by (destruct Hpo as [-> _]; set_solver).
    destruct (resume_frame id (Fail r) (in_phase (orphaning todo) w) Ho) as (_ & _ & _ & _ & _ & _ & -> & _).
    simpl. lia.
Qed.

Lemma exec_left c w w' :
  io_inv w -> shut_phase (w_phase w) = true -> exec c w = Some w' ->
  (closing_left w' <= closing_left w)%nat.
Proof.
  intros Hi Hsh. unfold exec.
  destruct c as [rq o coroutine now now' kernel|h|s|id|x| |i|timeout now|ps| |now| |pk].
  - destruct (_ && _ && _ && _ && _) eqn:Eg; [|done]. rewrite !andb_true_iff in Eg.
    destruct Eg as [[[[Hu _] _] _] _]. destruct (io_call _ _ _ _ _ _ _) as [[r|id] l'];
      intros [= <-]; (erewrite same_phase_left; [done|done|left; by destruct (w_phase w)]).
  - destruct (user_code _) eqn:Hu; [|done]. intros [= <-].
    erewrite same_phase_left; [done|done|left; by destruct (w_phase w)].
  - destruct (_ && _) eqn:Hu; [|done]. apply andb_true_iff in Hu as [Hu _]. intros [= <-].
    erewrite same_phase_left; [done|done|left; by destruct (w_phase w)].
  - destruct (id <=? _); [|done]. destruct (request_cancel _ _) as [rest l'] eqn:Ec. intros [= <-].
    erewrite same_phase_left; [done|done|right; by eapply quiet_request_cancel].
  - unfold post_work. destruct (io_shutting_down (w_loop w)); intros [= <-];
      (erewrite same_phase_left; [done|done|right; by apply quiet_same]).
  - intros [= <-]. erewrite same_phase_left; [done|done|right; by apply quiet_same].
  - destruct (w_threads w !! i) as [[|t rest]|]; try done.
    destruct (thread_step t (w_loop w)) as [more l'] eqn:Es. intros [= <-].
    erewrite same_phase_left; [done|done|right; by eapply quiet_thread].
  - destruct (w_phase w); try done. by intros [= <-].
  - by destruct (w_phase w).
  - by destruct (w_phase w).
  - by apply advance_left.
  - pose proof (iv_shut _ Hi) as Hd. rewrite Hsh in Hd. rewrite Hd. by intros [= <-].
  - destruct (w_phase w) as [| | | | | | | |o n| |] eqn:Hph; try done. destruct n as [|n]; [done|].
    destruct (packets_ok _ _); [|done]. intros [= <-]. unfold closing_left. rewrite Hph.
    cbn [w_phase in_phase set_w_phase]. unfold drain_packet.
    destruct (pk_overlapped pk); [destruct (_ =? _)|]; simpl; lia.
Qed.

(** C8: destroying a Windows loop waits for exactly the packets the kernel owes and
    leaves nobody behind.  In every run that has started to shut down: the number
    it waits for is the number of operations the kernel has not finished with, so
    while it is not zero the kernel has such a packet to deliver; from every state
    before the end some move (the thread's own, or such a packet) brings the end
    closer, and no move of anybody pushes it away; and at the end the table is empty, the kernel owes nothing, every
    suspension has been resumed, and the sockets still open are those of callers. *)
Theorem iocp_shutdown_complete (w : World) (Hw : reachable w) :
  (forall o n, w_phase w = draining o n -> n = size (owed (io_port (w_loop w)))) /\
  (shut_phase (w_phase w) = true -> w_phase w <> closed ->
   exists c w', exec c w = Some w' /\ (closing_left w' < closing_left w)%nat) /\
  (shut_phase (w_phase w) = true -> forall c w', exec c w = Some w' ->
   (closing_left w' <= closing_left w)%nat) /\
  (w_phase w = closed ->
   io_operations (w_loop w) = ∅ /\ owed (io_port (w_loop w)) = ∅ /\
   map issued_pair (w_issued w) ≡ₚ map resumed_pair (w_log w) /\
   sockets (io_port (w_loop w)) = w_given w).
Proof.
  pose proof (reachable_run_inv w Hw) as Hr. destruct Hr as [Hi Ht Hl Hs] eqn:E. clear E.
  pose proof (iv_phase _ Hi) as Hpo. split_and!.
  - intros o n Hph. rewrite Hph in Hpo. apply Hpo.
  - by apply closing_moves.
  - intros Hsh c w'. by apply exec_left.
  - intros Hph. rewrite Hph in Hpo. destruct Hpo as [Ho He]. split_and!; try done.
    + rewrite (lg_perm _ Hl). unfold suspended_ops. rewrite He, fmap_empty, map_to_list_empty. done.
    + apply set_eq. intros s. split; [|apply (sk_given _ Hs)]. intros Hin.
      destruct (sk_owner _ Hs _ Hin) as [?|(id & op & Hop & _)]; [done|]. rewrite He in Hop. done.
Qed.

(** The run of [demo_moves], shut down to the end, with a read in flight. *)
Definition shutdown_moves : list Command :=
  [c_call (rq_read 5 100) no_options 1 0 0 None; c_call (rq_sleep 1000) no_options 2 0 0 None;
   c_shutdown; c_advance 0; c_advance 0; c_advance 0; c_drain wake_packet; c_drain (plain_packet 1 7);
   c_advance 0; c_advance 0; c_advance 0; c_advance 0].

Lemma iocp_shutdown_complete_witness :
  exists w, script shutdown_moves new_world = Some w /\ w_phase w = closed /\
    io_operations (w_loop w) = ∅ /\ map r_id (w_log w) = [2; 1].
Proof.
  destruct (script shutdown_moves new_world) as [w|] eqn:E; [|vm_compute in E; discriminate].
  assert (w_phase w = closed /\ map r_id (w_log w) = [2; 1]) as [Hph Hlog].
  { vm_compute in E. injection E as <-. split; reflexivity. }
  exists w. split; [reflexivity|]. split; [exact Hph|]. split.
  - apply (iocp_shutdown_complete w (io_script_steps shutdown_moves new_world w E)). exact Hph.
  - exact Hlog.
Defined.

(** ** Waking the loop *)

(** What makes [run_once] return at once: posted work, cancellations, a stop. *)
Definition work_queued (l : Iocp) : Prop :=
  io_posted l <> [] \/ io_cancels l <> [] \/ io_stop l = true.

(** A wake-up packet is in the port, or a thread is about to post one. *)
Definition signalled (w : World) : Prop :=
  (0 < nudges (io_port (w_loop w)))%nat \/ exists prog, prog ∈ w_threads w /\ th_nudge ∈ prog.

(** A thread is about to call [wake()]. *)
Definition wake_due (w : World) : Prop := exists prog, prog ∈ w_threads w /\ th_wake ∈ prog.

Definition is_reading (p : Phase) : Prop := match p with reading _ _ => True | _ => False end.

(** What a thread may have left to do. *)
Definition prog_ok (prog : list ThreadStep) : Prop :=
  match prog with
  | [] | [th_wake] | [th_nudge] | [th_cancel_io _] | [th_push_cancel _; th_wake]
  | [th_cancel_io _; th_push_cancel _; th_wake] => True
  | _ => False
  end.

(** The flag is up only while a wake-up is on its way, or the loop has dequeued it
    and not yet emptied its queues. *)
Record wake_inv (w : World) : Prop := {
  wk_progs : forall prog, prog ∈ w_threads w -> prog_ok prog;
  wk_flag : io_wake_pending (w_loop w) = true -> io_shutting_down (w_loop w) = false ->
    signalled w \/ is_reading (w_phase w);
  wk_wait : forall ms, w_phase w = waiting ms -> ms <> 0 -> work_queued (w_loop w) ->
    signalled w \/ wake_due w;
  wk_port : io_shutting_down (w_loop w) = false -> port_open (io_port (w_loop w)) = true;
}.

(** A move that leaves signals and threads alone. *)
Lemma wake_keeps w w' :
  wake_inv w -> w_threads w' = w_threads w ->
  (io_wake_pending (w_loop w') = true -> io_wake_pending (w_loop w) = true) ->
  (nudges (io_port (w_loop w)) <= nudges (io_port (w_loop w')))%nat ->
  (is_reading (w_phase w) -> is_reading (w_phase w') \/ io_wake_pending (w_loop w') = false) ->
  (forall ms, w_phase w' = waiting ms -> w_phase w = waiting ms \/ (ms <> 0 -> ~ work_queued (w_loop w'))) ->
  (work_queued (w_loop w') -> work_queued (w_loop w)) ->
  (io_shutting_down (w_loop w') = false -> io_shutting_down (w_loop w) = false /\
     port_open (io_port (w_loop w')) = port_open (io_port (w_loop w))) ->
  wake_inv w'.
Proof.
  intros Hk Ht Hf Hn Hr Hw Hq Hs.
  assert (signalled w -> signalled w') as Hsig.
  { unfold signalled. rewrite Ht. intros [?|?]; [left; lia|by right]. }
  constructor.
  - rewrite Ht. apply Hk.
  - intros Hp Hd. destruct (wk_flag _ Hk (Hf Hp) (proj1 (Hs Hd))) as [?|Hrd]; [left; by apply Hsig|].
    destruct (Hr Hrd) as [?|?]; [by right|congruence].
  - intros ms Hph Hms Hq'. destruct (Hw ms Hph) as [Hph'|Hno]; [|by destruct (Hno Hms)].
    destruct (wk_wait _ Hk ms Hph' Hms (Hq Hq')) as [?|?]; [left; by apply Hsig|right].
    unfold wake_due in *. by rewrite Ht.
  - intros Hd. destruct (Hs Hd) as [Hd' ->]. by apply (wk_port _ Hk).
Qed.

Lemma elem_of_threads (threads : list (list ThreadStep)) i prog prog' :
  threads !! i = Some prog' -> prog ∈ threads -> prog = prog' \/ forall p, prog ∈ <[i := p]> threads.
Proof.
  intros Hi Hin. apply list_elem_of_lookup in Hin as [j Hj]. destruct (decide (i = j)) as [->|Hne].
  - left. congruence.
  - right. intros p. apply list_elem_of_lookup. exists j. by rewrite list_lookup_insert_ne.
Qed.

Lemma inserted_elem (threads : list (list ThreadStep)) i p p' :
  threads !! i = Some p' -> p ∈ <[i := p]> threads.
Proof. intros Hi. apply list_elem_of_insert. by apply lookup_lt_Some in Hi. Qed.

(** A section of another thread. *)
Lemma wake_thread w i t rest more l' :
  io_inv w -> wake_inv w -> w_threads w !! i = Some (t :: rest) -> thread_step t (w_loop w) = (more, l') ->
  wake_inv (set_w_threads (<[i := more ++ rest]> (w_threads w)) (set_w_loop l' w)).
Proof.
  intros Hv Hk Hi Ht. pose proof (list_elem_of_lookup_2 _ _ _ Hi) as Hin.
  assert (forall ms, w_phase w = waiting ms -> io_shutting_down (w_loop w) = false) as Hwait.
  { intros ms Hph. by rewrite (iv_shut _ Hv), Hph. }
  pose proof (wk_progs _ Hk _ Hin) as Hok.
  set (w' := set_w_threads _ _).
  assert (forall p, p ∈ w_threads w -> p = t :: rest \/ p ∈ w_threads w') as Hother.
  { intros p Hp. destruct (elem_of_threads _ _ _ _ Hi Hp) as [?|H]; [by left|right; apply H]. }
  assert (more ++ rest ∈ w_threads w') as Hnew by (eapply inserted_elem; done).
  assert (forall p, p ∈ w_threads w' -> p = more ++ rest \/ p ∈ w_threads w) as Hold.
  { intros p Hp. by apply list_insert_elem in Hp. }
  assert (t <> th_nudge -> t <> th_wake -> nudges (io_port l') = nudges (io_port (w_loop w)) ->
    (signalled w -> signalled w') /\ (wake_due w -> wake_due w')) as Hpass.
  { intros N1 N2 En. split.
    - intros [?|(p & Hp & Hx)]; [left; simpl; lia|right]. destruct (Hother p Hp) as [->|?]; [|by exists p].
      apply elem_of_cons in Hx as [<-|Hx]; [done|]. exists (more ++ rest). split; [done|set_solver].
    - intros (p & Hp & Hx). destruct (Hother p Hp) as [->|?]; [|by exists p].
      apply elem_of_cons in Hx as [<-|Hx]; [done|]. exists (more ++ rest). split; [done|set_solver]. }
  destruct t as [f|id| |]; simpl in Ht.
  - injection Ht as <- <-. destruct (cancel_io_shrinks f (w_loop w)) as (_ & _ & Hq & Hws).
    unfold queues in Hq. injection Hq as Hq1 Hq2 Hq3 Hq4. unfold wake_state in Hws. injection Hws as Hw1 Hw2.
    destruct Hpass as [Hp1 Hp2]; [done|done|done|].
    assert (port_open (io_port (cancel_io f (w_loop w))) = port_open (io_port (w_loop w))) as Hpo.
    { unfold cancel_io. by destruct (fixed_target f) as [[? ?]|]. }
    constructor; simpl; rewrite ?Hw1, ?Hq4, ?Hpo; try apply Hk.
    + intros p [->|Hp]%Hold; [|by apply Hk]. destruct rest as [|[] [|[] [|]]]; done.
    + intros H1 H2. destruct (wk_flag _ Hk H1 H2); auto.
    + intros ms Hph Hms Hq. destruct (wk_wait _ Hk ms Hph Hms); auto.
      unfold work_queued in *. rewrite Hq1, Hq2, Hq3 in Hq. done.
  - injection Ht as <- <-. destruct Hpass as [Hp1 Hp2]; [done|done|done|].
    assert (rest = [th_wake]) as -> by (destruct rest as [|[] [|]]; done).
    constructor; simpl; try apply Hk.
    + intros p [->|Hp]%Hold; [done|by apply Hk].
    + intros H1 H2. destruct (wk_flag _ Hk H1 H2); auto.
    + intros ms _ _ _. right. exists [th_wake]. split; [done|]. left.
  - destruct (wake_begin (w_loop w)) as [b l1] eqn:Eb. injection Ht as <- <-.
    assert (rest = []) as -> by (by destruct rest). rewrite app_nil_r in *.
    unfold wake_begin in Eb. destruct (io_wake_pending (w_loop w)) eqn:Ep; injection Eb as <- <-; simpl in *.
    + assert (signalled w -> signalled w') as Hsig.
      { intros [?|(p & Hp & Hx)]; [by left|right]. destruct (Hother p Hp) as [->|?]; [|by exists p].
        apply elem_of_cons in Hx as [?|Hx]; [done|by apply elem_of_nil in Hx]. }
      constructor; simpl; try apply Hk.
      * intros p [->|Hp]%Hold; [done|by apply Hk].
      * intros H1 H2. destruct (wk_flag _ Hk Ep H2); auto.
      * intros ms Hph Hms Hq. left.
        destruct (wk_flag _ Hk Ep (Hwait ms Hph)) as [?|Hrd]; [by apply Hsig|]. by rewrite Hph in Hrd.
    + assert (signalled w') as Hsig by (right; exists [th_nudge]; split; [done|left]).
      constructor; simpl; try apply Hk; auto. intros p [->|Hp]%Hold; [done|by apply Hk].
  - injection Ht as <- <-. assert (rest = []) as -> by (by destruct rest). simpl in *.
    destruct (nudge_shrinks (w_loop w)) as (_ & _ & Hq). unfold queues in Hq. injection Hq as _ _ _ Hsd.
    assert (port_open (io_port (nudge (w_loop w))) = port_open (io_port (w_loop w))) as Hpo.
    { unfold nudge. by destruct (port_open (io_port (w_loop w))) eqn:E; simpl; rewrite ?E. }
    assert (io_shutting_down (w_loop w) = false -> signalled w') as Hsig.
    { intros Hd. left. simpl. unfold nudge. rewrite (wk_port _ Hk Hd). simpl. lia. }
    constructor; simpl; rewrite ?Hsd, ?Hpo; try apply Hk; eauto.
    intros p [->|Hp]%Hold; [done|by apply Hk].
Qed.

(** A call of a coroutine. *)
Lemma wake_call w rq o coroutine now now' kernel r l' :
  io_inv w -> wake_inv w -> user_code (w_phase w) = true -> io_room (w_loop w) = true ->
  fresh_socket rq (w_loop w) = true -> io_call rq o coroutine now now' kernel (w_loop w) = (r, l') ->
  wake_inv (issue r rq o coroutine (set_w_clock now' (set_w_loop l' w))).
Proof.
  intros Hi Hk Hu Hr Hfs Hc.
  pose proof (io_call_spec rq o coroutine now now' kernel _ (ready_inv _ Hi Hr) Hfs) as Hsp.
  rewrite Hc in Hsp. destruct r as [r|id]; simpl in *.
  - pose proof (rf_queues _ _ Hsp) as Hq. unfold queues in Hq. injection Hq as Hq1 Hq2 Hq3 Hq4.
    eapply wake_keeps; try done; simpl; unfold work_queued;
      rewrite ?(rf_wake _ _ Hsp), ?(rf_port _ _ Hsp), ?Hq1, ?Hq2, ?Hq3, ?Hq4; auto.
  - destruct Hsp as [op S]. pose proof (sb_queues _ _ _ _ _ _ _ S) as Hq.
    unfold queues in Hq. injection Hq as Hq1 Hq2 Hq3 Hq4.
    destruct (sb_wakes _ _ _ _ _ _ _ S) as [Hws|(H1 & H2 & H3)].
    + unfold wake_state in Hws. injection Hws as Hw1 Hw2.
      eapply wake_keeps; try done; simpl; unfold work_queued;
        rewrite ?Hw1, ?Hw2, ?Hq1, ?Hq2, ?Hq3, ?Hq4, ?(sb_open_port _ _ _ _ _ _ _ S); auto.
    + specialize (H3 (wk_port _ Hk (sb_open _ _ _ _ _ _ _ S))).
      constructor; simpl; try apply Hk; try rewrite Hq4.
      * intros _ _. left. left. simpl. lia.
      * intros ms Hph. by rewrite Hph in Hu.
      * rewrite (sb_open_port _ _ _ _ _ _ _ S). apply Hk.
Qed.

(** A call from another thread begins. *)
Lemma wake_start w rest l' :
  wake_inv w -> prog_ok rest -> wake_state l' = wake_state (w_loop w) ->
  io_shutting_down l' = io_shutting_down (w_loop w) ->
  port_open (io_port l') = port_open (io_port (w_loop w)) ->
  (work_queued l' -> work_queued (w_loop w) \/ th_wake ∈ rest) -> wake_inv (start_thread rest l' w).
Proof.
  intros Hk Hok Hws Hsd Hpo Hq. unfold wake_state in Hws. injection Hws as Hw1 Hw2.
  assert (signalled w -> signalled (start_thread rest l' w)) as Hsig.
  { intros [?|(p & Hp & Hx)]; [left; simpl; lia|right]. exists p. split; [|done].
    simpl. apply elem_of_snoc. by left. }
  constructor; simpl; rewrite ?Hw1, ?Hsd, ?Hpo; try apply Hk.
  - intros p [Hp|Hp]%elem_of_snoc; [by apply Hk|by subst p].
  - intros H1 H2. destruct (wk_flag _ Hk H1 H2); auto.
  - intros ms Hph Hms Hq'. destruct (Hq Hq') as [Hq0|Hin].
    + destruct (wk_wait _ Hk ms Hph Hms Hq0) as [?|(p & Hp & Hx)]; [left; by apply Hsig|right].
      exists p. split; [|done]. simpl. apply elem_of_snoc. by left.
    + right. exists rest. split; [|done]. simpl. apply elem_of_snoc. by right.
Qed.

Lemma wait_ms_queued timeout now l : work_queued l -> wait_ms timeout now l = 0.
Proof.
  intros Hq. unfold wait_ms, resolve_timeout_ms.
  assert (negb (length (io_posted l) =? 0)%nat || negb (length (io_cancels l) =? 0)%nat || io_stop l = true)
    as ->; [|done].
  destruct Hq as [Hq|[Hq| ->]]; [| |by rewrite orb_true_r].
  - by destruct (io_posted l).
  - destruct (io_cancels l); [done|]. by rewrite orb_true_r.
Qed.

(** Closes the side conditions of [wake_keeps] where the move has no part in them. *)
Ltac wake_easy :=
  eapply wake_keeps; try eassumption; try done; simpl; auto;
  try match goal with H : w_phase _ = _ |- _ => rewrite ?H end; simpl; auto; try done.

Lemma resume_wake id outcome p w :
  wake_inv w -> id ∉ owed (io_port (w_loop w)) -> ~ is_reading (w_phase w) ->
  (forall ms, p <> waiting ms) -> wake_inv (resume id outcome (in_phase p w)).
Proof.
  intros Hk Ho Hnr Hp. destruct (resume_frame id outcome (in_phase p w) Ho)
    as (_ & Hq & Hws & _ & _ & Ht & Hph & _).
  unfold queues in Hq. injection Hq as Hq1 Hq2 Hq3 Hq4. unfold wake_state in Hws. injection Hws as Hw1 Hw2.
  assert (port_open (io_port (w_loop (resume id outcome (in_phase p w)))) = port_open (io_port (w_loop w))) as Hpo.
  { unfold resume. destruct (finalize_op id outcome (w_loop (in_phase p w))) as [r l'] eqn:Ef.
    destruct (finalize_op_shrinks _ _ _ _ _ Ho Ef) as (_ & _ & _ & _ & Hpo & _).
    by destruct r as [[? ?]|]. }
  eapply wake_keeps; try eassumption; rewrite ?Hph, ?Hw1, ?Hw2, ?Hq4, ?Hpo; simpl; auto; try done.
  - intros ms E. by destruct (Hp ms).
  - unfold work_queued. rewrite Hq1, Hq2, Hq3. done.
Qed.

Lemma advance_wake now w w' : io_inv w -> wake_inv w -> advance now w = Some w' -> wake_inv w'.
Proof.
  intros Hi Hk. pose proof (iv_phase _ Hi) as Hpo. unfold advance.
  destruct (w_phase w) as [|ms|ps res|ts cs work res|cs work res|todo| |[os tc n]|o n|todo|] eqn:Hph; try done.
  - destruct ps as [|pk ps].
    + destruct (_ <=? _); [|done]. destruct (drain_queues _ _) as [[[exp cs] work] l'] eqn:Ed.
      intros [= <-]. destruct (drain_queues_shrinks _ _ _ _ _ _ (iv_wf _ Hi) Ed)
        as (_ & _ & Hsd & _ & _ & Hc & Hp & Hwp & Hport & Hst & _).
      eapply wake_keeps; try eassumption; try done; simpl; rewrite ?Hwp, ?Hport, ?Hsd; auto; [done|].
      unfold work_queued. rewrite Hc, Hp, Hst. naive_solver.
    + intros [= <-]. destruct (read_packet pk (w_loop w)) as [[r e]|]; [|wake_easy].
      destruct e as [|n a|s]; simpl; [wake_easy|destruct (packet_id pk); wake_easy|wake_easy].
  - destruct ts as [|t ts]; [intros [= <-]; wake_easy|].
    destruct (expire_target t _) as [r l'] eqn:Ee. intros [= <-].
    simpl in Hpo. destruct Hpo as [[Ht _]%Forall_cons _].
    destruct (expire_target_spec _ _ _ _ (iv_ids _ Hi) Ht Ee) as (_ & _ & Hq & _).
    unfold queues in Hq. injection Hq as Hq1 Hq2 Hq3 Hq4.
    assert (wake_state l' = wake_state (w_loop w) /\ port_open (io_port l') = port_open (io_port (w_loop w)))
      as [Hws Hpt].
    { unfold expire_target in Ee. destruct (negb _); [by injection Ee as _ <-|].
      destruct (fix_reason _ _ _) as [f l1] eqn:Ef.
      destruct (fix_reason_spec _ _ _ _ _ (iv_ids _ Hi) Ef) as (_ & _ & _ & Hw & Hp & _).
      destruct f as [f|]; injection Ee as _ <-; [|by rewrite Hp].
      destruct (cancel_io_shrinks f l1) as (_ & _ & _ & Hw'). rewrite Hw', <- Hp. split; [done|].
      unfold cancel_io. by destruct (fixed_target f) as [[? ?]|]. }
    unfold wake_state in Hws. injection Hws as Hw1 Hw2.
    eapply wake_keeps; try eassumption; try done; simpl; unfold work_queued;
      rewrite ?Hph, ?Hw1, ?Hw2, ?Hq1, ?Hq2, ?Hq3, ?Hq4, ?Hpt; auto.
  - destruct cs; intros [= <-]; wake_easy.
  - destruct todo as [|[id outcome|x] todo]; intros [= <-]; [wake_easy| |wake_easy].
    simpl in Hpo. apply Forall_cons in Hpo as [[_ Ho] _]. apply resume_wake; rewrite ?Hph; auto.
  - destruct (shutdown_collect _) as [o l'] eqn:Ec. intros [= <-].
    destruct (collect_frame _ _ _ Ec) as (_ & _ & _ & _ & Hsd & _).
    assert (io_shutting_down (w_loop w) = true) as Hd by (by rewrite (iv_shut _ Hi), Hph).
    constructor; simpl; rewrite ?Hsd, ?Hd; try done. apply Hk.
  - destruct tc as [|[s id] tc]; intros [= <-]; wake_easy.
  - destruct n; [|done]. intros [= <-]. wake_easy.
  - assert (io_shutting_down (w_loop w) = true) as Hd by (by rewrite (iv_shut _ Hi), Hph).
    destruct todo as [|[id r] todo]; intros [= <-].
    + constructor; simpl; rewrite ?Hd; try done. apply Hk.
    + apply resume_wake; rewrite ?Hph; auto. destruct Hpo as [-> _]. set_solver.
Qed.

Lemma exec_wake c w w' : io_inv w -> wake_inv w -> exec c w = Some w' -> wake_inv w'.
Proof.
  intros Hi Hk. unfold exec.
  destruct c as [rq o coroutine now now' kernel|h|s|id|x| |i|timeout now|ps| |now| |pk].
  - destruct (_ && _ && _ && _ && _) eqn:Eg; [|done]. rewrite !andb_true_iff in Eg.
    destruct Eg as [[[[Hu Hr] _] _] Hfs].
    destruct (io_call _ _ _ _ _ _ _) as [r l'] eqn:Ec. intros [= <-]. by eapply wake_call.
  - destruct (user_code _); [|done]. intros [= <-]. wake_easy.
  - destruct (_ && _); [|done]. intros [= <-]. wake_easy.
  - destruct (id <=? _); [|done]. destruct (request_cancel _ _) as [rest l'] eqn:Ec. intros [= <-].
    unfold request_cancel in Ec. destruct (fix_reason id _ _) as [r l1] eqn:Ef.
    destruct (fix_reason_spec _ _ _ _ _ (iv_ids _ Hi) Ef) as (_ & _ & Hq & Hws & Hp & _).
    unfold queues in Hq. injection Hq as Hq1 Hq2 Hq3 Hq4.
    assert (wake_inv (start_thread rest l' w)) as []; [|by constructor].
    destruct r as [f|]; injection Ec as <- <-; apply wake_start; try done; try by rewrite Hp.
    + by destruct (resolve_now f).
    + unfold work_queued. rewrite Hq1, Hq2, Hq3. by left.
    + unfold work_queued. rewrite Hq1, Hq2, Hq3. by left.
  - unfold post_work. destruct (io_shutting_down (w_loop w)) eqn:E; intros [= <-]; apply wake_start; try done.
    + by left.
    + intros _. right. left.
  - intros [= <-]. apply wake_start; try done. intros _. right. left.
  - destruct (w_threads w !! i) as [[|t rest]|] eqn:Et; try done.
    destruct (thread_step t (w_loop w)) as [more l'] eqn:Es. intros [= <-]. by eapply wake_thread.
  - destruct (w_phase w) eqn:Hph; try done; [|by intros [= <-]].
    destruct (_ && _); [|done]. intros [= <-]. wake_easy. intros ms [= <-]. right. intros Hms Hq.
    apply Hms. by apply wait_ms_queued.
  - destruct (w_phase w) eqn:Hph; try done. destruct (_ && _); [|done]. intros [= <-].
    constructor; simpl; try apply Hk; try done. intros _ _. by right.
  - destruct (w_phase w) eqn:Hph; try done. intros [= <-]. wake_easy.
  - by apply advance_wake.
  - destruct (io_shutting_down _) eqn:Hsd; [by intros [= <-]|].
    destruct (w_phase w) eqn:Hph; try done. intros [= <-]. constructor; simpl; try done. apply Hk.
  - destruct (w_phase w) as [| | | | | | | |o n| |] eqn:Hph; try done. destruct n as [|n]; [done|].
    destruct (packets_ok _ _); [|done]. intros [= <-].
    assert (io_shutting_down (w_loop w) = true) as Hd by (by rewrite (iv_shut _ Hi), Hph).
    constructor; simpl; rewrite ?Hd; try done. apply Hk.
Qed.

Lemma new_world_wake : wake_inv new_world.
Proof. constructor; simpl; try done. intros *. set_solver. Qed.

Lemma reachable_wake w : reachable w -> run_inv w /\ wake_inv w.
Proof.
  unfold reachable. generalize new_world_run_inv, new_world_wake. generalize new_world.
  intros w0 H0 H1 Hr. induction Hr as [|w1 w2 w3 [c Hc] _ IH]; [done|].
  apply IH; [by eapply exec_run_inv|]. eapply exec_wake; [apply H0|done|exact Hc].
Qed.

(** C9: no wake-up of a Windows loop is lost.  Wake-ups are collapsed, and the flag
    that collapses them is lowered on another thread than raises it; still, in
    every run in which the loop blocks (for ever, or longer than not at all) while
    work is posted, a cancellation waits or a stop was asked for, a wake-up packet
    is in the port or some thread is still about to raise the flag or post one; and
    once no other thread is at work the packet is there and the wait returns. *)
Theorem iocp_no_lost_wakeup (w : World) (Hw : reachable w) (ms : Z)
    (Hwait : w_phase w = waiting ms) (Hms : ms <> 0) (Hq : work_queued (w_loop w)) :
  (signalled w \/ wake_due w) /\
  ((forall prog, prog ∈ w_threads w -> prog = []) -> exists w', exec (c_dequeue [wake_packet]) w = Some w').
Proof.
  destruct (reachable_wake w Hw) as [_ Hk].
  pose proof (wk_wait _ Hk ms Hwait Hms Hq) as Hs. split; [done|].
  intros Hidle. assert (0 < nudges (io_port (w_loop w)))%nat as Hn.
  { destruct Hs as [[?|(p & Hp & Hx)]|(p & Hp & Hx)]; [done|..];
      rewrite (Hidle _ Hp) in Hx; by apply elem_of_nil in Hx. }
  simpl. rewrite Hwait. unfold packets_ok. simpl. unfold packet_ok, genuine. simpl.
  destruct (nudges (io_port (w_loop w))); [lia|]. simpl. rewrite orb_true_r. by eexists.
Qed.

(** The loop blocks; then work is posted from another thread, which raises the flag
    and posts the packet. *)
Lemma iocp_no_lost_wakeup_witness :
  exists w, script [c_run_once None 0; c_post 7; c_thread 0; c_thread 0] new_world = Some w /\
    w_phase w = waiting (-1) /\ (signalled w \/ wake_due w) /\
    exists w', exec (c_dequeue [wake_packet]) w = Some w'.
Proof.
  destruct (script [c_run_once None 0; c_post 7; c_thread 0; c_thread 0] new_world) as [w|] eqn:E;
    [|vm_compute in E; discriminate].
  assert (w_phase w = waiting (-1) /\ io_posted (w_loop w) = [7] /\ w_threads w = [[]]) as (Hph & Hp & Ht).
  { vm_compute in E. injection E as <-. split_and!; reflexivity. }
  assert (work_queued (w_loop w)) as Hq by (left; rewrite Hp; discriminate).
  destruct (iocp_no_lost_wakeup w (io_script_steps _ _ _ E) (-1) Hph ltac:(lia) Hq) as [Hs Hd].
  exists w. split; [reflexivity|]. split; [exact Hph|]. split; [exact Hs|]. apply Hd.
  intros prog. rewrite Ht. apply list_elem_of_singleton.
Defined.
