(* ===== verification/Streams.v ===== *)
(** * Streams: the seam between transport and protocol (core/stream.hpp)

    [BoundedStream] is the concept a protocol is written against, [StreamLaws]
    what core/stream.hpp promises of an implementation: short transfers, and a
    count of the bytes accepted.  [write_all] and [writev_all] are the loops
    composed on top of it. *)

From S2P Require Import Prelude Errors.

Local Open Scope Z_scope.
Local Open Scope mira_scope.

(** [OperationOptions] as handed down to a stream: the token by name and the
    absolute deadline. *)
Record IoOptions := mk_io { io_stop : Z; io_deadline : option Z }.

Definition no_io : IoOptions := mk_io 0 None.

(** [BoundedStream], and [BoundedVectorWriteStream] when [writev_some] is there.
    [T] is the stream with everything behind it, [clock] the time it shows. *)
Class BoundedStream (T : Type) := {
  read_some : nat -> IoOptions -> T -> Result bytes * T;
  write_some : bytes -> IoOptions -> T -> Result nat * T;
  writev_some : option (list bytes -> IoOptions -> T -> Result nat * T);
  clock : T -> Z;
}.

(** The bytes a stream has accepted so far grow by the prefix it reports; a
    failing write may have taken some. *)
Definition write_accepts {T} (wire : T -> bytes) (write : bytes -> T -> Result nat * T) : Prop :=
  forall data s, match write data s with
                 | (Ok n, s') => (n <= length data)%nat /\ wire s' = wire s ++ take n data
                 | (Fail _, s') => exists n, (n <= length data)%nat /\ wire s' = wire s ++ take n data
                 end.

Definition writev_accepts {T} (wire : T -> bytes) (writev : list bytes -> T -> Result nat * T) : Prop :=
  forall pieces s,
    match writev pieces s with
    | (Ok n, s') => (n <= length (List.concat pieces))%nat /\
                    wire s' = wire s ++ take n (List.concat pieces)
    | (Fail _, s') => exists n, (n <= length (List.concat pieces))%nat /\
                                wire s' = wire s ++ take n (List.concat pieces)
    end.

Class StreamLaws (T : Type) `{BoundedStream T} := {
  wire : T -> bytes;
  read_bounded : forall n o s d s', read_some n o s = (Ok d, s') -> (length d <= n)%nat;
  read_wire : forall n o s, wire (read_some n o s).2 = wire s;
  write_law : forall o, write_accepts wire (fun d => write_some d o);
  writev_law : forall wv o, writev_some = Some wv -> writev_accepts wire (fun p => wv p o);
}.

(** ** The loops *)

(** A local of a coroutine: part of the state while the body runs. *)
Definition with_local {T L A} (init : L) (m : M (T * L) A) : M T A :=
  fun s => match m (s, init) with
           | Returns a (s', _) => Returns a s'
           | Fails e (s', _) => Fails e s'
           | OutOfFuel => OutOfFuel
           end.

(** [co_await write(...)] of a method that may fail. *)
Definition await {T L A} (op : T -> Result A * T) : M (T * L) A :=
  fun s => match op s.1 with
           | (Ok a, t) => Returns a (t, s.2)
           | (Fail e, t) => Fails e (t, s.2)
           end.

Section Loops.
Context {T : Type}.

(** The body of [write_all]'s loop; the local is [written]. *)
Definition write_all_round (write : bytes -> T -> Result nat * T) (source : bytes)
    : M (T * nat) (option unit) :=
  let! s := out_get in
  let written := s.2 in
  if (written <? length source)%nat then
    let! n := await (write (drop written source)) in
    require (negb (n =? 0)%nat) (make_error_code Errc.eof) ;;;
    out_modify (fun s => (s.1, (s.2 + n)%nat)) ;;;
    out_ret None
  else out_ret (Some tt).

(** Each round writes a byte. *)
Definition write_all_with (write : bytes -> T -> Result nat * T) (source : bytes) : M T unit :=
  with_local 0%nat (iter (S (length source)) (write_all_round write source)).

(** The inner loop of [writev_all]: advance the (piece, offset) cursor by
    [remaining] bytes; [rest] are the pieces from [piece] on. *)
Fixpoint advance_cursor (rest : list bytes) (remaining piece offset : nat) : nat * nat :=
  match rest with
  | [] => (piece, offset)
  | p :: rest =>
      if (0 <? remaining)%nat then
        let available := (length p - offset)%nat in
        if (remaining <? available)%nat then (piece, (offset + remaining)%nat)
        else advance_cursor rest (remaining - available) (S piece) 0
      else (piece, offset)
  end.

(** The body of [writev_all]'s loop. *)
Definition writev_all_round (writev : list bytes -> T -> Result nat * T) (pieces : list bytes)
    : M (T * (nat * nat)) (option unit) :=
  let! s := out_get in
  let '(piece, offset) := s.2 in
  match drop piece pieces with
  | [] => out_ret (Some tt)
  | current :: rest =>
      let! n := await (writev (drop offset current :: rest)) in
      require (negb (n =? 0)%nat) (make_error_code Errc.eof) ;;;
      out_modify (fun s => (s.1, advance_cursor (current :: rest) n piece offset)) ;;;
      out_ret None
  end.

Definition writev_all_with (writev : list bytes -> T -> Result nat * T) (pieces : list bytes)
    : M T unit :=
  if (foldl (fun n p => n + length p) 0 pieces =? 0)%nat then out_ret tt
  else with_local (0%nat, 0%nat) (iter (S (length (List.concat pieces))) (writev_all_round writev pieces)).
End Loops.

Section StreamOps.
Context {T : Type} `{BoundedStream T}.

(** [write_all(stream, source)] *)
Definition write_all_plain (source : bytes) : M T unit :=
  write_all_with (fun d => write_some d no_io) source.

(** [write_all(stream, source, options)] *)
Definition write_all (source : bytes) (options : IoOptions) : M T unit :=
  write_all_with (fun d => write_some d options) source.

(** [writev_all(stream, pieces)] *)
Definition writev_all_plain (wv : list bytes -> IoOptions -> T -> Result nat * T)
    (pieces : list bytes) : M T unit :=
  writev_all_with (fun p => wv p no_io) pieces.

(** [writev_all(stream, pieces, options)] *)
Definition writev_all (wv : list bytes -> IoOptions -> T -> Result nat * T)
    (pieces : list bytes) (options : IoOptions) : M T unit :=
  writev_all_with (fun p => wv p options) pieces.
End StreamOps.

(** ** What the loops write *)

Lemma sub_take_drop {A} (l : list A) n m : take n (drop m l) = drop m (take (m + n) l).
Proof. by rewrite skipn_firstn_comm, Nat.add_sub'. Qed.

(** ** Progress *)

Lemma write_all_succeeds {T} (write : bytes -> T -> Result nat * T) source s :
  (forall d s, d <> [] -> exists n s', write d s = (Ok n, s') /\ (0 < n)%nat) ->
  match write_all_with write source s with Fails _ _ => False | _ => True end.
Proof.
  intros He. unfold write_all_with, with_local.
  assert (forall fuel s written,
    match iter fuel (write_all_round write source) (s, written) with Fails _ _ => False | _ => True end)
    as Hiter; [|specialize (Hiter (S (length source)) s 0%nat);
                by destruct (iter _ _ _) as [? []|? []|]].
  intros fuel. induction fuel as [|fuel IH]; intros s1 written; [done|].
  simpl. unfold write_all_round at 1, out_bind, out_get, await. simpl.
  destruct (written <? length source)%nat eqn:E; bool_facts; simpl; [|done].
  destruct (He (drop written source) s1) as (n & s' & -> & Hn).
  { intros Hd. apply (f_equal length) in Hd. rewrite length_drop in Hd. simpl in Hd. lia. }
  simpl. unfold require. destruct (n =? 0)%nat eqn:En; bool_facts; [lia|]. apply IH.
Qed.

Section Writing.
Context {T : Type} (wire : T -> bytes).

(** All of [source] is on the wire when the loop returns, and a prefix of it when
    it fails; the loop ends. *)
Definition writes (m : M T unit) (source : bytes) (s : T) : Prop :=
  wp m s (fun _ s' => wire s' = wire s ++ source)
    (fun e s' => exists n, (n <= length source)%nat /\ wire s' = wire s ++ take n source).

Lemma write_all_iter write source fuel s written s0 :
  write_accepts wire write ->
  wire s = wire s0 ++ take written source -> (written <= length source)%nat ->
  (length source - written < fuel)%nat ->
  wp (iter fuel (write_all_round write source)) (s, written)
    (fun _ s' => wire s'.1 = wire s0 ++ source)
    (fun e s' => exists n, (n <= length source)%nat /\ wire s'.1 = wire s0 ++ take n source).
Proof.
  intros Hw. revert s written. induction fuel as [|fuel IH]; intros s written Hs Hle Hf; [lia|].
  unfold wp. simpl. unfold write_all_round at 1, out_bind, out_get, await. simpl.
  destruct (written <? length source)%nat eqn:E; bool_facts.
  2:{ simpl. by rewrite Hs, take_ge by lia. }
  simpl. pose proof (Hw (drop written source) s) as Hacc.
  destruct (write (drop written source) s) as [[n|e] s']; simpl in *.
  - destruct Hacc as [Hn Hwire]. rewrite length_drop in Hn.
    assert (wire s' = wire s0 ++ take (written + n) source) as Hs'.
    { rewrite Hwire, Hs, <- app_assoc, take_take_drop. done. }
    unfold require. destruct (n =? 0)%nat eqn:En; bool_facts; simpl.
    + exists (written + n)%nat. split; [lia|done].
    + apply IH; [done|lia|lia].
  - destruct Hacc as (n & Hn & Hwire). rewrite length_drop in Hn. exists (written + n)%nat.
    split; [lia|]. by rewrite Hwire, Hs, <- app_assoc, take_take_drop.
Qed.

Lemma with_local_writes {L} (m : M (T * L) unit) (init : L) source s :
  wp m (s, init) (fun _ s' => wire s'.1 = wire s ++ source)
    (fun e s' => exists n, (n <= length source)%nat /\ wire s'.1 = wire s ++ take n source) ->
  writes (with_local init m) source s.
Proof. unfold writes, wp, with_local. by destruct (m (s, init)) as [a [s' l']|e [s' l']|]. Qed.

Lemma write_all_writes write source s :
  write_accepts wire write -> writes (write_all_with write source) source s.
Proof.
  intros Hw. apply with_local_writes, write_all_iter; [done| |lia|lia].
  by rewrite take_0, app_nil_r.
Qed.

(** ** Scattered writes *)

(** The cursor stays inside its piece. *)
Definition cursor_in (rest : list bytes) (offset : nat) : Prop :=
  match rest with [] => offset = 0%nat | p :: _ => (offset < length p \/ offset = 0)%nat end.

(** The last piece has bytes. *)
Definition ends_full (pieces : list bytes) : bool :=
  match last pieces with Some (_ :: _) => true | _ => false end.

(** Advancing moves by exactly the bytes written. *)
Lemma advance_cursor_spec (rest : list bytes) n piece offset :
  cursor_in rest offset -> (n + offset <= length (List.concat rest))%nat ->
  exists k offset', advance_cursor rest n piece offset = ((piece + k)%nat, offset') /\
    (length (List.concat (take k rest)) + offset' = offset + n)%nat /\ cursor_in (drop k rest) offset' /\
    (n = 0%nat -> k = 0%nat) /\ (drop k rest = [] -> (0 < n)%nat -> ends_full rest = true).
Proof.
  revert n piece offset. induction rest as [|p rest IH]; intros n piece offset Hin Hn; simpl in *.
  { exists 0%nat, offset. rewrite Nat.add_0_r. simpl. split_and!; [done|lia|done|done|lia]. }
  rewrite length_app in Hn. destruct (0 <? n)%nat eqn:E0; bool_facts.
  2:{ exists 0%nat, offset. rewrite Nat.add_0_r. simpl. split_and!; [done|lia|done|done|done]. }
  destruct (n <? length p - offset)%nat eqn:E1; bool_facts.
  { exists 0%nat, (offset + n)%nat. rewrite Nat.add_0_r. simpl. split_and!; [done|lia|lia|done|done]. }
  destruct (IH (n - (length p - offset))%nat (S piece) 0%nat) as (k & o' & -> & Hk & Hc & Hz & Hend).
  { by destruct rest; simpl; [|lia]. }
  { lia. }
  exists (S k), o'. split_and!; [f_equal; lia| |done|lia|].
  { simpl. rewrite length_app. lia. }
  simpl. intros Hd Hpos. destruct rest as [|q rest].
  - unfold ends_full. simpl. destruct p; simpl in *; [lia|done].
  - assert (k <> 0%nat) by (by intros ->). apply Hend; [done|].
    destruct (decide (n = length p - offset)%nat) as [En|]; [|lia]. destruct (Hz ltac:(lia)). done.
Qed.

Lemma concat_take_drop (pieces : list bytes) k :
  List.concat pieces = List.concat (take k pieces) ++ List.concat (drop k pieces).
Proof. by rewrite <- concat_app, take_drop. Qed.

(** What the tail offers is what is not yet written. *)
Lemma tail_concat (pieces : list bytes) piece offset current rest :
  drop piece pieces = current :: rest -> cursor_in (current :: rest) offset ->
  List.concat (drop offset current :: rest) =
  drop (length (List.concat (take piece pieces)) + offset) (List.concat pieces).
Proof.
  intros Hd Ho. rewrite (concat_take_drop pieces piece), Hd. simpl in *.
  by rewrite drop_app_add', drop_app_le by lia.
Qed.

Lemma writev_all_iter writev (pieces : list bytes) fuel s piece offset s0 :
  writev_accepts wire writev ->
  let pos := (length (List.concat (take piece pieces)) + offset)%nat in
  wire s = wire s0 ++ take pos (List.concat pieces) ->
  cursor_in (drop piece pieces) offset ->
  (length (List.concat pieces) - pos < fuel)%nat ->
  wp (iter fuel (writev_all_round writev pieces)) (s, (piece, offset))
    (fun _ s' => wire s'.1 = wire s0 ++ List.concat pieces)
    (fun e s' => exists n, (n <= length (List.concat pieces))%nat /\
                           wire s'.1 = wire s0 ++ take n (List.concat pieces)).
Proof.
  intros Hw. revert s piece offset. induction fuel as [|fuel IH]; intros s piece offset pos Hs Hc Hf; [lia|].
  unfold wp. simpl. unfold writev_all_round at 1, out_bind, out_get, await. simpl.
  destruct (drop piece pieces) as [|current rest] eqn:Hd.
  { simpl. rewrite Hs. f_equal. apply take_ge. unfold pos.
    rewrite (concat_take_drop pieces piece), Hd. simpl. rewrite app_nil_r. lia. }
  simpl. pose proof (tail_concat pieces piece offset current rest Hd Hc) as Htail.
  fold pos in Htail. pose proof (Hw (drop offset current :: rest) s) as Hacc.
  assert (length (List.concat (drop offset current :: rest)) + pos = length (List.concat pieces))%nat as Hlen.
  { simpl. rewrite length_app, length_drop. unfold pos.
    rewrite (concat_take_drop pieces piece), Hd. simpl in *. rewrite !length_app. lia. }
  rewrite Htail in Hacc. rewrite Htail in Hlen.
  destruct (writev (drop offset current :: rest) s) as [[n|e] s']; simpl in *.
  - destruct Hacc as [Hn Hwire].
    assert (wire s' = wire s0 ++ take (pos + n) (List.concat pieces)) as Hs'.
    { by rewrite Hwire, Hs, <- app_assoc, take_take_drop. }
    unfold require. destruct (n =? 0)%nat eqn:En; bool_facts; cbn [negb].
    { exists (pos + n)%nat. split; [lia|done]. }
    destruct (advance_cursor_spec (current :: rest) n piece offset) as (k & o' & Hadv & Hk & Hc' & _);
      [done|..].
    { rewrite <- Htail in *. simpl in *. rewrite length_app in *. rewrite length_drop in *. lia. }
    simpl in Hadv. rewrite Hadv. unfold out_ret. simpl.
    assert (length (List.concat (take (piece + k) pieces)) + o' = pos + n)%nat as Hpos.
    { rewrite <- (take_take_drop pieces piece k), concat_app, length_app, Hd. unfold pos. lia. }
    apply IH; [by rewrite Hpos|by rewrite <- drop_drop, Hd|rewrite Hpos; lia].
  - destruct Hacc as (n & Hn & Hwire). exists (pos + n)%nat. split; [lia|].
    by rewrite Hwire, Hs, <- app_assoc, take_take_drop.
Qed.

Lemma ends_full_drop (pieces : list bytes) k :
  drop k pieces <> [] -> ends_full (drop k pieces) = ends_full pieces.
Proof.
  intros Hne. unfold ends_full. rewrite <- (take_drop k pieces) at 2. rewrite last_app.
  destruct (last (drop k pieces)) eqn:E; [done|]. by apply last_None in E.
Qed.

Lemma ends_full_empty (pieces : list bytes) : List.concat pieces = [] -> ends_full pieces = false.
Proof.
  intros Hc. unfold ends_full. destruct (last pieces) as [[|b p]|] eqn:E; [done| |done].
  apply last_Some in E as [l ->]. rewrite concat_app in Hc. simpl in Hc.
  by apply app_eq_nil in Hc as [_ ?].
Qed.

(** A vector stream that takes something of every non-empty offer, and reports 0
    for an offer without bytes. *)
Definition writev_eager (writev : list bytes -> T -> Result nat * T) : Prop :=
  forall pieces s, exists n s', writev pieces s = (Ok n, s') /\
    (List.concat pieces <> [] -> (0 < n)%nat).

Lemma writev_eager_iter writev (pieces : list bytes) fuel s piece offset s0 :
  writev_accepts wire writev -> writev_eager writev ->
  let pos := (length (List.concat (take piece pieces)) + offset)%nat in
  wire s = wire s0 ++ take pos (List.concat pieces) ->
  cursor_in (drop piece pieces) offset -> (length (List.concat pieces) - pos < fuel)%nat ->
  (drop piece pieces = [] -> ends_full pieces = true) ->
  match iter fuel (writev_all_round writev pieces) (s, (piece, offset)) with
  | Returns _ _ => ends_full pieces = true
  | Fails e s' => ends_full pieces = false /\ e = make_error_code Errc.eof /\
                  wire s'.1 = wire s0 ++ List.concat pieces
  | OutOfFuel => False
  end.
Proof.
  intros Hw He. revert s piece offset.
  induction fuel as [|fuel IH]; intros s piece offset pos Hs Hc Hf Hend; [lia|].
  simpl. unfold writev_all_round at 1, out_bind, out_get, await. simpl.
  destruct (drop piece pieces) as [|current rest] eqn:Hd; [by apply Hend|].
  simpl. pose proof (tail_concat pieces piece offset current rest Hd Hc) as Htail. fold pos in Htail.
  destruct (He (drop offset current :: rest) s) as (n & s' & Hn & Hpos).
  pose proof (Hw (drop offset current :: rest) s) as Hacc. rewrite Hn in Hacc |- *. simpl in Hacc |- *.
  destruct Hacc as [Hle Hwire]. change (drop offset current ++ List.concat rest)
    with (List.concat (drop offset current :: rest)) in *.
  assert (ends_full (current :: rest) = ends_full pieces) as Hfull.
  { rewrite <- Hd. apply ends_full_drop. by rewrite Hd. }
  unfold require. destruct (n =? 0)%nat eqn:En; bool_facts; cbn [negb].
  - destruct (decide (List.concat (drop offset current :: rest) = [])) as [E|E];
      [|specialize (Hpos E); lia].
    assert (length (List.concat pieces) <= pos)%nat as Hp.
    { rewrite Htail in E. apply (f_equal length) in E. rewrite length_drop in E. simpl in E. lia. }
    split_and!; [|done|].
    + rewrite <- Hfull. apply ends_full_empty. simpl in E, Hc. apply app_eq_nil in E as [E1 E2].
      simpl. rewrite E2, app_nil_r. apply (f_equal length) in E1. rewrite length_drop in E1.
      simpl in E1. apply nil_length_inv. lia.
    + simpl. by rewrite Hwire, E, take_nil, app_nil_r, Hs, take_ge.
  - rewrite Htail in *. rewrite length_drop in Hle.
    assert (pos <= length (List.concat pieces))%nat as Hp.
    { unfold pos. rewrite (concat_take_drop pieces piece), Hd. simpl in *. rewrite !length_app. lia. }
    destruct (advance_cursor_spec (current :: rest) n piece offset)
      as (k & o' & Hadv & Hk & Hc' & _ & Hfin); [done|..].
    { assert (length (List.concat pieces) = length (List.concat (take piece pieces)) +
        length (List.concat (current :: rest)))%nat by
        (by rewrite (concat_take_drop pieces piece), length_app, Hd). unfold pos in Hle. lia. }
    simpl in Hadv. rewrite Hadv. unfold out_ret. simpl.
    assert (length (List.concat (take (piece + k) pieces)) + o' = pos + n)%nat as Hpos'.
    { rewrite <- (take_take_drop pieces piece k), concat_app, length_app, Hd. unfold pos. lia. }
    apply IH; rewrite <- ?drop_drop, ?Hd, ?Hpos'; [|done|lia|].
    { by rewrite Hwire, Hs, <- app_assoc, take_take_drop. }
    intros E. rewrite <- Hfull. apply Hfin; [done|lia].
Qed.

Lemma total_concat (pieces : list bytes) m :
  foldl (fun n p => (n + length p)%nat) m pieces = (m + length (List.concat pieces))%nat.
Proof.
  revert m; induction pieces as [|p pieces IH]; intros m; simpl; [lia|].
  rewrite IH, length_app. lia.
Qed.

Lemma writev_all_writes writev pieces s :
  writev_accepts wire writev -> writes (writev_all_with writev pieces) (List.concat pieces) s.
Proof.
  intros Hw. unfold writev_all_with. rewrite total_concat, Nat.add_0_l.
  destruct (length (List.concat pieces) =? 0)%nat eqn:E; bool_facts.
  - apply nil_length_inv in E. rewrite E. unfold writes, wp, out_ret. by rewrite app_nil_r.
  - apply with_local_writes, (writev_all_iter writev pieces _ s 0 0 s); simpl;
      [done|by rewrite take_0, app_nil_r|by destruct pieces; simpl; lia|lia].
Qed.

Lemma writev_all_eager writev (pieces : list bytes) s :
  writev_accepts wire writev -> writev_eager writev ->
  match writev_all_with writev pieces s with
  | Returns _ _ => bool_decide (List.concat pieces = []) || ends_full pieces = true
  | Fails e s' => bool_decide (List.concat pieces = []) || ends_full pieces = false /\
                  e = make_error_code Errc.eof /\ wire s' = wire s ++ List.concat pieces
  | OutOfFuel => False
  end.
Proof.
  intros Hw He. unfold writev_all_with. rewrite total_concat, Nat.add_0_l.
  destruct (length (List.concat pieces) =? 0)%nat eqn:E; bool_facts.
  { apply nil_length_inv in E. simpl. by rewrite bool_decide_eq_true_2. }
  rewrite bool_decide_eq_false_2 by (by intros Ec; rewrite Ec in E). rewrite orb_false_l.
  pose proof (writev_eager_iter writev pieces (S (length (List.concat pieces))) s 0 0 s Hw He) as Hi.
  unfold with_local. destruct (iter _ _ _) as [? []|? []|]; simpl in Hi; apply Hi;
    try (by rewrite take_0, app_nil_r); try (by destruct pieces; simpl; lia); try lia.
  all: by intros Hp; destruct pieces; simpl in *.
Qed.
End Writing.

(** ** A stream in memory *)

(** The segments that will arrive, how much each write accepts while that is
    limited, the bytes written, and the time. *)
Record Pipe := mk_pipe { p_in : list bytes; p_quota : list nat; p_out : bytes; p_now : Z }.

Definition pipe_read (n : nat) (o : IoOptions) (p : Pipe) : Result bytes * Pipe :=
  match List.filter (fun seg => negb (length seg =? 0)%nat) (p_in p) with
  | [] => (fail Errc.eof, mk_pipe [] (p_quota p) (p_out p) (p_now p))
  | seg :: rest =>
      (Ok (take n seg), mk_pipe (drop n seg :: rest) (p_quota p) (p_out p) (p_now p))
  end.

Definition pipe_write (data : bytes) (o : IoOptions) (p : Pipe) : Result nat * Pipe :=
  let '(n, quota) := match p_quota p with
                     | [] => (length data, [])
                     | q :: rest => (Nat.min q (length data), rest)
                     end in
  (Ok n, mk_pipe (p_in p) quota (p_out p ++ take n data) (p_now p)).

#[export] Instance pipe_stream : BoundedStream Pipe := {
  read_some := pipe_read;
  write_some := pipe_write;
  writev_some := Some (fun pieces => pipe_write (List.concat pieces));
  clock := p_now;
}.

Lemma pipe_write_accepts o : write_accepts p_out (fun d => pipe_write d o).
Proof.
  intros data s. unfold pipe_write. destruct (p_quota s); simpl; split; [lia|done|lia|done].
Qed.

#[export] Instance pipe_laws : StreamLaws Pipe.
Proof.
  refine {| wire := p_out |}.
  - intros n o s d s'. simpl. unfold pipe_read. destruct (List.filter _ (p_in s)) as [|seg rest]; [done|].
    intros [= <- _]. rewrite length_take. lia.
  - intros n o s. simpl. unfold pipe_read. by destruct (List.filter _ (p_in s)).
  - apply pipe_write_accepts.
  - intros wv o [= <-] pieces s. apply (pipe_write_accepts o (List.concat pieces) s).
Defined.

(** ** A peer that sends a fixed string and closes *)

Class SourceLaws (T : Type) `{StreamLaws T} := {
  unread : T -> bytes;
  read_source : forall n o s, (0 < n)%nat ->
    match read_some n o s with
    | (Ok d, s') => d <> [] /\ unread s = d ++ unread s'
    | (Fail e, s') => e = make_error_code Errc.eof /\ unread s = [] /\ unread s' = []
    end;
}.

(** A stream that delivers a bounded number of bytes, however it times out or
    fails in between. *)
Class FiniteStream (T : Type) `{BoundedStream T} := {
  budget : T -> nat;
  read_budget : forall n o s,
    match read_some n o s with
    | (Ok d, s') => (budget s' + length d <= budget s)%nat
    | (Fail _, s') => (budget s' <= budget s)%nat
    end;
  write_budget : forall d o s, (budget (write_some d o s).2 <= budget s)%nat;
}.

Lemma concat_nonempty (segs : list bytes) :
  List.concat (List.filter (fun seg => negb (length seg =? 0)%nat) segs) = List.concat segs.
Proof.
  induction segs as [|seg segs IH]; simpl; [done|].
  destruct seg; simpl; [done|]. by rewrite IH.
Qed.

#[export] Instance pipe_source : SourceLaws Pipe.
Proof.
  refine {| unread := fun p => List.concat (p_in p) |}.
  intros n o s Hn. simpl. unfold pipe_read. rewrite <- (concat_nonempty (p_in s)).
  assert (Forall (fun seg => seg <> []) (List.filter (fun seg => negb (length seg =? 0)%nat) (p_in s))) as Hne.
  { apply Forall_forall. intros seg Hseg. apply list_elem_of_In, List.filter_In in Hseg as [_ Hseg].
    by destruct seg. }
  destruct (List.filter _ (p_in s)) as [|seg rest]; simpl; [done|].
  apply Forall_cons in Hne as [Hseg _]. split; [by destruct seg, n; try lia|].
  by rewrite app_assoc, take_drop.
Defined.

#[export] Instance pipe_finite : FiniteStream Pipe.
Proof.
  refine {| budget := fun p => length (List.concat (p_in p)) |}.
  - intros n o s. simpl. unfold pipe_read. rewrite <- (concat_nonempty (p_in s)).
    destruct (List.filter _ (p_in s)) as [|seg rest]; simpl; [lia|].
    rewrite !length_app, length_take, length_drop. lia.
  - intros d o s. simpl. unfold pipe_write. by destruct (p_quota s).
Defined.

(** ** The contract of the loops *)

(** [write_all] over any stream that keeps the contract ends, having
    put every byte of the source on the wire when it succeeds and a prefix of it
    when it fails, however the stream cuts the writes short; and it succeeds
    whenever the stream takes at least a byte of each non-empty offer. *)
Theorem write_all_exact {T : Type} {S : BoundedStream T} {L : StreamLaws T}
    (source : bytes) (o : IoOptions) (s : T) :
  writes wire (write_all source o) source s /\
  ((forall d s, d <> [] -> exists n s', write_some d o s = (Ok n, s') /\ (0 < n)%nat) ->
   exists s', write_all source o s = Returns tt s' /\ wire s' = wire s ++ source).
Proof.
  pose proof (write_all_writes wire (fun d => write_some d o) source s (write_law o)) as Hw.
  split; [exact Hw|]. intros Heager.
  pose proof (write_all_succeeds (fun d => write_some d o) source s Heager) as Hok.
  unfold writes, wp, write_all in *.
  destruct (write_all_with _ source s) as [[] s'|e s'|]; [by exists s'|done|done].
Qed.

Definition slow_pipe : Pipe := mk_pipe [] [2; 1; 100]%nat [] 0.

Lemma write_all_exact_witness :
  exists s', write_all (lit "hello") no_io slow_pipe = Returns tt s' /\
             p_out s' = p_out slow_pipe ++ lit "hello".
Proof.
  destruct (write_all_exact (S := pipe_stream) (L := pipe_laws) (lit "hello") no_io slow_pipe)
    as [Hw _].
  unfold writes, wp in Hw. destruct (write_all (lit "hello") no_io slow_pipe) as [[] s'|e s'|] eqn:E.
  - exists s'. split; [reflexivity|exact Hw].
  - vm_compute in E. discriminate.
  - vm_compute in E. discriminate.
Defined.

(** [writev_all] over any vector stream that keeps the contract ends,
    having written the concatenation of the pieces when it succeeds and a prefix
    of it when it fails.  Over a stream that takes part of every non-empty offer
    and answers 0 to an empty one, as [EventLoop::writev] does, it succeeds
    precisely when there is nothing to write or the last piece has bytes; a
    trailing empty piece makes it report [eof] although every byte was written. *)
Theorem writev_all_exact {T : Type} {S : BoundedStream T} {L : StreamLaws T}
    (wv : list bytes -> IoOptions -> T -> Result nat * T) (pieces : list bytes) (o : IoOptions) (s : T)
    (Hvec : writev_some = Some wv) :
  writes wire (writev_all wv pieces o) (List.concat pieces) s /\
  (writev_eager (fun p => wv p o) ->
   if bool_decide (List.concat pieces = []) || ends_full pieces
   then exists s', writev_all wv pieces o s = Returns tt s' /\ wire s' = wire s ++ List.concat pieces
   else exists s', writev_all wv pieces o s = Fails (make_error_code Errc.eof) s' /\
                   wire s' = wire s ++ List.concat pieces).
Proof.
  pose proof (writev_law wv o Hvec) as Hacc.
  pose proof (writev_all_writes wire (fun p => wv p o) pieces s Hacc) as Hw.
  split; [exact Hw|]. intros Heager. unfold writes, wp, writev_all in *.
  pose proof (writev_all_eager wire (fun p => wv p o) pieces s Hacc Heager) as Hres.
  destruct (writev_all_with _ pieces s) as [[] s'|e s'|]; [| |done].
  - rewrite Hres. by exists s'.
  - destruct Hres as (-> & -> & Hs'). by exists s'.
Qed.


(** A stream that takes at most three bytes at a time. *)
Record Sink := mk_sink { s_out : bytes }.

Definition sink_write (data : bytes) (o : IoOptions) (s : Sink) : Result nat * Sink :=
  (Ok (Nat.min 3 (length data)), mk_sink (s_out s ++ take (Nat.min 3 (length data)) data)).

#[export] Instance sink_stream : BoundedStream Sink := {
  read_some := fun _ _ s => (fail Errc.eof, s);
  write_some := sink_write;
  writev_some := Some (fun pieces => sink_write (List.concat pieces));
  clock := fun _ => 0;
}.

#[export] Instance sink_laws : StreamLaws Sink.
Proof.
  refine {| wire := s_out |}.
  - intros n o s d s'. simpl. discriminate.
  - reflexivity.
  - intros o data s. split; [apply Nat.le_min_r|reflexivity].
  - intros wv o [= <-] pieces s. split; [apply Nat.le_min_r|reflexivity].
Defined.

Lemma writev_all_exact_witness :
  ends_full [lit "head"; lit "body"; []] = false /\
  exists s', writev_all (fun p => sink_write (List.concat p)) [lit "head"; lit "body"; []] no_io (mk_sink [])
             = Fails (make_error_code Errc.eof) s' /\ s_out s' = lit "headbody".
Proof.
  split; [reflexivity|].
  refine (proj2 (writev_all_exact (S := sink_stream) (L := sink_laws)
    (fun p => sink_write (List.concat p)) [lit "head"; lit "body"; []] no_io (mk_sink []) eq_refl) _).
  intros pieces s. eexists _, _. split; [reflexivity|].
  destruct (List.concat pieces); [intros []; reflexivity|]. intros _. cbn [length]. lia.
Defined.
