(* ===== verification/Writer.v ===== *)
(** * Writer: one response per request ([ResponseWriter] of http/connection.hpp)

    The writer a handler is given, and the handlers themselves as the programs
    they can be: any sequence of calls of the writer, each depending on the
    results of those before.  The reference ([Said], [say_send] and the others) says
    what such calls mean without a stream and without flags. *)

From S2P Require Import Prelude Numerals Errors Message ResponseParser Serializer Streams.

Local Open Scope Z_scope.
Local Open Scope mira_scope.

(** [ResponseWriter]; the stream is kept beside it. *)
Record ResponseWriter := mk_writer {
  io_ : IoOptions;
  head_request_ : bool;
  keep_alive_ : bool;
  sent_head_ : bool;
  chunked_ : bool;
  finished_ : bool;
}.

(** The constructor. *)
Definition make_writer (head_request keep_alive : bool) (io : IoOptions) : ResponseWriter :=
  mk_writer io head_request keep_alive false false false.

Definition set_sent_head (w : ResponseWriter) : ResponseWriter :=
  mk_writer (io_ w) (head_request_ w) (keep_alive_ w) true (chunked_ w) (finished_ w).
Definition set_chunked (v : bool) (w : ResponseWriter) : ResponseWriter :=
  mk_writer (io_ w) (head_request_ w) (keep_alive_ w) (sent_head_ w) v (finished_ w).
Definition set_finished (w : ResponseWriter) : ResponseWriter :=
  mk_writer (io_ w) (head_request_ w) (keep_alive_ w) (sent_head_ w) (chunked_ w) true.

(** Run a serializer on a local buffer [out] and go on with what it holds. *)
Definition serialized {S A} (m : M bytes unit) (k : bytes -> M S A) : M S A :=
  fun s => match m [] with
           | Returns _ out => k out s
           | Fails e _ => Fails e s
           | OutOfFuel => OutOfFuel
           end.

Section Writer.
Context {T : Type} `{BoundedStream T}.

(** The stream and the writer on it. *)
Definition WS : Type := T * ResponseWriter.

Definition on_writer (f : ResponseWriter -> ResponseWriter) : M WS unit :=
  out_modify (fun s => (s.1, f s.2)).

(** [co_await] of a loop on the stream. *)
Definition on_stream {A} (m : M T A) : M WS A :=
  fun s => match m s.1 with
           | Returns a t => Returns a (t, s.2)
           | Fails e t => Fails e (t, s.2)
           | OutOfFuel => OutOfFuel
           end.

(** [send(response, body)] *)
Definition send (response : Response) (body : bytes) : M WS unit :=
  let! s := out_get in
  let w := s.2 in
  require (negb (sent_head_ w)) (serialize_error SerializeError.framing_conflict) ;;;
  let framing := if status_forbids_body (res_status response) then Framing.none
                 else Framing.content_length in
  serialized (write_response_head response framing (len body)) (fun out =>
    on_writer set_sent_head ;;;
    on_writer set_finished ;;;
    if head_request_ w || (length body =? 0)%nat || status_forbids_body (res_status response)
    then on_stream (write_all out (io_ w))
    else match writev_some with
         | Some wv => on_stream (writev_all wv [out; body] (io_ w))
         | None => on_stream (write_all (out ++ body) (io_ w))
         end).

(** [send_head_chunked(response)] *)
Definition send_head_chunked (response : Response) : M WS unit :=
  let! s := out_get in
  let w := s.2 in
  require (negb (sent_head_ w)) (serialize_error SerializeError.framing_conflict) ;;;
  serialized (write_response_head response Framing.chunked 0) (fun out =>
    on_writer set_sent_head ;;;
    on_writer (set_chunked (negb (status_forbids_body (res_status response)))) ;;;
    on_stream (write_all out (io_ w))).

(** [write(piece)] *)
Definition write (piece : bytes) : M WS unit :=
  let! s := out_get in
  let w := s.2 in
  require (sent_head_ w && negb (finished_ w)) (serialize_error SerializeError.framing_conflict) ;;;
  if (length piece =? 0)%nat then out_ret tt
  else if head_request_ w || negb (chunked_ w) then out_ret tt
  else serialized (write_chunk piece) (fun out => on_stream (write_all out (io_ w))).

(** [finish()] *)
Definition finish : M WS unit :=
  let! s := out_get in
  let w := s.2 in
  if negb (sent_head_ w) || finished_ w then out_ret tt
  else
    on_writer set_finished ;;;
    if head_request_ w || negb (chunked_ w) then out_ret tt
    else serialized write_last_chunk (fun out => on_stream (write_all out (io_ w))).
End Writer.
Arguments WS T : clear implicits.

(** ** Handlers *)

(** A handler is a coroutine that calls the writer and ends, returning or
    throwing. *)
Inductive Handler :=
| h_return (r : Result unit)
| h_throw
| h_send (response : Response) (body : bytes) (k : Result unit -> Handler)
| h_send_head (response : Response) (k : Result unit -> Handler)
| h_write (piece : bytes) (k : Result unit -> Handler)
| h_finish (k : Result unit -> Handler).

(** The result of a call as a value. *)
Definition attempt {S A} (m : M S A) : M S (Result A) :=
  fun s => match m s with
           | Returns a s' => Returns (Ok a) s'
           | Fails e s' => Returns (Fail e) s'
           | OutOfFuel => OutOfFuel
           end.

(** [handled = co_await handler(...)]; [None] is a thrown exception. *)
Fixpoint run_handler {T} `{BoundedStream T} (h : Handler) : M (WS T) (option (Result unit)) :=
  match h with
  | h_return r => out_ret (Some r)
  | h_throw => out_ret None
  | h_send response body k => let! r := attempt (send response body) in run_handler (k r)
  | h_send_head response k => let! r := attempt (send_head_chunked response) in run_handler (k r)
  | h_write piece k => let! r := attempt (write piece) in run_handler (k r)
  | h_finish k => let! r := attempt finish in run_handler (k r)
  end.

(** ** What a response looks like on the wire *)

Definition chunk_text (piece : bytes) : bytes := to_hex (len piece) ++ CRLF ++ piece ++ CRLF.
Definition last_chunk_text : bytes := lit "0" ++ CRLF ++ CRLF.

(** The head [write_response_head] writes. *)
Definition head_text (r : Response) (framing : Framing.t) (body_size : Z) (head : bytes) : Prop :=
  write_response_head r framing body_size [] = Returns tt head.

(** One response to a request: nothing at all, a head announcing the length of
    the body it is followed by, or a head and chunks with their terminator.  The
    body is withheld for HEAD and where the status forbids one. *)
Inductive response_text (head_request : bool) : bytes -> Prop :=
| text_none : response_text head_request []
| text_length r body head :
    head_text r (if status_forbids_body (res_status r) then Framing.none else Framing.content_length)
      (len body) head ->
    response_text head_request
      (head ++ if head_request || status_forbids_body (res_status r) then [] else body)
| text_chunked r pieces head :
    head_text r Framing.chunked 0 head -> Forall (fun p => p <> []) pieces ->
    response_text head_request
      (head ++ if head_request || status_forbids_body (res_status r) then []
               else List.concat (map chunk_text pieces) ++ last_chunk_text).

Lemma write_chunk_text piece : piece <> [] -> write_chunk piece [] = Returns tt (chunk_text piece).
Proof.
  intros Hne. unfold write_chunk, require, out_bind. destruct piece; [done|].
  simpl. unfold chunk_text, emit, out_modify, out_ret, out_bind. simpl.
  by rewrite <- !app_assoc.
Qed.

(** Serializers have no loops that could run out. *)
Lemma write_response_head_total r framing n out : write_response_head r framing n out <> OutOfFuel.
Proof.
  assert (forall texts out, emit_all texts out <> OutOfFuel) as Hall.
  { intros texts. induction texts as [|t texts IH]; intros out0; simpl; [done|]. apply IH. }
  unfold write_response_head, require, emit, emit_fields, out_modify, out_ret, out_bind.
  repeat (case_match; simplify_eq/=; try done). all: by edestruct Hall.
Qed.

(** ** The writer's reference

    What a writer has been told, without streams and flags. *)
Inductive Said :=
| silent
| whole (r : Response) (body head : bytes)
| streamed (r : Response) (head : bytes) (pieces : list bytes) (ended : bool).

(** The framing of a response that is sent whole. *)
Definition body_framing (r : Response) : Framing.t :=
  if status_forbids_body (res_status r) then Framing.none else Framing.content_length.

Definition framing_conflict : Result unit := Fail (serialize_error SerializeError.framing_conflict).

(** A response is sent once, and not if its head cannot be written. *)
Definition say_send (r : Response) (body : bytes) (said : Said) : Result unit * Said :=
  match said with
  | silent =>
      match write_response_head r (body_framing r) (len body) [] with
      | Returns _ head => (Ok tt, whole r body head)
      | Fails e _ => (Fail e, silent)
      | OutOfFuel => (framing_conflict, silent)
      end
  | _ => (framing_conflict, said)
  end.

Definition say_head (r : Response) (said : Said) : Result unit * Said :=
  match said with
  | silent =>
      match write_response_head r Framing.chunked 0 [] with
      | Returns _ head => (Ok tt, streamed r head [] false)
      | Fails e _ => (Fail e, silent)
      | OutOfFuel => (framing_conflict, silent)
      end
  | _ => (framing_conflict, said)
  end.

(** Pieces are accepted after a streamed head and before its end; an empty one is
    no chunk. *)
Definition say_write (piece : bytes) (said : Said) : Result unit * Said :=
  match said with
  | streamed r head pieces false =>
      (Ok tt, if (length piece =? 0)%nat then said else streamed r head (pieces ++ [piece]) false)
  | _ => (framing_conflict, said)
  end.

Definition say_finish (said : Said) : Result unit * Said :=
  match said with
  | streamed r head pieces _ => (Ok tt, streamed r head pieces true)
  | _ => (Ok tt, said)
  end.

Fixpoint say_handler (h : Handler) (said : Said) : option (Result unit) * Said :=
  match h with
  | h_return r => (Some r, said)
  | h_throw => (None, said)
  | h_send r body k => let '(x, said) := say_send r body said in say_handler (k x) said
  | h_send_head r k => let '(x, said) := say_head r said in say_handler (k x) said
  | h_write piece k => let '(x, said) := say_write piece said in say_handler (k x) said
  | h_finish k => let '(x, said) := say_finish said in say_handler (k x) said
  end.

(** The bytes for what was said in answer to a request (HEAD or another). *)
Definition render (head_request : bool) (said : Said) : bytes :=
  match said with
  | silent => []
  | whole r body head =>
      head ++ if head_request || status_forbids_body (res_status r) then [] else body
  | streamed r head pieces ended =>
      head ++ if head_request || status_forbids_body (res_status r) then []
              else List.concat (map chunk_text pieces) ++ (if ended then last_chunk_text else [])
  end.

(** Heads are the serializer's, and pieces are not empty. *)
Definition said_ok (said : Said) : Prop :=
  match said with
  | silent => True
  | whole r body head => head_text r (body_framing r) (len body) head
  | streamed r head pieces _ => head_text r Framing.chunked 0 head /\ Forall (fun p => p <> []) pieces
  end.

(** A stream whose writes make progress and do not fail. *)
Class EagerStream (T : Type) `{BoundedStream T} : Prop := {
  write_progress : forall d o s, d <> [] -> exists n s', write_some d o s = (Ok n, s') /\ (0 < n)%nat;
  writev_progress : forall wv o, writev_some = Some wv -> writev_eager (fun p => wv p o);
}.

Section OneResponse.
Context {T : Type} `{L : StreamLaws T, !EagerStream T}.

Lemma write_all_ok source o (s : T) :
  exists s', write_all source o s = Returns tt s' /\ wire s' = wire s ++ source.
Proof.
  pose proof (write_all_writes wire (fun d => write_some d o) source s (write_law o)) as Hw.
  pose proof (write_all_succeeds (fun d => write_some d o) source s
    (fun d s => write_progress d o s)) as Hok.
  unfold writes, wp, write_all in *.
  destruct (write_all_with _ source s) as [[] s'|e s'|]; [by exists s'|done|done].
Qed.

Lemma writev_all_ok wv pieces o (s : T) :
  writev_some = Some wv -> ends_full pieces = true ->
  exists s', writev_all wv pieces o s = Returns tt s' /\ wire s' = wire s ++ List.concat pieces.
Proof.
  intros Hv Hfull. pose proof (writev_law wv o Hv) as Hacc.
  pose proof (writev_all_writes wire (fun p => wv p o) pieces s Hacc) as Hw.
  pose proof (writev_all_eager wire (fun p => wv p o) pieces s Hacc (writev_progress wv o Hv))
    as Hok.
  unfold writes, wp, writev_all in *. rewrite Hfull, orb_true_r in Hok.
  destruct (writev_all_with _ pieces s) as [[] s'|e s'|]; [by exists s'|by destruct Hok|done].
Qed.

(** Putting data on the wire after what is there. *)
Lemma on_stream_write data o (s s0 : T) (w : ResponseWriter) out :
  wire s = wire s0 ++ out ->
  exists s', on_stream (write_all data o) (s, w) = Returns tt (s', w) /\ wire s' = wire s0 ++ out ++ data.
Proof.
  intros Hs. destruct (write_all_ok data o s) as (s' & Hw & Hs').
  exists s'. unfold on_stream. simpl. rewrite Hw. split; [done|]. by rewrite Hs', Hs, app_assoc.
Qed.

Lemma on_stream_writev wv head body o (s s0 : T) (w : ResponseWriter) :
  writev_some = Some wv -> body <> [] -> wire s = wire s0 ++ [] ->
  exists s', on_stream (writev_all wv [head; body] o) (s, w) = Returns tt (s', w) /\
    wire s' = wire s0 ++ head ++ body.
Proof.
  intros Hv Hb Hs. destruct (writev_all_ok wv [head; body] o s Hv) as (s' & Hw & Hs').
  { unfold ends_full. simpl. by destruct body. }
  exists s'. unfold on_stream. simpl. rewrite Hw. split; [done|].
  rewrite Hs', Hs. simpl. by rewrite !app_nil_r.
Qed.

(** *** The writer does what was said *)

(** The writer and the wire after [said]. *)
Record tells (hr : bool) (s0 : T) (said : Said) (s : T) (w : ResponseWriter) : Prop := {
  tl_wire : wire s = wire s0 ++ render hr said;
  tl_method : head_request_ w = hr;
  tl_sent : sent_head_ w = match said with silent => false | _ => true end;
  tl_finished : finished_ w = match said with whole _ _ _ => true | streamed _ _ _ e => e | _ => false end;
  tl_chunked : match said with
               | streamed r _ _ _ => chunked_ w = negb (status_forbids_body (res_status r))
               | _ => True
               end;
}.

(** A call of the writer does what [spec] says: its result, and the wire. *)
Definition says {A} (hr : bool) (m : M (WS T) A) (spec : Said -> Result A * Said) : Prop :=
  forall s0 said s w, tells hr s0 said s w ->
    exists s' w', attempt m (s, w) = Returns (spec said).1 (s', w') /\ tells hr s0 (spec said).2 s' w'.

Lemma send_says hr r body : says hr (send r body) (say_send r body).
Proof.
  intros s0 said s w [Hs Hm Hse Hf Hc]. unfold attempt, send, out_bind, out_get, require. simpl.
  rewrite Hse. destruct said as [|r0 body0 head0|r0 head0 pieces ended]; simpl;
    [|by exists s, w|by exists s, w].
  unfold serialized, on_writer, out_modify, say_send, body_framing.
  destruct (write_response_head r _ (len body) []) as [[] head|e head|] eqn:Hh; simpl.
  2:{ by exists s, w. }
  2:{ by apply (write_response_head_total r _ (len body) []) in Hh. }
  set (w' := set_finished (set_sent_head w)). rewrite Hm.
  assert (forall s', wire s' = wire s0 ++ render hr (whole r body head) ->
    tells hr s0 (whole r body head) s' w') as Htell by (by constructor).
  destruct (hr || (length body =? 0)%nat || status_forbids_body (res_status r)) eqn:E.
  - destruct (on_stream_write head (io_ w) s s0 w' [] Hs) as (s' & -> & Hs'). exists s', w'. split; [done|].
    apply Htell. rewrite Hs'. simpl.
    destruct hr, (status_forbids_body _); simpl in *; try (by rewrite app_nil_r).
    rewrite orb_false_r in E. bool_facts. apply nil_length_inv in E as ->. by rewrite app_nil_r.
  - apply orb_false_iff in E as [E Ef]. apply orb_false_iff in E as [Eh Eb]. bool_facts. subst hr.
    simpl in Htell. rewrite Eh, Ef in Htell. simpl in Htell.
    assert (body <> []) as Hne by (by intros ->).
    destruct writev_some as [wv|] eqn:Ev.
    + destruct (on_stream_writev wv head body (io_ w) s s0 w' Ev Hne Hs) as (s' & -> & Hs').
      exists s', w'. split; [done|]. rewrite Eh. by apply Htell.
    + destruct (on_stream_write (head ++ body) (io_ w) s s0 w' [] Hs) as (s' & -> & Hs').
      exists s', w'. split; [done|]. rewrite Eh. by apply Htell.
Qed.

Lemma send_head_says hr r : says hr (send_head_chunked r) (say_head r).
Proof.
  intros s0 said s w [Hs Hm Hse Hf Hc]. unfold attempt, send_head_chunked, out_bind, out_get, require. simpl.
  rewrite Hse. destruct said as [|r0 body0 head0|r0 head0 pieces ended]; simpl;
    [|by exists s, w|by exists s, w].
  unfold serialized, on_writer, out_modify, say_head.
  destruct (write_response_head r _ 0 []) as [[] head|e head|] eqn:Hh; simpl.
  2:{ by exists s, w. }
  2:{ by apply (write_response_head_total r _ 0 []) in Hh. }
  set (w' := set_chunked _ _). destruct (on_stream_write head (io_ w) s s0 w' [] Hs) as (s' & -> & Hs').
  exists s', w'. split; [done|]. constructor; simpl; try done.
  rewrite Hs'. destruct (_ || _); simpl; by rewrite app_nil_r.
Qed.

Lemma write_says hr piece : says hr (write piece) (say_write piece).
Proof.
  intros s0 said s w [Hs Hm Hse Hf Hc]. unfold attempt, write, out_bind, out_get, require. simpl.
  rewrite Hse, Hf. destruct said as [|r0 body0 head0|r head pieces [|]]; simpl;
    [by exists s, w|by exists s, w|by exists s, w|]. unfold say_write. simpl.
  destruct (length piece =? 0)%nat eqn:Ep; bool_facts; [by exists s, w|].
  rewrite Hm, Hc, negb_involutive. destruct (hr || status_forbids_body (res_status r)) eqn:E.
  - exists s, w. split; [done|]. constructor; simpl; try done. rewrite Hs. simpl. by rewrite E.
  - assert (piece <> []) as Hne by (by intros ->). unfold serialized. rewrite write_chunk_text by done.
    destruct (on_stream_write (chunk_text piece) (io_ w) s s0 w _ Hs) as (s' & -> & Hs').
    exists s', w. split; [done|]. constructor; simpl; try done. rewrite Hs'. simpl. rewrite E.
    rewrite map_app, concat_app. simpl. by rewrite !app_nil_r, <- app_assoc.
Qed.

Lemma finish_says hr : says hr finish say_finish.
Proof.
  intros s0 said s w [Hs Hm Hse Hf Hc]. unfold attempt, finish, out_bind, out_get. simpl.
  rewrite Hse, Hf. destruct said as [|r0 body0 head0|r head pieces [|]]; simpl;
    [by exists s, w|by exists s, w|by exists s, w|]. unfold on_writer, out_modify. simpl.
  rewrite Hm, Hc, negb_involutive. destruct (hr || status_forbids_body (res_status r)) eqn:E.
  - exists s, (set_finished w). split; [done|]. constructor; simpl; try done. rewrite Hs. simpl. by rewrite E.
  - unfold serialized, write_last_chunk, emit, out_modify. rewrite app_nil_l. fold last_chunk_text.
    destruct (on_stream_write last_chunk_text (io_ w) s s0 (set_finished w) _ Hs) as (s' & -> & Hs').
    exists s', (set_finished w). split; [done|]. constructor; simpl; try done. rewrite Hs'. simpl. rewrite E.
    by rewrite app_nil_r, <- app_assoc.
Qed.

Lemma says_bind {B} hr (m : M (WS T) unit) spec (k : Result unit -> M (WS T) B)
    (said_k : Result unit -> Said -> B * Said) s0 said s w :
  says hr m spec -> tells hr s0 said s w ->
  (forall r said s w, tells hr s0 said s w ->
     exists s' w', k r (s, w) = Returns (said_k r said).1 (s', w') /\ tells hr s0 (said_k r said).2 s' w') ->
  exists s' w', out_bind (attempt m) k (s, w) = Returns (said_k (spec said).1 (spec said).2).1 (s', w') /\
    tells hr s0 (said_k (spec said).1 (spec said).2).2 s' w'.
Proof.
  intros Hm Ht Hk. destruct (Hm s0 said s w Ht) as (s1 & w1 & Hr & Ht1). unfold out_bind. rewrite Hr.
  by apply Hk.
Qed.

Lemma run_handler_says hr h s0 said s w :
  tells hr s0 said s w ->
  exists s' w', run_handler h (s, w) = Returns (say_handler h said).1 (s', w') /\
    tells hr s0 (say_handler h said).2 s' w'.
Proof.
  revert said s w. induction h as [r| |r body k IH|r k IH|piece k IH|k IH]; intros said s w Ht; simpl;
    [by exists s, w|by exists s, w|..].
  - pose proof (says_bind hr _ (say_send r body)
      (fun x => run_handler (k x)) (fun x => say_handler (k x)) s0 said s w
      (send_says hr r body) Ht IH) as Hb. by destruct (say_send r body said).
  - pose proof (says_bind hr _ (say_head r)
      (fun x => run_handler (k x)) (fun x => say_handler (k x)) s0 said s w
      (send_head_says hr r) Ht IH) as Hb. by destruct (say_head r said).
  - pose proof (says_bind hr _ (say_write piece)
      (fun x => run_handler (k x)) (fun x => say_handler (k x)) s0 said s w
      (write_says hr piece) Ht IH) as Hb. by destruct (say_write piece said).
  - pose proof (says_bind hr _ say_finish
      (fun x => run_handler (k x)) (fun x => say_handler (k x)) s0 said s w
      (finish_says hr) Ht IH) as Hb. by destruct (say_finish said).
Qed.
End OneResponse.

(** *** What was said is one response *)

Lemma say_handler_ok h said : said_ok said -> said_ok (say_handler h said).2.
Proof.
  revert said. induction h as [r| |r body k IH|r k IH|piece k IH|k IH]; intros said Ht; simpl; try done.
  - destruct (say_send r body said) as [x said'] eqn:E. apply IH. unfold say_send in E.
    destruct said; try by injection E as <- <-.
    destruct (write_response_head _ _ _ _) as [[] head|e head|] eqn:Eh; by injection E as <- <-.
  - destruct (say_head r said) as [x said'] eqn:E. apply IH. unfold say_head in E.
    destruct said; try by injection E as <- <-.
    destruct (write_response_head _ _ _ _) as [[] head|e head|] eqn:Eh; by injection E as <- <-.
  - destruct (say_write piece said) as [x said'] eqn:E. apply IH. unfold say_write in E.
    destruct said as [|? ? ?|r head pieces [|]]; try by injection E as <- <-.
    destruct (length piece =? 0)%nat eqn:Ep; bool_facts; injection E as <- <-; [done|].
    destruct Ht as [Hh Hp]. split; [done|]. apply Forall_app. split; [done|]. constructor; [by intros ->|done].
  - destruct (say_finish said) as [x said'] eqn:E. apply IH. unfold say_finish in E.
    by destruct said; injection E as <- <-.
Qed.

Lemma render_response hr said :
  said_ok said -> response_text hr (render hr (say_finish said).2).
Proof.
  destruct said as [|r body head|r head pieces ended]; simpl.
  - constructor.
  - intros Hh. by apply text_length.
  - intros [Hh Hp]. pose proof (text_chunked hr r pieces head Hh Hp) as Ht. by destruct (_ || _).
Qed.

(** The bytes an exchange puts on the wire: the handler, then [finish] on its
    behalf when it succeeds. *)
Definition respond {T} `{BoundedStream T} (h : Handler) : M (WS T) (option (Result unit)) :=
  let! handled := run_handler h in
  match handled with
  | Some (Ok _) => finish ;;; out_ret handled
  | _ => out_ret handled
  end.

(** C29: whatever a handler does with the writer, in whatever order and however
    often, each of its calls has exactly the effect of the writer's reference
    ([say_send], [say_head], [say_write], [say_finish]: one head at most, nothing
    after the end, body bytes unless the request is HEAD or the status forbids
    them), over any stream whose writes make progress and do not fail.  The handler
    gets the results the reference gives and the wire the bytes it renders: the head
    and the body of a whole response, or the head, the chunks and, once ended, the
    terminator.  When the handler succeeds, that is exactly one well-formed
    response, or nothing if it never sent a head. *)
Theorem one_response {T : Type} {S : BoundedStream T} {L : StreamLaws T}
    (h : Handler) (head_request keep_alive : bool) (io : IoOptions) (s : T)
    (Heager : EagerStream T) :
  let '(handled, said) := say_handler h silent in
  exists s' w',
    match handled with
    | Some (Ok _) =>
        let text := render head_request (say_finish said).2 in
        respond h (s, make_writer head_request keep_alive io) = Returns handled (s', w') /\
        wire s' = wire s ++ text /\ response_text head_request text
    | _ =>
        respond h (s, make_writer head_request keep_alive io) = Returns handled (s', w') /\
        wire s' = wire s ++ render head_request said
    end.
Proof.
  assert (tells head_request s silent s (make_writer head_request keep_alive io)) as H0
    by (constructor; try done; by rewrite app_nil_r).
  destruct (run_handler_says head_request h s silent s _ H0) as (s1 & w1 & Hr & Ht).
  pose proof (say_handler_ok h silent I) as Hok.
  destruct (say_handler h silent) as [handled said]. simpl in Hr, Ht, Hok.
  unfold respond, out_bind. rewrite Hr. destruct handled as [[[]|e]|].
  - destruct (finish_says head_request s said s1 w1 Ht) as (s2 & w2 & Hf & Ht2). exists s2, w2.
    assert (finish (s1, w1) = Returns tt (s2, w2)) as ->.
    { unfold attempt in Hf. assert ((say_finish said).1 = Ok tt) as E by (by destruct said).
      rewrite E in Hf. destruct (finish (s1, w1)) as [[] x|e x|]; by simplify_eq. }
    split; [done|]. split; [apply Ht2|]. by apply render_response.
  - exists s1, w1. split; [done|]. apply Ht.
  - exists s1, w1. split; [done|]. apply Ht.
Qed.

#[export] Instance sink_eager : EagerStream Sink.
Proof.
  constructor.
  - intros d o s Hd. eexists _, _. split; [reflexivity|]. destruct d; [done|]. cbn [length]. lia.
  - intros wv o [= <-] pieces s. eexists _, _. split; [reflexivity|].
    destruct (List.concat pieces); [done|]. intros _. cbn [length]. lia.
Qed.

(** A handler that streams two pieces, tries to send a second response, and
    leaves the terminator to the connection. *)
Definition streaming_handler : Handler :=
  h_send_head (mk_response Version.http_1_1 200 [] [] BodyKind.none 0) (fun _ =>
  h_write (lit "ab") (fun _ => h_write [] (fun _ => h_write (lit "c") (fun _ =>
  h_send (mk_response Version.http_1_1 404 [] [] BodyKind.none 0) (lit "no") (fun _ =>
  h_return (Ok tt)))))).

Lemma one_response_witness :
  exists s' w',
    respond streaming_handler (mk_sink [], make_writer false true no_io) = Returns (Some (Ok tt)) (s', w') /\
    wire s' = lit "HTTP/1.1 200 OK" ++ CRLF ++ lit "Transfer-Encoding: chunked" ++ CRLF ++ CRLF ++
              lit "2" ++ CRLF ++ lit "ab" ++ CRLF ++ lit "1" ++ CRLF ++ lit "c" ++ CRLF ++
              lit "0" ++ CRLF ++ CRLF /\
    response_text false (wire s').
Proof.
  pose proof (one_response (S := sink_stream) (L := sink_laws) streaming_handler false true no_io
    (mk_sink []) sink_eager) as H.
  destruct (say_handler streaming_handler silent) as [handled said] eqn:E. vm_compute in E.
  injection E as <- <-. destruct H as (s' & w' & Hr & Hs & Ht). exists s', w'.
  split; [exact Hr|]. rewrite Hs. split; [vm_compute; reflexivity|exact Ht].
Defined.
