(* ===== verification/Connection.v ===== *)
(** * Connection: serving requests over one connection
    ([serve_connection] of http/connection.hpp)

    The server loop over any [BoundedStream]: read and parse a request, drain its
    body, run the handler on a fresh [ResponseWriter], decide whether to go on.
    The input and body buffers appear as the bytes they hold. *)

From S2P Require Import Prelude Numerals Errors Buffer Message Lines RequestParser ResponseParser Serializer.
From S2P Require Import Streams Writer.

Local Open Scope Z_scope.
Local Open Scope mira_scope.

(** [ServerOptions]; a zero duration disables the window. *)
Record ServerOptions := mk_server_options {
  so_limits : Limits;
  so_stop : Z;
  max_requests_per_connection : Z;
  read_chunk : nat;
  force_close : bool;
  idle_timeout : Z;
  request_timeout : Z;
}.

Definition default_server_options : ServerOptions :=
  mk_server_options default_limits 0 100 (8 * 1024) false 0 0.

(** The locals of one request. *)
Record Exchange := mk_exchange {
  x_head_ready : bool;
  x_request_started : bool;
  x_body_drained : bool;
  x_body : bytes;
  x_io : IoOptions;
}.

Definition set_head_ready (x : Exchange) : Exchange :=
  mk_exchange true (x_request_started x) (x_body_drained x) (x_body x) (x_io x).
Definition set_started (io : IoOptions) (x : Exchange) : Exchange :=
  mk_exchange (x_head_ready x) true (x_body_drained x) (x_body x) io.
Definition set_drained (x : Exchange) : Exchange :=
  mk_exchange (x_head_ready x) (x_request_started x) true (x_body x) (x_io x).
Definition append_body (data : bytes) (x : Exchange) : Exchange :=
  mk_exchange (x_head_ready x) (x_request_started x) (x_body_drained x) (x_body x ++ data) (x_io x).

(** How reading a request ends without an error: a request, or a connection that
    ended between two. *)
Inductive Reading := request_read | connection_ended.

Section Serve.
Context {T : Type} `{BoundedStream T}.

(** [detail::send_error] *)
Definition error_response (status : Z) : Response :=
  mk_response Version.http_1_1 status []
    (HeaderMap.append (lit "Connection") (lit "close") []) BodyKind.none 0.

Definition send_error (status : Z) (io : IoOptions) : M T unit :=
  serialized (write_response_head (error_response status) Framing.content_length 0)
    (fun out => write_all out io).

(** [deadline_in(window)] *)
Definition deadline_in (window : Z) (s : T) : option Z :=
  if window =? 0 then None else Some (clock s + window).

(** The status that answers a request the parser refused. *)
Definition refusal_status (e : Error) : Z :=
  if error_eqb e (make_error_code Errc.limit_exceeded) then 413 else 400.

(** The stream, the parser with its input, and the locals. *)
Definition CS : Type := T * (RequestParser * bytes) * Exchange.

(** The read of [need_more]. *)
Definition read_more (options : ServerOptions) (c : CS) : Outcome Error CS (option Reading) :=
  let '(s, (p, input), x) := c in
  match read_some (read_chunk options) (x_io x) s with
  | (Fail e, s) =>
      if negb (x_request_started x) &&
         (error_eqb e (make_error_code Errc.eof) || error_eqb e (make_error_code Errc.timed_out))
      then Returns (Some connection_ended) (s, (p, input), x)
      else Fails e (s, (p, input), x)
  | (Ok data, s) =>
      let input := input ++ data in
      if (length data =? 0)%nat then Fails (make_error_code Errc.eof) (s, (p, input), x)
      else
        let x := if negb (x_request_started x)
                 then set_started (mk_io (io_stop (x_io x)) (deadline_in (request_timeout options) s)) x
                 else x in
        Returns None (s, (p, input), x)
  end.

(** One round of the loop that reads a request. *)
Definition read_round (options : ServerOptions) : M CS (option Reading) :=
  fun c =>
    let '(s, ps, x) := c in
    if x_head_ready x && x_body_drained x then Returns (Some request_read) c
    else match parse ps with
         | OutOfFuel => OutOfFuel
         | Fails e ps =>
             match send_error (refusal_status e) (x_io x) s with
             | Returns _ s | Fails _ s => Fails e (s, ps, x)
             | OutOfFuel => OutOfFuel
             end
         | Returns ParseStep.head ps =>
             let x := set_head_ready x in
             let x := match req_body_kind (request_ ps.1) with
                      | BodyKind.none => set_drained x
                      | _ => x
                      end in
             Returns None (s, ps, x)
         | Returns ParseStep.body ps => Returns None (s, ps, append_body (body_ ps.1) x)
         | Returns ParseStep.complete ps => Returns None (s, ps, set_drained x)
         | Returns ParseStep.need_more ps =>
             if parser_done ps.1 then Returns None (s, ps, set_drained x)
             else read_more options (s, ps, x)
         end.

(** The start of an exchange. *)
Definition new_exchange (options : ServerOptions) (input : bytes) (s : T) : Exchange :=
  let started := negb (length input =? 0)%nat in
  mk_exchange false started false []
    (mk_io (so_stop options)
       (deadline_in (if started then request_timeout options else idle_timeout options) s)).

(** The handler and what follows it: [Some tt] ends the connection. *)
Definition run_exchange (options : ServerOptions) (handler : Request -> bytes -> Handler)
    (served : Z) (p : RequestParser) (x : Exchange) : M T (option unit) :=
  fun s =>
    let request := request_ p in
    let keep_alive := should_keep_alive request && negb (force_close options) &&
                      (served + 1 <? max_requests_per_connection options) in
    let w := make_writer (Method.eqb (req_method request) Method.head) keep_alive (x_io x) in
    match run_handler (handler request (x_body x)) (s, w) with
    | OutOfFuel => OutOfFuel
    | Fails e (s, _) => Fails e s
    | Returns handled (s, w) =>
        let failed e : Outcome Error T (option unit) :=
          if sent_head_ w then Fails e s
          else match send_error 500 (x_io x) s with
               | Returns _ s | Fails _ s => Fails e s
               | OutOfFuel => OutOfFuel
               end in
        match handled with
        | None => failed (make_error_code Errc.internal)
        | Some (Fail e) => failed e
        | Some (Ok _) =>
            match finish (s, w) with
            | Returns _ (s, _) => Returns (if keep_alive then None else Some tt) s
            | Fails e (s, _) => Fails e s
            | OutOfFuel => OutOfFuel
            end
        end
    end.

(** One pass of the loop over requests; [fuel] bounds the reading. *)
Definition serve_request (fuel : nat) (options : ServerOptions)
    (handler : Request -> bytes -> Handler) (served : Z)
    : M (T * (RequestParser * bytes)) (option unit) :=
  fun c =>
    let '(s, (p, input)) := c in
    match iter fuel (read_round options) (s, (reset p, input), new_exchange options input s) with
    | OutOfFuel => OutOfFuel
    | Fails e (s, ps, _) => Fails e (s, ps)
    | Returns connection_ended (s, ps, _) => Returns (Some tt) (s, ps)
    | Returns request_read (s, ps, x) =>
        match run_exchange options handler served ps.1 x s with
        | Returns r s => Returns r (s, ps)
        | Fails e s => Fails e (s, ps)
        | OutOfFuel => OutOfFuel
        end
    end.

(** [for (served = 0; served < max; ++served)]; [passes] are left. *)
Fixpoint serve_loop (passes fuel : nat) (options : ServerOptions)
    (handler : Request -> bytes -> Handler) (served : Z) : M (T * (RequestParser * bytes)) unit :=
  match passes with
  | O => out_ret tt
  | S passes =>
      let! ended := serve_request fuel options handler served in
      match ended with
      | Some _ => out_ret tt
      | None => serve_loop passes fuel options handler (served + 1)
      end
  end.

(** [serve_connection(stream, handler, options)] *)
Definition serve_connection (fuel : nat) (options : ServerOptions)
    (handler : Request -> bytes -> Handler) : M T unit :=
  if (read_chunk options =? 0)%nat then out_fail (make_error_code Errc.invalid_argument)
  else with_local (make_parser (so_limits options), [])
         (serve_loop (Z.to_nat (max_requests_per_connection options)) fuel options handler 0).
End Serve.
Arguments CS T : clear implicits.
