(* ===== verification/ServeRequest.v ===== *)
(** * ServeRequest: the server reads exactly the request on the wire

    For a peer that sends a fixed byte string and then closes, however the stream
    cuts it into reads, [serve_connection] reads off the connection precisely the
    message the parser finds in the whole string, and leaves the next one
    untouched. *)

From S2P Require Import Prelude Numerals Errors Buffer Message Lines RequestParser RequestFraming RequestParserInv.
From S2P Require Import Incremental ResponseParser Serializer Streams Writer Connection.

Local Open Scope Z_scope.

(** ** The head comes first *)

Definition in_head (p : RequestParser) : bool :=
  match state_ p with State.start_line | State.headers => true | _ => false end.

Section Head.
Context {B : Type} `{ReadBuffer B, !ReadBufferLaws B}.

(** Before the end of the head a round goes on, stops for input or ends the head;
    after it none reports a head. *)
Definition head_first (before : bool) (step : option ParseStep.t) (after : bool) : Prop :=
  if before
  then match step with
       | None | Some ParseStep.need_more => after = true
       | Some ParseStep.head => after = false
       | _ => False
       end
  else step <> Some ParseStep.head /\ after = false.

Ltac run_steps :=
  unfold out_bind, out_get, lift, consume_input, on_parser, out_modify, refuse, out_fail, require,
    out_ret in *.

Ltac head_cases :=
  repeat (match goal with
          | H : context[match ?x with _ => _ end] |- _ =>
              lazymatch x with context[match _ with _ => _ end] => fail | _ => idtac end;
              destruct x eqn:?
          end; simplify_eq/=);
  rewrite ?andb_false_r; try done.

Lemma parse_start_line_state s a s' :
  parse_start_line (B := B) s = Returns a s' -> state_ s'.1 = state_ s.1.
Proof.
  destruct s as [p b]. unfold parse_start_line, locate. run_steps. intros Hs. head_cases.
Qed.

Lemma read_chunk_header_state s a s' :
  read_chunk_header (B := B) s = Returns a s' -> in_head s.1 = false -> in_head s'.1 = false.
Proof.
  destruct s as [p b]. unfold read_chunk_header, locate. run_steps. intros Hs Hh. head_cases.
Qed.

Lemma read_chunk_data_state s a s' :
  read_chunk_data (B := B) s = Returns a s' -> in_head s.1 = false -> in_head s'.1 = false.
Proof.
  destruct s as [p b]. unfold read_chunk_data, locate. run_steps. intros Hs Hh. head_cases.
Qed.

Lemma read_chunk_trailer_state s a s' :
  read_chunk_trailer (B := B) s = Returns a s' -> in_head s.1 = false -> in_head s'.1 = false.
Proof.
  destruct s as [p b]. unfold read_chunk_trailer, locate. run_steps. intros Hs Hh. head_cases.
Qed.

Lemma read_length_body_state s a s' :
  read_length_body (B := B) s = Returns a s' -> in_head s.1 = false ->
  in_head s'.1 = false /\ a <> ParseStep.head.
Proof.
  destruct s as [p b]. unfold read_length_body. run_steps. intros Hs Hh. head_cases.
  all: split; [|done]. all: simpl; by destruct (_ =? 0).
Qed.

Lemma parse_headers_state s a s' :
  parser_inv s.1 -> state_ s.1 = State.headers -> no_slice s.1 ->
  parse_headers (B := B) s = Returns a s' -> state_ s'.1 = State.headers.
Proof.
  intros Hi Hst Hsl Hp. pose proof (parse_headers_wp s Hi Hst Hsl) as Hwp. unfold wp in Hwp.
  rewrite Hp in Hwp. apply Hwp.
Qed.

Lemma parse_round_head_first s step s' :
  parser_inv s.1 -> no_slice s.1 -> parse_round (B := B) s = Returns step s' ->
  head_first (in_head s.1) step (in_head s'.1).
Proof.
  intros Hi Hsl. unfold parse_round, out_bind, out_get, in_head at 1. destruct (state_ s.1) eqn:Hst.
  - destruct (parse_start_line s) as [[] s1|e s1|] eqn:E; [| |done|done];
      apply parse_start_line_state in E; unfold on_parser, out_modify, out_ret; intros [= <- <-];
      unfold head_first, in_head; simpl; by rewrite ?E, ?Hst.
  - destruct (parse_headers s) as [[] s1|e s1|] eqn:E; [| |done|done];
      apply parse_headers_state in E; try done; simpl.
    + unfold decide_framing. run_steps. intros Hr. head_cases; by destruct (_ =? 0).
    + unfold out_ret. intros [= <- <-]. unfold head_first, in_head. by rewrite E.
  - destruct (read_length_body s) as [a s1|e s1|] eqn:E; [|done|done].
    apply read_length_body_state in E as [E1 E2]; [|unfold in_head; by rewrite Hst].
    unfold out_ret. intros [= <- <-]. split; [congruence|done].
  - destruct (read_chunk_header s) as [a s1|e s1|] eqn:E; [|done|done].
    apply read_chunk_header_state in E; [|unfold in_head; by rewrite Hst].
    destruct a; unfold out_ret; intros [= <- <-]; by split.
  - destruct (read_chunk_data s) as [a s1|e s1|] eqn:E; [|done|done].
    apply read_chunk_data_state in E; [|unfold in_head; by rewrite Hst].
    destruct a; unfold out_ret; intros [= <- <-]; by split.
  - destruct (read_chunk_trailer s) as [a s1|e s1|] eqn:E; [|done|done].
    apply read_chunk_trailer_state in E; [|unfold in_head; by rewrite Hst].
    destruct a; unfold out_ret; intros [= <- <-]; by split.
  - unfold out_ret. intros [= <- <-]. split; [done|]. unfold in_head. by rewrite Hst.
Qed.

(** Asking for input leaves the state alone. *)
Lemma parse_round_need_more s s' :
  parser_inv s.1 -> no_slice s.1 -> parse_round (B := B) s = Returns (Some ParseStep.need_more) s' ->
  state_ s'.1 <> State.done.
Proof.
  intros Hi Hsl. unfold parse_round, out_bind, out_get. destruct (state_ s.1) eqn:Hst.
  - destruct (parse_start_line s) as [[] s1|e s1|] eqn:E; try done.
    apply parse_start_line_state in E. unfold out_ret. intros [= <-]. congruence.
  - destruct (parse_headers s) as [[] s1|e s1|] eqn:E; try done; apply parse_headers_state in E; try done.
    + unfold decide_framing. run_steps. intros Hr. head_cases.
    + unfold out_ret. intros [= <-]. congruence.
  - destruct (read_length_body s) as [a s1|e s1|] eqn:E; try done.
    unfold read_length_body in E. run_steps. head_cases; congruence.
  - destruct (read_chunk_header s) as [a s1|e s1|] eqn:E; try done.
    unfold read_chunk_header, locate in E. run_steps. head_cases; congruence.
  - destruct (read_chunk_data s) as [a s1|e s1|] eqn:E; try done.
    unfold read_chunk_data, locate in E. run_steps. head_cases; congruence.
  - destruct (read_chunk_trailer s) as [a s1|e s1|] eqn:E; try done.
    unfold read_chunk_trailer, locate in E. run_steps. head_cases; congruence.
  - done.
Qed.

(** From the rounds of [parse] to [parse]. *)
Lemma parse_by_rounds (I : PS -> PS -> Prop) (Q : PS -> ParseStep.t -> PS -> Prop) s step s' :
  parser_inv s.1 -> parse (B := B) s = Returns step s' -> I (released s) (released s) ->
  (forall s1, parser_inv s1.1 -> no_slice s1.1 -> I (released s) s1 ->
     match parse_round s1 with
     | Returns None s2 => I (released s) s2
     | Returns (Some step) s2 => Q (released s) step s2
     | _ => True
     end) ->
  Q (released s) step s'.
Proof.
  intros Hi. unfold parse, out_bind. rewrite release_slice_eq.
  assert (parser_inv (released s).1) as Hr by (by apply (parser_inv_body s.1); destruct Hi).
  assert (no_slice (released s).1) as Hn by done.
  generalize (2 + length (readable (released s).2))%nat. intros n Hs HI Hround.
  revert Hr Hn Hs HI. generalize (released s) at 1 2 3 5. 
  induction n as [|n IH]; intros s1 Hi1 Hn1; [done|]. simpl. intros Hs HI.
  pose proof (parse_round_wp s1 Hi1 Hn1) as Hwp. unfold wp in Hwp. specialize (Hround s1 Hi1 Hn1 HI).
  destruct (parse_round s1) as [[a|] s2|e s2|]; [| |done|done].
  - by injection Hs as <- <-.
  - destruct Hwp as [[Hi2 Hn2] _]. by apply (IH s2).
Qed.

Lemma parse_need_more s s' :
  parser_inv s.1 -> parse (B := B) s = Returns ParseStep.need_more s' -> state_ s'.1 <> State.done.
Proof.
  intros Hi Hp. refine (parse_by_rounds (fun _ _ => True)
    (fun _ step s2 => step = ParseStep.need_more -> state_ s2.1 <> State.done) s _ s' Hi Hp I _ eq_refl).
  intros s1 Hi1 Hn1 _. destruct (parse_round s1) as [[a|] s2|e s2|] eqn:E; try done.
  intros ->. by eapply parse_round_need_more.
Qed.

Lemma parse_head_first s step s' :
  parser_inv s.1 -> parse (B := B) s = Returns step s' ->
  head_first (in_head s.1) (Some step) (in_head s'.1).
Proof.
  intros Hi Hp. change (in_head s.1) with (in_head (released s).1).
  apply (parse_by_rounds (fun s0 s1 => in_head s1.1 = in_head s0.1)
    (fun s0 step s2 => head_first (in_head s0.1) (Some step) (in_head s2.1)) s step s' Hi Hp); [done|].
  intros s1 Hi1 Hn1 Hh. destruct (parse_round s1) as [[a|] s2|e s2|] eqn:E; try done;
    apply parse_round_head_first in E; try done; rewrite Hh in E; [done|].
  unfold head_first in E. by destruct (in_head (released s).1); [|destruct E].
Qed.
End Head.

(** ** One stretch of the loop, up to the next read *)

Section Reading.
Context {T : Type} `{L : StreamLaws T} (options : ServerOptions).

Definition loop : M (CS T) (option Reading) := read_round options.

Definition with_client (c : Client) (x : Exchange) : Exchange :=
  mk_exchange (negb (in_head c.1.1)) (x_request_started x) false c.2 (x_io x).

(** The locals of the loop while a client is at [c]. *)
Definition at_client (c : Client) (x : Exchange) : Prop := x = with_client c x.

Lemma with_client_twice c c' x : with_client c' (with_client c x) = with_client c' x.
Proof. done. Qed.

(** In the final state the client is done. *)
Lemma client_done c n :
  state_ c.1.1 = State.done -> no_slice c.1.1 -> (0 < n)%nat ->
  iter n client_round c = Returns ParseStep.complete c.
Proof.
  destruct c as [s acc], n as [|n]; [lia|]. simpl. intros Hst Hsl _. unfold client_round. simpl.
  unfold parse, out_bind. rewrite release_slice_eq, released_id by done. simpl.
  unfold parse_round, out_bind, out_get. by rewrite Hst.
Qed.

(** A head without a body leaves the parser in its final state. *)
Lemma head_none_done (s : RequestParser * bytes) :
  parser_inv s.1 -> in_head s.1 = false -> req_body_kind (request_ s.1) = BodyKind.none ->
  state_ s.1 = State.done.
Proof.
  intros Hi Hh Hk. pose proof (inv_body _ Hi) as Hb. unfold body_inv in Hb. unfold in_head in Hh.
  destruct (state_ s.1); try done; destruct Hb as [_ [Hb _]]; congruence.
Qed.

(** What the loop does from [c] on, when the client comes to [r]. *)
Definition stretch (c : Client) (r : Outcome Error Client ParseStep.t) : Prop :=
  forall (s : T) x, at_client c x ->
  match r with
  | Returns ParseStep.need_more c' => exists k, forall m,
      iter (S (k + m)) loop (s, c.1, x) =
      match read_more options (s, c'.1, with_client c' x) with
      | Returns (Some a) y => Returns a y
      | Returns None y => iter m loop y
      | Fails e y => Fails e y
      | OutOfFuel => OutOfFuel
      end
  | Returns ParseStep.complete c' => exists k, forall m,
      exists x', iter (k + m) loop (s, c.1, x) = Returns request_read (s, c'.1, x') /\ x_body x' = c'.2
  | Fails e c' => exists k, forall m, exists s' x',
      iter (k + m) loop (s, c.1, x) = Fails e (s', c'.1, x')
  | _ => True
  end.

Lemma send_error_total status io (s : T) : send_error status io s <> OutOfFuel.
Proof.
  unfold send_error, serialized.
  destruct (write_response_head _ _ _ _) eqn:E; [|done|by apply write_response_head_total in E].
  pose proof (write_all_writes wire (fun d => write_some d io) s0 s (write_law io)) as Hw.
  unfold writes, wp, write_all in *. by destruct (write_all_with _ s0 s).
Qed.

(** One round of the loop that does not leave it. *)
Lemma loop_step (s : T) ps x m :
  x_head_ready x && x_body_drained x = false ->
  iter (S m) loop (s, ps, x) =
  match parse ps with
  | OutOfFuel => OutOfFuel
  | Fails e ps' =>
      match send_error (refusal_status e) (x_io x) s with
      | Returns _ s' | Fails _ s' => Fails e (s', ps', x)
      | OutOfFuel => OutOfFuel
      end
  | Returns ParseStep.head ps' =>
      iter m loop (s, ps', match req_body_kind (request_ ps'.1) with
                           | BodyKind.none => set_drained (set_head_ready x)
                           | _ => set_head_ready x
                           end)
  | Returns ParseStep.body ps' => iter m loop (s, ps', append_body (body_ ps'.1) x)
  | Returns ParseStep.complete ps' => iter m loop (s, ps', set_drained x)
  | Returns ParseStep.need_more ps' =>
      if parser_done ps'.1 then iter m loop (s, ps', set_drained x)
      else match read_more options (s, ps', x) with
           | Returns (Some a) y => Returns a y
           | Returns None y => iter m loop y
           | Fails e y => Fails e y
           | OutOfFuel => OutOfFuel
           end
  end.
Proof.
  intros Hx. simpl. unfold loop at 1, read_round. rewrite Hx.
  destruct (parse ps) as [[] ps'|e ps'|]; try done.
  - by destruct (parser_done ps'.1).
  - by destruct (send_error _ _ _).
Qed.

Lemma loop_leaves (s : T) ps x m :
  x_head_ready x && x_body_drained x = true ->
  iter (S m) loop (s, ps, x) = Returns request_read (s, ps, x).
Proof. intros Hx. simpl. unfold loop at 1, read_round. by rewrite Hx. Qed.

Lemma client_step n ps acc :
  iter (S n) client_round (ps, acc) =
  match parse ps with
  | Returns ParseStep.body s => iter n client_round (s, acc ++ body_ s.1)
  | Returns ParseStep.head s => iter n client_round (s, acc)
  | Returns step s => Returns step (s, acc)
  | Fails e s => Fails e (s, acc)
  | OutOfFuel => OutOfFuel
  end.
Proof. simpl. unfold client_round at 1. simpl. by destruct (parse ps) as [[] ?|? ?|]. Qed.

(** A round that goes on takes the loop to where it takes the client. *)
Lemma stretch_later c c' r :
  (forall (s : T) x, at_client c x -> forall m, iter (S m) loop (s, c.1, x) = iter m loop (s, c'.1, with_client c' x)) ->
  stretch c' r -> stretch c r.
Proof.
  intros Hgo Hs s x Hx. specialize (Hs s (with_client c' x)). ospecialize (Hs _); [done|].
  destruct r as [[] c1|e c1|]; try done.
  - destruct Hs as [k Hk]. exists (S k). intros m.
    change (S (S k + m)) with (S (S (k + m))). rewrite (Hgo s x Hx). apply Hk.
  - destruct Hs as [k Hk]. exists (S k). intros m. change (S k + m)%nat with (S (k + m)).
    rewrite (Hgo s x Hx). apply Hk.
  - destruct Hs as [k Hk]. exists (S k). intros m. change (S k + m)%nat with (S (k + m)).
    rewrite (Hgo s x Hx). apply Hk.
Qed.

Lemma at_client_fields c x :
  at_client c x -> x_head_ready x = negb (in_head c.1.1) /\ x_body_drained x = false /\ x_body x = c.2.
Proof. by intros ->. Qed.

Lemma at_client_open c x : at_client c x -> x_head_ready x && x_body_drained x = false.
Proof. intros ->. simpl. apply andb_false_r. Qed.

Lemma loop_stretch n c : parser_inv c.1.1 -> stretch c (iter n client_round c).
Proof.
  revert c. induction n as [|n IH]; intros [ps acc] Hi; [by intros s x|]. simpl in Hi.
  rewrite client_step. pose proof (parse_wp ps Hi) as Hwp. unfold wp in Hwp.
  destruct (parse ps) as [step ps'|e ps'|] eqn:Hp; [| |done].
  2:{ intros s x Hx. exists 1%nat. intros m. change (1 + m)%nat with (S m).
      cbn [fst]. rewrite loop_step by (by eapply at_client_open). rewrite Hp.
      pose proof (send_error_total (refusal_status e) (x_io x) s) as Ht.
      destruct (send_error _ _ _) as [a s'|e' s'|]; [by exists s', x|by exists s', x|done]. }
  pose proof (parse_head_first ps step ps' Hi Hp) as Hh. destruct Hwp as (Hi' & Hpost & _).
  destruct step; unfold head_first in Hh.
  - intros s x Hx. exists 0%nat. intros m. change (S (0 + m)) with (S m).
    cbn [fst]. rewrite loop_step by (by eapply at_client_open). rewrite Hp.
    assert (parser_done ps'.1 = false) as ->.
    { apply parse_need_more in Hp; [|done]. unfold parser_done. by destruct (state_ ps'.1). }
    assert (with_client (ps', acc) x = x) as ->; [|done].
    rewrite Hx at 2. unfold with_client. simpl. f_equal. f_equal.
    by destruct (in_head ps.1); [|destruct Hh].
  - destruct (in_head ps.1) eqn:Hin; [|by destruct Hh as [Hh _]].
    assert (req_body_kind (request_ ps'.1) = BodyKind.none \/
            req_body_kind (request_ ps'.1) <> BodyKind.none) as [Ek|Ek]
      by (destruct (req_body_kind _); auto).
    + intros s x Hx. destruct n as [|n]; [done|]. destruct Hpost as [Hsl _].
      rewrite (client_done (ps', acc)) by (try done; try lia; by apply head_none_done).
      exists 2%nat. intros m. change (2 + m)%nat with (S (S m)). cbn [fst].
      rewrite loop_step by (by eapply at_client_open). rewrite Hp, Ek, loop_leaves by done.
      eexists. split; [done|]. by rewrite Hx.
    + apply (stretch_later _ (ps', acc)); [|by apply IH]. intros s x Hx m.
      rewrite loop_step by (by eapply at_client_open). cbn [fst]. rewrite Hp. f_equal. f_equal.
      destruct (at_client_fields _ _ Hx) as (_ & Hd & Hb).
      unfold with_client, set_head_ready. simpl. rewrite Hh, Hd, Hb.
      by destruct (req_body_kind (request_ ps'.1)).
  - destruct (in_head ps.1) eqn:Hin; [done|]. destruct Hh as [_ Hh].
    apply (stretch_later _ (ps', acc ++ body_ ps'.1)); [|by apply IH]. intros s x Hx m.
    rewrite loop_step by (by eapply at_client_open). cbn [fst]. rewrite Hp. f_equal. f_equal.
    destruct (at_client_fields _ _ Hx) as (Hr & Hd & Hb).
    unfold with_client, append_body. simpl. simpl in Hr. by rewrite Hr, Hd, Hb, Hh, Hin.
  - destruct (in_head ps.1) eqn:Hin; [done|]. intros s x Hx. exists 2%nat. intros m.
    change (2 + m)%nat with (S (S m)). rewrite loop_step by (by eapply at_client_open). cbn [fst].
    rewrite Hp, loop_leaves; [|rewrite Hx; simpl; by rewrite Hin].
    eexists. split; [done|]. by rewrite Hx.
Qed.

(** A client stops where it needs input or the message ends. *)
Lemma client_stops n c step c' :
  iter n client_round c = Returns step c' -> step = ParseStep.need_more \/ step = ParseStep.complete.
Proof.
  revert c. induction n as [|n IH]; intros [ps acc]; [done|]. rewrite client_step.
  destruct (parse ps) as [[] ps'|e ps'|]; try done; try apply IH.
  - intros [= <- _]. by left.
  - intros [= <- _]. by right.
Qed.
End Reading.

(** ** Reading a request *)

Section Source.
Context {T : Type} `{Src : SourceLaws T} (options : ServerOptions).
Hypothesis Hchunk : read_chunk options <> 0%nat.

(** What the loop came to, when [c] is the parser with the bytes received so far:
    what the parser makes of the whole string, or a limit that the parser also finds
    exceeded when it is given only the bytes up to some point. *)
Definition reading_outcome (r : Outcome Error (CS T) Reading) (s : T) (started : bool)
    (c : Client) : Prop :=
  (exists y, r = Fails (parse_error ParseError.limit_exceeded) y) /\
  (exists u c', u `prefix_of` unread s /\
     client_run (feed u c) = Fails (parse_error ParseError.limit_exceeded) c') \/
  match client_run (feed (unread s) c) with
  | Returns ParseStep.complete c => exists s' input x,
      r = Returns request_read (s', (c.1.1, input), x) /\ input ++ unread s' = c.1.2 /\
      x_body x = c.2 /\ wire s' = wire s
  | Returns ParseStep.need_more _ =>
      if started || negb (length (unread s) =? 0)%nat
      then exists y, r = Fails (make_error_code Errc.eof) y
      else exists s' ps x, r = Returns connection_ended (s', ps, x) /\ wire s' = wire s
  | Returns _ _ => False
  | Fails e _ => exists y, r = Fails e y
  | OutOfFuel => False
  end.

Lemma feed_nil c : feed [] c = c.
Proof. destruct c as [[p w] acc]. unfold feed. simpl. by rewrite app_nil_r. Qed.

Lemma feed_feed a b c : feed b (feed a c) = feed (a ++ b) c.
Proof. destruct c as [[p w] acc]. unfold feed. simpl. by rewrite app_assoc. Qed.

Lemma reading_exact_aux k (s : T) c x :
  length (unread s) = k -> at_client c x -> parser_inv c.1.1 ->
  (pending_consume_ c.1.1 <= length c.1.2)%nat ->
  exists n, forall m, reading_outcome (iter (n + m) (loop options) (s, c.1, x)) s (x_request_started x) c.
Proof.
  revert s c x. induction k as [k IH] using lt_wf_ind; intros s c x Hk Hx Hi Hsl.
  pose proof (client_run_resumes (unread s) c Hi Hsl) as Hres.
  pose proof (loop_stretch options (2 + length c.1.2) c Hi s x Hx) as Hstr.
  pose proof (client_stops (2 + length c.1.2) c) as Hstop.
  pose proof (client_run_wp c Hi) as Hwp. unfold wp in Hwp.
  fold (client_run c) in Hstr, Hstop.
  destruct (client_run c) as [step c1|e c1|] eqn:Hrun; [| |done].
  2:{ destruct Hstr as [n Hn]. exists n. intros m. destruct (Hn m) as (s' & x' & ->).
      unfold limit_error in Hres. destruct Hres as [->|Hres].
      - left. split; [by eexists|]. exists [], c1. split; [apply prefix_nil|]. by rewrite feed_nil.
      - right. rewrite Hres. by eexists. }
  destruct c1 as [[p1 w1] acc1].
  destruct (Hstop step ((p1, w1), acc1) eq_refl) as [-> | ->]; simpl in Hres; destruct Hstr as [n Hn].
  2:{ exists n. intros m. destruct (Hn m) as (x' & -> & Hb). right. rewrite Hres.
      exists s, w1, x'. by split_and!. }
  destruct Hwp as [Hi1 [Hp1 _]]. simpl in Hi1, Hp1.
  pose proof (read_source (read_chunk options) (x_io x) s) as Hread. ospecialize (Hread _); [lia|].
  pose proof (read_wire (read_chunk options) (x_io x) s) as Hwire.
  set (x0 := with_client ((p1, w1), acc1) x) in Hn. cbn [fst] in Hn.
  assert (read_some (read_chunk options) (x_io x0) s = read_some (read_chunk options) (x_io x) s) as Er
    by done.
  destruct (read_some (read_chunk options) (x_io x) s) as [[d|e] s1]; simpl in Hwire.
  - destruct Hread as [Hd Hu]. destruct (length d =? 0)%nat eqn:Ed; bool_facts; [by destruct d|].
    set (x1 := if negb (x_request_started x0)
               then set_started (mk_io (io_stop (x_io x0)) (deadline_in (request_timeout options) s1)) x0
               else x0).
    assert (at_client (feed d ((p1, w1), acc1)) x1) as Hx1.
    { unfold x1, x0, at_client, with_client, set_started. simpl.
      by destruct (x_request_started x) eqn:E; simpl; rewrite ?E. }
    destruct (IH (length (unread s1))) with (s := s1) (c := feed d ((p1, w1), acc1)) (x := x1)
      as [n1 Hn1]; [|done|done|done|simpl; lia|].
    { rewrite Hu, length_app in Hk. lia. }
    exists (S n + n1)%nat. intros m. specialize (Hn (n1 + m)%nat).
    replace (S n + n1 + m)%nat with (S (n + (n1 + m))) by lia.
    assert (read_more options (s, (p1, w1), x0) = Returns None (s1, (p1, w1 ++ d), x1)) as Hm.
    { unfold read_more. rewrite Er. by destruct d. }
    rewrite Hm in Hn. rewrite Hn. specialize (Hn1 m).
    unfold reading_outcome in *.
    destruct Hn1 as [[Hlim (u & c' & [v Hv] & Hcut)]|Hout].
    { left. split; [exact Hlim|]. exists (d ++ u), c'. rewrite Hu. split.
      - exists v. by rewrite Hv, app_assoc.
      - pose proof (client_run_resumes (d ++ u) c Hi Hsl) as Hru. rewrite Hrun in Hru. simpl in Hru.
        rewrite Hru, <- feed_feed. exact Hcut. }
    right. rewrite Hres. rewrite feed_feed, <- Hu, Hwire in Hout.
    assert (x_request_started x1 = true) as Hst
      by (unfold x1, x0; simpl; by destruct (x_request_started x) eqn:E; simpl; rewrite ?E).
    rewrite Hst in Hout. simpl in Hout.
    assert ((length (unread s) =? 0)%nat = false) as ->; [|by rewrite orb_true_r].
    apply Nat.eqb_neq. rewrite Hu, length_app. lia.
  - destruct Hread as (-> & Hu & _).
    exists (S n)%nat. intros m.
    replace (S n + m)%nat with (S (n + m)) by lia. rewrite (Hn m). right.
    assert (read_more options (s, (p1, w1), x0) =
      if negb (x_request_started x) then Returns (Some connection_ended) (s1, (p1, w1), x0)
      else Fails (make_error_code Errc.eof) (s1, (p1, w1), x0)) as Hm.
    { unfold read_more. rewrite Er. by destruct (x_request_started x0) eqn:E; simpl in E; rewrite E. }
    rewrite Hm. clear Hm.
    rewrite Hu, feed_nil, Hrun. simpl. rewrite orb_false_r.
    destruct (x_request_started x); simpl; [by eexists|]. by eexists _, _, _.
Qed.
End Source.

(** C13: the server reads exactly the request on the wire.  Let the peer
    send a fixed string and close ([SourceLaws]), and let the stream cut it into
    reads in any way; the server's [read_chunk] is not zero, and its parser has kept
    its invariant.  Reading a request ends, in one of two ways.  It stops with
    [limit_exceeded], and then the parser, given the bytes of the string up to some
    point, finds a limit exceeded too (how the string is cut may decide between this
    and the other way).  Or it ends as the parser does on everything left in the
    buffer and on the wire at once: with the same request, the whole body drained
    and collected, the bytes of the next request still to come and nothing written
    to the peer; with the parser's error; or, if the message is cut off, as the end
    of an idle connection when not a byte of it had arrived and as [eof] otherwise. *)
Theorem request_read_exactly {T : Type} {S : BoundedStream T} {L : StreamLaws T} {Src : SourceLaws T}
    (options : ServerOptions) (p : RequestParser) (input : bytes) (s : T)
    (Hinv : parser_inv p) (Hchunk : read_chunk options <> 0%nat) :
  exists n, forall m,
    reading_outcome
      (iter (n + m) (read_round options) (s, (reset p, input), new_exchange options input s))
      s (negb (length input =? 0)%nat) ((reset p, input), []).
Proof.
  apply (reading_exact_aux options Hchunk (length (unread s)) s ((reset p, input), [])
           (new_exchange options input s)); [done|done|by apply reset_inv|simpl; lia].
Qed.

(** Two pipelined requests, in awkward pieces. *)
Definition two_requests : list bytes :=
  [lit "POST /a HTTP/1.1" ++ [CR]; LF :: lit "Transfer-Encoding: chun"; lit "ked" ++ CRLF ++ CRLF ++ lit "3";
   CRLF ++ lit "ab"; lit "c" ++ CRLF ++ lit "0" ++ CRLF ++ CRLF ++ lit "GET /b HT"; lit "TP/1.1" ++ CRLF].

Definition two_requests_pipe : Pipe := mk_pipe two_requests [] [] 0.

(** Whether the parser stops at a limit when given the first [k] bytes of [w]. *)
Definition stops_at_limit (c : Client) (w : bytes) (k : nat) : bool :=
  match client_run (feed (take k w) c) with
  | Fails e _ => error_eqb e (parse_error ParseError.limit_exceeded)
  | _ => false
  end.

Lemma stops_nowhere c w u c' :
  forallb (fun k => negb (stops_at_limit c w k)) (seq 0 (S (length w))) = true ->
  u `prefix_of` w -> client_run (feed u c) = Fails (parse_error ParseError.limit_exceeded) c' -> False.
Proof.
  intros Hall [v ->] Hu. rewrite forallb_forall in Hall.
  specialize (Hall (length u)). unfold stops_at_limit in Hall. rewrite take_app_length, Hu in Hall.
  unfold error_eqb in Hall. rewrite bool_decide_true in Hall by done.
  ospecialize (Hall _); [|done]. apply in_seq. rewrite length_app. lia.
Qed.

Lemma request_read_exactly_witness :
  exists n, forall m,
    let r := iter (n + m) (read_round default_server_options)
               (two_requests_pipe, (reset (make_parser default_limits), []),
                new_exchange default_server_options [] two_requests_pipe) in
    exists s' ps x, r = Returns request_read (s', ps, x) /\
      ps.2 ++ unread s' = lit "GET /b HTTP/1.1" ++ CRLF /\ x_body x = lit "abc".
Proof.
  destruct (request_read_exactly (S := pipe_stream) (L := pipe_laws) (Src := pipe_source)
    default_server_options (make_parser default_limits) [] two_requests_pipe
    (make_parser_inv default_limits default_limits_in_range) ltac:(discriminate)) as [n Hn].
  exists n. intros m. destruct (Hn m) as [[_ (u & c' & Hu & Hcut)]|Hr].
  { exfalso. refine (stops_nowhere _ _ u c' _ Hu Hcut). vm_compute. reflexivity. }
  destruct (client_run _) as [step c|e c|] eqn:E; vm_compute in E; [|discriminate E|discriminate E].
  injection E as <- <-. destruct Hr as (s' & input & x & Hr & Hrest & Hb & _).
  eexists s', _, x. split; [exact Hr|]. split; [exact Hrest|exact Hb].
Defined.

(** A refused request is always answered with 400.  The parser reports
    a size limit with its own error category, which the comparison with
    [Errc::limit_exceeded] never matches: no input makes the server send 413. *)
Theorem refusal_is_always_400 {B} `{ReadBuffer B} (s s' : RequestParser * B) (e : Error)
    (Hfail : parse s = Fails e s') :
  refusal_status e = 400.
Proof.
  pose proof (parse_fails s) as Hf. rewrite Hfail in Hf. destruct Hf as [pe ->]. by destruct pe.
Qed.

Lemma refusal_is_always_400_witness :
  exists s', parse (make_parser default_limits, lit "GET  / HTTP/1.1" ++ CRLF)
             = Fails (parse_error ParseError.malformed_start_line) s' /\
             refusal_status (parse_error ParseError.malformed_start_line) = 400.
Proof.
  eexists. split; [vm_compute; reflexivity|].
  apply (refusal_is_always_400 (B := bytes) (make_parser default_limits, lit "GET  / HTTP/1.1" ++ CRLF)
    (make_parser default_limits, lit "GET  / HTTP/1.1" ++ CRLF)).
  vm_compute. reflexivity.
Defined.

(** ** What the connection does not do *)

Definition get_a : bytes := lit "GET /a HTTP/1.1" ++ CRLF ++ CRLF.

(** a handler may succeed without sending a response, and the
    connection goes on: for two pipelined requests and a handler that answers
    only the second, the peer gets a single response, which it will take for the
    answer to its first request. *)
Theorem silent_handler_desynchronises :
  let answer_b (r : Request) (_ : bytes) : Handler :=
    if bytes_eqb (req_target r) (lit "/b")
    then h_send (mk_response Version.http_1_1 200 [] [] BodyKind.none 0) (lit "b") (fun r => h_return r)
    else h_return (Ok tt) in
  exists s', serve_connection 40 default_server_options answer_b
               (mk_pipe [get_a ++ lit "GET /b HTTP/1.1" ++ CRLF ++ CRLF] [] [] 0) = Returns tt s' /\
    p_out s' = lit "HTTP/1.1 200 OK" ++ CRLF ++ lit "Content-Length: 1" ++ CRLF ++ CRLF ++ lit "b".
Proof. eexists. split; vm_compute; reflexivity. Qed.

(** With [force_close] the connection ends after the response, but
    the response does not say so: no [Connection: close] is sent. *)
Theorem force_close_is_not_announced :
  let options := mk_server_options default_limits 0 100 (8 * 1024) true 0 0 in
  let answer (_ : Request) (_ : bytes) : Handler :=
    h_send (mk_response Version.http_1_1 204 [] [] BodyKind.none 0) [] (fun r => h_return r) in
  exists s', serve_connection 40 options answer (mk_pipe [get_a; get_a] [] [] 0) = Returns tt s' /\
    p_out s' = lit "HTTP/1.1 204 No Content" ++ CRLF ++ CRLF /\ unread s' = get_a.
Proof. eexists. split; vm_compute; [reflexivity|]. split; reflexivity. Qed.
