(* ===== verification/Client.v ===== *)
(** * Client: the sequential HTTP/1 client ([ClientConnection] of http/client.hpp)

    One exchange at a time over a stream the client does not own: [start] sends a
    request and reads up to the final response head, [read_body] hands out the
    body piece by piece.  The input buffer appears as the bytes it holds. *)

From S2P Require Import Prelude Numerals Errors Buffer Grammar Message Lines RequestParser ResponseParser.
From S2P Require Import ResponseParserInv Serializer Streams Writer.

Local Open Scope Z_scope.
Local Open Scope mira_scope.

(** [Clock::time_point::max()] in nanoseconds. *)
Definition time_point_max : Z := 2 ^ 63 - 1.

(** [ClientOptions] *)
Record ClientOptions := mk_client_options {
  co_limits : Limits;
  co_read_chunk : nat;
  max_buffer_size : nat;
  max_informational_responses : Z;
  co_request_timeout : Z;
}.

Definition default_client_options : ClientOptions :=
  mk_client_options default_limits (8 * 1024) (64 * 1024) 16 0.

(** The members of [ClientConnection] beside the stream. *)
Record ClientConnection := mk_client {
  c_options : ClientOptions;
  c_parser : ResponseParser;
  c_input : bytes;
  c_io : IoOptions;
  busy_ : bool;
  active_ : bool;
  reusable_ : bool;
  eof_ : bool;
}.

(** The constructor. *)
Definition make_client (options : ClientOptions) : ClientConnection :=
  {| c_options := options; c_parser := make_response_parser Method.get (co_limits options);
     c_input := []; c_io := no_io; busy_ := false; active_ := false; reusable_ := true; eof_ := false |}.

Definition set_parsed (s : ResponseParser * bytes) (c : ClientConnection) : ClientConnection :=
  {| c_options := c_options c; c_parser := s.1; c_input := s.2; c_io := c_io c; busy_ := busy_ c;
     active_ := active_ c; reusable_ := reusable_ c; eof_ := eof_ c |}.
Definition set_io (v : IoOptions) (c : ClientConnection) : ClientConnection :=
  {| c_options := c_options c; c_parser := c_parser c; c_input := c_input c; c_io := v;
     busy_ := busy_ c; active_ := active_ c; reusable_ := reusable_ c; eof_ := eof_ c |}.
Definition set_busy (v : bool) (c : ClientConnection) : ClientConnection :=
  {| c_options := c_options c; c_parser := c_parser c; c_input := c_input c; c_io := c_io c;
     busy_ := v; active_ := active_ c; reusable_ := reusable_ c; eof_ := eof_ c |}.
Definition set_active (v : bool) (c : ClientConnection) : ClientConnection :=
  {| c_options := c_options c; c_parser := c_parser c; c_input := c_input c; c_io := c_io c;
     busy_ := busy_ c; active_ := v; reusable_ := reusable_ c; eof_ := eof_ c |}.
Definition set_reusable (v : bool) (c : ClientConnection) : ClientConnection :=
  {| c_options := c_options c; c_parser := c_parser c; c_input := c_input c; c_io := c_io c;
     busy_ := busy_ c; active_ := active_ c; reusable_ := v; eof_ := eof_ c |}.
Definition set_eof (v : bool) (c : ClientConnection) : ClientConnection :=
  {| c_options := c_options c; c_parser := c_parser c; c_input := c_input c; c_io := c_io c;
     busy_ := busy_ c; active_ := active_ c; reusable_ := reusable_ c; eof_ := v |}.

(** The state of the stop tokens, by name. *)
Class StopTokens (T : Type) := stop_requested_of : Z -> T -> bool.

(** The loop of [mentions] over one field value: [for (;;)] with [break]. *)
Fixpoint mentions_loop (fuel : nat) (wanted rest : bytes) : bool :=
  match fuel with
  | O => false
  | S n =>
      let comma := find COMMA rest in
      let token := trim_ows (prefix_to comma rest) in
      if names_equal token wanted then true
      else match comma with
           | None => false
           | Some i => mentions_loop n wanted (drop (i + 1) rest)
           end
  end.

(** [ClientConnection::mentions] *)
Definition client_mentions (h : HeaderMap.t) (wanted : bytes) : bool :=
  existsb (fun f : HeaderMap.entry =>
    names_equal f.1 (lit "Connection") && mentions_loop (S (length f.2)) wanted f.2) h.

(** [reusable()] *)
Definition client_reusable (c : ClientConnection) : bool :=
  reusable_ c && negb (active_ c) && negb (busy_ c).

Section Client.
Context {T : Type} `{BoundedStream T} `{StopTokens T}.

(** The stream and the client on it. *)
Definition CC : Type := T * ClientConnection.

Definition on_client (f : ClientConnection -> ClientConnection) : M CC unit :=
  out_modify (fun s => (s.1, f s.2)).

Definition over_stream {A} (m : M T A) : M CC A :=
  fun s => match m s.1 with
           | Returns a t => Returns a (t, s.2)
           | Fails e t => Fails e (t, s.2)
           | OutOfFuel => OutOfFuel
           end.

(** [budget_error()]: no error is the default-constructed code. *)
Definition budget_error (s : CC) : Error :=
  let io := c_io s.2 in
  if stop_requested_of (io_stop io) s.1 then make_error_code Errc.cancelled
  else match io_deadline io with
       | Some d => if d <=? clock s.1 then make_error_code Errc.timed_out else no_error
       | None => no_error
       end.

(** [invalidate(error)] *)
Definition invalidate {A} (e : Error) : M CC A :=
  on_client (fun c => set_active false (set_reusable false c)) ;;; out_fail e.

(** [if (!r) co_return invalidate(r.error())] *)
Definition or_invalidate {A} (m : M CC A) : M CC A :=
  fun s => match m s with
           | Fails e s' => invalidate e s'
           | r => r
           end.

(** [Guard guard{busy_}]: [busy_] is set while the body runs. *)
Definition guarded {A} (m : M CC A) : M CC A :=
  fun s => match m (s.1, set_busy true s.2) with
           | Returns a s' => Returns a (s'.1, set_busy false s'.2)
           | Fails e s' => Fails e (s'.1, set_busy false s'.2)
           | OutOfFuel => OutOfFuel
           end.

(** [parser_.parse(input_, eof_)] *)
Definition client_parse : M CC ParseStep.t :=
  fun s => match resp_parse (eof_ s.2) (c_parser s.2, c_input s.2) with
           | Returns step ps => Returns step (s.1, set_parsed ps s.2)
           | Fails e ps => Fails e (s.1, set_parsed ps s.2)
           | OutOfFuel => OutOfFuel
           end.

(** One round of the loop of [next]. *)
Definition next_round : M CC (option ParseStep.t) :=
  let! s := out_get in
  require (negb (error_set (budget_error s))) (budget_error s) ;;;
  let! step := client_parse in
  match step with
  | ParseStep.need_more =>
      let! s := out_get in
      let c := s.2 in
      let options := c_options c in
      require (negb (max_buffer_size options <=? length (c_input c))%nat)
        (make_error_code Errc.limit_exceeded) ;;;
      let count := Nat.min (co_read_chunk options) (max_buffer_size options - length (c_input c)) in
      (fun s => match read_some count (c_io c) s.1 with
                | (Fail e, t) =>
                    if error_eqb e (make_error_code Errc.eof)
                    then Returns None (t, set_eof true s.2)
                    else Fails e (t, s.2)
                | (Ok data, t) =>
                    let c := set_parsed (c_parser s.2, c_input s.2 ++ data) s.2 in
                    Returns None (t, if (length data =? 0)%nat then set_eof true c else c)
                end)
  | _ => out_ret (Some step)
  end.

(** [next()]; [fuel] bounds the reads. *)
Definition next (fuel : nat) : M CC ParseStep.t := iter fuel next_round.

(** One round of the loop over informational responses; the local counts them. *)
Definition head_round (fuel : nat) (method : Method.t) : M (CC * Z) (option unit) :=
  fun s =>
    match or_invalidate (next fuel) s.1 with
    | OutOfFuel => OutOfFuel
    | Fails e c => Fails e (c, s.2)
    | Returns ParseStep.head c =>
        if 200 <=? res_status (rs_response (c_parser c.2)) then Returns (Some tt) (c, s.2)
        else if max_informational_responses (c_options c.2) <? s.2 + 1 then
          match invalidate (A := unit) (make_error_code Errc.limit_exceeded) c with
          | Returns _ c | Fails _ c => Fails (make_error_code Errc.limit_exceeded) (c, s.2 + 1)
          | OutOfFuel => OutOfFuel
          end
        else match or_invalidate client_parse c with
             | OutOfFuel => OutOfFuel
             | Fails e c => Fails e (c, s.2 + 1)
             | Returns _ c =>
                 Returns None ((c.1, set_parsed (resp_reset method (c_parser c.2), c_input c.2) c.2), s.2 + 1)
             end
    | Returns _ c =>
        match invalidate (A := unit) (make_error_code Errc.invalid_argument) c with
        | Returns _ c | Fails _ c => Fails (make_error_code Errc.invalid_argument) (c, s.2)
        | OutOfFuel => OutOfFuel
        end
    end.

(** The deadline of an exchange: the caller's or the request timeout's, whichever
    is earlier. *)
Definition exchange_io (options : ClientOptions) (io : IoOptions) (now : Z) : IoOptions :=
  if co_request_timeout options =? 0 then io
  else
    let deadline := if time_point_max - now <? co_request_timeout options then time_point_max
                    else now + co_request_timeout options in
    match io_deadline io with
    | Some d => if deadline <? d then mk_io (io_stop io) (Some deadline) else io
    | None => mk_io (io_stop io) (Some deadline)
    end.

(** The response ends the connection. *)
Definition must_close (r : Response) : bool :=
  BodyKind.eqb (res_body_kind r) BodyKind.close_delimited ||
  client_mentions (res_headers r) (lit "close") ||
  (Version.eqb (res_version r) Version.http_1_0 && negb (client_mentions (res_headers r) (lit "keep-alive"))).

(** [start(request, body, io)] *)
Definition start (fuel : nat) (request : Request) (body : bytes) (io : IoOptions) : M CC unit :=
  let! s := out_get in
  let options := c_options s.2 in
  require (negb (busy_ s.2 || active_ s.2 || negb (reusable_ s.2)))
    (make_error_code Errc.invalid_argument) ;;;
  require (negb ((co_read_chunk options =? 0)%nat || (max_buffer_size options =? 0)%nat ||
                 (co_request_timeout options <? 0))) (make_error_code Errc.invalid_argument) ;;;
  guarded (
    on_client (set_io (exchange_io options io (clock s.1))) ;;;
    let! s := out_get in
    (if error_set (budget_error s) then invalidate (budget_error s) else out_ret tt) ;;;
    serialized (write_request_head request (len body) (co_limits options)) (fun head =>
      on_client (set_active true) ;;;
      on_client (set_reusable (should_keep_alive request)) ;;;
      on_client (fun c => set_parsed (resp_reset (req_method request) (c_parser c), c_input c) c) ;;;
      on_client (set_eof false) ;;;
      let! s := out_get in
      or_invalidate (over_stream (write_all head (c_io s.2))) ;;;
      or_invalidate (over_stream (write_all body (c_io s.2))) ;;;
      with_local 0 (iter (S (S (Z.to_nat (max_informational_responses options))))
                      (head_round fuel (req_method request))) ;;;
      on_client (fun c => if must_close (rs_response (c_parser c)) then set_reusable false c else c))).

(** [read_body()]; the empty piece is the end. *)
Definition read_body (fuel : nat) : M CC bytes :=
  let! s := out_get in
  require (negb (busy_ s.2 || negb (active_ s.2))) (make_error_code Errc.invalid_argument) ;;;
  guarded (
    let! step := or_invalidate (next fuel) in
    match step with
    | ParseStep.body => fun s => Returns (rs_body (c_parser s.2)) s
    | ParseStep.complete =>
        on_client (set_active false) ;;;
        on_client (fun c => if negb (length (c_input c) =? 0)%nat then set_reusable false c else c) ;;;
        out_ret []
    | _ => invalidate (make_error_code Errc.invalid_argument)
    end).
End Client.
Arguments CC T : clear implicits.
