(* ===== verification/ClientInv.v ===== *)
(** * ClientInv: what the client keeps to

    The bound on its input buffer, what it puts on the wire, and that a
    connection on which something went wrong is never used again. *)

From S2P Require Import Prelude Numerals Errors Buffer Grammar Message Lines RequestParser RequestParserInv.
From S2P Require Import ResponseParser ResponseParserInv Serializer Streams Writer Client.

Local Open Scope Z_scope.

(** ** The two scans of [Connection] agree *)

Lemma mentions_loop_items fuel wanted rest :
  (length rest < fuel)%nat ->
  mentions_loop fuel wanted rest = existsb (fun i => names_equal i wanted) (map trim_ows (split_commas rest)).
Proof.
  revert rest. induction fuel as [|n IH]; intros rest Hlen; [lia|]. simpl.
  destruct (find COMMA rest) as [i|] eqn:E.
  - rewrite (split_commas_some _ _ E). simpl.
    destruct (names_equal _ wanted); [done|]. simpl.
    apply IH. apply find_lt in E. rewrite length_drop. lia.
  - rewrite (split_commas_none _ E). simpl. by destruct (names_equal _ wanted).
Qed.

Lemma existsb_filter {A} (f g : A -> bool) l :
  (forall x, f x = true -> g x = true) -> existsb f (List.filter g l) = existsb f l.
Proof.
  intros Hfg. induction l as [|x l IH]; simpl; [done|]. destruct (g x) eqn:E; simpl; [by rewrite IH|].
  rewrite IH. destruct (f x) eqn:Ef; [|done]. by rewrite (Hfg x Ef) in E.
Qed.

(** The client's own scan of the Connection fields finds a token
    precisely when the one of the serializer does: the two sides of an exchange
    read [close] and [keep-alive] alike. *)
Theorem client_mentions_agrees (h : HeaderMap.t) (token : bytes) (Htoken : token <> []) :
  client_mentions h token = mentions h token.
Proof.
  unfold client_mentions, mentions. induction h as [|[name text] h IH]; [done|].
  cbn [existsb fst snd]. rewrite IH. f_equal. f_equal. rewrite mentions_loop_items by lia. rewrite split_list_items.
  unfold list_items. symmetry. apply existsb_filter. intros x Hx. unfold nonempty.
  destruct x; [|done]. unfold names_equal in Hx. by destruct token.
Qed.

Lemma client_mentions_agrees_witness :
  client_mentions [(lit "connection", lit "a, , Close ,b")] (lit "close") = true /\
  client_mentions [(lit "connection", lit "a, , Close ,b")] (lit "close") =
  mentions [(lit "connection", lit "a, , Close ,b")] (lit "close").
Proof.
  split; [vm_compute; reflexivity|]. apply client_mentions_agrees. discriminate.
Defined.

(** ** The response parser only takes from its input *)

Definition takes (s s' : ResponseParser * bytes) : Prop :=
  (length s'.2 <= length s.2)%nat /\ rs_error s'.1 = rs_error s.1 /\ rs_limits s'.1 = rs_limits s.1.

#[export] Instance takes_preorder : PreOrder takes.
Proof.
  split; unfold takes; [intros ?; split_and!; [lia|done|done]|].
  intros ??? (? & ? & ?) (? & ? & ?). split_and!; [lia|congruence|congruence].
Qed.

Lemma lift_moves {A} (r : Result A) : moves takes (lift (S := ResponseParser * bytes) r).
Proof. intros s. unfold lift. destruct r; reflexivity. Qed.

Ltac takes_steps :=
  repeat first [ progress moves_steps | apply lift_moves
               | solve [unfold takes; simpl; rewrite ?length_drop;
                        split_and!; [lia|repeat case_match; done|repeat case_match; done]] ].

Lemma advance_takes eof : moves takes (advance (B := bytes) eof).
Proof.
  assert (forall text t, moves takes (resp_field (B := bytes) text t)) as Hfield.
  { intros. unfold resp_field, refuse. takes_steps. }
  assert (moves takes (resp_framing (B := bytes))) as Hframing.
  { unfold resp_framing. takes_steps. }
  assert (forall text, moves takes (resp_status_line (B := bytes) text)) as Hstatus.
  { intros. unfold resp_status_line, refuse. takes_steps. }
  assert (forall text, moves takes (resp_chunk_size (B := bytes) text)) as Hchunk.
  { intros. unfold resp_chunk_size, refuse. takes_steps. }
  assert (moves takes (resp_body_round (B := bytes) eof)) as Hbody.
  { unfold resp_body_round. takes_steps. }
  unfold advance, advance_round, resp_line_round, resp_on_line. takes_steps.
Qed.

(** The parser is in order, or has failed for good. *)
Definition resp_ok (p : ResponseParser) : Prop :=
  limits_in_range (rs_limits p) /\
  (error_set (rs_error p) = true \/ resp_inv p /\ rs_error p = no_error).

Lemma resp_parse_unfold eof p (b : bytes) :
  error_set (rs_error p) = false ->
  exists s, takes (p, b) s /\
    resp_parse eof (p, b) = match advance eof s with
                            | Fails e s' => Fails e (set_rs_error e s'.1, s'.2)
                            | r => r
                            end.
Proof.
  intros Hno. unfold resp_parse, resp_release, out_bind, out_get. simpl. rewrite Hno. simpl.
  destruct (0 <? rs_pending p)%nat; simpl; eexists (_, _);
    (split; [|reflexivity]); unfold takes; simpl; rewrite ?length_drop; split_and!; done || lia.
Qed.

(** A call ends, keeps this, and takes from the input only; at the end of the
    stream it does not ask for more. *)
Lemma resp_parse_ok eof p (b : bytes) :
  resp_ok p ->
  match resp_parse eof (p, b) with
  | Returns step s' => resp_ok s'.1 /\ (length s'.2 <= length b)%nat /\
                       (step = ParseStep.need_more -> eof = false)
  | Fails e s' => resp_ok s'.1 /\ (length s'.2 <= length b)%nat
  | OutOfFuel => False
  end.
Proof.
  intros [Hlim [Hset|[Hinv Hno]]].
  { unfold resp_parse, out_bind, out_get. simpl. rewrite Hset. simpl. split; [split; [done|by left]|lia]. }
  pose proof (resp_parse_spec p b eof Hinv Hno) as Hspec.
  destruct (resp_parse_unfold eof p b) as (s & Hs & Heq); [by rewrite Hno|]. rewrite Heq in Hspec |- *.
  pose proof (advance_takes eof s) as Hadv. destruct Hs as (Hs1 & Hs2 & Hs3). simpl in Hs1, Hs2, Hs3.
  destruct (advance eof s) as [step s'|e s'|]; [| |done]; destruct Hadv as (Ha1 & Ha2 & Ha3).
  - destruct Hspec as [Hi Hpost].
    split_and!; [split; [congruence|right; split; [done|congruence]]|lia|]. intros ->. apply Hpost.
  - destruct Hspec as [He _]. simpl.
    split; [split; [simpl; congruence|left; simpl; by eapply resp_error_set]|lia].
Qed.

(** ** Reading *)

Section ClientProps.
Context {T : Type} `{L : StreamLaws T} `{!FiniteStream T} `{!StopTokens T}.

(** The parser is in order and the input buffer within its bound. *)
Definition in_order (c : ClientConnection) : Prop :=
  resp_ok (c_parser c) /\ (length (c_input c) <= max_buffer_size (c_options c))%nat.

(** Reading changes neither the wire nor the flags. *)
Record quiet (s s' : CC T) : Prop := {
  q_wire : wire s'.1 = wire s.1;
  q_options : c_options s'.2 = c_options s.2;
  q_io : c_io s'.2 = c_io s.2;
  q_active : active_ s'.2 = active_ s.2;
  q_reusable : reusable_ s'.2 = reusable_ s.2;
  q_busy : busy_ s'.2 = busy_ s.2;
  q_order : in_order s.2 -> in_order s'.2;
  q_budget : (budget s'.1 <= budget s.1)%nat;
}.

#[export] Instance quiet_preorder : PreOrder quiet.
Proof.
  split; [by constructor|]. intros s1 s2 s3 [] []. constructor; [congruence..|auto|lia].
Qed.

(** A call that ends whatever it is given, and is quiet. *)
Definition reads {A} (m : M (CC T) A) (s : CC T) : Prop :=
  match m s with Returns _ s' | Fails _ s' => quiet s s' | OutOfFuel => False end.

Lemma client_parse_reads (s : CC T) :
  in_order s.2 ->
  reads client_parse s /\
  forall s', client_parse s = Returns ParseStep.need_more s' -> eof_ s.2 = false /\ eof_ s'.2 = false.
Proof.
  destruct s as [t c]. intros [Hok Hb]. unfold reads, client_parse. simpl in *.
  pose proof (resp_parse_ok (eof_ c) (c_parser c) (c_input c) Hok) as Hp.
  assert (forall ps, resp_ok ps.1 -> (length ps.2 <= length (c_input c))%nat ->
    quiet (t, c) (t, set_parsed ps c)) as Hq.
  { intros ps Hps Hl. constructor; try done. intros _. split; [done|]. simpl. lia. }
  destruct (resp_parse _ _) as [step ps|e ps|]; [| |done].
  - destruct Hp as (? & ? & Hn). split; [by apply Hq|]. intros s' [= -> <-]. simpl. auto.
  - destruct Hp. split; [by apply Hq|done].
Qed.

(** Rounds left to [next]: the bytes still to come, and the end of the stream. *)
Definition next_left (s : CC T) : nat := (budget s.1 + if eof_ s.2 then 0 else 1)%nat.

Lemma next_round_reads (s : CC T) :
  in_order s.2 -> co_read_chunk (c_options s.2) <> 0%nat ->
  reads next_round s /\ forall s', next_round s = Returns None s' -> (next_left s' < next_left s)%nat.
Proof.
  intros Hord Hchunk. unfold reads, next_round, out_bind, out_get, require.
  destruct (negb (error_set (budget_error s))); [|split; [reflexivity|done]].
  destruct (client_parse_reads s Hord) as [Hp Hmore]. unfold reads in Hp.
  destruct (client_parse s) as [step [t c]|e s1|]; [|done|done].
  destruct step; try (split; [exact Hp|done]). destruct (Hmore (t, c) eq_refl) as [He He1]. simpl.
  destruct (max_buffer_size (c_options c) <=? length (c_input c))%nat eqn:E; bool_facts; simpl; [done|].
  pose proof (q_options _ _ Hp) as Ho. pose proof (q_order _ _ Hp Hord) as [Hok Hb].
  pose proof (q_budget _ _ Hp) as Hbud. simpl in Ho, Hok, Hb, Hbud, He1.
  set (count := Nat.min _ _). pose proof (read_wire count (c_io c) t) as Hw.
  pose proof (read_bounded count (c_io c) t) as Hbound. pose proof (read_budget count (c_io c) t) as Hrb.
  unfold next_left. rewrite He.
  destruct (read_some count (c_io c) t) as [[data|e] t1]; simpl in Hw.
  - specialize (Hbound data t1 eq_refl).
    set (c1 := set_parsed (c_parser c, c_input c ++ data) c).
    assert (forall b : bool, quiet (t, c) (t1, if b then set_eof true c1 else c1)) as Hq.
    { intros b. destruct b; (constructor; try done; simpl; [|lia]); intros _; (split; [done|]); simpl;
        rewrite length_app; unfold count in Hbound; lia. }
    destruct (length data =? 0)%nat eqn:Ed; bool_facts; split.
    + etrans; [exact Hp|exact (Hq true)].
    + intros s' [= <-]. simpl. lia.
    + etrans; [exact Hp|exact (Hq false)].
    + intros s' [= <-]. simpl. rewrite He1. lia.
  - assert (forall b : bool, quiet (t, c) (t1, if b then set_eof true c else c)) as Hq.
    { intros []; by constructor. }
    destruct (error_eqb e _); split; simpl.
    + etrans; [exact Hp|exact (Hq true)].
    + intros s' [= <-]. simpl. lia.
    + etrans; [exact Hp|exact (Hq false)].
    + done.
Qed.

(** Enough fuel for a client: a round for each byte still to come and two more. *)
Definition enough (fuel : nat) (s : CC T) : Prop := (budget s.1 + 2 <= fuel)%nat.

Lemma next_reads fuel (s : CC T) :
  in_order s.2 -> co_read_chunk (c_options s.2) <> 0%nat -> enough fuel s -> reads (next fuel) s.
Proof.
  intros Hord Hchunk Hfuel. unfold next.
  assert (next_left s < fuel)%nat as Hl by (unfold enough, next_left in *; destruct (eof_ s.2); lia).
  clear Hfuel. revert s Hord Hchunk Hl. induction fuel as [|fuel IH]; intros s Hord Hchunk Hl; [lia|].
  destruct (next_round_reads s Hord Hchunk) as [Hr Hd]. unfold reads in *. simpl.
  destruct (next_round s) as [[step|] s'|e s'|]; try done.
  specialize (IH s'). ospecialize (IH _ _ _).
  - by apply (q_order _ _ Hr).
  - by rewrite (q_options _ _ Hr).
  - specialize (Hd s' eq_refl). lia.
  - destruct (iter fuel next_round s') as [a s2|e s2|]; [| |done]; by etrans.
Qed.

(** ** Failing for good *)

(** A connection that will not be used again. *)
Definition dead (c : ClientConnection) : Prop := active_ c = false /\ reusable_ c = false.

(** A step that failed and took the connection with it. *)
Record fell (s s' : CC T) : Prop := {
  f_dead : dead s'.2;
  f_wire : wire s'.1 = wire s.1;
  f_options : c_options s'.2 = c_options s.2;
  f_busy : busy_ s'.2 = busy_ s.2;
  f_order : in_order s.2 -> in_order s'.2;
}.

Lemma quiet_fell s1 s2 s3 : quiet s1 s2 -> fell s2 s3 -> fell s1 s3.
Proof. intros [] []. constructor; try done; try congruence. auto. Qed.

Lemma quiet_invalidated s s' :
  quiet s s' -> fell s (s'.1, set_active false (set_reusable false s'.2)).
Proof. intros []. by constructor. Qed.

(** The step goes on, or the connection is dead. *)
Definition proceeds {A} (m : M (CC T) A) (s : CC T) : Prop :=
  match m s with Returns _ s' => quiet s s' | Fails _ s' => fell s s' | OutOfFuel => False end.

Lemma or_invalidate_proceeds {A} (m : M (CC T) A) s : reads m s -> proceeds (or_invalidate m) s.
Proof.
  unfold reads, proceeds, or_invalidate. destruct (m s) as [a s'|e s'|]; [done| |done].
  intros Hq. simpl. by apply quiet_invalidated.
Qed.

(** What a step of an exchange starts from. *)
Record ready (fuel : nat) (s : CC T) : Prop := {
  r_order : in_order s.2;
  r_chunk : co_read_chunk (c_options s.2) <> 0%nat;
  r_fuel : enough fuel s;
}.

Lemma ready_quiet fuel s s' : ready fuel s -> quiet s s' -> ready fuel s'.
Proof.
  intros [] []. constructor; [auto|congruence|]. unfold enough in *. lia.
Qed.

Lemma reset_quiet s m :
  quiet s (s.1, set_parsed (resp_reset m (c_parser s.2), c_input s.2) s.2).
Proof.
  constructor; try done. intros [[Hlim _] Hb]. split; [|done]. split; [done|right].
  split; [by apply make_response_parser_inv|done].
Qed.

Lemma head_round_proceeds fuel method (s : CC T) n :
  ready fuel s ->
  match head_round fuel method (s, n) with
  | Returns (Some _) (s', _) => quiet s s' /\ 200 <= res_status (rs_response (c_parser s'.2))
  | Returns None (s', n') =>
      quiet s s' /\ n' = n + 1 /\ n' <= max_informational_responses (c_options s.2)
  | Fails _ (s', _) => fell s s'
  | OutOfFuel => False
  end.
Proof.
  intros Hready. unfold head_round. simpl.
  assert (proceeds (or_invalidate (next fuel)) s) as Hn.
  { apply or_invalidate_proceeds. destruct Hready. by apply next_reads. }
  unfold proceeds in Hn. destruct (or_invalidate (next fuel) s) as [step c|e c|]; [|done|done].
  destruct step; try (by apply quiet_invalidated).
  destruct (200 <=? _) eqn:E2; bool_facts; [done|].
  destruct (_ <? n + 1) eqn:Emax; bool_facts; [by apply quiet_invalidated|].
  assert (proceeds (or_invalidate client_parse) c) as Hp.
  { apply or_invalidate_proceeds, client_parse_reads, (q_order _ _ Hn), Hready. }
  unfold proceeds in Hp. destruct (or_invalidate client_parse c) as [step c1|e c1|]; [| |done].
  - split_and!; [|done|rewrite <- (q_options _ _ Hn); lia].
    etrans; [exact Hn|]. etrans; [exact Hp|]. apply reset_quiet.
  - by eapply quiet_fell.
Qed.

Lemma heads_proceed k fuel method (s : CC T) n :
  ready fuel s -> n <= max_informational_responses (c_options s.2) ->
  (Z.to_nat (max_informational_responses (c_options s.2) - n) < k)%nat ->
  match with_local n (iter k (head_round fuel method)) s with
  | Returns _ s' => quiet s s' /\ 200 <= res_status (rs_response (c_parser s'.2))
  | Fails _ s' => fell s s'
  | OutOfFuel => False
  end.
Proof.
  unfold with_local. revert s n. induction k as [|k IH]; intros s n Hr Hn Hk; [lia|]. simpl.
  pose proof (head_round_proceeds fuel method s n Hr) as Hround.
  destruct (head_round fuel method (s, n)) as [[[]|] [s1 n1]|e [s1 n1]|]; try done.
  destruct Hround as (Hq & -> & Hn1). specialize (IH s1 (n + 1)).
  rewrite (q_options _ _ Hq) in IH. ospecialize (IH _ _ _); [by eapply ready_quiet|lia|lia|].
  destruct (iter k _ (s1, n + 1)) as [a [s2 n2]|e [s2 n2]|]; [| |done].
  - destruct IH. split; [by etrans|done].
  - by eapply quiet_fell.
Qed.

(** ** Sending *)

Lemma write_all_budget source o (s : T) :
  match write_all source o s with Returns _ s' | Fails _ s' => (budget s' <= budget s)%nat | OutOfFuel => True end.
Proof.
  unfold write_all, write_all_with, with_local.
  assert (moves (fun a b : T * nat => (budget b.1 <= budget a.1)%nat)
    (iter (S (length source)) (write_all_round (fun d => write_some d o) source))) as Hm.
  { apply moves_iter; [split; [intros ?; lia|intros ???; lia]|]. intros [t n].
    unfold write_all_round, out_bind, out_get, await. simpl.
    destruct (n <? length source)%nat; simpl; [|lia].
    pose proof (write_budget (drop n source) o t) as Hw.
    destruct (write_some (drop n source) o t) as [[k|e] t1]; simpl in *; [|done].
    unfold require. by destruct (k =? 0)%nat. }
  specialize (Hm (s, 0%nat)). by destruct (iter _ _ _) as [a [t n]|e [t n]|].
Qed.

Lemma write_step data o (s : CC T) :
  match or_invalidate (over_stream (write_all data o)) s with
  | Returns _ s' => s'.2 = s.2 /\ wire s'.1 = wire s.1 ++ data /\ (budget s'.1 <= budget s.1)%nat
  | Fails _ s' => s'.2 = set_active false (set_reusable false s.2) /\
                  exists n, (n <= length data)%nat /\ wire s'.1 = wire s.1 ++ take n data
  | OutOfFuel => False
  end.
Proof.
  unfold or_invalidate, over_stream.
  pose proof (write_all_writes wire (fun d => write_some d o) data s.1 (write_law o)) as Hw.
  pose proof (write_all_budget data o s.1) as Hb. unfold writes, wp, write_all in *.
  destruct (write_all_with _ data s.1) as [[] t|e t|]; done.
Qed.

(** The part of [start] after the head is serialized. *)
Definition sent (s : CC T) (head body : bytes) (r : Outcome Error (CC T) unit) : Prop :=
  match r with
  | Returns _ s' =>
      wire s'.1 = wire s.1 ++ head ++ body /\ in_order s'.2 /\ active_ s'.2 = active_ s.2 /\
      busy_ s'.2 = busy_ s.2 /\ 200 <= res_status (rs_response (c_parser s'.2)) /\
      reusable_ s'.2 = reusable_ s.2 && negb (must_close (rs_response (c_parser s'.2)))
  | Fails _ s' =>
      in_order s'.2 /\ busy_ s'.2 = busy_ s.2 /\ dead s'.2 /\
      exists n, wire s'.1 = wire s.1 ++ take n (head ++ body)
  | OutOfFuel => False
  end.

Lemma exchange_sent fuel method head body o (s : CC T) :
  ready fuel s -> 0 <= max_informational_responses (c_options s.2) ->
  sent s head body
    ((or_invalidate (over_stream (write_all head o)) ;;;
      or_invalidate (over_stream (write_all body o)) ;;;
      with_local 0 (iter (S (S (Z.to_nat (max_informational_responses (c_options s.2)))))
                      (head_round fuel method)) ;;;
      on_client (fun c => if must_close (rs_response (c_parser c)) then set_reusable false c else c))%mira s).
Proof.
  intros Hr Hmax. unfold out_bind at 1. pose proof (write_step head o s) as H1.
  destruct (or_invalidate (over_stream (write_all head o)) s) as [[] [t1 c1]|e s1|]; [| |done].
  2:{ destruct H1 as (E & n & Hn & Hw). unfold sent. rewrite E. split_and!; try done; [apply Hr|].
      exists n. by rewrite take_app_le. }
  destruct H1 as (E1 & Hw1 & Hb1). simpl in E1. subst c1. unfold out_bind at 1.
  pose proof (write_step body o (t1, s.2)) as H2.
  destruct (or_invalidate (over_stream (write_all body o)) (t1, s.2)) as [[] [t2 c2]|e s2|]; [| |done].
  2:{ destruct H2 as (E & n & Hn & Hw). unfold sent. rewrite E. split_and!; try done; [apply Hr|].
      simpl in Hw, Hw1. exists (length head + n)%nat.
      by rewrite Hw, Hw1, <- app_assoc, take_app_add. }
  destruct H2 as (E2 & Hw2 & Hb2). simpl in E2, Hw2, Hw1, Hb1, Hb2. subst c2. unfold out_bind at 1.
  assert (ready fuel (t2, s.2)) as Hr2.
  { destruct Hr. constructor; [done|done|]. unfold enough in *. simpl. lia. }
  pose proof (heads_proceed (S (S (Z.to_nat (max_informational_responses (c_options s.2))))) fuel method
    (t2, s.2) 0 Hr2) as H3. simpl c_options in H3. ospecialize (H3 _ _); [lia|lia|].
  match type of H3 with match ?m with _ => _ end => destruct m as [[] s3|e s3|] end; [| |done].
  - destruct H3 as [[] Hst]. simpl in *. unfold on_client, out_modify, sent. simpl.
    assert (in_order s3.2) as Hord by (apply q_order0, Hr).
    destruct (must_close _) eqn:Em; simpl; rewrite ?Em; split_and!; try done;
      try (by rewrite q_wire0, Hw2, Hw1, app_assoc).
    + by rewrite andb_false_r.
    + by rewrite andb_true_r.
  - destruct H3 as []. simpl in *. unfold sent. split_and!; try done; [apply f_order0, Hr|].
    exists (length (head ++ body)). by rewrite f_wire0, Hw2, Hw1, firstn_all, app_assoc.
Qed.
End ClientProps.

(** A head that was not written leaves nothing to serialize. *)
Lemma write_request_head_total req n l out : write_request_head req n l out <> OutOfFuel.
Proof.
  assert (forall texts out, emit_all texts out <> OutOfFuel) as Hall.
  { intros texts. induction texts as [|t texts IH]; intros out0; simpl; [done|]. apply IH. }
  unfold write_request_head, require, emit, emit_fields, lift, out_modify, out_ret, out_bind, out_fail, refuse.
  repeat (case_match; simplify_eq/=; try done). all: by edestruct Hall.
Qed.

(** The head a request is sent with. *)
Definition request_text (req : Request) (body : bytes) (l : Limits) (head : bytes) : Prop :=
  write_request_head req (len body) l [] = Returns tt head.

(** Refused: the client and the wire are as they were, but for the options of the
    exchange that did not take place. *)
Definition untouched {T} `{StreamLaws T} (s s' : CC T) : Prop :=
  wire s'.1 = wire s.1 /\ active_ s'.2 = active_ s.2 /\ reusable_ s'.2 = reusable_ s.2 /\
  c_input s'.2 = c_input s.2.

Section StartProof.
Context {T : Type} `{L : StreamLaws T} `{!FiniteStream T} `{!StopTokens T}.

(** [guarded] sets and clears [busy_]. *)
Lemma guarded_cases {A} (m : M (CC T) A) (s : CC T) (Q : A -> CC T -> Prop) (R : Error -> CC T -> Prop) :
  wp m (s.1, set_busy true s.2) (fun a s' => Q a (s'.1, set_busy false s'.2))
    (fun e s' => R e (s'.1, set_busy false s'.2)) ->
  wp (guarded m) s Q R.
Proof. unfold wp, guarded. by destruct (m _). Qed.

Definition started (s : CC T) (request : Request) (body : bytes) (s' : CC T) : Prop :=
  exists head, request_text request body (co_limits (c_options s.2)) head /\
    wire s'.1 = wire s.1 ++ head ++ body /\
    in_order s'.2 /\ active_ s'.2 = true /\ busy_ s'.2 = false /\
    200 <= res_status (rs_response (c_parser s'.2)) /\
    reusable_ s'.2 = should_keep_alive request && negb (must_close (rs_response (c_parser s'.2))).

Definition start_failed (s : CC T) (request : Request) (body : bytes) (s' : CC T) : Prop :=
  in_order s'.2 /\ busy_ s'.2 = busy_ s.2 /\
  (untouched s s' \/
   dead s'.2 /\ (wire s'.1 = wire s.1 \/
     exists head n, request_text request body (co_limits (c_options s.2)) head /\
                    wire s'.1 = wire s.1 ++ take n (head ++ body))).

Lemma start_wp fuel request body io (s : CC T) :
  in_order s.2 -> 0 <= max_informational_responses (c_options s.2) -> enough fuel s ->
  wp (start fuel request body io) s
    (fun _ s' => started s request body s') (fun _ s' => start_failed s request body s').
Proof.
  intros Hord Hmax Hfuel. destruct s as [t c]. simpl in Hord, Hmax. unfold start.
  unfold wp, out_bind at 1, out_get. unfold out_bind at 1, require at 1. cbn [fst snd].
  destruct (busy_ c) eqn:Eb, (active_ c) eqn:Ea, (reusable_ c) eqn:Er; simpl;
    try (split_and!; [done|done|left; by split_and!]).
  unfold out_bind at 1, require at 1.
  destruct ((co_read_chunk (c_options c) =? 0)%nat || _ || _) eqn:Eopt; cbn [negb].
  { split_and!; [done|done|left; by split_and!]. }
  apply orb_false_iff in Eopt as [Eopt _]. apply orb_false_iff in Eopt as [Eopt _]. bool_facts.
  apply guarded_cases. unfold wp, out_bind at 1, on_client at 1, out_modify. cbn [fst snd].
  unfold out_bind at 1, out_get. set (c0 := set_io _ (set_busy true c)).
  unfold out_bind at 1. destruct (error_set (budget_error (t, c0))).
  { cbn. split_and!; [done|done|right]. by split; [|left]. }
  unfold out_ret at 1, serialized at 1.
  destruct (write_request_head request (len body) _ []) as [[] head|e head|] eqn:Eh.
  2:{ split_and!; [done|done|left; by split_and!]. }
  2:{ by apply write_request_head_total in Eh. }
  do 4 (unfold out_bind at 1, on_client at 1, out_modify; cbn [fst snd]).
  unfold out_bind at 1, out_get. set (c1 := set_eof false _).
  assert (ready fuel (t, c1)) as Hr.
  { constructor; [|done|done]. destruct (reset_quiet (t, c) (req_method request)).
    destruct (q_order0 Hord) as [Hok Hb]. by split. }
  pose proof (exchange_sent fuel (req_method request) head body (c_io c1) (t, c1) Hr Hmax) as Hs.
  unfold sent in Hs. cbn [snd] in Hs |- *.
  change (c_options c1) with (c_options c) in Hs.
  match type of Hs with match ?m with _ => _ end =>
    match goal with |- match ?m' with _ => _ end => change m' with m end;
    destruct m as [[] s'|e s'|] end; [| |done].
  - destruct Hs as (Hw & Ho & Hac & Hbu & Hst & Hre). exists head. by split_and!.
  - destruct Hs as (Ho & Hbu & Hd & n & Hw). split_and!; [done|done|right].
    split; [done|right]. by exists head, n.
Qed.

Lemma read_body_wp fuel (s : CC T) :
  ready fuel s ->
  wp (read_body fuel) s
    (fun piece s' => wire s'.1 = wire s.1 /\ in_order s'.2 /\ busy_ s'.2 = false /\
       (piece = [] /\ active_ s'.2 = false /\
          reusable_ s'.2 = reusable_ s.2 && (length (c_input s'.2) =? 0)%nat \/
        active_ s'.2 = true /\ reusable_ s'.2 = reusable_ s.2))
    (fun _ s' => wire s'.1 = wire s.1 /\ in_order s'.2 /\ busy_ s'.2 = busy_ s.2 /\
       (untouched s s' \/ dead s'.2)).
Proof.
  intros Hr. destruct s as [t c]. unfold read_body, wp, out_bind at 1, out_get, out_bind at 1, require.
  cbn [fst snd]. destruct (busy_ c) eqn:Eb, (active_ c) eqn:Ea; cbn [negb orb];
    try (split_and!; [done|apply Hr|done|left; by split_and!]).
  apply guarded_cases. unfold wp, out_bind at 1.
  assert (ready fuel (t, set_busy true c)) as Hr1 by (destruct Hr; by constructor).
  assert (proceeds (or_invalidate (next fuel)) (t, set_busy true c)) as Hn.
  { apply or_invalidate_proceeds. destruct Hr1. by apply next_reads. }
  unfold proceeds in Hn. cbn [fst snd].
  destruct (or_invalidate (next fuel) (t, set_busy true c)) as [step s1|e s1|]; [| |done].
  - destruct Hn. simpl in *. assert (in_order s1.2) as Ho by (apply q_order0, Hr).
    destruct step; unfold invalidate, out_bind, on_client, out_modify, out_ret, out_fail; cbn [fst snd];
      try (split_and!; [done|done|done|by right]).
    + split_and!; try done. right. simpl. by rewrite q_active0.
    + change (c_input (set_active false s1.2)) with (c_input s1.2).
      destruct (length (c_input s1.2) =? 0)%nat eqn:E; simpl; rewrite ?E; split_and!; try done;
        left; (split_and!; [done|done|]); by rewrite ?q_reusable0, ?andb_true_r, ?andb_false_r.
  - destruct Hn. simpl in *. split_and!; try done; [apply f_order0, Hr|by right].
Qed.
End StartProof.

(** [start] ends over any stream that delivers finitely many
    bytes, whatever its writes and reads do.  When it succeeds, exactly the
    serialized head and the body are on the wire, a final response head has been
    read, the exchange is active, and the connection counts as reusable only if
    both the request and the response allow it.  When it fails, either nothing
    has happened to the connection, or it is dead and at most a prefix of the
    request went out. *)
Theorem client_start_correct {T : Type} {S : BoundedStream T} {L : StreamLaws T} {F : FiniteStream T}
    {K : StopTokens T} (fuel : nat) (request : Request) (body : bytes) (io : IoOptions) (s : CC T)
    (Hord : in_order s.2) (Hmax : 0 <= max_informational_responses (c_options s.2))
    (Hfuel : enough fuel s) :
  match start fuel request body io s with
  | Returns _ s' => started s request body s'
  | Fails _ s' => start_failed s request body s'
  | OutOfFuel => False
  end.
Proof. exact (start_wp fuel request body io s Hord Hmax Hfuel). Qed.

#[export] Instance pipe_tokens : StopTokens Pipe := fun _ _ => false.

Definition get_root : Request :=
  mk_request Method.get (lit "/") Version.http_1_1 [(lit "Host", lit "a")] BodyKind.none 0.

Definition answering_pipe : Pipe :=
  mk_pipe [lit "HTTP/1.1 103 Early Hints" ++ CRLF ++ CRLF ++ lit "HTTP/1.1 200 O";
           lit "K" ++ CRLF ++ lit "Content-Length: 2" ++ CRLF ++ CRLF ++ lit "hi"] [] [] 0.

Definition small_options : ClientOptions := mk_client_options default_limits 16 64 16 0.

Definition new_client (t : Pipe) : CC Pipe := (t, make_client small_options).

Lemma make_client_in_order : in_order (make_client small_options).
Proof.
  split; [|apply Nat.le_0_l]. split; [apply default_limits_sane|right].
  split; [apply make_response_parser_inv, default_limits_sane|reflexivity].
Qed.

(** [read_body] ends, writes nothing, and keeps the input within
    [max_buffer_size] and the parser in order.  At the end of the body the
    exchange is over, and the connection stays reusable only if no byte beyond it
    has arrived; a failure leaves the connection dead, or untouched when the call
    was refused. *)
Theorem client_body_correct {T : Type} {S : BoundedStream T} {L : StreamLaws T} {F : FiniteStream T}
    {K : StopTokens T} (fuel : nat) (s : CC T) (Hready : ready fuel s) :
  match read_body fuel s with
  | Returns piece s' =>
      wire s'.1 = wire s.1 /\ in_order s'.2 /\ busy_ s'.2 = false /\
      (piece = [] /\ active_ s'.2 = false /\
         reusable_ s'.2 = reusable_ s.2 && (length (c_input s'.2) =? 0)%nat \/
       active_ s'.2 = true /\ reusable_ s'.2 = reusable_ s.2)
  | Fails _ s' =>
      wire s'.1 = wire s.1 /\ in_order s'.2 /\ busy_ s'.2 = busy_ s.2 /\ (untouched s s' \/ dead s'.2)
  | OutOfFuel => False
  end.
Proof. exact (read_body_wp fuel s Hready). Qed.

(** The client after [start], and after the first piece of the body. *)
Definition started_client : CC Pipe :=
  Eval vm_compute in match start 200 get_root [] no_io (new_client answering_pipe) with
                     | Returns _ s | Fails _ s => s
                     | OutOfFuel => new_client answering_pipe
                     end.
Definition body_client : CC Pipe :=
  Eval vm_compute in match read_body 200 started_client with
                     | Returns _ s | Fails _ s => s
                     | OutOfFuel => started_client
                     end.

Lemma started_client_eq :
  start 200 get_root [] no_io (new_client answering_pipe) = Returns tt started_client.
Proof. vm_compute. reflexivity. Qed.

Lemma wp_returns {E S A} (m : S -> Outcome E S A) s Q R a s' : wp m s Q R -> m s = Returns a s' -> Q a s'.
Proof. unfold wp. intros Hwp E1. by rewrite E1 in Hwp. Qed.

Lemma started_client_ready : ready 200 started_client.
Proof.
  assert (enough 200 (new_client answering_pipe)) as Hf by (unfold enough; vm_compute; lia).
  pose proof (start_wp (L := pipe_laws) (FiniteStream0 := pipe_finite) (StopTokens0 := pipe_tokens)
    200 get_root [] no_io (new_client answering_pipe) make_client_in_order ltac:(discriminate) Hf) as H.
  destruct (wp_returns _ _ _ _ _ _ H started_client_eq) as (_ & _ & _ & Hord & _).
  constructor; [exact Hord|discriminate|unfold enough; vm_compute; lia].
Qed.

Lemma client_start_correct_witness :
  start 200 get_root [] no_io (new_client answering_pipe) = Returns tt started_client /\
  started (new_client answering_pipe) get_root [] started_client /\ reusable_ started_client.2 = true.
Proof.
  assert (enough 200 (new_client answering_pipe)) as Hf by (unfold enough; vm_compute; lia).
  pose proof (client_start_correct (L := pipe_laws) (F := pipe_finite) (K := pipe_tokens)
    200 get_root [] no_io (new_client answering_pipe) make_client_in_order ltac:(discriminate) Hf) as H.
  rewrite started_client_eq in H |- *. split; [reflexivity|]. split; [exact H|reflexivity].
Defined.

Lemma client_body_correct_witness :
  read_body 200 started_client = Returns (lit "hi") body_client /\
  active_ body_client.2 = true /\ reusable_ body_client.2 = reusable_ started_client.2.
Proof.
  assert (read_body 200 started_client = Returns (lit "hi") body_client) as E
    by (vm_compute; reflexivity).
  split; [exact E|].
  pose proof (client_body_correct (L := pipe_laws) (F := pipe_finite) (K := pipe_tokens)
    200 started_client started_client_ready) as Hb.
  rewrite E in Hb. destruct Hb as (_ & _ & _ & [(Hp & _)|Hb]); [discriminate Hp|exact Hb].
Defined.

(** A connection on which an exchange failed is never used again:
    [start] and [read_body] refuse it with [invalid_argument], and neither the
    connection nor the stream is touched. *)
Theorem dead_is_final {T : Type} {S : BoundedStream T} {K : StopTokens T} (s : CC T) (Hdead : dead s.2) :
  client_reusable s.2 = false /\
  (forall fuel request body io,
     start fuel request body io s = Fails (make_error_code Errc.invalid_argument) s) /\
  (forall fuel, read_body fuel s = Fails (make_error_code Errc.invalid_argument) s).
Proof.
  destruct Hdead as [Ha Hr]. unfold client_reusable. rewrite Hr. split_and!; [done|..].
  - intros. unfold start, out_bind, out_get, require. by rewrite Hr, orb_true_r.
  - intros. unfold read_body, out_bind, out_get, require. by rewrite Ha, orb_true_r.
Qed.

(** A client whose peer answered with something else. *)
Definition failed_client : CC Pipe :=
  Eval vm_compute in
    match start 200 get_root [] no_io (new_client (mk_pipe [lit "HTTP/9"; CRLF] [] [] 0)) with
    | Returns _ s | Fails _ s => s
    | OutOfFuel => new_client answering_pipe
    end.

Lemma dead_is_final_witness :
  start 200 get_root [] no_io (new_client (mk_pipe [lit "HTTP/9"; CRLF] [] [] 0))
    = Fails (parse_error ParseError.malformed_start_line) failed_client /\
  start 200 get_root [] no_io failed_client = Fails (make_error_code Errc.invalid_argument) failed_client.
Proof.
  split; [vm_compute; reflexivity|]. apply dead_is_final. split; reflexivity.
Defined.
