(* ===== verification/LoopIo.v ===== *)
(** * LoopIo: the completion API on top of readiness
    (core/src/event_loop_posix.cpp, transport/src/tcp.cpp)

    [EventLoop::read], [write], [writev], [accept] and [connect] are loops that
    make a system call and wait for readiness when it would block.  [Kernel] is
    what they need of the system: its calls, the clock, and what happens to the
    loop while the calling coroutine is suspended.  The loops are followed for any
    number of rounds ([k_rounds]); nothing says that they end.  [Socket] hands them on as a
    stream, and keeps the contract the protocols are written against. *)

From stdpp Require Import gmap.
From S2P Require Import Prelude Errors Timers EventLoop Streams.

Local Open Scope Z_scope.
Local Open Scope mira_scope.

(** ** The system *)

(** The result of a system call: a value, or [-1] with [errno]. *)
Inductive Sys (A : Type) :=
| sys_ok (a : A)
| sys_err (errno : Z).
Arguments sys_ok {A} a.
Arguments sys_err {A} errno.

(** The error numbers the loops look at, with their Linux values. *)
Definition EINTR : Z := 4.
Definition EAGAIN : Z := 11.
Definition EWOULDBLOCK : Z := 11.
Definition ECONNABORTED : Z := 103.
Definition EISCONN : Z := 106.
Definition EALREADY : Z := 114.
Definition EINPROGRESS : Z := 115.

(** [last_os_error()] and [std::error_code{n, std::system_category()}] *)
Definition system_error (errno : Z) : Error := mk_error errno system_category.

(** What the loops call.  [k_arm] is the poller's answer to a change of registration,
    [k_suspend id] runs everything else until operation [id] is resumed.
    [k_rounds] is not of the system: it is how many rounds of a [for (;;)] a run
    of the model follows before it stops with [OutOfFuel].  Nothing is assumed of
    it, so that what is shown of a loop holds for every number of rounds. *)
Class Kernel (K : Type) := {
  k_read : Z -> nat -> K -> Sys bytes * K;
  k_write : Z -> bytes -> K -> Sys nat * K;
  k_writev : Z -> list bytes -> K -> Sys nat * K;
  k_accept : Z -> K -> Sys Z * K;
  k_connect : Z -> bytes -> K -> Sys unit * K;
  k_so_error : Z -> K -> Sys Z * K;
  k_nonblocking : Z -> K -> Sys bool * K;
  k_set_nonblocking : Z -> K -> Sys unit * K;
  k_close : Z -> K -> K;
  k_arm : Z -> K -> option Error;
  k_now : K -> Z;
  k_stopped : Z -> K -> bool;
  k_coroutine : K -> Z;
  k_suspend : OperationId -> Loop * K -> Result unit * (Loop * K);
  k_rounds : K -> nat;
}.

Section LoopIo.
Context {K : Type} `{Kernel K}.

(** The loop and the system around it. *)
Definition IO : Type := Loop * K.

(** A system call made by a method of the loop. *)
Definition syscall {A} (f : K -> Sys A * K) : M IO (Sys A) :=
  fun s => let '(r, k) := f s.2 in Returns r (s.1, k).

(** The options as the loop sees them now. *)
Definition options_now (o : IoOptions) (k : K) : OperationOptions :=
  mk_options (k_stopped (io_stop o) k) (io_deadline o).

(** [if (impl_->shutting_down()) co_return fail(Errc::cancelled);] *)
Definition check_running : M IO unit :=
  fun s => require (negb (shutting_down_ s.1)) (make_error_code Errc.cancelled) s.

(** [if (rejected = rejected_before_submit(options)) co_return fail(rejected);] *)
Definition check_options (o : IoOptions) : M IO unit :=
  fun s => match rejected_before_submit (options_now o s.2) (k_now s.2) with
           | Some e => Fails e s
           | None => Returns tt s
           end.

(** [wait_for(handle, writable, options)]: a submission that fails is reported
    without suspending. *)
Definition wait_for (fd : Z) (writable : bool) (o : IoOptions) : M IO unit :=
  check_running ;;;
  fun s =>
    let '(l, k) := s in
    match add_waiter fd writable (options_now o k) (k_coroutine k) (k_now k)
            (k_arm fd k) (k_arm fd k) l with
    | (Fail e, l) => Fails e (l, k)
    | (Ok id, l) => match k_suspend id (l, k) with
                    | (Ok _, s) => Returns tt s
                    | (Fail e, s) => Fails e s
                    end
    end.

(** Whether [errno] says that a call would block. *)
Definition would_block (errno : Z) : bool := (errno =? EAGAIN) || (errno =? EWOULDBLOCK).

(** What follows a failed call: go round after EINTR, report a real error, wait
    for readiness otherwise. *)
Definition again {A} (fd : Z) (writable : bool) (o : IoOptions) (errno : Z) : M IO (option A) :=
  if errno =? EINTR then out_ret None
  else if negb (would_block errno) then out_fail (system_error errno)
  else wait_for fd writable o ;;; out_ret None.

(** [for (;;)] around system calls, followed for [k_rounds] rounds after the first. *)
Definition retry {A} (round : M IO (option A)) : M IO A :=
  fun s => iter (S (k_rounds s.2)) round s.

(** [EventLoop::read] *)
Definition read_call (fd : Z) (n : nat) (o : IoOptions) : M IO (option bytes) :=
  let! r := syscall (k_read fd n) in
  match r with
  | sys_ok d =>
      require (negb (length d =? 0)%nat) (make_error_code Errc.eof) ;;; out_ret (Some d)
  | sys_err errno => again fd false o errno
  end.

Definition loop_read (fd : Z) (n : nat) (o : IoOptions) : M IO bytes :=
  check_running ;;; check_options o ;;;
  if (n =? 0)%nat then out_ret [] else retry (read_call fd n o).

(** [EventLoop::write] *)
Definition write_call (fd : Z) (source : bytes) (o : IoOptions) : M IO (option nat) :=
  let! r := syscall (k_write fd source) in
  match r with
  | sys_ok n => out_ret (Some n)
  | sys_err errno => again fd true o errno
  end.

Definition loop_write (fd : Z) (source : bytes) (o : IoOptions) : M IO nat :=
  check_running ;;; check_options o ;;;
  if (length source =? 0)%nat then out_ret 0%nat else retry (write_call fd source o).

(** The vector handed to the kernel: the first 16 pieces that are not empty. *)
Definition scatter (pieces : list bytes) : list bytes :=
  take 16 (List.filter (fun p => negb (length p =? 0)%nat) pieces).

(** [EventLoop::writev] *)
Definition writev_call (fd : Z) (vector : list bytes) (o : IoOptions) : M IO (option nat) :=
  let! r := syscall (k_writev fd vector) in
  match r with
  | sys_ok n => out_ret (Some n)
  | sys_err errno => again fd true o errno
  end.

Definition loop_writev (fd : Z) (pieces : list bytes) (o : IoOptions) : M IO nat :=
  check_running ;;; check_options o ;;;
  let vector := scatter pieces in
  if (foldl (fun n p => n + length p) 0 vector =? 0)%nat then out_ret 0%nat
  else retry (writev_call fd vector o).

(** [attach(fd)] *)
Definition attach (fd : Z) : M IO unit :=
  check_running ;;;
  require (negb (fd <? 0)) (make_error_code Errc.invalid_argument) ;;;
  let! flags := syscall (k_nonblocking fd) in
  match flags with
  | sys_err errno => out_fail (system_error errno)
  | sys_ok true => out_ret tt
  | sys_ok false =>
      let! set := syscall (k_set_nonblocking fd) in
      match set with
      | sys_err errno => out_fail (system_error errno)
      | sys_ok _ => out_ret tt
      end
  end.

(** [EventLoop::accept] *)
Definition accept_call (listener : Z) (o : IoOptions) : M IO (option Z) :=
  let! r := syscall (k_accept listener) in
  match r with
  | sys_ok accepted =>
      fun s => match attach accepted s with
               | Returns _ s => Returns (Some accepted) s
               | Fails e (l, k) => Fails e (l, k_close accepted k)
               | OutOfFuel => OutOfFuel
               end
  | sys_err errno =>
      if errno =? ECONNABORTED then out_ret None else again listener false o errno
  end.

Definition loop_accept (listener : Z) (o : IoOptions) : M IO Z :=
  check_running ;;; check_options o ;;; retry (accept_call listener o).

(** [EventLoop::connect] *)
Definition connect_call (fd : Z) (address : bytes) (o : IoOptions) : M IO (option unit) :=
  let! r := syscall (k_connect fd address) in
  match r with
  | sys_ok _ => out_ret (Some tt)
  | sys_err errno =>
      if errno =? EINTR then out_ret None
      else if errno =? EISCONN then out_ret (Some tt)
      else if negb ((errno =? EINPROGRESS) || (errno =? EALREADY) || (errno =? EWOULDBLOCK))
      then out_fail (system_error errno)
      else
        wait_for fd true o ;;;
        let! r := syscall (k_so_error fd) in
        match r with
        | sys_err errno => out_fail (system_error errno)
        | sys_ok pending =>
            require (pending =? 0) (system_error pending) ;;; out_ret (Some tt)
        end
  end.

Definition loop_connect (fd : Z) (address : bytes) (o : IoOptions) : M IO unit :=
  check_running ;;;
  require (negb (length address =? 0)%nat) (make_error_code Errc.invalid_argument) ;;;
  check_options o ;;; retry (connect_call fd address o).
End LoopIo.
Arguments IO K : clear implicits.

(** ** The socket as a stream *)

(** [tcp::Socket] on descriptor [fd]: whether it still has its loop and handle,
    and the world it lives in. *)
Record Socket (fd : Z) (K : Type) := mk_socket { sk_open : bool; sk_io : IO K }.
Arguments mk_socket {fd K} sk_open sk_io.
Arguments sk_open {fd K} s.
Arguments sk_io {fd K} s.

Section Socket.
Context {K : Type} `{Kernel K} {fd : Z}.

(** A method of the loop called through the socket. *)
Definition through {A} (m : M (IO K) A) (s : Socket fd K) : Result A * Socket fd K :=
  if negb (sk_open s) then (Fail (make_error_code Errc.invalid_argument), s)
  else match m (sk_io s) with
       | Returns a io => (Ok a, mk_socket true io)
       | Fails e io => (Fail e, mk_socket true io)
       | OutOfFuel => (Fail (make_error_code Errc.internal), s)
       end.

(** [Socket::read_some], [write_some], [writev_some] *)
Definition socket_read (n : nat) (o : IoOptions) : Socket fd K -> Result bytes * Socket fd K :=
  through (loop_read fd n o).
Definition socket_write (source : bytes) (o : IoOptions) : Socket fd K -> Result nat * Socket fd K :=
  through (loop_write fd source o).
Definition socket_writev (pieces : list bytes) (o : IoOptions) : Socket fd K -> Result nat * Socket fd K :=
  through (loop_writev fd pieces o).

#[export] Instance socket_stream : BoundedStream (Socket fd K) := {
  read_some := socket_read;
  write_some := socket_write;
  writev_some := Some socket_writev;
  clock := fun s => k_now (sk_io s).2;
}.
End Socket.

(** ** What the system promises *)

(** read(2), write(2) and writev(2) on [fd]: [k_wire] is what the kernel has
    accepted from it.  The coroutine has the descriptor to itself: nobody else
    writes to it while the coroutine is suspended. *)
Class DescriptorLaws (K : Type) `{Kernel K} (fd : Z) := {
  k_wire : K -> bytes;
  k_read_law : forall n k,
    k_wire (k_read fd n k).2 = k_wire k /\
    match k_read fd n k with
    | (sys_ok d, _) => (length d <= n)%nat
    | (sys_err _, _) => True
    end;
  k_write_law : forall d k,
    match k_write fd d k with
    | (sys_ok n, k') => (n <= length d)%nat /\ k_wire k' = k_wire k ++ take n d
    | (sys_err _, k') => k_wire k' = k_wire k
    end;
  k_writev_law : forall v k,
    match k_writev fd v k with
    | (sys_ok n, k') =>
        (n <= length (List.concat v))%nat /\ k_wire k' = k_wire k ++ take n (List.concat v)
    | (sys_err _, k') => k_wire k' = k_wire k
    end;
  k_suspend_law : forall id s, k_wire (k_suspend id s).2.2 = k_wire s.2;
}.

(** The answers after which a loop goes round. *)
Definition not_now (errno : Z) : Prop := errno = EINTR \/ would_block errno = true.

(** A call that was put off: interrupted, or it would have blocked and the wait
    for readiness that followed was answered with success. *)
Definition put_off {K A} `{Kernel K} (call : K -> Sys A * K) (fd : Z) (writable : bool) (o : IoOptions)
    (s s' : IO K) : Prop :=
  exists errno k, call s.2 = (sys_err errno, k) /\
    (errno = EINTR /\ s' = (s.1, k) \/
     would_block errno = true /\ wait_for fd writable o (s.1, k) = Returns tt s').

(** Every round that was followed ended in that way. *)
Definition put_off_throughout {K A} `{Kernel K} (call : K -> Sys A * K) (fd : Z) (writable : bool)
    (o : IoOptions) (s : IO K) : Prop :=
  exists s', nsteps (put_off call fd writable o) (S (k_rounds s.2)) s s'.

(** A run that follows its loops far enough: "not now" is said at most [k_rounds]
    times more.  Only what must end is shown under this assumption. *)
Class Patient (K : Type) `{Kernel K} (fd : Z) := {
  patient_read : forall n k errno k',
    k_read fd n k = (sys_err errno, k') -> not_now errno -> (k_rounds k' < k_rounds k)%nat;
  patient_write : forall d k errno k',
    k_write fd d k = (sys_err errno, k') -> not_now errno -> (k_rounds k' < k_rounds k)%nat;
  patient_writev : forall v k errno k',
    k_writev fd v k = (sys_err errno, k') -> not_now errno -> (k_rounds k' < k_rounds k)%nat;
  patient_suspend : forall id s, (k_rounds (k_suspend id s).2.2 <= k_rounds s.2)%nat;
}.

(** ** The loops *)

Section Retry.
Context {K X : Type} `{Kernel K} (obs : K -> X).

(** What is observed of the system does not change while a coroutine sleeps. *)
Definition sleeps_well : Prop := forall id (s : IO K), obs (k_suspend id s).2.2 = obs s.2.

Context (Hsleep : sleeps_well).

Lemma wait_for_calm fd writable o s :
  let calm (s' : IO K) := obs s'.2 = obs s.2 in
  wp (wait_for fd writable o) s (fun _ => calm) (fun _ => calm).
Proof.
  destruct s as [l k]. apply wp_bind, wp_require; intros _; [|done].
  unfold wp. destruct (add_waiter _ _ _ _ _ _ _ l) as [[id|e] l']; [|done].
  pose proof (Hsleep id (l', k)) as Hw. simpl in Hw.
  by destruct (k_suspend id (l', k)) as [[u|e] s'].
Qed.

(** After a failed call a loop goes round, or fails. *)
Lemma again_calm {A} fd writable o errno k0 s :
  obs s.2 = obs k0 ->
  wp (again (A := A) fd writable o errno) s
    (fun r s' => r = None /\ obs s'.2 = obs k0) (fun _ s' => obs s'.2 = obs k0).
Proof.
  intros Hw. unfold again. destruct (errno =? EINTR); [done|].
  destruct (would_block errno) eqn:Eb; simpl; [|done].
  apply wp_bind. eapply wp_mono; [apply wait_for_calm| |].
  - intros u s' Hs'. apply wp_ret. split; [done|]. exact (eq_trans Hs' Hw).
  - intros e s' Hs'. exact (eq_trans Hs' Hw).
Qed.

(** A loop of calls whose rounds either end it, or leave the observation alone. *)
Lemma retry_wlp {A} (round : M (IO K) (option A)) (Q : A -> X -> K -> Prop) s :
  (forall s, wp round s
     (fun r s' => match r with
                  | Some a => Q a (obs s.2) s'.2
                  | None => obs s'.2 = obs s.2
                  end)
     (fun _ s' => obs s'.2 = obs s.2)) ->
  wlp (retry round) s (fun a s' => Q a (obs s.2) s'.2) (fun _ s' => obs s'.2 = obs s.2).
Proof.
  intros Hround. unfold retry.
  apply (iter_wlp _ (fun s' => obs s'.2 = obs s.2)); [|done].
  intros s1 Hs1. apply wp_wlp. eapply wp_mono; [apply Hround| |].
  - intros [a|] s2; simpl; [by rewrite Hs1|]. by intros ->.
  - simpl. by intros _ s2 ->.
Qed.

(** The tail of a round: the call failed. *)
Lemma again_round {A} fd writable o errno k0 (Q : A -> IO K -> Prop) s :
  obs s.2 = obs k0 ->
  wp (again fd writable o errno) s
    (fun r s' => match r with Some a => Q a s' | None => obs s'.2 = obs k0 end)
    (fun _ s' => obs s'.2 = obs k0).
Proof.
  intros Hw. eapply wp_mono; [by apply (again_calm _ _ _ _ k0)| |done].
  by intros r s' (-> & ?).
Qed.
End Retry.

(** *** How often they go round *)

Section Rounds.
Context {K : Type} `{Kernel K} {fd : Z}.

Lemma wait_for_ends writable o (s : IO K) : wait_for fd writable o s <> OutOfFuel.
Proof.
  destruct s as [l k]. unfold wait_for, check_running, require, out_bind. cbn [fst].
  destruct (negb _); [|done]. destruct (add_waiter _ _ _ _ _ _ _ l) as [[id|e] l']; [|done].
  by destruct (k_suspend id (l', k)) as [[u|e] s'].
Qed.

(** One round of a loop around [call]: [finish] treats what the call returned. *)
Definition call_round {A B} (call : K -> Sys B * K) (finish : B -> M (IO K) (option A))
    (writable : bool) (o : IoOptions) : M (IO K) (option A) :=
  let! r := syscall call in
  match r with
  | sys_ok b => finish b
  | sys_err errno => again fd writable o errno
  end.

Lemma call_round_put_off {A B} (call : K -> Sys B * K) (finish : B -> M (IO K) (option A)) writable o s s' :
  (forall b s s', finish b s <> Returns None s') ->
  call_round call finish writable o s = Returns None s' -> put_off call fd writable o s s'.
Proof.
  intros Hfin. destruct s as [l k]. unfold call_round, syscall, out_bind, put_off. cbn [fst snd].
  destruct (call k) as [[b|errno] k1]; [by intros Hr%Hfin|]. unfold again.
  destruct (errno =? EINTR) eqn:E; bool_facts.
  { intros [= <-]. exists errno, k1. auto. }
  destruct (would_block errno) eqn:Eb; simpl; [|done]. unfold out_bind.
  destruct (wait_for fd writable o (l, k1)) as [[] s1|e s1|] eqn:Ew; [|done|done].
  intros [= <-]. exists errno, k1. auto.
Qed.

Lemma call_round_ends {A B} (call : K -> Sys B * K) (finish : B -> M (IO K) (option A)) writable o s :
  (forall b s, finish b s <> OutOfFuel) -> call_round call finish writable o s <> OutOfFuel.
Proof.
  intros Hfin. destruct s as [l k]. unfold call_round, syscall, out_bind. cbn [fst snd].
  destruct (call k) as [[b|errno] k1]; [apply Hfin|]. unfold again.
  destruct (errno =? EINTR); [done|]. destruct (negb _); [done|]. unfold out_bind.
  pose proof (wait_for_ends writable o (l, k1)) as Hw. by destruct (wait_for fd writable o (l, k1)).
Qed.

(** A loop that is still going has been put off in every round. *)
Lemma retry_put_off {A B} (call : K -> Sys B * K) (finish : B -> M (IO K) (option A)) writable o s :
  (forall b s, finish b s <> OutOfFuel) -> (forall b s s', finish b s <> Returns None s') ->
  retry (call_round call finish writable o) s = OutOfFuel -> put_off_throughout call fd writable o s.
Proof.
  intros Hout Hnone Hr. apply iter_goes_on in Hr as [s' Hs']; [|intros; by apply call_round_ends].
  exists s'. revert Hs'. generalize (S (k_rounds s.2)). intros n Hs'.
  induction Hs' as [|n s1 s2 s3 H12 _ IH]; econstructor; [|done].
  by eapply call_round_put_off.
Qed.

(** Being put off uses patience up, where there is an end to it. *)
Lemma put_off_patient `{!Patient K fd} {B} (call : K -> Sys B * K) writable o s s' :
  (forall k errno k', call k = (sys_err errno, k') -> not_now errno -> (k_rounds k' < k_rounds k)%nat) ->
  put_off call fd writable o s s' -> (k_rounds s'.2 < k_rounds s.2)%nat.
Proof.
  intros Hcall (errno & k & Hc & [[He ->]|[Hb Hw]]).
  { apply (Hcall _ _ _ Hc). by left. }
  assert (k_rounds s'.2 <= k_rounds k)%nat.
  { unfold wait_for, check_running, require, out_bind in Hw. cbn [fst] in Hw.
    destruct (negb _); [|done]. destruct (add_waiter _ _ _ _ _ _ _ _) as [[id|e] l']; [|done].
    pose proof (patient_suspend (fd := fd) id (l', k)) as Hp. simpl in Hp.
    destruct (k_suspend id (l', k)) as [[u|e] s1]; [|done]. injection Hw as ->. done. }
  pose proof (Hcall _ _ _ Hc (or_intror Hb)). lia.
Qed.

Lemma retry_ends `{!Patient K fd} {A B} (call : K -> Sys B * K) (finish : B -> M (IO K) (option A)) writable o s :
  (forall k errno k', call k = (sys_err errno, k') -> not_now errno -> (k_rounds k' < k_rounds k)%nat) ->
  (forall b s, finish b s <> OutOfFuel) -> (forall b s s', finish b s <> Returns None s') ->
  retry (call_round call finish writable o) s <> OutOfFuel.
Proof.
  intros Hcall Hout Hnone. apply (iter_ends _ (fun s => k_rounds s.2)); [|lia]. intros s1.
  pose proof (call_round_ends call finish writable o s1 Hout) as He.
  destruct (call_round call finish writable o s1) as [[a|] s2|e s2|] eqn:Er; try done.
  by eapply put_off_patient, call_round_put_off.
Qed.
End Rounds.

Section Laws.
Context {K : Type} `{Kernel K} {fd : Z} `{!DescriptorLaws K fd}.

(** The checks at the start of every method change nothing. *)
Lemma checks_wlp {A} o (m : M (IO K) A) s Q (R : Error -> IO K -> Prop) :
  (forall e, R e s) -> wlp m s Q R -> wlp (check_running ;;; check_options o ;;; m) s Q R.
Proof.
  intros HR Hm. apply wlp_bind, wlp_require; intros _; [|apply HR].
  apply wlp_bind. unfold wlp at 1, check_options.
  destruct (rejected_before_submit _ _); [apply HR|exact Hm].
Qed.

Lemma loop_read_wlp n o s :
  wlp (loop_read fd n o) s
    (fun d s' => k_wire s'.2 = k_wire s.2 /\ (length d <= n)%nat /\ (d = [] -> n = 0%nat))
    (fun _ s' => k_wire s'.2 = k_wire s.2).
Proof.
  apply checks_wlp; [done|]. destruct (n =? 0)%nat eqn:En; bool_facts.
  { apply wlp_ret. simpl. split_and!; [done|lia|done]. }
  apply (retry_wlp k_wire (read_call fd n o)
    (fun d w k' => k_wire k' = w /\ (length d <= n)%nat /\ (d = [] -> n = 0%nat))).
  intros [l k]. unfold read_call, syscall. apply wp_bind. unfold wp at 1.
  destruct (k_read_law n k) as [Hw Hr]. simpl. destruct (k_read fd n k) as [[d|errno] k']; simpl in Hw.
  - apply wp_bind, wp_require; intros Hd; bool_facts; [|done]. apply wp_ret.
    split_and!; [done|done|by intros ->].
  - by apply (again_round k_wire k_suspend_law).
Qed.

Lemma loop_write_wlp d o s :
  wlp (loop_write fd d o) s
    (fun n s' => (n <= length d)%nat /\ k_wire s'.2 = k_wire s.2 ++ take n d)
    (fun _ s' => k_wire s'.2 = k_wire s.2).
Proof.
  apply checks_wlp; [done|]. destruct (length d =? 0)%nat eqn:En; bool_facts.
  { apply wlp_ret. rewrite take_0, app_nil_r. split; [lia|done]. }
  apply (retry_wlp k_wire (write_call fd d o)
    (fun n w k' => (n <= length d)%nat /\ k_wire k' = w ++ take n d)).
  intros [l k]. unfold write_call, syscall. apply wp_bind. unfold wp at 1.
  pose proof (k_write_law d k) as Hr. simpl. destruct (k_write fd d k) as [[n|errno] k']; [done|].
  by apply (again_round k_wire k_suspend_law).
Qed.

(** What the vector leaves out comes after what it holds. *)
Lemma scatter_prefix pieces : exists rest, List.concat pieces = List.concat (scatter pieces) ++ rest.
Proof.
  rewrite <- concat_nonempty. unfold scatter.
  set (full := List.filter _ pieces). exists (List.concat (drop 16 full)).
  by rewrite <- concat_app, take_drop.
Qed.

Lemma loop_writev_wlp pieces o s :
  wlp (loop_writev fd pieces o) s
    (fun n s' => (n <= length (List.concat pieces))%nat /\
                 k_wire s'.2 = k_wire s.2 ++ take n (List.concat pieces))
    (fun _ s' => k_wire s'.2 = k_wire s.2).
Proof.
  apply checks_wlp; [done|]. cbv zeta. destruct (_ =? 0)%nat.
  { apply wlp_ret. rewrite take_0, app_nil_r. split; [lia|done]. }
  destruct (scatter_prefix pieces) as [rest Hrest].
  apply (retry_wlp k_wire (writev_call fd (scatter pieces) o) (fun n w k' =>
    (n <= length (List.concat pieces))%nat /\ k_wire k' = w ++ take n (List.concat pieces))).
  intros [l k]. unfold writev_call, syscall. apply wp_bind. unfold wp at 1.
  pose proof (k_writev_law (scatter pieces) k) as Hr. simpl.
  destruct (k_writev fd (scatter pieces) k) as [[n|errno] k'].
  - destruct Hr as [Hn Hw]. unfold wp, out_ret. simpl. rewrite Hrest, length_app, take_app_le by lia.
    split; [lia|done].
  - by apply (again_round k_wire k_suspend_law).
Qed.
(** *** When they are over *)

Lemma checks_out {A} o (m : M (IO K) A) s :
  (check_running ;;; check_options o ;;; m) s = OutOfFuel -> m s = OutOfFuel.
Proof.
  unfold check_running, check_options, out_bind, require. destruct (negb _); [|done].
  by destruct (rejected_before_submit _ _).
Qed.

(** What a call returned is never followed by another round. *)
Lemma read_finish (d : bytes) (s : IO K) :
  let finish : M (IO K) (option bytes) :=
    require (negb (length d =? 0)%nat) (make_error_code Errc.eof) ;;; out_ret (Some d) in
  finish s <> OutOfFuel /\ forall s', finish s <> Returns None s'.
Proof. unfold require, out_bind. by destruct (negb _). Qed.

Lemma loop_read_put_off n o s :
  loop_read fd n o s = OutOfFuel -> put_off_throughout (k_read fd n) fd false o s.
Proof.
  intros Hr%checks_out. destruct (n =? 0)%nat; [done|]. revert Hr.
  apply (retry_put_off (k_read fd n) _ false o); intros; apply read_finish.
Qed.

Lemma loop_write_put_off d o s :
  loop_write fd d o s = OutOfFuel -> put_off_throughout (k_write fd d) fd true o s.
Proof.
  intros Hr%checks_out. destruct (length d =? 0)%nat; [done|]. revert Hr.
  by apply (retry_put_off (k_write fd d) (fun n => out_ret (Some n)) true o).
Qed.

Lemma loop_writev_put_off pieces o s :
  loop_writev fd pieces o s = OutOfFuel -> put_off_throughout (k_writev fd (scatter pieces)) fd true o s.
Proof.
  intros Hr%checks_out. cbv zeta in Hr. destruct (_ =? 0)%nat; [done|]. revert Hr.
  by apply (retry_put_off (k_writev fd (scatter pieces)) (fun n => out_ret (Some n)) true o).
Qed.

Context `{!Patient K fd}.

Lemma loop_read_ends n o s : loop_read fd n o s <> OutOfFuel.
Proof.
  intros Hr%checks_out. destruct (n =? 0)%nat; [done|]. revert Hr.
  apply (retry_ends (k_read fd n) _ false o); [apply patient_read| |]; intros; apply read_finish.
Qed.

Lemma loop_write_ends d o s : loop_write fd d o s <> OutOfFuel.
Proof.
  intros Hr%checks_out. destruct (length d =? 0)%nat; [done|]. revert Hr.
  apply (retry_ends (k_write fd d) (fun n => out_ret (Some n)) true o); [apply patient_write|done|done].
Qed.

Lemma loop_writev_ends pieces o s : loop_writev fd pieces o s <> OutOfFuel.
Proof.
  intros Hr%checks_out. cbv zeta in Hr. destruct (_ =? 0)%nat; [done|]. revert Hr.
  apply (retry_ends (k_writev fd (scatter pieces)) (fun n => out_ret (Some n)) true o);
    [apply patient_writev|done|done].
Qed.
End Laws.

(** ** The socket keeps the contract of a stream *)

Section SocketLaws.
Context {K : Type} `{Kernel K} {fd : Z} `{!DescriptorLaws K fd} `{!Patient K fd}.

Definition socket_wire (s : Socket fd K) : bytes := k_wire (sk_io s).2.

(** A method that ends, through the socket. *)
Lemma through_wp {A} (m : M (IO K) A) (s : Socket fd K) (Q : A -> IO K -> Prop) (R : IO K -> Prop) :
  R (sk_io s) -> wp m (sk_io s) Q (fun _ => R) ->
  match through m s with
  | (Ok a, s') => Q a (sk_io s')
  | (Fail _, s') => R (sk_io s')
  end.
Proof.
  intros HR Hm. unfold through, wp in *. destruct (sk_open s); simpl; [|done].
  destruct (m (sk_io s)) as [a io|e io|]; done.
Qed.

Lemma socket_read_law n o (s : Socket fd K) :
  match socket_read n o s with
  | (Ok d, s') => socket_wire s' = socket_wire s /\ (length d <= n)%nat /\ (d = [] -> n = 0%nat)
  | (Fail _, s') => socket_wire s' = socket_wire s
  end.
Proof.
  apply (through_wp _ s
    (fun d io => k_wire io.2 = socket_wire s /\ (length d <= n)%nat /\ (d = [] -> n = 0%nat))
    (fun io => k_wire io.2 = socket_wire s)); [done|apply wlp_wp; [apply loop_read_wlp|apply loop_read_ends]].
Qed.

Lemma socket_write_law o : write_accepts socket_wire (fun d s => socket_write (fd := fd) d o s).
Proof.
  intros d s. pose proof (through_wp (loop_write fd d o) s
    (fun n io => (n <= length d)%nat /\ k_wire io.2 = socket_wire s ++ take n d)
    (fun io => k_wire io.2 = socket_wire s) eq_refl
    (wlp_wp _ _ _ _ (loop_write_wlp d o (sk_io s)) (loop_write_ends d o (sk_io s)))) as Hw.
  unfold socket_write. destruct (through _ s) as [[n|e] s']; [done|].
  exists 0%nat. rewrite take_0, app_nil_r. split; [lia|done].
Qed.

Lemma socket_writev_law o : writev_accepts socket_wire (fun p s => socket_writev (fd := fd) p o s).
Proof.
  intros pieces s. pose proof (through_wp (loop_writev fd pieces o) s
    (fun n io => (n <= length (List.concat pieces))%nat /\
                 k_wire io.2 = socket_wire s ++ take n (List.concat pieces))
    (fun io => k_wire io.2 = socket_wire s) eq_refl
    (wlp_wp _ _ _ _ (loop_writev_wlp pieces o (sk_io s)) (loop_writev_ends pieces o (sk_io s)))) as Hw.
  unfold socket_writev. destruct (through _ s) as [[n|e] s']; [done|].
  exists 0%nat. rewrite take_0, app_nil_r. split; [lia|done].
Qed.

#[export] Instance socket_laws : StreamLaws (Socket fd K).
Proof.
  refine {| wire := socket_wire |}.
  - intros n o s d s' Hr. pose proof (socket_read_law n o s) as Hl. simpl in Hr.
    rewrite Hr in Hl. apply Hl.
  - intros n o s. pose proof (socket_read_law n o s) as Hl. simpl.
    destruct (socket_read n o s) as [[d|e] s']; [apply Hl|done].
  - intros o. apply socket_write_law.
  - intros wv o [= <-]. apply socket_writev_law.
Defined.
End SocketLaws.

(** C38: the loops of the event loop turn a non-blocking descriptor into the
    stream protocols are written against.  For a coroutine that has the
    descriptor to itself, whatever the kernel answers: a [read] that returns has
    between 1 and [n] bytes, none only if none were asked for; a [write] or
    [writev] that returns reports the count of a prefix of what was offered, and
    exactly that prefix has been accepted by the kernel; after an error nothing
    has.  That they return is not claimed, since the kernel may interrupt a call
    or say "would block" for ever; but one that is still going after any number of
    rounds was put off in each of them: the call was interrupted, or it would have
    blocked and the wait for readiness was answered.  A socket that was closed
    refuses without a system call. *)
Theorem socket_keeps_contract {K : Type} {HK : Kernel K} {fd : Z} {HL : DescriptorLaws K fd}
    (o : IoOptions) (io : IO K) :
  (forall n, wlp (loop_read fd n o) io
     (fun d io' => k_wire io'.2 = k_wire io.2 /\ (length d <= n)%nat /\ (d = [] -> n = 0%nat))
     (fun _ io' => k_wire io'.2 = k_wire io.2)) /\
  (forall d, wlp (loop_write fd d o) io
     (fun n io' => (n <= length d)%nat /\ k_wire io'.2 = k_wire io.2 ++ take n d)
     (fun _ io' => k_wire io'.2 = k_wire io.2)) /\
  (forall pieces, wlp (loop_writev fd pieces o) io
     (fun n io' => (n <= length (List.concat pieces))%nat /\
                   k_wire io'.2 = k_wire io.2 ++ take n (List.concat pieces))
     (fun _ io' => k_wire io'.2 = k_wire io.2)) /\
  (forall n d pieces,
     (loop_read fd n o io = OutOfFuel -> put_off_throughout (k_read fd n) fd false o io) /\
     (loop_write fd d o io = OutOfFuel -> put_off_throughout (k_write fd d) fd true o io) /\
     (loop_writev fd pieces o io = OutOfFuel ->
      put_off_throughout (k_writev fd (scatter pieces)) fd true o io)) /\
  (forall n d pieces, let s := mk_socket (fd := fd) false io in
     let refused {A : Type} : Result A * Socket fd K := (Fail (make_error_code Errc.invalid_argument), s) in
     socket_read n o s = refused /\ socket_write d o s = refused /\ socket_writev pieces o s = refused).
Proof.
  split_and!; intros; [apply loop_read_wlp|apply loop_write_wlp|apply loop_writev_wlp| |].
  - split_and!; [apply loop_read_put_off|apply loop_write_put_off|apply loop_writev_put_off].
  - split_and!; reflexivity.
Qed.

(** ** Refusals *)

(** Why a method refuses before doing anything: shutdown, then a stop request,
    then a deadline that has passed. *)
Definition refusal {K} `{Kernel K} (o : IoOptions) (io : IO K) : option Errc.t :=
  if shutting_down_ io.1 || k_stopped (io_stop o) io.2 then Some Errc.cancelled
  else match io_deadline o with
       | Some d => if d <=? k_now io.2 then Some Errc.timed_out else None
       | None => None
       end.

Lemma checks_eq {K} `{Kernel K} {A} o (m : M (IO K) A) io :
  (check_running ;;; check_options o ;;; m) io =
  match refusal o io with Some e => Fails (make_error_code e) io | None => m io end.
Proof.
  unfold refusal, check_running, check_options, rejected_before_submit, out_bind, require, options_now.
  destruct (shutting_down_ io.1); simpl; [done|]. destruct (k_stopped _ _); simpl; [done|].
  destruct (io_deadline o) as [d|]; [|done]. by destruct (d <=? k_now io.2).
Qed.

(** An operation that must not start does nothing at all.  When the
    loop is shutting down, the token is stopped or the deadline has passed, every
    method fails with [cancelled] or [timed_out], in that precedence, without a
    system call and without a registration; that holds for empty transfers too,
    which otherwise return 0 without a call. *)
Theorem refused_before_any_call {K : Type} {HK : Kernel K} (fd : Z) (o : IoOptions) (io : IO K) :
  match refusal o io with
  | Some e =>
      (forall n, loop_read fd n o io = Fails (make_error_code e) io) /\
      (forall d, loop_write fd d o io = Fails (make_error_code e) io) /\
      (forall pieces, loop_writev fd pieces o io = Fails (make_error_code e) io) /\
      loop_accept fd o io = Fails (make_error_code e) io /\
      (forall address, address <> [] -> loop_connect fd address o io = Fails (make_error_code e) io)
  | None =>
      loop_read fd 0 o io = Returns [] io /\ loop_write fd [] o io = Returns 0%nat io /\
      (forall pieces, Forall (fun p => p = []) pieces -> loop_writev fd pieces o io = Returns 0%nat io)
  end.
Proof.
  assert (forall {A} (m : M (IO K) A), (check_running ;;; check_options o ;;; m) io =
    match refusal o io with Some e => Fails (make_error_code e) io | None => m io end) as Hc
    by (intros; apply checks_eq).
  destruct (refusal o io) as [e|].
  - split_and!; intros; try apply Hc. destruct address as [|b address]; [done|].
    specialize (Hc _ (retry (connect_call fd (b :: address) o))).
    unfold loop_connect, out_bind in *. by destruct (check_running io) as [[] io'|e' io'|].
  - split_and!; intros; etrans; try apply Hc; try done. unfold scatter.
    replace (List.filter _ pieces) with (@nil bytes); [done|].
    by induction H as [|p pieces -> _ IH].
Qed.

(** ** Accepting and connecting *)

(** accept(2), fcntl(2), close(2), connect(2) and SO_ERROR.  [k_handed] are the
    descriptors accept has handed to this coroutine and it has not closed;
    [k_established fd] says that the connection on [fd] exists: connect(2) has
    returned 0 or said EISCONN, or SO_ERROR reports no pending error once the
    descriptor has become writable ([k_writable]), as connect(2) documents. *)
Class ConnectionLaws (K : Type) `{Kernel K} := {
  k_handed : K -> list Z;
  k_is_nonblocking : Z -> K -> bool;
  k_established : Z -> K -> bool;
  k_writable : Z -> K -> bool;
  k_accept_law : forall l k,
    match k_accept l k with
    | (sys_ok a, k') => 0 <= a /\ k_handed k' = a :: k_handed k
    | (sys_err _, k') => k_handed k' = k_handed k
    end;
  k_getfl_law : forall fd k,
    k_handed (k_nonblocking fd k).2 = k_handed k /\
    match k_nonblocking fd k with
    | (sys_ok b, k') => k_is_nonblocking fd k' = b
    | (sys_err _, _) => True
    end;
  k_setfl_law : forall fd k,
    k_handed (k_set_nonblocking fd k).2 = k_handed k /\
    match k_set_nonblocking fd k with
    | (sys_ok _, k') => k_is_nonblocking fd k' = true
    | (sys_err _, _) => True
    end;
  k_close_law : forall fd l k, k_handed k = fd :: l -> k_handed (k_close fd k) = l;
  k_connect_law : forall fd address k,
    match k_connect fd address k with
    | (sys_ok _, k') => k_established fd k' = true
    | (sys_err errno, k') =>
        errno = EISCONN -> k_established fd k' = true
    end;
  k_so_error_law : forall fd k, k_writable fd k = true ->
    match k_so_error fd k with
    | (sys_ok 0, k') => k_established fd k' = true
    | _ => True
    end;
  k_sleep_law : sleeps_well k_handed;
  k_ready_law : forall id op l k s',
    operations_ l !! id = Some op -> op_writable op = true ->
    k_suspend id (l, k) = (Ok tt, s') -> k_writable (op_fd op) s'.2 = true;
}.

(** The operation a successful submission records. *)
Lemma add_waiter_operation fd writable o h now k k' l id l' :
  add_waiter fd writable o h now k k' l = (Ok id, l') ->
  exists op, operations_ l' !! id = Some op /\ op_fd op = fd /\ op_writable op = writable.
Proof.
  unfold add_waiter. destruct (fd <? 0), (shutting_down_ l), (rejected_before_submit o now); try done.
  unfold insert_waiter. destruct (negb _); [done|].
  destruct (match opt_deadline o with Some _ => _ | None => _ end) as [timers deadline].
  destruct (poller_arm _ _ _ _) as [[[]|e] r]; intros [= <- <-].
  eexists. simpl. rewrite lookup_insert_eq. done.
Qed.

Section Connections.
Context {K : Type} `{Kernel K} `{!ConnectionLaws K}.

Lemma attach_wp fd s :
  wp (attach fd) s
    (fun _ s' => k_handed s'.2 = k_handed s.2 /\ k_is_nonblocking fd s'.2 = true)
    (fun _ s' => k_handed s'.2 = k_handed s.2).
Proof.
  destruct s as [l k]. apply wp_bind, wp_require; intros _; [|done].
  apply wp_bind, wp_require; intros _; [|done]. apply wp_bind. unfold wp at 1, syscall.
  destruct (k_getfl_law fd k) as [Hh Hb]. simpl.
  destruct (k_nonblocking fd k) as [[[]|errno] k']; simpl in Hh; [done| |done].
  apply wp_bind. unfold wp at 1, syscall. destruct (k_setfl_law fd k') as [Hh' Hb']. simpl.
  destruct (k_set_nonblocking fd k') as [[[]|errno] k2]; simpl in Hh'; unfold wp, out_ret, out_fail; simpl.
  - split; [congruence|done].
  - congruence.
Qed.

Lemma accept_call_wp listener o s :
  wp (accept_call listener o) s
    (fun r s' => match r with
                 | Some a => k_handed s'.2 = a :: k_handed s.2 /\ k_is_nonblocking a s'.2 = true
                 | None => k_handed s'.2 = k_handed s.2
                 end)
    (fun _ s' => k_handed s'.2 = k_handed s.2).
Proof.
  destruct s as [l k]. unfold accept_call. apply wp_bind. unfold wp at 1, syscall.
  pose proof (k_accept_law listener k) as Ha. simpl. destruct (k_accept listener k) as [[a|errno] k'].
  - destruct Ha as [_ Ha]. pose proof (attach_wp a (l, k')) as Hat. unfold wp in *. simpl in Hat.
    destruct (attach a (l, k')) as [[] [l' k2]|e [l' k2]|]; simpl in *; [|by apply k_close_law; congruence|done].
    destruct Hat as [-> ?]. done.
  - destruct (errno =? ECONNABORTED); [done|]. by apply (again_round k_handed k_sleep_law).
Qed.

(** A wait for writability that succeeds has seen it. *)
Lemma wait_for_writable fd o s :
  wp (wait_for fd true o) s (fun _ s' => k_writable fd s'.2 = true) (fun _ _ => True).
Proof.
  destruct s as [l k]. apply wp_bind, wp_require; intros _; [|done]. unfold wp.
  destruct (add_waiter _ _ _ _ _ _ _ l) as [[id|e] l'] eqn:Ea; [|done].
  destruct (add_waiter_operation _ _ _ _ _ _ _ _ _ _ Ea) as (op & Hop & <- & Hw).
  destruct (k_suspend id (l', k)) as [[[]|e] s'] eqn:Es; [|done].
  by apply (k_ready_law id op l' k).
Qed.

Lemma connect_call_wp fd address o s :
  wp (connect_call fd address o) s
    (fun r s' => match r with
                 | Some _ => k_established fd s'.2 = true
                 | None => True
                 end)
    (fun _ _ => True).
Proof.
  destruct s as [l k]. unfold connect_call. apply wp_bind. unfold wp at 1, syscall.
  pose proof (k_connect_law fd address k) as Hc. simpl.
  destruct (k_connect fd address k) as [[[]|errno] k']; [done|].
  destruct (errno =? EINTR); [done|].
  destruct (errno =? EISCONN) eqn:E2; bool_facts; [by apply wp_ret, Hc|].
  destruct (negb _); [done|]. apply wp_bind. eapply wp_mono; [apply wait_for_writable| |done].
  intros _ [l2 k2] Hwr. apply wp_bind. unfold wp at 1, syscall. simpl.
  pose proof (k_so_error_law fd k2 Hwr) as Hs. destruct (k_so_error fd k2) as [[pending|e] k3]; [|done].
  apply wp_bind, wp_require; intros Hp; bool_facts; [|done]. subst pending. by apply wp_ret.
Qed.

Lemma loop_accept_handed listener o io :
  wlp (loop_accept listener o) io
    (fun a io' => k_handed io'.2 = a :: k_handed io.2 /\ k_is_nonblocking a io'.2 = true)
    (fun _ io' => k_handed io'.2 = k_handed io.2).
Proof.
  apply checks_wlp; [done|]. apply (retry_wlp k_handed (accept_call listener o)
    (fun a h k' => k_handed k' = a :: h /\ k_is_nonblocking a k' = true)).
  intros s. apply accept_call_wp.
Qed.

Lemma loop_connect_established fd address o io :
  wlp (loop_connect fd address o) io (fun _ io' => k_established fd io'.2 = true) (fun _ _ => True).
Proof.
  apply wlp_bind, wlp_require; intros _; [|done].
  apply wlp_bind, wlp_require; intros _; [|done]. apply wlp_bind. unfold wlp at 1, check_options.
  destruct (rejected_before_submit _ _); [done|].
  eapply wlp_mono; [apply (retry_wlp (fun _ => tt) (connect_call fd address o)
    (fun _ _ k' => k_established fd k' = true))|done|done].
  intros s. eapply wp_mono; [apply connect_call_wp| |done]. by intros [[]|] s' ?.
Qed.
End Connections.

(** [accept] and [connect] report what happened, whenever they return.  [accept] hands
    out one open, non-blocking descriptor, and when it fails, the descriptor it
    may have accepted on the way has been closed again, so none is leaked.
    [connect] succeeds only if the connection is established: becoming writable
    is not enough, a refused attempt is reported as a failure. *)
Theorem accept_connect_exact {K : Type} {HK : Kernel K} {HL : ConnectionLaws K}
    (fd : Z) (o : IoOptions) (io : IO K) :
  wlp (loop_accept fd o) io
    (fun a io' => k_handed io'.2 = a :: k_handed io.2 /\ k_is_nonblocking a io'.2 = true)
    (fun _ io' => k_handed io'.2 = k_handed io.2) /\
  forall address, wlp (loop_connect fd address o) io
    (fun _ io' => k_established fd io'.2 = true) (fun _ _ => True).
Proof.
  split.
  - apply loop_accept_handed.
  - intros address. apply loop_connect_established.
Qed.

(** ** A concrete host *)

(** What it will answer to the next calls before it gives in, the bytes that
    have arrived and the bytes it took, and its descriptors. *)
Record Host := mk_host {
  h_refusals : list Z;
  h_in : bytes;
  h_out : bytes;
  h_handed : list Z;
  h_nonblocking : list Z;
  h_connected : bool;
}.

(** A call: the next refusal, or [f] when there is none left. *)
Definition host_call {A} (f : Host -> A * Host) (h : Host) : Sys A * Host :=
  match h_refusals h with
  | errno :: rest =>
      (sys_err errno,
       mk_host rest (h_in h) (h_out h) (h_handed h) (h_nonblocking h)
         (h_connected h || (errno =? EISCONN)))
  | [] => let '(a, h) := f h in (sys_ok a, h)
  end.

Definition host_read (n : nat) (h : Host) : bytes * Host :=
  (take n (h_in h), mk_host (h_refusals h) (drop n (h_in h)) (h_out h) (h_handed h) (h_nonblocking h) (h_connected h)).
Definition host_write (d : bytes) (h : Host) : nat * Host :=
  (Nat.min 4 (length d), mk_host (h_refusals h) (h_in h) (h_out h ++ take (Nat.min 4 (length d)) d)
     (h_handed h) (h_nonblocking h) (h_connected h)).
Definition host_connect (h : Host) : Host :=
  mk_host (h_refusals h) (h_in h) (h_out h) (h_handed h) (h_nonblocking h) true.

#[export] Instance host_kernel : Kernel Host := {
  k_read := fun _ n => host_call (host_read n);
  k_write := fun _ d => host_call (host_write d);
  k_writev := fun _ v => host_call (host_write (List.concat v));
  k_accept := fun _ => host_call (fun h =>
    (7, mk_host (h_refusals h) (h_in h) (h_out h) (7 :: h_handed h) (h_nonblocking h) (h_connected h)));
  k_connect := fun _ _ => host_call (fun h => (tt, host_connect h));
  k_so_error := fun _ h => (sys_ok 0, host_connect h);
  k_nonblocking := fun fd h => (sys_ok (bool_decide (fd ∈ h_nonblocking h)), h);
  k_set_nonblocking := fun fd h =>
    (sys_ok tt, mk_host (h_refusals h) (h_in h) (h_out h) (h_handed h) (fd :: h_nonblocking h) (h_connected h));
  k_close := fun fd h =>
    mk_host (h_refusals h) (h_in h) (h_out h) (tail (h_handed h)) (h_nonblocking h) (h_connected h);
  k_arm := fun _ _ => None;
  k_now := fun _ => 0;
  k_stopped := fun _ _ => false;
  k_coroutine := fun _ => 1;
  k_suspend := fun id s => (Ok tt, ((finalize id None s.1).2, s.2));
  k_rounds := fun h => length (h_refusals h);
}.

#[export] Instance host_descriptor fd : DescriptorLaws Host fd.
Proof.
  refine {| k_wire := h_out |}; intros; simpl; unfold host_call.
  - destruct (h_refusals k); simpl; split; try done. rewrite length_take. lia.
  - destruct (h_refusals k); simpl; [|done]. split; [apply (Nat.le_min_r 4)|done].
  - destruct (h_refusals k); simpl; [|done]. split; [apply (Nat.le_min_r 4)|done].
  - done.
Defined.

#[export] Instance host_patient fd : Patient Host fd.
Proof.
  split; [..|done]; intros ? k errno k'; simpl; unfold host_call; destruct (h_refusals k);
    intros [= <- <-] _; simpl; lia.
Defined.

#[export] Instance host_connections : ConnectionLaws Host.
Proof.
  refine {| k_handed := h_handed; k_is_nonblocking := fun fd h => bool_decide (fd ∈ h_nonblocking h);
            k_established := fun _ => h_connected; k_writable := fun _ _ => true |};
    intros; unfold sleeps_well; simpl; unfold host_call; try done.
  - by destruct (h_refusals k).
  - split; [done|]. apply bool_decide_eq_true. set_solver.
  - by rewrite H.
  - destruct (h_refusals k); simpl; [done|]. intros ->. by rewrite Z.eqb_refl, orb_true_r.
Defined.

Definition busy_host : Host := mk_host [EINTR; EAGAIN] (lit "hello") [] [] [] false.

Lemma socket_keeps_contract_witness :
  (exists io', loop_read (K := Host) 5 3 no_io (new_loop, busy_host) = Returns (lit "hel") io') /\
  wlp (loop_write (K := Host) 5 (lit "goodbye") no_io) (new_loop, busy_host)
    (fun n io' => (n <= 7)%nat /\ h_out io'.2 = take n (lit "goodbye"))
    (fun _ io' => h_out io'.2 = []).
Proof.
  split; [eexists; vm_compute; reflexivity|].
  exact (proj1 (proj2 (socket_keeps_contract (K := Host) (fd := 5) no_io (new_loop, busy_host)))
           (lit "goodbye")).
Defined.

Lemma refused_before_any_call_witness :
  loop_read (K := Host) 5 3 (mk_io 0 (Some 0)) (new_loop, busy_host)
  = Fails (make_error_code Errc.timed_out) (new_loop, busy_host).
Proof.
  exact (proj1 (refused_before_any_call (K := Host) 5 (mk_io 0 (Some 0)) (new_loop, busy_host)) 3%nat).
Defined.

Lemma accept_connect_exact_witness :
  (exists io', loop_accept (K := Host) 3 no_io (new_loop, busy_host) = Returns 7 io') /\
  wlp (loop_accept (K := Host) 3 no_io) (new_loop, busy_host)
    (fun a io' => h_handed io'.2 = [a] /\ bool_decide (a ∈ h_nonblocking io'.2) = true)
    (fun _ io' => h_handed io'.2 = []).
Proof.
  split; [eexists; vm_compute; reflexivity|].
  exact (proj1 (accept_connect_exact (K := Host) 3 no_io (new_loop, busy_host))).
Defined.
