(* ===== verification/Endpoint.v ===== *)
(** * Endpoint: an IP address and port as the bytes of a socket address

    Models transport/src/endpoint.cpp and the inline members of
    transport/endpoint.hpp, in the layout of the Linux x86-64 ABI:
    [sockaddr_in] is 16 bytes (family, port, address, padding) and
    [sockaddr_in6] 28 (family, port, flow information, address, scope), with the
    family and the scope in host order (little endian) and port and address in
    network order.  The address texts are read and printed by the C library:
    [inet_pton], [inet_ntop] and [if_nametoindex] are the class [Inet], and what
    is documented of them is [InetLaws]. *)

From S2P Require Import Prelude Numerals Errors.

Local Open Scope Z_scope.

(** ** Integers in memory *)

(** The [n] bytes of an unsigned integer, least significant first. *)
Fixpoint le_bytes (n : nat) (z : Z) : bytes :=
  match n with
  | O => []
  | S n' => byte_of z :: le_bytes n' (z / 256)
  end.

Fixpoint le_value (l : bytes) : Z :=
  match l with
  | [] => 0
  | b :: l' => code b + 256 * le_value l'
  end.

(** [htons(port)] as it lies in memory, and [ntohs] of those two bytes. *)
Definition htons (port : Z) : bytes := rev (le_bytes 2 port).
Definition ntohs (l : bytes) : Z := le_value (rev l).

(** [std::memcpy(dst, src, src.size())] at the start of [dst]. *)
Definition memcpy (dst src : bytes) : bytes := src ++ drop (length src) dst.

Definition zeros (n : nat) : bytes := replicate n x00.

(** ** Socket addresses *)

(** [Family] *)
Inductive Family := ipv4 | ipv6.

#[export] Instance family_eq_dec : EqDecision Family.
Proof. solve_decision. Defined.

Definition AF_INET : Z := 2.
Definition AF_INET6 : Z := 10.
Definition SOCK_STREAM : Z := 1.
Definition SOCK_DGRAM : Z := 2.
Definition IPPROTO_TCP : Z := 6.
Definition IPPROTO_UDP : Z := 17.

(** [to_native_family] *)
Definition to_native_family (f : Family) : Z :=
  match f with ipv6 => AF_INET6 | ipv4 => AF_INET end.

(** [sockaddr_in] and [sockaddr_in6]; members in network order are kept as
    their bytes. *)
Record sockaddr_in := {
  sin_family : Z;
  sin_port : bytes;
  sin_addr : bytes;
  sin_zero : bytes
}.

Record sockaddr_in6 := {
  sin6_family : Z;
  sin6_port : bytes;
  sin6_flowinfo : bytes;
  sin6_addr : bytes;
  sin6_scope_id : Z
}.

(** The object representations, and reading a struct back from its bytes. *)
Definition in_bytes (a : sockaddr_in) : bytes :=
  le_bytes 2 (sin_family a) ++ sin_port a ++ sin_addr a ++ sin_zero a.

Definition in6_bytes (a : sockaddr_in6) : bytes :=
  le_bytes 2 (sin6_family a) ++ sin6_port a ++ sin6_flowinfo a ++ sin6_addr a ++
  le_bytes 4 (sin6_scope_id a).

Definition slice (i n : nat) (l : bytes) : bytes := take n (drop i l).

Definition read_in (l : bytes) : sockaddr_in := {|
  sin_family := le_value (slice 0 2 l);
  sin_port := slice 2 2 l;
  sin_addr := slice 4 4 l;
  sin_zero := slice 8 8 l
|}.

Definition read_in6 (l : bytes) : sockaddr_in6 := {|
  sin6_family := le_value (slice 0 2 l);
  sin6_port := slice 2 2 l;
  sin6_flowinfo := slice 4 4 l;
  sin6_addr := slice 8 16 l;
  sin6_scope_id := le_value (slice 24 4 l)
|}.

Definition sizeof_sockaddr : nat := 16.
Definition sizeof_in : nat := 16.
Definition sizeof_in6 : nat := 28.

(** ** Endpoints *)

(** [Endpoint]: [storage_], [length_], [family_]. *)
Record Endpoint := mk_endpoint {
  storage : bytes;
  length_ : nat;
  family : Family
}.

#[export] Instance endpoint_eq_dec : EqDecision Endpoint.
Proof. solve_decision. Defined.

(** [Endpoint()] *)
Definition unset : Endpoint :=
  {| storage := zeros 128; length_ := 0; family := ipv4 |}.

(** The three assignments with which every factory fills an endpoint in. *)
Definition set_in (a : sockaddr_in) : Endpoint :=
  {| storage := memcpy (storage unset) (in_bytes a); length_ := sizeof_in; family := ipv4 |}.

Definition set_in6 (a : sockaddr_in6) : Endpoint :=
  {| storage := memcpy (storage unset) (in6_bytes a); length_ := sizeof_in6; family := ipv6 |}.

(** [Endpoint::address_bytes] *)
Definition address_bytes (e : Endpoint) : bytes := take (length_ e) (storage e).

(** [operator==] *)
Definition endpoint_eqb (a b : Endpoint) : bool :=
  bool_decide (family a = family b) && (length_ a =? length_ b)%nat &&
  ((length_ a =? 0)%nat || bytes_eqb (take (length_ a) (storage a)) (take (length_ a) (storage b))).

Definition INADDR_LOOPBACK : bytes := [x7f; x00; x00; x01].
Definition in6addr_loopback : bytes := zeros 15 ++ [x01].

(** [Endpoint::loopback] *)
Definition endpoint_loopback (port : Z) (f : Family) : Endpoint :=
  match f with
  | ipv6 => set_in6 {| sin6_family := AF_INET6; sin6_port := htons port;
                       sin6_flowinfo := zeros 4; sin6_addr := in6addr_loopback;
                       sin6_scope_id := 0 |}
  | ipv4 => set_in {| sin_family := AF_INET; sin_port := htons port;
                      sin_addr := INADDR_LOOPBACK; sin_zero := zeros 8 |}
  end.

(** [Endpoint::any] *)
Definition endpoint_any (port : Z) (f : Family) : Endpoint :=
  match f with
  | ipv6 => set_in6 {| sin6_family := AF_INET6; sin6_port := htons port;
                       sin6_flowinfo := zeros 4; sin6_addr := zeros 16;
                       sin6_scope_id := 0 |}
  | ipv4 => set_in {| sin_family := AF_INET; sin_port := htons port;
                      sin_addr := zeros 4; sin_zero := zeros 8 |}
  end.

(** [Endpoint::from_bytes] *)
Definition endpoint_from_bytes (address : bytes) : Result Endpoint :=
  if (length address <? sizeof_sockaddr)%nat || (128 <? length address)%nat
  then fail Errc.invalid_argument
  else
    let sa_family := le_value (take 2 address) in
    let filled (n : nat) (f : Family) :=
      Ok {| storage := memcpy (storage unset) (take n address); length_ := n; family := f |} in
    if sa_family =? AF_INET6 then
      if (length address <? sizeof_in6)%nat then fail Errc.invalid_argument
      else filled sizeof_in6 ipv6
    else if sa_family =? AF_INET then
      if (length address <? sizeof_in)%nat then fail Errc.invalid_argument
      else filled sizeof_in ipv4
    else fail Errc.not_supported.

(** [Endpoint::port] *)
Definition endpoint_port (e : Endpoint) : Z :=
  match family e with
  | ipv6 => ntohs (sin6_port (read_in6 (storage e)))
  | ipv4 => ntohs (sin_port (read_in (storage e)))
  end.

(** [Endpoint::native_family] *)
Definition native_family (e : Endpoint) : Z := to_native_family (family e).

(** The address functions of the C library: text to network-order bytes
    ([None] when it does not return 1), bytes to text in a buffer of the given
    size ([None] for a null pointer), interface name to index (0 for none). *)
Class Inet := {
  inet_pton : Family -> bytes -> option bytes;
  inet_ntop : Family -> bytes -> Z -> option bytes;
  if_nametoindex : bytes -> Z
}.

Definition INET6_ADDRSTRLEN : Z := 46.
Definition PERCENT : byte := x25.

(** [std::from_chars(first, last, std::uint32_t&)] *)
Definition from_chars_u32 (text : bytes) : FromChars :=
  match from_chars text 10 with
  | fc_value v rest => if v <? 2 ^ 32 then fc_value v rest else fc_out_of_range
  | other => other
  end.

(** [scope.find_first_not_of("0123456789") == npos] *)
Definition all_digits (text : bytes) : bool :=
  forallb (fun b => (48 <=? code b) && (code b <=? 57)) text.

Section WithInet.
Context `{Inet}.

(** The scope after the percent sign of an IPv6 literal (POSIX branch). *)
Definition parse_scope (scope : bytes) : Result Z :=
  match scope with
  | [] => fail Errc.invalid_argument
  | _ =>
      let by_name :=
        if all_digits scope then fail Errc.invalid_argument
        else let index := if_nametoindex scope in
             if index =? 0 then fail Errc.invalid_argument else Ok index in
      match from_chars_u32 scope with
      | fc_value index [] => Ok index
      | _ => by_name
      end
  end.

(** The text handed to [inet_pton] and the scope: the literal up to the first
    percent sign, and what [parse_scope] makes of the rest. *)
Definition split_scope (text : bytes) : Result (bytes * Z) :=
  match find PERCENT text with
  | None => Ok (text, 0)
  | Some i =>
      match parse_scope (drop (S i) text) with
      | Ok index => Ok (take i text, index)
      | Fail e => Fail e
      end
  end.

(** [Endpoint::parse] *)
Definition parse_endpoint (address : bytes) (port : Z) : Result Endpoint :=
  if bool_decide (address = []) || bool_decide (is_Some (find x00 address))
  then fail Errc.invalid_argument
  else if INET6_ADDRSTRLEN + 32 <=? len address then fail Errc.invalid_argument
  else match find COLON address with
  | Some _ =>
      match split_scope address with
      | Fail e => Fail e
      | Ok (text, scope) =>
          match inet_pton ipv6 text with
          | None => fail Errc.invalid_argument
          | Some a => Ok (set_in6 {| sin6_family := AF_INET6; sin6_port := htons port;
                                     sin6_flowinfo := zeros 4; sin6_addr := a;
                                     sin6_scope_id := scope |})
          end
      end
  | None =>
      match inet_pton ipv4 address with
      | None => fail Errc.invalid_argument
      | Some a => Ok (set_in {| sin_family := AF_INET; sin_port := htons port;
                                sin_addr := a; sin_zero := zeros 8 |})
      end
  end.

(** [Endpoint::address] *)
Definition endpoint_address (e : Endpoint) : bytes :=
  match family e with
  | ipv6 =>
      let v6 := read_in6 (storage e) in
      match inet_ntop ipv6 (sin6_addr v6) INET6_ADDRSTRLEN with
      | None => []
      | Some text =>
          if sin6_scope_id v6 =? 0 then text
          else text ++ [PERCENT] ++ to_decimal (sin6_scope_id v6)
      end
  | ipv4 =>
      default [] (inet_ntop ipv4 (sin_addr (read_in (storage e))) INET6_ADDRSTRLEN)
  end.

(** [Endpoint::to_string] *)
Definition endpoint_to_string (e : Endpoint) : bytes :=
  match family e with
  | ipv6 => lit "[" ++ endpoint_address e ++ lit "]:" ++ to_decimal (endpoint_port e)
  | ipv4 => endpoint_address e ++ lit ":" ++ to_decimal (endpoint_port e)
  end.
End WithInet.

(** The resolver's [same_endpoint]: address, port and scope, whatever the flow
    information and the padding hold. *)
Definition same_endpoint (a b : Endpoint) : bool :=
  if negb (bool_decide (family a = family b)) || negb (endpoint_port a =? endpoint_port b)
  then false
  else match family a with
  | ipv4 => bytes_eqb (sin_addr (read_in (storage a))) (sin_addr (read_in (storage b)))
  | ipv6 =>
      (sin6_scope_id (read_in6 (storage a)) =? sin6_scope_id (read_in6 (storage b))) &&
      bytes_eqb (sin6_addr (read_in6 (storage a))) (sin6_addr (read_in6 (storage b)))
  end.

(** ** Facts: integers in memory *)

Lemma length_le_bytes n z : length (le_bytes n z) = n.
Proof. revert z; induction n as [|n IH]; intros z; simpl; [done|]. by rewrite IH. Qed.

Lemma le_value_bytes n z : 0 <= z < 256 ^ Z.of_nat n -> le_value (le_bytes n z) = z.
Proof.
  revert z; induction n as [|n IH]; intros z Hz; [simpl in *; lia|].
  rewrite Nat2Z.inj_succ, Z.pow_succ_r in Hz by lia.
  cbn [le_bytes le_value]. rewrite code_byte_of, IH.
  - pose proof (Z.div_mod z 256). lia.
  - split; [apply Z.div_pos; lia|]. apply Z.div_lt_upper_bound; lia.
Qed.

Lemma le_bytes_value l : le_bytes (length l) (le_value l) = l.
Proof.
  induction l as [|b l IH]; [done|]. cbn [length le_value le_bytes].
  pose proof (code_range b) as Hb. rewrite (Z.mul_comm 256), Z.div_add by lia.
  rewrite (Z.div_small (code b)) by lia. rewrite Z.add_0_l, IH. f_equal.
  rewrite <- (byte_of_code b) at 2. unfold byte_of. by rewrite Z.mod_add by lia.
Qed.

Lemma le_value_range l : 0 <= le_value l < 256 ^ Z.of_nat (length l).
Proof.
  induction l as [|b l IH]; [simpl; lia|].
  cbn [length le_value]. rewrite Nat2Z.inj_succ, Z.pow_succ_r by lia.
  pose proof (code_range b). lia.
Qed.

Lemma length_htons p : length (htons p) = 2%nat.
Proof. unfold htons. by rewrite length_rev, length_le_bytes. Qed.

Lemma ntohs_htons p : 0 <= p < 65536 -> ntohs (htons p) = p.
Proof. intros. unfold ntohs, htons. rewrite rev_involutive. by apply le_value_bytes. Qed.

Lemma htons_ntohs l : length l = 2%nat -> htons (ntohs l) = l.
Proof.
  intros Hl. unfold ntohs, htons. replace 2%nat with (length (rev l)) by (by rewrite length_rev).
  by rewrite le_bytes_value, rev_involutive.
Qed.

Lemma ntohs_range l : length l = 2%nat -> 0 <= ntohs l < 65536.
Proof. intros Hl. pose proof (le_value_range (rev l)) as Hr. by rewrite length_rev, Hl in Hr. Qed.

(** ** Facts: socket addresses and their bytes *)

Definition good_in (a : sockaddr_in) : Prop :=
  sin_family a = AF_INET /\ length (sin_port a) = 2%nat /\ length (sin_addr a) = 4%nat /\
  length (sin_zero a) = 8%nat.

Definition good_in6 (a : sockaddr_in6) : Prop :=
  sin6_family a = AF_INET6 /\ length (sin6_port a) = 2%nat /\
  length (sin6_flowinfo a) = 4%nat /\ length (sin6_addr a) = 16%nat /\
  0 <= sin6_scope_id a < 2 ^ 32.

(** The endpoints the factories make. *)
Inductive valid : Endpoint -> Prop :=
| valid_in a : good_in a -> valid (set_in a)
| valid_in6 a : good_in6 a -> valid (set_in6 a).

Lemma length_in_bytes a : good_in a -> length (in_bytes a) = sizeof_in.
Proof.
  intros (_ & Hp & Ha & Hz). unfold in_bytes.
  by rewrite !length_app, length_le_bytes, Hp, Ha, Hz.
Qed.

Lemma length_in6_bytes a : good_in6 a -> length (in6_bytes a) = sizeof_in6.
Proof.
  intros (_ & Hp & Hf & Ha & _). unfold in6_bytes.
  by rewrite !length_app, !length_le_bytes, Hp, Hf, Ha.
Qed.

(** A field of a struct is the slice at its offset. *)
Lemma slice_app_skip i n l1 l2 : i = length l1 -> slice i n (l1 ++ l2) = take n l2.
Proof. intros ->. unfold slice. by rewrite drop_app_length. Qed.

Lemma slice_field i n l1 l2 l3 :
  length l1 = i -> length l2 = n -> slice i n (l1 ++ l2 ++ l3) = l2.
Proof. intros <- <-. rewrite slice_app_skip by done. by rewrite take_app_length. Qed.

Lemma slice_first n l1 l2 : length l1 = n -> slice 0 n (l1 ++ l2) = l1.
Proof. apply (slice_field 0 n []). done. Qed.

Lemma slice_cut l i n j : j = (i + n)%nat -> slice i n l ++ drop j l = drop i l.
Proof. intros ->. unfold slice. rewrite <- drop_drop. by rewrite take_drop. Qed.

Lemma read_in_bytes a rest : good_in a -> read_in (in_bytes a ++ rest) = a.
Proof.
  intros (Hf & Hp & Ha & Hz). destruct a as [f p ad z]; simpl in Hf, Hp, Ha, Hz. subst f.
  unfold read_in, in_bytes; cbn [sin_family sin_port sin_addr sin_zero].
  pose proof (length_le_bytes 2 AF_INET) as Hl.
  pose proof (le_value_bytes 2 AF_INET ltac:(unfold AF_INET; lia)) as Hv.
  revert Hl Hv. generalize (le_bytes 2 AF_INET). intros fb Hl Hv. rewrite <- !app_assoc.
  f_equal.
  - by rewrite slice_first.
  - by apply (slice_field 2 2).
  - rewrite (app_assoc fb), (slice_field 4 4); [done| |done]. by rewrite length_app, Hl, Hp.
  - rewrite (app_assoc fb), (app_assoc _ ad), (slice_field 8 8); [done| |done].
    by rewrite !length_app, Hl, Hp, Ha.
Qed.

Lemma read_in6_bytes a rest : good_in6 a -> read_in6 (in6_bytes a ++ rest) = a.
Proof.
  intros (Hf & Hp & Hi & Ha & Hs). destruct a as [f p i ad s]; simpl in Hf, Hp, Hi, Ha, Hs. subst f.
  unfold read_in6, in6_bytes;
    cbn [sin6_family sin6_port sin6_flowinfo sin6_addr sin6_scope_id].
  pose proof (length_le_bytes 2 AF_INET6) as Hl.
  pose proof (le_value_bytes 2 AF_INET6 ltac:(unfold AF_INET6; lia)) as Hv.
  pose proof (length_le_bytes 4 s) as Hls. pose proof (le_value_bytes 4 s ltac:(lia)) as Hvs.
  revert Hl Hv Hls Hvs. generalize (le_bytes 2 AF_INET6), (le_bytes 4 s).
  intros fb sb Hl Hv Hls Hvs. rewrite <- !app_assoc. f_equal.
  - by rewrite slice_first.
  - by apply (slice_field 2 2).
  - rewrite (app_assoc fb), (slice_field 4 4); [done| |done]. by rewrite length_app, Hl, Hp.
  - rewrite (app_assoc fb), (app_assoc _ i), (slice_field 8 16); [done| |done].
    by rewrite !length_app, Hl, Hp, Hi.
  - rewrite (app_assoc fb), (app_assoc _ i), (app_assoc _ ad), (slice_field 24 4); [done| |done].
    by rewrite !length_app, Hl, Hp, Hi, Ha.
Qed.

(** The last field: what remains of a struct of that size. *)
Lemma slice_last i n l : length l = (i + n)%nat -> slice i n l = drop i l.
Proof. intros Hl. unfold slice. apply take_ge. rewrite length_drop. lia. Qed.

Lemma length_slice i n l : (i + n <= length l)%nat -> length (slice i n l) = n.
Proof. intros. unfold slice. rewrite length_take, length_drop. lia. Qed.

Lemma le_bytes_slice i n l :
  (i + n <= length l)%nat -> le_bytes n (le_value (slice i n l)) = slice i n l.
Proof. intros Hl. rewrite <- (length_slice i n l Hl) at 1. apply le_bytes_value. Qed.

(** Any 16 bytes that start with the family are a [sockaddr_in], any 28 a
    [sockaddr_in6]. *)
Lemma read_in_good l :
  length l = sizeof_in -> le_value (take 2 l) = AF_INET ->
  good_in (read_in l) /\ in_bytes (read_in l) = l.
Proof.
  unfold sizeof_in. intros Hl Hf. split.
  - unfold good_in, read_in; simpl. rewrite !length_slice by lia. by unfold slice; rewrite drop_0.
  - unfold in_bytes, read_in; cbn [sin_family sin_port sin_addr sin_zero].
    rewrite le_bytes_slice by lia. rewrite (slice_last 8 8) by lia.
    by rewrite (slice_cut l 4 4), (slice_cut l 2 2), (slice_cut l 0 2) by done.
Qed.

Lemma read_in6_good l :
  length l = sizeof_in6 -> le_value (take 2 l) = AF_INET6 ->
  good_in6 (read_in6 l) /\ in6_bytes (read_in6 l) = l.
Proof.
  unfold sizeof_in6. intros Hl Hf. split.
  - unfold good_in6, read_in6; cbn [sin6_family sin6_port sin6_flowinfo sin6_addr sin6_scope_id].
    rewrite !length_slice by lia. pose proof (le_value_range (slice 24 4 l)) as Hr.
    rewrite length_slice in Hr by lia. by unfold slice at 1; rewrite drop_0.
  - unfold in6_bytes, read_in6;
      cbn [sin6_family sin6_port sin6_flowinfo sin6_addr sin6_scope_id].
    rewrite !le_bytes_slice by lia. rewrite (slice_last 24 4) by lia.
    by rewrite (slice_cut l 8 16), (slice_cut l 4 4), (slice_cut l 2 2), (slice_cut l 0 2) by done.
Qed.

(** ** Facts: endpoints *)

Lemma read_set_in a : good_in a -> read_in (storage (set_in a)) = a.
Proof. intros Ha. by apply read_in_bytes. Qed.

Lemma read_set_in6 a : good_in6 a -> read_in6 (storage (set_in6 a)) = a.
Proof. intros Ha. by apply read_in6_bytes. Qed.

Lemma port_set_in a : good_in a -> endpoint_port (set_in a) = ntohs (sin_port a).
Proof. intros Ha. unfold endpoint_port. cbn [family set_in]. by rewrite read_set_in. Qed.

Lemma port_set_in6 a : good_in6 a -> endpoint_port (set_in6 a) = ntohs (sin6_port a).
Proof. intros Ha. unfold endpoint_port. cbn [family set_in6]. by rewrite read_set_in6. Qed.

Lemma bytes_set_in a : good_in a -> address_bytes (set_in a) = in_bytes a.
Proof.
  intros Ha. unfold address_bytes, set_in, memcpy; cbn [length_ storage].
  rewrite <- (length_in_bytes a Ha). apply take_app_length.
Qed.

Lemma bytes_set_in6 a : good_in6 a -> address_bytes (set_in6 a) = in6_bytes a.
Proof.
  intros Ha. unfold address_bytes, set_in6, memcpy; cbn [length_ storage].
  rewrite <- (length_in6_bytes a Ha). apply take_app_length.
Qed.

Lemma port_range e : valid e -> 0 <= endpoint_port e < 65536.
Proof.
  intros [a Ha|a Ha].
  - rewrite port_set_in by done. apply ntohs_range, Ha.
  - rewrite port_set_in6 by done. apply ntohs_range, Ha.
Qed.

Lemma take_head n z l : 0 <= z < 256 ^ Z.of_nat n -> le_value (take n (le_bytes n z ++ l)) = z.
Proof.
  intros Hz. rewrite take_app_length' by (by rewrite length_le_bytes). by apply le_value_bytes.
Qed.

Lemma bytes_family e : valid e -> le_value (take 2 (address_bytes e)) = native_family e.
Proof.
  intros [a Ha|a Ha].
  - rewrite bytes_set_in by done. destruct Ha as (Hf & _). unfold in_bytes. rewrite Hf.
    by apply take_head.
  - rewrite bytes_set_in6 by done. destruct Ha as (Hf & _). unfold in6_bytes. rewrite Hf.
    by apply take_head.
Qed.

(** The bytes of a whole endpoint rebuild it. *)
Lemma from_own_bytes e : valid e -> endpoint_from_bytes (address_bytes e) = Ok e.
Proof.
  intros He. pose proof (bytes_family e He) as Hf. unfold endpoint_from_bytes. rewrite Hf.
  destruct He as [a Ha|a Ha].
  - rewrite bytes_set_in, length_in_bytes by done.
    by rewrite (take_ge (in_bytes a) sizeof_in) by (by rewrite length_in_bytes).
  - rewrite bytes_set_in6, length_in6_bytes by done.
    by rewrite (take_ge (in6_bytes a) sizeof_in6) by (by rewrite length_in6_bytes).
Qed.

Lemma take2_take n (l : bytes) : (2 <= n)%nat -> take 2 (take n l) = take 2 l.
Proof. intros. by rewrite take_take, Nat.min_l. Qed.

(** Bytes that start with a family and are long enough make an endpoint. *)
Lemma filled_in (l : bytes) :
  (sizeof_in <= length l)%nat -> le_value (take 2 l) = AF_INET ->
  {| storage := memcpy (storage unset) (take sizeof_in l); length_ := sizeof_in; family := ipv4 |}
    = set_in (read_in (take sizeof_in l)) /\
  good_in (read_in (take sizeof_in l)) /\
  in_bytes (read_in (take sizeof_in l)) = take sizeof_in l.
Proof.
  intros Hl Hf. destruct (read_in_good (take sizeof_in l)) as [Hg Hb].
  - rewrite length_take. lia.
  - rewrite take2_take; [done|unfold sizeof_in; lia].
  - split; [|done]. unfold set_in. by rewrite Hb.
Qed.

Lemma filled_in6 (l : bytes) :
  (sizeof_in6 <= length l)%nat -> le_value (take 2 l) = AF_INET6 ->
  {| storage := memcpy (storage unset) (take sizeof_in6 l); length_ := sizeof_in6; family := ipv6 |}
    = set_in6 (read_in6 (take sizeof_in6 l)) /\
  good_in6 (read_in6 (take sizeof_in6 l)) /\
  in6_bytes (read_in6 (take sizeof_in6 l)) = take sizeof_in6 l.
Proof.
  intros Hl Hf. destruct (read_in6_good (take sizeof_in6 l)) as [Hg Hb].
  - rewrite length_take. lia.
  - rewrite take2_take; [done|unfold sizeof_in6; lia].
  - split; [|done]. unfold set_in6. by rewrite Hb.
Qed.

Lemma from_bytes_valid l e : endpoint_from_bytes l = Ok e -> valid e.
Proof.
  unfold endpoint_from_bytes. destruct (_ || _); [done|]. cbv zeta.
  destruct (le_value (take 2 l) =? AF_INET6) eqn:E6; bool_facts.
  - destruct (length l <? sizeof_in6)%nat eqn:El; bool_facts; [done|].
    destruct (filled_in6 l El E6) as (Heq & Hg & _). rewrite Heq. intros [= <-].
    exact (valid_in6 _ Hg).
  - destruct (le_value (take 2 l) =? AF_INET) eqn:E4; bool_facts; [|done].
    destruct (length l <? sizeof_in)%nat eqn:El; bool_facts; [done|].
    destruct (filled_in l El E4) as (Heq & Hg & _). rewrite Heq. intros [= <-].
    exact (valid_in _ Hg).
Qed.

(** [Endpoint::from_bytes] accepts precisely the buffers of at
    most 128 bytes that start with a whole [sockaddr_in] or [sockaddr_in6] of
    the announced family: what it returns is a well-formed endpoint of that
    family whose encoded bytes are the start of the buffer, with a port of 16
    bits.  An unknown family is refused as not supported, a short or oversized
    buffer as an invalid argument.  And the encoded bytes of every endpoint give
    that endpoint back, so an address survives the trip through the kernel. *)
Theorem from_bytes_exact :
  (forall l,
    let n := length l in
    let fam := le_value (take 2 l) in
    match endpoint_from_bytes l with
    | Ok e => valid e /\ native_family e = fam /\ address_bytes e = take (length_ e) l /\
              (length_ e <= n <= 128)%nat /\ 0 <= endpoint_port e < 65536
    | Fail e =>
        (e = make_error_code Errc.not_supported /\ (16 <= n <= 128)%nat /\
         fam <> AF_INET /\ fam <> AF_INET6) \/
        (e = make_error_code Errc.invalid_argument /\
         ((n < 16)%nat \/ (128 < n)%nat \/ (n < 28)%nat /\ fam = AF_INET6))
    end) /\
  (forall e, valid e -> endpoint_from_bytes (address_bytes e) = Ok e).
Proof.
  split; [|apply from_own_bytes]. intros l n fam. unfold endpoint_from_bytes. fold fam n.
  destruct ((n <? sizeof_sockaddr)%nat || (128 <? n)%nat) eqn:E0.
  { right. split; [done|]. apply orb_true_iff in E0.
    destruct E0 as [E0%Nat.ltb_lt|E0%Nat.ltb_lt]; [left; exact E0|right; left; exact E0]. }
  bool_facts. unfold sizeof_sockaddr in *.
  destruct (fam =? AF_INET6) eqn:E6; bool_facts.
  - destruct (n <? sizeof_in6)%nat eqn:El; bool_facts.
    { right. split; [done|]. right; right. done. }
    destruct (filled_in6 l) as (Heq & Hg & Hb); [done|done|]. rewrite Heq.
    assert (valid (set_in6 (read_in6 (take sizeof_in6 l)))) as Hv by by constructor.
    split_and!; [done|by rewrite E6|by rewrite bytes_set_in6|exact El|lia|apply (port_range _ Hv)..].
  - destruct (fam =? AF_INET) eqn:E4; bool_facts; [|left; split_and!; [done|lia..]].
    destruct (n <? sizeof_in)%nat eqn:El; bool_facts; [unfold sizeof_in in *; lia|].
    destruct (filled_in l) as (Heq & Hg & Hb); [done|done|]. rewrite Heq.
    assert (valid (set_in (read_in (take sizeof_in l)))) as Hv by by constructor.
    split_and!; [done|by rewrite E4|by rewrite bytes_set_in|exact El|lia|apply (port_range _ Hv)..].
Qed.

(** ** Facts: addresses as text *)

Definition addr_size (f : Family) : nat := match f with ipv4 => 4 | ipv6 => 16 end.

(** The characters of a printed address: decimal digits and dots, for IPv6 also
    hexadecimal letters and colons. *)
Definition v4_char (b : byte) : bool :=
  (48 <=? code b) && (code b <=? 57) || Byte.eqb b x2e.

Definition v6_char (b : byte) : bool :=
  v4_char b || (97 <=? code b) && (code b <=? 102) || Byte.eqb b COLON.

(** What POSIX documents of the address functions: [inet_pton] fills in an
    address of the family's size; [inet_ntop] succeeds into a buffer of
    [INET6_ADDRSTRLEN] bytes, its text fits the buffer and is the presentation
    form [inet_pton] reads; an interface index is an [unsigned int]. *)
Class InetLaws `{Inet} := {
  pton_size f t a : inet_pton f t = Some a -> length a = addr_size f;
  ntop_total f a : length a = addr_size f -> is_Some (inet_ntop f a INET6_ADDRSTRLEN);
  ntop_fits f a n t : inet_ntop f a n = Some t -> len t < n;
  ntop_pton f a n t :
    length a = addr_size f -> inet_ntop f a n = Some t -> inet_pton f t = Some a;
  ntop_v4 a n t : inet_ntop ipv4 a n = Some t -> t <> [] /\ Forall (fun b => v4_char b = true) t;
  ntop_v6 a n t : inet_ntop ipv6 a n = Some t -> COLON ∈ t /\ Forall (fun b => v6_char b = true) t;
  index_range name : 0 <= if_nametoindex name < 2 ^ 32
}.

(** Endpoints without the parts a text does not show. *)
Inductive plain : Endpoint -> Prop :=
| plain_in a : good_in a -> sin_zero a = zeros 8 -> plain (set_in a)
| plain_in6 a : good_in6 a -> sin6_flowinfo a = zeros 4 -> plain (set_in6 a).

Lemma plain_valid e : plain e -> valid e.
Proof. intros [a Ha _|a Ha _]; by constructor. Qed.

Lemma plain_in_inv a : good_in a -> plain (set_in a) -> sin_zero a = zeros 8.
Proof.
  intros Ha Hp. remember (set_in a) as e eqn:E. destruct Hp as [b Hb Hz|b Hb _]; [|done].
  rewrite <- Hz. f_equal. by rewrite <- (read_set_in a Ha), <- (read_set_in b Hb), E.
Qed.

Lemma plain_in6_inv a : good_in6 a -> plain (set_in6 a) -> sin6_flowinfo a = zeros 4.
Proof.
  intros Ha Hp. remember (set_in6 a) as e eqn:E. destruct Hp as [b Hb _|b Hb Hz]; [done|].
  rewrite <- Hz. f_equal. by rewrite <- (read_set_in6 a Ha), <- (read_set_in6 b Hb), E.
Qed.

Lemma not_in_class (P : byte -> bool) c l :
  P c = false -> Forall (fun b => P b = true) l -> c ∉ l.
Proof. intros Hc Hl Hin. rewrite Forall_forall in Hl. apply Hl in Hin. congruence. Qed.

Lemma same_in a b : good_in a -> good_in b ->
  same_endpoint (set_in a) (set_in b) = true <->
  ntohs (sin_port a) = ntohs (sin_port b) /\ sin_addr a = sin_addr b.
Proof.
  intros Ha Hb. unfold same_endpoint. rewrite !port_set_in by done. cbn [family set_in].
  fold (set_in a) (set_in b). rewrite !read_set_in by done.
  rewrite bool_decide_true by done. simpl.
  destruct (ntohs (sin_port a) =? ntohs (sin_port b)) eqn:E; bool_facts; simpl.
  - rewrite bytes_eqb_eq. tauto.
  - split; [done|]. by intros [? _].
Qed.

Lemma same_in6 a b : good_in6 a -> good_in6 b ->
  same_endpoint (set_in6 a) (set_in6 b) = true <->
  ntohs (sin6_port a) = ntohs (sin6_port b) /\ sin6_addr a = sin6_addr b /\
  sin6_scope_id a = sin6_scope_id b.
Proof.
  intros Ha Hb. unfold same_endpoint. rewrite !port_set_in6 by done. cbn [family set_in6].
  fold (set_in6 a) (set_in6 b). rewrite !read_set_in6 by done.
  rewrite bool_decide_true by done. simpl.
  destruct (ntohs (sin6_port a) =? ntohs (sin6_port b)) eqn:E; bool_facts; simpl.
  - rewrite andb_true_iff, Z.eqb_eq, bytes_eqb_eq. tauto.
  - split; [done|]. by intros [? _].
Qed.

(** What [same_endpoint] compares. *)
Definition endpoint_key (e : Endpoint) : Family * Z * bytes * Z :=
  (family e, endpoint_port e,
   match family e with
   | ipv4 => sin_addr (read_in (storage e))
   | ipv6 => sin6_addr (read_in6 (storage e))
   end,
   match family e with ipv4 => 0 | ipv6 => sin6_scope_id (read_in6 (storage e)) end).

Lemma same_endpoint_key a b : same_endpoint a b = true <-> endpoint_key a = endpoint_key b.
Proof.
  unfold same_endpoint, endpoint_key.
  destruct (family a) eqn:Ea, (family b) eqn:Eb; simpl; try (split; [done|congruence]);
    destruct (endpoint_port a =? endpoint_port b) eqn:E; bool_facts; simpl;
    try (split; [done|congruence]); rewrite E.
  - rewrite bytes_eqb_eq. split; [by intros ->|congruence].
  - rewrite andb_true_iff, Z.eqb_eq, bytes_eqb_eq.
    split; [by intros [-> ->]|intros [= ? ?]; done].
Qed.

#[export] Instance same_endpoint_equivalence : Equivalence (fun a b => same_endpoint a b = true).
Proof.
  split; intros a *; rewrite !same_endpoint_key; congruence.
Qed.

Lemma percent_not_v6 t : Forall (fun b => v6_char b = true) t -> PERCENT ∉ t.
Proof. by apply not_in_class. Qed.

Lemma decimal_class (P : byte -> bool) n :
  (forall b, 48 <= code b <= 57 -> P b = true) -> Forall (fun b => P b = true) (to_decimal n).
Proof. intros HP. eapply Forall_impl; [apply to_decimal_digits|done]. Qed.

Lemma scope_decimal `{Inet} n : 0 <= n < 2 ^ 32 -> parse_scope (to_decimal n) = Ok n.
Proof.
  intros Hn. assert (0 <= n <= UINT64_MAX) as Hn' by (unfold UINT64_MAX; lia).
  unfold parse_scope, from_chars_u32. rewrite from_chars_decimal by done.
  destruct (n <? 2 ^ 32) eqn:E; bool_facts; [|lia].
  pose proof (to_decimal_nonempty n Hn'). by destruct (to_decimal n).
Qed.

(** Decimal numbers of 32 bits take ten characters at most. *)
Lemma decimal_u32_length n : 0 <= n < 2 ^ 32 -> (length (to_decimal n) <= 10)%nat.
Proof.
  intros Hn. unfold to_decimal. case_match; [simpl; lia|].
  etransitivity; [apply (digits_loop_length_le 10 64 10); lia|simpl; lia].
Qed.

Section Text.
Context `{HI : Inet} `{!InetLaws}.

Lemma split_scope_printed t n :
  Forall (fun b => v6_char b = true) t -> 0 <= n < 2 ^ 32 ->
  split_scope (if n =? 0 then t else t ++ [PERCENT] ++ to_decimal n) = Ok (t, n).
Proof.
  intros Ht Hn. unfold split_scope. destruct (n =? 0) eqn:E; bool_facts.
  - subst n. pose proof (percent_not_v6 t Ht) as Hp. apply find_None in Hp. by rewrite Hp.
  - change (t ++ [PERCENT] ++ to_decimal n) with (t ++ PERCENT :: to_decimal n).
    rewrite find_here by by apply percent_not_v6.
    rewrite take_app_length, drop_app_ge by lia.
    replace (S (length t) - length t)%nat with 1%nat by lia.
    change (drop 1 (PERCENT :: to_decimal n)) with (to_decimal n).
    by rewrite scope_decimal.
Qed.

(** The literal guards of [parse] on a printed address. *)
Definition scoped_char (b : byte) : bool := v6_char b || Byte.eqb b PERCENT.

Lemma parse_guards t :
  t <> [] -> Forall (fun b => scoped_char b = true) t -> len t < 78 ->
  (bool_decide (t = []) || bool_decide (is_Some (find x00 t))) = false /\
  (INET6_ADDRSTRLEN + 32 <=? len t) = false.
Proof.
  intros Hne Hc Hl. split.
  - rewrite bool_decide_false by done. simpl. apply bool_decide_false.
    rewrite (proj2 (find_None x00 t)); [by intros [? ?]|]. exact (not_in_class scoped_char x00 t eq_refl Hc).
  - unfold INET6_ADDRSTRLEN. apply Z.leb_gt. lia.
Qed.

Lemma scoped_weaken (P : byte -> bool) t :
  (forall b, P b = true -> scoped_char b = true) ->
  Forall (fun b => P b = true) t -> Forall (fun b => scoped_char b = true) t.
Proof. intros HP Ht. eapply Forall_impl; [exact Ht|]. simpl. auto. Qed.

Lemma v4_scoped b : v4_char b = true -> scoped_char b = true.
Proof. intros Hb. unfold scoped_char, v6_char. by rewrite Hb. Qed.

Lemma v6_scoped b : v6_char b = true -> scoped_char b = true.
Proof. intros Hb. unfold scoped_char. by rewrite Hb. Qed.

Lemma digit_v4 b : 48 <= code b <= 57 -> v4_char b = true.
Proof.
  intros Hb. unfold v4_char. rewrite (proj2 (Z.leb_le 48 _)), (proj2 (Z.leb_le _ 57)) by lia. done.
Qed.

(** What [address] prints. *)
Lemma address_in a : good_in a ->
  exists t, endpoint_address (set_in a) = t /\ inet_pton ipv4 t = Some (sin_addr a) /\
    t <> [] /\ Forall (fun b => v4_char b = true) t /\ len t < 46.
Proof.
  intros Ha. destruct (ntop_total ipv4 (sin_addr a)) as [t Ht]; [apply Ha|]. exists t.
  unfold endpoint_address. rewrite read_set_in by done. cbn [family set_in]. rewrite Ht.
  split; [done|]. split; [eapply ntop_pton; [apply Ha|done]|].
  destruct (ntop_v4 _ _ _ Ht). split; [done|]. split; [done|]. by eapply ntop_fits in Ht.
Qed.

Lemma address_in6 a : good_in6 a ->
  exists t, endpoint_address (set_in6 a) =
      (if sin6_scope_id a =? 0 then t else t ++ [PERCENT] ++ to_decimal (sin6_scope_id a)) /\
    inet_pton ipv6 t = Some (sin6_addr a) /\
    COLON ∈ t /\ Forall (fun b => v6_char b = true) t /\ len t < 46.
Proof.
  intros Ha. destruct (ntop_total ipv6 (sin6_addr a)) as [t Ht]; [apply Ha|]. exists t.
  unfold endpoint_address. rewrite read_set_in6 by done. cbn [family set_in6]. rewrite Ht.
  split; [done|]. split; [eapply ntop_pton; [apply Ha|done]|].
  destruct (ntop_v6 _ _ _ Ht). split; [done|]. split; [done|]. by eapply ntop_fits in Ht.
Qed.

Lemma colon_found t : COLON ∈ t -> exists i, find COLON t = Some i.
Proof.
  intros Hin. destruct (find COLON t) eqn:E; [by eexists|]. by apply find_None in E.
Qed.

Lemma printed_in6_chars t n :
  COLON ∈ t -> Forall (fun b => v6_char b = true) t -> len t < 46 -> 0 <= n < 2 ^ 32 ->
  let text := if n =? 0 then t else t ++ [PERCENT] ++ to_decimal n in
  text <> [] /\ Forall (fun b => scoped_char b = true) text /\ len text < 78 /\ COLON ∈ text.
Proof.
  intros Hc Ht Hl Hn text. subst text.
  assert (t <> []) as Hne by (intros ->; by apply elem_of_nil in Hc).
  pose proof (scoped_weaken _ t v6_scoped Ht) as Hs.
  destruct (n =? 0); [split_and!; [done|done|lia|done]|].
  pose proof (decimal_u32_length n Hn) as Hd. split_and!.
  - by destruct t.
  - apply Forall_app. split; [done|]. apply Forall_app. split; [by repeat constructor|].
    apply decimal_class. intros b Hb. by apply v4_scoped, digit_v4.
  - rewrite !len_app. change (len [PERCENT]) with 1. unfold len at 2. lia.
  - apply elem_of_app. by left.
Qed.

(** Reading back what [address] printed: the same endpoint, apart from flow
    information and padding, which a text does not carry. *)
Lemma reparse e : valid e ->
  exists e', parse_endpoint (endpoint_address e) (endpoint_port e) = Ok e' /\
    same_endpoint e e' = true /\ (plain e -> e' = e).
Proof.
  intros [a Ha|a Ha].
  - destruct (address_in a Ha) as (t & -> & Hp & Hne & Hc & Hl).
    destruct (parse_guards t) as [G1 G2]; [done|by apply (scoped_weaken _ t v4_scoped)|lia|].
    unfold parse_endpoint. rewrite G1, G2.
    rewrite (proj2 (find_None COLON t)) by exact (not_in_class v4_char COLON t eq_refl Hc).
    rewrite Hp, port_set_in by done. rewrite htons_ntohs by apply Ha.
    eexists; split; [done|]. split.
    + apply same_in; [done| |done]. destruct Ha as (? & ? & ? & ?). by repeat split.
    + intros Hz%plain_in_inv; [|done]. destruct a; destruct Ha as (? & _); simpl in *. by subst.
  - destruct (address_in6 a Ha) as (t & -> & Hp & Hc & Ht & Hl).
    pose proof Ha as (Hf & Hpo & Hfl & Had & Hs).
    destruct (printed_in6_chars t (sin6_scope_id a)) as (Hne & Hsc & Hlen & Hcol); try done.
    destruct (parse_guards _ Hne Hsc Hlen) as [G1 G2].
    destruct (colon_found _ Hcol) as [i Hi].
    unfold parse_endpoint. rewrite G1, G2, Hi, split_scope_printed, Hp by done.
    rewrite port_set_in6 by done. rewrite htons_ntohs by done.
    eexists; split; [done|]. split.
    + apply same_in6; [done| |done]. unfold good_in6; cbn. split_and!; [done..|lia|lia].
    + intros Hz%plain_in6_inv; [|done]. destruct a; simpl in *. by subst.
Qed.

Lemma parse_scope_range scope n : parse_scope scope = Ok n -> 0 <= n < 2 ^ 32.
Proof.
  unfold parse_scope. destruct scope as [|b l]; [done|].
  assert (forall m, (if all_digits (b :: l) then fail Errc.invalid_argument
      else let index := if_nametoindex (b :: l) in
           if index =? 0 then fail Errc.invalid_argument else Ok index) = Ok m ->
      0 <= m < 2 ^ 32) as Hname.
  { intros m. case_match; [done|]. cbv zeta. case_match; [done|]. intros [= <-]. apply index_range. }
  unfold from_chars_u32, from_chars.
  destruct (digit_of 10 b); [|apply Hname].
  pose proof (scan_digits_mono 10 0 (b :: l) ltac:(lia) ltac:(lia)) as Hm.
  destruct (scan_digits 10 0 (b :: l)) as [v rest]. cbn [fst] in Hm.
  destruct (v <=? UINT64_MAX); [|apply Hname].
  destruct (v <? 2 ^ 32) eqn:E; [|apply Hname]. bool_facts.
  destruct rest; [|apply Hname]. intros [= <-]. lia.
Qed.

Lemma split_scope_range t text n : split_scope t = Ok (text, n) -> 0 <= n < 2 ^ 32.
Proof.
  unfold split_scope. destruct (find PERCENT t); [|intros [= _ <-]; lia].
  destruct (parse_scope _) eqn:E; [|done]. intros [= _ <-]. by eapply parse_scope_range.
Qed.

(** What [parse] accepts is a plain endpoint with the port asked for, of the
    version the literal shows. *)
Lemma parse_plain t p e :
  0 <= p < 65536 -> parse_endpoint t p = Ok e ->
  plain e /\ endpoint_port e = p /\ (family e = ipv6 <-> COLON ∈ t).
Proof.
  intros Hp. unfold parse_endpoint. destruct (_ || _); [done|]. destruct (_ <=? _); [done|].
  destruct (find COLON t) as [i|] eqn:Ec.
  - destruct (split_scope t) as [[text n]|] eqn:Es; [|done].
    destruct (inet_pton ipv6 text) as [a|] eqn:Ea; [|done]. intros [= <-].
    assert (good_in6 {| sin6_family := AF_INET6; sin6_port := htons p; sin6_flowinfo := zeros 4;
                        sin6_addr := a; sin6_scope_id := n |}) as Hg.
    { apply pton_size in Ea. apply split_scope_range in Es. unfold good_in6; cbn -[htons].
      rewrite length_htons. split_and!; [done..|lia|lia]. }
    split; [by constructor|]. split; [rewrite port_set_in6 by done; by apply ntohs_htons|].
    split; [|done]. intros _. apply find_Some in Ec as [Ec _]. by eapply list_elem_of_lookup_2.
  - destruct (inet_pton ipv4 t) as [a|] eqn:Ea; [|done]. intros [= <-].
    assert (good_in {| sin_family := AF_INET; sin_port := htons p; sin_addr := a;
                       sin_zero := zeros 8 |}) as Hg.
    { apply pton_size in Ea. unfold good_in; cbn -[htons]. by rewrite length_htons. }
    split; [by constructor|]. split; [rewrite port_set_in by done; by apply ntohs_htons|].
    split; [done|]. intros Hin. by apply find_None in Ec.
Qed.

(** A separator that occurs in neither part on its left splits both texts alike. *)
Lemma sep_inj (c : byte) l1 r1 l2 r2 :
  c ∉ l1 -> c ∉ l2 -> l1 ++ c :: r1 = l2 ++ c :: r2 -> l1 = l2 /\ r1 = r2.
Proof.
  intros H1 H2 Heq. pose proof (find_here c l1 r1 H1) as F1.
  rewrite Heq, find_here in F1 by done. injection F1 as F1.
  apply app_inj_1 in Heq; [|done]. destruct Heq as [-> [= ->]]. done.
Qed.

Lemma decimal_inj n m :
  0 <= n < 65536 -> 0 <= m < 65536 -> to_decimal n = to_decimal m -> n = m.
Proof.
  intros Hn Hm Heq. pose proof (from_chars_decimal n) as Fn. pose proof (from_chars_decimal m) as Fm.
  unfold UINT64_MAX in *. rewrite Heq, Fm in Fn by lia. specialize (Fn ltac:(lia)). congruence.
Qed.

Lemma address_chars e : valid e ->
  endpoint_address e <> [] /\
  Forall (fun b => (match family e with ipv4 => v4_char b | ipv6 => scoped_char b end) = true)
    (endpoint_address e).
Proof.
  intros [a Ha|a Ha].
  - destruct (address_in a Ha) as (t & -> & _ & Hne & Hc & _). done.
  - destruct (address_in6 a Ha) as (t & -> & _ & Hc & Ht & Hl).
    destruct (printed_in6_chars t (sin6_scope_id a)) as (Hne & Hsc & _); try done. apply Ha.
Qed.

(** Equal texts come from endpoints of one family, port and printed address. *)
Lemma to_string_parts a b : valid a -> valid b -> endpoint_to_string a = endpoint_to_string b ->
  endpoint_address a = endpoint_address b /\ endpoint_port a = endpoint_port b.
Proof.
  intros Ha Hb. pose proof (port_range a Ha) as Pa. pose proof (port_range b Hb) as Pb.
  destruct (address_chars a Ha) as [Na Ca]. destruct (address_chars b Hb) as [Nb Cb].
  unfold endpoint_to_string. destruct (family a), (family b); intros Heq.
  - apply sep_inj in Heq as [E1 E2].
    + split; [done|]. by apply decimal_inj.
    + exact (not_in_class v4_char COLON _ eq_refl Ca).
    + exact (not_in_class v4_char COLON _ eq_refl Cb).
  - destruct (endpoint_address a) as [|c l]; [done|]. injection Heq as -> _.
    by inversion Ca.
  - destruct (endpoint_address b) as [|c l]; [done|]. injection Heq as <- _.
    by inversion Cb.
  - injection Heq as Heq. apply (sep_inj x5d) in Heq as [E1 E2].
    + split; [done|]. injection E2 as E2. by apply decimal_inj.
    + exact (not_in_class scoped_char x5d _ eq_refl Ca).
    + exact (not_in_class scoped_char x5d _ eq_refl Cb).
Qed.

(** C33: addresses and their texts correspond.  What [Endpoint::parse]
    accepts is an endpoint with the port asked for, IPv6 precisely when the
    literal has a colon, and printing it with [address] and parsing the text
    again gives that very endpoint.  The printed address of any endpoint,
    wherever it came from, is accepted by [parse], scope included, and denotes
    the same address, port and scope.  And two endpoints with the same
    [to_string] denote the same address, port and scope: the bracketed form is
    unambiguous. *)
Theorem endpoint_text_roundtrip :
  (forall t p e, 0 <= p < 65536 -> parse_endpoint t p = Ok e ->
     valid e /\ endpoint_port e = p /\ (family e = ipv6 <-> COLON ∈ t) /\
     parse_endpoint (endpoint_address e) (endpoint_port e) = Ok e) /\
  (forall e, valid e -> exists e',
     parse_endpoint (endpoint_address e) (endpoint_port e) = Ok e' /\ same_endpoint e e' = true) /\
  (forall a b, valid a -> valid b -> endpoint_to_string a = endpoint_to_string b ->
     same_endpoint a b = true).
Proof.
  split_and!.
  - intros t p e Hp He. destruct (parse_plain t p e Hp He) as (Hpl & Hport & Hfam).
    pose proof (plain_valid e Hpl) as Hv. destruct (reparse e Hv) as (e' & Hr & _ & Heq).
    rewrite Hr, (Heq Hpl). done.
  - intros e He. destruct (reparse e He) as (e' & Hr & Hs & _). by exists e'.
  - intros a b Ha Hb Heq. destruct (to_string_parts a b Ha Hb Heq) as [E1 E2].
    destruct (reparse a Ha) as (a' & Hra & Hsa & _). destruct (reparse b Hb) as (b' & Hrb & Hsb & _).
    rewrite E1, E2, Hrb in Hra. injection Hra as ->.
    apply same_endpoint_key. apply same_endpoint_key in Hsa, Hsb. congruence.
Qed.
End Text.

(** ** A concrete address library: dotted decimal, and IPv6 without compression *)

Module ToyInet.

Fixpoint split_on (c : byte) (l : bytes) : list bytes :=
  match l with
  | [] => [[]]
  | b :: l' =>
      if Byte.eqb b c then [] :: split_on c l'
      else match split_on c l' with
           | p :: ps => (b :: p) :: ps
           | [] => [[b]]
           end
  end.

Fixpoint join (c : byte) (ps : list bytes) : bytes :=
  match ps with
  | [] => []
  | [p] => p
  | p :: ps' => p ++ c :: join c ps'
  end.

Fixpoint pairs (l : bytes) : list Z :=
  match l with
  | a :: b :: l' => (code a * 256 + code b) :: pairs l'
  | _ => []
  end.

Definition unpair (v : Z) : bytes := [byte_of (v / 256); byte_of v].

Definition numeral (base limit : Z) (text : bytes) : option Z :=
  match from_chars text base with
  | fc_value v [] => if v <? limit then Some v else None
  | _ => None
  end.

Definition pton (f : Family) (t : bytes) : option bytes :=
  match f with
  | ipv4 =>
      match mapM (numeral 10 256) (split_on x2e t) with
      | Some vs => if bool_decide (length vs = 4%nat) then Some (map byte_of vs) else None
      | None => None
      end
  | ipv6 =>
      match mapM (numeral 16 65536) (split_on COLON t) with
      | Some vs => if bool_decide (length vs = 8%nat) then Some (concat (map unpair vs)) else None
      | None => None
      end
  end.

Definition text (f : Family) (a : bytes) : bytes :=
  match f with
  | ipv4 => join x2e (map (fun b => to_decimal (code b)) a)
  | ipv6 => join COLON (map to_hex (pairs a))
  end.

Definition ntop (f : Family) (a : bytes) (n : Z) : option bytes :=
  if bool_decide (length a = addr_size f) && (len (text f a) <? n) then Some (text f a) else None.

Definition nametoindex (name : bytes) : Z := if bytes_eqb name (lit "lo") then 1 else 0.

Lemma split_on_none c p : c ∉ p -> split_on c p = [p].
Proof.
  induction p as [|b p IH]; intros Hc; [done|]. simpl.
  apply not_elem_of_cons in Hc as [Hb Hp].
  rewrite (proj2 (byte_eqb_neq b c)) by congruence. by rewrite IH.
Qed.

Lemma split_on_app c p r : c ∉ p -> split_on c (p ++ c :: r) = p :: split_on c r.
Proof.
  induction p as [|b p IH]; intros Hc; simpl; [by rewrite byte_eqb_refl|].
  apply not_elem_of_cons in Hc as [Hb Hp].
  rewrite (proj2 (byte_eqb_neq b c)) by congruence. by rewrite IH.
Qed.

Lemma split_join c ps : ps <> [] -> Forall (fun p => c ∉ p) ps -> split_on c (join c ps) = ps.
Proof.
  intros Hne Hps. induction Hps as [|p ps Hp Hps IH]; [done|].
  destruct ps as [|q ps]; [by apply split_on_none|].
  change (join c (p :: q :: ps)) with (p ++ c :: join c (q :: ps)).
  rewrite split_on_app by done. by rewrite IH.
Qed.

Lemma join_Forall (P : byte -> Prop) c ps :
  P c -> Forall (Forall P) ps -> Forall P (join c ps).
Proof.
  intros Hc Hps. induction Hps as [|p ps Hp Hps IH]; [constructor|].
  destruct ps as [|q ps]; [done|]. change (join c (p :: q :: ps)) with (p ++ c :: join c (q :: ps)).
  apply Forall_app. split; [done|]. by constructor.
Qed.

Lemma join_length k c ps :
  Forall (fun p => (length p <= k)%nat) ps -> (length (join c ps) <= length ps * S k)%nat.
Proof.
  intros Hps. induction Hps as [|p ps Hp Hps IH]; [simpl; lia|].
  destruct ps as [|q ps]; [simpl; lia|].
  change (join c (p :: q :: ps)) with (p ++ c :: join c (q :: ps)).
  rewrite length_app. cbn [length] in *. lia.
Qed.

Lemma hex_chars v : Forall (fun b => v6_char b = true /\ b <> COLON) (to_hex v).
Proof.
  unfold to_hex. apply digits_loop_Forall; [lia| |case_match; [by repeat constructor|constructor]].
  intros d Hd.
  assert (d = 0 \/ d = 1 \/ d = 2 \/ d = 3 \/ d = 4 \/ d = 5 \/ d = 6 \/ d = 7 \/ d = 8 \/ d = 9 \/
          d = 10 \/ d = 11 \/ d = 12 \/ d = 13 \/ d = 14 \/ d = 15) as Hc by lia.
  destruct_or! Hc; subst; by split; vm_compute.
Qed.

Lemma pairs_range a : Forall (fun v => 0 <= v < 65536) (pairs a).
Proof.
  revert a. fix IH 1. intros [|x [|y a]]; [constructor..|]. cbn [pairs].
  constructor; [|apply IH]. pose proof (code_range x). pose proof (code_range y). lia.
Qed.

Lemma unpair_pairs a : Nat.Even (length a) -> concat (map unpair (pairs a)) = a.
Proof.
  revert a. fix IH 1. intros [|x [|y a]] He; [done|destruct He as [k Hk]; simpl in Hk; lia|].
  cbn [pairs map concat unpair]. pose proof (code_range x). pose proof (code_range y).
  unfold unpair at 1. rewrite Z.div_add_l by lia. rewrite (Z.div_small (code y)) by lia.
  rewrite Z.add_0_r, byte_of_code. simpl. rewrite IH.
  - do 2 f_equal. rewrite <- (byte_of_code y) at 2. unfold byte_of.
    by rewrite Z.add_comm, Z.mod_add by lia.
  - destruct He as [k Hk]. exists (k - 1)%nat. simpl in Hk. lia.
Qed.

Lemma length_pairs a : length (pairs a) = (length a / 2)%nat.
Proof.
  revert a. fix IH 1. intros [|x [|y a]]; [done..|]. cbn [pairs length]. rewrite IH.
  change (S (S (length a))) with (2 + length a)%nat.
  replace (2 + length a)%nat with (length a + 1 * 2)%nat by lia. rewrite Nat.div_add by lia. lia.
Qed.

Lemma numeral_decimal b : numeral 10 256 (to_decimal (code b)) = Some (code b).
Proof.
  pose proof (code_range b). unfold numeral.
  rewrite from_chars_decimal by (unfold UINT64_MAX; lia).
  destruct (code b <? 256) eqn:E; [done|]. bool_facts. lia.
Qed.

Lemma numeral_hex v : 0 <= v < 65536 -> numeral 16 65536 (to_hex v) = Some v.
Proof.
  intros Hv. unfold numeral. rewrite from_chars_hex by (unfold UINT64_MAX; lia).
  destruct (v <? 65536) eqn:E; [done|]. bool_facts. lia.
Qed.

Lemma decimal_no_dot n : x2e ∉ to_decimal n.
Proof.
  intros Hin. pose proof (to_decimal_digits n) as Hd. rewrite Forall_forall in Hd.
  apply Hd in Hin. revert Hin. vm_compute. intros [H1 _]. by apply H1.
Qed.

Lemma text_v4 a : length a = 4%nat ->
  pton ipv4 (text ipv4 a) = Some a /\ text ipv4 a <> [] /\
  Forall (fun b => v4_char b = true) (text ipv4 a) /\ len (text ipv4 a) < 46.
Proof.
  intros Ha. unfold pton, text. rewrite split_join.
  - split_and!.
    + assert (mapM (numeral 10 256) (map (fun b => to_decimal (code b)) a) = Some (map code a)) as ->.
      { apply mapM_Some. clear Ha. induction a; constructor; [apply numeral_decimal|done]. }
      rewrite length_map, bool_decide_true by done. f_equal. rewrite map_map.
      clear Ha. induction a as [|b a IH]; [done|]. simpl. by rewrite byte_of_code, IH.
    + destruct a as [|b1 [|b2 a]]; [done..|]. intros Hn.
      apply (f_equal length) in Hn. cbn [map join] in Hn. rewrite length_app in Hn.
      destruct a; simpl in Hn; rewrite ?length_app in Hn; simpl in Hn; lia.
    + apply join_Forall; [done|]. apply Forall_map, Forall_true. intros b.
      apply decimal_class, digit_v4.
    + pose proof (join_length 10 x2e (map (fun b => to_decimal (code b)) a)) as Hl.
      rewrite length_map, Ha in Hl. unfold len.
      enough (length (join x2e (map (fun b => to_decimal (code b)) a)) <= 4 * 11)%nat by lia.
      apply Hl. apply Forall_map, Forall_true. intros b. pose proof (code_range b).
      apply decimal_u32_length. lia.
  - by destruct a.
  - apply Forall_map, Forall_true. intros b. apply decimal_no_dot.
Qed.

Lemma text_v6 a : length a = 16%nat ->
  pton ipv6 (text ipv6 a) = Some a /\ COLON ∈ text ipv6 a /\
  Forall (fun b => v6_char b = true) (text ipv6 a) /\ len (text ipv6 a) < 46.
Proof.
  intros Ha. pose proof (length_pairs a) as Hp. rewrite Ha in Hp. simpl in Hp.
  pose proof (pairs_range a) as Hr. unfold pton, text. rewrite split_join.
  - split_and!.
    + assert (mapM (numeral 16 65536) (map to_hex (pairs a)) = Some (pairs a)) as ->.
      { apply mapM_Some. clear -Hr. induction Hr; constructor; [by apply numeral_hex|done]. }
      rewrite bool_decide_true by done. f_equal. apply unpair_pairs. rewrite Ha. by exists 8%nat.
    + destruct (pairs a) as [|v1 [|v2 vs]]; [done..|].
      change (COLON ∈ to_hex v1 ++ COLON :: join COLON (map to_hex (v2 :: vs))).
      apply elem_of_app. right. apply list_elem_of_here.
    + apply join_Forall; [done|]. apply Forall_map, Forall_true. intros v.
      eapply Forall_impl; [apply hex_chars|]. by intros b [? _].
    + pose proof (join_length 4 COLON (map to_hex (pairs a))) as Hl.
      rewrite length_map, Hp in Hl. unfold len.
      enough (length (join COLON (map to_hex (pairs a))) <= 8 * 5)%nat by lia.
      apply Hl. apply Forall_map. eapply Forall_impl; [exact Hr|]. intros v Hv. cbv beta in Hv |- *.
      unfold to_hex. destruct (v =? 0) eqn:E; bool_facts; [subst; simpl; lia|].
      etransitivity; [apply (digits_loop_length_le 16 64 4); lia|simpl; lia].
  - by destruct (pairs a).
  - apply Forall_map, Forall_true. intros v Hin. pose proof (hex_chars v) as Hc.
    rewrite Forall_forall in Hc. by apply Hc in Hin as [_ ?].
Qed.

Lemma pton_length f t a : pton f t = Some a -> length a = addr_size f.
Proof.
  unfold pton. destruct f.
  - destruct (mapM _ _) as [vs|]; [|done]. case_bool_decide as Hl; [|done]. intros [= <-].
    by rewrite length_map.
  - destruct (mapM _ _) as [vs|]; [|done]. case_bool_decide as Hl; [|done]. intros [= <-].
    destruct vs as [|? [|? [|? [|? [|? [|? [|? [|? [|? ?]]]]]]]]]; done.
Qed.

Lemma ntop_Some f a n t :
  ntop f a n = Some t -> t = text f a /\ length a = addr_size f /\ len t < n.
Proof.
  unfold ntop. case_bool_decide; simpl; [|done]. case_match; [|done]. intros [= <-].
  by bool_facts.
Qed.
End ToyInet.

#[export] Instance toy_inet : Inet := {|
  inet_pton := ToyInet.pton;
  inet_ntop := ToyInet.ntop;
  if_nametoindex := ToyInet.nametoindex
|}.

#[export] Instance toy_inet_laws : InetLaws.
Proof.
  split; simpl.
  - apply ToyInet.pton_length.
  - intros f a Ha. unfold ToyInet.ntop. rewrite bool_decide_true by done. simpl.
    assert (len (ToyInet.text f a) < 46) as Hl.
    { destruct f; [apply (ToyInet.text_v4 a Ha)|apply (ToyInet.text_v6 a Ha)]. }
    unfold INET6_ADDRSTRLEN. apply Z.ltb_lt in Hl. by rewrite Hl.
  - intros f a n t Ht. apply (ToyInet.ntop_Some f a n t Ht).
  - intros f a n t Ha Ht. apply ToyInet.ntop_Some in Ht as (-> & _ & _).
    destruct f; [apply (ToyInet.text_v4 a Ha)|apply (ToyInet.text_v6 a Ha)].
  - intros a n t Ht. apply ToyInet.ntop_Some in Ht as (-> & Hl & _). destruct (ToyInet.text_v4 a Hl) as (_ & H1 & H2 & _); done.
  - intros a n t Ht. apply ToyInet.ntop_Some in Ht as (-> & Hl & _). destruct (ToyInet.text_v6 a Hl) as (_ & H1 & H2 & _); done.
  - intros name. unfold ToyInet.nametoindex. case_match; lia.
Qed.

Definition link_local : bytes := lit "fe80:0:0:0:0:0:0:1".

Lemma endpoint_text_roundtrip_witness :
  (exists e, parse_endpoint (link_local ++ lit "%3") 8080 = Ok e /\
     endpoint_to_string e = lit "[" ++ link_local ++ lit "%3]:8080" /\
     parse_endpoint (endpoint_address e) (endpoint_port e) = Ok e) /\
  parse_endpoint (link_local ++ lit "%lo") 1 = parse_endpoint (link_local ++ lit "%1") 1 /\
  parse_endpoint (link_local ++ lit "%4294967296") 1 = fail Errc.invalid_argument /\
  parse_endpoint (link_local ++ lit "%") 1 = fail Errc.invalid_argument.
Proof.
  split; [|split_and!; vm_compute; reflexivity].
  eexists. split; [vm_compute; reflexivity|]. split; [vm_compute; reflexivity|].
  refine (proj2 (proj2 (proj2 (proj1 endpoint_text_roundtrip (link_local ++ lit "%3") 8080 _ _ _)))).
  - lia.
  - vm_compute. reflexivity.
Defined.

Lemma loopback_valid p f : valid (endpoint_loopback p f).
Proof.
  destruct f; [apply valid_in|apply valid_in6]; [unfold good_in|unfold good_in6]; cbn -[htons];
    rewrite length_htons; split_and!; done.
Qed.

Lemma any_valid p f : valid (endpoint_any p f).
Proof.
  destruct f; [apply valid_in|apply valid_in6]; [unfold good_in|unfold good_in6]; cbn -[htons];
    rewrite length_htons; split_and!; done.
Qed.

Lemma from_bytes_exact_witness :
  endpoint_from_bytes (address_bytes (endpoint_loopback 443 ipv6)) = Ok (endpoint_loopback 443 ipv6) /\
  endpoint_to_string (endpoint_loopback 443 ipv4) = lit "127.0.0.1:443" /\
  endpoint_from_bytes (le_bytes 2 1 ++ zeros 14) = fail Errc.not_supported.
Proof.
  split; [apply (proj2 from_bytes_exact), loopback_valid|]. split; vm_compute; reflexivity.
Defined.
