(* ===== verification/Datagram.v ===== *)
(** * Datagram: sending and receiving datagrams through the event loop
    (core/src/event_loop_posix.cpp, transport/src/udp.cpp)

    One receive and one send may be in flight per descriptor.  [acquire_datagram]
    hands an operation a token (a shared flag) and puts it into the slot of its
    direction; [release_datagram] empties the slot if the token is still the one
    in it; [detach] sets the flags of both tokens and forgets the descriptor,
    after which its number may be reused.  The operations look at their flag
    before every system call. *)

From stdpp Require Import gmap.
From S2P Require Import Prelude Errors Timers EventLoop Streams LoopIo Endpoint.

Local Open Scope Z_scope.
Local Open Scope mira_scope.

(** ** The table [datagrams_] and its tokens *)

Abbreviation Token := nat.

(** [datagrams_] with the two slots of an entry (receiving, sending), and the
    flags of all tokens made so far: a token is its position. *)
Record Datagrams := mk_datagrams {
  entries : gmap Z (option Token * option Token);
  flags : list bool
}.

Definition no_datagrams : Datagrams := mk_datagrams ∅ [].

Definition pick (writing : bool) (e : option Token * option Token) : option Token :=
  if writing then e.2 else e.1.

Definition place (writing : bool) (t : option Token) (e : option Token * option Token)
    : option Token * option Token :=
  if writing then (e.1, t) else (t, e.2).

(** The slot of a direction. *)
Definition dslot (fd : Z) (writing : bool) (d : Datagrams) : option Token :=
  match entries d !! fd with Some e => pick writing e | None => None end.

(** [*token] *)
Definition flag_of (t : Token) (d : Datagrams) : bool := default false (flags d !! t).

(** [acquire_datagram]: [None] for a null pointer. *)
Definition acquire_datagram (fd : Z) (writing : bool) (d : Datagrams) : option Token * Datagrams :=
  let e := default (None, None) (entries d !! fd) in
  match pick writing e with
  | Some _ => (None, mk_datagrams (<[fd := e]> (entries d)) (flags d))
  | None =>
      let t := length (flags d) in
      (Some t, mk_datagrams (<[fd := place writing (Some t) e]> (entries d)) (flags d ++ [false]))
  end.

(** [release_datagram] *)
Definition release_datagram (fd : Z) (writing : bool) (t : Token) (d : Datagrams) : Datagrams :=
  match entries d !! fd with
  | None => d
  | Some e =>
      let e := if bool_decide (pick writing e = Some t) then place writing None e else e in
      match e with
      | (None, None) => mk_datagrams (delete fd (entries d)) (flags d)
      | _ => mk_datagrams (<[fd := e]> (entries d)) (flags d)
      end
  end.

Definition set_flag (t : option Token) (fs : list bool) : list bool :=
  match t with Some i => <[i := true]> fs | None => fs end.

(** The datagram part of [detach]. *)
Definition detach_datagrams (fd : Z) (d : Datagrams) : Datagrams :=
  match entries d !! fd with
  | None => d
  | Some (r, w) => mk_datagrams (delete fd (entries d)) (set_flag w (set_flag r (flags d)))
  end.

(** ** The operations *)

(** What a call of recvmsg(2) delivers: the bytes put into the buffer, whether
    [MSG_TRUNC] was set, the sender's address. *)
Record Received := mk_received { rc_data : bytes; rc_truncated : bool; rc_address : bytes }.

(** The system calls, and where the loop keeps its table. *)
Class DatagramKernel (K : Type) := {
  k_recvmsg : Z -> nat -> K -> Sys Received * K;
  k_sendto : Z -> bytes -> bytes -> K -> Sys nat * K;
  k_table : K -> Datagrams;
  k_set_table : Datagrams -> K -> K
}.

Definition EMSGSIZE : Z := 90.

(** [std::make_error_code(std::errc::message_size)] *)
Definition message_size : Error := mk_error EMSGSIZE generic_category.

Section Operations.
Context {K : Type} `{Kernel K} `{DatagramKernel K}.

(** [if ( *token) co_return fail(Errc::cancelled);] *)
Definition check_token (t : Token) : M (IO K) unit :=
  fun s => require (negb (flag_of t (k_table s.2))) (make_error_code Errc.cancelled) s.

(** One round of [receive_from]; a receive into nothing offers one scratch byte. *)
Definition receive_from_round (fd : Z) (n : nat) (t : Token) (o : IoOptions) : M (IO K) (option Received) :=
  check_token t ;;;
  let! r := syscall (k_recvmsg fd (Nat.max 1 n)) in
  match r with
  | sys_ok d =>
      require (negb (rc_truncated d || (n <? length (rc_data d))%nat)) message_size ;;;
      out_ret (Some d)
  | sys_err errno => again fd false o errno
  end.

(** One round of [send_to]. *)
Definition send_to_round (fd : Z) (source address : bytes) (t : Token) (o : IoOptions)
    : M (IO K) (option nat) :=
  check_token t ;;;
  let! r := syscall (k_sendto fd source address) in
  match r with
  | sys_ok n => require (n =? length source)%nat message_size ;;; out_ret (Some n)
  | sys_err errno => again fd true o errno
  end.

Definition update_table (f : Datagrams -> Datagrams) (s : IO K) : IO K :=
  (s.1, k_set_table (f (k_table s.2)) s.2).

(** The [Guard] around an operation: its token is released on every way out. *)
Definition guarded_by {A} (fd : Z) (writing : bool) (m : Token -> M (IO K) A) : M (IO K) A :=
  fun s =>
    match acquire_datagram fd writing (k_table s.2) with
    | (None, d) => Fails (make_error_code Errc.invalid_argument) (update_table (fun _ => d) s)
    | (Some t, d) =>
        match m t (update_table (fun _ => d) s) with
        | Returns a s => Returns a (update_table (release_datagram fd writing t) s)
        | Fails e s => Fails e (update_table (release_datagram fd writing t) s)
        | OutOfFuel => OutOfFuel
        end
    end.

(** [EventLoop::receive_from] *)
Definition loop_receive_from (fd : Z) (n : nat) (o : IoOptions) : M (IO K) Received :=
  check_running ;;; check_options o ;;;
  require (negb (fd <? 0)) (make_error_code Errc.invalid_argument) ;;;
  guarded_by fd false (fun t => retry (receive_from_round fd n t o)).

(** [EventLoop::send_to]; a [sockaddr] has 16 bytes, a [sockaddr_storage] 128. *)
Definition loop_send_to (fd : Z) (source address : bytes) (o : IoOptions) : M (IO K) nat :=
  check_running ;;; check_options o ;;;
  require (negb ((fd <? 0) || (length address <? 16)%nat || (128 <? length address)%nat))
    (make_error_code Errc.invalid_argument) ;;;
  guarded_by fd true (fun t => retry (send_to_round fd source address t o)).

(** ** [udp::Socket] *)

(** [Socket::State]: the handle, [-1] once closed, and the local address. *)
Record UdpState := mk_udp { udp_handle : Z; udp_local : Endpoint }.

Definition invalid_handle : Z := -1.

(** [Socket::send]; [None] for a socket without state. *)
Definition udp_send (st : option UdpState) (source : bytes) (peer : Endpoint) (o : IoOptions)
    : M (IO K) nat :=
  match st with
  | None => out_fail (make_error_code Errc.invalid_argument)
  | Some u =>
      require (negb (udp_handle u =? invalid_handle)) (make_error_code Errc.invalid_argument) ;;;
      loop_send_to (udp_handle u) source (address_bytes peer) o
  end.

(** [Socket::receive]: the bytes, and the sender as an endpoint. *)
Definition udp_receive (st : option UdpState) (n : nat) (o : IoOptions) : M (IO K) (bytes * Endpoint) :=
  match st with
  | None => out_fail (make_error_code Errc.invalid_argument)
  | Some u =>
      require (negb (udp_handle u =? invalid_handle)) (make_error_code Errc.invalid_argument) ;;;
      let! d := loop_receive_from (udp_handle u) n o in
      let! peer := lift (endpoint_from_bytes (rc_address d)) in
      out_ret (rc_data d, peer)
  end.
End Operations.

(** ** Facts: the table *)

Lemma pick_place w w' t e : pick w (place w' t e) = if bool_decide (w = w') then t else pick w e.
Proof. by destruct e, w, w'. Qed.

Lemma dslot_insert fd fd' w e es fs :
  dslot fd w (mk_datagrams (<[fd' := e]> es) fs) =
  if bool_decide (fd = fd') then pick w e else dslot fd w (mk_datagrams es fs).
Proof.
  unfold dslot; simpl. case_bool_decide as Hd.
  - subst. by rewrite lookup_insert_eq.
  - by rewrite lookup_insert_ne.
Qed.

Lemma dslot_delete fd fd' w es fs :
  dslot fd w (mk_datagrams (delete fd' es) fs) =
  if bool_decide (fd = fd') then None else dslot fd w (mk_datagrams es fs).
Proof.
  unfold dslot; simpl. case_bool_decide as Hd.
  - subst. by rewrite lookup_delete_eq.
  - by rewrite lookup_delete_ne.
Qed.

Lemma pick_entry fd w d : pick w (default (None, None) (entries d !! fd)) = dslot fd w d.
Proof. unfold dslot. destruct (entries d !! fd); [done|]. by destruct w. Qed.

(** [acquire_datagram] as seen through the slots. *)
Lemma acquire_spec fd w d :
  match acquire_datagram fd w d with
  | (None, d') => is_Some (dslot fd w d) /\ flags d' = flags d /\
      forall fd' w', dslot fd' w' d' = dslot fd' w' d
  | (Some t, d') => dslot fd w d = None /\ t = length (flags d) /\ flags d' = flags d ++ [false] /\
      forall fd' w', dslot fd' w' d' =
        if bool_decide (fd' = fd /\ w' = w) then Some t else dslot fd' w' d
  end.
Proof.
  unfold acquire_datagram. pose proof (pick_entry fd w d) as Hp.
  set (e := default (None, None) (entries d !! fd)) in *.
  destruct (pick w e) as [t0|] eqn:E; rewrite <- Hp.
  - split; [by eexists|]. split; [done|]. intros fd' w'. rewrite dslot_insert.
    case_bool_decide as Hd; [|by destruct d]. subst. apply pick_entry.
  - split; [done|]. split; [done|]. split; [done|]. intros fd' w'. rewrite dslot_insert.
    case_bool_decide as Hd; [|rewrite (bool_decide_false (_ /\ _)) by tauto; by destruct d].
    subst. rewrite pick_place. case_bool_decide as Hw.
    + subst. by rewrite bool_decide_true.
    + rewrite (bool_decide_false (_ /\ _)) by tauto. apply pick_entry.
Qed.

Lemma release_token_flags fd w t d : flags (release_datagram fd w t d) = flags d.
Proof.
  unfold release_datagram. destruct (entries d !! fd) as [e|]; [|done].
  destruct (if bool_decide _ then _ else _) as [[?|] [?|]]; done.
Qed.

(** [release_datagram] empties its own slot if its token is in it, and no other. *)
Lemma release_spec fd w t d fd' w' :
  dslot fd' w' (release_datagram fd w t d) =
  if bool_decide (fd' = fd /\ w' = w /\ dslot fd w d = Some t) then None else dslot fd' w' d.
Proof.
  unfold release_datagram. destruct (entries d !! fd) as [e|] eqn:He.
  2: { rewrite bool_decide_false; [done|]. unfold dslot at 1. rewrite He. by intros (_ & _ & ?). }
  assert (dslot fd w d = pick w e) as Hs by (unfold dslot; by rewrite He).
  set (e' := if bool_decide (pick w e = Some t) then place w None e else e).
  assert (dslot fd' w' (match e' with
      | (None, None) => mk_datagrams (delete fd (entries d)) (flags d)
      | _ => mk_datagrams (<[fd := e']> (entries d)) (flags d) end) =
    if bool_decide (fd' = fd) then pick w' e' else dslot fd' w' d) as ->.
  { destruct e' as [[?|] [?|]]; rewrite ?dslot_insert, ?dslot_delete; destruct d; try done.
    case_bool_decide; [|done]. by destruct w'. }
  case_bool_decide as Hd; [subst fd'|by rewrite bool_decide_false by tauto].
  rewrite Hs. subst e'. assert (dslot fd w' d = pick w' e) as -> by (unfold dslot; by rewrite He).
  destruct (decide (pick w e = Some t)) as [Ht|Ht].
  - rewrite (bool_decide_true (pick w e = _)) by done. rewrite pick_place.
    case_bool_decide as Hw; [subst; by rewrite bool_decide_true|by rewrite bool_decide_false by tauto].
  - rewrite (bool_decide_false (pick w e = _)) by done. by rewrite bool_decide_false by tauto.
Qed.

Lemma set_flag_lookup o fs t :
  set_flag o fs !! t = if bool_decide (o = Some t) then (fun _ => true) <$> fs !! t else fs !! t.
Proof.
  unfold set_flag. destruct o as [i|]; [|done]. case_bool_decide as Hd.
  - injection Hd as ->. destruct (fs !! t) as [b|] eqn:E; simpl.
    + apply list_lookup_insert_eq. by eapply lookup_lt_Some.
    + by apply list_lookup_insert_None.
  - apply list_lookup_insert_ne. congruence.
Qed.

(** [detach] empties both slots and sets the flags of the tokens in them. *)
Lemma detach_spec fd d :
  (forall fd' w', dslot fd' w' (detach_datagrams fd d) =
     if bool_decide (fd' = fd) then None else dslot fd' w' d) /\
  (forall t, flags (detach_datagrams fd d) !! t =
     if bool_decide (dslot fd false d = Some t \/ dslot fd true d = Some t)
     then (fun _ => true) <$> flags d !! t else flags d !! t).
Proof.
  unfold detach_datagrams. destruct (entries d !! fd) as [[r w]|] eqn:He.
  - assert (dslot fd false d = r /\ dslot fd true d = w) as [-> ->] by (unfold dslot; by rewrite He).
    split.
    + intros fd' w'. rewrite dslot_delete. by destruct d.
    + intros t. simpl. rewrite !set_flag_lookup.
      repeat case_bool_decide; try tauto. by destruct (flags d !! t).
  - assert (dslot fd false d = None /\ dslot fd true d = None) as [Hr Hw] by (unfold dslot; by rewrite He).
    split.
    + intros fd' w'. case_bool_decide; [|done]. subst. by destruct w'.
    + intros t. rewrite Hr, Hw. rewrite bool_decide_false; [done|]. by intros [?|?].
Qed.

Lemma release_no_empty fd w t d :
  (forall x, entries d !! x <> Some (None, None)) ->
  forall x, entries (release_datagram fd w t d) !! x <> Some (None, None).
Proof.
  intros Hd x. unfold release_datagram. destruct (entries d !! fd) as [e|] eqn:He; [|by apply Hd].
  destruct (if bool_decide _ then _ else _) as [[a|] [b|]]; simpl;
    first [rewrite lookup_insert|rewrite lookup_delete]; case_decide; try done; apply Hd.
Qed.

Lemma acquire_no_empty fd w d :
  (forall x, entries d !! x <> Some (None, None)) ->
  forall x, entries (acquire_datagram fd w d).2 !! x <> Some (None, None).
Proof.
  intros Hd x. unfold acquire_datagram.
  destruct (pick w (default (None, None) (entries d !! fd))) as [t|] eqn:E; simpl;
    rewrite lookup_insert; case_decide; try apply Hd; intros [= Heq].
  - rewrite Heq in E. by destruct w.
  - destruct (default (None, None) (entries d !! fd)), w; done.
Qed.

(** *** Operations in flight *)

(** The table with the operations in flight, by their tokens. *)
Inductive dstep : Datagrams * gmap Token (Z * bool) -> Datagrams * gmap Token (Z * bool) -> Prop :=
| ds_acquire fd w t d d' fl :
    acquire_datagram fd w d = (Some t, d') -> dstep (d, fl) (d', <[t := (fd, w)]> fl)
| ds_refused fd w d d' fl : acquire_datagram fd w d = (None, d') -> dstep (d, fl) (d', fl)
| ds_release fd w t d fl :
    fl !! t = Some (fd, w) -> dstep (d, fl) (release_datagram fd w t d, delete t fl)
| ds_detach fd d fl : dstep (d, fl) (detach_datagrams fd d, fl).

Record table_ok (d : Datagrams) (fl : gmap Token (Z * bool)) : Prop := {
  tk_slot fd w t : dslot fd w d = Some t -> fl !! t = Some (fd, w) /\ flags d !! t = Some false;
  tk_flight t fd w : fl !! t = Some (fd, w) ->
    flags d !! t = Some true \/ (flags d !! t = Some false /\ dslot fd w d = Some t);
  tk_entries fd : entries d !! fd <> Some (None, None)
}.

Lemma table_acquire fd w t d d' fl :
  table_ok d fl -> acquire_datagram fd w d = (Some t, d') -> table_ok d' (<[t := (fd, w)]> fl).
Proof.
  intros Hok Ha. pose proof (acquire_spec fd w d) as Hs. pose proof (acquire_no_empty fd w d) as He.
  rewrite Ha in Hs, He. destruct Hs as (Hfree & -> & Hfl & Hsl). destruct Hok as [H1 H2 H3].
  assert (fl !! length (flags d) = None) as Hnew.
  { destruct (fl !! length (flags d)) as [[fd0 w0]|] eqn:E; [|done].
    destruct (H2 _ _ _ E) as [Hx|[Hx _]]; apply lookup_lt_Some in Hx; lia. }
  split.
  - intros fd' w' t. rewrite Hsl, Hfl. case_bool_decide as Hd.
    + destruct Hd as [-> ->]. intros [= <-]. rewrite lookup_insert_eq. split; [done|].
      rewrite lookup_app_r by lia. by rewrite Nat.sub_diag.
    + intros Ht. destruct (H1 _ _ _ Ht) as [Hf Hg]. split.
      * rewrite lookup_insert_ne; [done|]. intros <-. congruence.
      * by apply lookup_app_l_Some.
  - intros t fd' w'. rewrite Hfl. destruct (decide (t = length (flags d))) as [->|Hne].
    + rewrite lookup_insert_eq. intros [= -> ->]. right. split.
      * rewrite lookup_app_r by lia. by rewrite Nat.sub_diag.
      * rewrite Hsl. by rewrite bool_decide_true.
    + rewrite lookup_insert_ne by done. intros Ht. destruct (H2 _ _ _ Ht) as [Hx|[Hx Hy]].
      * left. by apply lookup_app_l_Some.
      * right. split; [by apply lookup_app_l_Some|]. rewrite Hsl. rewrite bool_decide_false; [done|].
        intros [-> ->]. congruence.
  - exact (He H3).
Qed.

Lemma table_release fd w t d fl :
  table_ok d fl -> fl !! t = Some (fd, w) -> table_ok (release_datagram fd w t d) (delete t fl).
Proof.
  intros [H1 H2 H3] Ht. split.
  - intros fd' w' t'. rewrite release_spec, release_token_flags. case_bool_decide as Hd; [done|].
    intros Hs. destruct (H1 _ _ _ Hs) as [Hf Hg]. split; [|done].
    rewrite lookup_delete_ne; [done|]. intros <-. apply Hd. rewrite Ht in Hf. injection Hf as -> ->. done.
  - intros t' fd' w' Hl. apply lookup_delete_Some in Hl as [Hne Hl]. rewrite release_token_flags.
    destruct (H2 _ _ _ Hl) as [?|[? Hs]]; [by left|right]. split; [done|]. rewrite release_spec.
    rewrite bool_decide_false; [done|]. intros (-> & -> & ?). congruence.
  - by apply release_no_empty.
Qed.

Lemma table_detach fd d fl : table_ok d fl -> table_ok (detach_datagrams fd d) fl.
Proof.
  intros [H1 H2 H3]. destruct (detach_spec fd d) as [Hs Hf]. split.
  - intros fd' w' t. rewrite Hs, Hf. case_bool_decide as Hd; [done|]. intros Ht.
    destruct (H1 _ _ _ Ht) as [Hl Hg]. split; [done|]. rewrite bool_decide_false; [done|].
    intros [Hx|Hx]; apply H1 in Hx as [Hx _]; rewrite Hl in Hx; injection Hx as -> _; done.
  - intros t fd' w' Hl. rewrite Hf, Hs. destruct (H2 _ _ _ Hl) as [Hx|[Hx Hy]].
    + left. rewrite Hx. by case_bool_decide.
    + rewrite Hx. destruct (decide (fd' = fd)) as [->|Hne].
      * left. rewrite bool_decide_true; [done|]. destruct w'; auto.
      * right. rewrite (bool_decide_false (fd' = fd)) by done. split; [|done].
        rewrite bool_decide_false; [done|].
        intros [Hz|Hz]; apply H1 in Hz as [Hz _]; rewrite Hl in Hz; congruence.
  - intros x. unfold detach_datagrams. destruct (entries d !! fd) as [[r w]|]; [|apply H3]. simpl.
    rewrite lookup_delete. case_decide; [done|apply H3].
Qed.

Lemma table_reachable x : rtc dstep (no_datagrams, ∅) x -> table_ok x.1 x.2.
Proof.
  intros Hr. revert x Hr. apply (rtc_ind_r (R := dstep) (fun x => table_ok x.1 x.2)).
  - by split.
  - intros y z _ Hyz Hok. destruct Hyz as [fd w t d d' fl Ha|fd w d d' fl Ha|fd w t d fl Ht|fd d fl]; simpl in *.
    + by eapply table_acquire.
    + pose proof (acquire_spec fd w d) as Hs. pose proof (acquire_no_empty fd w d) as He.
      rewrite Ha in Hs, He. destruct Hs as (_ & Hf & Hsl). destruct Hok as [H1 H2 H3].
      split; [|intros t fd' w'; rewrite Hf, Hsl; apply H2|exact (He H3)].
      intros fd' w' t. rewrite Hf, Hsl. apply H1.
    + by apply table_release.
    + by apply table_detach.
Qed.

(** whatever operations start, end and are detached in between, the
    table of datagram operations stays exact.  A direction of a descriptor has at
    most one operation in flight that has not been cancelled, and a new one is
    admitted precisely when there is none.  [detach] cancels every operation in
    flight on the descriptor and frees both directions for whoever gets the
    number next; when a cancelled operation ends later, releasing its token
    leaves every slot as it is.  With nothing in flight the table is empty. *)
Theorem datagram_slots_exact x :
  rtc dstep (no_datagrams, ∅) x ->
  let '(d, fl) := x in
  (forall fd w t t', fl !! t = Some (fd, w) -> fl !! t' = Some (fd, w) ->
     flag_of t d = false -> flag_of t' d = false -> t = t') /\
  (forall fd w, is_Some (acquire_datagram fd w d).1 <->
     ~ exists t, fl !! t = Some (fd, w) /\ flag_of t d = false) /\
  (forall fd, (forall t w, fl !! t = Some (fd, w) -> flag_of t (detach_datagrams fd d) = true) /\
     forall w, is_Some (acquire_datagram fd w (detach_datagrams fd d)).1) /\
  (forall fd w t, fl !! t = Some (fd, w) -> flag_of t d = true ->
     forall fd' w', dslot fd' w' (release_datagram fd w t d) = dslot fd' w' d) /\
  (fl = ∅ -> entries d = ∅).
Proof.
  intros Hr. apply table_reachable in Hr. destruct x as [d fl]. simpl in Hr.
  pose proof Hr as [H1 H2 H3].
  assert (forall t fd w, fl !! t = Some (fd, w) -> flag_of t d = false -> dslot fd w d = Some t) as Hlive.
  { intros t fd w Ht Hf. unfold flag_of in Hf. destruct (H2 _ _ _ Ht) as [Hx|[_ Hx]]; [|done].
    rewrite Hx in Hf. done. }
  assert (forall fd w d, dslot fd w d = None -> is_Some (acquire_datagram fd w d).1) as Hacq.
  { intros fd w d0 Hn. pose proof (acquire_spec fd w d0) as Hs.
    destruct (acquire_datagram fd w d0) as [[t|] d']; [by eexists|]. destruct Hs as [[? ?] _]. congruence. }
  split_and!.
  - intros fd w t t' Ht Ht' Hf Hf'. pose proof (Hlive _ _ _ Ht Hf). pose proof (Hlive _ _ _ Ht' Hf'). congruence.
  - intros fd w. split.
    + intros [t Ha] (t' & Ht' & Hf). pose proof (acquire_spec fd w d) as Hs.
      destruct (acquire_datagram fd w d) as [[t0|] d']; [|done]. destruct Hs as (Hn & _).
      rewrite (Hlive _ _ _ Ht' Hf) in Hn. done.
    + intros Hno. apply Hacq. destruct (dslot fd w d) as [t|] eqn:E; [|done]. exfalso. apply Hno.
      exists t. destruct (H1 _ _ _ E) as [Hl Hg]. split; [done|]. unfold flag_of. by rewrite Hg.
  - intros fd. destruct (detach_spec fd d) as [Hs Hf]. split.
    + intros t w Ht. unfold flag_of. rewrite Hf. destruct (H2 _ _ _ Ht) as [Hx|[Hx Hy]]; rewrite Hx.
      * by case_bool_decide.
      * rewrite bool_decide_true; [done|]. destruct w; auto.
    + intros w. apply Hacq. rewrite Hs. by rewrite bool_decide_true.
  - intros fd w t Ht Hf fd' w'. rewrite release_spec. rewrite bool_decide_false; [done|].
    intros (-> & -> & Hs). destruct (H1 _ _ _ Hs) as [_ Hg]. unfold flag_of in Hf. rewrite Hg in Hf. done.
  - intros ->. apply map_eq. intros fd. rewrite lookup_empty.
    destruct (entries d !! fd) as [[[r|] [w|]]|] eqn:E; [exfalso..|done].
    + destruct (H1 fd false r) as [Hl _]; [unfold dslot; by rewrite E|done].
    + destruct (H1 fd false r) as [Hl _]; [unfold dslot; by rewrite E|done].
    + destruct (H1 fd true w) as [Hl _]; [unfold dslot; by rewrite E|done].
    + by apply H3 in E.
Qed.

(** ** The operations over the system *)

(** What other operations and [detach] may do to the table while the operation
    with token [t] is suspended: anything but releasing [t]. *)
Inductive other_step (t : Token) (d : Datagrams) : Datagrams -> Prop :=
| os_acquire fd w : other_step t d (acquire_datagram fd w d).2
| os_release fd w t' : t' <> t -> other_step t d (release_datagram fd w t' d)
| os_detach fd : other_step t d (detach_datagrams fd d).

(** [t] is in its slot, or has been cancelled. *)
Definition alive (fd : Z) (w : bool) (t : Token) (d : Datagrams) : Prop :=
  (dslot fd w d = Some t /\ flags d !! t = Some false) \/ flags d !! t = Some true.

Lemma alive_other fd w t d d' : other_step t d d' -> alive fd w t d -> alive fd w t d'.
Proof.
  intros Hstep Ha. destruct Hstep as [fd' w'|fd' w' t' Hne|fd'].
  - pose proof (acquire_spec fd' w' d) as Hs. destruct (acquire_datagram fd' w' d) as [[t'|] d']; simpl.
    + destruct Hs as (Hn & -> & Hf & Hsl). unfold alive. rewrite Hf, Hsl. destruct Ha as [[Hx Hy]|Hy].
      * left. rewrite bool_decide_false; [|intros [-> ->]; congruence].
        split; [done|]. by apply lookup_app_l_Some.
      * right. by apply lookup_app_l_Some.
    + destruct Hs as (_ & Hf & Hsl). unfold alive. by rewrite Hf, Hsl.
  - unfold alive. rewrite release_token_flags, release_spec. destruct Ha as [[Hx Hy]|Hy]; [left|by right].
    rewrite bool_decide_false; [done|]. intros (-> & -> & ?). congruence.
  - destruct (detach_spec fd' d) as [Hs Hf]. unfold alive. rewrite Hs, Hf. destruct Ha as [[Hx Hy]|Hy].
    + rewrite Hy. destruct (decide (dslot fd' false d = Some t \/ dslot fd' true d = Some t)) as [Hd|Hd].
      * right. by rewrite bool_decide_true.
      * left. rewrite (bool_decide_false (_ \/ _)) by done. rewrite bool_decide_false; [done|].
        intros ->. apply Hd. destruct w; auto.
    + right. rewrite Hy. by case_bool_decide.
Qed.

Lemma alive_others fd w t d d' : rtc (other_step t) d d' -> alive fd w t d -> alive fd w t d'.
Proof. induction 1 as [|d1 d2 d3 H12 _ IH]; [done|]. intros Ha. apply IH. by eapply alive_other. Qed.

Lemma alive_flag fd w t d : alive fd w t d -> flag_of t d = false -> dslot fd w d = Some t.
Proof. unfold flag_of. intros [[Hx Hy]|Hy] Hf; [done|]. by rewrite Hy in Hf. Qed.

(** A token just acquired is alive; once released it is in no slot of its
    direction. *)
Lemma alive_acquired fd w d t d' : acquire_datagram fd w d = (Some t, d') -> alive fd w t d'.
Proof.
  intros Ha. pose proof (acquire_spec fd w d) as Hs. rewrite Ha in Hs.
  destruct Hs as (_ & -> & Hf & Hsl). left. rewrite Hf, Hsl, bool_decide_true by done.
  split; [done|]. rewrite lookup_app_r by lia. by rewrite Nat.sub_diag.
Qed.

Lemma released fd w t d : dslot fd w (release_datagram fd w t d) <> Some t.
Proof. rewrite release_spec. case_bool_decide as Hd; [done|]. intros Ht. by apply Hd. Qed.

(** recvmsg(2) and sendto(2) on a descriptor that is still attached (the token
    is in its slot): [k_inbox] are the packets that have arrived and nobody has
    read, with their senders, and [k_sent] those the system has taken.  Nothing
    is promised about a descriptor that has been detached.  While a coroutine that
    holds token [t] ([k_own]) is suspended, packets arrive and others use the
    table; as long as the token is in its slot, nobody else receives (sends). *)
Class DatagramLaws (K : Type) `{Kernel K} `{DatagramKernel K} := {
  k_inbox : Z -> K -> list (bytes * bytes);
  k_sent : Z -> K -> list (bytes * bytes);
  k_own : Token -> K -> Prop;
  k_table_law : forall d k,
    k_table (k_set_table d k) = d /\
    (forall fd, k_inbox fd (k_set_table d k) = k_inbox fd k /\ k_sent fd (k_set_table d k) = k_sent fd k);
  k_own_law : forall fd w t d k,
    acquire_datagram fd w (k_table k) = (Some t, d) -> k_own t (k_set_table d k);
  k_recvmsg_law : forall fd n t k,
    k_own t k -> dslot fd false (k_table k) = Some t ->
    let k' := (k_recvmsg fd n k).2 in
    k_own t k' /\ k_table k' = k_table k /\
    match (k_recvmsg fd n k).1 with
    | sys_ok r => exists packet, k_inbox fd k = (packet, rc_address r) :: k_inbox fd k' /\
        rc_data r = take n packet /\ rc_truncated r = (n <? length packet)%nat
    | sys_err _ => k_inbox fd k' = k_inbox fd k
    end;
  k_sendto_law : forall fd source address t k,
    k_own t k -> dslot fd true (k_table k) = Some t ->
    let k' := (k_sendto fd source address k).2 in
    k_own t k' /\ k_table k' = k_table k /\
    match (k_sendto fd source address k).1 with
    | sys_ok n => (n <= length source)%nat /\ k_sent fd k' = k_sent fd k ++ [(take n source, address)]
    | sys_err _ => k_sent fd k' = k_sent fd k
    end;
  k_suspended_law : forall t id s, k_own t s.2 ->
    let k' := (k_suspend id s).2.2 in
    k_own t k' /\ rtc (other_step t) (k_table s.2) (k_table k') /\
    (forall fd, flag_of t (k_table k') = false ->
       (dslot fd false (k_table k') = Some t -> exists arrived, k_inbox fd k' = k_inbox fd s.2 ++ arrived) /\
       (dslot fd true (k_table k') = Some t -> k_sent fd k' = k_sent fd s.2))
}.

Section OperationsHold.
Context {K : Type} `{Kernel K} `{DatagramKernel K} `{!DatagramLaws K}.

Lemma flags_other t d d' : other_step t d d' -> flags d !! t = Some true -> flags d' !! t = Some true.
Proof.
  intros [fd w|fd w t' Hne|fd] Ht.
  - pose proof (acquire_spec fd w d) as Hs. destruct (acquire_datagram fd w d) as [[t'|] d1]; simpl.
    + destruct Hs as (_ & _ & -> & _). by apply lookup_app_l_Some.
    + by destruct Hs as (_ & -> & _).
  - by rewrite release_token_flags.
  - rewrite (proj2 (detach_spec fd d)), Ht. by case_bool_decide.
Qed.

Lemma flags_others t d d' :
  rtc (other_step t) d d' -> flag_of t d' = false -> flags d !! t = Some true -> False.
Proof.
  intros Hr Hf Ht. assert (flags d' !! t = Some true) as Ht'.
  { induction Hr as [|d1 d2 d3 H12 _ IH]; [done|]. apply IH; [done|]. by eapply flags_other. }
  unfold flag_of in Hf. by rewrite Ht' in Hf.
Qed.

(** What an operation on [fd] knows of its token as it goes round, and of the
    packets in its direction while the token is not cancelled. *)
Definition receiving (fd : Z) (t : Token) (k0 k : K) : Prop :=
  k_own t k /\ alive fd false t (k_table k) /\
  (flag_of t (k_table k) = false -> exists arrived, k_inbox fd k = k_inbox fd k0 ++ arrived).

Definition sending (fd : Z) (t : Token) (k0 k : K) : Prop :=
  k_own t k /\ alive fd true t (k_table k) /\
  (flag_of t (k_table k) = false -> k_sent fd k = k_sent fd k0).

Lemma receiving_suspend fd t k0 id s :
  receiving fd t k0 s.2 -> receiving fd t k0 (k_suspend id s).2.2.
Proof.
  intros (Ho & Ha & Hi). destruct (k_suspended_law t id s Ho) as (Ho' & Hr & Hbox).
  pose proof (alive_others _ _ _ _ _ Hr Ha) as Ha'. split; [done|]. split; [done|].
  intros Hf. destruct (Hbox fd Hf) as [Hin _].
  destruct (Hin (alive_flag _ _ _ _ Ha' Hf)) as [more Hm].
  destruct Hi as [arrived Ha2].
  - unfold flag_of. destruct Ha as [[_ Hy]|Hy]; [by rewrite Hy|]. exfalso. by eapply flags_others.
  - exists (arrived ++ more). by rewrite Hm, Ha2, <- app_assoc.
Qed.

Lemma sending_suspend fd t k0 id s :
  sending fd t k0 s.2 -> sending fd t k0 (k_suspend id s).2.2.
Proof.
  intros (Ho & Ha & Hi). destruct (k_suspended_law t id s Ho) as (Ho' & Hr & Hbox).
  pose proof (alive_others _ _ _ _ _ Hr Ha) as Ha'. split; [done|]. split; [done|].
  intros Hf. destruct (Hbox fd Hf) as [_ Hs].
  rewrite (Hs (alive_flag _ _ _ _ Ha' Hf)). apply Hi.
  unfold flag_of. destruct Ha as [[_ Hy]|Hy]; [by rewrite Hy|]. exfalso. by eapply flags_others.
Qed.

(** Waiting and going round again, for a property that suspensions keep. *)
Section Again.
Context (P : K -> Prop).
Context (HP : forall id (s : IO K), P s.2 ->
  P (k_suspend id s).2.2).

Lemma wait_keeps fd writable o s :
  P s.2 ->
  wp (wait_for fd writable o) s
    (fun _ s' => P s'.2) (fun _ s' => P s'.2).
Proof.
  intros Hs. destruct s as [l k]. apply wp_bind, wp_require; intros _; [|done].
  unfold wp. destruct (add_waiter _ _ _ _ _ _ _ l) as [[id|e] l']; [|done].
  pose proof (HP id (l', k) Hs) as Hw. simpl in Hw.
  by destruct (k_suspend id (l', k)) as [[u|e] s'].
Qed.

Lemma again_keeps {A} fd writable o errno s :
  P s.2 ->
  wp (again (A := A) fd writable o errno) s
    (fun r s' => r = None /\ P s'.2) (fun _ s' => P s'.2).
Proof.
  intros Hs. unfold again. destruct (errno =? EINTR); [done|].
  destruct (would_block errno); simpl; [|done].
  apply wp_bind. eapply wp_mono; [by apply wait_keeps| |done].
  intros u s' Hs'. by apply wp_ret.
Qed.
End Again.

(** How a receive can end without a packet: nothing was consumed, or one packet
    that did not fit, or the descriptor was detached under it. *)
Definition receive_failed (fd : Z) (n : nat) (t : Token) (k0 : K) (e : Error) (k : K) : Prop :=
  (exists arrived, k_inbox fd k = k_inbox fd k0 ++ arrived) \/
  (e = message_size /\ exists arrived packet address,
     k_inbox fd k0 ++ arrived = (packet, address) :: k_inbox fd k /\ (n < length packet)%nat) \/
  flag_of t (k_table k) = true.

Definition send_failed (fd : Z) (source address : bytes) (t : Token) (k0 : K) (e : Error) (k : K) : Prop :=
  k_sent fd k = k_sent fd k0 \/
  (e = message_size /\ exists m, (m < length source)%nat /\
     k_sent fd k = k_sent fd k0 ++ [(take m source, address)]) \/
  flag_of t (k_table k) = true.

Lemma receiving_failed fd n t k0 e k : receiving fd t k0 k -> receive_failed fd n t k0 e k.
Proof.
  intros (_ & _ & Hi). destruct (flag_of t (k_table k)) eqn:Ef; [by right; right|left]. by apply Hi.
Qed.

Lemma sending_failed fd source address t k0 e k :
  sending fd t k0 k -> send_failed fd source address t k0 e k.
Proof.
  intros (_ & _ & Hi). destruct (flag_of t (k_table k)) eqn:Ef; [by right; right|left]. by apply Hi.
Qed.

Lemma receive_from_round_wp fd n t o k0 s :
  receiving fd t k0 s.2 ->
  wp (receive_from_round fd n t o) s
    (fun r s' => match r with
       | None => receiving fd t k0 s'.2
       | Some d => (length (rc_data d) <= n)%nat /\
           exists arrived, k_inbox fd k0 ++ arrived = (rc_data d, rc_address d) :: k_inbox fd s'.2
       end)
    (fun e s' => receive_failed fd n t k0 e s'.2).
Proof.
  intros HJ. destruct s as [l k]. apply wp_bind, wp_require; intros Hf;
    [|apply negb_false_iff in Hf; by right; right].
  apply negb_true_iff in Hf. destruct HJ as (Ho & Ha & Hi). simpl in Ho, Ha, Hi, Hf.
  destruct (Hi Hf) as [arrived Harr].
  destruct (k_recvmsg_law fd (Nat.max 1 n) t k Ho (alive_flag _ _ _ _ Ha Hf)) as (Ho' & Ht & Hc).
  apply wp_bind. unfold wp at 1, syscall. cbn [snd fst].
  destruct (k_recvmsg fd (Nat.max 1 n) k) as [[d|errno] k'] eqn:Ek; cbn [fst snd] in Ho', Ht, Hc |- *.
  - destruct Hc as (packet & Hin & Hd & Htr). rewrite Harr in Hin.
    apply wp_bind, wp_require; intros Hcond.
    + apply negb_true_iff, orb_false_iff in Hcond as [Hc1 Hc2]. rewrite Htr in Hc1. bool_facts.
      assert (rc_data d = packet) as Hdp by (rewrite Hd; apply take_ge; lia).
      apply wp_ret. split; [lia|]. exists arrived. by rewrite Hdp.
    + right; left. split; [done|]. exists arrived, packet, (rc_address d). split; [done|].
      apply negb_false_iff, orb_true_iff in Hcond as [Hc1|Hc1].
      * rewrite Htr in Hc1. bool_facts. lia.
      * bool_facts. rewrite Hd, length_take in Hc1. lia.
  - rename Hc into Hin. assert (receiving fd t k0 k') as HJ'.
    { split; [done|]. rewrite Ht. split; [done|]. intros _. exists arrived. congruence. }
    eapply wp_mono; [apply (again_keeps (receiving fd t k0) (receiving_suspend fd t k0)); done|..].
    + by intros r s' [-> HJ2].
    + intros e s' HJ2. by apply receiving_failed.
Qed.

Lemma send_to_round_wp fd source address t o k0 s :
  sending fd t k0 s.2 ->
  wp (send_to_round fd source address t o) s
    (fun r s' => match r with
       | None => sending fd t k0 s'.2
       | Some m => m = length source /\ k_sent fd s'.2 = k_sent fd k0 ++ [(source, address)]
       end)
    (fun e s' => send_failed fd source address t k0 e s'.2).
Proof.
  intros HJ. destruct s as [l k]. apply wp_bind, wp_require; intros Hf;
    [|apply negb_false_iff in Hf; by right; right].
  apply negb_true_iff in Hf. destruct HJ as (Ho & Ha & Hi). simpl in Ho, Ha, Hi, Hf.
  specialize (Hi Hf).
  destruct (k_sendto_law fd source address t k Ho (alive_flag _ _ _ _ Ha Hf)) as (Ho' & Ht & Hc).
  apply wp_bind. unfold wp at 1, syscall. cbn [snd fst].
  destruct (k_sendto fd source address k) as [[m|errno] k'] eqn:Ek; cbn [fst snd] in Ho', Ht, Hc |- *.
  - destruct Hc as (Hm & Hs). rewrite Hi in Hs. apply wp_bind, wp_require; intros Hcond; bool_facts.
    + apply wp_ret. subst m. split; [done|]. cbn [snd]. by rewrite Hs, take_ge by lia.
    + right; left. split; [done|]. exists m. split; [lia|done].
  - rename Hc into Hin. assert (sending fd t k0 k') as HJ'.
    { split; [done|]. rewrite Ht. split; [done|]. intros _. congruence. }
    eapply wp_mono; [apply (again_keeps (sending fd t k0) (sending_suspend fd t k0)); done|..].
    + by intros r s' [-> HJ2].
    + intros e s' HJ2. by apply sending_failed.
Qed.

(** A loop whose rounds keep [J]. *)
Lemma retry_keeps {A} (J : K -> Prop) (round : M (IO K) (option A)) Q R s :
  (forall s, J s.2 -> wp round s
     (fun r s' => match r with
                  | None => J s'.2
                  | Some a => Q a s'.2
                  end) (fun e s' => R e s'.2)) ->
  J s.2 -> wlp (retry round) s (fun a s' => Q a s'.2) (fun e s' => R e s'.2).
Proof.
  intros Hround Hs. unfold retry.
  apply (iter_wlp round (fun s => J s.2) (fun a s' => Q a s'.2) (fun e s' => R e s'.2)); [|done].
  intros s' Hs'. apply wp_wlp. eapply wp_mono; [by apply Hround| |done]. by intros [a|] s2.
Qed.

(** The guard: the operation runs with a fresh token, which is released
    however it ends. *)
Lemma guarded_wlp {A} fd w (m : Token -> M (IO K) A) (Q : A -> K -> Prop) (R : Error -> K -> Prop) s :
  let t := length (flags (k_table s.2)) in
  (forall s', k_own t s'.2 -> alive fd w t (k_table s'.2) ->
     k_inbox fd s'.2 = k_inbox fd s.2 -> k_sent fd s'.2 = k_sent fd s.2 ->
     wlp (m t) s' (fun a s' => forall d, flags d = flags (k_table s'.2) -> Q a (k_set_table d s'.2))
       (fun e s' => forall d, flags d = flags (k_table s'.2) -> R e (k_set_table d s'.2))) ->
  (forall d, R (make_error_code Errc.invalid_argument) (k_set_table d s.2)) ->
  wlp (guarded_by fd w m) s (fun a s' => Q a s'.2 /\ dslot fd w (k_table s'.2) <> Some t)
    (fun e s' => R e s'.2 /\ (dslot fd w (k_table s'.2) = Some t -> dslot fd w (k_table s.2) = Some t)).
Proof.
  intros t Hm Href. unfold guarded_by, wlp, update_table.
  pose proof (acquire_spec fd w (k_table s.2)) as Hs.
  destruct (acquire_datagram fd w (k_table s.2)) as [[t'|] d] eqn:Ea.
  - destruct Hs as (_ & Ht & _). fold t in Ht. subst t'.
    destruct (k_table_law d s.2) as (Htab & Hbox). destruct (Hbox fd) as [Hb1 Hb2].
    specialize (Hm (s.1, k_set_table d s.2)). cbn [snd] in Hm.
    rewrite Htab in Hm. specialize (Hm (k_own_law fd w t d s.2 Ea) (alive_acquired _ _ _ _ _ Ea) Hb1 Hb2).
    unfold wlp in Hm. cbn [fst snd].
    destruct (m t (s.1, k_set_table d s.2)) as [a s'|e s'|]; [| |done]; cbn [fst snd];
      destruct (k_table_law (release_datagram fd w t (k_table s'.2)) s'.2) as (Htab' & _); rewrite Htab'.
    + split; [|apply released]. apply Hm, release_token_flags.
    + split; [apply Hm, release_token_flags|]. intros Hx. by apply released in Hx.
  - split; [apply Href|]. cbn [snd]. destruct (k_table_law d s.2) as (-> & _).
    destruct Hs as (_ & _ & Hsl). by rewrite Hsl.
Qed.

Lemma receive_failed_table fd n t k0 e k d :
  flags d = flags (k_table k) -> receive_failed fd n t k0 e k -> receive_failed fd n t k0 e (k_set_table d k).
Proof.
  intros Hd. destruct (k_table_law d k) as (Htab & Hbox). destruct (Hbox fd) as [Hb _].
  unfold receive_failed. rewrite Hb, Htab. unfold flag_of. by rewrite Hd.
Qed.

Lemma send_failed_table fd source address t k0 e k d :
  flags d = flags (k_table k) ->
  send_failed fd source address t k0 e k -> send_failed fd source address t k0 e (k_set_table d k).
Proof.
  intros Hd. destruct (k_table_law d k) as (Htab & Hbox). destruct (Hbox fd) as [_ Hb].
  unfold send_failed. rewrite Hb, Htab. unfold flag_of. by rewrite Hd.
Qed.
End OperationsHold.

(** A datagram operation moves whole packets, whenever it returns.  A receive
    that succeeds returns the oldest unread packet, complete, with its sender's
    address, and consumes that one; one that fails has consumed nothing, or one
    packet that was longer than the buffer (reported as such), or its descriptor
    was detached while it was waiting.  A send that succeeds has handed exactly
    the source to the system as one packet; one that fails nothing, or a packet
    reported as cut short, or it was detached.  No system call is made on a
    descriptor after it was detached (nothing at all is assumed of such a call),
    and the slot of the direction is free again afterwards. *)
Theorem datagrams_exact {K : Type} {HK : Kernel K} {HD : DatagramKernel K} {HL : DatagramLaws K}
    (fd : Z) (o : IoOptions) (io : IO K) :
  let t := length (flags (k_table io.2)) in
  (forall n, wlp (loop_receive_from fd n o) io
     (fun d io' => ((length (rc_data d) <= n)%nat /\ exists arrived,
          k_inbox fd io.2 ++ arrived = (rc_data d, rc_address d) :: k_inbox fd io'.2) /\
        dslot fd false (k_table io'.2) <> Some t)
     (fun e io' => receive_failed fd n t io.2 e io'.2 /\
        (dslot fd false (k_table io'.2) = Some t -> dslot fd false (k_table io.2) = Some t))) /\
  (forall source address, wlp (loop_send_to fd source address o) io
     (fun m io' => (m = length source /\ k_sent fd io'.2 = k_sent fd io.2 ++ [(source, address)]) /\
        dslot fd true (k_table io'.2) <> Some t)
     (fun e io' => send_failed fd source address t io.2 e io'.2 /\
        (dslot fd true (k_table io'.2) = Some t -> dslot fd true (k_table io.2) = Some t))).
Proof.
  intros t. assert (forall n e, receive_failed fd n t io.2 e io.2) as Hr0.
  { intros n e. left. exists []. by rewrite app_nil_r. }
  assert (forall src adr e, send_failed fd src adr t io.2 e io.2) as Hs0 by (by left).
  split.
  - intros n. apply checks_wlp; [by intros; split|]. apply wlp_bind, wlp_require; intros _; [|by split].
    apply (guarded_wlp fd false _ (fun d k => (length (rc_data d) <= n)%nat /\ exists arrived,
        k_inbox fd io.2 ++ arrived = (rc_data d, rc_address d) :: k_inbox fd k)
      (receive_failed fd n t io.2)).
    + intros s Ho Ha Hin _.
      apply (retry_keeps (receiving fd t io.2) _
        (fun d k => forall d0, flags d0 = flags (k_table k) -> (length (rc_data d) <= n)%nat /\
           exists arrived, k_inbox fd io.2 ++ arrived =
             (rc_data d, rc_address d) :: k_inbox fd (k_set_table d0 k))
        (fun e k => forall d0, flags d0 = flags (k_table k) -> receive_failed fd n t io.2 e (k_set_table d0 k))).
      * intros s' Hs'. eapply wp_mono; [by apply receive_from_round_wp| |].
        -- intros [d|] s2 Hd; [|done]. intros d0 Hd0. destruct (k_table_law d0 s2.2) as (_ & Hbox).
           destruct (Hbox fd) as [-> _]. exact Hd.
        -- intros e s2 He d0 Hd0. by apply receive_failed_table.
      * split; [done|]. split; [done|]. intros _. exists []. by rewrite app_nil_r.
    + intros d. destruct (k_table_law d io.2) as (_ & Hbox). destruct (Hbox fd) as [Hb _].
      left. exists []. by rewrite app_nil_r, Hb.
  - intros source address. apply checks_wlp; [by intros; split|]. apply wlp_bind, wlp_require; intros _; [|by split].
    apply (guarded_wlp fd true _ (fun m k => m = length source /\ k_sent fd k = k_sent fd io.2 ++ [(source, address)])
      (send_failed fd source address t io.2)).
    + intros s Ho Ha _ Hin.
      apply (retry_keeps (sending fd t io.2) _
        (fun m k => forall d0, flags d0 = flags (k_table k) -> m = length source /\
           k_sent fd (k_set_table d0 k) = k_sent fd io.2 ++ [(source, address)])
        (fun e k => forall d0, flags d0 = flags (k_table k) ->
           send_failed fd source address t io.2 e (k_set_table d0 k))).
      * intros s' Hs'. eapply wp_mono; [by apply send_to_round_wp| |].
        -- intros [m|] s2 Hd; [|done]. intros d0 Hd0. destruct (k_table_law d0 s2.2) as (_ & Hbox).
           destruct (Hbox fd) as [_ ->]. exact Hd.
        -- intros e s2 He d0 Hd0. by apply send_failed_table.
      * split; [done|]. split; [done|]. done.
    + intros d. destruct (k_table_law d io.2) as (_ & Hbox). destruct (Hbox fd) as [_ Hb].
      left. by rewrite Hb.
Qed.

(** ** A concrete network *)

(** The refusals it still has to give, the packets waiting and sent, the loop's
    table, and the descriptor that is detached when a coroutine next sleeps. *)
Record Net := mk_net {
  n_refusals : list Z;
  n_in : list (bytes * bytes);
  n_sent : list (bytes * bytes);
  n_table : Datagrams;
  n_detach : option Z
}.

Definition net_call {A} (f : Net -> Sys A * Net) (n : Net) : Sys A * Net :=
  match n_refusals n with
  | errno :: rest => (sys_err errno, mk_net rest (n_in n) (n_sent n) (n_table n) (n_detach n))
  | [] => f n
  end.

Definition net_suspend (id : OperationId) (s : Loop * Net) : Result unit * (Loop * Net) :=
  let n := s.2 in
  let table := match n_detach n with Some fd => detach_datagrams fd (n_table n) | None => n_table n end in
  (Ok tt, ((finalize id None s.1).2, mk_net (n_refusals n) (n_in n) (n_sent n) table None)).

#[export] Instance net_kernel : Kernel Net := {
  k_read := fun _ _ n => (sys_ok [], n);
  k_write := fun _ _ n => (sys_ok 0%nat, n);
  k_writev := fun _ _ n => (sys_ok 0%nat, n);
  k_accept := fun _ n => (sys_err 22, n);
  k_connect := fun _ _ n => (sys_err 22, n);
  k_so_error := fun _ n => (sys_ok 0, n);
  k_nonblocking := fun _ n => (sys_ok true, n);
  k_set_nonblocking := fun _ n => (sys_ok tt, n);
  k_close := fun _ n => n;
  k_arm := fun _ _ => None;
  k_now := fun _ => 0;
  k_stopped := fun _ _ => false;
  k_coroutine := fun _ => 1;
  k_suspend := net_suspend;
  k_rounds := fun n => length (n_refusals n)
}.

#[export] Instance net_datagrams : DatagramKernel Net := {
  k_recvmsg := fun _ m => net_call (fun n =>
    match n_in n with
    | [] => (sys_err 5, n)
    | (packet, address) :: rest =>
        (sys_ok (mk_received (take m packet) (m <? length packet)%nat address),
         mk_net [] rest (n_sent n) (n_table n) (n_detach n))
    end);
  k_sendto := fun _ source address => net_call (fun n =>
    (sys_ok (length source),
     mk_net [] (n_in n) (n_sent n ++ [(source, address)]) (n_table n) (n_detach n)));
  k_table := n_table;
  k_set_table := fun d n => mk_net (n_refusals n) (n_in n) (n_sent n) d (n_detach n)
}.

#[export] Instance net_laws : DatagramLaws Net.
Proof.
  refine {| k_inbox := fun _ => n_in; k_sent := fun _ => n_sent; k_own := fun _ _ => True |};
    intros; simpl; try done.
  - subst k'. simpl. unfold net_call. destruct (n_refusals k) as [|errno rest] eqn:Er; simpl.
    + destruct (n_in k) as [|[packet address] rest] eqn:Ein; simpl; (split; [done|]); (split; [done|]).
      * done.
      * by exists packet.
    + by split.
  - subst k'. simpl. unfold net_call. destruct (n_refusals k) as [|errno rest] eqn:Er; simpl.
    + split; [done|]. split; [done|]. split; [done|]. by rewrite take_ge.
    + by split.
  - subst k'. simpl. split; [done|]. split.
    + destruct (n_detach s.2); [|done]. apply rtc_once. constructor.
    + intros fd _. split; [|done]. intros _. exists []. by rewrite app_nil_r.
Defined.

Definition toy_peer : bytes := address_bytes (endpoint_loopback 9 ipv4).

Definition calm_net : Net :=
  mk_net [EINTR; EAGAIN] [(lit "hello", toy_peer); (lit "again", toy_peer)] [] no_datagrams None.

Definition closing_net : Net :=
  mk_net [EAGAIN] [(lit "hello", toy_peer)] [] no_datagrams (Some 4).

Lemma datagrams_exact_witness :
  (exists io', loop_receive_from (K := Net) 4 16 no_io (new_loop, calm_net) =
     Returns (mk_received (lit "hello") false toy_peer) io' /\
     n_in io'.2 = [(lit "again", toy_peer)] /\ entries (n_table io'.2) = ∅) /\
  (exists io', loop_receive_from (K := Net) 4 16 no_io (new_loop, closing_net) =
     Fails (make_error_code Errc.cancelled) io' /\ n_in io'.2 = [(lit "hello", toy_peer)]) /\
  wlp (loop_send_to (K := Net) 4 (lit "hi") toy_peer no_io) (new_loop, calm_net)
    (fun m io' => (m = 2%nat /\ n_sent io'.2 = [(lit "hi", toy_peer)]) /\
       dslot 4 true (n_table io'.2) <> Some 0%nat)
    (fun e io' => send_failed 4 (lit "hi") toy_peer 0 calm_net e io'.2 /\
       (dslot 4 true (n_table io'.2) = Some 0%nat -> None = Some 0%nat)).
Proof.
  split; [eexists; split; [vm_compute; reflexivity|split; vm_compute; reflexivity]|].
  split; [eexists; split; [vm_compute; reflexivity|vm_compute; reflexivity]|].
  exact (proj2 (datagrams_exact (K := Net) 4 no_io (new_loop, calm_net)) (lit "hi") toy_peer).
Defined.

Lemma datagram_slots_exact_witness :
  let d := detach_datagrams 4 (acquire_datagram 4 false no_datagrams).2 in
  is_Some (acquire_datagram 4 false d).1 /\
  dslot 4 false (release_datagram 4 false 0 (acquire_datagram 4 false d).2) = Some 1%nat.
Proof.
  intros d. split; [|vm_compute; reflexivity].
  assert (rtc dstep (no_datagrams, ∅) ((acquire_datagram 4 false no_datagrams).2, {[0%nat := (4, false)]})) as Hr.
  { apply rtc_once. apply (ds_acquire 4 false 0%nat). reflexivity. }
  exact (proj2 (proj1 (proj2 (proj2 (datagram_slots_exact _ Hr))) 4) false).
Defined.
