(* ===== verification/Sockets.v ===== *)
(** * Sockets: making, configuring and closing them
    (transport/src/socket_compat.hpp, tcp.cpp, udp.cpp, POSIX branches)

    Listening, connecting, accepting and binding a datagram socket are sequences
    of system calls in which any one may fail; the question is what becomes of
    the descriptor.  The calls are the class [SocketKernel], on top of the
    [Kernel] of the event loop.  A [Socket] object that goes out of scope closes
    its descriptor, which detaches it from the loop and resumes who was waiting. *)

From S2P Require Import Prelude Errors Timers EventLoop Streams LoopIo Endpoint Datagram.

Local Open Scope Z_scope.
Local Open Scope mira_scope.

(** The constants of the Linux headers. *)
Definition IPPROTO_IPV6 : Z := 41.
Definition SOL_SOCKET : Z := 1.
Definition SO_REUSEADDR : Z := 2.
Definition SO_REUSEPORT : Z := 15.
Definition IPV6_V6ONLY : Z := 26.
Definition TCP_NODELAY : Z := 1.

(** socket(2), the descriptor flags, setsockopt(2) with an [int], bind(2),
    listen(2), getsockname(2), getpeername(2), shutdown(SHUT_WR); whether the
    [Listener] object on a descriptor is still in place; and what coroutines do
    that are resumed synchronously by the given resolutions. *)
Class SocketKernel (K : Type) := {
  k_socket : Z -> Z -> Z -> K -> Sys Z * K;
  k_getfd : Z -> K -> Sys unit * K;
  k_set_cloexec : Z -> K -> Sys unit * K;
  k_setsockopt : Z -> Z -> Z -> Z -> K -> Sys unit * K;
  k_bind : Z -> bytes -> K -> Sys unit * K;
  k_listen : Z -> Z -> K -> Sys unit * K;
  k_getsockname : Z -> K -> Sys bytes * K;
  k_getpeername : Z -> K -> Sys bytes * K;
  k_shutdown_write : Z -> K -> Sys unit * K;
  k_listening : Z -> K -> bool;
  k_resume : list Action -> Loop * K -> Loop * K
}.

(** [ListenOptions] *)
Record ListenOptions := mk_listen_options {
  exclusive : bool;
  reuse_after_close : bool;
  backlog : Z;
  no_delay : bool;
  dual_stack : bool
}.

Definition default_listen_options : ListenOptions := mk_listen_options true true 128 true true.

Section Sockets.
Context {K : Type} `{Kernel K} `{DatagramKernel K} `{SocketKernel K}.

(** A call whose failure is reported as [last_socket_error()]. *)
Definition checked {A} (f : K -> Sys A * K) : M (IO K) A :=
  let! r := syscall f in
  match r with sys_ok a => out_ret a | sys_err errno => out_fail (system_error errno) end.

(** [close_socket(fd)] before an error is returned. *)
Definition or_close {A} (fd : Z) (m : M (IO K) A) : M (IO K) A :=
  fun s => match m s with
           | Returns a s => Returns a s
           | Fails e s => Fails e (s.1, k_close fd s.2)
           | OutOfFuel => OutOfFuel
           end.

(** [create_tcp_socket]: that the descriptor is not inherited is attempted, not
    required. *)
Definition create_tcp_socket (family : Z) : M (IO K) Z :=
  let! fd := checked (k_socket family SOCK_STREAM IPPROTO_TCP) in
  or_close fd (let! _ := checked (k_nonblocking fd) in checked (k_set_nonblocking fd)) ;;;
  let! descriptor_flags := syscall (k_getfd fd) in
  match descriptor_flags with
  | sys_ok _ => let! _ := syscall (k_set_cloexec fd) in out_ret fd
  | sys_err _ => out_ret fd
  end.

(** [set_flag] *)
Definition set_option (fd level option : Z) (enabled : bool) : M (IO K) unit :=
  checked (k_setsockopt fd level option (if enabled then 1 else 0)).

(** [apply_exclusive_bind] *)
Definition apply_exclusive_bind (fd : Z) (excl reuse : bool) : M (IO K) unit :=
  (if reuse then set_option fd SOL_SOCKET SO_REUSEADDR true else out_ret tt) ;;;
  if excl then out_ret tt else set_option fd SOL_SOCKET SO_REUSEPORT true.

(** [apply_no_delay], [apply_dual_stack] *)
Definition apply_no_delay (fd : Z) (enabled : bool) : M (IO K) unit :=
  if enabled then set_option fd IPPROTO_TCP TCP_NODELAY true else out_ret tt.

Definition apply_dual_stack (fd : Z) (dual : bool) : M (IO K) unit :=
  set_option fd IPPROTO_IPV6 IPV6_V6ONLY (negb dual).

(** [bind_socket], [listen_socket], [local_address], [peer_address],
    [shutdown_write] *)
Definition bind_socket (fd : Z) (address : bytes) : M (IO K) unit := checked (k_bind fd address).
Definition listen_socket (fd n : Z) : M (IO K) unit := checked (k_listen fd n).
Definition local_address (fd : Z) : M (IO K) bytes := checked (k_getsockname fd).
Definition peer_address (fd : Z) : M (IO K) bytes := checked (k_getpeername fd).
Definition shutdown_write (fd : Z) : M (IO K) unit := checked (k_shutdown_write fd).

(** ** Socket objects *)

(** [EventLoop::detach]: datagram operations are cancelled, then waits, whose
    coroutines run at once. *)
Definition loop_detach (fd : Z) (s : IO K) : IO K :=
  let s := update_table (detach_datagrams fd) s in
  let '(resolutions, l) := detach fd (k_arm fd s.2) s.1 in
  k_resume resolutions (l, s.2).

(** [Socket::close], [Listener::close] and [udp::Socket::close] on an open
    descriptor. *)
Definition close_handle (fd : Z) (s : IO K) : IO K :=
  let s := loop_detach fd s in (s.1, k_close fd s.2).

(** A [Socket] object whose scope is left with an error is destroyed. *)
Definition or_destroy {A} (fd : Z) (m : M (IO K) A) : M (IO K) A :=
  fun s => match m s with
           | Returns a s => Returns a s
           | Fails e s => Fails e (close_handle fd s)
           | OutOfFuel => OutOfFuel
           end.

(** [Socket::peer_endpoint], [local_endpoint], [shutdown_send]; [-1] is the
    invalid handle. *)
Definition with_handle {A} (fd : Z) (m : M (IO K) A) : M (IO K) A :=
  require (negb (fd =? invalid_handle)) (make_error_code Errc.invalid_argument) ;;; m.

Definition peer_endpoint (fd : Z) : M (IO K) Endpoint :=
  with_handle fd (let! a := peer_address fd in lift (endpoint_from_bytes a)).

Definition local_endpoint (fd : Z) : M (IO K) Endpoint :=
  with_handle fd (let! a := local_address fd in lift (endpoint_from_bytes a)).

Definition shutdown_send (fd : Z) : M (IO K) unit := with_handle fd (shutdown_write fd).

(** [Listener] *)
Record Listener := mk_listener { ln_handle : Z; ln_local : Endpoint; ln_options : ListenOptions }.

(** [Listener::bind] *)
Definition listener_bind (e : Endpoint) (o : ListenOptions) : M (IO K) Listener :=
  let! fd := create_tcp_socket (native_family e) in
  or_close fd (
    apply_exclusive_bind fd (exclusive o) (reuse_after_close o) ;;;
    (if bool_decide (family e = ipv6) then apply_dual_stack fd (dual_stack o) else out_ret tt) ;;;
    bind_socket fd (address_bytes e) ;;;
    listen_socket fd (backlog o) ;;;
    let! scratch := local_address fd in
    let! local := lift (endpoint_from_bytes scratch) in
    attach fd ;;;
    out_ret (mk_listener fd local o)).

(** [Listener::accept]: the accepted descriptor belongs to a [Socket] from the
    moment it is known. *)
Definition listener_accept (ln : Listener) (o : IoOptions) : M (IO K) Z :=
  with_handle (ln_handle ln) (
    let! accepted := loop_accept (ln_handle ln) o in
    or_destroy accepted (
      (fun s => require (k_listening (ln_handle ln) s.2) (make_error_code Errc.cancelled) s) ;;;
      apply_no_delay accepted (no_delay (ln_options ln)) ;;;
      out_ret accepted)).

(** [tcp::connect] *)
Definition tcp_connect (e : Endpoint) (nodelay : bool) (o : IoOptions) : M (IO K) Z :=
  let! fd := create_tcp_socket (native_family e) in
  or_close fd (attach fd) ;;;
  or_destroy fd (
    loop_connect fd (address_bytes e) o ;;;
    apply_no_delay fd nodelay ;;;
    out_ret fd).

(** [udp::Socket::bind]: here a descriptor that would be inherited is an error. *)
Definition udp_bind (e : Endpoint) (dual : bool) : M (IO K) UdpState :=
  require (negb (bool_decide (address_bytes e = []))) (make_error_code Errc.invalid_argument) ;;;
  let! fd := checked (k_socket (native_family e) SOCK_DGRAM IPPROTO_UDP) in
  or_close fd (
    checked (k_getfd fd) ;;; checked (k_set_cloexec fd) ;;;
    (if bool_decide (family e = ipv6) then apply_dual_stack fd dual else out_ret tt) ;;;
    bind_socket fd (address_bytes e) ;;;
    let! scratch := local_address fd in
    let! local := lift (endpoint_from_bytes scratch) in
    attach fd ;;;
    out_ret (mk_udp fd local)).

(** [udp::Socket::close]: the shared state is closed once. *)
Definition udp_close (st : option UdpState) (s : IO K) : option UdpState * IO K :=
  match st with
  | None => (None, s)
  | Some u =>
      if udp_handle u =? invalid_handle then (st, s)
      else (Some (mk_udp invalid_handle (udp_local u)), close_handle (udp_handle u) s)
  end.
End Sockets.

(** ** What the system promises *)

(** What has been done to a descriptor since it was made: the family, type and
    protocol it was made with ([None] if accept(2) made it), whether it is closed on
    exec, the options set on it, in order, the address it was bound to with the
    options in force at that moment, the backlog of listen(2), and the address of
    the last connect(2). *)
Record Config := mk_config {
  cf_kind : option (Z * Z * Z);
  cf_cloexec : bool;
  cf_opts : list (Z * Z * Z);
  cf_bound : option (bytes * list (Z * Z * Z));
  cf_backlog : option Z;
  cf_peer : option bytes
}.

Definition made (kind : option (Z * Z * Z)) : Config := mk_config kind false [] None None None.

Definition with_cloexec (c : Config) : Config :=
  mk_config (cf_kind c) true (cf_opts c) (cf_bound c) (cf_backlog c) (cf_peer c).
Definition with_opts (os : list (Z * Z * Z)) (c : Config) : Config :=
  mk_config (cf_kind c) (cf_cloexec c) (cf_opts c ++ os) (cf_bound c) (cf_backlog c) (cf_peer c).
Definition with_bound (a : bytes) (c : Config) : Config :=
  mk_config (cf_kind c) (cf_cloexec c) (cf_opts c) (Some (a, cf_opts c)) (cf_backlog c) (cf_peer c).
Definition with_backlog (n : Z) (c : Config) : Config :=
  mk_config (cf_kind c) (cf_cloexec c) (cf_opts c) (cf_bound c) (Some n) (cf_peer c).
Definition with_peer (a : bytes) (c : Config) : Config :=
  mk_config (cf_kind c) (cf_cloexec c) (cf_opts c) (cf_bound c) (cf_backlog c) (Some a).

(** On top of [ConnectionLaws]: [k_handed] counts a descriptor made by socket(2)
    like one made by accept(2).  A call that fails leaves the descriptor as it
    was.  Calls touch nothing else; coroutines that run in between neither close
    nor configure descriptors that are not theirs. *)
Class SocketLaws (K : Type) `{Kernel K} `{DatagramKernel K} `{SocketKernel K} `{!ConnectionLaws K} := {
  k_config : Z -> K -> Config;
  k_view (fd : Z) (k : K) := (k_handed k, k_config fd k);
  k_socket_law : forall f ty p k,
    match k_socket f ty p k with
    | (sys_ok fd, k') => k_view fd k' = (fd :: k_handed k, made (Some (f, ty, p)))
    | (sys_err _, k') => k_handed k' = k_handed k
    end;
  k_accepted_law : forall l k a k',
    k_accept l k = (sys_ok a, k') -> k_view a k' = (a :: k_handed k, made None);
  k_fd_law : forall fd k,
    k_view fd (k_getfd fd k).2 = k_view fd k /\
    k_view fd (k_nonblocking fd k).2 = k_view fd k /\ k_view fd (k_set_nonblocking fd k).2 = k_view fd k;
  k_cloexec_law : forall fd k,
    match k_set_cloexec fd k with
    | (sys_ok _, k') => k_view fd k' = (k_handed k, with_cloexec (k_config fd k))
    | (sys_err _, k') => k_view fd k' = k_view fd k
    end;
  k_setsockopt_law : forall fd level opt v k,
    match k_setsockopt fd level opt v k with
    | (sys_ok _, k') => k_view fd k' = (k_handed k, with_opts [(level, opt, v)] (k_config fd k))
    | (sys_err _, k') => k_view fd k' = k_view fd k
    end /\
    forall fd', k_established fd' (k_setsockopt fd level opt v k).2 = k_established fd' k /\
                k_is_nonblocking fd' (k_setsockopt fd level opt v k).2 = k_is_nonblocking fd' k;
  k_bind_law : forall fd a k,
    match k_bind fd a k with
    | (sys_ok _, k') => k_view fd k' = (k_handed k, with_bound a (k_config fd k))
    | (sys_err _, k') => k_view fd k' = k_view fd k
    end;
  k_listen_law : forall fd n k,
    match k_listen fd n k with
    | (sys_ok _, k') => k_view fd k' = (k_handed k, with_backlog n (k_config fd k))
    | (sys_err _, k') => k_view fd k' = k_view fd k
    end;
  k_getsockname_law : forall fd k, k_view fd (k_getsockname fd k).2 = k_view fd k;
  k_connect_view : forall fd a k,
    k_view fd (k_connect fd a k).2 = (k_handed k, with_peer a (k_config fd k)) /\
    k_is_nonblocking fd (k_connect fd a k).2 = k_is_nonblocking fd k;
  k_so_error_view : forall fd k,
    k_view fd (k_so_error fd k).2 = k_view fd k /\
    k_is_nonblocking fd (k_so_error fd k).2 = k_is_nonblocking fd k;
  k_sleep_config : forall id s fd, fd ∈ k_handed s.2 ->
    k_config fd (k_suspend id s).2.2 = k_config fd s.2 /\
    k_is_nonblocking fd (k_suspend id s).2.2 = k_is_nonblocking fd s.2;
  k_resume_law : forall acts s, k_handed (k_resume acts s).2 = k_handed s.2;
  k_table_handed : forall d k, k_handed (k_set_table d k) = k_handed k
}.

(** [TCP_NODELAY], if asked for. *)
Definition no_delay_opts (enabled : bool) : list (Z * Z * Z) :=
  if enabled then [(IPPROTO_TCP, TCP_NODELAY, 1)] else [].

(** IPv6 sockets also serve IPv4, or not. *)
Definition dual_opts (e : Endpoint) (dual : bool) : list (Z * Z * Z) :=
  if bool_decide (family e = ipv6) then [(IPPROTO_IPV6, IPV6_V6ONLY, if dual then 0 else 1)] else [].

(** The options a listener has set before it binds. *)
Definition listen_opts (e : Endpoint) (o : ListenOptions) : list (Z * Z * Z) :=
  (if reuse_after_close o then [(SOL_SOCKET, SO_REUSEADDR, 1)] else []) ++
  (if exclusive o then [] else [(SOL_SOCKET, SO_REUSEPORT, 1)]) ++
  dual_opts e (dual_stack o).

Section Hold.
Context {K : Type} `{Kernel K} `{DatagramKernel K} `{SocketKernel K}.
Context `{!ConnectionLaws K} `{!SocketLaws K}.

(** A checked call whose effect on the view of a descriptor is [f]. *)
Lemma checked_wp {A} (c : K -> Sys A * K) (s : IO K) (Q : A -> K -> Prop) (R : K -> Prop) :
  match c s.2 with (sys_ok a, k') => Q a k' | (sys_err _, k') => R k' end ->
  wp (checked c) s (fun a s' => Q a s'.2) (fun _ s' => R s'.2).
Proof.
  intros Hc. apply wp_bind. unfold wp at 1, syscall. destruct (c s.2) as [[a|errno] k']; exact Hc.
Qed.

(** A step with the descriptor on top of the list, closed again if it fails. *)
Lemma or_close_wlp {A} fd (m : M (IO K) A) s rest Q :
  wlp m s Q (fun _ s' => k_handed s'.2 = fd :: rest) ->
  wlp (or_close fd m) s Q (fun _ s' => k_handed s'.2 = rest).
Proof.
  unfold wlp, or_close. destruct (m s) as [a s'|e s'|]; [done| |done].
  intros Hh. by apply k_close_law.
Qed.

Lemma detach_handed fd (s : IO K) : k_handed (loop_detach fd s).2 = k_handed s.2.
Proof.
  unfold loop_detach. destruct (detach fd _ (update_table (detach_datagrams fd) s).1) as [acts l].
  rewrite k_resume_law. cbn [snd]. apply k_table_handed.
Qed.

Lemma close_handle_handed fd (s : IO K) rest :
  k_handed s.2 = fd :: rest -> k_handed (close_handle fd s).2 = rest.
Proof. intros Hh. unfold close_handle. apply k_close_law. by rewrite detach_handed. Qed.

Lemma or_destroy_wlp {A} fd (m : M (IO K) A) s rest Q :
  wlp m s Q (fun _ s' => k_handed s'.2 = fd :: rest) ->
  wlp (or_destroy fd m) s Q (fun _ s' => k_handed s'.2 = rest).
Proof.
  unfold wlp, or_destroy. destruct (m s) as [a s'|e s'|]; [done| |done].
  intros Hh. by apply close_handle_handed.
Qed.

(** Views as a descriptor is configured: [h] are the descriptors held, which a
    failing step leaves alone. *)
Definition step_to {A} (m : M (IO K) A) (fd : Z) (h : list Z) (s : IO K) (c : Config) : Prop :=
  wp m s (fun _ s' => k_view fd s'.2 = (h, c)) (fun _ s' => k_handed s'.2 = h).

Lemma checked_step {A} (call : K -> Sys A * K) fd h c c' s :
  k_view fd s.2 = (h, c) ->
  match call s.2 with
  | (sys_ok _, k') => k_view fd k' = (k_handed s.2, c')
  | (sys_err _, k') => k_view fd k' = k_view fd s.2
  end -> step_to (checked call) fd h s c'.
Proof.
  intros Hv Hc. apply (checked_wp _ s (fun _ k => k_view fd k = _) (fun k => k_handed k = h)).
  injection Hv as Hh Hcf. destruct (call s.2) as [[a|e] k']; [by rewrite Hc, Hh|].
  injection Hc as -> _. done.
Qed.

Lemma quiet_step {A} (call : K -> Sys A * K) fd h c s :
  k_view fd s.2 = (h, c) -> k_view fd (call s.2).2 = k_view fd s.2 -> step_to (checked call) fd h s c.
Proof.
  intros Hv Hc. apply (checked_step call fd h c); [done|].
  destruct (call s.2) as [[a|e] k']; simpl in Hc; [|done]. rewrite Hc, Hv. by injection Hv as ->.
Qed.

Lemma skip_step fd h c s : k_view fd s.2 = (h, c) -> step_to (out_ret tt) fd h s c.
Proof. intros Hv. by apply wp_ret. Qed.

Lemma set_option_step fd h c level opt v s :
  k_view fd s.2 = (h, c) ->
  step_to (set_option fd level opt v) fd h s (with_opts [(level, opt, if v then 1 else 0)] c).
Proof.
  intros Hv. eapply checked_step; [exact Hv|]. injection Hv as _ <-. apply k_setsockopt_law.
Qed.

Lemma bind_step fd h c a s :
  k_view fd s.2 = (h, c) -> step_to (bind_socket fd a) fd h s (with_bound a c).
Proof. intros Hv. eapply checked_step; [exact Hv|]. injection Hv as _ <-. apply k_bind_law. Qed.

Lemma listen_step fd h c n s :
  k_view fd s.2 = (h, c) -> step_to (listen_socket fd n) fd h s (with_backlog n c).
Proof. intros Hv. eapply checked_step; [exact Hv|]. injection Hv as _ <-. apply k_listen_law. Qed.

Lemma cloexec_step fd h c s :
  k_view fd s.2 = (h, c) -> step_to (checked (k_set_cloexec fd)) fd h s (with_cloexec c).
Proof. intros Hv. eapply checked_step; [exact Hv|]. injection Hv as _ <-. apply k_cloexec_law. Qed.

(** Sequencing steps. *)
Lemma step_bind {A B} (m : M (IO K) A) (f : A -> M (IO K) B) fd h s c Q :
  step_to m fd h s c ->
  (forall a s', k_view fd s'.2 = (h, c) -> wlp (f a) s' Q (fun _ s' => k_handed s'.2 = h)) ->
  wlp (out_bind m f) s Q (fun _ s' => k_handed s'.2 = h).
Proof. intros Hm Hf. apply wlp_bind. eapply wlp_mono; [apply wp_wlp, Hm|exact Hf|done]. Qed.

Lemma with_opts_nil c : with_opts [] c = c.
Proof. destruct c. unfold with_opts. simpl. by rewrite app_nil_r. Qed.

Lemma with_opts_app os os' c : with_opts os' (with_opts os c) = with_opts (os ++ os') c.
Proof. unfold with_opts. simpl. by rewrite <- app_assoc. Qed.

Lemma view_handed fd k h c : k_view fd k = (h, c) -> k_handed k = h.
Proof. by intros [= -> _]. Qed.
End Hold.

Section Creating.
Context {K : Type} `{Kernel K} `{DatagramKernel K} `{SocketKernel K}.
Context `{!ConnectionLaws K} `{!SocketLaws K}.

(** A new descriptor of the kind asked for; whether it is closed on exec is open. *)
Lemma create_wlp f s :
  wlp (create_tcp_socket f) s
    (fun fd s' => exists c, k_view fd s'.2 = (fd :: k_handed s.2, c) /\
       (c = made (Some (f, SOCK_STREAM, IPPROTO_TCP)) \/
        c = with_cloexec (made (Some (f, SOCK_STREAM, IPPROTO_TCP)))))
    (fun _ s' => k_handed s'.2 = k_handed s.2).
Proof.
  unfold create_tcp_socket. set (c0 := made _). apply wlp_bind.
  eapply wlp_mono; [apply wp_wlp, (checked_wp _ s (fun fd k => k_view fd k = (fd :: k_handed s.2, c0))
    (fun k => k_handed k = k_handed s.2))|..].
  { pose proof (k_socket_law f SOCK_STREAM IPPROTO_TCP s.2) as Hl.
    by destruct (k_socket f SOCK_STREAM IPPROTO_TCP s.2) as [[fd|e] k']. }
  2: done.
  intros fd s1 V1. cbv beta in V1. apply wlp_bind.
  eapply wlp_mono; [apply (or_close_wlp fd _ s1 (k_handed s.2)
    (fun _ s' => k_view fd s'.2 = (fd :: k_handed s.2, c0)))|..].
  { eapply step_bind; [apply quiet_step; [exact V1|apply k_fd_law]|]. intros b s2 V2.
    apply wp_wlp. apply quiet_step; [exact V2|apply k_fd_law]. }
  2: done.
  intros u s2 V2. cbv beta in V2. apply wlp_bind. unfold wlp at 1, syscall.
  destruct (k_fd_law fd s2.2) as (Hg & _). destruct (k_getfd fd s2.2) as [[[]|e] k3]; cbn [snd] in Hg;
    rewrite V2 in Hg.
  - apply wlp_bind. unfold wlp at 1, syscall. cbn [fst snd]. pose proof (k_cloexec_law fd k3) as Hc.
    injection Hg as Hh Hcf. rewrite Hh, Hcf in Hc.
    destruct (k_set_cloexec fd k3) as [[[]|e] k4]; apply wlp_ret; cbn [snd].
    + eexists. split; [exact Hc|]. by right.
    + exists c0. split; [|by left]. unfold k_view in Hc |- *. by rewrite Hc, Hh, Hcf.
  - apply wlp_ret. cbn [snd]. exists c0. split; [exact Hg|by left].
Qed.

Lemma attach_view fd h c s :
  k_view fd s.2 = (h, c) ->
  wlp (attach fd) s
    (fun _ s' => k_view fd s'.2 = (h, c) /\ k_is_nonblocking fd s'.2 = true)
    (fun _ s' => k_handed s'.2 = h).
Proof.
  intros Hv. assert (wlp (attach fd) s (fun _ s' => k_view fd s'.2 = (h, c)) (fun _ _ => True)) as Hk.
  { destruct s as [l k]. cbn [snd] in Hv. apply wlp_bind, wlp_require; intros _; [|done].
    apply wlp_bind, wlp_require; intros _; [|done]. apply wlp_bind. unfold wlp at 1, syscall. cbn [fst snd].
    destruct (k_fd_law fd k) as (_ & Hn & _).
    destruct (k_nonblocking fd k) as [[[]|errno] k']; cbn [snd] in Hn; [by apply wlp_ret; cbn; congruence| |done].
    apply wlp_bind. unfold wlp at 1, syscall. cbn [fst snd]. destruct (k_fd_law fd k') as (_ & _ & Hs).
    destruct (k_set_nonblocking fd k') as [[[]|errno] k2]; cbn [snd] in Hs; [|done].
    apply wlp_ret. cbn. congruence. }
  eapply wlp_mono; [apply (wlp_both _ _ _ _ _ _ Hk (wp_wlp _ _ _ _ (attach_wp fd s)))|..].
  - intros [] s' [H1' [_ H2']]. done.
  - intros e s' [_ Hs']. cbv beta in Hs'. rewrite Hs'. by apply view_handed in Hv.
Qed.

(** The address is read back and must be one this library understands. *)
Lemma local_then_wlp {A} fd h c s (f : Endpoint -> M (IO K) A) Q :
  k_view fd s.2 = (h, c) ->
  (forall local s', k_view fd s'.2 = (h, c) -> valid local ->
     wlp (f local) s' Q (fun _ s' => k_handed s'.2 = h)) ->
  wlp (let! scratch := local_address fd in let! local := lift (endpoint_from_bytes scratch) in f local) s Q
    (fun _ s' => k_handed s'.2 = h).
Proof.
  intros Hv Hf. eapply step_bind; [apply quiet_step; [exact Hv|apply k_getsockname_law]|].
  intros scratch s' Hs'. apply wlp_bind. unfold wlp at 1, lift.
  destruct (endpoint_from_bytes scratch) as [local|e] eqn:El.
  - apply Hf; [done|]. by eapply from_bytes_valid.
  - cbv beta. by apply view_handed in Hs'.
Qed.

Lemma exclusive_wlp {A} fd h c (s : IO K) (excl reuse : bool) (f : unit -> M (IO K) A) Q :
  k_view fd s.2 = (h, c) ->
  (forall s' : IO K, k_view fd s'.2 = (h, with_opts ((if reuse then [(SOL_SOCKET, SO_REUSEADDR, 1)] else []) ++
       (if excl then [] else [(SOL_SOCKET, SO_REUSEPORT, 1)])) c) ->
     wlp (f tt) s' Q (fun _ s' => k_handed s'.2 = h)) ->
  wlp (out_bind (apply_exclusive_bind fd excl reuse) f) s Q (fun _ s' => k_handed s'.2 = h).
Proof.
  intros Hv Hf. apply wlp_bind. unfold apply_exclusive_bind.
  eapply (step_bind _ _ fd h s (with_opts (if reuse then [(SOL_SOCKET, SO_REUSEADDR, 1)] else []) c)).
  - destruct reuse; [by apply set_option_step|rewrite with_opts_nil; by apply skip_step].
  - intros [] s1 V1. rewrite <- with_opts_app in Hf. destruct excl.
    + apply wlp_ret, Hf. by rewrite with_opts_nil.
    + eapply wlp_mono; [by apply wp_wlp, set_option_step|intros [] s2 V2; by apply Hf|done].
Qed.

Lemma dual_step fd h s c e dual :
  k_view fd s.2 = (h, c) ->
  step_to (if bool_decide (family e = ipv6) then apply_dual_stack fd dual else out_ret tt) fd h s
    (with_opts (dual_opts e dual) c).
Proof.
  intros Hv. unfold dual_opts. destruct (bool_decide _); [|rewrite with_opts_nil; by apply skip_step].
  pose proof (set_option_step fd h c IPPROTO_IPV6 IPV6_V6ONLY (negb dual) s Hv) as Hs.
  by destruct dual.
Qed.

(** What [Listener::bind] leaves on the descriptor. *)
Definition listening_config (e : Endpoint) (o : ListenOptions) (cloexec : bool) : Config :=
  mk_config (Some (native_family e, SOCK_STREAM, IPPROTO_TCP)) cloexec (listen_opts e o)
    (Some (address_bytes e, listen_opts e o)) (Some (backlog o)) None.

Lemma listener_bind_wlp e o s :
  wlp (listener_bind e o) s
    (fun ln s' => k_handed s'.2 = ln_handle ln :: k_handed s.2 /\
       (exists cloexec, k_config (ln_handle ln) s'.2 = listening_config e o cloexec) /\
       k_is_nonblocking (ln_handle ln) s'.2 = true /\ valid (ln_local ln) /\ ln_options ln = o)
    (fun _ s' => k_handed s'.2 = k_handed s.2).
Proof.
  unfold listener_bind. apply wlp_bind. eapply wlp_mono; [apply create_wlp| |done].
  intros fd s1 (c & V1 & Hc). apply or_close_wlp.
  eapply exclusive_wlp; [exact V1|]. intros s2 V2.
  eapply step_bind; [by apply dual_step|]. intros [] s3 V3.
  eapply step_bind; [apply bind_step; exact V3|]. intros [] s4 V4.
  eapply step_bind; [apply listen_step; exact V4|]. intros [] s5 V5.
  eapply local_then_wlp; [exact V5|]. intros local s6 V6 Hl. apply wlp_bind.
  eapply wlp_mono; [by apply attach_view|..].
  - intros [] s7 [V7 Hn]. apply wlp_ret. injection V7 as Hh Hcf.
    split_and!; [done| |done|done|done]. exists (cf_cloexec c). cbn [ln_handle]. rewrite Hcf.
    unfold listening_config, listen_opts.
    destruct Hc as [-> | ->]; unfold with_backlog, with_bound, with_opts; simpl; by rewrite <- app_assoc.
  - done.
Qed.

(** What [udp::Socket::bind] leaves on the descriptor. *)
Definition datagram_config (e : Endpoint) (dual : bool) : Config :=
  mk_config (Some (native_family e, SOCK_DGRAM, IPPROTO_UDP)) true (dual_opts e dual)
    (Some (address_bytes e, dual_opts e dual)) None None.

Lemma udp_bind_wlp e dual s :
  wlp (udp_bind e dual) s
    (fun u s' => k_handed s'.2 = udp_handle u :: k_handed s.2 /\
       k_config (udp_handle u) s'.2 = datagram_config e dual /\
       k_is_nonblocking (udp_handle u) s'.2 = true /\ valid (udp_local u))
    (fun _ s' => k_handed s'.2 = k_handed s.2).
Proof.
  unfold udp_bind. apply wlp_bind, wlp_require; intros _; [|done]. apply wlp_bind.
  eapply wlp_mono; [apply wp_wlp, (checked_wp _ s
    (fun fd k => k_view fd k = (fd :: k_handed s.2, made (Some (native_family e, SOCK_DGRAM, IPPROTO_UDP))))
    (fun k => k_handed k = k_handed s.2))| |done].
  { pose proof (k_socket_law (native_family e) SOCK_DGRAM IPPROTO_UDP s.2) as Hl.
    by destruct (k_socket (native_family e) SOCK_DGRAM IPPROTO_UDP s.2) as [[fd|err] k']. }
  intros fd s1 V1. cbv beta in V1. apply or_close_wlp.
  eapply step_bind; [apply quiet_step; [exact V1|apply k_fd_law]|]. intros [] s2 V2.
  eapply step_bind; [apply cloexec_step; exact V2|]. intros [] s3 V3.
  eapply step_bind; [by apply dual_step|]. intros [] s4 V4.
  eapply step_bind; [apply bind_step; exact V4|]. intros [] s5 V5.
  eapply local_then_wlp; [exact V5|]. intros local s6 V6 Hl. apply wlp_bind.
  eapply wlp_mono; [by apply attach_view|..].
  - intros [] s7 [V7 Hn]. apply wlp_ret. by injection V7 as Hh Hcf.
  - done.
Qed.
End Creating.

Section Connecting.
Context {K : Type} `{Kernel K} `{DatagramKernel K} `{SocketKernel K}.
Context `{!ConnectionLaws K} `{!SocketLaws K}.

(** [apply_no_delay] sets its option, and leaves what is known of connections. *)
Lemma no_delay_wlp fd h c enabled s :
  k_view fd s.2 = (h, c) ->
  wlp (apply_no_delay fd enabled) s
    (fun _ s' => k_view fd s'.2 = (h, with_opts (no_delay_opts enabled) c) /\
       k_established fd s'.2 = k_established fd s.2 /\ k_is_nonblocking fd s'.2 = k_is_nonblocking fd s.2)
    (fun _ s' => k_handed s'.2 = h).
Proof.
  intros Hv. unfold apply_no_delay, no_delay_opts.
  destruct enabled; [|rewrite with_opts_nil; by apply wlp_ret].
  assert (wlp (set_option fd IPPROTO_TCP TCP_NODELAY true) s
    (fun _ s' => k_established fd s'.2 = k_established fd s.2 /\
       k_is_nonblocking fd s'.2 = k_is_nonblocking fd s.2) (fun _ _ => True)) as Hk.
  { apply wp_wlp, (checked_wp _ s (fun _ k => k_established fd k = k_established fd s.2 /\
      k_is_nonblocking fd k = k_is_nonblocking fd s.2) (fun _ => True)).
    destruct (k_setsockopt_law fd IPPROTO_TCP TCP_NODELAY 1 s.2) as [_ He]. specialize (He fd).
    by destruct (k_setsockopt fd IPPROTO_TCP TCP_NODELAY 1 s.2) as [[[]|e] k']. }
  eapply wlp_mono; [apply (wlp_both _ _ _ _ _ _ (wp_wlp _ _ _ _
    (set_option_step fd h c IPPROTO_TCP TCP_NODELAY true s Hv)) Hk)|..].
  - by intros [] s' [? ?].
  - by intros e s' [? _].
Qed.

(** A descriptor just accepted is as accept(2) made it, and non-blocking. *)
Lemma accept_call_view listener o s :
  wp (accept_call listener o) s
    (fun r s' => match r with
       | Some a => k_view a s'.2 = (a :: k_handed s.2, made None) /\ k_is_nonblocking a s'.2 = true
       | None => k_handed s'.2 = k_handed s.2
       end)
    (fun _ s' => k_handed s'.2 = k_handed s.2).
Proof.
  destruct s as [l k]. unfold accept_call. apply wp_bind. unfold wp at 1, syscall. cbn [fst snd].
  pose proof (k_accept_law listener k) as Ha. pose proof (k_accepted_law listener k) as Hv.
  destruct (k_accept listener k) as [[a|errno] k'].
  - specialize (Hv a k' eq_refl). destruct Ha as [_ Ha].
    pose proof (attach_view a _ _ (l, k') Hv) as Hat. pose proof (attach_wp a (l, k')) as Hne.
    unfold wp, wlp in *. destruct (attach a (l, k')) as [[] [l' k2]|e [l' k2]|]; cbn [fst snd] in *; [done| |done].
    by apply k_close_law.
  - destruct (errno =? ECONNABORTED); [done|]. by apply (again_round k_handed k_sleep_law).
Qed.

Lemma loop_accept_view listener o s :
  wlp (loop_accept listener o) s
    (fun a s' => k_view a s'.2 = (a :: k_handed s.2, made None) /\ k_is_nonblocking a s'.2 = true)
    (fun _ s' => k_handed s'.2 = k_handed s.2).
Proof.
  apply checks_wlp; [done|]. apply (retry_wlp k_handed (accept_call listener o)
    (fun a h k' => k_view a k' = (a :: h, made None) /\ k_is_nonblocking a k' = true)).
  intros s1. apply accept_call_view.
Qed.

Lemma listener_accept_wlp ln o s :
  wlp (listener_accept ln o) s
    (fun a s' => k_handed s'.2 = a :: k_handed s.2 /\
       k_config a s'.2 = with_opts (no_delay_opts (no_delay (ln_options ln))) (made None) /\
       k_is_nonblocking a s'.2 = true)
    (fun _ s' => k_handed s'.2 = k_handed s.2).
Proof.
  unfold listener_accept, with_handle. apply wlp_bind, wlp_require; intros _; [|done].
  apply wlp_bind. eapply wlp_mono; [apply loop_accept_view| |done].
  intros a s1 [V1 Hn]. cbv beta in V1, Hn. apply or_destroy_wlp. apply wlp_bind. unfold wlp at 1, require.
  destruct (k_listening (ln_handle ln) s1.2); [|by apply view_handed in V1]. apply wlp_bind.
  eapply wlp_mono; [by apply no_delay_wlp|..].
  - intros [] s2 (V2 & _ & Hn2). apply wlp_ret. injection V2 as Hh Hcf. split_and!; [done|done|congruence].
  - done.
Qed.

(** While a connection is being made: the descriptor is held and non-blocking, and
    only the address of connect(2) may have been recorded. *)
Definition connecting (fd : Z) (h : list Z) (a : bytes) (c : Config) (k : K) : Prop :=
  k_handed k = h /\ with_peer a (k_config fd k) = with_peer a c /\ k_is_nonblocking fd k = true.

(** The same with the address recorded. *)
Definition called (fd : Z) (h : list Z) (a : bytes) (c : Config) (k : K) : Prop :=
  k_handed k = h /\ k_config fd k = with_peer a c /\ k_is_nonblocking fd k = true.

Lemma called_connecting fd h a c k : called fd h a c k -> connecting fd h a c k.
Proof. intros (Hh & Hc & Hn). split_and!; [done|by rewrite Hc|done]. Qed.

Lemma connect_called fd h a c k : connecting fd h a c k -> called fd h a c (k_connect fd a k).2.
Proof.
  intros (Hh & Hc & Hn). destruct (k_connect_view fd a k) as [Hv Hn']. injection Hv as Hh' Hc'.
  split_and!; congruence.
Qed.

Lemma called_so_error fd h a c k : called fd h a c k -> called fd h a c (k_so_error fd k).2.
Proof.
  intros (Hh & Hc & Hn). destruct (k_so_error_view fd k) as [Hv Hn']. injection Hv as Hh' Hc'.
  split_and!; congruence.
Qed.

Lemma called_sleeps fd rest a c id (s : IO K) :
  called fd (fd :: rest) a c s.2 -> called fd (fd :: rest) a c (k_suspend id s).2.2.
Proof.
  intros (Hh & Hc & Hn). pose proof (k_sleep_law id s) as Hh'.
  destruct (k_sleep_config id s fd) as [Hc' Hn']; [rewrite Hh; apply list_elem_of_here|].
  split_and!; congruence.
Qed.

Lemma connect_call_called fd rest a c o s :
  connecting fd (fd :: rest) a c s.2 ->
  wp (connect_call fd a o) s
    (fun r s' => match r with
       | Some _ => called fd (fd :: rest) a c s'.2
       | None => connecting fd (fd :: rest) a c s'.2
       end)
    (fun _ s' => k_handed s'.2 = fd :: rest).
Proof.
  intros Hk. destruct s as [l k]. unfold connect_call. apply wp_bind. unfold wp at 1, syscall. cbn [fst snd].
  change (connecting fd (fd :: rest) a c k) in Hk. pose proof (connect_called _ _ _ _ _ Hk) as Hc.
  destruct (k_connect fd a k) as [[[]|errno] k']; cbn [snd] in Hc; [exact Hc|].
  destruct (errno =? EINTR); [exact (called_connecting _ _ _ _ _ Hc)|].
  destruct (errno =? EISCONN); [exact Hc|]. destruct (negb _); [apply Hc|].
  apply wp_bind. eapply wp_mono.
  { apply (wait_keeps (called fd (fd :: rest) a c)); [intros id s0; exact (called_sleeps fd rest a c id s0)|exact Hc]. }
  - intros u [l2 k2] Hc2. apply wp_bind. unfold wp at 1, syscall. cbn [fst snd].
    apply called_so_error in Hc2. cbn [snd] in Hc2.
    destruct (k_so_error fd k2) as [[pending|err] k3]; cbn [snd] in Hc2; [|apply Hc2].
    apply wp_bind, wp_require; intros _; [exact Hc2|apply Hc2].
  - intros e s' Hc'. apply Hc'.
Qed.

Lemma loop_connect_called fd rest a c o s :
  connecting fd (fd :: rest) a c s.2 ->
  wlp (loop_connect fd a o) s
    (fun _ s' => called fd (fd :: rest) a c s'.2) (fun _ s' => k_handed s'.2 = fd :: rest).
Proof.
  intros Hk. apply wlp_bind, wlp_require; intros _; [|apply Hk].
  apply wlp_bind, wlp_require; intros _; [|apply Hk].
  apply wlp_bind. unfold wlp at 1, check_options. destruct (rejected_before_submit _ _); [apply Hk|].
  apply (retry_keeps (connecting fd (fd :: rest) a c) (connect_call fd a o)
    (fun _ k => called fd (fd :: rest) a c k) (fun _ k => k_handed k = fd :: rest)); [|done].
  intros s' Hs'. eapply wp_mono; [by apply connect_call_called| |done]. by intros [[]|] s2.
Qed.

(** What [tcp::connect] leaves on the descriptor. *)
Definition connected_config (e : Endpoint) (nodelay cloexec : bool) : Config :=
  mk_config (Some (native_family e, SOCK_STREAM, IPPROTO_TCP)) cloexec (no_delay_opts nodelay)
    None None (Some (address_bytes e)).

Lemma tcp_connect_wlp e nodelay o s :
  wlp (tcp_connect e nodelay o) s
    (fun fd s' => k_handed s'.2 = fd :: k_handed s.2 /\ k_established fd s'.2 = true /\
       (exists cloexec, k_config fd s'.2 = connected_config e nodelay cloexec) /\
       k_is_nonblocking fd s'.2 = true)
    (fun _ s' => k_handed s'.2 = k_handed s.2).
Proof.
  unfold tcp_connect. apply wlp_bind. eapply wlp_mono; [apply create_wlp| |done].
  intros fd s1 (c & V1 & Hc). apply wlp_bind. eapply wlp_mono.
  { apply (or_close_wlp fd _ s1 (k_handed s.2) (fun _ s' =>
      k_view fd s'.2 = (fd :: k_handed s.2, c) /\ k_is_nonblocking fd s'.2 = true)).
    by apply attach_view. }
  2: done.
  intros u s2 [V2 Hn2]. injection V2 as Hh2 Hc2. apply or_destroy_wlp. apply wlp_bind.
  assert (connecting fd (fd :: k_handed s.2) (address_bytes e) c s2.2) as Hk by (split_and!; congruence).
  eapply wlp_mono; [apply (wlp_both _ _ _ _ _ _ (loop_connect_established fd (address_bytes e) o s2)
    (loop_connect_called fd _ (address_bytes e) c o s2 Hk))|..].
  - intros [] s3 [He (Hh3 & Hc3 & Hn3)]. apply wlp_bind.
    eapply wlp_mono; [apply (no_delay_wlp fd (fd :: k_handed s.2) (with_peer (address_bytes e) c));
      unfold k_view; by rewrite Hh3, Hc3|..].
    + intros [] s4 (V4 & He4 & Hn4). apply wlp_ret. injection V4 as Hh4 Hc4.
      split_and!; [done|congruence| |congruence]. exists (cf_cloexec c). rewrite Hc4.
      by destruct Hc as [-> | ->].
    + done.
  - intros err s3 [_ H3]. exact H3.
Qed.
End Connecting.

(** C27: making a socket leaves the descriptor configured in the hands of the
    caller, or closed, whichever system call fails.  A listener, a connection, an
    accepted connection and a datagram socket that are returned each add exactly
    their own descriptor to those held and are non-blocking; every failure, also one
    after the descriptor was attached or while a listener was closed under a waiting
    accept, leaves the descriptors held as they were.  What was done to the
    descriptor is exactly this: a listener and a datagram socket are of the
    endpoint's family, bound to the address asked for with the options asked for
    already in force (sharing a port only if not exclusive, dual stack on IPv6 only)
    and report a well-formed local address; a listener listens with the backlog
    asked for, a datagram socket is closed on exec; an accepted connection and one
    returned by [connect] have TCP_NODELAY set if it was asked for and no other
    option, and the latter is established, to the address asked for.  Closing a
    datagram socket gives its descriptor up once, and again does nothing.  Nothing
    is claimed of an accept or connect that the kernel keeps putting off. *)
Theorem sockets_leak_nothing {K : Type} {HK : Kernel K} {HD : DatagramKernel K} {HS : SocketKernel K}
    {HC : ConnectionLaws K} {HL : SocketLaws K} (io : IO K) :
  let same (io' : IO K) := k_handed io'.2 = k_handed io.2 in
  (forall e o, wlp (listener_bind e o) io
     (fun ln io' => k_handed io'.2 = ln_handle ln :: k_handed io.2 /\
        (exists cloexec, k_config (ln_handle ln) io'.2 = listening_config e o cloexec) /\
        k_is_nonblocking (ln_handle ln) io'.2 = true /\ valid (ln_local ln) /\ ln_options ln = o)
     (fun _ => same)) /\
  (forall ln o, wlp (listener_accept ln o) io
     (fun a io' => k_handed io'.2 = a :: k_handed io.2 /\
        k_config a io'.2 = with_opts (no_delay_opts (no_delay (ln_options ln))) (made None) /\
        k_is_nonblocking a io'.2 = true)
     (fun _ => same)) /\
  (forall e nodelay o, wlp (tcp_connect e nodelay o) io
     (fun fd io' => k_handed io'.2 = fd :: k_handed io.2 /\ k_established fd io'.2 = true /\
        (exists cloexec, k_config fd io'.2 = connected_config e nodelay cloexec) /\
        k_is_nonblocking fd io'.2 = true)
     (fun _ => same)) /\
  (forall e dual, wlp (udp_bind e dual) io
     (fun u io' => k_handed io'.2 = udp_handle u :: k_handed io.2 /\
        k_config (udp_handle u) io'.2 = datagram_config e dual /\
        k_is_nonblocking (udp_handle u) io'.2 = true /\ valid (udp_local u))
     (fun _ => same)) /\
  (forall u rest, k_handed io.2 = udp_handle u :: rest -> udp_handle u <> invalid_handle ->
     let '(st, io') := udp_close (Some u) io in
     k_handed io'.2 = rest /\ forall io2, udp_close st io2 = (st, io2)).
Proof.
  intros same. split_and!.
  - intros e o. apply listener_bind_wlp.
  - intros ln o. apply listener_accept_wlp.
  - intros e nodelay o. apply tcp_connect_wlp.
  - intros e dual. apply udp_bind_wlp.
  - intros u rest Hh Hne. unfold udp_close. rewrite (proj2 (Z.eqb_neq _ _) Hne).
    split; [by apply close_handle_handed|done].
Qed.

(** ** A concrete machine *)

(** The descriptors it has handed out, the next number, those made non-blocking,
    what was done to each, and the error listen(2) gives (0: none). *)
Record Machine := mk_machine {
  m_handed : list Z;
  m_next : nat;
  m_nonblocking : list Z;
  m_config : Z -> Config;
  m_table : Datagrams;
  m_listen_error : Z
}.

Definition upd {A} (fd : Z) (a : A) (f : Z -> A) : Z -> A := fun x => if x =? fd then a else f x.

Definition open_fd (kind : option (Z * Z * Z)) (m : Machine) : Sys Z * Machine :=
  let fd := Z.of_nat (m_next m) in
  (sys_ok fd, mk_machine (fd :: m_handed m) (S (m_next m)) (m_nonblocking m)
                (upd fd (made kind) (m_config m)) (m_table m) (m_listen_error m)).

(** A call that changes what is known of a descriptor by [f]. *)
Definition configure (f : Config -> Config) (fd : Z) (m : Machine) : Machine :=
  mk_machine (m_handed m) (m_next m) (m_nonblocking m) (upd fd (f (m_config m fd)) (m_config m))
    (m_table m) (m_listen_error m).

#[export] Instance machine_kernel : Kernel Machine := {
  k_read := fun _ _ m => (sys_ok [], m);
  k_write := fun _ _ m => (sys_ok 0%nat, m);
  k_writev := fun _ _ m => (sys_ok 0%nat, m);
  k_accept := fun _ => open_fd None;
  k_connect := fun fd a m => (sys_ok tt, configure (with_peer a) fd m);
  k_so_error := fun _ m => (sys_ok 0, m);
  k_nonblocking := fun fd m => (sys_ok (bool_decide (fd ∈ m_nonblocking m)), m);
  k_set_nonblocking := fun fd m =>
    (sys_ok tt, mk_machine (m_handed m) (m_next m) (fd :: m_nonblocking m) (m_config m)
                  (m_table m) (m_listen_error m));
  k_close := fun fd m => mk_machine (tail (m_handed m)) (m_next m) (m_nonblocking m) (m_config m)
                           (m_table m) (m_listen_error m);
  k_arm := fun _ _ => None;
  k_now := fun _ => 0;
  k_stopped := fun _ _ => false;
  k_coroutine := fun _ => 1;
  k_suspend := fun id s => (Ok tt, ((finalize id None s.1).2, s.2));
  k_rounds := fun _ => 0%nat
}.

#[export] Instance machine_datagrams : DatagramKernel Machine := {
  k_recvmsg := fun _ _ m => (sys_err 5, m);
  k_sendto := fun _ _ _ m => (sys_err 5, m);
  k_table := m_table;
  k_set_table := fun d m => mk_machine (m_handed m) (m_next m) (m_nonblocking m) (m_config m)
                              d (m_listen_error m)
}.

#[export] Instance machine_sockets : SocketKernel Machine := {
  k_socket := fun f ty p => open_fd (Some (f, ty, p));
  k_getfd := fun _ m => (sys_ok tt, m);
  k_set_cloexec := fun fd m => (sys_ok tt, configure with_cloexec fd m);
  k_setsockopt := fun fd level opt v m => (sys_ok tt, configure (with_opts [(level, opt, v)]) fd m);
  k_bind := fun fd a m => (sys_ok tt, configure (with_bound a) fd m);
  k_listen := fun fd n m =>
    if m_listen_error m =? 0 then (sys_ok tt, configure (with_backlog n) fd m)
    else (sys_err (m_listen_error m), m);
  k_getsockname := fun fd m =>
    (match cf_bound (m_config m fd) with Some (a, _) => sys_ok a | None => sys_err 22 end, m);
  k_getpeername := fun _ m => (sys_err 107, m);
  k_shutdown_write := fun _ m => (sys_ok tt, m);
  k_listening := fun _ _ => true;
  k_resume := fun _ s => s
}.

#[export] Instance machine_connections : ConnectionLaws Machine.
Proof.
  refine {| k_handed := m_handed; k_is_nonblocking := fun fd m => bool_decide (fd ∈ m_nonblocking m);
            k_established := fun _ _ => true; k_writable := fun _ _ => true |};
    intros; unfold sleeps_well; simpl; try done.
  - split; [lia|done].
  - split; [done|]. apply bool_decide_eq_true. apply list_elem_of_here.
  - by rewrite H.
Defined.

Lemma upd_same {A} fd (a : A) f : upd fd a f fd = a.
Proof. unfold upd. by rewrite Z.eqb_refl. Qed.

#[export] Instance machine_laws : SocketLaws Machine.
Proof.
  refine {| k_config := fun fd m => m_config m fd |};
    intros; cbn; unfold configure, open_fd in *; cbn; rewrite ?upd_same; try done.
  - injection H as <- <-. cbn. by rewrite upd_same.
  - destruct (m_listen_error k =? 0); cbn; by rewrite ?upd_same.
Defined.

Definition machine (listen_error : Z) : Machine :=
  mk_machine [2; 1; 0] 3 [] (fun _ => made None) no_datagrams listen_error.

Definition any6 : Endpoint := endpoint_any 8080 ipv6.

Lemma sockets_leak_nothing_witness :
  (exists io', listener_bind (K := Machine) any6 default_listen_options (new_loop, machine 0) =
     Returns (mk_listener 3 any6 default_listen_options) io' /\ m_handed io'.2 = [3; 2; 1; 0] /\
     m_config io'.2 3 = listening_config any6 default_listen_options true) /\
  (exists io', listener_bind (K := Machine) any6 default_listen_options (new_loop, machine 98) =
     Fails (system_error 98) io' /\ m_handed io'.2 = [2; 1; 0]) /\
  (exists io', listener_accept (K := Machine) (mk_listener 2 any6 default_listen_options) no_io
       (new_loop, machine 0) = Returns 3 io' /\
     cf_opts (m_config io'.2 3) = [(IPPROTO_TCP, TCP_NODELAY, 1)]) /\
  (exists io', tcp_connect (K := Machine) any6 true no_io (new_loop, machine 0) = Returns 3 io' /\
     m_config io'.2 3 = connected_config any6 true true) /\
  (let '(st, io') := udp_close (K := Machine) (Some (mk_udp 2 any6)) (new_loop, machine 0) in
   m_handed io'.2 = [1; 0] /\ forall io2, udp_close (K := Machine) st io2 = (st, io2)).
Proof.
  split; [eexists; split; [vm_compute; reflexivity|split; vm_compute; reflexivity]|].
  split; [eexists; split; vm_compute; reflexivity|].
  split; [eexists; split; vm_compute; reflexivity|].
  split; [eexists; split; vm_compute; reflexivity|].
  exact (proj2 (proj2 (proj2 (proj2 (sockets_leak_nothing (K := Machine) (new_loop, machine 0)))))
           (mk_udp 2 any6) [1; 0] eq_refl ltac:(discriminate)).
Defined.
