(* ===== verification/Resolver.v ===== *)
(** * Resolver: name resolution on a fixed pool of threads

    Models transport/src/resolver.cpp: what a backend's answer becomes
    ([append_endpoint], [system_resolve], the body of [work]), and the whole
    resolver as a transition system in which every critical section, every
    [request_stop] and every notification is a step of its own.

    A [Job] is identified by the call of [resolve] that made it: the source
    makes one [shared_ptr<Job>] per call and compares them by identity only, so
    the job of call [i] is [i] in the queue and in [active].  The State mutex is
    held over several steps by [resolve] (which takes each pending job's mutex
    in turn) and by [close] (which takes each job's mutex and then requests its
    stop); the flag [locked] makes that visible.  The stop callback registered
    by [resolve] runs on the thread that requests the stop and is two steps.

    Threads of the pool are [workers]; a thread blocked in the condition
    variable leaves it by a notification or spuriously.  The names and addresses
    themselves come from a backend, the parameter [backend]. *)

From S2P Require Import Prelude Errors Endpoint.

Abbreviation Endpoints := (list Endpoint).

(** ** Queries and answers *)

(** [ResolveQuery]; the two enumerations by their underlying values, since
    [resolve] checks them: [Family] counts from 0 and [ResolveTransport] too. *)
Record ResolveQuery := {
  hostname : bytes;
  service : bytes;
  q_family : option Z;
  q_transport : Z
}.

(** [ResolverOptions] *)
Record ResolverOptions := {
  opt_workers : nat;
  queue_capacity : nat;
  max_results : nat
}.

Definition FAMILY_IPV4 : Z := 0.
Definition FAMILY_IPV6 : Z := 1.
Definition TRANSPORT_TCP : Z := 0.
Definition TRANSPORT_UDP : Z := 1.

Definition EAI_NONAME : Z := -2.
Definition EAI_SYSTEM : Z := -11.

(** [resolver_error] *)
Definition resolver_error (native_code : Z) : Error :=
  {| ec_value := native_code; ec_category := resolver_category |}.

(** [socket_error] on POSIX *)
Definition socket_error (native_code : Z) : Error :=
  {| ec_value := native_code; ec_category := system_category |}.

(** [std::make_error_code(std::errc::not_enough_memory)] *)
Definition not_enough_memory : Error := {| ec_value := 12; ec_category := generic_category |}.

(** [append_endpoint] *)
Definition append_endpoint (out : Endpoints) (e : Endpoint) (limit : nat) : Result Endpoints :=
  if bool_decide (address_bytes e = []) then fail Errc.invalid_argument
  else if existsb (same_endpoint e) out then Ok out
  else if (length out =? limit)%nat then fail Errc.limit_exceeded
  else Ok (out ++ [e]).

(** [for (auto& endpoint : *result) { append_endpoint(unique, ...); ... }],
    left at the first failure. *)
Fixpoint append_all (out l : Endpoints) (limit : nat) : Result Endpoints :=
  match l with
  | [] => Ok out
  | e :: l' =>
      match append_endpoint out e limit with
      | Ok out' => append_all out' l' limit
      | Fail err => Fail err
      end
  end.

(** How a call of the backend ends: [std::bad_alloc] and other exceptions are
    caught by [work].  An allocation that fails in the loop over the answer ends
    like a backend that ran out of memory. *)
Inductive Answer :=
| answered (r : Result Endpoints)
| threw_bad_alloc
| threw_other.

(** The [try] block of [work]: what is published for an answer. *)
Definition published (a : Answer) (limit : nat) : Result Endpoints :=
  match a with
  | answered (Fail e) => Fail e
  | answered (Ok l) =>
      match append_all [] l limit with
      | Fail e => Fail e
      | Ok [] => Fail (resolver_error EAI_NONAME)
      | Ok unique => Ok unique
      end
  | threw_bad_alloc => Fail not_enough_memory
  | threw_other => Fail io_error
  end.

(** ** The system backend *)

(** The members of [addrinfo] the code sets in the hints and reads back. *)
Record Hints := { ai_family : Z; ai_socktype : Z; ai_protocol : Z }.

Definition AF_UNSPEC : Z := 0.

Definition resolve_hints (q : ResolveQuery) : Hints := {|
  ai_family := match q_family q with
               | None => AF_UNSPEC
               | Some f => if (f =? FAMILY_IPV4)%Z then AF_INET else AF_INET6
               end;
  ai_socktype := if (q_transport q =? TRANSPORT_TCP)%Z then SOCK_STREAM else SOCK_DGRAM;
  ai_protocol := if (q_transport q =? TRANSPORT_TCP)%Z then IPPROTO_TCP else IPPROTO_UDP
|}.

(** What [getaddrinfo] gives: its status, the [errno] it left, and the chain of
    addresses with their families. *)
Record GaiResult := {
  gai_status : Z;
  gai_errno : Z;
  gai_list : list (Z * bytes)
}.

(** The loop of [system_resolve] over the chain. *)
Fixpoint collect_addresses (out : Endpoints) (l : list (Z * bytes)) (limit : nat)
    : Result Endpoints :=
  match l with
  | [] => Ok out
  | (f, addr) :: l' =>
      if negb (f =? AF_INET)%Z && negb (f =? AF_INET6)%Z then collect_addresses out l' limit
      else match endpoint_from_bytes addr with
      | Fail e => Fail e
      | Ok e =>
          match append_endpoint out e limit with
          | Fail err => Fail err
          | Ok out' => collect_addresses out' l' limit
          end
      end
  end.

(** [system_resolve], with [getaddrinfo] as an argument. *)
Definition system_resolve (getaddrinfo : bytes -> bytes -> Hints -> GaiResult)
    (q : ResolveQuery) (limit : nat) : Result Endpoints :=
  let g := getaddrinfo (hostname q) (service q) (resolve_hints q) in
  if (gai_status g =? EAI_SYSTEM)%Z then Fail (socket_error (gai_errno g))
  else if negb (gai_status g =? 0)%Z then Fail (resolver_error (gai_status g))
  else match collect_addresses [] (gai_list g) limit with
  | Fail e => Fail e
  | Ok [] => Fail (resolver_error EAI_NONAME)
  | Ok endpoints => Ok endpoints
  end.

(** ** The state *)

(** [Job]; [completion] is whether its stop source was requested to stop. *)
Record Job := mk_job {
  job_query : ResolveQuery;
  completion : bool;
  result : option (Result Endpoints);
  user_cancelled : bool;
  abandoned : bool;
  job_shutdown : bool
}.

Definition new_job (q : ResolveQuery) : Job := mk_job q false None false false false.

(** Where a call of [resolve] stands after its checks: about to take the State
    lock; inside [erase_if] with the jobs kept and those still to look at; about
    to notify; suspended in [sleep_until]; resumed with the result of the wait;
    returned. *)
Inductive Stage :=
| submitting
| purging (kept todo : list nat)
| notifying
| sleeping
| woken (waited : Result unit)
| returned (r : Result Endpoints).

(** The stop callback: not run, between its two statements, done. *)
Inductive Callback := cb_idle | cb_flagged | cb_done.

(** A call of [resolve]: its job, its position, its stop callback, its deadline,
    and whether the event loop it waits on has been shut down or moved from. *)
Record Call := mk_call {
  job : Job;
  stage : Stage;
  callback : Callback;
  deadline : option Z;
  loop_down : bool
}.

(** Where a thread of the pool stands in [work]: about to take the lock and test
    the condition; blocked; holding a job it has just taken, one it is resolving,
    one with a result to publish, one to complete, one to erase from [active];
    or returned. *)
Inductive Worker :=
| checking
| blocked
| took (j : nat)
| running (j : nat)
| storing (j : nat) (r : Result Endpoints)
| finishing (j : nat)
| erasing (j : nat)
| exited.

(** The destructor: not begun, waiting for the lock, closing the jobs of the
    queue and of [active] (the flag: [shutdown] set, stop not yet requested),
    about to notify, joining the threads, returned. *)
Inductive Closer :=
| is_open
| close_waiting
| flagging (todo : list nat) (half : bool)
| close_notifying
| joining
| closed.

Record Sys := mk_sys {
  options : ResolverOptions;
  queue : list nat;
  active : list nat;
  closing : bool;
  locked : bool;
  workers : list Worker;
  calls : list Call;
  closer : Closer;
  now : Z
}.

Definition set_job (f : Job -> Job) (c : Call) : Call :=
  mk_call (f (job c)) (stage c) (callback c) (deadline c) (loop_down c).
Definition set_stage (st : Stage) (c : Call) : Call :=
  mk_call (job c) st (callback c) (deadline c) (loop_down c).
Definition set_callback (b : Callback) (c : Call) : Call :=
  mk_call (job c) (stage c) b (deadline c) (loop_down c).

Definition complete_job (b : Job) : Job :=
  mk_job (job_query b) true (result b) (user_cancelled b) (abandoned b) (job_shutdown b).
Definition set_result (r : Result Endpoints) (b : Job) : Job :=
  mk_job (job_query b) (completion b) (Some r) (user_cancelled b) (abandoned b) (job_shutdown b).
Definition set_user_cancelled (b : Job) : Job :=
  mk_job (job_query b) (completion b) (result b) true (abandoned b) (job_shutdown b).
Definition set_abandoned (b : Job) : Job :=
  mk_job (job_query b) (completion b) (result b) (user_cancelled b) true (job_shutdown b).
Definition set_shutdown (b : Job) : Job :=
  mk_job (job_query b) (completion b) (result b) (user_cancelled b) (abandoned b) true.

Definition with_calls (s : Sys) (cs : list Call) : Sys :=
  mk_sys (options s) (queue s) (active s) (closing s) (locked s) (workers s) cs (closer s) (now s).
Definition with_workers (s : Sys) (ws : list Worker) : Sys :=
  mk_sys (options s) (queue s) (active s) (closing s) (locked s) ws (calls s) (closer s) (now s).
Definition with_queue (s : Sys) (q : list nat) : Sys :=
  mk_sys (options s) q (active s) (closing s) (locked s) (workers s) (calls s) (closer s) (now s).
Definition with_active (s : Sys) (a : list nat) : Sys :=
  mk_sys (options s) (queue s) a (closing s) (locked s) (workers s) (calls s) (closer s) (now s).
Definition with_locked (s : Sys) (b : bool) : Sys :=
  mk_sys (options s) (queue s) (active s) (closing s) b (workers s) (calls s) (closer s) (now s).
Definition with_closing (s : Sys) (b : bool) : Sys :=
  mk_sys (options s) (queue s) (active s) b (locked s) (workers s) (calls s) (closer s) (now s).
Definition with_closer (s : Sys) (c : Closer) : Sys :=
  mk_sys (options s) (queue s) (active s) (closing s) (locked s) (workers s) (calls s) c (now s).
Definition with_now (s : Sys) (t : Z) : Sys :=
  mk_sys (options s) (queue s) (active s) (closing s) (locked s) (workers s) (calls s) (closer s) t.

Definition update_call (i : nat) (f : Call -> Call) (s : Sys) : Sys :=
  with_calls s (alter f i (calls s)).
Definition update_job (i : nat) (f : Job -> Job) (s : Sys) : Sys :=
  update_call i (set_job f) s.
Definition set_worker (k : nat) (w : Worker) (s : Sys) : Sys :=
  with_workers s (<[k := w]> (workers s)).

(** ** [Resolver::create] *)

(** The state with its threads started. *)
Definition new_sys (o : ResolverOptions) (t : Z) : Sys :=
  mk_sys o [] [] false false (replicate (opt_workers o) checking) [] is_open t.

(** [failure] is what starting the threads throws, if anything: the threads
    already started are then closed and joined before the error is returned. *)
Definition create (o : ResolverOptions) (failure : option Error) (t : Z) : Result Sys :=
  if (opt_workers o =? 0)%nat || (64 <? opt_workers o)%nat || (queue_capacity o =? 0)%nat ||
     (65536 <? Z.of_nat (queue_capacity o))%Z || (max_results o =? 0)%nat || (4096 <? max_results o)%nat
  then fail Errc.invalid_argument
  else match failure with
  | Some e => Fail e
  | None => Ok (new_sys o t)
  end.

(** ** [resolve]: the checks before anything is shared *)

Definition query_ok (q : ResolveQuery) : bool :=
  negb (bool_decide (hostname q = [])) && negb (bool_decide (service q = [])) &&
  (len (hostname q) <=? 4096)%Z && (len (service q) <=? 4096)%Z &&
  bool_decide (find x00 (hostname q) = None) && bool_decide (find x00 (service q) = None) &&
  match q_family q with
  | None => true
  | Some f => (f =? FAMILY_IPV4)%Z || (f =? FAMILY_IPV6)%Z
  end &&
  ((q_transport q =? TRANSPORT_TCP)%Z || (q_transport q =? TRANSPORT_UDP)%Z).

(** The error a call is refused with at once, if any: [stopped] is the user's
    token, [alive] whether the resolver had not been moved from. *)
Definition resolve_refusal (stopped : bool) (d : option Z) (t : Z) (q : ResolveQuery)
    (alive : bool) : option Errc.t :=
  if stopped then Some Errc.cancelled
  else if match d with Some d' => (d' <=? t)%Z | None => false end then Some Errc.timed_out
  else if negb (query_ok q) then Some Errc.invalid_argument
  else if negb alive then Some Errc.cancelled
  else None.

(** What is delivered once the wait is over, under the job's mutex. *)
Definition deliver (b : Job) (waited : Result unit) : Result Endpoints :=
  match result b with
  | Some r => r
  | None =>
      if user_cancelled b then fail Errc.cancelled
      else match waited with
      | Fail e => if error_eqb e (make_error_code Errc.timed_out) then fail Errc.timed_out
                  else fail Errc.cancelled
      | Ok _ => fail Errc.cancelled
      end
  end.

(** How [sleep_until(time_point::max(), {completion, deadline})] can end: it is
    cancelled, by the completion token or by the loop's shutdown, or its
    deadline passes. *)
Inductive Wake := by_cancel | by_deadline.

Definition waited_of (w : Wake) : Result unit :=
  match w with by_cancel => fail Errc.cancelled | by_deadline => fail Errc.timed_out end.

Definition wait_ends (t : Z) (c : Call) (w : Wake) : bool :=
  match w with
  | by_cancel => completion (job c) || loop_down c
  | by_deadline => match deadline c with Some d => (d <=? t)%Z | None => false end
  end.

Definition is_blocked (w : Worker) : bool := match w with blocked => true | _ => false end.
Definition is_exited (w : Worker) : bool := match w with exited => true | _ => false end.
Definition wake (w : Worker) : Worker := match w with blocked => checking | _ => w end.

(** [ready.notify_one()]: the system chooses which blocked thread [k] it wakes;
    with none blocked it does nothing.  [None]: not a choice it has. *)
Definition notify_one (k : nat) (ws : list Worker) : option (list Worker) :=
  if existsb is_blocked ws then
    match ws !! k with
    | Some blocked => Some (<[k := checking]> ws)
    | _ => None
    end
  else Some ws.

(** ** The steps

    Each function is one thread's next step, [None] when it has none (it is
    done, blocked, or waits for the State mutex). *)

(** The coroutine of call [i]: [k] is the thread a notification picks, [w] how
    the wait ends. *)
Definition call_step (i k : nat) (w : Wake) (s : Sys) : option Sys :=
  match calls s !! i with
  | None => None
  | Some c =>
      match stage c with
      | submitting =>
          if locked s then None
          else if closing s
          then Some (update_call i (set_stage (returned (fail Errc.cancelled))) s)
          else Some (with_locked (update_call i (set_stage (purging [] (queue s))) s) true)
      | purging kept (j :: todo) =>
          match calls s !! j with
          | None => None
          | Some p =>
              let kept' := if abandoned (job p) || user_cancelled (job p)
                           then kept else kept ++ [j] in
              Some (update_call i (set_stage (purging kept' todo)) s)
          end
      | purging kept [] =>
          if (queue_capacity (options s) <=? length kept)%nat
          then Some (with_locked (with_queue
                 (update_call i (set_stage (returned (fail Errc.limit_exceeded))) s) kept) false)
          else Some (with_locked (with_queue
                 (update_call i (set_stage notifying) s) (kept ++ [i])) false)
      | notifying =>
          match notify_one k (workers s) with
          | None => None
          | Some ws => Some (with_workers (update_call i (set_stage sleeping) s) ws)
          end
      | sleeping =>
          if wait_ends (now s) c w
          then Some (update_call i (set_stage (woken (waited_of w))) s) else None
      | woken waited =>
          Some (update_call i (set_stage (returned (deliver (job c) waited)))
                 (update_job i set_abandoned s))
      | returned _ => None
      end
  end.

(** The second half of the stop callback of call [i]. *)
Definition callback_step (i : nat) (s : Sys) : option Sys :=
  match calls s !! i with
  | Some c =>
      match callback c with
      | cb_flagged => Some (update_call i (set_callback cb_done) (update_job i complete_job s))
      | _ => None
      end
  | None => None
  end.

(** Thread [k] of the pool; [a] is what the backend gives when it returns. *)
Definition worker_step (k : nat) (a : Answer) (s : Sys) : option Sys :=
  match workers s !! k with
  | None => None
  | Some w =>
      match w with
      | checking =>
          if locked s then None
          else if closing s then Some (set_worker k exited s)
          else match queue s with
          | [] => Some (set_worker k blocked s)
          | j :: q => Some (set_worker k (took j) (with_active (with_queue s q) (active s ++ [j])))
          end
      | blocked => None
      | took j =>
          match calls s !! j with
          | None => None
          | Some c =>
              let skip := abandoned (job c) || user_cancelled (job c) || job_shutdown (job c) in
              Some (set_worker k (if skip then finishing j else running j) s)
          end
      | running j => Some (set_worker k (storing j (published a (max_results (options s)))) s)
      | storing j r =>
          match calls s !! j with
          | None => None
          | Some c =>
              let s' := if negb (abandoned (job c)) && negb (job_shutdown (job c))
                        then update_job j (set_result r) s else s in
              Some (set_worker k (finishing j) s')
          end
      | finishing j => Some (set_worker k (erasing j) (update_job j complete_job s))
      | erasing j =>
          if locked s then None
          else Some (set_worker k checking (with_active s (filter (fun x => x <> j) (active s))))
      | exited => None
      end
  end.

(** [close()]: the destructor's thread. *)
Definition close_step (s : Sys) : option Sys :=
  match closer s with
  | is_open => None
  | close_waiting =>
      if locked s then None
      else Some (with_closer (with_closing (with_locked s true) true)
                   (flagging (queue s ++ active s) false))
  | flagging (j :: todo) false =>
      Some (with_closer (update_job j set_shutdown s) (flagging (j :: todo) true))
  | flagging (j :: todo) true =>
      Some (with_closer (update_job j complete_job s) (flagging todo false))
  | flagging [] _ => Some (with_closer (with_locked (with_queue s []) false) close_notifying)
  | close_notifying => Some (with_closer (with_workers s (map wake (workers s))) joining)
  | joining => if forallb is_exited (workers s) then Some (with_closer s closed) else None
  | closed => None
  end.

(** ** The surroundings: calls, stop requests, time, loops, the destructor *)

(** A call of [resolve] that passed its checks: it has made its job and
    registered its stop callback. *)
Definition new_call (q : ResolveQuery) (d : option Z) (s : Sys) : Sys :=
  with_calls s (calls s ++ [mk_call (new_job q) submitting cb_idle d false]).

(** The first half of the stop callback: the user requested a stop while the
    callback was registered. *)
Definition user_stop (i : nat) (s : Sys) : option Sys :=
  match calls s !! i with
  | Some c =>
      match callback c, stage c with
      | cb_idle, returned _ => None
      | cb_idle, _ => Some (update_call i (set_callback cb_flagged) (update_job i set_user_cancelled s))
      | _, _ => None
      end
  | None => None
  end.

Definition set_loop_down (c : Call) : Call :=
  mk_call (job c) (stage c) (callback c) (deadline c) true.

Definition loop_shutdown (i : nat) (s : Sys) : Sys := update_call i set_loop_down s.

Definition destroy (s : Sys) : option Sys :=
  match closer s with is_open => Some (with_closer s close_waiting) | _ => None end.

Definition spurious_wake (k : nat) (s : Sys) : option Sys :=
  match workers s !! k with
  | Some blocked => Some (set_worker k checking s)
  | _ => None
  end.

Section Runs.
(** What a backend may answer to a query under a limit. *)
Variable backend : ResolveQuery -> nat -> Answer -> Prop.

Inductive internal (s : Sys) : Sys -> Prop :=
| int_call i k w s' : call_step i k w s = Some s' -> internal s s'
| int_callback i s' : callback_step i s = Some s' -> internal s s'
| int_worker k a s' :
    (forall j c, workers s !! k = Some (running j) -> calls s !! j = Some c ->
       backend (job_query (job c)) (max_results (options s)) a) ->
    worker_step k a s = Some s' -> internal s s'
| int_close s' : close_step s = Some s' -> internal s s'.

Inductive external (s : Sys) : Sys -> Prop :=
| ext_call q d : query_ok q = true -> external s (new_call q d s)
| ext_stop i s' : user_stop i s = Some s' -> external s s'
| ext_loop i : external s (loop_shutdown i s)
| ext_time t : (now s <= t)%Z -> external s (with_now s t)
| ext_destroy s' : destroy s = Some s' -> external s s'
| ext_spurious k s' : spurious_wake k s = Some s' -> external s s'.

Inductive reachable : Sys -> Prop :=
| reach_create o t s : create o None t = Ok s -> reachable s
| reach_internal s s' : reachable s -> internal s s' -> reachable s'
| reach_external s s' : reachable s -> external s s' -> reachable s'.
End Runs.

(** A run of the resolver under a schedule, for examples. *)
Inductive Act :=
| do_call (i k : nat) (w : Wake)
| do_callback (i : nat)
| do_worker (k : nat) (a : Answer)
| do_close
| ask (q : ResolveQuery) (d : option Z)
| stop (i : nat)
| quit.

Definition act (x : Act) (s : Sys) : option Sys :=
  match x with
  | do_call i k w => call_step i k w s
  | do_callback i => callback_step i s
  | do_worker k a => worker_step k a s
  | do_close => close_step s
  | ask q d => if query_ok q then Some (new_call q d s) else None
  | stop i => user_stop i s
  | quit => destroy s
  end.

Definition acts (xs : list Act) (s : Sys) : option Sys :=
  foldl (fun o x => o ≫= act x) (Some s) xs.

(** ** Facts: what is published for an answer *)

Definition keys (l : Endpoints) : list (Family * Z * bytes * Z) := endpoint_key <$> l.

Lemma existsb_same e out : existsb (same_endpoint e) out = true <-> endpoint_key e ∈ keys out.
Proof.
  unfold keys. rewrite existsb_exists, list_elem_of_fmap. split.
  - intros (x & Hin & Hs). apply same_endpoint_key in Hs. exists x. by rewrite list_elem_of_In.
  - intros (x & Hk & Hin). exists x. rewrite <- list_elem_of_In. split; [done|].
    by apply same_endpoint_key.
Qed.

Lemma keys_snoc out e : NoDup (keys out) -> endpoint_key e ∉ keys out -> NoDup (keys (out ++ [e])).
Proof.
  intros Hd Hn. unfold keys. rewrite fmap_app. apply NoDup_app. split; [done|]. split.
  - intros x Hx Hin. apply list_elem_of_singleton in Hin. by subst x.
  - apply NoDup_singleton.
Qed.

Lemma append_endpoint_cases out e limit :
  match append_endpoint out e limit with
  | Ok out' => address_bytes e <> [] /\
      ((out' = out /\ endpoint_key e ∈ keys out) \/
       (out' = out ++ [e] /\ (endpoint_key e ∉ keys out) /\ length out <> limit))
  | Fail err =>
      (err = make_error_code Errc.invalid_argument /\ address_bytes e = []) \/
      (err = make_error_code Errc.limit_exceeded /\ (endpoint_key e ∉ keys out) /\
       length out = limit)
  end.
Proof.
  unfold append_endpoint. case_bool_decide as Hb; [by left|].
  pose proof (existsb_same e out) as Hs. destruct (existsb (same_endpoint e) out).
  - split; [done|]. left. split; [done|]. by apply Hs.
  - assert (endpoint_key e ∉ keys out) as Hn by (intros Hk; apply Hs in Hk; done).
    destruct (length out =? limit)%nat eqn:E; bool_facts; [by right|]. split; [done|]. by right.
Qed.

(** The loop keeps the first endpoint of every address, port and scope. *)
Lemma append_all_exact l out limit :
  NoDup (keys out) -> (length out <= limit)%nat ->
  match append_all out l limit with
  | Ok u => exists m, u = out ++ m /\ sublist m l /\ NoDup (keys u) /\ (length u <= limit)%nat /\
      (forall e, e ∈ l -> endpoint_key e ∈ keys u) /\ Forall (fun e => address_bytes e <> []) m
  | Fail err =>
      (err = make_error_code Errc.invalid_argument /\ exists e, e ∈ l /\ address_bytes e = []) \/
      (err = make_error_code Errc.limit_exceeded /\
       exists m, sublist m l /\ NoDup (keys (out ++ m)) /\ length (out ++ m) = S limit)
  end.
Proof.
  revert out; induction l as [|e l IH]; intros out Hd Hl; simpl.
  - exists []. rewrite app_nil_r. split_and!; [done|constructor|done|done| |constructor].
    intros e He. by apply elem_of_nil in He.
  - pose proof (append_endpoint_cases out e limit) as Ha.
    destruct (append_endpoint out e limit) as [out'|err].
    + destruct Ha as [Hb [[-> Hk]|(-> & Hk & Hne)]].
      * specialize (IH out Hd Hl). destruct (append_all out l limit) as [u|err].
        -- destruct IH as (m & -> & Hm & Hu & Hlu & Hall & Hset). exists m.
           split_and!; [done|by apply sublist_cons|done|done| |done].
           intros x [->|Hx]%elem_of_cons; [|by apply Hall].
           unfold keys in *. rewrite fmap_app. apply elem_of_app. by left.
        -- destruct IH as [(-> & x & Hx & Hbx)|(-> & m & Hm & Hu & Hlu)].
           ++ left. split; [done|]. exists x. split; [by apply elem_of_cons; right|done].
           ++ right. split; [done|]. exists m. split; [by apply sublist_cons|done].
      * specialize (IH (out ++ [e]) (keys_snoc out e Hd Hk)).
        rewrite length_app in IH. simpl in IH. specialize (IH ltac:(lia)).
        destruct (append_all (out ++ [e]) l limit) as [u|err].
        -- destruct IH as (m & -> & Hm & Hu & Hlu & Hall & Hset). exists (e :: m).
           rewrite <- app_assoc in *. simpl in *.
           split_and!; [done|by apply sublist_skip|done|done| |by constructor].
           intros x [->|Hx]%elem_of_cons; [|by apply Hall].
           unfold keys. rewrite fmap_app, fmap_cons. apply elem_of_app. right. apply list_elem_of_here.
        -- destruct IH as [(-> & x & Hx & Hbx)|(-> & m & Hm & Hu & Hlu)].
           ++ left. split; [done|]. exists x. split; [by apply elem_of_cons; right|done].
           ++ right. split; [done|]. exists (e :: m). rewrite <- app_assoc in *. simpl in *.
              split; [by apply sublist_skip|]. done.
    + destruct Ha as [[-> Hb]|(-> & Hk & Hlim)].
      * left. split; [done|]. exists e. split; [apply list_elem_of_here|done].
      * right. split; [done|]. exists [e]. split; [apply sublist_skip, sublist_nil_l|].
        split; [by apply keys_snoc|]. rewrite length_app. simpl. lia.
Qed.

(** A list without repetitions within the limit passes through unchanged. *)
Lemma append_all_id l out limit :
  NoDup (keys (out ++ l)) -> (length (out ++ l) <= limit)%nat ->
  Forall (fun e => address_bytes e <> []) l -> append_all out l limit = Ok (out ++ l).
Proof.
  revert out; induction l as [|e l IH]; intros out Hd Hl Hs; simpl; [by rewrite app_nil_r|].
  inversion_clear Hs as [|? ? He Hs']. pose proof (append_endpoint_cases out e limit) as Ha.
  assert (endpoint_key e ∉ keys out) as Hn.
  { unfold keys in Hd. rewrite fmap_app in Hd. apply NoDup_app in Hd as (_ & Hdis & _).
    intros Hin. apply (Hdis _ Hin). apply list_elem_of_here. }
  rewrite length_app in Hl. simpl in Hl.
  destruct (append_endpoint out e limit) as [out'|err].
  - destruct Ha as [_ [[_ Hk]|(-> & _ & _)]]; [done|].
    rewrite IH; [by rewrite <- app_assoc|by rewrite <- app_assoc| |done].
    rewrite !length_app. simpl. lia.
  - destruct Ha as [[_ Hb]|(_ & _ & Hlim)]; [done|lia].
Qed.

Lemma published_cases a limit :
  match published a limit with
  | Ok u => exists l, a = answered (Ok l) /\ append_all [] l limit = Ok u /\ u <> []
  | Fail err =>
      a = answered (Fail err) \/
      (a = threw_bad_alloc /\ err = not_enough_memory) \/ (a = threw_other /\ err = io_error) \/
      exists l, a = answered (Ok l) /\
        ((append_all [] l limit = Ok [] /\ err = resolver_error EAI_NONAME) \/
         append_all [] l limit = Fail err)
  end.
Proof.
  destruct a as [[l|err]| |]; simpl; [|by left|by right; left|by right; right; left].
  destruct (append_all [] l limit) as [[|e u]|err] eqn:E.
  - right; right; right. exists l. split; [done|]. by left.
  - exists l. done.
  - right; right; right. exists l. split; [done|]. by right.
Qed.

(** The chain of addresses, as the endpoints it denotes. *)
Lemma collect_addresses_exact l out limit :
  NoDup (keys out) -> (length out <= limit)%nat -> Forall valid out ->
  match collect_addresses out l limit with
  | Ok u => NoDup (keys u) /\ (length u <= limit)%nat /\ Forall valid u
  | Fail _ => True
  end.
Proof.
  revert out; induction l as [|[f addr] l IH]; intros out Hd Hl Hv; simpl; [done|].
  destruct (negb _ && negb _); [by apply IH|].
  destruct (endpoint_from_bytes addr) as [e|err] eqn:Ee; [|done].
  apply from_bytes_valid in Ee as He.
  pose proof (append_endpoint_cases out e limit) as Ha.
  destruct (append_endpoint out e limit) as [out'|err]; [|done].
  destruct Ha as [_ [[-> _]|(-> & Hk & Hne)]]; [by apply IH|].
  apply IH; [by apply keys_snoc|rewrite length_app; simpl; lia|].
  apply Forall_app. split; [done|]. by constructor.
Qed.

Lemma valid_set e : valid e -> address_bytes e <> [].
Proof.
  intros [a Ha|a Ha] Hn.
  - rewrite bytes_set_in in Hn by done. apply (f_equal length) in Hn.
    by rewrite length_in_bytes in Hn.
  - rewrite bytes_set_in6 in Hn by done. apply (f_equal length) in Hn.
    by rewrite length_in6_bytes in Hn.
Qed.

(** what the resolver publishes for the backend's answer.  A list of
    endpoints is the backend's with every repetition of an address, port and
    scope after the first removed: it is in the backend's order, not empty,
    within [max_results], and every endpoint the backend gave is represented.
    An error is the backend's own, or the one its exception stands for, or
    reports a list that was empty (no such name), that held an unset endpoint
    (invalid argument), or that had more than [max_results] different ones
    (limit exceeded).  The answer of the system backend is already of this form
    and is published unchanged. *)
Theorem published_answer_exact (limit : nat) :
  (forall a, match published a limit with
   | Ok u => exists l, a = answered (Ok l) /\ u <> [] /\ (length u <= limit)%nat /\
       sublist u l /\ NoDup (keys u) /\ (forall e, e ∈ l -> exists e', e' ∈ u /\ same_endpoint e e' = true)
   | Fail err =>
       a = answered (Fail err) \/
       (a = threw_bad_alloc /\ err = not_enough_memory) \/ (a = threw_other /\ err = io_error) \/
       exists l, a = answered (Ok l) /\
         ((l = [] /\ err = resolver_error EAI_NONAME) \/
          (err = make_error_code Errc.invalid_argument /\ exists e, e ∈ l /\ address_bytes e = []) \/
          (err = make_error_code Errc.limit_exceeded /\
           exists m, sublist m l /\ NoDup (keys m) /\ (limit < length m)%nat))
   end) /\
  (forall gai q, published (answered (system_resolve gai q limit)) limit = system_resolve gai q limit).
Proof.
  split.
  - intros a. pose proof (published_cases a limit) as Hs. destruct (published a limit) as [u|err].
    + destruct Hs as (l & -> & Ha & Hne). exists l.
      pose proof (append_all_exact l [] limit NoDup_nil_2 ltac:(simpl; lia)) as Hx.
      rewrite Ha in Hx. destruct Hx as (m & -> & Hm & Hd & Hl & Hall & _). simpl in *.
      split_and!; [done..|]. intros e He. specialize (Hall e He). unfold keys in Hall.
      apply list_elem_of_fmap in Hall as (e' & Hk & Hin). exists e'. split; [done|].
      by apply same_endpoint_key.
    + destruct Hs as [?|[?|[?|(l & -> & Hcase)]]]; [by left|by right; left|by right; right; left|].
      right; right; right. exists l. split; [done|].
      pose proof (append_all_exact l [] limit NoDup_nil_2 ltac:(simpl; lia)) as Hx.
      destruct Hcase as [[Ha ->]|Ha]; rewrite Ha in Hx.
      * left. destruct Hx as (m & Hm & _ & _ & _ & Hall & _). split; [|done].
        destruct l as [|e l]; [done|]. specialize (Hall e (list_elem_of_here _ _)).
        by apply elem_of_nil in Hall.
      * right. destruct Hx as [Hx|(-> & m & Hm & Hd & Hl)]; [by left|]. right.
        split; [done|]. exists m. simpl in *. split_and!; [done..|lia].
  - intros gai q. unfold system_resolve.
    destruct (gai_status _ =? EAI_SYSTEM)%Z; [done|]. destruct (negb _); [done|].
    pose proof (collect_addresses_exact (gai_list (gai (hostname q) (service q) (resolve_hints q)))
      [] limit NoDup_nil_2 ltac:(simpl; lia) (Forall_nil_2 _)) as Hx.
    destruct (collect_addresses _ _ _) as [[|e u]|err]; [done| |done].
    destruct Hx as (Hd & Hl & Hv). unfold published.
    rewrite append_all_id; [done|done|done|]. eapply Forall_impl; [exact Hv|apply valid_set].
Qed.
