(* ===== verification/ResolverInv.v ===== *)
(** * ResolverInv: no call of [resolve] is left waiting, and each gets its answer

    The invariant of the transition system of Resolver.v, in two parts: the
    shape of the shared state (queue, [active], locks, threads, positions of the
    calls) and what is known of every job.  From it: the answers a call can
    return with, and that whatever the schedule every call returns, the threads
    of a destroyed resolver end and its destructor returns. *)

From S2P Require Import Prelude Errors Endpoint Resolver.

(** ** Vocabulary *)

(** The job a thread holds, and the one it has not completed yet. *)
Definition holds (w : Worker) : option nat :=
  match w with
  | took j | running j | storing j _ | finishing j | erasing j => Some j
  | checking | blocked | exited => None
  end.

Definition works (w : Worker) : option nat :=
  match w with
  | took j | running j | storing j _ | finishing j => Some j
  | checking | blocked | exited | erasing _ => None
  end.

Abbreviation held ws := (omap holds ws).
Abbreviation stages s := (stage <$> calls s).

Definition early (st : Stage) : Prop :=
  match st with submitting | purging _ _ => True | _ => False end.

Definition waiting (st : Stage) : Prop :=
  match st with notifying | sleeping => True | _ => False end.

(** [closing] is set, and the jobs have all been closed. *)
Definition past (z : Closer) : bool :=
  match z with is_open | close_waiting => false | _ => true end.

Definition after (z : Closer) : bool :=
  match z with close_notifying | joining | closed => true | _ => false end.

(** ** The shape of the shared state *)

Record shape (s : Sys) : Prop := {
  sh_cap : (length (queue s) <= queue_capacity (options s))%nat;
  sh_room : (0 < queue_capacity (options s))%nat;
  sh_ws : workers s <> [];
  sh_dup : NoDup (queue s ++ held (workers s));
  sh_idx j : j ∈ queue s ++ held (workers s) -> (j < length (stages s))%nat;
  sh_early i st : stages s !! i = Some st -> early st -> i ∉ queue s ++ held (workers s);
  sh_act : active s ≡ₚ held (workers s);
  sh_purge i kept todo : stages s !! i = Some (purging kept todo) ->
    locked s = true /\ closing s = false /\ sublist (kept ++ todo) (queue s);
  sh_one i i' kept kept' todo todo' : stages s !! i = Some (purging kept todo) ->
    stages s !! i' = Some (purging kept' todo') -> i = i';
  sh_flag todo h : closer s = flagging todo h -> locked s = true;
  sh_holder : locked s = true ->
    (exists i kept todo, stages s !! i = Some (purging kept todo)) \/
    (exists todo h, closer s = flagging todo h);
  sh_closing : closing s = past (closer s);
  sh_after : after (closer s) = true -> queue s = [];
  sh_cv : closing s = false -> queue s <> [] ->
    (exists w, w ∈ workers s /\ w <> blocked) \/ notifying ∈ stages s;
  sh_exit : exited ∈ workers s -> closing s = true;
  sh_joining : closer s = joining \/ closer s = closed -> blocked ∉ workers s;
  sh_closed : closer s = closed -> forall w, w ∈ workers s -> w = exited
}.

(** ** What is known of the jobs *)

Section Facts.
Variable backend : ResolveQuery -> nat -> Answer -> Prop.

(** A result that comes from the backend's answer to the job's own query. *)
Definition from_backend (o : ResolverOptions) (q : ResolveQuery) (r : Result Endpoints) : Prop :=
  exists a, backend q (max_results o) a /\ r = published a (max_results o).

(** There is a reason for the job to be complete. *)
Definition excused (b : Job) : Prop :=
  is_Some (result b) \/ user_cancelled b = true \/ abandoned b = true \/ job_shutdown b = true.

Definition expired (t : Z) (c : Call) : Prop := exists d, deadline c = Some d /\ (d <= t)%Z.

(** The answers a call can return with. *)
Definition outcome (o : ResolverOptions) (cl : bool) (t : Z) (c : Call) (r : Result Endpoints) : Prop :=
  from_backend o (job_query (job c)) r \/
  (r = fail Errc.cancelled /\ (callback c <> cb_idle \/ cl = true \/ loop_down c = true)) \/
  (r = fail Errc.timed_out /\ expired t c) \/
  r = fail Errc.limit_exceeded.

Record call_ok (o : ResolverOptions) (cl : bool) (t : Z) (c : Call) : Prop := {
  co_query : query_ok (job_query (job c)) = true;
  co_abandoned : abandoned (job c) = true -> exists r, stage c = returned r;
  co_cancelled : user_cancelled (job c) = true -> callback c <> cb_idle;
  co_flagged : callback c <> cb_idle -> user_cancelled (job c) = true;
  co_callback : callback c = cb_done -> completion (job c) = true;
  co_result r : result (job c) = Some r -> from_backend o (job_query (job c)) r;
  co_complete : completion (job c) = true -> excused (job c);
  co_shutdown : job_shutdown (job c) = true -> cl = true;
  co_woken w : stage c = woken w ->
    (w = fail Errc.cancelled /\ (completion (job c) = true \/ loop_down c = true)) \/
    (w = fail Errc.timed_out /\ expired t c);
  co_returned r : stage c = returned r -> outcome o cl t c r
}.

(** What a thread holding a result, or a job to complete, knows. *)
Definition worker_ok (o : ResolverOptions) (cs : list Call) (w : Worker) : Prop :=
  match w with
  | storing j r => exists c, cs !! j = Some c /\ from_backend o (job_query (job c)) r
  | finishing j => exists c, cs !! j = Some c /\ excused (job c)
  | _ => True
  end.

Definition completed (cs : list Call) (j : nat) : Prop :=
  exists c, cs !! j = Some c /\ completion (job c) = true.

Definition dropped (cs : list Call) (j : nat) : Prop :=
  exists c, cs !! j = Some c /\ (abandoned (job c) = true \/ user_cancelled (job c) = true).

(** The wait of this call is over or about to be, without further work. *)
Definition pending (c : Call) : Prop := completion (job c) = true \/ callback c = cb_flagged.

Record facts (s : Sys) : Prop := {
  fa_calls : Forall (call_ok (options s) (closing s) (now s)) (calls s);
  fa_workers : Forall (worker_ok (options s) (calls s)) (workers s);
  fa_purge i kept todo j : stages s !! i = Some (purging kept todo) -> j ∈ queue s ->
    j ∉ kept ++ todo -> dropped (calls s) j;
  fa_flag todo h j : closer s = flagging todo h -> j ∈ queue s ++ held (workers s) ->
    j ∈ todo \/ completed (calls s) j;
  fa_todo todo h j : closer s = flagging todo h -> j ∈ todo -> (j < length (calls s))%nat;
  fa_half j todo c : closer s = flagging (j :: todo) true -> calls s !! j = Some c ->
    job_shutdown (job c) = true;
  fa_after j : after (closer s) = true -> j ∈ held (workers s) -> completed (calls s) j;
  fa_wait i c : calls s !! i = Some c -> waiting (stage c) ->
    pending c \/ i ∈ queue s \/ i ∈ omap works (workers s)
}.

(** ** How jobs change: flags are only set, results only added *)

Record le_call (c c' : Call) : Prop := {
  le_query : job_query (job c') = job_query (job c);
  le_completion : completion (job c) = true -> completion (job c') = true;
  le_cancelled : user_cancelled (job c) = true -> user_cancelled (job c') = true;
  le_abandoned : abandoned (job c) = true -> abandoned (job c') = true;
  le_shutdown : job_shutdown (job c) = true -> job_shutdown (job c') = true;
  le_result : is_Some (result (job c)) -> is_Some (result (job c'));
  le_pending : pending c -> pending c'
}.

Definition grows (cs cs' : list Call) : Prop :=
  forall i c, cs !! i = Some c -> exists c', cs' !! i = Some c' /\ le_call c c'.

Lemma le_call_refl c : le_call c c.
Proof. by split. Qed.

Lemma le_stage c st : le_call c (set_stage st c).
Proof. by split. Qed.

Lemma grows_refl cs : grows cs cs.
Proof. intros i c H. exists c. split; [done|apply le_call_refl]. Qed.

Lemma grows_alter cs i f : (forall c, cs !! i = Some c -> le_call c (f c)) -> grows cs (alter f i cs).
Proof.
  intros Hf j c Hj. destruct (decide (i = j)) as [->|Hne].
  - exists (f c). rewrite list_lookup_alter_eq, Hj. split; [done|]. by apply Hf.
  - exists c. rewrite list_lookup_alter_ne by done. split; [done|apply le_call_refl].
Qed.

Lemma grows_insert (cs : list Call) i c c' :
  cs !! i = Some c -> le_call c c' -> grows cs (<[i := c']> cs).
Proof.
  intros Hi Hle j d Hj. destruct (decide (i = j)) as [<-|Hne].
  - exists c'. rewrite list_lookup_insert_eq by (by eapply lookup_lt_Some).
    split; [done|]. by simplify_eq.
  - exists d. rewrite list_lookup_insert_ne by done. split; [done|apply le_call_refl].
Qed.

Lemma alter_put {A} (f : A -> A) (l : list A) i x : l !! i = Some x -> alter f i l = <[i := f x]> l.
Proof. revert i; induction l as [|y l IH]; intros [|i] Hi; simpl in *; simplify_eq; [done|]. by rewrite <- IH. Qed.

Lemma alter_twice (f g : Call -> Call) (l : list Call) i :
  alter (f ∘ g) i l = alter f i (alter g i l).
Proof. revert i; induction l as [|y l IH]; intros [|i]; csimpl; [done..|]. f_equal. apply IH. Qed.

Lemma grows_app cs c : grows cs (cs ++ [c]).
Proof.
  intros i d Hi. exists d. split; [|apply le_call_refl]. by apply lookup_app_l_Some.
Qed.

Lemma completed_grows cs cs' j : grows cs cs' -> completed cs j -> completed cs' j.
Proof. intros Hg (c & Hc & H). destruct (Hg j c Hc) as (c' & Hc' & Hle). exists c'. split; [done|]. by apply Hle. Qed.

Lemma dropped_grows cs cs' j : grows cs cs' -> dropped cs j -> dropped cs' j.
Proof.
  intros Hg (c & Hc & H). destruct (Hg j c Hc) as (c' & Hc' & Hle). exists c'. split; [done|].
  destruct H as [H|H]; [left|right]; by apply Hle.
Qed.

Lemma excused_le c c' : le_call c c' -> excused (job c) -> excused (job c').
Proof.
  intros Hle [H|[H|[H|H]]]; unfold excused.
  - left. by apply Hle.
  - right; left. by apply Hle.
  - right; right; left. by apply Hle.
  - right; right; right. by apply Hle.
Qed.

Lemma worker_ok_grows o cs cs' w : grows cs cs' -> worker_ok o cs w -> worker_ok o cs' w.
Proof.
  intros Hg. destruct w; simpl; try done; intros (c & Hc & H);
    destruct (Hg j c Hc) as (c' & Hc' & Hle); exists c'; (split; [done|]).
  - by rewrite (le_query _ _ Hle).
  - by eapply excused_le.
Qed.
End Facts.

(** ** Lists updated at one position *)

Section Updates.
Context (f : Worker -> option nat).

Lemma omap_same (ws : list Worker) (k : nat) w w' :
  ws !! k = Some w -> f w' = f w -> omap f (<[k := w']> ws) = omap f ws.
Proof.
  intros Hk Hf. revert k Hk; induction ws as [|x ws IH]; intros [|k] Hk; simpl in *; try done.
  - injection Hk as ->. by rewrite Hf.
  - by rewrite IH.
Qed.

Lemma omap_gain (ws : list Worker) (k : nat) w w' j :
  ws !! k = Some w -> f w = None -> f w' = Some j -> omap f (<[k := w']> ws) ≡ₚ j :: omap f ws.
Proof.
  intros Hk Hf Hf'. revert k Hk; induction ws as [|x ws IH]; intros [|k] Hk; simpl in *; try done.
  - injection Hk as ->. by rewrite Hf, Hf'.
  - destruct (f x); simpl; [|by apply IH]. rewrite IH by done. apply Permutation_swap.
Qed.

Lemma omap_lose (ws : list Worker) (k : nat) w w' j :
  ws !! k = Some w -> f w = Some j -> f w' = None -> omap f ws ≡ₚ j :: omap f (<[k := w']> ws).
Proof.
  intros Hk Hf Hf'. revert k Hk; induction ws as [|x ws IH]; intros [|k] Hk; simpl in *; try done.
  - injection Hk as ->. by rewrite Hf, Hf'.
  - destruct (f x); simpl; [|by apply IH]. rewrite IH by done. apply Permutation_swap.
Qed.

Lemma omap_in (ws : list Worker) (k : nat) w j : ws !! k = Some w -> f w = Some j -> j ∈ omap f ws.
Proof. intros Hk Hf. apply list_elem_of_omap. exists w. split; [|done]. by eapply list_elem_of_lookup_2. Qed.
End Updates.

Lemma in_insert {A} (l : list A) k x y : y ∈ <[k := x]> l -> y = x \/ y ∈ l.
Proof.
  intros (i & Hi)%list_elem_of_lookup. apply list_lookup_insert_Some in Hi.
  destruct Hi as [(_ & -> & _)|(_ & Hi)]; [by left|right]. by eapply list_elem_of_lookup_2.
Qed.

Lemma in_inserted {A} (l : list A) k x z : l !! k = Some z -> x ∈ <[k := x]> l.
Proof.
  intros Hk. eapply list_elem_of_lookup_2, list_lookup_insert_eq. by eapply lookup_lt_Some.
Qed.

Lemma in_kept {A} (l : list A) k x y z : l !! k = Some z -> y ∈ l -> y <> z -> y ∈ <[k := x]> l.
Proof.
  intros Hk (i & Hi)%list_elem_of_lookup Hne. apply (list_elem_of_lookup_2 _ i).
  rewrite list_lookup_insert_ne; [done|]. congruence.
Qed.

Lemma insert_nonempty {A} (l : list A) k x : l <> [] -> <[k := x]> l <> [].
Proof. intros Hl Hn. apply Hl, length_zero_iff_nil. by rewrite <- (length_insert l k x), Hn. Qed.

Lemma sublist_elem_of {A} (l1 l2 : list A) x : x ∈ l1 -> sublist l1 l2 -> x ∈ l2.
Proof. intros Hx Hs. by apply (sublist_subseteq l1 l2 Hs). Qed.

Lemma sublist_NoDup {A} (l1 l2 : list A) : NoDup l2 -> sublist l1 l2 -> NoDup l1.
Proof.
  intros Hd Hs. induction Hs as [|x l1 l2 Hs IH|x l1 l2 Hs IH]; [done|..];
    apply NoDup_cons in Hd as [Hx Hd].
  - apply NoDup_cons. split; [|by apply IH]. intros Hin. apply Hx. by eapply sublist_elem_of.
  - by apply IH.
Qed.

Lemma stages_set (cs : list Call) (i : nat) st :
  stage <$> alter (set_stage st) i cs = <[i := st]> (stage <$> cs).
Proof. revert i; induction cs as [|c cs IH]; intros [|i]; csimpl; [done..|]. by rewrite IH. Qed.

Lemma stages_keep (cs : list Call) (i : nat) f :
  (forall c, stage (f c) = stage c) -> stage <$> alter f i cs = stage <$> cs.
Proof.
  intros Hf. revert i; induction cs as [|c cs IH]; intros [|i]; csimpl; [done..| |].
  - by rewrite Hf.
  - by rewrite IH.
Qed.

Lemma lookup_stage (cs : list Call) (i : nat) st : (stage <$> cs) !! i = Some st ->
  exists c, cs !! i = Some c /\ stage c = st.
Proof. rewrite list_lookup_fmap. intros (c & Hc & ->)%fmap_Some. by exists c. Qed.

Lemma stage_lookup (cs : list Call) (i : nat) c : cs !! i = Some c -> (stage <$> cs) !! i = Some (stage c).
Proof. intros H. by rewrite list_lookup_fmap, H. Qed.

(** The shape does not look into the jobs. *)
Lemma shape_calls s cs : stage <$> cs = stages s -> shape s -> shape (with_calls s cs).
Proof. intros He []. split; simpl; rewrite ?He; assumption. Qed.

Lemma shape_job s i f : shape s -> shape (update_job i f s).
Proof. intros H. apply shape_calls; [|done]. by apply stages_keep. Qed.

Lemma shape_callback s i b : shape s -> shape (update_call i (set_callback b) s).
Proof. intros H. apply shape_calls; [|done]. by apply stages_keep. Qed.

(** ** The shape is kept: steps of the calls *)

Definition is_purging (st : Stage) : Prop := exists kept todo, st = purging kept todo.

Lemma shape_unlocked s :
  shape s -> locked s = false ->
  (forall i kept todo, stages s !! i <> Some (purging kept todo)) /\
  (forall todo h, closer s <> flagging todo h).
Proof.
  intros Hs Hl. split.
  - intros i kept todo Hi. destruct (sh_purge s Hs i kept todo Hi) as [? _]. congruence.
  - intros todo h Hc. pose proof (sh_flag s Hs todo h Hc). congruence.
Qed.

(** A call that is not inside the critical section moves on. *)
Lemma shape_move s i st st' :
  shape s -> stages s !! i = Some st -> ~ is_purging st -> ~ early st' ->
  (st <> notifying \/ exists w, w ∈ workers s /\ w <> blocked) ->
  shape (update_call i (set_stage st') s).
Proof.
  intros Hs Hi Hnp Hne Hnn. destruct Hs. unfold update_call.
  split; cbn -[alter]; rewrite ?stages_set, ?length_insert; try assumption.
  - intros j x Hj Hx. apply list_lookup_insert_Some in Hj as [(_ & <- & _)|(_ & Hj)]; [done|].
    by eapply sh_early0.
  - intros j kept todo Hj. apply list_lookup_insert_Some in Hj as [(_ & -> & _)|(_ & Hj)]; [done|].
    by eapply sh_purge0.
  - intros j j' kept kept' todo todo' Hj Hj'.
    apply list_lookup_insert_Some in Hj as [(_ & -> & _)|(_ & Hj)]; [done|].
    apply list_lookup_insert_Some in Hj' as [(_ & -> & _)|(_ & Hj')]; [done|].
    by eapply sh_one0.
  - intros Hl. destruct (sh_holder0 Hl) as [(j & kept & todo & Hj)|Hc]; [|by right]. left.
    exists j, kept, todo. rewrite list_lookup_insert_ne; [done|]. intros ->. apply Hnp.
    rewrite Hi in Hj. injection Hj as ->. by exists kept, todo.
  - intros Hc Hq. destruct Hnn as [Hnn|Hw]; [|by left].
    destruct (sh_cv0 Hc Hq) as [Hw|Hn]; [by left|right]. by eapply in_kept.
Qed.

(** [resolve] takes the lock. *)
Lemma shape_lock s i :
  shape s -> stages s !! i = Some submitting -> locked s = false -> closing s = false ->
  shape (with_locked (update_call i (set_stage (purging [] (queue s))) s) true).
Proof.
  intros Hs Hi Hl Hc. destruct (shape_unlocked s Hs Hl) as [Hnp Hnf]. destruct Hs. unfold update_call.
  split; cbn -[alter]; rewrite ?stages_set, ?length_insert; try assumption; try done.
  - intros j x Hj Hx. apply list_lookup_insert_Some in Hj as [(-> & <- & _)|(_ & Hj)].
    + by eapply sh_early0.
    + by eapply sh_early0.
  - intros j kept todo Hj. apply list_lookup_insert_Some in Hj as [(_ & Heq & _)|(_ & Hj)].
    + injection Heq as <- <-. done.
    + by apply Hnp in Hj.
  - intros j j' kept kept' todo todo' Hj Hj'.
    apply list_lookup_insert_Some in Hj as [(<- & _ & _)|(_ & Hj)]; [|by apply Hnp in Hj].
    apply list_lookup_insert_Some in Hj' as [(<- & _ & _)|(_ & Hj')]; [done|by apply Hnp in Hj'].
  - intros _. left. exists i, [], (queue s). apply list_lookup_insert_eq. by eapply lookup_lt_Some.
  - intros H1 H2. destruct (sh_cv0 H1 H2) as [Hw|Hn]; [by left|right]. by eapply in_kept.
Qed.

(** One job of the queue looked at: kept or not. *)
Lemma shape_purge s i kept kept' j todo :
  shape s -> stages s !! i = Some (purging kept (j :: todo)) -> sublist kept' (kept ++ [j]) ->
  shape (update_call i (set_stage (purging kept' todo)) s).
Proof.
  intros Hs Hi Hsub. destruct (sh_purge s Hs _ _ _ Hi) as (Hl & Hc & Hq).
  assert (sublist (kept' ++ todo) (queue s)) as Hq'.
  { etrans; [|exact Hq]. change (j :: todo) with ([j] ++ todo). rewrite app_assoc.
    by apply sublist_app. }
  pose proof (sh_one s Hs) as Hone. destruct Hs. unfold update_call.
  split; cbn -[alter]; rewrite ?stages_set, ?length_insert; try assumption.
  - intros x y Hx Hy. apply list_lookup_insert_Some in Hx as [(-> & <- & _)|(_ & Hx)].
    + by eapply sh_early0.
    + by eapply sh_early0.
  - intros x k t Hx. apply list_lookup_insert_Some in Hx as [(_ & Heq & _)|(_ & Hx)].
    + injection Heq as <- <-. done.
    + by eapply sh_purge0.
  - intros x y k k' t t' Hx Hy.
    assert (forall z k t, <[i:=purging kept' todo]> (stages s) !! z = Some (purging k t) -> z = i) as Hz.
    { intros z k0 t0 Hz. apply list_lookup_insert_Some in Hz as [(-> & _)|(_ & Hz)]; [done|].
      by eapply Hone. }
    by rewrite (Hz _ _ _ Hx), (Hz _ _ _ Hy).
  - intros _. left. exists i, kept', todo. apply list_lookup_insert_eq. by eapply lookup_lt_Some.
  - intros H1 H2. destruct (sh_cv0 H1 H2) as [Hw|Hn]; [by left|right]. by eapply in_kept.
Qed.

(** What leaving the critical section does to the queue, whether the new job
    was appended or not. *)
Lemma shape_unlock s i kept st q :
  shape s -> stages s !! i = Some (purging kept []) ->
  (st = notifying /\ q = kept ++ [i] /\ (length kept < queue_capacity (options s))%nat \/
   (exists r, st = returned r) /\ q = kept) ->
  shape (with_locked (with_queue (update_call i (set_stage st) s) q) false).
Proof.
  intros Hs Hi Hst. destruct (sh_purge s Hs _ _ _ Hi) as (Hl & Hc & Hsub). rewrite app_nil_r in Hsub.
  assert (i ∉ queue s ++ held (workers s)) as Hni by by eapply (sh_early s Hs).
  assert (forall x k t, <[i:=st]> (stages s) !! x <> Some (purging k t)) as Hnp.
  { intros x k t Hx. apply list_lookup_insert_Some in Hx as [(_ & -> & _)|(Hne & Hx)].
    - destruct Hst as [[[=] _]|[[? [=]] _]].
    - apply Hne. by eapply (sh_one s Hs). }
  assert (forall x, x ∈ q -> x = i \/ x ∈ queue s) as Hq.
  { intros x Hx. destruct Hst as [(_ & -> & _)|(_ & ->)].
    - apply elem_of_app in Hx as [Hx|Hx%list_elem_of_singleton]; [right|by left].
      by eapply sublist_elem_of.
    - right. by eapply sublist_elem_of. }
  assert (sublist (kept ++ held (workers s)) (queue s ++ held (workers s))) as Hsub2 by by apply sublist_app.
  pose proof (sublist_length _ _ Hsub) as Hlen.
  destruct Hs. unfold update_call.
  split; cbn -[alter]; rewrite ?stages_set, ?length_insert; try assumption; try done.
  - destruct Hst as [(_ & -> & Hlt)|(_ & ->)]; [rewrite length_app; simpl|]; lia.
  - pose proof (sublist_NoDup _ _ sh_dup0 Hsub2) as Hd. destruct Hst as [(_ & -> & _)|(_ & ->)]; [|done].
    rewrite <- app_assoc. rewrite Permutation_app_comm, <- app_assoc, (Permutation_app_comm _ kept).
    simpl. constructor; [|done]. intros Hin. apply Hni. eapply sublist_elem_of; [|exact Hsub2]. done.
  - intros x [Hx|Hx]%elem_of_app.
    + destruct (Hq x Hx) as [->|Hx']; [by eapply lookup_lt_Some|]. apply sh_idx0, elem_of_app. by left.
    + apply sh_idx0, elem_of_app. by right.
  - intros x y Hx Hy. apply list_lookup_insert_Some in Hx as [(_ & <- & _)|(Hne & Hx)].
    + destruct Hst as [[-> _]|[[r ->] _]]; done.
    + intros [Hin|Hin]%elem_of_app; apply (sh_early0 x y Hx Hy), elem_of_app; [left|by right].
      destruct (Hq x Hin); [congruence|done].
  - intros x k t Hx. by apply Hnp in Hx.
  - intros x x' k k' t t' Hx. by apply Hnp in Hx.
  - intros todo h Hcl. exfalso. rewrite sh_closing0, Hcl in Hc. done.
  - intros Ha. rewrite sh_closing0 in Hc. destruct (closer s); done.
  - intros _ Hne. destruct Hst as [(-> & _)|(_ & ->)].
    + right. by eapply in_inserted.
    + destruct (sh_cv0 Hc) as [Hw|Hn]; [|by left|right].
      * intros Hqe. rewrite Hqe in Hsub. by apply sublist_nil_r in Hsub.
      * by eapply in_kept.
Qed.

(** ** The shape is kept: steps of the threads *)

(** A thread moves on with the job it has. *)
Lemma shape_work s k w w' :
  shape s -> workers s !! k = Some w -> holds w' = holds w -> is_Some (holds w) ->
  shape (set_worker k w' s).
Proof.
  intros Hs Hk Hh [j Hj].
  assert (w' <> blocked /\ w' <> exited) as [Hnb Hnx] by (split; intros ->; simpl in Hh; congruence).
  destruct Hs. unfold set_worker.
  split; cbn; rewrite ?(omap_same holds _ _ _ _ Hk Hh); try assumption.
  - by apply insert_nonempty.
  - intros _ _. left. exists w'. split; [by eapply in_inserted|done].
  - intros [?|Hin]%in_insert; [done|]. by apply sh_exit0.
  - intros Hc [?|Hin]%in_insert; [done|]. by apply sh_joining0 in Hin.
  - intros Hc x _. exfalso. assert (w = exited) as -> by (apply sh_closed0; [done|by eapply list_elem_of_lookup_2]).
    done.
Qed.

(** A thread without a job goes to another such position. *)
Lemma shape_idle s k w w' :
  shape s -> workers s !! k = Some w -> holds w = None -> holds w' = None ->
  (w' = checking /\ w = blocked \/ w = checking /\ w' = exited /\ closing s = true \/
   w = checking /\ w' = blocked /\ closing s = false /\ queue s = []) ->
  shape (set_worker k w' s).
Proof.
  intros Hs Hk Hw Hw' Hcase.
  assert (holds w' = holds w) as Hh by congruence.
  pose proof (list_elem_of_lookup_2 _ _ _ Hk) as Hin. destruct Hs. unfold set_worker.
  split; cbn; rewrite ?(omap_same holds _ _ _ _ Hk Hh); try assumption.
  - by apply insert_nonempty.
  - intros Hc Hq. destruct Hcase as [(-> & ->)|[(-> & -> & Hcl)|(-> & -> & _ & Hqe)]];
      [|congruence|congruence].
    left. exists checking. split; [by eapply in_inserted|done].
  - intros [<-|Hx]%in_insert; [|by apply sh_exit0].
    destruct Hcase as [(? & _)|[(_ & _ & ?)|(_ & ? & _)]]; [done|done|done].
  - intros Hc [<-|Hx]%in_insert; [|by apply sh_joining0 in Hx].
    destruct Hcase as [(? & _)|[(_ & ? & _)|(_ & _ & Hcl & _)]]; [done|done|].
    rewrite sh_closing0 in Hcl. by destruct Hc as [Hc|Hc]; rewrite Hc in Hcl.
  - intros Hc x _. pose proof (sh_closed0 Hc w Hin) as ->. 
    destruct Hcase as [(_ & ?)|[(? & _)|(? & _)]]; done.
Qed.

(** A thread takes the first job of the queue. *)
Lemma shape_take s k j q :
  shape s -> workers s !! k = Some checking -> closing s = false -> queue s = j :: q ->
  locked s = false ->
  shape (set_worker k (took j) (with_active (with_queue s q) (active s ++ [j]))).
Proof.
  intros Hs Hk Hc Hq Hl. destruct (shape_unlocked s Hs Hl) as [Hnp Hnf].
  pose proof (omap_gain holds (workers s) k checking (took j) j Hk eq_refl eq_refl) as Hp.
  assert (q ++ held (<[k := took j]> (workers s)) ≡ₚ queue s ++ held (workers s)) as Hperm.
  { rewrite Hp, Hq. simpl. by rewrite Permutation_middle. }
  destruct Hs. unfold set_worker. split; cbn; try assumption.
  - rewrite Hq in sh_cap0. simpl in sh_cap0. lia.
  - by apply insert_nonempty.
  - by rewrite Hperm.
  - intros x. rewrite Hperm. apply sh_idx0.
  - intros i st Hi He. rewrite Hperm. by eapply sh_early0.
  - rewrite Hp, sh_act0. by rewrite Permutation_app_comm.
  - intros i kept todo Hi. by apply Hnp in Hi.
  - intros Ha. rewrite sh_after0 in Hq by done. done.
  - intros _ _. left. exists (took j). split; [by eapply in_inserted|done].
  - intros [?|Hx]%in_insert; [done|]. by apply sh_exit0.
  - intros Hcl. rewrite sh_closing0 in Hc. by destruct Hcl as [Hcl|Hcl]; rewrite Hcl in Hc.
  - intros Hcl. rewrite sh_closing0, Hcl in Hc. done.
Qed.

Lemma filter_not_in (j : nat) (l : list nat) : j ∉ l -> filter (fun x => x <> j) l = l.
Proof.
  induction l as [|x l IH]; intros Hn; [done|]. apply not_elem_of_cons in Hn as [Hx Hl].
  rewrite filter_cons_True by congruence. by rewrite IH.
Qed.

(** A thread lets go of its job. *)
Lemma shape_erase s k j :
  shape s -> workers s !! k = Some (erasing j) -> locked s = false ->
  shape (set_worker k checking (with_active s (filter (fun x => x <> j) (active s)))).
Proof.
  intros Hs Hk Hl. destruct (shape_unlocked s Hs Hl) as [Hnp Hnf].
  pose proof (omap_lose holds (workers s) k (erasing j) checking j Hk eq_refl eq_refl) as Hp.
  set (ws' := <[k := checking]> (workers s)) in *.
  assert (forall x, x ∈ queue s ++ held ws' -> x ∈ queue s ++ held (workers s)) as Hsub.
  { intros x. rewrite !elem_of_app, Hp, elem_of_cons. tauto. }
  pose proof (list_elem_of_lookup_2 _ _ _ Hk) as Hin.
  destruct Hs. unfold set_worker. split; cbn; fold ws'; try assumption.
  - by apply insert_nonempty.
  - rewrite Hp in sh_dup0. rewrite <- Permutation_middle in sh_dup0.
    by apply NoDup_cons in sh_dup0 as [_ ?].
  - intros x Hx. by apply sh_idx0, Hsub.
  - intros i st Hi He Hx. by apply (sh_early0 i st Hi He), Hsub.
  - rewrite sh_act0, Hp. rewrite filter_cons_False by tauto. rewrite filter_not_in; [done|].
    rewrite Hp in sh_dup0. apply NoDup_app in sh_dup0 as (_ & _ & Hd).
    by apply NoDup_cons in Hd as [? _].
  - intros _ _. left. exists checking. split; [by eapply in_inserted|done].
  - intros [?|Hx]%in_insert; [done|]. by apply sh_exit0.
  - intros Hc [?|Hx]%in_insert; [done|]. by apply sh_joining0 in Hx.
  - intros Hc. by pose proof (sh_closed0 Hc _ Hin).
Qed.

(** ** The shape is kept: notifications, the destructor, new calls *)

Lemma no_blocked ws : existsb is_blocked ws = false -> blocked ∉ ws.
Proof.
  intros He Hin. apply list_elem_of_In in Hin.
  assert (existsb is_blocked ws = true) as Ht by (apply existsb_exists; by exists blocked). congruence.
Qed.

Lemma shape_notify s i k ws :
  shape s -> stages s !! i = Some notifying -> notify_one k (workers s) = Some ws ->
  shape (with_workers (update_call i (set_stage sleeping) s) ws).
Proof.
  intros Hs Hi. unfold notify_one. destruct (existsb is_blocked (workers s)) eqn:Eb.
  - destruct (workers s !! k) as [w|] eqn:Hk; [|done]. destruct w; try done. intros [= <-].
    apply (shape_move (set_worker k checking s) i notifying sleeping); try done.
    + apply (shape_idle s k blocked checking); try done. by left.
    + by intros (? & ? & ?).
    + simpl. tauto.
    + right. exists checking. split; [by eapply in_inserted|done].
  - intros [= <-]. apply no_blocked in Eb. pose proof (sh_ws s Hs) as Hne.
    apply (shape_move s i notifying sleeping); try done.
    + by intros (? & ? & ?).
    + simpl. tauto.
    + right. destruct (workers s) as [|w ws]; [done|]. exists w.
      split; [apply list_elem_of_here|]. intros ->. apply Eb, list_elem_of_here.
Qed.

Lemma shape_closer s z :
  shape s -> (forall todo h, z = flagging todo h <-> exists todo' h', closer s = flagging todo' h' /\ z = flagging todo h) ->
  past z = past (closer s) -> (after z = true -> after (closer s) = true) ->
  (z = joining \/ z = closed -> blocked ∉ workers s) ->
  (z = closed -> forall w, w ∈ workers s -> w = exited) ->
  (locked s = true -> (exists todo h, closer s = flagging todo h) -> exists todo h, z = flagging todo h) ->
  shape (with_closer s z).
Proof.
  intros Hs Hf Hp Ha Hj Hcl Hh. destruct Hs. split; cbn; try assumption.
  - intros todo h Hz. apply Hf in Hz as (todo' & h' & Hc & _). by eapply sh_flag0.
  - intros Hl. destruct (sh_holder0 Hl) as [?|Hc]; [by left|right]. by apply Hh.
  - congruence.
  - auto.
Qed.

Lemma shape_close_begin s :
  shape s -> locked s = false -> closer s = close_waiting ->
  shape (with_closer (with_closing (with_locked s true) true) (flagging (queue s ++ active s) false)).
Proof.
  intros Hs Hl Hz. destruct (shape_unlocked s Hs Hl) as [Hnp _].
  destruct Hs. split; cbn; try assumption; try done.
  - intros i kept todo Hi. by apply Hnp in Hi.
  - intros _. right. by do 2 eexists.
  - by intros [?|?].
Qed.

Lemma shape_flagging s todo h todo' h' :
  shape s -> closer s = flagging todo h -> shape (with_closer s (flagging todo' h')).
Proof.
  intros Hs Hz. apply shape_closer; try done.
  - intros t x. split; [|by intros (_ & _ & _ & ?)]. intros Ht. by exists todo, h.
  - by rewrite Hz.
  - by intros [?|?].
  - intros _ _. by do 2 eexists.
Qed.

Lemma shape_close_end s h :
  shape s -> closer s = flagging [] h ->
  shape (with_closer (with_locked (with_queue s []) false) close_notifying).
Proof.
  intros Hs Hz. pose proof (sh_closing s Hs) as Hc. rewrite Hz in Hc. simpl in Hc.
  assert (forall i kept todo, stages s !! i <> Some (purging kept todo)) as Hnp.
  { intros i kept todo Hi. destruct (sh_purge s Hs i kept todo Hi) as (_ & ? & _). congruence. }
  destruct Hs. split; cbn; try assumption; try done.
  - lia.
  - by apply NoDup_app in sh_dup0 as (_ & _ & ?).
  - intros j Hj. apply sh_idx0, elem_of_app. by right.
  - intros i st Hi He Hin. apply (sh_early0 i st Hi He), elem_of_app. by right.
  - intros i kept todo Hi. by apply Hnp in Hi.
  - by intros [?|?].
Qed.

Lemma held_wake ws : held (map wake ws) = held ws.
Proof. induction ws as [|w ws IH]; [done|]. destruct w; csimpl; rewrite ?IH; done. Qed.

Lemma in_wake ws w : w ∈ map wake ws -> w <> blocked /\ (w = checking \/ w ∈ ws).
Proof.
  intros (x & -> & Hx)%list_elem_of_fmap. destruct x; simpl; (split; [done|]); first [by left|by right].
Qed.

Lemma shape_close_notify s :
  shape s -> closer s = close_notifying ->
  shape (with_closer (with_workers s (map wake (workers s))) joining).
Proof.
  intros Hs Hz. pose proof (sh_closing s Hs) as Hc. rewrite Hz in Hc. simpl in Hc.
  destruct Hs. split; cbn; rewrite ?held_wake; try assumption; try done.
  - by destruct (workers s).
  - intros Hl. destruct (sh_holder0 Hl) as [?|(? & ? & ?)]; [by left|congruence].
  - rewrite Hz in sh_after0. auto.
  - congruence.
  - intros _ [? _]%in_wake. done.
Qed.

Lemma shape_new_call s q d : shape s -> shape (new_call q d s).
Proof.
  intros Hs. unfold new_call.
  set (c := mk_call _ _ _ _ _). assert (stages (with_calls s (calls s ++ [c])) = stages s ++ [submitting]) as Hst.
  { cbn. by rewrite fmap_app. }
  assert (forall i st, (stages s ++ [submitting]) !! i = Some st -> st <> submitting -> stages s !! i = Some st) as Hold.
  { intros i st Hi Hne. apply lookup_app_Some in Hi as [Hi|[_ Hi]]; [done|].
    apply list_lookup_singleton_Some in Hi as [_ <-]. done. }
  destruct Hs. split; rewrite ?Hst; try assumption.
  - intros j Hj. rewrite length_app. specialize (sh_idx0 j Hj). lia.
  - intros i st Hi He Hin. apply lookup_app_Some in Hi as [Hi|[Hlen _]].
    + by apply (sh_early0 i st Hi He).
    + apply sh_idx0 in Hin. lia.
  - intros i kept todo Hi. apply Hold in Hi; [|done]. by apply (sh_purge0 i).
  - intros i i' kept kept' todo todo' Hi Hi'. apply Hold in Hi, Hi'; [|done..]. by eapply sh_one0.
  - intros Hl. destruct (sh_holder0 Hl) as [(i & kept & todo & Hi)|?]; [left|by right].
    exists i, kept, todo. by apply lookup_app_l_Some.
  - intros Hc Hq. destruct (sh_cv0 Hc Hq) as [?|?]; [by left|right]. apply elem_of_app. by left.
Qed.

(** ** The facts are kept *)

Section FactsKept.
Variable backend : ResolveQuery -> nat -> Answer -> Prop.

Abbreviation call_ok := (call_ok backend).
Abbreviation facts := (facts backend).

Lemma expired_mono t t' c : (t <= t')%Z -> expired t c -> expired t' c.
Proof. intros Ht (d & Hd & Hle). exists d. split; [done|lia]. Qed.

Lemma call_ok_mono o cl cl' t t' c :
  (cl = true -> cl' = true) -> (t <= t')%Z -> call_ok o cl t c -> call_ok o cl' t' c.
Proof.
  intros Hcl Ht [H1 H2 H3 H4 H5 H6 H7 H8 H9 H10]. split; try assumption.
  - auto.
  - intros w Hw. destruct (H9 w Hw) as [?|[? ?]]; [by left|right]. split; [done|].
    by eapply expired_mono.
  - intros r Hr. destruct (H10 r Hr) as [?|[[? Hc]|[[? Hx]|?]]]; [by left| | |by right; right; right].
    + right; left. split; [done|]. destruct Hc as [?|[?|?]]; auto.
    + right; right; left. split; [done|]. by eapply expired_mono.
Qed.

Lemma call_at s i c : facts s -> calls s !! i = Some c -> call_ok (options s) (closing s) (now s) c.
Proof. intros Hf Hi. exact (Forall_lookup_1 _ _ _ _ (fa_calls _ _ Hf) Hi). Qed.

(** A dropped job's wait is over, unless the call returned long ago. *)
Lemma dropped_pending s i c :
  facts s -> calls s !! i = Some c -> waiting (stage c) -> dropped (calls s) i -> pending c.
Proof.
  intros Hf Hi Hw (c' & Hi' & Hd). rewrite Hi in Hi'. injection Hi' as <-.
  pose proof (call_at s i c Hf Hi) as Hok. destruct Hd as [Ha|Hu].
  - destruct (co_abandoned _ _ _ _ _ Hok Ha) as [r Hr]. by rewrite Hr in Hw.
  - pose proof (co_cancelled _ _ _ _ _ Hok Hu) as Hcb. unfold pending.
    destruct (callback c) eqn:Ecb; [done|by right|left]. by eapply co_callback.
Qed.

(** A change of one call that keeps its position. *)
Lemma facts_update s i f :
  facts s -> (forall c, stage (f c) = stage c) ->
  (forall c, calls s !! i = Some c -> le_call c (f c)) ->
  (forall c, calls s !! i = Some c -> call_ok (options s) (closing s) (now s) c ->
     call_ok (options s) (closing s) (now s) (f c)) ->
  facts (update_call i f s).
Proof.
  intros Hf Hst Hle Hok. pose proof (grows_alter (calls s) i f Hle) as Hg.
  destruct Hf. unfold update_call. split; cbn -[alter]; rewrite ?stages_keep by done.
  - apply Forall_alter; [done|]. intros c Hc Hcall. by apply Hok.
  - eapply Forall_impl; [exact fa_workers0|]. intros w. by apply worker_ok_grows.
  - intros x kept todo j Hx Hj Hn. eapply dropped_grows; [done|]. by eapply fa_purge0.
  - intros todo h j Hz Hj. destruct (fa_flag0 todo h j Hz Hj); [by left|right].
    by eapply completed_grows.
  - rewrite length_alter. done.
  - intros j todo c Hz Hj.
    destruct (calls s !! j) as [c0|] eqn:Hc0.
    + destruct (Hg j c0 Hc0) as (c' & Hc' & Hl). rewrite Hj in Hc'. injection Hc' as <-.
      apply Hl. by eapply fa_half0.
    + apply lookup_lt_Some in Hj. rewrite length_alter in Hj. apply lookup_ge_None in Hc0. lia.
  - intros j Ha Hj. eapply completed_grows; [done|]. auto.
  - intros j c Hj Hw. destruct (decide (i = j)) as [<-|Hne].
    + rewrite list_lookup_alter_eq in Hj. apply fmap_Some in Hj as (c0 & Hc0 & ->).
      rewrite Hst in Hw. destruct (fa_wait0 i c0 Hc0 Hw) as [?|?]; [left|by right].
      by apply (le_pending _ _ (Hle c0 Hc0)).
    + rewrite list_lookup_alter_ne in Hj by done. by apply fa_wait0.
Qed.

(** A call moves to a position outside the critical section. *)
Lemma facts_put s i c c' :
  facts s -> calls s !! i = Some c ->
  (forall kept todo j, stage c' = purging kept todo -> j ∈ queue s -> j ∉ kept ++ todo ->
     dropped (calls s) j) ->
  le_call c c' -> call_ok (options s) (closing s) (now s) c' ->
  (waiting (stage c') -> pending c' \/ i ∈ queue s \/ i ∈ omap works (workers s)) ->
  facts (with_calls s (<[i := c']> (calls s))).
Proof.
  intros Hf Hi Hnp Hle Hok Hw. pose proof (grows_insert (calls s) i c c' Hi Hle) as Hg.
  destruct Hf. split; cbn; rewrite ?list_fmap_insert.
  - by apply Forall_insert.
  - eapply Forall_impl; [exact fa_workers0|]. intros w. by apply worker_ok_grows.
  - intros x kept todo j Hx Hj Hn. eapply dropped_grows; [done|].
    apply list_lookup_insert_Some in Hx as [(_ & Hst & _)|(_ & Hx)].
    + by eapply Hnp.
    + by eapply fa_purge0.
  - intros todo h j Hz Hj. destruct (fa_flag0 todo h j Hz Hj); [by left|right].
    by eapply completed_grows.
  - rewrite length_insert. done.
  - intros j todo d Hz Hj. apply list_lookup_insert_Some in Hj as [(<- & <- & _)|(_ & Hj)].
    + apply Hle. exact (fa_half0 i todo c Hz Hi).
    + by eapply fa_half0.
  - intros j Ha Hj. eapply completed_grows; [done|]. auto.
  - intros j d Hj Hw'. apply list_lookup_insert_Some in Hj as [(<- & <- & _)|(_ & Hj)].
    + by apply Hw.
    + by apply fa_wait0.
Qed.

(** Moving on without returning or being woken keeps what is known. *)
Lemma call_ok_stage o cl t c st :
  call_ok o cl t c -> (forall r, stage c <> returned r) ->
  (forall w, st = woken w ->
     (w = fail Errc.cancelled /\ (completion (job c) = true \/ loop_down c = true)) \/
     (w = fail Errc.timed_out /\ expired t c)) ->
  (forall r, st = returned r -> outcome backend o cl t c r) ->
  call_ok o cl t (set_stage st c).
Proof.
  intros [H1 H2 H3 H4 H5 H6 H7 H8 H9 H10] Hnr Hw Hr. split; try assumption.
  intros Ha. destruct (H2 Ha) as [r Hs]. by apply Hnr in Hs.
Qed.

(** A thread moves on; the job it lets go of is complete. *)
Lemma facts_worker s k w w' :
  facts s -> workers s !! k = Some w -> worker_ok backend (options s) (calls s) w' ->
  (forall j, holds w' = Some j -> holds w = Some j) ->
  (forall j, works w = Some j -> works w' = Some j \/ completed (calls s) j) ->
  facts (set_worker k w' s).
Proof.
  intros Hf Hk Hok Hh Hwk.
  assert (forall j, j ∈ held (<[k := w']> (workers s)) -> j ∈ held (workers s)) as Hheld.
  { intros j (x & Hx & Hj)%list_elem_of_omap. apply list_elem_of_omap.
    apply in_insert in Hx as [->|Hx]; [|by exists x]. exists w.
    split; [by eapply list_elem_of_lookup_2|by apply Hh]. }
  destruct Hf. unfold set_worker. split; cbn; try assumption.
  - by apply Forall_insert.
  - intros todo h j Hz Hj. apply (fa_flag0 todo h j Hz). rewrite elem_of_app in *.
    destruct Hj; auto.
  - auto.
  - intros i c Hi Hw. destruct (fa_wait0 i c Hi Hw) as [?|[?|Hin]]; [by left|by right; left|].
    apply list_elem_of_omap in Hin as (x & Hx & Hj).
    apply list_elem_of_lookup in Hx as (n & Hn). destruct (decide (k = n)) as [<-|Hne].
    + rewrite Hk in Hn. injection Hn as <-. destruct (Hwk i Hj) as [Hw'|(c' & Hc' & Hcomp)].
      * right; right. apply list_elem_of_omap. exists w'. split; [by eapply in_inserted|done].
      * left. left. congruence.
    + right; right. apply list_elem_of_omap. exists x. split; [|done].
      apply (list_elem_of_lookup_2 _ n). by rewrite list_lookup_insert_ne.
Qed.

Lemma facts_stage s i c st :
  facts s -> calls s !! i = Some c -> ~ is_purging st -> (forall r, stage c <> returned r) ->
  (forall w, st = woken w ->
     (w = fail Errc.cancelled /\ (completion (job c) = true \/ loop_down c = true)) \/
     (w = fail Errc.timed_out /\ expired (now s) c)) ->
  (forall r, st = returned r -> outcome backend (options s) (closing s) (now s) c r) ->
  (waiting st -> waiting (stage c)) ->
  facts (update_call i (set_stage st) s).
Proof.
  intros Hf Hi Hnp Hnr Hw Hr Hwait. unfold update_call. rewrite (alter_put _ _ _ _ Hi).
  apply (facts_put s i c); try done.
  - intros kept todo j Hst. exfalso. apply Hnp. by exists kept, todo.
  - apply call_ok_stage; try done. by eapply call_at.
  - intros Hst. apply (fa_wait _ s Hf i c Hi). by apply Hwait.
Qed.

Lemma facts_locked s b : facts s -> facts (with_locked s b).
Proof. by intros []. Qed.

Lemma facts_active s l : facts s -> facts (with_active s l).
Proof. by intros []. Qed.

(** The critical section of [resolve]. *)
Lemma facts_purging s i c kept todo :
  facts s -> calls s !! i = Some c -> early (stage c) ->
  (forall j, j ∈ queue s -> j ∉ kept ++ todo -> dropped (calls s) j) ->
  facts (update_call i (set_stage (purging kept todo)) s).
Proof.
  intros Hf Hi He Hd. unfold update_call. rewrite (alter_put _ _ _ _ Hi).
  apply (facts_put s i c); try done.
  - intros kept' todo' j Heq. simpl in Heq. injection Heq as <- <-. apply Hd.
  - apply call_ok_stage; try done; [by eapply call_at|]. intros r Hr. by rewrite Hr in He.
Qed.

(** Leaving it: the queue has lost jobs nobody waits for, and the new one may
    have been appended. *)
Lemma facts_unlock s i kept st q :
  shape s -> facts s -> stages s !! i = Some (purging kept []) ->
  (st = notifying /\ q = kept ++ [i] \/
   q = kept /\ exists r, st = returned r /\ forall c, outcome backend (options s) (closing s) (now s) c r) ->
  facts (with_locked (with_queue (update_call i (set_stage st) s) q) false).
Proof.
  intros Hs Hf Hi Hst. apply facts_locked.
  destruct (sh_purge s Hs _ _ _ Hi) as (_ & Hc & _). rewrite (sh_closing s Hs) in Hc.
  pose proof (fa_purge _ s Hf i kept [] ) as Hdrop. specialize (fun j => Hdrop j Hi) as Hdrop'.
  rewrite app_nil_r in Hdrop'.
  assert (forall x k t, <[i := st]> (stages s) !! x <> Some (purging k t)) as Hnp.
  { intros x k t Hx. apply list_lookup_insert_Some in Hx as [(_ & -> & _)|(Hne & Hx)].
    - destruct Hst as [[[=] _]|(_ & ? & [=] & _)].
    - apply Hne. by eapply (sh_one s Hs). }
  assert (forall x, x ∈ kept -> x ∈ q) as Hkq.
  { intros x Hx. destruct Hst as [[_ ->]|[-> _]]; [|done]. apply elem_of_app. by left. }
  apply lookup_stage in Hi as (c & Hi & Hstage). pose proof (call_at s i c Hf Hi) as Hok.
  assert (grows (calls s) (<[i := set_stage st c]> (calls s))) as Hg
    by (eapply grows_insert; [done|apply le_stage]).
  pose proof (fun j d => dropped_pending s j d Hf) as Hdp.
  unfold update_call. rewrite (alter_put _ _ _ _ Hi).
  destruct Hf. split; cbn; rewrite ?list_fmap_insert.
  - apply Forall_insert; [done|]. apply call_ok_stage; [done|congruence|..].
    + intros w ->. destruct Hst as [[[=] _]|(_ & ? & [=] & _)].
    + intros r ->. destruct Hst as [[[=] _]|(_ & ? & [= <-] & Hr)]. apply Hr.
  - eapply Forall_impl; [exact fa_workers0|]. intros w. by apply worker_ok_grows.
  - intros x k t j Hx. simpl in Hx. by apply Hnp in Hx.
  - intros todo h j Hz. by rewrite Hz in Hc.
  - intros todo h j Hz. by rewrite Hz in Hc.
  - intros j todo d Hz. by rewrite Hz in Hc.
  - intros j Ha. by destruct (closer s).
  - intros j d Hj Hw. apply list_lookup_insert_Some in Hj as [(<- & <- & _)|(_ & Hj)].
    + right; left. destruct Hst as [[_ ->]|(_ & r & -> & _)]; [|done].
      apply elem_of_app. right. by apply list_elem_of_singleton.
    + destruct (fa_wait0 j d Hj Hw) as [?|[Hin|?]]; [by left| |by right; right].
      destruct (decide (j ∈ kept)) as [Hk|Hk]; [right; left; by apply Hkq|left].
      apply (Hdp j d Hj Hw). by apply Hdrop'.
Qed.

(** ** The facts are kept: jobs, threads, the destructor *)

Lemma facts_job s i f :
  facts s ->
  (forall c, calls s !! i = Some c -> le_call c (set_job f c)) ->
  (forall c, calls s !! i = Some c -> call_ok (options s) (closing s) (now s) c ->
     call_ok (options s) (closing s) (now s) (set_job f c)) ->
  facts (update_job i f s).
Proof. intros Hf Hle Hok. by apply facts_update. Qed.

(** [request_stop] of a job that has a reason to be complete. *)
Lemma facts_complete s i :
  facts s -> (forall c, calls s !! i = Some c -> excused (job c)) ->
  facts (update_job i complete_job s).
Proof.
  intros Hf Hx. apply facts_job; [done| |].
  - intros c _. split; try done. intros [?|?]; [by left|by right].
  - intros c Hi [H1 H2 H3 H4 H5 H6 H7 H8 H9 H10]. specialize (Hx c Hi). split; try assumption; try done.
    intros w Hw. destruct (H9 w Hw) as [[? ?]|?]; [left|by right]. split; [done|]. by left.
Qed.

Lemma facts_shutdown s i : facts s -> closing s = true -> facts (update_job i set_shutdown s).
Proof.
  intros Hf Hc. apply facts_job; [done| |].
  - intros c _. by split.
  - intros c Hi [H1 H2 H3 H4 H5 H6 H7 H8 H9 H10]. split; try assumption; try done.
    intros Hcomp. destruct (H7 Hcomp) as [?|[?|[?|?]]]; unfold excused; simpl; auto.
Qed.

Lemma facts_result s i r :
  facts s -> (forall c, calls s !! i = Some c -> from_backend backend (options s) (job_query (job c)) r) ->
  facts (update_job i (set_result r) s).
Proof.
  intros Hf Hr. apply facts_job; [done| |].
  - intros c _. by split.
  - intros c Hi [H1 H2 H3 H4 H5 H6 H7 H8 H9 H10]. split; try assumption.
    + intros r' [= <-]. exact (Hr c Hi).
    + intros Hcomp. left. by eexists.
Qed.

Lemma facts_take s k j q :
  shape s -> facts s -> workers s !! k = Some checking -> closing s = false -> queue s = j :: q ->
  locked s = false ->
  facts (set_worker k (took j) (with_active (with_queue s q) (active s ++ [j]))).
Proof.
  intros Hs Hf Hk Hc Hq Hl. destruct (shape_unlocked s Hs Hl) as [Hnp Hnf].
  pose proof (sh_closing s Hs) as Hcl. rewrite Hc in Hcl.
  destruct Hf. unfold set_worker. split; cbn; try assumption.
  - by apply Forall_insert.
  - intros i kept todo x Hi. by apply Hnp in Hi.
  - intros todo h x Hz. by apply Hnf in Hz.
  - intros x Ha. by destruct (closer s).
  - intros i c Hi Hw. pose proof (omap_gain works (workers s) k checking (took j) j Hk eq_refl eq_refl) as Hp.
    rewrite Hp, elem_of_cons. destruct (fa_wait0 i c Hi Hw) as [?|[Hin|?]]; [by left| |tauto].
    rewrite Hq in Hin. apply elem_of_cons in Hin. tauto.
Qed.

Lemma facts_close_begin s :
  shape s -> facts s -> closer s = close_waiting ->
  facts (with_closer (with_closing (with_locked s true) true) (flagging (queue s ++ active s) false)).
Proof.
  intros Hs Hf Hz. pose proof (sh_act s Hs) as Ha.
  pose proof (sh_idx s Hs) as Hidx. rewrite length_fmap in Hidx.
  destruct Hf. split; cbn; try assumption; try done.
  - eapply Forall_impl; [exact fa_calls0|]. intros c. by apply call_ok_mono.
  - intros todo h j [= <- <-] Hj. left. by rewrite Ha.
  - intros todo h j [= <- <-]. rewrite Ha. apply Hidx.
Qed.

Lemma facts_flag s j todo :
  facts s -> closer s = flagging (j :: todo) false -> closing s = true ->
  facts (with_closer (update_job j set_shutdown s) (flagging (j :: todo) true)).
Proof.
  intros Hf Hz Hc. pose proof (fun x => fa_flag _ s Hf _ _ x Hz) as Hfl'.
  assert (grows (calls s) (calls (update_job j set_shutdown s))) as Hg.
  { apply grows_alter. intros c _. by split. }
  pose proof (fun x => fa_todo _ s Hf _ _ x Hz) as Htodo.
  pose proof (facts_shutdown s j Hf Hc) as Hf'. destruct Hf'. split; try assumption; try done.
  - intros todo' h x [= <- <-] Hx. destruct (Hfl' x Hx); [by left|right]. by eapply completed_grows.
  - intros todo' h x [= <- <-]. cbn. rewrite length_alter. apply Htodo.
  - intros x t c [= <- <-] Hx. cbn in Hx. rewrite list_lookup_alter_eq in Hx.
    apply fmap_Some in Hx as (c0 & _ & ->). done.
Qed.

Lemma facts_stop s j todo :
  shape s -> facts s -> closer s = flagging (j :: todo) true ->
  facts (with_closer (update_job j complete_job s) (flagging todo false)).
Proof.
  intros Hs Hf Hz. pose proof (fun x => fa_flag _ s Hf _ _ x Hz) as Hfl.
  pose proof (sh_idx s Hs) as Hidx. rewrite length_fmap in Hidx.
  assert (grows (calls s) (calls (update_job j complete_job s))) as Hg.
  { apply grows_alter. intros c _. split; try done. intros [?|?]; [by left|by right]. }
  assert (facts (update_job j complete_job s)) as Hf'.
  { apply facts_complete; [done|]. intros c Hc. right; right; right. by eapply fa_half. }
  pose proof (fun x => fa_todo _ s Hf _ _ x Hz) as Htodo.
  destruct Hf'. split; try assumption; try done.
  - intros todo' h x [= <- <-] Hx. destruct (Hfl x Hx) as [Hin|Hcomp].
    + apply elem_of_cons in Hin as [->|Hin]; [right|by left].
      destruct (lookup_lt_is_Some_2 (calls s) j (Hidx j Hx)) as [c Hc].
      exists (set_job complete_job c). cbn. by rewrite list_lookup_alter_eq, Hc.
    + right. by eapply completed_grows.
  - intros todo' h x [= <- <-] Hx. cbn. rewrite length_alter. apply Htodo.
    apply elem_of_cons. by right.
Qed.

Lemma facts_close_end s h :
  shape s -> facts s -> closer s = flagging [] h ->
  facts (with_closer (with_locked (with_queue s []) false) close_notifying).
Proof.
  intros Hs Hf Hz. pose proof (fun x => fa_flag _ s Hf _ _ x Hz) as Hfl.
  assert (forall x, x ∈ queue s ++ held (workers s) -> completed (calls s) x) as Hall.
  { intros x Hx. destruct (Hfl x Hx) as [Hn|?]; [|done]. by apply elem_of_nil in Hn. }
  destruct Hf. split; cbn; try assumption; try done.
  - intros i kept todo j _ Hj. by apply elem_of_nil in Hj.
  - intros j _ Hj. apply Hall, elem_of_app. by right.
  - intros i c Hi Hw. destruct (fa_wait0 i c Hi Hw) as [?|[Hin|?]]; [by left| |by right; right].
    destruct (Hall i) as (c' & Hc' & Hcomp); [apply elem_of_app; by left|]. left; left. congruence.
Qed.

Lemma works_wake ws : omap works (map wake ws) = omap works ws.
Proof. induction ws as [|w ws IH]; [done|]. destruct w; csimpl; rewrite ?IH; done. Qed.

Lemma facts_close_notify s :
  facts s -> closer s = close_notifying ->
  facts (with_closer (with_workers s (map wake (workers s))) joining).
Proof.
  intros Hf Hz. destruct Hf. split; cbn; rewrite ?held_wake, ?works_wake; try assumption; try done.
  - apply Forall_map. eapply Forall_impl; [exact fa_workers0|]. intros w Hw. by destruct w.
  - intros j _. apply fa_after0. by rewrite Hz.
Qed.

Lemma facts_closer s z :
  facts s -> (forall todo h, z <> flagging todo h) -> (after z = true -> after (closer s) = true) ->
  facts (with_closer s z).
Proof.
  intros Hf Hz Ha. destruct Hf. split; cbn; try assumption.
  - intros todo h j Hzz. by apply Hz in Hzz.
  - intros todo h j Hzz. by apply Hz in Hzz.
  - intros j todo c Hzz. by apply Hz in Hzz.
  - auto.
Qed.

Lemma facts_user_stop s i c :
  facts s -> calls s !! i = Some c -> callback c = cb_idle ->
  facts (update_call i (set_callback cb_flagged) (update_job i set_user_cancelled s)).
Proof.
  intros Hf Hi Hcb. unfold update_job, update_call. cbn. rewrite <- alter_twice.
  apply (facts_update s i (set_callback cb_flagged ∘ set_job set_user_cancelled)); [done|done|..].
  - intros d Hd. split; try done. intros _. by right.
  - intros d Hd [H1 H2 H3 H4 H5 H6 H7 H8 H9 H10]. simplify_eq. split; try assumption; try done.
    + intros Hcomp. destruct (H7 Hcomp) as [?|[?|[?|?]]]; unfold excused; simpl; auto.
    + intros r Hr. destruct (H10 r Hr) as [?|[[? _]|[?|?]]].
      * by left.
      * right; left. split; [done|]. by left.
      * by right; right; left.
      * by right; right; right.
Qed.

Lemma facts_callback s i c :
  facts s -> calls s !! i = Some c -> callback c = cb_flagged ->
  facts (update_call i (set_callback cb_done) (update_job i complete_job s)).
Proof.
  intros Hf Hi Hcb. unfold update_job, update_call. cbn. rewrite <- alter_twice.
  apply (facts_update s i (set_callback cb_done ∘ set_job complete_job)); [done|done|..].
  - intros d Hd. split; try done. intros _. by left.
  - intros d Hd [H1 H2 H3 H4 H5 H6 H7 H8 H9 H10]. simplify_eq.
    assert (user_cancelled (job c) = true) as Hu by (apply H4; by rewrite Hcb).
    split; try assumption; try done.
    + intros _. right; left. done.
    + intros w Hw. destruct (H9 w Hw) as [[? ?]|?]; [left|by right]. split; [done|]. by left.
    + intros r Hr. destruct (H10 r Hr) as [?|[[? _]|[?|?]]].
      * by left.
      * right; left. split; [done|]. by left.
      * by right; right; left.
      * by right; right; right.
Qed.

Lemma facts_loop_down s i : facts s -> facts (loop_shutdown i s).
Proof.
  intros Hf. apply facts_update; [done|done|by split|].
  intros c Hi [H1 H2 H3 H4 H5 H6 H7 H8 H9 H10]. split; try assumption.
  - intros w Hw. destruct (H9 w Hw) as [[? ?]|?]; [left|by right]. split; [done|]. by right.
  - intros r Hr. destruct (H10 r Hr) as [?|[[? _]|[?|?]]].
    + by left.
    + right; left. split; [done|]. right; by right.
    + by right; right; left.
    + by right; right; right.
Qed.

Lemma facts_time s t : facts s -> (now s <= t)%Z -> facts (with_now s t).
Proof.
  intros Hf Ht. destruct Hf. split; cbn; try assumption.
  eapply Forall_impl; [exact fa_calls0|]. intros c. by apply call_ok_mono.
Qed.

Lemma facts_new_call s q d : query_ok q = true -> facts s -> shape s -> facts (new_call q d s).
Proof.
  intros Hq Hf Hs. unfold new_call. set (c := mk_call _ _ _ _ _).
  pose proof (grows_app (calls s) c) as Hg. pose proof (sh_flag s Hs) as Hsf.
  pose proof (sh_idx s Hs) as Hidx. rewrite length_fmap in Hidx.
  destruct Hf. split; cbn -[app].
  - apply Forall_app. split; [done|]. constructor; [|done]. by split.
  - eapply Forall_impl; [exact fa_workers0|]. intros w. by apply worker_ok_grows.
  - intros i kept todo j Hi Hj Hn. eapply dropped_grows; [done|].
    rewrite fmap_app in Hi. apply lookup_app_Some in Hi as [Hi|[_ Hi]]; [by eapply fa_purge0|].
    apply list_lookup_singleton_Some in Hi as [_ [=]].
  - intros todo h j Hz Hj. destruct (fa_flag0 todo h j Hz Hj); [by left|right].
    by eapply completed_grows.
  - intros todo h j Hz Hj. rewrite length_app. specialize (fa_todo0 todo h j Hz Hj). lia.
  - intros j todo c' Hz Hj. apply lookup_app_Some in Hj as [Hj|[Hlen _]]; [by eapply fa_half0|].
    specialize (fa_todo0 _ _ j Hz (list_elem_of_here _ _)). lia.
  - intros j Ha Hj. eapply completed_grows; [done|]. auto.
  - intros i c' Hi Hw. apply lookup_app_Some in Hi as [Hi|[_ Hi]]; [by apply fa_wait0|].
    apply list_lookup_singleton_Some in Hi as [_ <-]. done.
Qed.
End FactsKept.
