(* ===== verification/ResolverLive.v ===== *)
(** * ResolverLive: every call of [resolve] is answered, whatever the schedule

    The invariant of ResolverInv.v holds in every reachable state.  From it, the
    answers a call returns with, and a measure that every step of the program's
    own threads decreases: left alone, the resolver comes to rest after finitely
    many steps, with every call returned and, when it is being destroyed, its
    threads joined. *)

From S2P Require Import Prelude Errors Endpoint Resolver ResolverInv.

Section Live.
Variable backend : ResolveQuery -> nat -> Answer -> Prop.

Definition Inv (s : Sys) : Prop := shape s /\ facts backend s.

Lemma held_replicate n : held (replicate n checking) = [].
Proof. induction n as [|n IH]; [done|]. exact IH. Qed.

Lemma inv_create o t s : create o None t = Ok s -> Inv s.
Proof.
  unfold create. destruct (_ || _) eqn:E; [done|]. intros [= <-]. bool_facts.
  split.
  - split; cbn; try done.
    + lia.
    + lia.
    + intros Hn. apply (f_equal length) in Hn. rewrite length_replicate in Hn. simpl in Hn. lia.
    + rewrite held_replicate.
      constructor.
    + rewrite held_replicate.
      intros j Hj. by apply elem_of_nil in Hj.
    + rewrite held_replicate.
      done.
    + intros Hin. apply elem_of_replicate in Hin as [? _]. done.
    + by intros [?|?].
  - split; cbn; try done. apply Forall_replicate. done.
Qed.

Lemma outcome_cancelled_closing o cl t c :
  cl = true -> outcome backend o cl t c (fail Errc.cancelled).
Proof. intros. right; left. split; [done|]. by right; left. Qed.

(** What is delivered is one of the answers a call may return with. *)
Lemma deliver_outcome o cl t c w :
  call_ok backend o cl t c -> stage c = woken w -> outcome backend o cl t c (deliver (job c) w).
Proof.
  intros Hok Hw. pose proof (co_woken _ _ _ _ _ Hok w Hw) as Hwoken. unfold deliver.
  destruct (result (job c)) as [r|] eqn:Er; [left; by eapply co_result|].
  destruct (user_cancelled (job c)) eqn:Eu.
  { right; left. split; [done|]. left. by eapply co_cancelled. }
  destruct Hwoken as [[-> Hc]|[-> Hx]].
  - right; left. split; [done|]. destruct Hc as [Hc|Hl]; [|by right; right].
    destruct (co_complete _ _ _ _ _ Hok Hc) as [[r Hr]|[Hu|[Ha|Hsd]]]; [congruence|congruence| |].
    + destruct (co_abandoned _ _ _ _ _ Hok Ha) as [r Hr]. congruence.
    + right; left. by eapply co_shutdown.
  - right; right; left. done.
Qed.

Lemma inv_call i k w s s' : Inv s -> call_step i k w s = Some s' -> Inv s'.
Proof.
  intros [Hs Hf]. unfold call_step. destruct (calls s !! i) as [c|] eqn:Hi; [|done].
  pose proof (stage_lookup _ _ _ Hi) as Hst.
  destruct (stage c) as [|kept todo| | |wd|r] eqn:Ec.
  - destruct (locked s) eqn:El; [done|]. destruct (closing s) eqn:Ecl; intros [= <-].
    + split.
      * apply (shape_move s i submitting); try done; [by intros (? & ? & ?)|simpl; tauto|by left].
      * apply (facts_stage backend s i c); try done; [by intros (? & ? & ?)|congruence|].
        intros r [= <-]. by apply outcome_cancelled_closing.
    + split; [by apply shape_lock|]. apply facts_locked. apply (facts_purging backend s i c); try done.
      by rewrite Ec.
  - destruct todo as [|j todo].
    + destruct (_ <=? _)%nat eqn:Eq; intros [= <-].
      * split.
        -- eapply shape_unlock; [done..|]. right. split; [by eexists|done].
        -- eapply facts_unlock; [done..|]. right. split; [done|]. eexists. split; [done|].
           intros c'. right; right; by right.
      * apply Nat.leb_gt in Eq. split.
        -- eapply shape_unlock; [done..|]. by left.
        -- eapply facts_unlock; [done..|]. by left.
    + destruct (calls s !! j) as [p|] eqn:Hj; [|done]. intros [= <-].
      destruct (abandoned (job p) || user_cancelled (job p)) eqn:Ed.
      * split; [eapply shape_purge; [done..|]; by apply sublist_inserts_r|].
        apply (facts_purging backend s i c); [done..|by rewrite Ec|].
        intros x Hx Hn. destruct (decide (x = j)) as [->|Hne].
        -- exists p. split; [done|]. apply orb_true_iff in Ed. done.
        -- eapply (fa_purge _ _ Hf); [done|done|]. rewrite elem_of_app, elem_of_cons in *. tauto.
      * split; [by eapply shape_purge|].
        apply (facts_purging backend s i c); [done..|by rewrite Ec|].
        intros x Hx Hn. eapply (fa_purge _ _ Hf); [done|done|].
        rewrite <- app_assoc in Hn. done.
  - destruct (notify_one k (workers s)) as [ws|] eqn:En; [|done]. intros [= <-].
    split; [by eapply shape_notify|].
    assert (facts backend (with_workers s ws)) as Hf2.
    { unfold notify_one in En. destruct (existsb _ _); [|injection En as <-; by destruct Hf].
      destruct (workers s !! k) as [v|] eqn:Hk; [|done]. destruct v; try done. injection En as <-.
      by apply (facts_worker backend s k blocked checking). }
    apply (facts_stage backend (with_workers s ws) i c); try done; [by intros (? & ? & ?)|congruence|by rewrite Ec].
  - destruct (wait_ends (now s) c w) eqn:Ew; [|done]. intros [= <-]. split.
    + apply (shape_move s i sleeping); try done; [by intros (? & ? & ?)|simpl; tauto|by left].
    + apply (facts_stage backend s i c); try done; [by intros (? & ? & ?)|congruence|].
      intros v [= <-]. destruct w; simpl in *.
      * left. split; [done|]. by apply orb_true_iff in Ew.
      * right. split; [done|]. destruct (deadline c) as [d|] eqn:Ed; [|done].
        apply Z.leb_le in Ew. by exists d.
  - intros [= <-]. pose proof (call_at backend s i c Hf Hi) as Hok.
    pose proof (deliver_outcome _ _ _ _ _ Hok Ec) as Hout. split.
    + apply (shape_move (update_job i set_abandoned s) i (woken wd)); try done.
      * by apply shape_job.
      * cbn. by rewrite stages_keep.
      * by intros (? & ? & ?).
      * simpl. tauto.
      * by left.
    + change (facts backend (with_calls s (alter (set_stage (returned (deliver (job c) wd))) i
        (alter (set_job set_abandoned) i (calls s))))).
      rewrite <- alter_twice, (alter_put _ _ _ _ Hi).
      apply (facts_put backend s i c); try done.
      destruct Hok. split; try done.
      * intros _. by eexists.
      * intros Hc. right; right; by left.
      * intros r [= <-]. done.
  - done.
Qed.

Lemma inv_callback i s s' : Inv s -> callback_step i s = Some s' -> Inv s'.
Proof.
  intros [Hs Hf]. unfold callback_step. destruct (calls s !! i) as [c|] eqn:Hi; [|done].
  destruct (callback c) eqn:Ecb; try done. intros [= <-]. split.
  - by apply shape_callback, shape_job.
  - by eapply facts_callback.
Qed.

(** A thread moves on with its job, after a change of that job. *)
Lemma inv_work s k w w' f :
  Inv s -> workers s !! k = Some w -> holds w' = holds w -> is_Some (holds w) ->
  worker_ok backend (options s) (calls (f s)) w' ->
  (forall j, works w = Some j -> works w' = Some j \/ completed (calls (f s)) j) ->
  shape (f s) -> facts backend (f s) -> workers (f s) = workers s -> options (f s) = options s ->
  Inv (set_worker k w' (f s)).
Proof.
  intros _ Hk Hh Hsome Hok Hw Hs Hf Hws Ho. rewrite <- Hws in Hk. split.
  - by eapply shape_work.
  - eapply facts_worker; [done|done|by rewrite Ho| |done]. intros j. by rewrite Hh.
Qed.

Lemma inv_worker k a s s' :
  (forall j c, workers s !! k = Some (running j) -> calls s !! j = Some c ->
     backend (job_query (job c)) (max_results (options s)) a) ->
  Inv s -> worker_step k a s = Some s' -> Inv s'.
Proof.
  intros Hb HI. pose proof HI as [Hs Hf]. unfold worker_step.
  destruct (workers s !! k) as [w|] eqn:Hk; [|done].
  pose proof (Forall_lookup_1 _ _ _ _ (fa_workers _ _ Hf) Hk) as Hwok.
  pose proof (list_elem_of_lookup_2 _ _ _ Hk) as Hwin.
  assert (forall j, holds w = Some j -> exists c, calls s !! j = Some c) as Hcall.
  { intros j Hj. apply lookup_lt_is_Some_2. rewrite <- (length_fmap stage).
    apply (sh_idx s Hs), elem_of_app. right. by eapply omap_in. }
  destruct w as [| |j|j|j r|j|j|].
  - destruct (locked s) eqn:El; [done|]. destruct (closing s) eqn:Ec.
    { intros [= <-]. split; [apply (shape_idle s k checking exited); try done; by right; left|].
      by apply (facts_worker backend s k checking exited). }
    destruct (queue s) as [|j q] eqn:Eq; intros [= <-].
    + split; [apply (shape_idle s k checking blocked); try done; by right; right|].
      by apply (facts_worker backend s k checking blocked).
    + split; [by apply shape_take|by apply facts_take].
  - done.
  - destruct (calls s !! j) as [c|] eqn:Hj; [|done]. intros [= <-].
    apply (inv_work s k (took j) _ (fun x => x)); try done.
    + by destruct (_ || _).
    + destruct (_ || _) eqn:E; [|done]. exists c. split; [done|]. unfold excused.
      rewrite !orb_true_iff in E. tauto.
    + intros x [= ->]. left. by destruct (_ || _).
  - intros [= <-]. apply (inv_work s k (running j) _ (fun x => x)); try done.
    + destruct (Hcall j eq_refl) as [c Hc]. exists c. split; [done|]. exists a.
      split; [by apply (Hb j)|done].
    + intros x [= ->]. by left.
  - destruct (calls s !! j) as [c|] eqn:Hj; [|done]. intros [= <-].
    destruct Hwok as (c' & Hc' & Hr). rewrite Hj in Hc'. injection Hc' as <-.
    destruct (_ && _) eqn:E.
    + apply (inv_work s k (storing j r) _ (update_job j (set_result r))); try done.
      * exists (set_job (set_result r) c). cbn. rewrite list_lookup_alter_eq, Hj. split; [done|].
        left. by eexists.
      * intros x [= ->]. by left.
      * by apply shape_job.
      * apply facts_result; [done|]. intros c' Hc'. by simplify_eq.
    + apply (inv_work s k (storing j r) _ (fun x => x)); try done.
      * exists c. split; [done|]. unfold excused.
        apply andb_false_iff in E as [E|E]; apply negb_false_iff in E; tauto.
      * intros x [= ->]. by left.
  - intros [= <-]. destruct Hwok as (c & Hc & Hx).
    apply (inv_work s k (finishing j) _ (update_job j complete_job)); try done.
    + intros x [= ->]. right. exists (set_job complete_job c). cbn.
      by rewrite list_lookup_alter_eq, Hc.
    + by apply shape_job.
    + apply facts_complete; [done|]. intros c' Hc'. by simplify_eq.
  - destruct (locked s) eqn:El; [done|]. intros [= <-]. split; [by apply shape_erase|].
    apply (facts_worker backend _ k (erasing j)); try done. by apply facts_active.
  - done.
Qed.

Lemma forallb_exited ws w : forallb is_exited ws = true -> w ∈ ws -> w = exited.
Proof.
  intros Hf Hin. apply list_elem_of_In in Hin. rewrite forallb_forall in Hf.
  specialize (Hf w Hin). by destruct w.
Qed.

Lemma inv_close s s' : Inv s -> close_step s = Some s' -> Inv s'.
Proof.
  intros [Hs Hf]. unfold close_step. destruct (closer s) as [| |todo h| | |] eqn:Ez; try done.
  - destruct (locked s) eqn:El; [done|]. intros [= <-].
    split; [by apply shape_close_begin|by apply facts_close_begin].
  - pose proof (sh_closing s Hs) as Hc. rewrite Ez in Hc.
    destruct todo as [|j todo]; [|destruct h]; intros [= <-].
    + split; [by eapply shape_close_end|by eapply facts_close_end].
    + split; [|by apply facts_stop]. eapply (shape_flagging (update_job j complete_job s)); [|exact Ez].
      by apply shape_job.
    + split; [|by apply facts_flag]. eapply (shape_flagging (update_job j set_shutdown s)); [|exact Ez].
      by apply shape_job.
  - intros [= <-]. split; [by apply shape_close_notify|by apply facts_close_notify].
  - destruct (forallb is_exited (workers s)) eqn:Ex; [|done]. intros [= <-]. split.
    + apply shape_closer; try done.
      * intros todo h. split; [done|]. by intros (? & ? & ? & ?).
      * by rewrite Ez.
      * by rewrite Ez.
      * intros _. apply (sh_joining s Hs). by left.
      * intros _ w. by apply forallb_exited.
      * intros _ (? & ? & ?). congruence.
    + apply facts_closer; [done|done|by rewrite Ez].
Qed.

Lemma inv_external s s' : Inv s -> external s s' -> Inv s'.
Proof.
  intros [Hs Hf] Hx. destruct Hx as [q d Hq|i s' H|i|t Ht|s' H|k s' H].
  - split; [by apply shape_new_call|by apply facts_new_call].
  - unfold user_stop in H. destruct (calls s !! i) as [c|] eqn:Hi; [|done].
    destruct (callback c) eqn:Ecb; try done.
    assert (Inv (update_call i (set_callback cb_flagged) (update_job i set_user_cancelled s))) as HI.
    { split; [by apply shape_callback, shape_job|by eapply facts_user_stop]. }
    destruct (stage c); congruence.
  - split; [|by apply facts_loop_down]. apply shape_calls; [|done]. by apply stages_keep.
  - split; [by destruct Hs|by apply facts_time].
  - unfold destroy in H. destruct (closer s) eqn:Ez; try done. injection H as <-. split.
    + apply shape_closer; try done.
      * intros todo h. split; [done|]. by intros (? & ? & ? & ?).
      * by rewrite Ez.
      * by intros [?|?].
      * intros _ (? & ? & ?). congruence.
    + by apply facts_closer.
  - unfold spurious_wake in H. destruct (workers s !! k) as [w|] eqn:Hk; [|done].
    destruct w; try done. injection H as <-. split.
    + apply (shape_idle s k blocked checking); try done. by left.
    + by apply (facts_worker backend s k blocked checking).
Qed.

Lemma inv_internal s s' : Inv s -> internal backend s s' -> Inv s'.
Proof.
  intros HI [i k w s1 H|i s1 H|k a s1 Hb H|s1 H].
  - by eapply inv_call.
  - by eapply inv_callback.
  - by eapply inv_worker.
  - by eapply inv_close.
Qed.

Lemma sys_reachable_inv s : reachable backend s -> Inv s.
Proof.
  induction 1 as [o t s H|s s' _ IH H|s s' _ IH H].
  - by eapply inv_create.
  - by eapply inv_internal.
  - by eapply inv_external.
Qed.

(** ** The measure *)

Definition stage_weight (cap : nat) (st : Stage) : nat :=
  match st with
  | submitting => cap + 13
  | purging _ todo => length todo + 12
  | notifying => 4
  | sleeping => 2
  | woken _ => 1
  | returned _ => 0
  end.

Definition callback_weight (b : Callback) : nat := match b with cb_flagged => 1 | _ => 0 end.

Definition call_weight (cap : nat) (c : Call) : nat :=
  stage_weight cap (stage c) + callback_weight (callback c).

Definition worker_weight (w : Worker) : nat :=
  match w with
  | took _ => 6
  | running _ => 5
  | storing _ _ => 4
  | finishing _ => 3
  | erasing _ => 2
  | checking => 1
  | blocked | exited => 0
  end.

Definition closer_weight (cap n : nat) (z : Closer) : nat :=
  match z with
  | close_waiting => 2 * (cap + n) + n + 5
  | flagging todo h => 2 * length todo + n + 4 - (if h then 1 else 0)
  | close_notifying => n + 2
  | joining => 1
  | is_open | closed => 0
  end.

(** How many more steps the program's own threads can take. *)
Definition remaining (s : Sys) : nat :=
  let cap := queue_capacity (options s) in
  sum_list_with (call_weight cap) (calls s) + sum_list_with worker_weight (workers s) +
  7 * length (queue s) + closer_weight cap (length (workers s)) (closer s).

Lemma sum_insert {A} (f : A -> nat) l i x y :
  l !! i = Some x -> sum_list_with f (<[i := y]> l) + f x = sum_list_with f l + f y.
Proof.
  revert i; induction l as [|z l IH]; intros [|i] Hi; simpl in *; simplify_eq; [lia|].
  specialize (IH i Hi). lia.
Qed.

Lemma sum_alter_same {A} (f : A -> nat) (g : A -> A) l i :
  (forall x, f (g x) = f x) -> sum_list_with f (alter g i l) = sum_list_with f l.
Proof.
  intros Hg. revert i; induction l as [|z l IH]; intros [|i]; csimpl; [done..|by rewrite Hg|].
  f_equal. apply IH.
Qed.

Lemma length_held ws : (length (held ws) <= length ws)%nat.
Proof. induction ws as [|w ws IH]; csimpl; [lia|]. destruct (holds w); simpl; lia. Qed.

Lemma sum_wake ws : (sum_list_with worker_weight (map wake ws) <= sum_list_with worker_weight ws + length ws)%nat.
Proof. induction ws as [|w ws IH]; simpl; [lia|]. destruct w; simpl; lia. Qed.

Lemma remaining_call i k w s s' : Inv s -> call_step i k w s = Some s' -> (remaining s' < remaining s)%nat.
Proof.
  intros [Hs Hf]. unfold call_step. destruct (calls s !! i) as [c|] eqn:Hi; [|done].
  pose proof (stage_lookup _ _ _ Hi) as Hst. pose proof (sh_cap s Hs) as Hcap.
  set (cap := queue_capacity (options s)) in *.
  assert (forall st, sum_list_with (call_weight cap) (alter (set_stage st) i (calls s)) +
      stage_weight cap (stage c) = sum_list_with (call_weight cap) (calls s) + stage_weight cap st) as Hsum.
  { intros st. rewrite (alter_put _ _ _ _ Hi).
    pose proof (sum_insert (call_weight cap) (calls s) i c (set_stage st c) Hi) as H.
    unfold call_weight in *. simpl in H. lia. }
  destruct (stage c) as [|kept todo| | |wd|r] eqn:Ec.
  - destruct (locked s); [done|]. destruct (closing s); intros [= <-]; unfold remaining; cbn -[Nat.mul];
      fold cap.
    + specialize (Hsum (returned (fail Errc.cancelled))). simpl in Hsum. lia.
    + specialize (Hsum (purging [] (queue s))). simpl in Hsum. lia.
  - destruct todo as [|j todo].
    + destruct (sh_purge s Hs _ _ _ Hst) as (_ & _ & Hsub). rewrite app_nil_r in Hsub.
      apply sublist_length in Hsub.
      destruct (_ <=? _)%nat; intros [= <-]; unfold remaining; cbn -[Nat.mul]; fold cap.
      * specialize (Hsum (returned (fail Errc.limit_exceeded))). simpl in Hsum. lia.
      * specialize (Hsum notifying). simpl in Hsum. rewrite length_app. simpl. lia.
    + destruct (calls s !! j) as [p|]; [|done]. intros [= <-]. unfold remaining; cbn -[Nat.mul]; fold cap.
      match goal with |- context [purging ?x todo] => specialize (Hsum (purging x todo)) end.
      simpl in Hsum. lia.
  - destruct (notify_one k (workers s)) as [ws|] eqn:En; [|done]. intros [= <-].
    unfold remaining; cbn -[Nat.mul]; fold cap. specialize (Hsum sleeping). simpl in Hsum.
    unfold notify_one in En. destruct (existsb _ _); [|injection En as <-; lia].
    destruct (workers s !! k) as [v|] eqn:Hk; [|done]. destruct v; try done. injection En as <-.
    pose proof (sum_insert worker_weight (workers s) k blocked checking Hk) as Hw. simpl in Hw.
    rewrite length_insert. lia.
  - destruct (wait_ends _ _ _); [|done]. intros [= <-]. unfold remaining; cbn -[Nat.mul]; fold cap.
    specialize (Hsum (woken (waited_of w))). simpl in Hsum. lia.
  - intros [= <-]. unfold remaining; cbn -[Nat.mul]; fold cap.
    assert (alter (set_job set_abandoned) i (calls s) !! i = Some (set_job set_abandoned c)) as Hi'
      by (by rewrite list_lookup_alter_eq, Hi).
    rewrite (alter_put (set_stage _) _ _ _ Hi').
    pose proof (sum_insert (call_weight cap) _ i _
      (set_stage (returned (deliver (job c) wd)) (set_job set_abandoned c)) Hi') as H.
    rewrite (sum_alter_same _ (set_job set_abandoned)) in H by done.
    unfold call_weight in H at 2 4. simpl in H. rewrite Ec in H. simpl in H. lia.
  - done.
Qed.

Lemma remaining_callback i s s' : callback_step i s = Some s' -> (remaining s' < remaining s)%nat.
Proof.
  unfold callback_step. destruct (calls s !! i) as [c|] eqn:Hi; [|done].
  destruct (callback c) eqn:Ecb; try done. intros [= <-]. unfold remaining; cbn -[Nat.mul].
  set (cap := queue_capacity (options s)).
  assert (alter (set_job complete_job) i (calls s) !! i = Some (set_job complete_job c)) as Hi'
    by (by rewrite list_lookup_alter_eq, Hi).
  rewrite (alter_put (set_callback _) _ _ _ Hi').
  pose proof (sum_insert (call_weight cap) _ i _
    (set_callback cb_done (set_job complete_job c)) Hi') as H.
  rewrite (sum_alter_same _ (set_job complete_job)) in H by done.
  unfold call_weight in H at 2 4. simpl in H. rewrite Ecb in H. simpl in H. lia.
Qed.

(** A thread's step, once the jobs it touches are left aside. *)
Lemma remaining_set_worker s k w w' f :
  workers s !! k = Some w -> (worker_weight w' < worker_weight w)%nat ->
  remaining (f s) = remaining s -> workers (f s) = workers s ->
  (remaining (set_worker k w' (f s)) < remaining s)%nat.
Proof.
  intros Hk Hlt Hr Hws. rewrite <- Hr. rewrite <- Hws in Hk.
  pose proof (sum_insert worker_weight _ k w w' Hk) as Hw. unfold remaining; cbn -[Nat.mul].
  rewrite length_insert. lia.
Qed.

Lemma remaining_job s j f : remaining (update_job j f s) = remaining s.
Proof. unfold remaining; cbn -[Nat.mul]. by rewrite sum_alter_same. Qed.

Lemma remaining_worker k a s s' : worker_step k a s = Some s' -> (remaining s' < remaining s)%nat.
Proof.
  unfold worker_step. destruct (workers s !! k) as [w|] eqn:Hk; [|done].
  destruct w as [| |j|j|j r|j|j|].
  - destruct (locked s); [done|]. destruct (closing s).
    { intros [= <-]. by apply (remaining_set_worker s k checking _ (fun x => x)); simpl; [|lia|..]. }
    destruct (queue s) as [|j q] eqn:Eq; intros [= <-].
    + by apply (remaining_set_worker s k checking _ (fun x => x)); simpl; [|lia|..].
    + pose proof (sum_insert worker_weight _ k checking (took j) Hk) as Hw. simpl in Hw.
      unfold remaining; cbn -[Nat.mul]. rewrite length_insert, Eq. simpl length. lia.
  - done.
  - destruct (calls s !! j); [|done]. intros [= <-].
    apply (remaining_set_worker s k (took j) _ (fun x => x)); try done. destruct (_ || _); simpl; lia.
  - intros [= <-]. by apply (remaining_set_worker s k (running j) _ (fun x => x)); simpl; [|lia|..].
  - destruct (calls s !! j); [|done]. intros [= <-]. destruct (_ && _).
    + by apply (remaining_set_worker s k (storing j r) _ (update_job j (set_result r)));
        [|simpl; lia|apply remaining_job|].
    + by apply (remaining_set_worker s k (storing j r) _ (fun x => x)); simpl; [|lia|..].
  - intros [= <-]. by apply (remaining_set_worker s k (finishing j) _ (update_job j complete_job));
      [|simpl; lia|apply remaining_job|].
  - destruct (locked s); [done|]. intros [= <-].
    by apply (remaining_set_worker s k (erasing j) _ (fun x => with_active x _)); simpl; [|lia|..].
  - done.
Qed.

Lemma remaining_close s s' : Inv s -> close_step s = Some s' -> (remaining s' < remaining s)%nat.
Proof.
  intros [Hs Hf]. unfold close_step. pose proof (sh_cap s Hs) as Hcap.
  pose proof (Permutation_length (sh_act s Hs)) as Hact. pose proof (length_held (workers s)) as Hh.
  destruct (closer s) as [| |todo h| | |] eqn:Ez; try done.
  - destruct (locked s); [done|]. intros [= <-]. unfold remaining; cbn -[Nat.mul]. rewrite Ez.
    cbn -[Nat.mul]. rewrite length_app. lia.
  - destruct todo as [|j todo]; [|destruct h]; intros [= <-].
    + unfold remaining; cbn -[Nat.mul]. rewrite Ez. cbn -[Nat.mul]. destruct h; lia.
    + pose proof (remaining_job s j complete_job) as Hr. unfold remaining in *; cbn -[Nat.mul] in *.
      rewrite Ez in *. cbn -[Nat.mul] in *. lia.
    + pose proof (remaining_job s j set_shutdown) as Hr. unfold remaining in *; cbn -[Nat.mul] in *.
      rewrite Ez in *. cbn -[Nat.mul map] in *. lia.
  - intros [= <-]. unfold remaining; cbn -[Nat.mul map]. rewrite Ez. cbn -[Nat.mul map].
    pose proof (sum_wake (workers s)). lia.
  - destruct (forallb _ _); [|done]. intros [= <-]. unfold remaining; cbn -[Nat.mul]. rewrite Ez.
    cbn -[Nat.mul]. lia.
Qed.

Lemma remaining_internal s s' : Inv s -> internal backend s s' -> (remaining s' < remaining s)%nat.
Proof.
  intros HI [i k w s1 H|i s1 H|k a s1 Hb H|s1 H].
  - by eapply remaining_call.
  - by eapply remaining_callback.
  - by eapply remaining_worker.
  - by eapply remaining_close.
Qed.

(** ** At rest *)

Definition at_rest (s : Sys) : Prop := forall s', ~ internal backend s s'.

Lemma locked_moves s : Inv s -> at_rest s -> locked s = false.
Proof.
  intros [Hs Hf] Hr. destruct (locked s) eqn:El; [exfalso|done].
  destruct (sh_holder s Hs El) as [(i & kept & todo & Hi)|(todo & h & Hz)].
  - destruct (sh_purge s Hs _ _ _ Hi) as (_ & _ & Hsub). apply lookup_stage in Hi as (c & Hi & Hst).
    pose proof (int_call backend s i 0%nat by_cancel) as Hint. unfold call_step in Hint. rewrite Hi, Hst in Hint.
    destruct todo as [|j todo].
    + destruct (_ <=? _)%nat; by eapply Hr, Hint.
    + assert (is_Some (calls s !! j)) as [p Hp].
      { apply lookup_lt_is_Some_2. rewrite <- (length_fmap stage). apply (sh_idx s Hs).
        apply elem_of_app; left. eapply sublist_elem_of; [|exact Hsub].
        apply elem_of_app; right. apply list_elem_of_here. }
      rewrite Hp in Hint. by eapply Hr, Hint.
  - pose proof (int_close backend s) as Hint. unfold close_step in Hint. rewrite Hz in Hint.
    destruct todo as [|j todo]; [|destruct h]; by eapply Hr, Hint.
Qed.

Hypothesis backend_answers : forall q n, exists a, backend q n a.

Lemma rest_worker s w : Inv s -> at_rest s -> w ∈ workers s -> w = blocked \/ w = exited.
Proof.
  intros HI Hr (k & Hk)%list_elem_of_lookup. pose proof (locked_moves s HI Hr) as Hl.
  destruct HI as [Hs Hf].
  assert (forall j, holds w = Some j -> exists c, calls s !! j = Some c) as Hcall.
  { intros j Hj. apply lookup_lt_is_Some_2. rewrite <- (length_fmap stage).
    apply (sh_idx s Hs), elem_of_app. right. by eapply omap_in. }
  assert (exists a, forall j c, workers s !! k = Some (running j) -> calls s !! j = Some c ->
    backend (job_query (job c)) (max_results (options s)) a) as [a Ha].
  { assert ((exists j, w = running j) \/ forall j, w <> running j) as [[j ->]|Hn]
      by (destruct w; first [by right|left; by eexists]).
    - destruct (Hcall j eq_refl) as [c Hc].
      destruct (backend_answers (job_query (job c)) (max_results (options s))) as [a Ha].
      exists a. intros j' c' Hj' Hc'. simplify_eq. done.
    - exists threw_other. intros j c Hj. exfalso. apply (Hn j). congruence. }
  pose proof (int_worker backend s k a) as Hint. unfold worker_step in Hint. rewrite Hk in Hint.
  destruct w as [| |j|j|j r|j|j|]; [exfalso|by left|exfalso..|by right].
  - rewrite Hl in Hint. destruct (closing s); [|destruct (queue s)]; eapply Hr, Hint; done.
  - destruct (Hcall j eq_refl) as [c Hc]. rewrite Hc in Hint. eapply Hr, Hint; done.
  - rewrite <- Hk in Hint. eapply Hr, Hint; done.
  - destruct (Hcall j eq_refl) as [c Hc]. rewrite Hc in Hint. eapply Hr, Hint; done.
  - eapply Hr, Hint; done.
  - rewrite Hl in Hint. eapply Hr, Hint; done.
Qed.

Lemma rest_not_notifying s : Inv s -> at_rest s -> notifying ∉ stages s.
Proof.
  intros HI Hr (i & Hi)%list_elem_of_lookup. apply lookup_stage in Hi as (c & Hi & Hst).
  assert (exists k ws, notify_one k (workers s) = Some ws) as (k & ws & Hn).
  { unfold notify_one. destruct (existsb is_blocked (workers s)) eqn:Eb; [|by exists 0%nat, (workers s)].
    apply existsb_exists in Eb as (w & Hw & Hb). destruct w; try done.
    apply list_elem_of_In, list_elem_of_lookup in Hw as (k & Hk). exists k. rewrite Hk. by eexists. }
  eapply Hr, (int_call backend s i k by_cancel). unfold call_step. by rewrite Hi, Hst, Hn.
Qed.

Lemma rest_closer s : Inv s -> at_rest s -> closer s = is_open \/ closer s = closed.
Proof.
  intros HI Hr. pose proof (locked_moves s HI Hr) as Hl.
  pose proof (fun w => rest_worker s w HI Hr) as Hw. destruct HI as [Hs Hf].
  pose proof (int_close backend s) as Hint. unfold close_step in Hint.
  destruct (closer s) as [| |todo h| | |] eqn:Ez; [by left|exfalso..|by right].
  - rewrite Hl in Hint. by eapply Hr, Hint.
  - pose proof (sh_flag s Hs _ _ Ez). congruence.
  - by eapply Hr, Hint.
  - pose proof (sh_joining s Hs (or_introl Ez)) as Hnb.
    assert (forallb is_exited (workers s) = true) as Hall.
    { apply forallb_forall. intros w Hin. apply list_elem_of_In in Hin.
      destruct (Hw w Hin) as [->| ->]; done. }
    rewrite Hall in Hint. by eapply Hr, Hint.
Qed.

Lemma rest_queue s : Inv s -> at_rest s -> queue s = [].
Proof.
  intros HI Hr. destruct (rest_closer s HI Hr) as [Hz|Hz].
  - destruct (queue s) as [|j q] eqn:Eq; [done|]. exfalso.
    pose proof (sh_closing s (proj1 HI)) as Hc. rewrite Hz in Hc. simpl in Hc.
    destruct (sh_cv s (proj1 HI) Hc) as [(w & Hw & Hnb)|Hn]; [by rewrite Eq| |].
    + destruct (rest_worker s w HI Hr Hw) as [->| ->]; [done|].
      pose proof (sh_exit s (proj1 HI) Hw). congruence.
    + by apply (rest_not_notifying s HI Hr) in Hn.
  - apply (sh_after s (proj1 HI)). by rewrite Hz.
Qed.

Lemma rest_returned s i c :
  Inv s -> at_rest s -> calls s !! i = Some c -> exists r, stage c = returned r.
Proof.
  intros HI Hr Hi. pose proof (locked_moves s HI Hr) as Hl.
  pose proof (rest_queue s HI Hr) as Hq. pose proof (rest_not_notifying s HI Hr) as Hnn.
  pose proof (stage_lookup _ _ _ Hi) as Hst.
  pose proof (int_call backend s i 0%nat by_cancel) as Hint. unfold call_step in Hint. rewrite Hi in Hint.
  destruct (stage c) as [|kept todo| | |wd|r] eqn:Ec; [exfalso..|by eexists].
  - rewrite Hl in Hint. destruct (closing s); by eapply Hr, Hint.
  - destruct (sh_purge s (proj1 HI) _ _ _ Hst) as (? & _). congruence.
  - apply Hnn. by eapply list_elem_of_lookup_2.
  - destruct (fa_wait _ s (proj2 HI) i c Hi) as [[Hcomp|Hcb]|[Hin|Hin]]; [by rewrite Ec|..].
    + unfold wait_ends in Hint. rewrite Hcomp in Hint. by eapply Hr, Hint.
    + eapply Hr, (int_callback backend s i). unfold callback_step. by rewrite Hi, Hcb.
    + rewrite Hq in Hin. by apply elem_of_nil in Hin.
    + apply list_elem_of_omap in Hin as (w & Hw & Hj).
      by destruct (rest_worker s w HI Hr Hw) as [->| ->].
  - by eapply Hr, Hint.
Qed.

(** C26: as long as the backend returns, every call of [resolve]
    returns.  Whatever the schedule, each step of the resolver's own threads (a
    coroutine, a stop callback, a worker, the destructor) brings it strictly
    closer to rest, so it can only go on for as long as new calls, stop
    requests or spurious wakeups arrive; and at rest no notification has been
    lost and no job forgotten: every call has returned, the queue is empty, and
    either the resolver is open with all its threads waiting for work, or its
    destructor has returned and all of them have ended. *)
Theorem resolve_always_returns :
  (forall s s', reachable backend s -> internal backend s s' -> (remaining s' < remaining s)%nat) /\
  (forall s, reachable backend s -> (forall s', ~ internal backend s s') ->
     (forall i c, calls s !! i = Some c -> exists r, stage c = returned r) /\
     queue s = [] /\
     ((closer s = is_open /\ forall w, w ∈ workers s -> w = blocked) \/
      (closer s = closed /\ forall w, w ∈ workers s -> w = exited))).
Proof.
  split.
  - intros s s' H. by apply remaining_internal, sys_reachable_inv.
  - intros s H Hr. apply sys_reachable_inv in H as HI. split_and!.
    + intros i c. by apply rest_returned.
    + by apply rest_queue.
    + destruct (rest_closer s HI Hr) as [Hz|Hz]; [left|right]; (split; [done|]); intros w Hw.
      * destruct (rest_worker s w HI Hr Hw) as [?| ->]; [done|].
        pose proof (sh_exit s (proj1 HI) Hw) as Hc. rewrite (sh_closing s (proj1 HI)), Hz in Hc. done.
      * by apply (sh_closed s (proj1 HI)).
Qed.

Lemma works_holds (ws : list Worker) (j : nat) : j ∈ omap works ws -> j ∈ held ws.
Proof.
  intros (w & Hw & Hj)%list_elem_of_omap. apply list_elem_of_omap. exists w. split; [done|]. by destruct w.
Qed.

(** in every reachable state of a resolver, however its
    threads, callers, stop requests and destructor are interleaved: the queue is
    within its capacity, a job is queued or worked on at most once and never
    both, and no more jobs are worked on than there are threads.  A call that
    returned has the published form of an answer its backend gave to its own
    query; or [cancelled], and its stop was requested, the resolver is closing
    or its loop is down; or [timed_out], and its deadline has passed; or
    [limit_exceeded].  A result that was published is what is delivered, then a
    user's cancellation, then what ended the wait.  A call that waits has its
    wait ended already, or its job is queued or being worked on; once the
    destructor has closed the jobs, every waiting call's wait has been ended
    without waiting for the backend. *)
Theorem resolve_answers s :
  reachable backend s ->
  (length (queue s) <= queue_capacity (options s))%nat /\
  (length (active s) <= length (workers s))%nat /\ NoDup (queue s ++ active s) /\
  (forall i c r, calls s !! i = Some c -> stage c = returned r ->
     (exists a, backend (job_query (job c)) (max_results (options s)) a /\
                r = published a (max_results (options s))) \/
     (r = fail Errc.cancelled /\ (callback c <> cb_idle \/ closing s = true \/ loop_down c = true)) \/
     (r = fail Errc.timed_out /\ exists d, deadline c = Some d /\ (d <= now s)%Z) \/
     r = fail Errc.limit_exceeded) /\
  (forall i c wd k w s', calls s !! i = Some c -> stage c = woken wd -> call_step i k w s = Some s' ->
     exists c', calls s' !! i = Some c' /\ abandoned (job c') = true /\
       stage c' = returned (match result (job c), wd with
                            | Some r, _ => r
                            | None, Fail e => if user_cancelled (job c) then fail Errc.cancelled else Fail e
                            | None, Ok _ => fail Errc.cancelled
                            end)) /\
  (forall i c, calls s !! i = Some c -> stage c = notifying \/ stage c = sleeping ->
     (completion (job c) = true \/ callback c = cb_flagged) \/
     (after (closer s) = false /\ (i ∈ queue s \/ i ∈ active s))).
Proof.
  intros H. apply sys_reachable_inv in H as HI. destruct HI as [Hs Hf]. split_and!.
  - apply Hs.
  - rewrite (sh_act s Hs). apply length_held.
  - rewrite (sh_act s Hs). apply Hs.
  - intros i c r Hi Hr. exact (co_returned _ _ _ _ _ (call_at backend s i c Hf Hi) r Hr).
  - intros i c wd k w s' Hi Hw. unfold call_step. rewrite Hi, Hw. intros [= <-]. eexists.
    cbn. rewrite list_lookup_alter_eq, list_lookup_alter_eq, Hi. split; [done|]. split; [done|].
    simpl. f_equal. unfold deliver.
    destruct (result (job c)); [done|]. pose proof (co_woken _ _ _ _ _ (call_at backend s i c Hf Hi) wd Hw) as Hc.
    destruct Hc as [[-> _]|[-> _]]; destruct (user_cancelled (job c)); done.
  - intros i c Hi Hst. assert (waiting (stage c)) as Hw by (by destruct Hst as [->| ->]).
    destruct (fa_wait _ s Hf i c Hi Hw) as [Hp|Hq]; [by left|].
    destruct (after (closer s)) eqn:Ea; [left|right; split; [done|]].
    + destruct Hq as [Hq|Hq]; [rewrite (sh_after s Hs Ea) in Hq; by apply elem_of_nil in Hq|].
      destruct (fa_after _ s Hf i Ea (works_holds _ _ Hq)) as (c' & Hc' & Hcomp). left. congruence.
    + destruct Hq as [Hq|Hq]; [by left|right]. rewrite (sh_act s Hs). by apply works_holds.
Qed.
End Live.

(** ** A run *)

Definition one_worker : ResolverOptions :=
  {| opt_workers := 1; queue_capacity := 1; max_results := 4 |}.

Definition sample_query : ResolveQuery :=
  {| hostname := lit "localhost"; service := lit "80"; q_family := None; q_transport := TRANSPORT_TCP |}.

Definition sample_answer : Answer :=
  answered (Ok [endpoint_loopback 80 ipv4; endpoint_loopback 80 ipv6; endpoint_loopback 80 ipv4]).

(** One call resolved by the one thread, which first waits and is notified. *)
Definition resolved_run : list Act :=
  [do_worker 0 threw_other; ask sample_query None;
   do_call 0 0 by_cancel; do_call 0 0 by_cancel; do_call 0 0 by_cancel;
   do_worker 0 threw_other; do_worker 0 threw_other; do_worker 0 sample_answer;
   do_worker 0 threw_other; do_worker 0 threw_other; do_worker 0 threw_other;
   do_worker 0 threw_other; do_call 0 0 by_cancel; do_call 0 0 by_cancel].

(** A call queued when the resolver is destroyed, and one the full queue refused. *)
Definition destroyed_run : list Act :=
  [ask sample_query None; do_call 0 0 by_cancel; do_call 0 0 by_cancel; do_call 0 0 by_cancel;
   ask sample_query None; do_call 1 0 by_cancel; do_call 1 0 by_cancel; do_call 1 0 by_cancel; quit;
   do_close; do_close; do_close; do_close; do_close;
   do_worker 0 threw_other; do_close; do_call 0 0 by_cancel; do_call 0 0 by_cancel].

Definition run_from (xs : list Act) : Sys :=
  default (new_sys one_worker 0) (acts xs (new_sys one_worker 0)).

Definition any_backend (q : ResolveQuery) (n : nat) (a : Answer) : Prop := True.

Lemma acts_reachable xs s s' :
  reachable any_backend s -> acts xs s = Some s' -> reachable any_backend s'.
Proof.
  unfold acts. revert s. induction xs as [|x xs IH]; intros s Hs; simpl; [by intros [= <-]|].
  destruct (act x s) as [s1|] eqn:E.
  - apply IH. destruct x as [i k w|i|k a| |q d|i|]; simpl in E.
    + eapply reach_internal; [done|]. by eapply int_call.
    + eapply reach_internal; [done|]. by eapply int_callback.
    + eapply reach_internal; [done|]. by eapply int_worker.
    + eapply reach_internal; [done|]. by eapply int_close.
    + destruct (query_ok q) eqn:Eq; [|done]. injection E as <-.
      eapply reach_external; [done|]. by apply ext_call.
    + eapply reach_external; [done|]. by eapply ext_stop.
    + eapply reach_external; [done|]. by eapply ext_destroy.
  - intros H. exfalso. clear -H. induction xs as [|x xs IH]; [done|]. auto.
Qed.

Lemma run_from_reachable xs : reachable any_backend (run_from xs).
Proof.
  unfold run_from. assert (reachable any_backend (new_sys one_worker 0)) as H0
    by by apply (reach_create _ one_worker 0).
  destruct (acts xs (new_sys one_worker 0)) as [s|] eqn:E; [|done]. by eapply acts_reachable.
Qed.

Lemma resolve_answers_witness :
  stages (run_from resolved_run) =
    [returned (Ok [endpoint_loopback 80 ipv4; endpoint_loopback 80 ipv6])] /\
  (length (queue (run_from destroyed_run)) <= 1)%nat /\
  stages (run_from destroyed_run) = [returned (fail Errc.cancelled); returned (fail Errc.limit_exceeded)].
Proof.
  split; [vm_compute; reflexivity|]. split; [|vm_compute; reflexivity].
  exact (proj1 (resolve_answers any_backend (run_from destroyed_run) (run_from_reachable destroyed_run))).
Defined.

Lemma resolve_always_returns_witness :
  queue (run_from destroyed_run) = [] /\
  (forall w, w ∈ workers (run_from resolved_run) -> w = blocked).
Proof.
  assert (forall q n, exists a, any_backend q n a) as Hb by (intros; by exists threw_other).
  pose proof (resolve_always_returns any_backend Hb) as [Hless Hrest].
  assert (forall xs, remaining (run_from xs) = 0%nat -> forall s', ~ internal any_backend (run_from xs) s') as Hr.
  { intros xs H0 s' Hi. apply Hless in Hi; [lia|apply run_from_reachable]. }
  split.
  - apply (Hrest (run_from destroyed_run)); [apply run_from_reachable|]. apply Hr. vm_compute. reflexivity.
  - destruct (Hrest (run_from resolved_run) (run_from_reachable _)) as (_ & _ & Hend).
    { apply Hr. vm_compute. reflexivity. }
    destruct Hend as [[_ Hw]|[Hz _]]; [exact Hw|]. vm_compute in Hz. discriminate Hz.
Defined.
