(* ===== verification/Alpn.v ===== *)
(** * Alpn: protocol lists on the wire (tls/src/context.cpp)

    [encode_protocols] writes a list of names with length prefixes;
    [select_protocol] is the callback with which a server chooses among the names
    a client offers.  The callback walks raw memory with offsets, so it is
    translated with offsets: a read outside a buffer is an outcome
    ([out_of_bounds]), and the theorems show that it does not happen. *)

From S2P Require Import Prelude Errors.

Local Open Scope nat_scope.
Local Open Scope mira_scope.

(** ** Paths and lists of names *)

(** [valid_path] *)
Definition valid_path (path : bytes) : bool :=
  negb (bytes_eqb path []) && match find x00 path with None => true | Some _ => false end.

(** The loop of [encode_protocols], with the names [seen] so far. *)
Fixpoint encode_from (wire : bytes) (seen : list bytes) (protocols : list bytes)
    : Result bytes :=
  match protocols with
  | [] => Ok wire
  | protocol :: rest =>
      if bytes_eqb protocol [] || (255 <? length protocol)
         || (wrap64 (65535 - len wire) <? wrap64 (len protocol + 1))%Z
         || bool_decide (protocol ∈ seen)
      then fail Errc.invalid_argument
      else encode_from (wire ++ byte_of (len protocol) :: protocol) (protocol :: seen) rest
  end.

Definition encode_protocols (protocols : list bytes) : Result bytes :=
  encode_from [] [] protocols.

(** ** The callback *)

(** Why the callback stops: [SSL_TLSEXT_ERR_ALERT_FATAL], or a read outside the
    memory it was given. *)
Inductive Stop :=
| alert_fatal
| out_of_bounds.

(** Code that moves one offset. *)
Definition Scan (A : Type) : Type := nat -> Outcome Stop nat A.

(** [memory[offset++]], as the length it is *)
Definition read_length (memory : bytes) : Scan nat :=
  fun offset =>
    match memory !! offset with
    | Some b => Returns (Z.to_nat (code b)) (S offset)
    | None => Fails out_of_bounds offset
    end.

(** [std::string_view(memory + offset, size)] *)
Definition view (memory : bytes) (size : nat) : Scan bytes :=
  fun offset =>
    if offset + size <=? length memory
    then Returns (take size (drop offset memory)) offset
    else Fails out_of_bounds offset.

(** The loop that validates the whole offer. *)
Definition check_round (offered : bytes) : Scan (option unit) :=
  let! offset := out_get in
  if length offered <=? offset then out_ret (Some tt)
  else
    let! length' := read_length offered in
    let! offset := out_get in
    if (length' =? 0) || (length offered - offset <? length') then out_fail alert_fatal
    else out_modify (fun offset => offset + length') ;;; out_ret None.

Definition check_offer (offered : bytes) : Scan unit :=
  iter (S (length offered)) (check_round offered).

(** The loop over the offer for one [protocol]: where the name lies, if it is there. *)
Definition match_round (offered protocol : bytes) : Scan (option (option (nat * nat))) :=
  let! offset := out_get in
  if length offered <=? offset then out_ret (Some None)
  else
    let! offered_size := read_length offered in
    let! candidate := view offered offered_size in
    let! offset := out_get in
    if bytes_eqb candidate protocol then out_ret (Some (Some (offset, offered_size)))
    else out_modify (fun offset => offset + offered_size) ;;; out_ret None.

Definition match_offer (offered protocol : bytes) : Scan (option (nat * nat)) :=
  iter (S (length offered)) (match_round offered protocol).

(** The loop over the server's names, most preferred first. *)
Definition prefer_round (protocols offered : bytes) : Scan (option (nat * nat)) :=
  let! preferred := out_get in
  if length protocols <=? preferred then out_fail alert_fatal
  else
    let! length' := read_length protocols in
    let! protocol := view protocols length' in
    out_modify (fun preferred => preferred + length') ;;;
    match match_offer offered protocol 0 with
    | Returns found _ => out_ret found
    | Fails stop _ => out_fail stop
    | OutOfFuel => fun _ => OutOfFuel
    end.

(** [select_protocol]: the offset in the offer and the length of the choice.
    [protocols] is what [SSL_CTX_get_ex_data] returned. *)
Definition select_protocol (protocols : option bytes) (offered : bytes)
    : Outcome Stop nat (nat * nat) :=
  match protocols with
  | None => Fails alert_fatal 0
  | Some protocols =>
      match check_offer offered 0 with
      | Returns _ _ => iter (S (length protocols)) (prefer_round protocols offered) 0
      | Fails stop offset => Fails stop offset
      | OutOfFuel => OutOfFuel
      end
  end.

(** ** What the code is meant to compute *)

(** A name of 1 to 255 bytes, and lists of such names on the wire. *)
Definition name_ok (name : bytes) : Prop := 1 <= length name <= 255.

Definition frame (name : bytes) : bytes := byte_of (len name) :: name.

Definition wire (names : list bytes) : bytes := concat (map frame names).

(** [q] is the first of [names] that [offer] has too. *)
Definition first_common (names offer : list bytes) (q : bytes) : Prop :=
  exists before after,
    names = before ++ q :: after /\ q ∈ offer /\ Forall (fun name => name ∉ offer) before.

(** ** Facts: lists on the wire *)

Lemma code_frame name : name_ok name -> Z.to_nat (code (byte_of (len name))) = length name.
Proof.
  unfold name_ok, len. intros H. rewrite code_byte_of, Z.mod_small by lia. lia.
Qed.

Lemma encode_from_spec w seen ps :
  (len w <= 65535)%Z ->
  match encode_from w seen ps with
  | Ok r =>
      r = w ++ wire ps /\ Forall name_ok ps /\ NoDup ps /\ (forall p, p ∈ ps -> p ∉ seen) /\
      (len r <= 65535)%Z
  | Fail e =>
      e = make_error_code Errc.invalid_argument /\
      ~ (Forall name_ok ps /\ NoDup ps /\ (forall p, p ∈ ps -> p ∉ seen) /\
         (len (w ++ wire ps) <= 65535)%Z)
  end.
Proof.
  revert w seen. induction ps as [|p ps IH]; intros w seen Hw; cbn [encode_from].
  { unfold wire. simpl. rewrite app_nil_r. split_and!; try done; [constructor|set_solver]. }
  assert (Happ : w ++ wire (p :: ps) = (w ++ frame p) ++ wire ps)
    by (unfold wire; simpl; by rewrite <- app_assoc).
  assert (Hsmall : length p <= 255 -> wrap64 (65535 - len w) = (65535 - len w)%Z /\
            wrap64 (len p + 1) = (len p + 1)%Z).
  { unfold wrap64, len in *. intros. rewrite !Z.mod_small by lia. done. }
  assert (Hframe : len (w ++ frame p) = (len w + len p + 1)%Z)
    by (unfold len, frame; rewrite length_app; simpl; lia).
  set (c := _ || _). destruct c eqn:E; subst c.
  - split; [done|]. intros (Hok & Hnd & Hseen & Hl).
    apply Forall_cons in Hok as [[Hp1 Hp2] _]. destruct (Hsmall Hp2) as [-> ->] in E.
    rewrite Happ, len_app, Hframe in Hl. pose proof (len_nonneg (wire ps)).
    rewrite !orb_true_iff in E. destruct E as [[[E|E]|E]|E].
    + apply bytes_eqb_eq in E as ->. simpl in Hp1. lia.
    + bool_facts. lia.
    + bool_facts. lia.
    + apply bool_decide_eq_true in E. apply (Hseen p); [left|done].
  - rewrite !orb_false_iff in E. destruct E as [[[Hne Hlong] Hsum] Hs].
    apply bytes_eqb_neq in Hne. apply bool_decide_eq_false in Hs.
    apply Nat.ltb_ge in Hlong. destruct (Hsmall Hlong) as [-> ->] in Hsum.
    apply Z.ltb_ge in Hsum.
    assert (Hp : name_ok p) by (split; [destruct p; [done|simpl; lia]|done]).
    specialize (IH (w ++ frame p) (p :: seen) ltac:(lia)).
    rewrite Happ. unfold frame at 1. fold (frame p). destruct (encode_from _ _ ps) as [r|e].
    + destruct IH as (-> & Hok & Hnd & Hseen & Hl). split_and!; try done.
      * by constructor.
      * constructor; [|done]. intros Hin. apply (Hseen p Hin). left.
      * intros q [->|Hq]%elem_of_cons; [done|]. specialize (Hseen q Hq). set_solver.
    + destruct IH as [-> Hno]. split; [done|]. intros (Hok & Hnd & Hseen & Hl).
      apply Hno. apply Forall_cons in Hok as [_ Hok]. apply NoDup_cons in Hnd as [Hpp Hnd].
      split_and!; try done. intros q Hq. specialize (Hseen q). set_solver.
Qed.

(** [encode_protocols] accepts exactly the lists of distinct names of 1 to 255
    bytes that fit in 65535 bytes, and writes each with its length. *)
Lemma encode_protocols_spec ps :
  match encode_protocols ps with
  | Ok r => r = wire ps /\ Forall name_ok ps /\ NoDup ps /\ (len (wire ps) <= 65535)%Z
  | Fail e =>
      e = make_error_code Errc.invalid_argument /\
      ~ (Forall name_ok ps /\ NoDup ps /\ (len (wire ps) <= 65535)%Z)
  end.
Proof.
  unfold encode_protocols. pose proof (encode_from_spec [] [] ps ltac:(done)) as H.
  destruct (encode_from [] [] ps) as [r|e].
  - destruct H as (-> & ? & ? & ? & Hl). by split_and!.
  - destruct H as [-> H]. split; [done|]. intros (? & ? & ?). apply H.
    split_and!; try done. set_solver.
Qed.

(** ** Facts: the loops of the callback *)

Lemma wire_cons name names : wire (name :: names) = byte_of (len name) :: name ++ wire names.
Proof. done. Qed.

(** One name read at the end of [pre]. *)
Lemma read_length_at pre b rest :
  read_length (pre ++ b :: rest) (length pre) = Returns (Z.to_nat (code b)) (S (length pre)).
Proof. unfold read_length. by rewrite list_lookup_middle. Qed.

Lemma view_at pre b name rest :
  view (pre ++ b :: name ++ rest) (length name) (S (length pre)) = Returns name (S (length pre)).
Proof.
  unfold view. rewrite length_app. cbn [length]. rewrite length_app.
  rewrite (proj2 (Nat.leb_le _ _)) by lia.
  replace (pre ++ b :: name ++ rest) with ((pre ++ [b]) ++ name ++ rest)
    by (by rewrite <- app_assoc).
  rewrite drop_app_length' by (rewrite length_app; simpl; lia).
  by rewrite take_app_length.
Qed.

(** The end of the memory at the end of [pre]. *)
Lemma at_end (pre rest : bytes) :
  (length (pre ++ rest) <=? length pre) = match rest with [] => true | _ => false end.
Proof.
  rewrite length_app. destruct rest; simpl; [apply Nat.leb_le|apply Nat.leb_gt]; lia.
Qed.

Lemma app_frame (pre : bytes) b name rest :
  pre ++ b :: name ++ rest = (pre ++ b :: name) ++ rest.
Proof. by rewrite <- app_assoc. Qed.

Lemma length_frame (pre : bytes) b (name : bytes) :
  S (length pre) + length name = length (pre ++ b :: name).
Proof. rewrite length_app. simpl. lia. Qed.

(** The validation accepts exactly the lists of names. *)
Lemma check_scan fuel pre rest :
  length rest < fuel ->
  match iter fuel (check_round (pre ++ rest)) (length pre) with
  | Returns _ _ => exists names, Forall name_ok names /\ rest = wire names
  | Fails stop _ => stop = alert_fatal /\ forall names, Forall name_ok names -> rest <> wire names
  | OutOfFuel => False
  end.
Proof.
  revert pre rest. induction fuel as [|fuel IH]; intros pre rest Hf; [lia|].
  cbn [iter]. unfold check_round at 1, out_bind, out_get, out_ret, out_fail, out_modify.
  rewrite at_end. destruct rest as [|b rest].
  { exists []. by split; [constructor|]. }
  rewrite read_length_at. set (n := Z.to_nat (code b)).
  replace (length (pre ++ b :: rest) - S (length pre)) with (length rest)
    by (rewrite length_app; simpl; lia).
  destruct ((n =? 0) || (length rest <? n)) eqn:E.
  - split; [done|]. intros [|name names] Hok; [done|]. rewrite wire_cons. intros [= -> ->].
    apply Forall_cons in Hok as [Hn _]. subst n.
    rewrite (code_frame _ Hn), length_app in E. destruct Hn as [Hn _].
    apply orb_true_iff in E as [E|E]; bool_facts; lia.
  - bool_facts. rewrite <- (take_drop n rest).
    assert (Hn : length (take n rest) = n) by (rewrite length_take; lia).
    replace (S (length pre) + n) with (length (pre ++ b :: take n rest))
      by (rewrite <- length_frame; lia).
    rewrite app_frame.
    specialize (IH (pre ++ b :: take n rest) (drop n rest)).
    rewrite length_drop in IH. cbn [length] in Hf. specialize (IH ltac:(lia)).
    destruct (iter _ _ _) as [? ?|stop ?|]; [| |done].
    + destruct IH as (names & Hok & Hd). exists (take n rest :: names). split.
      * constructor; [|done]. unfold name_ok. rewrite Hn. pose proof (code_range b). lia.
      * rewrite wire_cons, <- Hd. f_equal. unfold len. rewrite Hn. subst n.
        rewrite Z2Nat.id by (pose proof (code_range b); lia). by rewrite byte_of_code.
    + destruct IH as [-> Hno]. split; [done|]. intros [|name names] Hok; [done|].
      rewrite wire_cons. intros [= Hb Heq]. apply Forall_cons in Hok as [Hname Hok].
      apply (Hno names Hok).
      assert (Hlen : length (take n rest) = length name)
        by (rewrite Hn; subst n b; by apply code_frame).
      by apply app_inj_1 in Heq as [_ Heq].
Qed.

(** A list of names is determined by its encoding. *)
Lemma wire_inj names names' :
  Forall name_ok names -> Forall name_ok names' -> wire names = wire names' -> names = names'.
Proof.
  revert names'. induction names as [|name names IH]; intros [|name' names']; try done.
  rewrite !wire_cons, !Forall_cons. intros [Hn Hok] [Hn' Hok'] [= Hb Heq].
  apply (f_equal (fun b => Z.to_nat (code b))) in Hb. rewrite !code_frame in Hb by done.
  apply app_inj_1 in Heq as [-> Heq]; [|done]. f_equal. by apply IH.
Qed.

(** The search finds the name where it lies, if the offer has it. *)
Lemma match_scan fuel pre names protocol :
  Forall name_ok names -> length (wire names) < fuel ->
  match iter fuel (match_round (pre ++ wire names) protocol) (length pre) with
  | Returns (Some (offset, size)) _ =>
      protocol ∈ names /\ offset + size <= length (pre ++ wire names) /\
      take size (drop offset (pre ++ wire names)) = protocol
  | Returns None _ => protocol ∉ names
  | _ => False
  end.
Proof.
  revert pre names. induction fuel as [|fuel IH]; intros pre names Hok Hf; [lia|].
  cbn [iter]. unfold match_round at 1, out_bind, out_get, out_ret, out_fail, out_modify.
  rewrite at_end. destruct names as [|name names]; [set_solver|].
  apply Forall_cons in Hok as [Hname Hok]. rewrite wire_cons in *.
  rewrite read_length_at, (code_frame _ Hname), view_at.
  destruct (bytes_eqb name protocol) eqn:E.
  - apply bytes_eqb_eq in E as <-. split; [left|].
    pose proof (view_at pre (byte_of (len name)) name (wire names)) as Hv.
    unfold view in Hv. destruct (_ <=? _) eqn:Hle; [|done]. bool_facts.
    apply Nat.leb_le in Hle. by injection Hv.
  - apply bytes_eqb_neq in E. rewrite app_frame, (length_frame _ (byte_of (len name))).
    specialize (IH (pre ++ byte_of (len name) :: name) names Hok).
    cbn [length] in Hf. rewrite length_app in Hf. specialize (IH ltac:(lia)).
    destruct (iter _ _ _) as [[[offset size]|] ?|? ?|]; set_solver.
Qed.

(** The names are tried in the server's order. *)
Lemma prefer_scan fuel pre names offer :
  Forall name_ok names -> Forall name_ok offer -> length (wire names) < fuel ->
  match iter fuel (prefer_round (pre ++ wire names) (wire offer)) (length pre) with
  | Returns (offset, size) _ =>
      offset + size <= length (wire offer) /\
      first_common names offer (take size (drop offset (wire offer)))
  | Fails stop _ => stop = alert_fatal /\ Forall (fun name => name ∉ offer) names
  | OutOfFuel => False
  end.
Proof.
  revert pre names. induction fuel as [|fuel IH]; intros pre names Hok Hoff Hf; [lia|].
  cbn [iter]. unfold prefer_round at 1, out_bind, out_get, out_ret, out_fail, out_modify.
  rewrite at_end. destruct names as [|name names]; [by split; [|constructor]|].
  apply Forall_cons in Hok as [Hname Hok]. rewrite wire_cons in *.
  rewrite read_length_at, (code_frame _ Hname), view_at.
  pose proof (match_scan (S (length (wire offer))) [] offer name Hoff ltac:(lia)) as Hm.
  cbn [app length] in Hm. fold (match_offer (wire offer) name) in Hm.
  destruct (match_offer (wire offer) name 0) as [[[offset size]|] ?|? ?|]; [| |done|done].
  - destruct Hm as (Hin & Hle & Heq). split; [done|]. exists [], names.
    rewrite Heq. by split_and!.
  - rewrite app_frame, (length_frame _ (byte_of (len name))).
    specialize (IH (pre ++ byte_of (len name) :: name) names Hok Hoff).
    cbn [length] in Hf. rewrite length_app in Hf. specialize (IH ltac:(lia)).
    destruct (iter _ _ _) as [[offset size] ?|? ?|]; [|destruct IH; split; [done|by constructor]|done].
    destruct IH as (Hle & before & after & -> & Hin & Hb). split; [done|].
    exists (name :: before), after. split_and!; [done|done|by constructor].
Qed.

(** The callback on the encoded list [names] of a server, whatever the client sends. *)
Lemma select_protocol_wire names offered :
  Forall name_ok names ->
  match select_protocol (Some (wire names)) offered with
  | Returns (offset, size) _ =>
      offset + size <= length offered /\
      exists offer, Forall name_ok offer /\ offered = wire offer /\
        first_common names offer (take size (drop offset offered))
  | Fails stop _ =>
      stop = alert_fatal /\
      forall offer, Forall name_ok offer -> offered = wire offer ->
        Forall (fun name => name ∉ offer) names
  | OutOfFuel => False
  end.
Proof.
  intros Hok. unfold select_protocol, check_offer.
  pose proof (check_scan (S (length offered)) [] offered ltac:(lia)) as Hc.
  cbn [app length] in Hc. destruct (iter _ (check_round offered) 0) as [? ?|? ?|]; [| |done].
  - destruct Hc as (offer & Hoff & ->).
    pose proof (prefer_scan (S (length (wire names))) [] names offer Hok Hoff ltac:(lia)) as Hp.
    cbn [app length] in Hp. destruct (iter _ _ 0) as [[offset size] ?|? ?|]; [| |done].
    + destruct Hp as [Hle Hp]. split; [done|]. by exists offer.
    + destruct Hp as [-> Hno]. split; [done|]. intros offer' Hoff' Heq.
      by rewrite <- (wire_inj _ _ Hoff Hoff' Heq).
  - destruct Hc as [-> Hno]. split; [done|]. intros offer Hoff Heq. by destruct (Hno offer Hoff).
Qed.

(** ** The properties *)

(** C23: On the list a server was configured with and on any bytes a client sends,
    the callback ends, reads nothing outside either buffer, and chooses exactly when
    the offer is a well-formed list of names that shares one with the server: the
    first of the server's names that the offer contains, returned as a range of the
    offer.  In every other case (a malformed offer, no common name) the handshake is
    refused. *)
Theorem alpn_choice names w offered :
  encode_protocols names = Ok w ->
  match select_protocol (Some w) offered with
  | Returns (offset, size) _ =>
      offset + size <= length offered /\
      exists offer, Forall name_ok offer /\ offered = wire offer /\
        first_common names offer (take size (drop offset offered))
  | Fails stop _ =>
      stop = alert_fatal /\
      forall offer, Forall name_ok offer -> offered = wire offer ->
        Forall (fun name => name ∉ offer) names
  | OutOfFuel => False
  end.
Proof.
  intros E. pose proof (encode_protocols_spec names) as H. rewrite E in H.
  destruct H as (-> & Hok & _). by apply select_protocol_wire.
Qed.

(** The server prefers h2, the client lists http/1.1 first. *)
Definition server_names : list bytes := [lit "h2"; lit "http/1.1"].
Definition client_offer : bytes := wire [lit "http/1.1"; lit "spdy"; lit "h2"].

Lemma alpn_choice_witness :
  encode_protocols server_names = Ok (wire server_names) /\
  select_protocol (Some (wire server_names)) client_offer = Returns (15, 2) 3 /\
  15 + 2 <= length client_offer.
Proof.
  split; [reflexivity|]. split; [reflexivity|].
  pose proof (alpn_choice server_names (wire server_names) client_offer eq_refl) as H.
  change (select_protocol _ _) with (@Returns Stop nat (nat * nat) (15, 2) 3) in H.
  exact (proj1 H).
Defined.

(** An offer whose last length runs past its end is refused, although a name
    before it would match. *)
Example malformed_offer_refused :
  select_protocol (Some (wire server_names)) (wire [lit "h2"] ++ [x05; x61])
  = Fails alert_fatal 4.
Proof. reflexivity. Qed.

(** On the wire and back: two lists that are accepted are encoded alike only when
    they are the same list. *)
Theorem encode_protocols_inj ps qs w :
  encode_protocols ps = Ok w -> encode_protocols qs = Ok w -> ps = qs.
Proof.
  intros Hp Hq. pose proof (encode_protocols_spec ps) as P. rewrite Hp in P.
  pose proof (encode_protocols_spec qs) as Q. rewrite Hq in Q.
  destruct P as (-> & Pok & _), Q as (Heq & Qok & _). by apply wire_inj.
Qed.
