(* ===== verification/TlsEngine.v ===== *)
(** * TlsEngine: the memory-BIO state machine (tls/src/engine.cpp, tls/error.hpp)

    [Engine] drives an [SSL] object whose two ends are a BIO pair.  The TLS
    library is a parameter: [Ssl] has the calls the engine makes. *)

From S2P Require Import Prelude Errors.

Local Open Scope Z_scope.

(** ** Errors *)

Module TlsErrc.
Inductive t :=
| invalid_state
| operation_in_progress
| protocol_error
| certificate_verify_failed
| truncated
| configuration_error.

#[export] Instance eq_dec : EqDecision t.
Proof. solve_decision. Defined.

(** The enumerators count up from [invalid_state = 1]. *)
Definition value (e : t) : Z :=
  match e with
  | invalid_state => 1
  | operation_in_progress => 2
  | protocol_error => 3
  | certificate_verify_failed => 4
  | truncated => 5
  | configuration_error => 6
  end.
End TlsErrc.

(** [Category::message] *)
Definition tls_message (value : Z) : bytes :=
  match value with
  | 1 => lit "invalid TLS operation state"
  | 2 => lit "another TLS operation is in progress"
  | 3 => lit "TLS protocol failure"
  | 4 => lit "TLS peer certificate verification failed"
  | 5 => lit "TLS transport ended without close_notify"
  | 6 => lit "TLS configuration failed"
  | _ => lit "unknown TLS error"
  end.

(** [tls::make_error_code] *)
Definition tls_error (e : TlsErrc.t) : Error := mk_error (TlsErrc.value e) tls_category.

(** ** The library *)

Definition SSL_ERROR_WANT_READ : Z := 2.
Definition SSL_ERROR_WANT_WRITE : Z := 3.
Definition SSL_ERROR_ZERO_RETURN : Z := 6.
Definition X509_V_OK : Z := 0.

(** An [SSL] with its BIO pair.  A call returns its [int] result; [SSL_read_ex]
    and [BIO_read] also the bytes they stored, [SSL_write_ex] the count it took.
    [ssl_rounds] is not of the library: it is how many rounds of the [for (;;)]
    around its calls a run of the model follows; nothing is assumed of it. *)
Class Ssl (L : Type) := {
  ssl_do_handshake : L -> Z * L;
  ssl_read_ex : nat -> L -> Z * bytes * L;
  ssl_write_ex : bytes -> L -> Z * nat * L;
  ssl_shutdown : L -> Z * L;
  ssl_get_error : L -> Z -> Z;
  ssl_verify_result : L -> Z;
  bio_write_guarantee : L -> nat;
  bio_pending : L -> nat;
  bio_write : bytes -> L -> Z * L;
  bio_read : nat -> L -> Z * bytes * L;
  ssl_rounds : L -> nat;
}.

(** ** The engine *)

Module Status.
Inductive t :=
| complete
| want_input
| want_output
| eof.
End Status.

#[export] Instance status_eq_dec : EqDecision Status.t.
Proof. solve_decision. Defined.

(** [Engine::Step]; [received] are the bytes placed in the caller's span. *)
Record Step := mk_step { status : Status.t; transferred : nat; received : bytes }.

Definition plain_step (s : Status.t) : Step := mk_step s 0 [].

(** [Engine::Impl] *)
Record Engine (L : Type) := mk_engine {
  e_ssl : L;
  e_ready : bool;
  e_failed : bool;
  e_sent_shutdown : bool;
  e_peer_closed : bool;
}.
Arguments mk_engine {L} _ _ _ _ _.
Arguments e_ssl {L} _.
Arguments e_ready {L} _.
Arguments e_failed {L} _.
Arguments e_sent_shutdown {L} _.
Arguments e_peer_closed {L} _.

Definition buffer_capacity : nat := 64 * 1024.
Arguments buffer_capacity : simpl never.

(** The most a single write takes, and the size of the stream's scratch array. *)
Definition record_size : nat := 16 * 1024.
Arguments record_size : simpl never.

Section Engine.
Context {L : Type} `{Ssl L}.

Definition set_ssl (l : L) (e : Engine L) : Engine L :=
  mk_engine l (e_ready e) (e_failed e) (e_sent_shutdown e) (e_peer_closed e).
Definition set_ready (e : Engine L) : Engine L :=
  mk_engine (e_ssl e) true (e_failed e) (e_sent_shutdown e) (e_peer_closed e).
Definition set_sent_shutdown (e : Engine L) : Engine L :=
  mk_engine (e_ssl e) (e_ready e) (e_failed e) true (e_peer_closed e).
Definition set_peer_closed (e : Engine L) : Engine L :=
  mk_engine (e_ssl e) (e_ready e) (e_failed e) (e_sent_shutdown e) true.

(** [invalidate()] *)
Definition engine_invalidate (e : Engine L) : Engine L :=
  mk_engine (e_ssl e) (e_ready e) true (e_sent_shutdown e) (e_peer_closed e).

(** [classify(result, transferred)] *)
Definition classify (result : Z) (n : nat) (data : bytes) (e : Engine L) : Result Step * Engine L :=
  if result =? 1 then (Ok (mk_step Status.complete n data), e)
  else
    let error := ssl_get_error (e_ssl e) result in
    if error =? SSL_ERROR_WANT_READ then (Ok (plain_step Status.want_input), e)
    else if error =? SSL_ERROR_WANT_WRITE then (Ok (plain_step Status.want_output), e)
    else if error =? SSL_ERROR_ZERO_RETURN then (Ok (plain_step Status.eof), set_peer_closed e)
    else
      (Fail (tls_error (if negb (ssl_verify_result (e_ssl e) =? X509_V_OK)
                        then TlsErrc.certificate_verify_failed else TlsErrc.protocol_error)),
       engine_invalidate e).

(** A call that must not see the peer's close: [eof] is a failure. *)
Definition no_eof (r : Result Step * Engine L) : Result Step * Engine L :=
  match r with
  | (Ok (mk_step Status.eof _ _), e) =>
      (Fail (tls_error TlsErrc.protocol_error), engine_invalidate e)
  | _ => r
  end.

Definition invalid_state (e : Engine L) : Result Step * Engine L :=
  (Fail (tls_error TlsErrc.invalid_state), e).

(** [handshake()] *)
Definition engine_handshake (e : Engine L) : Result Step * Engine L :=
  if e_failed e || e_sent_shutdown e || e_peer_closed e then invalid_state e
  else if e_ready e then (Ok (plain_step Status.complete), e)
  else
    let '(result, l) := ssl_do_handshake (e_ssl e) in
    let '(step, e) := classify result 0 [] (set_ssl l e) in
    let e := match step with Ok (mk_step Status.complete _ _) => set_ready e | _ => e end in
    no_eof (step, e).

(** [read(destination)] for a destination of [n] bytes *)
Definition engine_read (n : nat) (e : Engine L) : Result Step * Engine L :=
  if e_failed e || negb (e_ready e) || e_sent_shutdown e then invalid_state e
  else if (n =? 0)%nat then (Ok (plain_step Status.complete), e)
  else if e_peer_closed e then (Ok (plain_step Status.eof), e)
  else
    let '(result, data, l) := ssl_read_ex n (e_ssl e) in
    classify result (length data) data (set_ssl l e).

(** [write(source)] *)
Definition engine_write (source : bytes) (e : Engine L) : Result Step * Engine L :=
  if e_failed e || negb (e_ready e) || e_sent_shutdown e || e_peer_closed e then invalid_state e
  else if (length source =? 0)%nat then (Ok (plain_step Status.complete), e)
  else
    let '(result, n, l) := ssl_write_ex (take record_size source) (e_ssl e) in
    classify result n [] (set_ssl l e).

(** [shutdown()] *)
Definition engine_shutdown (e : Engine L) : Result Step * Engine L :=
  if e_failed e || negb (e_ready e) then invalid_state e
  else if e_sent_shutdown e then (Ok (plain_step Status.complete), e)
  else
    let '(result, l) := ssl_shutdown (e_ssl e) in
    let e := set_ssl l e in
    if 0 <=? result then (Ok (plain_step Status.complete), set_sent_shutdown e)
    else no_eof (classify result 0 [] e).

(** [input_capacity()] *)
Definition input_capacity (e : Engine L) : nat :=
  if e_failed e then 0%nat else bio_write_guarantee (e_ssl e).

(** [feed(ciphertext)] *)
Definition engine_feed (data : bytes) (e : Engine L) : Result nat * Engine L :=
  if e_failed e then (Fail (tls_error TlsErrc.invalid_state), e)
  else if (length data =? 0)%nat then (Ok 0%nat, e)
  else
    let size := Nat.min (length data) (input_capacity e) in
    if (size =? 0)%nat then (Fail (make_error_code Errc.would_block), e)
    else
      let '(count, l) := bio_write (take size data) (e_ssl e) in
      if count <=? 0
      then (Fail (tls_error TlsErrc.protocol_error), engine_invalidate (set_ssl l e))
      else (Ok (Z.to_nat count), set_ssl l e).

(** [drain(ciphertext)] into a span of [n] bytes: the bytes taken out. *)
Definition engine_drain (n : nat) (e : Engine L) : Result bytes * Engine L :=
  let size := Nat.min n (Nat.min (bio_pending (e_ssl e)) buffer_capacity) in
  if (size =? 0)%nat then (Ok [], e)
  else
    let '(count, data, l) := bio_read size (e_ssl e) in
    if count <=? 0
    then (Fail (tls_error TlsErrc.protocol_error), engine_invalidate (set_ssl l e))
    else (Ok data, set_ssl l e).
End Engine.

(** ** What the library promises *)

(** [ssl_produced] is the ciphertext the library has produced so far, [bio_out]
    the part of it still in the BIO, [ssl_plain] the application data it has
    accepted. *)
Definition produces {L} (produced bio_out : L -> bytes) (l l' : L) : Prop :=
  exists more, produced l' = produced l ++ more /\ bio_out l' = bio_out l ++ more.

Definition asks {L} `{Ssl L} (l : L) (result : Z) : Prop :=
  ssl_get_error l result = SSL_ERROR_WANT_READ \/ ssl_get_error l result = SSL_ERROR_WANT_WRITE.

Class SslLaws (L : Type) `{Ssl L} := {
  ssl_produced : L -> bytes;
  ssl_plain : L -> bytes;
  bio_out : L -> bytes;
  handshake_law : forall l,
    let '(r, l') := ssl_do_handshake l in
    produces ssl_produced bio_out l l' /\ ssl_plain l' = ssl_plain l;
  read_ex_law : forall n l,
    let '(r, data, l') := ssl_read_ex n l in
    produces ssl_produced bio_out l l' /\ ssl_plain l' = ssl_plain l /\
    (r = 1 -> (0 < length data <= n)%nat);
  write_ex_law : forall d l,
    let '(r, n, l') := ssl_write_ex d l in
    produces ssl_produced bio_out l l' /\
    (if r =? 1 then (n <= length d)%nat /\ ssl_plain l' = ssl_plain l ++ take n d
     else ssl_plain l' = ssl_plain l);
  shutdown_law : forall l,
    let '(r, l') := ssl_shutdown l in
    produces ssl_produced bio_out l l' /\ ssl_plain l' = ssl_plain l;
  bio_write_law : forall d l,
    let '(_, l') := bio_write d l in
    ssl_produced l' = ssl_produced l /\ bio_out l' = bio_out l /\ ssl_plain l' = ssl_plain l;
  bio_pending_law : forall l, bio_pending l = length (bio_out l);
  bio_read_law : forall n l,
    let '(count, data, l') := bio_read n l in
    ssl_produced l' = ssl_produced l /\ ssl_plain l' = ssl_plain l /\
    (if count <=? 0 then bio_out l' = bio_out l
     else bio_out l = data ++ bio_out l' /\ (0 < length data <= n)%nat /\ count = Z.of_nat (length data));
}.

(** A run that follows the loop far enough: the library asks for input or output
    at most [ssl_rounds] times more.  Only what must end is shown under this
    assumption. *)
Class SslPatient (L : Type) `{Ssl L} := {
  handshake_patient : forall l r l', ssl_do_handshake l = (r, l') ->
    r <> 1 -> asks l' r -> (ssl_rounds l' < ssl_rounds l)%nat;
  read_ex_patient : forall n l r data l', ssl_read_ex n l = (r, data, l') ->
    r <> 1 -> asks l' r -> (ssl_rounds l' < ssl_rounds l)%nat;
  write_ex_patient : forall d l r n l', ssl_write_ex d l = (r, n, l') ->
    r <> 1 -> asks l' r -> (ssl_rounds l' < ssl_rounds l)%nat;
  shutdown_patient : forall l r l', ssl_shutdown l = (r, l') ->
    r < 0 -> asks l' r -> (ssl_rounds l' < ssl_rounds l)%nat;
  bio_patient : forall n d l,
    (ssl_rounds (bio_read n l).2 <= ssl_rounds l)%nat /\ (ssl_rounds (bio_write d l).2 <= ssl_rounds l)%nat;
}.

(** ** The engine's calls *)

Section EngineLaws.
Context {L : Type} `{SslLaws L}.

Definition wants (s : Status.t) : bool :=
  match s with Status.want_input | Status.want_output => true | _ => false end.

(** What every step of the engine does: a refusal changes nothing; otherwise the
    library has been called, and the engine has failed exactly if the step has. *)
Definition stepped (e : Engine L) (r : Result Step) (e' : Engine L) : Prop :=
  match r with
  | Ok step =>
      e_failed e = false /\ e_failed e' = false /\
      produces ssl_produced bio_out (e_ssl e) (e_ssl e')
  | Fail err =>
      err = tls_error TlsErrc.invalid_state /\ e' = e \/
      err <> tls_error TlsErrc.invalid_state /\ e_failed e' = true /\
      produces ssl_produced bio_out (e_ssl e) (e_ssl e')
  end.

Lemma produces_refl (l : L) : produces ssl_produced bio_out l l.
Proof. exists []. by rewrite !app_nil_r. Qed.

Lemma refused_stepped (e : Engine L) : stepped e (invalid_state e).1 (invalid_state e).2.
Proof. by left. Qed.

Lemma complete_stepped (e : Engine L) :
  e_failed e = false -> stepped e (Ok (plain_step Status.complete)) e.
Proof. intros He. split_and!; auto using produces_refl. Qed.

Lemma classify_stepped result n data (e : Engine L) l :
  e_failed e = false -> produces ssl_produced bio_out (e_ssl e) l ->
  let r := classify result n data (set_ssl l e) in stepped e r.1 r.2.
Proof.
  intros He Hp. unfold classify. cbn [e_ssl set_ssl].
  destruct (result =? 1) eqn:E1; bool_facts; [by split_and!|].
  destruct (_ =? SSL_ERROR_WANT_READ) eqn:Er; bool_facts; [split_and!; auto|].
  destruct (_ =? SSL_ERROR_WANT_WRITE) eqn:Ew; bool_facts; [split_and!; auto|].
  destruct (_ =? SSL_ERROR_ZERO_RETURN); [by split_and!|].
  right. split_and!; [|done|done]. by destruct (negb _).
Qed.

Lemma no_eof_stepped (e : Engine L) r : stepped e r.1 r.2 -> stepped e (no_eof r).1 (no_eof r).2.
Proof.
  destruct r as [[[[] n d]|err] e']; simpl; try done.
  intros (_ & _ & Hp). right. split_and!; done.
Qed.

Lemma engine_handshake_stepped (e : Engine L) :
  stepped e (engine_handshake e).1 (engine_handshake e).2.
Proof.
  unfold engine_handshake. destruct (e_failed e) eqn:Ef; [apply refused_stepped|].
  destruct (e_sent_shutdown e), (e_peer_closed e); try apply refused_stepped.
  destruct (e_ready e); [by apply complete_stepped|].
  pose proof (handshake_law (e_ssl e)) as Hl. destruct (ssl_do_handshake (e_ssl e)) as [r l].
  destruct Hl as (Hp & _). pose proof (classify_stepped r 0 [] e l Ef Hp) as Hc.
  destruct (classify r 0 [] (set_ssl l e)) as [step e']. apply no_eof_stepped.
  by destruct step as [[[] ? ?]|].
Qed.

Lemma engine_shutdown_stepped (e : Engine L) :
  stepped e (engine_shutdown e).1 (engine_shutdown e).2.
Proof.
  unfold engine_shutdown. destruct (e_failed e) eqn:Ef; [apply refused_stepped|].
  destruct (e_ready e); [|apply refused_stepped].
  destruct (e_sent_shutdown e); [by apply complete_stepped|]. simpl.
  pose proof (shutdown_law (e_ssl e)) as Hl. destruct (ssl_shutdown (e_ssl e)) as [r l].
  destruct Hl as (Hp & _). destruct (0 <=? r) eqn:E; bool_facts.
  - by split_and!.
  - apply no_eof_stepped, classify_stepped; auto.
Qed.

Lemma engine_read_stepped n (e : Engine L) :
  let r := engine_read n e in stepped e r.1 r.2 /\
  ssl_plain (e_ssl r.2) = ssl_plain (e_ssl e) /\
  match r.1 with
  | Ok (mk_step Status.complete _ data) => (length data <= n)%nat /\ (data = [] -> n = 0%nat)
  | _ => True
  end.
Proof.
  unfold engine_read. destruct (e_failed e) eqn:Ef; [by split; [apply refused_stepped|]|].
  destruct (e_ready e); [|by split; [apply refused_stepped|]].
  destruct (e_sent_shutdown e); [by split; [apply refused_stepped|]|]. simpl.
  destruct (n =? 0)%nat eqn:En; bool_facts.
  { split; [by apply complete_stepped|]. simpl. split; [done|]. split; [lia|done]. }
  destruct (e_peer_closed e).
  { split; [|done]. simpl. split_and!; auto using produces_refl. }
  pose proof (read_ex_law n (e_ssl e)) as Hl. destruct (ssl_read_ex n (e_ssl e)) as [[r data] l].
  destruct Hl as (Hp & Hplain & Hdata).
  split; [by apply classify_stepped|]. unfold classify. cbn [e_ssl set_ssl].
  destruct (r =? 1) eqn:E; bool_facts.
  - simpl. split_and!; [done|destruct (Hdata E); lia|]. intros ->. simpl in Hdata. destruct (Hdata E); lia.
  - by repeat (destruct (_ =? _)).
Qed.

Lemma engine_write_stepped d (e : Engine L) :
  let r := engine_write d e in stepped e r.1 r.2 /\
  match r.1 with
  | Ok (mk_step Status.complete n _) =>
      (n <= length d)%nat /\ ssl_plain (e_ssl r.2) = ssl_plain (e_ssl e) ++ take n d
  | _ => ssl_plain (e_ssl r.2) = ssl_plain (e_ssl e)
  end.
Proof.
  unfold engine_write. destruct (e_failed e) eqn:Ef; [by split; [apply refused_stepped|]|].
  destruct (e_ready e), (e_sent_shutdown e), (e_peer_closed e); simpl;
    try (by split; [apply refused_stepped|]).
  destruct (length d =? 0)%nat eqn:En; bool_facts.
  { split; [by apply complete_stepped|]. simpl. rewrite take_0, app_nil_r. split; [lia|done]. }
  set (piece := take record_size d).
  pose proof (write_ex_law piece (e_ssl e)) as Hl. destruct (ssl_write_ex piece (e_ssl e)) as [[r n] l].
  destruct Hl as (Hp & Hplain). split; [by apply classify_stepped|].
  unfold classify. cbn [e_ssl set_ssl]. destruct (r =? 1).
  - simpl. destruct Hplain as [Hn ->]. unfold piece in *. rewrite length_take in Hn.
    rewrite take_take, Nat.min_l by lia. split; [lia|done].
  - by repeat (destruct (_ =? _)).
Qed.
End EngineLaws.

(** *** Patience *)

Section EnginePatience.
Context {L : Type} `{SslPatient L}.

(** What a step that asks for more says of the library's patience. *)
Definition less_patient (e : Engine L) (r : Result Step * Engine L) : Prop :=
  match r.1 with
  | Ok step => wants (status step) = true -> (ssl_rounds (e_ssl r.2) < ssl_rounds (e_ssl e))%nat
  | Fail _ => True
  end.

Lemma classify_patient result n data (e : Engine L) l :
  (result <> 1 -> asks l result -> (ssl_rounds l < ssl_rounds (e_ssl e))%nat) ->
  less_patient e (classify result n data (set_ssl l e)).
Proof.
  intros Hless. unfold classify, asks in *. cbn [e_ssl set_ssl].
  destruct (result =? 1) eqn:E1; bool_facts; [done|].
  destruct (_ =? SSL_ERROR_WANT_READ) eqn:Er; bool_facts; [intros _; apply Hless; auto|].
  destruct (_ =? SSL_ERROR_WANT_WRITE) eqn:Ew; bool_facts; [intros _; apply Hless; auto|].
  by destruct (_ =? SSL_ERROR_ZERO_RETURN).
Qed.

Lemma no_eof_patient (e : Engine L) r : less_patient e r -> less_patient e (no_eof r).
Proof. by destruct r as [[[[] n d]|err] e']. Qed.

Lemma engine_handshake_patient (e : Engine L) : less_patient e (engine_handshake e).
Proof.
  unfold engine_handshake. destruct (_ || _ || _); [done|]. destruct (e_ready e); [done|].
  pose proof (handshake_patient (e_ssl e)) as Hl. destruct (ssl_do_handshake (e_ssl e)) as [r l].
  pose proof (classify_patient r 0 [] e l (Hl _ _ eq_refl)) as Hc.
  destruct (classify r 0 [] (set_ssl l e)) as [step e']. apply no_eof_patient.
  by destruct step as [[[] ? ?]|].
Qed.

Lemma engine_read_patient n (e : Engine L) : less_patient e (engine_read n e).
Proof.
  unfold engine_read. destruct (_ || _ || _); [done|]. destruct (n =? 0)%nat; [done|].
  destruct (e_peer_closed e); [done|].
  pose proof (read_ex_patient n (e_ssl e)) as Hl. destruct (ssl_read_ex n (e_ssl e)) as [[r data] l].
  apply classify_patient. by apply (Hl _ _ _ eq_refl).
Qed.

Lemma engine_write_patient d (e : Engine L) : less_patient e (engine_write d e).
Proof.
  unfold engine_write. destruct (_ || _ || _ || _); [done|]. destruct (length d =? 0)%nat; [done|].
  pose proof (write_ex_patient (take record_size d) (e_ssl e)) as Hl.
  destruct (ssl_write_ex (take record_size d) (e_ssl e)) as [[r n] l].
  apply classify_patient. by apply (Hl _ _ _ eq_refl).
Qed.

Lemma engine_shutdown_patient (e : Engine L) : less_patient e (engine_shutdown e).
Proof.
  unfold engine_shutdown. destruct (_ || _); [done|]. destruct (e_sent_shutdown e); [done|].
  pose proof (shutdown_patient (e_ssl e)) as Hl. destruct (ssl_shutdown (e_ssl e)) as [r l].
  destruct (0 <=? r) eqn:E; bool_facts; [done|]. apply no_eof_patient, classify_patient.
  intros _. by apply (Hl _ _ eq_refl).
Qed.
End EnginePatience.
