(* ===== verification/TlsContext.v ===== *)
(** * TlsContext: configurations (tls/src/context.cpp, tls/src/context_impl.hpp)

    The factories of [Context] over a parameter for the TLS library: [SslCtx] has
    the calls they make on an [SSL_CTX], [SslCtxLaws] what is documented of them, in
    terms of the settings that each live context has ([ctx_view]).  The theorems say
    which settings a context returned by each factory has, and that a factory that
    fails leaves no context behind. *)

From stdpp Require Import gmap.
From S2P Require Import Prelude Errors Alpn TlsEngine.

Local Open Scope Z_scope.
Local Open Scope mira_scope.

(** ** The library *)

Definition TLS1_2_VERSION : Z := 771.
Definition TLS1_3_VERSION : Z := 772.
Definition SSL_OP_NO_COMPRESSION : Z := 2 ^ 17.
Definition SSL_OP_NO_RENEGOTIATION : Z := 2 ^ 30.
Definition SSL_MODE_ENABLE_PARTIAL_WRITE : Z := 1.
Definition SSL_VERIFY_PEER : Z := 1.
Definition SSL_VERIFY_FAIL_IF_NO_PEER_CERT : Z := 2.

(** A handle is an [SSL_CTX*] other than null. *)
Class SslCtx (L : Type) := {
  err_clear_error : L -> L;
  ctx_new : L -> option Z * L;
  ctx_free : Z -> L -> L;
  ctx_set_min_proto_version : Z -> Z -> L -> Z * L;
  ctx_set_options : Z -> Z -> L -> L;
  ctx_set_mode : Z -> Z -> L -> L;
  ctx_get_ex_new_index : L -> Z * L;
  ctx_set_ex_data : Z -> Z -> bytes -> L -> Z * L;
  ctx_set_alpn_select_cb : Z -> L -> L;
  ctx_set_alpn_protos : Z -> bytes -> L -> Z * L;
  ctx_set_verify : Z -> Z -> L -> L;
  ctx_set_default_verify_paths : Z -> L -> Z * L;
  ctx_load_verify_locations : Z -> bytes -> L -> Z * L;
  ctx_use_certificate_chain_file : Z -> bytes -> L -> Z * L;
  ctx_use_PrivateKey_file : Z -> bytes -> L -> Z * L;
  ctx_check_private_key : Z -> L -> Z * L;
}.

(** [std::string::c_str] as the library reads it: up to the first NUL. *)
Definition c_str (text : bytes) : bytes := prefix_to (find x00 text) text.

(** ** The code *)

(** The library, and the static of [protocol_index] once it is initialised. *)
Record Statics (L : Type) := mk_statics { lib : L; static_index : option Z }.
Arguments mk_statics {L} lib static_index.
Arguments lib {L} s.
Arguments static_index {L} s.

(** [Context::Impl] *)
Record Context := mk_context { handle : Z; client : bool }.

(** [Context::ServerConfig], [Context::ClientConfig] *)
Record ServerConfig := {
  sc_cert_file : bytes;
  sc_key_file : bytes;
  sc_client_ca_file : bytes;
  sc_min_version : bytes;
  sc_protocol : bytes;
}.

Record ClientConfig := {
  cc_ca_file : bytes;
  cc_protocol : bytes;
  cc_cert_file : bytes;
  cc_key_file : bytes;
}.

Section Factories.
Context {L : Type} `{!SslCtx L}.

Abbreviation C A := (M (Statics L) A).

Definition configuration_error : Error := tls_error TlsErrc.configuration_error.
Definition invalid_argument : Error := make_error_code Errc.invalid_argument.

(** A call that cannot fail, and one whose result is compared with [expected],
    after [ERR_clear_error]. *)
Definition tell (call : L -> L) : C unit :=
  out_modify (fun s => mk_statics (call (err_clear_error (lib s))) (static_index s)).

Definition ask (call : L -> Z * L) (expected : Z) : C unit :=
  fun s =>
    let '(r, l) := call (err_clear_error (lib s)) in
    require (r =? expected) configuration_error (mk_statics l (static_index s)).

(** [~Impl], and a scope that owns [handle]: it frees it when it is left by an
    error. *)
Definition free_handle (handle : Z) (s : Statics L) : Statics L :=
  mk_statics (ctx_free handle (lib s)) (static_index s).

Definition owning {A} (handle : Z) (m : C A) : C A :=
  fun s =>
    match m s with
    | Fails e s => Fails e (free_handle handle s)
    | o => o
    end.

(** [make_context] *)
Definition make_context : C Z :=
  fun s =>
    let '(r, l) := ctx_new (err_clear_error (lib s)) in
    let s := mk_statics l (static_index s) in
    match r with
    | None => Fails configuration_error s
    | Some handle =>
        owning handle
          (ask (ctx_set_min_proto_version handle TLS1_2_VERSION) 1 ;;;
           tell (ctx_set_options handle
                   (Z.lor SSL_OP_NO_COMPRESSION SSL_OP_NO_RENEGOTIATION)) ;;;
           tell (ctx_set_mode handle SSL_MODE_ENABLE_PARTIAL_WRITE) ;;;
           out_ret handle) s
    end.

(** [protocol_index]: initialised by the first call. *)
Definition protocol_index : C Z :=
  fun s =>
    match static_index s with
    | Some index => Returns index s
    | None =>
        let '(index, l) := ctx_get_ex_new_index (lib s) in
        Returns index (mk_statics l (Some index))
    end.

(** [apply_identity] *)
Definition apply_identity (handle : Z) (cert_file key_file : bytes) : C unit :=
  ask (ctx_use_certificate_chain_file handle (c_str cert_file)) 1 ;;;
  ask (ctx_use_PrivateKey_file handle (c_str key_file)) 1 ;;;
  ask (ctx_check_private_key handle) 1.

(** [apply_min_version] *)
Definition apply_min_version (handle : Z) (min_version : bytes) : C unit :=
  let version :=
    if bytes_eqb min_version (lit "1.2") then TLS1_2_VERSION
    else if bytes_eqb min_version (lit "1.3") then TLS1_3_VERSION
    else 0 in
  require (negb (version =? 0)) invalid_argument ;;;
  ask (ctx_set_min_proto_version handle version) 1.

(** [install_server_alpn] *)
Definition install_server_alpn (handle : Z) (protocols : list bytes) : C unit :=
  let! wire := lift (encode_protocols protocols) in
  if bytes_eqb wire [] then out_ret tt
  else
    let! index := protocol_index in
    require (negb (index <? 0)) configuration_error ;;;
    ask (ctx_set_ex_data handle index wire) 1 ;;;
    tell (ctx_set_alpn_select_cb handle).

(** [std::span{&protocol, 1}], or the empty span for no protocol *)
Definition single (protocol : bytes) : list bytes :=
  if bytes_eqb protocol [] then [] else [protocol].

(** [Context::client_alpn] *)
Definition client_alpn (ca_file : bytes) (protocols : list bytes) : C Context :=
  require (bytes_eqb ca_file [] || valid_path ca_file) invalid_argument ;;;
  let! wire := lift (encode_protocols protocols) in
  let! handle := make_context in
  owning handle
    ((if bytes_eqb wire [] then out_ret tt
      else ask (ctx_set_alpn_protos handle wire) 0) ;;;
     tell (ctx_set_verify handle SSL_VERIFY_PEER) ;;;
     (if bytes_eqb ca_file [] then ask (ctx_set_default_verify_paths handle) 1
      else ask (ctx_load_verify_locations handle (c_str ca_file)) 1) ;;;
     out_ret (mk_context handle true)).

(** [Context::client(ca_file, protocol)] *)
Definition client_protocol (ca_file protocol : bytes) : C Context :=
  client_alpn ca_file (single protocol).

(** [Context::server_alpn] *)
Definition server_alpn (cert_file key_file : bytes) (protocols : list bytes) : C Context :=
  require (valid_path cert_file && valid_path key_file) invalid_argument ;;;
  let! handle := make_context in
  owning handle
    (install_server_alpn handle protocols ;;;
     apply_identity handle cert_file key_file ;;;
     out_ret (mk_context handle false)).

(** [Context::server(cert_file, key_file, protocol)] *)
Definition server_protocol (cert_file key_file protocol : bytes) : C Context :=
  server_alpn cert_file key_file (single protocol).

(** [Context::server(ServerConfig)] *)
Definition server_config (config : ServerConfig) : C Context :=
  let client_ca := sc_client_ca_file config in
  require (bytes_eqb client_ca [] || valid_path client_ca) invalid_argument ;;;
  let! base := server_alpn (sc_cert_file config) (sc_key_file config)
                 (single (sc_protocol config)) in
  owning (handle base)
    (apply_min_version (handle base) (sc_min_version config) ;;;
     (if bytes_eqb client_ca [] then out_ret tt
      else
        ask (ctx_load_verify_locations (handle base) (c_str client_ca)) 1 ;;;
        tell (ctx_set_verify (handle base)
                (Z.lor SSL_VERIFY_PEER SSL_VERIFY_FAIL_IF_NO_PEER_CERT))) ;;;
     out_ret base).

(** [Context::client(ClientConfig)] *)
Definition client_config (config : ClientConfig) : C Context :=
  let has_cert := negb (bytes_eqb (cc_cert_file config) []) in
  let has_key := negb (bytes_eqb (cc_key_file config) []) in
  require (Bool.eqb has_cert has_key) invalid_argument ;;;
  let! base := client_alpn (cc_ca_file config) (single (cc_protocol config)) in
  owning (handle base)
    ((if has_cert then apply_identity (handle base) (cc_cert_file config) (cc_key_file config)
      else out_ret tt) ;;;
     out_ret base).

End Factories.

(** ** What the library promises *)

(** A successful call on a context adds a setting to it; the later settings of a
    kind replace the earlier ones, options add up. *)
Inductive Setting :=
| set_min_version (version : Z)
| set_options (options : Z)
| set_mode (mode : Z)
| set_data (index : Z) (value : bytes)
| set_select
| set_offer (wire : bytes)
| set_verify (mode : Z)
| set_default_trust
| set_trust (path : bytes)
| set_certificate (path : bytes)
| set_private_key (path : bytes)
| identity_checked.

#[export] Instance setting_eq_dec : EqDecision Setting.
Proof. solve_decision. Defined.

(** The live contexts, each with its settings in order. *)
Class SslCtxView (L : Type) := ctx_view : L -> gmap Z (list Setting).

(** A call with a result: it makes [setting] when the result is [good], and some
    change of that context alone otherwise. *)
Definition ctx_sets {L} `{!SslCtxView L} (call : L -> Z * L) (good h : Z) (setting : Setting)
    : Prop :=
  forall l, let '(r, l') := call l in
    if r =? good then ctx_view l' = alter (fun log => log ++ [setting]) h (ctx_view l)
    else exists f, ctx_view l' = alter f h (ctx_view l).

Class SslCtxLaws (L : Type) `{!SslCtx L, !SslCtxView L} : Prop := {
  clear_view : forall l, ctx_view (err_clear_error l) = ctx_view l;
  index_view : forall l, ctx_view (snd (ctx_get_ex_new_index l)) = ctx_view l;
  new_view : forall l,
    match ctx_new l with
    | (Some h, l') => ctx_view l !! h = None /\ ctx_view l' = <[h := []]> (ctx_view l)
    | (None, l') => ctx_view l' = ctx_view l
    end;
  free_view : forall h l, ctx_view (ctx_free h l) = delete h (ctx_view l);
  options_view : forall h o l,
    ctx_view (ctx_set_options h o l) = alter (fun log => log ++ [set_options o]) h (ctx_view l);
  mode_view : forall h o l,
    ctx_view (ctx_set_mode h o l) = alter (fun log => log ++ [set_mode o]) h (ctx_view l);
  select_view : forall h l,
    ctx_view (ctx_set_alpn_select_cb h l) = alter (fun log => log ++ [set_select]) h (ctx_view l);
  verify_view : forall h m l,
    ctx_view (ctx_set_verify h m l) = alter (fun log => log ++ [set_verify m]) h (ctx_view l);
  min_version_view : forall h v,
    ctx_sets (ctx_set_min_proto_version h v) 1 h (set_min_version v);
  data_view : forall h i w, ctx_sets (ctx_set_ex_data h i w) 1 h (set_data i w);
  offer_view : forall h w, ctx_sets (ctx_set_alpn_protos h w) 0 h (set_offer w);
  default_trust_view : forall h,
    ctx_sets (ctx_set_default_verify_paths h) 1 h set_default_trust;
  trust_view : forall h p, ctx_sets (ctx_load_verify_locations h p) 1 h (set_trust p);
  certificate_view : forall h p,
    ctx_sets (ctx_use_certificate_chain_file h p) 1 h (set_certificate p);
  private_key_view : forall h p,
    ctx_sets (ctx_use_PrivateKey_file h p) 1 h (set_private_key p);
  check_view : forall h, ctx_sets (ctx_check_private_key h) 1 h identity_checked;
}.

(** ** What the factories are meant to produce *)

Definition base_settings : list Setting :=
  [set_min_version TLS1_2_VERSION;
   set_options (Z.lor SSL_OP_NO_COMPRESSION SSL_OP_NO_RENEGOTIATION);
   set_mode SSL_MODE_ENABLE_PARTIAL_WRITE].

Definition identity_settings (cert key : bytes) : list Setting :=
  [set_certificate cert; set_private_key key; identity_checked].

Definition client_settings (ca : bytes) (protocols : list bytes) : list Setting :=
  base_settings ++
  (if protocols is [] then [] else [set_offer (wire protocols)]) ++
  [set_verify SSL_VERIFY_PEER; if ca is [] then set_default_trust else set_trust ca].

(** [index] is the slot of [protocol_index]. *)
Definition server_settings (cert key : bytes) (protocols : list bytes) (index : option Z)
    : list Setting :=
  base_settings ++
  (if protocols is [] then [] else [set_data (default 0 index) (wire protocols); set_select]) ++
  identity_settings cert key.

(** The requests an application can make. *)
Inductive Factory :=
| make_client (ca_file : bytes) (protocols : list bytes)
| make_server (cert_file key_file : bytes) (protocols : list bytes)
| make_server_config (config : ServerConfig)
| make_client_config (config : ClientConfig).

Definition expected (f : Factory) (index : option Z) : list Setting :=
  match f with
  | make_client ca ps => client_settings ca ps
  | make_server cert key ps => server_settings cert key ps index
  | make_server_config c =>
      server_settings (sc_cert_file c) (sc_key_file c) (single (sc_protocol c)) index ++
      [set_min_version (if bytes_eqb (sc_min_version c) (lit "1.3")
                        then TLS1_3_VERSION else TLS1_2_VERSION)] ++
      (if sc_client_ca_file c is [] then []
       else [set_trust (sc_client_ca_file c);
             set_verify (Z.lor SSL_VERIFY_PEER SSL_VERIFY_FAIL_IF_NO_PEER_CERT)])
  | make_client_config c =>
      client_settings (cc_ca_file c) (single (cc_protocol c)) ++
      (if cc_cert_file c is [] then []
       else identity_settings (c_str (cc_cert_file c)) (c_str (cc_key_file c)))
  end.

Definition is_client (f : Factory) : bool :=
  match f with make_client _ _ | make_client_config _ => true | _ => false end.

Section Run.
Context {L : Type} `{!SslCtx L}.

Definition make (f : Factory) : M (Statics L) Context :=
  match f with
  | make_client ca ps => client_alpn ca ps
  | make_server cert key ps => server_alpn cert key ps
  | make_server_config c => server_config c
  | make_client_config c => client_config c
  end.

(** The effective settings: the last of its kind. *)
Definition effective (pick : Setting -> option Z) (log : list Setting) (initial : Z) : Z :=
  default initial (last (omap pick log)).

Definition min_version_of (log : list Setting) : Z :=
  effective (fun x => match x with set_min_version v => Some v | _ => None end) log 0.

Definition verify_of (log : list Setting) : Z :=
  effective (fun x => match x with set_verify m => Some m | _ => None end) log 0.

Context `{!SslCtxView L, !SslCtxLaws L}.

(** The settings of the contexts of a state. *)
Abbreviation contexts s := (ctx_view (lib s)).

(** [h] is a context made since [s0], with settings [log]; nothing else changed. *)
Definition working (h : Z) (log : list Setting) (index : option Z) (s0 s : Statics L) : Prop :=
  contexts s0 !! h = None /\ contexts s = <[h := log]> (contexts s0) /\ static_index s = index.

Definition refused (e : Error) : Prop := e = configuration_error \/ e = invalid_argument.

(** What holds where a scope that owns [h] is left by an error. *)
Definition spoilt (h : Z) (s0 : Statics L) (e : Error) (s : Statics L) : Prop :=
  refused e /\ exists log index, working h log index s0 s.

(** The outcome of a factory: a new context with [settings], or no change. *)
Definition untouched (s0 : Statics L) (e : Error) (s : Statics L) : Prop :=
  refused e /\ contexts s = contexts s0.

Definition created (is_client : bool) (settings : option Z -> list Setting)
    (s0 : Statics L) (c : Context) (s : Statics L) : Prop :=
  client c = is_client /\ exists index, working (handle c) (settings index) index s0 s.

(** ** Facts: one call *)

Lemma working_alter f h log i s0 s l :
  working h log i s0 s -> ctx_view l = alter f h (ctx_view (err_clear_error (lib s))) ->
  working h (f log) i s0 (mk_statics l (static_index s)).
Proof.
  intros (Hn & Hv & Hi) Hl. split_and!; [done| |done].
  cbn [lib]. by rewrite Hl, clear_view, Hv, alter_insert_eq.
Qed.

Lemma wp_ask call good h setting log i s0 s (Q : unit -> Statics L -> Prop) :
  ctx_sets call good h setting -> working h log i s0 s ->
  (forall s', working h (log ++ [setting]) i s0 s' -> Q tt s') ->
  wp (ask call good) s Q (spoilt h s0).
Proof.
  intros Hc Hw HQ. unfold wp, ask. specialize (Hc (err_clear_error (lib s))).
  destruct (call _) as [r l]. unfold require. destruct (r =? good).
  - by apply HQ, (working_alter (fun log => log ++ [setting])).
  - destruct Hc as [f Hf]. split; [by left|]. eexists _, _. by eapply (working_alter f).
Qed.

Lemma wp_tell call h setting log i s0 s (Q : unit -> Statics L -> Prop) :
  (forall l, ctx_view (call l) = alter (fun log => log ++ [setting]) h (ctx_view l)) ->
  working h log i s0 s ->
  (forall s', working h (log ++ [setting]) i s0 s' -> Q tt s') ->
  wp (tell call) s Q (spoilt h s0).
Proof.
  intros Hc Hw HQ. unfold wp, tell, out_modify.
  by apply HQ, (working_alter (fun log => log ++ [setting])).
Qed.

Lemma wp_owning {A} h (m : M (Statics L) A) s0 s (Q : A -> Statics L -> Prop) :
  wp m s Q (spoilt h s0) -> wp (owning h m) s Q (untouched s0).
Proof.
  unfold wp, owning. destruct (m s) as [|e s'|]; [done| |done].
  intros [He (log & i & Hn & Hv & _)]. split; [done|].
  unfold free_handle. cbn [lib]. by rewrite free_view, Hv, delete_insert_id.
Qed.

(** ** Facts: the factories *)

Lemma wire_nil ps : bytes_eqb (wire ps) [] = true <-> ps = [].
Proof. rewrite bytes_eqb_eq. by destruct ps. Qed.

Lemma c_str_valid path : valid_path path = true -> c_str path = path.
Proof. unfold valid_path, c_str. destruct (find x00 path); [by rewrite andb_false_r|done]. Qed.

Lemma valid_or_empty path :
  bytes_eqb path [] || valid_path path = true -> c_str path = path.
Proof.
  intros [E|E]%orb_true_iff; [by apply bytes_eqb_eq in E as ->|by apply c_str_valid].
Qed.

Lemma wp_make_context s0 :
  wp make_context s0 (fun h s => working h base_settings (static_index s0) s0 s) (untouched s0).
Proof.
  unfold wp, make_context. pose proof (new_view (err_clear_error (lib s0))) as Hn.
  rewrite clear_view in Hn. destruct (ctx_new _) as [[h|] l]; [|by split; [left|]].
  destruct Hn as [Hn Hv]. apply wp_owning.
  assert (Hw : working h [] (static_index s0) s0 (mk_statics l (static_index s0))) by done.
  apply wp_bind. eapply wp_ask; [apply min_version_view|exact Hw|intros s1 H1].
  apply wp_bind. eapply wp_tell; [apply options_view|exact H1|intros s2 H2].
  apply wp_bind. eapply wp_tell; [apply mode_view|exact H2|intros s3 H3].
  by apply wp_ret.
Qed.

Lemma wp_apply_identity h cert key log i s0 s :
  working h log i s0 s ->
  wp (apply_identity h cert key) s
     (fun _ => working h (log ++ identity_settings (c_str cert) (c_str key)) i s0)
     (spoilt h s0).
Proof.
  intros Hw. unfold apply_identity.
  apply wp_bind. eapply wp_ask; [apply certificate_view|exact Hw|intros s1 H1].
  apply wp_bind. eapply wp_ask; [apply private_key_view|exact H1|intros s2 H2].
  eapply wp_ask; [apply check_view|exact H2|intros s3 H3].
  by rewrite <- !app_assoc in H3.
Qed.

(** The encoded list is empty exactly when the list is; otherwise the call is
    refused before the library sees it. *)
Lemma wp_encode {A} ps (k : bytes -> M (Statics L) A) s Q R :
  R invalid_argument s ->
  (encode_protocols ps = Ok (wire ps) -> wp (k (wire ps)) s Q R) ->
  wp (out_bind (lift (encode_protocols ps)) k) s Q R.
Proof.
  intros HR Hk. apply wp_bind, wp_lift. pose proof (encode_protocols_spec ps) as H.
  destruct (encode_protocols ps) as [w|e]; destruct H as [-> _]; auto.
Qed.

Lemma wp_protocol_index h log i s0 s (Q : Z -> Statics L -> Prop) R :
  working h log i s0 s ->
  (forall index s', working h log (Some index) s0 s' -> Q index s') ->
  wp protocol_index s Q R.
Proof.
  intros (Hn & Hv & <-) HQ. unfold wp, protocol_index.
  destruct (static_index s) as [index|] eqn:E; [by apply HQ|].
  pose proof (index_view (lib s)) as Hx. destruct (ctx_get_ex_new_index _) as [index l].
  apply HQ. split_and!; [done| |done]. cbn [lib snd] in *. by rewrite Hx.
Qed.

Lemma wp_install_server_alpn h ps log i s0 s :
  working h log i s0 s ->
  wp (install_server_alpn h ps) s
     (fun _ s' => exists i',
        working h (log ++ (if ps is [] then []
                           else [set_data (default 0 i') (wire ps); set_select])) i' s0 s')
     (spoilt h s0).
Proof.
  intros Hw. unfold install_server_alpn. apply wp_encode.
  { split; [by right|]. eexists _, _. exact Hw. }
  intros _. destruct (bytes_eqb (wire ps) []) eqn:E.
  - apply wire_nil in E as ->. apply wp_ret. exists i. by rewrite app_nil_r.
  - assert (Hps : ps <> []) by (intros Hps; apply wire_nil in Hps; congruence).
    apply wp_bind. eapply wp_protocol_index; [exact Hw|]. intros index s1 H1.
    apply wp_bind, wp_require; intros _.
    2: { split; [by left|]. eexists _, _. exact H1. }
    apply wp_bind. eapply wp_ask; [apply data_view|exact H1|intros s2 H2].
    eapply wp_tell; [apply select_view|exact H2|intros s3 H3].
    exists (Some index). rewrite <- app_assoc in H3. by destruct ps.
Qed.

Lemma untouched_refused s : untouched s invalid_argument s.
Proof. by split; [right|]. Qed.

Lemma wp_client_alpn ca ps s :
  wp (client_alpn ca ps) s (created true (fun _ => client_settings ca ps) s) (untouched s).
Proof.
  unfold client_alpn. apply wp_bind, wp_require; intros Hca; [|apply untouched_refused].
  apply valid_or_empty in Hca. apply wp_encode; [apply untouched_refused|intros _].
  apply wp_bind. eapply wp_mono; [apply wp_make_context| |done]. intros h s1 H1. cbn beta.
  apply wp_owning.
  apply wp_bind. eapply wp_mono
    with (Q := fun _ => working h (base_settings ++ (if ps is [] then []
                  else [set_offer (wire ps)])) (static_index s) s) (R := spoilt h s).
  { destruct (bytes_eqb (wire ps) []) eqn:E.
    - apply wire_nil in E as ->. by apply wp_ret.
    - eapply wp_ask; [apply offer_view|exact H1|intros s2 H2].
      destruct ps; [|done]. by apply bytes_eqb_neq in E. }
  2: done.
  intros _ s2 H2. apply wp_bind. eapply wp_tell; [apply verify_view|exact H2|intros s3 H3].
  apply wp_bind. rewrite Hca. eapply wp_mono
    with (Q := fun _ => working h (client_settings ca ps) (static_index s) s) (R := spoilt h s).
  { destruct ca as [|b ca]; cbn [bytes_eqb];
      (eapply wp_ask; [(apply default_trust_view || apply trust_view)|exact H3|]);
      intros s4 H4; unfold client_settings; by rewrite <- !app_assoc in *. }
  2: done.
  intros _ s4 H4. apply wp_ret. split; [done|]. by eexists.
Qed.

Lemma wp_server_alpn cert key ps s :
  wp (server_alpn cert key ps) s (created false (server_settings cert key ps) s) (untouched s).
Proof.
  unfold server_alpn. apply wp_bind, wp_require; intros Hv; [|apply untouched_refused].
  apply andb_true_iff in Hv as [Hc Hk].
  apply wp_bind. eapply wp_mono; [apply wp_make_context| |done]. intros h s1 H1. cbn beta.
  apply wp_owning, wp_bind.
  eapply wp_mono; [eapply wp_install_server_alpn; exact H1| |done]. intros ? s2 [i H2]. cbn beta.
  apply wp_bind. eapply wp_mono; [eapply wp_apply_identity; exact H2| |done]. intros ? s3 H3. cbn beta.
  apply wp_ret. split; [done|]. exists i. cbn [handle].
  rewrite !c_str_valid, <- app_assoc in H3 by done. exact H3.
Qed.

Lemma wp_apply_min_version h v log i s0 s :
  working h log i s0 s ->
  wp (apply_min_version h v) s
     (fun _ => working h (log ++ [set_min_version (if bytes_eqb v (lit "1.3")
                                   then TLS1_3_VERSION else TLS1_2_VERSION)]) i s0)
     (spoilt h s0).
Proof.
  intros Hw. unfold apply_min_version. apply wp_bind, wp_require; intros E.
  2: { split; [by right|]. eexists _, _. exact Hw. }
  eapply wp_ask; [apply min_version_view|exact Hw|intros s1 H1].
  destruct (bytes_eqb v (lit "1.2")) eqn:E2; [|by destruct (bytes_eqb v (lit "1.3"))].
  apply bytes_eqb_eq in E2 as ->. exact H1.
Qed.

(** Every factory: a context with exactly the settings it documents, or none. *)
Lemma wp_make f s :
  wp (make f) s (created (is_client f) (expected f) s) (untouched s).
Proof.
  destruct f as [ca ps|cert key ps|c|c]; cbn [make is_client expected].
  - apply wp_client_alpn.
  - apply wp_server_alpn.
  - unfold server_config. apply wp_bind, wp_require; intros Hca; [|apply untouched_refused].
    apply valid_or_empty in Hca. apply wp_bind.
    eapply wp_mono; [apply wp_server_alpn| |done]. intros b s1 [Hb [i H1]]. cbn beta.
    apply wp_owning, wp_bind.
    eapply wp_mono; [eapply wp_apply_min_version; exact H1| |done]. intros ? s2 H2. cbn beta.
    apply wp_bind. rewrite Hca. destruct (sc_client_ca_file c) as [|x ca] eqn:Eca; cbn [bytes_eqb].
    + do 2 apply wp_ret. split; [done|]. exists i. cbn [expected]. rewrite Eca. exact H2.
    + apply wp_bind. eapply wp_ask; [apply trust_view|exact H2|intros s3 H3].
      eapply wp_tell; [apply verify_view|exact H3|intros s4 H4].
      apply wp_ret. split; [done|]. exists i. cbn [expected]. rewrite Eca. by rewrite <- !app_assoc in *.
  - unfold client_config. apply wp_bind, wp_require; intros Hpair; [|apply untouched_refused].
    apply wp_bind. eapply wp_mono; [apply wp_client_alpn| |done].
    intros b s1 [Hb [i H1]]. cbn beta. apply wp_owning, wp_bind.
    destruct (cc_cert_file c) as [|x cert] eqn:Ec; cbn [bytes_eqb negb].
    + do 2 apply wp_ret. split; [done|]. exists i. cbn [expected]. by rewrite Ec, app_nil_r.
    + eapply wp_mono; [eapply wp_apply_identity; exact H1| |done]. intros ? s2 H2. cbn beta.
      apply wp_ret. split; [done|]. exists i. cbn [expected]. rewrite Ec. exact H2.
Qed.

End Run.

(** ** A library that runs *)

Module ToyCtx.

(** Contexts are numbered, and made while the next number is free; a file can be
    loaded when it is one of [files]. *)
Record t := mk { next : Z; files : list bytes; log : gmap Z (list Setting) }.

Definition note (setting : Setting) (h : Z) (l : t) : t :=
  mk (next l) (files l) (alter (fun log => log ++ [setting]) h (log l)).

Definition load (path : bytes) (setting : Setting) (h : Z) (l : t) : Z * t :=
  if bool_decide (path ∈ files l) then (1, note setting h l) else (0, l).

#[global] Instance calls : SslCtx t := {
  err_clear_error l := l;
  ctx_new l :=
    match log l !! next l with
    | Some _ => (None, l)
    | None => (Some (next l), mk (next l + 1) (files l) (<[next l := []]> (log l)))
    end;
  ctx_free h l := mk (next l) (files l) (delete h (log l));
  ctx_set_min_proto_version h v l := (1, note (set_min_version v) h l);
  ctx_set_options h o := note (set_options o) h;
  ctx_set_mode h m := note (set_mode m) h;
  ctx_get_ex_new_index l := (0, l);
  ctx_set_ex_data h i w l := (1, note (set_data i w) h l);
  ctx_set_alpn_select_cb h := note set_select h;
  ctx_set_alpn_protos h w l := (0, note (set_offer w) h l);
  ctx_set_verify h m := note (set_verify m) h;
  ctx_set_default_verify_paths h l := (1, note set_default_trust h l);
  ctx_load_verify_locations h p := load p (set_trust p) h;
  ctx_use_certificate_chain_file h p := load p (set_certificate p) h;
  ctx_use_PrivateKey_file h p := load p (set_private_key p) h;
  ctx_check_private_key h l := (1, note identity_checked h l);
}.

#[global] Instance toy_view : SslCtxView t := log.

Lemma load_view p setting h : ctx_sets (load p setting h) 1 h setting.
Proof.
  intros l. unfold load. case_bool_decide; simpl; [done|].
  exists id. symmetry. apply map_eq. intros k. destruct (decide (k = h)) as [->|Hne].
  - rewrite lookup_alter_eq. by destruct (_ !! h).
  - by rewrite lookup_alter_ne.
Qed.

#[global] Instance laws : SslCtxLaws t.
Proof.
  split; try done; try (intros; apply load_view).
  intros l. cbn. by destruct (log l !! next l) eqn:E.
Qed.

End ToyCtx.

(** ** The properties *)

(** The connections that a set of settings admits. *)
Definition policy (f : Factory) (log : list Setting) : Prop :=
  TLS1_2_VERSION <= min_version_of log /\
  (is_client f = true -> verify_of log = SSL_VERIFY_PEER) /\
  (forall c, f = make_server_config c ->
     (sc_min_version c = lit "1.3" -> min_version_of log = TLS1_3_VERSION) /\
     (sc_client_ca_file c <> [] ->
      verify_of log = Z.lor SSL_VERIFY_PEER SSL_VERIFY_FAIL_IF_NO_PEER_CERT)).

Lemma effective_app pick log1 log2 d :
  effective pick (log1 ++ log2) d = effective pick log2 (effective pick log1 d).
Proof.
  unfold effective. rewrite omap_app, last_app. by destruct (last (omap pick log2)).
Qed.

Lemma expected_policy f i : policy f (expected f i).
Proof.
  unfold policy, min_version_of, verify_of.
  destruct f as [ca ps|cert key ps|c|c]; cbn [is_client expected];
    unfold client_settings, server_settings, base_settings, identity_settings;
    rewrite !effective_app; split_and!; try done; intros;
    simplify_eq; try split;
    repeat match goal with |- context [match ?x with [] => _ | _ => _ end] => destruct x end;
    try done; try (by cbn; destruct (bytes_eqb _ _)); try (intros ->; done).
Qed.

(** C22: Every factory ends.  When it returns, there is one context more, its handle
    is new, and its settings are exactly those documented for the request; in
    particular TLS 1.2 is the least version, a client verifies its peer, a server
    with a client CA refuses clients without a certificate, and "1.3" is honoured.
    When it fails, whatever call failed and however far it had come, the contexts of
    the library are what they were: none is leaked and none is damaged. *)
Theorem context_policy {L} `{!SslCtx L, !SslCtxView L, !SslCtxLaws L} f (s : Statics L) :
  match make f s with
  | Returns c s' =>
      client c = is_client f /\ ctx_view (lib s) !! handle c = None /\
      ctx_view (lib s') = <[handle c := expected f (static_index s')]> (ctx_view (lib s)) /\
      policy f (expected f (static_index s'))
  | Fails e s' => refused e /\ ctx_view (lib s') = ctx_view (lib s)
  | OutOfFuel => False
  end.
Proof.
  pose proof (wp_make f s) as H. unfold wp in H. destruct (make f s) as [c s'|e s'|]; [|done|done].
  destruct H as [Hc (i & Hn & Hv & <-)]. split_and!; try done. apply expected_policy.
Qed.

Definition disk : list bytes := [lit "cert.pem"; lit "key.pem"; lit "ca.pem"].

Definition fresh_library : Statics ToyCtx.t := mk_statics (ToyCtx.mk 1 disk ∅) None.

(** A server that demands certificates and TLS 1.3; the same with a missing key. *)
Definition strict (key : bytes) : Factory :=
  make_server_config
    {| sc_cert_file := lit "cert.pem"; sc_key_file := key; sc_client_ca_file := lit "ca.pem";
       sc_min_version := lit "1.3"; sc_protocol := lit "h2" |}.

Definition context_of {E S} (o : Outcome E S Context) : option Context :=
  match o with Returns c _ => Some c | _ => None end.

Lemma context_policy_witness :
  context_of (make (strict (lit "key.pem")) fresh_library) = Some (mk_context 1 false) /\
  context_of (make (strict (lit "missing.pem")) fresh_library) = None /\
  match make (strict (lit "missing.pem")) fresh_library with
  | Fails e s' => refused e /\ ctx_view (lib s') = ctx_view (lib fresh_library)
  | _ => False
  end.
Proof.
  split; [vm_compute; reflexivity|]. split; [vm_compute; reflexivity|].
  pose proof (context_policy (strict (lit "missing.pem")) fresh_library) as H.
  destruct (make (strict (lit "missing.pem")) fresh_library) as [c s'|e s'|] eqn:E; [|exact H|exact H].
  apply (f_equal context_of) in E. vm_compute in E. discriminate E.
Defined.

(** The callback of a server with the settings [log], where it has one. *)
Definition data_of (index : Z) (log : list Setting) : option bytes :=
  last (omap (fun x => match x with
                       | set_data i w => if i =? index then Some w else None
                       | _ => None
                       end) log).

Definition answer (index : Z) (log : list Setting) (offered : bytes)
    : option (Outcome Stop nat (nat * nat)) :=
  if bool_decide (set_select ∈ log) then Some (select_protocol (data_of index log) offered)
  else None.

(** A server's settings answer with the names it was made with. *)
Lemma answer_server cert key ps i offered :
  ps <> [] ->
  answer (default 0 i) (server_settings cert key ps i) offered
  = Some (select_protocol (Some (wire ps)) offered).
Proof.
  intros Hps. unfold answer. destruct ps as [|p ps]; [done|].
  rewrite bool_decide_eq_true_2 by (unfold server_settings; set_solver).
  unfold data_of, server_settings. cbn -[wire]. by rewrite Z.eqb_refl.
Qed.

Lemma server_names_ok {L} `{!SslCtx L, !SslCtxView L, !SslCtxLaws L} cert key ps (s : Statics L) c s' :
  server_alpn cert key ps s = Returns c s' -> Forall name_ok ps.
Proof.
  unfold server_alpn, out_bind, require, owning, install_server_alpn, lift.
  destruct (_ && _); [|done]. destruct (make_context s) as [h s1| |]; [|done|done].
  pose proof (encode_protocols_spec ps) as H.
  unfold out_bind. destruct (encode_protocols ps); [|done]. by destruct H as (_ & ? & _).
Qed.

Lemma client_names_ok {L} `{!SslCtx L, !SslCtxView L, !SslCtxLaws L} ca ps (s : Statics L) c s' :
  client_alpn ca ps s = Returns c s' -> Forall name_ok ps.
Proof.
  unfold client_alpn, out_bind, require, lift. destruct (_ || _); [|done].
  pose proof (encode_protocols_spec ps) as H. destruct (encode_protocols ps); [|done].
  by destruct H as (_ & ? & _).
Qed.

(** A client and a server made by the factories agree on a protocol: on the
    client's offer, as it stands in the client's settings, the server's callback
    (with the list stored in the server's context) chooses the first of the server's
    names that is among the client's, whatever the client's order; when the two
    lists share no name it refuses the handshake. *)
Theorem alpn_agreement {L} `{!SslCtx L, !SslCtxView L, !SslCtxLaws L}
    ca ps cert key qs (s1 s1' s2 s2' : Statics L) c d :
  ps <> [] -> qs <> [] ->
  make (make_client ca ps) s1 = Returns c s1' ->
  make (make_server cert key qs) s2 = Returns d s2' ->
  exists offer clog dlog,
    ctx_view (lib s1') !! handle c = Some clog /\ set_offer offer ∈ clog /\
    ctx_view (lib s2') !! handle d = Some dlog /\
    match answer (default 0 (static_index s2')) dlog offer with
    | Some (Returns (o, n) _) =>
        (o + n <= length offer)%nat /\ first_common qs ps (take n (drop o offer))
    | Some (Fails stop _) => stop = alert_fatal /\ Forall (fun q => q ∉ ps) qs
    | _ => False
    end.
Proof.
  intros Hps Hqs Hc Hd.
  pose proof (wp_make (make_client ca ps) s1) as Wc. unfold wp in Wc. rewrite Hc in Wc.
  pose proof (wp_make (make_server cert key qs) s2) as Wd. unfold wp in Wd. rewrite Hd in Wd.
  destruct Wc as [_ (i & _ & Vc & _)], Wd as [_ (j & _ & Vd & <-)]. cbn [expected] in *.
  exists (wire ps), (client_settings ca ps), (server_settings cert key qs (static_index s2')).
  rewrite Vc, Vd, !lookup_insert_eq. split_and!; try done.
  { unfold client_settings. destruct ps; [done|set_solver]. }
  rewrite answer_server by done.
  apply client_names_ok in Hc as Hpok. apply server_names_ok in Hd as Hqok.
  pose proof (select_protocol_wire qs (wire ps) Hqok) as Hs.
  destruct (select_protocol _ _) as [[o n] ?|stop ?|]; [| |done].
  - destruct Hs as (Hle & offer & Hoff & Heq & Hf). split; [done|].
    by rewrite (wire_inj _ _ Hpok Hoff Heq) at 1.
  - destruct Hs as [-> Hno]. split; [done|]. by apply Hno.
Qed.

Definition browser : Factory := make_client [] [lit "http/1.1"; lit "h2"].
Definition origin : Factory := make_server (lit "cert.pem") (lit "key.pem") server_names.

Lemma alpn_agreement_witness :
  match make browser fresh_library, make origin fresh_library with
  | Returns c s1, Returns d s2 =>
      exists offer clog dlog,
        ctx_view (lib s1) !! handle c = Some clog /\ set_offer offer ∈ clog /\
        ctx_view (lib s2) !! handle d = Some dlog /\
        match answer (default 0 (static_index s2)) dlog offer with
        | Some (Returns (o, n) _) =>
            (o + n <= length offer)%nat /\
            first_common server_names [lit "http/1.1"; lit "h2"] (take n (drop o offer))
        | Some (Fails stop _) =>
            stop = alert_fatal /\ Forall (fun q => q ∉ [lit "http/1.1"; lit "h2"]) server_names
        | _ => False
        end
  | _, _ => False
  end.
Proof.
  destruct (make browser fresh_library) as [c s1|e s1|] eqn:E1;
    [|apply (f_equal context_of) in E1; vm_compute in E1; discriminate E1
     |apply (f_equal context_of) in E1; vm_compute in E1; discriminate E1].
  destruct (make origin fresh_library) as [d s2|e s2|] eqn:E2;
    [|apply (f_equal context_of) in E2; vm_compute in E2; discriminate E2
     |apply (f_equal context_of) in E2; vm_compute in E2; discriminate E2].
  exact (alpn_agreement [] [lit "http/1.1"; lit "h2"] (lit "cert.pem") (lit "key.pem")
           server_names fresh_library s1 fresh_library s2 c d ltac:(discriminate) ltac:(discriminate) E1 E2).
Defined.

(** The client's own certificate is not checked like the other paths: a name with a
    NUL in it loads the file that the part before the NUL names. *)
Definition truncated_path : bytes := lit "cert.pem" ++ [x00] ++ lit "/other".

Theorem client_certificate_truncated :
  valid_path truncated_path = false /\
  match make (make_client_config
                {| cc_ca_file := []; cc_protocol := []; cc_cert_file := truncated_path;
                   cc_key_file := lit "key.pem" |}) fresh_library with
  | Returns c s =>
      set_certificate (lit "cert.pem") ∈ default [] (ctx_view (lib s) !! handle c)
  | _ => False
  end.
Proof.
  split; [reflexivity|]. vm_compute. do 5 right. left.
Qed.
