(* ===== verification/TlsCreate.v ===== *)
(** * TlsCreate: making an engine (tls/src/engine.cpp, [Engine::create])

    [Engine::create] makes an [SSL] from a context, gives it one end of a BIO pair,
    and on a client sets the name that the peer's certificate must have.  The
    library is a parameter again; its resources (SSL objects, free-standing BIOs,
    octet strings) are counted, so that leaks show.  [openssl_4] says which of the two
    branches of the code is compiled. *)

From stdpp Require Import gmap.
From S2P Require Import Prelude Errors Alpn TlsEngine TlsContext.

Local Open Scope Z_scope.
Local Open Scope mira_scope.

(** ** The library *)

Class SslNew (L : Type) := {
  openssl_4 : bool;
  clear_errors : L -> L;
  ssl_new : Z -> L -> option Z * L;
  ssl_free : Z -> L -> L;
  bio_new_bio_pair : nat -> nat -> L -> option (Z * Z) * L;
  bio_free : Z -> L -> L;
  ssl_set_bio : Z -> Z -> L -> L;
  ssl_set_connect_state : Z -> L -> L;
  ssl_set_accept_state : Z -> L -> L;
  a2i_IPADDRESS : bytes -> L -> option Z * L;
  asn1_free : Z -> L -> L;
  set_no_partial_wildcards : Z -> L -> L;
  set1_ip_asc : Z -> bytes -> L -> Z * L;
  set1_host : Z -> bytes -> L -> Z * L;
  ssl_set1_ipaddr : Z -> bytes -> L -> Z * L;
  ssl_set1_dnsname : Z -> bytes -> L -> Z * L;
  set_tlsext_hostname : Z -> bytes -> L -> Z * L;
}.

(** ** The code *)

(** [Engine::Impl] as [create] leaves it *)
Record Handles := mk_handles { h_ssl : Z; h_wire : Z }.

Section Create.
Context {L : Type} `{!SslNew L}.

(** [~Impl]: freeing null does nothing. *)
Definition free_impl (ssl : Z) (wire : option Z) (l : L) : L :=
  let l := ssl_free ssl l in
  match wire with Some w => bio_free w l | None => l end.

Definition on_failure {A} (cleanup : L -> L) (m : M L A) : M L A :=
  fun l => match m l with Fails e l => Fails e (cleanup l) | o => o end.

Definition say (call : L -> L) : M L unit := out_modify (fun l => call (clear_errors l)).

Definition try (call : L -> Z * L) : M L unit :=
  fun l => let '(r, l) := call (clear_errors l) in require (r =? 1) configuration_error l.

(** The name that the certificate must carry: an address or a host. *)
Definition expect_peer (ssl : Z) (name : bytes) : M L unit :=
  fun l =>
    let '(ip, l) := a2i_IPADDRESS name (clear_errors l) in
    let l := set_no_partial_wildcards ssl l in
    if openssl_4 (L := L) then
      let '(expected, l) := match ip with
                            | Some _ => ssl_set1_ipaddr ssl name (clear_errors l)
                            | None => ssl_set1_dnsname ssl name (clear_errors l)
                            end in
      let l := match ip with Some ip => asn1_free ip l | None => l end in
      require (expected =? 1) configuration_error l
    else
      match ip with
      | Some ip => try (set1_ip_asc ssl name) (asn1_free ip l)
      | None => try (set1_host ssl name) l
      end.

(** [Engine::create]; a context that was moved from has no [impl_]. *)
Definition engine_create (context : option Context) (peer_name : bytes) : M L Handles :=
  fun l =>
    match context with
    | None => Fails (tls_error TlsErrc.invalid_state) l
    | Some context =>
        if client context && negb (valid_path peer_name) then Fails invalid_argument l
        else
          match ssl_new (handle context) (clear_errors l) with
          | (None, l) => Fails configuration_error l
          | (Some ssl, l) =>
              match bio_new_bio_pair buffer_capacity buffer_capacity (clear_errors l) with
              | (None, l) => Fails configuration_error (free_impl ssl None l)
              | (Some (internal, wire), l) =>
                  on_failure (free_impl ssl (Some wire))
                    (say (ssl_set_bio ssl internal) ;;;
                     (if client context then
                        say (ssl_set_connect_state ssl) ;;;
                        expect_peer ssl (c_str peer_name) ;;;
                        try (set_tlsext_hostname ssl (c_str peer_name))
                      else say (ssl_set_accept_state ssl)) ;;;
                     out_ret (mk_handles ssl wire)) l
              end
          end
    end.

End Create.

(** ** What the library promises *)

Inductive SslSetting :=
| of_context (ctx : Z)
| has_bio (internal : Z)
| connects
| accepts
| no_partial_wildcards
| expects_ip (name : bytes)
| expects_host (name : bytes)
| sends_name (name : bytes).

#[export] Instance ssl_setting_eq_dec : EqDecision SslSetting.
Proof. solve_decision. Defined.

(** The live objects: each SSL with what was set on it, the BIOs that no SSL owns,
    the octet strings. *)
Record Objects := mk_objects {
  o_ssl : gmap Z (list SslSetting);
  o_bio : gset Z;
  o_asn1 : gset Z;
}.

Definition note (ssl : Z) (x : SslSetting) (o : Objects) : Objects :=
  mk_objects (alter (fun log => log ++ [x]) ssl (o_ssl o)) (o_bio o) (o_asn1 o).

Class SslObjects (L : Type) := objects : L -> Objects.

(** A call with a result: it makes the setting when it returns 1, and changes at most
    that SSL otherwise. *)
Definition ssl_sets {L} `{!SslObjects L} (call : L -> Z * L) (ssl : Z) (x : SslSetting) : Prop :=
  forall l, let '(r, l') := call l in
    if r =? 1 then objects l' = note ssl x (objects l)
    else exists f, objects l' =
      mk_objects (alter f ssl (o_ssl (objects l))) (o_bio (objects l)) (o_asn1 (objects l)).

Class SslNewLaws (L : Type) `{!SslNew L, !SslObjects L} : Prop := {
  clear_objects : forall l, objects (clear_errors l) = objects l;
  ssl_new_objects : forall c l,
    match ssl_new c l with
    | (Some h, l') =>
        o_ssl (objects l) !! h = None /\
        objects l' = mk_objects (<[h := [of_context c]]> (o_ssl (objects l))) (o_bio (objects l))
                       (o_asn1 (objects l))
    | (None, l') => objects l' = objects l
    end;
  ssl_free_objects : forall h l,
    objects (ssl_free h l) =
      mk_objects (delete h (o_ssl (objects l))) (o_bio (objects l)) (o_asn1 (objects l));
  pair_objects : forall a b l,
    match bio_new_bio_pair a b l with
    | (Some (i, w), l') =>
        i <> w /\ (i ∉ o_bio (objects l)) /\ (w ∉ o_bio (objects l)) /\
        objects l' = mk_objects (o_ssl (objects l)) ({[i; w]} ∪ o_bio (objects l))
                       (o_asn1 (objects l))
    | (None, l') => objects l' = objects l
    end;
  bio_free_objects : forall w l,
    objects (bio_free w l) =
      mk_objects (o_ssl (objects l)) (o_bio (objects l) ∖ {[w]}) (o_asn1 (objects l));
  (** The SSL owns the BIO from now on. *)
  set_bio_objects : forall h i l,
    objects (ssl_set_bio h i l) =
      mk_objects (alter (fun log => log ++ [has_bio i]) h (o_ssl (objects l)))
        (o_bio (objects l) ∖ {[i]}) (o_asn1 (objects l));
  connect_objects : forall h l, objects (ssl_set_connect_state h l) = note h connects (objects l);
  accept_objects : forall h l, objects (ssl_set_accept_state h l) = note h accepts (objects l);
  wildcards_objects : forall h l,
    objects (set_no_partial_wildcards h l) = note h no_partial_wildcards (objects l);
  a2i_objects : forall n l,
    match a2i_IPADDRESS n l with
    | (Some p, l') =>
        (p ∉ o_asn1 (objects l)) /\
        objects l' = mk_objects (o_ssl (objects l)) (o_bio (objects l))
                       ({[p]} ∪ o_asn1 (objects l))
    | (None, l') => objects l' = objects l
    end;
  asn1_free_objects : forall p l,
    objects (asn1_free p l) =
      mk_objects (o_ssl (objects l)) (o_bio (objects l)) (o_asn1 (objects l) ∖ {[p]});
  ip_objects : forall h n, ssl_sets (set1_ip_asc h n) h (expects_ip n);
  host_objects : forall h n, ssl_sets (set1_host h n) h (expects_host n);
  ipaddr_objects : forall h n, ssl_sets (ssl_set1_ipaddr h n) h (expects_ip n);
  dnsname_objects : forall h n, ssl_sets (ssl_set1_dnsname h n) h (expects_host n);
  name_objects : forall h n, ssl_sets (set_tlsext_hostname h n) h (sends_name n);
}.

(** ** What [create] is meant to produce *)

(** The settings of an engine: a client expects the peer it was told, as an address
    or as a host, and sends its name. *)
Definition engine_settings (c : Context) (peer : bytes) (log : list SslSetting) : Prop :=
  exists internal,
    if client c then
      exists check, (check = expects_ip peer \/ check = expects_host peer) /\
        log = [of_context (handle c); has_bio internal; connects; no_partial_wildcards; check;
               sends_name peer]
    else log = [of_context (handle c); has_bio internal; accepts].

Section Facts.
Context {L : Type} `{!SslNew L, !SslObjects L, !SslNewLaws L}.

(** One SSL with settings [log] and one BIO more than [o]. *)
Definition making (o : Objects) (h w : Z) (log : list SslSetting) (l : L) : Prop :=
  o_ssl o !! h = None /\ (w ∉ o_bio o) /\
  objects l = mk_objects (<[h := log]> (o_ssl o)) ({[w]} ∪ o_bio o) (o_asn1 o).

Definition broken (o : Objects) (h w : Z) (e : Error) (l : L) : Prop :=
  e = configuration_error /\ exists log, making o h w log l.

Lemma making_note o h w log x (l l' : L) :
  making o h w log l -> objects l' = note h x (objects l) -> making o h w (log ++ [x]) l'.
Proof.
  intros (Hh & Hw & Hl) Hl'. split_and!; [done|done|]. rewrite Hl', Hl. unfold note. cbn.
  by rewrite alter_insert_eq.
Qed.

Lemma making_clear o h w log (l : L) : making o h w log l -> making o h w log (clear_errors l).
Proof. unfold making. by rewrite clear_objects. Qed.

Lemma wp_say call o h w log x (l : L) (Q : unit -> L -> Prop) :
  (forall l, objects (call l) = note h x (objects l)) -> making o h w log l ->
  (forall l', making o h w (log ++ [x]) l' -> Q tt l') ->
  wp (say call) l Q (broken o h w).
Proof.
  intros Hc Hl HQ. unfold wp, say, out_modify. apply HQ.
  eapply making_note; [by apply making_clear|apply Hc].
Qed.

Lemma sets_making call o h w log x (l : L) :
  ssl_sets call h x -> making o h w log l ->
  let '(r, l') := call l in exists log', making o h w log' l' /\ ((r =? 1) = true -> log' = log ++ [x]).
Proof.
  intros Hc Hl. specialize (Hc l). destruct (call l) as [r l']. destruct (r =? 1).
  - exists (log ++ [x]). split; [by eapply making_note|done].
  - destruct Hc as [f Hf], Hl as (Hh & Hw & Hv). exists (f log). split; [|done].
    split_and!; [done|done|]. rewrite Hf, Hv. cbn. by rewrite alter_insert_eq.
Qed.

Lemma wp_required r o h w log log' (l : L) (Q : unit -> L -> Prop) :
  making o h w log' l -> ((r =? 1) = true -> log' = log) ->
  (forall l', making o h w log l' -> Q tt l') ->
  wp (require (r =? 1) configuration_error) l Q (broken o h w).
Proof.
  intros Hl Hr HQ. unfold wp, require. destruct (r =? 1).
  - apply HQ. by rewrite <- Hr.
  - split; [done|by exists log'].
Qed.

Lemma wp_try call o h w log x (l : L) (Q : unit -> L -> Prop) :
  ssl_sets call h x -> making o h w log l ->
  (forall l', making o h w (log ++ [x]) l' -> Q tt l') ->
  wp (try call) l Q (broken o h w).
Proof.
  intros Hc Hl HQ. apply making_clear in Hl. pose proof (sets_making _ _ _ _ _ _ _ Hc Hl) as H.
  unfold try, wp. destruct (call _) as [r l']. destruct H as (log' & H & Hr). by eapply (wp_required r).
Qed.

(** While the octet string [ip] is there. *)
Definition holding (ip : Z) (o : Objects) : Objects := mk_objects (o_ssl o) (o_bio o) ({[ip]} ∪ o_asn1 o).

Lemma making_freed ip o h w log (l : L) :
  ip ∉ o_asn1 o -> making (holding ip o) h w log l -> making o h w log (asn1_free ip l).
Proof.
  intros Hip (Hh & Hw & Hv). split_and!; [done|done|]. rewrite asn1_free_objects, Hv. cbn. f_equal. set_solver.
Qed.

Lemma wp_expect_peer o h w log name (l : L) (Q : unit -> L -> Prop) :
  making o h w log l ->
  (forall check l', check = expects_ip name \/ check = expects_host name ->
     making o h w (log ++ [no_partial_wildcards; check]) l' -> Q tt l') ->
  wp (expect_peer h name) l Q (broken o h w).
Proof.
  intros Hl HQ. unfold expect_peer, wp. apply making_clear in Hl. destruct Hl as (Hh & Hw & Hv).
  pose proof (a2i_objects name (clear_errors l)) as Ha. rewrite Hv in Ha. cbn [o_ssl o_bio o_asn1] in Ha.
  assert (forall x, (x = expects_ip name \/ x = expects_host name) -> forall l',
    making o h w ((log ++ [no_partial_wildcards]) ++ [x]) l' -> Q tt l') as HQ'.
  { intros x Hx l' Hl'. rewrite <- app_assoc in Hl'. by apply (HQ x). }
  destruct (a2i_IPADDRESS name _) as [[ip|] l1].
  - destruct Ha as [Hip Ha].
    assert (H1 : making (holding ip o) h w (log ++ [no_partial_wildcards]) (set_no_partial_wildcards h l1)).
    { eapply making_note; [|apply wildcards_objects]. by split_and!. }
    destruct openssl_4.
    + apply making_clear in H1. pose proof (sets_making _ _ _ _ _ _ _ (ipaddr_objects h name) H1) as H2.
      destruct (ssl_set1_ipaddr _ _ _) as [r l2]. destruct H2 as (log' & H2 & Hr).
      eapply (wp_required r); [by apply (making_freed ip)|exact Hr|by apply HQ'; left].
    + eapply (wp_try _ _ _ _ _ _ _ Q); [apply ip_objects|by apply (making_freed ip)|by apply HQ'; left].
  - assert (H1 : making o h w (log ++ [no_partial_wildcards]) (set_no_partial_wildcards h l1)).
    { eapply making_note; [|apply wildcards_objects]. split_and!; [done|done|by rewrite Ha]. }
    destruct openssl_4.
    + apply making_clear in H1. pose proof (sets_making _ _ _ _ _ _ _ (dnsname_objects h name) H1) as H2.
      destruct (ssl_set1_dnsname _ _ _) as [r l2]. destruct H2 as (log' & H2 & Hr).
      eapply (wp_required r); [exact H2|exact Hr|by apply HQ'; right].
    + eapply (wp_try _ _ _ _ _ _ _ Q); [apply host_objects|exact H1|by apply HQ'; right].
Qed.

(** Leaving the scope by an error frees both. *)
Lemma wp_on_failure {A} o h w (m : M L A) (l : L) (Q : A -> L -> Prop) :
  wp m l Q (broken o h w) ->
  wp (on_failure (free_impl h (Some w)) m) l Q
     (fun e l' => e = configuration_error /\ objects l' = o).
Proof.
  unfold wp, on_failure. destruct (m l) as [|e l'|]; [done| |done].
  intros [-> [log (Hh & Hw & Hv)]]. split; [done|]. unfold free_impl.
  rewrite bio_free_objects, ssl_free_objects, Hv. cbn. destruct o as [os ob oa]. cbn in *.
  f_equal; [by rewrite delete_insert_id|set_solver].
Qed.

(** The body of [create] behind the allocations. *)
Lemma wp_setup o ctx peer ssl internal wire (l : L) :
  valid_path peer = true \/ client ctx = false ->
  o_ssl o !! ssl = None -> internal <> wire -> internal ∉ o_bio o -> wire ∉ o_bio o ->
  objects l = mk_objects (<[ssl := [of_context (handle ctx)]]> (o_ssl o))
                ({[internal; wire]} ∪ o_bio o) (o_asn1 o) ->
  wp (say (ssl_set_bio ssl internal) ;;;
      (if client ctx then
         say (ssl_set_connect_state ssl) ;;;
         expect_peer ssl (c_str peer) ;;;
         try (set_tlsext_hostname ssl (c_str peer))
       else say (ssl_set_accept_state ssl)) ;;;
      out_ret (mk_handles ssl wire)) l
     (fun e l' => h_ssl e = ssl /\ h_wire e = wire /\
        exists log, making o ssl wire log l' /\ engine_settings ctx peer log)
     (broken o ssl wire).
Proof.
  intros Hpeer Hs Hne Hi Hw Hl. apply wp_bind. unfold wp at 1, say, out_modify.
  assert (H1 : making o ssl wire [of_context (handle ctx); has_bio internal]
                 (ssl_set_bio ssl internal (clear_errors l))).
  { split_and!; [done|done|]. rewrite set_bio_objects, clear_objects, Hl. cbn.
    rewrite alter_insert_eq. cbn. f_equal. set_solver. }
  apply wp_bind. unfold engine_settings. destruct (client ctx).
  - rewrite c_str_valid by (by destruct Hpeer).
    apply wp_bind. eapply wp_say; [apply connect_objects|exact H1|intros l2 H2].
    apply wp_bind. eapply wp_expect_peer; [exact H2|intros check l3 Hcheck H3].
    eapply wp_try; [apply name_objects|exact H3|intros l4 H4].
    apply wp_ret. split_and!; [done|done|]. eexists. split; [exact H4|].
    exists internal, check. by split.
  - eapply wp_say; [apply accept_objects|exact H1|intros l2 H2].
    apply wp_ret. split_and!; [done|done|]. eexists. split; [exact H2|]. by exists internal.
Qed.

End Facts.

(** ** The property *)

(** C24: An engine is made whole or not at all, in both branches of the code.  When [create] returns, there is one
    SSL more, made from the context, and one BIO more, the engine's wire end (the
    other end belongs to the SSL); a client's SSL accepts only a certificate for the
    very name or address it was given, without partial wildcards, and sends that name;
    no octet string is left.  When [create] fails, whichever call failed, every object
    it had made has been freed.  A client without a peer name, or with a NUL in it, is
    refused before the library is called. *)
Theorem engine_made_whole {L} `{!SslNew L, !SslObjects L, !SslNewLaws L}
    context peer (l : L) :
  match engine_create context peer l with
  | Returns e l' =>
      exists c log, context = Some c /\ (client c = true -> valid_path peer = true) /\
        o_ssl (objects l) !! h_ssl e = None /\
        objects l' = mk_objects (<[h_ssl e := log]> (o_ssl (objects l)))
                       ({[h_wire e]} ∪ o_bio (objects l)) (o_asn1 (objects l)) /\
        engine_settings c peer log
  | Fails _ l' => objects l' = objects l
  | OutOfFuel => False
  end.
Proof.
  unfold engine_create. destruct context as [c|]; [|done].
  destruct (client c && negb (valid_path peer)) eqn:Ep; [done|].
  assert (Hpeer : valid_path peer = true \/ client c = false)
    by (destruct (client c), (valid_path peer); auto).
  pose proof (ssl_new_objects (handle c) (clear_errors l)) as Hn. rewrite clear_objects in Hn.
  destruct (ssl_new _ _) as [[ssl|] l1]; [|done]. destruct Hn as [Hfresh Hn].
  pose proof (pair_objects buffer_capacity buffer_capacity (clear_errors l1)) as Hp.
  rewrite clear_objects, Hn in Hp. cbn [o_ssl o_bio o_asn1] in Hp.
  destruct (bio_new_bio_pair _ _ _) as [[[internal wire]|] l2].
  - destruct Hp as (Hne & Hi & Hw & Hp).
    pose proof (wp_on_failure _ _ _ _ _ _
      (wp_setup (objects l) c peer ssl internal wire l2 Hpeer Hfresh Hne Hi Hw Hp)) as H.
    unfold wp in H. destruct (on_failure _ _ l2) as [e l3|e l3|]; [|by destruct H|done].
    destruct H as (He & Hwire & log & (_ & _ & Hv) & Hlog). exists c, log.
    rewrite He, Hwire. split_and!; try done. intros Hc. destruct Hpeer; congruence.
  - unfold free_impl. rewrite ssl_free_objects, Hp. cbn. rewrite delete_insert_id by done.
    by destruct (objects l).
Qed.

(** ** A library that runs *)

Module ToySsl.

(** Objects are numbered; the next number is free by construction, and a call that
    would clash fails. *)
Record t := mk { next : Z; live : Objects }.

Definition with_live (o : Objects) (l : t) : t := mk (next l) o.

Definition ok (h : Z) (x : SslSetting) (l : t) : Z * t := (1, with_live (note h x (live l)) l).

#[global] Instance calls : SslNew t := {
  openssl_4 := false;
  clear_errors l := l;
  ssl_new c l :=
    if bool_decide (o_ssl (live l) !! next l = None)
    then (Some (next l),
          mk (next l + 1)
            (mk_objects (<[next l := [of_context c]]> (o_ssl (live l))) (o_bio (live l))
               (o_asn1 (live l))))
    else (None, l);
  ssl_free h l :=
    with_live (mk_objects (delete h (o_ssl (live l))) (o_bio (live l)) (o_asn1 (live l))) l;
  bio_new_bio_pair _ _ l :=
    if bool_decide (next l ∉ o_bio (live l)) && bool_decide (next l + 1 ∉ o_bio (live l))
    then (Some (next l, next l + 1),
          mk (next l + 2)
            (mk_objects (o_ssl (live l)) ({[next l; next l + 1]} ∪ o_bio (live l))
               (o_asn1 (live l))))
    else (None, l);
  bio_free w l :=
    with_live (mk_objects (o_ssl (live l)) (o_bio (live l) ∖ {[w]}) (o_asn1 (live l))) l;
  ssl_set_bio h i l :=
    with_live (mk_objects (alter (fun log => log ++ [has_bio i]) h (o_ssl (live l)))
                 (o_bio (live l) ∖ {[i]}) (o_asn1 (live l))) l;
  ssl_set_connect_state h l := with_live (note h connects (live l)) l;
  ssl_set_accept_state h l := with_live (note h accepts (live l)) l;
  a2i_IPADDRESS _ l := (None, l);
  asn1_free p l :=
    with_live (mk_objects (o_ssl (live l)) (o_bio (live l)) (o_asn1 (live l) ∖ {[p]})) l;
  set_no_partial_wildcards h l := with_live (note h no_partial_wildcards (live l)) l;
  set1_ip_asc h n := ok h (expects_ip n);
  set1_host h n := ok h (expects_host n);
  ssl_set1_ipaddr h n := ok h (expects_ip n);
  ssl_set1_dnsname h n := ok h (expects_host n);
  set_tlsext_hostname h n l := if (length n <=? 255)%nat then ok h (sends_name n) l else (0, l);
}.

#[global] Instance toy_objects : SslObjects t := live.

#[global] Instance laws : SslNewLaws t.
Proof.
  split; try done.
  - intros c l. cbn. by case_bool_decide.
  - intros a b l. cbn. case_bool_decide; cbn [andb]; [|done]. case_bool_decide; [|done].
    split_and!; [lia|done|done|done].
  - intros h n l. cbn. destruct (_ <=? _)%nat; [done|]. cbn. exists id.
    unfold objects, toy_objects. destruct l as [nx [os ob oa]]. cbn. f_equal.
    symmetry. apply map_eq. intros k. destruct (decide (k = h)) as [->|Hne].
    + rewrite lookup_alter_eq. by destruct (os !! h).
    + by rewrite lookup_alter_ne.
Qed.

End ToySsl.

Definition no_objects : ToySsl.t := ToySsl.mk 1 (mk_objects ∅ ∅ ∅).

(** A client for a host, and one whose name is too long for the extension: the SSL,
    the BIO pair and the check were made by then. *)
Definition long_name : bytes := repeat x61 300.

Lemma engine_made_whole_witness :
  match engine_create (Some (mk_context 9 true)) (lit "mira.example") no_objects with
  | Returns e _ => h_ssl e = 1 /\ h_wire e = 3
  | _ => False
  end /\
  match engine_create (Some (mk_context 9 true)) long_name no_objects with
  | Fails _ l' => objects l' = objects no_objects
  | _ => False
  end.
Proof.
  split; [vm_compute; split; reflexivity|].
  pose proof (engine_made_whole (Some (mk_context 9 true)) long_name no_objects) as H.
  destruct (engine_create _ long_name no_objects) as [e l|e l|] eqn:E; [|exact H|exact H].
  assert (Hno : (match engine_create (Some (mk_context 9 true)) long_name no_objects with
                 | Returns _ _ => false | _ => true end) = true) by (vm_compute; reflexivity).
  rewrite E in Hno. discriminate Hno.
Defined.
