(* ===== verification/TlsStream.v ===== *)
(** * TlsStream: TLS over any stream (tls/include/mira/tls/stream.hpp)

    [tls::Stream] alternates calls of the engine with flushing its ciphertext to
    the underlying stream and feeding it what arrives, followed for any number of
    rounds ([ssl_rounds]).  It is itself a
    [BoundedStream], and keeps the contract when the stream below does. *)

From S2P Require Import Prelude Errors Timers EventLoop Streams LoopIo TlsEngine.

Local Open Scope Z_scope.
Local Open Scope mira_scope.

(** [Stream::State]; the 16 KiB array is scratch. *)
Record Tls (T L : Type) := mk_tls { t_under : T; t_engine : Engine L; t_active : bool }.
Arguments mk_tls {T L} _ _ _.
Arguments t_under {T L} _.
Arguments t_engine {T L} _.
Arguments t_active {T L} _.

(** [Operation], with the span it works on. *)
Module Op.
Inductive t :=
| handshake
| read (n : nat)
| write (source : bytes)
| shutdown.
End Op.

Section TlsStream.
Context {T L : Type} `{BoundedStream T} `{Ssl L}.

Definition set_under (u : T) (s : Tls T L) : Tls T L := mk_tls u (t_engine s) (t_active s).
Definition set_engine (e : Engine L) (s : Tls T L) : Tls T L := mk_tls (t_under s) e (t_active s).
Definition set_tls_active (v : bool) (s : Tls T L) : Tls T L := mk_tls (t_under s) (t_engine s) v.

(** [state.engine.invalidate()] *)
Definition tls_invalidate (s : Tls T L) : Tls T L := set_engine (engine_invalidate (t_engine s)) s.

(** A call of the engine whose failure is returned as it is. *)
Definition on_engine {A} (f : Engine L -> Result A * Engine L) : M (Tls T L) A :=
  fun s => match f (t_engine s) with
           | (Ok a, e) => Returns a (set_engine e s)
           | (Fail err, e) => Fails err (set_engine e s)
           end.

(** The inner loop of [flush]; the local is [offset]. *)
Definition send_round (data : bytes) (o : IoOptions) : M (Tls T L * nat) (option unit) :=
  fun c =>
    let '(s, offset) := c in
    if (offset <? length data)%nat then
      match write_some (drop offset data) o (t_under s) with
      | (Ok n, u) =>
          if (n =? 0)%nat || (length data - offset <? n)%nat
          then Fails (tls_error TlsErrc.protocol_error) (tls_invalidate (set_under u s), offset)
          else Returns None (set_under u s, (offset + n)%nat)
      | (Fail e, u) => Fails e (tls_invalidate (set_under u s), offset)
      end
    else Returns (Some tt) (s, offset).

(** One round of [flush]. *)
Definition flush_round (o : IoOptions) : M (Tls T L) (option unit) :=
  let! drained := on_engine (engine_drain record_size) in
  if (length drained =? 0)%nat then out_ret (Some tt)
  else with_local 0%nat (iter (S (length drained)) (send_round drained o)) ;;; out_ret None.

(** [flush(state, options)]: each round takes bytes out of the BIO. *)
Definition flush (o : IoOptions) : M (Tls T L) unit :=
  fun s => iter (S (bio_pending (e_ssl (t_engine s)))) (flush_round o) s.

(** [receive(state, options)] *)
Definition receive (o : IoOptions) : M (Tls T L) unit :=
  fun s =>
    let capacity := Nat.min record_size (input_capacity (t_engine s)) in
    if (capacity =? 0)%nat then Fails (tls_error TlsErrc.protocol_error) (tls_invalidate s)
    else match read_some capacity o (t_under s) with
         | (Fail e, u) =>
             Fails (if error_eqb e (make_error_code Errc.eof) then tls_error TlsErrc.truncated else e)
               (tls_invalidate (set_under u s))
         | (Ok data, u) =>
             let s := set_under u s in
             if (length data =? 0)%nat then Fails (tls_error TlsErrc.truncated) (tls_invalidate s)
             else if (capacity <? length data)%nat
             then Fails (tls_error TlsErrc.protocol_error) (tls_invalidate s)
             else match engine_feed data (t_engine s) with
                  | (Fail e, eng) => Fails e (tls_invalidate (set_engine eng s))
                  | (Ok n, eng) =>
                      if negb (n =? length data)%nat
                      then Fails (tls_error TlsErrc.protocol_error) (tls_invalidate (set_engine eng s))
                      else Returns tt (set_engine eng s)
                  end
         end.

(** The call of the engine an operation makes. *)
Definition engine_op (op : Op.t) : Engine L -> Result Step * Engine L :=
  match op with
  | Op.handshake => engine_handshake
  | Op.read n => engine_read n
  | Op.write source => engine_write source
  | Op.shutdown => engine_shutdown
  end.

(** One round of [drive]. *)
Definition drive_round (op : Op.t) (o : IoOptions) : M (Tls T L) (option Step) :=
  fun s =>
    match engine_op op (t_engine s) with
    | (Fail error, e) =>
        let s := set_engine e s in
        if error_eqb error (tls_error TlsErrc.invalid_state) then Fails error s
        else match flush o s with
             | Returns _ s | Fails _ s => Fails error s
             | OutOfFuel => OutOfFuel
             end
    | (Ok step, e) =>
        (flush o ;;;
         match status step with
         | Status.complete => out_ret (Some step)
         | Status.eof => out_fail (make_error_code Errc.eof)
         | Status.want_output => out_ret None
         | Status.want_input => receive o ;;; out_ret None
         end) (set_engine e s)
    end.

(** [drive], followed for [ssl_rounds] rounds after the first. *)
Definition drive (op : Op.t) (o : IoOptions) : M (Tls T L) Step :=
  fun s => iter (S (ssl_rounds (e_ssl (t_engine s)))) (drive_round op o) s.

(** [run]: one operation at a time. *)
Definition run (op : Op.t) (o : IoOptions) : M (Tls T L) Step :=
  fun s =>
    if t_active s then Fails (tls_error TlsErrc.operation_in_progress) s
    else match drive op o (set_tls_active true s) with
         | Returns step s => Returns step (set_tls_active false s)
         | Fails e s => Fails e (set_tls_active false s)
         | OutOfFuel => OutOfFuel
         end.

(** [handshake], [shutdown] *)
Definition tls_handshake (o : IoOptions) : M (Tls T L) unit := run Op.handshake o ;;; out_ret tt.
Definition tls_shutdown (o : IoOptions) : M (Tls T L) unit := run Op.shutdown o ;;; out_ret tt.

(** [read_some], [write_some] *)
Definition as_stream {A} (f : Step -> A) (m : M (Tls T L) Step) (s : Tls T L) : Result A * Tls T L :=
  match m s with
  | Returns step s => (Ok (f step), s)
  | Fails e s => (Fail e, s)
  | OutOfFuel => (Fail (make_error_code Errc.internal), s)
  end.

Definition tls_read (n : nat) (o : IoOptions) : Tls T L -> Result bytes * Tls T L :=
  as_stream received (run (Op.read n) o).
Definition tls_write (source : bytes) (o : IoOptions) : Tls T L -> Result nat * Tls T L :=
  as_stream transferred (run (Op.write source) o).

#[export] Instance tls_stream : BoundedStream (Tls T L) := {
  read_some := tls_read;
  write_some := tls_write;
  writev_some := None;
  clock := fun s => clock (t_under s);
}.
End TlsStream.

(** ** What an operation leaves behind *)

Section TlsLaws.
Context {T L : Type} `{StreamLaws T} `{SslLaws L}.

(** A measure of the library that its BIOs do not raise. *)
Context (mu : L -> nat).
Context (Hmu : forall n d l, (mu (bio_read n l).2 <= mu l)%nat /\ (mu (bio_write d l).2 <= mu l)%nat).

Definition tls_ssl (s : Tls T L) : L := e_ssl (t_engine s).
Definition tls_failed (s : Tls T L) : bool := e_failed (t_engine s).

(** Since [s0], [c] has been written to the stream below and the library has
    produced [more]; [c] with what waits in the BIO is what waited then and what
    was produced since. *)
Definition in_step (s0 s : Tls T L) : Prop :=
  exists c more, wire (t_under s) = wire (t_under s0) ++ c /\
    ssl_produced (tls_ssl s) = ssl_produced (tls_ssl s0) ++ more /\
    bio_out (tls_ssl s0) ++ more = c ++ bio_out (tls_ssl s).

(** The same, or an engine that will not be driven again, with a prefix of the
    ciphertext written. *)
Definition tls_inv (s0 s : Tls T L) : Prop :=
  in_step s0 s \/
  tls_failed s = true /\
  exists c more, wire (t_under s) = wire (t_under s0) ++ c /\
    ssl_produced (tls_ssl s) = ssl_produced (tls_ssl s0) ++ more /\
    c `prefix_of` bio_out (tls_ssl s0) ++ more.

Lemma in_step_refl s : in_step s s.
Proof. exists [], []. by rewrite !app_nil_r. Qed.

(** The library's view has not changed, and the measure is not raised. *)
Definition same_ssl (s s' : Tls T L) : Prop :=
  ssl_produced (tls_ssl s') = ssl_produced (tls_ssl s) /\
  ssl_plain (tls_ssl s') = ssl_plain (tls_ssl s) /\
  (mu (tls_ssl s') <= mu (tls_ssl s))%nat.

(** The inner loop writes the bytes, or a prefix and gives the engine up. *)
Lemma send_wp data o (s : Tls T L) :
  wp (with_local 0%nat (iter (S (length data)) (send_round data o))) s
    (fun _ s' => s' = set_under (t_under s') s /\ wire (t_under s') = wire (t_under s) ++ data)
    (fun _ s' => s' = tls_invalidate (set_under (t_under s') s) /\
       exists n, wire (t_under s') = wire (t_under s) ++ take n data).
Proof.
  set (I := fun c : Tls T L * nat => c.1 = set_under (t_under c.1) s /\ (c.2 <= length data)%nat /\
    wire (t_under c.1) = wire (t_under s) ++ take c.2 data).
  assert (wp (iter (S (length data)) (send_round data o)) (s, 0%nat)
    (fun _ c => I c /\ (length data <= c.2)%nat)
    (fun _ c => c.1 = tls_invalidate (set_under (t_under c.1) s) /\
       exists n, wire (t_under c.1) = wire (t_under s) ++ take n data)) as Hiter.
  - apply (iter_wp _ I (fun c => (length data - c.2)%nat));
      [|by split_and!; [destruct s|simpl; lia|rewrite take_0, app_nil_r]|simpl; lia].
    intros [s1 offset] (Hs1 & Hoff & Hw). unfold wp, send_round. simpl in Hs1, Hoff, Hw.
    assert (forall u, set_under u s1 = set_under u s) as Hset by (intros; by rewrite Hs1).
    destruct (offset <? length data)%nat eqn:E; bool_facts; [|by split].
    pose proof (write_law o (drop offset data) (t_under s1)) as Hl. cbv beta in Hl.
    destruct (write_some (drop offset data) o (t_under s1)) as [[n|e] u].
    + destruct Hl as [Hn Hu]. rewrite length_drop in Hn.
      assert (wire u = wire (t_under s) ++ take (offset + n) data) as Hu'.
      { rewrite Hu, Hw, <- app_assoc, sub_take_drop. f_equal.
        rewrite <- (take_drop offset (take (offset + n) data)) at 2.
        by rewrite take_take, Nat.min_l by lia. }
      destruct (_ || _) eqn:Eb; [simpl; split; [by rewrite Hset|by exists (offset + n)%nat]|].
      bool_facts. split; [|simpl; lia]. split_and!; simpl; [by rewrite Hset|lia|done].
    + destruct Hl as (n & Hn & Hu). rewrite length_drop in Hn. simpl. split; [by rewrite Hset|].
      exists (offset + n)%nat. simpl. rewrite Hu, Hw, <- app_assoc, sub_take_drop. f_equal.
      rewrite <- (take_drop offset (take (offset + n) data)) at 2.
      by rewrite take_take, Nat.min_l by lia.
  - unfold wp, with_local in *. destruct (iter _ _ _) as [[] [s' k]|e [s' k]|]; try done.
    destruct Hiter as [(Hs & Hk & Hw) Hle]. simpl in *. split; [done|].
    by rewrite Hw, firstn_all2 by lia.
Qed.
(** [drain] takes the front of the BIO; when it fails the engine is given up. *)
Lemma engine_drain_spec n (e : Engine L) :
  (0 < n)%nat ->
  let '(r, e') := engine_drain n e in
  let l := e_ssl e in let l' := e_ssl e' in
  ssl_produced l' = ssl_produced l /\ ssl_plain l' = ssl_plain l /\
  (mu l' <= mu l)%nat /\
  match r with
  | Ok data => e_failed e' = e_failed e /\ bio_out l = data ++ bio_out l' /\ (data = [] -> bio_out l = [])
  | Fail _ => e_failed e' = true /\ bio_out l' = bio_out l
  end.
Proof.
  intros Hn. unfold engine_drain. rewrite bio_pending_law.
  set (size := Nat.min n _). destruct (size =? 0)%nat eqn:E; bool_facts.
  { split_and!; try done. intros _. apply length_zero_iff_nil. unfold size in E.
    assert (0 < buffer_capacity)%nat by (unfold buffer_capacity; lia). lia. }
  pose proof (bio_read_law size (e_ssl e)) as Hl. destruct (Hmu size [] (e_ssl e)) as [Hpa _].
  destruct (bio_read size (e_ssl e)) as [[count data] l]. simpl in Hpa.
  destruct Hl as (Hp & Hpl & Hout). destruct (count <=? 0); simpl; [by split_and!|].
  destruct Hout as (Hout & Hlen & _). split_and!; try done. intros ->. simpl in Hlen. lia.
Qed.

Lemma flush_round_wp w0 o (s : Tls T L) :
  in_step w0 s ->
  wp (flush_round o) s
    (fun r s' => in_step w0 s' /\ same_ssl s s' /\ tls_failed s' = tls_failed s /\
       match r with
       | Some _ => bio_out (tls_ssl s') = []
       | None => (length (bio_out (tls_ssl s')) < length (bio_out (tls_ssl s)))%nat
       end)
    (fun _ s' => tls_inv w0 s' /\ same_ssl s s' /\ tls_failed s' = true).
Proof.
  intros (c & more & Hw & Hm & Hc). unfold flush_round. apply wp_bind. unfold wp at 1, on_engine.
  pose proof (engine_drain_spec record_size (t_engine s) ltac:(unfold record_size; lia)) as Hd.
  unfold tls_ssl in *.
  destruct (engine_drain record_size (t_engine s)) as [[data|err] e]; cbv zeta in Hd;
    destruct Hd as (Hp & Hpl & Hpa & Hout).
  - destruct Hout as (Hf & Hout & Hnil). destruct (length data =? 0)%nat eqn:E; bool_facts.
    { apply length_zero_iff_nil in E as ->. simpl in Hout. apply wp_ret. split_and!; try done.
      - exists c, more. unfold tls_ssl. simpl. by rewrite Hp, <- Hout.
      - unfold tls_ssl. simpl. rewrite <- Hout. by apply Hnil. }
    apply wp_bind. eapply wp_mono; [apply send_wp| |]; simpl.
    + intros _ s' [-> Hs']. apply wp_ret. split_and!; try done.
      * exists (c ++ data), more. unfold tls_ssl. simpl. simpl in Hs'.
        by rewrite Hs', Hw, Hp, <- !app_assoc, <- Hout.
      * unfold tls_ssl. simpl. rewrite Hout, length_app. lia.
    + intros err s' [-> [n Hs']]. split_and!; try done. right. split; [done|].
      exists (c ++ take n data), more. simpl in Hs' |- *. unfold tls_ssl. simpl.
      rewrite Hs', Hw, Hp, <- app_assoc, Hc, Hout. split_and!; [done|done|]. apply prefix_app.
      exists (drop n data ++ bio_out (e_ssl e)). by rewrite app_assoc, take_drop.
  - destruct Hout as (Hf & Hout). split_and!; try done. left. exists c, more.
    unfold tls_ssl. simpl. by rewrite Hp, Hout.
Qed.

Lemma same_ssl_trans (s1 s2 s3 : Tls T L) : same_ssl s1 s2 -> same_ssl s2 s3 -> same_ssl s1 s3.
Proof. unfold same_ssl. intros (-> & -> & ?) (-> & -> & ?). split_and!; [done|done|lia]. Qed.

(** [flush] leaves nothing in the BIO, or gives the engine up. *)
Lemma flush_wp w0 o (s : Tls T L) :
  in_step w0 s ->
  wp (flush o) s
    (fun _ s' => in_step w0 s' /\ same_ssl s s' /\ tls_failed s' = tls_failed s /\
                 bio_out (tls_ssl s') = [])
    (fun _ s' => tls_inv w0 s' /\ same_ssl s s' /\ tls_failed s' = true).
Proof.
  intros Hs. unfold wp, flush. rewrite bio_pending_law.
  apply (iter_wp (flush_round o) (fun s' => in_step w0 s' /\ same_ssl s s' /\ tls_failed s' = tls_failed s)
           (fun s' => length (bio_out (tls_ssl s')))).
  - intros s1 (Hs1 & Hss & Hf). eapply wp_mono; [by apply flush_round_wp| |].
    + intros [[]|] s2 (Hs2 & Hss2 & Hf2 & Hout); split_and!; eauto using same_ssl_trans; congruence.
    + intros e s2 (Hs2 & Hss2 & Hf2). split_and!; eauto using same_ssl_trans.
  - split_and!; try done.
  - unfold tls_ssl. lia.
Qed.

(** [receive] hands the engine what arrived; every failure gives it up. *)
Lemma receive_wp w0 o (s : Tls T L) :
  in_step w0 s ->
  wp (receive o) s
    (fun _ s' => in_step w0 s' /\ same_ssl s s' /\ tls_failed s' = false)
    (fun _ s' => tls_inv w0 s' /\ same_ssl s s' /\ tls_failed s' = true).
Proof.
  intros Hs. pose proof Hs as (c & more & Hw & Hm & Hc). unfold wp, receive, input_capacity.
  destruct (e_failed (t_engine s)) eqn:Ef.
  { rewrite Nat.min_0_r. simpl. split_and!; [by left|done|done]. }
  set (capacity := Nat.min _ _). destruct (capacity =? 0)%nat; [split_and!; [by left|done|done]|].
  pose proof (read_wire capacity o (t_under s)) as Hr.
  destruct (read_some capacity o (t_under s)) as [[data|err] u]; simpl in Hr.
  2: { split_and!; [left; exists c, more; simpl; by rewrite Hr|done|done]. }
  destruct (length data =? 0)%nat eqn:E0; [split_and!; [left; exists c, more; simpl; by rewrite Hr|done|done]|].
  destruct (capacity <? length data)%nat; [split_and!; [left; exists c, more; simpl; by rewrite Hr|done|done]|].
  unfold engine_feed. simpl. rewrite Ef, E0.
  destruct (Nat.min (length data) _ =? 0)%nat.
  { split_and!; [left; exists c, more; simpl; by rewrite Hr|done|done]. }
  set (piece := take _ data). pose proof (bio_write_law piece (tls_ssl s)) as Hl. unfold tls_ssl in Hl.
  destruct (Hmu 0 piece (e_ssl (t_engine s))) as [_ Hpa].
  destruct (bio_write piece (e_ssl (t_engine s))) as [count l]. simpl in Hpa. destruct Hl as (Hp & Hout & Hpl).
  assert (forall f, in_step w0 (set_engine (mk_engine l (e_ready (t_engine s)) f
    (e_sent_shutdown (t_engine s)) (e_peer_closed (t_engine s))) (set_under u s))) as Hstep.
  { intros f. exists c, more. unfold tls_ssl in *. simpl. by rewrite Hr, Hp, Hout. }
  destruct (count <=? 0); [split_and!; [left; apply Hstep|done|done]|].
  destruct (negb _); split_and!; try done; [left|]; apply Hstep.
Qed.
(** What a completed operation reports, given the application data the library
    had accepted before and has accepted now. *)
Definition op_result (op : Op.t) (step : Step) (p p' : bytes) : Prop :=
  match op with
  | Op.read n => p' = p /\ (length (received step) <= n)%nat /\ (received step = [] -> n = 0%nat)
  | Op.write d => (transferred step <= length d)%nat /\ p' = p ++ take (transferred step) d
  | _ => p' = p
  end.

(** What one that fails may have had accepted. *)
Definition op_took (op : Op.t) (p p' : bytes) : Prop :=
  match op with
  | Op.write d => exists n, (n <= length d)%nat /\ p' = p ++ take n d
  | _ => p' = p
  end.

Lemma op_took_none op p : op_took op p p.
Proof. destruct op; try done. exists 0%nat. rewrite take_0, app_nil_r. split; [lia|done]. Qed.

Lemma op_result_took op step p p' : op_result op step p p' -> op_took op p p'.
Proof. destruct op; simpl; [done|by intros [-> _]| |done]. intros [? ->]. by eexists. Qed.

Lemma classify_plain result n data (e : Engine L) l :
  e_ssl (classify result n data (set_ssl l e)).2 = l.
Proof. unfold classify. by repeat (destruct (_ =? _)). Qed.

Lemma no_eof_ssl r : e_ssl (no_eof r).2 = e_ssl (L := L) r.2.
Proof. by destruct r as [[[[] ? ?]|] ?]. Qed.

Lemma engine_op_stepped op (e : Engine L) :
  let r := engine_op op e in stepped e r.1 r.2 /\
  match r.1 with
  | Ok step => if decide (status step = Status.complete)
               then op_result op step (ssl_plain (e_ssl e)) (ssl_plain (e_ssl r.2))
               else ssl_plain (e_ssl r.2) = ssl_plain (e_ssl e)
  | Fail _ => ssl_plain (e_ssl r.2) = ssl_plain (e_ssl e)
  end.
Proof.
  destruct op as [|n|d|]; simpl.
  - split; [apply engine_handshake_stepped|].
    assert (ssl_plain (e_ssl (engine_handshake e).2) = ssl_plain (e_ssl e)) as ->.
    { unfold engine_handshake. destruct (_ || _ || _); [done|]. destruct (e_ready e); [done|].
      pose proof (handshake_law (e_ssl e)) as Hl. destruct (ssl_do_handshake (e_ssl e)) as [r l].
      destruct Hl as (_ & Hpl). pose proof (classify_plain r 0 [] e l) as Hc.
      destruct (classify r 0 [] (set_ssl l e)) as [step e']. rewrite no_eof_ssl. simpl in *.
      destruct step as [[[] ? ?]|]; simpl; congruence. }
    destruct (engine_handshake e).1; [by case_decide|done].
  - destruct (engine_read_stepped n e) as (Hs & Hpl & Hr). split; [done|].
    destruct (engine_read n e) as [[[[] t data]|err] e']; simpl in *; try done.
  - destruct (engine_write_stepped d e) as (Hs & Hr). split; [done|].
    destruct (engine_write d e) as [[[[] t data]|err] e']; simpl in *; done.
  - split; [apply engine_shutdown_stepped|].
    assert (ssl_plain (e_ssl (engine_shutdown e).2) = ssl_plain (e_ssl e)) as ->.
    { unfold engine_shutdown. destruct (_ || _); [done|]. destruct (e_sent_shutdown e); [done|].
      pose proof (shutdown_law (e_ssl e)) as Hl. destruct (ssl_shutdown (e_ssl e)) as [r l].
      destruct Hl as (_ & Hpl). destruct (0 <=? r); [done|].
      by rewrite no_eof_ssl, classify_plain. }
    destruct (engine_shutdown e).1; [by case_decide|done].
Qed.

Lemma in_step_produces w0 (s : Tls T L) e :
  in_step w0 s -> produces ssl_produced bio_out (tls_ssl s) (e_ssl e) -> in_step w0 (set_engine e s).
Proof.
  intros (c & more & Hw & Hm & Hc) (new & Hp & Ho). exists c, (more ++ new). unfold tls_ssl in *. simpl.
  by rewrite Hp, Ho, Hm, !app_assoc, Hc.
Qed.

(** Why an operation may fail without giving the engine up. *)
Definition refusal_or_eof (e : Error) : Prop :=
  e = tls_error TlsErrc.invalid_state \/ e = make_error_code Errc.eof.

Definition drive_failed w0 op p (err : Error) (s' : Tls T L) : Prop :=
  tls_inv w0 s' /\ op_took op p (ssl_plain (tls_ssl s')) /\ (refusal_or_eof err \/ tls_failed s' = true).

Lemma drive_round_wp w0 op o (s : Tls T L) :
  in_step w0 s ->
  let p := ssl_plain (tls_ssl s) in
  wp (drive_round op o) s
    (fun r s' => in_step w0 s' /\ tls_failed s' = false /\
       match r with
       | Some step => op_result op step p (ssl_plain (tls_ssl s')) /\ bio_out (tls_ssl s') = []
       | None => ssl_plain (tls_ssl s') = p
       end)
    (drive_failed w0 op p).
Proof.
  intros Hs p. unfold drive_round, wp at 1. pose proof (engine_op_stepped op (t_engine s)) as Hop.
  cbv zeta in Hop. destruct (engine_op op (t_engine s)) as [[step|err] e]; simpl in Hop; destruct Hop as [Hst Hpl].
  - destruct Hst as (_ & Hf & Hpr). pose proof (in_step_produces w0 s e Hs Hpr) as He.
    assert (op_took op p (ssl_plain (e_ssl e))) as Htook.
    { case_decide; [by eapply op_result_took|]. rewrite Hpl. apply op_took_none. }
    apply wp_bind. eapply wp_mono; [by apply flush_wp| |].
    2: { intros err s1 (Hi & (_ & Hp1 & _) & Hf1). split_and!; [done|by rewrite Hp1|by right]. }
    intros _ s1 (Hi1 & (_ & Hp1 & _) & Hf1 & Hout1). unfold tls_failed in Hf1. simpl in Hf1.
    change (tls_ssl (set_engine e s)) with (e_ssl e) in *.
    assert (status step <> Status.complete -> ssl_plain (e_ssl e) = p) as Hsame
      by (intros; by rewrite decide_False in Hpl by done).
    destruct (status step) eqn:Est.
    + apply wp_ret. unfold tls_failed. split_and!; [done|congruence|by rewrite Hp1|done].
    + specialize (Hsame ltac:(done)). apply wp_bind.
      eapply wp_mono; [by apply receive_wp| |].
      * intros _ s2 (Hi2 & (_ & Hp2 & _) & Hf2). apply wp_ret. split_and!; [done|done|congruence].
      * intros err s2 (Hi & (_ & Hp2 & _) & Hf2). split_and!; [done| |by right].
        rewrite Hp2, Hp1. done.
    + specialize (Hsame ltac:(done)). apply wp_ret. unfold tls_failed.
      split_and!; [done|congruence|congruence].
    + split_and!; [by left|by rewrite Hp1|left; by right].
  - destruct Hst as [[-> ->]|(Hne & Hf & Hpr)].
    { unfold error_eqb. rewrite bool_decide_true by done. split_and!; [left; by destruct s|apply op_took_none|left; by left]. }
    unfold error_eqb. rewrite bool_decide_false by done.
    pose proof (flush_wp w0 o (set_engine e s) (in_step_produces w0 s e Hs Hpr)) as Hfl. unfold wp in Hfl.
    assert (op_took op p (ssl_plain (e_ssl e))) as Htook by (rewrite Hpl; apply op_took_none).
    destruct (flush o (set_engine e s)) as [[] s1|err1 s1|]; [| |done].
    + destruct Hfl as (Hi1 & (_ & Hp1 & _) & Hf1 & _). split_and!; [by left|by rewrite Hp1|right; by rewrite Hf1].
    + destruct Hfl as (Hi1 & (_ & Hp1 & _) & Hf1). split_and!; [done|by rewrite Hp1|by right].
Qed.

Lemma drive_wlp w0 op o (s : Tls T L) :
  in_step w0 s ->
  let p := ssl_plain (tls_ssl s) in
  wlp (drive op o) s
    (fun step s' => in_step w0 s' /\ tls_failed s' = false /\
       op_result op step p (ssl_plain (tls_ssl s')) /\ bio_out (tls_ssl s') = [])
    (drive_failed w0 op p).
Proof.
  intros Hs p. unfold wlp, drive.
  apply (iter_wlp (drive_round op o) (fun s' => in_step w0 s' /\ ssl_plain (tls_ssl s') = p)); [|done].
  intros s1 [Hs1 Hp1]. apply wp_wlp. eapply wp_mono; [by apply drive_round_wp| |].
  - rewrite Hp1. intros [step|] s2 (Hs2 & Hf2 & Hr); [by destruct Hr|]. done.
  - by rewrite Hp1.
Qed.

(** A given-up engine is never driven again. *)
Lemma drive_dead op o (s : Tls T L) :
  tls_failed s = true -> drive op o s = Fails (tls_error TlsErrc.invalid_state) s.
Proof.
  intros Hf. unfold tls_failed in Hf. unfold drive. simpl. unfold drive_round.
  assert (engine_op op (t_engine s) = (Fail (tls_error TlsErrc.invalid_state), t_engine s)) as ->.
  { destruct op; simpl; unfold engine_handshake, engine_read, engine_write, engine_shutdown; by rewrite Hf. }
  unfold error_eqb. rewrite bool_decide_true by done. by destruct s.
Qed.

Lemma run_wlp op o (s : Tls T L) :
  let p := ssl_plain (tls_ssl s) in
  wlp (run op o) s
    (fun step s' => in_step s s' /\ tls_failed s' = false /\ bio_out (tls_ssl s') = [] /\
       op_result op step p (ssl_plain (tls_ssl s')))
    (fun e s' => tls_inv s s' /\ op_took op p (ssl_plain (tls_ssl s')) /\
       (e = tls_error TlsErrc.operation_in_progress \/ refusal_or_eof e \/ tls_failed s' = true)).
Proof.
  intros p. unfold wlp, run. destruct (t_active s).
  { split_and!; [left; apply in_step_refl|apply op_took_none|by left]. }
  pose proof (drive_wlp s op o (set_tls_active true s) (in_step_refl s)) as Hd. unfold wlp in Hd.
  destruct (drive op o (set_tls_active true s)) as [step s'|e s'|]; [| |done].
  - by destruct Hd as (Hs' & Hf & Hr & Hout).
  - destruct Hd as (Hi' & Ht & He). split_and!; [by destruct Hi'; [left|right]|done|by right].
Qed.

(** *** Going round *)

(** A round after which an operation goes on: the engine asked to write, and the
    ciphertext went out, or also to read, and bytes arrived and were fed to it. *)
Definition asked_again (op : Op.t) (o : IoOptions) (s s' : Tls T L) : Prop :=
  exists step e s1, engine_op op (t_engine s) = (Ok step, e) /\
    flush o (set_engine e s) = Returns tt s1 /\
    (status step = Status.want_output /\ s' = s1 \/
     status step = Status.want_input /\ receive o s1 = Returns tt s').

(** Every round that was followed ended in that way. *)
Definition asked_throughout (op : Op.t) (o : IoOptions) (s : Tls T L) : Prop :=
  exists s', nsteps (asked_again op o) (S (ssl_rounds (tls_ssl s))) s s'.

Lemma drive_round_none op o (s s' : Tls T L) :
  drive_round op o s = Returns None s' -> asked_again op o s s'.
Proof.
  unfold drive_round, asked_again. destruct (engine_op op (t_engine s)) as [[step|err] e].
  - unfold out_bind. destruct (flush o (set_engine e s)) as [[] s1|err s1|] eqn:Ef; [|done|done].
    intros Hr. exists step, e, s1. split; [done|]. split; [done|]. destruct (status step); try done.
    + right. split; [done|]. destruct (receive o s1) as [[] s2|err s2|]; [|done|done]. by injection Hr as ->.
    + left. by injection Hr as ->.
  - destruct (error_eqb _ _); [done|]. by destruct (flush o (set_engine e s)).
Qed.

Lemma drive_round_ends op o (s : Tls T L) : drive_round op o s <> OutOfFuel.
Proof.
  pose proof (drive_round_wp s op o s (in_step_refl s)) as Hw. unfold wp in Hw.
  by destruct (drive_round op o s).
Qed.

Lemma drive_asked op o (s : Tls T L) : drive op o s = OutOfFuel -> asked_throughout op o s.
Proof.
  intros Hr. apply iter_goes_on in Hr as [s' Hs']; [|apply drive_round_ends].
  exists s'. revert Hs'. fold (tls_ssl s). generalize (S (ssl_rounds (tls_ssl s))). intros n Hs'.
  induction Hs' as [|n s1 s2 s3 H12 _ IH]; econstructor; [|done]. by apply drive_round_none.
Qed.

(** Going round does not raise the measure after the engine was called. *)
Lemma asked_again_measure op o (s s' : Tls T L) :
  asked_again op o s s' -> exists step e, engine_op op (t_engine s) = (Ok step, e) /\
    wants (status step) = true /\ (mu (tls_ssl s') <= mu (e_ssl e))%nat.
Proof.
  intros (step & e & s1 & Hop & Hf & Hr). exists step, e. split; [done|].
  pose proof (flush_wp (set_engine e s) o (set_engine e s) (in_step_refl _)) as Hfl. unfold wp in Hfl.
  rewrite Hf in Hfl. destruct Hfl as (_ & (_ & _ & Hm) & _). destruct Hr as [[-> ->]|[-> Hr]]; [done|].
  split; [done|]. pose proof (receive_wp s1 o s1 (in_step_refl _)) as Hre. unfold wp in Hre.
  rewrite Hr in Hre. destruct Hre as (_ & (_ & _ & Hm') & _). change (tls_ssl (set_engine e s)) with (e_ssl e) in Hm. lia.
Qed.
End TlsLaws.

(** The measure can be left out. *)
Definition no_measure {L : Type} (l : L) : nat := 0.

Lemma no_measure_bio {L : Type} {HL : Ssl L} n d (l : L) :
  (no_measure (bio_read n l).2 <= no_measure l)%nat /\ (no_measure (bio_write d l).2 <= no_measure l)%nat.
Proof. by split. Qed.

(** With a patient library an operation ends. *)
Section TlsEnds.
Context {T L : Type} `{StreamLaws T} `{SslLaws L} `{!SslPatient L}.

Lemma engine_op_patient op (e : Engine L) : less_patient e (engine_op op e).
Proof.
  destruct op; [apply engine_handshake_patient|apply engine_read_patient
    |apply engine_write_patient|apply engine_shutdown_patient].
Qed.

Lemma run_ends op o (s : Tls T L) : run op o s <> OutOfFuel.
Proof.
  unfold run. destruct (t_active s); [done|].
  assert (drive op o (set_tls_active true s) <> OutOfFuel) as Hd; [|by destruct (drive _ _ _)].
  apply (iter_ends _ (fun s => ssl_rounds (tls_ssl s))); [|apply Nat.lt_succ_diag_r]. intros s1.
  pose proof (drive_round_ends no_measure no_measure_bio op o s1) as He.
  destruct (drive_round op o s1) as [[step|] s2|e s2|] eqn:Er; try done.
  apply drive_round_none, (asked_again_measure ssl_rounds bio_patient) in Er
    as (step & e & Hop & Hw & Hle).
  pose proof (engine_op_patient op (t_engine s1)) as Hp. rewrite Hop in Hp. specialize (Hp Hw).
  simpl in Hp. unfold tls_ssl in *. lia.
Qed.

Lemma run_wp op o (s : Tls T L) :
  let p := ssl_plain (tls_ssl s) in
  wp (run op o) s
    (fun step s' => in_step s s' /\ tls_failed s' = false /\ bio_out (tls_ssl s') = [] /\
       op_result op step p (ssl_plain (tls_ssl s')))
    (fun e s' => tls_inv s s' /\ op_took op p (ssl_plain (tls_ssl s')) /\
       (e = tls_error TlsErrc.operation_in_progress \/ refusal_or_eof e \/ tls_failed s' = true)).
Proof. intros p. apply wlp_wp; [by apply (run_wlp no_measure no_measure_bio)|apply run_ends]. Qed.
End TlsEnds.

(** ** TLS keeps the contract of a stream *)

Section TlsStreamLaws.
Context {T L : Type} `{StreamLaws T} `{SslLaws L} `{!SslPatient L}.

(** What a TLS stream accepts is what the library accepts as application data. *)
Definition tls_wire (s : Tls T L) : bytes := ssl_plain (tls_ssl s).

Lemma as_stream_wp {A} (f : Step -> A) (m : M (Tls T L) Step) s (Q : Step -> Tls T L -> Prop) R :
  wp m s Q (fun _ => R) ->
  match as_stream f m s with
  | (Ok a, s') => exists step, a = f step /\ Q step s'
  | (Fail _, s') => R s'
  end.
Proof. unfold wp, as_stream. destruct (m s) as [step s'|e s'|]; naive_solver. Qed.

Lemma tls_read_law n o (s : Tls T L) :
  match tls_read n o s with
  | (Ok d, s') => tls_wire s' = tls_wire s /\ (length d <= n)%nat /\ (d = [] -> n = 0%nat)
  | (Fail _, s') => tls_wire s' = tls_wire s
  end.
Proof.
  pose proof (as_stream_wp received (run (Op.read n) o) s
    (fun step s' => op_result (Op.read n) step (tls_wire s) (tls_wire s'))
    (fun s' => tls_wire s' = tls_wire s)) as Hw. unfold tls_read.
  destruct (as_stream received (run (Op.read n) o) s) as [[d|e] s'].
  - destruct Hw as (step & -> & Hr); [|done]. eapply wp_mono; [apply run_wp|naive_solver|naive_solver].
  - apply Hw. eapply wp_mono; [apply run_wp|naive_solver|naive_solver].
Qed.

Lemma tls_write_law o : write_accepts tls_wire (fun d s => tls_write (T := T) (L := L) d o s).
Proof.
  intros d s. pose proof (as_stream_wp transferred (run (Op.write d) o) s
    (fun step s' => op_result (Op.write d) step (tls_wire s) (tls_wire s'))
    (fun s' => op_took (Op.write d) (tls_wire s) (tls_wire s'))) as Hw. unfold tls_write.
  destruct (as_stream transferred (run (Op.write d) o) s) as [[n|e] s'].
  - destruct Hw as (step & -> & Hr); [|done]. eapply wp_mono; [apply run_wp|naive_solver|naive_solver].
  - apply Hw. eapply wp_mono; [apply run_wp|naive_solver|naive_solver].
Qed.

#[export] Instance tls_laws : StreamLaws (Tls T L).
Proof.
  refine {| wire := tls_wire |}.
  - intros n o s d s' Hr. pose proof (tls_read_law n o s) as Hl. simpl in Hr. rewrite Hr in Hl. apply Hl.
  - intros n o s. pose proof (tls_read_law n o s) as Hl. simpl.
    destruct (tls_read n o s) as [[d|e] s']; [apply Hl|done].
  - intros o. apply tls_write_law.
  - done.
Defined.
End TlsStreamLaws.

(** ** Writing through the layers *)

Section TlsWrites.
Context {T L : Type} `{StreamLaws T} `{SslLaws L} `{!SslPatient L}.

Lemma in_step_trans (s0 s1 s2 : Tls T L) : in_step s0 s1 -> in_step s1 s2 -> in_step s0 s2.
Proof.
  intros (c & m & Hw & Hm & Hc) (c' & m' & Hw' & Hm' & Hc'). exists (c ++ c'), (m ++ m').
  split_and!; [by rewrite Hw', Hw, app_assoc|by rewrite Hm', Hm, app_assoc|].
  by rewrite app_assoc, Hc, <- !app_assoc, Hc'.
Qed.

Lemma tls_inv_trans (s0 s1 s2 : Tls T L) : in_step s0 s1 -> tls_inv s1 s2 -> tls_inv s0 s2.
Proof.
  intros Hs [Hi|(Hf & c' & m' & Hw' & Hm' & Hc')]; [left; by eapply in_step_trans|right].
  destruct Hs as (c & m & Hw & Hm & Hc). split; [done|]. exists (c ++ c'), (m ++ m').
  split_and!; [by rewrite Hw', Hw, app_assoc|by rewrite Hm', Hm, app_assoc|].
  rewrite app_assoc, Hc, <- app_assoc. by apply prefix_app.
Qed.

Lemma tls_write_step d o (s : Tls T L) :
  match tls_write d o s with
  | (Ok _, s') => in_step s s' /\ bio_out (tls_ssl s') = []
  | (Fail _, s') => tls_inv s s'
  end.
Proof.
  pose proof (as_stream_wp transferred (run (Op.write d) o) s
    (fun _ s' => in_step s s' /\ bio_out (tls_ssl s') = []) (tls_inv s)) as Hw. unfold tls_write.
  destruct (as_stream transferred (run (Op.write d) o) s) as [[n|e] s'].
  - destruct Hw as (step & _ & Hr); [|done]. eapply wp_mono; [apply run_wp|naive_solver|naive_solver].
  - apply Hw. eapply wp_mono; [apply run_wp|naive_solver|naive_solver].
Qed.

(** All the ciphertext of a whole transfer goes out, in order. *)
Lemma tls_write_all_step source o (s : Tls T L) :
  wp (write_all source o) s
    (fun _ s' => in_step s s' /\ (source <> [] -> bio_out (tls_ssl s') = [])) (fun _ => tls_inv s).
Proof.
  pose proof (write_all_writes wire (fun d => write_some d o) source s (write_law o)) as Hw.
  unfold writes, wp, write_all, write_all_with, with_local in *.
  assert (forall fuel s1 written, in_step s s1 -> (written <> 0%nat -> bio_out (tls_ssl s1) = []) ->
    match iter fuel (write_all_round (fun d => write_some d o) source) (s1, written) with
    | Returns _ (s', _) => in_step s s' /\ (source <> [] -> bio_out (tls_ssl s') = [])
    | Fails _ (s', _) => tls_inv s s'
    | OutOfFuel => True
    end) as Hiter; [|specialize (Hiter (S (length source)) s 0%nat (in_step_refl s) ltac:(done));
      destruct (iter _ _ _) as [? []|? []|]; done].
  intros fuel. induction fuel as [|fuel IH]; intros s1 written Hs Hout; [done|].
  simpl. unfold write_all_round at 1, out_bind, out_get, await. simpl.
  destruct (written <? length source)%nat eqn:E; bool_facts; simpl.
  - pose proof (tls_write_step (drop written source) o s1) as Hst.
    destruct (tls_write (drop written source) o s1) as [[n|e] s2]; [|by eapply tls_inv_trans].
    destruct Hst as [Hst Hz]. pose proof (in_step_trans _ _ _ Hs Hst) as Hs2. simpl. unfold require.
    destruct (negb _); [|by left]. by apply IH.
  - split; [done|]. intros Hne. apply Hout. destruct source; [done|simpl in E; lia].
Qed.
End TlsWrites.

(** C25: what a TLS operation does to the ciphertext.  Over any stream that keeps
    the contract and any library that keeps its own, an operation that returns has
    written to the stream below exactly what was waiting before and what the
    library produced since, in order, with nothing left behind; it reports at most
    the bytes asked for, and the count of a prefix the library accepted.  One that
    fails has written a prefix of the ciphertext, and except for a refusal and the
    peer's orderly end the engine is then given up: every later operation is
    refused with [invalid_state] and writes nothing.  That an operation returns is
    not claimed, since the library may go on asking; but one that is still going
    after any number of rounds was asked for more in each of them, had its
    ciphertext written, and received bytes whenever it was to. *)
Theorem tls_operation_exact {T L : Type} {HT : BoundedStream T} {LT : StreamLaws T}
    {HL : Ssl L} {LL : SslLaws L} (op : Op.t) (o : IoOptions) (s : Tls T L) :
  let p := ssl_plain (tls_ssl s) in
  match run op o s with
  | Returns step s' =>
      in_step s s' /\ bio_out (tls_ssl s') = [] /\ tls_failed s' = false /\
      op_result op step p (ssl_plain (tls_ssl s'))
  | Fails e s' =>
      tls_inv s s' /\ op_took op p (ssl_plain (tls_ssl s')) /\
      (e = tls_error TlsErrc.operation_in_progress \/ refusal_or_eof e \/ tls_failed s' = true)
  | OutOfFuel => asked_throughout op o (set_tls_active true s)
  end /\
  (tls_failed s = true -> t_active s = false ->
   run op o s = Fails (tls_error TlsErrc.invalid_state) s).
Proof.
  intros p. split.
  - pose proof (run_wlp no_measure no_measure_bio op o s) as Hr. unfold wlp in Hr.
    destruct (run op o s) as [step s'|e s'|] eqn:Er; [naive_solver|naive_solver|].
    unfold run in Er. destruct (t_active s); [done|]. apply (drive_asked no_measure no_measure_bio).
    by destruct (drive op o (set_tls_active true s)).
  - intros Hf Ha. unfold run. rewrite Ha, drive_dead by done. destruct s as [u e a]. simpl in *. by rewrite Ha.
Qed.

(** C31: TLS over TCP, down to the kernel.  [write_all] over a TLS
    stream over a socket ends if the kernel and the library put it off only finitely
    often ([Patient], [SslPatient], which is all that is assumed of them beyond their
    contracts); when it succeeds the library has accepted exactly
    the source as application data, and the kernel has been handed, in order and
    without a gap, the ciphertext that was waiting and all that the library has
    produced since.  When it fails, a prefix of the source was accepted and a
    prefix of that ciphertext handed over. *)
Theorem write_all_over_tls {K L : Type} {HK : Kernel K} {fd : Z} {LK : DescriptorLaws K fd}
    {PK : Patient K fd} {HL : Ssl L} {LL : SslLaws L} {PL : SslPatient L} (source : bytes) (o : IoOptions) (s : Tls (Socket fd K) L) :
  let sent (t : Tls (Socket fd K) L) := k_wire (sk_io (t_under t)).2 in
  let l := tls_ssl s in
  wp (write_all source o) s
    (fun _ s' => source <> [] ->
       ssl_plain (tls_ssl s') = ssl_plain l ++ source /\
       exists more, ssl_produced (tls_ssl s') = ssl_produced l ++ more /\
         sent s' = sent s ++ bio_out l ++ more)
    (fun _ s' =>
       (exists n, ssl_plain (tls_ssl s') = ssl_plain l ++ take n source) /\
       exists more, ssl_produced (tls_ssl s') = ssl_produced l ++ more /\
         exists c, sent s' = sent s ++ c /\ c `prefix_of` bio_out l ++ more).
Proof.
  intros sent l. pose proof (write_all_writes wire (fun d => write_some d o) source s (write_law o)) as Hw.
  pose proof (tls_write_all_step source o s) as Hst. unfold writes, wp, write_all in *.
  destruct (write_all_with _ source s) as [[] s'|e s'|]; [| |done].
  - intros Hne. split; [exact Hw|]. destruct Hst as [(c & more & Hc & Hm & Ho) Hz].
    rewrite Hz, app_nil_r in Ho by done. exists more. split; [done|]. subst l. rewrite Ho. exact Hc.
  - split; [by destruct Hw as (n & _ & Hn); exists n|].
    destruct Hst as [(c & more & Hc & Hm & Ho)|(_ & c & more & Hc & Hm & Ho)]; exists more;
      (split; [done|]); exists c; (split; [exact Hc|]); [|done].
    subst l. rewrite Ho. by apply prefix_app_r.
Qed.

(** ** A library that can be run *)

(** The application data accepted, the records produced and the part not yet
    drained, how often the library will still ask, and what waits to be read. *)
Record Toy := mk_toy { y_plain : bytes; y_produced : bytes; y_out : bytes; y_asks : nat; y_in : bytes }.

Definition toy_emit (d : bytes) (y : Toy) : Toy :=
  mk_toy (y_plain y) (y_produced y ++ d) (y_out y ++ d) (y_asks y) (y_in y).

(** Ask to write first, with a record of its own; succeed after that. *)
Definition toy_call (y : Toy) : Z * Toy :=
  match y_asks y with
  | O => (1, y)
  | S n => (-1, toy_emit (lit "!") (mk_toy (y_plain y) (y_produced y) (y_out y) n (y_in y)))
  end.

(** A record holds at most five bytes. *)
Definition toy_write (d : bytes) (y : Toy) : Z * nat * Toy :=
  match toy_call y with
  | (1, y) => (1, Nat.min 5 (length d),
               toy_emit (lit "<" ++ take 5 d ++ lit ">")
                 (mk_toy (y_plain y ++ take (Nat.min 5 (length d)) d) (y_produced y) (y_out y) (y_asks y) (y_in y)))
  | (r, y) => (r, 0%nat, y)
  end.

Definition toy_read (n : nat) (y : Toy) : Z * bytes * Toy :=
  match take n (y_in y) with
  | [] => (-2, [], y)
  | d => (1, d, mk_toy (y_plain y) (y_produced y) (y_out y) (y_asks y) (drop n (y_in y)))
  end.

Definition toy_bio_read (n : nat) (y : Toy) : Z * bytes * Toy :=
  let d := take n (y_out y) in
  (Z.of_nat (length d), d, mk_toy (y_plain y) (y_produced y) (drop n (y_out y)) (y_asks y) (y_in y)).

#[export] Instance toy_ssl : Ssl Toy := {
  ssl_do_handshake := toy_call;
  ssl_read_ex := toy_read;
  ssl_write_ex := toy_write;
  ssl_shutdown := toy_call;
  ssl_get_error := fun _ r => if r =? -1 then SSL_ERROR_WANT_WRITE else 1;
  ssl_verify_result := fun _ => X509_V_OK;
  bio_write_guarantee := fun _ => 100%nat;
  bio_pending := fun y => length (y_out y);
  bio_write := fun d y => (Z.of_nat (length d), mk_toy (y_plain y) (y_produced y) (y_out y) (y_asks y) (y_in y ++ d));
  bio_read := toy_bio_read;
  ssl_rounds := y_asks;
}.

Lemma toy_call_law y :
  let '(r, y') := toy_call y in
  produces y_produced y_out y y' /\ y_plain y' = y_plain y /\
  (r <> 1 -> (y_asks y' < y_asks y)%nat) /\ (r = 1 -> y' = y) /\ (r = 1 \/ r = -1).
Proof.
  unfold toy_call. destruct (y_asks y) eqn:E.
  - split_and!; [exists []; by rewrite !app_nil_r|done|done|done|by left].
  - split_and!; [by exists (lit "!")|done|simpl; lia|done|by right].
Qed.

#[export] Instance toy_laws : SslLaws Toy.
Proof.
  refine {| ssl_produced := y_produced; ssl_plain := y_plain; bio_out := y_out |}.
  - intros l. pose proof (toy_call_law l) as Hl. simpl. destruct (toy_call l) as [r l'].
    by destruct Hl as (? & ? & _).
  - intros n l. simpl. unfold toy_read. pose proof (firstn_le_length n (y_in l)) as Hlen.
    destruct (take n (y_in l)) as [|b d] eqn:E; simpl.
    + split_and!; [exists []; by rewrite !app_nil_r|done|done].
    + split_and!; [exists []; by rewrite !app_nil_r|done|]. intros _. simpl in Hlen. lia.
  - intros d l. simpl. unfold toy_write. pose proof (toy_call_law l) as Hl.
    destruct (toy_call l) as [r l']. destruct Hl as (Hp & Hpl & Hless & Heq & [->| ->]); simpl.
    + rewrite (Heq eq_refl). split_and!; [by eexists|apply (Nat.le_min_r 5)|done].
    + by split_and!.
  - intros l. pose proof (toy_call_law l) as Hl. simpl. destruct (toy_call l) as [r l'].
    by destruct Hl as (? & ? & _).
  - intros d l. simpl. by split_and!.
  - done.
  - intros n l. simpl. split_and!; [done|done|].
    destruct (Z.of_nat _ <=? 0) eqn:E; bool_facts.
    + destruct (y_out l), n; simpl in *; try lia; done.
    + split_and!; [by rewrite take_drop|lia|rewrite length_take; lia|done].
Defined.

#[export] Instance toy_patient : SslPatient Toy.
Proof.
  split.
  - intros l r l' Hc Hr _. simpl in *. pose proof (toy_call_law l) as Hl. rewrite Hc in Hl. by apply Hl.
  - intros n l r data l' Hc Hr [Ha|Ha]; simpl in *; unfold toy_read in Hc;
      destruct (take n (y_in l)) as [|b d]; by injection Hc as <- <- <-.
  - intros d l r n l' Hc Hr _. simpl in *. unfold toy_write in Hc. pose proof (toy_call_law l) as Hl.
    destruct (toy_call l) as [r0 l0]. destruct Hl as (_ & _ & Hless & _ & [->| ->]);
      injection Hc as <- <- <-; [done|by apply Hless].
  - intros l r l' Hc Hr _. simpl in *. pose proof (toy_call_law l) as Hl. rewrite Hc in Hl. apply Hl. lia.
  - intros n d l. by split.
Defined.

(** A handshake done, two requests to write still to come, a record waiting. *)
Definition toy_start : Tls (Socket 5 Host) Toy :=
  mk_tls (mk_socket true (new_loop, busy_host))
    (mk_engine (mk_toy [] (lit "hi") (lit "hi") 2 []) true false false false) false.

Lemma tls_operation_exact_witness :
  (exists s', run (Op.write (lit "hello world")) no_io toy_start = Returns (mk_step Status.complete 5 []) s') /\
  match run (Op.write (lit "hello world")) no_io toy_start with
  | Returns step s' => in_step toy_start s' /\ y_plain (tls_ssl s') = lit "hello"
  | _ => False
  end.
Proof.
  pose proof (proj1 (tls_operation_exact (Op.write (lit "hello world")) no_io toy_start)) as Ht.
  split; [eexists; vm_compute; reflexivity|].
  assert (exists s', run (Op.write (lit "hello world")) no_io toy_start
                     = Returns (mk_step Status.complete 5 []) s') as [s' E] by (eexists; vm_compute; reflexivity).
  rewrite E in *. destruct Ht as (Hs & _ & _ & Hr). exact (conj Hs (proj2 Hr)).
Defined.

Lemma write_all_over_tls_witness :
  exists s', write_all (lit "hello world") no_io toy_start = Returns tt s' /\
    y_plain (tls_ssl s') = lit "hello world" /\
    h_out (sk_io (t_under s')).2 = lit "hi!!<hello>< worl><d>".
Proof.
  pose proof (write_all_over_tls (lit "hello world") no_io toy_start) as Hw. unfold wp in Hw.
  assert (exists s', write_all (lit "hello world") no_io toy_start = Returns tt s' /\
    h_out (sk_io (t_under s')).2 = lit "hi!!<hello>< worl><d>") as (s' & E & Hout)
    by (eexists; split; vm_compute; reflexivity).
  rewrite E in Hw. exists s'. split; [exact E|]. split; [|exact Hout].
  exact (proj1 (Hw ltac:(discriminate))).
Defined.
