(* ===== verification/Tasks.v ===== *)
(** * Tasks: lazy coroutines and run_until_complete (core/task.hpp,
    core/src/event_loop_common.cpp)

    A [Task] owns a coroutine frame that starts when it is awaited; awaiting moves
    the frame into the awaiter and transfers control to it, and its final suspend
    point transfers control back.  The model is a machine whose heap has the frames
    and whose control is what the processor does next, so that resuming a finished
    frame, destroying a running one or touching a destroyed one are outcomes
    ([Fault]), and so is [std::terminate] ([Terminated]).  Programs are trees of the
    operations a coroutine can do with tasks; the specification evaluates such a
    tree in direct style, as if awaiting were calling. *)

From stdpp Require Import gmap.
From S2P Require Import Prelude Errors.

Local Open Scope nat_scope.

Abbreviation Handle := nat.

(** ** Programs *)

(** How a body ends: a value, or an exception. *)
Abbreviation Ending := (Z + Z)%type.

(** [std::logic_error] *)
Definition logic_error : Z := (-1)%Z.

(** The body of a coroutine.  Its local tasks are numbered in order of creation;
    what it does after an operation may depend on the answer (and catch an
    exception, or throw it on). *)
Inductive Body :=
| Return (v : Z)
| Throw (e : Z)
| Make (child : Body) (k : Body)             (** Task t = child(); *)
| Await (x : nat) (k : Ending -> Body)       (** co_await std::move(x) *)
| SyncGet (x : nat) (k : Ending -> Body)     (** std::move(x).sync_get() *)
| Assign (x y : nat) (k : Body)              (** x = std::move(y); *)
| Drop (x : nat) (k : Body)                  (** ~Task *)
| IsDone (x : nat) (k : bool -> Body)        (** x.done() *)
| Operation (k : Z -> Body).                 (** co_await an operation of the loop *)

(** ** Frames *)

(** Who a frame transfers control to. *)
Inductive Who :=
| the_root
| the_task (h : Handle).

(** [TaskPromise] *)
Record Promise := mk_promise {
  continuation : option Who;
  started : bool;
  value : option Z;
  failure : option Z;
}.

Definition new_promise : Promise := mk_promise None false None None.

(** Where a frame is: at a suspend point, or [executing].  The awaiter of a
    frame that awaits owns [child]; the awaiter of an operation has the result
    slot that the loop fills. *)
Inductive Position :=
| at_start (b : Body)
| executing
| awaiting (child : Handle) (k : Ending -> Body)
| in_operation (slot : option Z) (k : Z -> Body)
| at_end.

Record Frame := mk_frame {
  promise : Promise;
  position : Position;
  locals : list (option Handle);
}.

(** [handle.done()] *)
Definition is_done (f : Frame) : bool :=
  match position f with at_end => true | _ => false end.

(** [frame_abandoned] *)
Definition frame_abandoned (f : Frame) : bool := started (promise f) && negb (is_done f).

(** [RootTask::promise_type], with the point its body [co_await std::move(task)] is at. *)
Inductive RootPosition :=
| root_start (task : option Handle)
| root_awaiting (child : Handle)
| root_end.

Record Root := mk_root {
  root_position : RootPosition;
  root_finished : bool;
  root_failure : option Z;
}.

(** ** The machine *)

(** Why [std::terminate] is called. *)
Inductive Site :=
| in_task_destructor
| in_awaiting_frame
| in_sync_get
| nothing_outstanding
| cannot_pump.

(** What the processor does next: a frame runs its body, a handle is resumed, a
    call of [resume()] returns, or the loop of [run_until_complete] goes round. *)
Inductive Control :=
| run_body (h : Handle) (b : Body)
| resume (w : Who)
| resumed.

(** A call of [run_once]: the answer of the oldest operation if one is delivered,
    and the error it reports. *)
Record Round := mk_round { delivers : option Z; reports : option Error }.

Record Machine := mk_machine {
  frames : gmap Handle Frame;
  next_handle : Handle;
  root : Root;
  sync_calls : list (Handle * Handle * (Ending -> Body));  (** sync_get calls, innermost first *)
  outstanding : list Handle;                       (** frames whose handle the loop holds *)
  rounds : list Round;                             (** what run_once will do *)
  pumped : option Error;                           (** what the last run_once reported *)
  control : Control;
}.

Inductive Next :=
| Goes (m : Machine)
| Finished (m : Machine)
| Blocked (m : Machine)
| Terminated (site : Site)
| Fault.

Definition set_frames (fs : gmap Handle Frame) (m : Machine) : Machine :=
  mk_machine fs (next_handle m) (root m) (sync_calls m) (outstanding m) (rounds m) (pumped m)
    (control m).

Definition set_control (c : Control) (m : Machine) : Machine :=
  mk_machine (frames m) (next_handle m) (root m) (sync_calls m) (outstanding m) (rounds m)
    (pumped m) c.

Definition set_root (r : Root) (m : Machine) : Machine :=
  mk_machine (frames m) (next_handle m) r (sync_calls m) (outstanding m) (rounds m) (pumped m)
    (control m).

Definition set_sync_calls (l : list (Handle * Handle * (Ending -> Body))) (m : Machine) : Machine :=
  mk_machine (frames m) (next_handle m) (root m) l (outstanding m) (rounds m) (pumped m)
    (control m).

Definition set_frame (h : Handle) (f : Frame) (m : Machine) : Machine :=
  set_frames (<[h := f]> (frames m)) m.

(** A live frame; anything else is a use of freed memory. *)
Definition with_frame (h : Handle) (m : Machine) (k : Frame -> Next) : Next :=
  match frames m !! h with
  | Some f => k f
  | None => Fault
  end.

(** [handle.destroy()]: defined on a suspended frame.  One that is suspended in
    the middle of its body would destroy the awaiter there, and what it waits for
    would go on with its memory; no code of the library does that. *)
Definition destroy_frame (h : Handle) (m : Machine) (k : Machine -> Next) : Next :=
  with_frame h m (fun f =>
    match position f with
    | at_start _ | at_end => k (set_frames (delete h (frames m)) m)
    | _ => Fault
    end).

(** [Task::destroy], and [~Awaiter] with its own [site]. *)
Definition destroy_task (site : Site) (h : option Handle) (m : Machine) (k : Machine -> Next) : Next :=
  match h with
  | None => k m
  | Some h =>
      with_frame h m (fun f =>
        if frame_abandoned f then Terminated site else destroy_frame h m k)
  end.

(** [std::move(promise).result()]; without a value there is nothing to move from. *)
Definition result (f : Frame) (k : Ending -> Next) : Next :=
  match failure (promise f), value (promise f) with
  | Some e, _ => k (inr e)
  | None, Some v => k (inl v)
  | None, None => Fault
  end.

(** [Awaiter::await_resume], then the end of the awaiter. *)
Definition await_resume (child : Handle) (m : Machine) (k : Ending -> Machine -> Next) : Next :=
  with_frame child m (fun f =>
    result f (fun r => destroy_task in_awaiting_frame (Some child) m (k r))).

(** [Awaiter::await_suspend]: symmetric transfer to the child. *)
Definition await_suspend (w : Who) (child : Handle) (f : Frame) (m : Machine) : Machine :=
  set_control (resume (the_task child))
    (set_frame child
       (mk_frame (mk_promise (Some w) true (value (promise f)) (failure (promise f)))
          (position f) (locals f)) m).

(** The local [x], and the local [x] after its handle has been exchanged. *)
Definition local (f : Frame) (x : nat) : option Handle := mjoin (locals f !! x).

Definition set_local (x : nat) (h : option Handle) (f : Frame) : Frame :=
  mk_frame (promise f) (position f) (<[x := h]> (locals f)).

Definition set_position (p : Position) (f : Frame) : Frame :=
  mk_frame (promise f) p (locals f).

(** The destructors of a body's locals, the last one first. *)
Fixpoint destroy_locals (l : list (option Handle)) (m : Machine) (k : Machine -> Next) : Next :=
  match l with
  | [] => k m
  | h :: l => destroy_locals l m (fun m => destroy_task in_task_destructor h m k)
  end.

(** [FinalAwaiter::await_suspend] *)
Definition final_suspend (f : Frame) : Control :=
  match continuation (promise f) with
  | Some w => resume w
  | None => resumed
  end.

(** [return_value] or [unhandled_exception], the end of the locals, and
    [final_suspend]. *)
Definition finish_body (h : Handle) (r : Ending) (m : Machine) : Next :=
  with_frame h m (fun f =>
    destroy_locals (locals f) m (fun m =>
      let p := promise f in
      let p := match r with
               | inl v => mk_promise (continuation p) (started p) (Some v) (failure p)
               | inr e => mk_promise (continuation p) (started p) (value p) (Some e)
               end in
      let f := mk_frame p at_end [] in
      Goes (set_control (final_suspend f) (set_frame h f m)))).

(** *** One operation of a body *)

Definition goes_on (h : Handle) (b : Body) (m : Machine) : Next :=
  Goes (set_control (run_body h b) m).

(** [co_await std::move(x)]: [operator co_await], [await_ready] and, unless the
    task is empty or done, [await_suspend]. *)
Definition await_task (h : Handle) (x : nat) (k : Ending -> Body) (m : Machine) : Next :=
  with_frame h m (fun f =>
    let m := set_frame h (set_local x None f) m in
    match local f x with
    | None => goes_on h (k (inr logic_error)) m
    | Some child =>
        with_frame child m (fun c =>
          if is_done c then await_resume child m (fun r => goes_on h (k r))
          else
            let m := set_frame h (set_position (awaiting child k) (set_local x None f)) m in
            Goes (await_suspend (the_task h) child c m))
    end).

(** [std::move(x).sync_get()] up to its [handle.resume()] *)
Definition sync_get (h : Handle) (x : nat) (k : Ending -> Body) (m : Machine) : Next :=
  with_frame h m (fun f =>
    let m := set_frame h (set_local x None f) m in
    match local f x with
    | None => goes_on h (k (inr logic_error)) m
    | Some child =>
        with_frame child m (fun c =>
          let p := promise c in
          let c := mk_frame (mk_promise (continuation p) true (value p) (failure p))
                     (position c) (locals c) in
          Goes (set_control (resume (the_task child))
                  (set_sync_calls ((h, child, k) :: sync_calls m) (set_frame child c m))))
    end).

(** [sync_get] after its [handle.resume()]; [~FrameGuard] destroys the frame. *)
Definition sync_got (h child : Handle) (k : Ending -> Body) (m : Machine) : Next :=
  with_frame child m (fun c =>
    if is_done c then result c (fun r => destroy_frame child m (goes_on h (k r)))
    else Terminated in_sync_get).

(** [x = std::move(y)].  An index that names no local is not a program. *)
Definition move_assign (h : Handle) (x y : nat) (b : Body) (m : Machine) : Next :=
  with_frame h m (fun f =>
    if (x =? y) || (length (locals f) <=? x) then goes_on h b m
    else
      destroy_task in_task_destructor (local f x) m (fun m =>
        goes_on h b (set_frame h (set_local y None (set_local x (local f y) f)) m))).

Definition drop_task (h : Handle) (x : nat) (b : Body) (m : Machine) : Next :=
  with_frame h m (fun f =>
    destroy_task in_task_destructor (local f x) m (fun m =>
      goes_on h b (set_frame h (set_local x None f) m))).

(** A call of a coroutine: its frame is made and suspended at the start. *)
Definition make_task (h : Handle) (child b : Body) (m : Machine) : Next :=
  with_frame h m (fun f =>
    let n := next_handle m in
    let f := mk_frame (promise f) (position f) (locals f ++ [Some n]) in
    goes_on h b
      (mk_machine (<[h := f]> (<[n := mk_frame new_promise (at_start child) []]> (frames m)))
         (S n) (root m) (sync_calls m) (outstanding m) (rounds m) (pumped m) (control m))).

(** [Task::done] *)
Definition task_done (h : Handle) (x : nat) (k : bool -> Body) (m : Machine) : Next :=
  with_frame h m (fun f =>
    match local f x with
    | None => goes_on h (k true) m
    | Some child => with_frame child m (fun c => goes_on h (k (is_done c)) m)
    end).

(** An operation of the loop: it holds the handle from now on, and the call of
    [resume()] that brought us here returns. *)
Definition submit (h : Handle) (k : Z -> Body) (m : Machine) : Next :=
  with_frame h m (fun f =>
    let m := set_frame h (set_position (in_operation None k) f) m in
    Goes (mk_machine (frames m) (next_handle m) (root m) (sync_calls m) (outstanding m ++ [h])
            (rounds m) (pumped m) resumed)).

Definition step_body (h : Handle) (b : Body) (m : Machine) : Next :=
  match b with
  | Return v => finish_body h (inl v) m
  | Throw e => finish_body h (inr e) m
  | Make child b => make_task h child b m
  | Await x k => await_task h x k m
  | SyncGet x k => sync_get h x k m
  | Assign x y b => move_assign h x y b m
  | Drop x b => drop_task h x b m
  | IsDone x k => task_done h x k m
  | Operation k => submit h k m
  end.

(** *** Resuming *)

(** The compiler's part of [handle.resume()] for a task: go on behind the suspend
    point.  A frame that is executing or at its end must not be resumed. *)
Definition resume_task (h : Handle) (m : Machine) : Next :=
  with_frame h m (fun f =>
    match position f with
    | at_start b => goes_on h b (set_frame h (set_position executing f) m)
    | awaiting child k =>
        await_resume child m (fun r m => goes_on h (k r) (set_frame h (set_position executing f) m))
    | in_operation (Some v) k => goes_on h (k v) (set_frame h (set_position executing f) m)
    | in_operation None _ | executing | at_end => Fault
    end).

(** [run_root]: the root awaits the task; when it is resumed, it has the task's
    ending, and [final_suspend] records that it is no longer running. *)
Definition end_root (r : Ending) (m : Machine) : Next :=
  Goes (set_control resumed
    (set_root (mk_root root_end true match r with inl _ => None | inr e => Some e end) m)).

Definition resume_root (m : Machine) : Next :=
  match root_position (root m) with
  | root_start None => end_root (inr logic_error) m
  | root_start (Some child) =>
      with_frame child m (fun c =>
        if is_done c then await_resume child m end_root
        else
          Goes (await_suspend the_root child c
            (set_root (mk_root (root_awaiting child) (root_finished (root m))
                         (root_failure (root m))) m)))
  | root_awaiting child => await_resume child m end_root
  | root_end => Fault
  end.

(** *** [run_until_complete] *)

(** The loop resolves the oldest operation: the answer goes into the awaiter's
    result slot, and the handle is resumed. *)
Definition deliver_answer (v : Z) (m : Machine) : Next :=
  match outstanding m with
  | [] => Goes m
  | h :: rest =>
      with_frame h m (fun f =>
        match position f with
        | in_operation _ k =>
            let m := set_frame h (set_position (in_operation (Some v) k) f) m in
            Goes (mk_machine (frames m) (next_handle m) (root m) (sync_calls m) rest (rounds m)
                    (pumped m) (resume (the_task h)))
        | _ => Fault
        end)
  end.

(** The loop of [run_until_complete], behind its call of [run_once] (or of
    [root.start()], where nothing is [pumped]). *)
Definition go_round (m : Machine) : Next :=
  if root_finished (root m) then Finished m
  else match pumped m with
  | Some _ => Terminated cannot_pump
  | None =>
      if bool_decide (outstanding m = []) then Terminated nothing_outstanding
      else match rounds m with
      | [] => Blocked m
      | r :: rest =>
          let m := mk_machine (frames m) (next_handle m) (root m) (sync_calls m) (outstanding m)
                     rest (reports r) (control m) in
          match delivers r with
          | Some v => deliver_answer v m
          | None => Goes m
          end
      end
  end.

Definition step (m : Machine) : Next :=
  match control m with
  | run_body h b => step_body h b m
  | resume (the_task h) => resume_task h m
  | resume the_root => resume_root m
  | resumed =>
      match sync_calls m with
      | (h, child, k) :: rest => sync_got h child k (set_sync_calls rest m)
      | [] => go_round m
      end
  end.

(** [run_until_complete(task)] from its [root.start()]; the task is a coroutine
    with this body that has not been started, or an empty one. *)
Definition begin (task : option Body) (rs : list Round) : Machine :=
  let '(fs, h) :=
    match task with
    | Some b => ({[0 := mk_frame new_promise (at_start b) []]}, Some 0)
    | None => (∅, None)
    end in
  mk_machine fs 1 (mk_root (root_start h) false None) [] [] rs None (resume the_root).

(** Its result: the exception it throws, or the [Result<void>] it returns. *)
Definition completed (m : Machine) : Z + Result unit :=
  match root_failure (root m) with
  | Some e => inl e
  | None => inr (match pumped m with Some e => Fail e | None => Ok tt end)
  end.

(** The run of the machine, for at most [fuel] steps. *)
Fixpoint run (fuel : nat) (m : Machine) : Next :=
  match fuel with
  | O => Goes m
  | S fuel =>
      match step m with
      | Goes m => run fuel m
      | n => n
      end
  end.

(** ** The specification: awaiting is calling *)

(** What a program can still expect of the loop: its rounds, and what the last one
    reported. *)
Abbreviation Loop := (list Round * option Error)%type.

Inductive Verdict :=
| Ends (r : Ending)
| Dies (site : Site)
| Waits.

(** The next answer of the loop.  A round that failed is fatal, unless what it
    delivered brings the root to its end. *)
Fixpoint next_answer (rs : list Round) : Verdict + (Z * Loop) :=
  match rs with
  | [] => inl Waits
  | r :: rest =>
      match delivers r, reports r with
      | Some v, e => inr (v, (rest, e))
      | None, Some _ => inl (Dies cannot_pump)
      | None, None => next_answer rest
      end
  end.

Definition next_of (l : Loop) : Verdict + (Z * Loop) :=
  match snd l with
  | Some _ => inl (Dies cannot_pump)
  | None => next_answer (fst l)
  end.

(** A computation, inside a [sync_get] or not. *)
Abbreviation Den := (bool -> Loop -> Verdict * Loop).

Definition and_then (o : Verdict * Loop) (k : Ending -> Loop -> Verdict * Loop)
    : Verdict * Loop :=
  match o with
  | (Ends r, l) => k r l
  | o => o
  end.

(** A task is the computation of its body; an empty one throws when it is awaited. *)
Fixpoint eval (b : Body) (env : list (option Den)) (sync : bool) (l : Loop) : Verdict * Loop :=
  match b with
  | Return v => (Ends (inl v), l)
  | Throw e => (Ends (inr e), l)
  | Make child b => eval b (env ++ [Some (eval child [])]) sync l
  | Await x k =>
      match mjoin (env !! x) with
      | None => eval (k (inr logic_error)) (<[x := None]> env) sync l
      | Some task => and_then (task sync l) (fun r => eval (k r) (<[x := None]> env) sync)
      end
  | SyncGet x k =>
      match mjoin (env !! x) with
      | None => eval (k (inr logic_error)) (<[x := None]> env) sync l
      | Some task => and_then (task true l) (fun r => eval (k r) (<[x := None]> env) sync)
      end
  | Assign x y b =>
      if (x =? y) || (length env <=? x) then eval b env sync l
      else eval b (<[y := None]> (<[x := mjoin (env !! y)]> env)) sync l
  | Drop x b => eval b (<[x := None]> env) sync l
  | IsDone x k => eval (k (bool_decide (mjoin (env !! x) = None))) env sync l
  | Operation k =>
      if sync then (Dies in_sync_get, l)
      else match next_of l with
      | inr (v, l) => eval (k v) env sync l
      | inl verdict => (verdict, l)
      end
  end.

(** ** Facts: runs and heaps *)

Definition goes (m m' : Machine) : Prop := step m = Goes m'.

(** Every handle in use is below [next_handle]. *)
Definition bounded (m : Machine) : Prop :=
  forall h f, frames m !! h = Some f -> h < next_handle m.

Definition loop_of (m : Machine) : Loop := (rounds m, pumped m).
Definition in_sync (m : Machine) : bool := match sync_calls m with [] => false | _ => true end.

Definition ended (w : option Who) (r : Ending) : Frame :=
  mk_frame
    (match r with
     | inl v => mk_promise w true (Some v) None
     | inr e => mk_promise w true None (Some e)
     end) at_end [].

Definition transfer (w : option Who) : Control :=
  match w with Some w => resume w | None => resumed end.

(** The task [h] goes from [m] to its end as [verdict] says: it leaves nothing
    but its own finished frame on the heap [rest]. *)
Definition reaches (m : Machine) (h : Handle) (w : option Who) (rest : gmap Handle Frame)
    (o : Verdict * Loop) : Prop :=
  match fst o with
  | Ends r =>
      exists m', rtc goes m m' /\ frames m' = <[h := ended w r]> rest /\
        sync_calls m' = sync_calls m /\ outstanding m' = [] /\ root m' = root m /\
        loop_of m' = snd o /\ next_handle m <= next_handle m' /\ control m' = transfer w
  | Dies site => exists m', rtc goes m m' /\ step m' = Terminated site
  | Waits => exists m' m'', rtc goes m m' /\ step m' = Blocked m''
  end.

Definition fresh_frame (b : Body) : Frame := mk_frame new_promise (at_start b) [].
Definition running (w : option Who) (ls : list (option Handle)) : Frame :=
  mk_frame (mk_promise w true None None) executing ls.

(** The task [h], continued by [w], is about to run [b]; [own] has the frames of its
    locals and [rest] all others. *)
Record in_body (m : Machine) (h : Handle) (b : Body) (w : option Who)
    (ls : list (option Handle)) (own rest : gmap Handle Frame) : Prop := {
  ib_control : control m = run_body h b;
  ib_frames : frames m = <[h := running w ls]> (own ∪ rest);
  ib_own : own !! h = None;
  ib_rest : rest !! h = None;
  ib_disjoint : own ##ₘ rest;
  ib_bounded : bounded m;
  ib_outstanding : outstanding m = [];
  ib_root : root_finished (root m) = false;
  ib_sync :
    match sync_calls m with
    | [] => True
    | (_, c, _) :: _ => c = h \/ exists f, rest !! c = Some f /\ is_done f = false
    end;
}.

(** A body whose run is what its evaluation says. *)
Definition simulated (b : Body) : Prop :=
  forall m h w rest,
    in_body m h b w [] ∅ rest -> reaches m h w rest (eval b [] (in_sync m) (loop_of m)).

(** The locals are empty or own tasks that have not started, one each. *)
Record holds (ls : list (option Handle)) (env : list (option Den)) (own : gmap Handle Frame)
    : Prop := {
  ho_length : length ls = length env;
  ho_task : forall x c, ls !! x = Some (Some c) ->
    exists b, own !! c = Some (fresh_frame b) /\ env !! x = Some (Some (eval b [])) /\ simulated b;
  ho_empty : forall x, ls !! x = Some None -> env !! x = Some None;
  ho_inj : forall x y c, ls !! x = Some (Some c) -> ls !! y = Some (Some c) -> x = y;
  ho_dom : forall c f, own !! c = Some f -> exists x, ls !! x = Some (Some c);
}.

Lemma holds_nil : holds [] [] ∅.
Proof. by split. Qed.

Lemma reaches_step m m' h w rest o :
  step m = Goes m' -> sync_calls m' = sync_calls m -> root m' = root m ->
  next_handle m <= next_handle m' -> reaches m' h w rest o -> reaches m h w rest o.
Proof.
  intros Hs Hc Hr Hn. unfold reaches. destruct (fst o) as [r|site|].
  - intros (m2 & Hst & Hf & Hc2 & Ho & Hr2 & Hl & Hn2 & Hk). exists m2. split_and!; try done.
    + by eapply rtc_l.
    + congruence.
    + congruence.
    + lia.
  - intros (m2 & Hst & H). exists m2. split; [by eapply rtc_l|done].
  - intros (m2 & m3 & Hst & H). exists m2, m3. split; [by eapply rtc_l|done].
Qed.

(** A run that has brought a child to its end goes on from there. *)
Lemma reaches_star m m' h w rest o :
  rtc goes m m' -> sync_calls m' = sync_calls m -> root m' = root m ->
  next_handle m <= next_handle m' -> reaches m' h w rest o -> reaches m h w rest o.
Proof.
  intros Hs Hc Hr Hn. unfold reaches. destruct (fst o) as [r|site|].
  - intros (m2 & Hst & Hf & Hc2 & Ho & Hr2 & Hl & Hn2 & Hk). exists m2. split_and!; try done.
    + by etransitivity.
    + congruence.
    + congruence.
    + lia.
  - intros (m2 & Hst & H). exists m2. split; [by etransitivity|done].
  - intros (m2 & m3 & Hst & H). exists m2, m3. split; [by etransitivity|done].
Qed.

Lemma frames_self m h b w ls own rest :
  in_body m h b w ls own rest -> frames m !! h = Some (running w ls).
Proof. intros H. by rewrite (ib_frames _ _ _ _ _ _ _ H), lookup_insert_eq. Qed.

Lemma frames_own m h b w ls own rest c f :
  in_body m h b w ls own rest -> own !! c = Some f -> frames m !! c = Some f /\ c <> h.
Proof.
  intros H Hc. assert (c <> h) by (intros ->; by rewrite (ib_own _ _ _ _ _ _ _ H) in Hc).
  split; [|done]. rewrite (ib_frames _ _ _ _ _ _ _ H), lookup_insert_ne by done.
  by rewrite (lookup_union_Some_l _ _ _ _ Hc).
Qed.

(** *** Locals *)

Lemma local_lookup w ls x : local (running w ls) x = mjoin (ls !! x).
Proof. done. Qed.

Lemma holds_none ls env own x :
  holds ls env own -> mjoin (ls !! x) = None -> mjoin (env !! x) = None.
Proof.
  intros H. destruct (ls !! x) as [[c|]|] eqn:E; simpl; [done| |]; intros _.
  - by rewrite (ho_empty _ _ _ H x E).
  - apply lookup_ge_None in E. rewrite (ho_length _ _ _ H) in E.
    by rewrite (proj2 (lookup_ge_None env x)).
Qed.

Lemma holds_some ls env own x c :
  holds ls env own -> mjoin (ls !! x) = Some c ->
  exists b, own !! c = Some (fresh_frame b) /\ mjoin (env !! x) = Some (eval b []) /\ simulated b.
Proof.
  intros H. destruct (ls !! x) as [[c'|]|] eqn:E; simpl; [|done|done]. intros [= ->].
  destruct (ho_task _ _ _ H x c E) as (b & Ho & He & Hs). exists b. by rewrite He.
Qed.

Lemma lookup_set_none {A} (l : list (option A)) x y c :
  <[x := None]> l !! y = Some (Some c) -> y <> x /\ l !! y = Some (Some c).
Proof. intros H%list_lookup_insert_Some. naive_solver. Qed.

Lemma holds_clear ls env own x :
  holds ls env own -> mjoin (ls !! x) = None ->
  holds (<[x := None]> ls) (<[x := None]> env) own.
Proof.
  intros H Hx. split.
  - by rewrite !length_insert, (ho_length _ _ _ H).
  - intros y c [Hne Hy]%lookup_set_none. destruct (ho_task _ _ _ H y c Hy) as (b & ? & ? & ?).
    exists b. by rewrite list_lookup_insert_ne.
  - intros y Hy. apply list_lookup_insert_Some in Hy as [(<- & _ & Hl)|[Hne Hy]].
    + apply list_lookup_insert_eq. by rewrite <- (ho_length _ _ _ H).
    + rewrite list_lookup_insert_ne by done. by apply (ho_empty _ _ _ H).
  - intros y z c [_ Hy]%lookup_set_none [_ Hz]%lookup_set_none. by eapply (ho_inj _ _ _ H).
  - intros c f Hc. destruct (ho_dom _ _ _ H c f Hc) as [y Hy]. exists y.
    rewrite list_lookup_insert_ne; [done|]. intros ->. by rewrite Hy in Hx.
Qed.

Lemma holds_take ls env own x c :
  holds ls env own -> mjoin (ls !! x) = Some c ->
  holds (<[x := None]> ls) (<[x := None]> env) (delete c own).
Proof.
  intros H Hx. assert (Hx' : ls !! x = Some (Some c))
    by (destruct (ls !! x) as [[?|]|]; simplify_eq/=; done).
  split.
  - by rewrite !length_insert, (ho_length _ _ _ H).
  - intros y d [Hne Hy]%lookup_set_none. destruct (ho_task _ _ _ H y d Hy) as (b & ? & ? & ?).
    exists b. rewrite list_lookup_insert_ne by done. split_and!; try done.
    rewrite lookup_delete_ne; [done|]. intros ->. by apply Hne, (ho_inj _ _ _ H _ _ _ Hy Hx').
  - intros y Hy. apply list_lookup_insert_Some in Hy as [(<- & _ & Hl)|[Hne Hy]].
    + apply list_lookup_insert_eq. by rewrite <- (ho_length _ _ _ H).
    + rewrite list_lookup_insert_ne by done. by apply (ho_empty _ _ _ H).
  - intros y z d [_ Hy]%lookup_set_none [_ Hz]%lookup_set_none. by eapply (ho_inj _ _ _ H).
  - intros d f [Hne Hd]%lookup_delete_Some. destruct (ho_dom _ _ _ H d f Hd) as [y Hy]. exists y.
    rewrite list_lookup_insert_ne; [done|]. intros ->. congruence.
Qed.

Lemma holds_make ls env own n b :
  holds ls env own -> own !! n = None -> simulated b ->
  holds (ls ++ [Some n]) (env ++ [Some (eval b [])]) (<[n := fresh_frame b]> own).
Proof.
  intros H Hn Hb.
  assert (Hold : forall x, ls !! x <> Some (Some n)).
  { intros x Hx. destruct (ho_task _ _ _ H x n Hx) as (? & Ho & _). congruence. }
  split.
  - by rewrite !length_app, (ho_length _ _ _ H).
  - intros x c [Hx|[Hl [Hz [= <-]]%list_lookup_singleton_Some]]%lookup_app_Some.
    + destruct (ho_task _ _ _ H x c Hx) as (b' & Ho & He & ?). exists b'.
      rewrite lookup_insert_ne by congruence. split_and!; try done. by apply lookup_app_l_Some.
    + exists b. rewrite lookup_insert_eq. split_and!; try done.
      rewrite lookup_app_r by (rewrite <- (ho_length _ _ _ H); lia).
      rewrite (ho_length _ _ _ H) in *. by replace (x - length env) with 0 by lia.
  - intros x [Hx|[Hl Hx]]%lookup_app_Some; [|by apply list_lookup_singleton_Some in Hx as [_ ?]].
    by apply lookup_app_l_Some, (ho_empty _ _ _ H).
  - intros x y c [Hx|[Hlx [Hx1 [= Hx]]%list_lookup_singleton_Some]]%lookup_app_Some
      [Hy|[Hly [Hy1 [= Hy]]%list_lookup_singleton_Some]]%lookup_app_Some.
    + by eapply (ho_inj _ _ _ H).
    + subst c. by destruct (Hold x).
    + subst c. by destruct (Hold y).
    + lia.
  - intros c f [(<- & _)|[Hne Hc]]%lookup_insert_Some.
    + exists (length ls). by apply list_lookup_middle.
    + destruct (ho_dom _ _ _ H c f Hc) as [x Hx]. exists x. by apply lookup_app_l_Some.
Qed.

Lemma holds_move ls env own x y :
  x <> y -> ls !! x = Some None -> holds ls env own ->
  holds (<[y := None]> (<[x := mjoin (ls !! y)]> ls))
        (<[y := None]> (<[x := mjoin (env !! y)]> env)) own.
Proof.
  intros Hxy Hx H.
  assert (Hlx : x < length ls) by (by apply lookup_lt_Some in Hx).
  assert (Hlen : length ls = length env) by apply H.
  assert (Hl : forall z c, <[y := None]> (<[x := mjoin (ls !! y)]> ls) !! z = Some (Some c) ->
    (z = x /\ ls !! y = Some (Some c)) \/ (z <> x /\ z <> y /\ ls !! z = Some (Some c))).
  { intros z c [Hzy Hz]%lookup_set_none.
    apply list_lookup_insert_Some in Hz as [(<- & Hm & _)|[Hzx Hz]]; [left|right; by split_and!].
    split; [done|]. by destruct (ls !! y) as [[?|]|]; simplify_eq/=. }
  split.
  - by rewrite !length_insert.
  - intros z c [[-> Hy]|(Hzx & Hzy & Hz)]%Hl.
    + destruct (ho_task _ _ _ H y c Hy) as (b & ? & He & ?). exists b. split_and!; try done.
      rewrite list_lookup_insert_ne, list_lookup_insert_eq, He by (done || lia). done.
    + destruct (ho_task _ _ _ H z c Hz) as (b & ? & He & ?). exists b. split_and!; try done.
      by rewrite !list_lookup_insert_ne.
  - intros z Hz. apply list_lookup_insert_Some in Hz as [(<- & _ & Hly)|[Hzy Hz]].
    { apply list_lookup_insert_eq. rewrite length_insert. rewrite length_insert in Hly. lia. }
    rewrite list_lookup_insert_ne by done.
    apply list_lookup_insert_Some in Hz as [(<- & Hm & _)|[Hzx Hz]].
    + rewrite list_lookup_insert_eq by lia. f_equal. by apply (holds_none _ _ _ _ H).
    + rewrite list_lookup_insert_ne by done. by apply (ho_empty _ _ _ H).
  - intros z1 z2 c [[-> Hz1]|(? & ? & Hz1)]%Hl [[-> Hz2]|(? & ? & Hz2)]%Hl; [done| | |].
    + by destruct (ho_inj _ _ _ H _ _ _ Hz1 Hz2).
    + by destruct (ho_inj _ _ _ H _ _ _ Hz1 Hz2).
    + by eapply (ho_inj _ _ _ H).
  - intros c f Hc. destruct (ho_dom _ _ _ H c f Hc) as [z Hz].
    destruct (decide (z = y)) as [->|Hzy].
    + exists x. rewrite list_lookup_insert_ne, list_lookup_insert_eq by (done || lia).
      by rewrite Hz.
    + exists z. rewrite !list_lookup_insert_ne; [done| |done]. intros ->. congruence.
Qed.

(** *** Destroying *)

Lemma destroy_fresh site m c b k :
  frames m !! c = Some (fresh_frame b) ->
  destroy_task site (Some c) m k = k (set_frames (delete c (frames m)) m).
Proof. intros H. unfold destroy_task, destroy_frame, with_frame. by rewrite H. Qed.

Definition handles (ls : list (option Handle)) : list Handle := omap id ls.

Lemma destroy_locals_spec ls m k :
  NoDup (handles ls) ->
  (forall c, c ∈ handles ls -> exists b, frames m !! c = Some (fresh_frame b)) ->
  destroy_locals ls m k = k (set_frames (foldr delete (frames m) (handles ls)) m).
Proof.
  revert k. induction ls as [|[c|] ls IH]; intros k Hnd Hf; cbn [destroy_locals].
  - by destruct m.
  - change (handles (Some c :: ls)) with (c :: handles ls) in *.
    apply NoDup_cons in Hnd as [Hc Hnd]. rewrite IH by set_solver.
    destruct (Hf c) as [b Hb]; [set_solver|].
    erewrite (destroy_fresh _ _ _ b); [done|]. cbn [frames set_frames].
    by rewrite lookup_foldr_delete_not_elem_of.
  - rewrite IH by done. done.
Qed.

Lemma handles_elem ls c : c ∈ handles ls <-> exists x, ls !! x = Some (Some c).
Proof.
  unfold handles. rewrite list_elem_of_omap. split.
  - intros (h & Hin & Hh). apply list_elem_of_lookup in Hin as [x Hx]. simpl in Hh. subst h.
    by exists x.
  - intros [x Hx]. exists (Some c). split; [by eapply list_elem_of_lookup_2|done].
Qed.

Lemma holds_nodup ls env own : holds ls env own -> NoDup (handles ls).
Proof.
  intros H. assert (Hi := ho_inj _ _ _ H). clear H env own.
  induction ls as [|[c|] ls IH]; simpl; [constructor| |].
  - constructor.
    + intros [x Hx]%handles_elem. specialize (Hi 0 (S x) c eq_refl Hx). lia.
    + apply IH. intros x y d Hx Hy. specialize (Hi (S x) (S y) d Hx Hy). lia.
  - apply IH. intros x y d Hx Hy. specialize (Hi (S x) (S y) d Hx Hy). lia.
Qed.

(** The end of a body frees its locals and nothing else. *)
Lemma end_locals m h b w ls env own rest k :
  in_body m h b w ls own rest -> holds ls env own ->
  destroy_locals ls m k = k (set_frames (<[h := running w ls]> rest) m).
Proof.
  intros Hb H. rewrite destroy_locals_spec.
  - f_equal. f_equal. apply map_eq. intros c.
    destruct (decide (c ∈ handles ls)) as [Hin|Hin].
    + rewrite lookup_foldr_delete by done. symmetry.
      apply handles_elem in Hin as [x Hx]. destruct (ho_task _ _ _ H x c Hx) as (? & Ho & _).
      destruct (frames_own _ _ _ _ _ _ _ _ _ Hb Ho) as [_ Hne].
      rewrite lookup_insert_ne by done.
      by eapply map_disjoint_Some_l; [apply (ib_disjoint _ _ _ _ _ _ _ Hb)|].
    + rewrite lookup_foldr_delete_not_elem_of by done. rewrite (ib_frames _ _ _ _ _ _ _ Hb).
      destruct (decide (c = h)) as [->|Hne]; [by rewrite !lookup_insert_eq|].
      rewrite !lookup_insert_ne by done. rewrite lookup_union_r; [done|].
      destruct (own !! c) eqn:E; [|done]. destruct Hin. apply handles_elem.
      by apply (ho_dom _ _ _ H c f).
  - by eapply holds_nodup.
  - intros c [x Hx]%handles_elem. destruct (ho_task _ _ _ H x c Hx) as (b' & Ho & _).
    exists b'. by apply (frames_own _ _ _ _ _ _ _ _ _ Hb Ho).
Qed.

(** ** Facts: the simulation *)

Lemma bounded_sub m m' :
  bounded m -> next_handle m <= next_handle m' ->
  (forall c f, frames m' !! c = Some f -> is_Some (frames m !! c)) -> bounded m'.
Proof. intros Hb Hn Hs c f Hc. destruct (Hs c f Hc) as [f' Hf]. specialize (Hb c f' Hf). lia. Qed.

(** The body goes on, with other locals. *)
Lemma in_body_next m m' h b b' w ls ls' own own' rest :
  in_body m h b w ls own rest ->
  control m' = run_body h b' -> frames m' = <[h := running w ls']> (own' ∪ rest) ->
  own' ⊆ own -> next_handle m' = next_handle m -> outstanding m' = outstanding m ->
  root m' = root m -> sync_calls m' = sync_calls m ->
  in_body m' h b' w ls' own' rest.
Proof.
  intros H Hc Hf Hsub Hn Ho Hr Hs. pose proof H as [_ Hframes Hown Hrest Hdis Hbd Hout Hroot Hsync].
  split; try done; try congruence.
  - eapply lookup_weaken_None; [exact Hown|exact Hsub].
  - eapply map_disjoint_weaken_l; [exact Hdis|exact Hsub].
  - eapply bounded_sub; [done|lia|]. intros c f. rewrite Hf, Hframes.
    intros [(<- & _)|[Hne Hl]]%lookup_insert_Some; [by rewrite lookup_insert_eq|].
    rewrite lookup_insert_ne by done. destruct ((own ∪ rest) !! c) eqn:E; [done|].
    apply lookup_union_None in E as [E1 E2]. apply lookup_union_Some_raw in Hl as [Hl|[_ Hl]].
    + by rewrite (lookup_weaken _ _ _ _ Hl Hsub) in E1.
    + congruence.
  - by rewrite Hs.
Qed.

Lemma insert_set_local m h b w ls own rest f :
  in_body m h b w ls own rest -> <[h := f]> (frames m) = <[h := f]> (own ∪ rest).
Proof. intros H. rewrite (ib_frames _ _ _ _ _ _ _ H). by rewrite insert_insert_eq. Qed.

Lemma delete_own m h b w ls own rest c f :
  in_body m h b w ls own rest -> own !! c = Some f ->
  delete c (frames m) = <[h := running w ls]> (delete c own ∪ rest).
Proof.
  intros H Hc. destruct (frames_own _ _ _ _ _ _ _ _ _ H Hc) as [_ Hne].
  rewrite (ib_frames _ _ _ _ _ _ _ H), delete_insert_ne by done. f_equal.
  rewrite delete_union. f_equal. apply delete_id.
  eapply map_disjoint_Some_l; [apply (ib_disjoint _ _ _ _ _ _ _ H)|done].
Qed.

(** The body has brought a child to its end and goes on with its ending. *)
Definition continues (m : Machine) (h : Handle) (k : Ending -> Body) (w : option Who)
    (ls : list (option Handle)) (own rest : gmap Handle Frame) (o : Verdict * Loop) : Prop :=
  match fst o with
  | Ends r =>
      exists m', rtc goes m m' /\ in_body m' h (k r) w ls own rest /\ loop_of m' = snd o /\
        sync_calls m' = sync_calls m /\ root m' = root m /\ next_handle m <= next_handle m'
  | _ => reaches m h w rest o
  end.

Lemma continues_reaches m h k w ls own rest o (e : Ending -> bool -> Loop -> Verdict * Loop) :
  continues m h k w ls own rest o ->
  (forall r m', in_body m' h (k r) w ls own rest ->
     reaches m' h w rest (e r (in_sync m') (loop_of m'))) ->
  reaches m h w rest (and_then o (fun r => e r (in_sync m))).
Proof.
  destruct o as [[r|site|] l]; unfold continues, and_then; cbn [fst snd]; [|done|done].
  intros (m' & Hst & Hb & Hl & Hs & Hr & Hn) He.
  eapply reaches_star; [exact Hst|done|done|done|].
  specialize (He r m' Hb). rewrite Hl in He. unfold in_sync in *. by rewrite Hs in He.
Qed.

(** A child that dies or waits does so for its parent too. *)
Lemma reaches_other m m' h w rest h' w' rest' o :
  rtc goes m' m -> (forall r, fst o <> Ends r) ->
  reaches m h w rest o -> reaches m' h' w' rest' o.
Proof.
  intros Hst Hne. unfold reaches. destruct (fst o) as [r|site|]; [by destruct (Hne r)| |].
  - intros (m2 & H2 & H). exists m2. split; [by etransitivity|done].
  - intros (m2 & m3 & H2 & H). exists m2, m3. split; [by etransitivity|done].
Qed.

(** The heap around a child [c] that [h] has started, [f] being the frame of [h]. *)
Definition around (h c : Handle) (f : Frame) (own rest : gmap Handle Frame) : gmap Handle Frame :=
  <[h := f]> (delete c own ∪ rest).

Lemma start_child m h b w ls own rest c fc f f' :
  in_body m h b w ls own rest -> own !! c = Some fc ->
  <[c := f']> (<[h := f]> (frames m)) = <[c := f']> (∅ ∪ around h c f own rest) /\
  around h c f own rest !! c = None.
Proof.
  intros H Hc. destruct (frames_own _ _ _ _ _ _ _ _ _ H Hc) as [_ Hne].
  assert (Hrc : rest !! c = None)
    by (eapply map_disjoint_Some_l; [apply (ib_disjoint _ _ _ _ _ _ _ H)|done]).
  unfold around. split.
  - rewrite (insert_set_local _ _ _ _ _ _ _ f H), (left_id_L ∅ (∪)).
    apply map_eq. intros d. destruct (decide (d = c)) as [->|Hd]; [by rewrite !lookup_insert_eq|].
    rewrite !(lookup_insert_ne _ c d) by done.
    destruct (decide (d = h)) as [->|Hh]; [by rewrite !lookup_insert_eq|].
    rewrite !(lookup_insert_ne _ h d) by done. by rewrite !lookup_union, lookup_delete_ne.
  - rewrite lookup_insert_ne by done. apply lookup_union_None. by rewrite lookup_delete_eq.
Qed.

Lemma around_bounded m h b w ls own rest c f d g :
  in_body m h b w ls own rest -> around h c f own rest !! d = Some g -> is_Some (frames m !! d).
Proof.
  intros H. unfold around. rewrite (ib_frames _ _ _ _ _ _ _ H).
  intros [(<- & _)|[Hne Hl]]%lookup_insert_Some; [by rewrite lookup_insert_eq|].
  rewrite lookup_insert_ne by done. apply lookup_union_Some_raw in Hl as [Hl|[Hl Hr]].
  - apply lookup_delete_Some in Hl as [_ Hl]. by rewrite (lookup_union_Some_l _ _ _ _ Hl).
  - rewrite lookup_union. destruct (own !! d); rewrite Hr; by eexists.
Qed.

(** The child is in its body, at the start of its own run. *)
Lemma child_in_body m m' h b w ls own rest c fc b' w' f :
  in_body m h b w ls own rest -> own !! c = Some fc -> is_done f = false ->
  control m' = run_body c b' ->
  frames m' = <[c := running w' []]> (∅ ∪ around h c f own rest) ->
  next_handle m' = next_handle m -> outstanding m' = [] -> root m' = root m ->
  match sync_calls m' with
  | [] => True
  | (_, d, _) :: _ => d = c \/ sync_calls m' = sync_calls m
  end ->
  in_body m' c b' w' [] ∅ (around h c f own rest).
Proof.
  intros H Hc Hf Hk Hfr Hn Ho Hr Hs. destruct (frames_own _ _ _ _ _ _ _ _ _ H Hc) as [Hfc Hne].
  split; try done.
  - by eapply start_child with (f' := fc).
  - apply map_disjoint_empty_l.
  - apply (bounded_sub m); [apply H|lia|]. intros d g. rewrite Hfr, (left_id_L ∅ (∪)).
    intros [(<- & _)|[Hd Hl]]%lookup_insert_Some; [by eexists|]. by eapply around_bounded.
  - rewrite Hr. apply H.
  - pose proof (ib_sync _ _ _ _ _ _ _ H) as Hsy.
    destruct (sync_calls m') as [|[[? d] ?] ?]; [done|]. destruct Hs as [->|Hs]; [by left|].
    rewrite <- Hs in Hsy. right. unfold around. destruct Hsy as [->|(g & Hg & Hd)].
    + exists f. by rewrite lookup_insert_eq.
    + exists g. split; [|done]. destruct (decide (d = h)) as [->|Hdh].
      * by rewrite (ib_rest _ _ _ _ _ _ _ H) in Hg.
      * rewrite lookup_insert_ne by done. apply lookup_union_Some_raw. right. split; [|done].
        rewrite lookup_delete_None. right.
        by eapply map_disjoint_Some_r; [apply (ib_disjoint _ _ _ _ _ _ _ H)|].
Qed.

(** The parent takes the ending of a child and frees its frame. *)
Lemma take_ending m c w r rest :
  frames m = <[c := ended w r]> rest -> rest !! c = None ->
  forall k, await_resume c m k = k r (set_frames rest m).
Proof.
  intros Hf Hc k. unfold await_resume, with_frame. rewrite Hf, lookup_insert_eq.
  unfold result, destroy_task, destroy_frame, with_frame. rewrite Hf, lookup_insert_eq.
  destruct r; cbn; by rewrite delete_insert_id.
Qed.

(** Back in the parent. *)
Lemma parent_in_body m m' h b b' w ls ls' own rest c fc f :
  in_body m h b w ls own rest -> own !! c = Some fc ->
  control m' = run_body h b' -> frames m' = <[h := running w ls']> (around h c f own rest) ->
  next_handle m <= next_handle m' -> outstanding m' = [] -> root m' = root m ->
  sync_calls m' = sync_calls m ->
  in_body m' h b' w ls' (delete c own) rest.
Proof.
  intros H Hc Hk Hfr Hn Ho Hr Hs. destruct (frames_own _ _ _ _ _ _ _ _ _ H Hc) as [_ Hne].
  unfold around in Hfr. rewrite insert_insert_eq in Hfr. split; try done.
  - rewrite lookup_delete_ne by done. apply H.
  - apply H.
  - eapply map_disjoint_weaken_l; [apply H|apply delete_subseteq].
  - apply (bounded_sub m); [apply H|done|]. intros d g. rewrite Hfr.
    intros Hl. apply (around_bounded m h b w ls own rest c (running w ls') d g H). exact Hl.
  - rewrite Hr. apply H.
  - rewrite Hs. apply H.
Qed.

(** The frame of a body that waits for [c]. *)
Definition waiting (w : option Who) (c : Handle) (k : Ending -> Body) (ls : list (option Handle))
    : Frame :=
  mk_frame (mk_promise w true None None) (awaiting c k) ls.

Lemma step_run_body m h b : control m = run_body h b -> step m = step_body h b m.
Proof. intros H. unfold step. by rewrite H. Qed.

(** The first two steps of [co_await]: suspend, and start the child. *)
Lemma await_starts m h x k w ls own rest c b :
  in_body m h (Await x k) w ls own rest -> mjoin (ls !! x) = Some c ->
  own !! c = Some (fresh_frame b) ->
  exists m', rtc goes m m' /\
    in_body m' c b (Some (the_task h)) [] ∅ (around h c (waiting w c k (<[x := None]> ls)) own rest) /\
    sync_calls m' = sync_calls m /\ root m' = root m /\ next_handle m' = next_handle m /\
    loop_of m' = loop_of m.
Proof.
  intros H Hx Hc. destruct (frames_own _ _ _ _ _ _ _ _ _ H Hc) as [Hfc Hne].
  set (f := waiting w c k (<[x := None]> ls)).
  set (m1 := await_suspend (the_task h) c (fresh_frame b)
               (set_frame h f (set_frame h (set_local x None (running w ls)) m))).
  assert (S1 : step m = Goes m1).
  { rewrite (step_run_body m h (Await x k)) by apply H. cbn [step_body]. unfold await_task, with_frame.
    rewrite (frames_self _ _ _ _ _ _ _ H), local_lookup, Hx. cbn [set_frame set_frames frames].
    by rewrite lookup_insert_ne, Hfc. }
  set (m2 := set_control (run_body c b) (set_frame c (running (Some (the_task h)) []) m1)).
  assert (S2 : step m1 = Goes m2).
  { unfold step. cbn [control await_suspend set_control m1]. unfold resume_task, with_frame.
    cbn [frames m1 await_suspend set_control set_frame set_frames]. by rewrite lookup_insert_eq. }
  exists m2. split_and!; try done.
  - eapply rtc_l; [exact S1|]. eapply rtc_l; [exact S2|]. constructor.
  - eapply child_in_body; try done; try (apply H).
    + cbn. rewrite insert_insert_eq, insert_insert_eq. by eapply start_child.
    + cbn. destruct (sync_calls m) as [|[[??]?]?]; [done|by right].
Qed.

Lemma await_child m h x k w ls own rest c b :
  in_body m h (Await x k) w ls own rest -> mjoin (ls !! x) = Some c ->
  own !! c = Some (fresh_frame b) -> simulated b ->
  continues m h k w (<[x := None]> ls) (delete c own) rest (eval b [] (in_sync m) (loop_of m)).
Proof.
  intros H Hx Hc Hb. destruct (await_starts _ _ _ _ _ _ _ _ _ _ H Hx Hc)
    as (m2 & Hst & H2 & Hs2 & Hr2 & Hn2 & Hl2).
  specialize (Hb m2 c _ _ H2). unfold in_sync in Hb. rewrite Hs2, Hl2 in Hb. fold (in_sync m) in Hb.
  unfold continues. destruct (fst _) as [r|site|] eqn:E;
    [|eapply reaches_other; [exact Hst|by rewrite E|exact Hb]
     |eapply reaches_other; [exact Hst|by rewrite E|exact Hb]].
  unfold reaches in Hb. rewrite E in Hb.
  destruct Hb as (m3 & Hst3 & Hf3 & Hs3 & Ho3 & Hr3 & Hl3 & Hn3 & Hk3).
  set (f := waiting w c k (<[x := None]> ls)) in *.
  destruct (start_child m h _ w ls own rest c _ f (ended (Some (the_task h)) r) H Hc) as [_ Hcn].
  set (m4 := set_control (run_body h (k r))
               (set_frame h (running w (<[x := None]> ls))
                  (set_frames (around h c f own rest) m3))).
  assert (S4 : step m3 = Goes m4).
  { unfold step. rewrite Hk3. cbn [transfer]. unfold resume_task, with_frame. rewrite Hf3.
    destruct (frames_own _ _ _ _ _ _ _ _ _ H Hc) as [_ Hne].
    rewrite lookup_insert_ne by done. unfold around. rewrite lookup_insert_eq.
    cbn [position f waiting]. by rewrite (take_ending _ _ _ _ _ Hf3 Hcn). }
  exists m4. split_and!; try (cbn; congruence).
  - etransitivity; [exact Hst|]. etransitivity; [exact Hst3|]. by eapply rtc_l.
  - eapply parent_in_body with (f := f); try done; cbn; congruence || lia.
  - exact Hl3.
Qed.

(** The same for [sync_get]: the child has no continuation, and control comes back
    through the call of [resume()]. *)
Lemma sync_starts m h x k w ls own rest c b :
  in_body m h (SyncGet x k) w ls own rest -> mjoin (ls !! x) = Some c ->
  own !! c = Some (fresh_frame b) ->
  exists m', rtc goes m m' /\
    in_body m' c b None [] ∅ (around h c (running w (<[x := None]> ls)) own rest) /\
    sync_calls m' = (h, c, k) :: sync_calls m /\ root m' = root m /\
    next_handle m' = next_handle m /\ loop_of m' = loop_of m.
Proof.
  intros H Hx Hc. destruct (frames_own _ _ _ _ _ _ _ _ _ H Hc) as [Hfc Hne].
  set (f := running w (<[x := None]> ls)).
  set (m1 := set_control (resume (the_task c))
               (set_sync_calls ((h, c, k) :: sync_calls m)
                  (set_frame c (mk_frame (mk_promise None true None None) (at_start b) [])
                     (set_frame h f m)))).
  assert (S1 : step m = Goes m1).
  { rewrite (step_run_body m h (SyncGet x k)) by apply H. cbn [step_body]. unfold sync_get, with_frame.
    rewrite (frames_self _ _ _ _ _ _ _ H), local_lookup, Hx. cbn [set_frame set_frames frames].
    by rewrite lookup_insert_ne, Hfc. }
  set (m2 := set_control (run_body c b) (set_frame c (running None []) m1)).
  assert (S2 : step m1 = Goes m2).
  { unfold step. cbn [control set_control m1]. unfold resume_task, with_frame.
    cbn [frames m1 set_control set_sync_calls set_frame set_frames]. by rewrite lookup_insert_eq. }
  exists m2. split_and!; try done.
  - eapply rtc_l; [exact S1|]. eapply rtc_l; [exact S2|]. constructor.
  - eapply child_in_body; try done; try (apply H).
    + cbn. rewrite insert_insert_eq. by eapply start_child.
    + cbn. by left.
Qed.

Lemma sync_child m h x k w ls own rest c b :
  in_body m h (SyncGet x k) w ls own rest -> mjoin (ls !! x) = Some c ->
  own !! c = Some (fresh_frame b) -> simulated b ->
  continues m h k w (<[x := None]> ls) (delete c own) rest (eval b [] true (loop_of m)).
Proof.
  intros H Hx Hc Hb. destruct (sync_starts _ _ _ _ _ _ _ _ _ _ H Hx Hc)
    as (m2 & Hst & H2 & Hs2 & Hr2 & Hn2 & Hl2).
  specialize (Hb m2 c _ _ H2). unfold in_sync in Hb. rewrite Hs2, Hl2 in Hb.
  unfold continues. destruct (fst _) as [r|site|] eqn:E;
    [|eapply reaches_other; [exact Hst|by rewrite E|exact Hb]
     |eapply reaches_other; [exact Hst|by rewrite E|exact Hb]].
  unfold reaches in Hb. rewrite E in Hb.
  destruct Hb as (m3 & Hst3 & Hf3 & Hs3 & Ho3 & Hr3 & Hl3 & Hn3 & Hk3).
  set (f := running w (<[x := None]> ls)) in *.
  destruct (start_child m h _ w ls own rest c _ f (ended None r) H Hc) as [_ Hcn].
  set (m4 := set_control (run_body h (k r))
               (set_frames (around h c f own rest) (set_sync_calls (sync_calls m) m3))).
  assert (S4 : step m3 = Goes m4).
  { unfold step. rewrite Hk3. cbn [transfer]. rewrite Hs3, Hs2. unfold sync_got, with_frame.
    cbn [frames set_sync_calls]. rewrite Hf3, lookup_insert_eq. cbn [is_done position ended].
    unfold result, destroy_frame, with_frame. cbn [frames set_sync_calls].
    rewrite Hf3, lookup_insert_eq. destruct r; cbn; by rewrite delete_insert_id. }
  exists m4. split_and!; try (cbn; congruence).
  - etransitivity; [exact Hst|]. etransitivity; [exact Hst3|]. by eapply rtc_l.
  - eapply parent_in_body with (f := f); try done; cbn; try (congruence || lia).
    unfold around. by rewrite insert_insert_eq.
  - exact Hl3.
Qed.

(** *** Operations of the loop *)

Definition in_op (w : option Who) (ls : list (option Handle)) (slot : option Z) (k : Z -> Body)
    : Frame :=
  mk_frame (mk_promise w true None None) (in_operation slot k) ls.

(** The body has submitted its operation, and the loop goes round. *)
Definition parked (m m' : Machine) (h : Handle) (f : Frame) : Prop :=
  m' = mk_machine (<[h := f]> (frames m)) (next_handle m) (root m) (sync_calls m) [h]
         (rounds m') (pumped m') resumed.

Lemma submit_step m h k w ls own rest :
  in_body m h (Operation k) w ls own rest ->
  exists m', step m = Goes m' /\ parked m m' h (in_op w ls None k) /\ loop_of m' = loop_of m.
Proof.
  intros H. rewrite (step_run_body m h (Operation k)) by apply H. cbn [step_body].
  unfold submit, with_frame. rewrite (frames_self _ _ _ _ _ _ _ H). cbn.
  rewrite (ib_outstanding _ _ _ _ _ _ _ H). by eexists.
Qed.

(** Inside a [sync_get] that is where the program dies. *)
Lemma operation_in_sync m h k w ls own rest l :
  in_body m h (Operation k) w ls own rest -> in_sync m = true ->
  reaches m h w rest (Dies in_sync_get, l).
Proof.
  intros H Hs. destruct (submit_step _ _ _ _ _ _ _ H) as (m' & S1 & Hp & _).
  exists m'. split; [by apply rtc_once|]. unfold parked in Hp.
  unfold step. rewrite Hp. cbn [control sync_calls].
  unfold in_sync in Hs. pose proof (ib_sync _ _ _ _ _ _ _ H) as Hsy.
  destruct (sync_calls m) as [|[[h' c] k'] cs]; [done|].
  unfold sync_got, with_frame. cbn [frames set_sync_calls].
  destruct Hsy as [->|(g & Hg & Hd)]; [by rewrite lookup_insert_eq|].
  assert (c <> h) by (intros ->; by rewrite (ib_rest _ _ _ _ _ _ _ H) in Hg).
  rewrite (ib_frames _ _ _ _ _ _ _ H), insert_insert_eq, lookup_insert_ne by done.
  rewrite lookup_union_r; [by rewrite Hg, Hd|].
  by eapply map_disjoint_Some_r; [apply (ib_disjoint _ _ _ _ _ _ _ H)|].
Qed.

(** A delivered answer brings the body back. *)
Lemma answer_resumes m m1 h k w ls own rest v r rs :
  in_body m h (Operation k) w ls own rest -> sync_calls m = [] ->
  parked m m1 h (in_op w ls None k) -> pumped m1 = None -> rounds m1 = r :: rs ->
  delivers r = Some v ->
  exists m', rtc goes m1 m' /\ in_body m' h (k v) w ls own rest /\
    loop_of m' = (rs, reports r) /\ sync_calls m' = sync_calls m /\ root m' = root m /\
    next_handle m' = next_handle m.
Proof.
  intros H Hsync Hp Hpu Hr Hv.
  set (fs := <[h := in_op w ls (Some v) k]> (<[h := in_op w ls None k]> (frames m))).
  set (m2 := mk_machine fs (next_handle m) (root m) [] [] rs (reports r) (resume (the_task h))).
  assert (S1 : step m1 = Goes m2).
  { rewrite Hp. unfold step. cbn [control sync_calls]. rewrite Hsync. unfold go_round.
    cbn [root pumped outstanding rounds]. rewrite (ib_root _ _ _ _ _ _ _ H), Hpu, Hr, Hv.
    unfold deliver_answer, with_frame. cbn [outstanding frames next_handle root sync_calls].
    by rewrite lookup_insert_eq. }
  set (m3 := set_control (run_body h (k v)) (set_frame h (running w ls) m2)).
  assert (S2 : step m2 = Goes m3).
  { unfold step. cbn [control m2]. unfold resume_task, with_frame. cbn [frames m2].
    unfold fs at 1. by rewrite lookup_insert_eq. }
  exists m3. split_and!; try done.
  - eapply rtc_l; [exact S1|]. by apply rtc_once.
  - eapply in_body_next; try exact H; try done.
    + cbn. unfold fs. rewrite !insert_insert_eq. by eapply insert_set_local.
    + symmetry. apply H.
Qed.

Lemma operation_waits m h k w ls own rest rs m1 l :
  in_body m h (Operation k) w ls own rest -> sync_calls m = [] ->
  parked m m1 h (in_op w ls None k) -> pumped m1 = None -> rounds m1 = rs ->
  match next_answer rs with
  | inr (v, l) =>
      exists m', rtc goes m1 m' /\ in_body m' h (k v) w ls own rest /\ loop_of m' = l /\
        sync_calls m' = sync_calls m /\ root m' = root m /\ next_handle m' = next_handle m
  | inl verdict => reaches m1 h w rest (verdict, l)
  end.
Proof.
  intros H Hsync. revert m1. induction rs as [|r rs IH]; intros m1 Hp Hpu Hr.
  - exists m1, m1. split; [constructor|]. rewrite Hp. unfold step. cbn [control sync_calls].
    rewrite Hsync. unfold go_round. cbn [root pumped outstanding rounds].
    by rewrite (ib_root _ _ _ _ _ _ _ H), Hpu, Hr.
  - cbn [next_answer]. destruct (delivers r) as [v|] eqn:Hv; [by eapply answer_resumes|].
    set (m2 := mk_machine (<[h := in_op w ls None k]> (frames m)) (next_handle m) (root m) []
                 [h] rs (reports r) resumed).
    assert (S1 : step m1 = Goes m2).
    { rewrite Hp. unfold step. cbn [control sync_calls]. rewrite Hsync. unfold go_round.
      cbn [root pumped outstanding rounds].
      by rewrite (ib_root _ _ _ _ _ _ _ H), Hpu, Hr, Hv. }
    destruct (reports r) as [e|] eqn:He.
    + exists m2. split; [by apply rtc_once|]. unfold step. cbn [control m2 sync_calls].
      unfold go_round. cbn [root pumped m2]. by rewrite (ib_root _ _ _ _ _ _ _ H).
    + assert (Hp2 : parked m m2 h (in_op w ls None k)) by (unfold parked; by rewrite Hsync).
      specialize (IH m2 Hp2 eq_refl eq_refl). destruct (next_answer rs) as [verdict|[v l']].
      * eapply reaches_step; [exact S1| | | |exact IH]; by rewrite Hp, ?Hsync.
      * destruct IH as (m' & Hst & ?). exists m'. split; [by eapply rtc_l|done].
Qed.

(** *** Every body *)

(** The end of a body: its promise has the ending, and control goes to the
    continuation. *)
Lemma finish_reaches m h b w ls env own rest r :
  in_body m h b w ls own rest -> holds ls env own ->
  step m = finish_body h r m -> reaches m h w rest (Ends r, loop_of m).
Proof.
  intros H Hh S1.
  set (m' := set_control (transfer w) (set_frames (<[h := ended w r]> rest) m)).
  assert (S2 : step m = Goes m').
  { rewrite S1. unfold finish_body, with_frame. rewrite (frames_self _ _ _ _ _ _ _ H).
    cbn [locals running]. rewrite (end_locals _ _ _ _ _ _ _ _ _ H Hh).
    unfold set_frame. cbn [frames set_frames]. rewrite insert_insert_eq.
    destruct r; by destruct w. }
  exists m'. split_and!; try done; [by apply rtc_once|apply H].
Qed.

(** A step that only changes the locals. *)
Lemma local_step m m' h b b' w ls ls' own own' rest o :
  in_body m h b w ls own rest -> step m = goes_on h b' m' ->
  frames m' = <[h := running w ls']> (own' ∪ rest) -> own' ⊆ own ->
  next_handle m' = next_handle m -> outstanding m' = outstanding m -> root m' = root m ->
  sync_calls m' = sync_calls m ->
  (in_body (set_control (run_body h b') m') h b' w ls' own' rest ->
   reaches (set_control (run_body h b') m') h w rest o) ->
  reaches m h w rest o.
Proof.
  intros H S1 Hf Hsub Hn Ho Hr Hs Hgo. eapply reaches_step; [exact S1|done|done|cbn; lia|].
  apply Hgo. by eapply in_body_next.
Qed.

(** [~Task] of a local: the body goes on without it. *)
Lemma destroy_local m h b w ls env own rest x k :
  in_body m h b w ls own rest -> holds ls env own ->
  exists own', own' ⊆ own /\ holds (<[x := None]> ls) (<[x := None]> env) own' /\
    destroy_task in_task_destructor (mjoin (ls !! x)) m k
    = k (set_frames (<[h := running w ls]> (own' ∪ rest)) m).
Proof.
  intros H Hh. destruct (mjoin (ls !! x)) as [c|] eqn:Hx.
  - destruct (holds_some _ _ _ _ _ Hh Hx) as (b' & Hc & _ & _). exists (delete c own).
    destruct (frames_own _ _ _ _ _ _ _ _ _ H Hc) as [Hfc _]. split_and!.
    + apply delete_subseteq.
    + by apply holds_take.
    + rewrite (destroy_fresh _ _ _ _ _ Hfc). by rewrite (delete_own _ _ _ _ _ _ _ _ _ H Hc).
  - exists own. split_and!; [done|by apply holds_clear|]. cbn [destroy_task].
    rewrite <- (ib_frames _ _ _ _ _ _ _ H). by destruct m.
Qed.

Lemma sim_make m h child b w ls env own rest :
  in_body m h (Make child b) w ls own rest -> holds ls env own -> simulated child ->
  (forall m' ls' own', in_body m' h b w ls' own' rest ->
     holds ls' (env ++ [Some (eval child [])]) own' ->
     reaches m' h w rest
       (eval b (env ++ [Some (eval child [])]) (in_sync m') (loop_of m'))) ->
  reaches m h w rest (eval (Make child b) env (in_sync m) (loop_of m)).
Proof.
  intros H Hh Hc Hgo. set (n := next_handle m).
  assert (Hfree : frames m !! n = None).
  { destruct (frames m !! n) eqn:E; [|done]. apply (ib_bounded _ _ _ _ _ _ _ H) in E. lia. }
  assert (Hne : n <> h) by (intros ->; by rewrite (frames_self _ _ _ _ _ _ _ H) in Hfree).
  assert (Hfree' : (own ∪ rest) !! n = None)
    by (by rewrite (ib_frames _ _ _ _ _ _ _ H), lookup_insert_ne in Hfree).
  apply lookup_union_None in Hfree' as [Hno Hnr].
  set (ls' := ls ++ [Some n]). set (own' := <[n := fresh_frame child]> own).
  set (m' := mk_machine (<[h := running w ls']> (<[n := fresh_frame child]> (frames m))) (S n)
               (root m) (sync_calls m) (outstanding m) (rounds m) (pumped m) (run_body h b)).
  assert (S1 : step m = Goes m').
  { rewrite (step_run_body m h (Make child b)) by apply H. cbn [step_body]. unfold make_task, with_frame.
    by rewrite (frames_self _ _ _ _ _ _ _ H). }
  cbn [eval]. eapply (reaches_step m m'); [exact S1|done|done|cbn; unfold n; lia|].
  change (in_sync m) with (in_sync m'). change (loop_of m) with (loop_of m').
  apply (Hgo m' ls' own'); [|by apply holds_make].
  split; try apply H; try done.
  - cbn. unfold own'. rewrite (ib_frames _ _ _ _ _ _ _ H), <- insert_union_l.
    by rewrite (insert_insert_ne (own ∪ rest) n h), insert_insert_eq by done.
  - unfold own'. rewrite lookup_insert_ne by done. apply H.
  - apply map_disjoint_insert_l_2; [done|apply H].
  - intros c f Hl. cbn in Hl. cbn. apply lookup_insert_Some in Hl as [(<- & _)|[_ Hl]].
    + pose proof (ib_bounded _ _ _ _ _ _ _ H h _ (frames_self _ _ _ _ _ _ _ H)). unfold n. lia.
    + apply lookup_insert_Some in Hl as [(<- & _)|[_ Hl]]; [lia|].
      apply (ib_bounded _ _ _ _ _ _ _ H) in Hl. unfold n. lia.
Qed.

(** The step of a body whose frame and heap [in_body] describes. *)
Ltac body_step H :=
  rewrite (step_run_body _ _ _ (ib_control _ _ _ _ _ _ _ H)); cbn [step_body];
  unfold await_task, sync_get, move_assign, drop_task, task_done, with_frame;
  rewrite (frames_self _ _ _ _ _ _ _ H).

(** Awaiting an empty task throws, in place. *)
Lemma sim_empty m h b x w ls env own rest (k : Ending -> Body) :
  in_body m h b w ls own rest -> holds ls env own -> mjoin (ls !! x) = None ->
  step m = goes_on h (k (inr logic_error)) (set_frame h (set_local x None (running w ls)) m) ->
  (forall m' ls' own', in_body m' h (k (inr logic_error)) w ls' own' rest ->
     holds ls' (<[x := None]> env) own' ->
     reaches m' h w rest
       (eval (k (inr logic_error)) (<[x := None]> env) (in_sync m') (loop_of m'))) ->
  reaches m h w rest (eval (k (inr logic_error)) (<[x := None]> env) (in_sync m) (loop_of m)).
Proof.
  intros H Hh Hx S1 Hgo. eapply local_step; [exact H|exact S1| |reflexivity|done..|].
  - by eapply insert_set_local.
  - intros H'. by apply (Hgo _ _ _ H'), holds_clear.
Qed.

Lemma sim_assign m h x y b w ls env own rest :
  in_body m h (Assign x y b) w ls own rest -> holds ls env own ->
  (forall env' m' ls' own', in_body m' h b w ls' own' rest -> holds ls' env' own' ->
     reaches m' h w rest (eval b env' (in_sync m') (loop_of m'))) ->
  reaches m h w rest (eval (Assign x y b) env (in_sync m) (loop_of m)).
Proof.
  intros H Hh Hgo. cbn [eval]. rewrite <- (ho_length _ _ _ Hh).
  destruct ((x =? y) || (length ls <=? x)) eqn:E.
  - eapply local_step; [exact H| |apply H|reflexivity|done..|].
    + body_step H. cbn [locals running]. by rewrite E.
    + intros H'. by apply (Hgo _ _ _ _ H').
  - apply orb_false_iff in E as [Exy Ex]. apply Nat.eqb_neq in Exy. apply Nat.leb_gt in Ex.
    destruct (destroy_local m h _ w ls env own rest x
      (fun m => goes_on h b
         (set_frame h (set_local y None (set_local x (mjoin (ls !! y)) (running w ls))) m)) H Hh)
      as (own' & Hsub & Hh' & Hd).
    eapply (local_step m); [exact H| | |exact Hsub| | | | |].
    + body_step H. cbn [locals running].
      rewrite (proj2 (Nat.eqb_neq x y) Exy), (proj2 (Nat.leb_gt _ _) Ex). exact Hd.
    + cbn. by rewrite insert_insert_eq.
    + done.
    + done.
    + done.
    + done.
    + intros H'. apply (Hgo _ _ _ _ H').
      pose proof (holds_move _ _ _ x y Exy (list_lookup_insert_eq ls x None Ex) Hh') as Hm.
      by rewrite !list_lookup_insert_ne, !list_insert_insert_eq in Hm by done.
Qed.

Lemma sim_operation m h k w ls env own rest :
  in_body m h (Operation k) w ls own rest -> holds ls env own ->
  (forall v m', in_body m' h (k v) w ls own rest ->
     reaches m' h w rest (eval (k v) env (in_sync m') (loop_of m'))) ->
  reaches m h w rest (eval (Operation k) env (in_sync m) (loop_of m)).
Proof.
  intros H Hh IH.
  cbn [eval]. destruct (in_sync m) eqn:Es; [by eapply operation_in_sync|].
  assert (Hsync : sync_calls m = []) by (unfold in_sync in Es; by destruct (sync_calls m)).
  destruct (submit_step _ _ _ _ _ _ _ H) as (m1 & S1 & Hp & Hl).
  assert (E : sync_calls m1 = sync_calls m /\ root m1 = root m /\ next_handle m1 = next_handle m)
    by (by rewrite Hp). destruct E as (E1 & E2 & E3).
  unfold next_of, loop_of. cbn [fst snd].
  assert (Hpu : pumped m1 = pumped m /\ rounds m1 = rounds m) by (by injection Hl).
  destruct Hpu as [Hpu Hro]. destruct (pumped m) as [e|] eqn:Ep.
  + exists m1. split; [by apply rtc_once|]. rewrite Hp. unfold step. cbn [control sync_calls].
    rewrite Hsync. unfold go_round. cbn [root pumped]. by rewrite (ib_root _ _ _ _ _ _ _ H), Hpu.
  + pose proof (operation_waits m h k w ls own rest (rounds m) m1 (loop_of m) H Hsync Hp Hpu Hro)
      as Hw.
    destruct (next_answer (rounds m)) as [verdict|[v l]].
    * eapply reaches_step; [exact S1|done|done|lia|]. unfold loop_of in Hw. by rewrite Ep in Hw.
    * destruct Hw as (m' & Hst & H' & Hl' & Hs' & Hr' & Hn').
      eapply reaches_star; [by eapply rtc_l|done|done|lia|].
      specialize (IH v m' H'). rewrite Hl' in IH.
      unfold in_sync in IH. by rewrite Hs', Hsync in IH.
Qed.

(** Every body: the machine does what the evaluation says. *)
Lemma simulation b : forall m h w ls env own rest,
  in_body m h b w ls own rest -> holds ls env own ->
  reaches m h w rest (eval b env (in_sync m) (loop_of m)).
Proof.
  induction b as [v|e|child IHc b IH|x k IH|x k IH|x y b IH|x b IH|x k IH|k IH];
    intros m h w ls env own rest H Hh.
  - eapply finish_reaches; [exact H|exact Hh|]. apply (step_run_body m h (Return v)), H.
  - eapply finish_reaches; [exact H|exact Hh|]. apply (step_run_body m h (Throw e)), H.
  - eapply sim_make; [exact H|exact Hh| |].
    + intros m' h' w' rest' H'. by eapply IHc; [|apply holds_nil].
    + intros m' ls' own' H' Hh'. by eapply IH.
  - cbn [eval]. destruct (mjoin (ls !! x)) as [c|] eqn:Hx.
    + destruct (holds_some _ _ _ _ _ Hh Hx) as (b & Hc & -> & Hs).
      eapply (continues_reaches m h k w _ _ rest _ (fun r => eval (k r) (<[x := None]> env)));
        [by eapply await_child|]. intros r m' H'. eapply IH; [exact H'|by apply holds_take].
    + rewrite (holds_none _ _ _ _ Hh Hx).
      eapply (sim_empty m h _ x); [exact H|exact Hh|exact Hx| |].
      * body_step H. by rewrite local_lookup, Hx.
      * intros m' ls' own' H' Hh'. by eapply IH.
  - cbn [eval]. destruct (mjoin (ls !! x)) as [c|] eqn:Hx.
    + destruct (holds_some _ _ _ _ _ Hh Hx) as (b & Hc & -> & Hs).
      eapply (continues_reaches m h k w _ _ rest _ (fun r => eval (k r) (<[x := None]> env)));
        [by eapply sync_child|]. intros r m' H'. eapply IH; [exact H'|by apply holds_take].
    + rewrite (holds_none _ _ _ _ Hh Hx).
      eapply (sim_empty m h _ x); [exact H|exact Hh|exact Hx| |].
      * body_step H. by rewrite local_lookup, Hx.
      * intros m' ls' own' H' Hh'. by eapply IH.
  - eapply sim_assign; [exact H|exact Hh|]. intros env' m' ls' own' H' Hh'. by eapply IH.
  - cbn [eval].
    destruct (destroy_local m h _ w ls env own rest x
      (fun m => goes_on h b (set_frame h (set_local x None (running w ls)) m)) H Hh)
      as (own' & Hsub & Hh' & Hd).
    eapply (local_step m); [exact H| | |exact Hsub| | | | |].
    + body_step H. exact Hd.
    + cbn. by rewrite insert_insert_eq.
    + done.
    + done.
    + done.
    + done.
    + intros H'. exact (IH _ _ _ _ _ _ _ H' Hh').
  - cbn [eval].
    eapply (local_step m m h _ (k (bool_decide (mjoin (env !! x) = None))));
      [exact H| |apply H|reflexivity|done..|].
    + body_step H. rewrite local_lookup. destruct (mjoin (ls !! x)) as [c|] eqn:Hx.
      * destruct (holds_some _ _ _ _ _ Hh Hx) as (b & Hc & -> & _).
        destruct (frames_own _ _ _ _ _ _ _ _ _ H Hc) as [-> _]. done.
      * by rewrite (holds_none _ _ _ _ Hh Hx).
    + intros H'. exact (IH _ _ _ _ _ _ _ _ H' Hh).
  - eapply sim_operation; [exact H|exact Hh|]. intros v m' H'. by eapply IH.
Qed.

(** ** Facts: the root *)

(** [run_until_complete] in direct style. *)
Definition complete (task : option Body) (rs : list Round) : Verdict * Loop :=
  match task with
  | None => (Ends (inr logic_error), (rs, None))
  | Some b => eval b [] false (rs, None)
  end.

Definition is_final (n : Next) : Prop := match n with Goes _ => False | _ => True end.

Lemma run_star m m' fuel :
  rtc goes m m' -> exists fuel', run fuel' m = run fuel m'.
Proof.
  intros H. induction H as [m|m1 m2 m3 Hs _ [f IH]]; [by exists fuel|].
  exists (S f). cbn [run]. by rewrite Hs.
Qed.

Lemma run_final m m' n : rtc goes m m' -> step m' = n -> is_final n -> exists fuel, run fuel m = n.
Proof.
  intros H Hs Hn. destruct (run_star m m' 1 H) as [f Hf]. exists f. rewrite Hf. cbn [run].
  rewrite Hs. by destruct n.
Qed.

Lemma run_once_final fuel fuel' m :
  is_final (run fuel m) -> is_final (run fuel' m) -> run fuel m = run fuel' m.
Proof.
  revert fuel' m. induction fuel as [|fuel IH]; intros [|fuel'] m; cbn [run]; [done..|].
  destruct (step m); [by apply IH|done..].
Qed.

(** The task runs, and the root takes its ending. *)
Lemma root_reaches b rs :
  match eval b [] false (rs, None) with
  | (Ends r, l) =>
      exists m m', rtc goes (begin (Some b) rs) m /\ step m = Finished m' /\ frames m' = ∅ /\
        outstanding m' = [] /\ loop_of m' = l /\
        root_failure (root m') = match r with inl _ => None | inr e => Some e end
  | (Dies site, _) => exists m, rtc goes (begin (Some b) rs) m /\ step m = Terminated site
  | (Waits, _) => exists m m', rtc goes (begin (Some b) rs) m /\ step m = Blocked m'
  end.
Proof.
  set (m1 := await_suspend the_root 0 (fresh_frame b)
               (set_root (mk_root (root_awaiting 0) false None) (begin (Some b) rs))).
  set (m2 := set_control (run_body 0 b) (set_frame 0 (running (Some the_root) []) m1)).
  assert (Hst : rtc goes (begin (Some b) rs) m2).
  { eapply (rtc_l _ _ m1); [done|]. by apply rtc_once. }
  assert (H2 : in_body m2 0 b (Some the_root) [] ∅ ∅).
  { split; try done.
    intros c f Hc. cbn in Hc. destruct c as [|c]; [cbn; lia|].
    rewrite !lookup_insert_ne in Hc by lia. by rewrite lookup_singleton_ne in Hc by lia. }
  pose proof (simulation b m2 0 _ [] [] ∅ ∅ H2 holds_nil) as H.
  change (in_sync m2) with false in H. change (loop_of m2) with (rs, None : option Error) in H.
  unfold reaches in H. destruct (eval b [] false (rs, None)) as [[r|site|] l]; cbn [fst snd] in H.
  - destruct H as (m3 & Hst3 & Hf & Hs & Ho & Hr & Hl & _ & Hk).
    set (fin := mk_root root_end true match r with inl _ => None | inr e => Some e end).
    set (m4 := set_control resumed (set_root fin (set_frames ∅ m3))).
    assert (S4 : step m3 = Goes m4).
    { unfold step. rewrite Hk. cbn [transfer]. unfold resume_root. rewrite Hr.
      cbn [root m2 set_control set_frame set_frames m1 await_suspend set_root root_position].
      by rewrite (take_ending _ _ _ _ ∅ Hf). }
    exists m4, m4. split_and!; try done.
    + etransitivity; [exact Hst|]. etransitivity; [exact Hst3|]. by apply rtc_once.
    + unfold step. cbn. by rewrite Hs.
  - destruct H as (m3 & Hst3 & H). exists m3. split; [by etransitivity|done].
  - destruct H as (m3 & m4 & Hst3 & H). exists m3, m4. split; [by etransitivity|done].
Qed.

(** Where a program can die, in direct style. *)
Definition dies_well (o : Verdict * Loop) : Prop :=
  forall site, fst o = Dies site -> site = in_sync_get \/ site = cannot_pump.

Definition dens_well (env : list (option Den)) : Prop :=
  forall d, Some d ∈ env -> forall sync l, dies_well (d sync l).

Lemma dies_well_next l v : next_of l = inl v -> forall l', dies_well (v, l').
Proof.
  unfold next_of. destruct l as [rs [e|]]; cbn [fst snd].
  - intros [= <-] l' site [= <-]. by right.
  - induction rs as [|r rs IH]; cbn [next_answer]; [by intros [= <-]|].
    destruct (delivers r), (reports r); [done|done| |done].
    intros [= <-] l' site [= <-]. by right.
Qed.

Lemma dens_well_nil : dens_well [].
Proof. by intros d ?%not_elem_of_nil. Qed.

Lemma dens_well_none env x : dens_well env -> dens_well (<[x := None]> env).
Proof.
  intros H d [y Hy]%list_elem_of_lookup. apply lookup_set_none in Hy as [_ Hy].
  apply H. by eapply list_elem_of_lookup_2.
Qed.

Lemma dens_well_lookup env x d : dens_well env -> mjoin (env !! x) = Some d ->
  forall sync l, dies_well (d sync l).
Proof.
  intros H Hx. apply H. apply list_elem_of_lookup. exists x.
  destruct (env !! x) as [[?|]|]; by simplify_eq/=.
Qed.

Lemma dies_well_then o k :
  dies_well o -> (forall r l, dies_well (k r l)) -> dies_well (and_then o k).
Proof. intros Ho Hk. destruct o as [[r|site|] l]; [apply Hk|done|done]. Qed.

Lemma eval_dies_well b : forall env sync l, dens_well env -> dies_well (eval b env sync l).
Proof.
  induction b as [v|e|child IHc b IH|x k IH|x k IH|x y b IH|x b IH|x k IH|k IH];
    intros env sync l He; cbn [eval]; try done.
  - apply IH. intros d [Hd|[= ->]%list_elem_of_singleton]%elem_of_app; [by apply He|].
    intros. apply IHc, dens_well_nil.
  - destruct (mjoin (env !! x)) as [d|] eqn:Hx; [|by apply IH, dens_well_none].
    apply dies_well_then; [by eapply dens_well_lookup|]. intros r l'. by apply IH, dens_well_none.
  - destruct (mjoin (env !! x)) as [d|] eqn:Hx; [|by apply IH, dens_well_none].
    apply dies_well_then; [by eapply dens_well_lookup|]. intros r l'. by apply IH, dens_well_none.
  - destruct (_ || _); [by apply IH|]. apply IH, dens_well_none.
    intros d [z Hz]%list_elem_of_lookup.
    apply list_lookup_insert_Some in Hz as [(<- & Hm & _)|[_ Hz]].
    + by eapply dens_well_lookup.
    + apply He. by eapply list_elem_of_lookup_2.
  - by apply IH, dens_well_none.
  - by apply IH.
  - destruct sync; [intros site [= <-]; by left|].
    destruct (next_of l) as [v|[v l']] eqn:E; [by eapply dies_well_next|by apply IH].
Qed.

(** ** The properties *)

(** C10: Awaiting is calling.  Whatever the tasks of a program do with one another
    (create, move, drop, await, sync_get, nest, throw and catch) and whatever the
    loop answers, [run_until_complete] ends exactly as the direct-style evaluation
    of the program says: it returns what the last [run_once] reported, or throws
    what the root task threw; the answers are consumed in order; and when it ends
    every frame has been destroyed and the loop holds no handle.  The program dies
    exactly where the evaluation says, and otherwise waits for the loop. *)
Theorem tasks_direct_style task rs :
  exists fuel,
    match complete task rs with
    | (Ends r, (rs', e)) =>
        exists m, run fuel (begin task rs) = Finished m /\ frames m = ∅ /\ outstanding m = [] /\
          rounds m = rs' /\
          completed m =
            match r with
            | inr x => inl x
            | inl _ => inr match e with Some e => Fail e | None => Ok tt end
            end
    | (Dies site, _) => run fuel (begin task rs) = Terminated site
    | (Waits, _) => exists m, run fuel (begin task rs) = Blocked m
    end.
Proof.
  destruct task as [b|]; [|exists 2; by eexists]. cbn [complete].
  pose proof (root_reaches b rs) as H. destruct (eval b [] false (rs, None)) as [[r|site|] [rs' e]].
  - destruct H as (m & m' & Hst & Hs & Hf & Ho & [= <- <-] & Hr).
    destruct (run_final _ _ _ Hst Hs) as [fuel Hfuel]; [done|]. exists fuel, m'.
    split_and!; try done. unfold completed. rewrite Hr. by destruct r.
  - destruct H as (m & Hst & Hs). by apply (run_final _ _ _ Hst Hs).
  - destruct H as (m & m' & Hst & Hs). destruct (run_final _ _ _ Hst Hs) as [fuel Hfuel]; [done|].
    by exists fuel, m'.
Qed.

(** C11: Nothing dangles.  In no run, however far it has come, is a frame resumed
    that is running or finished, a frame touched that has been destroyed, a result
    taken that is not there, or a started and unfinished frame destroyed: neither the
    destructor of a task nor that of an awaiter ever terminates the program, and the
    loop is never left with nothing outstanding.  What can terminate it is a
    [sync_get] of a task that suspends, and a loop that cannot be pumped. *)
Theorem tasks_never_dangle task rs fuel :
  match run fuel (begin task rs) with
  | Fault => False
  | Terminated site => site = in_sync_get \/ site = cannot_pump
  | Finished m => frames m = ∅ /\ outstanding m = []
  | Goes _ | Blocked _ => True
  end.
Proof.
  destruct task as [b|].
  2: { destruct fuel as [|[|fuel]]; [done|done|]. by destruct fuel. }
  pose proof (root_reaches b rs) as H. pose proof (eval_dies_well b [] false (rs, None) dens_well_nil) as Hd.
  destruct (run fuel (begin (Some b) rs)) as [m|m|m|site|] eqn:E; [done| |done| |];
    destruct (eval b [] false (rs, None)) as [[r|site'|] l];
    repeat match type of H with ex _ => destruct H as [? H] end; destruct H as (Hst & Hs & H') || destruct H as [Hst Hs];
    destruct (run_final _ _ _ Hst Hs) as [fuel' Hf]; try done;
    (assert (Heq : run fuel (begin (Some b) rs) = run fuel' (begin (Some b) rs))
       by (apply run_once_final; [by rewrite E|by rewrite Hf])); rewrite E, Hf in Heq; simplify_eq.
  - by destruct H' as (? & ? & _).
  - by apply Hd.
Qed.

(** A program: the second child is awaited first and reads two answers, the first
    is dropped without having run, the exception of the third is caught. *)
Definition sample : Body :=
  Make (Operation (fun _ => Return 0))
    (Make (Operation (fun a => Operation (fun b => Return (a + b)%Z)))
       (Await 1 (fun sum =>
          Drop 0
            (Make (Throw 7)
               (Await 2 (fun caught =>
                  match sum, caught with
                  | inl v, inr e => Throw (v + e)%Z
                  | _, _ => Return 0
                  end)))))).

Definition sample_rounds : list Round :=
  [mk_round None None; mk_round (Some 3%Z) None; mk_round (Some 4%Z) (Some io_error)].

Example sample_runs :
  complete (Some sample) sample_rounds = (Ends (inr 14%Z), ([], Some io_error)) /\
  match run 40 (begin (Some sample) sample_rounds) with
  | Finished m => completed m = inl 14%Z
  | _ => False
  end.
Proof. split; vm_compute; reflexivity. Qed.

(** [sync_get] of a task that suspends. *)
Example sync_get_suspends :
  run 20 (begin (Some (Make (Operation (fun v => Return v)) (SyncGet 0 (fun _ => Return 0)))) [])
  = Terminated in_sync_get.
Proof. vm_compute. reflexivity. Qed.
