(* ===== verification/TaskScope.v ===== *)
(** * TaskScope: structured ownership of child tasks (core/task_scope.hpp)

    Every child runs inside a [Runner] coroutine whose frame the scope owns.  A
    run of the program is a sequence of events: calls of the scope's methods,
    children that throw or finish, and returns of the [resume()] inside
    [Runner::start].  Touching a destroyed frame and [std::terminate] are outcomes
    of their own, so that their absence can be stated. *)

From stdpp Require Import gmap.
From S2P Require Import Prelude.

Local Open Scope Z_scope.

Abbreviation RunnerId := positive.
Abbreviation Exn := Z.

(** Where a live runner frame stands: its child is running or suspended, the
    catch block has been left, or it is at its final suspend point
    ([promise.retired]). *)
Module Phase.
Inductive t :=
| running
| caught
| final.
End Phase.

#[export] Instance phase_eq_dec : EqDecision Phase.t.
Proof. solve_decision. Defined.

(** The task returned by [join()]. *)
Module Join.
Inductive t :=
| not_requested
| created
| waiting
| finished (failure : option Exn).
End Join.

#[export] Instance join_eq_dec : EqDecision Join.t.
Proof. solve_decision. Defined.

(** [TaskScope]'s members; [waiter_] is set when the join coroutine is parked. *)
Record Scope := mk_scope {
  failure_ : option Exn;
  stop_requested : bool;
  retired_ : list RunnerId;
  waiter_ : bool;
  pending_ : Z;
  used_ : bool;
  joining_ : bool;
  joined_ : bool;
}.

Definition new_scope : Scope := mk_scope None false [] false 0 false false false.

(** The scope with the frames around it: the live runner frames, the calls of
    [Runner::start] still inside [resume()] (innermost first), the join task, and
    what the children threw, in order. *)
Record World := mk_world {
  w_scope : Scope;
  w_alive : bool;
  w_frames : gmap RunnerId Phase.t;
  w_starting : list RunnerId;
  w_join : Join.t;
  w_thrown : list Exn;
}.

Definition new_world : World := mk_world new_scope true ∅ [] Join.not_requested [].

Inductive Verdict :=
| fine (w : World)
| threw_logic_error (w : World)
| threw_invalid_argument (w : World)
| terminated
| dangling.

Definition set_scope (s : Scope) (w : World) : World :=
  mk_world s (w_alive w) (w_frames w) (w_starting w) (w_join w) (w_thrown w).
Definition set_frames (f : gmap RunnerId Phase.t) (w : World) : World :=
  mk_world (w_scope w) (w_alive w) f (w_starting w) (w_join w) (w_thrown w).
Definition set_starting (l : list RunnerId) (w : World) : World :=
  mk_world (w_scope w) (w_alive w) (w_frames w) l (w_join w) (w_thrown w).
Definition set_join (j : Join.t) (w : World) : World :=
  mk_world (w_scope w) (w_alive w) (w_frames w) (w_starting w) j (w_thrown w).

(** [spawn(task)], up to the [resume()] in [Runner::start]. *)
Definition spawn (r : RunnerId) (empty : bool) (w : World) : Verdict :=
  let s := w_scope w in
  if joining_ s then threw_logic_error w
  else if empty then threw_invalid_argument w
  else fine (mk_world
    (mk_scope (failure_ s) (stop_requested s) (retired_ s) (waiter_ s) (wrap64 (pending_ s + 1))
       true (joining_ s) (joined_ s))
    (w_alive w) (<[r := Phase.running]> (w_frames w)) (r :: w_starting w) (w_join w) (w_thrown w)).

(** [retired_.erase] of the last entry that is [r], if there is one. *)
Fixpoint erase_last (r : RunnerId) (l : list RunnerId) : option (list RunnerId) :=
  match l with
  | [] => None
  | x :: l =>
      match erase_last r l with
      | Some l' => Some (x :: l')
      | None => if bool_decide (x = r) then Some l else None
      end
  end.

(** [runner.destroy()] *)
Definition destroy_frame (r : RunnerId) (w : World) : Verdict :=
  match w_frames w !! r with
  | None => dangling
  | Some _ => fine (set_frames (delete r (w_frames w)) w)
  end.

Definition set_retired (l : list RunnerId) (s : Scope) : Scope :=
  mk_scope (failure_ s) (stop_requested s) l (waiter_ s) (pending_ s) (used_ s) (joining_ s) (joined_ s).

(** [reclaim(runner)] *)
Definition reclaim (r : RunnerId) (w : World) : Verdict :=
  match erase_last r (retired_ (w_scope w)) with
  | Some l => destroy_frame r (set_scope (set_retired l (w_scope w)) w)
  | None => destroy_frame r w
  end.

(** The rest of [Runner::start], when [resume()] returns. *)
Definition start_returns (w : World) : Verdict :=
  match w_starting w with
  | [] => fine w
  | r :: rest =>
      let w := set_starting rest w in
      match w_frames w !! r with
      | None => dangling
      | Some p => if bool_decide (p = Phase.final)
                  then (if w_alive w then reclaim r w else dangling)
                  else fine w
      end
  end.

(** [request_stop()] *)
Definition request_stop (s : Scope) : Scope :=
  mk_scope (failure_ s) true (retired_ s) (waiter_ s) (pending_ s) (used_ s) (joining_ s) (joined_ s).

(** The catch block of [run_child]. *)
Definition catch_exception (r : RunnerId) (e : Exn) (w : World) : Verdict :=
  let s := w_scope w in
  let s := match failure_ s with
           | Some _ => s
           | None => request_stop (mk_scope (Some e) (stop_requested s) (retired_ s) (waiter_ s)
                       (pending_ s) (used_ s) (joining_ s) (joined_ s))
           end in
  fine (mk_world s (w_alive w) (<[r := Phase.caught]> (w_frames w)) (w_starting w) (w_join w)
          (w_thrown w ++ [e])).

(** What [wait_for_children] does after its [co_await]. *)
Definition join_resumed (w : World) : World :=
  let s := w_scope w in
  set_join (Join.finished (failure_ s))
    (set_scope (mk_scope (failure_ s) (stop_requested s) (retired_ s) (waiter_ s) (pending_ s)
                  (used_ s) (joining_ s) true) w).

(** [child_completed()], and the resumption of the coroutine it returns. *)
Definition child_completed (w : World) : World :=
  let s := w_scope w in
  let pending := wrap64 (pending_ s - 1) in
  let awake := (pending =? 0) && waiter_ s in
  let s := mk_scope (failure_ s) (stop_requested s) (retired_ s)
             (if awake then false else waiter_ s) pending (used_ s) (joining_ s) (joined_ s) in
  if awake then join_resumed (set_scope s w) else set_scope s w.

(** [Runner::promise_type::FinalAwaiter::await_suspend] with [retire] *)
Definition runner_final (r : RunnerId) (w : World) : Verdict :=
  let s := w_scope w in
  fine (child_completed
    (set_frames (<[r := Phase.final]> (w_frames w))
       (set_scope (set_retired (retired_ s ++ [r]) s) w))).

(** [join()] *)
Definition join (w : World) : Verdict :=
  let s := w_scope w in
  if joining_ s then threw_logic_error w
  else fine (set_join Join.created
    (set_scope (mk_scope (failure_ s) (stop_requested s) (retired_ s) (waiter_ s) (pending_ s)
                  (used_ s) true (joined_ s)) w)).

(** The join task is driven: [JoinAwaiter::await_ready] and [await_suspend]. *)
Definition join_start (w : World) : Verdict :=
  let s := w_scope w in
  if pending_ s =? 0 then fine (join_resumed w)
  else fine (set_join Join.waiting
    (set_scope (mk_scope (failure_ s) (stop_requested s) (retired_ s) true (pending_ s)
                  (used_ s) (joining_ s) (joined_ s)) w)).

(** [for (auto runner : retired_) runner.destroy();] *)
Fixpoint destroy_all (l : list RunnerId) (w : World) : Verdict :=
  match l with
  | [] => fine w
  | r :: l => match destroy_frame r w with
              | fine w => destroy_all l w
              | v => v
              end
  end.

(** [~TaskScope()] *)
Definition destroy_scope (w : World) : Verdict :=
  let s := w_scope w in
  if negb (joined_ s) && (used_ s || joining_ s) then terminated
  else match destroy_all (retired_ s) w with
       | fine w => fine (mk_world (w_scope w) false (w_frames w) (w_starting w) (w_join w) (w_thrown w))
       | v => v
       end.

(** ** Runs *)

Inductive Event :=
| ev_spawn (r : RunnerId) (empty : bool)
| ev_start_returns
| ev_child_throws (r : RunnerId) (e : Exn)
| ev_child_ends (r : RunnerId)
| ev_request_stop
| ev_join
| ev_join_driven
| ev_destroy.

Definition happens (ev : Event) (w : World) : Verdict :=
  match ev with
  | ev_spawn r empty => spawn r empty w
  | ev_start_returns => start_returns w
  | ev_child_throws r e => catch_exception r e w
  | ev_child_ends r => runner_final r w
  | ev_request_stop => fine (set_scope (request_stop (w_scope w)) w)
  | ev_join => join w
  | ev_join_driven => join_start w
  | ev_destroy => destroy_scope w
  end.

(** When an event can happen: methods are called on a live scope, a new frame has
    a new address and the counter has room, a child throws or ends once, the join
    task is driven once, and a call returns only if it was made. *)
Definition can_happen (ev : Event) (w : World) : bool :=
  match ev with
  | ev_spawn r _ => w_alive w && bool_decide (w_frames w !! r = None) && negb (bool_decide (r ∈ w_starting w)) &&
                    (Z.of_nat (size (w_frames w)) <? 2 ^ 64 - 1)
  | ev_start_returns => negb (bool_decide (w_starting w = []))
  | ev_child_throws r _ => bool_decide (w_frames w !! r = Some Phase.running)
  | ev_child_ends r => bool_decide (w_frames w !! r = Some Phase.running) ||
                       bool_decide (w_frames w !! r = Some Phase.caught)
  | ev_request_stop | ev_join => w_alive w
  | ev_join_driven => w_alive w && bool_decide (w_join w = Join.created)
  | ev_destroy => w_alive w
  end.

(** The documented rule for destroying a scope (joined, or never used), and one
    the documentation does not state: not while a [spawn] is on the stack. *)
Definition destroys_late (ev : Event) (w : World) : bool :=
  match ev with
  | ev_destroy => (joined_ (w_scope w) || negb (used_ (w_scope w) || joining_ (w_scope w))) &&
                  bool_decide (w_starting w = [])
  | _ => true
  end.

Definition world_of (v : Verdict) : option World :=
  match v with
  | fine w | threw_logic_error w | threw_invalid_argument w => Some w
  | terminated | dangling => None
  end.

Inductive step (w : World) (ev : Event) (w' : World) : Prop :=
| step_intro :
    can_happen ev w = true -> destroys_late ev w = true -> world_of (happens ev w) = Some w' -> step w ev w'.

Inductive reachable : World -> Prop :=
| reach_new : reachable new_world
| reach_step w ev w' : reachable w -> step w ev w' -> reachable w'.

(** ** The invariant *)

(** The runners that have not reached their final suspend point. *)
Definition unfinished (w : World) : gmap RunnerId Phase.t :=
  filter (fun kv => kv.2 <> Phase.final) (w_frames w).

(** Where the join task is, the scope's flags say; it waits only while there is
    a child to wake it, and its result is what the first child to fail threw. *)
Definition join_state (w : World) : Prop :=
  let s := w_scope w in
  match w_join w with
  | Join.not_requested => joining_ s = false /\ joined_ s = false /\ waiter_ s = false
  | Join.created => joining_ s = true /\ joined_ s = false /\ waiter_ s = false
  | Join.waiting => joining_ s = true /\ joined_ s = false /\ waiter_ s = true /\ unfinished w <> ∅
  | Join.finished f =>
      joining_ s = true /\ joined_ s = true /\ waiter_ s = false /\ unfinished w = ∅ /\ f = head (w_thrown w)
  end.

Record scope_inv (w : World) : Prop := mk_scope_inv {
  inv_pending : pending_ (w_scope w) = Z.of_nat (size (unfinished w));
  inv_room : Z.of_nat (size (w_frames w)) < 2 ^ 64;
  inv_failure : failure_ (w_scope w) = head (w_thrown w);
  inv_join : join_state w;
  inv_used : used_ (w_scope w) = false -> w_frames w = ∅;
  inv_nodup : NoDup (retired_ (w_scope w));
  inv_retired : w_alive w = true ->
    forall r, r ∈ retired_ (w_scope w) <-> w_frames w !! r = Some Phase.final;
  inv_gone : w_alive w = false -> w_frames w = ∅;
  inv_starting : NoDup (w_starting w) /\ forall r, r ∈ w_starting w -> is_Some (w_frames w !! r);
}.

Section Frames.
Implicit Types (m : gmap RunnerId Phase.t) (r : RunnerId).
Local Abbreviation busy m := (filter (fun kv => kv.2 <> Phase.final) m).

Lemma busy_start m r p :
  m !! r = None -> p <> Phase.final -> busy (<[r := p]> m) = <[r := p]> (busy m).
Proof. intros Hr Hp. by apply map_filter_insert_True. Qed.

Lemma busy_size_start m r p :
  m !! r = None -> p <> Phase.final -> size (busy (<[r := p]> m)) = S (size (busy m)).
Proof.
  intros Hr Hp. rewrite busy_start by done. apply map_size_insert_None.
  apply map_lookup_filter_None. by left.
Qed.

Lemma busy_size_keep m r p q :
  m !! r = Some p -> p <> Phase.final -> q <> Phase.final ->
  size (busy (<[r := q]> m)) = size (busy m).
Proof.
  intros Hr Hp Hq. rewrite map_filter_insert_True by done. apply map_size_insert_Some.
  exists p. by apply map_lookup_filter_Some.
Qed.

Lemma busy_size_end m r p :
  m !! r = Some p -> p <> Phase.final ->
  size (busy m) = S (size (busy (<[r := Phase.final]> m))).
Proof.
  intros Hr Hp. rewrite map_filter_insert_False, map_filter_delete by naive_solver.
  assert (busy m !! r = Some p) as Hb by (by apply map_lookup_filter_Some).
  rewrite map_size_delete_Some by done. enough (size (busy m) <> 0%nat) by lia.
  intros E%map_size_empty_inv. by rewrite E in Hb.
Qed.

Lemma busy_delete m r : m !! r = Some Phase.final -> busy (delete r m) = busy m.
Proof.
  intros Hr. rewrite map_filter_delete. apply delete_id. apply map_lookup_filter_None.
  right. intros x Hx Hn. simpl in Hn. congruence.
Qed.

Lemma size_replace m r p q : m !! r = Some p -> size (<[r := q]> m) = size m.
Proof. intros Hr. apply map_size_insert_Some. by exists p. Qed.
End Frames.

(** [erase_last] removes the one entry there is. *)
Lemma erase_last_spec r l :
  match erase_last r l with Some l' => Permutation l (r :: l') | None => r ∉ l end.
Proof.
  induction l as [|x l IH]; simpl; [apply not_elem_of_nil|].
  destruct (erase_last r l) as [l'|]; [rewrite IH; constructor|].
  case_bool_decide as E; [by subst|]. set_solver.
Qed.

Lemma scope_inv_new : scope_inv new_world.
Proof.
  split; try done; [constructor| |].
  - intros _ r. simpl. rewrite lookup_empty, elem_of_nil. done.
  - split; [constructor|]. by intros r ?%elem_of_nil.
Qed.

(** ** The events keep it *)

(** Turn the tests of [can_happen] into propositions. *)
Ltac decide_facts :=
  bool_facts;
  repeat match goal with
  | H : bool_decide _ = true |- _ => apply bool_decide_eq_true in H
  | H : bool_decide _ = false |- _ => apply bool_decide_eq_false in H
  | H : (_ || _) = true |- _ => apply orb_true_iff in H
  end.

Lemma destroy_frame_inv w (I : scope_inv w) r (Hr : w_frames w !! r = Some Phase.final) l :
  Permutation (retired_ (w_scope w)) (r :: l) -> w_alive w = true -> r ∉ w_starting w ->
  scope_inv (set_frames (delete r (w_frames w)) (set_scope (set_retired l (w_scope w)) w)).
Proof.
  intros Hl Ha Hst. destruct I as [Hp Hro Hf Hj Hu Hn Hret Hg [Hs1 Hs2]].
  rewrite Hl in Hn. apply NoDup_cons in Hn as [Hrl Hn].
  split; simpl; try done; unfold join_state, unfinished in *; simpl.
  - by rewrite busy_delete.
  - rewrite map_size_delete_Some by (by eexists). lia.
  - by rewrite busy_delete.
  - intros E. rewrite (Hu E). apply delete_empty.
  - intros _ x. rewrite lookup_delete. case_decide; [subst; done|]. rewrite <- Hret, Hl by done. set_solver.
  - congruence.
  - split; [done|]. intros x Hx. rewrite lookup_delete_ne by congruence. by apply Hs2.
Qed.

Section Preserved.
Context (w : World) (I : scope_inv w).

Lemma spawn_inv r empty :
  can_happen (ev_spawn r empty) w = true -> exists w', world_of (spawn r empty w) = Some w' /\ scope_inv w'.
Proof.
  simpl. intros Hc. destruct I as [Hp Hr Hf Hj Hu Hn Hret Hg [Hs1 Hs2]]. decide_facts.
  unfold spawn. destruct (joining_ (w_scope w)) eqn:Ej; [by eexists|]. destruct empty; [by eexists|].
  eexists. split; [done|]. assert (w_join w = Join.not_requested) as Hnr.
  { unfold join_state in Hj. destruct (w_join w); [done|..]; destruct Hj as [Hj _]; congruence. }
  split; simpl; try done.
  - unfold unfinished in *. simpl. rewrite busy_size_start, Hp by done.
    unfold wrap64. rewrite Z.mod_small; [lia|]. pose proof (map_size_filter (fun kv => kv.2 <> Phase.final) (w_frames w)). lia.
  - rewrite map_size_insert_None by done. lia.
  - unfold join_state in *. simpl. rewrite Hnr in Hj |- *. by destruct Hj as (_ & ? & ?).
  - intros _ x. rewrite lookup_insert. rewrite Hret by done. case_decide; [subst; naive_solver|done].
  - congruence.
  - split; [by constructor|]. intros x Hx. rewrite lookup_insert. case_decide; [by eexists|].
    apply elem_of_cons in Hx as [Hx|Hx]; [congruence|by apply Hs2].
Qed.

Lemma start_returns_inv :
  can_happen ev_start_returns w = true ->
  exists w', start_returns w = fine w' /\ scope_inv w'.
Proof.
  simpl. intros Hc. decide_facts. unfold start_returns.
  destruct (w_starting w) as [|r rest] eqn:Es; [done|].
  assert (scope_inv (set_starting rest w)) as I'.
  { destruct I as [Hp Hro Hf Hj Hu Hn Hret Hg [Hs1 Hs2]]. split; try done. simpl. rewrite Es in *.
    split; [by apply NoDup_cons in Hs1 as [_ ?]|]. intros x Hx. apply Hs2. by right. }
  destruct (inv_starting w I) as [Hnd Hlive]. rewrite Es in Hnd. apply NoDup_cons in Hnd as [Hrest _].
  destruct (Hlive r) as [p Hr]; [rewrite Es; by left|]. simpl. rewrite Hr.
  case_bool_decide as E; [|by eexists]. subst p.
  destruct (w_alive w) eqn:Ea; [|by rewrite (inv_gone w I Ea) in Hr].
  unfold reclaim. simpl. pose proof (erase_last_spec r (retired_ (w_scope w))) as Hl.
  assert (r ∈ retired_ (w_scope w)) as Hin by (by apply (inv_retired w I Ea)).
  destruct (erase_last r (retired_ (w_scope w))) as [l|]; [|done].
  unfold destroy_frame. simpl. rewrite Hr. eexists. split; [done|].
  by apply (destroy_frame_inv (set_starting rest w) I' r Hr l).
Qed.

Lemma child_throws_inv r e :
  can_happen (ev_child_throws r e) w = true -> exists w', catch_exception r e w = fine w' /\ scope_inv w'.
Proof.
  simpl. intros Hc. decide_facts. destruct I as [Hp Hro Hf Hj Hu Hn Hret Hg [Hs1 Hs2]].
  unfold catch_exception. eexists. split; [done|].
  assert (size (unfinished w) <> 0%nat) as Hbusy.
  { unfold unfinished. rewrite (busy_size_end _ r Phase.running) by done. lia. }
  assert (unfinished w <> ∅) as Hne by (intros E; apply Hbusy; by rewrite E).
  split; simpl; unfold join_state, unfinished in *; simpl.
  - rewrite (busy_size_keep _ r Phase.running) by done. rewrite Hf. by destruct (w_thrown w).
  - by rewrite (size_replace _ r Phase.running).
  - rewrite Hf. by destruct (w_thrown w).
  - assert (forall f, w_join w <> Join.finished f) as Hnf.
    { intros f E. rewrite E in Hj. by destruct Hj as (_ & _ & _ & ? & _). }
    rewrite Hf. destruct (w_join w); [destruct (w_thrown w); exact Hj|destruct (w_thrown w); exact Hj| |by edestruct Hnf].
    destruct Hj as (? & ? & ? & _).
    assert (filter (fun kv => kv.2 <> Phase.final) (<[r:=Phase.caught]> (w_frames w)) <> ∅).
    { rewrite map_filter_insert_True by done. apply insert_non_empty. }
    by destruct (w_thrown w).
  - intros E. assert (used_ (w_scope w) = false) as Eu by (by destruct (failure_ (w_scope w))).
    by rewrite (Hu Eu) in Hc.
  - by destruct (failure_ (w_scope w)).
  - intros Ha x. rewrite lookup_insert. transitivity (x ∈ retired_ (w_scope w)); [by destruct (failure_ _)|].
    rewrite Hret by done. case_decide; [subst x; split; congruence|done].
  - intros Ha. by rewrite (Hg Ha) in Hc.
  - split; [done|]. intros x Hx. rewrite lookup_insert. case_decide; [by eexists|by apply Hs2].
Qed.

Lemma join_inv : exists w', world_of (join w) = Some w' /\ scope_inv w'.
Proof.
  destruct I as [Hp Hro Hf Hj Hu Hn Hret Hg Hs]. unfold join.
  destruct (joining_ (w_scope w)) eqn:Ej; [by eexists|]. eexists. split; [done|].
  split; try done. unfold join_state in *. simpl.
  destruct (w_join w); destruct Hj as (? & ? & ?); congruence || done.
Qed.

Lemma request_stop_inv : scope_inv (set_scope (request_stop (w_scope w)) w).
Proof. by destruct I. Qed.

(** The join coroutine goes on once nothing is left to wait for. *)
Lemma join_resumed_inv :
  joining_ (w_scope w) = true -> waiter_ (w_scope w) = false -> unfinished w = ∅ ->
  scope_inv (join_resumed w).
Proof.
  intros Hj Hw He. destruct I as [Hp Hro Hf _ Hu Hn Hret Hg Hs]. split; try done.
Qed.

Lemma no_unfinished : pending_ (w_scope w) = 0 -> unfinished w = ∅.
Proof. intros E. rewrite (inv_pending w I) in E. apply map_size_empty_inv. lia. Qed.

Lemma join_driven_inv :
  can_happen ev_join_driven w = true -> exists w', join_start w = fine w' /\ scope_inv w'.
Proof.
  simpl. intros Hc. decide_facts. pose proof (inv_join w I) as Hj. unfold join_state in Hj.
  match goal with H : w_join w = _ |- _ => rewrite H in Hj end. destruct Hj as (Hj & Hd & Hw).
  unfold join_start. destruct (pending_ (w_scope w) =? 0) eqn:E; bool_facts; eexists; (split; [done|]).
  - apply join_resumed_inv; [done|done|by apply no_unfinished].
  - destruct I as [Hp Hro Hf _ Hu Hn Hret Hg Hs]. split; try done. unfold join_state. simpl.
    split_and!; try done. unfold unfinished in *. simpl. intros Ee. rewrite Ee in Hp. done.
Qed.

(** A child that ends: the count goes down, and the last one wakes the join. *)
Lemma child_ends_inv r :
  can_happen (ev_child_ends r) w = true -> exists w', runner_final r w = fine w' /\ scope_inv w'.
Proof.
  intros Hc. assert (exists p, w_frames w !! r = Some p /\ p <> Phase.final) as (p & Hr & Hpf).
  { simpl in Hc. decide_facts. destruct Hc; decide_facts; by eexists. }
  destruct I as [Hp Hro Hf Hj Hu Hn Hret Hg [Hs1 Hs2]].
  assert (w_alive w = true) as Ha by (destruct (w_alive w); [done|by rewrite (Hg eq_refl) in Hr]).
  pose proof (busy_size_end _ r p Hr Hpf) as Hsize. unfold runner_final, child_completed. simpl.
  set (m := <[r:=Phase.final]> (w_frames w)) in *.
  assert (wrap64 (pending_ (w_scope w) - 1) = Z.of_nat (size (filter (fun kv => kv.2 <> Phase.final) m))) as Hp'.
  { rewrite Hp. unfold unfinished, wrap64. rewrite Hsize, Z.mod_small; [lia|].
    pose proof (map_size_filter (fun kv => kv.2 <> Phase.final) (w_frames w)). lia. }
  assert (r ∉ retired_ (w_scope w)) as Hnew by (rewrite Hret by done; congruence).
  assert (NoDup (retired_ (w_scope w) ++ [r])) as Hnd.
  { apply NoDup_app. split_and!; [done|set_solver|apply NoDup_singleton]. }
  assert (forall x, x ∈ retired_ (w_scope w) ++ [r] <-> m !! x = Some Phase.final) as Hret'.
  { intros x. unfold m. rewrite lookup_insert, elem_of_app, list_elem_of_singleton, Hret by done.
    case_decide; naive_solver. }
  assert (used_ (w_scope w) = true) as Hused.
  { destruct (used_ (w_scope w)); [done|]. by rewrite (Hu eq_refl) in Hr. }
  assert (NoDup (w_starting w) /\ forall x, x ∈ w_starting w -> is_Some (m !! x)) as Hst.
  { split; [done|]. intros x Hx. unfold m. rewrite lookup_insert. case_decide; [by eexists|by apply Hs2]. }
  assert (Z.of_nat (size m) < 2 ^ 64) as Hroom by (unfold m; by rewrite (size_replace _ r p)).
  rewrite Hp'. unfold join_state in Hj.
  destruct ((_ =? 0) && waiter_ (w_scope w)) eqn:E; bool_facts; eexists; (split; [done|]).
  - assert (w_join w = Join.waiting) as Hw.
    { destruct (w_join w); [destruct Hj as (_ & _ & ?)..|done|destruct Hj as (_ & _ & ? & _)]; congruence. }
    rewrite Hw in Hj. destruct Hj as (Hjj & _).
    assert (filter (fun kv => kv.2 <> Phase.final) m = ∅) as He by (apply map_size_empty_inv; lia).
    split; unfold join_state, unfinished; simpl; try done; try congruence.
  - split; unfold join_state, unfinished; simpl; try done; try congruence.
    destruct (w_join w) as [| | |f]; [done|done| |].
    + destruct Hj as (? & ? & Hwt & _). rewrite Hwt, andb_true_r in E. bool_facts.
      split_and!; [done|done|done|]. intros He. apply E. by rewrite He.
    + destruct Hj as (_ & _ & _ & He & _). exfalso. unfold unfinished in He. by rewrite He in Hsize.
Qed.

(** Destroying the retired frames destroys each once. *)
Lemma destroy_all_fine l w0 :
  NoDup l -> (forall r, r ∈ l -> w_frames w0 !! r = Some Phase.final) ->
  exists w', destroy_all l w0 = fine w' /\ (forall r, w_frames w' !! r = if decide (r ∈ l) then None else w_frames w0 !! r) /\
    w_scope w' = w_scope w0 /\ w_starting w' = w_starting w0 /\ w_join w' = w_join w0 /\ w_thrown w' = w_thrown w0.
Proof.
  clear I. revert w0. induction l as [|x l IH]; intros w0 Hnd Hl; simpl.
  { exists w0. split_and!; try done. }
  apply NoDup_cons in Hnd as [Hx Hnd]. unfold destroy_frame. rewrite (Hl x) by (by left).
  destruct (IH (set_frames (delete x (w_frames w0)) w0) Hnd) as (w' & -> & Hfr & Hrest).
  { intros r Hr. simpl. rewrite lookup_delete_ne by set_solver. apply Hl. by right. }
  exists w'. split_and!; try apply Hrest; [done|]. intros r. rewrite Hfr. simpl. rewrite lookup_delete.
  repeat case_decide; try done; subst; set_solver.
Qed.

(** The destructor of a joined or unused scope frees every runner frame. *)
Lemma destroy_scope_inv :
  can_happen ev_destroy w = true -> destroys_late ev_destroy w = true ->
  exists w', destroy_scope w = fine w' /\ scope_inv w' /\ w_frames w' = ∅.
Proof.
  simpl. intros Ha Hd. bool_facts. decide_facts. destruct I as [Hp Hro Hf Hj Hu Hn Hret Hg Hs].
  unfold destroy_scope. destruct (negb (joined_ _) && _) eqn:Et; [destruct (joined_ (w_scope w)), (used_ (w_scope w)), (joining_ (w_scope w)); simpl in *; intuition congruence|].
  destruct (destroy_all_fine (retired_ (w_scope w)) w) as (w' & -> & Hfr & Hsc & Hstart & Hjo & Hth);
    [done|intros r; by apply Hret|].
  assert (unfinished w = ∅) as Hidle.
  { unfold join_state in Hj. destruct (joined_ (w_scope w)) eqn:Ejd.
    - destruct (w_join w); [by destruct Hj as (_ & ? & _)..|]. by destruct Hj as (_ & _ & _ & ? & _).
    - destruct (used_ (w_scope w)) eqn:Eu; [by destruct (joining_ _)|]. unfold unfinished. by rewrite (Hu eq_refl). }
  assert (w_frames w' = ∅) as He.
  { apply map_empty. intros r. rewrite Hfr. case_decide as Hin; [done|].
    destruct (w_frames w !! r) as [p|] eqn:Er; [|done]. exfalso.
    assert (unfinished w !! r = Some p) as Hb.
    { apply map_lookup_filter_Some. split; [done|]. simpl. intros ->. by apply Hin, Hret. }
    by rewrite Hidle in Hb. }
  assert (unfinished w' = ∅) as Hu' by (unfold unfinished; by rewrite He).
  eexists. split; [done|]. split; [|done]. split; simpl; rewrite ?Hsc, ?Hstart, ?Hth; try done.
  - rewrite Hp, Hidle. unfold unfinished in *. simpl. by rewrite Hu'.
  - by rewrite He.
  - unfold join_state in *. simpl. rewrite Hjo. unfold unfinished in *. simpl. rewrite Hu'.
    rewrite Hidle in Hj. done.
  - match goal with H : w_starting w = [] |- _ => rewrite H end. split; [constructor|]. by intros r ?%elem_of_nil.
Qed.
End Preserved.

Lemma step_inv w ev :
  scope_inv w -> can_happen ev w = true -> destroys_late ev w = true ->
  exists w', world_of (happens ev w) = Some w' /\ scope_inv w'.
Proof.
  intros I Hc Hd. destruct ev; simpl happens.
  - by apply spawn_inv.
  - destruct (start_returns_inv w I Hc) as (w' & -> & ?). by exists w'.
  - destruct (child_throws_inv w I r e Hc) as (w' & -> & ?). by exists w'.
  - destruct (child_ends_inv w I r Hc) as (w' & -> & ?). by exists w'.
  - eexists. split; [done|]. by apply request_stop_inv.
  - by apply join_inv.
  - destruct (join_driven_inv w I Hc) as (w' & -> & ?). by exists w'.
  - destruct (destroy_scope_inv w I Hc Hd) as (w' & -> & ? & _). by exists w'.
Qed.

Lemma scope_reachable_inv w : reachable w -> scope_inv w.
Proof.
  induction 1 as [|w ev w' _ IH [Hc Hd Hw]]; [apply scope_inv_new|].
  destruct (step_inv w ev IH Hc Hd) as (w'' & Hw' & Hi). congruence.
Qed.

(** ** What the scope promises *)

(** C28: [join] waits for every child and reports the first failure.  In
    every reachable state [pending_] counts exactly the children that have not
    ended; a parked join always has a child left to wake it; a finished one has
    seen every child end, and its result is what the first child to fail threw
    (nothing when none did), after which [spawn] is refused.  And when the one
    remaining child ends, the parked join goes on at once with that result. *)
Theorem join_waits_for_all (w : World) (Hreach : reachable w) :
  pending_ (w_scope w) = Z.of_nat (size (unfinished w)) /\
  (w_join w = Join.waiting -> unfinished w <> ∅) /\
  (forall f, w_join w = Join.finished f ->
     unfinished w = ∅ /\ f = head (w_thrown w) /\ forall r empty, spawn r empty w = threw_logic_error w) /\
  (forall r, w_join w = Join.waiting -> can_happen (ev_child_ends r) w = true -> size (unfinished w) = 1%nat ->
     exists w', runner_final r w = fine w' /\ w_join w' = Join.finished (head (w_thrown w))).
Proof.
  pose proof (scope_reachable_inv w Hreach) as I. pose proof (inv_join w I) as Hj. unfold join_state in Hj.
  split_and!; [apply I| | |].
  - intros E. rewrite E in Hj. apply Hj.
  - intros f E. rewrite E in Hj. destruct Hj as (Hj & _ & _ & He & Hf). split_and!; [done|done|].
    intros r empty. unfold spawn. by rewrite Hj.
  - intros r E _ Hone. rewrite E in Hj. destruct Hj as (_ & _ & Hw & _).
    unfold runner_final, child_completed. simpl. rewrite (inv_pending w I), Hone, Hw.
    eexists. split; [done|]. simpl. by rewrite (inv_failure w I).
Qed.

(** no runner frame is touched after it was destroyed, none is
    destroyed twice and none is leaked.  Whatever happens to a scope that is
    destroyed only when it was joined or never used and no [spawn] of it is on
    the stack, no event terminates the program or reaches a destroyed frame, and
    the destructor leaves no frame behind. *)
Theorem frames_freed_once (w : World) (ev : Event) (Hreach : reachable w)
    (Hcan : can_happen ev w = true) (Hlate : destroys_late ev w = true) :
  (exists w', world_of (happens ev w) = Some w' /\ reachable w') /\
  (ev = ev_destroy -> exists w', destroy_scope w = fine w' /\ w_frames w' = ∅).
Proof.
  pose proof (scope_reachable_inv w Hreach) as I. split.
  - destruct (step_inv w ev I Hcan Hlate) as (w' & Hw & _). exists w'. split; [done|].
    by apply (reach_step w ev).
  - intros ->. destruct (destroy_scope_inv w I Hcan Hlate) as (w' & ? & _ & ?). by exists w'.
Qed.

(** A run: the events one after another, as long as none of them is fatal. *)
Fixpoint run_events (evs : list Event) (w : World) : Verdict :=
  match evs with
  | [] => fine w
  | ev :: evs => match world_of (happens ev w) with
                 | Some w => run_events evs w
                 | None => happens ev w
                 end
  end.

(** Every event of a run could happen. *)
Fixpoint run_possible (evs : list Event) (w : World) : bool :=
  match evs with
  | [] => true
  | ev :: evs => can_happen ev w && match world_of (happens ev w) with
                                    | Some w => run_possible evs w
                                    | None => true
                                    end
  end.

(** A child that, while [spawn] starts it, closes the scope and has the join
    task awaited elsewhere, then ends: the join resumes inside the [resume()] of
    [Runner::start], and its awaiter destroys the scope. *)
Definition join_inside_spawn : list Event :=
  [ev_spawn 1 false; ev_join; ev_join_driven; ev_child_ends 1; ev_destroy; ev_start_returns].

(** a joined scope destroyed inside [spawn] leaves a dangling frame.
    [Runner::start] reads [promise().retired] after [resume()] returns; when the
    child it started was the last one and the resumed join let its awaiter
    destroy the (joined) scope, the destructor has already destroyed that frame. *)
Theorem scope_destroyed_inside_spawn :
  run_possible join_inside_spawn new_world = true /\
  run_events join_inside_spawn new_world = dangling /\
  exists w, run_events (take 4 join_inside_spawn) new_world = fine w /\ joined_ (w_scope w) = true.
Proof. split_and!; [done|done|]. eexists. split; [vm_compute; reflexivity|done]. Qed.

(** Two children, one of which fails while the join waits. *)
Definition two_children : list Event :=
  [ev_spawn 1 false; ev_start_returns; ev_spawn 2 false; ev_start_returns; ev_join; ev_join_driven;
   ev_child_throws 2 7; ev_child_ends 2].

Lemma run_reachable evs w w' :
  reachable w -> run_possible evs w = true -> Forall (fun ev => ev <> ev_destroy) evs ->
  run_events evs w = fine w' -> reachable w'.
Proof.
  intros Hr Hp Hf Hrun. revert w Hr Hp Hrun. induction Hf as [|ev evs Hne Hf IH]; intros w Hr Hp Hrun; simpl in *.
  { by injection Hrun as <-. }
  apply andb_true_iff in Hp as [Hc Hp]. destruct (world_of (happens ev w)) as [w1|] eqn:E.
  - apply (IH w1); [|done|done]. apply (reach_step w ev); [done|]. split; [done| |done]. by destruct ev.
  - rewrite Hrun in E. done.
Qed.

(** The world a run ends in. *)
Definition after (evs : list Event) : World :=
  match run_events evs new_world with fine w => w | _ => new_world end.

Lemma after_reachable evs :
  run_possible evs new_world = true -> forallb (fun ev => match ev with ev_destroy => false | _ => true end) evs = true ->
  run_events evs new_world = fine (after evs) -> reachable (after evs).
Proof.
  intros Hp Hf. apply run_reachable; [constructor|done|]. apply Forall_forall. intros ev Hin ->.
  rewrite forallb_forall in Hf. by specialize (Hf ev_destroy (proj1 (list_elem_of_In _ _) Hin)).
Qed.

Lemma join_waits_for_all_witness :
  exists w', runner_final 1 (after two_children) = fine w' /\ w_join w' = Join.finished (Some 7).
Proof.
  assert (reachable (after two_children)) as Hr by (apply after_reachable; vm_compute; reflexivity).
  refine (proj2 (proj2 (proj2 (join_waits_for_all (after two_children) Hr))) 1%positive _ _ _);
    vm_compute; reflexivity.
Defined.

Lemma frames_freed_once_witness :
  exists w', destroy_scope (after (two_children ++ [ev_child_ends 1])) = fine w' /\ w_frames w' = ∅.
Proof.
  assert (reachable (after (two_children ++ [ev_child_ends 1]))) as Hr
    by (apply after_reachable; vm_compute; reflexivity).
  refine (proj2 (frames_freed_once _ ev_destroy Hr _ _) eq_refl); vm_compute; reflexivity.
Defined.
