(* ===== verification/Sums.v ===== *)
(** * Sums: totals over the streams of a connection

    A session keeps a counter beside a table; [total f m] is what the counter
    ought to be.  Used by the HTTP/2 session and by the QUIC and HTTP/3 engines. *)

From stdpp Require Import gmap.
From S2P Require Import Prelude.

Local Open Scope Z_scope.

Section Total.
Context {A : Type}.
Implicit Types (f : A -> Z) (m : gmap Z A).

Definition total (f : A -> Z) (m : gmap Z A) : Z := map_fold (fun _ e acc => f e + acc) 0 m.

Lemma total_empty f : total f ∅ = 0.
Proof. apply map_fold_empty. Qed.

Lemma total_new f m i e : m !! i = None -> total f (<[i := e]> m) = f e + total f m.
Proof. intros Hi. unfold total. rewrite map_fold_insert_L; [done|intros; lia|done]. Qed.

Lemma total_delete f m i e : m !! i = Some e -> total f m = f e + total f (delete i m).
Proof. intros Hi. unfold total. rewrite (map_fold_delete_L _ _ i e m); [done|intros; lia|done]. Qed.

Lemma total_put f m i e e' : m !! i = Some e -> total f (<[i := e']> m) = total f m - f e + f e'.
Proof.
  intros Hi. rewrite (total_delete f m i e Hi), <- insert_delete_eq, total_new by apply lookup_delete_eq. lia.
Qed.

Lemma total_same f m i e e' : m !! i = Some e -> f e' = f e -> total f (<[i := e']> m) = total f m.
Proof. intros Hi He. rewrite (total_put f m i e e' Hi). lia. Qed.

Lemma total_nonneg f m : (forall e, 0 <= f e) -> 0 <= total f m.
Proof.
  intros Hf. unfold total. apply (map_fold_weak_ind (fun acc _ => 0 <= acc)); [lia|]. intros i e m' acc _ ?. specialize (Hf e). lia.
Qed.

Lemma total_fmap f g m : (forall e, f (g e) = f e) -> total f (g <$> m) = total f m.
Proof.
  intros Hg. induction m as [|i e m Hi IH] using map_ind; [done|].
  rewrite fmap_insert, !total_new, IH, Hg by (rewrite ?lookup_fmap, ?Hi; done). done.
Qed.

(** One entry is part of the whole. *)
Lemma total_lookup f m i e : (forall e, 0 <= f e) -> m !! i = Some e -> f e <= total f m.
Proof. intros Hf Hi. rewrite (total_delete f m i e Hi). pose proof (total_nonneg f (delete i m) Hf). lia. Qed.

(** Equal on what is there. *)
Lemma total_ext f f' m : (forall i e, m !! i = Some e -> f e = f' e) -> total f m = total f' m.
Proof.
  induction m as [|i e m Hi IH] using map_ind; intros Hf; [done|]. rewrite !total_new by done.
  rewrite (Hf i e) by apply lookup_insert_eq. rewrite IH; [done|]. intros j e' Hj. apply (Hf j).
  rewrite lookup_insert_ne by congruence. done.
Qed.
End Total.
