(* ===== verification/Http2.v ===== *)
(** * Http2: the HTTP/2 session (http2/include/mira/http2/session.hpp, http2/src/session.cpp)

    [Session] owns the streams and their limits and leaves framing to nghttp2,
    which is a parameter ([Nghttp2]).  The library calls back while it receives
    and sends: [Calls] is such a run, a sequence of callbacks each answered by the
    session before the library goes on.  [Http2Headers] says which header lists are
    accepted, [Http2Inv] what the limits guarantee, [Http2Connection] how a session
    is driven over a stream. *)

From stdpp Require Import gmap sorting.
From S2P Require Import Prelude Errors Numerals Lines.

Local Open Scope Z_scope.
Local Open Scope mira_scope.

(** ** Data *)

Record H2Header := mk_h2 { h2_name : bytes; h2_value : bytes }.

Abbreviation H2Headers := (list H2Header).

Module Role.
Inductive t :=
| client
| server.
End Role.

Module H2State.
Inductive t :=
| open
| draining
| closed
| failed.
End H2State.

#[export] Instance role_eq_dec : EqDecision Role.t.
Proof. solve_decision. Defined.
#[export] Instance h2_state_eq_dec : EqDecision H2State.t.
Proof. solve_decision. Defined.

(** [http2::Limits] *)
Record H2Limits := mk_h2_limits {
  max_streams : Z;
  max_header_bytes : Z;
  max_headers : Z;
  max_body_bytes : Z;
  max_queued_body_bytes : Z;
  max_output_bytes : Z;
  max_queued_frames : Z;
}.

Definition default_h2_limits : H2Limits :=
  mk_h2_limits 100 (32 * 1024) 100 (1024 * 1024) (4 * 1024 * 1024) (64 * 1024) 256.

(** [http2::Stream] *)
Record H2Stream := mk_h2_stream {
  v_id : Z;
  v_headers : H2Headers;
  v_trailers : H2Headers;
  v_body : bytes;
  v_headers_received : bool;
  v_remote_end : bool;
  v_closed : bool;
  v_wire_error : Z;
  v_error : Error;
}.

Definition new_h2_stream (id : Z) : H2Stream := mk_h2_stream id [] [] [] false false false 0 no_error.

(** [Session::Impl::Entry] *)
Record Entry := mk_entry {
  visible : H2Stream;
  block : H2Headers;
  header_bytes : Z;
  received_bytes : Z;
  outgoing : bytes;
  sent : nat;
  responded : bool;
  head_request : bool;
}.

Definition new_entry (id : Z) : Entry := mk_entry (new_h2_stream id) [] 0 0 [] 0 false false.

(** Setters, one per member the session assigns. *)
Definition set_visible (v : H2Stream) (e : Entry) : Entry :=
  mk_entry v (block e) (header_bytes e) (received_bytes e) (outgoing e) (sent e) (responded e) (head_request e).
Definition set_block (b : H2Headers) (n : Z) (e : Entry) : Entry :=
  mk_entry (visible e) b n (received_bytes e) (outgoing e) (sent e) (responded e) (head_request e).
Definition set_outgoing (o : bytes) (e : Entry) : Entry :=
  mk_entry (visible e) (block e) (header_bytes e) (received_bytes e) o (sent e) (responded e) (head_request e).
Definition set_sent (n : nat) (e : Entry) : Entry :=
  mk_entry (visible e) (block e) (header_bytes e) (received_bytes e) (outgoing e) n (responded e) (head_request e).
Definition set_responded (e : Entry) : Entry :=
  mk_entry (visible e) (block e) (header_bytes e) (received_bytes e) (outgoing e) (sent e) true (head_request e).
Definition set_head (b : bool) (e : Entry) : Entry :=
  mk_entry (visible e) (block e) (header_bytes e) (received_bytes e) (outgoing e) (sent e) (responded e) b.

Definition set_error (err : Error) (e : Entry) : Entry :=
  let v := visible e in
  set_visible (mk_h2_stream (v_id v) (v_headers v) (v_trailers v) (v_body v) (v_headers_received v)
                 (v_remote_end v) (v_closed v) (v_wire_error v) err) e.
Definition set_wire_error (code : Z) (e : Entry) : Entry :=
  let v := visible e in
  set_visible (mk_h2_stream (v_id v) (v_headers v) (v_trailers v) (v_body v) (v_headers_received v)
                 (v_remote_end v) (v_closed v) code (v_error v)) e.
Definition set_closed (e : Entry) : Entry :=
  let v := visible e in
  set_visible (mk_h2_stream (v_id v) (v_headers v) (v_trailers v) (v_body v) (v_headers_received v)
                 (v_remote_end v) true (v_wire_error v) (v_error v)) e.
Definition set_remote_end (e : Entry) : Entry :=
  let v := visible e in
  set_visible (mk_h2_stream (v_id v) (v_headers v) (v_trailers v) (v_body v) (v_headers_received v)
                 true (v_closed v) (v_wire_error v) (v_error v)) e.
Definition set_body (received : Z) (b : bytes) (e : Entry) : Entry :=
  let v := visible e in
  mk_entry (mk_h2_stream (v_id v) (v_headers v) (v_trailers v) b (v_headers_received v)
              (v_remote_end v) (v_closed v) (v_wire_error v) (v_error v))
    (block e) (header_bytes e) received (outgoing e) (sent e) (responded e) (head_request e).

(** The end of a header block: the block becomes the headers, or the trailers
    once there are headers; it is moved, so nothing is left in [block]. *)
Definition take_block (e : Entry) : Entry :=
  let v := visible e in
  set_block [] (header_bytes e)
    (set_visible
       (if v_headers_received v
        then mk_h2_stream (v_id v) (v_headers v) (block e) (v_body v) true
               (v_remote_end v) (v_closed v) (v_wire_error v) (v_error v)
        else mk_h2_stream (v_id v) (block e) (v_trailers v) (v_body v) true
               (v_remote_end v) (v_closed v) (v_wire_error v) (v_error v)) e).

(** ** The library *)

Definition NGHTTP2_DATA : Z := 0.
Definition NGHTTP2_HEADERS : Z := 1.
Definition NGHTTP2_GOAWAY : Z := 7.
Definition NGHTTP2_FLAG_END_STREAM : Z := 1.
Definition NGHTTP2_NO_ERROR : Z := 0.
Definition NGHTTP2_REFUSED_STREAM : Z := 7.
Definition NGHTTP2_CANCEL : Z := 8.
Definition NGHTTP2_ENHANCE_YOUR_CALM : Z := 11.
Definition NGHTTP2_ERR_WOULDBLOCK : Z := -504.
Definition NGHTTP2_ERR_PROTO : Z := -505.
Definition NGHTTP2_ERR_STREAM_ID_NOT_AVAILABLE : Z := -509.
Definition NGHTTP2_ERR_STREAM_CLOSED : Z := -510.
Definition NGHTTP2_ERR_CALLBACK_FAILURE : Z := -902.

(** The parts of [nghttp2_frame] the callbacks look at. *)
Record Frame := mk_frame {
  f_type : Z;
  f_stream : Z;
  f_flags : Z;
  f_last_stream : Z;
  f_code : Z;
}.

(** A callback with its arguments; [cb_begin]'s flag is
    [frame->headers.cat == NGHTTP2_HCAT_REQUEST]. *)
Inductive Callback :=
| cb_send (data : bytes)
| cb_begin (id : Z) (request : bool)
| cb_header (id : Z) (name value : bytes)
| cb_frame_received (f : Frame)
| cb_invalid_frame (id code : Z)
| cb_frame_not_sent (id code : Z)
| cb_frame_sent (f : Frame)
| cb_data (id : Z) (data : bytes)
| cb_stream_closed (id code : Z)
| cb_read_data (id : Z) (size : nat).

(** What a callback gives back: its result and, for a data source, the bytes it
    stored and whether it set [NGHTTP2_DATA_FLAG_EOF]. *)
Record Answer := mk_answer { a_code : Z; a_data : bytes; a_eof : bool }.

Definition answer (code : Z) : Answer := mk_answer code [] false.

(** A run of the library inside one call: the callbacks it makes, each with the
    library's state at that point, and what it finally returns. *)
Inductive Calls (N : Type) :=
| ng_returns (rc : Z) (n : N)
| ng_calls (c : Callback) (n : N) (k : Answer -> N -> Calls N).
Arguments ng_returns {N} rc n.
Arguments ng_calls {N} c n k.

(** [ng_backlog] bounds what the library would still send by itself, in bytes. *)
Class Nghttp2 (N : Type) := {
  check_header_name : bytes -> bool;
  check_header_value : bytes -> bool;
  ng_queue_size : N -> Z;
  ng_next_stream_id : N -> Z;
  ng_submit_request : H2Headers -> bool -> N -> Z * N;
  ng_submit_response : Z -> H2Headers -> bool -> N -> Z * N;
  ng_submit_rst_stream : Z -> Z -> N -> Z * N;
  ng_submit_goaway : Z -> Z -> N -> Z * N;
  ng_consume_connection : Z -> N -> Z * N;
  ng_consume_stream : Z -> Z -> N -> Z * N;
  ng_want_read : N -> bool;
  ng_want_write : N -> bool;
  ng_mem_recv : bytes -> N -> Calls N;
  ng_session_send : N -> Calls N;
  ng_backlog : N -> nat;
}.

(** [engine_error(code)] *)
Definition engine_error (code : Z) : Error := mk_error code http2_category.

(** ** Which headers may be sent *)

(** The locals of [valid_headers]. *)
Record Seen := mk_seen {
  sn_bytes : Z;
  sn_regular : bool;
  sn_method : bool;
  sn_scheme : bool;
  sn_path : bool;
  sn_authority : bool;
  sn_status : bool;
  sn_length : bool;
  sn_response_status : Z;
}.

Definition seen_nothing : Seen := mk_seen 0 false false false false false false false 0.

Definition name_is (h : H2Header) (s : String.string) : bool := bytes_eqb (h2_name h) (lit s).
Arguments name_is h s%_string_scope.

(** [for (const char c : h.name) if (c >= 'A' && c <= 'Z') return false;] *)
Definition has_upper (name : bytes) : bool :=
  existsb (fun c => (65 <=? code c) && (code c <=? 90)) name.

(** [std::from_chars] into an [unsigned], all of the text, three digits, 200 to 599. *)
Definition status_value (value : bytes) : option Z :=
  match from_chars value 10 with
  | fc_value v [] =>
      if (v <=? 2 ^ 32 - 1) && (length value =? 3)%nat && negb (v <? 200) && negb (599 <? v) then Some v else None
  | _ => None
  end.

(** The branch for a name that starts with a colon. *)
Definition pseudo_header (request : bool) (h : H2Header) (s : Seen) : option Seen :=
  if sn_regular s || (length (h2_value h) =? 0)%nat then None
  else if request && name_is h ":method" then
    if bytes_eqb (h2_value h) (lit "CONNECT") || sn_method s then None
    else Some (mk_seen (sn_bytes s) (sn_regular s) true (sn_scheme s) (sn_path s) (sn_authority s)
                 (sn_status s) (sn_length s) (sn_response_status s))
  else if request && name_is h ":scheme" then
    if sn_scheme s then None
    else Some (mk_seen (sn_bytes s) (sn_regular s) (sn_method s) true (sn_path s) (sn_authority s)
                 (sn_status s) (sn_length s) (sn_response_status s))
  else if request && name_is h ":path" then
    if sn_path s then None
    else Some (mk_seen (sn_bytes s) (sn_regular s) (sn_method s) (sn_scheme s) true (sn_authority s)
                 (sn_status s) (sn_length s) (sn_response_status s))
  else if request && name_is h ":authority" then
    if sn_authority s then None
    else Some (mk_seen (sn_bytes s) (sn_regular s) (sn_method s) (sn_scheme s) (sn_path s) true
                 (sn_status s) (sn_length s) (sn_response_status s))
  else if negb request && name_is h ":status" then
    match status_value (h2_value h) with
    | None => None
    | Some v =>
        if sn_status s then None
        else Some (mk_seen (sn_bytes s) (sn_regular s) (sn_method s) (sn_scheme s) (sn_path s)
                     (sn_authority s) true (sn_length s) v)
    end
  else None.

(** The fields that belong to a connection and not to a message. *)
Definition hop_by_hop (h : H2Header) : bool :=
  name_is h "connection" || name_is h "proxy-connection" || name_is h "keep-alive" ||
  name_is h "upgrade" || name_is h "transfer-encoding" ||
  (name_is h "te" && negb (bytes_eqb (h2_value h) (lit "trailers"))).

(** The branch for every other name. *)
Definition regular_header (body_size : Z) (h : H2Header) (s : Seen) : option Seen :=
  let s := mk_seen (sn_bytes s) true (sn_method s) (sn_scheme s) (sn_path s) (sn_authority s)
             (sn_status s) (sn_length s) (sn_response_status s) in
  if hop_by_hop h then None
  else if name_is h "content-length" then
    match from_chars (h2_value h) 10 with
    | fc_value size [] =>
        if sn_length s || negb (size =? body_size) then None
        else Some (mk_seen (sn_bytes s) true (sn_method s) (sn_scheme s) (sn_path s) (sn_authority s)
                     (sn_status s) true (sn_response_status s))
    | _ => None
    end
  else Some s.

Section Session.
Context {N : Type} `{Nghttp2 N}.

(** One header of the loop. *)
Definition check_header (request : bool) (body_size : Z) (limits : H2Limits) (h : H2Header) (s : Seen)
    : option Seen :=
  if (length (h2_name h) =? 0)%nat ||
     (wrap64 (max_header_bytes limits - sn_bytes s) <? len (h2_name h)) then None
  else
    let bytes := sn_bytes s + len (h2_name h) in
    if wrap64 (max_header_bytes limits - bytes) <? len (h2_value h) then None
    else
      let bytes := bytes + len (h2_value h) in
      let s := mk_seen bytes (sn_regular s) (sn_method s) (sn_scheme s) (sn_path s) (sn_authority s)
                 (sn_status s) (sn_length s) (sn_response_status s) in
      if negb (check_header_name (h2_name h)) || negb (check_header_value (h2_value h)) then None
      else if has_upper (h2_name h) then None
      else if match h2_name h with b :: _ => Byte.eqb b COLON | [] => false end
           then pseudo_header request h s else regular_header body_size h s.

Fixpoint check_headers (request : bool) (body_size : Z) (limits : H2Limits) (headers : H2Headers) (s : Seen)
    : option Seen :=
  match headers with
  | [] => Some s
  | h :: rest => match check_header request body_size limits h s with
                 | Some s => check_headers request body_size limits rest s
                 | None => None
                 end
  end.

(** [valid_headers(headers, request, body_size, limits)] *)
Definition valid_headers (headers : H2Headers) (request : bool) (body_size : Z) (limits : H2Limits) : bool :=
  if max_headers limits <? Z.of_nat (length headers) then false
  else match check_headers request body_size limits headers seen_nothing with
       | None => false
       | Some s =>
           if negb request && ((sn_response_status s =? 204) || (sn_response_status s =? 304)) &&
              negb (body_size =? 0)
           then false
           else if request then sn_method s && sn_scheme s && sn_path s && sn_authority s else sn_status s
       end.

(** ** The session *)

(** [Session::Impl], with the library's session. *)
Record Impl := mk_impl {
  ng : N;
  s_role : Role.t;
  s_limits : H2Limits;
  s_state : H2State.t;
  s_error : Error;
  entries : gmap Z Entry;
  queued_bodies : Z;
  wire_out : bytes;
  last_peer_stream : Z;
  peer_last : Z;
  peer_error : Z;
  local_goaway : bool;
}.

Definition set_ng (n : N) (s : Impl) : Impl :=
  mk_impl n (s_role s) (s_limits s) (s_state s) (s_error s) (entries s) (queued_bodies s) (wire_out s)
    (last_peer_stream s) (peer_last s) (peer_error s) (local_goaway s).
Definition set_state (st : H2State.t) (s : Impl) : Impl :=
  mk_impl (ng s) (s_role s) (s_limits s) st (s_error s) (entries s) (queued_bodies s) (wire_out s)
    (last_peer_stream s) (peer_last s) (peer_error s) (local_goaway s).
Definition set_session_error (e : Error) (s : Impl) : Impl :=
  mk_impl (ng s) (s_role s) (s_limits s) (s_state s) e (entries s) (queued_bodies s) (wire_out s)
    (last_peer_stream s) (peer_last s) (peer_error s) (local_goaway s).
Definition set_entries (m : gmap Z Entry) (s : Impl) : Impl :=
  mk_impl (ng s) (s_role s) (s_limits s) (s_state s) (s_error s) m (queued_bodies s) (wire_out s)
    (last_peer_stream s) (peer_last s) (peer_error s) (local_goaway s).
Definition set_queued (q : Z) (s : Impl) : Impl :=
  mk_impl (ng s) (s_role s) (s_limits s) (s_state s) (s_error s) (entries s) q (wire_out s)
    (last_peer_stream s) (peer_last s) (peer_error s) (local_goaway s).
Definition set_wire (w : bytes) (s : Impl) : Impl :=
  mk_impl (ng s) (s_role s) (s_limits s) (s_state s) (s_error s) (entries s) (queued_bodies s) w
    (last_peer_stream s) (peer_last s) (peer_error s) (local_goaway s).
Definition set_last_peer (id : Z) (s : Impl) : Impl :=
  mk_impl (ng s) (s_role s) (s_limits s) (s_state s) (s_error s) (entries s) (queued_bodies s) (wire_out s)
    id (peer_last s) (peer_error s) (local_goaway s).
Definition set_peer_goaway (last code : Z) (s : Impl) : Impl :=
  mk_impl (ng s) (s_role s) (s_limits s) (s_state s) (s_error s) (entries s) (queued_bodies s) (wire_out s)
    (last_peer_stream s) last code (local_goaway s).
Definition set_local_goaway (s : Impl) : Impl :=
  mk_impl (ng s) (s_role s) (s_limits s) (s_state s) (s_error s) (entries s) (queued_bodies s) (wire_out s)
    (last_peer_stream s) (peer_last s) (peer_error s) true.

(** [it->second = f(it->second)] for the entry of [id]. *)
Definition put_entry (id : Z) (e : Entry) (s : Impl) : Impl := set_entries (<[id := e]> (entries s)) s.

(** A call of the library that makes no callbacks. *)
Definition ng_do (f : N -> Z * N) (s : Impl) : Z * Impl :=
  let '(rc, n) := f (ng s) in (rc, set_ng n s).

(** [fail_connection(reason)] *)
Definition close_entry (reason : Error) (e : Entry) : Entry :=
  if v_closed (visible e) then e else set_error reason (set_closed e).

Definition fail_connection (reason : Error) (s : Impl) : Impl :=
  set_entries (close_entry reason <$> entries s) (set_state H2State.failed (set_session_error reason s)).

(** [reset(id, reason, wire_code)] *)
Definition reset_stream (id : Z) (reason : Error) (wire_code : Z) (s : Impl) : Z * Impl :=
  if max_queued_frames (s_limits s) <=? ng_queue_size (ng s)
  then (NGHTTP2_ERR_CALLBACK_FAILURE, set_session_error (make_error_code Errc.limit_exceeded) s)
  else
    let s := match entries s !! id with
             | Some e => put_entry id (set_wire_error wire_code (set_error reason e)) s
             | None => s
             end in
    ng_do (ng_submit_rst_stream id wire_code) s.

(** ** The callbacks *)

(** [send]: as much as fits under the output limit. *)
Definition on_send (data : bytes) (s : Impl) : Answer * Impl :=
  let count := Z.min (len data) (wrap64 (max_output_bytes (s_limits s) - len (wire_out s))) in
  if count =? 0 then (answer NGHTTP2_ERR_WOULDBLOCK, s)
  else (answer count, set_wire (wire_out s ++ take (Z.to_nat count) data) s).

(** [begin] *)
Definition on_begin (id : Z) (request : bool) (s : Impl) : Answer * Impl :=
  if request && (negb (bool_decide (s_state s = H2State.open)) ||
                 (max_streams (s_limits s) <=? Z.of_nat (size (entries s))))
  then
    let '(rc, s) := reset_stream id (make_error_code Errc.limit_exceeded) NGHTTP2_REFUSED_STREAM s in
    (answer rc, s)
  else
    let s := if request
             then set_last_peer id
                    (put_entry id
                       (let e := default (new_entry id) (entries s !! id) in
                        let v := visible e in
                        set_visible (mk_h2_stream id (v_headers v) (v_trailers v) (v_body v)
                          (v_headers_received v) (v_remote_end v) (v_closed v) (v_wire_error v) (v_error v)) e) s)
             else s in
    (answer 0, match entries s !! id with
               | Some e => put_entry id (set_block [] (header_bytes e) e) s
               | None => s
               end).

(** [header] *)
Definition on_header (id : Z) (name value : bytes) (s : Impl) : Answer * Impl :=
  match entries s !! id with
  | None => (answer 0, s)
  | Some e =>
      if error_set (v_error (visible e)) then (answer 0, s)
      else
        let count := Z.of_nat (length (block e) + length (v_headers (visible e)) +
                               length (v_trailers (visible e))) in
        let limits := s_limits s in
        if (max_headers limits <=? count) ||
           (wrap64 (max_header_bytes limits - header_bytes e) <? len name) ||
           (wrap64 (max_header_bytes limits - header_bytes e - len name) <? len value)
        then
          let '(rc, s) := reset_stream id (make_error_code Errc.limit_exceeded) NGHTTP2_ENHANCE_YOUR_CALM s in
          (answer rc, s)
        else
          (answer 0, put_entry id (set_block (block e ++ [mk_h2 name value])
                                     (header_bytes e + (len name + len value)) e) s)
  end.

(** The scan of a finished header block: whether it is informational, whether
    the request is HEAD, and whether it is CONNECT (which ends the scan). *)
Fixpoint scan_block (hs : H2Headers) (informational head : bool) : bool * bool * bool :=
  match hs with
  | [] => (informational, head, false)
  | h :: hs =>
      let informational :=
        informational ||
        (name_is h ":status" && (length (h2_value h) =? 3)%nat &&
         match h2_value h with b :: _ => Byte.eqb b x31 | [] => false end) in
      if name_is h ":method" then
        let head := bytes_eqb (h2_value h) (lit "HEAD") in
        if bytes_eqb (h2_value h) (lit "CONNECT") then (informational, head, true)
        else scan_block hs informational head
      else scan_block hs informational head
  end.

Definition ends_stream (f : Frame) : bool :=
  ((f_type f =? NGHTTP2_HEADERS) || (f_type f =? NGHTTP2_DATA)) &&
  negb (Z.land (f_flags f) NGHTTP2_FLAG_END_STREAM =? 0).

(** [frame_received] *)
Definition on_frame_received (f : Frame) (s : Impl) : Answer * Impl :=
  if max_queued_frames (s_limits s) <? ng_queue_size (ng s)
  then (answer NGHTTP2_ERR_CALLBACK_FAILURE, set_session_error (make_error_code Errc.limit_exceeded) s)
  else
    let s := if f_type f =? NGHTTP2_GOAWAY
             then set_peer_goaway (f_last_stream f) (f_code f) (set_state H2State.draining s) else s in
    let finish (e : Entry) (s : Impl) : Answer * Impl :=
      (answer 0, put_entry (f_stream f) (if ends_stream f then set_remote_end e else e) s) in
    match entries s !! f_stream f with
    | None => (answer 0, s)
    | Some e =>
        if (f_type f =? NGHTTP2_HEADERS) && negb (error_set (v_error (visible e))) then
          let '(informational, head, connect) := scan_block (block e) false (head_request e) in
          let e := set_head head e in
          if connect then
            let '(rc, s) := reset_stream (v_id (visible e)) (make_error_code Errc.not_supported)
                              NGHTTP2_REFUSED_STREAM (put_entry (f_stream f) e s) in
            (answer rc, s)
          else finish (if informational then e else take_block e) s
        else finish e s
    end.

(** [invalid_frame] *)
Definition on_invalid_frame (id code : Z) (s : Impl) : Answer * Impl :=
  let s := match entries s !! id with
           | Some e => put_entry id (set_error (engine_error code) e) s
           | None => s
           end in
  (answer 0, if id =? 0 then set_state H2State.draining (set_session_error (engine_error code) s) else s).

(** [frame_not_sent] *)
Definition on_frame_not_sent (id code : Z) (s : Impl) : Answer * Impl :=
  (answer 0, match entries s !! id with
             | Some e => if error_set (v_error (visible e)) then s
                         else put_entry id (set_error (engine_error code) e) s
             | None => s
             end).

(** [frame_sent] *)
Definition on_frame_sent (f : Frame) (s : Impl) : Answer * Impl :=
  (answer 0,
   if f_type f =? NGHTTP2_GOAWAY then
     let s := set_state H2State.draining s in
     if negb (f_code f =? NGHTTP2_NO_ERROR) && negb (error_set (s_error s))
     then set_session_error (engine_error NGHTTP2_ERR_PROTO) s else s
   else s).

(** [data] *)
Definition on_data (id : Z) (data : bytes) (s : Impl) : Answer * Impl :=
  let give_back (s : Impl) : Z * Impl := ng_do (ng_consume_connection (len data)) s in
  match entries s !! id with
  | None => let '(rc, s) := give_back s in (answer rc, s)
  | Some e =>
      if error_set (v_error (visible e)) then let '(rc, s) := give_back s in (answer rc, s)
      else if wrap64 (max_body_bytes (s_limits s) - received_bytes e) <? len data then
        let '(rc, s) := give_back s in
        if negb (rc =? 0) then (answer rc, s)
        else
          let '(rc, s) := reset_stream id (make_error_code Errc.limit_exceeded) NGHTTP2_ENHANCE_YOUR_CALM s in
          (answer rc, s)
      else
        (answer 0, put_entry id (set_body (received_bytes e + len data) (v_body (visible e) ++ data) e) s)
  end.

(** [stream_closed] *)
Definition on_stream_closed (id code : Z) (s : Impl) : Answer * Impl :=
  (answer 0,
   match entries s !! id with
   | None => s
   | Some e =>
       let e := set_wire_error code (set_closed e) in
       let e := if negb (code =? NGHTTP2_NO_ERROR) && negb (error_set (v_error (visible e)))
                then set_error (if code =? NGHTTP2_CANCEL then make_error_code Errc.cancelled
                                else engine_error NGHTTP2_ERR_STREAM_CLOSED) e
                else e in
       set_queued (wrap64 (queued_bodies s - len (outgoing e))) (put_entry id (set_outgoing [] e) s)
   end).

(** [read_data], on the entry the data source points to: [None] when that entry
    has been erased, or its bytes have been dropped under the read position. *)
Definition on_read_data (id : Z) (size : nat) (s : Impl) : option (Answer * Impl) :=
  match entries s !! id with
  | None => None
  | Some e =>
      if (length (outgoing e) <? sent e)%nat then None else
      let count := Nat.min size (length (outgoing e) - sent e) in
      let bytes := take count (drop (sent e) (outgoing e)) in
      let e := set_sent (sent e + count)%nat e in
      Some (mk_answer (Z.of_nat count) bytes (sent e =? length (outgoing e))%nat, put_entry id e s)
  end.

Definition handle (c : Callback) (s : Impl) : option (Answer * Impl) :=
  match c with
  | cb_send data => Some (on_send data s)
  | cb_begin id request => Some (on_begin id request s)
  | cb_header id name value => Some (on_header id name value s)
  | cb_frame_received f => Some (on_frame_received f s)
  | cb_invalid_frame id code => Some (on_invalid_frame id code s)
  | cb_frame_not_sent id code => Some (on_frame_not_sent id code s)
  | cb_frame_sent f => Some (on_frame_sent f s)
  | cb_data id data => Some (on_data id data s)
  | cb_stream_closed id code => Some (on_stream_closed id code s)
  | cb_read_data id size => on_read_data id size s
  end.

(** ** The operations *)

(** Why an operation stops short: the error it reports, or a callback that
    follows a pointer to an erased entry. *)
Inductive Stop :=
| reports (e : Error)
| dangling_source.

Definition H2 (A : Type) : Type := Impl -> Outcome Stop Impl A.

Definition refuse (e : Errc.t) : Stop := reports (make_error_code e).

(** A call of the library with its callbacks. *)
Fixpoint serve_calls (t : Calls N) (s : Impl) : Outcome Stop Impl Z :=
  match t with
  | ng_returns rc n => Returns rc (set_ng n s)
  | ng_calls c n k =>
      match handle c (set_ng n s) with
      | Some (a, s) => serve_calls (k a (ng s)) s
      | None => Fails dangling_source (set_ng n s)
      end
  end.

(** [s.state == State::closed || s.state == State::failed] *)
Definition over (s : Impl) : bool :=
  bool_decide (s_state s = H2State.closed) || bool_decide (s_state s = H2State.failed).

Definition error_or (s : Impl) (e : Error) : Error := if error_set (s_error s) then s_error s else e.

(** [request(headers, body)] *)
Definition request (headers : H2Headers) (body : bytes) : H2 Z := fun s =>
  let limits := s_limits s in
  if negb (bool_decide (s_role s = Role.client)) || negb (bool_decide (s_state s = H2State.open))
  then Fails (refuse Errc.invalid_argument) s
  else if (max_queued_frames limits <=? ng_queue_size (ng s)) ||
          (max_streams limits <=? Z.of_nat (size (entries s))) || (max_body_bytes limits <? len body) ||
          (wrap64 (max_queued_body_bytes limits - queued_bodies s) <? len body)
  then Fails (refuse Errc.limit_exceeded) s
  else if negb (valid_headers headers true (len body) limits) then Fails (refuse Errc.invalid_argument) s
  else
    let id := to_int32 (ng_next_stream_id (ng s)) in
    if id <=? 0 then Fails (reports (engine_error NGHTTP2_ERR_STREAM_ID_NOT_AVAILABLE)) s
    else
      let e := default (new_entry id) (entries s !! id) in
      let v := visible e in
      let e := set_visible (mk_h2_stream id (v_headers v) (v_trailers v) (v_body v) (v_headers_received v)
                 (v_remote_end v) (v_closed v) (v_wire_error v) (v_error v)) e in
      let e := foldl (fun e h => if name_is h ":method"
                                 then set_head (bytes_eqb (h2_value h) (lit "HEAD")) e else e) e headers in
      let s := put_entry id (set_outgoing body e) s in
      let '(actual, s) := ng_do (ng_submit_request headers (negb (length body =? 0)%nat)) s in
      if actual <? 0 then Fails (reports (engine_error actual)) (set_entries (delete id (entries s)) s)
      else Returns actual (set_queued (queued_bodies s + len body) s).

(** [respond(id, headers, body)] *)
Definition respond (id : Z) (headers : H2Headers) (body : bytes) : H2 unit := fun s =>
  let limits := s_limits s in
  match entries s !! id with
  | None => Fails (refuse Errc.invalid_argument) s
  | Some e =>
      if negb (bool_decide (s_role s = Role.server)) || over s || responded e || v_closed (visible e) ||
         error_set (v_error (visible e)) || negb (v_headers_received (visible e))
      then Fails (refuse Errc.invalid_argument) s
      else if (max_queued_frames limits <=? ng_queue_size (ng s)) || (max_body_bytes limits <? len body) ||
              (wrap64 (max_queued_body_bytes limits - queued_bodies s) <? len body)
      then Fails (refuse Errc.limit_exceeded) s
      else if negb (valid_headers headers false (len body) limits) then Fails (refuse Errc.invalid_argument) s
      else
        let e := if head_request e then e else set_outgoing body e in
        let s := put_entry id e s in
        let '(rc, s) := ng_do (ng_submit_response id headers (negb (length (outgoing e) =? 0)%nat)) s in
        if negb (rc =? 0) then Fails (reports (engine_error rc)) (put_entry id (set_outgoing [] e) s)
        else Returns tt (put_entry id (set_responded e) (set_queued (queued_bodies s + len (outgoing e)) s))
  end.

(** [fail_connection(...); return fail(s.error);] *)
Definition fail_with (reason : Error) {A} : H2 A := fun s =>
  let s := fail_connection reason s in Fails (reports (s_error s)) s.

(** [receive]: a piece of at most 16384 bytes at a time; the local is [bytes]. *)
Definition receive_piece (piece : bytes) : H2 unit := fun s =>
  match serve_calls (ng_mem_recv piece (ng s)) s with
  | Returns rc s =>
      if (rc <? 0) || negb (rc =? len piece)
      then fail_with (error_or s (engine_error (if rc <? 0 then rc else NGHTTP2_ERR_PROTO))) s
      else if max_queued_frames (s_limits s) <? ng_queue_size (ng s)
      then fail_with (make_error_code Errc.limit_exceeded) s
      else Returns tt s
  | Fails e s => Fails e s
  | OutOfFuel => OutOfFuel
  end.

Definition recv_size : nat := 16 * 1024.
Arguments recv_size : simpl never.

Definition receive_round : Impl * bytes -> Outcome Stop (Impl * bytes) (option unit) := fun c =>
  let '(s, bytes) := c in
  if (length bytes =? 0)%nat then Returns (Some tt) c
  else match receive_piece (take recv_size bytes) s with
       | Returns _ s => Returns None (s, drop recv_size bytes)
       | Fails e s => Fails e (s, bytes)
       | OutOfFuel => OutOfFuel
       end.

(** [receive(bytes)]: each round takes a byte at least. *)
Definition receive_bytes (bytes : bytes) : H2 unit := fun s =>
  if over s then Fails (reports (error_or s (make_error_code Errc.eof))) s
  else match iter (S (length bytes)) receive_round (s, bytes) with
       | Returns _ (s, _) => Returns tt s
       | Fails e (s, _) => Fails e s
       | OutOfFuel => OutOfFuel
       end.

(** [output()] *)
Definition output : H2 bytes := fun s =>
  if over s then Fails (reports (error_or s (make_error_code Errc.eof))) s
  else match serve_calls (ng_session_send (ng s)) s with
       | Returns rc s =>
           if negb (rc =? 0) then fail_with (error_or s (engine_error rc)) s
           else
             let out := wire_out s in
             let s := set_wire [] s in
             Returns out (if negb (ng_want_read (ng s)) && negb (ng_want_write (ng s))
                          then set_state H2State.closed s else s)
       | Fails e s => Fails e s
       | OutOfFuel => OutOfFuel
       end.

(** [take_body(id)] *)
Definition take_body (id : Z) : H2 bytes := fun s =>
  match entries s !! id with
  | None => Fails (refuse Errc.invalid_argument) s
  | Some e =>
      let size := len (v_body (visible e)) in
      let '(rc, s) := ng_do (ng_consume_connection size) s in
      let '(rc, s) := if (rc =? 0) && negb (v_closed (visible e))
                      then ng_do (ng_consume_stream id size) s else (rc, s) in
      if negb (rc =? 0) then Fails (reports (engine_error rc)) s
      else Returns (v_body (visible e)) (put_entry id (set_body (received_bytes e) [] e) s)
  end.

(** [cancel(id)] *)
Definition cancel (id : Z) : H2 unit := fun s =>
  match entries s !! id with
  | None => Fails (refuse Errc.invalid_argument) s
  | Some e =>
      if over s || v_closed (visible e) then Fails (refuse Errc.invalid_argument) s
      else
        let '(rc, s) := reset_stream id (make_error_code Errc.cancelled) NGHTTP2_CANCEL s in
        if negb (rc =? 0) then Fails (reports (engine_error rc)) s else Returns tt s
  end.

(** [release(id)] *)
Definition release (id : Z) : H2 unit := fun s =>
  match entries s !! id with
  | None => Fails (refuse Errc.invalid_argument) s
  | Some e =>
      if negb (v_closed (visible e)) then Fails (refuse Errc.invalid_argument) s
      else match take_body id s with
           | Returns _ s => Returns tt (set_entries (delete id (entries s)) s)
           | Fails e s => Fails e s
           | OutOfFuel => OutOfFuel
           end
  end.

(** [goaway(code)] *)
Definition goaway (code : Z) : H2 unit := fun s =>
  if over s || local_goaway s then Fails (refuse Errc.invalid_argument) s
  else if max_queued_frames (s_limits s) <=? ng_queue_size (ng s) then Fails (refuse Errc.limit_exceeded) s
  else
    let '(rc, s) := ng_do (ng_submit_goaway (last_peer_stream s) code) s in
    if negb (rc =? 0) then Fails (reports (engine_error rc)) s
    else Returns tt (set_local_goaway (set_state H2State.draining s)).

(** [close(reason)] *)
Definition close_session (reason : Error) (s : Impl) : Impl :=
  set_state H2State.closed (fail_connection reason s).

(** [wants_write()], [streams()], [stream(id)] *)
Definition wants_write (s : Impl) : bool := negb (over s) && ng_want_write (ng s).
Definition streams (s : Impl) : list Z := merge_sort Z.le (elements (dom (entries s))).
Definition stream (id : Z) (s : Impl) : option H2Stream := visible <$> entries s !! id.

(** The argument checks of [create], and the state it starts from. *)
Definition limits_ok (l : H2Limits) : bool :=
  negb ((max_streams l =? 0) || (100000 <? max_streams l) || (max_headers l =? 0) ||
        (max_header_bytes l =? 0) || (4294967295 <? max_header_bytes l) ||
        (max_output_bytes l <? 16393) || (max_queued_frames l =? 0)).

Definition new_session (role : Role.t) (limits : H2Limits) (n : N) : Impl :=
  mk_impl n role limits H2State.open no_error ∅ 0 [] 0 (2 ^ 31 - 1) 0 false.
End Session.
Arguments Impl N : clear implicits.
Arguments H2 N A : clear implicits.
