(* ===== verification/Http2Inv.v ===== *)
(** * Http2Inv: what the limits of an HTTP/2 session guarantee

    The invariant of [Session::Impl], over any library that keeps nghttp2's
    documented contract ([Nghttp2Laws]): every resource a peer or the application
    can make the session hold stays under its limit, flow-control credit is given
    back exactly once, and a data source is never read through a dangling pointer. *)

From stdpp Require Import gmap.
From S2P Require Import Prelude Sums Errors Http2.

Local Open Scope Z_scope.

(** ** What the library promises *)

(** The callbacks nghttp2 makes while it sends. *)
Definition sending_callback (c : Callback) : bool :=
  match c with
  | cb_send _ | cb_frame_sent _ | cb_frame_not_sent _ _ | cb_stream_closed _ _ | cb_read_data _ _ => true
  | _ => false
  end.

(** The bytes a [send] callback took. *)
Definition accepted (c : Callback) (a : Answer) : bytes :=
  match c with cb_send data => take (Z.to_nat (a_code a)) data | _ => [] end.

(** The bytes a data source supplied. *)
Definition supplied (c : Callback) (a : Answer) : nat :=
  match c with cb_read_data _ _ => length (a_data a) | _ => 0 end.

Section Lawful.
Context {N : Type} (unconsumed : N -> Z) (sources used : N -> gset Z) (emitted : N -> bytes)
  (backlog : N -> nat).

(** A run of the library started in [n0]: the bytes it delivers are not consumed
    until it is told so, it reads a data source only while the stream is open,
    the streams it reports have ids it knows, and what it has emitted is what
    [send] accepted.  While sending, that comes out of a finite backlog, to which
    a data source adds what it supplies and a frame header per read: ten bytes
    for each are enough, an empty last frame being part of the backlog. *)
Fixpoint lawful (sending : bool) (out : bytes) (left : nat) (n0 : N) (t : Calls N) : Prop :=
  match t with
  | ng_returns _ n =>
      unconsumed n = unconsumed n0 /\ sources n = sources n0 /\ used n0 ⊆ used n /\ emitted n = out /\
      (sending = true -> (backlog n <= left)%nat)
  | ng_calls c n k =>
      (sending = true -> sending_callback c = true /\ (backlog n <= left)%nat) /\
      unconsumed n = unconsumed n0 + (match c with cb_data _ d => len d | _ => 0 end) /\
      sources n = (match c with cb_stream_closed id _ => sources n0 ∖ {[id]} | _ => sources n0 end) /\
      used n0 ⊆ used n /\ emitted n = out /\
      (match c with
       | cb_read_data id _ => id ∈ sources n
       | cb_begin id _ => id ∈ used n
       | cb_send data => (length data <= backlog n)%nat
       | _ => True
       end) /\
      forall a n', lawful sending (emitted n' ++ accepted c a) (backlog n' - length (accepted c a) + 10 * supplied c a)%nat n' (k a n')
  end.
End Lawful.

Class Nghttp2Laws (N : Type) `{Nghttp2 N} := {
  ng_unconsumed : N -> Z;
  ng_sources : N -> gset Z;
  ng_used : N -> gset Z;
  ng_emitted : N -> bytes;
  ng_same := fun n n' : N =>
    ng_unconsumed n' = ng_unconsumed n /\ ng_sources n' = ng_sources n /\ ng_used n ⊆ ng_used n' /\
    ng_emitted n' = ng_emitted n;
  submit_request_law : forall hs has n,
    let '(rc, n') := ng_submit_request hs has n in
    let id := to_int32 (ng_next_stream_id n) in
    ng_unconsumed n' = ng_unconsumed n /\ ng_emitted n' = ng_emitted n /\ ng_used n ⊆ ng_used n' /\
    (if rc <? 0 then ng_sources n' = ng_sources n
     else rc = id /\ id ∈ ng_used n' /\ ng_sources n' = ng_sources n ∪ (if has then {[id]} else ∅));
  next_id_law : forall n, 0 < to_int32 (ng_next_stream_id n) -> to_int32 (ng_next_stream_id n) ∉ ng_used n;
  submit_response_law : forall id hs has n,
    let '(rc, n') := ng_submit_response id hs has n in
    ng_unconsumed n' = ng_unconsumed n /\ ng_emitted n' = ng_emitted n /\ ng_used n ⊆ ng_used n' /\
    ng_sources n' = ng_sources n ∪ (if (rc =? 0) && has then {[id]} else ∅);
  submit_rst_law : forall id code n, ng_same n (ng_submit_rst_stream id code n).2;
  submit_goaway_law : forall last code n, ng_same n (ng_submit_goaway last code n).2;
  consume_stream_law : forall id size n,
    (ng_consume_stream id size n).1 = 0 /\ ng_same n (ng_consume_stream id size n).2;
  consume_connection_law : forall size n,
    let '(rc, n') := ng_consume_connection size n in
    rc = 0 /\ ng_unconsumed n' = ng_unconsumed n - size /\ ng_sources n' = ng_sources n /\
    ng_used n ⊆ ng_used n' /\ ng_emitted n' = ng_emitted n;
  mem_recv_law : forall data n,
    lawful ng_unconsumed ng_sources ng_used ng_emitted ng_backlog false (ng_emitted n) 0 n (ng_mem_recv data n);
  session_send_law : forall n,
    lawful ng_unconsumed ng_sources ng_used ng_emitted ng_backlog true (ng_emitted n) (ng_backlog n) n
      (ng_session_send n);
}.

(** ** The invariant *)

Definition body_size (e : Entry) : Z := len (v_body (visible e)).
Definition outgoing_size (e : Entry) : Z := len (outgoing e).
Definition remaining (e : Entry) : Z := Z.of_nat (length (outgoing e) - sent e).
Definition field_count (e : Entry) : nat :=
  length (block e) + length (v_headers (visible e)) + length (v_trailers (visible e)).

(** The bytes of a header list. *)
Definition fields_size (hs : H2Headers) : Z :=
  foldr (fun h n => len (h2_name h) + len (h2_value h) + n) 0 hs.
Definition stored_fields (e : Entry) : Z :=
  fields_size (block e) + fields_size (v_headers (visible e)) + fields_size (v_trailers (visible e)).

Lemma fields_size_nonneg hs : 0 <= fields_size hs.
Proof.
  induction hs as [|h hs IH]; simpl; [lia|].
  pose proof (len_nonneg (h2_name h)). pose proof (len_nonneg (h2_value h)). lia.
Qed.

Lemma fields_size_app hs1 hs2 : fields_size (hs1 ++ hs2) = fields_size hs1 + fields_size hs2.
Proof. induction hs1 as [|h hs IH]; simpl; [done|]. lia. Qed.

(** Every member of [Limits] is a [size_t]. *)
Definition limits_range (l : H2Limits) : Prop :=
  0 <= max_streams l < 2 ^ 64 /\ 0 <= max_header_bytes l < 2 ^ 64 /\ 0 <= max_headers l < 2 ^ 64 /\
  0 <= max_body_bytes l < 2 ^ 64 /\ 0 <= max_queued_body_bytes l < 2 ^ 64 /\
  0 <= max_output_bytes l < 2 ^ 64 /\ 0 <= max_queued_frames l < 2 ^ 64.

(** What one stream may hold. *)
Record entry_ok (l : H2Limits) (e : Entry) : Prop := mk_entry_ok {
  ok_header_bytes : stored_fields e <= header_bytes e <= max_header_bytes l;
  ok_header_count : Z.of_nat (field_count e) <= max_headers l;
  ok_received : body_size e <= received_bytes e <= max_body_bytes l;
  ok_outgoing : outgoing_size e <= max_body_bytes l;
}.

Lemma elem_other (A B : gset Z) id i : A ⊆ B ∪ {[id]} -> id <> i -> i ∈ A -> i ∈ B.
Proof. set_solver. Qed.

Section Invariant.
Context {N : Type} `{Nghttp2Laws N} (lim : H2Limits).
Implicit Type s : Impl N.

(** [extra] is the size of a chunk the library has delivered and the session has
    not yet accounted for. *)
Record session_inv (extra : Z) s : Prop := mk_session_inv {
  inv_limits : limits_range (s_limits s);
  inv_streams : Z.of_nat (size (entries s)) <= max_streams (s_limits s);
  inv_entries : forall id e, entries s !! id = Some e -> entry_ok (s_limits s) e;
  inv_queued : 0 <= queued_bodies s <= max_queued_body_bytes (s_limits s);
  inv_queued_live : over s = false -> queued_bodies s = total outgoing_size (entries s);
  inv_wire : len (wire_out s) <= max_output_bytes (s_limits s);
  inv_credit : ng_unconsumed (ng s) = total body_size (entries s) + extra;
  inv_used : forall id, is_Some (entries s !! id) -> id ∈ ng_used (ng s);
  inv_source : over s = false -> forall id, id ∈ ng_sources (ng s) ->
    exists e, entries s !! id = Some e /\ (sent e <= length (outgoing e))%nat /\
              (s_role s = Role.server -> responded e = true);
  inv_unanswered : forall id e, entries s !! id = Some e -> s_role s = Role.server ->
    responded e = false -> sent e = 0%nat /\ outgoing e = [];
  inv_closed : over s = false -> forall id e, entries s !! id = Some e ->
    v_closed (visible e) = true -> outgoing e = [] /\ id ∉ ng_sources (ng s);
  inv_fixed : s_limits s = lim;
}.

Lemma session_inv_new role limits n :
  limits = lim -> limits_range limits -> ng_unconsumed n = 0 -> ng_sources n = ∅ ->
  session_inv 0 (new_session role limits n).
Proof.
  intros Heq Hl Hn Hs. pose proof Hl as (? & ? & ? & ? & ? & ? & ?).
  split; simpl; rewrite ?total_empty; try done; try lia.
  - change (Z.of_nat 0 <= max_streams limits). lia.
  - unfold len. simpl. lia.
  - intros id [e He]. by rewrite lookup_empty in He.
  - intros _ id. rewrite Hs. set_solver.
Qed.

(** The library moved on without touching what the invariant observes. *)
Lemma inv_ng x s n : session_inv x s -> ng_same (ng s) n -> session_inv x (set_ng n s).
Proof.
  intros [] (Hu & Hs & Hused & _). split; simpl; try done.
  - by rewrite Hu.
  - eauto.
  - by rewrite Hs.
  - by rewrite Hs.
Qed.

(** The parts of an entry that concern what is sent are unchanged. *)
Definition same_out (e e' : Entry) : Prop :=
  outgoing e' = outgoing e /\ sent e' = sent e /\ responded e' = responded e /\
  v_closed (visible e') = v_closed (visible e).

(** Replacing an entry by one that differs in what was received. *)
Lemma put_same_out x s id e e' :
  session_inv x s -> entries s !! id = Some e -> entry_ok (s_limits s) e' -> same_out e e' ->
  session_inv (x - (body_size e' - body_size e)) (put_entry id e' s).
Proof.
  intros [Hl Hst He Hq Hql Hw Hc Hu Hsrc Hun Hcl] Hid Hok (Ho & Hse & Hr & Hv). split; simpl; try done.
  - by rewrite map_size_insert_Some by (by eexists).
  - intros i y. rewrite lookup_insert. case_decide; [by intros [= <-]|apply He].
  - intros Hlive. rewrite (total_put _ _ id e) by done. unfold outgoing_size at 2 3. rewrite Ho.
    rewrite Hql by done. lia.
  - rewrite (total_put _ _ id e), Hc by done. lia.
  - intros i. rewrite lookup_insert. case_decide; [|apply Hu]. intros _. subst i. apply Hu. by eexists.
  - intros Hlive i Hi. destruct (Hsrc Hlive i Hi) as (y & Hy & Hys & Hyr). rewrite lookup_insert.
    case_decide; [|by eexists]. subst i. assert (y = e) as -> by congruence. exists e'.
    rewrite Ho, Hse, Hr. done.
  - intros i y. rewrite lookup_insert. case_decide; [|apply Hun]. intros [= <-]. rewrite Ho, Hse, Hr.
    by apply (Hun id).
  - intros Hlive i y. rewrite lookup_insert. case_decide; [|by apply Hcl]. subst i. intros [= <-].
    rewrite Ho, Hv. by apply (Hcl Hlive id).
Qed.

Lemma put_quiet x s id e e' :
  session_inv x s -> entries s !! id = Some e -> entry_ok (s_limits s) e' -> same_out e e' ->
  body_size e' = body_size e -> session_inv x (put_entry id e' s).
Proof.
  intros Hi Hid Hok Hs Hb. pose proof (put_same_out x s id e e' Hi Hid Hok Hs) as Hp.
  by rewrite Hb, Z.sub_diag, Z.sub_0_r in Hp.
Qed.

(** Setters that only touch the session's bookkeeping. *)
Lemma inv_session_error x s err : session_inv x s -> session_inv x (set_session_error err s).
Proof. intros []. by split. Qed.

Lemma inv_draining x s : session_inv x s -> over s = false -> session_inv x (set_state H2State.draining s).
Proof. intros [] Ho. split; simpl; try done; intros _; eauto. Qed.

Lemma over_entries s m : over (set_entries m s) = over s.
Proof. done. Qed.

Lemma inv_error_entry x s id e err :
  session_inv x s -> entries s !! id = Some e -> session_inv x (put_entry id (set_error err e) s).
Proof. intros Hi Hid. apply (put_quiet x s id e); try done. by destruct (inv_entries x s Hi id e Hid). Qed.

(** Neither the fate of the session nor what it sends is affected. *)
Definition quiet (s s' : Impl N) : Prop :=
  (over s = false -> over s' = false) /\ wire_out s' = wire_out s /\ ng_emitted (ng s') = ng_emitted (ng s).

Lemma quiet_trans s1 s2 s3 : quiet s1 s2 -> quiet s2 s3 -> quiet s1 s3.
Proof. unfold quiet. intros (? & -> & ->) (? & ? & ?). auto. Qed.

(** [reset] keeps the invariant whatever the library answers. *)
Lemma reset_stream_inv x s id reason code :
  session_inv x s -> session_inv x (reset_stream id reason code s).2 /\ quiet s (reset_stream id reason code s).2.
Proof.
  intros Hi. unfold reset_stream. destruct (_ <=? _); [split; [by apply inv_session_error|done]|].
  assert (exists s', match entries s !! id with
                     | Some e => put_entry id (set_wire_error code (set_error reason e)) s
                     | None => s end = s' /\ session_inv x s' /\ quiet s s') as (s' & -> & Hs' & Hq).
  { destruct (entries s !! id) as [e|] eqn:E; eexists; (split; [done|]); split; try done.
    apply (put_quiet x s id e); try done. by destruct (inv_entries x s Hi id e E). }
  unfold ng_do. pose proof (submit_rst_law id code (ng s')) as Hl.
  destruct (ng_submit_rst_stream id code (ng s')) as [rc n]. split; [by apply inv_ng|].
  destruct Hq as (? & ? & ?), Hl as (_ & _ & _ & Hl). split_and!; simpl in *; [done|done|congruence].
Qed.

(** [nghttp2_session_consume_connection] pays for a chunk. *)
Lemma consume_inv x s size :
  session_inv (x + size) s ->
  let r := ng_do (ng_consume_connection size) s in
  r.1 = 0 /\ session_inv x r.2 /\ quiet s r.2 /\ entries r.2 = entries s /\ s_limits r.2 = s_limits s.
Proof.
  intros []. simpl. unfold ng_do. pose proof (consume_connection_law size (ng s)) as Hl.
  destruct (ng_consume_connection size (ng s)) as [rc n]. destruct Hl as (-> & Hu & Hs & Hused & He).
  split_and!; try done. split; simpl; try done; [lia|eauto|by rewrite Hs|by rewrite Hs].
Qed.

(** ** The callbacks keep it *)

(** The chunk a callback delivers. *)
Definition delivered (c : Callback) : Z := match c with cb_data _ d => len d | _ => 0 end.

(** What the library guarantees when it makes a callback. *)
Definition callable (c : Callback) (n : N) : Prop :=
  match c with
  | cb_read_data id _ => id ∈ ng_sources n
  | cb_begin id _ => id ∈ ng_used n
  | cb_stream_closed id _ => id ∉ ng_sources n
  | _ => True
  end.

Definition handled (c : Callback) (s : Impl N) (r : Answer * Impl N) : Prop :=
  session_inv 0 r.2 /\ over r.2 = false /\ wire_out r.2 = wire_out s ++ accepted c r.1 /\
  ng_emitted (ng r.2) = ng_emitted (ng s) /\
  (sending_callback c = true -> ng r.2 = ng s /\
     total remaining (entries r.2) + Z.of_nat (supplied c r.1) <= total remaining (entries s)).

Lemma handled_quiet c s rc s' :
  session_inv 0 s' -> over s = false -> quiet s s' -> accepted c (answer rc) = [] ->
  (sending_callback c = true -> ng s' = ng s /\ total remaining (entries s') <= total remaining (entries s)) ->
  handled c s (answer rc, s').
Proof.
  intros Hi Ho (Hq & Hw & He) Ha Hn. split_and!; simpl; auto; [by rewrite Ha, app_nil_r|].
  intros Hs. destruct (Hn Hs). split; [done|]. destruct c; simpl; lia.
Qed.

Section Callbacks.
Context (s : Impl N) (Hlive : over s = false).

Lemma on_send_inv data : session_inv 0 s -> handled (cb_send data) s (on_send data s).
Proof.
  intros Hi. unfold on_send. pose proof (inv_wire 0 s Hi) as Hw. pose proof (inv_limits 0 s Hi) as (_ & _ & _ & _ & _ & Hmax & _).
  pose proof (len_nonneg (wire_out s)) as Hn0. unfold wrap64. rewrite Z.mod_small by lia.
  set (count := Z.min _ _). destruct (count =? 0) eqn:E; bool_facts.
  { apply handled_quiet; done. }
  assert (0 <= count <= len data) as Hc by (pose proof (len_nonneg data); lia).
  split_and!; try done; simpl; [|intros _; split; [done|lia]]. destruct Hi. split; simpl; try done.
  rewrite len_app. unfold len at 2. rewrite length_take, Nat.min_l by (unfold len in Hc; lia). lia.
Qed.

Lemma on_begin_inv id request : id ∈ ng_used (ng s) -> session_inv 0 s ->
  handled (cb_begin id request) s (on_begin id request s).
Proof.
  intros Hused Hi. unfold on_begin. destruct (request && _) eqn:E.
  { pose proof (reset_stream_inv 0 s id (make_error_code Errc.limit_exceeded) NGHTTP2_REFUSED_STREAM Hi) as [Hr Hq].
    destruct (reset_stream _ _ _ s) as [rc s']. by apply handled_quiet. }
  set (s1 := if request then _ else s). assert (session_inv 0 s1 /\ quiet s s1) as [Hi1 Hq1].
  { subst s1. destruct request; [|done]. split; [|done].
    apply orb_false_iff in E as [E1 E2]. bool_facts. clear E1.
    assert (forall s0, session_inv 0 s0 -> session_inv 0 (set_last_peer id s0)) as Hlp by (intros s0 []; by split).
    apply Hlp. destruct (entries s !! id) as [e|] eqn:Ee; simpl.
    - apply (put_quiet 0 s id e); try done. by destruct (inv_entries 0 s Hi id e Ee).
    - destruct Hi as [Hl Hst He Hqu Hql Hw Hc Hu Hsrc Hun Hcl].
      destruct Hl as (? & ? & ? & ? & ? & ? & ?).
      split; simpl; try done.
      + rewrite map_size_insert_None by done. lia.
      + intros i y. rewrite lookup_insert. case_decide; [|apply He]. intros [= <-]. split; unfold stored_fields, field_count, body_size, outgoing_size, len; simpl; lia.
      + intros Hl. rewrite total_new, Hql by done. done.
      + rewrite total_new, Hc by done. done.
      + intros i. rewrite lookup_insert. case_decide; [by subst|apply Hu].
      + intros Hl i Hin. destruct (Hsrc Hl i Hin) as (y & Hy & Hys). exists y. split; [|done].
        rewrite lookup_insert_ne by congruence. done.
      + intros i y. rewrite lookup_insert. case_decide; [|apply Hun]. by intros [= <-].
      + intros Hl i y. rewrite lookup_insert. case_decide; [|by apply Hcl]. by intros [= <-]. }
  apply handled_quiet; try done; destruct (entries s1 !! id) as [e|] eqn:Ee; try done.
  apply (put_quiet 0 s1 id e); try done. destruct (inv_entries 0 s1 Hi1 id e Ee) as [Hh Hn Hr Ho].
  pose proof (fields_size_nonneg (block e)).
  split; try done; unfold stored_fields, field_count in *; simpl; lia.
Qed.

Lemma on_header_inv id name value : session_inv 0 s -> handled (cb_header id name value) s (on_header id name value s).
Proof.
  intros Hi. unfold on_header. destruct (entries s !! id) as [e|] eqn:Ee; [|by apply handled_quiet].
  destruct (error_set _); [by apply handled_quiet|].
  destruct (_ || _) eqn:E.
  { pose proof (reset_stream_inv 0 s id (make_error_code Errc.limit_exceeded) NGHTTP2_ENHANCE_YOUR_CALM Hi) as [Hr Hq].
    destruct (reset_stream _ _ _ s) as [rc s']. by apply handled_quiet. }
  destruct (inv_entries 0 s Hi id e Ee) as [Hh Hn Hr Ho].
  pose proof (inv_limits 0 s Hi) as (_ & Hmax & _).
  pose proof (len_nonneg name). pose proof (len_nonneg value).
  assert (0 <= header_bytes e) as H0'.
  { pose proof (fields_size_nonneg (block e)). pose proof (fields_size_nonneg (v_headers (visible e))).
    pose proof (fields_size_nonneg (v_trailers (visible e))). unfold stored_fields in Hh. lia. }
  apply orb_false_iff in E as [E E3]. apply orb_false_iff in E as [E1 E2].
  apply Z.leb_gt in E1. unfold wrap64 in E2, E3. apply Z.ltb_ge in E2, E3.
  rewrite Z.mod_small in E2 by lia. rewrite Z.mod_small in E3 by lia.
  apply handled_quiet; try done. apply (put_quiet 0 s id e); try done.
  split; try done; unfold stored_fields, field_count in *; simpl.
  - rewrite fields_size_app. simpl. lia.
  - rewrite length_app. simpl. lia.
Qed.

(** The entry a HEADERS frame leaves, for each outcome of the scan. *)
Lemma take_block_ok l e : entry_ok l e -> entry_ok l (take_block e).
Proof.
  intros [Hh Hn Hr Ho]. pose proof (fields_size_nonneg (v_headers (visible e))).
  pose proof (fields_size_nonneg (v_trailers (visible e))). pose proof (fields_size_nonneg (block e)).
  unfold take_block. destruct (v_headers_received (visible e)); split; try done;
    unfold stored_fields, field_count in *; simpl; lia.
Qed.

Lemma remote_end_inv s0 f e e' :
  session_inv 0 s0 -> entries s0 !! f_stream f = Some e -> entry_ok (s_limits s0) e' -> same_out e e' ->
  body_size e' = body_size e ->
  session_inv 0 (put_entry (f_stream f) (if ends_stream f then set_remote_end e' else e') s0).
Proof.
  intros Hi Hid Hok Hs Hb. apply (put_quiet 0 s0 (f_stream f) e); try done; destruct (ends_stream f); try done.
  by destruct Hok.
Qed.

Lemma on_frame_received_inv f : session_inv 0 s -> handled (cb_frame_received f) s (on_frame_received f s).
Proof.
  intros Hi. unfold on_frame_received. destruct (_ <? ng_queue_size _).
  { apply handled_quiet; [by apply inv_session_error|done..]. }
  set (s1 := if f_type f =? NGHTTP2_GOAWAY then _ else s).
  assert (session_inv 0 s1 /\ quiet s s1) as [Hi1 Hq1].
  { subst s1. destruct (_ =? _); [|done]. split; [|by split_and!].
    destruct (inv_draining 0 s Hi Hlive). by split. }
  destruct (entries s1 !! f_stream f) as [e|] eqn:Ee; [|by apply handled_quiet].
  pose proof (inv_entries 0 s1 Hi1 _ e Ee) as Hok.
  assert (forall b, entry_ok (s_limits s1) (set_head b e)) as Hok' by (intros b; by destruct Hok).
  destruct ((f_type f =? NGHTTP2_HEADERS) && _).
  2: { apply handled_quiet; try done. by apply (remote_end_inv s1 f e). }
  destruct (scan_block _ _ _) as [[informational head] connect]. destruct connect.
  - assert (session_inv 0 (put_entry (f_stream f) (set_head head e) s1)) as Hi2 by (by apply (put_quiet 0 s1 (f_stream f) e)).
    pose proof (reset_stream_inv 0 _ (v_id (visible (set_head head e))) (make_error_code Errc.not_supported)
      NGHTTP2_REFUSED_STREAM Hi2) as [Hr Hq].
    destruct (reset_stream _ _ _ _) as [rc s']. apply handled_quiet; try done. by apply (quiet_trans s s1).
  - apply handled_quiet; try done. apply (remote_end_inv s1 f e); try done.
    + destruct informational; [done|]. by apply take_block_ok.
    + destruct informational; [done|]. unfold take_block. simpl. by destruct (v_headers_received (visible e)).
    + destruct informational; [done|]. unfold body_size, take_block. simpl. by destruct (v_headers_received (visible e)).
Qed.

Lemma on_invalid_frame_inv id code : session_inv 0 s -> handled (cb_invalid_frame id code) s (on_invalid_frame id code s).
Proof.
  intros Hi. unfold on_invalid_frame.
  set (s1 := match entries s !! id with Some _ => _ | None => s end).
  assert (session_inv 0 s1 /\ quiet s s1) as [Hi1 Hq1].
  { subst s1. destruct (entries s !! id) eqn:E; [|done]. split; [by apply inv_error_entry|done]. }
  destruct Hq1 as (Hq & Hw & He). assert (over s1 = false) as Hlive1 by auto.
  apply handled_quiet; try done; destruct (id =? 0); try done.
  apply inv_draining; [by apply inv_session_error|done].
Qed.

Lemma on_frame_not_sent_inv id code : session_inv 0 s -> handled (cb_frame_not_sent id code) s (on_frame_not_sent id code s).
Proof.
  intros Hi. unfold on_frame_not_sent. apply handled_quiet; try done;
    destruct (entries s !! id) as [e|] eqn:E; try done; destruct (error_set _); try done.
  - by apply inv_error_entry.
  - intros _. split; [done|]. simpl. by rewrite (total_same _ _ id e).
Qed.

Lemma on_frame_sent_inv f : session_inv 0 s -> handled (cb_frame_sent f) s (on_frame_sent f s).
Proof.
  intros Hi. unfold on_frame_sent. apply handled_quiet; try done; destruct (_ =? NGHTTP2_GOAWAY); try done;
    destruct (negb _ && _); try done; [apply inv_session_error|]; by apply inv_draining.
Qed.

Lemma on_data_inv id data : session_inv (len data) s -> handled (cb_data id data) s (on_data id data s).
Proof.
  intros Hi. unfold on_data. destruct (consume_inv 0 s (len data) Hi) as (Hrc & Hi1 & Hq1 & He1 & Hl1).
  destruct (entries s !! id) as [e|] eqn:Ee.
  2: { destruct (ng_do _ s) as [rc s1]. by apply handled_quiet. }
  destruct (error_set _); [destruct (ng_do _ s) as [rc s1]; by apply handled_quiet|].
  destruct (_ <? len data) eqn:E.
  - destruct (ng_do _ s) as [rc s1]. simpl in *. subst rc. simpl.
    pose proof (reset_stream_inv 0 s1 id (make_error_code Errc.limit_exceeded) NGHTTP2_ENHANCE_YOUR_CALM Hi1) as [Hr Hq].
    destruct (reset_stream _ _ _ s1) as [rc s']. apply handled_quiet; try done.
    by apply (quiet_trans s s1).
  - destruct (inv_entries _ s Hi id e Ee) as [Hh Hn Hr Ho]. pose proof (inv_limits _ s Hi) as (_ & _ & _ & Hmax & _).
    assert (0 <= body_size e) by apply len_nonneg.
    bool_facts. unfold wrap64 in E. rewrite Z.mod_small in E by lia. apply handled_quiet; try done.
    assert (body_size (set_body (received_bytes e + len data) (v_body (visible e) ++ data) e)
            = body_size e + len data) as Hb by apply len_app.
    replace 0 with (len data - (body_size (set_body (received_bytes e + len data)
      (v_body (visible e) ++ data) e) - body_size e)) by lia.
    apply put_same_out; try done. split; try done. rewrite Hb. simpl. lia.
Qed.

Lemma on_stream_closed_inv id code :
  id ∉ ng_sources (ng s) -> session_inv 0 s -> handled (cb_stream_closed id code) s (on_stream_closed id code s).
Proof.
  intros Hns Hi. unfold on_stream_closed. apply handled_quiet; try done; destruct (entries s !! id) as [e|] eqn:Ee; try done.
  2: { intros _. split; [done|]. simpl. rewrite (total_put _ _ id e) by done. unfold remaining at 2 3. simpl. lia. }
  set (e3 := if negb (code =? NGHTTP2_NO_ERROR) && _ then _ else _).
  assert (outgoing e3 = outgoing e /\ sent e3 = sent e /\ responded e3 = responded e /\
    visible e3 = visible e3 /\ body_size e3 = body_size e /\ stored_fields e3 = stored_fields e /\
    field_count e3 = field_count e /\ header_bytes e3 = header_bytes e /\ received_bytes e3 = received_bytes e)
    as (Ho & Hse & Hr & _ & Hb & Hsf & Hfc & Hhb & Hrb) by (subst e3; by destruct (negb (code =? _) && _)).
  destruct Hi as [Hl Hst He Hq Hql Hw Hc Hu Hsrc Hun Hcl].
  specialize (Hql Hlive). specialize (Hsrc Hlive). specialize (Hcl Hlive).
  pose proof (total_delete outgoing_size _ id e Ee) as Htot.
  pose proof (total_nonneg outgoing_size (delete id (entries s)) (fun e => len_nonneg (outgoing e))) as Hpos.
  pose proof (len_nonneg (outgoing e)) as Hpos'. unfold outgoing_size in Htot at 2.
  assert (wrap64 (queued_bodies s - len (outgoing e3)) = queued_bodies s - len (outgoing e)) as ->.
  { rewrite Ho. unfold wrap64. apply Z.mod_small. destruct Hl as (? & ? & ? & ? & ? & ?). lia. }
  split; simpl; try done.
  - by rewrite map_size_insert_Some by (by eexists).
  - intros i y. rewrite lookup_insert. case_decide; [|apply He]. intros [= <-].
    destruct (He id e Ee) as [Hh Hn Hrr Hoo]. destruct Hl as (? & ? & ? & ? & ?).
    split; [by rewrite <- Hsf, <- Hhb in Hh|by rewrite <- Hfc in Hn|by rewrite <- Hb, <- Hrb in Hrr|].
    unfold outgoing_size, len. simpl. lia.
  - lia.
  - intros _. rewrite (total_put _ _ id e) by done. unfold outgoing_size at 2 3. simpl.
    change (len []) with 0. lia.
  - rewrite (total_put _ _ id e), Hc by done. change (body_size (set_outgoing [] e3)) with (body_size e3). lia.
  - intros i. rewrite lookup_insert. case_decide; [|apply Hu]. intros _. subst i. apply Hu. by eexists.
  - intros _ i Hin. destruct (Hsrc i Hin) as (y & Hy & Hys). exists y. split; [|done].
    rewrite lookup_insert_ne; [done|congruence].
  - intros i y. rewrite lookup_insert. case_decide; [|apply Hun]. intros [= <-] Hrole. simpl. rewrite Hr, Hse.
    intros Hnr. split; [|done]. by apply (Hun id e).
  - intros _ i y. rewrite lookup_insert. case_decide; [|apply Hcl]. subst i. by intros [= <-].
Qed.

Lemma on_read_data_inv id size :
  id ∈ ng_sources (ng s) -> session_inv 0 s ->
  exists r, on_read_data id size s = Some r /\ handled (cb_read_data id size) s r.
Proof.
  intros Hin Hi. destruct (inv_source 0 s Hi Hlive id Hin) as (e & Ee & Hle & Hresp).
  unfold on_read_data. rewrite Ee. destruct (length (outgoing e) <? sent e)%nat eqn:E; bool_facts; [lia|].
  eexists. split; [done|]. split_and!; simpl; try done; [|by rewrite app_nil_r|].
  2: { intros _. split; [done|]. rewrite (total_put _ _ id e) by done. unfold remaining at 2 3. simpl.
       rewrite length_take, length_drop. lia. }
  set (e' := set_sent _ e). destruct Hi as [Hl Hst He Hq Hql Hw Hc Hu Hsrc Hun Hcl]. split; simpl; try done.
  - by rewrite map_size_insert_Some by (by eexists).
  - intros i y. rewrite lookup_insert. case_decide; [|apply He]. intros [= <-]. by destruct (He id e Ee).
  - intros _. rewrite (total_put _ _ id e), Hql by done. change (outgoing_size e') with (outgoing_size e). lia.
  - rewrite (total_put _ _ id e), Hc by done. change (body_size e') with (body_size e). lia.
  - intros i. rewrite lookup_insert. case_decide; [|apply Hu]. intros _. subst i. apply Hu. by eexists.
  - intros Hl' i Hi. destruct (Hsrc Hl' i Hi) as (y & Hy & Hys). rewrite lookup_insert.
    case_decide; [|by eexists]. subst i. assert (y = e) as -> by congruence. exists e'. split_and!; [done| |apply Hys].
    simpl. lia.
  - intros i y. rewrite lookup_insert. case_decide; [|apply Hun]. intros [= <-] Hrole. simpl.
    rewrite (Hresp Hrole). done.
  - intros Hl' i y. rewrite lookup_insert. case_decide; [|by apply Hcl]. subst i. intros [= <-]. simpl. by apply (Hcl Hl' id e).
Qed.

Lemma handle_inv c :
  callable c (ng s) -> session_inv (delivered c) s -> exists r, handle c s = Some r /\ handled c s r.
Proof.
  intros Hc Hi. destruct c; simpl in *; try (eexists; split; [done|]).
  - by apply on_send_inv.
  - by apply on_begin_inv.
  - by apply on_header_inv.
  - by apply on_frame_received_inv.
  - by apply on_invalid_frame_inv.
  - by apply on_frame_not_sent_inv.
  - by apply on_frame_sent_inv.
  - by apply on_data_inv.
  - by apply on_stream_closed_inv.
  - by apply on_read_data_inv.
Qed.
End Callbacks.

(** ** A call of the library keeps it *)

(** Since [s0], the session's output has grown by what the library emitted. *)
Definition emits (s0 s : Impl N) : Prop :=
  exists new, ng_emitted (ng s) = ng_emitted (ng s0) ++ new /\ wire_out s = wire_out s0 ++ new.

Lemma serve_calls_inv sending (t : Calls N) (s : Impl N) new left :
  lawful ng_unconsumed ng_sources ng_used ng_emitted ng_backlog sending (ng_emitted (ng s) ++ new) left (ng s) t ->
  session_inv 0 s -> over s = false ->
  match serve_calls t s with
  | Returns _ s' =>
      session_inv 0 s' /\ over s' = false /\
      exists more, ng_emitted (ng s') = ng_emitted (ng s) ++ new ++ more /\ wire_out s' = wire_out s ++ more /\
        (sending = true -> Z.of_nat (ng_backlog (ng s')) + Z.of_nat (length more) + 10 * total remaining (entries s')
                           <= Z.of_nat left + 10 * total remaining (entries s))
  | Fails _ _ | OutOfFuel => False
  end.
Proof.
  revert s new left. induction t as [rc n|c n k IH]; intros s new left Hlaw Hi Hlive; simpl in *.
  - destruct Hlaw as (Hun & Hsrc & Hused & Hem & Hback). split_and!; [|done|].
    + destruct Hi. split; simpl; try done; [by rewrite Hun|eauto|by rewrite Hsrc|by rewrite Hsrc].
    + exists []. rewrite !app_nil_r. split_and!; [done|done|]. intros E. specialize (Hback E). simpl. lia.
  - destruct Hlaw as (Hsend & Hun & Hsrc & Hused & Hem & Hcond & Hk).
    assert (session_inv (delivered c) (set_ng n s)) as Hi'.
    { destruct Hi as [Hl Hst He Hq Hql Hw Hc Hu Hs Hunans Hcl]. split; simpl; try done.
      - rewrite Hun. unfold delivered. lia.
      - eauto.
      - intros Hlv i Hin. apply Hs; [done|]. rewrite Hsrc in Hin. destruct c; set_solver.
      - intros Hlv i y Hy Hyc. destruct (Hcl Hlv i y Hy Hyc) as [? Hni]. split; [done|]. rewrite Hsrc.
        destruct c; set_solver. }
    assert (callable c n) as Hca by (destruct c; simpl in *; try done; rewrite Hsrc; set_solver).
    destruct (handle_inv (set_ng n s) Hlive c Hca Hi') as ([a s'] & Heq & Hi1 & Hlive1 & Hwire & Hemit & Hng).
    rewrite Heq. simpl in *. specialize (IH a (ng s') s' (accepted c a)
      (ng_backlog (ng s') - length (accepted c a) + 10 * supplied c a)%nat (Hk a (ng s')) Hi1 Hlive1).
    destruct (serve_calls (k a (ng s')) s') as [rc' s2|? ?|]; try done.
    destruct IH as (Hi2 & Hlive2 & more & Hem2 & Hw2 & Hb2). split_and!; [done|done|].
    exists (accepted c a ++ more). rewrite Hem2, Hw2, Hwire, Hemit, Hem, <- !app_assoc. split_and!; [done|done|].
    intros E. specialize (Hb2 E). destruct (Hsend E) as [Hcb Hle]. destruct (Hng Hcb) as [Hn Hrem].
    rewrite Hn in Hb2.
    rewrite length_app. assert (length (accepted c a) <= ng_backlog n)%nat.
    { destruct c; simpl in *; try lia. rewrite length_take. lia. }
    lia.
Qed.

(** ** The operations keep it *)

(** No operation reads through a dangling pointer, and each ends. *)
Definition keeps {A} (m : H2 N A) : Prop := forall s, session_inv 0 s ->
  wp m s (fun _ => session_inv 0) (fun e s' => e <> dangling_source /\ session_inv 0 s').

Lemma close_entry_same reason e :
  outgoing (close_entry reason e) = outgoing e /\ sent (close_entry reason e) = sent e /\
  responded (close_entry reason e) = responded e /\ body_size (close_entry reason e) = body_size e.
Proof. unfold close_entry. by destruct (v_closed (visible e)). Qed.

Lemma close_entry_ok l reason e : entry_ok l e -> entry_ok l (close_entry reason e).
Proof. unfold close_entry. destruct (v_closed (visible e)); [done|]. by intros []. Qed.

Lemma fail_connection_inv x s reason : session_inv x s -> session_inv x (fail_connection reason s).
Proof.
  intros [Hl Hst He Hq Hql Hw Hc Hu Hsrc Hun Hcl]. split; simpl; try done.
  - by rewrite map_size_fmap.
  - intros id e. rewrite lookup_fmap_Some. intros (e0 & <- & Hid). apply close_entry_ok. by apply (He id).
  - rewrite total_fmap; [done|]. intros e. apply close_entry_same.
  - intros id [e Hid]. apply lookup_fmap_Some in Hid as (e0 & _ & Hid). apply Hu. by eexists.
  - intros id e. rewrite lookup_fmap_Some. intros (e0 & <- & Hid).
    destruct (close_entry_same reason e0) as (-> & -> & -> & _). exact (Hun id e0 Hid).
Qed.

Lemma fail_with_keeps {A} reason : keeps (fail_with reason (A := A)).
Proof. intros s Hi. split; [done|]. by apply fail_connection_inv. Qed.

Lemma close_session_inv s reason : session_inv 0 s -> session_inv 0 (close_session reason s).
Proof. intros Hi. destruct (fail_connection_inv 0 s reason Hi). by split. Qed.

(** Refusals leave everything as it is. *)
Lemma refused {A} (e : Stop) (s : Impl N) (Q : A -> Impl N -> Prop) :
  e <> dangling_source -> session_inv 0 s ->
  wp (fun s => Fails e s) s Q (fun e s' => e <> dangling_source /\ session_inv 0 s').
Proof. done. Qed.

Lemma head_scan (hs : H2Headers) e :
  exists b, foldl (fun e h => if name_is h ":method" then set_head (bytes_eqb (h2_value h) (lit "HEAD")) e else e) e hs
            = set_head b e.
Proof.
  revert e. induction hs as [|h hs IH]; intros e; simpl; [exists (head_request e); by destruct e|].
  destruct (name_is h ":method"); [|apply IH]. destruct (IH (set_head (bytes_eqb (h2_value h) (lit "HEAD")) e)) as [b ->].
  by exists b.
Qed.

(** A new stream with a body to send, once the library has accepted it. *)
Lemma request_inv s id e n (body : bytes) :
  session_inv 0 s -> over s = false -> entries s !! id = None ->
  Z.of_nat (size (entries s)) < max_streams (s_limits s) ->
  len body <= max_body_bytes (s_limits s) -> len body <= max_queued_body_bytes (s_limits s) - queued_bodies s ->
  s_role s = Role.client -> (exists b, e = set_outgoing body (set_head b (new_entry id))) ->
  ng_unconsumed n = ng_unconsumed (ng s) -> ng_used (ng s) ⊆ ng_used n -> id ∈ ng_used n ->
  ng_sources n ⊆ ng_sources (ng s) ∪ {[id]} ->
  session_inv 0 (set_queued (queued_bodies s + len body) (set_ng n (put_entry id e s))).
Proof.
  intros [Hl Hst He Hq Hql Hw Hc Hu Hsrc Hun Hcl] Hlive Hid Hsize Hb Hqb Hrole [b ->] Hunc Hused Hidn Hs.
  pose proof (len_nonneg body). destruct Hl as (? & ? & ? & ? & ? & ? & ?). split; simpl; try done.
  - rewrite map_size_insert_None by done. lia.
  - intros i y. rewrite lookup_insert. case_decide; [|apply He]. intros [= <-].
    split; unfold stored_fields, field_count, body_size, outgoing_size; simpl; try change (len []) with 0; lia.
  - lia.
  - intros _. rewrite total_new, Hql by done. unfold outgoing_size at 2. simpl. lia.
  - rewrite Hunc, Hc, total_new by done. done.
  - intros i. rewrite lookup_insert. case_decide; [by subst|]. intros Hi. by apply Hused, Hu.
  - intros _ i Hi. rewrite lookup_insert. case_decide; [|apply Hsrc; [done|by eapply elem_other]].
    eexists. split; [done|]. simpl. split; [lia|]. rewrite Hrole. done.
  - intros i y. by rewrite Hrole.
  - intros _ i y. rewrite lookup_insert. case_decide; [by intros [= <-]|]. intros Hy Hyc.
    destruct (Hcl Hlive i y Hy Hyc) as [? Hni]. split; [done|]. intros Hin. by eapply Hni, elem_other.
Qed.

Lemma request_keeps headers body : keeps (request headers body).
Proof.
  intros s Hi. unfold wp, request. destruct (negb _ || negb _) eqn:E1; [by split|].
  apply orb_false_iff in E1 as [E1 E1']. apply negb_false_iff, bool_decide_eq_true in E1, E1'.
  destruct (_ || _ || _ || _) eqn:E2; [by split|].
  destruct (negb (valid_headers _ _ _ _)); [by split|].
  destruct (_ <=? 0) eqn:E3; [by split|]. bool_facts.
  pose proof (inv_queued 0 s Hi) as Hq. pose proof (inv_limits 0 s Hi) as (? & ? & ? & ? & Hmq & ? & ?).
  match goal with Hw : len body <= wrap64 _ |- _ =>
    unfold wrap64 in Hw; rewrite Z.mod_small in Hw by lia end.
  set (id := to_int32 (ng_next_stream_id (ng s))) in *.
  assert (entries s !! id = None) as Hid.
  { destruct (entries s !! id) eqn:E; [|done]. destruct (next_id_law (ng s)); [done|]. apply (inv_used 0 s Hi). by eexists. }
  rewrite Hid. simpl. destruct (head_scan headers (set_visible (mk_h2_stream id [] [] [] false false false 0 no_error) (new_entry id))) as [b Hb].
  simpl in Hb. rewrite Hb. unfold ng_do. simpl.
  pose proof (submit_request_law headers (negb (length body =? 0)%nat) (ng s)) as Hl. cbv zeta in Hl. fold id in Hl.
  destruct (ng_submit_request headers _ (ng s)) as [rc n]. destruct Hl as (Hun & Hem & Hused & Hrc).
  destruct (rc <? 0).
  - split; [done|]. replace (set_entries _ _) with (set_ng n s); [apply inv_ng; done|].
    unfold set_entries, set_ng, put_entry. simpl. by rewrite delete_insert_id.
  - destruct Hrc as (-> & Hidu & Hsrc). apply (request_inv s id _ n body); try done; try lia.
    + unfold over. by rewrite E1'.
    + by exists b.
    + rewrite Hsrc. destruct (negb _); set_solver.
Qed.

(** A response queued for a stream that had none. *)
Lemma respond_inv s id e e' n :
  session_inv 0 s -> over s = false -> entries s !! id = Some e ->
  s_role s = Role.server -> responded e = false -> v_closed (visible e) = false ->
  (exists body, e' = set_outgoing body e) -> outgoing_size e' <= max_body_bytes (s_limits s) ->
  outgoing_size e' <= max_queued_body_bytes (s_limits s) - queued_bodies s ->
  ng_unconsumed n = ng_unconsumed (ng s) -> ng_used (ng s) ⊆ ng_used n ->
  ng_sources n ⊆ ng_sources (ng s) ∪ {[id]} ->
  session_inv 0 (put_entry id (set_responded e')
    (set_queued (queued_bodies s + len (outgoing e')) (set_ng n (put_entry id e' s)))).
Proof.
  intros [Hl Hst He Hq Hql Hw Hc Hu Hsrc Hun Hcl] Hlive Hid Hrole Hresp Hclosed [body ->] Hb Hqb Hunc Hused Hs.
  unfold outgoing_size in Hb, Hqb. simpl in Hb, Hqb. pose proof (len_nonneg body).
  destruct (Hun id e Hid Hrole Hresp) as [Hsent Hout].
  unfold put_entry. simpl. split; simpl; try done; rewrite ?insert_insert_eq.
  - by rewrite map_size_insert_Some by (by eexists).
  - intros i y. rewrite lookup_insert. case_decide; [|apply He]. intros [= <-].
    destruct (He id e Hid). split; done.
  - lia.
  - intros _. rewrite (total_put _ _ id e), Hql by done. unfold outgoing_size at 3 4. simpl.
    rewrite Hout. change (len []) with 0. lia.
  - rewrite Hunc, Hc, (total_put _ _ id e) by done.
    change (body_size (set_responded (set_outgoing body e))) with (body_size e). lia.
  - intros i. rewrite lookup_insert. case_decide; [|intros Hi; by apply Hused, Hu]. intros _. subst i.
    apply Hused, Hu. by eexists.
  - intros _ i Hi. rewrite lookup_insert. case_decide; [|apply Hsrc; [done|by eapply elem_other]].
    eexists. split; [done|]. simpl. split; [lia|done].
  - intros i y. rewrite lookup_insert. case_decide; [|apply Hun]. by intros [= <-].
  - intros _ i y. rewrite lookup_insert. case_decide; [intros [= <-]; simpl; congruence|]. intros Hy Hyc.
    destruct (Hcl Hlive i y Hy Hyc) as [? Hni]. split; [done|]. intros Hin. by eapply Hni, elem_other.
Qed.

Lemma respond_keeps id headers body : keeps (respond id headers body).
Proof.
  intros s Hi. unfold wp, respond. destruct (entries s !! id) as [e|] eqn:Ee; [|by split].
  destruct (negb _ || over s || _ || _ || _ || _) eqn:E1; [by split|].
  destruct ((_ <=? _) || _ || _) eqn:E2; [by split|].
  destruct (negb (valid_headers _ _ _ _)); [by split|].
  repeat match goal with H : (_ || _) = false |- _ => apply orb_false_iff in H; destruct H end. bool_facts.
  match goal with H : bool_decide (s_role s = _) = true |- _ => apply bool_decide_eq_true in H; rename H into Hrole end.
  pose proof (inv_queued 0 s Hi) as Hq. pose proof (inv_limits 0 s Hi) as (? & ? & ? & ? & Hmq & ? & ?).
  match goal with Hw : len body <= wrap64 _ |- _ =>
    unfold wrap64 in Hw; rewrite Z.mod_small in Hw by lia; rename Hw into Hroom end.
  destruct (inv_unanswered 0 s Hi id e Ee Hrole ltac:(done)) as [Hsent Hout].
  set (e' := if head_request e then e else set_outgoing body e).
  assert (exists b, e' = set_outgoing b e /\ (b = [] \/ b = body)) as (b & He' & Hb).
  { subst e'. destruct (head_request e); [exists []; split; [|by left]|exists body; split; [done|by right]].
    destruct e; simpl in *; by subst. }
  clearbody e'. subst e'. assert (len b <= len body) as Hlen.
  { destruct Hb as [->| ->]; [|done]. apply len_nonneg. }
  unfold ng_do. simpl. pose proof (submit_response_law id headers (negb (length b =? 0)%nat) (ng s)) as Hl.
  destruct (ng_submit_response id headers _ (ng s)) as [rc n]. destruct Hl as (Hun & Hem & Hused & Hsrc).
  destruct (rc =? 0); simpl in Hsrc; simpl negb; cbv iota.
  - apply (respond_inv s id e (set_outgoing b e) n); try done; unfold outgoing_size; simpl; try lia.
    + by exists b.
    + rewrite Hsrc. destruct (negb _); set_solver.
  - split; [done|]. unfold put_entry. simpl. unfold set_entries. simpl. rewrite insert_insert_eq.
    replace (set_outgoing [] (set_outgoing b e)) with e by (destruct e; simpl in *; by subst).
    rewrite insert_id by done. apply (inv_ng 0 s n Hi). rewrite union_empty_r_L in Hsrc. done.
Qed.

Lemma receive_piece_inv piece s :
  session_inv 0 s -> over s = false ->
  wp (receive_piece piece) s (fun _ s' => session_inv 0 s' /\ over s' = false /\ emits s s')
    (fun e s' => e <> dangling_source /\ session_inv 0 s' /\ s_state s' = H2State.failed /\ emits s s').
Proof.
  intros Hi Ho. unfold wp, receive_piece.
  pose proof (serve_calls_inv false (ng_mem_recv piece (ng s)) s [] 0) as Hs. rewrite app_nil_r in Hs.
  specialize (Hs (mem_recv_law piece (ng s)) Hi Ho).
  destruct (serve_calls _ s) as [rc s'|? ?|]; [|done|done]. destruct Hs as (Hi' & Ho' & new & He & Hw & _).
  assert (emits s s') as Hem by (by exists new).
  destruct (_ || _); [by split_and!; try apply fail_connection_inv|].
  destruct (_ <? _); [by split_and!; try apply fail_connection_inv|done].
Qed.

Lemma emits_trans s1 s2 s3 : emits s1 s2 -> emits s2 s3 -> emits s1 s3.
Proof.
  intros (n1 & He1 & Hw1) (n2 & He2 & Hw2). exists (n1 ++ n2).
  by rewrite He2, He1, Hw2, Hw1, <- !app_assoc.
Qed.

Lemma emits_refl s : emits s s.
Proof. exists []. by rewrite !app_nil_r. Qed.

(** [receive] takes all its input, or fails the connection. *)
Lemma receive_inv data s :
  session_inv 0 s -> over s = false ->
  wp (receive_bytes data) s (fun _ s' => session_inv 0 s' /\ over s' = false /\ emits s s')
    (fun e s' => e <> dangling_source /\ session_inv 0 s' /\ s_state s' = H2State.failed /\ emits s s').
Proof.
  intros Hi Ho. unfold wp, receive_bytes. rewrite Ho.
  assert (wp (iter (S (length data)) receive_round) (s, data)
    (fun _ c => session_inv 0 c.1 /\ over c.1 = false /\ emits s c.1)
    (fun e c => e <> dangling_source /\ session_inv 0 c.1 /\ s_state c.1 = H2State.failed /\ emits s c.1)) as Hiter.
  { apply (iter_wp _ (fun c => session_inv 0 c.1 /\ over c.1 = false /\ emits s c.1) (fun c => length c.2));
      [|by split_and!; [..|apply emits_refl]|simpl; lia].
    intros [s1 bytes] (Hi1 & Ho1 & He1). simpl in He1. unfold wp, receive_round. destruct (length bytes =? 0)%nat eqn:E; bool_facts; [done|].
    pose proof (receive_piece_inv (take recv_size bytes) s1 Hi1 Ho1) as Hp. unfold wp in Hp.
    destruct (receive_piece _ s1) as [[] s2|e s2|]; [|by destruct Hp as (? & ? & ? & ?); split_and!; eauto using emits_trans|done].
    destruct Hp as (? & ? & ?). split; [by split_and!; eauto using emits_trans|]. simpl.
    rewrite length_drop. unfold recv_size. lia. }
  unfold wp in Hiter. destruct (iter _ _ _) as [? []|? []|]; done.
Qed.

Lemma receive_keeps data : keeps (receive_bytes data).
Proof.
  intros s Hi. destruct (over s) eqn:Ho; [unfold wp, receive_bytes; by rewrite Ho|].
  eapply wp_mono; [by apply receive_inv|by intros ? ? []|]. by intros ? ? (? & ? & _).
Qed.

(** What an [output] hands over is what the library has emitted since, after
    what was waiting. *)
Lemma output_inv s :
  session_inv 0 s -> over s = false ->
  wp output s
    (fun out s' => session_inv 0 s' /\ wire_out s' = [] /\
       exists new, ng_emitted (ng s') = ng_emitted (ng s) ++ new /\ out = wire_out s ++ new /\
         Z.of_nat (ng_backlog (ng s')) + Z.of_nat (length new) + 10 * total remaining (entries s')
         <= Z.of_nat (ng_backlog (ng s)) + 10 * total remaining (entries s))
    (fun e s' => e <> dangling_source /\ session_inv 0 s' /\ s_state s' = H2State.failed /\ emits s s').
Proof.
  intros Hi Ho. unfold wp, output. rewrite Ho.
  pose proof (serve_calls_inv true (ng_session_send (ng s)) s [] (ng_backlog (ng s))) as Hs. rewrite app_nil_r in Hs.
  specialize (Hs (session_send_law (ng s)) Hi Ho).
  destruct (serve_calls _ s) as [rc s'|? ?|]; [|done|done]. destruct Hs as (Hi' & Ho' & new & Hem & Hw & Hb).
  assert (emits s s') as He by (by exists new).
  destruct (negb (rc =? 0)); [by split_and!; try apply fail_connection_inv|].
  assert (session_inv 0 (set_wire [] s')) as Hi2.
  { pose proof (inv_limits 0 s' Hi') as (_ & _ & _ & _ & _ & ? & _). destruct Hi'. split; simpl; try done. change (len []) with 0. lia. }
  destruct (negb _ && negb _); (split_and!; [|done|exists new; by split_and!; [..|auto]]); [|done].
  destruct Hi2. by split.
Qed.

Lemma output_keeps : keeps output.
Proof.
  intros s Hi. destruct (over s) eqn:Ho; [unfold wp, output; by rewrite Ho|].
  eapply wp_mono; [by apply output_inv|by intros ? ? []|]. by intros ? ? (? & ? & _).
Qed.

(** Handing a body over pays for it. *)
Lemma take_body_inv id s :
  session_inv 0 s ->
  wp (take_body id) s
    (fun body s' => session_inv 0 s' /\ over s' = over s /\
       exists e, entries s !! id = Some e /\ body = v_body (visible e) /\
         entries s' !! id = Some (set_body (received_bytes e) [] e))
    (fun e s' => e <> dangling_source /\ session_inv 0 s').
Proof.
  intros Hi. unfold wp, take_body. destruct (entries s !! id) as [e|] eqn:Ee; [|by split].
  assert (session_inv (- body_size e) (ng_do (ng_consume_connection (body_size e)) s).2 /\
    (ng_do (ng_consume_connection (body_size e)) s).1 = 0 /\
    over (ng_do (ng_consume_connection (body_size e)) s).2 = over s /\
    entries (ng_do (ng_consume_connection (body_size e)) s).2 = entries s) as (Hi1 & Hrc & Ho1 & He1).
  { unfold ng_do. pose proof (consume_connection_law (body_size e) (ng s)) as Hl.
    destruct (ng_consume_connection (body_size e) (ng s)) as [rc n]. destruct Hl as (-> & Hu & Hs & Hused & _).
    split_and!; try done. destruct Hi. split; simpl; try done; [lia|eauto|by rewrite Hs|by rewrite Hs]. }
  unfold body_size in Hi1, Hrc, Ho1, He1 at 1. fold (body_size e) in Hi1.
  destruct (ng_do (ng_consume_connection _) s) as [rc s1]. simpl in Hi1, Hrc, Ho1, He1. subst rc.
  change (0 =? 0) with true. cbv [andb].
  set (r := if negb (v_closed (visible e)) then _ else (0, s1)).
  assert (r.1 = 0 /\ session_inv (- body_size e) r.2 /\ over r.2 = over s /\ entries r.2 = entries s)
    as (Hr1 & Hi2 & Ho2 & He2).
  { subst r. destruct (negb _); [|done]. unfold ng_do.
    pose proof (consume_stream_law id (len (v_body (visible e))) (ng s1)) as [Hl1 Hl2].
    destruct (ng_consume_stream _ _ (ng s1)) as [rc n]. simpl in *. split_and!; [done|by apply inv_ng|done|done]. }
  destruct r as [rc s2]. simpl in *. subst rc. simpl. rewrite <- He2 in Ee.
  split_and!; [|done|exists e; split_and!; [congruence|done|apply lookup_insert_eq]].
  pose proof (put_same_out _ s2 id e (set_body (received_bytes e) [] e) Hi2 Ee) as Hp.
  replace (- body_size e - _) with 0 in Hp by (unfold body_size; simpl; change (len []) with 0; lia).
  apply Hp; [|done]. destruct (inv_entries _ s2 Hi2 id e Ee) as [? ? Hrec ?]. split; try done.
  unfold body_size in *. simpl. change (len []) with 0. pose proof (len_nonneg (v_body (visible e))). lia.
Qed.

Lemma take_body_keeps id : keeps (take_body id).
Proof. intros s Hi. eapply wp_mono; [by apply take_body_inv|by intros ? ? []|done]. Qed.

(** An entry without body or output can go. *)
Lemma delete_inv s id e :
  session_inv 0 s -> entries s !! id = Some e -> body_size e = 0 ->
  (over s = false -> outgoing e = [] /\ id ∉ ng_sources (ng s)) ->
  session_inv 0 (set_entries (delete id (entries s)) s).
Proof.
  intros [Hl Hst He Hq Hql Hw Hc Hu Hsrc Hun Hcl] Hid Hb Ho. split; simpl; try done.
  - rewrite map_size_delete_Some by (by eexists). lia.
  - intros i y. rewrite lookup_delete. case_decide; [done|apply He].
  - intros Hlive. rewrite (Hql Hlive), (total_delete _ _ id e) by done. destruct (Ho Hlive) as [Hout _].
    unfold outgoing_size at 1. by rewrite Hout.
  - rewrite Hc, (total_delete body_size _ id e) by done. lia.
  - intros i. rewrite lookup_delete. case_decide; [by intros []|apply Hu].
  - intros Hlive i Hi. destruct (Hsrc Hlive i Hi) as (y & Hy & Hys). exists y. split; [|done].
    rewrite lookup_delete_ne; [done|]. intros ->. by destruct (Ho Hlive).
  - intros i y. rewrite lookup_delete. case_decide; [done|apply Hun].
  - intros Hlive i y. rewrite lookup_delete. case_decide; [done|by apply Hcl].
Qed.

Lemma release_keeps id : keeps (release id).
Proof.
  intros s Hi. unfold wp, release. destruct (entries s !! id) as [e|] eqn:Ee; [|by split].
  destruct (v_closed (visible e)) eqn:Ec; simpl; [|by split].
  pose proof (take_body_inv id s Hi) as Ht. unfold wp in Ht.
  destruct (take_body id s) as [body s'|err s'|]; [|done|done].
  destruct Ht as (Hi' & Ho & e0 & He0 & _ & He'). assert (e0 = e) as -> by congruence.
  apply (delete_inv s' id _ Hi' He'); [done|]. intros Hlive.
  by destruct (inv_closed 0 s' Hi' Hlive id _ He' Ec).
Qed.

Lemma cancel_keeps id : keeps (cancel id).
Proof.
  intros s Hi. unfold wp, cancel. destruct (entries s !! id) as [e|] eqn:Ee; [|by split].
  destruct (_ || _); [by split|].
  destruct (reset_stream_inv 0 s id (make_error_code Errc.cancelled) NGHTTP2_CANCEL Hi) as [Hr _].
  destruct (reset_stream _ _ _ s) as [rc s']. by destruct (negb (rc =? 0)).
Qed.

Lemma goaway_keeps code : keeps (goaway code).
Proof.
  intros s Hi. unfold wp, goaway. destruct (over s) eqn:Ho; [by split|]. destruct (local_goaway s); [by split|].
  simpl. destruct (_ <=? _); [by split|]. unfold ng_do.
  pose proof (submit_goaway_law (last_peer_stream s) code (ng s)) as Hl.
  destruct (ng_submit_goaway _ code (ng s)) as [rc n]. pose proof (inv_ng 0 s n Hi Hl) as Hn.
  destruct (negb (rc =? 0)); [by split|]. destruct (inv_draining 0 (set_ng n s) Hn Ho). by split.
Qed.
End Invariant.

(** ** Runs of a session *)

(** A call of the public interface. *)
Inductive SessionOp :=
| op_request (headers : H2Headers) (body : bytes)
| op_respond (id : Z) (headers : H2Headers) (body : bytes)
| op_receive (data : bytes)
| op_output
| op_take_body (id : Z)
| op_cancel (id : Z)
| op_release (id : Z)
| op_goaway (code : Z)
| op_close (reason : Error).

Section Runs.
Context {N : Type} `{Nghttp2 N}.

(** The state a call leaves; [None] if it read through a dangling pointer or did
    not end. *)
Definition state_after {A} (m : H2 N A) (s : Impl N) : option (Impl N) :=
  match m s with
  | Returns _ s | Fails (reports _) s => Some s
  | Fails dangling_source _ | OutOfFuel => None
  end.

Definition run_op (op : SessionOp) (s : Impl N) : option (Impl N) :=
  match op with
  | op_request headers body => state_after (request headers body) s
  | op_respond id headers body => state_after (respond id headers body) s
  | op_receive data => state_after (receive_bytes data) s
  | op_output => state_after output s
  | op_take_body id => state_after (take_body id) s
  | op_cancel id => state_after (cancel id) s
  | op_release id => state_after (release id) s
  | op_goaway code => state_after (goaway code) s
  | op_close reason => Some (close_session reason s)
  end.

Fixpoint run_ops (ops : list SessionOp) (s : Impl N) : option (Impl N) :=
  match ops with
  | [] => Some s
  | op :: ops => match run_op op s with Some s => run_ops ops s | None => None end
  end.
End Runs.

Section RunLaws.
Context {N : Type} `{Nghttp2Laws N} (lim : H2Limits).

Lemma state_after_keeps {A} (m : H2 N A) s :
  keeps lim m -> session_inv lim 0 s -> exists s', state_after m s = Some s' /\ session_inv lim 0 s'.
Proof.
  intros Hm Hi. specialize (Hm s Hi). unfold wp, state_after in *.
  destruct (m s) as [a s'|[e|] s'|]; [by exists s'|destruct Hm as [_ Hm]; by exists s'|by destruct Hm|done].
Qed.

Lemma run_op_inv op (s : Impl N) :
  session_inv lim 0 s -> exists s', run_op op s = Some s' /\ session_inv lim 0 s'.
Proof.
  intros Hi. destruct op; simpl; try (apply state_after_keeps; [|done]).
  - apply request_keeps.
  - apply respond_keeps.
  - apply receive_keeps.
  - apply output_keeps.
  - apply take_body_keeps.
  - apply cancel_keeps.
  - apply release_keeps.
  - apply goaway_keeps.
  - eexists. split; [done|]. by apply close_session_inv.
Qed.

Lemma run_ops_inv ops (s : Impl N) :
  session_inv lim 0 s -> exists s', run_ops ops s = Some s' /\ session_inv lim 0 s'.
Proof.
  revert s. induction ops as [|op ops IH]; intros s Hi; simpl; [by exists s|].
  destruct (run_op_inv op s Hi) as (s' & -> & Hi'). by apply IH.
Qed.
End RunLaws.

(** The documented contract of a limit, at every moment of a session's life. *)
Definition within_limits {N} (lim : H2Limits) (s : Impl N) : Prop :=
  Z.of_nat (size (entries s)) <= max_streams lim /\
  queued_bodies s <= max_queued_body_bytes lim /\
  len (wire_out s) <= max_output_bytes lim /\
  forall id e, entries s !! id = Some e ->
    Z.of_nat (field_count e) <= max_headers lim /\ stored_fields e <= max_header_bytes lim /\
    body_size e <= max_body_bytes lim /\ outgoing_size e <= max_body_bytes lim.

Lemma inv_within_limits {N} `{Nghttp2Laws N} lim (s : Impl N) : session_inv lim 0 s -> within_limits lim s.
Proof.
  intros [Hl Hst He Hq Hql Hw Hc Hu' Hsrc Hun Hcl <-].
  split_and!; [done|lia|done|]. intros id e Hid. destruct (He id e Hid). split_and!; lia.
Qed.

(** C14: an HTTP/2 session stays within its limits.  After any sequence of
    calls, whatever the peer sends and however the library calls back, every call
    has ended without reading a stream's body through a dangling pointer, and the
    number of streams, the queued bodies, the pending output, and each stream's
    fields (by count and by size) and bodies are within the configured limits. *)
Theorem session_within_limits {N : Type} {HN : Nghttp2 N} {LN : Nghttp2Laws N}
    (role : Role.t) (lim : H2Limits) (n : N) (ops : list SessionOp)
    (Hrange : limits_range lim) (Hnew : ng_unconsumed n = 0 /\ ng_sources n = ∅) :
  exists s, run_ops ops (new_session role lim n) = Some s /\ within_limits lim s.
Proof.
  destruct Hnew as [Hu Hs].
  destruct (run_ops_inv lim ops (new_session role lim n)) as (s & Hrun & Hi); [by apply session_inv_new|].
  exists s. split; [done|]. by apply inv_within_limits.
Qed.

(** flow-control credit is given back exactly once.  After any
    sequence of calls, the bytes the library has delivered and not been told to
    be consumed on the connection are exactly the bodies still held for the
    application: a byte that is refused, discarded or taken has been consumed,
    one that waits has not.  And while the session is live, what it counts as
    queued is exactly the bodies its streams have still to send. *)
Theorem session_credit_exact {N : Type} {HN : Nghttp2 N} {LN : Nghttp2Laws N}
    (role : Role.t) (lim : H2Limits) (n : N) (ops : list SessionOp)
    (Hrange : limits_range lim) (Hnew : ng_unconsumed n = 0 /\ ng_sources n = ∅) :
  exists s, run_ops ops (new_session role lim n) = Some s /\
    ng_unconsumed (ng s) = total body_size (entries s) /\
    (over s = false -> queued_bodies s = total outgoing_size (entries s)).
Proof.
  destruct Hnew as [Hu Hs].
  destruct (run_ops_inv lim ops (new_session role lim n)) as (s & Hrun & Hi); [by apply session_inv_new|].
  exists s. destruct Hi. split_and!; [done|lia|done].
Qed.

(** ** Failing *)

(** Failed with [e], and every stream closed. *)
Definition gave_up {N} (e : Error) (s : Impl N) : Prop :=
  s_state s = H2State.failed /\ s_error s = e /\
  forall id x, entries s !! id = Some x -> v_closed (visible x) = true.

Lemma fail_connection_gave_up {N} reason (s : Impl N) : gave_up reason (fail_connection reason s).
Proof.
  split_and!; try done. intros id x. simpl. rewrite lookup_fmap_Some. intros (y & <- & _).
  unfold close_entry. by destruct (v_closed (visible y)) eqn:E.
Qed.

(** The library reports through its return value only. *)
Lemma serve_calls_silent {N} `{Nghttp2 N} t (s1 s2 : Impl N) err : serve_calls t s1 <> Fails (reports err) s2.
Proof.
  revert s1. induction t as [rc n|c n k IH]; intros s1; simpl; [done|].
  destruct (handle c _) as [[a s3]|]; [apply IH|done].
Qed.

Lemma receive_gave_up {N} `{Nghttp2 N} data (s s' : Impl N) e :
  over s = false -> receive_bytes data s = Fails (reports e) s' -> gave_up e s'.
Proof.
  intros Ho. unfold receive_bytes. rewrite Ho.
  assert (forall fuel c, match iter fuel (receive_round (N := N)) c with
                         | Fails (reports e) c' => gave_up e c'.1 | _ => True end) as Hiter.
  { intros fuel. induction fuel as [|fuel IH]; intros [s1 bytes]; simpl; [done|].
    destruct (length bytes =? 0)%nat; [done|]. unfold receive_piece.
    destruct (serve_calls _ s1) as [rc s2|[err|] s2|] eqn:E; [|by destruct (serve_calls_silent _ _ _ _ E)|done|done].
    destruct (_ || _); [apply fail_connection_gave_up|].
    destruct (_ <? _); [apply fail_connection_gave_up|apply IH]. }
  specialize (Hiter (S (length data)) (s, data)).
  destruct (iter _ _ _) as [[] []|[err|] []|]; try done. intros [= -> ->]. exact Hiter.
Qed.

Lemma output_gave_up {N} `{Nghttp2 N} (s s' : Impl N) e :
  over s = false -> output s = Fails (reports e) s' -> gave_up e s'.
Proof.
  intros Ho. unfold output. rewrite Ho.
  destruct (serve_calls _ s) as [rc s2|[err|] s2|] eqn:E; [|by destruct (serve_calls_silent _ _ _ _ E)|done|done].
  destruct (negb _); [|done]. unfold fail_with. intros [= <- <-]. apply fail_connection_gave_up.
Qed.

(** a session that has failed or closed stays so.  [receive] and
    [output] that report an error leave the session failed with that error
    recorded and every stream closed; and once it is over, every operation that
    would reach the peer is refused and changes nothing at all. *)
Theorem session_over_is_final {N : Type} {HN : Nghttp2 N} (s s0 s1 : Impl N) (e : Error)
    (Hlive : over s0 = false) (Hover : over s = true) :
  (forall data, receive_bytes data s0 = Fails (reports e) s1 -> gave_up e s1) /\
  (output s0 = Fails (reports e) s1 -> gave_up e s1) /\
  (forall data, receive_bytes data s = Fails (reports (error_or s (make_error_code Errc.eof))) s) /\
  output s = Fails (reports (error_or s (make_error_code Errc.eof))) s /\
  (forall headers body, request headers body s = Fails (refuse Errc.invalid_argument) s) /\
  (forall id headers body, respond id headers body s = Fails (refuse Errc.invalid_argument) s) /\
  (forall id, cancel id s = Fails (refuse Errc.invalid_argument) s) /\
  (forall code, goaway code s = Fails (refuse Errc.invalid_argument) s) /\
  wants_write s = false.
Proof.
  assert (bool_decide (s_state s = H2State.open) = false) as Hst.
  { unfold over in Hover. destruct (s_state s); done. }
  split_and!; intros.
  - by eapply receive_gave_up.
  - by apply (output_gave_up s0).
  - unfold receive_bytes. by rewrite Hover.
  - unfold output. by rewrite Hover.
  - unfold request. by rewrite Hst, orb_true_r.
  - unfold respond. destruct (entries s !! id); [|done]. by rewrite Hover, orb_true_r.
  - unfold cancel. destruct (entries s !! id); [|done]. by rewrite Hover.
  - unfold goaway. by rewrite Hover.
  - unfold wants_write. by rewrite Hover.
Qed.

(** ** A library that can be run *)

(** Frames are bytes in a queue; the peer speaks in single letters: [H] opens
    stream 1 with a header block, [D] carries data for it, [C] resets it. *)
Record Toy2 := mk_toy2 {
  y2_queue : bytes;
  y2_unconsumed : Z;
  y2_sources : gset Z;
  y2_used : gset Z;
  y2_emitted : bytes;
}.

Definition toy2_queue (d : bytes) (y : Toy2) : Toy2 :=
  mk_toy2 (y2_queue y ++ d) (y2_unconsumed y) (y2_sources y) (y2_used y) (y2_emitted y).
Definition toy2_source (has : bool) (y : Toy2) : Toy2 :=
  mk_toy2 (y2_queue y) (y2_unconsumed y) (y2_sources y ∪ (if has then {[1]} else ∅)) (y2_used y ∪ {[1]}) (y2_emitted y).
Definition toy2_credit (d : Z) (y : Toy2) : Toy2 :=
  mk_toy2 (y2_queue y) (y2_unconsumed y + d) (y2_sources y) (y2_used y) (y2_emitted y).
Definition toy2_unsource (y : Toy2) : Toy2 :=
  mk_toy2 (y2_queue y) (y2_unconsumed y) (y2_sources y ∖ {[1]}) (y2_used y) (y2_emitted y).
Definition toy2_taken (d : bytes) (c : nat) (y : Toy2) : Toy2 :=
  mk_toy2 (drop c (y2_queue y)) (y2_unconsumed y) (y2_sources y) (y2_used y) (y2_emitted y ++ take c d).

Definition toy2_recv (data : bytes) (y : Toy2) : Calls Toy2 :=
  let done (_ : Answer) (y : Toy2) := ng_returns (len data) y in
  match data with
  | b :: rest =>
      if Byte.eqb b x48 then
        ng_calls (cb_begin 1 true) (toy2_source false y) (fun _ y =>
          ng_calls (cb_header 1 (lit ":method") (lit "GET")) y (fun _ y =>
            ng_calls (cb_frame_received (mk_frame NGHTTP2_HEADERS 1 0 0 0)) y done))
      else if Byte.eqb b x44 then ng_calls (cb_data 1 rest) (toy2_credit (len rest) y) done
      else if Byte.eqb b x43 then ng_calls (cb_stream_closed 1 NGHTTP2_CANCEL) (toy2_unsource y) done
      else ng_returns NGHTTP2_ERR_PROTO y
  | [] => ng_returns 0 y
  end.

Definition toy2_flush (y : Toy2) : Calls Toy2 :=
  ng_calls (cb_send (y2_queue y)) y (fun a y' =>
    ng_returns 0 (toy2_taken (y2_queue y) (Z.to_nat (a_code a)) y')).

Definition toy2_send (y : Toy2) : Calls Toy2 :=
  if bool_decide (1 ∈ y2_sources y)
  then ng_calls (cb_read_data 1 100) y (fun a y => toy2_flush (toy2_queue (a_data a) y))
  else toy2_flush y.

#[export] Instance toy2 : Nghttp2 Toy2 := {
  check_header_name := fun n => negb (length n =? 0)%nat;
  check_header_value := fun _ => true;
  ng_queue_size := fun _ => 0;
  ng_next_stream_id := fun y => if bool_decide (1 ∈ y2_used y) then 2 ^ 31 else 1;
  ng_submit_request := fun _ has y =>
    if bool_decide (1 ∈ y2_used y) then (NGHTTP2_ERR_STREAM_ID_NOT_AVAILABLE, y)
    else (1, toy2_queue (lit "request ") (toy2_source has y));
  ng_submit_response := fun id _ has y =>
    if id =? 1 then (0, toy2_queue (lit "response ") (toy2_source has y)) else (NGHTTP2_ERR_PROTO, y);
  ng_submit_rst_stream := fun _ _ y => (0, toy2_queue (lit "rst ") y);
  ng_submit_goaway := fun _ _ y => (0, toy2_queue (lit "goaway ") y);
  ng_consume_connection := fun size y => (0, toy2_credit (- size) y);
  ng_consume_stream := fun _ _ y => (0, y);
  ng_want_read := fun _ => true;
  ng_want_write := fun y => negb (length (y2_queue y) =? 0)%nat || bool_decide (1 ∈ y2_sources y);
  ng_mem_recv := toy2_recv;
  ng_session_send := toy2_send;
  ng_backlog := fun y => length (y2_queue y);
}.

#[export] Instance toy2_laws : Nghttp2Laws Toy2.
Proof.
  refine {| ng_unconsumed := y2_unconsumed; ng_sources := y2_sources; ng_used := y2_used;
            ng_emitted := y2_emitted |}.
  - intros hs has n. simpl. case_bool_decide; simpl; split_and!; try done; set_solver.
  - intros n. simpl. by case_bool_decide.
  - intros id hs has n. simpl. destruct (id =? 1) eqn:E; bool_facts; simpl; split_and!; try done; set_solver.
  - intros. simpl. split_and!; set_solver.
  - intros. simpl. split_and!; set_solver.
  - intros. simpl. split_and!; set_solver.
  - intros. simpl. split_and!; done.
  - intros data n. simpl. unfold toy2_recv. destruct data as [|b rest]; [simpl; set_solver|].
    repeat case_match; simpl; repeat (split_and!; intros); try done; rewrite ?Z.add_0_r, ?app_nil_r; try set_solver.
  - intros n. simpl. unfold toy2_send. case_bool_decide as E; simpl; split_and!; try done; try lia.
    + intros a n'. rewrite app_nil_r, Z.add_0_r, length_app. split_and!; try done; try lia.
      intros a' n2. split_and!; try done. intros _. rewrite length_drop, length_take. lia.
    + intros a n'. split_and!; try done. intros _. rewrite length_drop, length_take. lia.
Defined.

(** A server that receives a request, some data, answers, and drains. *)
Definition toy_session : list SessionOp :=
  [op_receive (lit "H"); op_receive (lit "Dhello"); op_respond 1 [mk_h2 (lit ":status") (lit "200")] (lit "world");
   op_output; op_take_body 1; op_receive (lit "C"); op_release 1].

Definition toy2_start : Toy2 := mk_toy2 [] 0 ∅ ∅ [].

Lemma toy2_start_new : ng_unconsumed toy2_start = 0 /\ ng_sources toy2_start = ∅.
Proof. split; reflexivity. Defined.

Lemma default_limits_range : limits_range default_h2_limits.
Proof. repeat split; vm_compute; congruence. Defined.

Lemma session_within_limits_witness :
  exists s, run_ops (take 4 toy_session) (new_session Role.server default_h2_limits toy2_start) = Some s /\
            within_limits default_h2_limits s /\ y2_emitted (ng s) = lit "response world".
Proof.
  destruct (session_within_limits Role.server default_h2_limits toy2_start (take 4 toy_session)
    default_limits_range toy2_start_new) as (s & Hrun & Hw).
  exists s. split; [exact Hrun|]. split; [exact Hw|]. vm_compute in Hrun. injection Hrun as <-. reflexivity.
Defined.

Lemma session_credit_exact_witness :
  (exists s, run_ops (take 3 toy_session) (new_session Role.server default_h2_limits toy2_start) = Some s /\
     y2_unconsumed (ng s) = 5 /\ queued_bodies s = 5) /\
  exists s, run_ops toy_session (new_session Role.server default_h2_limits toy2_start) = Some s /\
    y2_unconsumed (ng s) = total body_size (entries s) /\
    (over s = false -> queued_bodies s = total outgoing_size (entries s)).
Proof.
  split; [eexists; split; [vm_compute; reflexivity|]; split; reflexivity|].
  exact (session_credit_exact Role.server default_h2_limits toy2_start toy_session
    default_limits_range toy2_start_new).
Defined.

Lemma session_over_is_final_witness :
  exists s1, receive_bytes (lit "X") (new_session Role.server default_h2_limits toy2_start)
             = Fails (reports (engine_error NGHTTP2_ERR_PROTO)) s1 /\
             gave_up (engine_error NGHTTP2_ERR_PROTO) s1 /\
             output s1 = Fails (reports (engine_error NGHTTP2_ERR_PROTO)) s1.
Proof.
  assert (exists s1, receive_bytes (lit "X") (new_session Role.server default_h2_limits toy2_start)
    = Fails (reports (engine_error NGHTTP2_ERR_PROTO)) s1 /\ over s1 = true /\
      error_or s1 (make_error_code Errc.eof) = engine_error NGHTTP2_ERR_PROTO) as (s1 & E & Ho & He)
    by (eexists; split; [vm_compute; reflexivity|split; reflexivity]).
  exists s1. split; [exact E|].
  pose proof (session_over_is_final s1 (new_session Role.server default_h2_limits toy2_start) s1
    (engine_error NGHTTP2_ERR_PROTO) eq_refl Ho) as Hf.
  split; [exact (proj1 Hf (lit "X") E)|]. rewrite <- He. exact (proj1 (proj2 (proj2 (proj2 Hf)))).
Defined.
