(* ===== verification/Http2Headers.v ===== *)
(** * Http2Headers: which header lists an HTTP/2 session agrees to send

    [valid_headers] (http2/src/session.cpp) is one loop over eight locals; here it
    is shown to decide a property of the list as a whole. *)

From S2P Require Import Prelude Errors Numerals Lines Http2 Http2Inv.

Local Open Scope Z_scope.

(** ** The property *)

Definition is_pseudo (h : H2Header) : bool :=
  match h2_name h with b :: _ => Byte.eqb b COLON | [] => false end.

Definition field_size (h : H2Header) : Z := len (h2_name h) + len (h2_value h).

(** The pseudo-header fields of a request. *)
Definition request_pseudo : list bytes := [lit ":method"; lit ":scheme"; lit ":path"; lit ":authority"].

(** The regular fields of a message with a body of [n] bytes: none belongs to the
    connection, and there is at most one content-length, which is right. *)
Definition regular_ok (n : Z) (hs : H2Headers) : Prop :=
  Forall (fun h => is_pseudo h = false /\ hop_by_hop h = false) hs /\
  Forall (fun h => name_is h "content-length" = true -> parse_decimal (h2_value h) = Some n) hs /\
  (length (List.filter (fun h => name_is h "content-length") hs) <= 1)%nat.

(** The pseudo-header fields of a request, and of a response. *)
Definition request_pseudo_ok (hs : H2Headers) : Prop :=
  Permutation (h2_name <$> hs) request_pseudo /\
  Forall (fun h => h2_value h <> [] /\ (name_is h ":method" = true -> h2_value h <> lit "CONNECT")) hs.

Definition response_pseudo_ok (n : Z) (hs : H2Headers) : Prop :=
  exists value v, hs = [mk_h2 (lit ":status") value] /\ status_value value = Some v /\
    (v = 204 \/ v = 304 -> n = 0).

Lemma fields_size_cons h hs : fields_size (h :: hs) = field_size h + fields_size hs.
Proof. done. Qed.

Section Headers.
Context {N : Type} `{Nghttp2 N} (limits : H2Limits) (n : Z).

(** A field the library accepts, in lower case. *)
Definition field_ok (h : H2Header) : bool :=
  negb (length (h2_name h) =? 0)%nat && check_header_name (h2_name h) && check_header_value (h2_value h) &&
  negb (has_upper (h2_name h)).

Definition sendable (request : bool) (hs : H2Headers) : Prop :=
  Z.of_nat (length hs) <= max_headers limits /\ fields_size hs <= max_header_bytes limits /\
  Forall (fun h => field_ok h = true) hs /\
  exists pseudo regular, hs = pseudo ++ regular /\
    (if request then request_pseudo_ok pseudo else response_pseudo_ok n pseudo) /\ regular_ok n regular.

(** ** The loop, without its byte count *)

Definition set_bytes (b : Z) (s : Seen) : Seen :=
  mk_seen b (sn_regular s) (sn_method s) (sn_scheme s) (sn_path s) (sn_authority s) (sn_status s)
    (sn_length s) (sn_response_status s).

Definition classify_header (request : bool) (h : H2Header) (s : Seen) : option Seen :=
  if is_pseudo h then pseudo_header request h s else regular_header n h s.

Context (Hlim : limits_range limits).

Lemma check_header_eq request h s :
  0 <= sn_bytes s <= max_header_bytes limits ->
  check_header request n limits h s =
  if field_ok h && (sn_bytes s + field_size h <=? max_header_bytes limits)
  then classify_header request h (set_bytes (sn_bytes s + field_size h) s) else None.
Proof.
  intros Hb. destruct Hlim as (_ & Hmax & _). unfold check_header, field_ok, field_size, wrap64.
  pose proof (len_nonneg (h2_name h)). pose proof (len_nonneg (h2_value h)).
  destruct (length (h2_name h) =? 0)%nat; [done|]. simpl. rewrite Z.mod_small by lia.
  destruct (_ <? len (h2_name h)) eqn:E1; bool_facts.
  { destruct (_ <=? max_header_bytes limits) eqn:E; bool_facts; [lia|]. by rewrite andb_false_r. }
  rewrite Z.mod_small by lia. destruct (_ <? len (h2_value h)) eqn:E2; bool_facts.
  { destruct (_ <=? max_header_bytes limits) eqn:E; bool_facts; [lia|]. by rewrite andb_false_r. }
  destruct (_ <=? max_header_bytes limits) eqn:E; bool_facts; [|lia]. rewrite andb_true_r.
  destruct (check_header_name _), (check_header_value _); try done. simpl.
  destruct (has_upper _); [done|]. simpl. unfold classify_header, is_pseudo, set_bytes.
  by rewrite Z.add_assoc.
Qed.

Fixpoint classify_headers (request : bool) (hs : H2Headers) (s : Seen) : option Seen :=
  match hs with
  | [] => Some s
  | h :: hs => match classify_header request h s with
               | Some s => classify_headers request hs s
               | None => None
               end
  end.

(** The byte count plays no part in the rest. *)
Lemma classify_bytes request h s b :
  classify_header request h (set_bytes b s) = set_bytes b <$> classify_header request h s.
Proof.
  unfold classify_header, pseudo_header, regular_header, set_bytes. simpl.
  repeat (case_match; simpl; try done; simplify_eq).
Qed.

Lemma check_headers_eq request hs s s' :
  0 <= sn_bytes s <= max_header_bytes limits ->
  (exists b, check_headers request n limits hs s = Some (set_bytes b s')) <->
  Forall (fun h => field_ok h = true) hs /\ sn_bytes s + fields_size hs <= max_header_bytes limits /\
  exists b, classify_headers request hs s = Some (set_bytes b s').
Proof.
  revert s. induction hs as [|h hs IH]; intros s Hb; [|rewrite fields_size_cons]; cbn [check_headers classify_headers].
  { change (fields_size []) with 0. rewrite Z.add_0_r. split; [|naive_solver]. intros Hs. split_and!; [constructor|lia|done]. }
  rewrite check_header_eq by done. pose proof (len_nonneg (h2_name h)). pose proof (len_nonneg (h2_value h)).
  assert (0 <= field_size h) by (unfold field_size; lia). pose proof (fields_size_nonneg hs).
  rewrite Forall_cons. destruct (field_ok h) eqn:Ef; simpl; [|naive_solver].
  destruct (_ <=? _) eqn:Eb; bool_facts.
  2: { split; [naive_solver|]. intros (_ & ? & _). exfalso. lia. }
  rewrite classify_bytes. destruct (classify_header request h s) as [s1|] eqn:Ec; simpl; [|naive_solver].
  assert (forall hs s b, classify_headers request hs (set_bytes b s) = set_bytes b <$> classify_headers request hs s) as Hcb.
  { clear. induction hs as [|h hs IH]; intros s b; simpl; [done|]. rewrite classify_bytes.
    destruct (classify_header request h s); simpl; [apply IH|done]. }
  rewrite IH by (simpl; lia). rewrite Hcb. simpl.
  split; intros (Hf & Hle & b & Hs); (split; [naive_solver|]; split; [lia|]).
  - destruct (classify_headers request hs s1) as [s2|] eqn:E2; [|done]. simpl in Hs. injection Hs as Hs.
    exists (sn_bytes s2). f_equal. destruct s2, s'; unfold set_bytes in *; simpl in *; congruence.
  - rewrite Hs. by eexists.
Qed.

Lemma classify_headers_app request hs1 hs2 s :
  classify_headers request (hs1 ++ hs2) s =
  match classify_headers request hs1 s with Some s => classify_headers request hs2 s | None => None end.
Proof.
  revert s. induction hs1 as [|h hs IH]; intros s; simpl; [done|].
  destruct (classify_header request h s); [apply IH|done].
Qed.

(** ** The regular fields *)

Definition content_lengths (hs : H2Headers) : nat :=
  length (List.filter (fun h => name_is h "content-length") hs).

Definition set_regular (lengths : nat) (s : Seen) : Seen :=
  mk_seen (sn_bytes s) true (sn_method s) (sn_scheme s) (sn_path s) (sn_authority s) (sn_status s)
    (sn_length s || (0 <? lengths)%nat) (sn_response_status s).

Lemma parse_decimal_from_chars t v : parse_decimal t = Some v <-> from_chars t 10 = fc_value v [].
Proof.
  unfold parse_decimal, parse_integer. destruct t as [|b t]; [done|]. simpl length. cbv iota beta.
  destruct (from_chars (b :: t) 10) as [v' [|? ?]| |]; naive_solver.
Qed.

(** One regular field. *)
Lemma regular_header_spec h s s' :
  regular_header n h s = Some s' <->
  hop_by_hop h = false /\
  (name_is h "content-length" = true -> sn_length s = false /\ parse_decimal (h2_value h) = Some n) /\
  s' = set_regular (content_lengths [h]) s.
Proof.
  unfold regular_header, set_regular, content_lengths. simpl. destruct (hop_by_hop h); [naive_solver|].
  destruct (name_is h "content-length").
  - rewrite parse_decimal_from_chars. simpl. rewrite orb_true_r.
    destruct (from_chars (h2_value h) 10) as [v [|? ?]| |]; try naive_solver.
    destruct (sn_length s); simpl; [naive_solver|]. destruct (v =? n) eqn:E; bool_facts; naive_solver.
  - simpl. rewrite orb_false_r. naive_solver.
Qed.

(** The list ends in regular fields from here on. *)
Definition starts_regular (s : Seen) (hs : H2Headers) : Prop :=
  sn_regular s = true \/ match hs with [] => True | h :: _ => is_pseudo h = false end.

Lemma regular_fold request hs s s' :
  starts_regular s hs -> hs <> [] ->
  classify_headers request hs s = Some s' <->
  (Forall (fun h => is_pseudo h = false /\ hop_by_hop h = false) hs /\
   Forall (fun h => name_is h "content-length" = true -> parse_decimal (h2_value h) = Some n) hs /\
   (Nat.b2n (sn_length s) + content_lengths hs <= 1)%nat) /\ s' = set_regular (content_lengths hs) s.
Proof.
  revert s. induction hs as [|h hs IH]; intros s Hst Hne; [done|]. cbn [classify_headers]. unfold classify_header.
  destruct (is_pseudo h) eqn:Ep.
  { destruct Hst as [Hst|Hst]; [|simpl in Hst; congruence]. unfold pseudo_header. rewrite Hst. simpl.
    rewrite !Forall_cons. split; [done|]. intros [[[[? _] _] _] _]. congruence. }
  assert (content_lengths (h :: hs) = content_lengths [h] + content_lengths hs)%nat as Hcl.
  { unfold content_lengths. simpl. by destruct (name_is h "content-length"). }
  assert (content_lengths [h] = Nat.b2n (name_is h "content-length")) as Hc1
    by (unfold content_lengths; simpl; by destruct (name_is h "content-length")).
  rewrite !Forall_cons, Hcl. destruct (regular_header n h s) as [s1|] eqn:E1.
  - apply regular_header_spec in E1 as (Hh & Hc & ->). destruct hs as [|h' hs].
    + change (content_lengths []) with 0%nat. rewrite Nat.add_0_r. simpl.
      split; [intros [= <-]; split; [|done]|by intros [_ ->]]. split_and!; try done; [naive_solver|].
      rewrite Hc1. destruct (name_is h "content-length"); [destruct (Hc eq_refl) as [-> _]; simpl; lia|].
      destruct (sn_length s); simpl; lia.
    + rewrite IH; [|by left|done]. unfold set_regular at 1 2. simpl sn_length.
      assert (set_regular (content_lengths (h' :: hs)) (set_regular (content_lengths [h]) s)
              = set_regular (content_lengths [h] + content_lengths (h' :: hs)) s) as Heq.
      { unfold set_regular. simpl. f_equal. rewrite <- orb_assoc. f_equal.
        destruct (content_lengths [h]), (content_lengths (h' :: hs)); done. }
      unfold set_regular at 1 in Heq. simpl in Heq.
      split; intros [(H1 & H2 & H3) ->]; (split; [|done]); split_and!; try tauto.
      * rewrite Hc1 in *. destruct (name_is h "content-length"); [destruct (Hc eq_refl) as [Hs _]; rewrite Hs in *|];
          destruct (sn_length s); simpl in *; lia.
      * rewrite Hc1 in *. destruct (name_is h "content-length"), (sn_length s); simpl in *; lia.
  - split; [done|]. intros [(((_ & H1) & _) & (H2 & _) & H3) _]. exfalso.
    assert (regular_header n h s = Some (set_regular (content_lengths [h]) s)); [|congruence].
    apply regular_header_spec. split_and!; [tauto|..|done]. intros Hn. rewrite Hc1, Hn in H3.
    split; [destruct (sn_length s); simpl in H3; [lia|done]|auto].
Qed.

(** ** The pseudo-header fields of a request *)

Definition seen (s : Seen) (name : bytes) : bool :=
  if bytes_eqb name (lit ":method") then sn_method s
  else if bytes_eqb name (lit ":scheme") then sn_scheme s
  else if bytes_eqb name (lit ":path") then sn_path s
  else if bytes_eqb name (lit ":authority") then sn_authority s else false.

Definition mark (s : Seen) (name : bytes) : Seen :=
  mk_seen (sn_bytes s) (sn_regular s) (sn_method s || bytes_eqb name (lit ":method"))
    (sn_scheme s || bytes_eqb name (lit ":scheme")) (sn_path s || bytes_eqb name (lit ":path"))
    (sn_authority s || bytes_eqb name (lit ":authority")) (sn_status s) (sn_length s) (sn_response_status s).

Definition pseudo_value_ok (h : H2Header) : Prop :=
  h2_value h <> [] /\ (name_is h ":method" = true -> h2_value h <> lit "CONNECT").

Lemma elem_request_pseudo name :
  name ∈ request_pseudo <->
  bytes_eqb name (lit ":method") || bytes_eqb name (lit ":scheme") || bytes_eqb name (lit ":path") ||
  bytes_eqb name (lit ":authority") = true.
Proof. unfold request_pseudo. rewrite !elem_of_cons, elem_of_nil, !orb_true_iff, !bytes_eqb_eq. tauto. Qed.

(** Comparisons of literals. *)
Ltac eval_names :=
  repeat match goal with
  | |- context [bytes_eqb (lit ?a) (lit ?b)] =>
      let r := eval vm_compute in (bytes_eqb (lit a) (lit b)) in
      change (bytes_eqb (lit a) (lit b)) with r
  end; rewrite ?orb_false_r, ?orb_true_r; cbn [orb andb negb].

Lemma pseudo_step h s s' :
  sn_regular s = false ->
  pseudo_header true h s = Some s' <->
  pseudo_value_ok h /\ h2_name h ∈ request_pseudo /\ seen s (h2_name h) = false /\ s' = mark s (h2_name h).
Proof.
  intros Hr. rewrite elem_request_pseudo. unfold pseudo_header, pseudo_value_ok, name_is, seen, mark. rewrite Hr.
  destruct (h2_value h) as [|b v]; [simpl; split; [done|]; by intros [[? _] _]|]. cbn [length Nat.eqb orb negb andb].
  destruct (bytes_eqb (h2_name h) (lit ":method")) eqn:E1; [apply bytes_eqb_eq in E1; rewrite ?E1; eval_names|].
  { destruct (bytes_eqb (b :: v) (lit "CONNECT")) eqn:Ec; [apply bytes_eqb_eq in Ec|apply bytes_eqb_neq in Ec]; cbn [orb].
    - split; [done|]. intros [[_ ?] _]. by destruct H0.
    - destruct (sn_method s); cbn [orb]; [naive_solver|]. split; [by intros [= <-]|by intros (_ & _ & _ & ->)]. }
  assert (forall (s0 : option Seen) (b0 : bool) (m : Seen),
    s0 = (if b0 then None else Some m) ->
    s0 = Some s' <-> ((b :: v <> [] /\ (false = true -> b :: v <> lit "CONNECT")) /\ true = true /\ b0 = false /\ s' = m)) as Hcase.
  { intros s0 b0 m ->. destruct b0; [naive_solver|]. split; [by intros [= <-]|by intros (_ & _ & _ & ->)]. }
  destruct (bytes_eqb (h2_name h) (lit ":scheme")) eqn:E2; [apply bytes_eqb_eq in E2; rewrite ?E2; eval_names; by apply Hcase|].
  destruct (bytes_eqb (h2_name h) (lit ":path")) eqn:E3; [apply bytes_eqb_eq in E3; rewrite ?E3; eval_names; by apply Hcase|].
  destruct (bytes_eqb (h2_name h) (lit ":authority")) eqn:E4; [apply bytes_eqb_eq in E4; rewrite ?E4; eval_names; by apply Hcase|].
  cbn [orb]. split; [done|]. by intros (_ & ? & _).
Qed.

Lemma seen_mark s a b : a ∈ request_pseudo -> seen (mark s b) a = seen s a || bytes_eqb b a.
Proof.
  intros Ha. unfold request_pseudo in Ha. rewrite !elem_of_cons, elem_of_nil in Ha.
  destruct Ha as [->|[->|[->|[->|[]]]]]; unfold seen; eval_names; simpl; done.
Qed.

Lemma pseudo_fold ps s s' :
  Forall (fun h => is_pseudo h = true) ps -> sn_regular s = false ->
  classify_headers true ps s = Some s' <->
  (Forall pseudo_value_ok ps /\ NoDup (h2_name <$> ps) /\
   Forall (fun name => name ∈ request_pseudo /\ seen s name = false) (h2_name <$> ps)) /\
  s' = foldl mark s (h2_name <$> ps).
Proof.
  intros Hps. revert s. induction Hps as [|h ps Hp Hps IH]; intros s Hr; simpl.
  { split; [intros [= <-]; split; [|done]; split_and!; constructor|by intros [_ ->]]. }
  unfold classify_header. rewrite Hp, !Forall_cons, NoDup_cons. destruct (pseudo_header true h s) as [s1|] eqn:E.
  - apply pseudo_step in E as (Hv & Hn & Hs & ->); [|done]. rewrite IH by done.
    assert (forall name, name ∈ request_pseudo ->
      seen (mark s (h2_name h)) name = false <-> seen s name = false /\ h2_name h <> name) as Hseen.
    { intros name Hin. by rewrite seen_mark, orb_false_iff, bytes_eqb_neq. }
    split; intros [(H1 & H2 & H3) ->]; (split; [|done]).
    + split; [done|]. split; [split; [|done]|split; [done|]].
      * intros Hin. rewrite Forall_forall in H3. destruct (H3 _ Hin) as [Hi Hm]. by apply Hseen in Hm as [_ ?].
      * eapply Forall_impl; [exact H3|]. intros name [Hi Hm]. by apply Hseen in Hm as [? _].
    + split; [apply H1|]. split; [apply H2|]. destruct H3 as [_ H3]. apply Forall_forall. intros name Hin.
      rewrite Forall_forall in H3. destruct (H3 name Hin) as [Hi Hm]. split; [done|]. apply Hseen; [done|].
      split; [done|]. intros <-. by apply H2.
  - split; [done|]. intros [((Hv & _) & _ & (Hn & Hs) & _) _].
    assert (pseudo_header true h s = Some (mark s (h2_name h))); [by apply pseudo_step|congruence].
Qed.

Lemma seen_fold names s a :
  a ∈ request_pseudo -> seen (foldl mark s names) a = seen s a || bool_decide (a ∈ names).
Proof.
  intros Ha. revert s. induction names as [|b names IH]; intros s; simpl; [by rewrite orb_false_r|].
  rewrite IH, seen_mark, <- orb_assoc by done. f_equal. apply eq_true_iff_eq.
  rewrite orb_true_iff, !bool_decide_eq_true, bytes_eqb_eq, elem_of_cons. naive_solver.
Qed.

(** ** The pseudo-header field of a response *)

Definition set_status (v : Z) (s : Seen) : Seen :=
  mk_seen (sn_bytes s) (sn_regular s) (sn_method s) (sn_scheme s) (sn_path s) (sn_authority s) true
    (sn_length s) v.

Lemma response_step h s s' :
  sn_regular s = false ->
  pseudo_header false h s = Some s' <->
  h2_name h = lit ":status" /\ sn_status s = false /\
  exists v, status_value (h2_value h) = Some v /\ s' = set_status v s.
Proof.
  intros Hr. unfold pseudo_header, name_is, set_status. rewrite Hr. cbn [orb andb negb].
  destruct (h2_value h) as [|b value]; [simpl; split; [done|]; by intros (_ & _ & v & ? & _)|].
  cbn [length Nat.eqb]. destruct (bytes_eqb (h2_name h) (lit ":status")) eqn:E;
    [apply bytes_eqb_eq in E|apply bytes_eqb_neq in E; naive_solver].
  destruct (status_value (b :: value)) as [v|]; [|naive_solver].
  destruct (sn_status s); [naive_solver|]. split; [intros [= <-]; by eauto|].
  by intros (_ & _ & v' & [= <-] & ->).
Qed.

Lemma response_fold ps s s' :
  Forall (fun h => is_pseudo h = true) ps -> sn_regular s = false -> sn_status s = false ->
  classify_headers false ps s = Some s' /\ sn_status s' = true <->
  exists value v, ps = [mk_h2 (lit ":status") value] /\ status_value value = Some v /\ s' = set_status v s.
Proof.
  intros Hps Hr Hs. destruct Hps as [|h ps Hp Hps]; simpl.
  { split; [intros [[= <-] ?]; congruence|naive_solver]. }
  unfold classify_header at 1. rewrite Hp. destruct (pseudo_header false h s) as [s1|] eqn:E.
  - apply response_step in E as (Hn & _ & v & Hv & ->); [|done]. destruct Hps as [|h' ps Hp' Hps]; simpl.
    + destruct h as [name value]. simpl in *. subst name.
      split; [intros [[= <-] _]; by eauto|]. by intros (value' & v' & [= <-] & Hv' & ->); rewrite Hv' in Hv; injection Hv as ->.
    + unfold classify_header. rewrite Hp'. destruct (pseudo_header false h' _) eqn:E'; [|naive_solver].
      apply response_step in E' as (_ & ? & _); done.
  - split; [naive_solver|]. intros (value & v & [= -> ->] & Hv & _).
    assert (pseudo_header false (mk_h2 (lit ":status") value) s = Some (set_status v s)); [|congruence].
    apply response_step; [done|]. by eauto.
Qed.

(** ** Both together *)

(** The tests after the loop. *)
Definition complete (request : bool) (s : Seen) : bool :=
  if negb request && ((sn_response_status s =? 204) || (sn_response_status s =? 304)) && negb (n =? 0)
  then false
  else if request then sn_method s && sn_scheme s && sn_path s && sn_authority s else sn_status s.

Lemma complete_regular request k s : complete request (set_regular k s) = complete request s.
Proof. done. Qed.

(** Every list is pseudo-header fields followed by something else. *)
Lemma span_pseudo (hs : H2Headers) :
  exists ps rs, hs = ps ++ rs /\ Forall (fun h => is_pseudo h = true) ps /\
    match rs with [] => True | r :: _ => is_pseudo r = false end.
Proof.
  induction hs as [|h hs (ps & rs & -> & Hp & Hr)]; [by exists [], []|].
  destruct (is_pseudo h) eqn:E; [exists (h :: ps), rs|exists [], (h :: ps ++ rs)]; split_and!; try done; by constructor.
Qed.

Lemma request_pseudo_complete ps :
  Forall (fun h => is_pseudo h = true) ps ->
  (exists s, classify_headers true ps seen_nothing = Some s /\ complete true s = true) <-> request_pseudo_ok ps.
Proof.
  intros Hps. assert (NoDup request_pseudo) as Hnd by (apply (bool_decide_eq_true_1 _); vm_compute; reflexivity).
  assert (forall a, seen seen_nothing a = false) as Hnone by (intros a; unfold seen; by repeat case_match).
  unfold request_pseudo_ok. split.
  - intros (s & Hs & Hc). apply pseudo_fold in Hs as [(Hv & Hn & Hf) ->]; [|done|done]. split; [|exact Hv].
    apply NoDup_Permutation; [done|done|]. intros name. split.
    + intros Hin. rewrite Forall_forall in Hf. by destruct (Hf name Hin).
    + intros Hin. unfold complete in Hc. cbn [negb andb] in Hc.
      assert (seen (foldl mark seen_nothing (h2_name <$> ps)) name = true) as Hseen.
      { set (s := foldl mark seen_nothing (h2_name <$> ps)) in *. bool_facts.
        unfold request_pseudo in Hin. rewrite !elem_of_cons, elem_of_nil in Hin.
        destruct Hin as [->|[->|[->|[->|[]]]]]; unfold seen; eval_names; done. }
      rewrite seen_fold, Hnone in Hseen by done. by apply bool_decide_eq_true in Hseen.
  - intros [Hp Hv]. exists (foldl mark seen_nothing (h2_name <$> ps)). split.
    + apply pseudo_fold; [done|done|]. split; [|done]. split_and!; [done|by rewrite Hp|].
      rewrite Hp. apply Forall_forall. intros name Hin. auto.
    + assert (forall a, a ∈ request_pseudo -> seen (foldl mark seen_nothing (h2_name <$> ps)) a = true) as Hall.
      { intros a Ha. rewrite seen_fold by done. rewrite Hnone. simpl. apply bool_decide_eq_true. by rewrite Hp. }
      pose proof (Hall (lit ":method") ltac:(unfold request_pseudo; set_solver)) as H1.
      pose proof (Hall (lit ":scheme") ltac:(unfold request_pseudo; set_solver)) as H2.
      pose proof (Hall (lit ":path") ltac:(unfold request_pseudo; set_solver)) as H3.
      pose proof (Hall (lit ":authority") ltac:(unfold request_pseudo; set_solver)) as H4.
      revert H1 H2 H3 H4. unfold seen. eval_names. unfold complete. cbn [negb andb]. by intros -> -> -> ->.
Qed.

Lemma response_pseudo_complete ps :
  Forall (fun h => is_pseudo h = true) ps ->
  (exists s, classify_headers false ps seen_nothing = Some s /\ complete false s = true) <-> response_pseudo_ok n ps.
Proof.
  intros Hps. unfold complete, response_pseudo_ok. cbn [negb andb]. split.
  - intros (s & Hs & Hc). destruct (_ && negb (n =? 0)) eqn:E; [done|].
    destruct (response_fold ps seen_nothing s Hps eq_refl eq_refl) as [Hf _].
    destruct (Hf (conj Hs Hc)) as (value & v & -> & Hv & ->). exists value, v. split_and!; [done|done|].
    simpl in E. intros Hst. destruct (n =? 0) eqn:En; bool_facts; [done|].
    rewrite andb_true_r in E. bool_facts. lia.
  - intros (value & v & -> & Hv & Hst). exists (set_status v seen_nothing).
    destruct (response_fold [mk_h2 (lit ":status") value] seen_nothing (set_status v seen_nothing) Hps eq_refl eq_refl)
      as [_ Hf]. destruct Hf as [Hs _]; [by eauto|]. split; [exact Hs|]. simpl.
    destruct ((v =? 204) || (v =? 304)) eqn:E; [|done]. apply orb_true_iff in E. rewrite Hst; [done|].
    destruct E; bool_facts; auto.
Qed.

Lemma pseudo_names (request : bool) ps :
  (if request then request_pseudo_ok ps else response_pseudo_ok n ps) -> Forall (fun h => is_pseudo h = true) ps.
Proof.
  destruct request.
  - intros [Hp _]. apply Forall_forall. intros h Hin.
    assert (h2_name h ∈ request_pseudo) as Hn by (rewrite <- Hp; by apply list_elem_of_fmap_2).
    unfold request_pseudo in Hn. rewrite !elem_of_cons, elem_of_nil in Hn. unfold is_pseudo.
    by destruct Hn as [->|[->|[->|[->|[]]]]].
  - intros (value & v & -> & _). by repeat constructor.
Qed.

Lemma pseudo_complete (request : bool) ps :
  Forall (fun h => is_pseudo h = true) ps ->
  (exists s, classify_headers request ps seen_nothing = Some s /\ complete request s = true) <->
  (if request then request_pseudo_ok ps else response_pseudo_ok n ps).
Proof. destruct request; [apply request_pseudo_complete|apply response_pseudo_complete]. Qed.

(** The pseudo-header phase leaves the other flags alone. *)
Lemma classify_pseudo_keeps request ps s s' :
  Forall (fun h => is_pseudo h = true) ps -> classify_headers request ps s = Some s' ->
  sn_regular s' = sn_regular s /\ sn_length s' = sn_length s.
Proof.
  intros Hps. revert s. induction Hps as [|h ps Hp _ IH]; intros s; simpl; [by intros [= <-]|].
  unfold classify_header. rewrite Hp. destruct (pseudo_header request h s) as [s1|] eqn:E; [|done].
  intros Hs. destruct (IH s1 Hs) as [-> ->]. revert E. unfold pseudo_header.
  repeat (case_match; try done); by intros [= <-].
Qed.

Lemma classify_complete (request : bool) hs :
  (exists s, classify_headers request hs seen_nothing = Some s /\ complete request s = true) <->
  exists pseudo regular, hs = pseudo ++ regular /\
    (if request then request_pseudo_ok pseudo else response_pseudo_ok n pseudo) /\ regular_ok n regular.
Proof.
  split.
  - intros (s & Hs & Hc). destruct (span_pseudo hs) as (ps & rs & -> & Hps & Hrs). exists ps, rs.
    rewrite classify_headers_app in Hs. destruct (classify_headers request ps seen_nothing) as [s1|] eqn:E1; [|done].
    destruct (classify_pseudo_keeps request ps _ s1 Hps E1) as [Hr Hl].
    destruct rs as [|r rs].
    + simpl in Hs. injection Hs as <-. split_and!; [done| |].
      { apply pseudo_complete; [done|]. by exists s1. }
      split_and!; [constructor|constructor|simpl; lia].
    + apply regular_fold in Hs as [(Hf1 & Hf2 & Hf3) ->]; [|by right|done]. rewrite complete_regular in Hc.
      split_and!; [done| |]. { apply pseudo_complete; [done|]. by exists s1. }
      split_and!; [done|done|]. unfold content_lengths in Hf3. lia.
  - intros (ps & rs & -> & Hp & Hf1 & Hf2 & Hf3). pose proof (pseudo_names request ps Hp) as Hps.
    apply (pseudo_complete request ps Hps) in Hp as (s1 & E1 & Hc).
    destruct (classify_pseudo_keeps request ps _ s1 Hps E1) as [Hr Hl]. rewrite classify_headers_app, E1.
    destruct rs as [|r rs]; [by exists s1|]. exists (set_regular (content_lengths (r :: rs)) s1).
    rewrite complete_regular. split; [|done]. apply regular_fold; [|done|].
    + right. by apply Forall_cons in Hf1 as [[? _] _].
    + split; [|done]. rewrite Hl. done.
Qed.
End Headers.

(** C37: a session sends exactly the well-formed header lists.  Within the
    limits on count and size, and with every name and value acceptable to the
    library and no name in upper case, [valid_headers] accepts a list precisely
    when it is the pseudo-header fields followed by regular ones: for a request
    the four of them, each once and not empty, in any order, and not CONNECT; for
    a response a single [:status] of three digits from 200 to 599, with no body
    under 204 and 304; and among the regular fields nothing that belongs to the
    connection and at most one content-length, equal to the size of the body. *)
Theorem valid_headers_exact {N : Type} {HN : Nghttp2 N} (limits : H2Limits) (n : Z) (request : bool)
    (hs : H2Headers) (Hlim : limits_range limits) :
  valid_headers hs request n limits = true <-> sendable limits n request hs.
Proof.
  unfold valid_headers, sendable. destruct (max_headers limits <? Z.of_nat (length hs)) eqn:E; bool_facts.
  { split; [done|]. intros [? _]. lia. }
  assert (0 <= sn_bytes seen_nothing <= max_header_bytes limits) as Hb.
  { destruct Hlim as (_ & ? & _). simpl. lia. }
  pose proof (check_headers_eq limits n Hlim request hs seen_nothing) as Heq. rewrite <- (classify_complete limits n Hlim). split.
  - destruct (check_headers request n limits hs seen_nothing) as [s|] eqn:Ec; [|done]. intros Hc.
    destruct (Heq s Hb) as [Hf _]. destruct Hf as (Hok & Hsize & b & Hcl); [exists (sn_bytes s); by destruct s|].
    split_and!; [lia|done|done|]. by exists (set_bytes b s).
  - intros (_ & Hsize & Hok & s & Hcl & Hc). assert (exists b, check_headers request n limits hs seen_nothing = Some (set_bytes b s)) as (b & ->); [|exact Hc].
    apply (Heq s Hb). split_and!; [done|done|]. exists (sn_bytes s). rewrite Hcl. by destruct s.
Qed.

Definition toy_request : H2Headers :=
  [mk_h2 (lit ":path") (lit "/"); mk_h2 (lit ":method") (lit "POST"); mk_h2 (lit ":scheme") (lit "https");
   mk_h2 (lit ":authority") (lit "example.org"); mk_h2 (lit "content-length") (lit "3")].

Lemma valid_headers_exact_witness : sendable default_h2_limits 3 true toy_request.
Proof. apply (valid_headers_exact default_h2_limits 3 true toy_request default_limits_range). vm_compute. reflexivity. Defined.
