(* ===== verification/Http2Connection.v ===== *)
(** * Http2Connection: an HTTP/2 session over a stream (http2/include/mira/http2/connection.hpp)

    [Connection] moves bytes between a [Session] and a transport: [flush] writes
    what the session has to say, [read] feeds it what arrives, [pump] does one
    round of both. *)

From S2P Require Import Prelude Sums Errors Streams Http2 Http2Inv.

Local Open Scope Z_scope.
Local Open Scope mira_scope.

Record H2Conn (T N : Type) := mk_conn { hc_transport : T; hc_session : Impl N }.
Arguments mk_conn {T N} _ _.
Arguments hc_transport {T N} _.
Arguments hc_session {T N} _.

Section Connection.
Context {T N : Type} `{BoundedStream T} `{Nghttp2 N}.

Definition MC (A : Type) : Type := H2Conn T N -> Outcome Stop (H2Conn T N) A.

(** An upper bound on what the session will still say without new input. *)
Definition session_work (s : Impl N) : nat :=
  length (wire_out s) + ng_backlog (ng s) + 10 * Z.to_nat (total remaining (entries s)).

(** One round of [flush]. *)
Definition flush_round (o : IoOptions) : MC (option unit) := fun c =>
  if wants_write (hc_session c) then
    match output (hc_session c) with
    | Fails e s => Fails e (mk_conn (hc_transport c) s)
    | OutOfFuel => OutOfFuel
    | Returns bytes s =>
        if (length bytes =? 0)%nat then Returns (Some tt) (mk_conn (hc_transport c) s)
        else match write_all bytes o (hc_transport c) with
             | Returns _ t => Returns None (mk_conn t s)
             | Fails e t => Fails (reports e) (mk_conn t (close_session e s))
             | OutOfFuel => OutOfFuel
             end
    end
  else Returns (Some tt) c.

(** [flush(options)]: every round that goes on writes a byte. *)
Definition h2_flush (o : IoOptions) : MC unit := fun c =>
  iter (S (session_work (hc_session c))) (flush_round o) c.

(** [read(options)] *)
Definition h2_read (o : IoOptions) : MC unit := fun c =>
  match read_some recv_size o (hc_transport c) with
  | (Fail e, t) => Fails (reports e) (mk_conn t (close_session e (hc_session c)))
  | (Ok data, t) =>
      if (length data =? 0)%nat
      then Fails (refuse Errc.eof) (mk_conn t (close_session (make_error_code Errc.eof) (hc_session c)))
      else match receive_bytes data (hc_session c) with
           | Returns _ s => Returns tt (mk_conn t s)
           | Fails e s => Fails e (mk_conn t s)
           | OutOfFuel => OutOfFuel
           end
  end.

(** [pump(options)] *)
Definition h2_pump (o : IoOptions) : MC unit := h2_flush o ;;; h2_read o ;;; h2_flush o.
End Connection.

Section ConnectionLaws.
Context {T N : Type} `{StreamLaws T} `{Nghttp2Laws N} (lim : H2Limits).
Implicit Type c : H2Conn T N.

(** Since [c0] the library has emitted [new] and [gone] has been written: what
    waited then and [new] is [gone] and what waits now. *)
Definition conn_step (c0 c : H2Conn T N) : Prop :=
  exists new gone,
    ng_emitted (ng (hc_session c)) = ng_emitted (ng (hc_session c0)) ++ new /\
    wire (hc_transport c) = wire (hc_transport c0) ++ gone /\
    wire_out (hc_session c0) ++ new = gone ++ wire_out (hc_session c).

(** A connection given up, having written a prefix of it. *)
Definition conn_lost (c0 c : H2Conn T N) : Prop :=
  over (hc_session c) = true /\
  exists new gone,
    ng_emitted (ng (hc_session c)) = ng_emitted (ng (hc_session c0)) ++ new /\
    wire (hc_transport c) = wire (hc_transport c0) ++ gone /\
    gone `prefix_of` wire_out (hc_session c0) ++ new.

Definition conn_ok (c : H2Conn T N) : Prop := session_inv lim 0 (hc_session c).

Lemma conn_step_refl c : conn_step c c.
Proof. exists [], []. by rewrite !app_nil_r. Qed.

Lemma conn_step_trans c0 c1 c2 : conn_step c0 c1 -> conn_step c1 c2 -> conn_step c0 c2.
Proof.
  intros (n1 & g1 & He1 & Hw1 & Hc1) (n2 & g2 & He2 & Hw2 & Hc2). exists (n1 ++ n2), (g1 ++ g2).
  split_and!; [by rewrite He2, He1, app_assoc|by rewrite Hw2, Hw1, app_assoc|].
  by rewrite app_assoc, Hc1, <- !app_assoc, Hc2.
Qed.

Lemma conn_step_lost c0 c1 c2 : conn_step c0 c1 -> conn_lost c1 c2 -> conn_lost c0 c2.
Proof.
  intros (n1 & g1 & He1 & Hw1 & Hc1) (Ho & n2 & g2 & He2 & Hw2 & Hc2). split; [done|]. exists (n1 ++ n2), (g1 ++ g2).
  split_and!; [by rewrite He2, He1, app_assoc|by rewrite Hw2, Hw1, app_assoc|].
  rewrite app_assoc, Hc1, <- app_assoc. by apply prefix_app.
Qed.

(** The session moved, the transport did not. *)
Lemma emits_step t (s s' : Impl N) : emits s s' -> conn_step (mk_conn t s) (mk_conn t s').
Proof.
  intros (new & He & Hw). exists new, []. rewrite app_nil_r. simpl. by rewrite Hw.
Qed.

Lemma failed_over (s : Impl N) : s_state s = H2State.failed -> over s = true.
Proof. intros E. unfold over. by rewrite E. Qed.

Lemma step_lost c0 c : over (hc_session c) = true -> conn_step c0 c -> conn_lost c0 c.
Proof.
  intros Ho (new & gone & He & Hw & Hc). split; [done|]. exists new, gone. split_and!; [done|done|].
  rewrite Hc. by apply prefix_app_r.
Qed.

Lemma flush_round_ok o c :
  conn_ok c ->
  wp (flush_round o) c
    (fun r c' => conn_ok c' /\ conn_step c c' /\
       match r with
       | Some _ => True
       | None => (session_work (hc_session c') < session_work (hc_session c))%nat
       end)
    (fun e c' => e <> dangling_source /\ conn_ok c' /\ conn_lost c c').
Proof.
  intros Hc. unfold wp, flush_round. destruct (wants_write (hc_session c)) eqn:Ew.
  2: { split_and!; [done|apply conn_step_refl|done]. }
  unfold wants_write in Ew. bool_facts. destruct c as [t s]. simpl in *.
  pose proof (output_inv lim s Hc ltac:(done)) as Ho. unfold wp in Ho.
  destruct (output s) as [out s'|e s'|]; [| |done].
  2: { destruct Ho as (? & ? & ? & He). split_and!; try done.
       apply step_lost; [by apply failed_over|by apply emits_step]. }
  destruct Ho as (Hi' & Hw' & new & He & Hout & Hwork).
  destruct (length out =? 0)%nat eqn:E; bool_facts.
  { apply length_zero_iff_nil in E. subst out. apply app_eq_nil in E as [Ew0 ->].
    split_and!; [done| |done]. exists [], []. simpl. rewrite He, Hw', Ew0, !app_nil_r. done. }
  pose proof (write_all_writes wire (fun d => write_some d o) out t (write_law o)) as Hwr.
  unfold writes, wp in Hwr. change (write_all_with (fun d => write_some d o) out t) with (write_all out o t) in Hwr.
  destruct (write_all out o t) as [[] t'|e t'|]; [| |done].
  - split_and!; [done| |].
    + exists new, out. simpl. rewrite Hw', app_nil_r. split_and!; done.
    + unfold session_work. simpl. rewrite Hw'. subst out. rewrite length_app in E. simpl.
      pose proof (total_nonneg remaining (entries s') ltac:(intros; unfold remaining; lia)).
      pose proof (total_nonneg remaining (entries s) ltac:(intros; unfold remaining; lia)). lia.
  - destruct Hwr as (k & _ & Hk). split_and!; [done|by apply close_session_inv|]. split; [done|].
    exists new, (take k out). simpl. split_and!; [done|done|]. rewrite <- Hout. apply prefix_take.
Qed.

Lemma flush_ok o c :
  conn_ok c ->
  wp (h2_flush o) c (fun _ c' => conn_ok c' /\ conn_step c c')
    (fun e c' => e <> dangling_source /\ conn_ok c' /\ conn_lost c c').
Proof.
  intros Hc. unfold wp, h2_flush.
  apply (iter_wp (flush_round o) (fun c' => conn_ok c' /\ conn_step c c') (fun c' => session_work (hc_session c')));
    [|by split; [|apply conn_step_refl]|lia].
  intros c1 [Hc1 Hs1]. eapply wp_mono; [by apply flush_round_ok| |].
  - intros [[]|] c2 (Hc2 & Hs2 & Hw); split_and!; eauto using conn_step_trans.
  - intros e c2 (? & ? & ?). split_and!; eauto using conn_step_lost.
Qed.

Lemma read_ok o c :
  conn_ok c ->
  wp (h2_read o) c (fun _ c' => conn_ok c' /\ conn_step c c')
    (fun e c' => e <> dangling_source /\ conn_ok c' /\ conn_lost c c').
Proof.
  intros Hc. unfold wp, h2_read. destruct c as [t s]. simpl in *.
  pose proof (read_wire recv_size o t) as Hr. destruct (read_some recv_size o t) as [[data|e] t']; simpl in Hr.
  - assert (forall s', emits s s' -> conn_step (mk_conn t s) (mk_conn t' s')) as Hstep.
    { intros s' He. destruct (emits_step t s s' He) as (new & gone & Ha & Hb & Hd). exists new, gone.
      simpl in *. by rewrite Hr. }
    destruct (length data =? 0)%nat.
    { split_and!; [done|by apply close_session_inv|]. apply step_lost; [done|]. apply Hstep. exists []. by rewrite !app_nil_r. }
    destruct (over s) eqn:Ho.
    { unfold receive_bytes. rewrite Ho. split_and!; [done|done|]. apply step_lost; [done|]. apply Hstep, emits_refl. }
    pose proof (receive_inv lim data s Hc Ho) as Hrec. unfold wp in Hrec.
    destruct (receive_bytes data s) as [[] s'|e s'|]; [| |done].
    + destruct Hrec as (? & ? & ?). by split; [|apply Hstep].
    + destruct Hrec as (? & ? & ? & ?). split_and!; try done. apply step_lost; [by apply failed_over|by apply Hstep].
  - split_and!; [done|by apply close_session_inv|]. split; [done|]. exists [], []. rewrite !app_nil_r. simpl.
    split_and!; [done|done|apply prefix_nil].
Qed.
End ConnectionLaws.

(** C32: [pump] moves the session's bytes, all of them and in order.
    Over any stream that keeps the contract and any library that keeps its own,
    [flush], [read] and [pump] end.  When one succeeds, what has gone out on the
    transport together with what still waits is exactly what waited before and
    what the library has emitted since; when one fails, the session is over and a
    prefix of it went out. *)
Theorem pump_moves_everything {T N : Type} {HT : BoundedStream T} {LT : StreamLaws T}
    {HN : Nghttp2 N} {LN : Nghttp2Laws N} (role : Role.t) (lim : H2Limits) (n : N) (ops : list SessionOp)
    (t : T) (s : Impl N) (o : IoOptions)
    (Hrange : limits_range lim) (Hnew : ng_unconsumed n = 0 /\ ng_sources n = ∅)
    (Hsession : run_ops ops (new_session role lim n) = Some s) :
  let moves m := wp m (mk_conn t s)
    (fun _ c' => conn_step (mk_conn t s) c' /\ within_limits lim (hc_session c'))
    (fun e c' => e <> dangling_source /\ conn_lost (mk_conn t s) c') in
  moves (h2_flush o) /\ moves (h2_read o) /\ moves (h2_pump o).
Proof.
  destruct Hnew as [Hu Hs].
  destruct (run_ops_inv lim ops (new_session role lim n)) as (s' & Hrun & Hi); [by apply session_inv_new|].
  assert (s' = s) as -> by congruence. assert (conn_ok lim (mk_conn t s)) as Hc by done.
  assert (forall c, conn_ok lim c -> within_limits (N := N) lim (hc_session (T := T) c)) as Hlim
    by (intros c; apply inv_within_limits).
  split_and!.
  - eapply wp_mono; [by apply (flush_ok lim)| |]; naive_solver.
  - eapply wp_mono; [by apply (read_ok lim)| |]; naive_solver.
  - apply wp_bind. eapply wp_mono; [by apply (flush_ok lim)| |naive_solver].
    intros _ c1 [Hc1 Hs1]. apply wp_bind. eapply wp_mono; [by apply (read_ok lim)| |].
    2: { intros e c2 (? & ? & ?). eauto using conn_step_lost. }
    intros _ c2 [Hc2 Hs2]. eapply wp_mono; [by apply (flush_ok lim)| |].
    + intros _ c3 [Hc3 Hs3]. split; [|by apply Hlim]. eauto using conn_step_trans.
    + intros e c3 (? & ? & ?). eauto using conn_step_lost, conn_step_trans.
Qed.

Definition toy_pipe : Pipe := mk_pipe [lit "H"; lit "C"] [3; 5]%nat [] 0.

Lemma pump_moves_everything_witness :
  exists s c', run_ops (take 3 toy_session) (new_session Role.server default_h2_limits toy2_start) = Some s /\
    h2_pump no_io (mk_conn toy_pipe s) = Returns tt c' /\ conn_step (mk_conn toy_pipe s) c' /\
    p_out (hc_transport c') = lit "response world".
Proof.
  assert (exists s, run_ops (take 3 toy_session) (new_session Role.server default_h2_limits toy2_start) = Some s /\
    exists c', h2_pump no_io (mk_conn toy_pipe s) = Returns tt c' /\
    p_out (hc_transport c') = lit "response world") as (s & Hs & c' & Hc & Hout).
  { eexists. split; [vm_compute; reflexivity|]. eexists. split; vm_compute; reflexivity. }
  exists s, c'. split; [exact Hs|]. split; [exact Hc|]. split; [|exact Hout].
  pose proof (proj2 (proj2 (pump_moves_everything Role.server default_h2_limits toy2_start (take 3 toy_session)
    toy_pipe s no_io default_limits_range toy2_start_new Hs))) as Hm.
  unfold wp in Hm. rewrite Hc in Hm. exact (proj1 Hm).
Defined.
