(* ===== verification/DatagramConnection.v ===== *)
(** * DatagramConnection: an engine on a datagram transport (quic/include/mira/quic/connection.hpp)

    [quic::Connection] and [http3::Connection] drive an engine without sockets by
    the same code: [flush] sends what the engine has to say, [do_pump] waits for a
    datagram or a timer and feeds the engine, [collect_events] sorts the engine's
    events into a queue per stream.  That code is here once, for any
    [DatagramEngine] on any [DatagramTransport]; [QuicConnection] and
    [Http3Connection] have the two classes and their readers.

    A connection that was moved from is not modelled: [engine_] and [transport_]
    are there. *)

From stdpp Require Import gmap.
From S2P Require Import Prelude Errors Endpoint Streams.

Local Open Scope Z_scope.
Local Open Scope mira_scope.

(** ** The parts *)

(** [quic::DatagramTransport], with the steady clock of the world it lives in. *)
Class DatagramTransport (W : Type) := {
  send_to : bytes -> Endpoint -> IoOptions -> W -> Result nat * W;
  receive_from : nat -> IoOptions -> W -> Result (bytes * Endpoint) * W;
  dg_now : W -> Z * W;
}.

(** What a connection uses of an engine [X] with events [V]. *)
Class DatagramEngine (X V : Type) := {
  eng_poll : Z -> M X bytes;
  eng_receive : bytes -> Z -> M X unit;
  eng_handle_expiry : Z -> M X unit;
  eng_close : Z -> Z -> M X bytes;
  eng_expiry : X -> Z;
  eng_is_server : X -> bool;
  eng_take_events : X -> list V * X;
}.

(** [event.stream_id] *)
Class StreamEvent (V : Type) := { ev_stream : V -> Z }.

(** [Connection] *)
Record DConn (W X V : Type) := mk_dconn {
  dc_world : W;
  dc_engine : X;
  dc_remote : Endpoint;
  dc_buffers : gmap Z (list V);
  dc_pumping : bool;
}.
Arguments mk_dconn {W X V} _ _ _ _ _.
Arguments dc_world {W X V} _.
Arguments dc_engine {W X V} _.
Arguments dc_remote {W X V} _.
Arguments dc_buffers {W X V} _.
Arguments dc_pumping {W X V} _.

(** [detail::kMaxDatagram] *)
Definition kMaxDatagram : nat := N.to_nat 65536.
Arguments kMaxDatagram : simpl never.

(** [std::chrono::nanoseconds{expiry}]: a signed count. *)
Definition to_int64 (z : Z) : Z := if z <? 2 ^ 63 then z else z - 2 ^ 64.

Section Connection.
Context {W X V : Type} `{DatagramTransport W} `{DatagramEngine X V} `{StreamEvent V}.
Abbreviation Conn := (DConn W X V).

Definition set_world (w : W) (c : Conn) : Conn :=
  mk_dconn w (dc_engine c) (dc_remote c) (dc_buffers c) (dc_pumping c).
Definition set_engine (x : X) (c : Conn) : Conn :=
  mk_dconn (dc_world c) x (dc_remote c) (dc_buffers c) (dc_pumping c).
Definition set_remote (e : Endpoint) (c : Conn) : Conn :=
  mk_dconn (dc_world c) (dc_engine c) e (dc_buffers c) (dc_pumping c).
Definition set_buffers (b : gmap Z (list V)) (c : Conn) : Conn :=
  mk_dconn (dc_world c) (dc_engine c) (dc_remote c) b (dc_pumping c).
Definition set_pumping (b : bool) (c : Conn) : Conn :=
  mk_dconn (dc_world c) (dc_engine c) (dc_remote c) (dc_buffers c) b.

(** [detail::now_ns()] *)
Definition now_ns : M Conn Z := fun c => let '(t, w) := dg_now (dc_world c) in Returns t (set_world w c).

(** A call of the engine whose error is handed on. *)
Definition on_engine {A} (m : M X A) : M Conn A := fun c =>
  match m (dc_engine c) with
  | Returns a x => Returns a (set_engine x c)
  | Fails e x => Fails e (set_engine x c)
  | OutOfFuel => OutOfFuel
  end.

(** [send_to], and the error for a datagram that was cut. *)
Definition send_packet (packet : bytes) (io : IoOptions) : M Conn unit := fun c =>
  match send_to packet (dc_remote c) io (dc_world c) with
  | (Fail e, w) => Fails e (set_world w c)
  | (Ok n, w) => if (n =? length packet)%nat then Returns tt (set_world w c) else Fails io_error (set_world w c)
  end.

(** The rounds of [flush]. *)
Fixpoint flush_rounds (k : nat) (io : IoOptions) : M Conn unit :=
  match k with
  | O => out_ret tt
  | S k =>
      let! now := now_ns in
      let! packet := on_engine (eng_poll now) in
      if (length packet =? 0)%nat then out_ret tt
      else send_packet packet io ;;; flush_rounds k io
  end.

(** [flush(io)] *)
Definition dg_flush (io : IoOptions) : M Conn unit := flush_rounds 64 io.

Definition queue_event (b : gmap Z (list V)) (e : V) : gmap Z (list V) :=
  <[ev_stream e := default [] (b !! ev_stream e) ++ [e]]> b.

(** [collect_events()] *)
Definition collect_events (c : Conn) : Conn :=
  let '(es, x) := eng_take_events (dc_engine c) in
  set_buffers (foldl queue_event (dc_buffers c) es) (set_engine x c).

(** The deadline of a wait, and whether the engine's timer is armed in it. *)
Definition arm_timer (now expiry : Z) (io : IoOptions) : IoOptions * bool :=
  if (now <? expiry) && negb (expiry =? UINT64_MAX) then
    let deadline := to_int64 expiry in
    (if match io_deadline io with None => true | Some d => deadline <? d end
     then mk_io (io_stop io) (Some deadline) else io, true)
  else (io, false).

(** [io.deadline && *io.deadline <= EventLoop::Clock::now()] *)
Definition deadline_passed (io : IoOptions) : M Conn bool :=
  match io_deadline io with
  | None => out_ret false
  | Some d => let! now := now_ns in out_ret (d <=? now)
  end.

(** The end of [do_pump], once a datagram is there. *)
Definition feed_engine (data : bytes) (io : IoOptions) : M Conn unit :=
  let! now := now_ns in
  on_engine (eng_receive data now) ;;;
  out_modify collect_events ;;;
  dg_flush io.

(** The wait of [do_pump], and what follows it. *)
Definition await_datagram (wait : IoOptions) (armed : bool) (io : IoOptions) : M Conn unit := fun c =>
  match receive_from kMaxDatagram wait (dc_world c) with
  | (Fail e, w) =>
      let c := set_world w c in
      if error_eqb e (make_error_code Errc.timed_out) then
        if armed && bool_decide (io_deadline wait = io_deadline io)
        then Fails (make_error_code Errc.timed_out) c
        else (let! now := now_ns in on_engine (eng_handle_expiry now) ;;; dg_flush io) c
      else Fails e c
  | (Ok (data, peer), w) =>
      let c := set_world w c in
      if eng_is_server (dc_engine c) then feed_engine data io (set_remote peer c)
      else if negb (endpoint_eqb peer (dc_remote c)) then Returns tt c
      else feed_engine data io c
  end.

(** [do_pump(io)] *)
Definition do_pump (io : IoOptions) : M Conn unit :=
  dg_flush io ;;;
  out_modify collect_events ;;;
  let! now := now_ns in
  fun c =>
    let '(wait, armed) := arm_timer now (eng_expiry (dc_engine c)) io in
    (let! late := deadline_passed io in
     if late : bool then out_fail (make_error_code Errc.timed_out) else await_datagram wait armed io) c.

(** [if (pumping_) co_return fail(...); pumping_ = true; const PumpGuard guard{pumping_};] *)
Definition guarded {A} (m : M Conn A) : M Conn A := fun c =>
  if dc_pumping c then Fails (make_error_code Errc.invalid_argument) c
  else match m (set_pumping true c) with
       | Returns a c => Returns a (set_pumping false c)
       | Fails e c => Fails e (set_pumping false c)
       | OutOfFuel => OutOfFuel
       end.

(** [pump(io)] *)
Definition dg_pump (io : IoOptions) : M Conn unit := guarded (do_pump io).

(** [pump_until(done, io)]: nothing in the code bounds the rounds, [fuel] does. *)
Definition pump_until (fuel : nat) (done : Conn -> bool) (io : IoOptions) : M Conn unit :=
  iter fuel (fun c => if done c then Returns (Some tt) c else (do_pump io ;;; out_ret None) c).

(** The next event of a stream that a reader can use: [pick] says which, and what is
    left of the queue; an empty queue is erased. *)
Definition take_from {A} (id : Z) (pick : list V -> option A * list V) (c : Conn) : option A * Conn :=
  match dc_buffers c !! id with
  | None | Some [] => (None, c)
  | Some q =>
      let '(r, q) := pick q in
      (r, set_buffers (if (length q =? 0)%nat then delete id (dc_buffers c) else <[id := q]> (dc_buffers c)) c)
  end.

(** A reader that looks at the front of the queue only: an event it has no use for
    is thrown away. *)
Definition pick_front {A} (f : V -> option A) (q : list V) : option A * list V :=
  match q with [] => (None, []) | e :: q => (f e, q) end.

(** The loop of the readers: [take] what is there, flush and leave with it, or pump. *)
Definition pump_for {A} (fuel : nat) (take : Conn -> option A * Conn) (io : IoOptions) : M Conn A :=
  iter fuel (fun c =>
    match take c with
    | (Some a, c) => (dg_flush io ;;; out_ret (Some a)) c
    | (None, c) => (do_pump io ;;; out_ret None) c
    end).

(** [close(application_error, io)] *)
Definition dg_close (code : Z) (io : IoOptions) : M Conn unit :=
  let! now := now_ns in
  let! last := on_engine (eng_close code now) in
  if (length last =? 0)%nat then out_ret tt else send_packet last io.

(** The constructor, with [remote_] set. *)
Definition new_dconn (w : W) (x : X) (remote : Endpoint) : Conn := mk_dconn w x remote ∅ false.

(** The common part of [connect] and [serve]: make the engine, then pump until the
    connection is ready.  What fails leaves nothing behind. *)
Definition dg_start (fuel : nat) (make : Z -> Result X) (ready : X -> bool) (remote : Endpoint) (io : IoOptions)
    (w : W) : Outcome Error unit Conn :=
  let '(now, w) := dg_now w in
  match make now with
  | Fail e => Fails e tt
  | Ok x =>
      match pump_until fuel (fun c => ready (dc_engine c)) io (new_dconn w x remote) with
      | Returns _ c => Returns c tt
      | Fails e _ => Fails e tt
      | OutOfFuel => OutOfFuel
      end
  end.
End Connection.
