(* ===== verification/DatagramPump.v ===== *)
(** * DatagramPump: what a connection does to its engine and its transport

    Everything a connection does is a run of its engine's operations
    ([eng_run]); what goes out on the transport is what those operations
    produced, and the events they raised end up, in order, in the queues of their
    streams.  [EngineLaws] is what an engine promises for that, [TransportLaws]
    what a transport does.  [tracked] ties a whole history of a connection to what
    the application asked for and to the datagrams that came in. *)

From stdpp Require Import gmap.
From S2P Require Import Prelude Errors Endpoint Streams DatagramConnection.

Local Open Scope Z_scope.
Local Open Scope mira_scope.

(** ** Runs of an engine *)

Inductive EngCall :=
| ec_poll (now : Z)
| ec_receive (data : bytes) (now : Z)
| ec_expiry (now : Z)
| ec_close (code now : Z)
| ec_take.

(** The datagrams the engine was given. *)
Definition packets_in (ops : list EngCall) : list bytes :=
  omap (fun o => match o with ec_receive data _ => Some data | _ => None end) ops.
Arguments packets_in : simpl never.

(** The error codes it was closed with. *)
Definition closings (ops : list EngCall) : list Z :=
  omap (fun o => match o with ec_close code _ => Some code | _ => None end) ops.
Arguments closings : simpl never.

Section Runs.
Context {X V : Type} `{DatagramEngine X V}.

Definition eng_call (o : EngCall) (x : X) : bytes * X :=
  match o with
  | ec_poll now => match eng_poll now x with Returns p x' => (p, x') | r => ([], after x r) end
  | ec_receive data now => ([], after x (eng_receive data now x))
  | ec_expiry now => ([], after x (eng_handle_expiry now x))
  | ec_close code now => match eng_close code now x with Returns p x' => (p, x') | r => ([], after x r) end
  | ec_take => ([], (eng_take_events x).2)
  end.

(** The packets a run produces, and the engine after it. *)
Fixpoint eng_run (ops : list EngCall) (x : X) : list bytes * X :=
  match ops with
  | [] => ([], x)
  | o :: ops =>
      let '(p, x) := eng_call o x in
      let '(ps, x) := eng_run ops x in
      (if (length p =? 0)%nat then ps else p :: ps, x)
  end.

Lemma eng_run_app ops ops' x :
  eng_run (ops ++ ops') x =
  ((eng_run ops x).1 ++ (eng_run ops' (eng_run ops x).2).1, (eng_run ops' (eng_run ops x).2).2).
Proof.
  revert x; induction ops as [|o ops IH]; intros x; simpl; [by destruct (eng_run ops' x)|].
  destruct (eng_call o x) as [p x1]. rewrite IH. destruct (eng_run ops x1) as [ps x2]. simpl.
  by destruct (_ =? _)%nat.
Qed.
End Runs.

(** ** The contracts *)

(** Events are only ever added, until they are taken; the role is fixed. *)
Class EngineLaws (X V : Type) `{DatagramEngine X V} := {
  eng_events : X -> list V;
  poll_law : forall now x, wp (eng_poll now) x
    (fun _ x' => eng_events x `prefix_of` eng_events x' /\ eng_is_server x' = eng_is_server x)
    (fun _ x' => eng_events x `prefix_of` eng_events x' /\ eng_is_server x' = eng_is_server x);
  receive_law : forall data now x, wp (eng_receive data now) x
    (fun _ x' => eng_events x `prefix_of` eng_events x' /\ eng_is_server x' = eng_is_server x)
    (fun _ x' => eng_events x `prefix_of` eng_events x' /\ eng_is_server x' = eng_is_server x);
  handle_expiry_law : forall now x, wp (eng_handle_expiry now) x
    (fun _ x' => eng_events x `prefix_of` eng_events x' /\ eng_is_server x' = eng_is_server x)
    (fun _ x' => eng_events x `prefix_of` eng_events x' /\ eng_is_server x' = eng_is_server x);
  eng_close_law : forall code now x, wp (eng_close code now) x
    (fun _ x' => eng_events x `prefix_of` eng_events x' /\ eng_is_server x' = eng_is_server x)
    (fun _ x' => eng_events x `prefix_of` eng_events x' /\ eng_is_server x' = eng_is_server x);
  take_law : forall x, (eng_take_events x).1 = eng_events x /\ eng_events (eng_take_events x).2 = [] /\
    eng_is_server (eng_take_events x).2 = eng_is_server x;
}.

(** The datagrams that went out and those that came in; [dg_patience] bounds the
    datagrams and timeouts that will still come in. *)
Class TransportLaws (W : Type) `{DatagramTransport W} := {
  dg_sent : W -> list (Endpoint * bytes);
  dg_received : W -> list (bytes * Endpoint);
  dg_patience : W -> nat;
  send_to_law : forall data peer io w,
    let '(r, w') := send_to data peer io w in
    dg_patience w' = dg_patience w /\ dg_received w' = dg_received w /\
    match r with
    | Ok n => dg_sent w' = dg_sent w ++ [(peer, take n data)]
    | Fail _ => dg_sent w' = dg_sent w
    end;
  receive_from_law : forall n io w,
    let '(r, w') := receive_from n io w in
    dg_sent w' = dg_sent w /\
    dg_received w' = dg_received w ++ match r with Ok d => [d] | Fail _ => [] end /\
    (if match r with Ok _ => true | Fail e => error_eqb e (make_error_code Errc.timed_out) end
     then dg_patience w' < dg_patience w else dg_patience w' <= dg_patience w)%nat;
  now_law : forall w, dg_sent (dg_now w).2 = dg_sent w /\ dg_received (dg_now w).2 = dg_received w /\
    dg_patience (dg_now w).2 = dg_patience w;
}.

(** Of the datagrams that came in, those that concern a connection: a server's all
    do, a client's only when they are from its server. *)
Definition heard (server : bool) (remote : Endpoint) (got : list (bytes * Endpoint)) : list bytes :=
  fst <$> filter (fun d => server || endpoint_eqb d.2 remote = true) got.

(** A server answers whoever it heard last. *)
Definition follows (server : bool) (remote : Endpoint) (got : list (bytes * Endpoint)) : Endpoint :=
  if server then default remote (snd <$> last got) else remote.

Lemma heard_app server remote got got' :
  heard server remote (got ++ got') = heard server remote got ++ heard server (follows server remote got) got'.
Proof. unfold heard, follows. by destruct server; rewrite filter_app, fmap_app. Qed.

Lemma follows_app server remote got got' :
  follows server remote (got ++ got') = follows server (follows server remote got) got'.
Proof. unfold follows. destruct server; [|done]. rewrite last_app. by destruct (last got'). Qed.

(** ** Runs of a connection *)

Section Pump.
Context {W X V : Type} `{HW : DatagramTransport W} `{!TransportLaws W} `{HX : DatagramEngine X V} `{!EngineLaws X V}
  `{HV : StreamEvent V}.
Abbreviation Conn := (DConn W X V).
Implicit Type c : DConn W X V.

(** The events of a stream that no reader has taken. *)
Definition unread_events c (id : Z) : list V :=
  default [] (dc_buffers c !! id) ++ filter (fun e => ev_stream e = id) (eng_events (dc_engine c)).

(** Of what readers took, with the stream they read, the part of one stream. *)
Definition of_stream (id : Z) (took : list (Z * V)) : list V := snd <$> filter (fun p => p.1 = id) took.

(** From [c] to [c'] datagrams came in of which [packets] concern the connection. *)
Definition received (packets : list bytes) c c' : Prop :=
  exists got, dg_received (dc_world c') = dg_received (dc_world c) ++ got /\
    packets = heard (eng_is_server (dc_engine c)) (dc_remote c) got /\
    dc_remote c' = follows (eng_is_server (dc_engine c)) (dc_remote c) got.

(** From [c] to [c'] the engine ran [ops], [new] went out, readers took the events
    [took] and no other was lost or reordered, the engine got the datagrams that came
    in and concern the connection, and a client sent to its server only. *)
Record ran (took : list (Z * V)) (ops : list EngCall) (new : list (Endpoint * bytes)) c c' : Prop := mk_ran {
  rn_engine : dc_engine c' = (eng_run ops (dc_engine c)).2;
  rn_sent : dg_sent (dc_world c') = dg_sent (dc_world c) ++ new;
  rn_events : forall id, exists more, unread_events c id ++ more = of_stream id took ++ unread_events c' id;
  rn_server : eng_is_server (dc_engine c') = eng_is_server (dc_engine c);
  rn_received : received (packets_in ops) c c';
  rn_closings : closings ops = [];
  rn_client : eng_is_server (dc_engine c) = false -> Forall (fun d => d.1 = dc_remote c) new;
  rn_patience : (dg_patience (dc_world c') <= dg_patience (dc_world c))%nat;
  rn_pumping : dc_pumping c' = dc_pumping c;
}.

(** All the packets of the run went out, whole and in order ... *)
Definition ran_well (took : list (Z * V)) c c' : Prop :=
  exists ops new, ran took ops new c c' /\ (eng_run ops (dc_engine c)).1 = snd <$> new.

(** ... or all but the last, which was refused or cut. *)
Definition ran_short (took : list (Z * V)) c c' : Prop :=
  exists ops whole cut rest, ran took ops (whole ++ cut) c c' /\
    (eng_run ops (dc_engine c)).1 = (snd <$> whole) ++ rest /\
    (cut = [] /\ (length rest <= 1)%nat \/ exists d p, cut = [d] /\ rest = [p] /\ d.2 `prefix_of` p).

Lemma of_stream_app id es es' : of_stream id (es ++ es') = of_stream id es ++ of_stream id es'.
Proof. unfold of_stream. by rewrite filter_app, fmap_app. Qed.

Lemma ran_trans took1 took2 ops1 ops2 new1 new2 c1 c2 c3 :
  ran took1 ops1 new1 c1 c2 -> ran took2 ops2 new2 c2 c3 -> ran (took1 ++ took2) (ops1 ++ ops2) (new1 ++ new2) c1 c3.
Proof.
  intros [] []. split; [|by rewrite rn_sent1, rn_sent0, app_assoc| |by rewrite rn_server1| | | | |by rewrite rn_pumping1].
  - rewrite rn_engine1, rn_engine0, eng_run_app. done.
  - intros id. destruct (rn_events0 id) as [more1 H1]. destruct (rn_events1 id) as [more2 H2]. exists (more1 ++ more2).
    by rewrite app_assoc, H1, <- app_assoc, H2, of_stream_app, app_assoc.
  - destruct rn_received0 as (g1 & Hg1 & Hp1 & Hr1). destruct rn_received1 as (g2 & Hg2 & Hp2 & Hr2).
    rewrite rn_server0, Hr1 in Hp2, Hr2. exists (g1 ++ g2). unfold packets_in in *.
    by rewrite Hg2, Hg1, app_assoc, omap_app, Hp1, Hp2, heard_app, follows_app.
  - unfold closings in *. by rewrite omap_app, rn_closings0, rn_closings1.
  - intros Hc. apply Forall_app. split; [by apply rn_client0|].
    destruct rn_received0 as (g1 & _ & _ & Hr1). unfold follows in Hr1. rewrite Hc in Hr1. rewrite <- Hr1.
    apply rn_client1. by rewrite rn_server0.
  - lia.
Qed.

(** Nothing came in, or nothing that concerns the connection. *)
Lemma nothing_heard c c' :
  dg_received (dc_world c') = dg_received (dc_world c) -> dc_remote c' = dc_remote c -> received [] c c'.
Proof.
  intros Hg Hr. exists []. rewrite app_nil_r. unfold follows. split_and!; [done|done|by destruct (eng_is_server _)].
Qed.

Lemma ran_well_refl c : ran_well [] c c.
Proof.
  exists [], []. split; [|done]. split; try done; simpl; [by rewrite app_nil_r| |by apply nothing_heard].
  intros id. exists []. by rewrite app_nil_r.
Qed.

Lemma ran_well_then took1 took2 c1 c2 c3 :
  ran_well took1 c1 c2 -> ran_well took2 c2 c3 -> ran_well (took1 ++ took2) c1 c3.
Proof.
  intros (o1 & n1 & H1 & E1) (o2 & n2 & H2 & E2). exists (o1 ++ o2), (n1 ++ n2).
  split; [by eapply ran_trans|]. rewrite eng_run_app, fmap_app. simpl. by rewrite E1, <- (rn_engine _ _ _ _ _ H1), E2.
Qed.

#[export] Instance ran_well_preorder : PreOrder (ran_well []).
Proof. split; [exact ran_well_refl|]. intros c1 c2 c3. apply (ran_well_then [] []). Qed.

Lemma ran_then_short took1 took2 c1 c2 c3 :
  ran_well took1 c1 c2 -> ran_short took2 c2 c3 -> ran_short (took1 ++ took2) c1 c3.
Proof.
  intros (o1 & n1 & H1 & E1) (o2 & whole & cut & rest & H2 & E2 & Hc). exists (o1 ++ o2), (n1 ++ whole), cut, rest.
  split; [rewrite <- app_assoc; by eapply ran_trans|]. split; [|done].
  rewrite eng_run_app, fmap_app, <- app_assoc. simpl. by rewrite E1, <- (rn_engine _ _ _ _ _ H1), E2.
Qed.

Lemma ran_well_short c1 c2 c3 : ran_well [] c1 c2 -> ran_short [] c2 c3 -> ran_short [] c1 c3.
Proof. apply (ran_then_short [] []). Qed.

Lemma ran_well_is_short took c c' : ran_well took c c' -> ran_short took c c'.
Proof.
  intros (ops & new & Hr & He). exists ops, new, [], []. rewrite !app_nil_r. split_and!; [done|done|]. left. split; [done|]. simpl. lia.
Qed.

(** [m] ends, having sent what its engine produced. *)
Definition runs {A} (m : M Conn A) : Prop := forall c, wp m c (fun _ => ran_well [] c) (fun _ => ran_short [] c).

Lemma runs_bind {A B} (m : M Conn A) (k : A -> M Conn B) : runs m -> (forall a, runs (k a)) -> runs (out_bind m k).
Proof.
  intros Hm Hk c. apply wp_bind. eapply wp_mono; [apply Hm| |done]. intros a c1 H1.
  eapply wp_mono; [apply Hk| |]; cbv beta; [intros b c2 H2; by transitivity c1|].
  intros e c2 H2. by apply (ran_well_short c c1).
Qed.

Lemma runs_ret {A} (a : A) : runs (out_ret a).
Proof. intros c. unfold wp. simpl. reflexivity. Qed.

Lemma runs_fail {A} (e : Error) : runs (out_fail (A := A) e).
Proof. intros c. unfold wp. simpl. by apply ran_well_is_short. Qed.

(** Neither the engine nor the transport did anything that shows. *)
Lemma ran_quiet c c' :
  dc_engine c' = dc_engine c -> dc_buffers c' = dc_buffers c -> dc_pumping c' = dc_pumping c ->
  dg_sent (dc_world c') = dg_sent (dc_world c) -> (dg_patience (dc_world c') <= dg_patience (dc_world c))%nat ->
  received [] c c' -> ran_well [] c c'.
Proof.
  intros He Hb Hp Hs Hpat Hr. exists [], []. split; [|done]. split; try done; simpl.
  - by rewrite app_nil_r.
  - intros id. exists []. unfold unread_events. by rewrite app_nil_r, He, Hb.
  - by rewrite He.
Qed.

(** The engine was called, and produced nothing. *)
Lemma ran_called o c c' :
  eng_call o (dc_engine c) = ([], dc_engine c') ->
  eng_events (dc_engine c) `prefix_of` eng_events (dc_engine c') ->
  eng_is_server (dc_engine c') = eng_is_server (dc_engine c) ->
  dc_buffers c' = dc_buffers c -> dc_pumping c' = dc_pumping c -> dg_sent (dc_world c') = dg_sent (dc_world c) ->
  (dg_patience (dc_world c') <= dg_patience (dc_world c))%nat -> received (packets_in [o]) c c' -> closings [o] = [] ->
  ran_well [] c c'.
Proof.
  intros Ho [es Hes] Hsv Hb Hp Hs Hpat Hr Hcl. exists [o], []. simpl. rewrite Ho. simpl. split; [|done]. split; try done; simpl.
  - by rewrite Ho.
  - by rewrite app_nil_r.
  - intros id. unfold unread_events. rewrite Hes, Hb, filter_app, app_assoc. by eexists.
Qed.

Lemma ran_call o c x :
  packets_in [o] = [] -> closings [o] = [] -> eng_call o (dc_engine c) = ([], x) ->
  eng_events (dc_engine c) `prefix_of` eng_events x -> eng_is_server x = eng_is_server (dc_engine c) ->
  ran_well [] c (set_engine x c).
Proof. intros Hi Hcl Ho He Hsv. apply (ran_called o); try done. rewrite Hi. by apply nothing_heard. Qed.

Lemma now_runs : runs now_ns.
Proof.
  intros c. unfold wp, now_ns. pose proof (now_law (dc_world c)) as (Hs & Hg & Hp). destruct (dg_now (dc_world c)) as [t w].
  simpl in *. apply ran_quiet; simpl; try done; [lia|by apply nothing_heard].
Qed.

(** A packet on its way out: it goes to the peer whole, or is refused or cut. *)
Lemma send_sends packet io c :
  wp (send_packet packet io) c
    (fun _ c' => exists w, c' = set_world w c /\ dg_sent w = dg_sent (dc_world c) ++ [(dc_remote c, packet)] /\
       dg_received w = dg_received (dc_world c) /\ dg_patience w = dg_patience (dc_world c))
    (fun _ c' => exists w cut, c' = set_world w c /\ dg_sent w = dg_sent (dc_world c) ++ cut /\
       dg_received w = dg_received (dc_world c) /\ dg_patience w = dg_patience (dc_world c) /\
       (cut = [] \/ exists q, cut = [(dc_remote c, q)] /\ q `prefix_of` packet)).
Proof.
  unfold wp, send_packet. pose proof (send_to_law packet (dc_remote c) io (dc_world c)) as Hl.
  destruct (send_to packet (dc_remote c) io (dc_world c)) as [[n|e] w]; destruct Hl as (Hp & Hg & Hl).
  - destruct (n =? length packet)%nat eqn:E; bool_facts.
    + exists w. by rewrite Hl, E, firstn_all.
    + exists w, [(dc_remote c, take n packet)]. split_and!; try done. right. eexists. split; [done|]. apply prefix_take.
  - exists w, []. rewrite app_nil_r. split_and!; try done. by left.
Qed.

Lemma send_runs o c x packet io :
  packets_in [o] = [] -> closings [o] = [] -> eng_call o (dc_engine c) = (packet, x) -> (length packet =? 0)%nat = false ->
  eng_events (dc_engine c) `prefix_of` eng_events x -> eng_is_server x = eng_is_server (dc_engine c) ->
  wp (send_packet packet io) (set_engine x c) (fun _ => ran_well [] c) (fun _ => ran_short [] c).
Proof.
  intros Hi Hcl Ho Hn [es Hes] Hsv.
  assert (forall w new, dg_sent w = dg_sent (dc_world c) ++ new -> Forall (fun d => d.1 = dc_remote c) new ->
    dg_patience w = dg_patience (dc_world c) -> dg_received w = dg_received (dc_world c) ->
    ran [] [o] new c (set_world w (set_engine x c))) as Hran.
  { intros w new Hw Hf Hp Hg. split; try done; simpl; [by rewrite Ho| |rewrite Hi; by apply nothing_heard|lia].
    intros id. unfold unread_events. simpl. rewrite Hes, filter_app, app_assoc. by eexists. }
  assert ((eng_run [o] (dc_engine c)).1 = [packet]) as He by (simpl; by rewrite Ho, Hn).
  eapply wp_mono; [apply send_sends| |]; cbv beta; simpl.
  - intros _ c' (w & -> & Hs & Hg & Hp). exists [o], [(dc_remote c, packet)]. split; [|done]. apply Hran; [done|by constructor|done|done].
  - intros _ c' (w & cut & -> & Hs & Hg & Hp & Hcut). exists [o], [], cut, [packet]. destruct Hcut as [->|(q & -> & Hq)].
    + split_and!; [by apply Hran|done|by left].
    + split_and!; [apply Hran; [done|by constructor|done|done]|done|]. right. by eexists _, _.
Qed.

Lemma flush_rounds_runs k io : runs (flush_rounds k io).
Proof.
  induction k as [|k IH]; simpl; [apply runs_ret|]. apply runs_bind; [apply now_runs|]. intros now c.
  apply wp_bind. unfold wp at 1, on_engine. pose proof (poll_law now (dc_engine c)) as Hp. unfold wp in Hp.
  assert (eng_call (ec_poll now) (dc_engine c) =
    match eng_poll now (dc_engine c) with Returns p x' => (p, x') | r => ([], after (dc_engine c) r) end) as Hcall by done.
  destruct (eng_poll now (dc_engine c)) as [packet x|e x|]; [| |done]; destruct Hp as [He Hs].
  - destruct (length packet =? 0)%nat eqn:E.
    + apply Nat.eqb_eq, length_zero_iff_nil in E. subst packet. by apply (ran_call (ec_poll now)).
    + apply wp_bind. eapply wp_mono; [by apply (send_runs (ec_poll now))| |done].
      intros [] c2 H2. eapply wp_mono; [apply IH| |]; [intros b c3 H3; by transitivity c2|].
      intros e c3 H3. eapply ran_well_short; eassumption.
  - apply ran_well_is_short. by apply (ran_call (ec_poll now)).
Qed.

Lemma flush_runs io : runs (dg_flush io).
Proof. apply flush_rounds_runs. Qed.

(** What [flush] leaves undone: nothing, unless [k] packets were not enough. *)
Inductive flushed : nat -> X -> list bytes -> X -> Prop :=
| fl_limit x : flushed 0 x [] x
| fl_empty k now x x' : eng_poll now x = Returns [] x' -> flushed (S k) x [] x'
| fl_packet k now x p x1 ps x' :
    eng_poll now x = Returns p x1 -> p <> [] -> flushed k x1 ps x' -> flushed (S k) x (p :: ps) x'.

Lemma flush_rounds_exact k io c :
  wp (flush_rounds k io) c
    (fun _ c' => exists ps, flushed k (dc_engine c) ps (dc_engine c') /\
       dg_sent (dc_world c') = dg_sent (dc_world c) ++ ((fun p => (dc_remote c, p)) <$> ps)) (fun _ _ => True).
Proof.
  revert c; induction k as [|k IH]; intros c; simpl.
  { exists []. rewrite app_nil_r. by split; [constructor|]. }
  apply wp_bind. unfold wp at 1, now_ns. pose proof (now_law (dc_world c)) as (Hs & _ & _).
  destruct (dg_now (dc_world c)) as [now w]. simpl in Hs. apply wp_bind. unfold wp at 1, on_engine. simpl.
  pose proof (poll_law now (dc_engine c)) as Hl. unfold wp in Hl.
  destruct (eng_poll now (dc_engine c)) as [packet x|e x|] eqn:Ep; [|done|done].
  destruct (length packet =? 0)%nat eqn:E; bool_facts.
  { apply nil_length_inv in E as ->. exists []. simpl. rewrite app_nil_r. split; [by eapply fl_empty|done]. }
  apply wp_bind. eapply wp_mono; [apply send_sends| |done]. cbv beta. simpl. intros _ c2 (w2 & -> & Hs2 & _).
  eapply wp_mono; [apply IH| |done]. cbv beta. simpl. intros _ c3 (ps & Hf & Hs3). exists (packet :: ps). split.
  - eapply fl_packet; [done| |done]. by intros ->.
  - by rewrite Hs3, Hs2, Hs, <- app_assoc.
Qed.

Lemma flush_exact io c :
  wp (dg_flush io) c
    (fun _ c' => exists ps, flushed 64 (dc_engine c) ps (dc_engine c') /\
       dg_sent (dc_world c') = dg_sent (dc_world c) ++ ((fun p => (dc_remote c, p)) <$> ps)) (fun _ _ => True).
Proof. apply flush_rounds_exact. Qed.

(** ** Events *)

Lemma foldl_queue es b id :
  default [] (foldl queue_event b es !! id) = default [] (b !! id) ++ filter (fun e => ev_stream e = id) es.
Proof.
  revert b; induction es as [|e es IH]; intros b; simpl; [by rewrite app_nil_r|]. rewrite IH. unfold queue_event.
  rewrite lookup_insert, filter_cons. destruct (decide (ev_stream e = id)) as [->|]; [|done]. simpl.
  by rewrite <- app_assoc.
Qed.

Lemma collect_unread c id : unread_events (collect_events c) id = unread_events c id.
Proof.
  unfold collect_events, unread_events. destruct (take_law (dc_engine c)) as (Ht & He & _).
  destruct (eng_take_events (dc_engine c)) as [es x]. simpl in *. subst es. by rewrite He, foldl_queue, app_nil_r.
Qed.

Lemma collect_runs : runs (out_modify collect_events).
Proof.
  intros c. unfold wp, out_modify. exists [ec_take], []. simpl. split; [|done].
  pose proof (collect_unread c) as Hu. unfold collect_events in *. destruct (take_law (dc_engine c)) as (_ & _ & Hs).
  destruct (eng_take_events (dc_engine c)) as [es x] eqn:E. simpl in *.
  split; simpl; rewrite ?app_nil_r, ?E; try done; [|by apply nothing_heard].
  intros id. exists []. by rewrite Hu, app_nil_r.
Qed.

(** ** Pumping *)

Lemma patience_mono c c' : ran_short [] c c' -> (dg_patience (dc_world c') <= dg_patience (dc_world c))%nat.
Proof. intros (? & ? & ? & ? & [] & _). done. Qed.


(** The datagram [data] has come in, and goes to the engine. *)
Lemma feed_runs data io c c1 :
  dc_engine c1 = dc_engine c -> dc_buffers c1 = dc_buffers c -> dc_pumping c1 = dc_pumping c ->
  dg_sent (dc_world c1) = dg_sent (dc_world c) -> (dg_patience (dc_world c1) < dg_patience (dc_world c))%nat ->
  received [data] c c1 ->
  wp (feed_engine data io) c1
    (fun _ c' => ran_well [] c c' /\ (dg_patience (dc_world c') < dg_patience (dc_world c))%nat) (fun _ => ran_short [] c).
Proof.
  intros He Hb Hp Hs Hpat Hr. unfold feed_engine. apply wp_bind. unfold wp at 1, now_ns.
  pose proof (now_law (dc_world c1)) as (Hs1 & Hg1 & Hp1). destruct (dg_now (dc_world c1)) as [now w]. simpl in *.
  apply wp_bind. unfold wp at 1, on_engine. simpl. rewrite He.
  pose proof (receive_law data now (dc_engine c)) as Hl. unfold wp in Hl.
  assert (eng_call (ec_receive data now) (dc_engine c) = ([], after (dc_engine c) (eng_receive data now (dc_engine c))))
    as Hcall by done.
  assert (forall x, eng_events (dc_engine c) `prefix_of` eng_events x /\ eng_is_server x = eng_is_server (dc_engine c) ->
    eng_call (ec_receive data now) (dc_engine c) = ([], x) -> ran_well [] c (set_engine x (set_world w c1))) as Hran.
  { intros x [Hx Hsv] Hc. apply (ran_called (ec_receive data now)); simpl; try done; [by rewrite Hs1|lia|].
    destruct Hr as (got & Hg & Hd & Hf). exists got. simpl. by rewrite Hg1. }
  destruct (eng_receive data now (dc_engine c)) as [[] x|e x|]; [|by apply ran_well_is_short, Hran|done].
  specialize (Hran x Hl Hcall).
  assert (runs (out_modify (collect_events (W := W) (X := X) (V := V)) ;;; dg_flush io)) as Hrest
    by (apply runs_bind; [apply collect_runs|intros _; apply flush_runs]).
  eapply wp_mono; [apply Hrest| |]; cbv beta; [|intros e c2 H2; by eapply ran_well_short].
  intros [] c2 H2. split; [by etrans|]. pose proof (patience_mono _ _ (ran_well_is_short _ _ _ H2)) as Hm. simpl in Hm. lia.
Qed.

Lemma expiry_runs io : runs (let! now := now_ns in on_engine (eng_handle_expiry now) ;;; dg_flush io).
Proof.
  apply runs_bind; [apply now_runs|]. intros now. apply runs_bind; [|intros _; apply flush_runs].
  intros c. unfold wp, on_engine. pose proof (handle_expiry_law now (dc_engine c)) as Hp. unfold wp in Hp.
  assert (eng_call (ec_expiry now) (dc_engine c) = ([], after (dc_engine c) (eng_handle_expiry now (dc_engine c))))
    as Hcall by done.
  destruct (eng_handle_expiry now (dc_engine c)) as [[] x|e x|]; [| |done]; destruct Hp as [He Hs];
    [|apply ran_well_is_short]; by apply (ran_call (ec_expiry now)).
Qed.

(** A round that waits uses up the transport's patience. *)
Lemma await_runs wait armed io c :
  wp (await_datagram wait armed io) c
    (fun _ c' => ran_well [] c c' /\ (dg_patience (dc_world c') < dg_patience (dc_world c))%nat) (fun _ => ran_short [] c).
Proof.
  unfold wp, await_datagram. pose proof (receive_from_law kMaxDatagram wait (dc_world c)) as Hl.
  destruct (receive_from kMaxDatagram wait (dc_world c)) as [[[data peer]|e] w]; destruct Hl as (Hs & Hg & Hp).
  - simpl. destruct (eng_is_server (dc_engine c)) eqn:Esv.
    { apply feed_runs; try done. exists [(data, peer)]. simpl. by rewrite Esv. }
    destruct (endpoint_eqb peer (dc_remote c)) eqn:Ep; simpl.
    + apply feed_runs; try done. exists [(data, peer)]. simpl. rewrite Esv. split_and!; [done| |done].
      unfold heard. by rewrite filter_cons_True.
    + split; [|done]. apply ran_quiet; simpl; try done; [lia|]. exists [(data, peer)]. simpl. rewrite Esv.
      split_and!; [done| |done]. unfold heard. rewrite filter_cons_False; [done|]. simpl. by rewrite Ep.
  - simpl in Hp. assert (ran_well [] c (set_world w c)) as Hq.
    { rewrite app_nil_r in Hg. apply ran_quiet; simpl; try done; [|by apply nothing_heard]. destruct (error_eqb _ _); lia. }
    destruct (error_eqb e _); [|by apply ran_well_is_short]. destruct (armed && _); [by apply ran_well_is_short|].
    pose proof (expiry_runs io (set_world w c)) as Hx. unfold wp in Hx.
    destruct ((let! now := now_ns in _) _) as [[] c2|e2 c2|]; [|eapply ran_well_short; eassumption|done].
    split; [by transitivity (set_world w c)|]. pose proof (patience_mono _ _ (ran_well_is_short _ _ _ Hx)) as Hm. simpl in Hm. lia.
Qed.

Lemma deadline_runs io : runs (deadline_passed io).
Proof.
  unfold deadline_passed. destruct (io_deadline io); [|apply runs_ret].
  apply runs_bind; [apply now_runs|]. intros now. apply runs_ret.
Qed.

Lemma wp_runs {A B} (m : M Conn A) (k : A -> M Conn B) c :
  runs m ->
  (forall a c1, ran_well [] c c1 -> wp (k a) c1 (fun _ c' => ran_well [] c1 c' /\ (dg_patience (dc_world c') < dg_patience (dc_world c1))%nat)
     (fun _ => ran_short [] c1)) ->
  wp (out_bind m k) c (fun _ c' => ran_well [] c c' /\ (dg_patience (dc_world c') < dg_patience (dc_world c))%nat)
    (fun _ => ran_short [] c).
Proof.
  intros Hm Hk. apply wp_bind. eapply wp_mono; [apply Hm| |done]. intros a c1 H1.
  eapply wp_mono; [by apply Hk| |]; cbv beta; [|intros e c2 H2; by apply (ran_well_short c c1)].
  intros b c2 [H2 Hp]. split; [by transitivity c1|]. pose proof (patience_mono _ _ (ran_well_is_short _ _ _ H1)). lia.
Qed.

Lemma do_pump_runs io c :
  wp (do_pump io) c (fun _ c' => ran_well [] c c' /\ (dg_patience (dc_world c') < dg_patience (dc_world c))%nat)
    (fun _ => ran_short [] c).
Proof.
  apply wp_runs; [apply flush_runs|]. intros _ c1 _. apply wp_runs; [apply collect_runs|]. intros _ c2 _.
  apply wp_runs; [apply now_runs|]. intros now c3 _. unfold wp at 1. cbv beta.
  destruct (arm_timer now (eng_expiry (dc_engine c3)) io) as [wait armed].
  pose proof (wp_runs (deadline_passed io) (fun late : bool =>
    if late then out_fail (make_error_code Errc.timed_out) else await_datagram wait armed io) c3 (deadline_runs io)) as Hd.
  apply Hd. intros late c4 _. destruct late; [|apply await_runs]. apply ran_well_is_short, ran_well_refl.
Qed.

(** [pumping_] is set for the time of an operation. *)
Lemma ran_guarded took ops new c c' :
  dc_pumping c = false -> ran took ops new (set_pumping true c) c' -> ran took ops new c (set_pumping false c').
Proof. intros Hp []. by split. Qed.

Lemma guarded_well took c c' :
  dc_pumping c = false -> ran_well took (set_pumping true c) c' -> ran_well took c (set_pumping false c').
Proof. intros Hp (ops & new & Hr & He). exists ops, new. split; [by apply ran_guarded|done]. Qed.

Lemma guarded_short took c c' :
  dc_pumping c = false -> ran_short took (set_pumping true c) c' -> ran_short took c (set_pumping false c').
Proof. intros Hp (ops & wh & cut & rest & Hr & He). exists ops, wh, cut, rest. split; [by apply ran_guarded|done]. Qed.

Lemma wp_guarded {A} (m : M Conn A) c (P : A -> Conn -> Prop) (R : Error -> Conn -> Prop) :
  (dc_pumping c = true -> R (make_error_code Errc.invalid_argument) c) ->
  (dc_pumping c = false ->
     wp m (set_pumping true c) (fun a c' => P a (set_pumping false c')) (fun e c' => R e (set_pumping false c'))) ->
  wp (guarded m) c P R.
Proof.
  intros H1 H2. unfold wp, guarded in *. destruct (dc_pumping c); [by apply H1|]. specialize (H2 eq_refl).
  by destruct (m (set_pumping true c)).
Qed.

Lemma guarded_runs {A} (m : M Conn A) : runs m -> runs (guarded m).
Proof.
  intros Hm c. apply wp_guarded; [intros _; apply ran_well_is_short, ran_well_refl|]. intros Hp.
  eapply wp_mono; [apply Hm| |]; intros ? c'; [by apply guarded_well|by apply guarded_short].
Qed.

Lemma pump_runs io : runs (dg_pump io).
Proof. apply guarded_runs. intros c. eapply wp_mono; [apply do_pump_runs| |]; [naive_solver|done]. Qed.

Lemma pump_until_runs fuel stop io c :
  (dg_patience (dc_world c) < fuel)%nat ->
  wp (pump_until fuel stop io) c (fun _ c' => ran_well [] c c' /\ stop c' = true) (fun _ => ran_short [] c).
Proof.
  intros Hf. apply (iter_wp _ (ran_well [] c) (fun c => dg_patience (dc_world c))); [|done|done].
  intros c1 H1. unfold wp. destruct (stop c1) eqn:Es; [done|].
  pose proof (do_pump_runs io c1) as Hp. unfold wp, out_bind in *. destruct (do_pump io c1) as [[] c2|e c2|]; [| |done].
  - destruct Hp as [Hw Hp]. split; [by transitivity c1|done].
  - by apply (ran_well_short c c1).
Qed.

(** ** Readers *)

Lemma take_front {A} id (f : V -> option A) c :
  match take_from id (pick_front f) c with
  | (r, c') => exists took, ran_well took c c' /\ dc_world c' = dc_world c /\
      (took = [] /\ r = None \/ exists e, took = [(id, e)] /\ r = f e)
  end.
Proof.
  unfold take_from. destruct (dc_buffers c !! id) as [[|e q]|] eqn:Hb;
    [exists []; split_and!; [apply ran_well_refl|done|by left] | |
     exists []; split_and!; [apply ran_well_refl|done|by left]].
  simpl. exists [(id, e)]. split_and!; [|done|right; by exists e]. exists [], []. split; [|done].
  split; try done; simpl; [by rewrite app_nil_r| |by apply nothing_heard]. intros i. exists []. rewrite app_nil_r. unfold unread_events, of_stream. simpl.
  rewrite filter_cons. simpl. destruct (decide (id = i)) as [<-|Hne].
  - rewrite Hb. simpl. destruct q as [|e' q]; simpl; [by rewrite lookup_delete_eq|by rewrite lookup_insert_eq].
  - simpl. f_equal. destruct q as [|e' q]; simpl; [by rewrite lookup_delete_ne|by rewrite lookup_insert_ne].
Qed.

(** Reading a stream: the events before the one returned were of no use, those of
    other streams stay; what is returned comes from the next event in line.  A
    failure loses at most that one. *)
Definition read_well {A} id (f : V -> option A) c (a : A) c' : Prop :=
  exists skipped e, ran_well (((fun e => (id, e)) <$> skipped) ++ [(id, e)]) c c' /\
    Forall (fun e => f e = None) skipped /\ f e = Some a.

Definition read_short {A} id (f : V -> option A) c c' : Prop :=
  exists skipped lost, ran_short ((fun e => (id, e)) <$> (skipped ++ lost)) c c' /\
    Forall (fun e => f e = None) skipped /\ (length lost <= 1)%nat.

Lemma pump_for_reads {A} fuel id (f : V -> option A) io c :
  (dg_patience (dc_world c) < fuel)%nat ->
  wp (pump_for fuel (take_from id (pick_front f)) io) c (read_well id f c) (fun _ => read_short id f c).
Proof.
  intros Hf.
  apply (iter_wp _ (fun c1 => exists skipped, ran_well ((fun e => (id, e)) <$> skipped) c c1 /\ Forall (fun e => f e = None) skipped)
    (fun c => dg_patience (dc_world c))); [|exists []; split; [apply ran_well_refl|done]|done].
  intros c1 (skipped & H1 & Hsk). unfold wp. pose proof (take_front id f c1) as Ht.
  destruct (take_from id (pick_front f) c1) as [[a|] c2]; destruct Ht as (took & H2 & Hw & Ht).
  - destruct Ht as [[_ ?]|(e & -> & He)]; [done|]. pose proof (ran_well_then _ _ _ _ _ H1 H2) as H12.
    pose proof (flush_runs io c2) as Hfl. unfold wp, out_bind in *. destruct (dg_flush io c2) as [[] c3|e2 c3|]; [| |done].
    + exists skipped, e. split; [|done]. rewrite <- (app_nil_r (_ ++ _)). by eapply ran_well_then.
    + exists skipped, [e]. split_and!; [|done|done]. rewrite fmap_app. simpl. rewrite <- (app_nil_r (_ ++ _)).
      by eapply ran_then_short.
  - pose proof (do_pump_runs io c2) as Hp. unfold wp, out_bind in *.
    assert (exists skipped, ran_well ((fun e => (id, e)) <$> skipped) c c2 /\ Forall (fun e => f e = None) skipped)
      as (sk2 & H12 & Hsk2).
    { pose proof (ran_well_then _ _ _ _ _ H1 H2) as H12. destruct Ht as [[-> _]|(e & -> & He)].
      - rewrite app_nil_r in H12. by exists skipped.
      - exists (skipped ++ [e]). rewrite fmap_app. split; [done|]. apply Forall_app. split; [done|]. by constructor. }
    destruct (do_pump io c2) as [[] c3|e2 c3|]; [| |done].
    + destruct Hp as [Hp1 Hp2]. rewrite Hw in Hp2. split; [|done]. exists sk2. split; [|done].
      rewrite <- (app_nil_r (_ <$> _)). by eapply ran_well_then.
    + exists sk2, []. rewrite app_nil_r. split_and!; [|done|simpl; lia]. rewrite <- (app_nil_r (_ <$> _)). by eapply ran_then_short.
Qed.

Lemma of_stream_one id es i : of_stream i ((fun e => (id, e)) <$> es) = if decide (id = i) then es else [].
Proof.
  unfold of_stream. destruct (decide (id = i)) as [->|Hne]; (induction es as [|e es IH]; [done|]).
  - rewrite fmap_cons, filter_cons_True by done. rewrite fmap_cons. simpl. by rewrite IH.
  - rewrite fmap_cons, filter_cons_False by done. exact IH.
Qed.

(** A run whose readers took [es] from stream [id]. *)
Lemma ran_events id es ops new c c' :
  ran ((fun e => (id, e)) <$> es) ops new c c' ->
  (exists more, unread_events c id ++ more = es ++ unread_events c' id) /\
  (forall i, i <> id -> unread_events c i `prefix_of` unread_events c' i).
Proof.
  intros Hr. split.
  - destruct (rn_events _ _ _ _ _ Hr id) as [more Hm]. rewrite of_stream_one, decide_True in Hm by done. by exists more.
  - intros i Hi. destruct (rn_events _ _ _ _ _ Hr i) as [more Hm]. rewrite of_stream_one, decide_False in Hm by done.
    by exists more.
Qed.

Lemma read_well_spec {A} id (f : V -> option A) c a c' :
  read_well id f c a c' ->
  exists skipped e more, unread_events c id ++ more = skipped ++ e :: unread_events c' id /\
    Forall (fun e => f e = None) skipped /\ f e = Some a /\
    (forall i, i <> id -> unread_events c i `prefix_of` unread_events c' i) /\
    exists ops new, dc_engine c' = (eng_run ops (dc_engine c)).2 /\
      dg_sent (dc_world c') = dg_sent (dc_world c) ++ new /\ (eng_run ops (dc_engine c)).1 = snd <$> new.
Proof.
  intros (sk & e & (ops & new & Hr & He) & Hsk & Hch). change [(id, e)] with ((fun e => (id, e)) <$> [e]) in Hr.
  rewrite <- fmap_app in Hr. destruct (ran_events _ _ _ _ _ _ Hr) as [[more Hm] Ho].
  exists sk, e, more. split_and!; [by rewrite Hm, <- app_assoc|done|done|done|].
  exists ops, new. by destruct Hr.
Qed.

Lemma read_short_spec {A} id (f : V -> option A) c c' :
  read_short id f c c' ->
  exists skipped lost more, unread_events c id ++ more = skipped ++ lost ++ unread_events c' id /\
    Forall (fun e => f e = None) skipped /\ (length lost <= 1)%nat /\
    (forall i, i <> id -> unread_events c i `prefix_of` unread_events c' i).
Proof.
  intros (sk & lost & (ops & wh & cut & rest & Hr & _) & Hsk & Hl). destruct (ran_events _ _ _ _ _ _ Hr) as [[more Hm] Ho].
  exists sk, lost, more. split_and!; [by rewrite Hm, <- app_assoc|done|done|done].
Qed.

(** A reader that leaves a queue alone until it finds what it looks for. *)
Definition patient {A} (take : Conn -> option A * Conn) : Prop :=
  forall c, match take c with (None, c') => c' = c | (Some _, c') => dc_world c' = dc_world c end.

Lemma pump_for_patient {A} fuel (take : Conn -> option A * Conn) io c :
  patient take -> (dg_patience (dc_world c) < fuel)%nat ->
  wp (pump_for fuel take io) c
    (fun a c' => exists c1 c2, ran_well [] c c1 /\ take c1 = (Some a, c2) /\ ran_well [] c2 c')
    (fun _ c' => ran_short [] c c' \/ exists a c1 c2, ran_well [] c c1 /\ take c1 = (Some a, c2) /\ ran_short [] c2 c').
Proof.
  intros Hp Hf. apply (iter_wp _ (ran_well [] c) (fun c => dg_patience (dc_world c))); [|reflexivity|done].
  intros c1 H1. unfold wp. specialize (Hp c1). destruct (take c1) as [[a|] c2] eqn:Et.
  - pose proof (flush_runs io c2) as Hfl. unfold wp, out_bind in *. destruct (dg_flush io c2) as [[] c3|e c3|]; [| |done].
    + by exists c1, c2.
    + right. by exists a, c1, c2.
  - subst c2. pose proof (do_pump_runs io c1) as Hd. unfold wp, out_bind in *.
    destruct (do_pump io c1) as [[] c3|e c3|]; [| |done].
    + destruct Hd as [Hd1 Hd2]. split; [by transitivity c1|done].
    + left. by apply (ran_well_short c c1).
Qed.

(** ** A connection as a run of its engine

    What the application asks of the engine itself ([D], with its effect on the
    engine; closing it, with the error code, is asked too) and what the connection
    does for it, in the order in which the engine sees them. *)
Context {D : Type} (direct : D -> X -> X).
Implicit Type tr : list (EngCall + D).

Fixpoint tr_run tr (x : X) : list bytes * X :=
  match tr with
  | [] => ([], x)
  | inl o :: tr =>
      let '(p, x) := eng_call o x in
      let '(ps, x) := tr_run tr x in
      (if (length p =? 0)%nat then ps else p :: ps, x)
  | inr d :: tr => tr_run tr (direct d x)
  end.

Definition asked tr : list (D + Z) :=
  omap (fun o => match o with inl (ec_close code _) => Some (inr code) | inl _ => None | inr d => Some (inl d) end) tr.
Definition engine_part tr : list EngCall := omap (fun o => match o with inl o => Some o | inr _ => None end) tr.

(** [sent] is [packets] in order, of which [n] at most were refused or cut. *)
Inductive sent_but : nat -> list bytes -> list bytes -> Prop :=
| sb_nil : sent_but 0 [] []
| sb_whole n p packets sent : sent_but n packets sent -> sent_but n (p :: packets) (p :: sent)
| sb_refused n p packets sent : sent_but n packets sent -> sent_but (S n) (p :: packets) sent
| sb_cut n p q packets sent : q `prefix_of` p -> sent_but n packets sent -> sent_but (S n) (p :: packets) (q :: sent)
| sb_more n packets sent : sent_but n packets sent -> sent_but (S n) packets sent.

(** From [c] to [c']: the engine got what the application asked, [ds], in that order,
    and every datagram that came in and concerns the connection; what it produced
    went out, all but [n] packets at most; a client sent to its server only. *)
Record tracked (ds : list (D + Z)) (n : nat) c c' : Prop := {
  tk_run : exists tr new,
    dc_engine c' = (tr_run tr (dc_engine c)).2 /\ asked tr = ds /\
    received (packets_in (engine_part tr)) c c' /\
    dg_sent (dc_world c') = dg_sent (dc_world c) ++ new /\
    sent_but n (tr_run tr (dc_engine c)).1 (snd <$> new) /\
    (eng_is_server (dc_engine c) = false -> Forall (fun d => d.1 = dc_remote c) new);
  tk_server : eng_is_server (dc_engine c') = eng_is_server (dc_engine c);
}.

Lemma tr_run_app tr tr' x :
  tr_run (tr ++ tr') x = ((tr_run tr x).1 ++ (tr_run tr' (tr_run tr x).2).1, (tr_run tr' (tr_run tr x).2).2).
Proof.
  revert x; induction tr as [|[o|d] tr IH]; intros x; simpl; [by destruct (tr_run tr' x)| |done].
  destruct (eng_call o x) as [p x1]. rewrite IH. destruct (tr_run tr x1) as [ps x2]. simpl. by destruct (_ =? _)%nat.
Qed.

Lemma tr_run_engine ops x : tr_run (inl <$> ops) x = eng_run ops x.
Proof.
  revert x; induction ops as [|o ops IH]; intros x; [done|]. simpl. destruct (eng_call o x) as [p x1]. by rewrite IH.
Qed.

Lemma asked_engine ops : asked (inl <$> ops) = inr <$> closings ops /\ engine_part (inl <$> ops) = ops.
Proof.
  induction ops as [|o ops [IH1 IH2]]; [done|]. split.
  - destruct o as [now|data now|now|code now|]; [exact IH1|exact IH1|exact IH1| |exact IH1].
    change (inr code :: asked (inl <$> ops) = inr code :: (inr <$> closings ops)). by rewrite IH1.
  - change (o :: engine_part (inl <$> ops) = o :: ops). by rewrite IH2.
Qed.

Lemma sent_but_whole ps : sent_but 0 ps ps.
Proof. induction ps; by constructor. Qed.

Lemma sent_but_app n1 n2 ps1 ps2 s1 s2 :
  sent_but n1 ps1 s1 -> sent_but n2 ps2 s2 -> sent_but (n1 + n2) (ps1 ++ ps2) (s1 ++ s2).
Proof. intros H1 H2. induction H1; simpl; by (done || constructor). Qed.

Lemma sent_but_all ps sent : sent_but 0 ps sent -> sent = ps.
Proof. remember 0%nat as n eqn:E. intros H. induction H; simplify_eq; [done|]. f_equal. by apply IHsent_but. Qed.

Lemma received_app ps1 ps2 c1 c2 c3 :
  eng_is_server (dc_engine c2) = eng_is_server (dc_engine c1) ->
  received ps1 c1 c2 -> received ps2 c2 c3 -> received (ps1 ++ ps2) c1 c3.
Proof.
  intros Hsv (g1 & Hg1 & -> & Hr1) (g2 & Hg2 & -> & Hr2). rewrite Hsv, Hr1 in *. exists (g1 ++ g2).
  by rewrite Hg2, Hg1, app_assoc, heard_app, follows_app.
Qed.

Lemma tracked_refl c : tracked [] 0 c c.
Proof.
  split; [|done]. exists [], []. rewrite app_nil_r. split_and!; try done; [by apply nothing_heard|constructor].
Qed.

Lemma tracked_app ds1 ds2 n1 n2 c1 c2 c3 :
  tracked ds1 n1 c1 c2 -> tracked ds2 n2 c2 c3 -> tracked (ds1 ++ ds2) (n1 + n2) c1 c3.
Proof.
  intros [(t1 & w1 & He1 & Ha1 & Hr1 & Hs1 & Hb1 & Hc1) Hsv1] [(t2 & w2 & He2 & Ha2 & Hr2 & Hs2 & Hb2 & Hc2) Hsv2].
  split; [|by rewrite Hsv2]. exists (t1 ++ t2), (w1 ++ w2). rewrite tr_run_app, <- He1. simpl. split_and!; [done| | | | |].
  - unfold asked in *. by rewrite omap_app, Ha1, Ha2.
  - unfold engine_part, packets_in in *. rewrite !omap_app. by apply (received_app _ _ c1 c2).
  - by rewrite Hs2, Hs1, app_assoc.
  - rewrite fmap_app. by apply sent_but_app.
  - intros Hc. apply Forall_app. split; [by apply Hc1|]. destruct Hr1 as (g & _ & _ & Hr). rewrite Hc in Hr. simpl in Hr.
    rewrite <- Hr. apply Hc2. by rewrite Hsv1.
Qed.

Lemma ran_tracked took ops new n c c' :
  ran took ops new c c' -> sent_but n (eng_run ops (dc_engine c)).1 (snd <$> new) -> tracked [] n c c'.
Proof.
  intros [] Hb. split; [|done]. exists (inl <$> ops), new. destruct (asked_engine ops) as [Ha Hp].
  rewrite tr_run_engine, Hp, Ha, rn_closings0. done.
Qed.

Lemma short_tracked took c c' : ran_short took c c' -> tracked [] 1 c c'.
Proof.
  intros (ops & wh & cut & rest & Hr & He & Hc). apply (ran_tracked _ _ _ _ _ _ Hr). rewrite He, fmap_app.
  apply (sent_but_app 0); [apply sent_but_whole|]. destruct Hc as [[-> Hl]|(d & p & -> & -> & Hp)].
  - destruct rest as [|p [|]]; simpl in *; [apply sb_more; constructor|apply sb_refused; constructor|lia].
  - apply sb_cut; [done|constructor].
Qed.

Lemma well_tracked took c c' : ran_well took c c' -> tracked [] 0 c c'.
Proof. intros (ops & new & Hr & He). apply (ran_tracked _ _ _ _ _ _ Hr). rewrite He. apply sent_but_whole. Qed.

(** [m] asks [ds] of the engine, and a failure costs one packet at most. *)
Definition tracks {A} (ds : list (D + Z)) (m : M Conn A) : Prop :=
  forall c, wp m c (fun _ => tracked ds 0 c) (fun _ => tracked ds 1 c).

Lemma runs_tracks {A} (m : M Conn A) : runs m -> tracks [] m.
Proof. intros Hm c. eapply wp_mono; [apply Hm| |]; cbv beta; intros; [by eapply well_tracked|by eapply short_tracked]. Qed.

Lemma tracked_more ds c c' : tracked ds 0 c c' -> tracked ds 1 c c'.
Proof.
  intros [(tr & new & He & Ha & Hr & Hs & Hb & Hc) Hsv]. split; [|done]. exists tr, new. split_and!; try done. by apply sb_more.
Qed.

Lemma direct_tracked d c x :
  direct d (dc_engine c) = x -> eng_is_server x = eng_is_server (dc_engine c) -> tracked [inl d] 0 c (set_engine x c).
Proof.
  intros <- Hsv. split; [|done]. exists [inr d], []. rewrite app_nil_r. split_and!; try done; [by apply nothing_heard|constructor].
Qed.

(** An operation of the engine itself. *)
Lemma engine_tracks {A} (m : M X A) d :
  (forall x, m x <> OutOfFuel /\ after x (m x) = direct d x /\ eng_is_server (direct d x) = eng_is_server x) ->
  tracks [inl d] (on_engine m).
Proof.
  intros Hm c. unfold wp, on_engine. destruct (Hm (dc_engine c)) as (Hend & Ha & Hsv). unfold after in Ha.
  destruct (m (dc_engine c)) as [a x|e x|]; [|apply tracked_more|done]; (apply direct_tracked; [done|by rewrite Ha]).
Qed.

Lemma tracks_then {A B} ds (m : M Conn A) (k : M Conn B) : tracks ds m -> runs k -> tracks ds (m ;;; k).
Proof.
  intros Hm Hk c. apply wp_bind. eapply wp_mono; [apply Hm| |done]. intros a c1 H1. cbv beta.
  eapply wp_mono; [apply (runs_tracks _ Hk)| |]; cbv beta; intros ? c2 H2; rewrite <- (app_nil_r ds).
  - by apply (tracked_app _ _ 0 0 c c1).
  - by apply (tracked_app _ _ 0 1 c c1).
Qed.

Lemma close_tracks code io : tracks [inr code] (dg_close code io).
Proof.
  intros c. unfold wp, dg_close, now_ns, out_bind at 1. pose proof (now_law (dc_world c)) as (Hs & Hg & _).
  destruct (dg_now (dc_world c)) as [now w]. simpl in Hs, Hg. unfold out_bind, on_engine. simpl.
  pose proof (eng_close_law code now (dc_engine c)) as Hl. unfold wp in Hl.
  assert (eng_call (ec_close code now) (dc_engine c) =
    match eng_close code now (dc_engine c) with Returns p x' => (p, x') | r => ([], after (dc_engine c) r) end) as Hcall by done.
  assert (forall p n new c', eng_call (ec_close code now) (dc_engine c) = (p, dc_engine c') ->
    eng_is_server (dc_engine c') = eng_is_server (dc_engine c) -> dc_remote c' = dc_remote c ->
    dg_sent (dc_world c') = dg_sent (dc_world c) ++ new -> dg_received (dc_world c') = dg_received (dc_world c) ->
    sent_but n (if (length p =? 0)%nat then [] else [p]) (snd <$> new) -> Forall (fun d => d.1 = dc_remote c) new ->
    tracked [inr code] n c c') as Hclosed.
  { intros p n new c' Hc Hsv Hr Hs' Hg' Hb Hf. split; [|done]. exists [inl (ec_close code now)], new.
    assert (tr_run [inl (ec_close code now)] (dc_engine c) = (if (length p =? 0)%nat then [] else [p], dc_engine c')) as ->
      by (cbn [tr_run]; by rewrite Hc).
    split_and!; try done. by apply nothing_heard. }
  destruct (eng_close code now (dc_engine c)) as [packet x|e x|]; [| |done]; destruct Hl as [_ Hsv].
  2:{ eapply (Hclosed [] 1%nat []); simpl; try done; [by rewrite app_nil_r|apply sb_more; constructor]. }
  specialize (Hclosed packet). destruct (length packet =? 0)%nat eqn:E.
  { eapply (Hclosed 0%nat []); simpl; try done; [by rewrite app_nil_r|]. apply sb_nil. }
  eapply wp_mono; [apply send_sends| |]; cbv beta; simpl.
  - intros _ c' (w' & -> & Hs' & Hg' & _). eapply (Hclosed 0%nat [(dc_remote c, packet)]); simpl; try done; [by rewrite Hs', Hs|by rewrite Hg'| |].
    + apply sb_whole, sb_nil.
    + by constructor.
  - intros _ c' (w' & cut & -> & Hs' & Hg' & _ & Hcut). eapply (Hclosed 1%nat cut); simpl; try done; [by rewrite Hs', Hs|by rewrite Hg'| |].
    + destruct Hcut as [->|(q & -> & Hq)]; simpl; [apply sb_refused|apply sb_cut; [done|]]; constructor.
    + destruct Hcut as [->|(q & -> & Hq)]; by repeat constructor.
Qed.

Lemma guarded_tracked ds n c c' : tracked ds n (set_pumping true c) c' -> tracked ds n c (set_pumping false c').
Proof. intros [(tr & new & Hr) Hsv]. split; [|done]. by exists tr, new. Qed.

(** A reader touches nothing but the queues. *)
Lemma take_tracked {A} id (pick : list V -> option A * list V) c : tracked [] 0 c (take_from id pick c).2.
Proof.
  assert (forall b, tracked [] 0 c (set_buffers b c)) as Hb.
  { intros b. split; [|done]. exists [], []. rewrite app_nil_r. split_and!; try done; [by apply nothing_heard|constructor]. }
  unfold take_from. destruct (dc_buffers c !! id) as [[|e q]|]; try apply tracked_refl. destruct (pick (e :: q)). apply Hb.
Qed.

Lemma reader_tracks {A} fuel id (pick : list V -> option A * list V) io c :
  (dg_patience (dc_world c) < fuel)%nat ->
  wp (guarded (pump_for fuel (take_from id pick) io)) c (fun _ => tracked [] 0 c) (fun _ => tracked [] 1 c).
Proof.
  intros Hf. apply wp_guarded; [intros _; apply tracked_more, tracked_refl|]. intros _. set (c0 := set_pumping true c).
  cut (wp (pump_for fuel (take_from id pick) io) c0 (fun _ => tracked [] 0 c0) (fun _ => tracked [] 1 c0)).
  { intros H. eapply wp_mono; [exact H| |]; cbv beta; intros; by apply guarded_tracked. }
  apply (iter_wp _ (tracked [] 0 c0) (fun c => dg_patience (dc_world c))); [|apply tracked_refl|done].
  intros c1 H1. unfold wp. pose proof (take_tracked id pick c1) as Ht.
  assert (dc_world (take_from id pick c1).2 = dc_world c1) as Hw.
  { unfold take_from. destruct (dc_buffers c1 !! id) as [[|e q]|]; try done. by destruct (pick (e :: q)). }
  destruct (take_from id pick c1) as [[a|] c2]; simpl in *; pose proof (tracked_app [] [] 0 0 _ _ _ H1 Ht) as H2.
  - pose proof (runs_tracks _ (flush_runs io) c2) as Hfl. unfold wp, out_bind in *.
    destruct (dg_flush io c2) as [[] c3|e c3|]; [| |done]; simpl;
      [by apply (tracked_app [] [] 0 0 _ c2)|by apply (tracked_app [] [] 0 1 _ c2)].
  - pose proof (do_pump_runs io c2) as Hd. unfold wp, out_bind in *.
    destruct (do_pump io c2) as [[] c3|e c3|]; [| |done].
    + destruct Hd as [Hd1 Hd2]. rewrite Hw in Hd2. split; [|done]. by apply (tracked_app [] [] 0 0 _ c2), (well_tracked []).
    + apply (tracked_app [] [] 0 1 _ c2); [done|]. by eapply short_tracked.
Qed.
End Pump.

(** ** A concrete transport *)

(** What will come in ([None] for a wait in which nothing does), the clock, the
    datagrams that can still go out, and those that did. *)
Record Net := mk_net {
  n_script : list (option (bytes * Endpoint));
  n_clock : Z;
  n_room : nat;
  n_sent : list (Endpoint * bytes);
  n_got : list (bytes * Endpoint);
}.

Definition net_send (data : bytes) (peer : Endpoint) (io : IoOptions) (w : Net) : Result nat * Net :=
  match n_room w with
  | O => (fail Errc.timed_out, w)
  | S room => (Ok (length data), mk_net (n_script w) (n_clock w) room (n_sent w ++ [(peer, data)]) (n_got w))
  end.

(** Silence lasts until the deadline; without one the wait is given up at last. *)
Definition net_receive (n : nat) (io : IoOptions) (w : Net) : Result (bytes * Endpoint) * Net :=
  match n_script w with
  | [] => (fail Errc.cancelled, w)
  | Some (data, peer) :: rest => (Ok (take n data, peer), mk_net rest (n_clock w) (n_room w) (n_sent w) (n_got w ++ [(take n data, peer)]))
  | None :: rest =>
      match io_deadline io with
      | Some d => (fail Errc.timed_out, mk_net rest (Z.max d (n_clock w)) (n_room w) (n_sent w) (n_got w))
      | None => (fail Errc.cancelled, w)
      end
  end.

#[export] Instance net_transport : DatagramTransport Net := {|
  send_to := net_send;
  receive_from := net_receive;
  dg_now := fun w => (n_clock w, mk_net (n_script w) (n_clock w + 1) (n_room w) (n_sent w) (n_got w));
|}.

#[export] Instance net_laws : TransportLaws Net.
Proof.
  refine {| dg_sent := n_sent; dg_received := n_got; dg_patience := fun w => length (n_script w) |}; simpl; [| |done].
  - intros data peer io w. unfold net_send. destruct (n_room w); simpl; [done|]. by rewrite firstn_all.
  - intros n io w. unfold net_receive. destruct (n_script w) as [|[[data peer]|] rest] eqn:E; simpl; rewrite ?E; simpl.
    + by rewrite app_nil_r.
    + split_and!; [done|done|lia].
    + destruct (io_deadline io); simpl; rewrite ?E, ?app_nil_r; simpl; split_and!; done || lia.
Defined.

(** A network that will deliver [script]. *)
Definition net (script : list (option (bytes * Endpoint))) : Net := mk_net script 1 (N.to_nat 1000) [] [].
