(* ===== verification/Quic.v ===== *)
(** * Quic: the QUIC engine (quic/include/mira/quic/engine.hpp, quic/src/engine.cpp)

    [Engine] is a state machine without sockets: datagrams in, datagrams out, a
    monotonic clock.  Packets, loss recovery and cryptography are ngtcp2's, a
    parameter here ([Ngtcp2]); the engine keeps the application's bytes until they
    are acknowledged, the events the application has not taken, and the budgets of
    both.  The library calls back while it works: a [Run] is such a call, each
    callback answered by the engine before the library goes on.  [QuicInv] has the
    budgets, [QuicStreams] what happens to the bytes of a stream, [QuicConnection]
    the engine on a datagram transport. *)

From stdpp Require Import gmap sorting.
From S2P Require Import Prelude Errors Endpoint.

Local Open Scope Z_scope.
Local Open Scope mira_scope.

(** ** Data *)

(** The engine's own error codes, away from those of ngtcp2. *)
Definition quic_invalid : Z := -100000.
Definition quic_budget : Z := -100001.

(** [quic_error(code)] *)
Definition quic_error (code : Z) : Error := mk_error code quic_category.

(** [quic::Options], without the file names that only configure TLS. *)
Record QuicOptions := mk_quic_options {
  qo_server : bool;
  qo_local : Endpoint;
  qo_remote : Endpoint;
  qo_peer_name : bytes;
  qo_alpn : bytes;
  qo_max_buffered_bytes : Z;
  qo_max_streams : Z;
  qo_idle_timeout_ns : Z;
}.

Module QKind.
Inductive t :=
| data
| acknowledged
| reset
| closed.
End QKind.

#[export] Instance qkind_eq_dec : EqDecision QKind.t.
Proof. solve_decision. Defined.

(** [quic::Event] *)
Record QEvent := mk_qevent {
  qe_kind : QKind.t;
  qe_stream : Z;
  qe_data : bytes;
  qe_value : Z;
  qe_fin : bool;
}.

(** [Impl::Chunk]: a piece of the application's data, kept until acknowledged. *)
Record Chunk := mk_chunk {
  c_bytes : bytes;
  c_start : Z;
  c_sent : nat;
  c_fin : bool;
  c_submitted : bool;
}.

(** [Impl::Stream] *)
Record QStream := mk_qstream {
  st_chunks : list Chunk;
  st_end : Z;
  st_unread : Z;
  st_fin : bool;
  st_cancelled : bool;
  st_closed : bool;
}.

(** The most events, and the most chunks of a stream, that wait. *)
Definition queue_limit : nat := 4096.
Arguments queue_limit : simpl never.

Definition new_qstream : QStream := mk_qstream [] 0 0 false false false.

Definition set_chunks (q : list Chunk) (st : QStream) : QStream :=
  mk_qstream q (st_end st) (st_unread st) (st_fin st) (st_cancelled st) (st_closed st).
Definition set_unread (n : Z) (st : QStream) : QStream :=
  mk_qstream (st_chunks st) (st_end st) n (st_fin st) (st_cancelled st) (st_closed st).
Definition set_cancelled (st : QStream) : QStream :=
  mk_qstream (st_chunks st) (st_end st) (st_unread st) (st_fin st) true (st_closed st).
Definition set_stream_closed (st : QStream) : QStream :=
  mk_qstream (st_chunks st) (st_end st) (st_unread st) (st_fin st) (st_cancelled st) true.

(** ** The library *)

(** The callbacks the engine registers, with the arguments it looks at. *)
Inductive QCallback :=
| cb_stream_data (fin : bool) (id : Z) (data : bytes)
| cb_acked (id offset size : Z)
| cb_stream_close (id code : Z)
| cb_stream_reset (id code : Z)
| cb_remote_limit (limit : Z).

(** A call of the library: the callbacks it makes, each with the library's state
    at that point, and what it finally returns. *)
Inductive Run (T R : Type) :=
| run_returns (r : R) (t : T)
| run_calls (c : QCallback) (t : T) (k : Z -> T -> Run T R).
Arguments run_returns {T R} r t.
Arguments run_calls {T R} c t k.

(** The result of writing a packet: the return value, how much of the stream's
    data it holds ([*pdatalen]), and the packet. *)
Record Written := mk_written { w_n : Z; w_used : Z; w_packet : bytes }.

(** ngtcp2, with the connection it keeps in [T].  [tcp_alpn] is the protocol its
    TLS session negotiated. *)
Class Ngtcp2 (T : Type) := {
  NGTCP2_ERR_STREAM_DATA_BLOCKED : Z;
  NGTCP2_ERR_STREAM_SHUT_WR : Z;
  NGTCP2_ERR_STREAM_NOT_FOUND : Z;
  NGTCP2_ERR_DRAINING : Z;
  NGTCP2_ERR_CALLBACK_FAILURE : Z;
  tcp_read_pkt : bytes -> Z -> T -> Run T Z;
  tcp_writev_stream : bool -> Z -> bytes -> Z -> T -> Run T Written;
  tcp_write_pkt : Z -> T -> Run T Written;
  tcp_handle_expiry : Z -> T -> Run T Z;
  tcp_update_tx_time : Z -> T -> T;
  tcp_expiry : T -> Z;
  tcp_handshake_completed : T -> bool;
  tcp_alpn : T -> bytes;
  tcp_open_stream : bool -> T -> Z * Z * T;
  tcp_extend_max_stream_offset : Z -> Z -> T -> Z * T;
  tcp_extend_max_offset : Z -> T -> T;
  tcp_extend_max_streams : bool -> T -> T;
  tcp_is_local_stream : Z -> T -> bool;
  tcp_is_bidi_stream : Z -> bool;
  tcp_shutdown_stream : Z -> Z -> T -> Z * T;
  tcp_write_connection_close : Z -> Z -> T -> Written * T;
}.

(** ** The engine *)

Section Engine.
Context {T : Type} `{Ngtcp2 T}.

(** [Engine::Impl] *)
Record QImpl := mk_qimpl {
  q_conn : T;
  q_options : QuicOptions;
  q_failed : bool;
  q_ended : bool;
  q_clock : Z;
  q_buffered : Z;
  q_received : Z;
  q_remote_bidi_limit : Z;
  q_events : list QEvent;
  q_streams : gmap Z QStream;
}.

Definition set_conn (t : T) (s : QImpl) : QImpl :=
  mk_qimpl t (q_options s) (q_failed s) (q_ended s) (q_clock s) (q_buffered s) (q_received s)
    (q_remote_bidi_limit s) (q_events s) (q_streams s).
Definition set_failed (s : QImpl) : QImpl :=
  mk_qimpl (q_conn s) (q_options s) true (q_ended s) (q_clock s) (q_buffered s) (q_received s)
    (q_remote_bidi_limit s) (q_events s) (q_streams s).
Definition set_ended (s : QImpl) : QImpl :=
  mk_qimpl (q_conn s) (q_options s) (q_failed s) true (q_clock s) (q_buffered s) (q_received s)
    (q_remote_bidi_limit s) (q_events s) (q_streams s).
Definition set_clock (now : Z) (s : QImpl) : QImpl :=
  mk_qimpl (q_conn s) (q_options s) (q_failed s) (q_ended s) now (q_buffered s) (q_received s)
    (q_remote_bidi_limit s) (q_events s) (q_streams s).
Definition set_buffered (n : Z) (s : QImpl) : QImpl :=
  mk_qimpl (q_conn s) (q_options s) (q_failed s) (q_ended s) (q_clock s) n (q_received s)
    (q_remote_bidi_limit s) (q_events s) (q_streams s).
Definition set_received (n : Z) (s : QImpl) : QImpl :=
  mk_qimpl (q_conn s) (q_options s) (q_failed s) (q_ended s) (q_clock s) (q_buffered s) n
    (q_remote_bidi_limit s) (q_events s) (q_streams s).
Definition set_remote_limit (n : Z) (s : QImpl) : QImpl :=
  mk_qimpl (q_conn s) (q_options s) (q_failed s) (q_ended s) (q_clock s) (q_buffered s) (q_received s)
    n (q_events s) (q_streams s).
Definition set_events (es : list QEvent) (s : QImpl) : QImpl :=
  mk_qimpl (q_conn s) (q_options s) (q_failed s) (q_ended s) (q_clock s) (q_buffered s) (q_received s)
    (q_remote_bidi_limit s) es (q_streams s).
Definition set_streams (m : gmap Z QStream) (s : QImpl) : QImpl :=
  mk_qimpl (q_conn s) (q_options s) (q_failed s) (q_ended s) (q_clock s) (q_buffered s) (q_received s)
    (q_remote_bidi_limit s) (q_events s) m.

Definition put_stream (id : Z) (st : QStream) (s : QImpl) : QImpl :=
  set_streams (<[id := st]> (q_streams s)) s.
Definition erase_stream (id : Z) (s : QImpl) : QImpl := set_streams (delete id (q_streams s)) s.

(** A call of the library that makes no callbacks. *)
Definition tcp_do (f : T -> T) (s : QImpl) : QImpl := set_conn (f (q_conn s)) s.

(** [capacity()] *)
Definition capacity (s : QImpl) : bool :=
  Z.of_nat (size (q_streams s)) <? qo_max_streams (q_options s) * 2 + 8.

(** [if (s.events.size() >= 4096) return NGTCP2_ERR_CALLBACK_FAILURE; push_back] *)
Definition push_event (e : QEvent) (s : QImpl) : Z * QImpl :=
  if (queue_limit <=? length (q_events s))%nat then (NGTCP2_ERR_CALLBACK_FAILURE, s)
  else (0, set_events (q_events s ++ [e]) s).

(** ** The callbacks *)

(** [receive_data] *)
Definition on_stream_data (fin : bool) (id : Z) (data : bytes) (s : QImpl) : Z * QImpl :=
  if (wrap64 (qo_max_buffered_bytes (q_options s) - q_received s) <? len data) ||
     (bool_decide (q_streams s !! id = None) && negb (capacity s)) ||
     (queue_limit <=? length (q_events s))%nat
  then (NGTCP2_ERR_CALLBACK_FAILURE, s)
  else
    let st := default new_qstream (q_streams s !! id) in
    let s := put_stream id (set_unread (st_unread st + len data) st) s in
    let s := set_received (q_received s + len data) s in
    (0, set_events (q_events s ++ [mk_qevent QKind.data id data 0 fin]) s).

(** The [while] of [acknowledged]: the chunks left, and [buffered] less those gone. *)
Fixpoint release_acked (upto : Z) (q : list Chunk) (buffered : Z) : list Chunk * Z :=
  match q with
  | [] => ([], buffered)
  | c :: rest =>
      if c_submitted c && (c_start c + len (c_bytes c) <=? upto)
      then release_acked upto rest (wrap64 (buffered - len (c_bytes c)))
      else (q, buffered)
  end.

(** [acknowledged] *)
Definition on_acked (id offset size : Z) (s : QImpl) : Z * QImpl :=
  let s := match q_streams s !! id with
           | None => s
           | Some st =>
               let '(q, b) := release_acked (offset + size) (st_chunks st) (q_buffered s) in
               set_buffered b (put_stream id (set_chunks q st) s)
           end in
  push_event (mk_qevent QKind.acknowledged id [] size false) s.

(** [for (auto& c : chunks) s.buffered -= c.bytes.size();] *)
Definition drop_chunks (q : list Chunk) (buffered : Z) : Z :=
  foldl (fun b c => wrap64 (b - len (c_bytes c))) buffered q.

(** Give a peer the credit for a new stream, once one of its streams is gone. *)
Definition return_stream_credit (id : Z) (s : QImpl) : QImpl :=
  if tcp_is_local_stream id (q_conn s) then s
  else tcp_do (tcp_extend_max_streams (tcp_is_bidi_stream id)) s.

(** [stream_close] *)
Definition on_stream_close (id code : Z) (s : QImpl) : Z * QImpl :=
  let '(released, s) :=
    match q_streams s !! id with
    | None => (true, s)
    | Some st =>
        let s := set_buffered (drop_chunks (st_chunks st) (q_buffered s)) s in
        let st := set_stream_closed (set_chunks [] st) in
        if st_unread st =? 0 then (true, erase_stream id s) else (false, put_stream id st s)
    end in
  let s := if released : bool then return_stream_credit id s else s in
  push_event (mk_qevent QKind.closed id [] code false) s.

(** [reset] *)
Definition on_stream_reset (id code : Z) (s : QImpl) : Z * QImpl :=
  push_event (mk_qevent QKind.reset id [] code false) s.

Definition handle_quic (c : QCallback) (s : QImpl) : Z * QImpl :=
  match c with
  | cb_stream_data fin id data => on_stream_data fin id data s
  | cb_acked id offset size => on_acked id offset size s
  | cb_stream_close id code => on_stream_close id code s
  | cb_stream_reset id code => on_stream_reset id code s
  | cb_remote_limit limit => (0, set_remote_limit limit s)
  end.

(** A call of the library with its callbacks. *)
Fixpoint serve {R} (r : Run T R) (s : QImpl) : R * QImpl :=
  match r with
  | run_returns x t => (x, set_conn t s)
  | run_calls c t k =>
      let '(rc, s) := handle_quic c (set_conn t s) in serve (k rc (q_conn s)) s
  end.

(** [select_alpn]: the server's choice among the names a client lists. *)
Fixpoint select_alpn_from (fuel : nat) (protocol list : bytes) : option bytes :=
  match fuel, list with
  | S fuel, b :: rest =>
      let n := Z.to_nat (code b) in
      if (length rest <? n)%nat then None
      else if bytes_eqb (take n rest) protocol then Some (take n rest)
      else select_alpn_from fuel protocol (drop n rest)
  | _, _ => None
  end.

Definition select_alpn (protocol list : bytes) : option bytes :=
  select_alpn_from (length list) protocol list.

(** ** The operations *)

Definition Q (A : Type) : Type := QImpl -> Outcome Error QImpl A.

Definition invalid {A} : Q A := out_fail (quic_error quic_invalid).

(** [if (s.failed || s.ended || !s.time(now)) return invalid;] *)
Definition check_time (now : Z) : Q unit := fun s =>
  if q_failed s || q_ended s || (now <? q_clock s) then invalid s else Returns tt (set_clock now s).

(** [s.failed = true; return std::unexpected(quic_error(code));] *)
Definition fail_engine {A} (code : Z) : Q A := fun s => Fails (quic_error code) (set_failed s).

(** [Engine::receive] *)
Definition quic_receive (packet : bytes) (now : Z) : Q unit :=
  check_time now ;;;
  fun s =>
    let '(rv, s) := serve (tcp_read_pkt packet now (q_conn s)) s in
    if rv =? NGTCP2_ERR_DRAINING then Returns tt (set_ended s)
    else if negb (rv =? 0) then fail_engine rv s
    else Returns tt s.

(** What follows [ngtcp2_conn_writev_stream] on chunk [i] of stream [id]: [Some]
    when a packet is returned, [None] to go on with the next stream. *)
Definition poll_chunk (now id : Z) (i : nat) (c : Chunk) : Q (option bytes) := fun s =>
  let '(w, s) := serve (tcp_writev_stream (c_fin c) id (drop (c_sent c) (c_bytes c)) now (q_conn s)) s in
  if (w_n w =? NGTCP2_ERR_STREAM_DATA_BLOCKED) || (w_n w =? NGTCP2_ERR_STREAM_SHUT_WR) ||
     (w_n w =? NGTCP2_ERR_STREAM_NOT_FOUND)
  then Returns None s
  else if w_n w <? 0 then fail_engine (w_n w) s
  else
    let sent := (c_sent c + Z.to_nat (w_used w))%nat in
    let c := if 0 <=? w_used w
             then mk_chunk (c_bytes c) (c_start c) sent (c_fin c) (sent =? length (c_bytes c))%nat
             else c in
    let s := match q_streams s !! id with
             | Some st => put_stream id (set_chunks (<[i := c]> (st_chunks st)) st) s
             | None => s
             end in
    if 0 <? w_n w then Returns (Some (w_packet w)) (tcp_do (tcp_update_tx_time now) s)
    else Returns None s.

(** [for (auto& chunk : stream.chunks)]: every way out of the body leaves the
    loop, except [continue] for a chunk that was submitted. *)
Fixpoint poll_chunks (now id : Z) (i : nat) (q : list Chunk) : Q (option bytes) :=
  match q with
  | [] => out_ret None
  | c :: rest => if c_submitted c then poll_chunks now id (S i) rest else poll_chunk now id i c
  end.

(** [for (auto& [id, stream] : s.streams)] *)
Fixpoint poll_streams (now : Z) (uni : bool) (ids : list Z) : Q (option bytes) := fun s =>
  match ids with
  | [] => Returns None s
  | id :: rest =>
      match q_streams s !! id with
      | None => poll_streams now uni rest s
      | Some st =>
          if st_cancelled st || negb (Bool.eqb (negb (Z.land id 2 =? 0)) uni)
          then poll_streams now uni rest s
          else match poll_chunks now id 0 (st_chunks st) s with
               | Returns None s => poll_streams now uni rest s
               | r => r
               end
      end
  end.

(** The ids of the streams in the order of the map. *)
Definition stream_ids (s : QImpl) : list Z := merge_sort Z.le (elements (dom (q_streams s))).

(** The call after the loops. *)
Definition poll_rest (now : Z) : Q bytes := fun s =>
  let '(w, s) := serve (tcp_write_pkt now (q_conn s)) s in
  if w_n w <? 0 then fail_engine (w_n w) s
  else Returns (w_packet w) (if w_n w =? 0 then s else tcp_do (tcp_update_tx_time now) s).

(** [Engine::poll] *)
Definition quic_poll (now : Z) : Q bytes :=
  check_time now ;;;
  let! first := (fun s => poll_streams now true (stream_ids s) s) in
  match first with
  | Some packet => out_ret packet
  | None =>
      let! second := (fun s => poll_streams now false (stream_ids s) s) in
      match second with
      | Some packet => out_ret packet
      | None => poll_rest now
      end
  end.

(** [Engine::handle_expiry] *)
Definition quic_handle_expiry (now : Z) : Q unit :=
  check_time now ;;;
  fun s =>
    let '(rv, s) := serve (tcp_handle_expiry now (q_conn s)) s in
    if negb (rv =? 0) then fail_engine rv s else Returns tt s.

(** The accessors. *)
Definition quic_expiry (s : QImpl) : Z := tcp_expiry (q_conn s).
Definition quic_handshake_complete (s : QImpl) : bool :=
  negb (q_failed s) && tcp_handshake_completed (q_conn s).
Definition quic_is_server (s : QImpl) : bool := qo_server (q_options s).
Definition quic_write_capacity (s : QImpl) : Z :=
  if q_failed s || q_ended s then 0 else wrap64 (qo_max_buffered_bytes (q_options s) - q_buffered s).
Definition quic_closed (s : QImpl) : bool := q_ended s || q_failed s.
Definition quic_negotiated_protocol (s : QImpl) : bytes := tcp_alpn (q_conn s).

(** [Engine::open_stream] *)
Definition quic_open_stream (uni : bool) : Q Z := fun s =>
  if q_failed s || q_ended s || negb (quic_handshake_complete s) then invalid s
  else if negb (capacity s) then Fails (quic_error quic_budget) s
  else
    let '(rv, id, t) := tcp_open_stream uni (q_conn s) in
    let s := set_conn t s in
    if negb (rv =? 0) then Fails (quic_error rv) s
    else Returns id (match q_streams s !! id with
                     | Some _ => s
                     | None => put_stream id new_qstream s
                     end).

(** [Engine::write] *)
Definition quic_write (id : Z) (data : bytes) (fin : bool) : Q unit := fun s =>
  match q_streams s !! id with
  | None => invalid s
  | Some st =>
      if q_failed s || q_ended s || st_fin st || st_cancelled st then invalid s
      else if (wrap64 (qo_max_buffered_bytes (q_options s) - q_buffered s) <? len data) ||
              (queue_limit <=? length (st_chunks st))%nat
      then Fails (quic_error quic_budget) s
      else if (length data =? 0)%nat && negb fin then Returns tt s
      else
        let st := mk_qstream (st_chunks st ++ [mk_chunk data (st_end st) 0 fin false])
                    (st_end st + len data) (st_unread st) fin (st_cancelled st) (st_closed st) in
        Returns tt (set_buffered (q_buffered s + len data) (put_stream id st s))
  end.

(** [Engine::take_events] *)
Definition quic_take_events (s : QImpl) : list QEvent * QImpl := (q_events s, set_events [] s).

(** [Engine::consume] *)
Definition quic_consume (id n : Z) : Q unit := fun s =>
  match q_streams s !! id with
  | None => invalid s
  | Some st =>
      if st_unread st <? n then invalid s
      else
        let '(rv, t) := tcp_extend_max_stream_offset id n (q_conn s) in
        let s := set_conn t s in
        if negb (rv =? 0) && negb (rv =? NGTCP2_ERR_STREAM_NOT_FOUND) then Fails (quic_error rv) s
        else
          let s := tcp_do (tcp_extend_max_offset n) s in
          let st := set_unread (wrap64 (st_unread st - n)) st in
          let s := set_received (wrap64 (q_received s - n)) (put_stream id st s) in
          Returns tt (if st_closed st && (st_unread st =? 0)
                      then erase_stream id (return_stream_credit id s) else s)
  end.

(** [Engine::cancel] *)
Definition quic_cancel (id code : Z) : Q unit := fun s =>
  if (id <? 0) || (2 ^ 62 <=? code) then invalid s
  else if q_failed s || q_ended s then invalid s
  else
    let '(rv, t) := tcp_shutdown_stream id code (q_conn s) in
    let s := set_conn t s in
    if negb (rv =? 0) then Fails (quic_error rv) s
    else Returns tt (match q_streams s !! id with
                     | Some st => put_stream id (set_cancelled st) s
                     | None => s
                     end).

(** [Engine::close] *)
Definition quic_close (code now : Z) : Q bytes := fun s =>
  if 2 ^ 62 <=? code then invalid s
  else if q_ended s || (now <? q_clock s) then invalid s
  else
    let s := set_clock now s in
    let '(w, t) := tcp_write_connection_close code now (q_conn s) in
    let s := set_conn t s in
    if w_n w <? 0 then Fails (quic_error (w_n w)) s
    else Returns (w_packet w) (set_ended s).

(** The argument checks of [create], and the state it starts from. *)
Definition NUL : byte := x00.

Definition quic_options_ok (o : QuicOptions) : bool :=
  negb ((length (address_bytes (qo_local o)) =? 0)%nat || (length (address_bytes (qo_remote o)) =? 0)%nat ||
        (length (qo_alpn o) =? 0)%nat || (255 <? length (qo_alpn o))%nat ||
        bool_decide (is_Some (find NUL (qo_alpn o))) || (qo_max_streams o =? 0) ||
        (4096 <? qo_max_streams o) || (qo_max_buffered_bytes o <? 4096) ||
        (64 * 1024 * 1024 <? qo_max_buffered_bytes o) ||
        (negb (qo_server o) &&
         ((length (qo_peer_name o) =? 0)%nat || bool_decide (is_Some (find NUL (qo_peer_name o)))))).

Definition new_engine (o : QuicOptions) (now : Z) (t : T) : QImpl :=
  mk_qimpl t o false false now 0 0 (qo_max_streams o) [] ∅.

(** [create]: [setup] is the configuration of ngtcp2 and TLS with these options, which
    may fail; a server is fed the first datagram at once. *)
Definition quic_create (setup : QuicOptions -> bytes -> Z -> Result T) (o : QuicOptions) (initial : bytes) (now : Z)
    : Result QImpl :=
  if negb (quic_options_ok o) then Fail (quic_error quic_invalid)
  else match setup o initial now with
       | Fail e => Fail e
       | Ok t =>
           let s := new_engine o now t in
           if qo_server o then
             match quic_receive initial now s with
             | Returns _ s => Ok s
             | Fails e _ => Fail e
             | OutOfFuel => Fail no_error
             end
           else Ok s
       end.

Definition with_role (server : bool) (o : QuicOptions) : QuicOptions :=
  mk_quic_options server (qo_local o) (qo_remote o) (qo_peer_name o) (qo_alpn o) (qo_max_buffered_bytes o)
    (qo_max_streams o) (qo_idle_timeout_ns o).

(** [Engine::client], [Engine::accept] *)
Definition quic_client (setup : QuicOptions -> bytes -> Z -> Result T) (o : QuicOptions) (now : Z) : Result QImpl :=
  quic_create setup (with_role false o) [] now.
Definition quic_accept (setup : QuicOptions -> bytes -> Z -> Result T) (o : QuicOptions) (initial : bytes) (now : Z)
    : Result QImpl := quic_create setup (with_role true o) initial now.
End Engine.
Arguments QImpl T : clear implicits.
Arguments Q T A : clear implicits.
