(* ===== verification/QuicLaws.v ===== *)
(** * QuicLaws: what the QUIC engine relies on in ngtcp2

    [View] is what can be observed of the library: the stream bytes it has
    accepted, what it has reported as acknowledged and closed, and the credit it
    was given.  [Ngtcp2Laws] says how each call moves the view, as the library's
    manual describes it; [toy_quic] is a library that keeps the laws and runs. *)

From stdpp Require Import gmap.
From S2P Require Import Prelude Quic.

Local Open Scope Z_scope.

(** ** What can be observed *)

Record View := mk_view {
  v_taken : gmap Z bytes;
  v_fin : gset Z;
  v_acked : gmap Z Z;
  v_gone : gset Z;
  v_unpaid : Z;
  v_credit_bidi : Z;
  v_credit_uni : Z;
  v_local : Z -> bool;
}.

(** The bytes of a stream the library took, and how many were acknowledged. *)
Definition taken (v : View) (id : Z) : bytes := default [] (v_taken v !! id).
Definition acked (v : View) (id : Z) : Z := default 0 (v_acked v !! id).

Definition view_take (id : Z) (data : bytes) (fin : bool) (v : View) : View :=
  mk_view (<[id := taken v id ++ data]> (v_taken v)) (if fin then {[id]} ∪ v_fin v else v_fin v)
    (v_acked v) (v_gone v) (v_unpaid v) (v_credit_bidi v) (v_credit_uni v) (v_local v).
Definition view_ack (id upto : Z) (v : View) : View :=
  mk_view (v_taken v) (v_fin v) (<[id := upto]> (v_acked v)) (v_gone v) (v_unpaid v) (v_credit_bidi v)
    (v_credit_uni v) (v_local v).
Definition view_close (id : Z) (v : View) : View :=
  mk_view (v_taken v) (v_fin v) (v_acked v) ({[id]} ∪ v_gone v) (v_unpaid v) (v_credit_bidi v)
    (v_credit_uni v) (v_local v).
Definition view_deliver (n : Z) (v : View) : View :=
  mk_view (v_taken v) (v_fin v) (v_acked v) (v_gone v) (v_unpaid v + n) (v_credit_bidi v)
    (v_credit_uni v) (v_local v).
Definition view_credit (bidi : bool) (v : View) : View :=
  mk_view (v_taken v) (v_fin v) (v_acked v) (v_gone v) (v_unpaid v)
    (v_credit_bidi v + if bidi then 1 else 0) (v_credit_uni v + if bidi then 0 else 1) (v_local v).

(** The view once a callback is being made. *)
Definition view_after (c : QCallback) (v : View) : View :=
  match c with
  | cb_stream_data _ _ data => view_deliver (len data) v
  | cb_acked id offset size => view_ack id (offset + size) v
  | cb_stream_close id _ => view_close id v
  | _ => v
  end.

(** When a callback can be made: no data and no second end for a closed stream,
    and acknowledgements in increasing order, without overlap, of data sent. *)
Definition callback_ok (c : QCallback) (v : View) : bool :=
  match c with
  | cb_stream_data _ id _ => bool_decide (id ∉ v_gone v)
  | cb_acked id offset size =>
      (offset =? acked v id) && (0 <=? size) && (offset + size <=? len (taken v id))
  | cb_stream_close id _ => bool_decide (id ∉ v_gone v)
  | _ => true
  end.

(** ** The laws *)

Section Lawful.
Context {T : Type} (view : T -> View).

(** A run that reports nothing but a new stream limit: stream data, acknowledgements
    and closed streams are reported when packets are read. *)
Fixpoint writes_only {R} (r : Run T R) : Prop :=
  match r with
  | run_returns _ _ => True
  | run_calls c t k => (exists limit, c = cb_remote_limit limit) /\ forall rc t', writes_only (k rc t')
  end.

(** A run started at view [v]: callbacks only when they can be made, [post] between
    the view after the last of them and the one at the end; [refused] records that
    a callback was answered with an error. *)
Fixpoint lawful {R} (post : bool -> View -> R -> View -> Prop) (refused : bool) (v : View) (r : Run T R) : Prop :=
  match r with
  | run_returns x t => post refused v x (view t)
  | run_calls c t k =>
      callback_ok c v = true /\ view t = view_after c v /\
      forall rc t', lawful post (refused || negb (rc =? 0)) (view t') (k rc t')
  end.
End Lawful.

(** Writing is all the library does when it is asked for packets. *)
Class Ngtcp2Writes (T : Type) `{Ngtcp2 T} := {
  writev_writes : forall fin id data now t, writes_only (tcp_writev_stream fin id data now t);
  write_pkt_writes : forall now t, writes_only (tcp_write_pkt now t);
}.

Class Ngtcp2Laws (T : Type) `{Ngtcp2 T} := {
  tcp_view : T -> View;
  laws_write :: Ngtcp2Writes T;
  failure_law : NGTCP2_ERR_CALLBACK_FAILURE <> 0;
  codes_law : NGTCP2_ERR_STREAM_DATA_BLOCKED < 0 /\ NGTCP2_ERR_STREAM_SHUT_WR < 0 /\
    NGTCP2_ERR_STREAM_NOT_FOUND < 0;
  (** Reading packets and serving timers: a refused callback makes the call fail. *)
  read_pkt_law : forall packet now t,
    lawful tcp_view (fun refused v rv v' => v' = v /\
        (refused = true -> rv <> 0 /\ rv <> NGTCP2_ERR_DRAINING)) false (tcp_view t) (tcp_read_pkt packet now t);
  expiry_law : forall now t,
    lawful tcp_view (fun refused v rv v' => v' = v /\ (refused = true -> rv <> 0)) false (tcp_view t)
      (tcp_handle_expiry now t);
  (** A packet holds a prefix of the data, the end of the stream only with all of
      it, and nothing of a closed stream. *)
  writev_law : forall fin id data now t,
    lawful tcp_view (fun _ v w v' =>
        if (0 <=? w_n w) && (0 <=? w_used w) then
          (id ∉ v_gone v) /\ w_used w <= len data /\
          v' = view_take id (take (Z.to_nat (w_used w)) data) (fin && (w_used w =? len data)) v
        else v' = v) false (tcp_view t) (tcp_writev_stream fin id data now t);
  write_pkt_law : forall now t, lawful tcp_view (fun _ v _ v' => v' = v) false (tcp_view t) (tcp_write_pkt now t);
  writev_size : forall fin id data now t,
    lawful tcp_view (fun _ _ w _ => 0 <= w_n w -> len (w_packet w) = w_n w /\ w_n w <= 1200) false (tcp_view t)
      (tcp_writev_stream fin id data now t);
  write_pkt_size : forall now t,
    lawful tcp_view (fun _ _ w _ => 0 <= w_n w -> len (w_packet w) = w_n w /\ w_n w <= 1200) false (tcp_view t)
      (tcp_write_pkt now t);
  open_law : forall uni t,
    let '(rv, id, t') := tcp_open_stream uni t in
    tcp_view t' = tcp_view t /\ (rv = 0 -> id ∉ v_gone (tcp_view t));
  extend_stream_offset_law : forall id n t, tcp_view (tcp_extend_max_stream_offset id n t).2 = tcp_view t;
  extend_offset_law : forall n t, tcp_view (tcp_extend_max_offset n t) = view_deliver (- n) (tcp_view t);
  extend_streams_law : forall bidi t, tcp_view (tcp_extend_max_streams bidi t) = view_credit bidi (tcp_view t);
  tx_time_law : forall now t, tcp_view (tcp_update_tx_time now t) = tcp_view t;
  shutdown_law : forall id code t, tcp_view (tcp_shutdown_stream id code t).2 = tcp_view t;
  close_law : forall code now t, tcp_view (tcp_write_connection_close code now t).2 = tcp_view t;
  local_law : forall id t, tcp_is_local_stream id t = v_local (tcp_view t) id;
}.

(** ** A concrete library *)

(** What the next packets will make it report, the counter of the streams it opens,
    its timer, and its view. *)
Record ToyQuic := mk_toy_quic {
  y_script : list (list QCallback);
  y_opened : Z;
  y_timer : Z;
  y_view : View;
}.

Definition toy_set_view (v : View) (t : ToyQuic) : ToyQuic := mk_toy_quic (y_script t) (y_opened t) (y_timer t) v.
Definition toy_set_timer (e : Z) (t : ToyQuic) : ToyQuic := mk_toy_quic (y_script t) (y_opened t) e (y_view t).

(** Report what can be reported; stop with an error when the engine refuses. *)
Fixpoint toy_play (cs : list QCallback) (t : ToyQuic) : Run ToyQuic Z :=
  match cs with
  | [] => run_returns 0 t
  | c :: cs =>
      if callback_ok c (y_view t)
      then run_calls c (toy_set_view (view_after c (y_view t)) t)
             (fun rc t' => if rc =? 0 then toy_play cs t' else run_returns (-502) t')
      else toy_play cs t
  end.

Definition toy_read (t : ToyQuic) : Run ToyQuic Z :=
  match y_script t with
  | [] => run_returns 0 t
  | cs :: rest => toy_play cs (mk_toy_quic rest (y_opened t) (y_timer t) (y_view t))
  end.

(** A packet has room for eight bytes of a stream, and one byte of its own. *)
Definition toy_writev (fin : bool) (id : Z) (data : bytes) (t : ToyQuic) : Run ToyQuic Written :=
  if bool_decide (id ∈ v_gone (y_view t)) then run_returns (mk_written (-220) (-1) []) t
  else
    let piece := take 8 data in
    run_returns (mk_written (len piece + 1) (len piece) (piece ++ [x51]))
      (toy_set_view (view_take id piece (fin && (len piece =? len data)) (y_view t)) t).

#[export] Instance toy_quic : Ngtcp2 ToyQuic := {
  NGTCP2_ERR_STREAM_DATA_BLOCKED := -208;
  NGTCP2_ERR_STREAM_SHUT_WR := -219;
  NGTCP2_ERR_STREAM_NOT_FOUND := -220;
  NGTCP2_ERR_DRAINING := -224;
  NGTCP2_ERR_CALLBACK_FAILURE := -502;
  tcp_read_pkt := fun _ _ => toy_read;
  tcp_writev_stream := fun fin id data _ => toy_writev fin id data;
  tcp_write_pkt := fun _ t => run_returns (mk_written 0 0 []) t;
  tcp_handle_expiry := fun _ t => run_returns 0 (toy_set_timer UINT64_MAX t);
  tcp_update_tx_time := fun _ t => t;
  tcp_expiry := y_timer;
  tcp_handshake_completed := fun _ => true;
  tcp_alpn := fun _ => lit "h3";
  tcp_open_stream := fun uni t =>
    let id := 4 * y_opened t + (if uni then 2 else 0) + (if v_local (y_view t) 0 then 0 else 1) in
    (if bool_decide (id ∈ v_gone (y_view t)) then -206 else 0, id,
     mk_toy_quic (y_script t) (y_opened t + 1) (y_timer t) (y_view t));
  tcp_extend_max_stream_offset := fun id n t => (0, t);
  tcp_extend_max_offset := fun n t => toy_set_view (view_deliver (- n) (y_view t)) t;
  tcp_extend_max_streams := fun bidi t => toy_set_view (view_credit bidi (y_view t)) t;
  tcp_is_local_stream := fun id t => v_local (y_view t) id;
  tcp_is_bidi_stream := fun id => Z.land id 2 =? 0;
  tcp_shutdown_stream := fun _ _ t => (0, t);
  tcp_write_connection_close := fun _ _ t => (mk_written 1 0 [x43], t);
}.

Lemma toy_play_lawful cs t :
  lawful y_view (fun refused v rv v' => v' = v /\ (refused = true -> rv = -502)) false (y_view t) (toy_play cs t).
Proof.
  revert t; induction cs as [|c cs IH]; intros t; simpl; [done|].
  destruct (callback_ok c (y_view t)) eqn:E; [|apply IH]. simpl. split_and!; [done|done|].
  intros rc t'. destruct (rc =? 0); simpl; [apply IH|done].
Qed.

(** Weakening what holds at the end of a run. *)
Lemma lawful_mono {T R} (view : T -> View) (P P' : bool -> View -> R -> View -> Prop) b v r :
  (forall b v x v', P b v x v' -> P' b v x v') -> lawful view P b v r -> lawful view P' b v r.
Proof.
  intros Hp. revert b v; induction r as [x t|c t k IH]; intros b v; simpl; [apply Hp|].
  intros (? & ? & Hk). split_and!; [done|done|]. intros rc t'. apply IH, Hk.
Qed.

#[export] Instance toy_quic_writes : Ngtcp2Writes ToyQuic.
Proof. split; simpl; intros; [|done]. unfold toy_writev. by case_match. Qed.

#[export] Instance toy_quic_laws : Ngtcp2Laws ToyQuic.
Proof.
  refine {| tcp_view := y_view |}; simpl; try done.
  - intros _ _ t. unfold toy_read. destruct (y_script t) as [|cs rest]; simpl; [done|].
    eapply lawful_mono, (toy_play_lawful cs (mk_toy_quic rest (y_opened t) (y_timer t) (y_view t))). intros b v x v' [-> Hb]. split; [done|]. intros ->. by rewrite Hb.
  - intros fin id data _ t. unfold toy_writev. case_bool_decide; simpl; [done|].
    pose proof (len_nonneg (take 8 data)). rewrite !(proj2 (Z.leb_le _ _)) by lia. simpl.
    split_and!; [done|unfold len; rewrite length_take; lia|].
    unfold len. rewrite Nat2Z.id, length_take. f_equal. destruct (Nat.le_ge_cases 8 (length data)).
    + by rewrite Nat.min_l.
    + by rewrite Nat.min_r, !take_ge.
  - intros fin id data _ t. unfold toy_writev. case_bool_decide; simpl; [lia|]. intros _. rewrite len_app.
    unfold len. rewrite length_take. change (length [x51]) with 1%nat. split; lia.
  - intros uni t. split; [done|]. case_bool_decide; done.
Defined.

(** A client whose library will report [script]. *)
Definition toy_client (script : list (list QCallback)) : ToyQuic :=
  mk_toy_quic script 0 UINT64_MAX (mk_view ∅ ∅ ∅ ∅ 0 0 0 (fun id => Z.land id 1 =? 0)).
Definition toy_server (script : list (list QCallback)) : ToyQuic :=
  mk_toy_quic script 0 UINT64_MAX (mk_view ∅ ∅ ∅ ∅ 0 0 0 (fun id => negb (Z.land id 1 =? 0))).
