(* ===== verification/QuicInv.v ===== *)
(** * QuicInv: the budgets of a QUIC engine

    What the engine keeps for the application is counted twice: in the tables and
    in the members [buffered], [received].  The counters agree with the tables and
    stay under the limits of the options, so that no subtraction of the source
    wraps; with one exception, an application that writes to a stream the peer has
    already closed ([closed_write_leaks]). *)

From stdpp Require Import gmap.
From S2P Require Import Prelude Sums Errors Endpoint Quic QuicLaws.

Local Open Scope Z_scope.
Local Open Scope mira_scope.

(** ** Operations as data *)

Inductive QOp :=
| qop_receive (packet : bytes) (now : Z)
| qop_poll (now : Z)
| qop_expiry (now : Z)
| qop_open (uni : bool)
| qop_write (id : Z) (data : bytes) (fin : bool)
| qop_take
| qop_consume (id n : Z)
| qop_cancel (id code : Z)
| qop_close (code now : Z).

(** The argument of [consume] is a [size_t]. *)
Definition qop_ok (o : QOp) : Prop := match o with qop_consume _ n => 0 <= n | _ => True end.

Section Budgets.
Context {T : Type} `{Ngtcp2 T}.
Implicit Type s : QImpl T.

Definition quic_op (o : QOp) (s : QImpl T) : QImpl T :=
  match o with
  | qop_receive packet now => after s (quic_receive packet now s)
  | qop_poll now => after s (quic_poll now s)
  | qop_expiry now => after s (quic_handle_expiry now s)
  | qop_open uni => after s (quic_open_stream uni s)
  | qop_write id data fin => after s (quic_write id data fin s)
  | qop_take => (quic_take_events s).2
  | qop_consume id n => after s (quic_consume id n s)
  | qop_cancel id code => after s (quic_cancel id code s)
  | qop_close code now => after s (quic_close code now s)
  end.

Definition quic_run (ops : list QOp) (s : QImpl T) : QImpl T := foldl (fun s o => quic_op o s) s ops.

(** Nothing is written to a stream that was closed. *)
Definition polite_op (o : QOp) s : Prop :=
  match o with
  | qop_write id _ _ => forall st, q_streams s !! id = Some st -> st_closed st = false
  | _ => True
  end.

Fixpoint polite (ops : list QOp) s : Prop :=
  match ops with
  | [] => True
  | o :: rest => polite_op o s /\ polite rest (quic_op o s)
  end.

(** ** The invariant *)

(** The bytes of a stream's chunks. *)
Definition chunks_size (q : list Chunk) : Z := foldr (fun c n => len (c_bytes c) + n) 0 q.
Definition held (st : QStream) : Z := chunks_size (st_chunks st).

(** [strict] holds of the runs in which no closed stream is written to. *)
Record quic_inv (strict : bool) s : Prop := mk_quic_inv {
  qi_streams_range : 0 < qo_max_streams (q_options s) <= 4096;
  qi_bytes_range : 4096 <= qo_max_buffered_bytes (q_options s) <= 64 * 1024 * 1024;
  qi_streams : Z.of_nat (size (q_streams s)) <= qo_max_streams (q_options s) * 2 + 8;
  qi_events : (length (q_events s) <= queue_limit)%nat;
  qi_chunks : forall id st, q_streams s !! id = Some st -> (length (st_chunks st) <= queue_limit)%nat;
  qi_unread : forall id st, q_streams s !! id = Some st -> 0 <= st_unread st;
  qi_received : q_received s = total st_unread (q_streams s);
  qi_received_max : q_received s <= qo_max_buffered_bytes (q_options s);
  qi_buffered : total held (q_streams s) <= q_buffered s;
  qi_buffered_max : q_buffered s <= qo_max_buffered_bytes (q_options s);
  qi_closed : forall id st, q_streams s !! id = Some st -> st_closed st = true ->
    0 < st_unread st /\ (strict = true -> st_chunks st = []);
  qi_exact : strict = true -> q_buffered s = total held (q_streams s);
}.

Lemma chunks_size_nonneg q : 0 <= chunks_size q.
Proof. induction q as [|c q IH]; simpl; [lia|]. pose proof (len_nonneg (c_bytes c)). lia. Qed.

Lemma chunks_size_app q q' : chunks_size (q ++ q') = chunks_size q + chunks_size q'.
Proof. induction q as [|c q IH]; simpl; [done|lia]. Qed.

Lemma held_nonneg st : 0 <= held st.
Proof. apply chunks_size_nonneg. Qed.

Lemma wrap64_exact z : 0 <= z < 2 ^ 64 -> wrap64 z = z.
Proof. intros. unfold wrap64. by apply Z.mod_small. Qed.

(** Room in a budget is the difference it looks like. *)
Lemma room_small (m used n : Z) :
  0 <= used -> used <= m -> m <= 64 * 1024 * 1024 -> (wrap64 (m - used) <? n) = false -> used + n <= m.
Proof. intros ? ? ? Hn. rewrite wrap64_exact in Hn by lia. bool_facts. lia. Qed.

Section Kept.
Context (strict : bool).
Abbreviation inv := (quic_inv strict).

Lemma inv_new o now t : quic_options_ok o = true -> 0 <= qo_max_streams o -> inv (new_engine o now t).
Proof.
  intros Ho Hm. unfold quic_options_ok in Ho. bool_facts. split; simpl; rewrite ?total_empty; try (done || lia).
  change (Z.of_nat 0 <= qo_max_streams o * 2 + 8). lia.
Qed.

(** Members the invariant does not look at. *)
Lemma inv_conn s t : inv s -> inv (set_conn t s).
Proof. by intros []. Qed.
Lemma inv_failed s : inv s -> inv (set_failed s).
Proof. by intros []. Qed.
Lemma inv_ended s : inv s -> inv (set_ended s).
Proof. by intros []. Qed.
Lemma inv_clock s now : inv s -> inv (set_clock now s).
Proof. by intros []. Qed.
Lemma inv_limit s n : inv s -> inv (set_remote_limit n s).
Proof. by intros []. Qed.
Lemma inv_no_events s : inv s -> inv (set_events [] s).
Proof. intros []. split; simpl; try done. lia. Qed.

Lemma inv_push s e : inv s -> inv (push_event e s).2.
Proof.
  intros []. unfold push_event. destruct (queue_limit <=? _)%nat eqn:E; [by split|]. apply Nat.leb_gt in E.
  split; simpl; try done. rewrite length_app. simpl. lia.
Qed.

Lemma inv_credit id s : inv s -> inv (return_stream_credit id s).
Proof. intros Hs. unfold return_stream_credit. destruct (tcp_is_local_stream _ _); [done|]. by apply inv_conn. Qed.

(** Replacing the record of a stream, with the counters following it. *)
Lemma inv_update s id st st' b r :
  inv s -> q_streams s !! id = Some st ->
  0 <= st_unread st' -> r = q_received s - st_unread st + st_unread st' ->
  r <= qo_max_buffered_bytes (q_options s) ->
  b = q_buffered s - held st + held st' -> b <= qo_max_buffered_bytes (q_options s) ->
  (length (st_chunks st') <= queue_limit)%nat ->
  (st_closed st' = true -> 0 < st_unread st' /\ (strict = true -> st_chunks st' = [])) ->
  inv (set_received r (set_buffered b (put_stream id st' s))).
Proof.
  intros [] Hid Hu -> Hr -> Hb Hc Hcl. split; simpl; try done.
  - by rewrite map_size_insert_Some by (by eexists).
  - intros i y. rewrite lookup_insert. case_decide; [by intros [= <-]|eauto].
  - intros i y. rewrite lookup_insert. case_decide; [by intros [= <-]|eauto].
  - rewrite (total_put _ _ id st) by done. lia.
  - rewrite (total_put _ _ id st) by done. lia.
  - intros i y. rewrite lookup_insert. case_decide; [by intros [= <-]|eauto].
  - intros Hs. rewrite (total_put _ _ id st), qi_exact0 by done. lia.
Qed.

(** A new, empty record. *)
Lemma inv_fresh s id :
  inv s -> q_streams s !! id = None -> capacity s = true -> inv (put_stream id new_qstream s).
Proof.
  intros [] Hid Hc. unfold capacity in Hc. bool_facts. split; simpl; try done.
  - rewrite map_size_insert_None by done. lia.
  - intros i y. rewrite lookup_insert. case_decide; [intros [= <-]; simpl; lia|eauto].
  - intros i y. rewrite lookup_insert. case_decide; [by intros [= <-]|eauto].
  - by rewrite total_new.
  - by rewrite total_new.
  - intros i y. rewrite lookup_insert. case_decide; [by intros [= <-]|eauto].
  - intros Hs. rewrite total_new by done. by apply qi_exact0.
Qed.

(** A record whose data was all consumed goes; strictly, it holds no chunks. *)
Lemma inv_erase s id st :
  quic_inv strict s -> q_streams s !! id = Some st -> st_unread st = 0 ->
  (strict = true -> held st = 0) -> inv (erase_stream id s).
Proof.
  intros [] Hid Hu Hh. pose proof (total_delete st_unread _ id st Hid) as Ht1.
  pose proof (total_delete held _ id st Hid) as Ht2. pose proof (held_nonneg st) as H0.
  split; simpl; try done; try lia.
  - rewrite map_size_delete, Hid. lia.
  - intros i y. rewrite lookup_delete. case_decide; [done|eauto].
  - intros i y. rewrite lookup_delete. case_decide; [done|eauto].
  - intros i y. rewrite lookup_delete. case_decide; [done|eauto].
  - intros Hs. specialize (Hh Hs). specialize (qi_exact0 Hs). lia.
Qed.

(** What the counters are worth while a record exists. *)
Lemma inv_bounds s id st :
  inv s -> q_streams s !! id = Some st ->
  0 <= st_unread st <= q_received s /\ 0 <= held st <= q_buffered s.
Proof.
  intros [] Hid. pose proof (total_lookup held _ id st held_nonneg Hid). pose proof (held_nonneg st).
  split; [|lia]. split; [by eapply qi_unread0|]. rewrite qi_received0, (total_delete _ _ id st Hid).
  assert (0 <= total st_unread (delete id (q_streams s))); [|lia].
  rewrite (total_ext _ (fun st => Z.max 0 (st_unread st))); [apply total_nonneg; lia|].
  intros i e. rewrite lookup_delete. case_decide; [done|]. intros Hi. specialize (qi_unread0 i e Hi). lia.
Qed.

Lemma inv_counters s : inv s -> 0 <= q_received s /\ 0 <= q_buffered s.
Proof.
  intros []. pose proof (total_nonneg held (q_streams s) held_nonneg). split; [|lia]. rewrite qi_received0.
  rewrite (total_ext _ (fun st => Z.max 0 (st_unread st))); [apply total_nonneg; lia|].
  intros i e Hi. specialize (qi_unread0 i e Hi). lia.
Qed.

(** ** The callbacks keep it *)

(** [s.streams[id]]: the record there is, or a new one. *)
Lemma inv_at s id :
  inv s -> (q_streams s !! id = None -> capacity s = true) ->
  exists s0, inv s0 /\ q_streams s0 !! id = Some (default new_qstream (q_streams s !! id)) /\
    q_received s0 = q_received s /\ q_buffered s0 = q_buffered s /\ q_options s0 = q_options s /\
    forall x, put_stream id x s0 = put_stream id x s.
Proof.
  intros Hs Hc. destruct (q_streams s !! id) as [st|] eqn:El; [by exists s|].
  exists (put_stream id new_qstream s). split_and!; try done; simpl.
  - apply inv_fresh; auto.
  - apply lookup_insert_eq.
  - intros x. unfold put_stream. simpl. by rewrite insert_insert_eq.
Qed.

Lemma on_stream_data_inv fin id data s : inv s -> inv (on_stream_data fin id data s).2.
Proof.
  intros Hs. unfold on_stream_data. case_match eqn:E; [done|]. simpl. apply orb_false_iff in E as [E E3].
  apply orb_false_iff in E as [E1 E2]. apply Nat.leb_gt in E3.
  pose proof (inv_counters s Hs) as [Hr0 _]. pose proof (qi_bytes_range _ _ Hs) as Hbr.
  pose proof (room_small _ _ _ Hr0 (qi_received_max _ _ Hs) ltac:(lia) E1) as Hroom.
  pose proof (len_nonneg data) as Hl.
  destruct (inv_at s id Hs) as (s0 & Hs0 & Hst & Hr & Hb & Ho & Hput).
  { intros Hn. rewrite Hn in E2. rewrite bool_decide_true in E2 by done. by destruct (capacity s). }
  set (st := default _ _) in *. pose proof (inv_bounds s0 id st Hs0 Hst) as [Hu _].
  pose proof (inv_update s0 id st (set_unread (st_unread st + len data) st) (q_buffered s)
    (q_received s + len data) Hs0 Hst) as Hup. rewrite Hput in Hup.
  assert (quic_inv strict (set_received (q_received s + len data)
    (set_buffered (q_buffered s) (put_stream id (set_unread (st_unread st + len data) st) s)))) as [].
  { apply Hup; simpl; rewrite ?Ho, ?Hr, ?Hb; try lia.
    - unfold held. simpl. lia.
    - apply (qi_buffered_max _ _ Hs).
    - by apply (qi_chunks _ _ Hs0 id).
    - intros Hcl. destruct (qi_closed _ _ Hs0 id st Hst Hcl). split; [lia|done]. }
  split; simpl in *; try done. rewrite length_app. simpl. lia.
Qed.

(** What an acknowledgement releases is a prefix. *)
Lemma release_acked_spec upto q b :
  chunks_size q <= b <= 64 * 1024 * 1024 ->
  exists gone, q = gone ++ (release_acked upto q b).1 /\ (release_acked upto q b).2 = b - chunks_size gone /\
    Forall (fun c => c_submitted c = true /\ c_start c + len (c_bytes c) <= upto) gone.
Proof.
  revert b; induction q as [|c q IH]; intros b Hb; simpl in *; [by exists []; rewrite Z.sub_0_r|].
  pose proof (len_nonneg (c_bytes c)). pose proof (chunks_size_nonneg q).
  destruct (c_submitted c && _) eqn:E; [|by exists []; rewrite Z.sub_0_r]. bool_facts.
  rewrite wrap64_exact by lia. destruct (IH (b - len (c_bytes c))) as (gone & Hq & Hsz & Hf); [lia|].
  exists (c :: gone). split_and!; [by rewrite Hq at 1|simpl; lia|by constructor].
Qed.

Lemma drop_chunks_spec q b : chunks_size q <= b <= 64 * 1024 * 1024 -> drop_chunks q b = b - chunks_size q.
Proof.
  revert b; induction q as [|c q IH]; intros b Hb; unfold drop_chunks in *; simpl in *; [lia|].
  pose proof (len_nonneg (c_bytes c)). pose proof (chunks_size_nonneg q).
  rewrite wrap64_exact by lia. rewrite IH; lia.
Qed.

Lemma release_acked_inv upto id st s :
  inv s -> q_streams s !! id = Some st ->
  let '(q, b) := release_acked upto (st_chunks st) (q_buffered s) in
  inv (set_buffered b (put_stream id (set_chunks q st) s)) /\
  exists gone, st_chunks st = gone ++ q /\
    Forall (fun c => c_submitted c = true /\ c_start c + len (c_bytes c) <= upto) gone.
Proof.
  intros Hs Hid. pose proof (inv_bounds s id st Hs Hid) as [Hu Hh]. pose proof (qi_bytes_range _ _ Hs) as Hbr.
  pose proof (qi_buffered_max _ _ Hs) as Hbm.
  destruct (release_acked_spec upto (st_chunks st) (q_buffered s)) as (gone & Hq & Hb & Hf); [unfold held in Hh; lia|].
  destruct (release_acked _ _ _) as [q b]. simpl in *. pose proof (chunks_size_nonneg gone) as Hg.
  split; [|by exists gone].
  assert (held st = chunks_size gone + chunks_size q) as Hsplit by (unfold held; by rewrite Hq, chunks_size_app).
  pose proof (qi_chunks _ _ Hs id st Hid) as Hlen. rewrite Hq, length_app in Hlen.
  apply (inv_update s id st (set_chunks q st) b (q_received s) Hs Hid); simpl; try lia.
  - apply (qi_received_max _ _ Hs).
  - unfold held in *. simpl. lia.
  - intros Hcl. destruct (qi_closed _ _ Hs id st Hid Hcl) as [? Hnil]. split; [done|]. intros Hst.
    specialize (Hnil Hst). rewrite Hq in Hnil. by apply app_eq_nil in Hnil as [_ ?].
Qed.

Lemma on_acked_inv id offset size s : inv s -> inv (on_acked id offset size s).2.
Proof.
  intros Hs. unfold on_acked. apply inv_push. destruct (q_streams s !! id) as [st|] eqn:Hid; [|done].
  pose proof (release_acked_inv (offset + size) id st s Hs Hid) as Hr. destruct (release_acked _ _ _). by destruct Hr.
Qed.

(** What is left of a stream once it was closed. *)
Lemma close_inv id st s :
  inv s -> q_streams s !! id = Some st ->
  let s' := set_buffered (drop_chunks (st_chunks st) (q_buffered s)) s in
  inv (if st_unread st =? 0 then erase_stream id s'
       else put_stream id (set_stream_closed (set_chunks [] st)) s').
Proof.
  intros Hs Hid. pose proof (inv_bounds s id st Hs Hid) as [Hu Hh]. pose proof (qi_bytes_range _ _ Hs) as Hbr.
  pose proof (qi_buffered_max _ _ Hs) as Hbm. unfold held in Hh.
  rewrite drop_chunks_spec by lia. simpl. set (b := _ - _). set (st' := set_stream_closed (set_chunks [] st)).
  destruct (st_unread st =? 0) eqn:E; bool_facts.
  2: { apply (inv_update s id st st' b (q_received s) Hs Hid); unfold st', b, held; simpl; try done; try lia.
       - apply (qi_received_max _ _ Hs).
       - intros _. split; [lia|done]. }
  assert (inv (set_received (q_received s) (set_buffered b (put_stream id (set_chunks [] st) s)))) as Hemp.
  { apply (inv_update s id st (set_chunks [] st) b (q_received s) Hs Hid); unfold b, held; simpl; try done; try lia.
    - apply (qi_received_max _ _ Hs).
    - intros Hcl. destruct (qi_closed _ _ Hs id st Hid Hcl). lia. }
  pose proof (inv_erase _ id (set_chunks [] st) Hemp) as He. unfold erase_stream, put_stream in *. simpl in *.
  rewrite lookup_insert_eq, delete_insert_eq in He. by apply He.
Qed.

Lemma on_stream_close_inv id code s : inv s -> inv (on_stream_close id code s).2.
Proof.
  intros Hs. unfold on_stream_close. destruct (q_streams s !! id) as [st|] eqn:Hid.
  2: { by apply inv_push, inv_credit. }
  pose proof (close_inv id st s Hs Hid) as Hc. simpl in *.
  destruct (st_unread st =? 0); [by apply inv_push, inv_credit|by apply inv_push].
Qed.

Lemma handle_quic_inv c s : inv s -> inv (handle_quic c s).2.
Proof.
  intros Hs. destruct c; simpl.
  - by apply on_stream_data_inv.
  - by apply on_acked_inv.
  - by apply on_stream_close_inv.
  - by apply inv_push.
  - by apply inv_limit.
Qed.

Lemma serve_inv {R} (r : Run T R) s : inv s -> inv (serve r s).2.
Proof.
  revert s; induction r as [x t|c t k IH]; intros s Hs; simpl; [by apply inv_conn|].
  destruct (handle_quic c (set_conn t s)) as [rc s'] eqn:E. apply IH.
  pose proof (handle_quic_inv c (set_conn t s) (inv_conn s t Hs)) as Hh. by rewrite E in Hh.
Qed.

(** ** The operations keep it *)

Lemma check_time_inv now : maintains inv (check_time now).
Proof.
  intros s Hs. unfold wp, check_time. split_inner; [by apply Hs|]. by apply inv_clock.
Qed.

Lemma fail_engine_inv {A} code : maintains inv (fail_engine (A := A) code).
Proof. intros s Hs. by apply inv_failed. Qed.

Lemma quic_receive_inv packet now : maintains inv (quic_receive packet now).
Proof.
  apply maintains_bind; [apply check_time_inv|]. intros _ s Hs. unfold wp.
  pose proof (serve_inv (tcp_read_pkt packet now (q_conn s)) s Hs) as Hv.
  destruct (serve _ s) as [rv s']. simpl in Hv. split_inner; [by apply inv_ended|].
  split_inner; [by apply fail_engine_inv|done].
Qed.

Lemma quic_handle_expiry_inv now : maintains inv (quic_handle_expiry now).
Proof.
  apply maintains_bind; [apply check_time_inv|]. intros _ s Hs. unfold wp.
  pose proof (serve_inv (tcp_handle_expiry now (q_conn s)) s Hs) as Hv.
  destruct (serve _ s) as [rv s']. simpl in Hv. split_inner; [by apply fail_engine_inv|done].
Qed.

Lemma quic_open_stream_inv uni : maintains inv (quic_open_stream uni).
Proof.
  intros s Hs. unfold wp, quic_open_stream. split_inner; [done|]. split_inner as Ec; [done|].
  apply negb_false_iff in Ec. destruct (tcp_open_stream uni (q_conn s)) as [[rv id] t].
  split_inner; [by apply inv_conn|]. simpl. destruct (q_streams s !! id) eqn:Hid; [by apply inv_conn|].
  apply inv_fresh; [by apply inv_conn|done|done].
Qed.

Lemma quic_cancel_inv id code : maintains inv (quic_cancel id code).
Proof.
  intros s Hs. unfold wp, quic_cancel. split_inner; [done|]. split_inner; [done|].
  destruct (tcp_shutdown_stream id code (q_conn s)) as [rv t]. split_inner; [by apply inv_conn|].
  simpl. destruct (q_streams s !! id) as [st|] eqn:Hid; [|by apply inv_conn].
  apply (inv_update (set_conn t s) id st (set_cancelled st) (q_buffered s) (q_received s)); simpl;
    try by (apply inv_conn || destruct Hs).
  - by eapply qi_unread.
  - lia.
  - unfold held. simpl. lia.
  - by eapply qi_chunks.
  - by eapply qi_closed.
Qed.

Lemma quic_close_inv code now : maintains inv (quic_close code now).
Proof.
  intros s Hs. unfold wp, quic_close. split_inner; [done|]. split_inner; [done|].
  destruct (tcp_write_connection_close _ _ _) as [w t]. split_inner; [by apply inv_conn, inv_clock|].
  by apply inv_ended, inv_conn, inv_clock.
Qed.

Lemma quic_take_inv s : inv s -> inv (quic_take_events s).2.
Proof. apply inv_no_events. Qed.

Lemma quic_write_inv id data fin s :
  inv s -> (strict = true -> polite_op (qop_write id data fin) s) ->
  wp (quic_write id data fin) s (fun _ => inv) (fun _ => inv).
Proof.
  intros Hs Hp. unfold wp, quic_write. destruct (q_streams s !! id) as [st|] eqn:Hid; [|done].
  split_inner; [done|]. split_inner as E; [done|]. split_inner; [done|].
  apply orb_false_iff in E as [E1 E2]. apply Nat.leb_gt in E2.
  pose proof (inv_counters s Hs) as [_ Hb0]. pose proof (qi_bytes_range _ _ Hs).
  pose proof (room_small _ _ _ Hb0 (qi_buffered_max _ _ Hs) ltac:(lia) E1) as Hroom.
  eapply (inv_update s id st _ (q_buffered s + len data) (q_received s) Hs Hid); simpl; try lia.
  - by eapply qi_unread.
  - by eapply qi_received_max.
  - unfold held. simpl. rewrite chunks_size_app. simpl. lia.
  - rewrite length_app. simpl. lia.
  - intros Hcl. destruct (qi_closed _ _ Hs id st Hid Hcl). split; [done|]. intros Hst.
    specialize (Hp Hst st Hid). congruence.
Qed.

Lemma quic_consume_inv id n : 0 <= n -> maintains inv (quic_consume id n).
Proof.
  intros Hn s Hs. unfold wp, quic_consume. destruct (q_streams s !! id) as [st|] eqn:Hid; [|done].
  split_inner as En; [done|]. destruct (tcp_extend_max_stream_offset id n (q_conn s)) as [rv t].
  split_inner; [by apply inv_conn|]. bool_facts.
  pose proof (inv_bounds s id st Hs Hid) as [Hu Hh]. pose proof (qi_bytes_range _ _ Hs).
  pose proof (qi_received_max _ _ Hs). simpl. rewrite !wrap64_exact by lia.
  set (st' := set_unread (st_unread st - n) st). set (s0 := tcp_do (tcp_extend_max_offset n) (set_conn t s)).
  assert (inv s0) as Hs0 by (by apply inv_conn, inv_conn).
  assert (st_closed st = false \/ 0 < st_unread st - n ->
    inv (set_received (q_received s - n) (put_stream id st' s0))) as Hput.
  { intros Hcl. apply (inv_update s0 id st st' (q_buffered s) (q_received s - n) Hs0 Hid);
      unfold st', held; simpl; try lia.
    - apply (qi_buffered_max _ _ Hs).
    - by eapply qi_chunks.
    - intros Hc. destruct (qi_closed _ _ Hs id st Hid Hc). destruct Hcl; [congruence|]. done. }
  destruct (st_closed st) eqn:Ec; simpl; [|apply Hput; by left].
  destruct (st_unread st - n =? 0) eqn:Ez; bool_facts; [|apply Hput; right; lia].
  set (st0 := mk_qstream (st_chunks st) (st_end st) 0 (st_fin st) (st_cancelled st) false).
  assert (inv (set_received (q_received s - n) (put_stream id st0 s0))) as Hopen.
  { apply (inv_update s0 id st st0 (q_buffered s) (q_received s - n) Hs0 Hid); unfold held; simpl; try (done || lia).
    - apply (qi_buffered_max _ _ Hs).
    - by eapply qi_chunks. }
  pose proof (inv_erase _ id st0 (inv_credit id _ Hopen)) as He.
  unfold return_stream_credit, erase_stream, put_stream in *. simpl in *.
  destruct (tcp_is_local_stream id _); simpl in *; rewrite lookup_insert_eq, delete_insert_eq in He;
    rewrite delete_insert_eq; (eapply He; [done|done|]);
    intros Hst; unfold held; simpl; destruct (qi_closed _ _ Hs id st Hid Ec) as [_ Hnil]; by rewrite Hnil.
Qed.
End Kept.

(** [poll], on a library that reports nothing while it writes. *)
Section Polled.
Context `{!Ngtcp2Writes T}.

(** Such a run leaves the engine's own state alone. *)
Lemma writes_only_serve {R} (r : Run T R) s :
  writes_only r -> exists t limit, (serve r s).2 = set_remote_limit limit (set_conn t s).
Proof.
  revert s; induction r as [x t|c t k IH]; intros s Hr; simpl.
  - by exists t, (q_remote_bidi_limit s).
  - destruct Hr as [[limit ->] Hk]. simpl.
    destruct (IH 0 t (set_remote_limit limit (set_conn t s)) (Hk 0 t)) as (t' & l' & Heq).
    exists t', l'. by rewrite Heq.
Qed.

Context (strict : bool).
Abbreviation inv := (quic_inv strict).

Lemma poll_chunk_inv now id i c st s :
  inv s -> q_streams s !! id = Some st -> st_chunks st !! i = Some c ->
  wp (poll_chunk now id i c) s (fun _ => inv) (fun _ => inv).
Proof.
  intros Hs Hid Hi. unfold wp, poll_chunk.
  destruct (writes_only_serve (tcp_writev_stream (c_fin c) id (drop (c_sent c) (c_bytes c)) now (q_conn s)) s
    (writev_writes _ _ _ _ _)) as (t & l & Hv). destruct (serve _ s) as [w s']. simpl in Hv. subst s'.
  assert (inv (set_remote_limit l (set_conn t s))) as Hv by (by apply inv_limit, inv_conn).
  split_inner; [done|]. split_inner; [by apply fail_engine_inv|]. simpl. rewrite Hid.
  set (c' := if 0 <=? w_used w then _ else _). assert (c_bytes c' = c_bytes c) as Hc by (unfold c'; by case_match).
  assert (held (set_chunks (<[i:=c']> (st_chunks st)) st) = held st) as Hh.
  { unfold held. simpl. rewrite insert_take_drop by (by eapply lookup_lt_Some).
    rewrite <- (take_drop_middle (st_chunks st) i c) at 3 by done. rewrite !chunks_size_app. simpl. by rewrite Hc. }
  assert (inv (put_stream id (set_chunks (<[i:=c']> (st_chunks st)) st) (set_remote_limit l (set_conn t s)))) as Hp.
  { apply (inv_update strict _ id st (set_chunks (<[i:=c']> (st_chunks st)) st) (q_buffered s) (q_received s) Hv Hid);
      simpl; try done.
    - by eapply qi_unread.
    - lia.
    - by eapply qi_received_max.
    - rewrite Hh. lia.
    - by eapply qi_buffered_max.
    - rewrite length_insert. by eapply qi_chunks.
    - intros Hcl. destruct (qi_closed _ _ Hs id st Hid Hcl) as [? Hnil]. split; [done|]. intros Hst.
      rewrite (Hnil Hst) in Hi. by rewrite lookup_nil in Hi. }
  split_inner; [by apply inv_conn|done].
Qed.

Lemma poll_chunks_inv now id st i q s :
  inv s -> q_streams s !! id = Some st -> drop i (st_chunks st) = q ->
  wp (poll_chunks now id i q) s (fun _ => inv) (fun _ => inv).
Proof.
  intros Hs Hid. revert i; induction q as [|c q IH]; intros i Hq; simpl; [done|].
  assert (st_chunks st !! i = Some c) as Hi by (by rewrite <- (Nat.add_0_r i), <- lookup_drop, Hq).
  split_inner; [|by eapply poll_chunk_inv]. apply IH.
  by rewrite <- Nat.add_1_r, <- drop_drop, Hq.
Qed.

Lemma poll_streams_inv now uni ids : maintains inv (poll_streams now uni ids).
Proof.
  induction ids as [|id ids IH]; intros s Hs; [done|]. unfold wp. simpl.
  destruct (q_streams s !! id) as [st|] eqn:Hid; [|by apply IH]. split_inner; [by apply IH|].
  pose proof (poll_chunks_inv now id st 0 _ s Hs Hid eq_refl) as Hp. unfold wp in Hp. rewrite drop_0 in Hp.
  destruct (poll_chunks now id 0 (st_chunks st) s) as [[p|] s'|e s'|]; try done. by apply IH.
Qed.

Lemma quic_poll_inv now : maintains inv (quic_poll now).
Proof.
  assert (maintains inv (poll_rest now)) as Hrest.
  { intros s Hs. unfold wp, poll_rest. pose proof (serve_inv strict (tcp_write_pkt now (q_conn s)) s Hs) as Hv.
    destruct (serve _ s) as [w s']. simpl in Hv. split_inner; [by apply fail_engine_inv|]. split_inner; [done|].
    by apply inv_conn. }
  apply maintains_bind; [apply check_time_inv|]. intros _.
  apply maintains_bind; [intros s; apply poll_streams_inv|]. intros [p|]; [apply maintains_ret|].
  apply maintains_bind; [intros s; apply poll_streams_inv|]. intros [p|]; [apply maintains_ret|done].
Qed.

Lemma quic_op_inv o s :
  qop_ok o -> (strict = true -> polite_op o s) -> inv s -> inv (quic_op o s).
Proof.
  intros Ho Hp Hs. destruct o; simpl in *.
  - by apply maintains_after; [apply quic_receive_inv|].
  - by apply maintains_after; [apply quic_poll_inv|].
  - by apply maintains_after; [apply quic_handle_expiry_inv|].
  - by apply maintains_after; [apply quic_open_stream_inv|].
  - pose proof (quic_write_inv strict id data fin s Hs Hp) as Hw. unfold wp in Hw. by destruct (quic_write _ _ _ _).
  - by apply quic_take_inv.
  - by apply maintains_after; [apply quic_consume_inv|].
  - by apply maintains_after; [apply quic_cancel_inv|].
  - by apply maintains_after; [apply quic_close_inv|].
Qed.

Lemma quic_run_inv ops s :
  Forall qop_ok ops -> (strict = true -> polite ops s) -> inv s -> inv (quic_run ops s).
Proof.
  revert s; induction ops as [|o ops IH]; intros s Ho Hp Hs; [done|]. apply Forall_cons in Ho as [Ho Hos].
  simpl. apply IH; [done|intros Hst; by apply Hp|]. apply quic_op_inv; [done|intros Hst; by apply Hp|done].
Qed.
End Polled.
End Budgets.

(** C15: Whatever the application calls and whatever ngtcp2 reports (it calls back
    nothing while it only writes packets), an engine made with acceptable options
    keeps its table, its events and the chunks of a stream within their limits;
    [received] is exactly what was delivered and not consumed; [buffered] is an upper
    bound of what is kept for sending, and equal to it if no stream was written to
    after it was closed (without that it need not be: [closed_write_leaks]); both
    counters are within [max_buffered_bytes], and the write capacity of an open
    engine is [max_buffered_bytes] less [buffered], without wrapping. *)
Theorem quic_budgets {T : Type} {HT : Ngtcp2 T} {HW : Ngtcp2Writes T} (o : QuicOptions) (now : Z) (t : T)
    (ops : list QOp) :
  quic_options_ok o = true -> 0 <= qo_max_streams o -> Forall qop_ok ops ->
  let s0 := new_engine o now t in
  let s := quic_run ops s0 in
  Z.of_nat (size (q_streams s)) <= qo_max_streams (q_options s) * 2 + 8 /\
  (length (q_events s) <= queue_limit)%nat /\
  (forall id st, q_streams s !! id = Some st -> (length (st_chunks st) <= queue_limit)%nat) /\
  0 <= q_received s <= qo_max_buffered_bytes (q_options s) /\
  q_received s = total st_unread (q_streams s) /\
  total held (q_streams s) <= q_buffered s <= qo_max_buffered_bytes (q_options s) /\
  (quic_closed s = false -> quic_write_capacity s = qo_max_buffered_bytes (q_options s) - q_buffered s) /\
  (polite ops s0 -> q_buffered s = total held (q_streams s)).
Proof.
  intros Ho Hm Hops s0 s.
  assert (quic_inv false s) as Hi.
  { apply quic_run_inv; [done|done|by apply inv_new]. }
  pose proof (inv_counters false s Hi) as [Hr Hb]. pose proof (qi_bytes_range _ _ Hi) as Hbr.
  pose proof (qi_buffered_max _ _ Hi) as Hbm.
  split_and!; try (by destruct Hi); try done.
  - unfold quic_closed, quic_write_capacity. intros Hc. rewrite orb_comm, Hc. apply wrap64_exact. lia.
  - intros Hp. apply (qi_exact true); [|done]. apply quic_run_inv; [done|done|by apply inv_new].
Qed.

(** ** Two ways to run out *)

Definition here : Endpoint := endpoint_loopback 4433 ipv4.
Definition there : Endpoint := endpoint_loopback 50000 ipv4.

Definition small_server : QuicOptions := mk_quic_options true here there [] (lit "h3") 4096 1 0.
Definition small_client : QuicOptions := mk_quic_options false there here (lit "localhost") (lit "h3") 4096 1 0.

(** A peer opens stream 0, sends two bytes and is gone before they are consumed. *)
Definition closing_peer : list (list QCallback) :=
  [[cb_stream_data true 0 (lit "hi")]; [cb_stream_close 0 0]].

Definition late_writer : list QOp :=
  [qop_receive [] 1; qop_receive [] 2; qop_take; qop_write 0 (replicate 4096 x00) true; qop_consume 0 2].

Lemma quic_budgets_witness :
  let s := quic_run late_writer (new_engine small_server 0 (toy_server closing_peer)) in
  0 <= q_received s <= qo_max_buffered_bytes (q_options s) /\ q_buffered s = 4096 /\
  total held (q_streams s) = 0.
Proof.
  intros s. split; [|split; vm_compute; reflexivity].
  assert (Forall qop_ok late_writer) as Hops by (repeat constructor; discriminate).
  exact (proj1 (proj2 (proj2 (proj2 (quic_budgets small_server 0 (toy_server closing_peer) late_writer
    eq_refl ltac:(discriminate) Hops))))).
Defined.

(** [write] accepts data for a stream the peer has closed as long as its data is
    unread, and [consume] then erases the record without taking the chunks out of
    [buffered]: a run after which no stream exists, the whole sending budget is
    used up, and a new stream can be opened but nothing written to it. *)
Theorem closed_write_leaks :
  let s := quic_run late_writer (new_engine small_server 0 (toy_server closing_peer)) in
  q_streams s = ∅ /\ quic_closed s = false /\ quic_write_capacity s = 0 /\
  match quic_open_stream false s with
  | Returns id s' =>
      match quic_write id (lit "x") true s' with Fails e _ => e = quic_error quic_budget | _ => False end
  | _ => False
  end.
Proof.
  intros s. split; [vm_compute; reflexivity|]. split; [vm_compute; reflexivity|].
  split; [vm_compute; reflexivity|]. vm_compute. reflexivity.
Qed.

(** A peer opens its first stream. *)
Definition opening_peer : list (list QCallback) := [[cb_stream_data false 1 (lit "hi")]].

(** The table has room for the streams the peer may open and as many local ones
    and eight more, but [open_stream] may fill all of it: with one stream allowed to
    the peer, the application opens ten, and the peer's permitted first stream then
    makes the engine fail; with nine it is accepted. *)
Theorem local_streams_fill_the_table :
  let run n := quic_run (replicate n (qop_open false) ++ [qop_receive [] 1])
                 (new_engine small_client 0 (toy_client opening_peer)) in
  q_failed (run 9%nat) = false /\ length (q_events (run 9%nat)) = 1%nat /\
  q_failed (run 10%nat) = true /\ q_events (run 10%nat) = [].
Proof. intros run. split_and!; vm_compute; reflexivity. Qed.
