(* ===== verification/QuicStreams.v ===== *)
(** * QuicStreams: what becomes of the bytes of a QUIC stream

    Over any library that keeps [Ngtcp2Laws]: the bytes of a stream are handed to
    the library in the order in which they were written, each once, the end of the
    stream only after all of them; what the peer has not acknowledged is still
    held, as ngtcp2 sends it again from the same place; and the credit of the peer
    is given back exactly once, for bytes when they are consumed and for a stream
    when its record is gone. *)

From stdpp Require Import gmap.
From S2P Require Import Prelude Sums Errors Quic QuicLaws QuicInv.

Local Open Scope Z_scope.
Local Open Scope mira_scope.

(** ** The chunks of one stream *)

Definition bytes_of (q : list Chunk) : bytes := concat (c_bytes <$> q).
Definition pending (q : list Chunk) : bytes := concat ((fun c => drop (c_sent c) (c_bytes c)) <$> q).

Definition done_chunk (c : Chunk) : Prop := c_submitted c = true /\ c_sent c = length (c_bytes c).
Definition fresh_chunk (c : Chunk) : Prop := c_submitted c = false /\ c_sent c = 0%nat.

(** Submitted chunks, then at most one that is partly sent, then untouched ones. *)
Definition in_order (q : list Chunk) : Prop :=
  exists sent rest, q = sent ++ rest /\ Forall done_chunk sent /\
    match rest with
    | [] => True
    | c :: rest => c_submitted c = false /\ (c_sent c <= length (c_bytes c))%nat /\ Forall fresh_chunk rest
    end.

(** Chunk [i] starts where those before it end. *)
Definition placed (base : Z) (q : list Chunk) : Prop :=
  forall i c, q !! i = Some c -> c_start c = base + len (bytes_of (take i q)).

(** Only the last chunk ends the stream. *)
Definition fin_last (fin : bool) (q : list Chunk) : Prop :=
  forall i c, q !! i = Some c -> c_fin c = true -> fin = true /\ S i = length q.

Lemma bytes_of_cons c q : bytes_of (c :: q) = c_bytes c ++ bytes_of q.
Proof. done. Qed.

Lemma pending_cons c q : pending (c :: q) = drop (c_sent c) (c_bytes c) ++ pending q.
Proof. done. Qed.

Lemma bytes_of_app q q' : bytes_of (q ++ q') = bytes_of q ++ bytes_of q'.
Proof. unfold bytes_of. by rewrite fmap_app, concat_app. Qed.

Lemma pending_app q q' : pending (q ++ q') = pending q ++ pending q'.
Proof. unfold pending. by rewrite fmap_app, concat_app. Qed.

Lemma pending_done q : Forall done_chunk q -> pending q = [].
Proof.
  induction 1 as [|c q [_ Hc] _ IH]; [done|]. by rewrite pending_cons, IH, Hc, drop_all.
Qed.

Lemma pending_fresh q : Forall fresh_chunk q -> pending q = bytes_of q.
Proof.
  induction 1 as [|c q [_ Hc] _ IH]; [done|]. by rewrite pending_cons, bytes_of_cons, IH, Hc.
Qed.

(** A prefix of submitted chunks can go. *)
Lemma in_order_drop gone q :
  in_order (gone ++ q) -> Forall (fun c => c_submitted c = true) gone -> Forall done_chunk gone /\ in_order q.
Proof.
  intros (sent & rest & Heq & Hs & Hr) Hg. revert sent Heq Hs; induction gone as [|c gone IH]; intros sent Heq Hs.
  { split; [done|]. by exists sent, rest. }
  apply Forall_cons in Hg as [Hc Hg]. destruct sent as [|c' sent]; simpl in Heq.
  - subst rest. destruct Hr as [Hn _]. congruence.
  - injection Heq as <- Heq. apply Forall_cons in Hs as [Hd Hs]. destruct (IH Hg sent Heq Hs). split; [by constructor|done].
Qed.

Lemma in_order_snoc q c : in_order q -> fresh_chunk c -> in_order (q ++ [c]).
Proof.
  intros (sent & rest & -> & Hs & Hr) Hc. exists sent, (rest ++ [c]). split_and!; [by rewrite app_assoc|done|].
  destruct Hc as [Hc1 Hc2]. destruct rest as [|c0 rest]; simpl.
  - split_and!; [done|lia|done].
  - destruct Hr as (? & ? & ?). split_and!; [done|done|]. apply Forall_app. split; [done|]. by repeat constructor.
Qed.

(** The chunk the loop of [poll] comes to. *)
Lemma in_order_first q i c :
  in_order q -> q !! i = Some c -> c_submitted c = false -> Forall (fun c => c_submitted c = true) (take i q) ->
  Forall done_chunk (take i q) /\ (c_sent c <= length (c_bytes c))%nat /\ Forall fresh_chunk (drop (S i) q).
Proof.
  intros Ho Hi Hc Ht. rewrite <- (take_drop_middle q i c Hi) in Ho.
  apply in_order_drop in Ho as [Hd Ho]; [|done]. split; [done|].
  destruct Ho as (sent & rest & Heq & Hs & Hr). destruct sent as [|c' sent]; simpl in Heq.
  - subst rest. by destruct Hr as (_ & ? & ?).
  - injection Heq as <- _. apply Forall_cons in Hs as [[? _] _]. congruence.
Qed.

Lemma placed_snoc base q c : placed base q -> c_start c = base + len (bytes_of q) -> placed base (q ++ [c]).
Proof.
  intros Hp Hc i c'. destruct (decide (i < length q)%nat) as [Hi|Hi].
  - rewrite lookup_app_l, take_app_le by lia. apply Hp.
  - rewrite lookup_app_r by lia. intros Hl. apply list_lookup_singleton_Some in Hl as [Hz <-].
    assert (i = length q) as -> by lia. by rewrite take_app_length.
Qed.

Lemma placed_drop base gone q : placed base (gone ++ q) -> placed (base + len (bytes_of gone)) q.
Proof.
  intros Hp i c Hi. specialize (Hp (length gone + i)%nat c). rewrite lookup_app_r in Hp by lia.
  rewrite Nat.add_comm, Nat.add_sub in Hp. specialize (Hp Hi). rewrite Hp, take_app_ge by lia.
  rewrite Nat.add_sub, bytes_of_app, len_app. lia.
Qed.

(** Everything released lies before what was acknowledged. *)
Lemma placed_gone base gone q upto :
  placed base (gone ++ q) -> base <= upto -> Forall (fun c => c_start c + len (c_bytes c) <= upto) gone ->
  base + len (bytes_of gone) <= upto.
Proof.
  intros Hp Hb Hg. destruct gone as [|c0 gone0 _] using rev_ind; [unfold len; simpl; lia|].
  apply Forall_app in Hg as [_ Hg]. apply Forall_cons in Hg as [Hg _].
  rewrite (Hp (length gone0) c0) in Hg.
  - rewrite <- app_assoc, take_app_length in Hg. rewrite bytes_of_app, len_app. rewrite (bytes_of_cons c0 []), app_nil_r. lia.
  - rewrite <- app_assoc. by apply list_lookup_middle.
Qed.

Lemma fin_last_snoc q c : fin_last false q -> fin_last (c_fin c) (q ++ [c]).
Proof.
  intros Hf i c'. destruct (decide (i < length q)%nat) as [Hi|Hi].
  - rewrite lookup_app_l by lia. intros Hl Hc. by destruct (Hf i c' Hl Hc).
  - rewrite lookup_app_r by lia. intros Hl Hc. apply list_lookup_singleton_Some in Hl as [Hz <-].
    rewrite length_app. simpl. split; [done|lia].
Qed.

Lemma fin_last_drop fin gone q : fin_last fin (gone ++ q) -> fin_last fin q.
Proof.
  intros Hf i c Hi Hc. destruct (Hf (length gone + i)%nat c) as [? Hl]; [|done|].
  - rewrite lookup_app_r by lia. by rewrite Nat.add_comm, Nat.add_sub.
  - split; [done|]. rewrite length_app in Hl. lia.
Qed.

(** ** The ledger *)

Section Ledger.
Context {T : Type} `{Ngtcp2Laws T}.
Implicit Type s : QImpl T.

Definition vw s : View := tcp_view (q_conn s).

(** The peer's streams of one kind that are over and have no record. *)
Definition forgotten (bidi : bool) s : gset Z :=
  filter (fun id => v_local (vw s) id = false /\ tcp_is_bidi_stream id = bidi) (v_gone (vw s) ∖ dom (q_streams s)).

(** The record of an open stream to which [w] was written; [fin] says whether the
    application has ended it. *)
Record stream_ok (v : View) (id : Z) (w : bytes) (st : QStream) : Prop := mk_stream_ok {
  so_held : exists released, w = released ++ bytes_of (st_chunks st) /\ len released <= acked v id /\
    placed (len released) (st_chunks st);
  so_order : in_order (st_chunks st);
  so_taken : w = taken v id ++ pending (st_chunks st);
  so_end : st_end st = len w;
  so_fin : fin_last (st_fin st) (st_chunks st);
}.

(** [W] and [F]: what the application has written to each stream, and whether it has
    ended it; [refused]: a callback of the running call was answered with an error;
    [x]: the size of a chunk that is being delivered. *)
Record ledger (W : Z -> bytes) (F : Z -> bool) (refused : bool) (x : Z) s : Prop := mk_ledger {
  l_budgets : quic_inv false s;
  l_open : forall id st, q_streams s !! id = Some st -> id ∉ v_gone (vw s) -> stream_ok (vw s) id (W id) st;
  l_none : forall id, q_streams s !! id = None -> id ∉ v_gone (vw s) ->
    W id = [] /\ taken (vw s) id = [] /\ F id = false;
  l_closed : forall id st, q_streams s !! id = Some st -> (st_closed st = true <-> id ∈ v_gone (vw s));
  l_ended : forall id st, q_streams s !! id = Some st -> F id = st_fin st;
  l_prefix : forall id, taken (vw s) id `prefix_of` W id;
  l_fin : forall id, id ∈ v_fin (vw s) -> F id = true /\ taken (vw s) id = W id;
  l_acked : forall id, 0 <= acked (vw s) id;
  l_unpaid : refused = false -> v_unpaid (vw s) = q_received s + x;
  l_bidi : v_credit_bidi (vw s) = Z.of_nat (size (forgotten true s));
  l_uni : v_credit_uni (vw s) = Z.of_nat (size (forgotten false s));
}.

(** A run of the library, with an invariant that every callback keeps. *)
Lemma serve_lawful {R} (J : bool -> QImpl T -> Prop) post (r : Run T R) b s :
  (forall b c s t, J b s -> callback_ok c (vw s) = true -> tcp_view t = view_after c (vw s) ->
     let '(rc, s') := handle_quic c (set_conn t s) in J (b || negb (rc =? 0)) s') ->
  J b s -> lawful tcp_view post b (vw s) r ->
  let '(x, s') := serve r s in
  exists b' s1 t, J b' s1 /\ s' = set_conn t s1 /\ post b' (vw s1) x (tcp_view t).
Proof.
  intros Hc. revert b s; induction r as [x t|c t k IH]; intros b s Hs; simpl.
  - intros Hp. by exists b, s, t.
  - intros (Hok & Ht & Hk). specialize (Hc b c s t Hs Hok Ht).
    destruct (handle_quic c (set_conn t s)) as [rc s']. apply (IH rc (q_conn s') _ s' Hc), Hk.
Qed.

Section Kept.
Context (W : Z -> bytes) (F : Z -> bool).
Abbreviation ok := (ledger W F).

(** A record stays right when more is acknowledged. *)
Lemma stream_ok_view v v' id w st :
  stream_ok v id w st -> taken v' id = taken v id -> acked v id <= acked v' id -> stream_ok v' id w st.
Proof.
  intros [(released & Hw & Hl & Hp) Ho Ht He Hf] Htk Hak. split; try done; [|by rewrite Htk].
  exists released. split_and!; [done|lia|done].
Qed.

(** The library's state moves; of its view, what it has accepted does not change. *)
Lemma ledger_conn b x x' s t :
  ok b x s -> v_taken (tcp_view t) = v_taken (vw s) -> v_fin (tcp_view t) = v_fin (vw s) ->
  (forall id, acked (vw s) id <= acked (tcp_view t) id) -> v_gone (tcp_view t) = v_gone (vw s) ->
  v_unpaid (tcp_view t) = v_unpaid (vw s) + x' - x -> v_credit_bidi (tcp_view t) = v_credit_bidi (vw s) ->
  v_credit_uni (tcp_view t) = v_credit_uni (vw s) -> v_local (tcp_view t) = v_local (vw s) ->
  ok b x' (set_conn t s).
Proof.
  intros [] Htk Hfin Hak Hgone Hun Hcb Hcu Hloc.
  assert (forall id, taken (tcp_view t) id = taken (vw s) id) as Htaken by (intros; unfold taken; by rewrite Htk).
  assert (forall bidi, forgotten bidi (set_conn t s) = forgotten bidi s) as Hfg.
  { intros bidi. unfold forgotten, vw in *. simpl. by rewrite Hgone, Hloc. }
  split; rewrite ?Hfg; change (vw (set_conn t s)) with (tcp_view t); rewrite ?Hgone, ?Hfin; simpl; try done.
  - by apply inv_conn.
  - intros id st Hid Hg. apply (stream_ok_view (vw s)); auto.
  - intros id Hid Hg. rewrite Htaken. auto.
  - intros id. by rewrite Htaken.
  - intros id Hid. rewrite Htaken. auto.
  - intros id. specialize (l_acked0 id). specialize (Hak id). lia.
  - intros Hb. rewrite Hun, (l_unpaid0 Hb). lia.
  - by rewrite Hcb.
  - by rewrite Hcu.
Qed.

Lemma ledger_quiet b x s t : ok b x s -> tcp_view t = vw s -> ok b x (set_conn t s).
Proof. intros Hs Ht. apply (ledger_conn b x); rewrite ?Ht; try done. lia. Qed.

Lemma ledger_deliver b x n s t :
  ok b x s -> tcp_view t = view_deliver n (vw s) -> ok b (x + n) (set_conn t s).
Proof. intros Hs Ht. apply (ledger_conn b x); rewrite ?Ht; simpl; try done. lia. Qed.

Lemma acked_insert v id upto i :
  acked (view_ack id upto v) i = if decide (id = i) then upto else acked v i.
Proof. unfold acked. simpl. rewrite lookup_insert. by case_decide. Qed.

Lemma ledger_ack b x id upto s t :
  ok b x s -> acked (vw s) id <= upto -> tcp_view t = view_ack id upto (vw s) -> ok b x (set_conn t s).
Proof.
  intros Hs Hu Ht. apply (ledger_conn b x); rewrite ?Ht; try done; [|simpl; lia].
  intros i. rewrite acked_insert. case_decide; [by subst|done].
Qed.

(** Only what the invariant does not look at differs. *)
Definition same_books s s' : Prop :=
  q_conn s' = q_conn s /\ q_streams s' = q_streams s /\ q_received s' = q_received s.

Lemma ledger_same b x s s' : ok b x s -> same_books s s' -> quic_inv false s' -> ok b x s'.
Proof.
  intros [] (Hc & Hs & Hr) Hi. split; unfold forgotten, vw in *; rewrite ?Hc, ?Hs, ?Hr; done.
Qed.

Lemma ledger_refused b x x' s : ok b x s -> ok true x' s.
Proof. intros []. by split. Qed.

Lemma ledger_weaken b b' x s : ok b x s -> (b' = false -> b = false) -> ok b' x s.
Proof. intros [] Hb. split; auto. Qed.

Lemma forgotten_put bidi id st s :
  (is_Some (q_streams s !! id) \/ id ∉ v_gone (vw s)) -> forgotten bidi (put_stream id st s) = forgotten bidi s.
Proof.
  intros Hid. unfold forgotten. simpl. rewrite dom_insert_L. f_equal. apply set_eq. intros i.
  rewrite !elem_of_difference, elem_of_union, elem_of_singleton, elem_of_dom. unfold vw. simpl.
  destruct Hid as [Hid|Hid]; split; intros [? Hn]; (split; [done|]).
  - intros ?. apply Hn. by right.
  - intros [->|?]; by apply Hn.
  - intros ?. apply Hn. by right.
  - intros [->|?]; [done|by apply Hn].
Qed.

(** Replacing the record of a stream. *)
Lemma ledger_put b x x' id st s r bf :
  ok b x s -> quic_inv false (set_received r (set_buffered bf (put_stream id st s))) ->
  (b = false -> r + x' = q_received s + x) ->
  (is_Some (q_streams s !! id) \/ id ∉ v_gone (vw s)) ->
  (id ∉ v_gone (vw s) -> stream_ok (vw s) id (W id) st) ->
  (st_closed st = true <-> id ∈ v_gone (vw s)) -> F id = st_fin st ->
  ok b x' (set_received r (set_buffered bf (put_stream id st s))).
Proof.
  intros [] Hi Hr Hid Hst Hcl Hf.
  assert (forall bidi, forgotten bidi (set_received r (set_buffered bf (put_stream id st s))) = forgotten bidi s) as Hfg
    by (intros; by apply forgotten_put).
  split; rewrite ?Hfg; try done.
  - intros i y. simpl. rewrite lookup_insert. case_decide; [intros [= <-]; by subst i|apply l_open0].
  - intros i. simpl. rewrite lookup_insert. case_decide; [done|apply l_none0].
  - intros i y. simpl. rewrite lookup_insert. case_decide; [intros [= <-]; by subst i|apply l_closed0].
  - intros i y. simpl. rewrite lookup_insert. case_decide; [intros [= <-]; by subst i|apply l_ended0].
  - intros Hb. simpl. specialize (Hr Hb). change (v_unpaid (vw s) = r + x'). rewrite l_unpaid0 by done. lia.
Qed.

(** A stream without a record has nothing in it. *)
Lemma stream_ok_new b x s id :
  ok b x s -> q_streams s !! id = None -> id ∉ v_gone (vw s) -> stream_ok (vw s) id (W id) new_qstream.
Proof.
  intros Hs Hid Hg. destruct (l_none _ _ _ _ _ Hs id Hid Hg) as (HW & Ht & _). rewrite HW. split; simpl.
  - exists []. split_and!; [done|apply (l_acked _ _ _ _ _ Hs)|by intros i c Hi].
  - by exists [], [].
  - by rewrite Ht.
  - done.
  - by intros i c Hi.
Qed.

(** Pushing an event. *)
Lemma push_event_books e s : same_books s (push_event e s).2.
Proof. unfold push_event. by case_match. Qed.

Lemma ledger_push b x e s :
  ok b x s -> let '(rc, s') := push_event e s in ok (b || negb (rc =? 0)) x s'.
Proof.
  intros Hs. pose proof (push_event_books e s) as Hb. pose proof (inv_push false s e (l_budgets _ _ _ _ _ Hs)) as Hi.
  destruct (push_event e s) as [rc s']. simpl in *. apply (ledger_weaken b); [by apply (ledger_same b x s)|].
  by destruct b.
Qed.

(** ** The callbacks *)

(** A refusal by the engine. *)
Lemma ledger_refuses b x x' s : ok b x s -> ok (b || negb (NGTCP2_ERR_CALLBACK_FAILURE =? 0)) x' s.
Proof.
  intros Hs. rewrite (proj2 (Z.eqb_neq _ _) failure_law), orb_true_r. by eapply ledger_refused.
Qed.

Lemma on_stream_data_ledger b fin id data s t :
  ok b 0 s -> id ∉ v_gone (vw s) -> tcp_view t = view_deliver (len data) (vw s) ->
  let '(rc, s') := on_stream_data fin id data (set_conn t s) in ok (b || negb (rc =? 0)) 0 s'.
Proof.
  intros Hs Hg Ht. pose proof (ledger_deliver b 0 (len data) s t Hs Ht) as Hd. rewrite Z.add_0_l in Hd.
  assert (v_gone (vw (set_conn t s)) = v_gone (vw s)) as Hgone by (unfold vw at 1; simpl; by rewrite Ht).
  rewrite <- Hgone in Hg. set (s1 := set_conn t s) in *. clearbody s1. clear Hgone Ht Hs s.
  pose proof (on_stream_data_inv false fin id data s1 (l_budgets _ _ _ _ _ Hd)) as Hi.
  unfold on_stream_data in *. destruct (_ || _ || _) eqn:E; [by eapply ledger_refuses|].
  simpl. rewrite orb_false_r. set (st := default new_qstream (q_streams s1 !! id)) in *.
  assert (stream_ok (vw s1) id (W id) st /\ (st_closed st = true <-> id ∈ v_gone (vw s1)) /\ F id = st_fin st)
    as (Hok & Hcl & Hf).
  { unfold st. destruct (q_streams s1 !! id) as [y|] eqn:Hid; simpl.
    - split_and!; [by apply (l_open _ _ _ _ _ Hd)|by apply (l_closed _ _ _ _ _ Hd)|by apply (l_ended _ _ _ _ _ Hd)].
    - split_and!; [by eapply stream_ok_new|done|by apply (l_none _ _ _ _ _ Hd)]. }
  assert (quic_inv false (set_received (q_received s1 + len data) (set_buffered (q_buffered s1)
    (put_stream id (set_unread (st_unread st + len data) st) s1)))) as Hi2.
  { pose proof (qi_events _ _ (l_budgets _ _ _ _ _ Hd)). destruct Hi. by split. }
  eapply (ledger_same b 0 (set_received _ (set_buffered _ (put_stream id _ s1)))); [|done|exact Hi].
  eapply (ledger_put b (len data) 0 id (set_unread (st_unread st + len data) st) s1 _ (q_buffered s1) Hd Hi2);
    try done; [lia|by right|]. intros _. by destruct Hok.
Qed.

(** Dropping acknowledged chunks. *)
Lemma stream_ok_release v id w st gone q :
  stream_ok v id w st -> st_chunks st = gone ++ q ->
  Forall (fun c => c_submitted c = true /\ c_start c + len (c_bytes c) <= acked v id) gone ->
  stream_ok v id w (set_chunks q st).
Proof.
  intros [(released & Hw & Hl & Hp) Ho Ht He Hf] Hq Hg. rewrite Hq in *.
  apply Forall_and in Hg as [Hg1 Hg2]. destruct (in_order_drop gone q Ho Hg1) as [Hdone Ho'].
  split; simpl; try done.
  - exists (released ++ bytes_of gone). rewrite len_app. split_and!.
    + by rewrite Hw, bytes_of_app, app_assoc.
    + by apply (placed_gone _ gone q).
    + by apply placed_drop.
  - by rewrite Ht, pending_app, (pending_done gone).
  - by eapply fin_last_drop.
Qed.

Lemma on_acked_ledger b id offset size s t :
  ok b 0 s -> callback_ok (cb_acked id offset size) (vw s) = true ->
  tcp_view t = view_ack id (offset + size) (vw s) ->
  let '(rc, s') := on_acked id offset size (set_conn t s) in ok (b || negb (rc =? 0)) 0 s'.
Proof.
  intros Hs Hc Ht. simpl in Hc. bool_facts. subst offset.
  pose proof (ledger_ack b 0 id (acked (vw s) id + size) s t Hs ltac:(lia) Ht) as Hd.
  assert (acked (vw (set_conn t s)) id = acked (vw s) id + size) as Hak.
  { unfold vw at 1. simpl. rewrite Ht, acked_insert. by case_decide. }
  unfold on_acked. rewrite <- Hak. set (s1 := set_conn t s) in *. clearbody s1.
  apply ledger_push. destruct (q_streams s1 !! id) as [st|] eqn:Hid; [|done].
  pose proof (release_acked_inv false (acked (vw s1) id) id st s1 (l_budgets _ _ _ _ _ Hd) Hid) as Hr.
  destruct (release_acked _ _ _) as [q bf]. destruct Hr as (Hi & gone & Hq & Hg).
  eapply (ledger_put b 0 0 id (set_chunks q st) s1 (q_received s1) bf Hd Hi); try done.
  - by left.
  - intros Hn. eapply stream_ok_release; [by apply (l_open _ _ _ _ _ Hd)|done|done].
  - exact (l_closed _ _ _ _ _ Hd id st Hid).
  - exact (l_ended _ _ _ _ _ Hd id st Hid).
Qed.

(** A peer's stream that is over and has no record any more is one the credit for
    a new stream was given for. *)
Lemma forgotten_more bidi id s s' :
  v_local (vw s') = v_local (vw s) -> id ∉ v_gone (vw s) ∖ dom (q_streams s) ->
  v_gone (vw s') ∖ dom (q_streams s') = {[id]} ∪ v_gone (vw s) ∖ dom (q_streams s) ->
  size (forgotten bidi s') =
  (size (forgotten bidi s) +
   if negb (v_local (vw s) id) && Bool.eqb (tcp_is_bidi_stream id) bidi then 1 else 0)%nat.
Proof.
  intros Hl Hn Hset.
  assert (forall i, i ∈ forgotten bidi s' <->
    (v_local (vw s) i = false /\ tcp_is_bidi_stream i = bidi) /\ (i = id \/ i ∈ v_gone (vw s) ∖ dom (q_streams s))) as Hin.
  { intros i. unfold forgotten. by rewrite elem_of_filter, Hset, Hl, elem_of_union, elem_of_singleton. }
  assert (forall i, i ∈ forgotten bidi s <->
    (v_local (vw s) i = false /\ tcp_is_bidi_stream i = bidi) /\ i ∈ v_gone (vw s) ∖ dom (q_streams s)) as Hin0.
  { intros i. unfold forgotten. by rewrite elem_of_filter. }
  destruct (negb _ && _) eqn:E.
  - apply andb_true_iff in E as [E1 E2]. apply negb_true_iff in E1. apply eqb_prop in E2.
    assert (forgotten bidi s' = {[id]} ∪ forgotten bidi s) as ->.
    { apply set_eq. intros i. rewrite Hin, elem_of_union, elem_of_singleton, Hin0. naive_solver. }
    rewrite size_union, size_singleton; [lia|]. intros i. rewrite elem_of_singleton, Hin0. intros ->. by intros [_ ?].
  - assert (forgotten bidi s' = forgotten bidi s) as ->; [|lia].
    apply set_eq. intros i. rewrite Hin, Hin0. split; [|naive_solver]. intros [[Hi1 Hi2] [->|Hi]]; [|done].
    rewrite Hi1, Hi2, eqb_reflx in E. done.
Qed.

Lemma credit_books id s :
  let s' := return_stream_credit id s in
  q_streams s' = q_streams s /\ q_received s' = q_received s /\ q_buffered s' = q_buffered s /\
  vw s' = (if v_local (vw s) id then vw s else view_credit (tcp_is_bidi_stream id) (vw s)).
Proof.
  simpl. unfold return_stream_credit. rewrite local_law. unfold vw in *. destruct (v_local _ id); simpl; [done|].
  by rewrite extend_streams_law.
Qed.

(** The credit for stream [id] is returned when its record, if any, has gone. *)
Lemma ledger_credit b x0 x id s s' :
  ok b x0 s -> quic_inv false (return_stream_credit id s') -> id ∈ v_gone (vw s') -> q_streams s' !! id = None ->
  (forall i, i <> id -> q_streams s' !! i = q_streams s !! i) -> (b = false -> v_unpaid (vw s') = q_received s' + x) ->
  (id ∉ v_gone (vw s) \/ is_Some (q_streams s !! id)) ->
  v_gone (vw s') = {[id]} ∪ v_gone (vw s) ->
  v_taken (vw s') = v_taken (vw s) -> v_fin (vw s') = v_fin (vw s) -> v_acked (vw s') = v_acked (vw s) ->
  v_credit_bidi (vw s') = v_credit_bidi (vw s) -> v_credit_uni (vw s') = v_credit_uni (vw s) ->
  v_local (vw s') = v_local (vw s) ->
  ok b x (return_stream_credit id s').
Proof.
  intros [] Hi2 Hin Hno Hoth Hun Hnew Hgone Htk Hfin Hak Hcb Hcu Hloc.
  pose proof (credit_books id s') as (Hst & Hrc & _ & Hvw).
  set (s2 := return_stream_credit id s') in *. clearbody s2.
  assert (forall A (f : View -> A), (forall bidi v, f (view_credit bidi v) = f v) -> f (vw s2) = f (vw s')) as Hsame.
  { intros A f Hf. rewrite Hvw. destruct (v_local (vw s') id); [done|apply Hf]. }
  assert (v_gone (vw s2) = {[id]} ∪ v_gone (vw s)) as Hg2 by (by rewrite (Hsame _ v_gone)).
  assert (forall i, taken (vw s2) i = taken (vw s) i) as Ht2.
  { intros i. unfold taken. by rewrite (Hsame _ v_taken), Htk. }
  assert (forall i, acked (vw s2) i = acked (vw s) i) as Ha2.
  { intros i. unfold acked. by rewrite (Hsame _ v_acked), Hak. }
  assert (v_fin (vw s2) = v_fin (vw s)) as Hf2 by (by rewrite (Hsame _ v_fin)).
  assert (v_local (vw s2) = v_local (vw s)) as Hl2 by (by rewrite (Hsame _ v_local)).
  assert (forall i, i <> id -> q_streams s2 !! i = q_streams s !! i) as Hoth2 by (intros; rewrite Hst; auto).
  assert (q_streams s2 !! id = None) as Hno2 by (by rewrite Hst).
  assert (v_gone (vw s2) ∖ dom (q_streams s2) = {[id]} ∪ v_gone (vw s) ∖ dom (q_streams s)) as Hset.
  { apply set_eq. intros i. rewrite Hg2, elem_of_union, !elem_of_difference, elem_of_union, elem_of_singleton, !not_elem_of_dom.
    destruct (decide (i = id)) as [->|Hne]; [|rewrite Hoth2 by done; naive_solver]. rewrite Hno2. naive_solver. }
  assert (id ∉ v_gone (vw s) ∖ dom (q_streams s)) as Hnot.
  { rewrite elem_of_difference, elem_of_dom. naive_solver. }
  pose proof (forgotten_more true id s s2 Hl2 Hnot Hset) as Hsz1.
  pose proof (forgotten_more false id s s2 Hl2 Hnot Hset) as Hsz2.
  split; try done.
  - intros i st Hi0 Hg0. rewrite Hg2, not_elem_of_union, not_elem_of_singleton in Hg0. destruct Hg0 as [Hne Hg0].
    rewrite Hoth2 in Hi0 by done. apply (stream_ok_view (vw s)); [auto|done|by rewrite Ha2].
  - intros i Hi0 Hg0. rewrite Hg2, not_elem_of_union, not_elem_of_singleton in Hg0. destruct Hg0 as [Hne Hg0].
    rewrite Ht2. rewrite Hoth2 in Hi0 by done. auto.
  - intros i st Hi0. destruct (decide (i = id)) as [->|Hne]; [congruence|]. rewrite Hoth2 in Hi0 by done.
    rewrite Hg2, elem_of_union, elem_of_singleton, (l_closed0 i st Hi0). naive_solver.
  - intros i st Hi0. destruct (decide (i = id)) as [->|Hne]; [congruence|]. rewrite Hoth2 in Hi0 by done. eauto.
  - intros i. by rewrite Ht2.
  - intros i. rewrite Hf2, Ht2. apply l_fin0.
  - intros i. by rewrite Ha2.
  - intros Hb. rewrite (Hsame _ v_unpaid), Hrc by done. by apply Hun.
  - rewrite Hsz1, Hvw, Hloc. destruct (v_local (vw s) id); simpl; [lia|]. destruct (tcp_is_bidi_stream id); simpl; lia.
  - rewrite Hsz2, Hvw, Hloc. destruct (v_local (vw s) id); simpl; [lia|]. destruct (tcp_is_bidi_stream id); simpl; lia.
Qed.

(** A record that stays, because its data was not consumed. *)
Lemma ledger_closing b x id st s t bf :
  ok b x s -> q_streams s !! id = Some st -> id ∉ v_gone (vw s) -> tcp_view t = view_close id (vw s) ->
  let s' := set_buffered bf (put_stream id (set_stream_closed (set_chunks [] st)) (set_conn t s)) in
  quic_inv false s' -> ok b x s'.
Proof.
  intros [] Hid Hg Ht s' Hi.
  assert (vw s' = view_close id (vw s)) as Hv by (unfold vw; done).
  assert (forall bidi, forgotten bidi s' = forgotten bidi s) as Hfg.
  { intros bidi. unfold forgotten. rewrite Hv. unfold s'. simpl. f_equal. apply set_eq. intros i.
    rewrite !elem_of_difference, dom_insert_L, !elem_of_union, elem_of_singleton.
    destruct (decide (i = id)) as [->|Hne]; [|naive_solver]. rewrite elem_of_dom, Hid. naive_solver. }
  assert (forall i, i ∈ v_gone (vw s') <-> i = id \/ i ∈ v_gone (vw s)) as Hgone.
  { intros i. rewrite Hv. simpl. by rewrite elem_of_union, elem_of_singleton. }
  assert (forall i y, q_streams s' !! i = Some y -> i <> id -> q_streams s !! i = Some y) as Hother.
  { intros i y Hi0 Hne. unfold s' in Hi0. simpl in Hi0. by rewrite lookup_insert_ne in Hi0. }
  split; rewrite ?Hfg; try done.
  - intros i y Hi0 Hg0. rewrite Hgone in Hg0. apply (stream_ok_view (vw s)); [|by rewrite Hv..].
    apply l_open0; [apply Hother|]; tauto.
  - intros i Hi0 Hg0. rewrite Hgone in Hg0. unfold s' in Hi0. simpl in Hi0. rewrite lookup_insert_ne in Hi0 by naive_solver.
    rewrite Hv. apply l_none0; tauto.
  - intros i y Hi0. rewrite Hgone. destruct (decide (i = id)) as [->|Hne].
    + unfold s' in Hi0. simpl in Hi0. rewrite lookup_insert_eq in Hi0. injection Hi0 as <-. simpl. tauto.
    + rewrite (l_closed0 i y) by auto. naive_solver.
  - intros i y Hi0. destruct (decide (i = id)) as [->|Hne]; [|by apply l_ended0, Hother].
    unfold s' in Hi0. simpl in Hi0. rewrite lookup_insert_eq in Hi0. injection Hi0 as <-. simpl. by apply l_ended0.
  - intros i. rewrite Hv. apply l_prefix0.
  - intros i. rewrite Hv. apply l_fin0.
  - intros i. rewrite Hv. apply l_acked0.
  - intros Hb. rewrite Hv. by apply l_unpaid0.
  - rewrite Hv. apply l_bidi0.
  - rewrite Hv. apply l_uni0.
Qed.

Lemma on_stream_close_ledger b id code s t :
  ok b 0 s -> id ∉ v_gone (vw s) -> tcp_view t = view_close id (vw s) ->
  let '(rc, s') := on_stream_close id code (set_conn t s) in ok (b || negb (rc =? 0)) 0 s'.
Proof.
  intros Hs Hg Ht. pose proof (inv_conn false s t (l_budgets _ _ _ _ _ Hs)) as Hi. unfold on_stream_close.
  assert (vw (set_conn t s) = view_close id (vw s)) as Hv by (unfold vw; done).
  assert (id ∈ v_gone (vw (set_conn t s))) as Hin by (rewrite Hv; simpl; set_solver).
  destruct (q_streams (set_conn t s) !! id) as [st|] eqn:Hid; simpl in Hid.
  2: { apply ledger_push, (ledger_credit b 0 0 id s); try (by rewrite Hv); try done.
       - by apply inv_credit.
       - intros Hb. rewrite Hv. by apply (l_unpaid _ _ _ _ _ Hs).
       - by left. }
  pose proof (close_inv false id st _ Hi Hid) as Hc. simpl in Hc. simpl.
  destruct (st_unread st =? 0).
  - apply ledger_push. eapply (ledger_credit b 0 0 id s _ Hs (inv_credit false id _ Hc)); try done.
    + simpl. apply lookup_delete_eq.
    + intros i Hne. simpl. by rewrite lookup_delete_ne.
    + intros Hb. change (v_unpaid (vw (set_conn t s)) = q_received s + 0). rewrite Hv. by apply (l_unpaid _ _ _ _ _ Hs).
    + by left.
    + change (v_gone (vw (set_conn t s)) = {[id]} ∪ v_gone (vw s)). by rewrite Hv.
    + change (v_taken (vw (set_conn t s)) = v_taken (vw s)). by rewrite Hv.
    + change (v_fin (vw (set_conn t s)) = v_fin (vw s)). by rewrite Hv.
    + change (v_acked (vw (set_conn t s)) = v_acked (vw s)). by rewrite Hv.
    + change (v_credit_bidi (vw (set_conn t s)) = v_credit_bidi (vw s)). by rewrite Hv.
    + change (v_credit_uni (vw (set_conn t s)) = v_credit_uni (vw s)). by rewrite Hv.
    + change (v_local (vw (set_conn t s)) = v_local (vw s)). by rewrite Hv.
  - apply ledger_push. by apply (ledger_closing b 0 id st s t _ Hs Hid Hg Ht).
Qed.

Lemma handle_ledger b c s t :
  ok b 0 s -> callback_ok c (vw s) = true -> tcp_view t = view_after c (vw s) ->
  let '(rc, s') := handle_quic c (set_conn t s) in ok (b || negb (rc =? 0)) 0 s'.
Proof.
  intros Hs Hc Ht. destruct c; simpl in *.
  - apply bool_decide_eq_true in Hc. by apply on_stream_data_ledger.
  - by apply on_acked_ledger.
  - apply bool_decide_eq_true in Hc. by apply on_stream_close_ledger.
  - apply ledger_push. by apply ledger_quiet.
  - rewrite orb_false_r. apply (ledger_same b 0 (set_conn t s)); [by apply ledger_quiet|done|].
    by apply inv_limit, inv_conn, (l_budgets _ _ _ _ _ Hs).
Qed.

(** ** The operations *)

(** Between operations: a failed engine answers for nothing it refused. *)
Definition books s : Prop := ok (q_failed s) 0 s.

(** A step that fails the engine, and one that touches only flags and clock. *)
Lemma books_failed b s : ok b 0 s -> books (set_failed s).
Proof.
  intros Hs. unfold books. simpl. eapply (ledger_same true 0 s); [by eapply ledger_refused|done|].
  by apply inv_failed, (l_budgets _ _ _ _ _ Hs).
Qed.

Lemma books_flags s s' :
  books s -> same_books s s' -> q_failed s' = q_failed s -> quic_inv false s' -> books s'.
Proof. intros Hs Hb Hf Hi. unfold books. rewrite Hf. by apply (ledger_same _ 0 s). Qed.

Lemma books_conn s t : books s -> tcp_view t = vw s -> books (set_conn t s).
Proof. intros Hs Ht. by apply ledger_quiet. Qed.

Lemma check_time_books now s :
  books s -> wp (check_time now) s (fun _ s' => books s' /\ q_failed s' = false) (fun _ => books).
Proof.
  intros Hs. unfold wp, check_time. destruct (q_failed s || _ || _) eqn:E; [done|]. bool_facts.
  split; [|done]. eapply books_flags; [done|done|done|]. by apply inv_clock, (l_budgets _ _ _ _ _ Hs).
Qed.

Lemma quic_receive_books packet now : maintains books (quic_receive packet now).
Proof.
  intros s Hs. apply wp_bind. eapply wp_mono; [by apply check_time_books| |done]. clear Hs s.
  intros _ s [Hs Hf]. unfold books in Hs. rewrite Hf in Hs. unfold wp.
  pose proof (serve_lawful (fun b => ok b 0) _ _ false s handle_ledger Hs (read_pkt_law packet now (q_conn s))) as Hv.
  destruct (serve _ s) as [rv s'] eqn:Esv. destruct Hv as (b' & s1 & t & Hj & -> & Ht & Hb).
  assert (ok b' 0 (set_conn t s1)) as Hj' by (by apply ledger_quiet).
  destruct (rv =? NGTCP2_ERR_DRAINING) eqn:Ed; bool_facts.
  { assert (b' = false) as -> by (destruct b'; [by destruct (Hb eq_refl)|done]).
    unfold books. eapply (ledger_weaken false); [|done].
    eapply ledger_same; [exact Hj'|done|]. by apply inv_ended, (l_budgets _ _ _ _ _ Hj'). }
  destruct (rv =? 0) eqn:Ez; simpl; bool_facts; [|by eapply books_failed].
  assert (b' = false) as -> by (destruct b'; [by destruct (Hb eq_refl)|done]).
  by eapply (ledger_weaken false).
Qed.

Lemma quic_handle_expiry_books now : maintains books (quic_handle_expiry now).
Proof.
  intros s Hs. apply wp_bind. eapply wp_mono; [by apply check_time_books| |done]. clear Hs s.
  intros _ s [Hs Hf]. unfold books in Hs. rewrite Hf in Hs. unfold wp.
  pose proof (serve_lawful (fun b => ok b 0) _ _ false s handle_ledger Hs (expiry_law now (q_conn s))) as Hv.
  destruct (serve _ s) as [rv s'] eqn:Esv. destruct Hv as (b' & s1 & t & Hj & -> & Ht & Hb).
  assert (ok b' 0 (set_conn t s1)) as Hj' by (by apply ledger_quiet).
  destruct (rv =? 0) eqn:Ez; simpl; bool_facts; [|by eapply books_failed].
  assert (b' = false) as -> by (destruct b'; [by destruct (Hb eq_refl)|done]).
  by eapply (ledger_weaken false).
Qed.

Lemma quic_open_stream_books uni : maintains books (quic_open_stream uni).
Proof.
  intros s Hs. pose proof (quic_open_stream_inv false uni s (l_budgets _ _ _ _ _ Hs)) as Hi.
  unfold wp, quic_open_stream in *. destruct (_ || _ || _); [done|]. destruct (negb _); [done|].
  pose proof (open_law uni (q_conn s)) as Hl. destruct (tcp_open_stream uni (q_conn s)) as [[rv id] t].
  destruct Hl as [Ht Hg]. pose proof (books_conn s t Hs Ht) as Hs'.
  destruct (rv =? 0) eqn:E; simpl in *; [|done]. bool_facts. specialize (Hg E).
  destruct (q_streams s !! id) as [st|] eqn:Hid; [done|].
  assert (vw (set_conn t s) = vw s) as Hv by done.
  eapply (ledger_put (q_failed s) 0 0 id new_qstream (set_conn t s) (q_received s) (q_buffered s) Hs' Hi);
    simpl; rewrite ?Hv; try done.
  - by right.
  - intros _. by eapply stream_ok_new.
  - by apply (l_none _ _ _ _ _ Hs).
Qed.

Lemma quic_cancel_books id code : maintains books (quic_cancel id code).
Proof.
  intros s Hs. pose proof (quic_cancel_inv false id code s (l_budgets _ _ _ _ _ Hs)) as Hi.
  unfold wp, quic_cancel in *. destruct (_ || _); [done|]. destruct (_ || _); [done|].
  pose proof (shutdown_law id code (q_conn s)) as Ht. destruct (tcp_shutdown_stream id code (q_conn s)) as [rv t].
  simpl in Ht. pose proof (books_conn s t Hs Ht) as Hs'. destruct (negb (rv =? 0)); [done|]. simpl in *.
  destruct (q_streams s !! id) as [st|] eqn:Hid; [|done].
  eapply (ledger_put (q_failed s) 0 0 id (set_cancelled st) (set_conn t s) (q_received s) (q_buffered s) Hs' Hi); try done.
  - by left.
  - intros Hg. by destruct (l_open _ _ _ _ _ Hs' id st Hid Hg).
  - exact (l_closed _ _ _ _ _ Hs' id st Hid).
  - exact (l_ended _ _ _ _ _ Hs' id st Hid).
Qed.

Lemma quic_close_books code now : maintains books (quic_close code now).
Proof.
  intros s Hs. unfold wp, quic_close. destruct (2 ^ 62 <=? code); [done|]. destruct (_ || _); [done|].
  assert (books (set_clock now s)) as Hc.
  { eapply books_flags; [done|done|done|]. by apply inv_clock, (l_budgets _ _ _ _ _ Hs). }
  pose proof (close_law code now (q_conn (set_clock now s))) as Ht. destruct (tcp_write_connection_close _ _ _) as [w t].
  pose proof (books_conn _ t Hc Ht) as Hs'. destruct (w_n w <? 0); [done|].
  eapply books_flags; [exact Hs'|done|done|]. by apply inv_ended, (l_budgets _ _ _ _ _ Hs').
Qed.

Lemma quic_take_books s : books s -> books (quic_take_events s).2.
Proof. intros Hs. eapply books_flags; [done|done|done|]. by apply inv_no_events, (l_budgets _ _ _ _ _ Hs). Qed.

Lemma credit_erase id j s : erase_stream id (return_stream_credit j s) = return_stream_credit j (erase_stream id s).
Proof. unfold return_stream_credit. simpl. by case_match. Qed.

Lemma quic_consume_books id n : 0 <= n -> maintains books (quic_consume id n).
Proof.
  intros Hn s Hs. pose proof (l_budgets _ _ _ _ _ Hs) as Hi0.
  pose proof (quic_consume_inv false id n Hn s Hi0) as Hi. unfold wp, quic_consume in *.
  destruct (q_streams s !! id) as [st|] eqn:Hid; [|done]. destruct (st_unread st <? n) eqn:En; [done|]. bool_facts.
  pose proof (inv_bounds false s id st Hi0 Hid) as [Hu _]. pose proof (qi_received_max _ _ Hi0).
  pose proof (qi_bytes_range _ _ Hi0).
  pose proof (extend_stream_offset_law id n (q_conn s)) as Ht.
  destruct (tcp_extend_max_stream_offset id n (q_conn s)) as [rv t]. simpl in Ht.
  pose proof (books_conn s t Hs Ht) as Hs'. destruct (negb (rv =? 0) && _); [done|].
  set (s1 := tcp_do (tcp_extend_max_offset n) (set_conn t s)) in *.
  assert (vw s1 = view_deliver (- n) (vw s)) as Hv1 by (unfold vw, s1; simpl; by rewrite extend_offset_law, Ht).
  assert (ok (q_failed s) (- n) s1) as Hd1.
  { pose proof (ledger_deliver (q_failed s) 0 (- n) (set_conn t s) (tcp_extend_max_offset n t) Hs'
      (extend_offset_law n t)) as Hd. by rewrite Z.add_0_l in Hd. }
  assert (q_streams s1 !! id = Some st) as Hid1 by done.
  simpl in *. rewrite (wrap64_exact (q_received s - n)) in * by lia. rewrite (wrap64_exact (st_unread st - n)) in * by lia.
  set (st' := set_unread (st_unread st - n) st) in *. unfold books.
  destruct (st_closed st && (st_unread st - n =? 0)) eqn:E.
  - apply andb_true_iff in E as [Ecl _]. rewrite credit_erase in *.
    apply (l_closed _ _ _ _ _ Hd1 id st Hid1) in Ecl as Hg.
    assert (forall s', q_failed (return_stream_credit id s') = q_failed s') as Hfl
      by (intros s'; unfold return_stream_credit; by case_match).
    rewrite Hfl. eapply (ledger_credit (q_failed s) (- n) 0 id s1 _ Hd1 Hi); try done.
    + simpl. apply lookup_delete_eq.
    + intros i Hne. simpl. by rewrite lookup_delete_ne, lookup_insert_ne.
    + intros Hb. simpl. change (v_unpaid (vw s1) = q_received s - n + 0).
      rewrite (l_unpaid _ _ _ _ _ Hd1 Hb). simpl. lia.
    + right. by eexists.
    + change (v_gone (vw s1) = {[id]} ∪ v_gone (vw s1)). set_solver.
  - eapply (ledger_put (q_failed s) (- n) 0 id st' s1 (q_received s - n) (q_buffered s) Hd1 Hi); try done.
    + intros _. simpl. lia.
    + left. by eexists.
    + intros Hg. by destruct (l_open _ _ _ _ _ Hd1 id st Hid1 Hg).
    + exact (l_closed _ _ _ _ _ Hd1 id st Hid1).
    + exact (l_ended _ _ _ _ _ Hd1 id st Hid1).
Qed.

(** ** Handing bytes to the library *)

(** A run that only writes leaves the engine alone, and what it promises holds. *)
Lemma serve_writes {R} post (r : Run T R) b s :
  writes_only r -> lawful tcp_view post b (vw s) r ->
  let '(x, s') := serve r s in
  exists limit t, s' = set_remote_limit limit (set_conn t s) /\ post b (vw s) x (tcp_view t).
Proof.
  revert b s; induction r as [x t|c t k IH]; intros b s; simpl; intros Hw.
  - intros Hp. by exists (q_remote_bidi_limit s), t.
  - destruct Hw as [[limit ->] Hk]. intros (_ & Ht & Hl). simpl in *.
    specialize (IH 0 t b (set_remote_limit limit (set_conn t s)) (Hk 0 t)).
    specialize (Hl 0 t). rewrite orb_false_r in Hl. specialize (IH Hl).
    destruct (serve _ _) as [x s']. destruct IH as (limit' & t' & -> & Hp). exists limit', t'.
    split; [done|]. unfold vw in *. simpl in Hp. by rewrite Ht in Hp.
Qed.

(** What [poll] makes of a chunk of which the library took [n] bytes. *)
Definition sent_more (n : nat) (c : Chunk) : Chunk :=
  mk_chunk (c_bytes c) (c_start c) (c_sent c + n) (c_fin c) (c_sent c + n =? length (c_bytes c))%nat.

Section Sent.
Context (q : list Chunk) (i n : nat) (c : Chunk).
Context (Hi : q !! i = Some c) (Hc : c_submitted c = false).
Context (Ht : Forall (fun c => c_submitted c = true) (take i q)) (Ho : in_order q).
Context (Hn : (n <= length (drop (c_sent c) (c_bytes c)))%nat).

Lemma sent_bytes : c_bytes <$> <[i := sent_more n c]> q = c_bytes <$> q.
Proof. rewrite list_fmap_insert. simpl. apply list_insert_id. by rewrite list_lookup_fmap, Hi. Qed.

Lemma sent_split : <[i := sent_more n c]> q = take i q ++ sent_more n c :: drop (S i) q.
Proof. apply insert_take_drop. by eapply lookup_lt_Some. Qed.

Lemma sent_in_order : in_order (<[i := sent_more n c]> q).
Proof.
  destruct (in_order_first q i c Ho Hi Hc Ht) as (Hd & Hs & Hf). rewrite sent_split. rewrite length_drop in Hn.
  destruct (decide (c_sent c + n = length (c_bytes c))%nat) as [He|He].
  - exists (take i q ++ [sent_more n c]), (drop (S i) q). split_and!.
    + by rewrite <- app_assoc.
    + apply Forall_app. split; [done|]. apply Forall_singleton. split; simpl; [by apply Nat.eqb_eq|done].
    + destruct (drop (S i) q) as [|c1 rest]; [done|]. apply Forall_cons in Hf as [[Hf1 Hf2] Hf].
      split_and!; [done|lia|done].
  - exists (take i q), (sent_more n c :: drop (S i) q). split; [done|]. split; [done|]. simpl.
    split; [by apply Nat.eqb_neq|]. split; [lia|done].
Qed.

Lemma sent_placed base : placed base q -> placed base (<[i := sent_more n c]> q).
Proof.
  intros Hp j c' Hj. assert (bytes_of (take j (<[i:=sent_more n c]> q)) = bytes_of (take j q)) as ->.
  { unfold bytes_of. by rewrite !fmap_take, sent_bytes. }
  destruct (decide (i = j)) as [<-|Hne].
  - rewrite list_lookup_insert_eq in Hj by (by eapply lookup_lt_Some). injection Hj as <-. simpl. by apply Hp.
  - rewrite list_lookup_insert_ne in Hj by done. by apply Hp.
Qed.

Lemma sent_fin fin : fin_last fin q -> fin_last fin (<[i := sent_more n c]> q).
Proof.
  intros Hp j c' Hj. rewrite length_insert. destruct (decide (i = j)) as [<-|Hne].
  - rewrite list_lookup_insert_eq in Hj by (by eapply lookup_lt_Some). injection Hj as <-. simpl. by apply Hp.
  - rewrite list_lookup_insert_ne in Hj by done. by apply Hp.
Qed.

Lemma sent_pending :
  pending q = take n (drop (c_sent c) (c_bytes c)) ++ pending (<[i := sent_more n c]> q).
Proof.
  destruct (in_order_first q i c Ho Hi Hc Ht) as (Hd & _ & _). rewrite sent_split.
  rewrite <- (take_drop_middle q i c Hi) at 1. rewrite !pending_app, !(pending_done (take i q)) by done. simpl.
  rewrite !pending_cons. simpl. rewrite app_assoc. f_equal.
  by rewrite <- drop_drop, take_drop.
Qed.
End Sent.

Lemma taken_take id data fin v i :
  taken (view_take id data fin v) i = if decide (id = i) then taken v id ++ data else taken v i.
Proof. unfold taken. simpl. rewrite lookup_insert. by case_decide. Qed.

Lemma ledger_take b id st i c n s t limit :
  ok b 0 s -> q_streams s !! id = Some st -> id ∉ v_gone (vw s) ->
  st_chunks st !! i = Some c -> c_submitted c = false ->
  Forall (fun c => c_submitted c = true) (take i (st_chunks st)) ->
  (n <= length (drop (c_sent c) (c_bytes c)))%nat ->
  tcp_view t = view_take id (take n (drop (c_sent c) (c_bytes c)))
                 (c_fin c && (Z.of_nat n =? len (drop (c_sent c) (c_bytes c)))) (vw s) ->
  let s' := put_stream id (set_chunks (<[i := sent_more n c]> (st_chunks st)) st)
              (set_remote_limit limit (set_conn t s)) in
  quic_inv false s' -> ok b 0 s'.
Proof.
  intros Hs Hid Hg Hi Hc Hpre Hn Ht s' Hinv.
  destruct (l_open _ _ _ _ _ Hs id st Hid Hg) as [(released & Hw & Hl & Hp) Ho Htk He Hf].
  set (q := st_chunks st) in *. set (data := take n (drop (c_sent c) (c_bytes c))) in *.
  set (fin := c_fin c && _) in *. assert (vw s' = view_take id data fin (vw s)) as Hv by done.
  assert (pending q = data ++ pending (<[i := sent_more n c]> q)) as Hpend by (by apply sent_pending).
  assert (forall bidi, forgotten bidi s' = forgotten bidi s) as Hfg.
  { intros bidi. transitivity (forgotten bidi (put_stream id st s)); [|apply forgotten_put; left; by eexists].
    unfold forgotten. rewrite Hv. simpl. by rewrite !dom_insert_L. }
  destruct Hs. split; rewrite ?Hfg, ?Hv; try done.
  - intros j y. simpl. rewrite lookup_insert. case_decide as Hd.
    + subst j. intros [= <-] _. split; simpl.
      * exists released. split_and!; [by rewrite Hw; unfold bytes_of; rewrite sent_bytes|done|by apply sent_placed].
      * by apply sent_in_order.
      * rewrite taken_take. destruct (decide (id = id)) as [_|]; [|done]. by rewrite Htk, Hpend, app_assoc.
      * done.
      * by apply sent_fin.
    + intros Hj Hgj. apply (stream_ok_view (vw s)); [auto| |done]. rewrite taken_take. by case_decide.
  - intros j. simpl. rewrite lookup_insert. case_decide as Hd; [done|]. intros Hj Hgj. rewrite taken_take.
    rewrite decide_False by done. auto.
  - intros j y. simpl. rewrite lookup_insert. case_decide as Hd; [|apply l_closed0]. subst j. intros [= <-].
    exact (l_closed0 id st Hid).
  - intros j y. simpl. rewrite lookup_insert. case_decide as Hd; [|apply l_ended0]. subst j. intros [= <-].
    exact (l_ended0 id st Hid).
  - intros j. rewrite taken_take. case_decide as Hd; [|apply l_prefix0]. subst j. rewrite Htk, Hpend, app_assoc.
    by apply prefix_app_r.
  - intros j Hj. rewrite taken_take. case_decide as Hd.
    2: { apply l_fin0. unfold view_take in Hj. simpl in Hj. destruct fin; set_solver. }
    subst j. destruct (decide (id ∈ v_fin (vw s))) as [Hold|Hold].
    + destruct (l_fin0 id Hold) as [HF HT]. split; [done|].
      assert (pending q = []) as Hnil.
      { pose proof (f_equal length Htk) as Hlen. rewrite <- HT, length_app in Hlen. apply length_zero_iff_nil. lia. }
      rewrite Hnil in Hpend. symmetry in Hpend. apply app_eq_nil in Hpend as [-> _].
      by rewrite app_nil_r.
    + simpl in Hj. unfold fin in Hj. destruct (c_fin c && _) eqn:Ef; [|done]. apply andb_true_iff in Ef as [Ef1 Ef2].
      apply Z.eqb_eq in Ef2. destruct (Hf i c Hi Ef1) as [Hfin Hlast]. split; [by rewrite (l_ended0 id st Hid)|].
      rewrite Htk. f_equal. unfold data. rewrite take_ge by (unfold len in Ef2; lia).
      rewrite <- (take_drop_middle q i c Hi), pending_app, pending_cons.
      rewrite (pending_done (take i q)) by (by eapply in_order_first).
      rewrite (drop_ge q (S i)) by lia. by rewrite app_nil_r.
Qed.

Lemma books_limit s t limit : books s -> tcp_view t = vw s -> books (set_remote_limit limit (set_conn t s)).
Proof.
  intros Hs Ht. apply (books_flags (set_conn t s)); [by apply books_conn|done|done|].
  by apply inv_limit, inv_conn, (l_budgets _ _ _ _ _ Hs).
Qed.

Lemma poll_chunk_books now id i c st s :
  books s -> q_streams s !! id = Some st -> st_chunks st !! i = Some c -> c_submitted c = false ->
  Forall (fun c => c_submitted c = true) (take i (st_chunks st)) ->
  wp (poll_chunk now id i c) s (fun _ => books) (fun _ => books).
Proof.
  intros Hs Hid Hi Hc Hpre. pose proof (l_budgets _ _ _ _ _ Hs) as Hinv.
  pose proof (poll_chunk_inv false now id i c st s Hinv Hid Hi) as Hp. unfold wp, poll_chunk in *.
  pose proof (serve_writes _ _ false s (writev_writes _ _ _ _ _)
    (writev_law (c_fin c) id (drop (c_sent c) (c_bytes c)) now (q_conn s))) as Hv.
  destruct (serve _ s) as [w s'] eqn:Esv. destruct Hv as (limit & t & -> & Hpost). clear Esv.
  destruct codes_law as (Hc1 & Hc2 & Hc3).
  assert (w_n w < 0 \/ w_used w < 0 -> tcp_view t = vw s) as Hneg.
  { intros Hlt. destruct ((0 <=? w_n w) && (0 <=? w_used w)) eqn:E; [|done]. bool_facts. lia. }
  destruct ((w_n w =? _) || _ || _) eqn:Eb.
  { apply books_limit; [done|]. apply Hneg. left.
    apply orb_true_iff in Eb as [Eb|Eb]; [apply orb_true_iff in Eb as [Eb|Eb]|]; bool_facts; lia. }
  destruct (w_n w <? 0) eqn:En; bool_facts.
  { eapply books_failed, books_limit; [exact Hs|]. apply Hneg. by left. }
  set (c' := if 0 <=? w_used w then _ else _) in *. cbn [q_streams set_remote_limit set_conn] in *. rewrite Hid in *.
  set (s2 := put_stream id _ _) in *.
  assert (books s2) as Hbk.
  { assert (quic_inv false s2) as Hi2.
    { destruct (0 <? w_n w); [|done]. by destruct Hp. }
    unfold books. change (q_failed s2) with (q_failed s).
    destruct (0 <=? w_used w) eqn:Eu; bool_facts.
    - rewrite (proj2 (Z.leb_le 0 (w_n w))) in Hpost by lia. destruct Hpost as (Hg & Hle & Hview).
      unfold s2, c'. apply (ledger_take _ id st i c (Z.to_nat (w_used w)) s t limit Hs Hid Hg Hi Hc Hpre); [| |done].
      + unfold len in Hle. lia.
      + by rewrite Z2Nat.id.
    - assert (books (set_remote_limit limit (set_conn t s))) as Hl by (apply books_limit; [done|apply Hneg; by right]).
      eapply (ledger_same _ 0 _ _ Hl); [|exact Hi2]. split_and!; [done| |done]. unfold s2, c'. simpl.
      apply insert_id. rewrite Hid, list_insert_id by done. by destruct st. }
  destruct (0 <? w_n w); [|done]. apply books_conn; [done|]. by rewrite tx_time_law.
Qed.

Lemma poll_chunks_books now id st i q s :
  books s -> q_streams s !! id = Some st -> drop i (st_chunks st) = q ->
  Forall (fun c => c_submitted c = true) (take i (st_chunks st)) ->
  wp (poll_chunks now id i q) s (fun _ => books) (fun _ => books).
Proof.
  intros Hs Hid. revert i; induction q as [|c q IH]; intros i Hq Hpre; simpl; [done|].
  assert (st_chunks st !! i = Some c) as Hi by (by rewrite <- (Nat.add_0_r i), <- lookup_drop, Hq).
  destruct (c_submitted c) eqn:Ec; [|by eapply poll_chunk_books]. apply IH.
  - by rewrite <- Nat.add_1_r, <- drop_drop, Hq.
  - rewrite (take_S_r _ _ c Hi). apply Forall_app. split; [done|]. by apply Forall_singleton.
Qed.

Lemma poll_streams_books now uni ids : maintains books (poll_streams now uni ids).
Proof.
  induction ids as [|id ids IH]; intros s Hs; [done|]. unfold wp. simpl.
  destruct (q_streams s !! id) as [st|] eqn:Hid; [|by apply IH]. split_inner; [by apply IH|].
  pose proof (poll_chunks_books now id st 0 _ s Hs Hid eq_refl ltac:(constructor)) as Hp. unfold wp in Hp.
  rewrite drop_0 in Hp.
  destruct (poll_chunks now id 0 (st_chunks st) s) as [[p|] s'|e s'|]; try done. by apply IH.
Qed.

Lemma quic_poll_books now : maintains books (quic_poll now).
Proof.
  assert (maintains books (poll_rest now)) as Hrest.
  { intros s Hs. unfold wp, poll_rest.
    pose proof (serve_writes _ _ false s (write_pkt_writes _ _) (write_pkt_law now (q_conn s))) as Hv.
    destruct (serve _ s) as [w s']. destruct Hv as (limit & t & -> & Ht).
    pose proof (books_limit s t limit Hs Ht) as Hl.
    destruct (w_n w <? 0); [by eapply books_failed|]. destruct (w_n w =? 0); [done|].
    apply books_conn; [done|]. by rewrite tx_time_law. }
  apply maintains_bind.
  { intros s Hs. eapply wp_mono; [by apply check_time_books| |done]. by intros _ s' [? _]. }
  intros _. apply maintains_bind; [intros s; apply poll_streams_books|]. intros [p|]; [apply maintains_ret|].
  apply maintains_bind; [intros s; apply poll_streams_books|]. intros [p|]; [apply maintains_ret|done].
Qed.
End Kept.

(** ** What was written *)

(** The bytes an operation adds to a stream, and whether it ends it. *)
Definition wrote (o : QOp) s (id : Z) : bytes :=
  match o with
  | qop_write id' data fin =>
      if bool_decide (id = id') then match quic_write id' data fin s with Returns _ _ => data | _ => [] end else []
  | _ => []
  end.

Definition ended_now (o : QOp) s (id : Z) : bool :=
  match o with
  | qop_write id' data fin =>
      bool_decide (id = id') && fin && match quic_write id' data fin s with Returns _ _ => true | _ => false end
  | _ => false
  end.

Fixpoint written_by (ops : list QOp) s (id : Z) : bytes :=
  match ops with
  | [] => []
  | o :: rest => wrote o s id ++ written_by rest (quic_op o s) id
  end.

Fixpoint ended_by (ops : list QOp) s (id : Z) : bool :=
  match ops with
  | [] => false
  | o :: rest => ended_now o s id || ended_by rest (quic_op o s) id
  end.

Lemma stream_ok_write v id w st data fin :
  stream_ok v id w st -> st_fin st = false ->
  stream_ok v id (w ++ data)
    (mk_qstream (st_chunks st ++ [mk_chunk data (st_end st) 0 fin false]) (st_end st + len data)
       (st_unread st) fin (st_cancelled st) (st_closed st)).
Proof.
  intros [(released & Hw & Hl & Hp) Ho Ht He Hf] Hn. split; simpl.
  - exists released. split_and!; [|done|].
    + by rewrite bytes_of_app, bytes_of_cons, app_nil_r, app_assoc, <- Hw.
    + apply placed_snoc; [done|]. simpl. by rewrite He, Hw, len_app.
  - by apply in_order_snoc.
  - by rewrite pending_app, pending_cons, app_nil_r, app_assoc, <- Ht.
  - by rewrite He, len_app.
  - rewrite Hn in Hf. by apply (fin_last_snoc _ (mk_chunk data (st_end st) 0 fin false)).
Qed.

Lemma ledger_ext W W' F F' b x s :
  (forall id, W id = W' id) -> (forall id, F id = F' id) -> ledger W F b x s -> ledger W' F' b x s.
Proof.
  intros HW HF []. split; try done.
  - intros id st Hid Hg. rewrite <- HW. auto.
  - intros id Hid Hg. rewrite <- HW, <- HF. auto.
  - intros id st Hid. rewrite <- HF. eauto.
  - intros id. by rewrite <- HW.
  - intros id Hid. rewrite <- HW, <- HF. auto.
Qed.

Lemma quic_write_books W F id data fin s :
  books W F s ->
  let o := qop_write id data fin in
  books (fun i => W i ++ wrote o s i) (fun i => F i || ended_now o s i) (quic_op o s).
Proof.
  intros Hs. pose proof (quic_write_inv false id data fin s (l_budgets _ _ _ _ _ Hs) ltac:(done)) as Hi.
  simpl. unfold wp, wrote, ended_now, quic_write in *.
  assert (forall f : bool, ledger (fun i => W i ++ (if bool_decide (i = id) then [] else []))
    (fun i => F i || bool_decide (i = id) && f && false) (q_failed s) 0 s) as Hsame.
  { intros f. eapply ledger_ext; [..|exact Hs]; intros i; simpl.
    - by destruct (bool_decide _); rewrite app_nil_r.
    - by rewrite andb_false_r, orb_false_r. }
  destruct (q_streams s !! id) as [st|] eqn:Hid; [|apply Hsame].
  destruct (q_failed s || q_ended s || st_fin st || st_cancelled st) eqn:E1; [apply Hsame|].
  destruct ((wrap64 _ <? _) || _) eqn:E2; [apply Hsame|].
  destruct ((length data =? 0)%nat && negb fin) eqn:E3.
  { bool_facts. apply length_zero_iff_nil in H1. subst data fin. eapply ledger_ext; [..|exact Hs]; intros i; simpl.
    - by destruct (bool_decide _); rewrite app_nil_r.
    - by rewrite andb_false_r, orb_false_r. }
  assert (st_fin st = false) as Hfin by (bool_facts; done).
  simpl. set (st' := mk_qstream _ _ _ _ _ _) in *. destruct Hs. unfold books. simpl.
  assert (forall j, j <> id -> bool_decide (j = id) = false) as Hne by (intros; by apply bool_decide_eq_false).
  assert (F id = false) as HF by (by rewrite (l_ended0 id st Hid)).
  assert (forall bidi, forgotten bidi (set_buffered (q_buffered s + len data) (put_stream id st' s)) = forgotten bidi s) as Hfg.
  { intros. apply forgotten_put. left. by eexists. }
  split; rewrite ?Hfg; try done.
  - intros j y. simpl. rewrite lookup_insert. case_decide as Hd.
    + subst j. intros [= <-] Hg. rewrite bool_decide_true by done. by apply stream_ok_write; [apply l_open0|].
    + intros Hj Hg. rewrite Hne, app_nil_r by done. auto.
  - intros j. simpl. rewrite lookup_insert. case_decide as Hd; [done|]. intros Hj Hg. rewrite Hne by done.
    simpl. rewrite app_nil_r, orb_false_r. auto.
  - intros j y. simpl. rewrite lookup_insert. case_decide as Hd; [|apply l_closed0]. subst j. intros [= <-].
    exact (l_closed0 id st Hid).
  - intros j y. simpl. rewrite lookup_insert. case_decide as Hd.
    + subst j. intros [= <-]. rewrite bool_decide_true, HF by done. simpl. by rewrite andb_true_r.
    + rewrite Hne by done. simpl. rewrite orb_false_r. apply l_ended0.
  - intros j. by apply prefix_app_r.
  - intros j Hj. destruct (l_fin0 j Hj) as [HFj HTj]. assert (j <> id) by (intros ->; congruence).
    rewrite Hne by done. simpl. by rewrite app_nil_r, HFj.
Qed.

Lemma quic_op_books W F o s :
  qop_ok o -> books W F s ->
  books (fun id => W id ++ wrote o s id) (fun id => F id || ended_now o s id) (quic_op o s).
Proof.
  intros Ho Hs.
  assert (forall s', books W F s' -> books (fun id => W id ++ []) (fun id => F id || false) s') as Hsame.
  { intros s' Hs'. eapply ledger_ext; [..|exact Hs']; intros id; [by rewrite app_nil_r|by rewrite orb_false_r]. }
  destruct o; try (apply quic_write_books; done); apply Hsame; simpl.
  - by apply maintains_after; [apply quic_receive_books|].
  - by apply maintains_after; [apply quic_poll_books|].
  - by apply maintains_after; [apply quic_handle_expiry_books|].
  - by apply maintains_after; [apply quic_open_stream_books|].
  - by apply quic_take_books.
  - by apply maintains_after; [apply quic_consume_books|].
  - by apply maintains_after; [apply quic_cancel_books|].
  - by apply maintains_after; [apply quic_close_books|].
Qed.

Lemma quic_run_books W F ops s :
  Forall qop_ok ops -> books W F s ->
  books (fun id => W id ++ written_by ops s id) (fun id => F id || ended_by ops s id) (quic_run ops s).
Proof.
  intros Hops. revert W F s; induction Hops as [|o ops Ho _ IH]; intros W F s Hs.
  - eapply ledger_ext; [..|exact Hs]; intros id; simpl; [by rewrite app_nil_r|by rewrite orb_false_r].
  - pose proof (IH _ _ _ (quic_op_books W F o s Ho Hs)) as Hr. eapply ledger_ext; [..|exact Hr]; intros id; simpl.
    + by rewrite app_assoc.
    + by rewrite orb_assoc.
Qed.

(** The library at the start of a connection. *)
Definition fresh_view (v : View) : Prop :=
  v_taken v = ∅ /\ v_fin v = ∅ /\ v_acked v = ∅ /\ v_gone v = ∅ /\ v_unpaid v = 0 /\
  v_credit_bidi v = 0 /\ v_credit_uni v = 0.

Lemma books_new o now t :
  quic_options_ok o = true -> 0 <= qo_max_streams o -> fresh_view (tcp_view t) ->
  books (fun _ => []) (fun _ => false) (new_engine o now t).
Proof.
  intros Ho Hm (H1 & H2 & H3 & H4 & H5 & H6 & H7).
  assert (forall id, taken (tcp_view t) id = []) as Ht by (intros; unfold taken; by rewrite H1, lookup_empty).
  assert (forall bidi, forgotten bidi (new_engine o now t) = ∅) as Hf.
  { intros bidi. unfold forgotten, vw. simpl. rewrite H4. set_solver. }
  split; rewrite ?Hf; unfold vw; simpl; rewrite ?H2, ?H4, ?H5, ?H6, ?H7; try done.
  - by apply inv_new.
  - intros id. by rewrite Ht.
  - intros id. unfold acked. by rewrite H3, lookup_empty.
Qed.
End Ledger.

(** C16: After any sequence of operations, over any library that keeps the laws: the
    bytes of a stream the library has taken are a prefix of those the application
    wrote, and all of them when it has been given the end of the stream; and of an
    open stream everything that was not acknowledged is still held, in order, with
    exactly what was not yet taken left to hand over. *)
Theorem quic_bytes_in_order {T : Type} {HT : Ngtcp2 T} {HL : Ngtcp2Laws T} (o : QuicOptions) (now : Z) (t : T)
    (ops : list QOp) :
  quic_options_ok o = true -> 0 <= qo_max_streams o -> fresh_view (tcp_view t) -> Forall qop_ok ops ->
  let s0 := new_engine o now t in
  let s := quic_run ops s0 in
  let v := tcp_view (q_conn s) in
  forall id,
    taken v id `prefix_of` written_by ops s0 id /\
    (id ∈ v_fin v -> ended_by ops s0 id = true /\ taken v id = written_by ops s0 id) /\
    (forall st, q_streams s !! id = Some st -> (id ∉ v_gone v) ->
       written_by ops s0 id = taken v id ++ pending (st_chunks st) /\
       exists released, written_by ops s0 id = released ++ bytes_of (st_chunks st) /\
         len released <= acked v id).
Proof.
  intros Ho Hm Hv Hops s0 s v id.
  pose proof (quic_run_books _ _ ops s0 Hops (books_new o now t Ho Hm Hv)) as Hb. fold s in Hb. split_and!.
  - apply (l_prefix _ _ _ _ _ Hb id).
  - intros Hf. apply (l_fin _ _ _ _ _ Hb id Hf).
  - intros st Hid Hg. destruct (l_open _ _ _ _ _ Hb id st Hid Hg) as [(released & Hw & Hl & _) _ Ht _ _].
    split; [exact Ht|]. exists released. split; [exact Hw|exact Hl].
Qed.

(** C17: Credit is given back exactly once.  While the engine has not failed, the
    bytes that were delivered and not credited are exactly those not consumed; and
    the credit for new streams of a kind equals the number of the peer's streams of
    that kind that are over and whose data was all consumed. *)
Theorem quic_credit_exact {T : Type} {HT : Ngtcp2 T} {HL : Ngtcp2Laws T} (o : QuicOptions) (now : Z) (t : T)
    (ops : list QOp) :
  quic_options_ok o = true -> 0 <= qo_max_streams o -> fresh_view (tcp_view t) -> Forall qop_ok ops ->
  let s := quic_run ops (new_engine o now t) in
  let v := tcp_view (q_conn s) in
  (q_failed s = false -> v_unpaid v = total st_unread (q_streams s)) /\
  v_credit_bidi v = Z.of_nat (size (forgotten true s)) /\
  v_credit_uni v = Z.of_nat (size (forgotten false s)).
Proof.
  intros Ho Hm Hv Hops s v.
  pose proof (quic_run_books _ _ ops _ Hops (books_new o now t Ho Hm Hv)) as Hb. fold s in Hb. split_and!.
  - intros Hf. pose proof (l_unpaid _ _ _ _ _ Hb Hf) as Hu. rewrite Z.add_0_r in Hu.
    rewrite <- (qi_received _ _ (l_budgets _ _ _ _ _ Hb)). exact Hu.
  - apply (l_bidi _ _ _ _ _ Hb).
  - apply (l_uni _ _ _ _ _ Hb).
Qed.

(** A request of fourteen bytes goes out in two packets; the first is acknowledged. *)
Definition sending_run : list QOp :=
  [qop_open false; qop_write 0 (lit "hello") false; qop_write 0 (lit "QUIC, bye") true;
   qop_poll 1; qop_poll 2; qop_receive [] 3; qop_poll 4].

Definition acking_peer : list (list QCallback) := [[cb_acked 0 0 5]].

Lemma quic_bytes_in_order_witness :
  let s := quic_run sending_run (new_engine small_client 0 (toy_client acking_peer)) in
  taken (y_view (q_conn s)) 0 = lit "helloQUIC, bye" /\
  bytes_of <$> (st_chunks <$> q_streams s !! 0) = Some (lit "QUIC, bye") /\
  taken (tcp_view (q_conn s)) 0 `prefix_of`
    written_by sending_run (new_engine small_client 0 (toy_client acking_peer)) 0.
Proof.
  intros s. split; [vm_compute; reflexivity|]. split; [vm_compute; reflexivity|].
  assert (Forall qop_ok sending_run) as Hops by repeat constructor.
  assert (fresh_view (tcp_view (toy_client acking_peer))) as Hv by (by vm_compute).
  exact (proj1 (quic_bytes_in_order small_client 0 (toy_client acking_peer) sending_run
    eq_refl ltac:(discriminate) Hv Hops 0)).
Defined.

(** The peer's stream is closed before its data is consumed: the credit for a new
    one is given when it is. *)
Lemma quic_credit_exact_witness :
  let s := quic_run [qop_receive [] 1; qop_receive [] 2; qop_take]
             (new_engine small_server 0 (toy_server closing_peer)) in
  let s' := quic_op (qop_consume 0 2) s in
  v_credit_bidi (y_view (q_conn s)) = 0 /\ v_unpaid (y_view (q_conn s)) = 2 /\
  v_credit_bidi (y_view (q_conn s')) = 1 /\ v_unpaid (y_view (q_conn s')) = 0 /\
  v_credit_bidi (tcp_view (q_conn s')) = Z.of_nat (size (forgotten true s')).
Proof.
  intros s s'. do 4 (split; [vm_compute; reflexivity|]).
  assert (Forall qop_ok [qop_receive [] 1; qop_receive [] 2; qop_take; qop_consume 0 2]) as Hops
    by (repeat constructor; discriminate).
  assert (fresh_view (tcp_view (toy_server closing_peer))) as Hv by (by vm_compute).
  exact (proj1 (proj2 (quic_credit_exact small_server 0 (toy_server closing_peer) _
    eq_refl ltac:(discriminate) Hv Hops))).
Defined.
