(* ===== verification/QuicConnection.v ===== *)
(** * QuicConnection: [quic::Connection] (quic/include/mira/quic/connection.hpp)

    A QUIC engine driven over a datagram transport by the code of
    [DatagramConnection].  Every operation is a run of the engine's operations,
    so the theorems of [QuicInv] and [QuicStreams] hold of connections as well;
    a reader gets the events of its stream in order.  The last section has four
    ways in which the connection does not do what its comments promise. *)

From stdpp Require Import gmap.
From S2P Require Import Prelude Errors Endpoint Streams DatagramConnection DatagramPump Quic QuicLaws QuicInv.

Local Open Scope Z_scope.
Local Open Scope mira_scope.

(** ** The class *)

(** [StreamChunk] *)
Record StreamChunk := mk_stream_chunk {
  sc_data : bytes;
  sc_fin : bool;
  sc_reset : bool;
  sc_error_code : Z;
}.

#[export] Instance quic_stream_event : StreamEvent QEvent := {| ev_stream := qe_stream |}.

(** What [take_chunk] makes of an event. *)
Definition chunk_of (e : QEvent) : option StreamChunk :=
  match qe_kind e with
  | QKind.data => Some (mk_stream_chunk (qe_data e) (qe_fin e) false 0)
  | QKind.reset => Some (mk_stream_chunk [] false true (qe_value e))
  | QKind.closed => Some (mk_stream_chunk [] true false 0)
  | QKind.acknowledged => None
  end.

Section Class.
Context {W T : Type} `{DatagramTransport W} `{Ngtcp2 T}.

#[export] Instance quic_datagram_engine : DatagramEngine (QImpl T) QEvent := {|
  eng_poll := quic_poll;
  eng_receive := quic_receive;
  eng_handle_expiry := quic_handle_expiry;
  eng_close := quic_close;
  eng_expiry := quic_expiry;
  eng_is_server := quic_is_server;
  eng_take_events := quic_take_events;
|}.

Abbreviation Conn := (DConn W (QImpl T) QEvent).

(** [take_chunk(stream)] *)
Definition take_chunk (id : Z) : Conn -> option StreamChunk * Conn := take_from id (pick_front chunk_of).

(** [read(stream, io)] *)
Definition qc_read (fuel : nat) (id : Z) (io : IoOptions) : M Conn StreamChunk :=
  guarded (pump_for fuel (take_chunk id) io).

(** [write(stream, bytes, fin, io)] *)
Definition qc_write (id : Z) (data : bytes) (fin : bool) (io : IoOptions) : M Conn unit :=
  on_engine (quic_write id data fin) ;;; dg_flush io.

(** [open_stream], [cancel], [consume] *)
Definition qc_open_stream (uni : bool) : M Conn Z := on_engine (quic_open_stream uni).
Definition qc_cancel (id code : Z) : M Conn unit := on_engine (quic_cancel id code).
Definition qc_consume (id n : Z) : M Conn unit := on_engine (quic_consume id n).

(** [connect]: [bind] makes the transport, [setup] the library. *)
Definition qc_connect (fuel : nat) (bind : Endpoint -> Result W) (setup : QuicOptions -> bytes -> Z -> Result T)
    (o : QuicOptions) (io : IoOptions) : Outcome Error unit Conn :=
  match bind (qo_local o) with
  | Fail e => Fails e tt
  | Ok w => dg_start fuel (quic_client setup o) quic_handshake_complete (qo_remote o) io w
  end.

(** [serve]: on the transport that received the first datagram. *)
Definition qc_serve (fuel : nat) (w : W) (setup : QuicOptions -> bytes -> Z -> Result T) (o : QuicOptions)
    (initial : bytes) (io : IoOptions) : Outcome Error unit Conn :=
  dg_start fuel (quic_accept setup o initial) quic_handshake_complete (qo_remote o) io w.
End Class.

(** ** The engine keeps the contract of connections *)

Section Contract.
Context {T : Type} `{Ngtcp2 T}.
Implicit Type s : QImpl T.

(** Events are added at the end, the options stay. *)
Definition extends s s' : Prop := q_events s `prefix_of` q_events s' /\ q_options s' = q_options s.

#[export] Instance extends_preorder : PreOrder extends.
Proof. split; [by intros s|]. intros s1 s2 s3 [H1 E1] [H2 E2]. split; [by etrans|by rewrite E2]. Qed.

Lemma extends_same s s' : q_events s' = q_events s -> q_options s' = q_options s -> extends s s'.
Proof. intros He Ho. unfold extends. by rewrite He, Ho. Qed.

Abbreviation grows := (advances extends).

Lemma push_extends e s : extends s (push_event e s).2.
Proof. unfold push_event. case_match; [done|]. split; [by apply prefix_app_r|done]. Qed.

Lemma credit_extends id s : extends s (return_stream_credit id s).
Proof. apply extends_same; unfold return_stream_credit; by case_match. Qed.

Lemma handle_extends cb s : extends s (handle_quic cb s).2.
Proof.
  destruct cb as [fin id data|id offset size|id code|id code|limit]; simpl.
  - unfold on_stream_data. case_match; [done|]. split; [by apply prefix_app_r|done].
  - unfold on_acked. etrans; [|by apply push_extends]. destruct (q_streams s !! id); [|done].
    destruct (release_acked _ _ _). by apply extends_same.
  - unfold on_stream_close. destruct (q_streams s !! id) as [st|]; simpl.
    + destruct (st_unread st =? 0).
      * etrans; [|apply push_extends]. etrans; [|apply credit_extends]. by apply extends_same.
      * etrans; [|apply push_extends]. by apply extends_same.
    + etrans; [|apply push_extends]. apply credit_extends.
  - apply push_extends.
  - by apply extends_same.
Qed.

Lemma serve_extends {R} (r : Run T R) s : extends s (serve r s).2.
Proof.
  revert s; induction r as [x t|cb t k IH]; intros s; simpl; [by apply extends_same|].
  pose proof (handle_extends cb (set_conn t s)) as Hh. destruct (handle_quic cb (set_conn t s)) as [rc s'].
  etrans; [|apply IH]. etrans; [|exact Hh]. by apply extends_same.
Qed.

Lemma check_time_grows now : grows (check_time now).
Proof. intros s. unfold wp, check_time. destruct (_ || _ || _); [done|]. by apply extends_same. Qed.

Lemma quic_receive_grows packet now : grows (quic_receive packet now).
Proof.
  apply advances_bind; [typeclasses eauto|apply check_time_grows|]. intros _ s. unfold wp.
  pose proof (serve_extends (tcp_read_pkt packet now (q_conn s)) s) as Hv. destruct (serve _ s) as [rv s']. simpl in Hv.
  destruct (_ =? _); [|destruct (negb _)]; by (simpl; etrans; [exact Hv|apply extends_same]).
Qed.

Lemma quic_handle_expiry_grows now : grows (quic_handle_expiry now).
Proof.
  apply advances_bind; [typeclasses eauto|apply check_time_grows|]. intros _ s. unfold wp.
  pose proof (serve_extends (tcp_handle_expiry now (q_conn s)) s) as Hv. destruct (serve _ s) as [rv s']. simpl in Hv.
  destruct (negb _); by (simpl; etrans; [exact Hv|apply extends_same]).
Qed.

Lemma poll_chunk_grows now id i c : grows (poll_chunk now id i c).
Proof.
  intros s. unfold wp, poll_chunk.
  match goal with |- context [serve ?r s] => pose proof (serve_extends r s) as Hv end.
  destruct (serve _ s) as [w s']. simpl in Hv. destruct (_ || _ || _); [done|].
  destruct (w_n w <? 0); [by (simpl; etrans; [exact Hv|apply extends_same])|].
  set (s2 := match q_streams s' !! id with Some _ => _ | None => _ end).
  assert (extends s' s2) as H2 by (unfold s2; destruct (q_streams s' !! id); by apply extends_same).
  destruct (0 <? w_n w); simpl; (etrans; [exact Hv|]); (etrans; [exact H2|]); by apply extends_same.
Qed.

Lemma poll_chunks_grows now id i q : grows (poll_chunks now id i q).
Proof.
  revert i; induction q as [|c q IH]; intros i; simpl; [apply advances_ret; typeclasses eauto|].
  destruct (c_submitted c); [apply IH|apply poll_chunk_grows].
Qed.

Lemma poll_streams_grows now uni ids : grows (poll_streams now uni ids).
Proof.
  induction ids as [|id ids IH]; intros s; unfold wp; simpl; [done|].
  destruct (q_streams s !! id) as [st|]; [|apply IH].
  destruct (_ || _); [apply IH|]. pose proof (poll_chunks_grows now id 0 (st_chunks st) s) as Hp. unfold wp in Hp.
  destruct (poll_chunks now id 0 (st_chunks st) s) as [[p|] s'|e s'|]; try done.
  specialize (IH s'). unfold wp in IH. destruct (poll_streams now uni ids s') as [o s2|e s2|]; [| |done]; by etrans.
Qed.

Lemma quic_poll_grows now : grows (quic_poll now).
Proof.
  apply advances_bind; [typeclasses eauto|apply check_time_grows|]. intros _.
  apply advances_bind; [typeclasses eauto|intros s; apply poll_streams_grows|]. intros [p|]; [apply advances_ret; typeclasses eauto|].
  apply advances_bind; [typeclasses eauto|intros s; apply poll_streams_grows|]. intros [p|]; [apply advances_ret; typeclasses eauto|].
  intros s. unfold wp, poll_rest. pose proof (serve_extends (tcp_write_pkt now (q_conn s)) s) as Hv.
  destruct (serve _ s) as [w s']. simpl in Hv.
  destruct (w_n w <? 0); [by (simpl; etrans; [exact Hv|apply extends_same])|].
  destruct (w_n w =? 0); [done|]. by (simpl; etrans; [exact Hv|apply extends_same]).
Qed.

Lemma quic_close_grows code now : grows (quic_close code now).
Proof.
  intros s. unfold wp, quic_close. destruct (_ <=? _); [done|]. destruct (_ || _); [done|].
  destruct (tcp_write_connection_close _ _ _) as [w t]. destruct (w_n w <? 0); by apply extends_same.
Qed.

Lemma grows_wp {A} (m : Q T A) s :
  grows m ->
  wp m s (fun _ s' => q_events s `prefix_of` q_events s' /\ quic_is_server s' = quic_is_server s)
    (fun _ s' => q_events s `prefix_of` q_events s' /\ quic_is_server s' = quic_is_server s).
Proof.
  intros Hm. unfold quic_is_server. eapply wp_mono; [apply Hm| |]; cbv beta; intros ? s' [He ->]; by split.
Qed.

#[export] Instance quic_engine_laws : EngineLaws (QImpl T) QEvent.
Proof.
  refine {| eng_events := q_events |}; simpl.
  - intros now x. apply grows_wp, quic_poll_grows.
  - intros data now x. apply grows_wp, quic_receive_grows.
  - intros now x. apply grows_wp, quic_handle_expiry_grows.
  - intros code now x. apply grows_wp, quic_close_grows.
  - done.
Defined.
End Contract.

(** ** A connection is a run of its engine *)

Inductive QcOp :=
| qc_op_pump (io : IoOptions)
| qc_op_read (id : Z) (io : IoOptions)
| qc_op_write (id : Z) (data : bytes) (fin : bool) (io : IoOptions)
| qc_op_open (uni : bool)
| qc_op_cancel (id code : Z)
| qc_op_consume (id n : Z)
| qc_op_close (code : Z) (io : IoOptions).

(** The argument of [consume] is a [size_t]. *)
Definition qc_op_ok (o : QcOp) : Prop := match o with qc_op_consume _ n => 0 <= n | _ => True end.

Section Refinement.
Context {W T : Type} `{HW : DatagramTransport W} `{!TransportLaws W} `{HT : Ngtcp2 T}.
Abbreviation Conn := (DConn W (QImpl T) QEvent).
Implicit Type c : DConn W (QImpl T) QEvent.

(** Rounds enough for all a transport still has to say. *)
Definition rounds c : nat := S (dg_patience (dc_world c)).

Definition qc_do (o : QcOp) : M Conn unit := fun c =>
  match o with
  | qc_op_pump io => dg_pump io c
  | qc_op_read id io => (qc_read (rounds c) id io ;;; out_ret tt) c
  | qc_op_write id data fin io => qc_write id data fin io c
  | qc_op_open uni => (qc_open_stream uni ;;; out_ret tt) c
  | qc_op_cancel id code => qc_cancel id code c
  | qc_op_consume id n => qc_consume id n c
  | qc_op_close code io => dg_close code io c
  end.

Definition qc_op (o : QcOp) c : Conn := after c (qc_do o c).

Definition qc_run (ops : list QcOp) c : Conn := foldl (fun c o => qc_op o c) c ops.

(** How many of the operations fail. *)
Fixpoint qc_failures (ops : list QcOp) c : nat :=
  match ops with
  | [] => 0
  | o :: ops => (match qc_do o c with Fails _ _ => 1 | _ => 0 end) + qc_failures ops (qc_op o c)
  end.

(** What an operation asks of the engine; closing is asked with its code. *)
Definition qc_asks (o : QcOp) : list (QOp + Z) :=
  match o with
  | qc_op_pump _ | qc_op_read _ _ => []
  | qc_op_write id data fin _ => [inl (qop_write id data fin)]
  | qc_op_open uni => [inl (qop_open uni)]
  | qc_op_cancel id code => [inl (qop_cancel id code)]
  | qc_op_consume id n => [inl (qop_consume id n)]
  | qc_op_close code _ => [inr code]
  end.

Definition qop_of (o : EngCall) : QOp :=
  match o with
  | ec_poll now => qop_poll now
  | ec_receive data now => qop_receive data now
  | ec_expiry now => qop_expiry now
  | ec_close code now => qop_close code now
  | ec_take => qop_take
  end.

Lemma eng_call_quic o (x : QImpl T) : (eng_call o x).2 = quic_op (qop_of o) x.
Proof.
  destruct o as [now|data now|now|code now|]; try done; cbv [eng_call quic_op qop_of eng_poll eng_close quic_datagram_engine];
    [by destruct (quic_poll now x)|by destruct (quic_close code now x)].
Qed.

(** What the engine saw, as a run of [QuicInv]. *)
Definition qops (tr : list (EngCall + QOp)) : list QOp :=
  (fun o => match o with inl o => qop_of o | inr o => o end) <$> tr.

Lemma tr_run_quic tr (x : QImpl T) : (tr_run quic_op tr x).2 = quic_run (qops tr) x.
Proof.
  revert x; induction tr as [|[o|o] tr IH]; intros x; simpl; [done| |apply IH]. rewrite <- eng_call_quic.
  destruct (eng_call o x) as [p x1]. simpl. specialize (IH x1). destruct (tr_run quic_op tr x1). exact IH.
Qed.

Lemma qops_ok tr : Forall (fun a => match a with inl o => qop_ok o | inr _ => True end) (asked tr) -> Forall qop_ok (qops tr).
Proof.
  induction tr as [|[o|o] tr IH]; intros Ha; [constructor| |].
  - constructor; [by destruct o|]. apply IH. destruct o; try exact Ha. exact (Forall_inv_tail Ha).
  - constructor; [exact (Forall_inv Ha)|]. apply IH. exact (Forall_inv_tail Ha).
Qed.

(** The engine went through operations of its own. *)
Definition quic_ran (x x' : QImpl T) : Prop := exists qops, Forall qop_ok qops /\ x' = quic_run qops x.

#[export] Instance quic_ran_preorder : PreOrder quic_ran.
Proof.
  split; [intros x; by exists []|]. intros x1 x2 x3 (q1 & Ho1 & ->) (q2 & Ho2 & ->). exists (q1 ++ q2).
  split; [by apply Forall_app|]. unfold quic_run. by rewrite foldl_app.
Qed.

Lemma eng_run_ran ops (x : QImpl T) : quic_ran x (eng_run ops x).2.
Proof.
  exists (qops (inl <$> ops)). rewrite <- tr_run_quic, tr_run_engine. split; [|done].
  apply qops_ok. rewrite (proj1 (asked_engine ops)). by apply Forall_fmap, Forall_true.
Qed.

Lemma direct_options o (s : QImpl T) :
  match o with qop_open _ | qop_write _ _ _ | qop_cancel _ _ | qop_consume _ _ => True | _ => False end ->
  q_options (quic_op o s) = q_options s.
Proof.
  destruct o as [| | |uni|id data fin| |id n|id code|]; simpl; try done; intros _.
  - unfold quic_open_stream. repeat (split_inner; try done).
  - unfold quic_write. repeat (split_inner; try done).
  - unfold quic_consume, return_stream_credit. repeat (split_inner; try done).
  - unfold quic_cancel. repeat (split_inner; try done).
Qed.

Lemma qc_read_reads fuel id io c :
  dc_pumping c = false -> (dg_patience (dc_world c) < fuel)%nat ->
  wp (qc_read fuel id io) c (read_well id chunk_of c) (fun _ => read_short id chunk_of c).
Proof.
  intros Hp Hf. apply wp_guarded; [by rewrite Hp|]. intros _.
  eapply wp_mono; [by apply (pump_for_reads fuel id chunk_of io)| |].
  - intros a c' (sk & e & Hr & Hsk & He). exists sk, e. split; [by apply guarded_well|done].
  - intros e c' (sk & lost & Hr & Hsk & He). exists sk, lost. split; [by apply guarded_short|done].
Qed.

Abbreviation asks := (tracks (quic_op (T := T))).

(** An operation of the engine that the application calls directly. *)
Lemma direct_asks {A} (m : Q T A) o :
  (forall s, m s <> OutOfFuel) -> (forall s, after s (m s) = quic_op o s) ->
  (forall s, q_options (quic_op o s) = q_options s) -> asks [inl o] (on_engine (W := W) m).
Proof.
  intros Hend Hm Hopt. apply engine_tracks. intros s. split_and!; [apply Hend|apply Hm|].
  simpl. unfold quic_is_server. by rewrite Hopt.
Qed.

Lemma write_asks id data fin : asks [inl (qop_write id data fin)] (on_engine (W := W) (quic_write id data fin)).
Proof.
  apply direct_asks; [intros s; unfold quic_write; by repeat (split_inner; try done)|done|].
  intros s. by apply direct_options.
Qed.

Lemma open_asks uni : asks [inl (qop_open uni)] (on_engine (W := W) (quic_open_stream uni)).
Proof.
  apply direct_asks; [intros s; unfold quic_open_stream; by repeat (split_inner; try done)|done|].
  intros s. by apply direct_options.
Qed.

Lemma cancel_asks id code : asks [inl (qop_cancel id code)] (on_engine (W := W) (quic_cancel id code)).
Proof.
  apply direct_asks; [intros s; unfold quic_cancel; by repeat (split_inner; try done)|done|].
  intros s. by apply direct_options.
Qed.

Lemma consume_asks id n : asks [inl (qop_consume id n)] (on_engine (W := W) (quic_consume id n)).
Proof.
  apply direct_asks; [intros s; unfold quic_consume; by repeat (split_inner; try done)|done|].
  intros s. by apply direct_options.
Qed.

Lemma qc_do_asks o : asks (qc_asks o) (qc_do o).
Proof.
  destruct o as [io|id io|id data fin io|uni|id code|id n|code io]; simpl.
  - apply runs_tracks, pump_runs.
  - intros c. apply wp_bind. eapply wp_mono; [apply (reader_tracks (quic_op (T := T))); unfold rounds; lia|done|done].
  - apply tracks_then; [apply write_asks|apply flush_runs].
  - apply tracks_then; [apply open_asks|apply runs_ret].
  - apply cancel_asks.
  - apply consume_asks.
  - apply close_tracks.
Qed.

Lemma qc_run_tracked ops c :
  tracked (quic_op (T := T)) (flat_map qc_asks ops) (qc_failures ops c) c (qc_run ops c).
Proof.
  revert c; induction ops as [|o ops IH]; intros c; simpl; [apply tracked_refl|].
  apply (tracked_app _ _ _ _ _ c (qc_op o c)); [|apply IH]. pose proof (qc_do_asks o c) as Ho. unfold wp, qc_op, after in *.
  by destruct (qc_do o c).
Qed.

Lemma asks_ok ops : Forall qc_op_ok ops ->
  Forall (fun a : QOp + Z => match a with inl o => qop_ok o | inr _ => True end) (flat_map qc_asks ops).
Proof.
  induction 1 as [|o ops Ho _ IH]; simpl; [constructor|]. apply Forall_app. split; [|done].
  destruct o; repeat constructor; done.
Qed.

(** A write that succeeds leaves the engine with nothing to say, as far as 64
    packets go. *)
Lemma write_flushes id data fin io c :
  wp (qc_write id data fin io) c
    (fun _ c' => exists x ps, quic_write id data fin (dc_engine c) = Returns tt x /\ flushed 64 x ps (dc_engine c') /\
       dg_sent (dc_world c') = dg_sent (dc_world c) ++ ((fun p => (dc_remote c, p)) <$> ps)) (fun _ _ => True).
Proof.
  unfold qc_write. apply wp_bind. unfold wp at 1, on_engine.
  destruct (quic_write id data fin (dc_engine c)) as [[] x|e x|] eqn:Ew; [|done|].
  - eapply wp_mono; [apply flush_exact| |done]. cbv beta. simpl. intros _ c' (ps & Hf & Hs). by exists x, ps.
  - revert Ew. unfold quic_write. by repeat (split_inner; try done).
Qed.
End Refinement.

(** C30: Whatever the application does with a connection, over a transport that keeps
    its contract (each run gets only finitely many datagrams and timeouts from it,
    [dg_patience], so that a read in it ends), its engine sees what the application
    asked for - streams opened, data written with its FIN, credit
    returned, streams cancelled, the closing code - once each and in that order, and
    every datagram that came in and concerns the connection (a client's: from its
    server; a server's: all), whole and in order; between these it is only polled,
    told the time and asked for its events.  That is a run of its own operations, so
    all that is proved of the engine (its budgets, the order of the bytes, the
    credit) is true of connections.  What the engine produced went out in order,
    whole but for one packet at most for each operation that failed; a client sends
    to its server only, and a server to whoever it heard last.  A write that succeeds
    has polled the engine until it had nothing to say, or 64 times. *)
Theorem quic_connection_refines_engine {W T : Type} {HW : DatagramTransport W} {LW : TransportLaws W} {HT : Ngtcp2 T}
    (w : W) (o : QuicOptions) (start : Z) (t : T) (remote : Endpoint) (ops : list QcOp) :
  Forall qc_op_ok ops ->
  let x := new_engine o start t in
  let c0 := new_dconn w x remote in
  let c := qc_run ops c0 in
  (exists tr got new,
     dc_engine c = (tr_run quic_op tr x).2 /\ dc_engine c = quic_run (qops tr) x /\ Forall qop_ok (qops tr) /\
     asked tr = flat_map qc_asks ops /\
     dg_received (dc_world c) = dg_received w ++ got /\ packets_in (engine_part tr) = heard (qo_server o) remote got /\
     dc_remote c = follows (qo_server o) remote got /\
     dg_sent (dc_world c) = dg_sent w ++ new /\ sent_but (qc_failures ops c0) (tr_run quic_op tr x).1 (snd <$> new) /\
     (qo_server o = false -> Forall (fun d => d.1 = remote) new)) /\
  forall id data fin io,
    wp (qc_write id data fin io) c
      (fun _ c' => exists x ps, quic_write id data fin (dc_engine c) = Returns tt x /\ flushed 64 x ps (dc_engine c') /\
         dg_sent (dc_world c') = dg_sent (dc_world c) ++ ((fun p => (dc_remote c, p)) <$> ps)) (fun _ _ => True).
Proof.
  intros Ho x c0 c. split; [|intros; apply write_flushes].
  destruct (qc_run_tracked ops c0) as [(tr & new & He & Ha & (got & Hg & Hp & Hr) & Hs & Hb & Hc) _].
  exists tr, got, new. rewrite <- tr_run_quic. split_and!; try done. apply qops_ok. rewrite Ha. by apply asks_ok.
Qed.

(** A connection that [connect] or [serve] returns has completed its handshake, and
    its engine has gone from the start through a run of its own operations; over a
    transport that has only so much more to say, both end. *)
Theorem quic_handshake_done {W T : Type} {HW : DatagramTransport W} {LW : TransportLaws W} {HT : Ngtcp2 T} (fuel : nat)
    (w : W) (setup : QuicOptions -> bytes -> Z -> Result T) (o : QuicOptions) (initial : bytes) (io : IoOptions) :
  (dg_patience w < fuel)%nat ->
  let started (server : bool) (r : Outcome Error unit (DConn W (QImpl T) QEvent)) :=
    match r with
    | Returns c _ => quic_handshake_complete (dc_engine c) = true /\
        exists now t qops, setup (with_role server o) (if server then initial else []) now = Ok t /\
          quic_options_ok (with_role server o) = true /\ Forall qop_ok qops /\
          dc_engine c = quic_run qops (new_engine (with_role server o) now t)
    | Fails _ _ => True
    | OutOfFuel => False
    end in
  started false (qc_connect fuel (fun _ => Ok w) setup o io) /\ started true (qc_serve fuel w setup o initial io).
Proof.
  intros Hf started.
  assert (forall (server : bool) first, first = (if server then initial else []) ->
    started server (dg_start fuel (quic_create setup (with_role server o) first) quic_handshake_complete (qo_remote o) io w)) as Hgo.
  2: { split; by apply Hgo. }
  intros server first ->. unfold dg_start. pose proof (now_law w) as (_ & _ & Hw). destruct (dg_now w) as [now w1]. simpl in Hw.
  unfold quic_create. destruct (quic_options_ok (with_role server o)) eqn:Eo; [|done]. simpl.
  destruct (setup _ _ now) as [t|e] eqn:Es; [|done].
  assert (forall x, quic_ran (new_engine (with_role server o) now t) x ->
    started server (match pump_until fuel (fun c => quic_handshake_complete (dc_engine c)) io (new_dconn w1 x (qo_remote o)) with
      | Returns _ c => Returns c tt | Fails e _ => Fails e tt | OutOfFuel => OutOfFuel end)) as Hpump.
  { intros x Hx. pose proof (pump_until_runs fuel (fun c => quic_handshake_complete (dc_engine c)) io
      (new_dconn w1 x (qo_remote o))) as Hp. unfold wp in Hp.
    destruct (pump_until _ _ _ _) as [[] c|e c|]; simpl in *; [|done|by apply Hp; rewrite Hw].
    destruct Hp as [Hr Hh]; [by rewrite Hw|]. split; [done|].
    destruct Hr as (eops & sent & [He] & _). pose proof (eng_run_ran eops x) as Hx'. simpl in He. rewrite <- He in Hx'.
    assert (quic_ran (new_engine (with_role server o) now t) (dc_engine c)) as (ops & Hq & Heq) by (by transitivity x).
    by exists now, t, ops. }
  change (qo_server (with_role server o)) with server. destruct server; [|apply Hpump; reflexivity].
  destruct (quic_receive initial now _) as [[] x|e x|] eqn:Er; [|done|done]. apply Hpump.
  exists [qop_receive initial now]. split; [by constructor|]. simpl. by rewrite Er.
Qed.

(** [read] delivers the events of a stream in the order in which the engine raised
    them.  Over a transport that has only so much more to say it ends; it returns the
    next chunk in line, after throwing away acknowledgements only, with all the
    engine's packets sent, whole and in order; the events of other streams stay where
    they are.  When it fails, at most one chunk and one packet are lost. *)
Theorem quic_read_in_order {W T : Type} {HW : DatagramTransport W} {LW : TransportLaws W} {HT : Ngtcp2 T}
    (fuel : nat) (id : Z) (io : IoOptions) (c : DConn W (QImpl T) QEvent) :
  dc_pumping c = false -> (dg_patience (dc_world c) < fuel)%nat ->
  wp (qc_read fuel id io) c
    (fun chunk c' =>
       exists skipped e more, unread_events c id ++ more = skipped ++ e :: unread_events c' id /\
         Forall (fun e => qe_kind e = QKind.acknowledged) skipped /\ chunk_of e = Some chunk /\
         (forall i, i <> id -> unread_events c i `prefix_of` unread_events c' i) /\
         exists ops new, dc_engine c' = (eng_run ops (dc_engine c)).2 /\
           dg_sent (dc_world c') = dg_sent (dc_world c) ++ new /\ (eng_run ops (dc_engine c)).1 = snd <$> new)
    (fun _ c' =>
       exists skipped lost more, unread_events c id ++ more = skipped ++ lost ++ unread_events c' id /\
         Forall (fun e => qe_kind e = QKind.acknowledged) skipped /\ (length lost <= 1)%nat /\
         (forall i, i <> id -> unread_events c i `prefix_of` unread_events c' i)).
Proof.
  intros Hp Hf. assert (forall e, chunk_of e = None -> qe_kind e = QKind.acknowledged) as Hack.
  { intros e. unfold chunk_of. by destruct (qe_kind e). }
  eapply wp_mono; [by apply qc_read_reads| |]; cbv beta.
  - intros chunk c' (sk & e & more & Hm & Hsk & Hrest)%read_well_spec. exists sk, e, more. split; [done|].
    split; [by eapply Forall_impl|done].
  - intros er c' (sk & lost & more & Hm & Hsk & Hrest)%read_short_spec. exists sk, lost, more. split; [done|].
    split; [by eapply Forall_impl|done].
Qed.

(** ** On a network *)

(** A client with a stream on which "hello" was written; the server's next datagram
    acknowledges it and holds the answer. *)
Definition answering_peer : list (list QCallback) := [[cb_acked 0 0 5; cb_stream_data true 0 (lit "world")]].

Definition dialogue (script : list (list QCallback)) (w : Net) : DConn Net (QImpl ToyQuic) QEvent :=
  qc_run [qc_op_open false; qc_op_write 0 (lit "hello") true no_io]
    (new_dconn w (new_engine small_client 0 (toy_client script)) here).

(** A client that opens a stream, writes, hears a stranger and then its server,
    reads the answer and returns its credit. *)
Definition conversation : list QcOp :=
  [qc_op_open false; qc_op_write 0 (lit "hello") true no_io; qc_op_pump no_io; qc_op_read 0 no_io; qc_op_consume 0 5].

Lemma quic_connection_refines_engine_witness :
  let w := net [Some (lit "noise", there); Some (lit "one", here); Some (lit "two", here)] in
  let c0 := new_dconn w (new_engine small_client 0 (toy_client answering_peer)) here in
  let c := qc_run conversation c0 in
  qc_failures conversation c0 = 0%nat /\
  (exists tr, dc_engine c = quic_run (qops tr) (new_engine small_client 0 (toy_client answering_peer)) /\
     asked tr = [inl (qop_open false); inl (qop_write 0 (lit "hello") true); inl (qop_consume 0 5)] /\
     packets_in (engine_part tr) = [lit "one"; lit "two"] /\
     (tr_run quic_op tr (new_engine small_client 0 (toy_client answering_peer))).1 = [lit "hello" ++ [x51]]) /\
  dc_remote c = here.
Proof.
  intros w c0 c. assert (Forall qc_op_ok conversation) as Ho by (repeat constructor; simpl; lia).
  destruct (quic_connection_refines_engine w small_client 0 (toy_client answering_peer) here conversation Ho)
    as [(tr & got & new & _ & He & _ & Ha & Hg & Hp & Hr & Hs & Hb & _) _].
  assert (dg_received (dc_world c) = [(lit "noise", there); (lit "one", here); (lit "two", here)]) as Eg by (vm_compute; reflexivity).
  assert (dg_sent (dc_world c) = [(here, lit "hello" ++ [x51])]) as Es by (vm_compute; reflexivity).
  assert (qc_failures conversation c0 = 0%nat) as Ef by (vm_compute; reflexivity).
  change (qc_run _ _) with c in Hg, Hs, He, Hr. change (new_dconn _ _ _) with c0 in Hb.
  rewrite Eg in Hg. rewrite Es in Hs. rewrite Ef in Hb. simpl in Hg, Hs. subst got new.
  split; [exact Ef|]. split; [|exact Hr]. exists tr. split; [exact He|]. split; [exact Ha|]. split; [exact Hp|].
  symmetry. exact (sent_but_all _ _ Hb).
Defined.

Lemma quic_handshake_done_witness :
  match qc_connect 3 (fun _ => Ok (net [Some ([], here)])) (fun _ _ _ => Ok (toy_client answering_peer)) small_client no_io with
  | Returns c _ => dc_remote c = here /\ quic_handshake_complete (dc_engine c) = true
  | _ => False
  end.
Proof.
  assert ((dg_patience (net [Some ([], here)]) < 3)%nat) as Hf by (vm_compute; repeat constructor).
  pose proof (proj1 (quic_handshake_done 3 (net [Some ([], here)]) (fun _ _ _ => Ok (toy_client answering_peer))
    small_client [] no_io Hf)) as H.
  assert (match qc_connect 3 (fun _ => Ok (net [Some ([], here)])) (fun _ _ _ => Ok (toy_client answering_peer)) small_client no_io
    with Returns c _ => dc_remote c = here | _ => False end) as Hr by (vm_compute; reflexivity).
  destruct (qc_connect _ _ _ _ _) as [c u|e u|]; [|destruct Hr|destruct Hr]. split; [exact Hr|exact (proj1 H)].
Defined.

Lemma quic_read_in_order_witness :
  let c := dialogue answering_peer (net [Some ([], here); Some ([], here)]) in
  match qc_read 3 0 no_io c with
  | Returns chunk c' => chunk = mk_stream_chunk (lit "world") true false 0 /\
      exists skipped e more, unread_events c 0 ++ more = skipped ++ e :: unread_events c' 0 /\ chunk_of e = Some chunk
  | _ => False
  end.
Proof.
  intros c. assert (dc_pumping c = false) as Hp by (vm_compute; reflexivity).
  assert ((dg_patience (dc_world c) < 3)%nat) as Hf by (vm_compute; repeat constructor).
  pose proof (quic_read_in_order 3 0 no_io c Hp Hf) as H. unfold wp in H.
  assert (match qc_read 3 0 no_io c with Returns chunk _ => chunk = mk_stream_chunk (lit "world") true false 0 | _ => False end)
    as Hr by (vm_compute; reflexivity).
  destruct (qc_read 3 0 no_io c) as [chunk c'|e c'|]; [|destruct Hr|destruct Hr]. split; [exact Hr|].
  destruct H as (sk & e & more & Hm & _ & Hc & _). exists sk, e, more. split; [exact Hm|exact Hc].
Defined.

(** ** Where it goes wrong *)

(** [take_chunk] says that more pumping is needed when it has thrown away an
    acknowledgement, whatever is queued behind it: [read] then waits for another
    datagram, and here, where none comes, fails with the answer in its buffer; the
    next [read] returns it at once. *)
Theorem read_waits_behind_ack :
  let c := dialogue answering_peer (net [Some ([], here)]) in
  match qc_read 3 0 no_io c with
  | Fails e c' => e = make_error_code Errc.cancelled /\ unread_events c' 0 = [mk_qevent QKind.data 0 (lit "world") 0 true] /\
      match qc_read 3 0 no_io c' with Returns chunk _ => sc_data chunk = lit "world" | _ => False end
  | _ => False
  end.
Proof. vm_compute. split_and!; reflexivity. Qed.

(** [read] takes the chunk out of its buffer before it flushes: when the flush
    fails the chunk is gone, and the next [read] returns what follows it. *)
Theorem failed_flush_loses_a_chunk :
  let c := dialogue [[cb_stream_data false 0 (lit "first"); cb_stream_data true 0 (lit "second")]]
             (mk_net [Some ([], here)] 1 1 [] []) in
  let c := qc_run [qc_op_pump no_io; qc_op_open false; qc_op_write 4 (lit "a longer message") true no_io] c in
  match qc_read 3 0 no_io c with
  | Fails e c' => e = make_error_code Errc.timed_out /\
      match qc_read 3 0 no_io (set_world (mk_net [] 100 1 [] []) c') with Returns chunk _ => sc_data chunk = lit "second" | _ => False end
  | _ => False
  end.
Proof. vm_compute. split; reflexivity. Qed.

Definition stranger : Endpoint := endpoint_loopback 666 ipv4.

(** A server answers whoever sent the last datagram, though the comment says that
    the remote cannot change: after a datagram that means nothing to the engine, the
    packets of the connection go to the stranger who sent it.  A client drops it. *)
Theorem server_follows_strangers :
  let run o t peer := qc_run [qc_op_pump no_io; qc_op_open false; qc_op_write (if qo_server o then 1 else 0) (lit "secret") true no_io]
                        (new_dconn (net [Some (lit "noise", stranger)]) (new_engine o 0 t) peer) in
  n_sent (dc_world (run small_server (toy_server []) there)) = [(stranger, lit "secret" ++ [x51])] /\
  n_sent (dc_world (run small_client (toy_client []) here)) = [(here, lit "secret" ++ [x51])].
Proof. vm_compute. split; reflexivity. Qed.

(** The engine's timer is armed for a wait only when it lies in the future: a timer
    that has expired by the time [do_pump] looks is left out, and the connection
    sleeps without any deadline, although the engine asked to be called at once.  A
    timer still to come wakes it. *)
Theorem overdue_timer_sleeps :
  let run e := dg_pump no_io (new_dconn (mk_net [None] 10 5 [] []) (new_engine small_client 0 (toy_set_timer e (toy_client []))) here) in
  match run 100 with Returns _ c => quic_expiry (dc_engine c) = UINT64_MAX | _ => False end /\
  match run 10 with Fails e c => e = make_error_code Errc.cancelled /\ quic_expiry (dc_engine c) = 10 | _ => False end.
Proof. vm_compute. split_and!; reflexivity. Qed.

(** A wait that the caller's deadline ends is reported as success when the engine
    has no timer: [pump] returns although nothing arrived in time. *)
Theorem pump_hides_the_deadline :
  let c := new_dconn (net [None]) (new_engine small_client 0 (toy_client [])) here in
  match dg_pump (mk_io 0 (Some 50)) c with
  | Returns _ c' => 50 <= n_clock (dc_world c') /\ unread_events c' 0 = []
  | _ => False
  end.
Proof. vm_compute. split; [discriminate|reflexivity]. Qed.
