(* ===== verification/Http3.v ===== *)
(** * Http3: the HTTP/3 engine (http3/include/mira/http3/engine.hpp, http3/src/engine.cpp)

    [Engine] owns a QUIC engine ([Quic]) and leaves framing and QPACK to nghttp3, a
    parameter here ([Nghttp3]).  Events of the QUIC engine are fed to the library,
    whose callbacks fill the engine's own streams and events and give flow-control
    credit back to QUIC; [poll] moves what the library wants to send into QUIC
    streams.  [Http3Inv] has the limits, [Http3Flow] the composition with QUIC. *)

From stdpp Require Import gmap sorting.
From S2P Require Import Prelude Errors Quic.

Local Open Scope Z_scope.
Local Open Scope mira_scope.

(** ** Data *)

(** The engine's own error code. *)
Definition http3_invalid : Z := -110000.

(** [http3_error(code)] *)
Definition http3_error (code : Z) : Error := mk_error code http3_category.

Abbreviation H3Headers := (list (bytes * bytes)).

(** [http3::Limits] *)
Record H3Limits := mk_h3_limits {
  h_max_header_bytes : Z;
  h_max_headers : Z;
  h_max_buffered_body : Z;
  h_max_events : Z;
  h_max_streams : Z;
}.

Definition default_h3_limits : H3Limits := mk_h3_limits (64 * 1024) 128 (4 * 1024 * 1024) 4096 64.

Module HKind.
Inductive t :=
| headers
| body
| ended
| reset
| goaway.
End HKind.

#[export] Instance hkind_eq_dec : EqDecision HKind.t.
Proof. solve_decision. Defined.

(** [http3::Event] *)
Record HEvent := mk_hevent {
  he_kind : HKind.t;
  he_stream : Z;
  he_fields : H3Headers;
  he_data : bytes;
  he_code : Z;
}.

(** [Impl::Stream] *)
Record HStream := mk_hstream {
  hs_output : bytes;
  hs_acked : Z;
  hs_unread : Z;
  hs_field_bytes : Z;
  hs_fields : H3Headers;
  hs_responded : bool;
  hs_closed : bool;
}.

Definition new_hstream : HStream := mk_hstream [] 0 0 0 [] false false.

Definition set_fields (n : Z) (fs : H3Headers) (st : HStream) : HStream :=
  mk_hstream (hs_output st) (hs_acked st) (hs_unread st) n fs (hs_responded st) (hs_closed st).
Definition set_output (o : bytes) (st : HStream) : HStream :=
  mk_hstream o (hs_acked st) (hs_unread st) (hs_field_bytes st) (hs_fields st) (hs_responded st) (hs_closed st).
Definition set_acked (n : Z) (st : HStream) : HStream :=
  mk_hstream (hs_output st) n (hs_unread st) (hs_field_bytes st) (hs_fields st) (hs_responded st) (hs_closed st).
Definition set_h_unread (n : Z) (st : HStream) : HStream :=
  mk_hstream (hs_output st) (hs_acked st) n (hs_field_bytes st) (hs_fields st) (hs_responded st) (hs_closed st).
Definition set_h_responded (st : HStream) : HStream :=
  mk_hstream (hs_output st) (hs_acked st) (hs_unread st) (hs_field_bytes st) (hs_fields st) true (hs_closed st).
Definition set_h_closed (st : HStream) : HStream :=
  mk_hstream (hs_output st) (hs_acked st) (hs_unread st) (hs_field_bytes st) (hs_fields st) (hs_responded st) true.

(** The size of a field as the limits count it: name, value and 32. *)
Definition field_size (f : bytes * bytes) : Z := len f.1 + len f.2 + 32.

(** ** The library *)

Inductive HCallback :=
| hcb_begin (id : Z)
| hcb_header (id : Z) (name value : bytes)
| hcb_end_headers (id : Z)
| hcb_data (id : Z) (data : bytes)
| hcb_deferred (id : Z) (size : nat)
| hcb_end (id : Z)
| hcb_reset (id code : Z)
| hcb_shutdown (id : Z)
| hcb_ack (id : Z) (n : nat)
| hcb_stream_close (id : Z)
| hcb_read_body (id : Z) (count : nat).

(** What a callback gives back: its result, and the buffer a data reader lends
    (with the end-of-data flag it then always sets). *)
Record HAnswer := mk_hanswer { ha_code : Z; ha_lent : option bytes }.

Definition hanswer (code : Z) : HAnswer := mk_hanswer code None.

(** A call of the library, as in [Quic]. *)
Inductive HRun (N R : Type) :=
| h_returns (r : R) (n : N)
| h_calls (c : HCallback) (n : N) (k : HAnswer -> N -> HRun N R).
Arguments h_returns {N R} r n.
Arguments h_calls {N R} c n k.

(** What [nghttp3_conn_writev_stream] hands out: the number of pieces or an error,
    the stream ([-1] for none), whether it ends with them, and the pieces. *)
Record HWritten := mk_hwritten { hw_n : Z; hw_id : Z; hw_fin : bool; hw_pieces : list bytes }.

Class Nghttp3 (N : Type) := {
  NGHTTP3_ERR_CALLBACK_FAILURE : Z;
  NGHTTP3_ERR_STREAM_NOT_FOUND : Z;
  NGHTTP3_H3_NO_ERROR : Z;
  NGHTTP3_H3_REQUEST_CANCELLED : Z;
  h3_check_header_name : bytes -> bool;
  h3_check_header_value : bytes -> bool;
  h3_bind_control_stream : Z -> N -> Z * N;
  h3_bind_qpack_streams : Z -> Z -> N -> Z * N;
  h3_set_max_client_streams_bidi : Z -> N -> N;
  h3_read_stream : Z -> bytes -> bool -> Z -> N -> HRun N Z;
  h3_add_ack_offset : Z -> Z -> N -> HRun N Z;
  h3_shutdown_stream_read : Z -> N -> HRun N Z;
  h3_shutdown_stream_write : Z -> N -> N;
  h3_close_stream : Z -> Z -> N -> HRun N Z;
  h3_submit_request : Z -> H3Headers -> bool -> N -> Z * N;
  h3_submit_response : Z -> H3Headers -> bool -> N -> Z * N;
  h3_writev_stream : N -> HRun N HWritten;
  h3_add_write_offset : Z -> Z -> N -> Z * N;
  h3_submit_shutdown_notice : N -> Z * N;
  h3_conn_shutdown : N -> Z * N;
}.

(** ** The engine *)

Section Engine.
Context {T N : Type} `{Ngtcp2 T} `{Nghttp3 N}.

(** [Engine::Impl] *)
Record HImpl := mk_himpl {
  h_transport : QImpl T;
  h_server : bool;
  h_limits : H3Limits;
  h_conn : N;
  h_failed : bool;
  h_initialized : bool;
  h_going : bool;
  h_remote_going : bool;
  h_final_goaway : bool;
  h_clock : Z;
  h_output_bytes : Z;
  h_input_bytes : Z;
  h_header_bytes : Z;
  h_events : list HEvent;
  h_streams : gmap Z HStream;
}.

Definition set_h_transport (q : QImpl T) (s : HImpl) : HImpl :=
  mk_himpl q (h_server s) (h_limits s) (h_conn s) (h_failed s) (h_initialized s) (h_going s) (h_remote_going s)
    (h_final_goaway s) (h_clock s) (h_output_bytes s) (h_input_bytes s) (h_header_bytes s) (h_events s) (h_streams s).
Definition set_h_conn (n : N) (s : HImpl) : HImpl :=
  mk_himpl (h_transport s) (h_server s) (h_limits s) n (h_failed s) (h_initialized s) (h_going s) (h_remote_going s)
    (h_final_goaway s) (h_clock s) (h_output_bytes s) (h_input_bytes s) (h_header_bytes s) (h_events s) (h_streams s).
Definition set_h_failed (s : HImpl) : HImpl :=
  mk_himpl (h_transport s) (h_server s) (h_limits s) (h_conn s) true (h_initialized s) (h_going s) (h_remote_going s)
    (h_final_goaway s) (h_clock s) (h_output_bytes s) (h_input_bytes s) (h_header_bytes s) (h_events s) (h_streams s).
Definition set_h_initialized (s : HImpl) : HImpl :=
  mk_himpl (h_transport s) (h_server s) (h_limits s) (h_conn s) (h_failed s) true (h_going s) (h_remote_going s)
    (h_final_goaway s) (h_clock s) (h_output_bytes s) (h_input_bytes s) (h_header_bytes s) (h_events s) (h_streams s).
Definition set_h_going (s : HImpl) : HImpl :=
  mk_himpl (h_transport s) (h_server s) (h_limits s) (h_conn s) (h_failed s) (h_initialized s) true (h_remote_going s)
    (h_final_goaway s) (h_clock s) (h_output_bytes s) (h_input_bytes s) (h_header_bytes s) (h_events s) (h_streams s).
Definition set_h_remote_going (s : HImpl) : HImpl :=
  mk_himpl (h_transport s) (h_server s) (h_limits s) (h_conn s) (h_failed s) (h_initialized s) (h_going s) true
    (h_final_goaway s) (h_clock s) (h_output_bytes s) (h_input_bytes s) (h_header_bytes s) (h_events s) (h_streams s).
Definition set_h_final_goaway (s : HImpl) : HImpl :=
  mk_himpl (h_transport s) (h_server s) (h_limits s) (h_conn s) (h_failed s) (h_initialized s) (h_going s)
    (h_remote_going s) true (h_clock s) (h_output_bytes s) (h_input_bytes s) (h_header_bytes s) (h_events s) (h_streams s).
Definition set_h_clock (now : Z) (s : HImpl) : HImpl :=
  mk_himpl (h_transport s) (h_server s) (h_limits s) (h_conn s) (h_failed s) (h_initialized s) (h_going s)
    (h_remote_going s) (h_final_goaway s) now (h_output_bytes s) (h_input_bytes s) (h_header_bytes s) (h_events s) (h_streams s).
Definition set_h_output (n : Z) (s : HImpl) : HImpl :=
  mk_himpl (h_transport s) (h_server s) (h_limits s) (h_conn s) (h_failed s) (h_initialized s) (h_going s)
    (h_remote_going s) (h_final_goaway s) (h_clock s) n (h_input_bytes s) (h_header_bytes s) (h_events s) (h_streams s).
Definition set_h_input (n : Z) (s : HImpl) : HImpl :=
  mk_himpl (h_transport s) (h_server s) (h_limits s) (h_conn s) (h_failed s) (h_initialized s) (h_going s)
    (h_remote_going s) (h_final_goaway s) (h_clock s) (h_output_bytes s) n (h_header_bytes s) (h_events s) (h_streams s).
Definition set_h_header_bytes (n : Z) (s : HImpl) : HImpl :=
  mk_himpl (h_transport s) (h_server s) (h_limits s) (h_conn s) (h_failed s) (h_initialized s) (h_going s)
    (h_remote_going s) (h_final_goaway s) (h_clock s) (h_output_bytes s) (h_input_bytes s) n (h_events s) (h_streams s).
Definition set_h_events (es : list HEvent) (s : HImpl) : HImpl :=
  mk_himpl (h_transport s) (h_server s) (h_limits s) (h_conn s) (h_failed s) (h_initialized s) (h_going s)
    (h_remote_going s) (h_final_goaway s) (h_clock s) (h_output_bytes s) (h_input_bytes s) (h_header_bytes s) es (h_streams s).
Definition set_h_streams (m : gmap Z HStream) (s : HImpl) : HImpl :=
  mk_himpl (h_transport s) (h_server s) (h_limits s) (h_conn s) (h_failed s) (h_initialized s) (h_going s)
    (h_remote_going s) (h_final_goaway s) (h_clock s) (h_output_bytes s) (h_input_bytes s) (h_header_bytes s) (h_events s) m.

Definition put_h (id : Z) (st : HStream) (s : HImpl) : HImpl := set_h_streams (<[id := st]> (h_streams s)) s.
Definition erase_h (id : Z) (s : HImpl) : HImpl := set_h_streams (delete id (h_streams s)) s.

(** [push(event)] *)
Definition h_push (e : HEvent) (s : HImpl) : Z * HImpl :=
  if h_max_events (h_limits s) <=? Z.of_nat (length (h_events s)) then (NGHTTP3_ERR_CALLBACK_FAILURE, s)
  else (0, set_h_events (h_events s ++ [e]) s).

(** ** The callbacks *)

(** [begin] *)
Definition on_h3_begin (id : Z) (s : HImpl) : Z * HImpl :=
  if bool_decide (h_streams s !! id = None) && (h_max_streams (h_limits s) <=? Z.of_nat (size (h_streams s)))
  then (NGHTTP3_ERR_CALLBACK_FAILURE, s)
  else (0, put_h id (set_fields 0 [] (default new_hstream (h_streams s !! id))) s).

(** [header]; [streams.at] throws for a stream that is not there, which [guard]
    turns into a failure. *)
Definition on_h3_header (id : Z) (name value : bytes) (s : HImpl) : Z * HImpl :=
  match h_streams s !! id with
  | None => (NGHTTP3_ERR_CALLBACK_FAILURE, s)
  | Some st =>
      let size := field_size (name, value) in
      let l := h_limits s in
      if (wrap64 (h_max_header_bytes l - hs_field_bytes st) <? size) ||
         (h_max_headers l <=? Z.of_nat (length (hs_fields st))) ||
         (wrap64 (h_max_header_bytes l * h_max_streams l - h_header_bytes s) <? size)
      then (NGHTTP3_ERR_CALLBACK_FAILURE, s)
      else
        let s := set_h_header_bytes (h_header_bytes s + size) s in
        (0, put_h id (set_fields (hs_field_bytes st + size) (hs_fields st ++ [(name, value)]) st) s)
  end.

(** [end_headers]: the fields are moved into the event, even one that is refused. *)
Definition on_h3_end_headers (id : Z) (s : HImpl) : Z * HImpl :=
  match h_streams s !! id with
  | None => (NGHTTP3_ERR_CALLBACK_FAILURE, s)
  | Some st =>
      h_push (mk_hevent HKind.headers id (hs_fields st) [] 0)
        (put_h id (set_fields (hs_field_bytes st) [] st) s)
  end.

(** [data] *)
Definition on_h3_data (id : Z) (data : bytes) (s : HImpl) : Z * HImpl :=
  if wrap64 (h_max_buffered_body (h_limits s) - h_input_bytes s) <? len data
  then (NGHTTP3_ERR_CALLBACK_FAILURE, s)
  else match h_streams s !! id with
       | None => (NGHTTP3_ERR_CALLBACK_FAILURE, s)
       | Some st =>
           let s := put_h id (set_h_unread (hs_unread st + len data) st) s in
           let s := set_h_input (h_input_bytes s + len data) s in
           h_push (mk_hevent HKind.body id [] data 0) s
       end.

(** An operation of the QUIC engine, its outcome as a value. *)
Definition on_transport {A} (m : Q T A) (s : HImpl) : Result A * HImpl :=
  match m (h_transport s) with
  | Returns a q => (Ok a, set_h_transport q s)
  | Fails e q => (Fail e, set_h_transport q s)
  | OutOfFuel => (Fail no_error, s)
  end.

(** [deferred] *)
Definition on_h3_deferred (id size : Z) (s : HImpl) : Z * HImpl :=
  match on_transport (quic_consume id size) s with
  | (Ok _, s) => (0, s)
  | (Fail _, s) => (NGHTTP3_ERR_CALLBACK_FAILURE, s)
  end.

(** [end] *)
Definition on_h3_end (id : Z) (s : HImpl) : Z * HImpl := h_push (mk_hevent HKind.ended id [] [] 0) s.

(** [reset], for both [stop_sending] and [reset_stream] *)
Definition on_h3_reset (id code : Z) (s : HImpl) : Z * HImpl :=
  match on_transport (quic_cancel id code) s with
  | (Ok _, s) => h_push (mk_hevent HKind.reset id [] [] code) s
  | (Fail _, s) => (NGHTTP3_ERR_CALLBACK_FAILURE, s)
  end.

(** [shutdown] *)
Definition on_h3_shutdown (id : Z) (s : HImpl) : Z * HImpl :=
  h_push (mk_hevent HKind.goaway id [] [] 0) (set_h_remote_going s).

(** [ack] *)
Definition on_h3_ack (id n : Z) (s : HImpl) : Z * HImpl :=
  (0, match h_streams s !! id with
      | None => s
      | Some st =>
          let st := set_acked (hs_acked st + n) st in
          if hs_acked st =? len (hs_output st)
          then set_h_output (wrap64 (h_output_bytes s - len (hs_output st))) (put_h id (set_output [] st) s)
          else put_h id st s
      end).

(** [stream_close] *)
Definition on_h3_stream_close (id : Z) (s : HImpl) : Z * HImpl :=
  (0, match h_streams s !! id with
      | None => s
      | Some st =>
          let s := set_h_output (wrap64 (h_output_bytes s - len (hs_output st))) s in
          if hs_unread st =? 0 then erase_h id s else put_h id (set_h_closed (set_output [] st)) s
      end).

(** [read_body]: lends the whole buffer and says that nothing follows. *)
Definition on_h3_read_body (id : Z) (count : nat) (s : HImpl) : HAnswer :=
  match h_streams s !! id with
  | None => hanswer NGHTTP3_ERR_CALLBACK_FAILURE
  | Some st => if (count =? 0)%nat then hanswer NGHTTP3_ERR_CALLBACK_FAILURE else mk_hanswer 1 (Some (hs_output st))
  end.

Definition coded (r : Z * HImpl) : HAnswer * HImpl := (hanswer r.1, r.2).

Definition handle_h3 (c : HCallback) (s : HImpl) : HAnswer * HImpl :=
  match c with
  | hcb_begin id => coded (on_h3_begin id s)
  | hcb_header id name value => coded (on_h3_header id name value s)
  | hcb_end_headers id => coded (on_h3_end_headers id s)
  | hcb_data id data => coded (on_h3_data id data s)
  | hcb_deferred id size => coded (on_h3_deferred id (Z.of_nat size) s)
  | hcb_end id => coded (on_h3_end id s)
  | hcb_reset id code => coded (on_h3_reset id code s)
  | hcb_shutdown id => coded (on_h3_shutdown id s)
  | hcb_ack id n => coded (on_h3_ack id (Z.of_nat n) s)
  | hcb_stream_close id => coded (on_h3_stream_close id s)
  | hcb_read_body id count => (on_h3_read_body id count s, s)
  end.

Fixpoint serve_h3 {R} (r : HRun N R) (s : HImpl) : R * HImpl :=
  match r with
  | h_returns x n => (x, set_h_conn n s)
  | h_calls c n k => let '(a, s) := handle_h3 c (set_h_conn n s) in serve_h3 (k a (h_conn s)) s
  end.

(** ** The operations *)

Definition H3 (A : Type) : Type := HImpl -> Outcome Error HImpl A.

Definition h_invalid {A} : H3 A := out_fail (http3_error http3_invalid).

(** [check(rv)] *)
Definition h_check (rv : Z) : H3 unit := fun s =>
  if rv <? 0 then Fails (http3_error rv) (set_h_failed s) else Returns tt s.

(** A call of the library, checked. *)
Definition h_call (f : N -> Z * N) : H3 unit := fun s =>
  let '(rv, n) := f (h_conn s) in h_check rv (set_h_conn n s).

(** An operation of the QUIC engine whose error is handed on. *)
Definition h_try {A} (m : Q T A) : H3 A := fun s =>
  match on_transport m s with
  | (Ok a, s) => Returns a s
  | (Fail e, s) => Fails e s
  end.

(** ... and one whose error makes the engine fail. *)
Definition h_must {A} (m : Q T A) : H3 A := fun s =>
  match on_transport m s with
  | (Ok a, s) => Returns a s
  | (Fail e, s) => Fails e (set_h_failed s)
  end.

(** [initialize()] *)
Definition h_initialize : H3 unit := fun s =>
  if h_initialized s || negb (quic_handshake_complete (h_transport s)) then Returns tt s
  else if negb (bytes_eqb (quic_negotiated_protocol (h_transport s)) (lit "h3"))
  then Fails (http3_error http3_invalid) (set_h_failed s)
  else
    (let! control := h_try (quic_open_stream true) in
     let! enc := h_try (quic_open_stream true) in
     let! dec := h_try (quic_open_stream true) in
     h_call (h3_bind_control_stream control) ;;;
     h_call (h3_bind_qpack_streams enc dec) ;;;
     out_modify set_h_initialized) s.

(** One event of the QUIC engine. *)
Definition process_event (now : Z) (e : QEvent) : H3 unit := fun s =>
  match qe_kind e with
  | QKind.data =>
      let '(n, s) := serve_h3 (h3_read_stream (qe_stream e) (qe_data e) (qe_fin e) now (h_conn s)) s in
      if n <? 0 then h_check n s
      else if 0 <? n then h_must (quic_consume (qe_stream e) n) s
      else h_check 0 s
  | QKind.acknowledged =>
      let '(rv, s) := serve_h3 (h3_add_ack_offset (qe_stream e) (qe_value e) (h_conn s)) s in h_check rv s
  | QKind.reset =>
      let '(rv, s) := serve_h3 (h3_shutdown_stream_read (qe_stream e) (h_conn s)) s in
      let '(pushed, s) := h_push (mk_hevent HKind.reset (qe_stream e) [] [] (qe_value e)) s in
      h_check (if negb (pushed =? 0) then NGHTTP3_ERR_CALLBACK_FAILURE else rv) s
  | QKind.closed =>
      let code := if qe_value e =? 0 then NGHTTP3_H3_NO_ERROR else qe_value e in
      let '(rv, s) := serve_h3 (h3_close_stream (qe_stream e) code (h_conn s)) s in
      h_check (if rv =? NGHTTP3_ERR_STREAM_NOT_FOUND then 0 else rv) s
  end.

(** [for (auto& event : transport.take_events())]: what follows a failure is lost. *)
Fixpoint process_events (now : Z) (es : list QEvent) : H3 unit :=
  match es with
  | [] => out_ret tt
  | e :: es => process_event now e ;;; process_events now es
  end.

(** [process(now)] *)
Definition h_process (now : Z) : H3 unit := fun s =>
  if h_failed s || (now <? h_clock s) then h_invalid s
  else
    (h_initialize ;;;
     fun s =>
       if negb (h_initialized s) then Returns tt s
       else
         let s := if h_server s
                  then set_h_conn (h3_set_max_client_streams_bidi (q_remote_bidi_limit (h_transport s)) (h_conn s)) s
                  else s in
         let '(es, q) := quic_take_events (h_transport s) in
         process_events now es (set_h_transport q s)) (set_h_clock now s).

(** [valid_fields(fields, body)]: the locals are [size] and the fields to come. *)
Fixpoint fields_fit (limit : Z) (size : Z) (fs : H3Headers) : bool :=
  match fs with
  | [] => true
  | f :: fs =>
      h3_check_header_name f.1 && h3_check_header_value f.2 &&
      negb (wrap64 (limit - size) <? field_size f) && fields_fit limit (size + field_size f) fs
  end.

Definition valid_fields (fs : H3Headers) (body : bytes) (s : HImpl) : bool :=
  negb ((h_max_headers (h_limits s) <? Z.of_nat (length fs)) ||
        (wrap64 (h_max_buffered_body (h_limits s) - h_output_bytes s) <? len body)) &&
  fields_fit (h_max_header_bytes (h_limits s)) 0 fs.

(** [submit(id, fields, body)] on the record of [id]; [streams.at] is only called
    for a stream that is there. *)
Definition h_submit (id : Z) (fs : H3Headers) (body : bytes) : H3 unit := fun s =>
  match h_streams s !! id with
  | None => h_invalid s
  | Some st =>
      let s := set_h_output (h_output_bytes s + len body) (put_h id (set_output body st) s) in
      let has_body := negb (length body =? 0)%nat in
      (h_call (if h_server s then h3_submit_response id fs has_body else h3_submit_request id fs has_body) ;;;
       fun s => Returns tt (match h_streams s !! id with
                            | Some st => put_h id (set_h_responded st) s
                            | None => s
                            end)) s
  end.

(** The argument checks of [create], and the state it starts from. *)
Definition h3_limits_ok (l : H3Limits) : bool :=
  negb ((h_max_streams l =? 0) || (4096 <? h_max_streams l) || (h_max_headers l =? 0) || (4096 <? h_max_headers l) ||
        (h_max_header_bytes l =? 0) || (1024 * 1024 <? h_max_header_bytes l) || (h_max_buffered_body l =? 0) ||
        (64 * 1024 * 1024 <? h_max_buffered_body l) || (h_max_events l =? 0) || (65536 <? h_max_events l)).

Definition h3_create_ok (q : QImpl T) (server : bool) (l : H3Limits) : bool :=
  Bool.eqb (quic_is_server q) server && negb (quic_closed q) && h3_limits_ok l.

Definition new_h3 (q : QImpl T) (server : bool) (l : H3Limits) (n : N) : HImpl :=
  let n := if server then h3_set_max_client_streams_bidi (q_remote_bidi_limit q) n else n in
  mk_himpl q server l n false false false false false 0 0 0 0 [] ∅.

(** [create]: [setup] is the configuration of nghttp3. *)
Definition h3_create (setup : bool -> H3Limits -> Result N) (q : QImpl T) (server : bool) (l : H3Limits) : Result HImpl :=
  if negb (h3_create_ok q server l) then Fail (http3_error http3_invalid)
  else match setup server l with Fail e => Fail e | Ok n => Ok (new_h3 q server l n) end.

(** [Engine::receive] *)
Definition h3_receive (packet : bytes) (now : Z) : H3 unit := fun s =>
  if h_failed s then h_invalid s else (h_must (quic_receive packet now) ;;; h_process now) s.

(** [Engine::handle_expiry] *)
Definition h3_handle_expiry (now : Z) : H3 unit := fun s =>
  if h_failed s then h_invalid s else (h_must (quic_handle_expiry now) ;;; h_process now) s.

(** The copy of the pieces into [bytes], as much as [capacity] allows; and the sum
    [available] of all of them. *)
Definition gather (capacity : Z) (pieces : list bytes) : bytes * Z :=
  foldl (fun acc p =>
           let '(out, available) := acc in
           let count := Z.min (len p) (capacity - len out) in
           (out ++ take (Z.to_nat count) p, available + len p)) ([], 0) pieces.

(** One round of the loop of [poll]: [Some] to leave it. *)
Definition h3_poll_round : H3 (option unit) := fun s =>
  let capacity := Z.min 16384 (quic_write_capacity (h_transport s)) in
  if capacity =? 0 then Returns (Some tt) s
  else
    let '(w, s) := serve_h3 (h3_writev_stream (h_conn s)) s in
    if hw_n w <? 0 then Fails (http3_error (hw_n w)) (set_h_failed s)
    else if hw_id w =? -1 then Returns (Some tt) s
    else
      let '(out, available) := gather capacity (take (Z.to_nat (hw_n w)) (hw_pieces w)) in
      match on_transport (quic_write (hw_id w) out (hw_fin w && (len out =? available))) s with
      | (Fail e, s) =>
          if ec_value e =? quic_budget then Returns (Some tt) s else Fails e (set_h_failed s)
      | (Ok _, s) => (h_call (h3_add_write_offset (hw_id w) (len out)) ;;; out_ret None) s
      end.

(** [for (int k = 0; k < 16; ++k)] *)
Fixpoint h3_poll_rounds (k : nat) : H3 unit :=
  match k with
  | O => out_ret tt
  | S k => let! o := h3_poll_round in match o with Some _ => out_ret tt | None => h3_poll_rounds k end
  end.

(** [Engine::poll] *)
Definition h3_poll (now : Z) : H3 bytes :=
  h_process now ;;;
  (fun s => if h_initialized s then h3_poll_rounds 16 s else Returns tt s) ;;;
  h_must (quic_poll now).

(** The accessors. *)
Definition h3_expiry (s : HImpl) : Z := quic_expiry (h_transport s).
Definition h3_ready (s : HImpl) : bool := h_initialized s && negb (h_failed s).
Definition h3_closed (s : HImpl) : bool := quic_closed (h_transport s) || h_failed s.
Definition h3_peer_goaway (s : HImpl) : bool := h_remote_going s.
Definition h3_is_server (s : HImpl) : bool := h_server s.

(** [Engine::request] *)
Definition h3_request (fs : H3Headers) (body : bytes) : H3 Z := fun s =>
  if negb (h3_ready s) || h_server s || h_going s || h_remote_going s ||
     (h_max_streams (h_limits s) <=? Z.of_nat (size (h_streams s)))
  then h_invalid s
  else if negb (valid_fields fs body s) then h_invalid s
  else
    (let! id := h_try (quic_open_stream false) in
     (fun s => Returns tt (match h_streams s !! id with Some _ => s | None => put_h id new_hstream s end)) ;;;
     h_submit id fs body ;;;
     out_ret id) s.

(** [Engine::respond] *)
Definition h3_respond (id : Z) (fs : H3Headers) (body : bytes) : H3 unit := fun s =>
  match h_streams s !! id with
  | None => h_invalid s
  | Some st =>
      if negb (h3_ready s) || negb (h_server s) || hs_responded st then h_invalid s
      else if negb (valid_fields fs body s) then h_invalid s
      else h_submit id fs body s
  end.

(** [Engine::take_events] *)
Definition h3_take_events (s : HImpl) : list HEvent * HImpl :=
  (h_events s,
   set_h_header_bytes
     (foldl (fun n f => wrap64 (n - field_size f)) (h_header_bytes s) (concat (he_fields <$> h_events s)))
     (set_h_events [] s)).

(** [Engine::consume] *)
Definition h3_consume (id n : Z) : H3 unit := fun s =>
  if h_failed s then h_invalid s
  else match h_streams s !! id with
       | None => if n =? 0 then Returns tt s else h_invalid s
       | Some st =>
           if hs_unread st <? n then h_invalid s
           else
             (h_try (quic_consume id n) ;;;
              fun s =>
                let st := set_h_unread (wrap64 (hs_unread st - n)) st in
                let s := set_h_input (wrap64 (h_input_bytes s - n)) (put_h id st s) in
                Returns tt (if hs_closed st && (hs_unread st =? 0) then erase_h id s else s)) s
       end.

(** [Engine::cancel] *)
Definition h3_cancel (id : Z) : H3 unit := fun s =>
  if negb (h3_ready s) then h_invalid s
  else if (id <? 0) || (2 ^ 62 <=? id) || negb (id mod 4 =? 0) ||
          match h_streams s !! id with None => true | Some st => hs_closed st end
  then h_invalid s
  else
    let s := set_h_conn (h3_shutdown_stream_write id (h_conn s)) s in
    let '(rv, s) := serve_h3 (h3_shutdown_stream_read id (h_conn s)) s in
    (h_check rv ;;; h_try (quic_cancel id NGHTTP3_H3_REQUEST_CANCELLED)) s.

(** [Engine::shutdown_notice] *)
Definition h3_shutdown_notice : H3 unit := fun s =>
  if negb (h3_ready s) then h_invalid s
  else if h_final_goaway s then h_invalid s
  else if h_going s then Returns tt s
  else h_call h3_submit_shutdown_notice (set_h_going s).

(** [Engine::shutdown] *)
Definition h3_shutdown : H3 unit := fun s =>
  if negb (h3_ready s) || negb (h_going s) then h_invalid s
  else if h_final_goaway s then Returns tt s
  else (h_call h3_conn_shutdown ;;; out_modify set_h_final_goaway) s.

(** [Engine::close] *)
Definition h3_close (code now : Z) : H3 bytes := fun s => h_try (quic_close code now) (set_h_failed s).
End Engine.
Arguments HImpl T N : clear implicits.
Arguments H3 T N A : clear implicits.
