(* ===== verification/Http3Laws.v ===== *)
(** * Http3Laws: what the HTTP/3 engine relies on in nghttp3

    The bytes of a stream that the library was given are, at any time, delivered as
    body, reported as consumed, or still held ([h3_view]): that is the contract of
    [nghttp3_conn_read_stream2], [recv_data] and [deferred_consume].  [toy_h3] is a
    library that keeps it and runs. *)

From stdpp Require Import gmap.
From S2P Require Import Prelude Quic QuicLaws Http3.

Local Open Scope Z_scope.

(** ** The bytes the library holds *)

Definition holds (v : gmap Z Z) (id : Z) : Z := default 0 (v !! id).
Definition hold_more (id n : Z) (v : gmap Z Z) : gmap Z Z := <[id := holds v id + n]> v.

(** Nothing is held that was not held before. *)
Definition lighter (v v' : gmap Z Z) : Prop :=
  forall id, holds v' id <= holds v id /\ (0 <= holds v id -> 0 <= holds v' id).

Definition held_after (c : HCallback) (v : gmap Z Z) : gmap Z Z :=
  match c with
  | hcb_data id data => hold_more id (- len data) v
  | hcb_deferred id size => hold_more id (- Z.of_nat size) v
  | _ => v
  end.

Definition hcallback_ok (c : HCallback) (v : gmap Z Z) : bool :=
  match c with
  | hcb_data id data => len data <=? holds v id
  | hcb_deferred id size => (0 <? size)%nat && (Z.of_nat size <=? holds v id)
  | _ => true
  end.

Fixpoint lawful_h3 {N R} (view : N -> gmap Z Z) (post : gmap Z Z -> R -> gmap Z Z -> Prop) (v : gmap Z Z)
    (r : HRun N R) : Prop :=
  match r with
  | h_returns x n => post v x (view n)
  | h_calls c n k =>
      hcallback_ok c v = true /\ view n = held_after c v /\ forall a n', lawful_h3 view post (view n') (k a n')
  end.

Class Nghttp3Laws (N : Type) `{Nghttp3 N} := {
  h3_view : N -> gmap Z Z;
  (** What [read_stream] returns is consumed; the rest was delivered or is held. *)
  read_stream_law : forall id data fin now n,
    lawful_h3 h3_view (fun v rc v' => 0 <= rc -> rc <= holds v id /\ lighter (hold_more id (- rc) v) v')
      (hold_more id (len data) (h3_view n)) (h3_read_stream id data fin now n);
  add_ack_law : forall id k n,
    lawful_h3 h3_view (fun v _ v' => lighter v v') (h3_view n) (h3_add_ack_offset id k n);
  shutdown_read_law : forall id n,
    lawful_h3 h3_view (fun v _ v' => lighter v v') (h3_view n) (h3_shutdown_stream_read id n);
  close_stream_law : forall id code n,
    lawful_h3 h3_view (fun v _ v' => lighter v v') (h3_view n) (h3_close_stream id code n);
  h3_writev_law : forall n, lawful_h3 h3_view (fun v _ v' => lighter v v') (h3_view n) (h3_writev_stream n);
  bind_control_law : forall id n, lighter (h3_view n) (h3_view (h3_bind_control_stream id n).2);
  bind_qpack_law : forall enc dec n, lighter (h3_view n) (h3_view (h3_bind_qpack_streams enc dec n).2);
  set_max_law : forall k n, lighter (h3_view n) (h3_view (h3_set_max_client_streams_bidi k n));
  shutdown_write_law : forall id n, lighter (h3_view n) (h3_view (h3_shutdown_stream_write id n));
  submit_request_law : forall id fs b n, lighter (h3_view n) (h3_view (h3_submit_request id fs b n).2);
  submit_response_law : forall id fs b n, lighter (h3_view n) (h3_view (h3_submit_response id fs b n).2);
  add_write_offset_law : forall id k n, lighter (h3_view n) (h3_view (h3_add_write_offset id k n).2);
  notice_law : forall n, lighter (h3_view n) (h3_view (h3_submit_shutdown_notice n).2);
  conn_shutdown_law : forall n, lighter (h3_view n) (h3_view (h3_conn_shutdown n).2);
}.

(** The window of a stream that delivered data can be extended, unless it is gone. *)
Class Ngtcp2Window (T : Type) `{Ngtcp2 T} := {
  window_law : forall id n t, 0 < n ->
    (tcp_extend_max_stream_offset id n t).1 = 0 \/
    (tcp_extend_max_stream_offset id n t).1 = NGTCP2_ERR_STREAM_NOT_FOUND;
}.

#[export] Instance toy_quic_window : Ngtcp2Window ToyQuic.
Proof. split. by left. Qed.

(** ** A concrete library *)

(** What the next pieces of stream data will make it report, what it holds, the
    streams it has closed, and what it wants to send. *)
Record ToyH3 := mk_toy_h3 {
  z_script : list (list HCallback);
  z_view : gmap Z Z;
  z_closed : gset Z;
  z_out : list HWritten;
}.

Definition toy_hold (v : gmap Z Z) (n : ToyH3) : ToyH3 := mk_toy_h3 (z_script n) v (z_closed n) (z_out n).

Fixpoint toy_report (cs : list HCallback) (fin : ToyH3 -> HRun ToyH3 Z) (n : ToyH3) : HRun ToyH3 Z :=
  match cs with
  | [] => fin n
  | c :: cs =>
      if hcallback_ok c (z_view n)
      then h_calls c (toy_hold (held_after c (z_view n)) n)
             (fun a n' => if ha_code a <? 0 then h_returns (-902) n' else toy_report cs fin n')
      else toy_report cs fin n
  end.

(** What was not delivered is consumed. *)
Definition toy_consumed (id : Z) (n : ToyH3) : HRun ToyH3 Z :=
  let rest := holds (z_view n) id in
  if rest <? 0 then h_returns (-902) n else h_returns rest (toy_hold (hold_more id (- rest) (z_view n)) n).

Definition toy_read_stream (id : Z) (data : bytes) (n : ToyH3) : HRun ToyH3 Z :=
  let cs := match z_script n with [] => [] | cs :: _ => cs end in
  toy_report cs (toy_consumed id)
    (mk_toy_h3 (tail (z_script n)) (hold_more id (len data) (z_view n)) (z_closed n) (z_out n)).

Definition toy_submit (id : Z) (fs : H3Headers) (n : ToyH3) : Z * ToyH3 :=
  if bool_decide (id ∈ z_closed n) then (-1012, n)
  else (0, mk_toy_h3 (z_script n) (z_view n) (z_closed n)
             (z_out n ++ [mk_hwritten 1 id true [concat ((fun f => f.1 ++ f.2) <$> fs)]])).

#[export] Instance toy_h3 : Nghttp3 ToyH3 := {
  NGHTTP3_ERR_CALLBACK_FAILURE := -902;
  NGHTTP3_ERR_STREAM_NOT_FOUND := -1012;
  NGHTTP3_H3_NO_ERROR := 256;
  NGHTTP3_H3_REQUEST_CANCELLED := 268;
  h3_check_header_name := fun name => negb (length name =? 0)%nat;
  h3_check_header_value := fun _ => true;
  h3_bind_control_stream := fun _ n => (0, n);
  h3_bind_qpack_streams := fun _ _ n => (0, n);
  h3_set_max_client_streams_bidi := fun _ n => n;
  h3_read_stream := fun id data _ _ n => toy_read_stream id data n;
  h3_add_ack_offset := fun id k n => toy_report [hcb_ack id (Z.to_nat k)] (h_returns 0) n;
  h3_shutdown_stream_read := fun _ n => h_returns 0 n;
  h3_shutdown_stream_write := fun _ n => n;
  h3_close_stream := fun id _ n =>
    toy_report [hcb_stream_close id] (h_returns 0) (mk_toy_h3 (z_script n) (z_view n) ({[id]} ∪ z_closed n) (z_out n));
  h3_submit_request := fun id fs _ n => toy_submit id fs n;
  h3_submit_response := fun id fs _ n => toy_submit id fs n;
  h3_writev_stream := fun n =>
    match z_out n with
    | [] => h_returns (mk_hwritten 0 (-1) false []) n
    | w :: _ => h_returns w n
    end;
  h3_add_write_offset := fun _ k n => (0, mk_toy_h3 (z_script n) (z_view n) (z_closed n) (tail (z_out n)));
  h3_submit_shutdown_notice := fun n => (0, n);
  h3_conn_shutdown := fun n => (0, n);
}.

Lemma lighter_refl v : lighter v v.
Proof. by intros id. Qed.

Lemma holds_more id n v i : holds (hold_more id n v) i = if decide (id = i) then holds v id + n else holds v i.
Proof. unfold holds, hold_more. rewrite lookup_insert. by case_decide. Qed.

Lemma toy_report_lawful post cs fin n :
  (forall v rc, rc < 0 -> post v rc v) -> (forall n, lawful_h3 z_view post (z_view n) (fin n)) ->
  lawful_h3 z_view post (z_view n) (toy_report cs fin n).
Proof.
  intros Hneg Hfin. revert n; induction cs as [|c cs IH]; intros n; simpl; [apply Hfin|].
  destruct (hcallback_ok c (z_view n)) eqn:E; [|apply IH]. simpl. split_and!; [done|done|]. intros a n'.
  destruct (ha_code a <? 0); [by apply Hneg|apply IH].
Qed.

#[export] Instance toy_h3_laws : Nghttp3Laws ToyH3.
Proof.
  refine {| h3_view := z_view |}; simpl; intros; try apply lighter_refl.
  - unfold toy_read_stream.
    apply (toy_report_lawful _ _ _
      (mk_toy_h3 (tail (z_script n)) (hold_more id (len data) (z_view n)) (z_closed n) (z_out n))).
    + intros v rc Hrc. lia.
    + intros n'. unfold toy_consumed. destruct (_ <? 0) eqn:E; simpl; [lia|]. intros _. split; [lia|apply lighter_refl].
  - split_and!; [done|done|]. intros a n'. destruct (_ <? 0); apply lighter_refl.
  - split_and!; [done|done|]. intros a n'. destruct (_ <? 0); apply lighter_refl.
  - destruct (z_out n); apply lighter_refl.
  - unfold toy_submit. case_bool_decide; apply lighter_refl.
  - unfold toy_submit. case_bool_decide; apply lighter_refl.
Defined.

(** A library that will report [script] as stream data arrives. *)
Definition toy_http3 (script : list (list HCallback)) : ToyH3 := mk_toy_h3 script ∅ ∅ [].
