(* ===== verification/Http3Inv.v ===== *)
(** * Http3Inv: the limits of an HTTP/3 engine

    Over any library and any QUIC engine below: streams, events, header fields and
    bodies stay within [Limits], for a single message and for the connection, and
    the counters never wrap.  The counter of header bytes is only an upper bound:
    a header block that is cut short is never given back ([aborted_headers_leak]). *)

From stdpp Require Import gmap.
From S2P Require Import Prelude Sums Errors Quic QuicLaws QuicInv Http3 Http3Laws.

Local Open Scope Z_scope.
Local Open Scope mira_scope.

(** ** Operations as data *)

Inductive HOp :=
| hop_receive (packet : bytes) (now : Z)
| hop_poll (now : Z)
| hop_expiry (now : Z)
| hop_request (fs : H3Headers) (body : bytes)
| hop_respond (id : Z) (fs : H3Headers) (body : bytes)
| hop_take
| hop_consume (id n : Z)
| hop_cancel (id : Z)
| hop_notice
| hop_shutdown
| hop_close (code now : Z).

Definition hop_ok (o : HOp) : Prop := match o with hop_consume _ n => 0 <= n | _ => True end.

(** The size of a list of fields as the limits count it. *)
Definition fields_total (fs : H3Headers) : Z := foldr (fun f n => field_size f + n) 0 fs.

Definition event_fields (es : list HEvent) : Z := fields_total (concat (he_fields <$> es)).
Definition stream_fields (st : HStream) : Z := fields_total (hs_fields st).
Definition output_size (st : HStream) : Z := len (hs_output st).

Lemma len_nil : len [] = 0.
Proof. done. Qed.

Lemma field_size_pos f : 32 <= field_size f.
Proof. unfold field_size. pose proof (len_nonneg f.1). pose proof (len_nonneg f.2). lia. Qed.

Lemma fields_total_nonneg fs : 0 <= fields_total fs.
Proof. induction fs as [|f fs IH]; simpl; [lia|]. pose proof (field_size_pos f). lia. Qed.

Lemma fields_total_app fs fs' : fields_total (fs ++ fs') = fields_total fs + fields_total fs'.
Proof. induction fs as [|f fs IH]; simpl; [done|lia]. Qed.

Lemma event_fields_snoc es e : event_fields (es ++ [e]) = event_fields es + fields_total (he_fields e).
Proof.
  unfold event_fields. rewrite fmap_app, concat_app, fields_total_app. simpl. by rewrite app_nil_r.
Qed.

Lemma stream_fields_nonneg st : 0 <= stream_fields st.
Proof. apply fields_total_nonneg. Qed.

Lemma output_size_nonneg st : 0 <= output_size st.
Proof. apply len_nonneg. Qed.

Section Limits.
Context {T N : Type} `{Ngtcp2 T} `{Nghttp3 N}.
Implicit Type s : HImpl T N.

Definition h3_op (o : HOp) s : HImpl T N :=
  match o with
  | hop_receive packet now => after s (h3_receive packet now s)
  | hop_poll now => after s (h3_poll now s)
  | hop_expiry now => after s (h3_handle_expiry now s)
  | hop_request fs body => after s (h3_request fs body s)
  | hop_respond id fs body => after s (h3_respond id fs body s)
  | hop_take => (h3_take_events s).2
  | hop_consume id n => after s (h3_consume id n s)
  | hop_cancel id => after s (h3_cancel id s)
  | hop_notice => after s (h3_shutdown_notice s)
  | hop_shutdown => after s (h3_shutdown s)
  | hop_close code now => after s (h3_close code now s)
  end.

Definition h3_run (ops : list HOp) s : HImpl T N := foldl (fun s o => h3_op o s) s ops.

(** ** The invariant *)

(** A list of fields within the limits of one message. *)
Definition fields_ok (l : H3Limits) (fs : H3Headers) : Prop :=
  fields_total fs <= h_max_header_bytes l /\ Z.of_nat (length fs) <= h_max_headers l.

Record hstream_ok (l : H3Limits) (st : HStream) : Prop := mk_hstream_ok {
  ho_fields : fields_ok l (hs_fields st);
  ho_field_bytes : fields_total (hs_fields st) <= hs_field_bytes st <= h_max_header_bytes l;
  ho_unread : 0 <= hs_unread st;
  ho_closed : hs_closed st = true -> 0 < hs_unread st;
}.

Record h3_inv s : Prop := mk_h3_inv {
  hi_limits : h3_limits_ok (h_limits s) = true /\ 0 <= h_max_streams (h_limits s) /\
    0 <= h_max_headers (h_limits s) /\ 0 <= h_max_header_bytes (h_limits s) /\
    0 <= h_max_buffered_body (h_limits s) /\ 0 <= h_max_events (h_limits s);
  hi_streams : Z.of_nat (size (h_streams s)) <= h_max_streams (h_limits s);
  hi_events : Z.of_nat (length (h_events s)) <= h_max_events (h_limits s);
  hi_event_fields : Forall (fun e => fields_ok (h_limits s) (he_fields e)) (h_events s);
  hi_stream : forall id st, h_streams s !! id = Some st -> hstream_ok (h_limits s) st;
  hi_input : h_input_bytes s = total hs_unread (h_streams s);
  hi_input_max : h_input_bytes s <= h_max_buffered_body (h_limits s);
  hi_output : total output_size (h_streams s) <= h_output_bytes s;
  hi_output_max : h_output_bytes s <= h_max_buffered_body (h_limits s);
  hi_header : total stream_fields (h_streams s) + event_fields (h_events s) <= h_header_bytes s;
  hi_header_max : h_header_bytes s <= h_max_header_bytes (h_limits s) * h_max_streams (h_limits s);
}.

Lemma inv_ranges s : h3_inv s ->
  let l := h_limits s in
  0 < h_max_streams l <= 4096 /\ 0 < h_max_headers l <= 4096 /\ 0 < h_max_header_bytes l <= 1024 * 1024 /\
  0 < h_max_buffered_body l <= 64 * 1024 * 1024 /\ 0 < h_max_events l <= 65536.
Proof.
  intros Hs. destruct (hi_limits s Hs) as (Hl & ?). unfold h3_limits_ok in Hl. simpl. bool_facts. lia.
Qed.

Lemma h3_inv_new q server l n :
  h3_limits_ok l = true -> 0 <= h_max_streams l -> 0 <= h_max_headers l -> 0 <= h_max_header_bytes l ->
  0 <= h_max_buffered_body l -> 0 <= h_max_events l -> h3_inv (new_h3 q server l n).
Proof.
  intros. split; simpl; rewrite ?total_empty; try done; try lia; try apply Forall_nil; done || nia.
Qed.

(** Members the invariant does not look at. *)
Definition same_tables s s' : Prop :=
  h_limits s' = h_limits s /\ h_streams s' = h_streams s /\ h_events s' = h_events s /\
  h_input_bytes s' = h_input_bytes s /\ h_output_bytes s' = h_output_bytes s /\ h_header_bytes s' = h_header_bytes s.

Lemma h3_inv_same s s' : h3_inv s -> same_tables s s' -> h3_inv s'.
Proof. intros [] (Hl & Hs & He & Hi & Ho & Hh). split; rewrite ?Hl, ?Hs, ?He, ?Hi, ?Ho, ?Hh; done. Qed.

(** The counters while a record exists. *)
Lemma h3_bounds s id st :
  h3_inv s -> h_streams s !! id = Some st ->
  0 <= hs_unread st <= h_input_bytes s /\ 0 <= output_size st <= h_output_bytes s /\
  0 <= stream_fields st /\ stream_fields st + event_fields (h_events s) <= h_header_bytes s.
Proof.
  intros Hs Hid. pose proof (total_lookup _ _ id st output_size_nonneg Hid).
  pose proof (total_lookup _ _ id st stream_fields_nonneg Hid). pose proof (output_size_nonneg st).
  pose proof (stream_fields_nonneg st). pose proof (hi_output s Hs). pose proof (hi_header s Hs).
  split_and!; try lia; [by apply (ho_unread _ _ (hi_stream s Hs id st Hid))|].
  rewrite (hi_input s Hs), (total_delete _ _ id st Hid).
  assert (0 <= total hs_unread (delete id (h_streams s))); [|lia].
  rewrite (total_ext _ (fun st => Z.max 0 (hs_unread st))); [apply total_nonneg; lia|].
  intros i e. rewrite lookup_delete. case_decide; [done|]. intros Hi.
  pose proof (ho_unread _ _ (hi_stream s Hs i e Hi)). lia.
Qed.

Lemma h3_counters s : h3_inv s -> 0 <= h_input_bytes s /\ 0 <= h_output_bytes s /\ 0 <= h_header_bytes s.
Proof.
  intros Hs. pose proof (total_nonneg _ (h_streams s) output_size_nonneg).
  pose proof (total_nonneg _ (h_streams s) stream_fields_nonneg). pose proof (hi_output s Hs). pose proof (hi_header s Hs).
  pose proof (fields_total_nonneg (concat (he_fields <$> h_events s))). unfold event_fields in *.
  split_and!; try lia. rewrite (hi_input s Hs).
  rewrite (total_ext _ (fun st => Z.max 0 (hs_unread st))); [apply total_nonneg; lia|].
  intros i e Hi. pose proof (ho_unread _ _ (hi_stream s Hs i e Hi)). lia.
Qed.

(** Replacing the record of a stream, with the counters following it. *)
Lemma h3_update s id st st' i o h :
  h3_inv s -> h_streams s !! id = Some st -> hstream_ok (h_limits s) st' ->
  i = h_input_bytes s - hs_unread st + hs_unread st' -> i <= h_max_buffered_body (h_limits s) ->
  h_output_bytes s - output_size st + output_size st' <= o -> o <= h_max_buffered_body (h_limits s) ->
  h_header_bytes s - stream_fields st + stream_fields st' <= h ->
  h <= h_max_header_bytes (h_limits s) * h_max_streams (h_limits s) ->
  h3_inv (set_h_header_bytes h (set_h_output o (set_h_input i (put_h id st' s)))).
Proof.
  intros [] Hid Hok -> Hi Ho Hom Hh Hhm. split; simpl; try done.
  - by rewrite map_size_insert_Some by (by eexists).
  - intros j y. rewrite lookup_insert. case_decide; [by intros [= <-]|eauto].
  - rewrite (total_put _ _ id st) by done. lia.
  - rewrite (total_put _ _ id st) by done. lia.
  - rewrite (total_put _ _ id st) by done. lia.
Qed.

(** A new, empty record. *)
Lemma hstream_ok_new l : 0 <= h_max_header_bytes l -> 0 <= h_max_headers l -> hstream_ok l new_hstream.
Proof. intros. split; simpl; [split; simpl; lia|lia|lia|done]. Qed.

Lemma h3_fresh s id :
  h3_inv s -> h_streams s !! id = None -> Z.of_nat (size (h_streams s)) < h_max_streams (h_limits s) ->
  h3_inv (put_h id new_hstream s).
Proof.
  intros Hs Hid Hc. pose proof (inv_ranges s Hs) as (_ & ? & ? & _). destruct Hs. split; simpl; try done.
  - rewrite map_size_insert_None by done. lia.
  - intros i y. rewrite lookup_insert. case_decide; [intros [= <-]; apply hstream_ok_new; lia|eauto].
  - by rewrite total_new.
  - by rewrite total_new.
  - by rewrite total_new.
Qed.

(** A record goes; its share of the counters is taken off or lost. *)
Lemma h3_erase s id st o :
  h3_inv s -> h_streams s !! id = Some st -> hs_unread st = 0 ->
  h_output_bytes s - output_size st <= o <= h_output_bytes s -> h3_inv (set_h_output o (erase_h id s)).
Proof.
  intros Hs Hid Hu Ho. pose proof (h3_bounds s id st Hs Hid) as (_ & Hos & Hf & _). destruct Hs.
  pose proof (total_delete hs_unread _ id st Hid). pose proof (total_delete output_size _ id st Hid).
  pose proof (total_delete stream_fields _ id st Hid).
  split; simpl; try done; try lia.
  - rewrite map_size_delete, Hid. lia.
  - intros i y. rewrite lookup_delete. case_decide; [done|eauto].
Qed.

(** Pushing an event: its fields are already counted. *)
Lemma h3_push_inv e s :
  h3_inv s -> fields_ok (h_limits s) (he_fields e) ->
  total stream_fields (h_streams s) + event_fields (h_events s) + fields_total (he_fields e) <= h_header_bytes s ->
  h3_inv (h_push e s).2.
Proof.
  intros Hs He Hh. unfold h_push. destruct (_ <=? _) eqn:E; [done|]. bool_facts. destruct Hs. split; simpl; try done.
  - rewrite length_app. simpl. lia.
  - apply Forall_app. split; [done|]. by apply Forall_singleton.
  - rewrite event_fields_snoc. lia.
Qed.

Lemma h3_push_plain e s : h3_inv s -> he_fields e = [] -> h3_inv (h_push e s).2.
Proof.
  intros Hs He. pose proof (inv_ranges s Hs) as (_ & ? & ? & _). pose proof (hi_header s Hs).
  apply h3_push_inv; rewrite ?He; simpl; [done|split; simpl; lia|lia].
Qed.

(** ** The callbacks keep it *)

Lemma on_h3_begin_inv id s : h3_inv s -> h3_inv (on_h3_begin id s).2.
Proof.
  intros Hs. unfold on_h3_begin. destruct (_ && _) eqn:E; [done|]. simpl.
  assert (exists s0 st, h3_inv s0 /\ h_streams s0 !! id = Some st /\ st = default new_hstream (h_streams s !! id) /\
     h_limits s0 = h_limits s /\ h_input_bytes s0 = h_input_bytes s /\ h_output_bytes s0 = h_output_bytes s /\
     h_header_bytes s0 = h_header_bytes s /\ forall x, put_h id x s0 = put_h id x s)
    as (s0 & st & Hs0 & Hst & -> & Hl & Hi & Ho & Hh & Hput).
  { destruct (h_streams s !! id) as [st|] eqn:Hid; [by exists s, st|].
    exists (put_h id new_hstream s), new_hstream. rewrite bool_decide_true in E by done. simpl in E. bool_facts.
    split_and!; try done; simpl.
    - by apply h3_fresh.
    - apply lookup_insert_eq.
    - intros x. unfold put_h. simpl. by rewrite insert_insert_eq. }
  set (st := default new_hstream (h_streams s !! id)) in *.
  pose proof (hi_stream s0 Hs0 id st Hst) as []. pose proof (inv_ranges s0 Hs0) as (_ & ? & ? & _).
  pose proof (stream_fields_nonneg st). rewrite <- Hput.
  apply (h3_update s0 id st (set_fields 0 [] st) (h_input_bytes s0) (h_output_bytes s0) (h_header_bytes s0) Hs0 Hst).
  - split; simpl; [split; simpl; lia|lia|done|done].
  - simpl. lia.
  - apply (hi_input_max s0 Hs0).
  - unfold output_size. simpl. lia.
  - apply (hi_output_max s0 Hs0).
  - unfold stream_fields in *. simpl. lia.
  - apply (hi_header_max s0 Hs0).
Qed.

Lemma on_h3_header_inv id name value s : h3_inv s -> h3_inv (on_h3_header id name value s).2.
Proof.
  intros Hs. unfold on_h3_header. destruct (h_streams s !! id) as [st|] eqn:Hid; [|done].
  set (f := (name, value)). destruct (_ || _ || _) eqn:E; [done|]. bool_facts. simpl.
  pose proof (inv_ranges s Hs) as (? & ? & ? & _). pose proof (hi_stream s Hs id st Hid) as [[? ?] ? ? ?].
  pose proof (h3_counters s Hs) as (_ & _ & ?). pose proof (hi_header_max s Hs).
  pose proof (field_size_pos f). pose proof (fields_total_nonneg (hs_fields st)).
  rewrite wrap64_exact in H1 by lia. rewrite wrap64_exact in H2 by nia.
  apply (h3_update s id st _ (h_input_bytes s) (h_output_bytes s) (h_header_bytes s + field_size f) Hs Hid);
    unfold stream_fields, output_size; simpl; rewrite ?fields_total_app; simpl; try lia.
  - split; simpl; rewrite ?fields_total_app; simpl; try done; try lia.
    split; rewrite ?fields_total_app, ?length_app; simpl; lia.
  - apply (hi_input_max s Hs).
  - apply (hi_output_max s Hs).
Qed.

Lemma on_h3_end_headers_inv id s : h3_inv s -> h3_inv (on_h3_end_headers id s).2.
Proof.
  intros Hs. unfold on_h3_end_headers. destruct (h_streams s !! id) as [st|] eqn:Hid; [|done].
  pose proof (hi_stream s Hs id st Hid) as Hok. pose proof (hi_header s Hs).
  pose proof (stream_fields_nonneg st) as Hf0. pose proof (inv_ranges s Hs) as (_ & ? & ? & _).
  assert (h3_inv (put_h id (set_fields (hs_field_bytes st) [] st) s)) as Hput.
  { destruct Hok. apply (h3_update s id st (set_fields (hs_field_bytes st) [] st) (h_input_bytes s) (h_output_bytes s) (h_header_bytes s) Hs Hid);
      unfold stream_fields, output_size in *; simpl; try lia; try by destruct Hs.
    pose proof (fields_total_nonneg (hs_fields st)). split; simpl; [split; simpl; lia|lia|done|done]. }
  apply h3_push_inv; [done|by apply (ho_fields _ _ Hok)|]. simpl.
  rewrite (total_put _ _ id st) by done. change (stream_fields (set_fields (hs_field_bytes st) [] st)) with 0.
  change (stream_fields st) with (fields_total (hs_fields st)). lia.
Qed.

Lemma on_h3_data_inv id data s : h3_inv s -> h3_inv (on_h3_data id data s).2.
Proof.
  intros Hs. unfold on_h3_data. destruct (_ <? _) eqn:E; [done|]. bool_facts.
  destruct (h_streams s !! id) as [st|] eqn:Hid; [|done]. apply h3_push_plain; [|done].
  pose proof (inv_ranges s Hs) as (_ & _ & _ & ? & _). pose proof (h3_counters s Hs) as (? & _ & _).
  pose proof (hi_input_max s Hs). rewrite wrap64_exact in E by lia. pose proof (len_nonneg data).
  pose proof (hi_stream s Hs id st Hid) as [].
  apply (h3_update s id st _ (h_input_bytes s + len data) (h_output_bytes s) (h_header_bytes s) Hs Hid);
    unfold stream_fields, output_size; simpl; try lia; try by destruct Hs.
  split; simpl; try done; [lia|]. intros Hc. specialize (ho_closed0 Hc). lia.
Qed.

Lemma on_h3_ack_inv id n s : h3_inv s -> h3_inv (on_h3_ack id n s).2.
Proof.
  intros Hs. unfold on_h3_ack. destruct (h_streams s !! id) as [st|] eqn:Hid; [|done]. simpl.
  pose proof (h3_bounds s id st Hs Hid) as (_ & Ho & _). unfold output_size in Ho.
  pose proof (inv_ranges s Hs) as (_ & _ & _ & ? & _). pose proof (hi_output_max s Hs).
  pose proof (hi_stream s Hs id st Hid) as []. destruct (_ =? _).
  - rewrite wrap64_exact by lia.
    apply (h3_update s id st _ (h_input_bytes s) (h_output_bytes s - len (hs_output st)) (h_header_bytes s) Hs Hid);
      unfold stream_fields, output_size; simpl; rewrite ?len_nil; try lia; try (by destruct Hs); by split.
  - apply (h3_update s id st _ (h_input_bytes s) (h_output_bytes s) (h_header_bytes s) Hs Hid);
      unfold stream_fields, output_size; simpl; rewrite ?len_nil; try lia; try (by destruct Hs); by split.
Qed.

Lemma on_h3_stream_close_inv id s : h3_inv s -> h3_inv (on_h3_stream_close id s).2.
Proof.
  intros Hs. unfold on_h3_stream_close. destruct (h_streams s !! id) as [st|] eqn:Hid; [|done]. simpl.
  pose proof (h3_bounds s id st Hs Hid) as (_ & Ho & _). unfold output_size in Ho.
  pose proof (inv_ranges s Hs) as (_ & _ & _ & ? & _). pose proof (hi_output_max s Hs).
  pose proof (hi_stream s Hs id st Hid) as []. rewrite wrap64_exact by lia.
  destruct (hs_unread st =? 0) eqn:E; bool_facts.
  - apply (h3_erase s id st (h_output_bytes s - len (hs_output st))); [done|done|done|]. unfold output_size. lia.
  - apply (h3_update s id st _ (h_input_bytes s) (h_output_bytes s - len (hs_output st)) (h_header_bytes s) Hs Hid);
      unfold stream_fields, output_size; simpl; rewrite ?len_nil; try lia; try (by destruct Hs).
    split; simpl; try done. lia.
Qed.

Lemma on_transport_same {A} (m : Q T A) s : same_tables s (on_transport m s).2.
Proof. unfold on_transport. by destruct (m _). Qed.

Lemma on_transport_inv {A} (m : Q T A) s : h3_inv s -> h3_inv (on_transport m s).2.
Proof. intros Hs. eapply h3_inv_same; [done|apply on_transport_same]. Qed.

Lemma handle_h3_inv c s : h3_inv s -> h3_inv (handle_h3 c s).2.
Proof.
  intros Hs. destruct c; simpl.
  - by apply on_h3_begin_inv.
  - by apply on_h3_header_inv.
  - by apply on_h3_end_headers_inv.
  - by apply on_h3_data_inv.
  - unfold on_h3_deferred. pose proof (on_transport_inv (quic_consume id (Z.of_nat size)) s Hs) as Ht.
    by destruct (on_transport _ s) as [[]].
  - by apply h3_push_plain.
  - unfold on_h3_reset. pose proof (on_transport_inv (quic_cancel id code) s Hs) as Ht.
    destruct (on_transport _ s) as [[] s']; [by apply h3_push_plain|done].
  - by apply h3_push_plain; [apply (h3_inv_same s)|].
  - by apply on_h3_ack_inv.
  - by apply on_h3_stream_close_inv.
  - done.
Qed.

Lemma serve_h3_inv {R} (r : HRun N R) s : h3_inv s -> h3_inv (serve_h3 r s).2.
Proof.
  revert s; induction r as [x n|c n k IH]; intros s Hs; simpl; [by apply (h3_inv_same s)|].
  pose proof (handle_h3_inv c (set_h_conn n s) (h3_inv_same s (set_h_conn n s) Hs ltac:(done))) as Hh.
  destruct (handle_h3 c (set_h_conn n s)) as [a s']. by apply IH.
Qed.

(** ** The operations keep it *)

Abbreviation keeps_h3 := (maintains h3_inv).

Lemma h_check_inv rv : keeps_h3 (h_check rv).
Proof. intros s Hs. unfold wp, h_check. destruct (rv <? 0); [by apply (h3_inv_same s)|done]. Qed.

Lemma h_call_inv f : keeps_h3 (h_call f).
Proof.
  intros s Hs. unfold wp, h_call. destruct (f (h_conn s)) as [rv n]. apply h_check_inv. by apply (h3_inv_same s).
Qed.

Lemma h_try_inv {A} (m : Q T A) : keeps_h3 (h_try m).
Proof.
  intros s Hs. unfold wp, h_try. pose proof (on_transport_inv m s Hs) as Ht. by destruct (on_transport m s) as [[] s'].
Qed.

Lemma h_must_inv {A} (m : Q T A) : keeps_h3 (h_must m).
Proof.
  intros s Hs. unfold wp, h_must. pose proof (on_transport_inv m s Hs) as Ht.
  destruct (on_transport m s) as [[] s']; [done|]. by apply (h3_inv_same s').
Qed.

Lemma h_initialize_inv : keeps_h3 h_initialize.
Proof.
  intros s Hs. unfold h_initialize, wp. destruct (_ || _); [done|]. destruct (negb _); [by apply (h3_inv_same s)|].
  revert s Hs. change (keeps_h3 (let! control := h_try (quic_open_stream true) in
     let! enc := h_try (quic_open_stream true) in
     let! dec := h_try (quic_open_stream true) in
     h_call (h3_bind_control_stream control) ;;;
     h_call (h3_bind_qpack_streams enc dec) ;;;
     out_modify set_h_initialized)).
  do 3 (apply maintains_bind; [apply h_try_inv|intros ?]). do 2 (apply maintains_bind; [apply h_call_inv|intros ?]).
  intros s Hs. by apply (h3_inv_same s).
Qed.

Lemma process_event_inv now e : keeps_h3 (process_event now e).
Proof.
  intros s Hs. unfold wp, process_event. destruct (qe_kind e).
  - pose proof (serve_h3_inv (h3_read_stream (qe_stream e) (qe_data e) (qe_fin e) now (h_conn s)) s Hs) as Hv.
    destruct (serve_h3 _ s) as [n s']. destruct (n <? 0); [by apply h_check_inv|].
    destruct (0 <? n); [by apply h_must_inv|by apply h_check_inv].
  - pose proof (serve_h3_inv (h3_add_ack_offset (qe_stream e) (qe_value e) (h_conn s)) s Hs) as Hv.
    destruct (serve_h3 _ s) as [n s']. by apply h_check_inv.
  - pose proof (serve_h3_inv (h3_shutdown_stream_read (qe_stream e) (h_conn s)) s Hs) as Hv.
    destruct (serve_h3 _ s) as [n s'].
    pose proof (h3_push_plain (mk_hevent HKind.reset (qe_stream e) [] [] (qe_value e)) s' Hv eq_refl) as Hp.
    destruct (h_push _ s') as [p s2]. by apply h_check_inv.
  - match goal with |- context [serve_h3 ?r s] => pose proof (serve_h3_inv r s Hs) as Hv end.
    destruct (serve_h3 _ s) as [n s']. by apply h_check_inv.
Qed.

Lemma process_events_inv now es : keeps_h3 (process_events now es).
Proof.
  induction es as [|e es IH]; simpl; [apply maintains_ret|]. apply maintains_bind; [apply process_event_inv|done].
Qed.

Lemma h_process_inv now : keeps_h3 (h_process now).
Proof.
  intros s Hs. unfold h_process. unfold wp. destruct (_ || _); [done|].
  assert (h3_inv (set_h_clock now s)) as Hc by (by apply (h3_inv_same s)). revert Hc.
  generalize (set_h_clock now s). clear s Hs. intros s Hs. revert s Hs.
  match goal with |- forall s, h3_inv s -> match ?m s with _ => _ end => change (keeps_h3 m) end.
  apply maintains_bind; [apply h_initialize_inv|]. intros _ s Hs. unfold wp.
  destruct (negb _); [done|]. destruct (h_server s); apply process_events_inv; by apply (h3_inv_same s).
Qed.

Lemma h3_poll_rounds_inv k : keeps_h3 (h3_poll_rounds k).
Proof.
  induction k as [|k IH]; simpl; [apply maintains_ret|].
  apply maintains_bind; [|intros [x|]; [apply maintains_ret|done]].
  intros s Hs. unfold wp, h3_poll_round. destruct (_ =? 0); [done|].
  pose proof (serve_h3_inv (h3_writev_stream (h_conn s)) s Hs) as Hv. destruct (serve_h3 _ s) as [w s']. simpl in Hv.
  destruct (hw_n w <? 0); [by apply (h3_inv_same s')|]. destruct (hw_id w =? -1); [done|].
  destruct (gather _ _) as [out available].
  match goal with |- context [on_transport ?m s'] => pose proof (on_transport_inv m s' Hv) as Ht end.
  destruct (on_transport _ s') as [[x|e] s2]; simpl in Ht.
  - pose proof (h_call_inv (h3_add_write_offset (hw_id w) (len out)) s2 Ht) as Hc. unfold wp, out_bind in *.
    by destruct (h_call _ s2).
  - destruct (ec_value e =? quic_budget); [done|]. by apply (h3_inv_same s2).
Qed.

Lemma h3_poll_inv now : keeps_h3 (h3_poll now).
Proof.
  apply maintains_bind; [apply h_process_inv|]. intros _. apply maintains_bind; [|intros _; apply h_must_inv].
  intros s Hs. unfold wp. destruct (h_initialized s); [|done]. by apply h3_poll_rounds_inv.
Qed.

Lemma h3_receive_inv packet now : keeps_h3 (h3_receive packet now).
Proof.
  intros s Hs. unfold h3_receive, wp. destruct (h_failed s); [done|].
  exact (maintains_bind _ _ _ (h_must_inv _) (fun _ => h_process_inv now) s Hs).
Qed.

Lemma h3_handle_expiry_inv now : keeps_h3 (h3_handle_expiry now).
Proof.
  intros s Hs. unfold h3_handle_expiry, wp. destruct (h_failed s); [done|].
  exact (maintains_bind _ _ _ (h_must_inv _) (fun _ => h_process_inv now) s Hs).
Qed.

(** [submit], after [valid_fields] let the body through. *)
Lemma h_submit_inv id fs body s :
  h3_inv s -> valid_fields fs body s = true -> wp (h_submit id fs body) s (fun _ => h3_inv) (fun _ => h3_inv).
Proof.
  intros Hs Hv. unfold valid_fields in Hv. bool_facts. unfold wp, h_submit.
  destruct (h_streams s !! id) as [st|] eqn:Hid; [|done].
  pose proof (inv_ranges s Hs) as (_ & _ & _ & ? & _). pose proof (h3_counters s Hs) as (_ & ? & _).
  pose proof (hi_output_max s Hs). rewrite wrap64_exact in H3 by lia. pose proof (output_size_nonneg st).
  pose proof (hi_stream s Hs id st Hid) as [].
  assert (h3_inv (set_h_output (h_output_bytes s + len body) (put_h id (set_output body st) s))) as Hput.
  { apply (h3_update s id st (set_output body st) (h_input_bytes s) (h_output_bytes s + len body) (h_header_bytes s) Hs Hid);
      unfold stream_fields, output_size in *; simpl; try lia; try (by destruct Hs); by split. }
  revert Hput. generalize (set_h_output (h_output_bytes s + len body) (put_h id (set_output body st) s)).
  intros s1 Hs1.
  match goal with |- match out_bind ?m ?k s1 with _ => _ end =>
    change (wp (out_bind m k) s1 (fun _ => h3_inv) (fun _ => h3_inv)) end.
  apply wp_bind. eapply wp_mono; [by apply h_call_inv| |done]. intros [] s2 Hs2. unfold wp.
  destruct (h_streams s2 !! id) as [st2|] eqn:Hid2; [|done]. pose proof (hi_stream s2 Hs2 id st2 Hid2) as [].
  apply (h3_update s2 id st2 (set_h_responded st2) (h_input_bytes s2) (h_output_bytes s2) (h_header_bytes s2) Hs2 Hid2);
    unfold stream_fields, output_size in *; simpl; try lia; try (by destruct Hs2); by split.
Qed.

Lemma h3_request_inv fs body : keeps_h3 (h3_request fs body).
Proof.
  intros s Hs. unfold wp, h3_request. destruct (_ || _) eqn:E; [done|].
  destruct (negb (valid_fields fs body s)) eqn:Ev; [done|]. bool_facts.
  match goal with |- match ?m s with _ => _ end => change (wp m s (fun _ => h3_inv) (fun _ => h3_inv)) end.
  apply wp_bind. unfold h_try at 1, wp at 1. pose proof (on_transport_same (quic_open_stream false) s) as Hsm.
  destruct (on_transport _ s) as [[id|e] s1]; simpl in Hsm; [|by apply (h3_inv_same s)].
  assert (h3_inv s1) as Hs1 by (by apply (h3_inv_same s)). destruct Hsm as (Hl & Hst & He & Hi & Ho & Hh).
  apply wp_bind. unfold wp at 1.
  set (s2 := match h_streams s1 !! id with Some _ => s1 | None => put_h id new_hstream s1 end).
  assert (h3_inv s2) as Hs2.
  { unfold s2. destruct (h_streams s1 !! id) eqn:Hid; [done|]. apply h3_fresh; [done|done|]. rewrite Hst, Hl. lia. }
  assert (valid_fields fs body s2 = true) as Hv2.
  { assert (h_limits s2 = h_limits s /\ h_output_bytes s2 = h_output_bytes s) as [Hl2 Ho2]
      by (unfold s2; destruct (h_streams s1 !! id); simpl; by rewrite Hl, Ho).
    unfold valid_fields in *. by rewrite Hl2, Ho2. }
  apply wp_bind. eapply wp_mono; [by apply h_submit_inv|done|done].
Qed.

Lemma h3_respond_inv id fs body : keeps_h3 (h3_respond id fs body).
Proof.
  intros s Hs. unfold wp, h3_respond. destruct (h_streams s !! id) as [st|] eqn:Hid; [|done].
  destruct (_ || _); [done|]. destruct (negb (valid_fields fs body s)) eqn:Ev; [done|]. bool_facts.
  by apply h_submit_inv.
Qed.

(** The fields of the events taken are given back. *)
Lemma give_back_spec fs n :
  fields_total fs <= n <= 2 ^ 32 -> foldl (fun n f => wrap64 (n - field_size f)) n fs = n - fields_total fs.
Proof.
  revert n; induction fs as [|f fs IH]; intros n Hn; simpl in *; [lia|]. pose proof (field_size_pos f).
  pose proof (fields_total_nonneg fs). rewrite wrap64_exact by lia. rewrite IH; lia.
Qed.

Lemma h3_take_inv s : h3_inv s -> h3_inv (h3_take_events s).2.
Proof.
  intros Hs. unfold h3_take_events. simpl. pose proof (inv_ranges s Hs) as (? & _ & ? & _ & ?).
  pose proof (hi_header s Hs) as Hh. pose proof (hi_header_max s Hs). pose proof (total_nonneg _ (h_streams s) stream_fields_nonneg).
  unfold event_fields in Hh. rewrite give_back_spec by nia.
  destruct Hs. split; simpl; try done; try lia.
  - unfold event_fields. simpl. lia.
  - pose proof (fields_total_nonneg (concat (he_fields <$> h_events s))). lia.
Qed.

Lemma h3_consume_inv id n : 0 <= n -> keeps_h3 (h3_consume id n).
Proof.
  intros Hn s Hs. unfold wp, h3_consume. destruct (h_failed s); [done|].
  destruct (h_streams s !! id) as [st|] eqn:Hid; [|by destruct (n =? 0)]. destruct (hs_unread st <? n) eqn:En; [done|].
  bool_facts. unfold out_bind, h_try. pose proof (on_transport_same (quic_consume id n) s) as Hsm.
  destruct (on_transport _ s) as [[x|e] s1]; simpl in Hsm; [|by apply (h3_inv_same s)].
  assert (h3_inv s1) as Hs1 by (by apply (h3_inv_same s)). destruct Hsm as (Hl & Hst & He & Hi & Ho & Hh).
  rewrite <- Hst in Hid. pose proof (h3_bounds s1 id st Hs1 Hid) as (Hu & _ & _).
  pose proof (inv_ranges s1 Hs1) as (_ & _ & _ & ? & _). pose proof (hi_input_max s1 Hs1).
  simpl. rewrite !wrap64_exact by lia. pose proof (hi_stream s1 Hs1 id st Hid) as [].
  assert (forall st', (hs_closed st' = true -> 0 < hs_unread st - n) -> hs_unread st' = hs_unread st - n ->
     hs_fields st' = hs_fields st -> hs_field_bytes st' = hs_field_bytes st -> hs_output st' = hs_output st ->
     h3_inv (set_h_input (h_input_bytes s1 - n) (put_h id st' s1))) as Hput.
  { intros st' Hc Hu' Hf Hfb Hout.
    apply (h3_update s1 id st st' (h_input_bytes s1 - n) (h_output_bytes s1) (h_header_bytes s1) Hs1 Hid);
      unfold stream_fields, output_size; rewrite ?Hf, ?Hout, ?Hu'; try lia; try (by destruct Hs1).
    split; rewrite ?Hf, ?Hfb, ?Hu'; done || lia. }
  destruct (hs_closed st && (hs_unread st - n =? 0)) eqn:E.
  - bool_facts. set (st0 := mk_hstream (hs_output st) (hs_acked st) 0 (hs_field_bytes st) (hs_fields st) (hs_responded st) false).
    assert (h3_inv (set_h_input (h_input_bytes s1 - n) (put_h id st0 s1))) as H0' by (apply Hput; simpl; done || lia).
    pose proof (h3_erase _ id st0 (h_output_bytes s1) H0') as Her. unfold erase_h, put_h in *. simpl in *.
    rewrite lookup_insert_eq, delete_insert_eq in Her. rewrite delete_insert_eq. apply Her; [done|done|].
    pose proof (output_size_nonneg st0). lia.
  - apply Hput; try done. simpl. intros Hc. rewrite Hc in E. simpl in E. bool_facts. lia.
Qed.

Lemma h3_cancel_inv id : keeps_h3 (h3_cancel id).
Proof.
  intros s Hs. unfold wp, h3_cancel. destruct (negb _); [done|]. destruct (_ || _); [done|].
  assert (h3_inv (set_h_conn (h3_shutdown_stream_write id (h_conn s)) s)) as Hc by (by apply (h3_inv_same s)).
  pose proof (serve_h3_inv (h3_shutdown_stream_read id (h3_shutdown_stream_write id (h_conn s))) _ Hc) as Hv.
  simpl in *. destruct (serve_h3 _ _) as [rv s1].
  exact (maintains_bind _ _ _ (h_check_inv rv) (fun _ => h_try_inv _) s1 Hv).
Qed.

Lemma h3_shutdown_notice_inv : keeps_h3 h3_shutdown_notice.
Proof.
  intros s Hs. unfold wp, h3_shutdown_notice. destruct (negb _); [done|]. destruct (h_final_goaway s); [done|].
  destruct (h_going s); [done|]. apply h_call_inv. by apply (h3_inv_same s).
Qed.

Lemma h3_shutdown_inv : keeps_h3 h3_shutdown.
Proof.
  intros s Hs. unfold wp, h3_shutdown. destruct (_ || _); [done|]. destruct (h_final_goaway s); [done|].
  refine (maintains_bind _ _ _ (h_call_inv _) (fun _ => _) s Hs). intros s' Hs'. by apply (h3_inv_same s').
Qed.

Lemma h3_close_inv code now : keeps_h3 (h3_close code now).
Proof. intros s Hs. apply h_try_inv. by apply (h3_inv_same s). Qed.

Lemma h3_op_inv o s : hop_ok o -> h3_inv s -> h3_inv (h3_op o s).
Proof.
  intros Ho Hs. destruct o; simpl in *; try (apply maintains_after; [|done]).
  - apply h3_receive_inv.
  - apply h3_poll_inv.
  - apply h3_handle_expiry_inv.
  - apply h3_request_inv.
  - apply h3_respond_inv.
  - by apply h3_take_inv.
  - by apply h3_consume_inv.
  - apply h3_cancel_inv.
  - apply h3_shutdown_notice_inv.
  - apply h3_shutdown_inv.
  - apply h3_close_inv.
Qed.

Lemma h3_run_inv ops s : Forall hop_ok ops -> h3_inv s -> h3_inv (h3_run ops s).
Proof. intros Ho. revert s; induction Ho as [|o ops Ho _ IH]; intros s Hs; [done|]. apply IH. by apply h3_op_inv. Qed.
End Limits.

(** C19: Whatever the application calls, and whatever nghttp3 and the QUIC engine do,
    under limits the engine accepts: streams and events stay within their limits;
    every list of fields that is being received or waits as an event is within the
    limits of one message; [input_bytes] is exactly the bytes of bodies not consumed.
    [output_bytes] and [header_bytes] are upper bounds only, of the bytes kept for
    sending and of all fields being received or waiting (they can exceed them:
    [aborted_headers_leak]); all three counters stay under their limits. *)
Theorem h3_within_limits {T N : Type} {HT : Ngtcp2 T} {HN : Nghttp3 N} (q : QImpl T) (server : bool)
    (l : H3Limits) (n : N) (ops : list HOp) :
  h3_limits_ok l = true -> 0 <= h_max_streams l -> 0 <= h_max_headers l -> 0 <= h_max_header_bytes l ->
  0 <= h_max_buffered_body l -> 0 <= h_max_events l -> Forall hop_ok ops ->
  let s := h3_run ops (new_h3 q server l n) in
  Z.of_nat (size (h_streams s)) <= h_max_streams (h_limits s) /\
  Z.of_nat (length (h_events s)) <= h_max_events (h_limits s) /\
  Forall (fun e => fields_ok (h_limits s) (he_fields e)) (h_events s) /\
  (forall id st, h_streams s !! id = Some st -> fields_ok (h_limits s) (hs_fields st)) /\
  0 <= h_input_bytes s <= h_max_buffered_body (h_limits s) /\
  h_input_bytes s = total hs_unread (h_streams s) /\
  total output_size (h_streams s) <= h_output_bytes s <= h_max_buffered_body (h_limits s) /\
  total stream_fields (h_streams s) + event_fields (h_events s) <= h_header_bytes s <=
    h_max_header_bytes (h_limits s) * h_max_streams (h_limits s).
Proof.
  intros Hl H1 H2 H3 H4 H5 Hops s.
  assert (h3_inv s) as Hi by (apply h3_run_inv; [done|by apply h3_inv_new]).
  pose proof (h3_counters s Hi) as (Hc & _ & _).
  split_and!; try (by destruct Hi); try done.
  intros id st Hid. apply (hi_stream s Hi id st Hid).
Qed.

(** ** Where it goes wrong *)

(** The QUIC engine of a server whose peer sends [script]. *)
Definition quic_server (script : list (list QCallback)) : QImpl ToyQuic :=
  new_engine (mk_quic_options true here there [] (lit "h3") 4096 4 0) 0 (toy_server script).

(** One request at a time, of one field of 64 bytes. *)
Definition tiny_limits : H3Limits := mk_h3_limits 64 4 4096 16 1.

(** Stream 0 starts a header block and is reset in the middle of it; stream 4 then
    sends a request of its own. *)
Definition cut_short : HImpl ToyQuic ToyH3 :=
  new_h3 (quic_server [[cb_stream_data false 0 (lit "a")]; [cb_stream_close 0 0];
                       [cb_stream_data false 4 (lit "b")]]) true tiny_limits
    (toy_http3 [[hcb_begin 0; hcb_header 0 (lit "name") (replicate 28 x61)];
                [hcb_begin 4; hcb_header 4 (lit "x") (lit "y")]]).

(** The fields of a header block that never ends, because its stream is closed
    first, stay in [header_bytes]: a run after which nothing at all is stored and the
    budget for header fields is used up, so that the first field of the next request
    makes the engine fail. *)
Theorem aborted_headers_leak :
  let s := h3_run [hop_receive [] 1; hop_receive [] 2] cut_short in
  h_streams s = ∅ /\ h_events s = [] /\ h3_ready s = true /\ h_header_bytes s = 64 /\
  h_failed (h3_op (hop_receive [] 3) s) = true.
Proof. intros s. split_and!; vm_compute; reflexivity. Qed.

(** A request with a body whose stream is closed before the body was consumed. *)
Definition gone_client : HImpl ToyQuic ToyH3 :=
  new_h3 (quic_server [[cb_stream_data true 0 (lit "abcd")]; [cb_stream_close 0 0]]) true tiny_limits
    (toy_http3 [[hcb_begin 0; hcb_header 0 (lit "m") (lit "v"); hcb_end_headers 0; hcb_data 0 (lit "abc")]]).

Definition answer_gone : list HOp :=
  [hop_receive [] 1; hop_take; hop_receive [] 2; hop_respond 0 [(lit "status", lit "200")] (lit "ok")].

(** [respond] refuses a stream that was answered, but not one that was closed while
    its body waits for the application; the library does not know that stream any
    more and its error makes the whole connection fail.  [cancel] on the same stream
    is refused without harm. *)
Theorem answering_a_closed_stream_fails_all :
  let s := h3_run (take 3 answer_gone) gone_client in
  h3_ready s = true /\ hs_closed <$> h_streams s !! 0 = Some true /\
  h_failed (h3_op (hop_cancel 0) s) = false /\ h_failed (h3_run answer_gone gone_client) = true.
Proof. intros s. split_and!; vm_compute; reflexivity. Qed.

Lemma h3_within_limits_witness :
  let s := h3_run answer_gone gone_client in
  h_input_bytes s = 3 /\ 0 <= h_input_bytes s <= h_max_buffered_body (h_limits s).
Proof.
  intros s. split; [vm_compute; reflexivity|].
  assert (Forall hop_ok answer_gone) as Hops by repeat constructor.
  refine (proj1 (proj2 (proj2 (proj2 (proj2 (h3_within_limits
    (quic_server [[cb_stream_data true 0 (lit "abcd")]; [cb_stream_close 0 0]]) true tiny_limits _ answer_gone
    eq_refl _ _ _ _ _ Hops)))))); discriminate.
Defined.
