(* ===== verification/Http3Flow.v ===== *)
(** * Http3Flow: HTTP/3 and QUIC agree on what is owed

    The QUIC engine counts, per stream, the bytes it delivered and that were not
    consumed; the HTTP/3 engine consumes them in pieces: what nghttp3 used up at
    once, what it used up later ([deferred_consume]), and what the application read.
    The bytes HTTP/3 may still consume (body not read, data held by the library,
    events not processed) never exceed what QUIC has on its books, so no [consume]
    is ever refused, in particular none that would make the connection fail. *)

From stdpp Require Import gmap.
From S2P Require Import Prelude Sums Errors Quic QuicLaws QuicInv Http3 Http3Laws Http3Inv.

Local Open Scope Z_scope.
Local Open Scope mira_scope.

(** ** QUIC's books *)

(** The data in events that were not taken. *)
Fixpoint queued (es : list QEvent) (id : Z) : Z :=
  match es with
  | [] => 0
  | e :: es =>
      (if bool_decide (qe_kind e = QKind.data) && (qe_stream e =? id) then len (qe_data e) else 0) + queued es id
  end.

Lemma queued_nonneg es id : 0 <= queued es id.
Proof. induction es as [|e es IH]; simpl; [lia|]. case_match; pose proof (len_nonneg (qe_data e)); lia. Qed.

Lemma queued_app es es' id : queued (es ++ es') id = queued es id + queued es' id.
Proof. induction es as [|e es IH]; simpl; [done|lia]. Qed.

Section Quic.
Context {T : Type} `{Ngtcp2 T}.
Implicit Type s : QImpl T.

Definition quic_unread s (id : Z) : Z := default 0 (st_unread <$> q_streams s !! id).

(** What was delivered, taken and not consumed. *)
Definition owed s (id : Z) : Z := quic_unread s id - queued (q_events s) id.

Definition same_owed s s' : Prop := forall id, owed s' id = owed s id.

#[export] Instance same_owed_preorder : PreOrder same_owed.
Proof. split; [by intros s id|]. intros s1 s2 s3 H1 H2 id. by rewrite H2. Qed.

Lemma owed_same s s' : q_streams s' = q_streams s -> q_events s' = q_events s -> same_owed s s'.
Proof. intros H1 H2 id. unfold owed, quic_unread. by rewrite H1, H2. Qed.

Lemma quic_unread_put id st s i :
  quic_unread (put_stream id st s) i = if decide (id = i) then st_unread st else quic_unread s i.
Proof. unfold quic_unread. simpl. rewrite lookup_insert. by case_decide. Qed.

(** A record changes in other respects. *)
Lemma owed_put id st s s' :
  q_events s' = q_events s -> q_streams s' = <[id := st]> (q_streams s) -> st_unread st = quic_unread s id ->
  same_owed s s'.
Proof.
  intros He Hs Hu i. unfold owed. rewrite He. f_equal. unfold quic_unread in *. rewrite Hs, lookup_insert.
  case_decide; [subst|done]. simpl. by rewrite Hu.
Qed.

Lemma owed_erase id s s' :
  q_events s' = q_events s -> q_streams s' = delete id (q_streams s) -> quic_unread s id = 0 -> same_owed s s'.
Proof.
  intros He Hs Hu i. unfold owed. rewrite He. f_equal. unfold quic_unread in *. rewrite Hs, lookup_delete.
  case_decide; [subst|done]. simpl. by rewrite Hu.
Qed.

Lemma push_owed e s : qe_kind e <> QKind.data -> same_owed s (push_event e s).2.
Proof.
  intros Hk id. unfold push_event. case_match; [done|]. unfold owed, quic_unread. simpl. rewrite queued_app. simpl.
  rewrite bool_decide_false by done. simpl. lia.
Qed.

Lemma credit_owed id s : same_owed s (return_stream_credit id s).
Proof. apply owed_same; unfold return_stream_credit; by case_match. Qed.

Lemma handle_owed c s : same_owed s (handle_quic c s).2.
Proof.
  destruct c as [fin id data|id offset size|id code|id code|limit]; simpl.
  - intros i. unfold on_stream_data. case_match; [done|]. simpl. unfold owed. simpl. rewrite queued_app.
    unfold quic_unread. simpl. rewrite lookup_insert. destruct (decide (id = i)) as [->|Hne].
    + rewrite Z.eqb_refl. destruct (q_streams s !! i); simpl; lia.
    + rewrite (proj2 (Z.eqb_neq _ _) Hne). simpl. lia.
  - unfold on_acked. etrans; [|by apply push_owed]. destruct (q_streams s !! id) as [st|] eqn:Hid; [|done].
    destruct (release_acked _ _ _) as [q b]. eapply (owed_put id); [done|done|]. unfold quic_unread. by rewrite Hid.
  - unfold on_stream_close. destruct (q_streams s !! id) as [st|] eqn:Hid; simpl.
    2: { etrans; [apply credit_owed|by apply push_owed]. }
    assert (quic_unread s id = st_unread st) as Hu by (unfold quic_unread; by rewrite Hid).
    destruct (st_unread st =? 0) eqn:E; bool_facts.
    + etrans; [|by apply push_owed]. etrans; [|apply credit_owed]. eapply (owed_erase id); [done|done|lia].
    + etrans; [|by apply push_owed]. by eapply (owed_put id).
  - by apply push_owed.
  - by apply owed_same.
Qed.

Lemma serve_owed {R} (r : Run T R) s : same_owed s (serve r s).2.
Proof.
  revert s; induction r as [x t|c t k IH]; intros s; simpl; [by apply owed_same|].
  pose proof (handle_owed c (set_conn t s)) as Hh. destruct (handle_quic c (set_conn t s)) as [rc s'].
  etrans; [|apply IH]. etrans; [|exact Hh]. by apply owed_same.
Qed.

(** Every operation but taking events and consuming leaves the books alone. *)
Abbreviation leaves := (moves same_owed).

Lemma check_time_leaves now : leaves (check_time (T := T) now).
Proof. intros s. unfold check_time. destruct (_ || _ || _); [done|]. by apply owed_same. Qed.

Lemma quic_receive_leaves packet now : leaves (quic_receive packet now).
Proof.
  apply moves_bind; [typeclasses eauto|apply check_time_leaves|]. intros _ s.
  pose proof (serve_owed (tcp_read_pkt packet now (q_conn s)) s) as Hv. destruct (serve _ s) as [rv s']. simpl in Hv.
  destruct (_ =? _); [|destruct (negb _)]; by (simpl; etrans; [exact Hv|apply owed_same]).
Qed.

Lemma quic_handle_expiry_leaves now : leaves (quic_handle_expiry now).
Proof.
  apply moves_bind; [typeclasses eauto|apply check_time_leaves|]. intros _ s.
  pose proof (serve_owed (tcp_handle_expiry now (q_conn s)) s) as Hv. destruct (serve _ s) as [rv s']. simpl in Hv.
  destruct (negb _); by (simpl; etrans; [exact Hv|apply owed_same]).
Qed.

Lemma poll_chunk_leaves now id i c : leaves (poll_chunk now id i c).
Proof.
  intros s. unfold poll_chunk.
  match goal with |- context [serve ?r s] => pose proof (serve_owed r s) as Hv end.
  destruct (serve _ s) as [w s']. simpl in Hv. destruct (_ || _ || _); [done|].
  destruct (w_n w <? 0); [by (simpl; etrans; [exact Hv|apply owed_same])|].
  set (s2 := match q_streams s' !! id with Some _ => _ | None => _ end).
  assert (same_owed s' s2) as H2.
  { unfold s2. destruct (q_streams s' !! id) as [st|] eqn:Hid; [|done]. eapply (owed_put id); [done|done|].
    unfold quic_unread. by rewrite Hid. }
  destruct (0 <? w_n w); simpl; (etrans; [exact Hv|]); (etrans; [exact H2|]); by apply owed_same.
Qed.

Lemma poll_chunks_leaves now id i q : leaves (poll_chunks now id i q).
Proof.
  revert i; induction q as [|c q IH]; intros i; simpl; [apply moves_ret; typeclasses eauto|].
  destruct (c_submitted c); [apply IH|apply poll_chunk_leaves].
Qed.

Lemma poll_streams_leaves now uni ids : leaves (poll_streams now uni ids).
Proof.
  induction ids as [|id ids IH]; intros s; simpl; [done|]. destruct (q_streams s !! id) as [st|]; [|apply IH].
  destruct (_ || _); [apply IH|]. pose proof (poll_chunks_leaves now id 0 (st_chunks st) s) as Hp.
  destruct (poll_chunks now id 0 (st_chunks st) s) as [[p|] s'|e s'|]; try done.
  specialize (IH s'). destruct (poll_streams now uni ids s') as [o s2|e s2|]; [| |done]; by etrans.
Qed.

Lemma quic_poll_leaves now : leaves (quic_poll now).
Proof.
  apply moves_bind; [typeclasses eauto|apply check_time_leaves|]. intros _.
  apply moves_bind; [typeclasses eauto|intros s; apply poll_streams_leaves|]. intros [p|]; [by intros s|].
  apply moves_bind; [typeclasses eauto|intros s; apply poll_streams_leaves|]. intros [p|]; [by intros s|].
  intros s. unfold poll_rest. pose proof (serve_owed (tcp_write_pkt now (q_conn s)) s) as Hv.
  destruct (serve _ s) as [w s']. simpl in Hv. destruct (w_n w <? 0); [by (simpl; etrans; [exact Hv|apply owed_same])|].
  destruct (w_n w =? 0); [done|]. by (simpl; etrans; [exact Hv|apply owed_same]).
Qed.

Lemma quic_open_stream_leaves uni : leaves (quic_open_stream uni).
Proof.
  intros s. unfold quic_open_stream. destruct (_ || _ || _); [done|]. destruct (negb _); [done|].
  destruct (tcp_open_stream uni (q_conn s)) as [[rv id] t]. destruct (negb _); [by apply owed_same|]. simpl.
  destruct (q_streams s !! id) eqn:Hid; [by apply owed_same|]. eapply (owed_put id); [done|done|].
  unfold quic_unread. by rewrite Hid.
Qed.

Lemma quic_write_leaves id data fin : leaves (quic_write id data fin).
Proof.
  intros s. unfold quic_write. destruct (q_streams s !! id) as [st|] eqn:Hid; [|done].
  destruct (_ || _ || _ || _); [done|]. destruct (_ || _); [done|]. destruct (_ && _); [done|].
  eapply (owed_put id); [done|done|]. unfold quic_unread. by rewrite Hid.
Qed.

Lemma quic_cancel_leaves id code : leaves (quic_cancel id code).
Proof.
  intros s. unfold quic_cancel. destruct (_ || _); [done|]. destruct (_ || _); [done|].
  destruct (tcp_shutdown_stream id code (q_conn s)) as [rv t]. destruct (negb _); [by apply owed_same|]. simpl.
  destruct (q_streams s !! id) as [st|] eqn:Hid; [|by apply owed_same]. eapply (owed_put id); [done|done|].
  unfold quic_unread. by rewrite Hid.
Qed.

Lemma quic_close_leaves code now : leaves (quic_close code now).
Proof.
  intros s. unfold quic_close. destruct (_ <=? _); [done|]. destruct (_ || _); [done|].
  destruct (tcp_write_connection_close _ _ _) as [w t]. destruct (w_n w <? 0); by apply owed_same.
Qed.

(** Consuming nothing changes nothing. *)
Lemma quic_consume_zero id s :
  quic_inv false s -> match quic_consume id 0 s with Returns _ s' | Fails _ s' => same_owed s s' | OutOfFuel => True end.
Proof.
  intros Hs. unfold quic_consume. destruct (q_streams s !! id) as [st|] eqn:Hid; [|done].
  destruct (_ <? _); [done|]. destruct (tcp_extend_max_stream_offset id 0 (q_conn s)) as [rv t].
  destruct (_ && _); [by apply owed_same|].
  pose proof (inv_bounds false s id st Hs Hid) as [Hu _]. pose proof (qi_received_max _ _ Hs).
  pose proof (qi_bytes_range _ _ Hs). pose proof (qi_unread _ _ Hs id st Hid).
  assert (quic_unread s id = st_unread st) as Hun by (unfold quic_unread; by rewrite Hid).
  simpl. rewrite (wrap64_exact (st_unread st - 0)), Z.sub_0_r by lia.
  destruct (st_closed st && _) eqn:E; [|by eapply (owed_put id)].
  apply andb_true_iff in E as [Ec E]. bool_facts. pose proof (qi_closed _ _ Hs id st Hid Ec). lia.
Qed.

(** Consuming what is on the books always works. *)
Lemma quic_consume_owed id n s `{!Ngtcp2Window T} :
  quic_inv false s -> 0 < n -> n <= quic_unread s id ->
  exists s', quic_consume id n s = Returns tt s' /\
    forall i, owed s' i = owed s i - (if decide (id = i) then n else 0).
Proof.
  intros Hs Hn Hle. unfold quic_unread in Hle. destruct (q_streams s !! id) as [st|] eqn:Hid; simpl in Hle; [|lia].
  unfold quic_consume. rewrite Hid, (proj2 (Z.ltb_ge _ _)) by done.
  pose proof (window_law id n (q_conn s) Hn) as Hw. destruct (tcp_extend_max_stream_offset id n (q_conn s)) as [rv t].
  simpl in Hw. assert (negb (rv =? 0) && negb (rv =? NGTCP2_ERR_STREAM_NOT_FOUND) = false) as ->.
  { destruct Hw as [-> | ->]; [done|]. by rewrite Z.eqb_refl, andb_false_r. }
  eexists. split; [done|]. pose proof (inv_bounds false s id st Hs Hid) as [Hu _].
  pose proof (qi_received_max _ _ Hs). pose proof (qi_bytes_range _ _ Hs). intros i. simpl.
  rewrite (wrap64_exact (st_unread st - n)) by lia.
  assert (quic_unread s id = st_unread st) as Hun by (unfold quic_unread; by rewrite Hid).
  assert (forall s', q_events s' = q_events s -> (forall j, quic_unread s' j = if decide (id = j) then st_unread st - n else quic_unread s j) ->
    owed s' i = owed s i - (if decide (id = i) then n else 0)) as Hgo.
  { intros s' He Hq. unfold owed. rewrite He, Hq. case_decide; [subst i; lia|lia]. }
  destruct (st_closed st && _) eqn:E.
  - apply andb_true_iff in E as [_ E]. bool_facts.
    apply Hgo; [simpl; unfold return_stream_credit; by destruct (tcp_is_local_stream _ _)|]. intros j. unfold quic_unread, return_stream_credit.
    destruct (tcp_is_local_stream _ _); simpl; rewrite lookup_delete, lookup_insert; destruct (decide (id = j));
      simpl; done || lia.
  - apply Hgo; [done|]. intros j. unfold quic_unread. simpl. rewrite lookup_insert. by destruct (decide (id = j)).
Qed.
End Quic.

(** ** The two together *)

Section Flow.
Context {T N : Type} `{HT : Ngtcp2 T} `{!Ngtcp2Writes T} `{!Ngtcp2Window T} `{HN : Nghttp3 N} `{!Nghttp3Laws N}.
Implicit Type s : HImpl T N.

Definition h3_unread s (id : Z) : Z := default 0 (hs_unread <$> h_streams s !! id).

(** [v] is what the library holds, [es] the events taken and not processed. *)
Record flow (v : gmap Z Z) (es : list QEvent) s : Prop := mk_flow {
  fl_quic : quic_inv false (h_transport s);
  fl_h3 : h3_inv s;
  fl_held : forall id, 0 <= holds v id;
  fl_books : forall id, h3_unread s id + holds v id + queued es id <= owed (h_transport s) id;
}.

Lemma h3_unread_nonneg s id : h3_inv s -> 0 <= h3_unread s id.
Proof.
  intros Hs. unfold h3_unread. destruct (h_streams s !! id) as [st|] eqn:Hid; simpl; [|done].
  by apply (ho_unread _ _ (hi_stream s Hs id st Hid)).
Qed.

Lemma flow_lighter v v' es s : flow v es s -> lighter v v' -> flow v' es s.
Proof.
  intros [] Hl. split; try done; intros id; specialize (fl_books0 id); destruct (Hl id); [auto|lia].
Qed.

(** Nothing that counts has changed. *)
Lemma flow_same v es s s' :
  flow v es s -> h3_inv s' -> h_transport s' = h_transport s -> (forall id, h3_unread s' id = h3_unread s id) ->
  flow v es s'.
Proof. intros [] Hi Ht Hu. split; [by rewrite Ht|done|done|]. intros id. rewrite Ht, Hu. apply fl_books0. Qed.

Lemma flow_tables v es s s' : flow v es s -> same_tables s s' -> h_transport s' = h_transport s -> flow v es s'.
Proof.
  intros Hf Hs Ht. apply (flow_same v es s); [done|apply (h3_inv_same s); [apply Hf|done]|done|].
  destruct Hs as (_ & Hs & _). intros id. unfold h3_unread. by rewrite Hs.
Qed.

(** An operation of the QUIC engine that leaves its books alone. *)
Lemma flow_transport_at {A} (m : Q T A) v es s :
  flow v es s -> match m (h_transport s) with Returns _ q | Fails _ q => same_owed (h_transport s) q | OutOfFuel => True end ->
  maintains (quic_inv false) m -> flow v es (on_transport m s).2.
Proof.
  intros [] Hm Hk. specialize (Hk _ fl_quic0). unfold wp in Hk.
  pose proof (on_transport_inv m s fl_h4) as Hi. unfold on_transport in *.
  destruct (m (h_transport s)) as [a q|e q|]; [| |done];
    (split; [done|done|done|]); intros id; simpl; rewrite (Hm id); apply fl_books0.
Qed.

Lemma flow_transport {A} (m : Q T A) v es s :
  flow v es s -> moves same_owed m -> maintains (quic_inv false) m -> flow v es (on_transport m s).2.
Proof. intros Hf Hm. apply flow_transport_at; [done|apply Hm]. Qed.

(** ** Callbacks *)

Lemma push_flow v es e s : flow v es s -> he_fields e = [] -> flow v es (h_push e s).2.
Proof.
  intros Hf He. apply (flow_same v es s); [done|by apply h3_push_plain; [apply Hf|]| |];
    unfold h_push; by case_match.
Qed.

Lemma h3_unread_put id st s i :
  h3_unread (put_h id st s) i = if decide (id = i) then hs_unread st else h3_unread s i.
Proof. unfold h3_unread. simpl. rewrite lookup_insert. by case_decide. Qed.

(** Body moves from the library's books to the record of the stream. *)
Lemma data_flow v es id data s :
  flow v es s -> hcallback_ok (hcb_data id data) v = true -> h3_inv (on_h3_data id data s).2 ->
  flow (hold_more id (- len data) v) es (on_h3_data id data s).2.
Proof.
  simpl. intros Hf Hc Hi'. unfold on_h3_data in *. bool_facts.
  assert (flow (hold_more id (- len data) v) es s) as Hl.
  { apply (flow_lighter v); [done|]. intros i. rewrite holds_more. pose proof (len_nonneg data).
    destruct (decide (id = i)); subst; lia. }
  destruct (_ <? _); [done|]. destruct (h_streams s !! id) as [st|] eqn:Hid; [|done].
  set (s1 := set_h_input _ _) in *. set (e := mk_hevent HKind.body id [] data 0) in *.
  assert (forall i, h3_unread (h_push e s1).2 i = if decide (id = i) then h3_unread s i + len data else h3_unread s i) as Hu.
  { intros i. transitivity (h3_unread s1 i); [unfold h_push; by case_match|].
    transitivity (h3_unread (put_h id (set_h_unread (hs_unread st + len data) st) s) i); [done|].
    rewrite h3_unread_put. destruct (decide (id = i)) as [<-|]; [|done]. unfold h3_unread. by rewrite Hid. }
  assert (h_transport (h_push e s1).2 = h_transport s) as Ht by (unfold h_push; by case_match).
  split; [by rewrite Ht; apply (fl_quic _ _ _ Hf)|done|apply Hl|].
  intros i. pose proof (fl_books v es s Hf i). rewrite Hu, Ht, holds_more. destruct (decide (id = i)); subst; lia.
Qed.

(** What the library used up later is consumed: the books of both shrink. *)
Lemma deferred_flow v es id size s :
  flow v es s -> hcallback_ok (hcb_deferred id size) v = true -> h3_inv (on_h3_deferred id (Z.of_nat size) s).2 ->
  flow (hold_more id (- Z.of_nat size) v) es (on_h3_deferred id (Z.of_nat size) s).2.
Proof.
  simpl. intros Hf Hc Hi'. apply andb_true_iff in Hc as [Hc1 Hc2]. apply Nat.ltb_lt in Hc1. apply Z.leb_le in Hc2.
  unfold on_h3_deferred, on_transport in *. pose proof (fl_books v es s Hf id) as Hb.
  pose proof (h3_unread_nonneg s id (fl_h3 _ _ _ Hf)). pose proof (queued_nonneg es id).
  pose proof (queued_nonneg (q_events (h_transport s)) id). unfold owed in Hb.
  destruct (quic_consume_owed id (Z.of_nat size) (h_transport s) (fl_quic _ _ _ Hf)) as (q & Hq & Ho); [lia|lia|].
  pose proof (quic_consume_inv false id (Z.of_nat size) ltac:(lia) _ (fl_quic _ _ _ Hf)) as Hk. unfold wp in Hk.
  rewrite Hq in *. simpl in *. split; [done|done| |]; intros i; simpl; rewrite ?Ho, holds_more;
    [pose proof (fl_held _ _ _ Hf i); destruct (decide (id = i)); subst; lia|].
  pose proof (fl_books v es s Hf i). change (h3_unread (set_h_transport q s) i) with (h3_unread s i).
  destruct (decide (id = i)); subst; lia.
Qed.

Lemma handle_h3_flow v es c s :
  flow v es s -> hcallback_ok c v = true -> flow (held_after c v) es (handle_h3 c s).2.
Proof.
  intros Hf Hc. pose proof (fl_h3 v es s Hf) as Hi. pose proof (handle_h3_inv c s Hi) as Hi'.
  destruct c as [id|id name value|id|id data|id size|id|id code|id|id n|id|id count]; simpl in *.
  - apply (flow_same v es s); [done|done| |]; unfold on_h3_begin; destruct (_ && _); try done. simpl.
    intros i. rewrite h3_unread_put. destruct (decide (id = i)) as [->|]; [|done]. unfold h3_unread.
    by destruct (h_streams s !! i).
  - apply (flow_same v es s); [done|done| |]; unfold on_h3_header; destruct (h_streams s !! id) as [st|] eqn:Hid;
      try done; destruct (_ || _ || _); try done. simpl. intros i. rewrite h3_unread_put.
    destruct (decide (id = i)) as [<-|]; [|done]. unfold h3_unread. simpl. by rewrite Hid.
  - apply (flow_same v es s); [done|done| |]; unfold on_h3_end_headers; destruct (h_streams s !! id) as [st|] eqn:Hid;
      try done; unfold h_push; case_match; try done; simpl; intros i;
      (transitivity (h3_unread (put_h id (set_fields (hs_field_bytes st) [] st) s) i); [done|]);
      rewrite h3_unread_put; (destruct (decide (id = i)) as [<-|]; [|done]); unfold h3_unread; simpl; by rewrite Hid.
  - by apply data_flow.
  - by apply deferred_flow.
  - by apply push_flow.
  - unfold on_h3_reset in *. pose proof (flow_transport (quic_cancel id code) v es s Hf
      (quic_cancel_leaves id code) (quic_cancel_inv false id code)) as Ht.
    destruct (on_transport _ s) as [[x|e] s']; [by apply push_flow|done].
  - apply push_flow; [|done]. by apply (flow_tables v es s).
  - apply (flow_same v es s); [done|done| |]; destruct (h_streams s !! id) as [st|] eqn:Hid; try done;
      destruct (_ =? _); try done; intros i.
    + transitivity (h3_unread (put_h id (set_output [] (set_acked (hs_acked st + Z.of_nat n) st)) s) i); [done|].
      rewrite h3_unread_put. destruct (decide (id = i)) as [<-|]; [|done]. unfold h3_unread. by rewrite Hid.
    + rewrite h3_unread_put. destruct (decide (id = i)) as [<-|]; [|done]. unfold h3_unread. by rewrite Hid.
  - apply (flow_same v es s); [done|done| |]; destruct (h_streams s !! id) as [st|] eqn:Hid; try done;
      destruct (hs_unread st =? 0) eqn:E; try done; intros i; unfold h3_unread; simpl; bool_facts.
    + rewrite lookup_delete. destruct (decide (id = i)) as [<-|]; [|done]. rewrite Hid. simpl. lia.
    + rewrite lookup_insert. destruct (decide (id = i)) as [<-|]; [|done]. by rewrite Hid.
  - done.
Qed.

Lemma handle_h3_conn c s : h_conn (handle_h3 c s).2 = h_conn s.
Proof.
  assert (forall e s', h_conn (h_push e s').2 = h_conn s') as Hp by (intros; unfold h_push; by case_match).
  assert (forall A (m : Q T A) s', h_conn (on_transport m s').2 = h_conn s') as Ht
    by (intros; unfold on_transport; by destruct (m _)).
  destruct c as [id|id name value|id|id data|id size|id|id code|id|id n|id|id count]; simpl; unfold on_h3_end, on_h3_shutdown;
    try by rewrite Hp.
  - unfold on_h3_begin. by case_match.
  - unfold on_h3_header. repeat case_match; done.
  - unfold on_h3_end_headers. case_match; [by rewrite Hp|done].
  - unfold on_h3_data. repeat (case_match; try done). by rewrite Hp.
  - unfold on_h3_deferred. pose proof (Ht _ (quic_consume id (Z.of_nat size)) s) as Hc. by destruct (on_transport _ s) as [[]].
  - unfold on_h3_reset. pose proof (Ht _ (quic_cancel id code) s) as Hc.
    destruct (on_transport _ s) as [[] ?]; [by rewrite Hp|done].
  - repeat (case_match; try done).
  - repeat (case_match; try done).
  - done.
Qed.

(** A run of the library. *)
Lemma serve_h3_flow {R} post (r : HRun N R) v es s :
  flow v es s -> lawful_h3 h3_view post v r ->
  let '(x, s') := serve_h3 r s in exists v', flow v' es s' /\ post v' x (h3_view (h_conn s')).
Proof.
  revert v s; induction r as [x n|c n k IH]; intros v s Hf; simpl.
  - intros Hp. exists v. split; [by apply (flow_tables v es s)|done].
  - intros (Hc & Hv & Hk). pose proof (flow_tables v es s (set_h_conn n s) Hf ltac:(done) eq_refl) as Hf1.
    pose proof (handle_h3_flow v es c _ Hf1 Hc) as Hf2. pose proof (handle_h3_conn c (set_h_conn n s)) as Hn.
    destruct (handle_h3 c (set_h_conn n s)) as [a s']. simpl in *. rewrite <- Hv, <- Hn in Hf2.
    apply (IH a (h_conn s') _ s' Hf2), Hk.
Qed.

(** ** Operations *)

Abbreviation vw s := (h3_view (h_conn s)).

(** The engine has failed, or the books agree. *)
Definition settled (es : list QEvent) s : Prop := h_failed s = true \/ flow (vw s) es s.

(** Where [m] returns the books agree; where it fails, the engine has or they do. *)
Definition balances {A} (es es' : list QEvent) (m : H3 T N A) : Prop :=
  forall s, flow (vw s) es s -> wp m s (fun _ s' => flow (vw s') es' s') (fun _ => settled es').

Lemma balances_bind {A B} es1 es2 es3 (m : H3 T N A) (k : A -> H3 T N B) :
  balances es1 es2 m -> (forall a, balances es2 es3 (k a)) -> (forall s, settled es2 s -> settled es3 s) ->
  balances es1 es3 (out_bind m k).
Proof.
  intros Hm Hk Hs s Hf. apply wp_bind. eapply wp_mono; [by apply Hm| |].
  - intros a s' Hf'. by apply Hk.
  - intros e s' Hs'. by apply Hs.
Qed.

Lemma balances_seq {A B} es (m : H3 T N A) (k : A -> H3 T N B) :
  balances es es m -> (forall a, balances es es (k a)) -> balances es es (out_bind m k).
Proof. intros Hm Hk. by apply (balances_bind es es es). Qed.

Lemma settled_failed es s : settled es (set_h_failed s).
Proof. by left. Qed.

Lemma h_check_balances es rv : balances es es (h_check rv).
Proof. intros s Hf. unfold wp, h_check. destruct (rv <? 0); [apply settled_failed|done]. Qed.

Lemma flow_conn es s n : flow (vw s) es s -> lighter (vw s) (h3_view n) -> flow (h3_view n) es (set_h_conn n s).
Proof. intros Hf Hl. apply (flow_tables _ _ s); [by apply (flow_lighter (vw s))|done|done]. Qed.

Lemma h_call_balances es f : (forall n, lighter (h3_view n) (h3_view (f n).2)) -> balances es es (h_call f).
Proof.
  intros Hl s Hf. unfold wp, h_call. specialize (Hl (h_conn s)). destruct (f (h_conn s)) as [rv n].
  apply h_check_balances. by apply flow_conn.
Qed.

Lemma transport_conn {A} (m : Q T A) s : h_conn (on_transport m s).2 = h_conn s.
Proof. unfold on_transport. by destruct (m _). Qed.

Lemma h_try_balances {A} es (m : Q T A) :
  moves same_owed m -> maintains (quic_inv false) m -> balances es es (h_try m).
Proof.
  intros Hm Hk s Hf. pose proof (flow_transport m _ es s Hf Hm Hk) as Ht. pose proof (transport_conn m s) as Hc.
  unfold wp, h_try. destruct (on_transport m s) as [[x|e] s']; simpl in *; rewrite <- Hc in Ht; [done|by right].
Qed.

Lemma h_must_balances {A} es (m : Q T A) :
  moves same_owed m -> maintains (quic_inv false) m -> balances es es (h_must m).
Proof.
  intros Hm Hk s Hf. pose proof (flow_transport m _ es s Hf Hm Hk) as Ht. pose proof (transport_conn m s) as Hc.
  unfold wp, h_must. destruct (on_transport m s) as [[x|e] s']; simpl in *; rewrite <- Hc in Ht; [done|by left].
Qed.

Lemma h_initialize_balances es : balances es es h_initialize.
Proof.
  intros s Hf. unfold wp, h_initialize. destruct (_ || _); [done|]. destruct (negb _); [apply settled_failed|].
  match goal with |- match ?m s with _ => _ end => cut (balances es es m); [by intros Hb; apply (Hb s)|] end.
  do 3 (apply balances_seq; [apply h_try_balances; [apply quic_open_stream_leaves|apply quic_open_stream_inv]|intros ?]).
  apply balances_seq; [apply h_call_balances, bind_control_law|]. intros _.
  apply balances_seq; [apply h_call_balances, bind_qpack_law|]. intros _ s1 Hf1. by apply (flow_tables _ _ s1).
Qed.

(** A piece of stream data: what the library used up is consumed at once. *)
Lemma process_data_balances now e es :
  qe_kind e = QKind.data -> balances (e :: es) es (process_event now e).
Proof.
  intros He s Hf. unfold wp, process_event. rewrite He. set (id := qe_stream e).
  assert (flow (hold_more id (len (qe_data e)) (vw s)) es s) as Hf1.
  { destruct Hf. split; try done.
    { intros i. rewrite holds_more. pose proof (fl_held0 id). pose proof (fl_held0 i). pose proof (len_nonneg (qe_data e)).
      destruct (decide (id = i)); lia. }
    intros i. specialize (fl_books0 i). simpl in fl_books0.
    rewrite bool_decide_true in fl_books0 by done. rewrite holds_more. fold id in fl_books0.
    destruct (decide (id = i)) as [->|Hne]; [rewrite Z.eqb_refl in fl_books0; simpl in fl_books0; lia|].
    rewrite (proj2 (Z.eqb_neq _ _) Hne) in fl_books0. simpl in fl_books0. lia. }
  pose proof (serve_h3_flow _ _ _ es s Hf1 (read_stream_law id (qe_data e) (qe_fin e) now (h_conn s))) as Hv.
  destruct (serve_h3 _ s) as [n s1]. destruct Hv as (v & Hfv & Hpost).
  destruct (n <? 0) eqn:En; bool_facts.
  { unfold h_check. rewrite (proj2 (Z.ltb_lt _ _) En). apply settled_failed. }
  destruct (Hpost En) as [Hle Hlight]. destruct (0 <? n) eqn:Ep; bool_facts.
  2: { assert (n = 0) as -> by lia. apply h_check_balances. apply (flow_lighter (hold_more id (- 0) v)); [|done].
       apply (flow_lighter v); [done|]. intros i. rewrite holds_more. destruct (decide (id = i)); subst; lia. }
  pose proof (fl_books v es s1 Hfv id) as Hb. pose proof (h3_unread_nonneg s1 id (fl_h3 _ _ _ Hfv)).
  pose proof (queued_nonneg es id). pose proof (queued_nonneg (q_events (h_transport s1)) id). unfold owed in Hb.
  destruct (quic_consume_owed id n (h_transport s1) (fl_quic _ _ _ Hfv)) as (q & Hq & Ho); [lia|lia|].
  pose proof (quic_consume_inv false id n ltac:(lia) _ (fl_quic _ _ _ Hfv)) as Hk. unfold wp in Hk. rewrite Hq in Hk.
  unfold h_must, on_transport. rewrite Hq. simpl. apply (flow_lighter (hold_more id (- n) v)); [|done].
  split; [done|apply (h3_inv_same s1); [apply Hfv|done]| |]; intros i; simpl; rewrite ?Ho, holds_more;
    [pose proof (fl_held _ _ _ Hfv i); destruct (decide (id = i)); subst; lia|].
  pose proof (fl_books v es s1 Hfv i). change (h3_unread (set_h_transport q s1) i) with (h3_unread s1 i).
  destruct (decide (id = i)); subst; lia.
Qed.

Lemma flow_skip v e es s : flow v (e :: es) s -> flow v es s.
Proof.
  intros []. split; try done. intros id. specialize (fl_books0 id). simpl in fl_books0.
  pose proof (len_nonneg (qe_data e)). destruct (_ && _); lia.
Qed.

Lemma process_event_balances now e es : balances (e :: es) es (process_event now e).
Proof.
  destruct (qe_kind e) eqn:He; [by apply process_data_balances|..]; intros s Hf%flow_skip; unfold wp, process_event; rewrite He.
  - pose proof (serve_h3_flow _ _ _ es s Hf (add_ack_law (qe_stream e) (qe_value e) (h_conn s))) as Hv.
    destruct (serve_h3 _ s) as [rv s1]. destruct Hv as (v & Hfv & Hl). apply h_check_balances.
    by apply (flow_lighter v).
  - pose proof (serve_h3_flow _ _ _ es s Hf (shutdown_read_law (qe_stream e) (h_conn s))) as Hv.
    destruct (serve_h3 _ s) as [rv s1]. destruct Hv as (v & Hfv & Hl).
    pose proof (push_flow _ es (mk_hevent HKind.reset (qe_stream e) [] [] (qe_value e)) s1
      (flow_lighter _ _ _ _ Hfv Hl) eq_refl) as Hp.
    assert (forall x, h_conn (h_push x s1).2 = h_conn s1) as Hc by (intros; unfold h_push; by case_match).
    rewrite <- (Hc (mk_hevent HKind.reset (qe_stream e) [] [] (qe_value e))) in Hp.
    destruct (h_push _ s1) as [pushed s2]. by apply h_check_balances.
  - pose proof (serve_h3_flow _ _ _ es s Hf (close_stream_law (qe_stream e)
      (if qe_value e =? 0 then NGHTTP3_H3_NO_ERROR else qe_value e) (h_conn s))) as Hv.
    destruct (serve_h3 _ s) as [rv s1]. destruct Hv as (v & Hfv & Hl). apply h_check_balances.
    by apply (flow_lighter v).
Qed.

Lemma settled_less e es s : settled (e :: es) s -> settled es s.
Proof. intros [?|Hf]; [by left|right]. by eapply flow_skip. Qed.

Lemma settled_none es s : settled es s -> settled [] s.
Proof. induction es as [|e es IH]; [done|]. intros ?%settled_less. by apply IH. Qed.

Lemma process_events_balances now es : balances es [] (process_events now es).
Proof.
  induction es as [|e es IH]; simpl; [by intros s Hf|].
  apply (balances_bind (e :: es) es []); [apply process_event_balances|done|apply settled_none].
Qed.

Lemma h_process_balances now : balances [] [] (h_process now).
Proof.
  intros s Hf. unfold wp, h_process. destruct (_ || _); [by right|].
  pose proof (flow_tables _ _ s (set_h_clock now s) Hf ltac:(done) eq_refl) as Hc.
  match goal with |- match ?m ?s1 with _ => _ end => cut (balances [] [] m); [by intros Hb; apply (Hb s1)|] end.
  apply balances_seq; [apply h_initialize_balances|]. intros _ s1 Hf1. unfold wp. destruct (negb _); [done|].
  set (s2 := if h_server s1 then _ else _).
  assert (flow (vw s2) [] s2) as Hf2.
  { unfold s2. destruct (h_server s1); [|done]. apply flow_conn; [done|]. apply set_max_law. }
  apply process_events_balances. destruct Hf2. split; simpl.
  - by apply inv_no_events.
  - by apply (h3_inv_same s2).
  - done.
  - intros id. specialize (fl_books0 id). unfold owed, quic_unread in *. simpl in *. unfold h3_unread in *. simpl.
    lia.
Qed.

Lemma quic_write_keeps id data fin : maintains (quic_inv false) (quic_write (T := T) id data fin).
Proof. intros q Hq. by apply quic_write_inv. Qed.

Lemma h3_poll_rounds_balances k : balances [] [] (h3_poll_rounds k).
Proof.
  induction k as [|k IH]; simpl; [by intros s Hf|]. apply balances_seq; [|intros [x|]; [by intros s Hf|done]].
  intros s Hf. unfold wp, h3_poll_round. destruct (_ =? 0); [done|].
  pose proof (serve_h3_flow _ _ _ [] s Hf (h3_writev_law (h_conn s))) as Hv.
  destruct (serve_h3 _ s) as [w s1]. destruct Hv as (v & Hfv & Hl).
  assert (flow (vw s1) [] s1) as Hf1 by (by apply (flow_lighter v)).
  destruct (hw_n w <? 0); [apply settled_failed|]. destruct (hw_id w =? -1); [done|].
  destruct (gather _ _) as [out available].
  match goal with |- context [on_transport ?m s1] =>
    pose proof (flow_transport m _ [] s1 Hf1 (quic_write_leaves _ _ _) (quic_write_keeps _ _ _)) as Ht;
    pose proof (transport_conn m s1) as Hc end.
  destruct (on_transport _ s1) as [[x|e] s2]; simpl in *; rewrite <- Hc in Ht.
  - pose proof (h_call_balances [] _ (add_write_offset_law (hw_id w) (len out)) s2 Ht) as Hb. unfold wp, out_bind in *.
    by destruct (h_call _ s2).
  - destruct (ec_value e =? quic_budget); [done|apply settled_failed].
Qed.

Lemma h3_poll_balances now : balances [] [] (h3_poll now).
Proof.
  apply balances_seq; [apply h_process_balances|]. intros _.
  apply balances_seq; [|intros _; apply h_must_balances; [apply quic_poll_leaves|apply quic_poll_inv]].
  intros s Hf. unfold wp. destruct (h_initialized s); [|done]. by apply h3_poll_rounds_balances.
Qed.

Lemma h3_receive_balances packet now : balances [] [] (h3_receive packet now).
Proof.
  intros s Hf. unfold wp, h3_receive. destruct (h_failed s); [by right|].
  refine (balances_seq [] _ _ (h_must_balances [] _ (quic_receive_leaves _ _) (quic_receive_inv false _ _)) _ s Hf).
  intros _. apply h_process_balances.
Qed.

Lemma h3_handle_expiry_balances now : balances [] [] (h3_handle_expiry now).
Proof.
  intros s Hf. unfold wp, h3_handle_expiry. destruct (h_failed s); [by right|].
  refine (balances_seq [] _ _ (h_must_balances [] _ (quic_handle_expiry_leaves _) (quic_handle_expiry_inv false _)) _ s Hf).
  intros _. apply h_process_balances.
Qed.

(** Storing a record with the same unread body. *)
Lemma flow_put es s s' id st :
  flow (vw s) es s -> h3_inv s' -> h_transport s' = h_transport s -> h_conn s' = h_conn s ->
  h_streams s' = <[id := st]> (h_streams s) -> hs_unread st = h3_unread s id -> flow (vw s') es s'.
Proof.
  intros Hf Hi Ht Hc Hs Hu. rewrite Hc. apply (flow_same _ _ s); [done|done|done|]. intros i.
  unfold h3_unread in *. rewrite Hs, lookup_insert. destruct (decide (id = i)) as [<-|]; [|done]. simpl. by rewrite Hu.
Qed.

Lemma h_submit_balances id fs body s :
  flow (vw s) [] s -> valid_fields fs body s = true ->
  wp (h_submit id fs body) s (fun _ s' => flow (vw s') [] s') (fun _ => settled []).
Proof.
  intros Hf Hv. pose proof (h_submit_inv id fs body s (fl_h3 _ _ _ Hf) Hv) as Hi.
  unfold wp, h_submit in *. destruct (h_streams s !! id) as [st|] eqn:Hid; [|by right].
  set (s1 := set_h_output _ _) in *. unfold out_bind, h_call in *.
  match goal with |- context [(if ?b then ?f else ?g) (h_conn s1)] =>
    assert (lighter (vw s) (h3_view ((if b then f else g) (h_conn s1)).2)) as Hl
      by (destruct b; [apply submit_response_law|apply submit_request_law]);
    destruct ((if b then f else g) (h_conn s1)) as [rv n] end.
  unfold h_check in *. destruct (rv <? 0); [by left|]. simpl in *. rewrite lookup_insert_eq in *.
  apply (flow_lighter (vw s)); [|done]. apply (flow_same _ _ s); [done|done|done|]. intros i. unfold h3_unread. simpl.
  rewrite insert_insert_eq, lookup_insert. destruct (decide (id = i)) as [<-|]; [|done]. by rewrite Hid.
Qed.

Lemma h3_request_balances fs body : balances [] [] (h3_request fs body).
Proof.
  intros s Hf. unfold wp, h3_request. destruct (_ || _) eqn:E; [by right|].
  destruct (negb (valid_fields fs body s)) eqn:Ev; [by right|]. bool_facts.
  match goal with |- match ?m s with _ => _ end =>
    change (wp m s (fun _ s' => flow (vw s') [] s') (fun _ => settled [])) end.
  apply wp_bind. unfold h_try at 1, wp at 1. pose proof (on_transport_same (quic_open_stream false) s) as Hsm.
  pose proof (flow_transport (quic_open_stream false) _ [] s Hf (quic_open_stream_leaves _) (quic_open_stream_inv false _)) as Ht.
  pose proof (transport_conn (quic_open_stream false) s) as Hc.
  destruct (on_transport _ s) as [[id|e] s1]; simpl in *; rewrite <- Hc in Ht; [|by right].
  destruct Hsm as (Hl & Hst & He & Hi & Ho & Hh). apply wp_bind. unfold wp at 1.
  set (s2 := match h_streams s1 !! id with Some _ => s1 | None => put_h id new_hstream s1 end).
  assert (flow (vw s2) [] s2) as Hf2.
  { unfold s2. destruct (h_streams s1 !! id) eqn:Hid; [done|]. apply (flow_put [] s1 _ id new_hstream); try done.
    - apply h3_fresh; [apply Ht|done|]. rewrite Hst, Hl. lia.
    - unfold h3_unread. by rewrite Hid. }
  assert (valid_fields fs body s2 = true) as Hv2.
  { assert (h_limits s2 = h_limits s /\ h_output_bytes s2 = h_output_bytes s) as [Hl2 Ho2]
      by (unfold s2; destruct (h_streams s1 !! id); simpl; by rewrite Hl, Ho).
    unfold valid_fields in *. by rewrite Hl2, Ho2. }
  apply wp_bind. eapply wp_mono; [by apply h_submit_balances|done|done].
Qed.

Lemma h3_respond_balances id fs body : balances [] [] (h3_respond id fs body).
Proof.
  intros s Hf. unfold wp, h3_respond. destruct (h_streams s !! id) as [st|] eqn:Hid; [|by right].
  destruct (_ || _); [by right|]. destruct (negb (valid_fields fs body s)) eqn:Ev; [by right|]. bool_facts.
  by apply h_submit_balances.
Qed.

Lemma h3_take_flow s : flow (vw s) [] s -> flow (vw s) [] (h3_take_events s).2.
Proof. intros Hf. apply (flow_same _ _ s); [done|apply h3_take_inv, Hf|done|done]. Qed.

(** The application reads body: the record shrinks with QUIC's. *)
Lemma h3_consume_ok id n st s :
  flow (vw s) [] s -> h_failed s = false -> h_streams s !! id = Some st -> 0 < n -> n <= hs_unread st ->
  exists s', h3_consume id n s = Returns tt s' /\ flow (vw s') [] s'.
Proof.
  intros Hf Hnf Hid Hn Hle. pose proof (fl_h3 _ _ _ Hf) as Hi. pose proof (fl_books _ _ _ Hf id) as Hb.
  assert (h3_unread s id = hs_unread st) as Hu by (unfold h3_unread; by rewrite Hid).
  pose proof (fl_held _ _ _ Hf id). pose proof (queued_nonneg (q_events (h_transport s)) id). unfold owed in Hb. simpl in Hb.
  destruct (quic_consume_owed id n (h_transport s) (fl_quic _ _ _ Hf)) as (q & Hq & Ho); [lia|lia|].
  pose proof (quic_consume_inv false id n ltac:(lia) _ (fl_quic _ _ _ Hf)) as Hk. unfold wp in Hk. rewrite Hq in Hk.
  pose proof (h3_consume_inv id n ltac:(lia) s Hi) as Hi'. unfold wp in Hi'.
  pose proof (h3_bounds s id st Hi Hid) as (Hun & _ & _). pose proof (inv_ranges s Hi) as (_ & _ & _ & ? & _).
  pose proof (hi_input_max s Hi).
  unfold h3_consume, out_bind, h_try, on_transport in *. rewrite Hnf, Hid, (proj2 (Z.ltb_ge _ _)), Hq in * by done.
  eexists. split; [done|]. simpl in *. rewrite (wrap64_exact (hs_unread st - n)) in * by lia.
  assert (forall s', h3_inv s' -> h_transport s' = q -> h_conn s' = h_conn s ->
    (forall i, h3_unread s' i = if decide (id = i) then hs_unread st - n else h3_unread s i) -> flow (vw s') [] s') as Hgo.
  { intros s' Hi2 Ht Hc Hun'. rewrite Hc. split; [by rewrite Ht|done|apply Hf|]. intros i. rewrite Ht, Ho, Hun'.
    pose proof (fl_books _ _ _ Hf i). simpl in *. destruct (decide (id = i)); subst; lia. }
  apply Hgo; [done|by case_match|by case_match|]. intros i. unfold h3_unread. destruct (hs_closed st && _) eqn:E; simpl.
  - apply andb_true_iff in E as [_ E]. bool_facts. rewrite lookup_delete, lookup_insert.
    destruct (decide (id = i)); [simpl; lia|done].
  - rewrite lookup_insert. by destruct (decide (id = i)).
Qed.

Lemma h3_consume_balances id n : 0 <= n -> balances [] [] (h3_consume id n).
Proof.
  intros Hn s Hf. destruct (h_failed s) eqn:Hnf; [unfold wp, h3_consume; rewrite Hnf; by left|].
  destruct (h_streams s !! id) as [st|] eqn:Hid.
  2: { unfold wp, h3_consume. rewrite Hnf, Hid. destruct (n =? 0); [done|by right]. }
  destruct (decide (n <= hs_unread st)) as [Hle|Hgt].
  2: { unfold wp, h3_consume. rewrite Hnf, Hid, (proj2 (Z.ltb_lt _ _)) by lia. by right. }
  destruct (decide (n = 0)) as [->|Hnz].
  2: { destruct (h3_consume_ok id n st s) as (s' & Heq & Hf'); [done|done|done|lia|done|]. unfold wp. by rewrite Heq. }
  pose proof (h3_consume_inv id 0 ltac:(lia) s (fl_h3 _ _ _ Hf)) as Hi. unfold wp, h3_consume, out_bind, h_try in *.
  rewrite Hnf, Hid, (proj2 (Z.ltb_ge _ _)) in * by done.
  pose proof (flow_transport_at (quic_consume id 0) _ [] s Hf (quic_consume_zero id _ (fl_quic _ _ _ Hf))
    (quic_consume_inv false id 0 ltac:(lia))) as Ht.
  pose proof (transport_conn (quic_consume id 0) s) as Hc. pose proof (on_transport_same (quic_consume id 0) s) as Hsm.
  destruct (on_transport _ s) as [[x|e] s1]; simpl in *; rewrite <- Hc in Ht; [|by right].
  destruct Hsm as (_ & Hst & _). rewrite <- Hst in Hid.
  pose proof (h3_bounds s1 id st (fl_h3 _ _ _ Ht) Hid) as (Hun & _ & _). pose proof (inv_ranges s1 (fl_h3 _ _ _ Ht)) as (_ & _ & _ & ? & _).
  pose proof (hi_input_max s1 (fl_h3 _ _ _ Ht)). rewrite (wrap64_exact (hs_unread st - 0)) in * by lia.
  match goal with |- flow _ _ ?s2 => assert (h_conn s2 = h_conn s1) as -> by (by case_match) end.
  apply (flow_same _ _ s1); [done|done|by case_match|]. intros i. unfold h3_unread.
  destruct (hs_closed st && _) eqn:E; simpl.
  - apply andb_true_iff in E as [_ E]. bool_facts. rewrite lookup_delete, lookup_insert.
    destruct (decide (id = i)) as [<-|]; [rewrite Hid; simpl; lia|done].
  - rewrite lookup_insert. destruct (decide (id = i)) as [<-|]; [rewrite Hid; simpl; lia|done].
Qed.

Lemma h3_cancel_balances id : balances [] [] (h3_cancel id).
Proof.
  intros s Hf. unfold wp, h3_cancel. destruct (negb _); [by right|]. destruct (_ || _); [by right|].
  pose proof (flow_conn [] s _ Hf (shutdown_write_law id (h_conn s))) as Hf1.
  set (s1 := set_h_conn _ s) in *. change (h_conn s1) with (h3_shutdown_stream_write id (h_conn s)).
  pose proof (serve_h3_flow _ _ _ [] s1 Hf1 (shutdown_read_law id (h3_shutdown_stream_write id (h_conn s)))) as Hv.
  destruct (serve_h3 _ s1) as [rv s2]. destruct Hv as (v & Hfv & Hl).
  refine (balances_seq [] _ _ (h_check_balances [] rv) _ s2 (flow_lighter _ _ _ _ Hfv Hl)).
  intros _. apply h_try_balances; [apply quic_cancel_leaves|apply quic_cancel_inv].
Qed.

Lemma h3_shutdown_notice_balances : balances [] [] h3_shutdown_notice.
Proof.
  intros s Hf. unfold wp, h3_shutdown_notice. destruct (negb _); [by right|]. destruct (h_final_goaway s); [by right|].
  destruct (h_going s); [done|]. apply h_call_balances; [apply notice_law|]. by apply (flow_tables _ _ s).
Qed.

Lemma h3_shutdown_balances : balances [] [] h3_shutdown.
Proof.
  intros s Hf. unfold wp, h3_shutdown. destruct (_ || _); [by right|]. destruct (h_final_goaway s); [done|].
  refine (balances_seq [] _ _ (h_call_balances [] _ conn_shutdown_law) (fun _ => _) s Hf). intros s' Hf'.
  by apply (flow_tables _ _ s').
Qed.

Lemma settled_after {A} es s (m : H3 T N A) : balances es es m -> flow (vw s) es s -> settled es (after s (m s)).
Proof.
  intros Hm Hf. specialize (Hm s Hf). unfold wp, after in *. destruct (m s); [by right|done|by right].
Qed.

(** An engine that has failed stays so. *)
Lemma h3_op_failed o s : h_failed s = true -> h_failed (h3_op o s) = true.
Proof.
  intros Hf. assert (h3_ready s = false) as Hr by (unfold h3_ready; by rewrite Hf, andb_false_r).
  destruct o as [packet now|now|now|fs body|id fs body| |id n|id| | |code now]; simpl; try done.
  - unfold h3_receive. by rewrite Hf.
  - unfold h3_poll, out_bind, h_process. by rewrite Hf.
  - unfold h3_handle_expiry. by rewrite Hf.
  - unfold h3_request. by rewrite Hr.
  - unfold h3_respond. destruct (h_streams s !! id); [by rewrite Hr|done].
  - unfold h3_consume. by rewrite Hf.
  - unfold h3_cancel. by rewrite Hr.
  - unfold h3_shutdown_notice. by rewrite Hr.
  - unfold h3_shutdown. by rewrite Hr.
  - unfold h3_close, h_try, on_transport. simpl. by destruct (quic_close code now (h_transport s)).
Qed.

Lemma h3_op_settled o s : hop_ok o -> settled [] s -> settled [] (h3_op o s).
Proof.
  intros Ho [Hf|Hf]; [left; by apply h3_op_failed|].
  destruct o as [| | | | | | | | | |code now]; simpl in *;
    [..|left; unfold h3_close, h_try, on_transport; simpl; by destruct (quic_close code now (h_transport s))];
    try (apply settled_after; [|done]).
  - apply h3_receive_balances.
  - apply h3_poll_balances.
  - apply h3_handle_expiry_balances.
  - apply h3_request_balances.
  - apply h3_respond_balances.
  - right. exact (h3_take_flow s Hf).
  - by apply h3_consume_balances.
  - apply h3_cancel_balances.
  - apply h3_shutdown_notice_balances.
  - apply h3_shutdown_balances.
Qed.

Lemma h3_run_settled ops s : Forall hop_ok ops -> settled [] s -> settled [] (h3_run ops s).
Proof. intros Ho. revert s; induction Ho as [|o ops Ho _ IH]; intros s Hs; [done|]. apply IH. by apply h3_op_settled. Qed.

Lemma new_h3_flow q server l n :
  quic_inv false q -> q_streams q = ∅ -> q_events q = [] -> h3_inv (new_h3 q server l n) -> h3_view n = ∅ ->
  flow (vw (new_h3 q server l n)) [] (new_h3 q server l n).
Proof.
  intros Hq Hs He Hi Hn. apply (flow_lighter ∅).
  - split; [done|done|done|]. intros id. unfold owed, quic_unread, h3_unread. simpl. by rewrite Hs, He.
  - simpl. rewrite <- Hn. destruct server; [apply set_max_law|apply lighter_refl].
Qed.
End Flow.

(** C18: HTTP/3 over QUIC, both libraries keeping their contracts: after any calls, an
    engine that has not failed never has more on its own books than QUIC has on its
    (per stream, the body the application did not consume and the data nghttp3 holds
    are delivered by QUIC and not consumed), and so every [consume] of body the
    application was given succeeds. *)
Theorem h3_flow_agrees {T N : Type} {HT : Ngtcp2 T} {HW : Ngtcp2Writes T} {HX : Ngtcp2Window T} {HN : Nghttp3 N}
    {HL : Nghttp3Laws N} (o : QuicOptions) (start : Z) (t : T) (server : bool) (l : H3Limits) (n : N) (ops : list HOp) :
  quic_options_ok o = true -> 0 <= qo_max_streams o ->
  h3_limits_ok l = true -> 0 <= h_max_streams l -> 0 <= h_max_headers l -> 0 <= h_max_header_bytes l ->
  0 <= h_max_buffered_body l -> 0 <= h_max_events l -> h3_view n = ∅ -> Forall hop_ok ops ->
  let s := h3_run ops (new_h3 (new_engine o start t) server l n) in
  h_failed s = false ->
  (forall id, 0 <= h3_unread s id /\ 0 <= holds (h3_view (h_conn s)) id /\
     h3_unread s id + holds (h3_view (h_conn s)) id <= quic_unread (h_transport s) id - queued (q_events (h_transport s)) id) /\
  (forall id k, 0 < k <= h3_unread s id -> exists s', h3_consume id k s = Returns tt s').
Proof.
  intros Ho Hm Hl H1 H2 H3 H4 H5 Hn Hops s Hnf.
  assert (settled [] s) as [Hbad|Hf]; [|by rewrite Hnf in Hbad|].
  { apply h3_run_settled; [done|right]. apply new_h3_flow; [by apply inv_new|done|done|by apply h3_inv_new|done]. }
  split.
  - intros id. pose proof (fl_books _ _ _ Hf id) as Hb. unfold owed in Hb. simpl in Hb.
    split_and!; [by apply h3_unread_nonneg, Hf|apply Hf|lia].
  - intros id k [Hk Hle]. unfold h3_unread in Hle. destruct (h_streams s !! id) as [st|] eqn:Hid; simpl in Hle; [|lia].
    destruct (h3_consume_ok id k st s) as (s' & Hc & _); eauto.
Qed.

Lemma h3_flow_agrees_witness :
  let s := h3_run [hop_receive [] 1; hop_take] gone_client in
  h3_unread s 0 = 3 /\ quic_unread (h_transport s) 0 = 3 /\ exists s', h3_consume 0 2 s = Returns tt s'.
Proof.
  intros s. split_and!; [vm_compute; reflexivity|vm_compute; reflexivity|].
  refine (proj2 (h3_flow_agrees (mk_quic_options true here there [] (lit "h3") 4096 4 0) 0
    (toy_server [[cb_stream_data true 0 (lit "abcd")]; [cb_stream_close 0 0]]) true tiny_limits
    (toy_http3 [[hcb_begin 0; hcb_header 0 (lit "m") (lit "v"); hcb_end_headers 0; hcb_data 0 (lit "abc")]])
    [hop_receive [] 1; hop_take] eq_refl _ eq_refl _ _ _ _ _ eq_refl _ _) 0 2 _); try discriminate;
    [repeat constructor|vm_compute; reflexivity|split; [reflexivity|vm_compute; discriminate]].
Defined.
