(* ===== verification/Http3Connection.v ===== *)
(** * Http3Connection: [http3::Connection] (http3/include/mira/http3/connection.hpp)

    The HTTP/3 engine driven over a datagram transport; the source repeats the code
    of [quic::Connection], which is [DatagramConnection] here, and has readers of
    its own: [await_head] takes the next header block of a stream wherever it is in
    the queue, [read_body] what is at the front. *)

From stdpp Require Import gmap.
From S2P Require Import Prelude Sums Errors Endpoint Streams DatagramConnection DatagramPump Quic QuicLaws QuicInv.
From S2P Require Import QuicConnection Http3 Http3Laws Http3Inv Http3Flow.

Local Open Scope Z_scope.
Local Open Scope mira_scope.

(** ** The class *)

(** [BodyChunk]; a [MessageHead] is its fields. *)
Record BodyChunk := mk_body_chunk { bc_data : bytes; bc_fin : bool }.

#[export] Instance h3_stream_event : StreamEvent HEvent := {| ev_stream := he_stream |}.

(** What [take_body] makes of the event at the front. *)
Definition body_of (e : HEvent) : option BodyChunk :=
  match he_kind e with
  | HKind.body => Some (mk_body_chunk (he_data e) false)
  | HKind.ended | HKind.reset => Some (mk_body_chunk [] true)
  | HKind.headers | HKind.goaway => None
  end.

(** The loop of [take_head] over a queue: what is returned, and the queue left. *)
Fixpoint pick_head (q : list HEvent) : option H3Headers * list HEvent :=
  match q with
  | [] => (None, [])
  | e :: rest =>
      match he_kind e with
      | HKind.headers => (Some (he_fields e), rest)
      | HKind.reset => (Some [], q)
      | _ => let '(r, rest) := pick_head rest in (r, e :: rest)
      end
  end.

Section Class.
Context {W T N : Type} `{DatagramTransport W} `{Ngtcp2 T} `{Nghttp3 N}.

#[export] Instance h3_datagram_engine : DatagramEngine (HImpl T N) HEvent := {|
  eng_poll := h3_poll;
  eng_receive := h3_receive;
  eng_handle_expiry := h3_handle_expiry;
  eng_close := h3_close;
  eng_expiry := h3_expiry;
  eng_is_server := h3_is_server;
  eng_take_events := h3_take_events;
|}.

Abbreviation Conn := (DConn W (HImpl T N) HEvent).

(** The code repeated from [quic::Connection]. *)
Definition hc_flush (io : IoOptions) : M Conn unit := dg_flush io.
Definition hc_do_pump (io : IoOptions) : M Conn unit := do_pump io.
Definition hc_collect_events : Conn -> Conn := collect_events.
Definition hc_pump (io : IoOptions) : M Conn unit := guarded (hc_do_pump io).
Definition hc_pump_until (fuel : nat) (done : Conn -> bool) (io : IoOptions) : M Conn unit := pump_until fuel done io.
Definition hc_close (code : Z) (io : IoOptions) : M Conn unit := dg_close code io.

(** [take_head(stream)], [take_body(stream)] *)
Definition take_head (id : Z) : Conn -> option H3Headers * Conn := take_from id pick_head.
Definition take_body (id : Z) : Conn -> option BodyChunk * Conn := take_from id (pick_front body_of).

(** [await_head(stream, io)], [read_body(stream, io)] *)
Definition hc_await_head (fuel : nat) (id : Z) (io : IoOptions) : M Conn H3Headers :=
  guarded (pump_for fuel (take_head id) io).
Definition hc_read_body (fuel : nat) (id : Z) (io : IoOptions) : M Conn BodyChunk :=
  guarded (pump_for fuel (take_body id) io).

(** [request] only queues; [respond] flushes. *)
Definition hc_request (fs : H3Headers) (body : bytes) : M Conn Z := on_engine (h3_request fs body).
Definition hc_respond (id : Z) (fs : H3Headers) (body : bytes) (io : IoOptions) : M Conn unit :=
  on_engine (h3_respond id fs body) ;;; hc_flush io.

Definition hc_consume (id n : Z) : M Conn unit := on_engine (h3_consume id n).
Definition hc_cancel (id : Z) : M Conn unit := on_engine (h3_cancel id).
Definition hc_shutdown_notice : M Conn unit := on_engine h3_shutdown_notice.
Definition hc_shutdown : M Conn unit := on_engine h3_shutdown.

(** [connect] and [serve]: the QUIC engine is made first, then the HTTP/3 engine on
    it; [bind], [setup] and [setup3] are what the transport and the two libraries
    make of their arguments. *)
Definition h3_make (quic : Z -> Result (QImpl T)) (create : QImpl T -> Result (HImpl T N)) (now : Z)
    : Result (HImpl T N) :=
  match quic now with Fail e => Fail e | Ok q => create q end.

Definition hc_connect (fuel : nat) (bind : Endpoint -> Result W) (setup : QuicOptions -> bytes -> Z -> Result T)
    (setup3 : bool -> H3Limits -> Result N) (o : QuicOptions) (l : H3Limits) (io : IoOptions) : Outcome Error unit Conn :=
  match bind (qo_local o) with
  | Fail e => Fails e tt
  | Ok w => dg_start fuel (h3_make (quic_client setup o) (fun q => h3_create setup3 q false l)) h3_ready (qo_remote o) io w
  end.

Definition hc_serve (fuel : nat) (w : W) (setup : QuicOptions -> bytes -> Z -> Result T)
    (setup3 : bool -> H3Limits -> Result N) (o : QuicOptions) (l : H3Limits) (initial : bytes) (io : IoOptions)
    : Outcome Error unit Conn :=
  dg_start fuel (h3_make (quic_accept setup o initial) (fun q => h3_create setup3 q true l)) h3_ready (qo_remote o) io w.
End Class.

(** ** The engine keeps the contract of connections *)

Section Contract.
Context {T N : Type} `{HT : Ngtcp2 T} `{HN : Nghttp3 N}.
Implicit Type s : HImpl T N.

Definition h_extends s s' : Prop := h_events s `prefix_of` h_events s' /\ h_server s' = h_server s.

#[export] Instance h_extends_preorder : PreOrder h_extends.
Proof. split; [by intros s|]. intros s1 s2 s3 [H1 E1] [H2 E2]. split; [by etrans|by rewrite E2]. Qed.

Lemma h_extends_same s s' : h_events s' = h_events s -> h_server s' = h_server s -> h_extends s s'.
Proof. intros He Hs. unfold h_extends. by rewrite He, Hs. Qed.

Abbreviation grows_h := (advances h_extends).

Lemma h_push_extends e s : h_extends s (h_push e s).2.
Proof. unfold h_push. case_match; [done|]. split; [by apply prefix_app_r|done]. Qed.

Lemma transport_extends {A} (m : Q T A) s : h_extends s (on_transport m s).2.
Proof. unfold on_transport. destruct (m _); by apply h_extends_same. Qed.

Lemma handle_h3_extends cb s : h_extends s (handle_h3 cb s).2.
Proof.
  destruct cb as [id|id name value|id|id data|id size|id|id code|id|id n|id|id count]; simpl;
    unfold on_h3_end, on_h3_shutdown.
  - unfold on_h3_begin. case_match; by apply h_extends_same.
  - unfold on_h3_header. repeat case_match; by apply h_extends_same.
  - unfold on_h3_end_headers. case_match; [|done]. etrans; [|apply h_push_extends]. by apply h_extends_same.
  - unfold on_h3_data. repeat (case_match; try done). etrans; [|apply h_push_extends]. by apply h_extends_same.
  - unfold on_h3_deferred. pose proof (transport_extends (quic_consume id (Z.of_nat size)) s) as Ht.
    by destruct (on_transport _ s) as [[]].
  - apply h_push_extends.
  - unfold on_h3_reset. pose proof (transport_extends (quic_cancel id code) s) as Ht.
    destruct (on_transport _ s) as [[] s']; [|done]. etrans; [exact Ht|apply h_push_extends].
  - etrans; [|apply h_push_extends]. by apply h_extends_same.
  - repeat case_match; by apply h_extends_same.
  - repeat case_match; by apply h_extends_same.
  - done.
Qed.

Lemma serve_h3_extends {R} (r : HRun N R) s : h_extends s (serve_h3 r s).2.
Proof.
  revert s; induction r as [x n|cb n k IH]; intros s; simpl; [by apply h_extends_same|].
  pose proof (handle_h3_extends cb (set_h_conn n s)) as Hh. destruct (handle_h3 cb (set_h_conn n s)) as [a s'].
  etrans; [|apply IH]. etrans; [|exact Hh]. by apply h_extends_same.
Qed.

Lemma h_check_grows rv : grows_h (h_check rv).
Proof. intros s. unfold wp, h_check. destruct (rv <? 0); by apply h_extends_same. Qed.

(** [check] on what a run of the library left. *)
Lemma checked_grows s s' rv : h_extends s s' -> wp (h_check rv) s' (fun _ => h_extends s) (fun _ => h_extends s).
Proof. intros Hs. eapply wp_mono; [apply h_check_grows| |]; cbv beta; intros; by transitivity s'. Qed.

Lemma h_call_grows f : grows_h (h_call f).
Proof.
  intros s. unfold wp, h_call. destruct (f (h_conn s)) as [rv n]. apply checked_grows. by apply h_extends_same.
Qed.

Lemma h_try_grows {A} (m : Q T A) : grows_h (h_try m).
Proof.
  intros s. unfold wp, h_try. pose proof (transport_extends m s) as Ht. by destruct (on_transport m s) as [[] s'].
Qed.

Lemma h_must_grows {A} (m : Q T A) : grows_h (h_must m).
Proof.
  intros s. unfold wp, h_must. pose proof (transport_extends m s) as Ht.
  destruct (on_transport m s) as [[] s']; [done|]. etrans; [exact Ht|by apply h_extends_same].
Qed.

Lemma h_initialize_grows : grows_h h_initialize.
Proof.
  intros s. unfold wp, h_initialize. destruct (_ || _); [done|]. destruct (negb _); [by apply h_extends_same|].
  match goal with |- match ?m s with _ => _ end => cut (grows_h m); [by intros Hb; apply (Hb s)|] end.
  do 3 (apply advances_bind; [typeclasses eauto|apply h_try_grows|intros ?]).
  do 2 (apply advances_bind; [typeclasses eauto|apply h_call_grows|intros ?]). intros s1. by apply h_extends_same.
Qed.

Lemma process_event_grows now e : grows_h (process_event now e).
Proof.
  intros s. unfold wp, process_event. destruct (qe_kind e).
  - pose proof (serve_h3_extends (h3_read_stream (qe_stream e) (qe_data e) (qe_fin e) now (h_conn s)) s) as Hv.
    destruct (serve_h3 _ s) as [n s1]. destruct (n <? 0); [by apply checked_grows|].
    destruct (0 <? n); [|by apply checked_grows].
    pose proof (h_must_grows (quic_consume (qe_stream e) n) s1) as Hm. unfold wp in Hm.
    destruct (h_must _ s1); [| |done]; by transitivity s1.
  - pose proof (serve_h3_extends (h3_add_ack_offset (qe_stream e) (qe_value e) (h_conn s)) s) as Hv.
    destruct (serve_h3 _ s) as [n s1]. by apply checked_grows.
  - pose proof (serve_h3_extends (h3_shutdown_stream_read (qe_stream e) (h_conn s)) s) as Hv.
    destruct (serve_h3 _ s) as [n s1].
    pose proof (h_push_extends (mk_hevent HKind.reset (qe_stream e) [] [] (qe_value e)) s1) as Hp.
    destruct (h_push _ s1) as [p s2]. apply checked_grows. by transitivity s1.
  - match goal with |- context [serve_h3 ?r s] => pose proof (serve_h3_extends r s) as Hv end.
    destruct (serve_h3 _ s) as [n s1]. by apply checked_grows.
Qed.

Lemma process_events_grows now es : grows_h (process_events now es).
Proof.
  induction es as [|e es IH]; simpl; [apply advances_ret; typeclasses eauto|].
  apply advances_bind; [typeclasses eauto|apply process_event_grows|done].
Qed.

Lemma h_process_grows now : grows_h (h_process now).
Proof.
  intros s. unfold wp, h_process. destruct (_ || _); [done|].
  match goal with |- match ?m ?s1 with _ => _ end => cut (grows_h m) end.
  { intros Hm. specialize (Hm (set_h_clock now s)). unfold wp in Hm.
    by match goal with |- match ?x with _ => _ end => destruct x end. }
  apply advances_bind; [typeclasses eauto|apply h_initialize_grows|]. intros _ s1. unfold wp. destruct (negb _); [done|].
  unfold quic_take_events. cbv beta iota zeta.
  match goal with |- match process_events now ?es ?s2 with _ => _ end =>
    pose proof (process_events_grows now es s2) as Hp; assert (h_extends s1 s2) as H2
      by (apply h_extends_same; destruct (h_server s1) eqn:Esv; simpl; by rewrite ?Esv); unfold wp in Hp; destruct (process_events now es s2) end;
    [| |done]; by etrans.
Qed.

Lemma h3_poll_rounds_grows k : grows_h (h3_poll_rounds k).
Proof.
  induction k as [|k IH]; simpl; [apply advances_ret; typeclasses eauto|].
  apply advances_bind; [typeclasses eauto| |intros [x|]; [apply advances_ret; typeclasses eauto|done]].
  intros s. unfold wp, h3_poll_round. destruct (_ =? 0); [done|].
  pose proof (serve_h3_extends (h3_writev_stream (h_conn s)) s) as Hv. destruct (serve_h3 _ s) as [w s1]. simpl in Hv.
  destruct (hw_n w <? 0); [by (simpl; etrans; [exact Hv|apply h_extends_same])|]. destruct (hw_id w =? -1); [done|].
  destruct (gather _ _) as [out available].
  match goal with |- context [on_transport ?m s1] => pose proof (transport_extends m s1) as Ht end.
  destruct (on_transport _ s1) as [[x|e] s2]; simpl in *; assert (h_extends s s2) as H2 by (by etrans).
  - pose proof (h_call_grows (h3_add_write_offset (hw_id w) (len out)) s2) as Hb. unfold wp, out_bind in *.
    destruct (h_call _ s2); [| |done]; simpl; by transitivity s2.
  - destruct (_ =? _); [done|]. by (simpl; etrans; [exact H2|apply h_extends_same]).
Qed.

Lemma h3_poll_grows now : grows_h (h3_poll now).
Proof.
  apply advances_bind; [typeclasses eauto|apply h_process_grows|]. intros _.
  apply advances_bind; [typeclasses eauto| |intros _; apply h_must_grows].
  intros s. unfold wp. destruct (h_initialized s); [|done]. by apply h3_poll_rounds_grows.
Qed.

Lemma h3_receive_grows packet now : grows_h (h3_receive packet now).
Proof.
  intros s. unfold wp, h3_receive. destruct (h_failed s); [done|].
  apply (advances_bind h_extends _ _ (h_must_grows _) (fun _ => h_process_grows now)).
Qed.

Lemma h3_handle_expiry_grows now : grows_h (h3_handle_expiry now).
Proof.
  intros s. unfold wp, h3_handle_expiry. destruct (h_failed s); [done|].
  apply (advances_bind h_extends _ _ (h_must_grows _) (fun _ => h_process_grows now)).
Qed.

Lemma h3_close_grows code now : grows_h (h3_close code now).
Proof.
  intros s. unfold wp, h3_close. pose proof (h_try_grows (quic_close code now) (set_h_failed s)) as Ht. unfold wp in Ht.
  by destruct (h_try _ _).
Qed.

#[export] Instance h3_engine_laws : EngineLaws (HImpl T N) HEvent.
Proof.
  refine {| eng_events := h_events |}; simpl.
  - intros now x. apply h3_poll_grows.
  - intros data now x. apply h3_receive_grows.
  - intros now x. apply h3_handle_expiry_grows.
  - intros code now x. apply h3_close_grows.
  - done.
Defined.
End Contract.

(** ** A connection is a run of its engine *)

Inductive HcOp :=
| hc_op_pump (io : IoOptions)
| hc_op_head (id : Z) (io : IoOptions)
| hc_op_body (id : Z) (io : IoOptions)
| hc_op_request (fs : H3Headers) (body : bytes)
| hc_op_respond (id : Z) (fs : H3Headers) (body : bytes) (io : IoOptions)
| hc_op_consume (id n : Z)
| hc_op_cancel (id : Z)
| hc_op_notice
| hc_op_shutdown
| hc_op_close (code : Z) (io : IoOptions).

Definition hc_op_ok (o : HcOp) : Prop := match o with hc_op_consume _ n => 0 <= n | _ => True end.

Section Refinement.
Context {W T N : Type} `{HW : DatagramTransport W} `{!TransportLaws W} `{HT : Ngtcp2 T} `{HN : Nghttp3 N}.
Abbreviation Conn := (DConn W (HImpl T N) HEvent).
Implicit Type c : DConn W (HImpl T N) HEvent.

Definition hc_rounds c : nat := S (dg_patience (dc_world c)).

Definition hc_do (o : HcOp) : M Conn unit := fun c =>
  match o with
  | hc_op_pump io => hc_pump io c
  | hc_op_head id io => (hc_await_head (hc_rounds c) id io ;;; out_ret tt) c
  | hc_op_body id io => (hc_read_body (hc_rounds c) id io ;;; out_ret tt) c
  | hc_op_request fs body => (hc_request fs body ;;; out_ret tt) c
  | hc_op_respond id fs body io => hc_respond id fs body io c
  | hc_op_consume id n => hc_consume id n c
  | hc_op_cancel id => hc_cancel id c
  | hc_op_notice => hc_shutdown_notice c
  | hc_op_shutdown => hc_shutdown c
  | hc_op_close code io => hc_close code io c
  end.

Definition hc_op (o : HcOp) c : Conn := after c (hc_do o c).

Definition hc_run (ops : list HcOp) c : Conn := foldl (fun c o => hc_op o c) c ops.

Fixpoint hc_failures (ops : list HcOp) c : nat :=
  match ops with
  | [] => 0
  | o :: ops => (match hc_do o c with Fails _ _ => 1 | _ => 0 end) + hc_failures ops (hc_op o c)
  end.

(** What an operation asks of the engine; closing is asked with its code. *)
Definition hc_asks (o : HcOp) : list (HOp + Z) :=
  match o with
  | hc_op_pump _ | hc_op_head _ _ | hc_op_body _ _ => []
  | hc_op_request fs body => [inl (hop_request fs body)]
  | hc_op_respond id fs body _ => [inl (hop_respond id fs body)]
  | hc_op_consume id n => [inl (hop_consume id n)]
  | hc_op_cancel id => [inl (hop_cancel id)]
  | hc_op_notice => [inl hop_notice]
  | hc_op_shutdown => [inl hop_shutdown]
  | hc_op_close code _ => [inr code]
  end.

Definition hop_of (o : EngCall) : HOp :=
  match o with
  | ec_poll now => hop_poll now
  | ec_receive data now => hop_receive data now
  | ec_expiry now => hop_expiry now
  | ec_close code now => hop_close code now
  | ec_take => hop_take
  end.

Lemma eng_call_h3 o (x : HImpl T N) : (eng_call o x).2 = h3_op (hop_of o) x.
Proof.
  destruct o as [now|data now|now|code now|]; try done; cbv [eng_call h3_op hop_of eng_poll eng_close h3_datagram_engine];
    [by destruct (h3_poll now x)|by destruct (h3_close code now x)].
Qed.

(** What the engine saw, as a run of [Http3Inv]. *)
Definition hops (tr : list (EngCall + HOp)) : list HOp :=
  (fun o => match o with inl o => hop_of o | inr o => o end) <$> tr.

Lemma tr_run_h3 tr (x : HImpl T N) : (tr_run h3_op tr x).2 = h3_run (hops tr) x.
Proof.
  revert x; induction tr as [|[o|o] tr IH]; intros x; simpl; [done| |apply IH]. rewrite <- eng_call_h3.
  destruct (eng_call o x) as [p x1]. simpl. specialize (IH x1). destruct (tr_run h3_op tr x1). exact IH.
Qed.

Lemma hops_ok tr :
  Forall (fun a => match a with inl o => hop_ok o | inr _ => True end) (asked tr) -> Forall hop_ok (hops tr).
Proof.
  induction tr as [|[o|o] tr IH]; intros Ha; [constructor| |].
  - constructor; [by destruct o|]. apply IH. destruct o; try exact Ha. exact (Forall_inv_tail Ha).
  - constructor; [exact (Forall_inv Ha)|]. apply IH. exact (Forall_inv_tail Ha).
Qed.

Abbreviation asks_h := (tracks (h3_op (T := T) (N := N))).

(** An operation of the engine that the application calls directly. *)
Lemma h_direct_asks {A} (m : H3 T N A) o :
  (forall s, after s (m s) = h3_op o s) -> advances h_extends m -> asks_h [inl o] (on_engine (W := W) m).
Proof.
  intros Hm Hg. apply engine_tracks. intros s. specialize (Hm s). specialize (Hg s). unfold wp in Hg.
  rewrite <- Hm. unfold after. by destruct (m s) as [a s'|e s'|]; destruct Hg.
Qed.

Lemma h_submit_grows id fs body : advances h_extends (h_submit (T := T) (N := N) id fs body).
Proof.
  intros s. unfold wp, h_submit. destruct (h_streams s !! id) as [st|]; [|done]. set (s1 := set_h_output _ _).
  assert (h_extends s s1) as H1 by (by apply h_extends_same).
  match goal with |- context [h_call ?f] => pose proof (h_call_grows f s1) as Hc end. unfold wp, out_bind in *.
  destruct (h_call _ s1) as [[] s2|e s2|]; [| |done]; [|by transitivity s1].
  transitivity s1; [done|]. transitivity s2; [done|]. destruct (h_streams s2 !! id); by apply h_extends_same.
Qed.

Lemma h3_request_grows fs body : advances h_extends (h3_request (T := T) (N := N) fs body).
Proof.
  intros s. unfold wp, h3_request. destruct (_ || _); [done|]. destruct (negb _); [done|].
  match goal with |- match ?m s with _ => _ end => cut (advances h_extends m); [by intros Hb; apply (Hb s)|] end.
  apply advances_bind; [typeclasses eauto|apply h_try_grows|]. intros id.
  apply advances_bind; [typeclasses eauto| |].
  - intros s1. unfold wp. destruct (h_streams s1 !! id); by apply h_extends_same.
  - intros _. apply advances_bind; [typeclasses eauto|apply h_submit_grows|]. intros _. apply advances_ret; typeclasses eauto.
Qed.

Lemma h3_respond_grows id fs body : advances h_extends (h3_respond (T := T) (N := N) id fs body).
Proof.
  intros s. unfold wp, h3_respond. destruct (h_streams s !! id); [|done]. destruct (_ || _); [done|].
  destruct (negb _); [done|]. apply h_submit_grows.
Qed.

Lemma h3_consume_grows id n : advances h_extends (h3_consume (T := T) (N := N) id n).
Proof.
  intros s. unfold wp, h3_consume. destruct (h_failed s); [done|].
  destruct (h_streams s !! id) as [st|]; [|by destruct (n =? 0)]. destruct (_ <? _); [done|].
  pose proof (h_try_grows (quic_consume id n) s) as Ht. unfold wp, out_bind in *.
  destruct (h_try _ s) as [[] s1|e s1|]; [| |done]; [|done]. transitivity s1; [done|]. case_match; by apply h_extends_same.
Qed.

Lemma h3_cancel_grows id : advances h_extends (h3_cancel (T := T) (N := N) id).
Proof.
  intros s. unfold wp, h3_cancel. destruct (negb _); [done|]. destruct (_ || _); [done|].
  set (s1 := set_h_conn _ s). assert (h_extends s s1) as H1 by (by apply h_extends_same).
  pose proof (serve_h3_extends (h3_shutdown_stream_read id (h_conn s1)) s1) as Hv.
  destruct (serve_h3 _ s1) as [rv s2]. simpl in Hv.
  pose proof (advances_bind h_extends _ _ (h_check_grows rv)
    (fun _ => h_try_grows (quic_cancel id NGHTTP3_H3_REQUEST_CANCELLED)) s2) as Hb. unfold wp in Hb.
  match goal with |- match ?x with _ => _ end => destruct x end; [| |done]; (transitivity s1; [done|]); by transitivity s2.
Qed.

Lemma h3_shutdown_notice_grows : advances h_extends (h3_shutdown_notice (T := T) (N := N)).
Proof.
  intros s. unfold wp, h3_shutdown_notice. destruct (negb _); [done|]. destruct (h_final_goaway s); [done|].
  destruct (h_going s); [done|]. pose proof (h_call_grows h3_submit_shutdown_notice (set_h_going s)) as Hc.
  unfold wp in Hc. destruct (h_call _ _); [| |done]; (transitivity (set_h_going s); [by apply h_extends_same|done]).
Qed.

Lemma h3_shutdown_grows : advances h_extends (h3_shutdown (T := T) (N := N)).
Proof.
  intros s. unfold wp, h3_shutdown. destruct (_ || _); [done|]. destruct (h_final_goaway s); [done|].
  apply (advances_bind h_extends _ _ (h_call_grows _)). intros _ s1. by apply h_extends_same.
Qed.

Lemma hc_do_asks o : asks_h (hc_asks o) (hc_do o).
Proof.
  destruct o as [io|id io|id io|fs body|id fs body io|id n|id| | |code io]; simpl.
  - apply runs_tracks, pump_runs.
  - intros c. apply wp_bind. eapply wp_mono; [apply (reader_tracks (h3_op (T := T) (N := N))); unfold hc_rounds; lia|done|done].
  - intros c. apply wp_bind. eapply wp_mono; [apply (reader_tracks (h3_op (T := T) (N := N))); unfold hc_rounds; lia|done|done].
  - apply tracks_then; [apply h_direct_asks; [done|apply h3_request_grows]|apply runs_ret].
  - apply tracks_then; [apply h_direct_asks; [done|apply h3_respond_grows]|apply flush_runs].
  - apply h_direct_asks; [done|apply h3_consume_grows].
  - apply h_direct_asks; [done|apply h3_cancel_grows].
  - apply h_direct_asks; [done|apply h3_shutdown_notice_grows].
  - apply h_direct_asks; [done|apply h3_shutdown_grows].
  - apply close_tracks.
Qed.

Lemma hc_run_tracked ops c :
  tracked (h3_op (T := T) (N := N)) (flat_map hc_asks ops) (hc_failures ops c) c (hc_run ops c).
Proof.
  revert c; induction ops as [|o ops IH]; intros c; simpl; [apply tracked_refl|].
  apply (tracked_app _ _ _ _ _ c (hc_op o c)); [|apply IH]. pose proof (hc_do_asks o c) as Ho. unfold wp, hc_op, after in *.
  by destruct (hc_do o c).
Qed.

Lemma hc_asks_ok ops : Forall hc_op_ok ops ->
  Forall (fun a : HOp + Z => match a with inl o => hop_ok o | inr _ => True end) (flat_map hc_asks ops).
Proof.
  induction 1 as [|o ops Ho _ IH]; simpl; [constructor|]. apply Forall_app. split; [|done].
  destruct o; repeat constructor; done.
Qed.
End Refinement.

(** ** Readers *)

(** Where the head of a message is found in a queue: before it nothing but body, ends
    and shutdowns.  A head is taken out, a reset stays. *)
Definition head_at (q : list HEvent) (h : H3Headers) (q' : list HEvent) : Prop :=
  exists before e rest, q = before ++ e :: rest /\
    Forall (fun e => he_kind e <> HKind.headers /\ he_kind e <> HKind.reset) before /\
    (he_kind e = HKind.headers /\ h = he_fields e /\ q' = before ++ rest \/
     he_kind e = HKind.reset /\ h = [] /\ q' = q).

Lemma pick_head_spec q :
  match pick_head q with
  | (Some h, q') => head_at q h q'
  | (None, q') => q' = q
  end.
Proof.
  induction q as [|e q IH]; simpl; [done|].
  destruct (he_kind e) eqn:Ek; [exists [], e, q; split_and!; [done|done|by left]| | |exists [], e, q; split_and!; [done|done|by right]|];
    destruct (pick_head q) as [[h|] q']; try (by rewrite IH);
    destruct IH as (before & e0 & rest & -> & Hb & He); exists (e :: before), e0, rest;
    (split; [done|]); (split; [by constructor; [rewrite Ek|]|]);
    (destruct He as [(? & ? & ->)|(? & ? & ->)]; [by left|by right]).
Qed.

Section Readers.
Context {W T N : Type} `{HW : DatagramTransport W} `{!TransportLaws W} `{HT : Ngtcp2 T} `{HN : Nghttp3 N}.
Implicit Type c : DConn W (HImpl T N) HEvent.

(** An untouched queue is stored as it was. *)
Lemma take_head_patient id : patient (take_head (W := W) (T := T) (N := N) id).
Proof.
  intros c. unfold take_head, take_from. destruct (dc_buffers c !! id) as [[|e q]|] eqn:Hb; [done| |done].
  pose proof (pick_head_spec (e :: q)) as Hp. destruct (pick_head (e :: q)) as [[h|] q']; [done|]. subst q'.
  simpl. destruct c. simpl in *. unfold set_buffers. simpl. by rewrite insert_id.
Qed.

Lemma take_head_spec id c h c' :
  take_head id c = (Some h, c') ->
  head_at (unread_events c id) h (unread_events c' id) /\
  (forall i, i <> id -> unread_events c' i = unread_events c i).
Proof.
  unfold take_head, take_from. destruct (dc_buffers c !! id) as [[|e q]|] eqn:Hb; try done.
  pose proof (pick_head_spec (e :: q)) as Hp. destruct (pick_head (e :: q)) as [[h0|] q'] eqn:Epick; [|done].
  intros [= <- <-]. unfold unread_events. simpl. rewrite Hb.
  change (default [] (Some (e :: q))) with (e :: q). split.
  - assert (default [] ((if (length q' =? 0)%nat then delete id (dc_buffers c) else <[id := q']> (dc_buffers c)) !! id) = q') as ->.
    { destruct q' as [|e' q']; simpl; [by rewrite lookup_delete_eq|by rewrite lookup_insert_eq]. }
    destruct Hp as (before & e0 & rest & Heq & Hbe & He). exists before, e0, (rest ++ filter (fun e => he_stream e = id) (h_events (dc_engine c))).
    rewrite Heq. split; [by rewrite <- app_assoc|]. split; [done|].
    destruct He as [(Hk & -> & ->)|(Hk & -> & ->)]; [left|right]; (split_and!; [done|done|]); [by rewrite <- app_assoc|].
    by rewrite Heq.
  - intros i Hi. destruct q' as [|e' q']; simpl; [by rewrite lookup_delete_ne|by rewrite lookup_insert_ne].
Qed.

Lemma well_prefix c c' i : ran_well [] c c' -> unread_events c i `prefix_of` unread_events c' i.
Proof. intros (ops & new & Hr & _). destruct (rn_events _ _ _ _ _ Hr i) as [more Hm]. by exists more. Qed.

Lemma short_prefix c c' i : ran_short [] c c' -> unread_events c i `prefix_of` unread_events c' i.
Proof. intros (ops & wh & cut & rest & Hr & _). destruct (rn_events _ _ _ _ _ Hr i) as [more Hm]. by exists more. Qed.

Lemma read_body_reads fuel id io c :
  dc_pumping c = false -> (dg_patience (dc_world c) < fuel)%nat ->
  wp (hc_read_body fuel id io) c (read_well id body_of c) (fun _ => read_short id body_of c).
Proof.
  intros Hp Hf. apply wp_guarded; [by rewrite Hp|]. intros _.
  eapply wp_mono; [by apply (pump_for_reads fuel id body_of io)| |].
  - intros a c' (sk & e & Hr & Hsk & He). exists sk, e. split; [by apply guarded_well|done].
  - intros e c' (sk & lost & Hr & Hsk & He). exists sk, lost. split; [by apply guarded_short|done].
Qed.
End Readers.

(** Whatever the application does with an HTTP/3 connection, its engine sees what
    the application asked for, once each and in order, and every datagram that came
    in and concerns the connection; that is a run of its own operations, so that the
    limits of [Http3Inv] and the flow control of [Http3Flow] are those of connections
    too.  What the engine produced went out in order, whole but for one packet at
    most for each operation that failed, and a client's to its server only. *)
Theorem h3_connection_refines_engine {W T N : Type} {HW : DatagramTransport W} {LW : TransportLaws W} {HT : Ngtcp2 T}
    {HN : Nghttp3 N} (w : W) (q : QImpl T) (server : bool) (l : H3Limits) (n : N) (remote : Endpoint)
    (ops : list HcOp) :
  Forall hc_op_ok ops ->
  let x := new_h3 q server l n in
  let c0 := new_dconn w x remote in
  let c := hc_run ops c0 in
  exists tr got new,
    dc_engine c = (tr_run h3_op tr x).2 /\ dc_engine c = h3_run (hops tr) x /\ Forall hop_ok (hops tr) /\
    asked tr = flat_map hc_asks ops /\
    dg_received (dc_world c) = dg_received w ++ got /\ packets_in (engine_part tr) = heard server remote got /\
    dc_remote c = follows server remote got /\
    dg_sent (dc_world c) = dg_sent w ++ new /\ sent_but (hc_failures ops c0) (tr_run h3_op tr x).1 (snd <$> new) /\
    (server = false -> Forall (fun d => d.1 = remote) new).
Proof.
  intros Ho x c0 c. destruct (hc_run_tracked ops c0) as [(tr & new & He & Ha & (got & Hg & Hp & Hr) & Hs & Hb & Hc) _].
  exists tr, got, new. rewrite <- tr_run_h3. split_and!; try done. apply hops_ok. rewrite Ha. by apply hc_asks_ok.
Qed.

(** [await_head] returns the first header block of the stream that was not read,
    wherever it stands behind body that was not read either, and leaves everything
    else in place and order; a stream that was reset before any gives an empty head. *)
Theorem h3_head_is_found {W T N : Type} {HW : DatagramTransport W} {LW : TransportLaws W} {HT : Ngtcp2 T}
    {HN : Nghttp3 N} (fuel : nat) (id : Z) (io : IoOptions) (c : DConn W (HImpl T N) HEvent) :
  dc_pumping c = false -> (dg_patience (dc_world c) < fuel)%nat ->
  wp (hc_await_head fuel id io) c
    (fun h c' => exists more q' more', head_at (unread_events c id ++ more) h q' /\ unread_events c' id = q' ++ more' /\
       forall i, i <> id -> unread_events c i `prefix_of` unread_events c' i)
    (fun _ c' => forall i, i <> id -> unread_events c i `prefix_of` unread_events c' i).
Proof.
  intros Hp Hf. apply wp_guarded; [by rewrite Hp|]. intros _. set (c0 := set_pumping true c).
  assert (forall (c1 c2 : DConn W (HImpl T N) HEvent) h i, unread_events c0 i `prefix_of` unread_events c1 i -> take_head id c1 = (Some h, c2) -> i <> id ->
    unread_events c0 i `prefix_of` unread_events c2 i) as Hother.
  { intros c1 c2 h i H1 Ht Hi. destruct (take_head_spec _ _ _ _ Ht) as [_ Ho]. by rewrite Ho. }
  eapply wp_mono; [by apply (pump_for_patient fuel (take_head id) io c0 (take_head_patient id))| |]; cbv beta.
  - intros h c' (c1 & c2 & H1 & Ht & H2). destruct (take_head_spec _ _ _ _ Ht) as [Hh _].
    destruct (well_prefix _ _ id H1) as [more Hm]. destruct (well_prefix _ _ id H2) as [more' Hm'].
    exists more, (unread_events c2 id), more'. rewrite Hm in Hh. split_and!; [exact Hh|exact Hm'|].
    intros i Hi. transitivity (unread_events c2 i); [|exact (well_prefix _ _ i H2)].
    by apply (Hother c1 c2 h); [apply well_prefix| |].
  - intros e c' [Hs|(h & c1 & c2 & H1 & Ht & H2)] i Hi; [exact (short_prefix _ _ i Hs)|].
    transitivity (unread_events c2 i); [|exact (short_prefix _ _ i H2)]. by apply (Hother c1 c2 h); [apply well_prefix| |].
Qed.

(** [read_body] returns the body of a stream in the order it arrived: the next
    event in line, after throwing away header blocks and shutdown notices only, with
    all the engine's packets sent; other streams are not touched.  When it fails, at
    most one chunk is lost. *)
Theorem h3_body_in_order {W T N : Type} {HW : DatagramTransport W} {LW : TransportLaws W} {HT : Ngtcp2 T}
    {HN : Nghttp3 N} (fuel : nat) (id : Z) (io : IoOptions) (c : DConn W (HImpl T N) HEvent) :
  dc_pumping c = false -> (dg_patience (dc_world c) < fuel)%nat ->
  wp (hc_read_body fuel id io) c
    (fun chunk c' =>
       exists skipped e more, unread_events c id ++ more = skipped ++ e :: unread_events c' id /\
         Forall (fun e => he_kind e = HKind.headers \/ he_kind e = HKind.goaway) skipped /\ body_of e = Some chunk /\
         (forall i, i <> id -> unread_events c i `prefix_of` unread_events c' i) /\
         exists ops new, dc_engine c' = (eng_run ops (dc_engine c)).2 /\
           dg_sent (dc_world c') = dg_sent (dc_world c) ++ new /\ (eng_run ops (dc_engine c)).1 = snd <$> new)
    (fun _ c' =>
       exists skipped lost more, unread_events c id ++ more = skipped ++ lost ++ unread_events c' id /\
         Forall (fun e => he_kind e = HKind.headers \/ he_kind e = HKind.goaway) skipped /\ (length lost <= 1)%nat /\
         (forall i, i <> id -> unread_events c i `prefix_of` unread_events c' i)).
Proof.
  intros Hp Hf. assert (forall e, body_of e = None -> he_kind e = HKind.headers \/ he_kind e = HKind.goaway) as Hskip.
  { intros e. unfold body_of. destruct (he_kind e); naive_solver. }
  eapply wp_mono; [by apply read_body_reads| |]; cbv beta.
  - intros chunk c' (sk & e & more & Hm & Hsk & Hrest)%read_well_spec. exists sk, e, more. split; [done|].
    split; [by eapply Forall_impl|done].
  - intros er c' (sk & lost & more & Hm & Hsk & Hrest)%read_short_spec. exists sk, lost, more. split; [done|].
    split; [by eapply Forall_impl|done].
Qed.

(** ** On a network *)

(** A request whose head, body, trailers and end come in one datagram. *)
Definition trailing_client : list (list HCallback) :=
  [[hcb_begin 0; hcb_header 0 (lit "m") (lit "v"); hcb_end_headers 0; hcb_data 0 (lit "abc");
    hcb_begin 0; hcb_header 0 (lit "t") (lit "u"); hcb_end_headers 0; hcb_end 0]].

Definition web_limits : H3Limits := mk_h3_limits 256 4 4096 16 2.

Definition web_server (datagrams : nat) : DConn Net (HImpl ToyQuic ToyH3) HEvent :=
  new_dconn (net (replicate datagrams (Some ([], there))))
    (new_h3 (quic_server [[cb_stream_data true 0 (lit "abcdef")]]) true web_limits (toy_http3 trailing_client)) there.

Lemma h3_connection_refines_engine_witness :
  let ops := [hc_op_head 0 no_io; hc_op_body 0 no_io; hc_op_consume 0 3; hc_op_respond 0 [(lit "s", lit "200")] [] no_io] in
  let c := hc_run ops (web_server 1) in
  (exists d, n_sent (dc_world c) = [(there, d)]) /\
  exists tr, dc_engine c = h3_run (hops tr) (dc_engine (web_server 1)) /\
    asked tr = [inl (hop_consume 0 3); inl (hop_respond 0 [(lit "s", lit "200")] [])].
Proof.
  intros ops c. split; [eexists; vm_compute; reflexivity|].
  assert (Forall hc_op_ok ops) as Ho by (repeat constructor; discriminate).
  destruct (h3_connection_refines_engine (net (replicate 1 (Some ([], there))))
    (quic_server [[cb_stream_data true 0 (lit "abcdef")]]) true web_limits (toy_http3 trailing_client) there ops Ho)
    as (tr & got & new & _ & He & _ & Ha & _).
  exists tr. split; [exact He|exact Ha].
Defined.

Lemma h3_head_is_found_witness :
  let c := web_server 1 in
  match hc_await_head 2 0 no_io c with
  | Returns h c' => h = [(lit "m", lit "v")] /\
      exists more q', head_at (unread_events c 0 ++ more) h q' /\ exists more', unread_events c' 0 = q' ++ more'
  | _ => False
  end.
Proof.
  intros c. assert ((dg_patience (dc_world c) < 2)%nat) as Hf by (vm_compute; repeat constructor).
  pose proof (h3_head_is_found 2 0 no_io c eq_refl Hf) as H. unfold wp in H.
  assert (match hc_await_head 2 0 no_io c with Returns h _ => h = [(lit "m", lit "v")] | _ => False end) as Hr
    by (vm_compute; reflexivity).
  destruct (hc_await_head 2 0 no_io c) as [h c'|e c'|]; [|destruct Hr|destruct Hr]. split; [exact Hr|].
  destruct H as (more & q' & more' & Hh & Hm & _). exists more, q'. split; [exact Hh|]. exists more'. exact Hm.
Defined.

Lemma h3_body_in_order_witness :
  let c := web_server 2 in
  match hc_read_body 3 0 no_io c with
  | Returns chunk c' => chunk = mk_body_chunk (lit "abc") false /\
      exists skipped e more, unread_events c 0 ++ more = skipped ++ e :: unread_events c' 0 /\ body_of e = Some chunk
  | _ => False
  end.
Proof.
  intros c. assert ((dg_patience (dc_world c) < 3)%nat) as Hf by (vm_compute; repeat constructor).
  pose proof (h3_body_in_order 3 0 no_io c eq_refl Hf) as H. unfold wp in H.
  assert (match hc_read_body 3 0 no_io c with Returns chunk _ => chunk = mk_body_chunk (lit "abc") false | _ => False end) as Hr
    by (vm_compute; reflexivity).
  destruct (hc_read_body 3 0 no_io c) as [chunk c'|e c'|]; [|destruct Hr|destruct Hr]. split; [exact Hr|].
  destruct H as (sk & e & more & Hm & _ & Hc & _). exists sk, e, more. split; [exact Hm|exact Hc].
Defined.

(** [take_body] throws away a header block at the front of the queue and says that
    more pumping is needed: after the body of a message with trailers [read_body]
    waits for another datagram, and here, where none comes, fails, although the end
    of the message is in its buffer; and called before [await_head] it loses the head
    that a comment says is left for [await_head]. *)
Theorem body_waits_behind_headers :
  let c := hc_run [hc_op_head 0 no_io; hc_op_body 0 no_io] (web_server 1) in
  he_kind <$> unread_events c 0 = [HKind.headers; HKind.ended] /\
  match hc_read_body 3 0 no_io c with
  | Fails e c' => e = make_error_code Errc.cancelled /\ he_kind <$> unread_events c' 0 = [HKind.ended]
  | _ => False
  end /\
  let c := hc_run [hc_op_body 0 no_io] (web_server 1) in
  match hc_await_head 3 0 no_io c with Returns h _ => h = [(lit "t", lit "u")] | _ => False end.
Proof. vm_compute. split_and!; reflexivity. Qed.
